(* ===== verification/_CoqProject ===== *)
-Q . S2P
Prelude.v
MachineInt.v
Literals.v
Ir.v
LutOpt.v
Semantics.v
LutFacts.v
LutFixup.v
LutLower.v
LutLowerFacts.v
LutLowerCorrect.v
LutColumns.v
LutCombine.v
LutCombineCorrect.v
Run.v
Reduce.v
ReduceTree.v
ReduceCorrect.v
Algebraic.v
AlgebraicFacts.v
AlgebraicCorrect.v
AlgebraicSelect.v
AlgebraicNarrow.v
AlgebraicPasses.v
CompressedVector.v
CompressedVectorCorrect.v
BranchAndBound.v
BranchAndBoundSpec.v
BranchAndBoundOptimal.v
BranchAndBoundSparse.v
SparseGraph.v
SparseCorrect.v
ThreadPool.v
ThreadPoolFacts.v
ThreadPoolCorrect.v
MapToList.v
Propagations.v
PropagationCosts.v
PropagationContract.v
PropagationCorrect.v
Flow.v
Rename.v
RenameCorrect.v
Liveness.v
LivenessFacts.v
LivenessCorrect.v
Decompose.v
Emit.v
Decompositions.v
DecomposeCorrect.v
ConstProp.v
FlowPaths.v
ConstPropOps.v
ConstPropInvariant.v
ConstPropCorrect.v
ConstPropGlobals.v
Scheduler.v
SchedulerFacts.v
SchedulerCorrect.v
SchedulerBuild.v
PipelineStages.v
StageSemantics.v
StageCorrect.v
Opcodes.v
PathLength.v
DeadOperations.v
DeadSemantics.v
DeadCorrect.v
DeadRemoval.v
UnusedGlobals.v
BlockValues.v
CommonSubexpressions.v
CseFacts.v
CseCorrect.v
KillMoves.v
KillFacts.v
KillCorrect.v
DefUse.v
AddToOr.v
PackLuts.v
