(* ===== verification/Prelude.v ===== *)
(** * Verification of the Kanagawa compiler's middle and back end

    Kanagawa compiles a C-like language to hardware.  A Haskell front end hands
    a parse tree to the C++ compiler under [src/compiler/cpp], which evaluates
    constants ([parse_tree.cpp]), lowers the tree to a program of functions,
    basic blocks and operations ([lower.cpp], [ir.h]), optimises it
    ([optimize.cpp], [optimize_lut.cpp]), schedules the operations into pipeline
    stages ([schedule.cpp]), places the values that cross stages in FIFOs
    ([local_data_propagation.cpp], which asks [branch_and_bound.cpp] for the best
    plan) and prints a netlist ([verilog.cpp], [circt_util.cpp]).  This library
    models the parts that compute: it is a shallow embedding, each operation of
    the source a function, and it states what each part promises to the others.

    ** Conventions

    A [size_t] is a [Z] in [0, 2^64) with its wrap-around written out ([u64]);
    where it only is an index into a container or the length of one it is a
    [nat].  An [mp_int] is a [Z].  Code that asserts, throws or looks up a missing key
    returns [result], an error monad (below in this file); a loop over a
    container is [foldM] over its elements in the order of the container, a
    loop that is not structural has fuel, and a theorem about it gives an amount
    of fuel that is enough.  Code outside [src/] is a parameter: the Boost graph
    library in [BranchAndBoundSparse], the tasks in [ThreadPool].

    ** The files, in the order of the dependencies

    - [Prelude] (this file): the error monad, loop invariants, bit lemmas, sets
      in order, automation.  [MachineInt]: integers and the helpers of [pch.h].
      Its Module [Containers]: the map helpers.
    - [Literals]: literals, operators and their evaluation ([parse_tree.cpp]).
      [Ir]: registers, operands, operations ([ir.h]).  [Semantics]: the meaning
      of an operation over registers, which the optimisations must preserve, and
      constant folding against it.
    - [LutOpt], [LutFacts] (with a Module for each kind of pass), [LutFixup]:
      [FixupLutOps] and [OptimizeLutOpt], which simplify look-up tables.
      [LutLower], [LutLowerFacts], [LutLowerCorrect]: [LowerToLut].
      [LutColumns]: the bits of the registers that a table reads.  [LutCombine],
      [LutCombineCorrect]: [CombineLuts].
    - [Run], [Reduce], [ReduceTree], [ReduceCorrect]: sequences of
      operations, and the trees that reduce the bits of a value.
    - [Algebraic], [AlgebraicFacts], [AlgebraicCorrect], [AlgebraicSelect],
      [AlgebraicNarrow], [AlgebraicPasses]: the identities of [optimize.cpp]; the
      three cases in which they change a value are the inductive [rewritten].
    - [CompressedVector], [CompressedVectorCorrect]: the packed vectors of the
      search.  [BranchAndBound], [BranchAndBoundSpec], [BranchAndBoundOptimal]:
      the search against the contract of its callback ([bound_contract]).
      [BranchAndBoundSparse], [SparseGraph], [SparseCorrect]: the search along the components of a graph.
    - [Propagations] and its proofs ([PropagationCosts], [PropagationContract],
      [PropagationCorrect]): the client of the search,
      whose callback is shown to keep the contract.
    - [ThreadPool], [ThreadPoolFacts], [ThreadPoolCorrect],
      [MapToList]: the thread pool as a step relation over threads that
      interleave at critical sections, with spurious wakeups.  [runs] starts
      from any state, [idle] is a pool between two uses.

    - [Flow]: basic blocks, functions, the control flow graph and the work list
      ([control_flow_graph.cpp], [data_flow_work_list.cpp]).  Module [FlowSemantics]:
      the executions of a basic block.  [Rename], [RenameCorrect]: the renaming
      of local registers ([lower.cpp]).  [Liveness], [LivenessFacts],
      [LivenessCorrect]: the live registers of each basic block ([lower.cpp]).
    - [Decompose]: [DecomposeWideOps] ([optimize.cpp]), which replaces wide
      operations by narrow ones.  [Emit]: what operations on new registers
      leave, and the contract of a replacement ([replaces]).
      [Decompositions]: the contract for each decomposition.  [DecomposeCorrect]: the pass.
    - [ConstProp]: constant globals and the propagation of constants along the
      control flow graph ([optimize.cpp]).  [FlowPaths]: the executions of a
      function, the reference for passes over its graph.  [ConstPropOps]:
      one operation, one edge, one block.
      [ConstPropInvariant]: what the work list keeps.  [ConstPropCorrect],
      [ConstPropGlobals]: both passes.
    - [Scheduler]: the class [ConstraintScheduler] ([schedule.cpp]), against the
      contract of its constraint functions ([constraint_ok]).  [SchedulerFacts],
      [SchedulerCorrect], [SchedulerBuild]: one attempt, the repeated attempts,
      and the nodes and constraints that its client adds.
    - [PipelineStages]: [EmitPipelineStage] ([schedule.cpp]).  [StageSemantics]:
      what stages of parallel operations do, and one pass.
      [StageCorrect]: the loop, the print stage and the check of the result.
    - [Opcodes]: the opcode table and the levels of logic of an operation
      ([ir.cpp]).  [PathLength]: which operations have length 0, and which of
      these are wires.
    - [DeadOperations]: [RemoveDeadOperationsImpl] ([optimize.cpp]).
      [DeadSemantics]: functions without some of their dead operations have the
      same observations.  [DeadCorrect]: the live registers that the work list
      finds.  [DeadRemoval]: what is left, and the pass.  [UnusedGlobals]: the
      rounds of [RemoveUnusedGlobals].
    - [BlockValues]: registers of a block that is in single-assignment form keep
      their values.  [CommonSubexpressions]: common subexpressions
      ([optimize.cpp]).  [CseFacts]: operations with the same result.
      [CseCorrect]: the pass.
    - [KillMoves]: sources that are copies of other registers ([optimize.cpp]).
      [KillFacts]: one move, one edge and, in Module [KillAnalysis], what the
      work list keeps.
      [KillCorrect]: the facts hold at every execution, and the pass.
    - [DefUse]: the operations that define the registers of a block ([optimize.h]),
      and passes that change operations in place.  [AddToOr]: additions whose
      operands do not overlap.  [PackLuts]: the combination of the operations of a
      block ([optimize_lut.cpp]).

    ** What the theorems show

    Preservation of meaning: a simplified, lowered, combined, reduced or
    narrowed operation computes what the operation before it computed, whatever
    the registers hold, and none of these passes fails an assertion (of the
    algebraic identities three change the value, and the theorem says to what); a renamed
    block has the executions of the block before, a decomposed block its
    effect on the registers, and a function after constant propagation, the
    replacement of copies or of common subexpressions, the packing of its tables or the
    change of additions has the executions that it had, with other threads
    writing the global registers, and without its dead operations the same observations; the stages of a pipeline stage do in parallel what its operations do in sequence.
    Schedules: the constraint scheduler ends, and its schedule satisfies every
    constraint.  Analyses: liveness is exact
    with respect to the paths of the graph, dead operations are those that the least
    sets of live registers leave, and unused global variables those outside the
    least set that the live operations keep.  Optimality:
    the searches return an optimum for every callback that keeps its contract,
    and the FIFOs of a basic block are the cheapest ones.  Concurrency: the pool
    loses no task and no notification, ends, gives the result of a
    sequential run when the tasks commute, and ends the program when a task
    throws that nobody waits for.  Helpers: bounds, round trips and the
    cases in which the source does not do what it means to.

    ** Fuel and bounds

    [FixupLutOps] gets as much fuel as there are rounds (each removes a source,
    an operand or a column), branch and bound [weight r n] for [n] parameters of
    range at most [r] (the size of the tree of partial vectors), the sparse
    search [2 n] graphs, a reduction tree the length of its list, liveness, the
    removal of dead operations and the replacement of copies
    [n + (n + 1) n N] blocks for [n] blocks and [N] registers, constant
    propagation [n + e N] blocks for [e] edges (each adds a value to an edge),
    the scheduler [relaxations] attempts (each raises a register ratio or a pass),
    [EmitPipelineStage] one pass for each operation, [RemoveUnusedGlobals] one
    round more than there are registers.
    The sums of
    [Propagations] are exact because the cost of all its registers and FIFOs
    together is below [2^63] ([input_ok]).

    ** Not modelled

    Printing, files, reports and the command line ([verilog.cpp],
    [circt_util.cpp], [dgml.cpp], [serialize_ir.cpp], [report.h],
    [kanagawa.cpp]), because they only write text or call CIRCT; the placement by floating-point
    annealing ([place.cpp]).  The parse tree with its type checker and the
    lowering of [parse_tree.cpp] and [lower.cpp] build the intermediate
    representation from inputs that are themselves not modelled.  Of
    [optimize.cpp] and [optimize_lut.cpp] the passes over predicates, strings
    and memories, the propagation of known bits and of the index of a selection
    are left, of [schedule.cpp] the constraints that [ScheduleBasicBlock] builds
    from path lengths, of [local_data_propagation.cpp] the collection of the
    values that cross stages, and of [ir.cpp] the known values of operations.  The
    word width of an addition with carry-select is found with floating-point
    numbers; it is a parameter of [ComputeDecomposeAddSubConfig].  Floating-point
    literals are absent from [Literals].

    ** Limits of the theorems

    The theorems about whole functions ([reaches], [function_ok]) are about the
    phase before scheduling.  Passes that change operations in place assume that
    a block writes each register that is not global once and does not read it
    before, the form that [Rename] gives it.  [KillMoves_equivalent] is about functions whose entries no
    edge leads to.  An operation has at most 64 operands, the
    width of its mask, unless it is a table.  A task of the thread pool throws
    only what derives from [std::exception] and does not call the pool, as the
    tasks of the compiler.  Selections choose among a power of two of sources. *)

From stdpp Require Export base list list_numbers gmap sets strings sorting.
From Stdlib Require Export ZArith Lia Bool.
From Hammer Require Export Tactics.

#[global] Open Scope Z_scope.

(** * Errors

    A failing C++ [assert] calls [OnAssertionFailure], which throws, and the
    lookup helpers of [pch.h] throw too: an operation of the model that can do
    so returns a [result]. *)

Inductive error : Type :=
| AssertionFailed        (** [assert(...)], [ship_assert.h] *)
| KeyNotFound            (** [SafeLookup] *)
| KeyAlreadyExists       (** [SafeInsert], [SafeInsertIdempotent] *)
| ValueTooLarge          (** [MpToSizeT] *)
| DivisionByZero         (** [std::overflow_error] of [ImplementBinaryOp] *)
| BoostRangeError        (** [msb] of a non-positive [cpp_int] *)
| OutOfRange             (** an access outside a [std::vector] *)
| RuntimeError           (** [throw std::runtime_error] *)
| OutOfFuel.             (** the model's own bound on a [while] loop *)

Inductive result (A : Type) : Type :=
| Ok (a : A)
| Err (e : error).
Arguments Ok {A} a.
Arguments Err {A} e.

#[export] Instance error_eq_dec : EqDecision error.
Proof. intros x y; unfold Decision; decide equality. Defined.
#[export] Instance result_eq_dec `{EqDecision A} : EqDecision (result A).
Proof. solve_decision. Defined.

#[export] Instance result_ret : MRet result := fun A a => Ok a.
#[export] Instance result_bind : MBind result :=
  fun A B f m => match m with Ok a => f a | Err e => Err e end.

(** [assert(b)] *)
Definition assert_ (b : bool) : result unit := if b then Ok tt else Err AssertionFailed.

(** [v[i]] and [v.at(i)] of a [std::vector], with out-of-range an error *)
Definition at_ {A} (l : list A) (i : nat) : result A :=
  match l !! i with Some a => Ok a | None => Err OutOfRange end.

Definition of_option {A} (e : error) (o : option A) : result A :=
  match o with Some a => Ok a | None => Err e end.

(** A [for] loop over [l] whose body can throw. *)
Fixpoint foldM {A B} (f : B -> A -> result B) (l : list A) (b : B) : result B :=
  match l with
  | [] => Ok b
  | a :: l => b' ← f b a; foldM f l b'
  end.

Fixpoint mapM_ {A B} (f : A -> result B) (l : list A) : result (list B) :=
  match l with
  | [] => Ok []
  | a :: l => b ← f a; bs ← mapM_ f l; Ok (b :: bs)
  end.

(** A loop that returns at the first element that fails a test *)
Fixpoint allM {A} (f : A -> result bool) (l : list A) : result bool :=
  match l with [] => Ok true | a :: l => b ← f a; if b : bool then allM f l else Ok false end.

(** [std::find_if] *)
Fixpoint findM {A} (f : A -> result bool) (l : list A) : result (option A) :=
  match l with [] => Ok None | a :: l => b ← f a; if b : bool then Ok (Some a) else findM f l end.

Lemma bind_Ok {A B} (m : result A) (f : A -> result B) b :
  m ≫= f = Ok b <-> exists a, m = Ok a /\ f a = Ok b.
Proof. destruct m; cbn; naive_solver. Qed.

Lemma assert_true b : b = true -> assert_ b = Ok tt.
Proof. by intros ->. Qed.

Lemma assert_Ok b u : assert_ b = Ok u -> b = true.
Proof. by destruct b. Qed.

Lemma at_Some {A} (l : list A) i a : l !! i = Some a -> at_ l i = Ok a.
Proof. unfold at_. by intros ->. Qed.

Lemma at_Ok {A} (l : list A) i a : at_ l i = Ok a -> l !! i = Some a.
Proof. unfold at_. destruct (l !! i); congruence. Qed.

Lemma foldM_Ok {A B} (f : B -> A -> result B) (g : B -> A -> B) l b :
  (forall b a, a ∈ l -> f b a = Ok (g b a)) -> foldM f l b = Ok (fold_left g l b).
Proof.
  revert b; induction l as [|a l IH]; intros b H; cbn; [done|].
  rewrite (H b a) by set_solver. cbn. apply IH. set_solver.
Qed.

Lemma foldM_app {A B} (f : B -> A -> result B) l1 l2 b :
  foldM f (l1 ++ l2) b = (b' ← foldM f l1 b; foldM f l2 b').
Proof. revert b; induction l1 as [|a l1 IH]; intros b; cbn; [done|]. destruct (f b a); cbn; auto. Qed.

Lemma mapM_Ok {A B} (f : A -> result B) (g : A -> B) l :
  (forall a, a ∈ l -> f a = Ok (g a)) -> mapM_ f l = Ok (g <$> l).
Proof.
  induction l as [|a l IH]; intros H; cbn; [done|].
  rewrite (H a) by set_solver. cbn. rewrite IH by set_solver. done.
Qed.

Lemma mapM_Forall2 {A B} (f : A -> result B) l l' :
  mapM_ f l = Ok l' <-> Forall2 (fun a b => f a = Ok b) l l'.
Proof.
  revert l'; induction l as [|a l IH]; intros l'; cbn.
  - split; [intros [= <-]; constructor|]. inversion 1; done.
  - rewrite bind_Ok. split.
    + intros (b & Hb & (bs & Hbs & [= <-])%bind_Ok). constructor; [done|]. by apply IH.
    + inversion 1; subst. eexists; split; [done|]. apply bind_Ok. eexists; split; [|done]. by apply IH.
Qed.

Lemma foldM_ext {A B} (f g : B -> A -> result B) l b :
  (forall b a, a ∈ l -> f b a = g b a) -> foldM f l b = foldM g l b.
Proof.
  revert b; induction l as [|a l IH]; intros b H; cbn; [done|].
  rewrite (H b a) by set_solver. destruct (g b a); cbn; [|done]. apply IH. set_solver.
Qed.

Lemma elem_of_concat {A} (a : A) ls : a ∈ concat ls <-> exists l, l ∈ ls /\ a ∈ l.
Proof. induction ls as [|l ls IH]; cbn; [set_solver|]. rewrite elem_of_app, IH. set_solver. Qed.

(** A loop over a list, with an invariant on the part it has been through. *)
Lemma foldM_prefix_inv {A B} (f : B -> A -> result B) (I : list A -> B -> Prop) l b :
  I [] b -> (forall pre a b, a ∈ l -> I pre b -> exists b', f b a = Ok b' /\ I (pre ++ [a]) b') ->
  exists b', foldM f l b = Ok b' /\ I l b'.
Proof.
  intros Hb H.
  assert (Hgen : forall l2 l1 b, l1 ++ l2 = l -> I l1 b -> exists b', foldM f l2 b = Ok b' /\ I l b').
  { induction l2 as [|a l2 IH]; intros l1 b1 <- HI; [exists b1; by rewrite app_nil_r in *|]. cbn [foldM].
    destruct (H l1 a b1) as (b2 & -> & HI2); [set_solver|done|]. cbn. apply (IH (l1 ++ [a])); [|done]. by rewrite <- app_assoc. }
  by apply (Hgen l []).
Qed.

(** A loop over the indices of a vector, as a loop over the vector. *)
Lemma foldM_seq_at {A B} (f : B -> nat -> A -> result B) (l : list A) b :
  foldM (fun b i => a ← at_ l i; f b i a) (seq 0 (length l)) b
  = foldM (fun b p => f b p.1 p.2) (zip (seq 0 (length l)) l) b.
Proof.
  assert (H : forall l2 l1 b, foldM (fun b i => a ← at_ (l1 ++ l2) i; f b i a) (seq (length l1) (length l2)) b
    = foldM (fun b p => f b p.1 p.2) (zip (seq (length l1) (length l2)) l2) b).
  { induction l2 as [|a l2 IH]; intros l1 b'; [done|]. cbn [length seq zip zip_with foldM fst snd].
    rewrite (at_Some _ _ a) by (by apply list_lookup_middle). cbn.
    destruct (f b' (length l1) a) as [b''|]; cbn; [|done].
    specialize (IH (l1 ++ [a]) b''). rewrite <- app_assoc, length_app, Nat.add_comm in IH. apply IH. }
  apply (H l []).
Qed.

(** A loop that appends to a list *)
Lemma foldM_append {A B} (f : list B -> A -> result (list B)) (g : A -> list B) l acc :
  (forall acc a, a ∈ l -> f acc a = Ok (acc ++ g a)) -> foldM f l acc = Ok (acc ++ concat (g <$> l)).
Proof.
  revert acc; induction l as [|a l IH]; intros acc H; cbn; [by rewrite app_nil_r|].
  rewrite H by set_solver. cbn. rewrite IH by set_solver. by rewrite app_assoc.
Qed.

Lemma length_concat_le {A B} (g : A -> list B) l k : (forall a, a ∈ l -> (length (g a) <= k)%nat) -> (length (concat (g <$> l)) <= length l * k)%nat.
Proof. induction l as [|a l IH]; intros H; cbn; [lia|]. rewrite length_app. pose proof (H a ltac:(set_solver)). specialize (IH ltac:(set_solver)). lia. Qed.

(** The elements of [l] that satisfy [P], each with a throwing lookup. *)
Lemma foldM_filter {A B} (P : A -> bool) (g : A -> result B) (h : A -> B) l acc :
  (forall a, a ∈ l -> P a = true -> g a = Ok (h a)) ->
  foldM (fun acc a => if P a then c ← g a; Ok (acc ++ [c]) else Ok acc) l acc
  = Ok (acc ++ (h <$> List.filter P l)).
Proof.
  revert acc; induction l as [|a l IH]; intros acc H; cbn; [by rewrite app_nil_r|].
  destruct (P a) eqn:HP.
  - rewrite (H a) by (done || set_solver). cbn. rewrite IH by (intros; apply H; [set_solver|done]).
    by rewrite <- app_assoc.
  - cbn. apply IH. intros; apply H; [set_solver|done].
Qed.

Lemma allM_forallb {A} (f : A -> result bool) (g : A -> bool) l : (forall a, a ∈ l -> f a = Ok (g a)) -> allM f l = Ok (forallb g l).
Proof.
  induction l as [|a l IH]; intros H; [done|]. cbn. rewrite H by (by left). cbn. destruct (g a); [|done]. apply IH. intros x Hx. apply H. by right.
Qed.

Lemma findM_find {A} (f : A -> result bool) (g : A -> bool) l : (forall a, a ∈ l -> f a = Ok (g a)) ->
  exists o, findM f l = Ok o /\ match o with Some a => a ∈ l /\ g a = true | None => forall a, a ∈ l -> g a = false end.
Proof.
  induction l as [|a l IH]; intros H; [exists None; split; [done|]; by intros a ?%not_elem_of_nil|]. cbn. rewrite H by (by left). cbn.
  destruct (g a) eqn:Ha; [exists (Some a); split; [done|]; split; [by left|done]|]. destruct IH as (o & -> & Ho); [intros x Hx; apply H; by right|].
  exists o. split; [done|]. destruct o as [x|]; [split; [right|]; by apply Ho|]. intros x [->|Hx]%elem_of_cons; [done|by apply Ho].
Qed.

Lemma mapM_exists {A B} (f : A -> result B) (R : A -> B -> Prop) l :
  (forall a, a ∈ l -> exists b, f a = Ok b /\ R a b) -> exists bs, mapM_ f l = Ok bs /\ Forall2 R l bs.
Proof.
  induction l as [|a l IH]; intros H; cbn; [by exists []|].
  destruct (H a) as (b & -> & Hb); [set_solver|].
  destruct IH as (bs & -> & Hbs); [intros; apply H; set_solver|]. exists (b :: bs). by repeat constructor.
Qed.

(** Loop invariants of a throwing loop. *)
Lemma foldM_result_inv {A B} (f : B -> A -> result B) (I : B -> Prop) l b r :
  (forall b a b', a ∈ l -> I b -> f b a = Ok b' -> I b') -> I b -> foldM f l b = Ok r -> I r.
Proof.
  revert b; induction l as [|a l IH]; intros b Hf Hb H; cbn in H; [by injection H as <-|]. apply bind_Ok in H as (b1 & H1 & H).
  apply (IH b1); [|by apply (Hf b a); [left| |]|done]. intros ? ? ? Hin. apply Hf. by right.
Qed.

Lemma foldM_inv {A B} (f : B -> A -> result B) (I : B -> Prop) l b :
  I b -> (forall b a, a ∈ l -> I b -> exists b', f b a = Ok b' /\ I b') ->
  exists b', foldM f l b = Ok b' /\ I b'.
Proof.
  revert b; induction l as [|a l IH]; intros b Hb H; cbn; [eauto|].
  destruct (H b a) as (b' & -> & Hb'); [set_solver|done|]. cbn.
  apply IH; [done|]. intros; apply H; [set_solver|done].
Qed.

(** An invariant of a loop over a vector that depends on the index *)
Lemma foldM_zip_inv {A B} (f : B -> nat * A -> result B) (I : nat -> B -> Prop) (l : list A) b :
  I 0%nat b -> (forall k a b, l !! k = Some a -> I k b -> exists b', f b (k, a) = Ok b' /\ I (S k) b') ->
  exists b', foldM f (zip (seq 0 (length l)) l) b = Ok b' /\ I (length l) b'.
Proof.
  intros Hb H.
  assert (Hgen : forall l2 l1 b, l1 ++ l2 = l -> I (length l1) b ->
    exists b', foldM f (zip (seq (length l1) (length l2)) l2) b = Ok b' /\ I (length l) b').
  { induction l2 as [|a l2 IH]; intros l1 b1 Hl HI.
    - exists b1. split; [done|]. by rewrite <- Hl, app_nil_r.
    - cbn [length seq zip zip_with foldM].
      destruct (H (length l1) a b1) as (b2 & -> & HI2); [by rewrite <- Hl, list_lookup_middle|done|]. cbn.
      destruct (IH (l1 ++ [a]) b2) as (b' & Hb' & HI').
      + by rewrite <- app_assoc.
      + by rewrite length_app, Nat.add_comm.
      + rewrite length_app, Nat.add_comm in Hb'. by exists b'. }
  by apply (Hgen l []).
Qed.

Lemma foldM_seq_inv {B} (f : B -> nat -> result B) (I : nat -> B -> Prop) n b :
  I 0%nat b -> (forall k b, (k < n)%nat -> I k b -> exists b', f b k = Ok b' /\ I (S k) b') ->
  exists b', foldM f (seq 0 n) b = Ok b' /\ I n b'.
Proof.
  intros Hb H. induction n as [|n IH]; [by exists b|].
  destruct IH as (b1 & Hb1 & HI); [intros; apply H; (done || lia)|].
  rewrite seq_S, foldM_app, Hb1. cbn. destruct (H n b1) as (b2 & -> & HI2); [lia|done|]. by exists b2.
Qed.

Lemma foldM_seqZ_inv {B} (f : B -> Z -> result B) (I : Z -> B -> Prop) n b :
  0 <= n -> I 0 b -> (forall k b, 0 <= k < n -> I k b -> exists b', f b k = Ok b' /\ I (k + 1) b') ->
  exists b', foldM f (seqZ 0 n) b = Ok b' /\ I n b'.
Proof.
  intros Hn Hb H.
  assert (Hz : forall l b, foldM f (Z.of_nat <$> l) b = foldM (fun b i => f b (Z.of_nat i)) l b).
  { induction l as [|i l IH]; intros b0; cbn; [done|]. destruct (f b0 (Z.of_nat i)); cbn; auto. }
  assert (Hs : seqZ 0 n = Z.of_nat <$> seq 0 (Z.to_nat n)) by (unfold seqZ; apply list_fmap_ext; intros; lia).
  rewrite Hs, Hz.
  destruct (foldM_seq_inv (fun b i => f b (Z.of_nat i)) (fun k b => I (Z.of_nat k) b) (Z.to_nat n) b) as (b' & Hb' & HI).
  - done.
  - intros k b0 Hk HI. rewrite Nat2Z.inj_succ, <- Z.add_1_r. apply H; [lia|done].
  - exists b'. split; [done|]. by rewrite Z2Nat.id in HI.
Qed.

(** An in-place update of the first [n] elements of an array *)
Lemma foldM_update {A} (g : A -> result A) (h : A -> A) n (l : list A) :
  (n <= length l)%nat -> (forall a, a ∈ take n l -> g a = Ok (h a)) ->
  foldM (fun l i => a ← at_ l i; a' ← g a; Ok (<[i := a']> l)) (seq 0 n) l = Ok ((h <$> take n l) ++ drop n l).
Proof.
  induction n as [|n IH]; intros Hn H; [done|].
  destruct (lookup_lt_is_Some_2 l n) as [a Ha]; [lia|].
  rewrite (take_S_r _ _ _ Ha) in *. rewrite seq_S, foldM_app, IH by (lia || (intros; apply H; set_solver)).
  cbn. set (l1 := h <$> take n l). assert (Hl1 : length l1 = n) by (unfold l1; rewrite length_fmap, length_take; lia).
  assert (Hm : l1 ++ drop n l = l1 ++ a :: drop (S n) l) by (f_equal; by apply drop_S).
  rewrite Hm. rewrite (at_Some _ _ a) by (by rewrite list_lookup_middle). cbn. rewrite H by set_solver. cbn.
  rewrite fmap_app. fold l1. rewrite <- Hl1 at 1. rewrite insert_app_r_alt, Nat.sub_diag by lia. cbn.
  by rewrite <- app_assoc.
Qed.

(** Inverts a hypothesis that a sequence of throwing steps succeeded. *)
Ltac ok_inv :=
  repeat match goal with
  | H : mbind _ _ = Ok _ |- _ => apply bind_Ok in H as (? & ? & ?)
  | H : assert_ _ = Ok _ |- _ => apply assert_Ok in H
  | H : at_ _ _ = Ok _ |- _ => apply at_Ok in H
  | H : Ok _ = Ok _ |- _ => injection H as H; try subst
  | H : Err _ = Ok _ |- _ => discriminate H
  end.

(** Splits on the innermost [match] or [if] of the goal. *)
Ltac case_innermost :=
  match goal with
  | |- context [match ?x with _ => _ end] =>
      lazymatch x with
      | context [match _ with _ => _ end] => fail
      | _ => destruct x eqn:?
      end
  end.

(** Boolean comparisons of [Z] and [nat] to propositions. *)
Ltac bool_to_prop :=
  repeat match goal with
  | H : (_ && _)%bool = true |- _ => apply andb_true_iff in H as [? ?]
  | H : (_ || _)%bool = false |- _ => apply orb_false_iff in H as [? ?]
  | H : negb _ = true |- _ => apply negb_true_iff in H
  | H : negb _ = false |- _ => apply negb_false_iff in H
  | H : (_ <? _)%Z = true |- _ => apply Z.ltb_lt in H
  | H : (_ <? _)%Z = false |- _ => apply Z.ltb_ge in H
  | H : (_ <=? _)%Z = true |- _ => apply Z.leb_le in H
  | H : (_ <=? _)%Z = false |- _ => apply Z.leb_gt in H
  | H : (_ =? _)%Z = true |- _ => apply Z.eqb_eq in H
  | H : (_ =? _)%Z = false |- _ => apply Z.eqb_neq in H
  | H : (_ <? _)%nat = true |- _ => apply Nat.ltb_lt in H
  | H : (_ <? _)%nat = false |- _ => apply Nat.ltb_ge in H
  | H : (_ <=? _)%nat = true |- _ => apply Nat.leb_le in H
  | H : (_ <=? _)%nat = false |- _ => apply Nat.leb_gt in H
  | H : (_ =? _)%nat = true |- _ => apply Nat.eqb_eq in H
  | H : (_ =? _)%nat = false |- _ => apply Nat.eqb_neq in H
  | H : bool_decide _ = true |- _ => apply bool_decide_eq_true in H
  | H : bool_decide _ = false |- _ => apply bool_decide_eq_false in H
  end.

(** * Bit-level lemmas *)

Create HintDb bits discriminated.
Create Rewrite HintDb bits.
#[export] Hint Rewrite Z.land_spec Z.lor_spec Z.lxor_spec Z.bits_0 : bits.

(** Little-endian value of a list of bits. *)
Fixpoint bits_to_Z (l : list bool) : Z :=
  match l with
  | [] => 0
  | b :: l => Z.b2z b + 2 * bits_to_Z l
  end.

(** The [n] low bits of [z], least significant first. *)
Definition Z_to_bits (n : nat) (z : Z) : list bool := (fun i => Z.testbit z (Z.of_nat i)) <$> seq 0 n.

Lemma bits_to_Z_bound l : 0 <= bits_to_Z l < 2 ^ Z.of_nat (length l).
Proof.
  induction l as [|b l IH]; [done|]. cbn [bits_to_Z length].
  rewrite Nat2Z.inj_succ, Z.pow_succ_r by lia. destruct b; cbn [Z.b2z]; lia.
Qed.

Lemma testbit_bits_to_Z l (i : nat) :
  Z.testbit (bits_to_Z l) (Z.of_nat i) = default false (l !! i).
Proof.
  revert i; induction l as [|b l IH]; intros i.
  - cbn. by rewrite Z.bits_0.
  - cbn [bits_to_Z]. destruct i as [|i].
    + apply Z.add_b2z_double_bit0.
    + rewrite Z.add_comm, Nat2Z.inj_succ, Z.testbit_succ_r by lia. apply IH.
Qed.

Lemma testbit_bits_to_Z_nonneg l i : 0 <= i -> Z.testbit (bits_to_Z l) i = default false (l !! Z.to_nat i).
Proof. intros Hi. rewrite <- testbit_bits_to_Z. by rewrite Z2Nat.id. Qed.

Lemma length_Z_to_bits n z : length (Z_to_bits n z) = n.
Proof. unfold Z_to_bits. by rewrite length_fmap, length_seq. Qed.

Lemma lookup_Z_to_bits n z i :
  (i < n)%nat -> Z_to_bits n z !! i = Some (Z.testbit z (Z.of_nat i)).
Proof.
  intros. unfold Z_to_bits. rewrite list_lookup_fmap, lookup_seq_lt by done. done.
Qed.

Lemma testbit_high n z i : 0 <= z < 2 ^ n -> n <= i -> Z.testbit z i = false.
Proof.
  intros Hz Hi. destruct (Z.lt_ge_cases n 0) as [Hn|Hn]; [rewrite Z.pow_neg_r in Hz; lia|].
  rewrite <- (Z.mod_small z (2 ^ n)) by done. apply Z.mod_pow2_bits_high. lia.
Qed.

Lemma bits_to_Z_to_bits n z : 0 <= z < 2 ^ Z.of_nat n -> bits_to_Z (Z_to_bits n z) = z.
Proof.
  intros Hz. apply Z.bits_inj'; intros i Hi.
  rewrite <- (Z2Nat.id i) by lia. rewrite testbit_bits_to_Z.
  destruct (decide (Z.to_nat i < n)%nat).
  - by rewrite lookup_Z_to_bits.
  - rewrite lookup_ge_None_2 by (rewrite length_Z_to_bits; lia). symmetry.
    eapply testbit_high; [done|lia].
Qed.

Lemma bits_to_Z_mod n z : bits_to_Z (Z_to_bits n z) = z mod 2 ^ Z.of_nat n.
Proof.
  apply Z.bits_inj'; intros i Hi. rewrite testbit_bits_to_Z_nonneg by done.
  destruct (decide (i < Z.of_nat n)).
  - rewrite lookup_Z_to_bits by lia. rewrite Z.mod_pow2_bits_low by lia. cbn. by rewrite Z2Nat.id.
  - rewrite lookup_ge_None_2 by (rewrite length_Z_to_bits; lia). by rewrite Z.mod_pow2_bits_high by lia.
Qed.

Lemma Z_to_bits_to_Z l : Z_to_bits (length l) (bits_to_Z l) = l.
Proof.
  apply list_eq; intros i. destruct (decide (i < length l)%nat) as [Hi|Hi].
  - rewrite lookup_Z_to_bits by done. rewrite testbit_bits_to_Z.
    destruct (lookup_lt_is_Some_2 l i Hi) as [b ->]. done.
  - rewrite !lookup_ge_None_2; rewrite ?length_Z_to_bits; [done|lia|lia].
Qed.

Lemma bits_to_Z_inj l1 l2 : length l1 = length l2 -> bits_to_Z l1 = bits_to_Z l2 -> l1 = l2.
Proof.
  intros Hl H. rewrite <- (Z_to_bits_to_Z l1), <- (Z_to_bits_to_Z l2). by rewrite Hl, H.
Qed.

(** Equality of two [w]-bit values, bit by bit. *)
Lemma bits_eq w x y :
  0 <= x < 2 ^ w -> 0 <= y < 2 ^ w ->
  (forall i, 0 <= i < w -> Z.testbit x i = Z.testbit y i) -> x = y.
Proof.
  intros Hx Hy H. apply Z.bits_inj'; intros i Hi.
  destruct (Z.lt_ge_cases i w); [apply H; lia|].
  by rewrite !(testbit_high w) by done.
Qed.

Lemma lor_bound w x y : 0 <= x < 2 ^ w -> 0 <= y < 2 ^ w -> 0 <= Z.lor x y < 2 ^ w.
Proof.
  intros Hx Hy. assert (0 <= Z.lor x y) by (apply Z.lor_nonneg; lia). split; [done|].
  destruct (Z.eq_dec (Z.lor x y) 0) as [->|Hne]; [lia|].
  apply Z.log2_lt_pow2; [lia|].
  rewrite Z.log2_lor by lia.
  destruct (Z.eq_dec w 0) as [->|]; [replace x with 0 in * by lia; replace y with 0 in * by lia; done|].
  assert (0 < w) by (destruct (Z.lt_ge_cases w 0); [rewrite (Z.pow_neg_r 2 w) in Hx by lia; lia|lia]).
  apply Z.max_lub_lt.
  - destruct (Z.eq_dec x 0) as [->|]; [cbn; lia|]. apply Z.log2_lt_pow2; lia.
  - destruct (Z.eq_dec y 0) as [->|]; [cbn; lia|]. apply Z.log2_lt_pow2; lia.
Qed.

Lemma shiftl_1_pow n : 0 <= n -> Z.shiftl 1 n = 2 ^ n.
Proof. intros. by rewrite Z.shiftl_mul_pow2, Z.mul_1_l. Qed.

Lemma testbit_1_shiftl n i : 0 <= n -> 0 <= i -> Z.testbit (Z.shiftl 1 n) i = (n =? i).
Proof.
  intros. rewrite shiftl_1_pow by done. destruct (Z.eqb_spec n i) as [->|].
  - by apply Z.pow2_bits_true.
  - by apply Z.pow2_bits_false.
Qed.

(** A value in the low [w] bits next to another above them. *)
Lemma testbit_concat w v k i :
  0 <= w -> 0 <= v < 2 ^ w -> 0 <= i ->
  Z.testbit (v + k * 2 ^ w) i = if i <? w then Z.testbit v i else Z.testbit k (i - w).
Proof.
  intros Hw Hv Hi. pose proof (Z.pow_pos_nonneg 2 w ltac:(lia) Hw). destruct (Z.ltb_spec i w).
  - rewrite <- (Z.mod_pow2_bits_low (v + k * 2 ^ w) w) by lia.
    rewrite Z.mod_add, Z.mod_small by lia. done.
  - replace i with ((i - w) + w) at 1 by lia. rewrite <- Z.div_pow2_bits by lia.
    rewrite Z.div_add, Z.div_small by lia. done.
Qed.

Lemma lor_shiftl_add w v k :
  0 <= w -> 0 <= v < 2 ^ w -> Z.lor v (Z.shiftl k w) = v + k * 2 ^ w.
Proof.
  intros Hw Hv. apply Z.bits_inj'; intros i Hi.
  rewrite testbit_concat, Z.lor_spec, Z.shiftl_spec by lia. destruct (Z.ltb_spec i w).
  - rewrite (Z.testbit_neg_r k) by lia. apply orb_false_r.
  - by rewrite (testbit_high w v) by lia.
Qed.

(** * Lists *)

Lemma lookup_total_Some {A} `{Inhabited A} (l : list A) i a : l !! i = Some a -> l !!! i = a.
Proof. intros Hl. by rewrite list_lookup_total_alt, Hl. Qed.

(** From a partial list to one that defines more, one element at a time *)
Lemma fill_ind {A} (P : list (option A) -> Prop) l l' :
  length l = length l' -> (forall i x, l !! i = Some (Some x) -> l' !! i = Some (Some x)) -> P l ->
  (forall m i x, P m -> length m = length l' -> (forall j y, m !! j = Some (Some y) -> l' !! j = Some (Some y)) ->
    (forall j y, l !! j = Some (Some y) -> m !! j = Some (Some y)) -> m !! i = Some None -> l' !! i = Some (Some x) -> P (<[i := Some x]> m)) -> P l'.
Proof.
  intros Hlen Href H0 Hstep.
  assert (Hgen : forall k, (k <= length l)%nat -> P (take k l' ++ drop k l)).
  { induction k as [|k IH]; intros Hk; [done|]. specialize (IH ltac:(lia)).
    destruct (lookup_lt_is_Some_2 l k) as [o Ho]; [lia|]. destruct (lookup_lt_is_Some_2 l' k) as [o' Ho']; [lia|].
    rewrite (take_S_r _ _ _ Ho'), <- app_assoc. rewrite (drop_S _ _ _ Ho) in IH. destruct o as [y|].
    { rewrite (Href _ _ Ho) in Ho'. by injection Ho' as <-. }
    destruct o' as [x|]; [|done].
    assert (Hlt : length (take k l') = k) by (rewrite length_take; lia).
    replace (take k l' ++ [Some x] ++ drop (S k) l) with (<[k := Some x]> (take k l' ++ None :: drop (S k) l)).
    2: { rewrite insert_app_r_alt by lia. by rewrite Hlt, Nat.sub_diag. }
    apply Hstep; [done| | | | |done].
    - rewrite length_app, Hlt. cbn. rewrite length_drop. lia.
    - intros j y Hj. rewrite <- (drop_S _ _ _ Ho) in Hj. apply lookup_app_Some in Hj as [[Hj _]%lookup_take_Some|[Hge Hj]]; [done|].
      rewrite lookup_drop in Hj. apply Href. rewrite <- Hj. f_equal. lia.
    - intros j y Hj. rewrite <- (drop_S _ _ _ Ho). destruct (decide (j < k)%nat).
      + rewrite lookup_app_l, lookup_take_lt by lia. by apply Href.
      + rewrite lookup_app_r, lookup_drop by lia. rewrite <- Hj. f_equal. lia.
    - rewrite lookup_app_r by lia. by rewrite Hlt, Nat.sub_diag. }
  specialize (Hgen (length l) ltac:(lia)). by rewrite Hlen, take_ge, <- Hlen, drop_all, app_nil_r in Hgen by lia.
Qed.

Lemma Forall2_compose {A B C} (P : A -> B -> Prop) (Q : B -> C -> Prop) (R : A -> C -> Prop) l1 l2 l3 :
  (forall a b c, P a b -> Q b c -> R a c) -> Forall2 P l1 l2 -> Forall2 Q l2 l3 -> Forall2 R l1 l3.
Proof.
  intros H HP. revert l3. induction HP as [|a b l1 l2 Hab _ IH]; intros l3 HQ; inversion_clear HQ; constructor; eauto.
Qed.

Lemma fold_left_ext {A B} (f g : B -> A -> B) l b :
  (forall b a, a ∈ l -> f b a = g b a) -> fold_left f l b = fold_left g l b.
Proof.
  revert b; induction l as [|a l IH]; intros b H; cbn; [done|].
  rewrite H by set_solver. apply IH. set_solver.
Qed.

Lemma fold_left_inv {A B} (f : B -> A -> B) (I : B -> Prop) l b :
  I b -> (forall b a, a ∈ l -> I b -> I (f b a)) -> I (fold_left f l b).
Proof.
  revert b; induction l as [|a l IH]; intros b Hb H; cbn; [done|].
  apply IH; [apply H; [set_solver|done]|]. intros; apply H; [set_solver|done].
Qed.

(** The elements of a [std::set<size_t>] in iteration order. *)
Definition set_elements (s : gset nat) : list nat := merge_sort le (elements s).

Lemma set_elements_perm s : set_elements s ≡ₚ elements s.
Proof. apply merge_sort_Permutation. Qed.

Lemma elem_of_set_elements s x : x ∈ set_elements s <-> x ∈ s.
Proof. by rewrite set_elements_perm, elem_of_elements. Qed.

Lemma NoDup_set_elements s : NoDup (set_elements s).
Proof. rewrite set_elements_perm. apply NoDup_elements. Qed.

Lemma length_set_elements s : length (set_elements s) = size s.
Proof. by rewrite set_elements_perm. Qed.
