(* ===== verification/MachineInt.v ===== *)
(** * Machine integers and the integer helpers of the compiler

    [pch.h]: the conversions between [mp_int] (boost's unbounded [cpp_int],
    here [Z]) and [size_t] (a [Z] in [0, 2^64), with the wrap-around of the
    unsigned operations written out by [u64]), bit test and set, [MpSlice],
    [RoundUp], [Align], [AlignNonPow2].
    [ir.cpp]: [IsPow2], [Log2RoundUp], [RoundUpToPow2], [Log2],
    [GetCallSiteIndexWidth], [GetReturnTreeDepth].
    [parse_tree.cpp]: [GetIntegerBitCount].  [backend_common.cpp]: [BitsToBytes]. *)

From S2P Require Import Prelude.


Module MachineInt.

(** ** Unsigned 64-bit arithmetic *)

Definition size_max : Z := 2 ^ 64 - 1.
Definition u64 (z : Z) : Z := z mod 2 ^ 64.
Definition u64_add (a b : Z) : Z := u64 (a + b).
Definition u64_sub (a b : Z) : Z := u64 (a - b).
Definition u64_mul (a b : Z) : Z := u64 (a * b).
Definition u64_shl (a n : Z) : Z := u64 (Z.shiftl a n).
Definition is_u64 (z : Z) : Prop := 0 <= z < 2 ^ 64.

(** ** [pch.h] *)

(** boost's [msb]: the index of the highest set bit, an exception when there is none *)
Definition msb (z : Z) : result Z := if z <=? 0 then Err BoostRangeError else Ok (Z.log2 z).

Definition GetMpWidth (input : Z) : result Z :=
  if input =? 0 then Ok 1 else m ← msb input; Ok (u64_add m 1).

Definition MpToSizeT (input : Z) : result Z :=
  if size_max <? input then Err ValueTooLarge else Ok (u64 input).

Definition MpSlice (t offset width : Z) : Z :=
  let mask := Z.shiftl 1 width - 1 in
  Z.land (Z.shiftr t offset) mask.

Definition uint32_max : Z := 2 ^ 32 - 1.

Definition set_bit (val bitIndex : Z) : Z := Z.lor val (Z.shiftl 1 bitIndex).

Definition bit_test (input bitIndex : Z) : result bool :=
  assert_ (bitIndex <=? uint32_max);; Ok (Z.testbit input bitIndex).
Definition bit_set (val bitIndex : Z) : result Z :=
  assert_ (bitIndex <=? uint32_max);; Ok (set_bit val bitIndex).
Definition bit_unset (val bitIndex : Z) : result Z :=
  assert_ (bitIndex <=? uint32_max);; Ok (Z.ldiff val (Z.shiftl 1 bitIndex)).

Definition RoundUp (src alignment : Z) : result Z :=
  let result := u64_mul (u64_sub (u64_add src alignment) 1 / alignment) alignment in
  assert_ (src <=? result);;
  assert_ (result mod alignment =? 0);;
  Ok result.

Definition Align (input alignment : Z) : result Z :=
  assert_ (Z.land alignment (u64_sub alignment 1) =? 0);;
  let mask := u64_sub alignment 1 in
  Ok (Z.land (u64_add input mask) (size_max - mask)).

Definition AlignNonPow2 (input alignment : Z) : Z :=
  let d := u64_sub (u64_add input alignment) 1 / alignment in
  u64_mul d alignment.

(** [_BitScanReverse64] as [pch.h] defines it under [__GNUC__]: the argument
    of [__builtin_clz] is an [unsigned int], and the value it stores is the
    number of leading zeros of that. *)
Definition builtin_clz (x : Z) : Z := 31 - Z.log2 x.
Definition BitScanReverse64_gnu (index mask : Z) : Z :=
  if mask =? 0 then index else builtin_clz (mask mod 2 ^ 32).

(** ** [ir.cpp] *)

Definition IsPow2 (input : Z) : bool := (0 <? input) && (Z.land input (input - 1) =? 0).

Definition Log2RoundUp (input : Z) : result Z :=
  highestBitIndex ← msb input;
  if IsPow2 input then Ok highestBitIndex else Ok (u64_add highestBitIndex 1).

Definition RoundUpToPow2 (input : Z) : result Z :=
  l ← Log2RoundUp input;
  n ← MpToSizeT l;
  bit_set 0 n.

Definition Log2 (input : Z) : result Z :=
  assert_ (IsPow2 input);;
  msb input.

Definition GetReturnTreeDepth (callerCount : Z) : result Z :=
  assert_ (0 <? callerCount);;
  if callerCount =? 1 then Ok 1
  else
    let highestBitIndex := BitScanReverse64_gnu 0 (callerCount - 1) in
    Ok (u64_add highestBitIndex 1).

Definition GetCallSiteIndexWidth (callerCount : Z) : result Z :=
  result ← (if 0 <? callerCount then Log2RoundUp callerCount else Ok 0);
  Ok (Z.max 1 result).

(** ** [parse_tree.cpp], [backend_common.cpp] *)

Definition GetIntegerBitCount (input : Z) : result Z :=
  if input =? 0 then Ok 1 else Log2RoundUp (input + 1).

Definition BitsToBytes (bits : Z) : result Z :=
  a ← Align bits 8; Ok (a / 8).

(** ** Lemmas *)

Lemma bit_test_eq z i : i < 2 ^ 32 -> bit_test z i = Ok (Z.testbit z i).
Proof. intros. unfold bit_test. by rewrite assert_true by (apply Z.leb_le; unfold uint32_max; lia). Qed.

Lemma bit_set_eq z i : i < 2 ^ 32 -> bit_set z i = Ok (set_bit z i).
Proof. intros. unfold bit_set. by rewrite assert_true by (apply Z.leb_le; unfold uint32_max; lia). Qed.

Lemma u64_small z : is_u64 z -> u64 z = z.
Proof. intros. by apply Z.mod_small. Qed.

Lemma u64_range z : is_u64 (u64 z).
Proof. apply Z.mod_pos_bound. done. Qed.

Lemma MpToSizeT_small z : is_u64 z -> MpToSizeT z = Ok z.
Proof.
  unfold MpToSizeT, size_max, is_u64. intros. destruct (Z.ltb_spec (2 ^ 64 - 1) z); [lia|].
  by rewrite u64_small.
Qed.

Lemma u64_shl_bit b n : 0 <= n < 64 -> u64_shl (Z.b2z b) n = if b then Z.shiftl 1 n else 0.
Proof.
  intros. unfold u64_shl. destruct b; cbn [Z.b2z].
  - apply u64_small. rewrite shiftl_1_pow by lia. split; [apply Z.pow_nonneg; lia|].
    apply Z.pow_lt_mono_r; lia.
  - by rewrite Z.shiftl_0_l.
Qed.

Lemma IsPow2_spec n : IsPow2 n = true <-> 0 < n /\ n = 2 ^ Z.log2 n.
Proof.
  unfold IsPow2. rewrite andb_true_iff, Z.ltb_lt, Z.eqb_eq. split.
  - intros [Hn Hl]. split; [done|].
    pose proof (Z.log2_spec n Hn) as [H1 H2].
    destruct (Z.eq_dec n (2 ^ Z.log2 n)) as [|Hne]; [done|exfalso].
    assert (Hlog : Z.log2 (n - 1) = Z.log2 n) by (apply Z.log2_unique; [apply Z.log2_nonneg|lia]).
    assert (0 < n - 1) by (pose proof (Z.pow_pos_nonneg 2 (Z.log2 n) ltac:(lia) (Z.log2_nonneg n)); lia).
    assert (Hb : Z.testbit (Z.land n (n - 1)) (Z.log2 n) = true).
    { rewrite Z.land_spec, Z.bit_log2 by done. cbn. rewrite <- Hlog. apply Z.bit_log2. lia. }
    rewrite Hl, Z.bits_0 in Hb. done.
  - intros [Hn He]. split; [done|]. rewrite He.
    rewrite Z.sub_1_r, <- Z.ones_equiv, Z.land_ones by apply Z.log2_nonneg.
    apply Z.mod_same. apply Z.pow_nonzero; [lia|apply Z.log2_nonneg].
Qed.

Lemma IsPow2_pow k : 0 <= k -> IsPow2 (2 ^ k) = true.
Proof. intros. apply IsPow2_spec. rewrite Z.log2_pow2 by done. split; [apply Z.pow_pos_nonneg; lia|done]. Qed.

Lemma Log2RoundUp_eq n : 0 < n -> n <= 2 ^ 63 -> Log2RoundUp n = Ok (Z.log2_up n).
Proof.
  intros Hn Hb. unfold Log2RoundUp, msb. destruct (Z.leb_spec n 0); [lia|]. cbn.
  destruct (IsPow2 n) eqn:Hp.
  - apply IsPow2_spec in Hp as [_ He]. f_equal. rewrite He at 2.
    by rewrite Z.log2_up_pow2 by apply Z.log2_nonneg.
  - pose proof (Z.log2_nonneg n). pose proof (Z.log2_spec n Hn) as [H1 H2].
    assert (n <> 2 ^ Z.log2 n) as Hne.
    { intros He. assert (IsPow2 n = true) by (apply IsPow2_spec; done). congruence. }
    assert (Z.log2 n <= 63) by (change 63 with (Z.log2 (2 ^ 63)); by apply Z.log2_le_mono).
    unfold u64_add. rewrite u64_small by (unfold is_u64; lia). f_equal. symmetry.
    apply Z.log2_up_unique; [lia|]. rewrite Z.add_1_r, Z.pred_succ. lia.
Qed.

(** The number of bits [Log2RoundUp] returns is the least [k] with [n <= 2^k]. *)
Theorem Log2RoundUp_least n :
  0 < n <= 2 ^ 63 ->
  exists k, Log2RoundUp n = Ok k /\ 0 <= k /\ n <= 2 ^ k /\ forall j, 0 <= j -> n <= 2 ^ j -> k <= j.
Proof.
  intros [Hn Hb]. exists (Z.log2_up n). split; [by apply Log2RoundUp_eq|].
  split; [apply Z.log2_up_nonneg|]. split.
  - destruct (Z.eq_dec n 1) as [->|]; [done|]. apply Z.log2_up_spec. lia.
  - intros j Hj Hle. apply Z.log2_up_le_pow2; lia.
Qed.

Lemma Log2RoundUp_least_witness :
  (0 < 9 <= 2 ^ 63) /\
  exists k, Log2RoundUp 9 = Ok k /\ 0 <= k /\ 9 <= 2 ^ k /\ forall j, 0 <= j -> 9 <= 2 ^ j -> k <= j.
Proof. split; [lia|]. apply (Log2RoundUp_least 9). lia. Defined.

(** ** [GetReturnTreeDepth] under [__GNUC__]

    For two callers the stored value is the number of leading zeros of 1, not
    the index of its highest set bit: the depth comes out as 32 instead of 1. *)
Example GetReturnTreeDepth_two_callers : GetReturnTreeDepth 2 = Ok 32.
Proof. reflexivity. Qed.

(** With up to [2^32] callers and one at least two, the depth that the GNU
    build computes is 32 minus the logarithm of [callerCount - 1]: it decreases
    as the number of callers grows. *)
Theorem GetReturnTreeDepth_gnu callerCount :
  2 <= callerCount <= 2 ^ 32 -> GetReturnTreeDepth callerCount = Ok (32 - Z.log2 (callerCount - 1)).
Proof.
  intros H. unfold GetReturnTreeDepth. rewrite assert_true by (apply Z.ltb_lt; lia). cbn [mbind result_bind].
  destruct (Z.eqb_spec callerCount 1); [lia|]. unfold BitScanReverse64_gnu, builtin_clz.
  destruct (Z.eqb_spec (callerCount - 1) 0); [lia|]. rewrite Z.mod_small by lia.
  pose proof (Z.log2_nonneg (callerCount - 1)). assert (Z.log2 (callerCount - 1) < 32) by (apply Z.log2_lt_pow2; lia).
  unfold u64_add. rewrite u64_small by (unfold is_u64; lia). f_equal. lia.
Qed.

Lemma GetReturnTreeDepth_gnu_witness : (2 <= 2 <= 2 ^ 32) /\ GetReturnTreeDepth 2 = Ok 32.
Proof. split; [lia|]. rewrite (GetReturnTreeDepth_gnu 2); [reflexivity|lia]. Defined.

End MachineInt.

(** * Maps and sets

    [pch.h]: the helpers that throw when a key is missing or already there.  A
    [std::map<size_t, T>] is a [gmap nat T]; where the code iterates over it,
    its entries come in the order of their keys. *)



Module Containers.

Definition SafeLookup {A} (mapIn : gmap nat A) (key : nat) : result A := of_option KeyNotFound (mapIn !! key).

Definition LookupWithDefault {A} (mapIn : gmap nat A) (key : nat) (defaultValue : A) : A :=
  match mapIn !! key with Some value => value | None => defaultValue end.

Definition SafeInsert {A} (m : gmap nat A) (k : nat) (v : A) : result (gmap nat A) :=
  match m !! k with Some _ => Err KeyAlreadyExists | None => Ok (<[k := v]> m) end.

Definition SafeInsert_set (setIn : gset nat) (value : nat) : result (gset nat) :=
  if bool_decide (value ∈ setIn) then Err KeyAlreadyExists else Ok ({[value]} ∪ setIn).

Definition SafeInsertIdempotent {A} `{EqDecision A} (m : gmap nat A) (k : nat) (v : A) : result (gmap nat A) :=
  match m !! k with
  | Some previousValue => if bool_decide (previousValue = v) then Ok m else Err KeyAlreadyExists
  | None => Ok (<[k := v]> m)
  end.

(** The entries in iteration order *)
Definition map_entries {A} (m : gmap nat A) : list (nat * A) :=
  omap (fun k => pair k <$> m !! k) (set_elements (dom m)).

Lemma elem_of_map_entries {A} (m : gmap nat A) k v : (k, v) ∈ map_entries m <-> m !! k = Some v.
Proof.
  unfold map_entries. rewrite list_elem_of_omap. split.
  - intros (k' & _ & Hk). destruct (m !! k') as [v'|] eqn:Hm; [|done]. cbn in Hk. by injection Hk as -> ->.
  - intros Hk. exists k. rewrite elem_of_set_elements, Hk. split; [|done]. by apply elem_of_dom_2 in Hk.
Qed.

Lemma map_entries_keys {A} (m : gmap nat A) : (map_entries m).*1 = set_elements (dom m).
Proof.
  unfold map_entries. assert (H : forall l : list nat, (forall k, k ∈ l -> k ∈ dom m) -> (omap (fun k => pair k <$> m !! k) l).*1 = l).
  { induction l as [|k l IH]; intros Hl; cbn; [done|]. assert (Hk : k ∈ dom m) by set_solver. apply elem_of_dom in Hk as [v Hv].
    rewrite Hv. cbn. f_equal. apply IH. set_solver. }
  apply H. intros k. by rewrite elem_of_set_elements.
Qed.

Lemma NoDup_map_entries {A} (m : gmap nat A) : NoDup (map_entries m).*1.
Proof. rewrite map_entries_keys. apply NoDup_set_elements. Qed.

End Containers.
