(* ===== verification/Literals.v ===== *)
(** * Literals and compile-time evaluation of operators

    [ir.h]: [Literal]; [parse_tree.h]: the operator enumerations;
    [parse_tree.cpp]: [SignExtend], [AbsLiteral], [Widen], [Truncate],
    [Resize], [TypeConvert], [ImplementUnaryOp], [ImplementBinaryOp].

    A literal's [_value] is an [mp_int] that holds the [_width] low bits of a
    two's complement number; whether it is signed is a property of the operand
    that uses it.  [lit_int] is the integer a literal stands for, and the
    theorems relate every operation to arithmetic on [lit_int]. *)

From S2P Require Import Prelude MachineInt.
Import MachineInt.

Module Literals.

Record Literal : Type := mkLiteral { _value : Z; _width : Z }.

#[export] Instance Literal_eq_dec : EqDecision Literal.
Proof. solve_decision. Defined.

Inductive ParseTreeUnaryOpType : Type :=
| ParseTreeUnaryOpTypeInvert
| ParseTreeUnaryOpTypeNegate
| ParseTreeUnaryOpTypeLogicalInvert.

Inductive ParseTreeBinaryOpType : Type :=
| ParseTreeBinaryOpTypeAdd
| ParseTreeBinaryOpTypeSub
| ParseTreeBinaryOpTypeMul
| ParseTreeBinaryOpTypeLutMul
| ParseTreeBinaryOpTypeDiv
| ParseTreeBinaryOpTypeMod
| ParseTreeBinaryOpTypeAnd
| ParseTreeBinaryOpTypeLogicalAnd
| ParseTreeBinaryOpTypeOr
| ParseTreeBinaryOpTypeLogicalOr
| ParseTreeBinaryOpTypeXor
| ParseTreeBinaryOpTypeLogicalXor
| ParseTreeBinaryOpTypeShl
| ParseTreeBinaryOpTypeShr
| ParseTreeBinaryOpTypeEQ
| ParseTreeBinaryOpTypeNE
| ParseTreeBinaryOpTypeGT
| ParseTreeBinaryOpTypeGE
| ParseTreeBinaryOpTypeLT
| ParseTreeBinaryOpTypeLE.

#[export] Instance ParseTreeUnaryOpType_eq_dec : EqDecision ParseTreeUnaryOpType.
Proof. solve_decision. Defined.
#[export] Instance ParseTreeBinaryOpType_eq_dec : EqDecision ParseTreeBinaryOpType.
Proof. solve_decision. Defined.

Definition to_int64 (z : Z) : Z := let u := u64 z in if Z.testbit u 63 then u - 2 ^ 64 else u.

Definition SignExtend (input bitCount : Z) : result Z :=
  assert_ (bitCount <=? 64);;
  assert_ (0 <? bitCount);;
  let shiftAmount := u64_sub 64 bitCount in
  Ok (u64 (Z.shiftr (to_int64 (u64_shl input shiftAmount)) shiftAmount)).

Definition Widen (srcIn : Literal) (signExtend : bool) (dstWidth : Z) : result Z :=
  assert_ (0 <? _width srcIn);;
  if signExtend then
    b ← bit_test (_value srcIn) (_width srcIn - 1);
    if b : bool then foldM bit_set (seqZ (_width srcIn) (dstWidth - _width srcIn)) (_value srcIn)
    else Ok (_value srcIn)
  else Ok (_value srcIn).

Definition Truncate (src numBits : Z) : Z :=
  let mask := Z.shiftl 1 numBits - 1 in
  Z.land src mask.

Definition Resize (srcIn : Literal) (signExtend : bool) (dstWidth : Z) : result Z :=
  w ← Widen srcIn signExtend dstWidth; Ok (Truncate w dstWidth).

Definition ImplementUnaryOp (srcIn : Literal) (signExtendSrc : bool) (type : ParseTreeUnaryOpType)
    (dstWidth : Z) : result Z :=
  let intermediateWidth := u64_add (Z.max (_width srcIn) dstWidth) 1 in
  src ← Widen srcIn signExtendSrc intermediateWidth;
  flipped ← foldM (fun result i =>
      b ← bit_test src i;
      if negb b then bit_set result i else Ok result)
    (seqZ 0 intermediateWidth) 0;
  let result :=
    match type with
    | ParseTreeUnaryOpTypeInvert | ParseTreeUnaryOpTypeLogicalInvert => flipped
    | ParseTreeUnaryOpTypeNegate => flipped + 1
    end in
  Ok (Truncate result dstWidth).

Definition AbsLiteral (src : Literal) : result Z :=
  b ← bit_test (_value src) (u64_sub (_width src) 1);
  if b : bool then ImplementUnaryOp src true ParseTreeUnaryOpTypeNegate (u64_add (_width src) 1)
  else Ok (_value src).

(** The relational branches of [ImplementBinaryOp]: [pos] compares two values
    of sign plus, [neg] is the [?:] of the branch where both are negative. *)
Definition compare_signs (src0Positive src1Positive pos plus_minus minus_plus neg : bool) : Z :=
  if src0Positive && src1Positive then Z.b2z pos
  else if src0Positive && negb src1Positive then Z.b2z plus_minus
  else if negb src0Positive && src1Positive then Z.b2z minus_plus
  else Z.b2z neg.

Definition requiredSourceWidth (src0In src1In : Literal) (dstWidth : Z) (type : ParseTreeBinaryOpType)
    : result Z :=
  match type with
  | ParseTreeBinaryOpTypeShr => s ← MpToSizeT (_value src1In); Ok (u64_add dstWidth s)
  | ParseTreeBinaryOpTypeEQ | ParseTreeBinaryOpTypeNE | ParseTreeBinaryOpTypeGT
  | ParseTreeBinaryOpTypeGE | ParseTreeBinaryOpTypeLT | ParseTreeBinaryOpTypeLE =>
      Ok (Z.max (_width src0In) (_width src1In))
  | _ => Ok dstWidth
  end.

Definition ImplementBinaryOp (src0In src1In : Literal) (dstWidth : Z)
    (signExtendSource0 signExtendSource1 : bool) (type : ParseTreeBinaryOpType) : result Z :=
  assert_ (0 <? _width src0In);;
  assert_ (0 <? _width src1In);;
  assert_ (0 <? dstWidth);;
  reqWidth ← requiredSourceWidth src0In src1In dstWidth type;
  src0 ← Widen src0In signExtendSource0 reqWidth;
  src1 ← Widen src1In signExtendSource1 reqWidth;
  src0Positive ← (if signExtendSource0
                  then b ← bit_test (_value src0In) (_width src0In - 1); Ok (negb b) else Ok true);
  src1Positive ← (if signExtendSource1
                  then b ← bit_test (_value src1In) (_width src1In - 1); Ok (negb b) else Ok true);
  let src1IsZero := _value src1In =? 0 in
  result ←
    match type with
    | ParseTreeBinaryOpTypeAdd => Ok (src0 + src1)
    | ParseTreeBinaryOpTypeMul | ParseTreeBinaryOpTypeLutMul => Ok (src0 * src1)
    | ParseTreeBinaryOpTypeDiv =>
        if src1IsZero then Err DivisionByZero
        else if src0Positive : bool then Ok (Z.quot src0 src1)
        else
          a ← AbsLiteral src0In;
          let negatedResult := mkLiteral (Z.quot a src1) (u64_add (_width src0In) 1) in
          ImplementUnaryOp negatedResult false ParseTreeUnaryOpTypeNegate dstWidth
    | ParseTreeBinaryOpTypeMod =>
        if src1IsZero then Err DivisionByZero
        else if src0Positive : bool then Ok (Z.rem src0 src1)
        else
          a ← AbsLiteral src0In;
          let negatedResult := mkLiteral (Z.rem a src1) (_width src1In) in
          ImplementUnaryOp negatedResult false ParseTreeUnaryOpTypeNegate dstWidth
    | ParseTreeBinaryOpTypeSub => Ok (src0 - src1)
    | ParseTreeBinaryOpTypeAnd | ParseTreeBinaryOpTypeLogicalAnd => Ok (Z.land src0 src1)
    | ParseTreeBinaryOpTypeOr | ParseTreeBinaryOpTypeLogicalOr => Ok (Z.lor src0 src1)
    | ParseTreeBinaryOpTypeXor | ParseTreeBinaryOpTypeLogicalXor => Ok (Z.lxor src0 src1)
    | ParseTreeBinaryOpTypeShl =>
        assert_ src1Positive;; s ← MpToSizeT src1; Ok (Z.shiftl src0 s)
    | ParseTreeBinaryOpTypeShr =>
        assert_ src1Positive;; s ← MpToSizeT src1; Ok (Z.shiftr src0 s)
    | ParseTreeBinaryOpTypeEQ => Ok (Z.b2z (src0 =? src1))
    | ParseTreeBinaryOpTypeNE => Ok (Z.b2z (negb (src0 =? src1)))
    | ParseTreeBinaryOpTypeGT =>
        Ok (compare_signs src0Positive src1Positive (src1 <? src0) true false (negb (src0 <=? src1)))
    | ParseTreeBinaryOpTypeGE =>
        Ok (compare_signs src0Positive src1Positive (src1 <=? src0) true false (negb (src0 <? src1)))
    | ParseTreeBinaryOpTypeLT =>
        Ok (compare_signs src0Positive src1Positive (src0 <? src1) false true (negb (src1 <=? src0)))
    | ParseTreeBinaryOpTypeLE =>
        Ok (compare_signs src0Positive src1Positive (src0 <=? src1) false true (negb (src1 <? src0)))
    end;
  Ok (Truncate result dstWidth).

(** The part of [Type] that [TypeConvert] reads: the bit width and, when the
    dynamic type is [LeafType], whether [_baseType] is [BaseType::Int]. *)
Record TypeView : Type := mkTypeView { GetBitWidth : Z; leafIsInt : option bool }.

Definition TypeConvert (srcIn : Z) (srcType dstType : TypeView) : result Z :=
  if GetBitWidth srcType <? GetBitWidth dstType then
    match leafIsInt srcType with
    | Some isInt => Widen (mkLiteral srcIn (GetBitWidth srcType)) isInt (GetBitWidth dstType)
    | None => Ok srcIn
    end
  else if GetBitWidth dstType <? GetBitWidth srcType then Ok (Truncate srcIn (GetBitWidth dstType))
  else Ok srcIn.

(** ** Specification *)

(** Well-formed literal: a positive width that fits a [size_t] with room for
    the extra bits the operations add, and no bits beyond it. *)
Definition lit_wf (l : Literal) : Prop := 0 < _width l < 2 ^ 31 /\ 0 <= _value l < 2 ^ _width l.

Definition lit_neg (l : Literal) (signed : bool) : bool := signed && Z.testbit (_value l) (_width l - 1).

(** The integer that a literal denotes. *)
Definition lit_int (l : Literal) (signed : bool) : Z :=
  if lit_neg l signed then _value l - 2 ^ _width l else _value l.

Definition unop_spec (type : ParseTreeUnaryOpType) (a : Z) : Z :=
  match type with
  | ParseTreeUnaryOpTypeNegate => - a
  | _ => Z.lnot a
  end.

Definition binop_spec (type : ParseTreeBinaryOpType) (a b : Z) : Z :=
  match type with
  | ParseTreeBinaryOpTypeAdd => a + b
  | ParseTreeBinaryOpTypeSub => a - b
  | ParseTreeBinaryOpTypeAnd | ParseTreeBinaryOpTypeLogicalAnd => Z.land a b
  | ParseTreeBinaryOpTypeOr | ParseTreeBinaryOpTypeLogicalOr => Z.lor a b
  | ParseTreeBinaryOpTypeXor | ParseTreeBinaryOpTypeLogicalXor => Z.lxor a b
  | ParseTreeBinaryOpTypeShl => Z.shiftl a b
  | ParseTreeBinaryOpTypeShr => Z.shiftr a b
  | ParseTreeBinaryOpTypeMul | ParseTreeBinaryOpTypeLutMul => a * b
  | ParseTreeBinaryOpTypeDiv => Z.quot a b
  | ParseTreeBinaryOpTypeMod => Z.rem a b
  | ParseTreeBinaryOpTypeEQ => Z.b2z (a =? b)
  | ParseTreeBinaryOpTypeNE => Z.b2z (negb (a =? b))
  | ParseTreeBinaryOpTypeGT => Z.b2z (b <? a)
  | ParseTreeBinaryOpTypeGE => Z.b2z (b <=? a)
  | ParseTreeBinaryOpTypeLT => Z.b2z (a <? b)
  | ParseTreeBinaryOpTypeLE => Z.b2z (a <=? b)
  end.

(** What [ImplementBinaryOp] needs of its operands: divisors and shift
    amounts are not negative, and [==]/[!=] compare operands of one sign. *)
Definition binop_pre (type : ParseTreeBinaryOpType) (a b dstWidth : Z) : Prop :=
  match type with
  | ParseTreeBinaryOpTypeDiv | ParseTreeBinaryOpTypeMod => 0 < b
  | ParseTreeBinaryOpTypeShl => 0 <= b < 2 ^ 64
  | ParseTreeBinaryOpTypeShr => 0 <= b < 2 ^ 31
  | ParseTreeBinaryOpTypeEQ | ParseTreeBinaryOpTypeNE => (0 <= a <-> 0 <= b)
  | _ => True
  end.

(** ** Lemmas *)

Lemma Truncate_mod z n : 0 <= n -> Truncate z n = z mod 2 ^ n.
Proof.
  intros. unfold Truncate. rewrite shiftl_1_pow, Z.sub_1_r, <- Z.ones_equiv by done.
  by apply Z.land_ones.
Qed.

Lemma testbit_fold_bit_set f l a i :
  0 <= i -> Forall (fun j => 0 <= j) l ->
  Z.testbit (fold_left (fun r j => if (f j : bool) then set_bit r j else r) l a) i
  = Z.testbit a i || (bool_decide (i ∈ l) && f i).
Proof.
  intros Hi. revert a; induction l as [|j l IH]; intros a Hl; cbn [fold_left].
  - rewrite bool_decide_eq_false_2 by set_solver. by rewrite orb_false_r.
  - inversion_clear Hl as [|?? Hj Hl']. rewrite IH by done.
    assert (Z.testbit (if f j then set_bit a j else a) i = Z.testbit a i || ((j =? i) && f j)) as ->.
    { destruct (f j); [|by rewrite andb_false_r, orb_false_r].
      unfold set_bit. rewrite Z.lor_spec, testbit_1_shiftl by done. by rewrite andb_true_r. }
    rewrite <- orb_assoc. f_equal.
    destruct (Z.eqb_spec j i) as [->|Hne].
    + rewrite (bool_decide_eq_true_2 (i ∈ i :: l)) by set_solver.
      destruct (f i), (bool_decide (i ∈ l)); done.
    + cbn. f_equal. apply bool_decide_ext. set_solver.
Qed.

Lemma Forall_seqZ_nonneg a n : 0 <= a -> Forall (fun j => 0 <= j) (seqZ a n).
Proof. intros. apply Forall_forall. intros j Hj%elem_of_seqZ. lia. Qed.

Lemma testbit_flip src n i :
  0 <= i ->
  Z.testbit (fold_left (fun result j => if negb (Z.testbit src j) then set_bit result j else result)
               (seqZ 0 n) 0) i = (i <? n) && negb (Z.testbit src i).
Proof.
  intros Hi. rewrite (testbit_fold_bit_set (fun j => negb (Z.testbit src j)))
    by (done || by apply Forall_seqZ_nonneg).
  rewrite Z.bits_0. cbn. f_equal. apply Bool.eq_iff_eq_true.
  rewrite bool_decide_eq_true, elem_of_seqZ, Z.ltb_lt. lia.
Qed.

Lemma flip_mod src n d :
  0 <= d <= n ->
  fold_left (fun result j => if negb (Z.testbit src j) then set_bit result j else result) (seqZ 0 n) 0
    mod 2 ^ d = Z.lnot src mod 2 ^ d.
Proof.
  intros Hd. apply Z.bits_inj'; intros i Hi. rewrite !Z.testbit_mod_pow2 by lia.
  destruct (Z.ltb_spec i d); cbn; [|done]. rewrite testbit_flip, Z.lnot_spec by done.
  destruct (Z.ltb_spec i n); [done|lia].
Qed.

Lemma lit_pos l :
  lit_wf l -> 0 < 2 ^ _width l /\ 2 ^ _width l = 2 * 2 ^ (_width l - 1) /\ 0 < 2 ^ (_width l - 1).
Proof.
  intros [Hw _]. split; [apply Z.pow_pos_nonneg; lia|]. split.
  - rewrite <- Z.pow_succ_r by lia. f_equal. lia.
  - apply Z.pow_pos_nonneg; lia.
Qed.

Lemma lit_neg_spec l : lit_wf l -> Z.testbit (_value l) (_width l - 1) = (2 ^ (_width l - 1) <=? _value l).
Proof.
  intros Hl. pose proof (lit_pos l Hl) as (? & Heq & ?). destruct Hl as [Hw Hv].
  rewrite Z.testbit_eqb by lia.
  destruct (Z.leb_spec (2 ^ (_width l - 1)) (_value l)).
  - apply Z.eqb_eq. replace (_value l / 2 ^ (_width l - 1)) with 1; [done|].
    apply Z.div_unique with (_value l - 2 ^ (_width l - 1)); lia.
  - rewrite Z.div_small by lia. done.
Qed.

(** Range and sign of the denoted integer. *)
Lemma lit_int_bounds l s :
  lit_wf l ->
  - 2 ^ (_width l - 1) <= lit_int l s < 2 ^ _width l /\
  (lit_neg l s = true -> s = true /\ lit_int l s < 0 /\ lit_int l s = _value l - 2 ^ _width l) /\
  (lit_neg l s = false -> 0 <= lit_int l s /\ lit_int l s = _value l).
Proof.
  intros Hl. pose proof (lit_pos l Hl) as (? & Heq & ?). pose proof (lit_neg_spec l Hl) as Hn.
  unfold lit_int, lit_neg in *. destruct Hl as [Hw Hv]. rewrite Hn.
  destruct s; cbn; [|repeat split; try done; lia].
  destruct (Z.leb_spec (2 ^ (_width l - 1)) (_value l)); repeat split; try done; lia.
Qed.

Lemma lit_int_nonneg l s : lit_wf l -> 0 <= lit_int l s -> lit_neg l s = false /\ lit_int l s = _value l.
Proof.
  intros Hl H. destruct (lit_int_bounds l s Hl) as (_ & Hneg & Hpos).
  destruct (lit_neg l s) eqn:E; [destruct Hneg; lia|]. destruct Hpos; auto.
Qed.

Lemma lit_int_neg l s : lit_wf l -> lit_int l s < 0 ->
  lit_neg l s = true /\ s = true /\ lit_int l s = _value l - 2 ^ _width l.
Proof.
  intros Hl H. destruct (lit_int_bounds l s Hl) as (_ & Hneg & Hpos).
  destruct (lit_neg l s) eqn:E; [destruct Hneg as (? & ? & ?); auto|]. destruct Hpos; [done|lia].
Qed.

(** [Widen] yields the two's complement image of the denoted integer when the
    destination is at least as wide, and the unchanged value otherwise. *)
Lemma Widen_neg_eq v w d :
  0 < w -> 0 <= v < 2 ^ w -> w <= d ->
  fold_left set_bit (seqZ w (d - w)) v = v + (2 ^ d - 2 ^ w).
Proof.
  intros Hw Hv Hd.
  assert (Hlow : v + (2 ^ d - 2 ^ w) = Z.lor v (Z.shiftl (Z.ones (d - w)) w)).
  { rewrite lor_shiftl_add, Z.ones_equiv by lia.
    replace (2 ^ d) with (2 ^ (d - w) * 2 ^ w) by (rewrite <- Z.pow_add_r by lia; f_equal; lia). lia. }
  rewrite Hlow. apply Z.bits_inj'; intros i Hi.
  replace (fold_left set_bit (seqZ w (d - w)) v)
    with (fold_left (fun r j => if (fun _ => true) j then set_bit r j else r) (seqZ w (d - w)) v)
    by (by apply fold_left_ext).
  rewrite (testbit_fold_bit_set (fun _ => true)) by (done || (apply Forall_seqZ_nonneg; lia)).
  rewrite Z.lor_spec, Z.shiftl_spec by done. f_equal.
  rewrite andb_true_r.
  destruct (Z.lt_ge_cases i w).
  - rewrite Z.testbit_neg_r by lia. apply bool_decide_eq_false_2. rewrite elem_of_seqZ. lia.
  - destruct (Z.lt_ge_cases i d).
    + rewrite Z.ones_spec_low by lia. apply bool_decide_eq_true_2. rewrite elem_of_seqZ. lia.
    + rewrite Z.ones_spec_high by lia. apply bool_decide_eq_false_2. rewrite elem_of_seqZ. lia.
Qed.

Lemma Widen_eq l s d :
  lit_wf l -> d <= 2 ^ 32 ->
  exists v, Widen l s d = Ok v /\ 0 <= v /\
    (_width l <= d -> v = lit_int l s mod 2 ^ d) /\ (d < _width l -> v = _value l) /\ (lit_neg l s = false -> v = _value l).
Proof.
  intros Hl Hd32. pose proof (lit_pos l Hl) as (? & ? & ?). pose proof (lit_int_bounds l s Hl) as (Hb & _).
  unfold Widen. destruct Hl as [Hw Hv].
  rewrite assert_true by (apply Z.ltb_lt; lia). cbn [mbind result_bind].
  rewrite bit_test_eq by lia. cbn [mbind result_bind].
  rewrite (foldM_Ok _ set_bit) by (intros b a Ha%elem_of_seqZ; apply bit_set_eq; lia).
  replace (if s then if Z.testbit _ _ then _ else _ else _)
    with (if lit_neg l s then Ok (fold_left set_bit (seqZ (_width l) (d - _width l)) (_value l)) else Ok (_value l))
    by (unfold lit_neg; by destruct s, (Z.testbit (_value l) (_width l - 1))).
  unfold lit_int in *.
  destruct (lit_neg l s) eqn:Hn.
  - destruct (Z.lt_ge_cases d (_width l)).
    + rewrite seqZ_nil by lia. cbn. exists (_value l). repeat split; lia || done.
    + eexists; split; [done|]. rewrite Widen_neg_eq by lia.
      assert (2 ^ _width l <= 2 ^ d) by (apply Z.pow_le_mono_r; lia).
      split; [lia|]. split; [|split; [lia|done]]. intros _.
      replace (_value l - 2 ^ _width l) with (_value l + (2 ^ d - 2 ^ _width l) + (-1) * 2 ^ d) by lia.
      rewrite Z.mod_add by lia. symmetry. apply Z.mod_small. lia.
  - eexists; split; [done|]. split; [lia|]. split; [|done]. intros ?.
    assert (2 ^ _width l <= 2 ^ d) by (apply Z.pow_le_mono_r; lia).
    symmetry. apply Z.mod_small. lia.
Qed.

Lemma pow2_divide a b : 0 <= a <= b -> (2 ^ a | 2 ^ b).
Proof. intros. exists (2 ^ (b - a)). rewrite <- Z.pow_add_r by lia. f_equal. lia. Qed.

Lemma mod_mod_pow2 x a b : 0 <= a <= b -> (x mod 2 ^ b) mod 2 ^ a = x mod 2 ^ a.
Proof.
  intros. apply Z.bits_inj'; intros i Hi. rewrite !Z.testbit_mod_pow2 by lia.
  destruct (Z.ltb_spec i a), (Z.ltb_spec i b); (done || lia).
Qed.

(** Congruence of the widened value with the denoted integer. *)
Lemma Widen_congr l s d e :
  lit_wf l -> 0 <= e <= d -> d <= 2 ^ 32 -> exists v, Widen l s d = Ok v /\ 0 <= v /\ v mod 2 ^ e = lit_int l s mod 2 ^ e
    /\ (lit_neg l s = false -> v = _value l).
Proof.
  intros Hl He Hd32. destruct (Widen_eq l s d Hl Hd32) as (v & -> & H0 & H1 & H2 & H3).
  exists v; split; [done|]. split; [done|]. split; [|done].
  destruct (Z.lt_ge_cases d (_width l)) as [Hd|Hd].
  - rewrite H2 by done. unfold lit_int. destruct (lit_neg l s); [|done].
    rewrite Zminus_mod. destruct (pow2_divide e (_width l) ltac:(lia)) as [q ->].
    rewrite Z.mod_mul, Z.sub_0_r, Z.mod_mod by (pose proof (Z.pow_pos_nonneg 2 e ltac:(lia) ltac:(lia)); lia). done.
  - rewrite H1 by lia. by apply mod_mod_pow2.
Qed.

Lemma Resize_eq l s d : lit_wf l -> 0 <= d <= 2 ^ 32 -> Resize l s d = Ok (lit_int l s mod 2 ^ d).
Proof.
  intros Hl Hd. unfold Resize. destruct (Widen_congr l s d d Hl) as (v & -> & _ & Hm & _); [lia..|].
  cbn. by rewrite Truncate_mod, Hm by lia.
Qed.

Lemma unop_congr type a b n :
  0 <= n -> a mod 2 ^ n = b mod 2 ^ n -> unop_spec type a mod 2 ^ n = unop_spec type b mod 2 ^ n.
Proof.
  intros Hn H. pose proof (Z.pow_pos_nonneg 2 n ltac:(lia) Hn).
  assert (Hopp : (- a) mod 2 ^ n = (- b) mod 2 ^ n).
  { rewrite <- (Z.sub_0_l a), <- (Z.sub_0_l b), (Zminus_mod 0 a), (Zminus_mod 0 b). by rewrite H. }
  destruct type; cbn; unfold Z.lnot; [|done|]; rewrite <- !Z.sub_1_r, (Zminus_mod (- a)), (Zminus_mod (- b));
    by rewrite Hopp.
Qed.

Lemma ImplementUnaryOp_eq l s type d :
  lit_wf l -> 0 <= d <= 2 ^ 31 ->
  ImplementUnaryOp l s type d = Ok (unop_spec type (lit_int l s) mod 2 ^ d).
Proof.
  intros Hl Hd. unfold ImplementUnaryOp. set (iw := u64_add _ 1).
  assert (Hiw : iw = Z.max (_width l) d + 1).
  { unfold iw, u64_add. destruct Hl. apply u64_small. unfold is_u64. lia. }
  destruct (Widen_congr l s iw d Hl) as (v & -> & _ & Hm & _); [destruct Hl; lia..|]. cbn [mbind result_bind].
  rewrite (foldM_Ok _ (fun result i => if negb (Z.testbit v i) then set_bit result i else result)).
  2: { intros b i Hi%elem_of_seqZ. destruct Hl. rewrite bit_test_eq, bit_set_eq by lia. cbn. by destruct (Z.testbit v i). }
  cbn [mbind result_bind]. set (flipped := fold_left _ _ _).
  assert (Hf : flipped mod 2 ^ d = Z.lnot v mod 2 ^ d) by (apply flip_mod; lia).
  f_equal. rewrite Truncate_mod by lia.
  rewrite <- (unop_congr type v) by (lia || done).
  destruct type; cbn; [done| |done].
  rewrite Zplus_mod, Hf, <- Zplus_mod. f_equal. unfold Z.lnot. lia.
Qed.

Lemma AbsLiteral_eq l : lit_wf l -> AbsLiteral l = Ok (Z.abs (lit_int l true)).
Proof.
  intros Hl. pose proof (lit_int_bounds l true Hl) as (Hb & Hn & Hp).
  pose proof (lit_pos l Hl) as (? & ? & ?). unfold AbsLiteral. unfold lit_neg in Hn, Hp. cbn in Hn, Hp.
  unfold u64_sub. rewrite u64_small, bit_test_eq by (destruct Hl; unfold is_u64; lia). cbn [mbind result_bind].
  destruct (Z.testbit (_value l) (_width l - 1)).
  - destruct Hn as (_ & ? & _); [done|]. destruct (id Hl) as [Hw _].
    unfold u64_add. rewrite u64_small by (unfold is_u64; lia).
    rewrite Z.abs_neq by lia.
    rewrite ImplementUnaryOp_eq by (done || lia). cbn. rewrite Z.mod_small; [done|].
    rewrite Z.pow_add_r by lia. lia.
  - destruct Hp as (? & Hp); [done|]. rewrite Z.abs_eq by lia. by rewrite Hp.
Qed.

(** Arithmetic and bitwise operators respect congruence modulo [2^n]. *)
Lemma bitwise_congr (op : Z -> Z -> Z) (f : bool -> bool -> bool) a a' b b' n :
  (forall x y i, Z.testbit (op x y) i = f (Z.testbit x i) (Z.testbit y i)) ->
  0 <= n -> a mod 2 ^ n = a' mod 2 ^ n -> b mod 2 ^ n = b' mod 2 ^ n ->
  op a b mod 2 ^ n = op a' b' mod 2 ^ n.
Proof.
  intros Hop Hn Ha Hb. apply Z.bits_inj'; intros i Hi. rewrite !Z.testbit_mod_pow2, !Hop by lia.
  destruct (Z.ltb_spec i n); cbn; [|done].
  rewrite <- (Z.mod_pow2_bits_low a n i), <- (Z.mod_pow2_bits_low b n i), Ha, Hb by done.
  by rewrite !Z.mod_pow2_bits_low.
Qed.

Definition congruent_op (type : ParseTreeBinaryOpType) : bool :=
  match type with
  | ParseTreeBinaryOpTypeAdd | ParseTreeBinaryOpTypeSub | ParseTreeBinaryOpTypeMul | ParseTreeBinaryOpTypeLutMul
  | ParseTreeBinaryOpTypeAnd | ParseTreeBinaryOpTypeLogicalAnd | ParseTreeBinaryOpTypeOr
  | ParseTreeBinaryOpTypeLogicalOr | ParseTreeBinaryOpTypeXor | ParseTreeBinaryOpTypeLogicalXor => true
  | _ => false
  end.

Lemma binop_congr type a a' b b' n :
  congruent_op type = true -> 0 <= n -> a mod 2 ^ n = a' mod 2 ^ n -> b mod 2 ^ n = b' mod 2 ^ n ->
  binop_spec type a b mod 2 ^ n = binop_spec type a' b' mod 2 ^ n.
Proof.
  intros Ht Hn Ha Hb. pose proof (Z.pow_pos_nonneg 2 n ltac:(lia) Hn).
  destruct type; try discriminate Ht; cbn.
  - by rewrite Zplus_mod, Ha, Hb, <- Zplus_mod.
  - by rewrite Zminus_mod, Ha, Hb, <- Zminus_mod.
  - by rewrite Zmult_mod, Ha, Hb, <- Zmult_mod.
  - by rewrite Zmult_mod, Ha, Hb, <- Zmult_mod.
  - by apply (bitwise_congr _ andb); [apply Z.land_spec|..].
  - by apply (bitwise_congr _ andb); [apply Z.land_spec|..].
  - by apply (bitwise_congr _ orb); [apply Z.lor_spec|..].
  - by apply (bitwise_congr _ orb); [apply Z.lor_spec|..].
  - by apply (bitwise_congr _ xorb); [apply Z.lxor_spec|..].
  - by apply (bitwise_congr _ xorb); [apply Z.lxor_spec|..].
Qed.

Lemma shiftl_congr a a' k n :
  0 <= n -> 0 <= k -> a mod 2 ^ n = a' mod 2 ^ n -> Z.shiftl a k mod 2 ^ n = Z.shiftl a' k mod 2 ^ n.
Proof.
  intros. pose proof (Z.pow_pos_nonneg 2 n ltac:(lia) ltac:(lia)).
  rewrite !Z.shiftl_mul_pow2, Zmult_mod by done. by rewrite H1, <- Zmult_mod.
Qed.

Lemma shiftr_congr a a' k n :
  0 <= n -> 0 <= k -> a mod 2 ^ (n + k) = a' mod 2 ^ (n + k) -> Z.shiftr a k mod 2 ^ n = Z.shiftr a' k mod 2 ^ n.
Proof.
  intros Hn Hk H. apply Z.bits_inj'; intros i Hi. rewrite !Z.testbit_mod_pow2, !Z.shiftr_spec by lia.
  destruct (Z.ltb_spec i n); cbn; [|done].
  rewrite <- (Z.mod_pow2_bits_low a (n + k)), H by lia. by rewrite Z.mod_pow2_bits_low by lia.
Qed.

Lemma Positive_neg (l : Literal) (s : bool) :
  lit_wf l ->
  (if s then b ← bit_test (_value l) (_width l - 1); Ok (negb b) else Ok true) = Ok (negb (lit_neg l s)).
Proof. intros []. unfold lit_neg. destruct s; [|done]. by rewrite bit_test_eq by lia. Qed.

Section ImplementBinaryOp.
Context (a b : Literal) (s0 s1 : bool) (d : Z).
Context (Ha : lit_wf a) (Hb : lit_wf b) (Hd : 0 < d < 2 ^ 31) (Hwa60 : _width a < 2 ^ 30).

Let A := lit_int a s0.
Let B := lit_int b s1.

Lemma Widen_nonneg r : 0 <= B -> r <= 2 ^ 32 -> Widen b s1 r = Ok B /\ negb (lit_neg b s1) = true /\ _value b = B.
Proof.
  intros HB Hr. apply lit_int_nonneg in HB as [Hn HB]; [|done].
  destruct (Widen_eq b s1 r Hb Hr) as (v & -> & _ & _ & _ & Hv). rewrite Hv by done.
  fold B in HB. rewrite Hn. rewrite HB. done.
Qed.

Lemma neg_cases :
  (negb (lit_neg a s0) = true /\ 0 <= A /\ A = _value a) \/
  (negb (lit_neg a s0) = false /\ s0 = true /\ A < 0 /\ A = _value a - 2 ^ _width a).
Proof.
  pose proof (lit_int_bounds a s0 Ha) as (_ & Hn & Hp). fold A in Hn, Hp.
  destruct (lit_neg a s0); [right|left]; intuition.
Qed.

Lemma requiredSourceWidth_shr : 0 <= B < 2 ^ 31 ->
  requiredSourceWidth a b d ParseTreeBinaryOpTypeShr = Ok (d + B).
Proof.
  intros HB. cbn. destruct (Widen_nonneg 0) as (_ & _ & ->); [lia..|].
  rewrite MpToSizeT_small by (unfold is_u64; lia). cbn. unfold u64_add.
  by rewrite u64_small by (unfold is_u64; lia).
Qed.

Lemma ImplementBinaryOp_congruent type :
  congruent_op type = true -> ImplementBinaryOp a b d s0 s1 type = Ok (binop_spec type A B mod 2 ^ d).
Proof.
  intros Ht. unfold ImplementBinaryOp.
  destruct (id Ha) as [Hwa _]. destruct (id Hb) as [Hwb _].
  rewrite (assert_true (0 <? _width a)), (assert_true (0 <? _width b)), (assert_true (0 <? d))
    by (apply Z.ltb_lt; lia). cbn [mbind result_bind].
  replace (requiredSourceWidth a b d type) with (Ok d) by (destruct type; done). cbn [mbind result_bind].
  destruct (Widen_congr a s0 d d Ha) as (v & -> & _ & Hv & _); [lia..|].
  destruct (Widen_congr b s1 d d Hb) as (w & -> & _ & Hw & _); [lia..|].
  cbn [mbind result_bind]. rewrite !Positive_neg by done. cbn [mbind result_bind].
  rewrite <- (binop_congr type v A w B d) by (done || lia).
  destruct type; try discriminate Ht; cbn; by rewrite Truncate_mod by lia.
Qed.

Lemma ImplementBinaryOp_shift type :
  type = ParseTreeBinaryOpTypeShl \/ type = ParseTreeBinaryOpTypeShr ->
  binop_pre type A B d ->
  ImplementBinaryOp a b d s0 s1 type = Ok (binop_spec type A B mod 2 ^ d).
Proof.
  intros Ht Hpre. unfold ImplementBinaryOp.
  destruct (id Ha) as [Hwa _]. destruct (id Hb) as [Hwb _].
  rewrite (assert_true (0 <? _width a)), (assert_true (0 <? _width b)), (assert_true (0 <? d))
    by (apply Z.ltb_lt; lia). cbn [mbind result_bind].
  assert (HB : 0 <= B < 2 ^ 64) by (destruct Ht as [-> | ->]; cbn in Hpre; lia).
  destruct Ht as [-> | ->]; cbn in Hpre.
  - cbn [requiredSourceWidth mbind result_bind].
    destruct (Widen_congr a s0 d d Ha) as (v & -> & _ & Hv & _); [lia..|].
    destruct (Widen_nonneg d) as (-> & Hn & _); [lia..|]. cbn [mbind result_bind].
    rewrite !Positive_neg, Hn by done. cbn [mbind result_bind assert_]. rewrite MpToSizeT_small by done. cbn.
    rewrite Truncate_mod by lia. f_equal. by apply shiftl_congr; [lia|lia|].
  - rewrite requiredSourceWidth_shr by lia. cbn [mbind result_bind].
    destruct (Widen_congr a s0 (d + B) (d + B) Ha) as (v & -> & _ & Hv & _); [lia..|].
    destruct (Widen_nonneg (d + B)) as (-> & Hn & _); [lia..|]. cbn [mbind result_bind].
    rewrite !Positive_neg, Hn by done. cbn [mbind result_bind assert_]. rewrite MpToSizeT_small by done. cbn.
    rewrite Truncate_mod by lia. f_equal. by apply shiftr_congr; [lia|lia|].
Qed.

Lemma ImplementBinaryOp_divmod type :
  type = ParseTreeBinaryOpTypeDiv \/ type = ParseTreeBinaryOpTypeMod ->
  binop_pre type A B d ->
  ImplementBinaryOp a b d s0 s1 type = Ok (binop_spec type A B mod 2 ^ d).
Proof.
  intros Ht Hpre. unfold ImplementBinaryOp.
  destruct (id Ha) as [Hwa Hva]. destruct (id Hb) as [Hwb Hvb].
  rewrite (assert_true (0 <? _width a)), (assert_true (0 <? _width b)), (assert_true (0 <? d))
    by (apply Z.ltb_lt; lia). cbn [mbind result_bind].
  assert (HB : 0 < B) by (destruct Ht as [-> | ->]; done).
  replace (requiredSourceWidth a b d type) with (Ok d) by (destruct Ht as [-> | ->]; done).
  cbn [mbind result_bind].
  destruct (Widen_eq a s0 d Ha) as (v & -> & _ & _ & _ & Hv); [lia|]. cbn [mbind result_bind].
  destruct (Widen_nonneg d) as (-> & Hn & Hvb'); [lia..|]. cbn [mbind result_bind].
  rewrite !Positive_neg, Hvb', (proj2 (Z.eqb_neq B 0)) by (done || lia). cbn [mbind result_bind].
  destruct neg_cases as [(Hna & HA & HA')|(Hna & Hs & HA & HA')]; rewrite Hna.
  - rewrite Hv, <- HA' by (by destruct (lit_neg a s0)).
    destruct Ht as [-> | ->]; cbn; by rewrite Truncate_mod by lia.
  - rewrite AbsLiteral_eq by done. cbn [mbind result_bind].
    assert (Habs : Z.abs (lit_int a true) = - A) by (unfold A in *; rewrite Hs in *; lia). rewrite Habs.
    assert (HA2 : - A <= 2 ^ _width a) by lia.
    assert (Hpow : 2 ^ _width a < 2 ^ (_width a + 1)) by (apply Z.pow_lt_mono_r; lia).
    unfold u64_add. rewrite u64_small by (unfold is_u64; lia).
    destruct Ht as [-> | ->]; cbn [mbind result_bind].
    + pose proof (Z.quot_le_upper_bound (- A) B (- A) ltac:(lia) ltac:(nia)).
      pose proof (Z.quot_pos (- A) B ltac:(lia) ltac:(lia)).
      rewrite ImplementUnaryOp_eq by (unfold lit_wf; cbn; lia). cbn.
      rewrite Truncate_mod, Z.mod_mod by lia. f_equal. f_equal.
      rewrite Z.quot_opp_l by lia. lia.
    + pose proof (Z.rem_bound_pos (- A) B ltac:(lia) ltac:(lia)).
      rewrite ImplementUnaryOp_eq by (unfold lit_wf; cbn; lia). cbn.
      rewrite Truncate_mod, Z.mod_mod by lia. f_equal. f_equal.
      rewrite Z.rem_opp_l by lia. lia.
Qed.

Definition relational_op (type : ParseTreeBinaryOpType) : bool :=
  match type with
  | ParseTreeBinaryOpTypeEQ | ParseTreeBinaryOpTypeNE | ParseTreeBinaryOpTypeGT
  | ParseTreeBinaryOpTypeGE | ParseTreeBinaryOpTypeLT | ParseTreeBinaryOpTypeLE => true
  | _ => false
  end.

(** A source widened to the common width: the integer itself, or its
    two's complement image when it is negative. *)
Lemma Widen_wide l s W :
  lit_wf l -> _width l <= W <= 2 ^ 32 ->
  Widen l s W = Ok (if lit_neg l s then lit_int l s + 2 ^ W else lit_int l s).
Proof.
  intros Hl HW. destruct (Widen_eq l s W Hl) as (v & -> & _ & Hv & _ & Hv'); [lia|]. f_equal.
  pose proof (lit_int_bounds l s Hl) as (Hbd & Hn & Hp). pose proof (lit_pos l Hl) as (? & ? & ?).
  assert (2 ^ _width l <= 2 ^ W) by (apply Z.pow_le_mono_r; lia).
  destruct (lit_neg l s).
  - rewrite Hv by lia. destruct Hn as (_ & ? & _); [done|].
    rewrite <- (Z.mod_add _ 1) by lia. rewrite Z.mod_small; lia.
  - rewrite Hv' by done. destruct Hp; [done|lia].
Qed.

Lemma ImplementBinaryOp_relational type :
  relational_op type = true -> binop_pre type A B d ->
  ImplementBinaryOp a b d s0 s1 type = Ok (binop_spec type A B mod 2 ^ d).
Proof.
  intros Ht Hpre. unfold ImplementBinaryOp.
  destruct (id Ha) as [Hwa Hva]. destruct (id Hb) as [Hwb Hvb].
  rewrite (assert_true (0 <? _width a)), (assert_true (0 <? _width b)), (assert_true (0 <? d))
    by (apply Z.ltb_lt; lia). cbn [mbind result_bind].
  set (W := Z.max (_width a) (_width b)).
  replace (requiredSourceWidth a b d type) with (Ok W) by (destruct type; done). cbn [mbind result_bind].
  rewrite !Widen_wide by (done || lia). cbn [mbind result_bind]. rewrite !Positive_neg by done. cbn [mbind result_bind]. fold A B.
  assert (HA : - 2 ^ W < A < 2 ^ W /\ (if lit_neg a s0 then A < 0 else 0 <= A)).
  { pose proof (lit_int_bounds a s0 Ha) as (Hbd & Hn & Hp). fold A in Hbd, Hn, Hp.
    pose proof (lit_pos a Ha). assert (2 ^ _width a <= 2 ^ W) by (apply Z.pow_le_mono_r; lia).
    split; [lia|]. destruct (lit_neg a s0); intuition. }
  assert (HB : - 2 ^ W < B < 2 ^ W /\ (if lit_neg b s1 then B < 0 else 0 <= B)).
  { pose proof (lit_int_bounds b s1 Hb) as (Hbd & Hn & Hp). fold B in Hbd, Hn, Hp.
    pose proof (lit_pos b Hb). assert (2 ^ _width b <= 2 ^ W) by (apply Z.pow_le_mono_r; lia).
    split; [lia|]. destruct (lit_neg b s1); intuition. }
  destruct HA as [HA HsA], HB as [HB HsB].
  destruct type; try discriminate Ht; cbn in Hpre |- *; rewrite Truncate_mod by lia; do 2 f_equal;
    unfold compare_signs; destruct (lit_neg a s0), (lit_neg b s1); cbn; try f_equal;
    try (apply Bool.eq_iff_eq_true; rewrite ?negb_true_iff, ?Z.ltb_lt, ?Z.leb_le, ?Z.ltb_ge, ?Z.leb_gt,
      ?Z.eqb_eq, ?Z.eqb_neq; lia).
  all: first [symmetry; apply Z.ltb_lt; lia | symmetry; apply Z.ltb_ge; lia
             |symmetry; apply Z.leb_le; lia | symmetry; apply Z.leb_gt; lia
             |change 1 with (Z.b2z true); f_equal; symmetry; (apply Z.ltb_lt || apply Z.leb_le); lia
             |change 0 with (Z.b2z false); f_equal; symmetry; (apply Z.ltb_ge || apply Z.leb_gt); lia].
Qed.

End ImplementBinaryOp.

Lemma ImplementBinaryOp_eq a b d s0 s1 type :
  lit_wf a -> lit_wf b -> 0 < d < 2 ^ 31 -> _width a < 2 ^ 30 ->
  binop_pre type (lit_int a s0) (lit_int b s1) d ->
  ImplementBinaryOp a b d s0 s1 type = Ok (binop_spec type (lit_int a s0) (lit_int b s1) mod 2 ^ d).
Proof.
  intros Ha Hb Hd Hw Hpre.
  destruct (congruent_op type) eqn:Hc; [by apply ImplementBinaryOp_congruent|].
  destruct (relational_op type) eqn:Hr; [by apply ImplementBinaryOp_relational|].
  destruct type; try discriminate;
    first [by apply ImplementBinaryOp_divmod; auto | by apply ImplementBinaryOp_shift; auto].
Qed.


(** ** Equality

    [==] and [!=] compare the two's complement images at the larger of the two
    widths: they agree with the integers exactly when the images do. *)

Lemma ImplementBinaryOp_images a b d s0 s1 :
  lit_wf a -> lit_wf b -> 0 < d < 2 ^ 31 ->
  ImplementBinaryOp a b d s0 s1 ParseTreeBinaryOpTypeEQ =
    Ok (Z.b2z (lit_int a s0 mod 2 ^ Z.max (_width a) (_width b) =? lit_int b s1 mod 2 ^ Z.max (_width a) (_width b)) mod 2 ^ d) /\
  ImplementBinaryOp a b d s0 s1 ParseTreeBinaryOpTypeNE =
    Ok (Z.b2z (negb (lit_int a s0 mod 2 ^ Z.max (_width a) (_width b)
                     =? lit_int b s1 mod 2 ^ Z.max (_width a) (_width b))) mod 2 ^ d).
Proof.
  intros Ha Hb Hd. destruct (id Ha) as [Hwa _]. destruct (id Hb) as [Hwb _]. set (W := Z.max _ _).
  unfold ImplementBinaryOp.
  rewrite (assert_true (0 <? _width a)), (assert_true (0 <? _width b)), (assert_true (0 <? d))
    by (apply Z.ltb_lt; lia). cbn [mbind result_bind requiredSourceWidth]. fold W.
  destruct (Widen_eq a s0 W Ha) as (v & -> & _ & Hv & _); [lia|].
  destruct (Widen_eq b s1 W Hb) as (v' & -> & _ & Hv' & _); [lia|]. cbn [mbind result_bind].
  rewrite !Positive_neg by done. cbn [mbind result_bind].
  rewrite Hv, Hv', !Truncate_mod by lia. done.
Qed.

(** C29: [ImplementBinaryOp] on [==] compares the operands modulo [2^W], where
    [W] is the larger of the two widths, whatever their signs. *)
Theorem ImplementBinaryOp_EQ_images a b d s0 s1 :
  lit_wf a -> lit_wf b -> 0 < d < 2 ^ 31 ->
  ImplementBinaryOp a b d s0 s1 ParseTreeBinaryOpTypeEQ =
    Ok (Z.b2z (lit_int a s0 mod 2 ^ Z.max (_width a) (_width b) =? lit_int b s1 mod 2 ^ Z.max (_width a) (_width b)) mod 2 ^ d).
Proof. intros Ha Hb Hd. exact (proj1 (ImplementBinaryOp_images a b d s0 s1 Ha Hb Hd)). Qed.
(** The signed eight-bit [-1] and the unsigned eight-bit [255] have one image,
    so [==] folds to true and [!=] to false although the integers differ. *)
Lemma ImplementBinaryOp_EQ_images_witness :
  ImplementBinaryOp (mkLiteral 255 8) (mkLiteral 255 8) 1 true false ParseTreeBinaryOpTypeEQ = Ok 1 /\
  lit_int (mkLiteral 255 8) true = -1 /\ lit_int (mkLiteral 255 8) false = 255.
Proof.
  split; [|split; reflexivity].
  rewrite (ImplementBinaryOp_EQ_images (mkLiteral 255 8) (mkLiteral 255 8) 1 true false).
  - reflexivity.
  - unfold lit_wf; cbn; lia.
  - unfold lit_wf; cbn; lia.
  - lia.
Defined.


End Literals.
