(* ===== verification/Ir.v ===== *)
(** * The intermediate representation: registers, operands, operations

    [ir.h]: [RegisterType], [RegisterDescription], [AccessedRegister],
    [FifoSubset], [SourceOperand], [DestinationOperand], [GatherEntry],
    [LutEntry], [Lut], [Opcode], [Operation]; [ir.cpp]: the widths of operands
    and the evaluation of a look-up table; [optimize.cpp]: the evaluation of an
    operation whose sources are literals, which [ConstantPropagation] performs.

    The union [Operation::_flags] is tagged by [_opcode]: the payloads that the
    modelled passes read are arguments of the constructors of [Opcode].  The
    fields of [Operation] that only enqueue operations and the debugger use
    ([_getSuccessorBlock], the renaming tables, [_isPredicated],
    [_expectNoSourceLocation]) are left out.  A vector index is a [nat], a
    width or a bit position a [Z]. *)

From S2P Require Import Prelude MachineInt Literals.
Import MachineInt Literals.

Module Ir.

Inductive RegisterType : Type :=
| Global | Local | Pipeline | Fifo | Wire | Memory | GlobalView | BitBucket.

#[export] Instance RegisterType_eq_dec : EqDecision RegisterType.
Proof. solve_decision. Defined.

(** The columns of [g_registerTable]. *)
Record RegisterTableEntry : Type := mkRegisterTableEntry {
  _allowedInKillMoves : bool; _canBeRenamed : bool; _isLocal : bool;
  _requiresPipelineStage : bool; _reorderBarrier : bool }.

Definition GetRegisterTableEntry (registerType : RegisterType) : RegisterTableEntry :=
  match registerType with
  | Global     => mkRegisterTableEntry false false false false true
  | Local      => mkRegisterTableEntry true  true  true  false false
  | Pipeline   => mkRegisterTableEntry false false true  false false
  | Fifo       => mkRegisterTableEntry false false false true  false
  | Wire       => mkRegisterTableEntry false false true  false false
  | Memory     => mkRegisterTableEntry false false false true  true
  | GlobalView => mkRegisterTableEntry false false false false false
  | BitBucket  => mkRegisterTableEntry false false false false false
  end.

Definition IsLocalRegisterType (t : RegisterType) : bool := _isLocal (GetRegisterTableEntry t).

Record RegisterDescription : Type := mkRegisterDescription {
  _regWidth : Z; _type : RegisterType; _name : string }.

Record Program : Type := mkProgram { _registerTable : list RegisterDescription }.

(** [AllocateRegister(&program, bitWidth, type, name)] for a register type that has no container *)
Definition AllocateRegister (program : Program) (bitWidth : Z) (type : RegisterType) (name : string)
    : result (Program * nat) :=
  assert_ (negb (String.eqb name ""));;
  let index := length (_registerTable program) in
  Ok (mkProgram (_registerTable program ++ [mkRegisterDescription bitWidth type name]), index).

Definition registerWidth (program : Program) (index : nat) : result Z :=
  d ← at_ (_registerTable program) index; Ok (_regWidth d).

Record AccessedRegister : Type := mkAccessedRegister { _registerIndex : nat }.
Record FifoSubset : Type := mkFifoSubset { _fifoRegisterIndex : nat; _offset : Z; _fifoWidth : Z }.

#[export] Instance AccessedRegister_eq_dec : EqDecision AccessedRegister.
Proof. solve_decision. Defined.
#[export] Instance FifoSubset_eq_dec : EqDecision FifoSubset.
Proof. solve_decision. Defined.

(** [SourceOperand]: [_type] selects the live field. *)
Inductive SourceOperand : Type :=
| SrcLiteral (l : Literal)
| SrcRegister (r : AccessedRegister)
| SrcFifo (f : FifoSubset)
| SrcStringLiteral (s : string).

Inductive DestinationOperand : Type :=
| DstRegister (r : AccessedRegister)
| DstFifo (f : FifoSubset).

#[export] Instance SourceOperand_eq_dec : EqDecision SourceOperand.
Proof. solve_decision. Defined.
#[export] Instance DestinationOperand_eq_dec : EqDecision DestinationOperand.
Proof. solve_decision. Defined.

(** [SourceOperand(size_t val, size_t width = 64)] and [SourceOperand(const mp_int&)] *)
Definition SourceOperand_size_t (val width : Z) : SourceOperand := SrcLiteral (mkLiteral val width).
Definition SourceOperand_mp_int (val : Z) : result SourceOperand :=
  w ← GetMpWidth val; Ok (SrcLiteral (mkLiteral val w)).

Definition GetLiteral (o : SourceOperand) : result Literal :=
  match o with SrcLiteral l => Ok l | _ => Err AssertionFailed end.
Definition GetAccessedRegister (o : SourceOperand) : result AccessedRegister :=
  match o with SrcRegister r => Ok r | _ => Err AssertionFailed end.
Definition isLiteral (o : SourceOperand) : bool := match o with SrcLiteral _ => true | _ => false end.
Definition isRegister (o : SourceOperand) : bool := match o with SrcRegister _ => true | _ => false end.

Definition SourceOperand_Width (program : Program) (o : SourceOperand) : result Z :=
  match o with
  | SrcLiteral l => Ok (_width l)
  | SrcRegister r => registerWidth program (_registerIndex r)
  | SrcFifo f => Ok (_fifoWidth f)
  | SrcStringLiteral _ => Ok 0
  end.

Definition DestinationOperand_Width (program : Program) (o : DestinationOperand) : result Z :=
  match o with
  | DstRegister r => registerWidth program (_registerIndex r)
  | DstFifo f => Ok (_fifoWidth f)
  end.

Record GatherEntry : Type := mkGatherEntry { _sourceOffset : Z; _destOffset : Z; _numBits : Z }.

(** ** Look-up tables *)

Definition c_maxLutSources : nat := 6.

(** [_sourceIndices] and [_sourceBit] are C arrays of [c_maxLutSources]
    elements of which the first [_numSources] are in use. *)
Record LutEntry : Type := mkLutEntry {
  _numSources : nat;
  _sourceIndices : list nat;
  _sourceBit : list Z;
  _table : Z }.

(** [_numDestinationBits] is the size of the array [_lutEntries] points to. *)
Record Lut : Type := mkLut { _lutEntries : list LutEntry }.
Definition _numDestinationBits (l : Lut) : nat := length (_lutEntries l).

(** [LutEntry e = {}] *)
Definition LutEntry_zero : LutEntry :=
  mkLutEntry 0 (replicate c_maxLutSources 0%nat) (replicate c_maxLutSources 0) 0.

(** A zero-initialised array whose first elements have been assigned *)
Definition fill_array {A} (zero : A) (l : list A) : list A := l ++ replicate (c_maxLutSources - length l) zero.

(** A zero-initialised entry whose columns and table have been assigned *)
Definition fill_entry (cols : list (nat * Z)) (table : Z) : LutEntry :=
  mkLutEntry (length cols) (fill_array 0%nat cols.*1) (fill_array 0 cols.*2) table.

Definition IsConstantZero (e : LutEntry) : bool := _table e =? 0.

Definition IsConstantOne (e : LutEntry) : bool :=
  ((_numSources e =? 0)%nat && (_table e =? 1)) || ((_numSources e =? 1)%nat && (_table e =? 3)).

Definition IsInvert (e : LutEntry) : bool := (_numSources e =? 1)%nat && (_table e =? 1).
Definition IsPassthrough (e : LutEntry) : bool := (_numSources e =? 1)%nat && (_table e =? 2).

Definition TableSize (e : LutEntry) : result Z :=
  assert_ (_numSources e <=? c_maxLutSources)%nat;;
  Ok (Z.shiftl 1 (Z.of_nat (_numSources e))).

Definition TableMask (e : LutEntry) : result Z :=
  tableSize ← TableSize e;
  Ok (if tableSize =? 64 then 2 ^ 64 - 1 else Z.shiftl 1 tableSize - 1).

Definition GetTableEntry (e : LutEntry) (rowIndex : Z) : result bool :=
  sz ← TableSize e;
  assert_ (rowIndex <? sz);;
  Ok (Z.land (Z.shiftr (_table e) rowIndex) 1 =? 1).

(** One destination bit of [Lut::Evaluate]. *)
Definition EvaluateEntry (evalSrcOperand : nat -> Z) (le : LutEntry) : result bool :=
  tableRowIndex ← foldM (fun tableRowIndex tableColumnIndex =>
      srcOperandIndex ← at_ (_sourceIndices le) tableColumnIndex;
      let operandValue := evalSrcOperand srcOperandIndex in
      srcBit ← at_ (_sourceBit le) tableColumnIndex;
      b ← bit_test operandValue srcBit;
      Ok (if b : bool then Z.lor tableRowIndex (Z.shiftl 1 (Z.of_nat tableColumnIndex)) else tableRowIndex))
    (seq 0 (_numSources le)) 0;
  GetTableEntry le tableRowIndex.

Definition Evaluate (evalSrcOperand : nat -> Z) (lut : Lut) : result Z :=
  foldM (fun result dstIndex =>
      le ← at_ (_lutEntries lut) dstIndex;
      b ← EvaluateEntry evalSrcOperand le;
      if b : bool then bit_set result (Z.of_nat dstIndex) else Ok result)
    (seq 0 (_numDestinationBits lut)) 0.

(** ** Operations *)

Inductive PrintType : Type := PrintUint | PrintInt | PrintFloat | PrintStringLiteral | PrintStringHandle.

Record PrintEntry : Type := mkPrintEntry { _operandIndex : nat; _printType : PrintType }.

Inductive Opcode : Type :=
| Mov | MovCrossFunction | Clear
| UnaryOp (_unaryOpType : ParseTreeUnaryOpType)
| BinaryOp (_binaryOpType : ParseTreeBinaryOpType)
| BeginAtomic | EndAtomic | Assert | Enqueue (_isPredicated : bool) | Select | WriteGlobal | Print (_entries : list PrintEntry)
| Gather (_entries : list GatherEntry)
| StoreMemory | LoadMemory (_readLatency : Z) | BypassMemory | AcquireSemaphore | ReleaseSemaphore
| CallAtomic | AtomicReturn | FanOut | Stage | StartCondition (_globalsBefore : bool) | CycleCounter
| MovLatencyPlaceholder | LineNumber
| LutOp (_lut : Lut)
| InlineExternalModule (_latency : Z) (_isLive : bool) | ReadSelectedFifo | ExternalPlaceholder | DebugView
| EnqueueRegisters (_fifoIndex : nat) (_offsets : list Z) | DequeueRegisters (_fifoIndex : nat) (_offsets : list Z) | PushPredicate | PopPredicate | StallCheck
| LocationRecord | ConditionalIgnore | FormatString | FormatEnum | ReferenceString
| AssertStringEqual | StringCount | NoOp.

(** [FileAndLineNumber]: file, line, column and call stack index *)
Definition FileAndLineNumber : Type := nat * nat * nat * option nat.

Record Operation : Type := mkOperation {
  _opcode : Opcode;
  _signExtendSourceMask : Z;
  _locations : gset FileAndLineNumber;
  _src : list SourceOperand;
  _dst : list DestinationOperand }.

Definition ShouldSignExtend (op : Operation) (srcOperand : nat) : result bool :=
  assert_ (srcOperand <? length (_src op))%nat;;
  Ok (negb (Z.land (_signExtendSourceMask op) (u64_shl 1 (Z.of_nat srcOperand)) =? 0)).

Definition PushOperand (op : Operation) (srcOp : SourceOperand) (signExtend : bool) : Operation :=
  let src := _src op ++ [srcOp] in
  mkOperation (_opcode op)
    (if signExtend
     then Z.lor (_signExtendSourceMask op) (u64_shl 1 (Z.of_nat (length src - 1)))
     else _signExtendSourceMask op)
    (_locations op) src (_dst op).

(** [PushOperand(otherOp, operandIndex)] *)
Definition PushOperandFrom (op otherOp : Operation) (operandIndex : nat) : result Operation :=
  assert_ (operandIndex <? length (_src otherOp))%nat;;
  srcOp ← at_ (_src otherOp) operandIndex;
  s ← ShouldSignExtend otherOp operandIndex;
  Ok (PushOperand op srcOp s).

(** The [_lowerToLut] column of [g_opcodeTable] *)
Definition CanOpcodeBeLoweredToLut (opcode : Opcode) : bool :=
  match opcode with
  | Mov | Clear | UnaryOp _ | BinaryOp _ | Select | Gather _ | LutOp _ => true
  | _ => false
  end.

Definition OperationUsesOnlyLocalSrcReg (program : Program) (op : Operation) : result bool :=
  foldM (fun acc srcOp =>
      match srcOp with
      | SrcRegister r =>
          d ← at_ (_registerTable program) (_registerIndex r);
          Ok (acc && IsLocalRegisterType (_type d))
      | _ => Ok acc
      end) (_src op) true.

Definition dstWidth (program : Program) (op : Operation) : result Z :=
  d ← at_ (_dst op) 0; DestinationOperand_Width program d.

(** ** Evaluation of an operation on literals

    The [switch] of [ConstantPropagation] that computes the value of an
    operation all of whose sources are literals. *)

Definition literalAt (op : Operation) (i : nat) : result Literal := o ← at_ (_src op) i; GetLiteral o.

Definition FoldGather (op : Operation) (entries : list GatherEntry) (dstWidth : Z) : result Z :=
  combined ← foldM (fun combined i =>
      s ← ShouldSignExtend op i;
      assert_ (negb s);;
      gatherEntry ← at_ entries i;
      srcLiteral ← literalAt op i;
      let sliced := Truncate (Z.shiftr (_value srcLiteral) (_sourceOffset gatherEntry)) (_numBits gatherEntry) in
      Ok (Z.lor combined (Z.shiftl sliced (_destOffset gatherEntry))))
    (seq 0 (length (_src op))) 0;
  Ok (Truncate combined dstWidth).

Definition FoldOperation (op : Operation) (dstWidth : Z) : result (option Z) :=
  match _opcode op with
  | Mov =>
      l ← literalAt op 0; s ← ShouldSignExtend op 0;
      v ← Resize l s dstWidth; Ok (Some v)
  | Clear => Ok (Some 0)
  | UnaryOp t =>
      l ← literalAt op 0; s ← ShouldSignExtend op 0;
      v ← ImplementUnaryOp l s t dstWidth; Ok (Some v)
  | BinaryOp t =>
      src0 ← literalAt op 0; src1 ← literalAt op 1;
      s0 ← ShouldSignExtend op 0; s1 ← ShouldSignExtend op 1;
      v ← ImplementBinaryOp src0 src1 dstWidth s0 s1 t; Ok (Some v)
  | Gather entries => v ← FoldGather op entries dstWidth; Ok (Some v)
  | _ => Ok None
  end.

End Ir.
