(* ===== verification/LutOpt.v ===== *)
(** * Simplification of look-up table operations

    [optimize_lut.cpp]: [GetLiteralBit], [SetConstantLutSources],
    [FixupLutOp], [RemoveSourceFromLut], [RemoveUnusedLutSourceRegisters],
    [RemoveUnusedLutSourceOperands], [RemoveDuplicateLutSourceRegisters],
    [RemoveDuplicateLutColumns], [DetectConstantLut], [OptimizeLutOpt] and the
    convergence loop [FixupLutOps].

    Each pass takes an [Operation&] and returns whether it changed it: here a
    function from operations to a [result] of the flag and the new operation.
    The arrays of [LutEntry] are values: a LUT operation owns its array, as it
    does after [DeepCopyLut] or [AllocateLut]. *)

From S2P Require Import Prelude MachineInt Literals Ir.
Import MachineInt Containers Literals Ir.

Module LutOpt.

Definition set_opcode (op : Operation) (o : Opcode) : Operation :=
  mkOperation o (_signExtendSourceMask op) (_locations op) (_src op) (_dst op).
Definition set_src (op : Operation) (src : list SourceOperand) : Operation :=
  mkOperation (_opcode op) (_signExtendSourceMask op) (_locations op) src (_dst op).

(** [op._flags._lut] under [assert(Opcode::Lut == op._opcode)] *)
Definition getLut (op : Operation) : result Lut :=
  match _opcode op with LutOp l => Ok l | _ => Err AssertionFailed end.
Definition set_entries (op : Operation) (es : list LutEntry) : Operation := set_opcode op (LutOp (mkLut es)).

(** The columns in use: (source operand index, bit index) *)
Definition columns (e : LutEntry) : list (nat * Z) := take (_numSources e) (zip (_sourceIndices e) (_sourceBit e)).

Definition column (e : LutEntry) (i : nat) : result (nat * Z) :=
  a ← at_ (_sourceIndices e) i; b ← at_ (_sourceBit e) i; Ok (a, b).

(** ** [GetLiteralBit] *)

Definition GetLiteralBit (op : Operation) (operandIndex : nat) (bitIndex : Z) : result Z :=
  lit ← literalAt op operandIndex;
  assert_ (0 <? _width lit);;
  if bitIndex <? _width lit then b ← bit_test (_value lit) bitIndex; Ok (Z.b2z b)
  else
    s ← ShouldSignExtend op operandIndex;
    if s : bool then b ← bit_test (_value lit) (_width lit - 1); Ok (Z.b2z b) else Ok 0.

(** ** [SetConstantLutSources] *)

(** [literals]: (column in the original table, value) of every known column *)
Definition literalColumns (numSources : nat) (literalValueTable : list (option Z)) : result (list (nat * Z)) :=
  foldM (fun acc i =>
      o ← at_ literalValueTable i;
      Ok (match o with Some v => acc ++ [(i, v)] | None => acc end))
    (seq 0 numSources) [].

Definition literalMask (literals : list (nat * Z)) : Z :=
  fold_left (fun m p => Z.lor m (Z.shiftl 1 (Z.of_nat p.1))) literals 0.

(** The row of the original table for a row of the new one: [keptColumns]
    are the columns of [srcOpTable]. *)
Definition originalRow (keptColumns : list nat) (literals : list (nat * Z)) (newTableSlotIndex : Z) : result Z :=
  let fromKept := fold_left (fun index p =>
      if negb (Z.land newTableSlotIndex (Z.shiftl 1 (Z.of_nat p.1)) =? 0)
      then Z.lor index (Z.shiftl 1 (Z.of_nat p.2)) else index)
    (zip (seq 0 (length keptColumns)) keptColumns) 0 in
  foldM (fun index p =>
      assert_ (p.2 <? 2);;
      Ok (if negb (p.2 =? 0) then Z.lor index (Z.shiftl 1 (Z.of_nat p.1)) else index))
    literals fromKept.

(** [literalValueTable[i]] is the known value of column [i], if there is one. *)
Definition SetConstantLutSources (op : Operation) (originalLutEntry : LutEntry)
    (literalValueTable : list (option Z)) : result LutEntry :=
  assert_ (_numSources originalLutEntry <=? c_maxLutSources)%nat;;
  literals ← literalColumns (_numSources originalLutEntry) literalValueTable;
  let numLiteralBits := length literals in
  assert_ (0 <? numLiteralBits)%nat;;
  assert_ (numLiteralBits <=? _numSources originalLutEntry)%nat;;
  (* [srcOpTable] with the column of each of its elements *)
  kept ← foldM (fun acc srcOp =>
      if Z.land (literalMask literals) (Z.shiftl 1 (Z.of_nat srcOp)) =? 0 then
        c ← column originalLutEntry srcOp;
        o ← at_ (_src op) c.1;
        assert_ (isRegister o);;
        Ok (acc ++ [(srcOp, c)])
      else Ok acc)
    (seq 0 (_numSources originalLutEntry)) ([] : list (nat * (nat * Z)));
  assert_ (length kept + numLiteralBits =? _numSources originalLutEntry)%nat;;
  let newTableSize := Z.shiftl 1 (Z.of_nat (length kept)) in
  table ← foldM (fun table newTableSlotIndex =>
      indexIntoOriginalTable ← originalRow kept.*1 literals newTableSlotIndex;
      let valueInOriginalTable := Z.land (Z.shiftr (_table originalLutEntry) indexIntoOriginalTable) 1 in
      Ok (Z.lor table (u64_shl valueInOriginalTable newTableSlotIndex)))
    (seqZ 0 newTableSize) 0;
  Ok (fill_entry kept.*2 table).

(** ** [FixupLutOp] *)

Definition FixupLutEntry (op : Operation) (e : LutEntry) : result (bool * LutEntry) :=
  literalValueTable ← mapM_ (fun srcOp =>
      c ← column e srcOp;
      srcOperand ← at_ (_src op) c.1;
      if isLiteral srcOperand then b ← GetLiteralBit op c.1 c.2; Ok (Some b) else Ok None)
    (seq 0 (_numSources e));
  let numLiteralSrcOperands := length (filter is_Some literalValueTable) in
  if (numLiteralSrcOperands =? 0)%nat then Ok (false, e)
  else e' ← SetConstantLutSources op e literalValueTable; Ok (true, e').

(** A pass that visits the entries in order and reports whether any changed. *)
Definition forEachEntry (f : LutEntry -> result (bool * LutEntry)) (op : Operation) : result (bool * Operation) :=
  lut ← getLut op;
  r ← mapM_ f (_lutEntries lut);
  Ok (existsb fst r, set_entries op (snd <$> r)).

Definition FixupLutOp (op : Operation) : result (bool * Operation) := forEachEntry (FixupLutEntry op) op.

(** ** [RemoveSourceFromLut] *)

Definition RemoveSourceFromLut (inputLutEntry : LutEntry) (srcIndex : nat) (knownValue : Z) : result LutEntry :=
  assert_ (srcIndex <? _numSources inputLutEntry)%nat;;
  assert_ (knownValue <? 2);;
  let oldTableSize := Z.shiftl 1 (Z.of_nat (_numSources inputLutEntry)) in
  let '(table, numRowsCopied) := fold_left (fun '(table, numRowsCopied) oldOutputIndex =>
      let srcValue := Z.land (Z.shiftr oldOutputIndex (Z.of_nat srcIndex)) 1 in
      if srcValue =? knownValue then
        let oldValue := Z.land (Z.shiftr (_table inputLutEntry) oldOutputIndex) 1 in
        (Z.lor table (u64_shl oldValue numRowsCopied), numRowsCopied + 1)
      else (table, numRowsCopied))
    (seqZ 0 oldTableSize) (0, 0) in
  assert_ (numRowsCopied =? oldTableSize / 2);;
  cols ← foldM (fun acc oldSrcIndex =>
      if (oldSrcIndex =? srcIndex)%nat then Ok acc
      else c ← column inputLutEntry oldSrcIndex; Ok (acc ++ [c]))
    (seq 0 (_numSources inputLutEntry)) ([] : list (nat * Z));
  Ok (mkLutEntry (_numSources inputLutEntry - 1)
        (fill_array 0%nat cols.*1) (fill_array 0 cols.*2) table).

(** ** [RemoveUnusedLutSourceRegisters] *)

(** The loop over candidate columns, which stops after the first removal. *)
Fixpoint RemoveUnusedColumn (lutEntry : LutEntry) (candidates : list nat) : result (bool * LutEntry) :=
  match candidates with
  | [] => Ok (false, lutEntry)
  | candidateSrcIndex :: rest =>
      t0 ← RemoveSourceFromLut lutEntry candidateSrcIndex 0;
      t1 ← RemoveSourceFromLut lutEntry candidateSrcIndex 1;
      if _table t0 =? _table t1 then Ok (true, t0) else RemoveUnusedColumn lutEntry rest
  end.

Definition RemoveUnusedLutSourceRegisters (op : Operation) : result (bool * Operation) :=
  assert_ (length (_dst op) =? 1)%nat;;
  forEachEntry (fun e => RemoveUnusedColumn e (seq 0 (_numSources e))) op.

(** ** [RemoveUnusedLutSourceOperands] *)

(** Renumbers the source operands that the columns in use refer to. *)
Definition mapSourceIndices (m : gmap nat nat) (e : LutEntry) : result LutEntry :=
  indices ← foldM (fun indices i =>
      a ← at_ indices i;
      a' ← of_option KeyNotFound (m !! a);
      Ok (<[i := a']> indices))
    (seq 0 (_numSources e)) (_sourceIndices e);
  Ok (mkLutEntry (_numSources e) indices (_sourceBit e) (_table e)).

Definition usedSourceIndices (es : list LutEntry) : gset nat :=
  fold_left (fun acc e => fold_left (fun acc c => {[c.1]} ∪ acc) (columns e) acc) es ∅.

(** The used operands get consecutive new indices in increasing order, which
    is the iteration order of the [std::set]. *)
Definition RemoveUnusedLutSourceOperands (op : Operation) : result (bool * Operation) :=
  lut ← getLut op;
  assert_ (length (_dst op) =? 1)%nat;;
  let used := set_elements (usedSourceIndices (_lutEntries lut)) in
  assert_ (length used <=? length (_src op))%nat;;
  if (length used <? length (_src op))%nat then
    let operandMap : gmap nat nat := list_to_map (zip used (seq 0 (length used))) in
    newSourceOperands ← mapM_ (fun i => assert_ (i <? length (_src op))%nat;; at_ (_src op) i) used;
    es ← mapM_ (mapSourceIndices operandMap) (_lutEntries lut);
    Ok (true, set_src (set_entries op es) newSourceOperands)
  else Ok (false, op).

(** ** [RemoveDuplicateLutSourceRegisters] *)

Record DupState : Type := mkDupState {
  regToOperandIndex : gmap nat nat;
  operandIndexMap : gmap nat nat;
  newSrcOperands : list SourceOperand;
  duplicateFound : bool }.

(** One source operand; [numUniqueOperands] is the length of [newSrcOperands]. *)
Definition dupStep (st : DupState) (p : nat * SourceOperand) : result DupState :=
  let '(i, srcOp) := p in
  r ← GetAccessedRegister srcOp;
  let registerIndex := _registerIndex r in
  match regToOperandIndex st !! registerIndex with
  | None =>
      let numUniqueOperands := length (newSrcOperands st) in
      m1 ← SafeInsert (regToOperandIndex st) registerIndex numUniqueOperands;
      m2 ← SafeInsert (operandIndexMap st) i numUniqueOperands;
      Ok (mkDupState m1 m2 (newSrcOperands st ++ [srcOp]) (duplicateFound st))
  | Some j =>
      m2 ← SafeInsert (operandIndexMap st) i j;
      Ok (mkDupState (regToOperandIndex st) m2 (newSrcOperands st) true)
  end.

Definition RemoveDuplicateLutSourceRegisters (op : Operation) : result (bool * Operation) :=
  lut ← getLut op;
  assert_ (length (_dst op) =? 1)%nat;;
  assert_ (_signExtendSourceMask op =? 0);;
  st ← foldM dupStep (zip (seq 0 (length (_src op))) (_src op)) (mkDupState ∅ ∅ [] false);
  if duplicateFound st then
    es ← mapM_ (mapSourceIndices (operandIndexMap st)) (_lutEntries lut);
    Ok (true, set_src (set_entries op es) (newSrcOperands st))
  else Ok (false, op).

(** ** [RemoveDuplicateLutColumns] *)

(** [opIndexAndBitToSourceIndex]: for each (operand, bit) the original columns
    and the new one.  The loops over the [std::map] only set distinct bits
    and distinct array slots, so the order of iteration does not matter: the
    map is an association list in insertion order. *)
Definition ColumnMap : Type := list ((nat * Z) * (list nat * nat)).

Fixpoint addColumn (m : ColumnMap) (oiab : nat * Z) (sourceIndex newIndex : nat) : ColumnMap :=
  match m with
  | [] => [(oiab, ([sourceIndex], newIndex))]
  | (k, (olds, new)) :: m =>
      if decide (k = oiab) then (k, (olds ++ [sourceIndex], new)) :: m
      else (k, (olds, new)) :: addColumn m oiab sourceIndex newIndex
  end.

Definition columnMap (e : LutEntry) : ColumnMap :=
  fold_left (fun m p => addColumn m p.2 p.1 (length m)) (zip (seq 0 (_numSources e)) (columns e)) [].

Definition originalTableIndex (m : ColumnMap) (newTableRow : Z) : Z :=
  fold_left (fun index p =>
      if negb (Z.land (Z.shiftr newTableRow (Z.of_nat p.2.2)) 1 =? 0)
      then fold_left (fun index c => Z.lor index (Z.shiftl 1 (Z.of_nat c))) p.2.1 index
      else index) m 0.

Definition DedupColumns (lutEntry : LutEntry) : result (bool * LutEntry) :=
  let m := columnMap lutEntry in
  assert_ (length m <=? _numSources lutEntry)%nat;;
  if (length m <? _numSources lutEntry)%nat then
    let newTableSize := Z.shiftl 1 (Z.of_nat (length m)) in
    table ← foldM (fun table newTableRow =>
        b ← GetTableEntry lutEntry (originalTableIndex m newTableRow);
        Ok (if b : bool then Z.lor table (u64_shl 1 newTableRow) else table))
      (seqZ 0 newTableSize) 0;
    let indices := fold_left (fun a p => <[p.2.2 := p.1.1]> a) m (replicate c_maxLutSources 0%nat) in
    let bits := fold_left (fun a p => <[p.2.2 := p.1.2]> a) m (replicate c_maxLutSources 0) in
    Ok (true, mkLutEntry (length m) indices bits table)
  else Ok (false, lutEntry).

Definition RemoveDuplicateLutColumns (op : Operation) : result (bool * Operation) :=
  assert_ (length (_dst op) =? 1)%nat;;
  forEachEntry DedupColumns op.

(** ** [DetectConstantLut] *)

Definition DetectConstantLut (op : Operation) : result (bool * Operation) :=
  lut ← getLut op;
  assert_ (length (_dst op) =? 1)%nat;;
  '(allDestinationBitsKnown, knownValue) ← foldM (fun '(allKnown, known) p =>
      let '(dstIndex, lutEntry) := p in
      if (_numSources lutEntry =? 0)%nat then
        if negb (_table lutEntry =? 0) then
          assert_ (_table lutEntry =? 1);;
          Ok (allKnown, Z.lor known (Z.shiftl 1 (Z.of_nat dstIndex)))
        else Ok (allKnown, known)
      else Ok (false, known))
    (zip (seq 0 (_numDestinationBits lut)) (_lutEntries lut)) (true, 0);
  if allDestinationBitsKnown : bool then
    d ← at_ (_dst op) 0;
    src ← SourceOperand_mp_int knownValue;
    Ok (true, mkOperation Mov 0 (_locations op) [src] [d])
  else Ok (false, op).

(** ** [OptimizeLutOpt] *)

(** [while (RemoveUnusedLutSourceRegisters(op)) { }] *)
Fixpoint RemoveUnusedLoop (fuel : nat) (op : Operation) : result Operation :=
  match fuel with
  | O => Err OutOfFuel
  | S fuel =>
      '(changed, op') ← RemoveUnusedLutSourceRegisters op;
      if changed : bool then RemoveUnusedLoop fuel op' else Ok op'
  end.

Definition OptimizeConstantEntry (lutEntry : LutEntry) : result LutEntry :=
  if (0 <? _numSources lutEntry)%nat then
    let tableSize := Z.shiftl 1 (Z.of_nat (_numSources lutEntry)) in
    assert_ (tableSize <=? 64);;
    let mask := if tableSize =? 64 then size_max else Z.shiftl 1 tableSize - 1 in
    let maskedTable := Z.land (_table lutEntry) mask in
    if (maskedTable =? mask) || (maskedTable =? 0) then
      Ok (mkLutEntry 0 (_sourceIndices lutEntry) (_sourceBit lutEntry) (if maskedTable =? 0 then 0 else 1))
    else Ok lutEntry
  else Ok lutEntry.

Definition OptimizeLutOpt (fuel : nat) (op : Operation) : result Operation :=
  op ← RemoveUnusedLoop fuel op;
  lut ← getLut op;
  es ← mapM_ OptimizeConstantEntry (_lutEntries lut);
  let needsSrcOp := existsb (fun e => negb (_numSources e =? 0)%nat) es in
  let op := set_entries op es in
  Ok (if needsSrcOp then op else set_src op []).

(** ** [FixupLutOps] *)

Definition isLut (op : Operation) : bool := match _opcode op with LutOp _ => true | _ => false end.

(** The body of the [do { } while (true)] loop *)
Definition FixupRound (op : Operation) : result (bool * Operation) :=
  '(b1, op) ← FixupLutOp op;
  '(b2, op) ← RemoveUnusedLutSourceRegisters op;
  '(b3, op) ← RemoveUnusedLutSourceOperands op;
  '(b4, op) ← RemoveDuplicateLutSourceRegisters op;
  '(b5, op) ← RemoveDuplicateLutColumns op;
  '(b6, op) ← DetectConstantLut op;
  Ok ((b1 || b2 || b3 || b4 || b5 || b6 : bool), op).

Fixpoint FixupLoop (fuel : nat) (op : Operation) (didChangeIR : bool) : result (bool * Operation) :=
  match fuel with
  | O => Err OutOfFuel
  | S fuel =>
      '(makingProgress, op) ← FixupRound op;
      let didChangeIR := didChangeIR || makingProgress in
      if negb makingProgress || negb (isLut op) then Ok (didChangeIR, op)
      else FixupLoop fuel op didChangeIR
  end.

(** The fuel that the number of columns and operands of an operation calls for *)
Definition lutMeasure (op : Operation) : nat :=
  match _opcode op with
  | LutOp l => sum_list (_numSources <$> _lutEntries l) + length (_src op)
  | _ => 0
  end.

Definition FixupOperation (op : Operation) : result (bool * Operation) :=
  if isLut op then FixupLoop (S (lutMeasure op)) op false else Ok (false, op).

(** [FixupLutOps(basicBlock)] over [basicBlock._operations] *)
Definition FixupLutOps (operations : list Operation) : result (bool * list Operation) :=
  r ← mapM_ FixupOperation operations;
  Ok (existsb fst r, snd <$> r).

End LutOpt.
