(* ===== verification/Semantics.v ===== *)
(** * The value of an operation

    The reference meaning of the operations of the intermediate
    representation, against which the passes are proved: every source operand
    denotes an integer (two's complement when its bit of
    [_signExtendSourceMask] is set), the operation computes on integers, and
    the destination keeps the low bits.  [FoldOperation_refines] shows that the
    compiler's own constant folding computes this meaning. *)

From S2P Require Import Prelude MachineInt Literals Ir.
Import MachineInt Literals Ir.

Module Semantics.

Definition signExtends (op : Operation) (i : nat) : bool := Z.testbit (_signExtendSourceMask op) (Z.of_nat i).

Section Values.
(** The register table and the contents of the registers *)
Context (program : Program) (σ : nat -> Z).

Definition operandLiteral (o : SourceOperand) : option Literal :=
  match o with
  | SrcLiteral l => Some l
  | SrcRegister r =>
      d ← _registerTable program !! _registerIndex r;
      Some (mkLiteral (σ (_registerIndex r) mod 2 ^ _regWidth d) (_regWidth d))
  | _ => None
  end.

Definition operandInt (signed : bool) (o : SourceOperand) : Z :=
  match operandLiteral o with Some l => lit_int l signed | None => 0 end.

(** The integer that source operand [i] denotes *)
Definition srcInt (op : Operation) (i : nat) : Z :=
  match _src op !! i with Some o => operandInt (signExtends op i) o | None => 0 end.

(** The bits that a gather operation assembles *)
Definition gatherInt (op : Operation) (entries : list GatherEntry) : Z :=
  fold_left (fun acc p =>
      Z.lor acc (Z.shiftl (Z.shiftr (srcInt op p.1) (_sourceOffset p.2) mod 2 ^ _numBits p.2) (_destOffset p.2)))
    (zip (seq 0 (length (_src op))) entries) 0.

(** Source 0 of a select is the index, the others are the choices; the
    number of choices is a power of two and the low bits of the index count. *)
Definition selectInt (op : Operation) : Z :=
  srcInt op (S (Z.to_nat (srcInt op 0 mod Z.of_nat (length (_src op) - 1)))).

Definition opInt (op : Operation) : option Z :=
  match _opcode op with
  | Mov => Some (srcInt op 0)
  | Clear => Some 0
  | UnaryOp t => Some (unop_spec t (srcInt op 0))
  | BinaryOp t => Some (binop_spec t (srcInt op 0) (srcInt op 1))
  | Gather entries => Some (gatherInt op entries)
  | Select => Some (selectInt op)
  | LutOp lut => match Evaluate (srcInt op) lut with Ok v => Some v | Err _ => None end
  | _ => None
  end.

Definition opValue (op : Operation) : option Z :=
  match dstWidth program op with
  | Ok d => v ← opInt op; Some (v mod 2 ^ d)
  | Err _ => None
  end.

End Values.

(** Two operations with the same value whatever the registers contain *)
Definition equivalent (program : Program) (op op' : Operation) : Prop :=
  forall σ, opValue program σ op' = opValue program σ op.

#[export] Instance equivalent_preorder program : PreOrder (equivalent program).
Proof. split; [by intros op σ|]. intros a b c Hab Hbc σ. by rewrite Hbc, Hab. Qed.

(** ** Well-formed programs and operands *)

Definition register_wf (program : Program) (r : nat) : Prop :=
  exists d, _registerTable program !! r = Some d /\ 0 < _regWidth d < 2 ^ 30.

(** A literal or a register: what reaches the modelled passes *)
Definition operand_wf (program : Program) (o : SourceOperand) : Prop :=
  match o with
  | SrcLiteral l => lit_wf l /\ _width l < 2 ^ 30
  | SrcRegister r => register_wf program (_registerIndex r)
  | _ => False
  end.

Definition mask_wf (op : Operation) : Prop := 0 <= _signExtendSourceMask op < 2 ^ Z.of_nat (length (_src op)).

Record op_wf (program : Program) (op : Operation) : Prop := mk_op_wf {
  wf_src : Forall (operand_wf program) (_src op);
  wf_src_length : (length (_src op) <= 64)%nat;
  wf_mask : 0 <= _signExtendSourceMask op;
  wf_dst : exists d w, _dst op = [d] /\ dstWidth program op = Ok w /\ 0 < w < 2 ^ 30 }.

(** ** Lemmas *)

Lemma ShouldSignExtend_eq op i :
  (i < length (_src op))%nat -> (i < 64)%nat -> ShouldSignExtend op i = Ok (signExtends op i).
Proof.
  intros Hi H64. unfold ShouldSignExtend, signExtends. rewrite assert_true by (by apply Nat.ltb_lt). cbn.
  f_equal. replace (u64_shl 1 (Z.of_nat i)) with (2 ^ Z.of_nat i).
  - destruct (Z.testbit (_signExtendSourceMask op) (Z.of_nat i)) eqn:Hb.
    + apply negb_true_iff, Z.eqb_neq. intros H0. apply (f_equal (fun z => Z.testbit z (Z.of_nat i))) in H0.
      rewrite Z.land_spec, Hb, Z.pow2_bits_true, Z.bits_0 in H0 by lia. done.
    + apply negb_false_iff, Z.eqb_eq, Z.bits_inj'. intros j Hj.
      rewrite Z.land_spec, Z.bits_0, Z.pow2_bits_eqb by lia.
      destruct (Z.eqb_spec (Z.of_nat i) j) as [<-|]; [by rewrite Hb|apply andb_false_r].
  - change 1 with (Z.b2z true). rewrite u64_shl_bit by lia. by rewrite shiftl_1_pow by lia.
Qed.

Lemma signExtends_mask0 op i : _signExtendSourceMask op = 0 -> signExtends op i = false.
Proof. unfold signExtends. intros ->. apply Z.bits_0. Qed.

Lemma lit_int_false l : lit_int l false = _value l.
Proof. done. Qed.

Lemma operandLiteral_wf program σ o :
  operand_wf program o ->
  exists l, operandLiteral program σ o = Some l /\ lit_wf l /\ _width l < 2 ^ 30.
Proof.
  destruct o as [l|r| |]; cbn; [|intros (d & Hd & Hw)|done|done].
  - intros [Hl Hw]. by exists l.
  - rewrite Hd. cbn. eexists; split; [done|]. unfold lit_wf. cbn.
    pose proof (Z.pow_pos_nonneg 2 (_regWidth d) ltac:(lia) ltac:(lia)).
    pose proof (Z.mod_pos_bound (σ (_registerIndex r)) (2 ^ _regWidth d) ltac:(lia)). lia.
Qed.

Lemma srcInt_lookup program σ op i o :
  _src op !! i = Some o -> srcInt program σ op i = operandInt program σ (signExtends op i) o.
Proof. unfold srcInt. by intros ->. Qed.

Lemma literalAt_eq op i l : _src op !! i = Some (SrcLiteral l) -> literalAt op i = Ok l.
Proof. unfold literalAt. intros H. by rewrite (at_Some _ _ _ H). Qed.

(** ** Constant folding *)

(** The operations [ConstantPropagation] folds, with their arity and the
    conditions under which the hardware result is defined *)
Definition foldable (program : Program) (op : Operation) (d : Z) : Prop :=
  match _opcode op with
  | Mov | UnaryOp _ => length (_src op) = 1%nat
  | Clear => True
  | BinaryOp t => length (_src op) = 2%nat /\
      binop_pre t (srcInt program (fun _ => 0) op 0) (srcInt program (fun _ => 0) op 1) d
  | Gather entries => length entries = length (_src op) /\ _signExtendSourceMask op = 0 /\
      Forall (fun e => 0 <= _numBits e) entries
  | _ => False
  end.

Lemma isLiteral_lookup op i :
  forallb isLiteral (_src op) = true -> (i < length (_src op))%nat ->
  exists l, _src op !! i = Some (SrcLiteral l).
Proof.
  intros H Hi. destruct (lookup_lt_is_Some_2 _ _ Hi) as [o Ho].
  rewrite forallb_forall in H. specialize (H o). rewrite <- list_elem_of_In in H.
  specialize (H (list_elem_of_lookup_2 _ _ _ Ho)). destruct o; try done. eauto.
Qed.

Lemma FoldGather_eq program σ op entries d :
  0 <= d -> forallb isLiteral (_src op) = true -> (length (_src op) <= 64)%nat ->
  length entries = length (_src op) -> _signExtendSourceMask op = 0 -> Forall (fun e => 0 <= _numBits e) entries ->
  FoldGather op entries d = Ok (gatherInt program σ op entries mod 2 ^ d).
Proof.
  intros Hd Hlit H64 Hlen Hmask Hbits. unfold FoldGather, gatherInt.
  rewrite (foldM_ext _ (fun acc i => e ← at_ entries i; Ok (Z.lor acc (Z.shiftl
    (Z.shiftr (srcInt program σ op i) (_sourceOffset e) mod 2 ^ _numBits e) (_destOffset e))))).
  - rewrite <- Hlen, (foldM_seq_at (fun acc i e => Ok (Z.lor acc (Z.shiftl
      (Z.shiftr (srcInt program σ op i) (_sourceOffset e) mod 2 ^ _numBits e) (_destOffset e))))).
    erewrite foldM_Ok; [|done]. cbn. by rewrite Truncate_mod.
  - intros acc i Hi%elem_of_seq. destruct (isLiteral_lookup op i Hlit) as (l & Hl); [lia|].
    destruct (lookup_lt_is_Some_2 entries i) as [e He]; [lia|].
    rewrite ShouldSignExtend_eq, signExtends_mask0 by (done || lia). cbn.
    rewrite (at_Some _ _ _ He), (literalAt_eq _ _ _ Hl). cbn.
    rewrite (srcInt_lookup _ _ _ _ _ Hl), signExtends_mask0 by done.
    rewrite Truncate_mod by (eapply (Forall_lookup_1 _ _ _ _ Hbits He)). done.
Qed.

Lemma FoldOperation_eq program σ op d :
  op_wf program op -> dstWidth program op = Ok d -> forallb isLiteral (_src op) = true ->
  foldable program op d ->
  exists v, FoldOperation op d = Ok (Some v) /\ opValue program σ op = Some v.
Proof.
  intros [Hsrc H64 _ (dst & w & _ & Hw' & Hw)] Hd Hlit Hf. rewrite Hd in Hw'. injection Hw' as <-.
  unfold opValue, opInt, FoldOperation, foldable in *. rewrite Hd.
  assert (Hop : forall i, (i < length (_src op))%nat -> exists l, literalAt op i = Ok l /\ lit_wf l /\ _width l < 2 ^ 30 /\
    ShouldSignExtend op i = Ok (signExtends op i) /\ forall σ, srcInt program σ op i = lit_int l (signExtends op i)).
  { intros i Hi. destruct (isLiteral_lookup op i Hlit Hi) as (l & Hl).
    destruct (Forall_lookup_1 _ _ _ _ Hsrc Hl). exists l. split; [by apply literalAt_eq|]. do 2 (split; [done|]).
    split; [apply ShouldSignExtend_eq; lia|]. intros σ'. by rewrite (srcInt_lookup _ _ _ _ _ Hl). }
  destruct (_opcode op); try done.
  - destruct (Hop 0%nat) as (l & -> & Hl & _ & -> & Hv); [lia|]. cbn. rewrite Resize_eq by (done || lia).
    cbn. rewrite Hv. eauto.
  - cbn. eauto.
  - destruct (Hop 0%nat) as (l & -> & Hl & _ & -> & Hv); [lia|]. cbn.
    rewrite ImplementUnaryOp_eq by (done || lia). cbn. rewrite Hv. eauto.
  - destruct Hf as [Hlen Hpre].
    destruct (Hop 0%nat) as (l0 & -> & Hl0 & Hw0 & -> & Hv0); [lia|].
    destruct (Hop 1%nat) as (l1 & -> & Hl1 & Hw1 & -> & Hv1); [lia|]. cbn. rewrite Hv0, Hv1 in *.
    rewrite ImplementBinaryOp_eq by (done || lia). cbn. eauto.
  - destruct Hf as (Hlen & Hmask & Hbits). rewrite (FoldGather_eq program σ) by (done || lia). cbn. eauto.
Qed.

(** Constant folding computes the reference meaning of the operation. *)
Theorem FoldOperation_refines program σ op d :
  op_wf program op -> dstWidth program op = Ok d -> forallb isLiteral (_src op) = true ->
  foldable program op d ->
  exists v, FoldOperation op d = Ok (Some v) /\ opValue program σ op = Some v.
Proof. apply FoldOperation_eq. Qed.

(** ** A small program *)

(** Registers [a], [b] of four bits, [d] of two, [s] of one, [w] of eight *)
Definition sample_program : Program :=
  mkProgram [mkRegisterDescription 4 Local "a"; mkRegisterDescription 4 Local "b";
             mkRegisterDescription 2 Local "d"; mkRegisterDescription 1 Local "s";
             mkRegisterDescription 8 Local "w"].

Definition sample_reg (i : nat) : SourceOperand := SrcRegister (mkAccessedRegister i).
Definition sample_dst (i : nat) : DestinationOperand := DstRegister (mkAccessedRegister i).
Definition sample_lit (v w : Z) : SourceOperand := SrcLiteral (mkLiteral v w).

(** [w = 13 - 5], the first literal sign-extended *)
Definition sample_sub : Operation :=
  mkOperation (BinaryOp ParseTreeBinaryOpTypeSub) 1 ∅ [sample_lit 13 4; sample_lit 5 4] [sample_dst 4].

Lemma FoldOperation_refines_witness :
  op_wf sample_program sample_sub /\
  exists v, FoldOperation sample_sub 8 = Ok (Some v) /\ opValue sample_program (fun _ => 0) sample_sub = Some v.
Proof.
  assert (Hwf : op_wf sample_program sample_sub).
  { constructor; [|cbn; lia|cbn; lia|].
    - repeat constructor; cbn; lia.
    - exists (sample_dst 4), 8. repeat split; lia. }
  split; [exact Hwf|].
  apply (FoldOperation_refines sample_program (fun _ => 0) sample_sub 8 Hwf); [reflexivity|reflexivity|split; [reflexivity|exact I]].
Defined.

End Semantics.
