(* ===== verification/LutFacts.v ===== *)
(** * Facts about look-up tables

    The value of a table entry as a boolean function of its columns, the
    functional correctness of [Lut::Evaluate], and the shape of the loops that
    build a table row by row. *)

From S2P Require Import Prelude MachineInt Literals Ir LutOpt Semantics.
Import MachineInt Literals Ir LutOpt.

Module LutFacts.

(** ** Loops that set bits *)

Lemma testbit_or_fold {A} (f : A -> bool) (g : A -> Z) l a i :
  0 <= i -> (forall x, x ∈ l -> 0 <= g x) ->
  Z.testbit (fold_left (fun acc x => if f x then Z.lor acc (Z.shiftl 1 (g x)) else acc) l a) i
  = Z.testbit a i || existsb (fun x => f x && (g x =? i)) l.
Proof.
  intros Hi. revert a; induction l as [|x l IH]; intros a Hg; cbn [fold_left existsb].
  - by rewrite orb_false_r.
  - rewrite IH by (intros; apply Hg; set_solver). rewrite orb_assoc. f_equal.
    destruct (f x); cbn; [|by rewrite orb_false_r].
    by rewrite Z.lor_spec, testbit_1_shiftl by (done || apply Hg; set_solver).
Qed.

Lemma bits_to_Z_app l b : bits_to_Z (l ++ [b]) = bits_to_Z l + Z.b2z b * 2 ^ Z.of_nat (length l).
Proof.
  induction l as [|x l IH]; [cbn; lia|]. cbn [app bits_to_Z length]. rewrite IH.
  rewrite Nat2Z.inj_succ, Z.pow_succ_r by lia. lia.
Qed.

(** [if (f(i)) acc |= 1 << i] for [i] from 0 builds the number whose bits are [f]. *)
Lemma or_bits_seq (f : nat -> bool) n :
  fold_left (fun acc i => if f i then Z.lor acc (Z.shiftl 1 (Z.of_nat i)) else acc) (seq 0 n) 0
  = bits_to_Z (f <$> seq 0 n).
Proof.
  induction n as [|n IH]; [done|].
  rewrite seq_S, fold_left_app, fmap_app, IH. cbn [fold_left fmap list_fmap plus].
  rewrite bits_to_Z_app, length_fmap, length_seq. destruct (f n); cbn [Z.b2z]; [|lia].
  rewrite lor_shiftl_add; [done|lia|].
  pose proof (bits_to_Z_bound (f <$> seq 0 n)) as Hb. by rewrite length_fmap, length_seq in Hb.
Qed.

Lemma fold_left_fmap {A B C} (f : C -> B -> C) (g : A -> B) l c :
  fold_left f (g <$> l) c = fold_left (fun c a => f c (g a)) l c.
Proof. revert c; induction l; intros; cbn; auto. Qed.

Lemma seqZ_0 n : seqZ 0 n = Z.of_nat <$> seq 0 (Z.to_nat n).
Proof. unfold seqZ. apply list_fmap_ext. intros. lia. Qed.

(** [acc |= (f(r) << r)] for the rows [r] of a table of at most 64 rows *)
Lemma or_rows (f : Z -> bool) n :
  n <= 64 ->
  fold_left (fun acc r => Z.lor acc (u64_shl (Z.b2z (f r)) r)) (seqZ 0 n) 0 = bits_to_Z (f <$> seqZ 0 n).
Proof.
  intros Hn. rewrite seqZ_0, fold_left_fmap, <- list_fmap_compose.
  change (f ∘ Z.of_nat) with (fun i => f (Z.of_nat i)). rewrite <- or_bits_seq.
  apply fold_left_ext. intros b a Ha%elem_of_seq. rewrite u64_shl_bit by lia.
  destruct (f (Z.of_nat a)); [done|]. by rewrite Z.lor_0_r.
Qed.

(** ** Tables as boolean functions *)

(** The table of the [n]-column function [f]. *)
Definition table_of (n : nat) (f : list bool -> bool) : Z :=
  bits_to_Z ((fun r => f (Z_to_bits n r)) <$> seqZ 0 (2 ^ Z.of_nat n)).

Lemma table_of_bound n f : 0 <= table_of n f < 2 ^ 2 ^ Z.of_nat n.
Proof.
  unfold table_of. pose proof (bits_to_Z_bound ((fun r => f (Z_to_bits n r)) <$> seqZ 0 (2 ^ Z.of_nat n))) as H.
  rewrite length_fmap, length_seqZ, Z2Nat.id in H by (apply Z.pow_nonneg; lia). done.
Qed.

Lemma testbit_table_of n f l : length l = n -> Z.testbit (table_of n f) (bits_to_Z l) = f l.
Proof.
  intros <-. unfold table_of. pose proof (bits_to_Z_bound l) as Hb.
  rewrite <- (Z2Nat.id (bits_to_Z l)) at 1 by lia. rewrite testbit_bits_to_Z.
  rewrite list_lookup_fmap, lookup_seqZ_lt by lia. cbn.
  rewrite Z.add_0_l, Z2Nat.id by lia. by rewrite Z_to_bits_to_Z.
Qed.

Lemma table_of_ext n f g : (forall l, length l = n -> f l = g l) -> table_of n f = table_of n g.
Proof.
  intros H. unfold table_of. f_equal. apply list_fmap_ext. intros i x _. apply H. apply length_Z_to_bits.
Qed.

Lemma pow2_le_64 n : (n <= c_maxLutSources)%nat -> 0 < 2 ^ Z.of_nat n <= 64.
Proof.
  unfold c_maxLutSources. intros. split; [apply Z.pow_pos_nonneg; lia|].
  change 64 with (2 ^ 6). apply Z.pow_le_mono_r; lia.
Qed.

(** The loop of a pass that fills a table, when row [r] is computed by [f]. *)
Lemma build_table n (row : Z -> bool) (f : list bool -> bool) :
  (n <= c_maxLutSources)%nat ->
  (forall r, 0 <= r < 2 ^ Z.of_nat n -> row r = f (Z_to_bits n r)) ->
  fold_left (fun acc r => Z.lor acc (u64_shl (Z.b2z (row r)) r)) (seqZ 0 (2 ^ Z.of_nat n)) 0 = table_of n f.
Proof.
  intros Hn H. rewrite or_rows by apply pow2_le_64, Hn. unfold table_of. f_equal.
  apply list_fmap_ext. intros i x Hx%list_elem_of_lookup_2%elem_of_seqZ. apply H. lia.
Qed.

Lemma land_shiftr_1 t r : 0 <= r -> Z.land (Z.shiftr t r) 1 = Z.b2z (Z.testbit t r).
Proof.
  intros. change 1 with (Z.ones 1) at 1. rewrite Z.land_ones by lia. change (2 ^ 1) with 2.
  rewrite Z.shiftr_div_pow2, Z.testbit_spec' by done. done.
Qed.

(** ** Entries *)

(** Well-formed entry: at most six columns, full-size arrays, no table bits
    beyond the rows, and bit positions that are positions. *)
Definition entry_wf (e : LutEntry) : Prop :=
  (_numSources e <= c_maxLutSources)%nat /\
  length (_sourceIndices e) = c_maxLutSources /\ length (_sourceBit e) = c_maxLutSources /\
  0 <= _table e < 2 ^ 2 ^ Z.of_nat (_numSources e) /\
  Forall (fun c => 0 <= c.2 < 2 ^ 32) (columns e).

(** The value of an entry when [ρ] gives the values of (operand, bit) pairs. *)
Definition entry_val (ρ : nat * Z -> bool) (e : LutEntry) : bool :=
  Z.testbit (_table e) (bits_to_Z (ρ <$> columns e)).

Lemma length_columns e : entry_wf e -> length (columns e) = _numSources e.
Proof.
  intros (H & H1 & H2 & _). unfold columns. rewrite length_take, length_zip_with, H1, H2. lia.
Qed.

Lemma column_Ok e i c : columns e !! i = Some c -> column e i = Ok c.
Proof.
  unfold columns, column. intros H. apply lookup_take_Some in H as [H _].
  apply lookup_zip_with_Some in H as (a & b & -> & Ha & Hb).
  by rewrite (at_Some _ _ _ Ha), (at_Some _ _ _ Hb).
Qed.

Lemma column_lookup e i :
  entry_wf e -> (i < _numSources e)%nat -> exists c, columns e !! i = Some c /\ column e i = Ok c.
Proof.
  intros Hwf Hi. destruct (lookup_lt_is_Some_2 (columns e) i) as [c Hc]; [by rewrite length_columns|].
  exists c. split; [done|]. by apply column_Ok.
Qed.

Lemma columns_fill cols t :
  (length cols <= c_maxLutSources)%nat -> columns (fill_entry cols t) = cols.
Proof.
  intros H. unfold columns, fill_entry, fill_array. cbn.
  rewrite zip_with_app by (by rewrite !length_fmap).
  rewrite take_app_le by (rewrite length_zip_with, !length_fmap; lia).
  rewrite zip_fst_snd. apply take_ge. lia.
Qed.

Lemma fill_entry_wf cols t :
  (length cols <= c_maxLutSources)%nat -> 0 <= t < 2 ^ 2 ^ Z.of_nat (length cols) ->
  Forall (fun c => 0 <= c.2 < 2 ^ 32) cols -> entry_wf (fill_entry cols t).
Proof.
  intros Hl Ht Hc. unfold entry_wf. rewrite columns_fill by done. cbn. unfold fill_array.
  rewrite !length_app, !length_replicate, !length_fmap. repeat split; (done || lia).
Qed.

(** An entry rebuilt from columns and a boolean function denotes that function. *)
Lemma entry_val_fill ρ cols f :
  (length cols <= c_maxLutSources)%nat ->
  entry_val ρ (fill_entry cols (table_of (length cols) f)) = f (ρ <$> cols).
Proof.
  intros H. unfold entry_val. rewrite columns_fill by done. cbn.
  rewrite testbit_table_of by apply length_fmap. done.
Qed.

Lemma TableSize_eq e : (_numSources e <= c_maxLutSources)%nat -> TableSize e = Ok (2 ^ Z.of_nat (_numSources e)).
Proof.
  intros. unfold TableSize. rewrite assert_true by (by apply Nat.leb_le). cbn.
  by rewrite shiftl_1_pow by lia.
Qed.

Lemma GetTableEntry_eq e r :
  (_numSources e <= c_maxLutSources)%nat -> 0 <= r < 2 ^ Z.of_nat (_numSources e) ->
  GetTableEntry e r = Ok (Z.testbit (_table e) r).
Proof.
  intros Hn Hr. unfold GetTableEntry. rewrite TableSize_eq by done. cbn.
  rewrite assert_true by (apply Z.ltb_lt; lia). cbn. rewrite land_shiftr_1 by lia.
  by destruct (Z.testbit (_table e) r).
Qed.

(** The assignment that a source operand function induces. *)
Definition bit_of (ev : nat -> Z) (c : nat * Z) : bool := Z.testbit (ev c.1) c.2.

Lemma fmap_columns_seq (f : nat * Z -> bool) e :
  entry_wf e ->
  f <$> columns e = (fun i => default false (f <$> columns e !! i)) <$> seq 0 (_numSources e).
Proof.
  intros Hwf. apply list_eq; intros i. rewrite !list_lookup_fmap.
  destruct (decide (i < _numSources e)%nat) as [Hi|Hi].
  - destruct (column_lookup e i Hwf Hi) as (c & Hc & _). rewrite Hc, lookup_seq_lt by done. cbn. by rewrite Hc.
  - rewrite (lookup_ge_None_2 (columns e)) by (rewrite length_columns by done; lia).
    by rewrite (lookup_ge_None_2 (seq _ _)) by (rewrite length_seq; lia).
Qed.

Lemma EvaluateEntry_eq ev e : entry_wf e -> EvaluateEntry ev e = Ok (entry_val (bit_of ev) e).
Proof.
  intros Hwf. pose proof Hwf as (Hn & _ & _ & Ht & _). unfold EvaluateEntry.
  rewrite (foldM_Ok _ (fun acc i => if default false (bit_of ev <$> columns e !! i)
                                    then Z.lor acc (Z.shiftl 1 (Z.of_nat i)) else acc)).
  - rewrite or_bits_seq, <- fmap_columns_seq by done. cbn.
    rewrite GetTableEntry_eq; [done|done|].
    pose proof (bits_to_Z_bound (bit_of ev <$> columns e)) as Hb.
    by rewrite length_fmap, length_columns in Hb.
  - intros acc i Hi%elem_of_seq. destruct (column_lookup e i Hwf) as (c & Hc & Hcol); [lia|].
    unfold column in Hcol. ok_inv. rewrite (at_Some _ _ _ H), (at_Some _ _ _ H0), Hc. cbn.
    pose proof Hwf as (_ & _ & _ & _ & Hpos). pose proof (Forall_lookup_1 _ _ _ _ Hpos Hc) as Hb. cbn in Hb.
    by rewrite bit_test_eq by lia.
Qed.

(** The value of a LUT: bit [k] is entry [k]. *)
Definition lut_val (ev : nat -> Z) (es : list LutEntry) : Z := bits_to_Z (entry_val (bit_of ev) <$> es).

Lemma Evaluate_eq ev es : Forall entry_wf es -> Z.of_nat (length es) < 2 ^ 32 -> Evaluate ev (mkLut es) = Ok (lut_val ev es).
Proof.
  intros Hwf Hlen. unfold Evaluate, _numDestinationBits, lut_val. cbn [_lutEntries].
  rewrite (foldM_Ok _ (fun acc i => if default false (entry_val (bit_of ev) <$> es !! i)
                                    then Z.lor acc (Z.shiftl 1 (Z.of_nat i)) else acc)).
  - rewrite or_bits_seq. f_equal. f_equal. apply list_eq; intros i. rewrite !list_lookup_fmap.
    destruct (decide (i < length es)%nat) as [Hi|Hi].
    + destruct (lookup_lt_is_Some_2 es i Hi) as [e He]. rewrite He, lookup_seq_lt by done. cbn. by rewrite He.
    + rewrite (lookup_ge_None_2 es) by lia. by rewrite (lookup_ge_None_2 (seq _ _)) by (rewrite length_seq; lia).
  - intros acc i Hi%elem_of_seq. destruct (lookup_lt_is_Some_2 es i) as [e He]; [lia|].
    rewrite (at_Some _ _ _ He), He. cbn. rewrite EvaluateEntry_eq by (eapply Forall_lookup_1; done). cbn.
    rewrite bit_set_eq by lia. by destruct (entry_val (bit_of ev) e).
Qed.

End LutFacts.

(** * Fixing one column of a table

    [RemoveSourceFromLut] halves a table: the result is the cofactor of the
    boolean function of the entry for the removed column.  From it, the
    soundness of [RemoveUnusedLutSourceRegisters] on one entry. *)

Import MachineInt Literals Ir LutOpt LutFacts.

Module LutCofactor.

(** [b] inserted at position [s] of [l], and [l] without its position [s] *)
Definition ins_at {A} (s : nat) (b : A) (l : list A) : list A := take s l ++ b :: drop s l.
Definition del_at {A} (s : nat) (l : list A) : list A := take s l ++ drop (S s) l.

Lemma ins_del {A} s (b : A) l : l !! s = Some b -> ins_at s b (del_at s l) = l.
Proof.
  intros H. pose proof (lookup_lt_Some _ _ _ H). unfold ins_at, del_at.
  rewrite take_app_le, take_take, drop_app_ge by (rewrite length_take; lia).
  rewrite length_take, Nat.min_id. rewrite (Nat.min_l s) by lia. rewrite Nat.sub_diag, drop_0.
  by rewrite take_drop_middle.
Qed.

Lemma length_ins_at {A} s (b : A) l : length (ins_at s b l) = S (length l).
Proof. unfold ins_at. rewrite length_app. cbn. rewrite length_take, length_drop. lia. Qed.

Lemma length_del_at {A} s (l : list A) : (s < length l)%nat -> length (del_at s l) = (length l - 1)%nat.
Proof. intros. unfold del_at. rewrite length_app, length_take, length_drop. lia. Qed.

Lemma del_at_fmap {A B} (f : A -> B) s l : del_at s (f <$> l) = f <$> del_at s l.
Proof. unfold del_at. by rewrite fmap_app, fmap_take, fmap_drop. Qed.

Lemma del_at_subseteq {A} s (l : list A) : del_at s l ⊆ l.
Proof.
  intros x. unfold del_at. rewrite elem_of_app. intros [H|H].
  - by eapply elem_of_take in H as (? & ? & ?); eapply list_elem_of_lookup_2.
  - apply list_elem_of_lookup in H as (i & Hi). rewrite lookup_drop in Hi. by eapply list_elem_of_lookup_2.
Qed.

(** ** The rows that are copied *)

Definition row_selected (s : nat) (v : Z) (r : Z) : bool := Z.land (Z.shiftr r (Z.of_nat s)) 1 =? v.

Definition selected_rows (n s : nat) (v : bool) : list Z :=
  (fun k => bits_to_Z (ins_at s v (Z_to_bits (n - 1) k))) <$> seqZ 0 (2 ^ Z.of_nat (n - 1)).

(** The rows with bit [s] equal to [v], in order: a finite check, since a
    table has at most six columns. *)
Definition selected_rows_check : bool :=
  forallb (fun n => forallb (fun s => forallb (fun v =>
    bool_decide (List.filter (row_selected s (Z.b2z v)) (seqZ 0 (2 ^ Z.of_nat n)) = selected_rows n s v))
    [true; false]) (seq 0 n)) (seq 1 6).

Lemma selected_rows_eq n s v :
  (s < n <= c_maxLutSources)%nat ->
  List.filter (row_selected s (Z.b2z v)) (seqZ 0 (2 ^ Z.of_nat n)) = selected_rows n s v.
Proof.
  intros Hs. assert (Hc : selected_rows_check = true) by (vm_compute; reflexivity).
  unfold selected_rows_check in Hc. rewrite forallb_forall in Hc.
  specialize (Hc n ltac:(apply in_seq; unfold c_maxLutSources in Hs; lia)). rewrite forallb_forall in Hc.
  specialize (Hc s ltac:(apply in_seq; lia)). rewrite forallb_forall in Hc.
  specialize (Hc v ltac:(destruct v; cbn; auto)). by apply bool_decide_eq_true in Hc.
Qed.

(** The copying loop, after the rows [done]. *)
Lemma copy_rows_fold T (cond : Z -> bool) rows (copied : list bool) :
  Z.of_nat (length copied + length rows) <= 64 -> (forall r, r ∈ rows -> 0 <= r) ->
  fold_left (fun '(table, numRowsCopied) r =>
      if cond r then (Z.lor table (u64_shl (Z.land (Z.shiftr T r) 1) numRowsCopied), numRowsCopied + 1)
      else (table, numRowsCopied)) rows (bits_to_Z copied, Z.of_nat (length copied))
  = (bits_to_Z (copied ++ (Z.testbit T <$> List.filter cond rows)),
     Z.of_nat (length copied + length (List.filter cond rows))).
Proof.
  revert copied; induction rows as [|r rows IH]; intros copied Hlen Hpos; cbn [fold_left List.filter].
  - rewrite app_nil_r. cbn. by rewrite Nat.add_0_r.
  - cbn [length] in Hlen. destruct (cond r).
    + rewrite land_shiftr_1 by (apply Hpos; set_solver). rewrite u64_shl_bit by lia.
      replace (Z.lor (bits_to_Z copied) _) with (bits_to_Z (copied ++ [Z.testbit T r])).
      2: { rewrite bits_to_Z_app. destruct (Z.testbit T r); cbn [Z.b2z].
           - rewrite lor_shiftl_add; [done|lia|apply bits_to_Z_bound].
           - rewrite Z.lor_0_r. lia. }
      replace (Z.of_nat (length copied) + 1) with (Z.of_nat (length (copied ++ [Z.testbit T r])))
        by (rewrite length_app; cbn; lia).
      rewrite IH.
      * rewrite fmap_cons, <- app_assoc. cbn. f_equal. rewrite length_app. cbn. f_equal. lia.
      * rewrite length_app. cbn. lia.
      * intros; apply Hpos; set_solver.
    + apply IH; [lia|]. intros; apply Hpos; set_solver.
Qed.

Lemma foldM_columns_except e s :
  entry_wf e -> (s < _numSources e)%nat ->
  foldM (fun acc oldSrcIndex =>
      if (oldSrcIndex =? s)%nat then Ok acc else c ← column e oldSrcIndex; Ok (acc ++ [c]))
    (seq 0 (_numSources e)) [] = Ok (del_at s (columns e)).
Proof.
  intros Hwf Hs.
  assert (Hgen : forall k, (k <= _numSources e)%nat ->
    foldM (fun acc oldSrcIndex =>
      if (oldSrcIndex =? s)%nat then Ok acc else c ← column e oldSrcIndex; Ok (acc ++ [c]))
    (seq 0 k) [] = Ok (take (k `min` s) (columns e) ++ take (k - S s) (drop (S s) (columns e)))).
  { induction k as [|k IH]; intros Hk; [done|]. rewrite seq_S, foldM_app, IH by lia.
    cbn [mbind result_bind foldM Nat.add].
    destruct (column_lookup e k Hwf) as (c & Hc & Hcol); [lia|]. rewrite Hcol. cbn [mbind result_bind].
    destruct (Nat.eqb_spec k s) as [->|Hne].
    - cbn [mbind result_bind]. rewrite !Nat.min_r by lia. replace (s - S s)%nat with 0%nat by lia.
      by rewrite Nat.sub_diag.
    - destruct (Nat.lt_ge_cases k s).
      + cbn [mbind result_bind]. rewrite !Nat.min_l by lia. replace (k - S s)%nat with 0%nat by lia.
        replace (S k - S s)%nat with 0%nat by lia.
        rewrite take_0, !app_nil_r. f_equal. by rewrite (take_S_r _ _ _ Hc).
      + cbn [mbind result_bind]. rewrite !Nat.min_r by lia. rewrite <- app_assoc. do 2 f_equal.
        replace (S k - S s)%nat with (S (k - S s)) by lia.
        rewrite (take_S_r _ _ c); [done|]. rewrite lookup_drop.
        by replace (S s + (k - S s))%nat with k by lia. }
  rewrite Hgen by lia. f_equal. rewrite Nat.min_r by lia. unfold del_at. f_equal.
  apply take_ge. rewrite length_drop, length_columns by done. lia.
Qed.

(** [RemoveSourceFromLut] is the cofactor: with the removed column at the
    known value, the shorter table gives the value of the longer one. *)
Lemma RemoveSourceFromLut_eq e s v :
  entry_wf e -> (s < _numSources e)%nat ->
  RemoveSourceFromLut e s (Z.b2z v) =
    Ok (fill_entry (del_at s (columns e))
          (table_of (_numSources e - 1) (fun l => Z.testbit (_table e) (bits_to_Z (ins_at s v l))))).
Proof.
  intros Hwf Hs. pose proof Hwf as (Hn & _). pose proof (pow2_le_64 _ Hn) as Hp.
  unfold RemoveSourceFromLut.
  rewrite (assert_true (s <? _numSources e)%nat) by (by apply Nat.ltb_lt).
  rewrite (assert_true (Z.b2z v <? 2)) by (by destruct v).
  cbn [mbind result_bind]. rewrite shiftl_1_pow by lia.
  pose proof (copy_rows_fold (_table e) (row_selected s (Z.b2z v)) (seqZ 0 (2 ^ Z.of_nat (_numSources e))) [])
    as Hfold. cbn [length bits_to_Z app] in Hfold. change (Z.of_nat 0) with 0 in Hfold.
  change (fun '(table, numRowsCopied) (oldOutputIndex : Z) =>
      if Z.land (Z.shiftr oldOutputIndex (Z.of_nat s)) 1 =? Z.b2z v
      then (Z.lor table (u64_shl (Z.land (Z.shiftr (_table e) oldOutputIndex) 1) numRowsCopied), numRowsCopied + 1)
      else (table, numRowsCopied)) with
    (fun '(table, numRowsCopied) (r : Z) => if row_selected s (Z.b2z v) r
      then (Z.lor table (u64_shl (Z.land (Z.shiftr (_table e) r) 1) numRowsCopied), numRowsCopied + 1)
      else (table, numRowsCopied)).
  rewrite Hfold; clear Hfold.
  - rewrite selected_rows_eq by lia. unfold selected_rows at 2. rewrite length_fmap, length_seqZ.
    rewrite assert_true.
    2: { apply Z.eqb_eq. rewrite Nat.add_0_l, Z2Nat.id by (apply Z.pow_nonneg; lia).
         replace (Z.of_nat (_numSources e)) with (Z.succ (Z.of_nat (_numSources e - 1))) by lia.
         rewrite Z.pow_succ_r, Z.mul_comm, Z.div_mul by lia. done. }
    cbn [mbind result_bind]. rewrite foldM_columns_except by done. cbn [mbind result_bind].
    unfold fill_entry. rewrite length_del_at, length_columns by (by rewrite ?length_columns).
    do 2 f_equal. unfold table_of, selected_rows. by rewrite <- list_fmap_compose.
  - rewrite length_seqZ, Nat.add_0_l, Z2Nat.id by lia. lia.
  - intros r Hr%elem_of_seqZ. lia.
Qed.

Lemma cofactor_wf e s v :
  entry_wf e -> (s < _numSources e)%nat ->
  entry_wf (fill_entry (del_at s (columns e))
    (table_of (_numSources e - 1) (fun l => Z.testbit (_table e) (bits_to_Z (ins_at s v l))))).
Proof.
  intros Hwf Hs. pose proof Hwf as (Hn & _ & _ & _ & Hc). pose proof (length_columns e Hwf) as Hl.
  assert (Hd : length (del_at s (columns e)) = (_numSources e - 1)%nat) by (rewrite length_del_at; lia).
  apply fill_entry_wf; [lia| |].
  - rewrite Hd. apply table_of_bound.
  - rewrite Forall_forall in Hc |- *. intros c Hin. apply Hc. by apply (del_at_subseteq s).
Qed.

Lemma cofactor_val ρ e s v :
  entry_wf e -> (s < _numSources e)%nat -> ρ <$> columns e !! s = Some v ->
  entry_val ρ (fill_entry (del_at s (columns e))
    (table_of (_numSources e - 1) (fun l => Z.testbit (_table e) (bits_to_Z (ins_at s v l))))) = entry_val ρ e.
Proof.
  intros Hwf Hs Hv. pose proof Hwf as (Hn & _). pose proof (length_columns e Hwf) as Hl.
  replace (_numSources e - 1)%nat with (length (del_at s (columns e))) by (rewrite length_del_at; lia).
  rewrite entry_val_fill by (rewrite length_del_at; lia). unfold entry_val.
  rewrite <- del_at_fmap, ins_del; [done|]. by rewrite list_lookup_fmap.
Qed.

(** One entry of [RemoveUnusedLutSourceRegisters]: the columns it drops do not
    affect the value. *)
Lemma RemoveUnusedColumn_sound e candidates :
  entry_wf e -> Forall (fun s => s < _numSources e)%nat candidates ->
  exists b e', RemoveUnusedColumn e candidates = Ok (b, e') /\ entry_wf e' /\
    columns e' ⊆ columns e /\ (forall ρ, entry_val ρ e' = entry_val ρ e) /\
    (if b then _numSources e' < _numSources e else e' = e)%nat.
Proof.
  intros Hwf. induction candidates as [|s rest IH]; intros Hc; cbn [RemoveUnusedColumn].
  { by exists false, e. }
  inversion_clear Hc as [|?? Hs Hrest]. pose proof (length_columns e Hwf) as Hl. pose proof Hwf as (Hn & _).
  change 0 with (Z.b2z false). change 1 with (Z.b2z true).
  rewrite !RemoveSourceFromLut_eq by done. cbn [mbind result_bind].
  case_match eqn:Heq; [|by apply IH].
  set (t0 := fill_entry _ _) in *. set (t1 := fill_entry _ _) in *.
  assert (Hcols : columns t0 = del_at s (columns e)) by (apply columns_fill; rewrite length_del_at; lia).
  exists true, t0. split; [done|]. split; [by apply cofactor_wf|].
  split; [rewrite Hcols; apply del_at_subseteq|]. split.
  - intros ρ. destruct (column_lookup e s Hwf Hs) as (c & Hcs & _).
    destruct (ρ c) eqn:Hρ.
    + rewrite <- (cofactor_val ρ e s true) by (done || by rewrite Hcs; cbn; f_equal). fold t1.
      apply Z.eqb_eq in Heq. unfold entry_val. by rewrite Heq.
    + apply cofactor_val; [done|done|]. by rewrite Hcs, <- Hρ.
  - cbn. rewrite length_del_at; lia.
Qed.

End LutCofactor.

(** * The passes over one look-up table operation

    The contract [LutPass] of a pass over a well-formed LUT operation: it does
    not throw, the operation it leaves is well formed and has the same value
    for every contents of the registers, and a pass that reports a change made
    the operation smaller.  [forEachEntry_pass] lifts a pass over one entry. *)

Import MachineInt Literals Ir LutOpt LutFacts LutCofactor Semantics.

Module LutPasses.

(** A well-formed entry of an operation with [n] source operands *)
Definition entry_fits (n : nat) (e : LutEntry) : Prop :=
  entry_wf e /\ Forall (fun c => c.1 < n)%nat (columns e).

Record lut_wf (program : Program) (op : Operation) (es : list LutEntry) : Prop := mk_lut_wf {
  lut_opcode : _opcode op = LutOp (mkLut es);
  lut_entries : Forall (entry_fits (length (_src op))) es;
  lut_mask : _signExtendSourceMask op = 0;
  lut_srcs : Forall (operand_wf program) (_src op);
  lut_dst : length (_dst op) = 1%nat;
  lut_width : dstWidth program op = Ok (Z.of_nat (length es));
  lut_bound : Z.of_nat (length es) < 2 ^ 30 }.

Lemma lut_val_bound ev es : 0 <= lut_val ev es < 2 ^ Z.of_nat (length es).
Proof. unfold lut_val. rewrite <- (length_fmap (entry_val (bit_of ev)) es). apply bits_to_Z_bound. Qed.

Lemma entries_wf program op es : lut_wf program op es -> Forall entry_wf es.
Proof. intros H. eapply Forall_impl; [apply H|]. by intros e []. Qed.

Lemma opValue_lut program σ op es :
  lut_wf program op es -> opValue program σ op = Some (lut_val (srcInt program σ op) es).
Proof.
  intros H. unfold opValue, opInt. rewrite (lut_width _ _ _ H), (lut_opcode _ _ _ H).
  rewrite Evaluate_eq; [|by eapply entries_wf|pose proof (lut_bound _ _ _ H); lia]. cbn. f_equal. apply Z.mod_small, lut_val_bound.
Qed.

Lemma getLut_eq program op es : lut_wf program op es -> getLut op = Ok (mkLut es).
Proof. intros H. unfold getLut. by rewrite (lut_opcode _ _ _ H). Qed.

Lemma lutMeasure_eq program op es :
  lut_wf program op es -> lutMeasure op = (sum_list (_numSources <$> es) + length (_src op))%nat.
Proof. intros H. unfold lutMeasure. by rewrite (lut_opcode _ _ _ H). Qed.

(** The value depends on the entries' functions and the operands only. *)
Lemma equivalent_lut program op es op' es' :
  lut_wf program op es -> lut_wf program op' es' ->
  (forall σ, Forall2 (fun e e' => entry_val (bit_of (srcInt program σ op')) e'
                                = entry_val (bit_of (srcInt program σ op)) e) es es') ->
  equivalent program op op'.
Proof.
  intros H H' Hv σ. rewrite (opValue_lut _ _ _ _ H), (opValue_lut _ _ _ _ H'). f_equal.
  unfold lut_val. f_equal. specialize (Hv σ). clear H H'.
  induction Hv as [|e e' es es' He _ IH]; [done|]. by rewrite !fmap_cons, He, IH.
Qed.

Lemma srcInt_set_entries program σ op es i : srcInt program σ (set_entries op es) i = srcInt program σ op i.
Proof. done. Qed.

(** ** The contract of a pass *)

Definition pass_result (program : Program) (Post : Operation -> list LutEntry -> Prop)
    (op : Operation) (r : result (bool * Operation)) : Prop :=
  exists b op' es', r = Ok (b, op') /\ lut_wf program op' es' /\ Post op' es' /\
    equivalent program op op' /\ _dst op' = _dst op /\ _locations op' = _locations op /\
    (if b : bool then lutMeasure op' < lutMeasure op else op' = op)%nat.

Class LutPass (program : Program) (f : Operation -> result (bool * Operation))
    (Pre Post : Operation -> list LutEntry -> Prop) : Prop :=
  lut_pass op es : lut_wf program op es -> Pre op es -> pass_result program Post op (f op).

(** The columns in use refer to registers; all the operands are registers. *)
Definition any_lut (op : Operation) (es : list LutEntry) : Prop := True.
Definition columns_are_registers (op : Operation) (es : list LutEntry) : Prop :=
  Forall (fun e => Forall (fun c => exists r, _src op !! c.1 = Some (SrcRegister r)) (columns e)) es.
Definition sources_are_registers (op : Operation) (es : list LutEntry) : Prop :=
  Forall (fun o => isRegister o = true) (_src op).

(** ** Passes over one entry *)

Definition entry_result (program : Program) (op : Operation) (Q : LutEntry -> Prop) (e : LutEntry)
    (r : bool * LutEntry) : Prop :=
  entry_wf r.2 /\ columns r.2 ⊆ columns e /\ Q r.2 /\
  (forall σ, entry_val (bit_of (srcInt program σ op)) r.2 = entry_val (bit_of (srcInt program σ op)) e) /\
  (if r.1 then _numSources r.2 < _numSources e else r.2 = e)%nat.

Lemma sum_entries program op Q es (r : list (bool * LutEntry)) :
  Forall2 (entry_result program op Q) es r ->
  (if existsb fst r then sum_list (_numSources <$> (snd <$> r)) < sum_list (_numSources <$> es)
   else snd <$> r = es)%nat /\
  (sum_list (_numSources <$> (snd <$> r)) <= sum_list (_numSources <$> es))%nat.
Proof.
  induction 1 as [|e [b e'] es r (_ & _ & _ & _ & He) _ [IH1 IH2]]; [by split|]. cbn in *.
  destruct b; cbn.
  - split; lia.
  - subst e'. destruct (existsb fst r); (split; [|lia]); [lia|]. by f_equal.
Qed.

Lemma forEachEntry_pass program op es f Q :
  lut_wf program op es ->
  (forall e, e ∈ es -> entry_fits (length (_src op)) e -> exists r, f e = Ok r /\ entry_result program op Q e r) ->
  pass_result program (fun op' es' => Forall Q es' /\ _src op' = _src op /\
      Forall2 (fun e e' => columns e' ⊆ columns e) es es') op (forEachEntry f op).
Proof.
  intros H Hf. destruct (mapM_exists f (entry_result program op Q) es) as (r & Hr & Hall).
  { intros e He. apply Hf; [done|]. eapply Forall_forall; [apply H|done]. }
  pose proof (sum_entries _ _ _ _ _ Hall) as [Hsum _].
  unfold forEachEntry. rewrite (getLut_eq _ _ _ H). cbn. rewrite Hr. cbn.
  assert (Hlen : length (snd <$> r) = length es) by (rewrite length_fmap; by erewrite <- Forall2_length).
  assert (Hwf : lut_wf program (set_entries op (snd <$> r)) (snd <$> r)).
  { destruct H as [? He ? ? ? Hw Hb]. constructor; try done; cbn; [|by rewrite Hlen..].
    clear -He Hall. induction Hall as [|e r es rs Hr Hall IH] in He |- *; cbn; constructor; inversion_clear He.
    - destruct Hr as (? & Hsub & _). split; [done|]. destruct H as [_ Hc].
      rewrite Forall_forall in Hc |- *. intros c Hin. by apply Hc, Hsub.
    - by apply IH. }
  eexists _, _, _. split; [reflexivity|]. split; [exact Hwf|]. split_and!.
  - apply Forall_fmap. clear -Hall. induction Hall as [|e r es rs (? & ? & HQ & _)]; constructor; auto.
  - done.
  - clear -Hall. induction Hall as [|e r es rs (? & ? & HQ & _)]; constructor; auto.
  - eapply equivalent_lut; [exact H|exact Hwf|]. intros σ. rewrite Forall2_fmap_r.
    eapply Forall2_impl; [exact Hall|]. intros e [b e'] (_ & _ & _ & Hv & _). apply Hv.
  - done.
  - done.
  - destruct (existsb fst r).
    + rewrite (lutMeasure_eq _ _ _ Hwf), (lutMeasure_eq _ _ _ H). cbn. lia.
    + rewrite Hsum. destruct op, H as [Ho]. cbn in *. subst. done.
Qed.

(** Weakening the postcondition of a pass *)
Lemma pass_result_impl program (P Q : Operation -> list LutEntry -> Prop) op r :
  (forall op' es', lut_wf program op' es' -> P op' es' -> Q op' es') ->
  pass_result program P op r -> pass_result program Q op r.
Proof. intros Hi (b & op' & es' & ? & ? & ? & ?). exists b, op', es'. intuition. Qed.

Lemma columns_subset_registers (src : list SourceOperand) (es es' : list LutEntry) :
  Forall2 (fun e e' => columns e' ⊆ columns e) es es' ->
  Forall (fun e => Forall (fun c => exists r, src !! c.1 = Some (SrcRegister r)) (columns e)) es ->
  Forall (fun e => Forall (fun c => exists r, src !! c.1 = Some (SrcRegister r)) (columns e)) es'.
Proof.
  induction 1 as [|e e' es es' Hs _ IH]; [done|]. inversion_clear 1 as [|?? He Hes]. constructor; [|by apply IH].
  rewrite Forall_forall in He |- *. intros c Hc. by apply He, Hs.
Qed.

(** ** [RemoveUnusedLutSourceRegisters] *)

Lemma RemoveUnused_result program op es :
  lut_wf program op es ->
  pass_result program (fun op' es' => _src op' = _src op /\ Forall2 (fun e e' => columns e' ⊆ columns e) es es')
    op (RemoveUnusedLutSourceRegisters op).
Proof.
  intros H. unfold RemoveUnusedLutSourceRegisters.
  rewrite assert_true by (by apply Nat.eqb_eq, H). cbn [mbind result_bind].
  eapply pass_result_impl; [|apply (forEachEntry_pass _ _ _ _ (fun _ => True) H)]; [naive_solver|].
  intros e _ [Hwf _].
  destruct (RemoveUnusedColumn_sound e (seq 0 (_numSources e)) Hwf) as (b & e' & -> & ? & ? & ? & ?).
  { apply Forall_forall. intros x Hx%elem_of_seq. lia. }
  exists (b, e'). split; [done|]. by unfold entry_result.
Qed.

#[export] Instance RemoveUnused_pass program :
  LutPass program RemoveUnusedLutSourceRegisters columns_are_registers columns_are_registers.
Proof.
  intros op es H Hregs. eapply pass_result_impl; [|by apply RemoveUnused_result].
  intros op' es' _ [Hs Hc]. unfold columns_are_registers. rewrite Hs. by eapply columns_subset_registers.
Qed.

End LutPasses.

(** * Folding literal operands into a table

    [GetLiteralBit] reads the two's complement bit of a literal;
    [SetConstantLutSources] is the cofactor for all the literal columns at
    once, and [FixupLutOp] leaves an operation whose columns are registers. *)

Import MachineInt Literals Ir LutOpt LutFacts LutCofactor Semantics LutPasses.

Module LutConst.

(** ** [GetLiteralBit] *)

Lemma testbit_lit_int l s i :
  lit_wf l -> 0 <= i ->
  Z.testbit (lit_int l s) i =
    if i <? _width l then Z.testbit (_value l) i else s && Z.testbit (_value l) (_width l - 1).
Proof.
  intros [Hw Hv] Hi. unfold lit_int, lit_neg. destruct (s && _) eqn:Hn.
  - replace (_value l - 2 ^ _width l) with (_value l + -1 * 2 ^ _width l) by lia.
    rewrite testbit_concat by lia. destruct (Z.ltb_spec i (_width l)); [done|]. by apply Z.bits_m1; lia.
  - destruct (Z.ltb_spec i (_width l)); [done|]. by apply (testbit_high (_width l)); lia.
Qed.

Lemma GetLiteralBit_eq op i l s b :
  _src op !! i = Some (SrcLiteral l) -> lit_wf l -> ShouldSignExtend op i = Ok s -> 0 <= b < 2 ^ 32 ->
  GetLiteralBit op i b = Ok (Z.b2z (Z.testbit (lit_int l s) b)).
Proof.
  intros Hl Hwf Hs Hb. unfold GetLiteralBit. rewrite (literalAt_eq _ _ _ Hl). cbn.
  rewrite assert_true by (apply Z.ltb_lt; apply Hwf). cbn.
  rewrite testbit_lit_int by (done || lia). destruct Hwf. rewrite !bit_test_eq by lia. destruct (b <? _width l); [done|].
  rewrite Hs. by destruct s.
Qed.

(** ** The rows of the original table *)

(** The known columns at their values, the others filled in from [l] *)
Fixpoint merge (lv : list (option Z)) (l : list bool) : list bool :=
  match lv with
  | [] => []
  | Some v :: lv => (v =? 1) :: merge lv l
  | None :: lv => default false (head l) :: merge lv (tail l)
  end.

Fixpoint keep {A} (lv : list (option Z)) (l : list A) : list A :=
  match lv, l with
  | Some _ :: lv, _ :: l => keep lv l
  | None :: lv, a :: l => a :: keep lv l
  | _, _ => []
  end.

Definition unknown (lv : list (option Z)) (i : nat) : bool := match lv !! i with Some None => true | _ => false end.
Definition keptColumns (lv : list (option Z)) : list nat := List.filter (unknown lv) (seq 0 (length lv)).

Fixpoint patterns (n : nat) : list (list (option Z)) :=
  match n with
  | O => [[]]
  | S n => flat_map (fun p => [None :: p; Some 0 :: p; Some 1 :: p]) (patterns n)
  end.

Definition pattern_check (lv : list (option Z)) : bool :=
  match literalColumns (length lv) lv with
  | Ok literals =>
      bool_decide (length (keptColumns lv) + length literals = length lv)%nat &&
      bool_decide (length literals = length (filter is_Some lv)) &&
      bool_decide (keptColumns lv = keep lv (seq 0 (length lv))) &&
      forallb (fun i => eqb (Z.land (literalMask literals) (Z.shiftl 1 (Z.of_nat i)) =? 0) (unknown lv i))
        (seq 0 (length lv)) &&
      forallb (fun r => bool_decide (originalRow (keptColumns lv) literals r =
                          Ok (bits_to_Z (merge lv (Z_to_bits (length (keptColumns lv)) r)))))
        (seqZ 0 (2 ^ Z.of_nat (length (keptColumns lv))))
  | Err _ => false
  end.

(** Every way of knowing some of at most six columns: a finite check *)
Lemma patterns_check : forallb (fun n => forallb pattern_check (patterns n)) (seq 0 7) = true.
Proof. vm_compute. reflexivity. Qed.

Definition known_bit (o : option Z) : Prop := o = None \/ o = Some 0 \/ o = Some 1.

Lemma elem_of_patterns lv : Forall known_bit lv -> In lv (patterns (length lv)).
Proof.
  induction 1 as [|o lv Ho _ IH]; [by left|]. cbn [length patterns]. apply in_flat_map.
  exists lv. split; [done|]. destruct Ho as [->|[->| ->]]; cbn; auto.
Qed.

Lemma pattern_facts lv :
  (length lv <= c_maxLutSources)%nat -> Forall known_bit lv ->
  exists literals, literalColumns (length lv) lv = Ok literals /\
    (length (keptColumns lv) + length literals = length lv)%nat /\
    length literals = length (filter is_Some lv) /\
    keptColumns lv = keep lv (seq 0 (length lv)) /\
    (forall i, (i < length lv)%nat ->
      (Z.land (literalMask literals) (Z.shiftl 1 (Z.of_nat i)) =? 0) = unknown lv i) /\
    (forall r, 0 <= r < 2 ^ Z.of_nat (length (keptColumns lv)) ->
      originalRow (keptColumns lv) literals r =
        Ok (bits_to_Z (merge lv (Z_to_bits (length (keptColumns lv)) r)))).
Proof.
  intros Hl Hk. pose proof patterns_check as Hc. rewrite forallb_forall in Hc.
  specialize (Hc (length lv) ltac:(apply in_seq; unfold c_maxLutSources in Hl; lia)). cbn beta in Hc.
  rewrite forallb_forall in Hc. specialize (Hc lv (elem_of_patterns lv Hk)). unfold pattern_check in Hc.
  destruct (literalColumns (length lv) lv) as [literals|]; [|done]. exists literals.
  apply andb_true_iff in Hc as [Hc Hrow]. apply andb_true_iff in Hc as [Hc Hmask].
  bool_to_prop. rewrite forallb_forall in Hrow, Hmask. split_and!; try done.
  - intros i Hi. apply eqb_prop, Hmask, in_seq. lia.
  - intros r Hr. eapply bool_decide_eq_true, Hrow. apply list_elem_of_In, elem_of_seqZ. lia.
Qed.

(** A row of the new table stands for the row where the known columns have
    their values: [ρ] reads the columns kept, [g] all of them. *)
Lemma merge_keep {A} (ρ g : A -> bool) lv (cols : list A) :
  Forall2 (fun o c => match o with Some v => (v =? 1) = g c | None => ρ c = g c end) lv cols ->
  merge lv (ρ <$> keep lv cols) = g <$> cols.
Proof. induction 1 as [|[v|] c lv cols Hv _ IH]; cbn; [done|..]; by rewrite IH, ?Hv. Qed.

Lemma keep_fmap {A B} (f : A -> B) lv l : keep lv (f <$> l) = f <$> keep lv l.
Proof. revert l; induction lv as [|[v|] lv IH]; intros [|a l]; cbn; by rewrite ?IH. Qed.

Lemma keep_subseteq {A} lv (l : list A) : keep lv l ⊆ l.
Proof.
  revert l; induction lv as [|[v|] lv IH]; intros [|a l]; cbn; try set_solver; specialize (IH l); set_solver.
Qed.

Lemma keep_lookup {A} lv (l : list A) c :
  length lv = length l -> c ∈ keep lv l -> exists i, lv !! i = Some None /\ l !! i = Some c.
Proof.
  revert l; induction lv as [|[v|] lv IH]; intros [|a l] Hlen Hc; cbn in *; try set_solver.
  - destruct (IH l) as (i & ? & ?); [lia|done|]. by exists (S i).
  - apply elem_of_cons in Hc as [->|Hc]; [by exists 0%nat|].
    destruct (IH l) as (i & ? & ?); [lia|done|]. by exists (S i).
Qed.

(** ** [SetConstantLutSources] *)

Lemma columns_by_index e : entry_wf e -> (fun i => columns e !!! i) <$> seq 0 (_numSources e) = columns e.
Proof.
  intros Hwf. apply list_eq; intros i. rewrite list_lookup_fmap.
  destruct (decide (i < _numSources e)%nat) as [Hi|].
  - destruct (column_lookup e i Hwf Hi) as (c & Hc & _). rewrite lookup_seq_lt by done. cbn.
    by rewrite Hc, (lookup_total_Some _ _ _ Hc).
  - rewrite (lookup_ge_None_2 (seq _ _)) by (rewrite length_seq; lia).
    by rewrite lookup_ge_None_2 by (rewrite length_columns by done; lia).
Qed.

Lemma SetConstantLutSources_eq op e lv :
  entry_wf e -> length lv = _numSources e -> Forall known_bit lv -> Exists is_Some lv ->
  (forall i c, lv !! i = Some None -> columns e !! i = Some c -> exists r, _src op !! c.1 = Some (SrcRegister r)) ->
  SetConstantLutSources op e lv =
    Ok (fill_entry (keep lv (columns e))
          (table_of (length (keep lv (columns e))) (fun l => Z.testbit (_table e) (bits_to_Z (merge lv l))))).
Proof.
  intros Hwf Hlen Hk Hex Hreg. pose proof Hwf as (Hn & _).
  destruct (pattern_facts lv) as (literals & Hlit & Hsum & Hsz & Hkeep & Hmask & Hrow); [lia|done|].
  unfold SetConstantLutSources. rewrite assert_true by (by apply Nat.leb_le). cbn [mbind result_bind].
  rewrite <- Hlen, Hlit. cbn [mbind result_bind].
  rewrite (assert_true (0 <? length literals)%nat).
  2: { apply Nat.ltb_lt. rewrite Hsz. apply Exists_exists in Hex as (o & Ho & Hs).
       destruct (filter is_Some lv) as [|x xs] eqn:Hf; [|cbn; lia].
       assert (o ∈ filter is_Some lv) as Hin by (by apply list_elem_of_filter). rewrite Hf in Hin. set_solver. }
  rewrite assert_true by (apply Nat.leb_le; lia). cbn [mbind result_bind].
  rewrite (foldM_ext _ (fun acc i => if unknown lv i then c ← Ok (i, columns e !!! i); Ok (acc ++ [c]) else Ok acc)).
  2: { intros acc i Hi%elem_of_seq. rewrite Hmask by lia. destruct (unknown lv i) eqn:Hu; [|done].
       destruct (column_lookup e i Hwf) as (c & Hc & ->); [lia|]. cbn.
       unfold unknown in Hu. destruct (Hreg i c) as (r & Hr); [by repeat case_match|done|].
       by rewrite (at_Some _ _ _ Hr), (lookup_total_Some _ _ _ Hc). }
  rewrite (foldM_filter _ _ (fun i => (i, columns e !!! i))) by done.
  fold (keptColumns lv). cbn [mbind result_bind app].
  set (kept := (fun i => (i, columns e !!! i)) <$> keptColumns lv).
  assert (Hk1 : kept.*1 = keptColumns lv).
  { unfold kept. rewrite <- list_fmap_compose. rewrite <- (list_fmap_id (keptColumns lv)) at 2.
    by apply list_fmap_ext. }
  assert (Hk2 : kept.*2 = keep lv (columns e)).
  { unfold kept. rewrite <- list_fmap_compose. rewrite Hkeep. change (snd ∘ _) with (fun i => columns e !!! i).
    by rewrite <- keep_fmap, Hlen, columns_by_index. }
  assert (Hkl : length kept = length (keptColumns lv)) by (unfold kept; apply length_fmap).
  assert (Hkc : length (keep lv (columns e)) = length kept) by (by rewrite <- Hk2, length_fmap).
  rewrite assert_true by (apply Nat.eqb_eq; lia). cbn.
  rewrite Hk1, Hk2, Hkc. rewrite shiftl_1_pow by lia.
  rewrite (foldM_Ok _ (fun table r => Z.lor table (u64_shl (Z.b2z
      (Z.testbit (_table e) (bits_to_Z (merge lv (Z_to_bits (length kept) r))))) r))).
  - cbn. rewrite (build_table _ _ (fun l => Z.testbit (_table e) (bits_to_Z (merge lv l)))); [done|lia|done].
  - intros t r Hr%elem_of_seqZ. rewrite Hrow by (rewrite <- Hkl; lia). cbn. rewrite <- Hkl.
    rewrite land_shiftr_1; [done|]. apply bits_to_Z_bound.
Qed.

(** ** [FixupLutOp] *)

(** What the value table says of the operand that a column reads *)
Definition known_value (op : Operation) (o : option Z) (c : nat * Z) : Prop :=
  exists so, _src op !! c.1 = Some so /\
    match so with
    | SrcLiteral l => lit_wf l /\ o = Some (Z.b2z (Z.testbit (lit_int l false) c.2))
    | SrcRegister _ => o = None
    | _ => False
    end.

Lemma literalValueTable_eq program op es e :
  lut_wf program op es -> entry_fits (length (_src op)) e ->
  exists lv, mapM_ (fun srcOp => c ← column e srcOp; srcOperand ← at_ (_src op) c.1;
      if isLiteral srcOperand then b ← GetLiteralBit op c.1 c.2; Ok (Some b) else Ok None)
      (seq 0 (_numSources e)) = Ok lv /\ Forall2 (known_value op) lv (columns e).
Proof.
  intros H [Hwf Hfit]. pose proof Hwf as (_ & _ & _ & _ & Hpos).
  edestruct (mapM_exists (fun srcOp => c ← column e srcOp; srcOperand ← at_ (_src op) c.1;
      if isLiteral srcOperand then b ← GetLiteralBit op c.1 c.2; Ok (Some b) else Ok None)
      (fun i o => forall c, columns e !! i = Some c -> known_value op o c) (seq 0 (_numSources e)))
    as (lv & Hlv & Hall).
  - intros i Hi%elem_of_seq. destruct (column_lookup e i Hwf) as (c & Hc & ->); [lia|]. cbn.
    pose proof (Forall_lookup_1 _ _ _ _ Hfit Hc) as Hlt. destruct (lookup_lt_is_Some_2 _ _ Hlt) as [so Hso].
    pose proof (Forall_lookup_1 _ _ _ _ (lut_srcs _ _ _ H) Hso) as Hso_wf.
    rewrite (at_Some _ _ _ Hso). cbn. destruct so as [l|r| |]; try done; cbn.
    + destruct Hso_wf as [Hl _]. rewrite (GetLiteralBit_eq _ _ l false); try done.
      * cbn. eexists; split; [done|]. intros c' [= <-]%(eq_trans (eq_sym Hc)). by exists (SrcLiteral l).
      * unfold ShouldSignExtend. rewrite assert_true by (by apply Nat.ltb_lt). cbn.
        by rewrite (lut_mask _ _ _ H), Z.land_0_l.
      * apply (Forall_lookup_1 _ _ _ _ Hpos Hc).
    + eexists; split; [done|]. intros c' [= <-]%(eq_trans (eq_sym Hc)). by exists (SrcRegister r).
  - exists lv. split; [exact Hlv|].
    assert (Hlen : length lv = _numSources e) by (erewrite <- Forall2_length by done; apply length_seq).
    apply Forall2_same_length_lookup_2; [by rewrite length_columns|]. intros i o c Ho Hc.
    pose proof (lookup_lt_Some _ _ _ Ho).
    eapply (Forall2_lookup_lr (fun i o => forall c, columns e !! i = Some c -> known_value op o c) _ _ i);
      [exact Hall| |done|done].
    rewrite lookup_seq_lt by lia. done.
Qed.

Lemma known_value_register op lv cols i c :
  Forall2 (known_value op) lv cols -> lv !! i = Some None -> cols !! i = Some c ->
  exists r, _src op !! c.1 = Some (SrcRegister r).
Proof.
  intros Hrel Ho Hc. destruct (Forall2_lookup_lr _ _ _ _ _ _ Hrel Ho Hc) as (so & Hso & Hm).
  destruct so; naive_solver.
Qed.

Lemma length_keep op lv cols :
  Forall2 (known_value op) lv cols -> length (filter is_Some lv) <> 0%nat ->
  (length (keep lv cols) < length cols)%nat.
Proof.
  assert (Hle : forall lv (l : list (nat * Z)), (length (keep lv l) <= length l)%nat).
  { intros lv'; induction lv' as [|[v|] lv' IH]; intros [|a l]; cbn; try lia; specialize (IH l); lia. }
  intros Hrel Hz. induction Hrel as [|[v|] c lv' cols' _ _ IH]; [done| |]; cbn [keep length].
  - specialize (Hle lv' cols'). lia.
  - rewrite filter_cons_False in Hz by (by intros []). specialize (IH Hz). lia.
Qed.

Lemma known_value_bits op lv cols : Forall2 (known_value op) lv cols -> Forall known_bit lv.
Proof.
  induction 1 as [|o c lv cols (so & _ & Hm) _ IH]; constructor; [|done].
  destruct so; try done; [|by left]. destruct Hm as [_ ->]. right. destruct (Z.testbit _ _); auto.
Qed.

Lemma known_value_bit_of program σ op es lv cols :
  lut_wf program op es -> Forall2 (known_value op) lv cols ->
  Forall2 (fun o c => match o with Some v => (v =? 1) = bit_of (srcInt program σ op) c
    | None => bit_of (srcInt program σ op) c = bit_of (srcInt program σ op) c end) lv cols.
Proof.
  intros H Hrel. eapply Forall2_impl; [exact Hrel|]. intros [v|] c (so & Hso & Hm); [|done].
  unfold bit_of. rewrite (srcInt_lookup _ _ _ _ _ Hso), signExtends_mask0 by apply H.
  destruct so as [l|r| |]; try done. destruct Hm as [_ [= ->]]. cbn. by destruct (Z.testbit _ _).
Qed.

Lemma FixupLutEntry_pass program op es e :
  lut_wf program op es -> entry_fits (length (_src op)) e ->
  exists r, FixupLutEntry op e = Ok r /\
    entry_result program op (fun e' => Forall (fun c => exists r, _src op !! c.1 = Some (SrcRegister r)) (columns e')) e r.
Proof.
  intros H He. pose proof He as [Hwf Hfit]. pose proof Hwf as (Hn & _ & _ & _ & Hpos).
  destruct (literalValueTable_eq _ _ _ _ H He) as (lv & Hlv & Hrel). unfold FixupLutEntry. rewrite Hlv. cbn.
  pose proof (Forall2_length _ _ _ Hrel) as Hlen. rewrite length_columns in Hlen by done.
  pose proof (fun i c => known_value_register op lv (columns e) i c Hrel) as Hregs.
  destruct (Nat.eqb_spec (length (filter is_Some lv)) 0) as [Hz|Hz].
  - exists (false, e). split; [done|]. unfold entry_result. cbn. split_and!; try done.
    apply Forall_lookup. intros i c Hc. apply (Hregs i); [|done].
    destruct (lv !! i) as [[v|]|] eqn:Ho; [|done|].
    + apply nil_length_inv in Hz. assert (Some v ∈ filter is_Some lv) as Hin.
      { apply list_elem_of_filter. split; [done|]. by eapply list_elem_of_lookup_2. }
      rewrite Hz in Hin. set_solver.
    + apply lookup_ge_None in Ho. apply lookup_lt_Some in Hc. rewrite length_columns in Hc by done. lia.
  - pose proof (length_keep _ _ _ Hrel Hz) as Hkl. rewrite length_columns in Hkl by done.
    assert (Hex : Exists is_Some lv).
    { destruct (filter is_Some lv) as [|o os] eqn:Hf; [done|]. apply Exists_exists. exists o.
      assert (o ∈ filter is_Some lv) as Hin by (rewrite Hf; set_solver). by apply list_elem_of_filter in Hin as []. }
    rewrite SetConstantLutSources_eq by (done || by eapply known_value_bits).
    cbn. eexists; split; [reflexivity|]. unfold entry_result. cbn [fst snd].
    rewrite columns_fill by lia. split_and!.
    + apply fill_entry_wf; [lia|apply table_of_bound|]. rewrite Forall_forall in Hpos |- *.
      intros c Hc. by eapply Hpos, keep_subseteq.
    + apply keep_subseteq.
    + apply Forall_forall. intros c Hc. apply keep_lookup in Hc as (i & ? & ?); [|by rewrite length_columns].
      by apply (Hregs i).
    + intros σ. rewrite entry_val_fill by lia. unfold entry_val. erewrite merge_keep; [done|].
      by eapply known_value_bit_of.
    + done.
Qed.

#[export] Instance FixupLutOp_pass program : LutPass program FixupLutOp any_lut columns_are_registers.
Proof.
  intros op es H _. eapply pass_result_impl.
  2: { apply (forEachEntry_pass _ _ _ _
         (fun e' => Forall (fun c => exists r, _src op !! c.1 = Some (SrcRegister r)) (columns e')) H). intros e _ He. by eapply FixupLutEntry_pass. }
  intros op' es' _ (Hr & Hs & _). unfold columns_are_registers. by rewrite Hs.
Qed.

End LutConst.

(** * Renumbering the source operands of a look-up table operation

    [RemoveUnusedLutSourceOperands] and [RemoveDuplicateLutSourceRegisters]
    build a shorter operand list and a map from old operand indices to new
    ones; a column keeps reading the same operand. *)

Import MachineInt Containers Literals Ir LutOpt LutFacts LutCofactor Semantics LutPasses.

Module LutOperands.

(** ** [mapSourceIndices] *)

Lemma mapSourceIndices_eq m (f : nat -> nat) e :
  entry_wf e -> (forall c, c ∈ columns e -> m !! c.1 = Some (f c.1)) ->
  exists e', mapSourceIndices m e = Ok e' /\ entry_wf e' /\
    columns e' = (fun c => (f c.1, c.2)) <$> columns e /\ _numSources e' = _numSources e /\ _table e' = _table e.
Proof.
  intros (Hn & Hi & Hb & Ht & Hc) Hm. unfold mapSourceIndices.
  rewrite (foldM_update (fun a => of_option KeyNotFound (m !! a)) f).
  - cbn. eexists; split; [done|]. set (is' := _ ++ _).
    assert (Hlen : length is' = c_maxLutSources).
    { unfold is'. rewrite length_app, length_fmap, length_take, length_drop. lia. }
    assert (Hcols : take (_numSources e) (zip is' (_sourceBit e)) = (fun c => (f c.1, c.2)) <$> columns e).
    { apply list_eq; intros i. rewrite list_lookup_fmap. unfold columns.
      destruct (decide (i < _numSources e)%nat) as [Hlt|].
      - rewrite !lookup_take_lt by done. rewrite !lookup_zip_with. unfold is'.
        rewrite lookup_app_l by (rewrite length_fmap, length_take; lia).
        rewrite list_lookup_fmap, lookup_take_lt by done.
        destruct (_sourceIndices e !! i); [cbn|done]. by destruct (_sourceBit e !! i).
      - by rewrite !lookup_take_ge by lia. }
    unfold entry_wf, columns. cbn [_numSources _sourceIndices _sourceBit _table].
    rewrite Hcols. split_and!; try (done || lia). rewrite Forall_fmap. exact Hc.
  - lia.
  - intros a Ha. apply list_elem_of_lookup in Ha as (i & Ha). apply lookup_take_Some in Ha as [Ha Hlt].
    destruct (lookup_lt_is_Some_2 (_sourceBit e) i) as [b Hb']; [lia|].
    pose proof (Hm (a, b)) as Hab. cbn in Hab. rewrite Hab; [done|]. unfold columns. eapply (list_elem_of_lookup_2 _ i).
    rewrite lookup_take_lt by done. by rewrite lookup_zip_with, Ha, Hb'.
Qed.

Definition used (es : list LutEntry) (i : nat) : Prop := exists e c, e ∈ es /\ c ∈ columns e /\ c.1 = i.

(** A renumbering [f] that keeps the operand behind every used index *)
Lemma renumber program op es m f newSrc :
  lut_wf program op es -> Forall (operand_wf program) newSrc ->
  (forall i, used es i -> m !! i = Some (f i) /\ newSrc !! f i = _src op !! i) ->
  exists es', mapM_ (mapSourceIndices m) es = Ok es' /\
    lut_wf program (set_src (set_entries op es') newSrc) es' /\
    equivalent program op (set_src (set_entries op es') newSrc) /\
    _numSources <$> es' = _numSources <$> es.
Proof.
  intros H Hnew Hused.
  destruct (mapM_exists (mapSourceIndices m) (fun e e' => entry_wf e' /\
     columns e' = (fun c => (f c.1, c.2)) <$> columns e /\ _numSources e' = _numSources e /\ _table e' = _table e) es)
    as (es' & Hes' & Hall).
  { intros e He. apply mapSourceIndices_eq.
    - pose proof (entries_wf _ _ _ H) as Hwf. rewrite Forall_forall in Hwf. by apply Hwf.
    - intros c Hc. apply Hused. by exists e, c. }
  exists es'. split; [done|].
  assert (Hin : Forall2 (fun e e' => e ∈ es) es es').
  { apply Forall2_same_length_lookup_2; [by eapply Forall2_length|]. intros. by eapply list_elem_of_lookup_2. }
  assert (Hwf : lut_wf program (set_src (set_entries op es') newSrc) es').
  { constructor; try done; cbn; try apply H.
    - apply Forall_forall. intros e' He'. apply list_elem_of_lookup in He' as (k & He').
      destruct (Forall2_lookup_r _ _ _ _ _ Hall He') as (e & He & Hwf & Hcols & _). split; [done|].
      rewrite Hcols, Forall_fmap. apply Forall_forall. intros c Hc. cbn.
      assert (Hu : used es c.1) by (exists e, c; split; [by eapply list_elem_of_lookup_2|done]).
      destruct (Hused _ Hu) as [_ Hsrc]. pose proof (lut_entries _ _ _ H) as Hes. rewrite Forall_forall in Hes.
      destruct (Hes e) as [_ Hlt]; [by eapply list_elem_of_lookup_2|]. rewrite Forall_forall in Hlt.
      destruct (lookup_lt_is_Some_2 _ _ (Hlt c Hc)) as [o Ho]. rewrite Ho in Hsrc. by eapply lookup_lt_Some.
    - rewrite <- (Forall2_length _ _ _ Hall). apply H.
    - rewrite <- (Forall2_length _ _ _ Hall). apply H. }
  split; [done|]. split.
  - eapply equivalent_lut; [exact H|exact Hwf|]. intros σ. apply Forall2_same_length_lookup_2; [by eapply Forall2_length|].
    intros k e e' He He'. destruct (Forall2_lookup_lr _ _ _ _ _ _ Hall He He') as (_ & Hcols & _ & Ht).
    unfold entry_val. rewrite Ht, Hcols, <- list_fmap_compose. do 2 f_equal. apply list_fmap_ext.
    intros i c Hc. unfold bit_of. cbn. f_equal.
    assert (Hu : used es c.1) by (exists e, c; split_and!; [by eapply list_elem_of_lookup_2..|done]).
    destruct (Hused _ Hu) as [_ Hsrc]. unfold srcInt. cbn [_src set_src]. rewrite Hsrc.
    by rewrite !signExtends_mask0 by apply H.
  - clear -Hall. induction Hall as [|e e' es es' (_ & _ & Hn & _) _ IH]; [done|]. by rewrite !fmap_cons, Hn, IH.
Qed.

(** ** [RemoveUnusedLutSourceOperands] *)

Lemma elem_of_usedSourceIndices es i : i ∈ usedSourceIndices es <-> used es i.
Proof.
  unfold usedSourceIndices.
  assert (H1 : forall (l : list (nat * Z)) (acc : gset nat),
    i ∈ fold_left (fun acc c => {[c.1]} ∪ acc) l acc <-> i ∈ acc \/ exists c, c ∈ l /\ c.1 = i).
  { induction l as [|c l IH]; intros acc; cbn; [set_solver|]. rewrite IH. set_solver. }
  assert (H2 : forall es (acc : gset nat),
    i ∈ fold_left (fun acc e => fold_left (fun acc c => {[c.1]} ∪ acc) (columns e) acc) es acc <-> i ∈ acc \/ used es i).
  { unfold used. induction es0 as [|e es0 IH]; intros acc; cbn; [set_solver|]. rewrite IH, H1. set_solver. }
  rewrite H2. set_solver.
Qed.

Lemma used_lt program op es i : lut_wf program op es -> used es i -> (i < length (_src op))%nat.
Proof.
  intros H (e & c & He & Hc & <-). pose proof (lut_entries _ _ _ H) as Hes. rewrite Forall_forall in Hes.
  destruct (Hes e He) as [_ Hlt]. rewrite Forall_forall in Hlt. by apply Hlt.
Qed.

Lemma used_register op es i :
  columns_are_registers op es -> used es i -> exists r, _src op !! i = Some (SrcRegister r).
Proof.
  intros H (e & c & He & Hc & <-). unfold columns_are_registers in H. rewrite Forall_forall in H.
  specialize (H e He). rewrite Forall_forall in H. by apply H.
Qed.

#[export] Instance RemoveUnusedLutSourceOperands_pass program :
  LutPass program RemoveUnusedLutSourceOperands columns_are_registers sources_are_registers.
Proof.
  intros op es H Hregs. unfold RemoveUnusedLutSourceOperands. rewrite (getLut_eq _ _ _ H). cbn [mbind result_bind].
  rewrite (assert_true (length (_dst op) =? 1)%nat) by (by apply Nat.eqb_eq, H). cbn [mbind result_bind _lutEntries].
  set (us := set_elements (usedSourceIndices es)).
  assert (Hus : forall i, i ∈ us <-> used es i).
  { intros i. unfold us. by rewrite elem_of_set_elements, elem_of_usedSourceIndices. }
  assert (Hnd : NoDup us) by apply NoDup_set_elements.
  assert (Hsub : us ⊆+ seq 0 (length (_src op))).
  { apply NoDup_submseteq; [done|]. intros i Hi%Hus. apply elem_of_seq. apply (used_lt _ _ _ _ H) in Hi. lia. }
  pose proof (submseteq_length _ _ Hsub) as Hle. rewrite length_seq in Hle.
  rewrite assert_true by (by apply Nat.leb_le). cbn [mbind result_bind].
  destruct (Nat.ltb_spec (length us) (length (_src op))) as [Hlt|Hge].
  - rewrite (mapM_Ok _ (fun i => default (SrcStringLiteral "") (_src op !! i))).
    2: { intros i Hi%Hus. destruct (used_register _ _ _ Hregs Hi) as (r & Hr).
         rewrite assert_true by (apply Nat.ltb_lt; by eapply used_lt). cbn. by rewrite (at_Some _ _ _ Hr), Hr. }
    cbn [mbind result_bind].
    set (m := list_to_map (zip us (seq 0 (length us)))). set (newSrc := _ <$> us).
    assert (Hm : forall i, used es i -> exists j, m !! i = Some j /\ us !! j = Some i).
    { intros i Hi%Hus. apply list_elem_of_lookup in Hi as (j & Hj). exists j. split; [|done].
      apply elem_of_list_to_map_1.
      - rewrite fst_zip by (by rewrite length_seq). done.
      - apply (list_elem_of_lookup_2 _ j). rewrite lookup_zip_with, Hj. cbn.
        by rewrite lookup_seq_lt by (by eapply lookup_lt_Some). }
    assert (Hreg : Forall (fun o => isRegister o = true /\ operand_wf program o) newSrc).
    { apply Forall_fmap, Forall_forall. intros i Hi%Hus. destruct (used_register _ _ _ Hregs Hi) as (r & Hr). cbn.
      rewrite Hr. split; [done|]. by apply (Forall_lookup_1 _ _ _ _ (lut_srcs _ _ _ H) Hr). }
    destruct (renumber program op es m (fun i => default 0%nat (m !! i)) newSrc H) as (es' & -> & Hwf & Heq & Hn).
    + eapply Forall_impl; [exact Hreg|]. by intros ? [].
    + intros i Hi. destruct (Hm i Hi) as (j & Hj & Hij). split; [by rewrite Hj|]. rewrite Hj. cbn.
      unfold newSrc. rewrite list_lookup_fmap, Hij. destruct (used_register _ _ _ Hregs Hi) as (r & Hr). cbn. by rewrite Hr.
    + cbn. eexists _, _, _. split; [reflexivity|]. split; [exact Hwf|]. split_and!; try done.
      * unfold sources_are_registers. eapply Forall_impl; [exact Hreg|]. by intros ? [].
      * rewrite (lutMeasure_eq _ _ _ Hwf), (lutMeasure_eq _ _ _ H), Hn. cbn. unfold newSrc.
        rewrite length_fmap. lia.
  - exists false, op, es. split; [done|]. split; [done|]. split_and!; try done.
    unfold sources_are_registers. apply Forall_lookup. intros i o Ho.
    assert (Hperm : us ≡ₚ seq 0 (length (_src op))).
    { apply submseteq_length_Permutation; [done|]. rewrite length_seq. lia. }
    assert (Hi : i ∈ us). { rewrite Hperm. apply elem_of_seq. apply lookup_lt_Some in Ho. lia. }
    apply Hus in Hi. destruct (used_register _ _ _ Hregs Hi) as (r & Hr). rewrite Ho in Hr. by injection Hr as ->.
Qed.

(** ** [RemoveDuplicateLutSourceRegisters] *)

(** After the first [k] operands *)
Record dup_inv (program : Program) (src : list SourceOperand) (k : nat) (st : DupState) : Prop := mk_dup_inv {
  dup_mapped : forall i, (i < k)%nat -> exists j, operandIndexMap st !! i = Some j /\ newSrcOperands st !! j = src !! i;
  dup_fresh : forall i, (k <= i)%nat -> operandIndexMap st !! i = None;
  dup_regs : forall r j, regToOperandIndex st !! r = Some j ->
    newSrcOperands st !! j = Some (SrcRegister (mkAccessedRegister r));
  dup_src : Forall (fun o => isRegister o = true /\ operand_wf program o) (newSrcOperands st);
  dup_length : (length (newSrcOperands st) <= k)%nat;
  dup_found : duplicateFound st = true -> (length (newSrcOperands st) < k)%nat }.

Lemma dupStep_inv program src k o st :
  Forall (operand_wf program) src -> Forall (fun o => isRegister o = true) src ->
  src !! k = Some o -> dup_inv program src k st ->
  exists st', dupStep st (k, o) = Ok st' /\ dup_inv program src (S k) st'.
Proof.
  intros Hwf Hregs Ho [Hmap Hfresh Hreg Hsrc Hlen Hfound].
  pose proof (Forall_lookup_1 _ _ _ _ Hwf Ho) as Howf. pose proof (Forall_lookup_1 _ _ _ _ Hregs Ho) as Hor.
  destruct o as [|[r]| |]; try done. unfold dupStep, SafeInsert. cbn.
  destruct (regToOperandIndex st !! r) as [j|] eqn:Hr; cbn.
  - rewrite Hfresh by lia. cbn. eexists; split; [reflexivity|]. constructor; cbn; try done; try lia.
    + intros i Hi. destruct (decide (i = k)) as [->|].
      * exists j. rewrite lookup_insert_eq. split; [done|]. by rewrite (Hreg _ _ Hr), Ho.
      * rewrite lookup_insert_ne by done. apply Hmap. lia.
    + intros i Hi. rewrite lookup_insert_ne by lia. apply Hfresh. lia.
  - rewrite Hfresh by lia. cbn. eexists; split; [reflexivity|]. constructor; cbn.
    + intros i Hi. destruct (decide (i = k)) as [->|].
      * eexists. rewrite lookup_insert_eq. split; [done|]. by rewrite list_lookup_middle.
      * destruct (Hmap i) as (j & Hj & Hji); [lia|]. exists j. rewrite lookup_insert_ne by done. split; [done|].
        destruct (newSrcOperands st !! j) eqn:Hj'; [by erewrite lookup_app_l_Some|].
        apply lookup_lt_Some in Ho. symmetry in Hji. apply lookup_ge_None in Hji. lia.
    + intros i Hi. rewrite lookup_insert_ne by lia. apply Hfresh. lia.
    + intros r' j Hj. destruct (decide (r' = r)) as [->|].
      * rewrite lookup_insert_eq in Hj. injection Hj as <-. by apply list_lookup_middle.
      * rewrite lookup_insert_ne in Hj by done. by apply lookup_app_l_Some, Hreg.
    + apply Forall_app; split; [done|]. by constructor.
    + rewrite length_app. cbn. lia.
    + intros Hf. specialize (Hfound Hf). rewrite length_app. cbn. lia.
Qed.

#[export] Instance RemoveDuplicateLutSourceRegisters_pass program :
  LutPass program RemoveDuplicateLutSourceRegisters sources_are_registers sources_are_registers.
Proof.
  intros op es H Hregs. unfold RemoveDuplicateLutSourceRegisters. rewrite (getLut_eq _ _ _ H). cbn [mbind result_bind].
  rewrite (assert_true (length (_dst op) =? 1)%nat) by (by apply Nat.eqb_eq, H).
  rewrite (assert_true (_signExtendSourceMask op =? 0)) by (by apply Z.eqb_eq, H). cbn [mbind result_bind].
  destruct (foldM_zip_inv dupStep (dup_inv program (_src op)) (_src op) (mkDupState ∅ ∅ [] false))
    as (st & -> & [Hmap _ _ Hsrc _ Hfound]).
  { constructor; cbn; try done; intros; try lia. }
  { intros. apply dupStep_inv; try done. apply H. }
  cbn. destruct (duplicateFound st) eqn:Hd.
  - destruct (renumber program op es (operandIndexMap st) (fun i => default 0%nat (operandIndexMap st !! i))
      (newSrcOperands st) H) as (es' & -> & Hwf & Heq & Hn).
    + eapply Forall_impl; [exact Hsrc|]. by intros ? [].
    + intros i Hi. apply (used_lt _ _ _ _ H) in Hi. destruct (Hmap i Hi) as (j & Hj & Hji). by rewrite Hj.
    + cbn. eexists _, _, _. split; [reflexivity|]. split; [exact Hwf|]. split_and!; try done.
      * unfold sources_are_registers. eapply Forall_impl; [exact Hsrc|]. by intros ? [].
      * rewrite (lutMeasure_eq _ _ _ Hwf), (lutMeasure_eq _ _ _ H), Hn. cbn. specialize (Hfound eq_refl). lia.
  - exists false, op, es. split; [done|]. by split.
Qed.

End LutOperands.

(** * Merging the columns that read the same bit

    [RemoveDuplicateLutColumns]: a table with one column for each distinct
    (operand, bit) that denotes the same function. *)

Import MachineInt Literals Ir LutOpt LutFacts LutCofactor Semantics LutPasses.

Module LutDedup.

(** ** [opIndexAndBitToSourceIndex] *)

(** The map of the columns [cols]: each distinct one with its positions *)
Record map_inv (cols : list (nat * Z)) (m : ColumnMap) : Prop := mk_map_inv {
  map_nodup : NoDup m.*1;
  map_entry : forall j c olds new, m !! j = Some (c, (olds, new)) ->
    new = j /\ forall i, i ∈ olds <-> cols !! i = Some c;
  map_keys : forall c, c ∈ cols <-> c ∈ m.*1;
  map_length : (length m <= length cols)%nat }.

Lemma addColumn_new m c i n : c ∉ m.*1 -> addColumn m c i n = m ++ [(c, ([i], n))].
Proof.
  induction m as [|[k [olds new]] m IH]; intros Hc; cbn in *; [done|]. apply not_elem_of_cons in Hc as [Hne Hc].
  rewrite decide_False by done. by rewrite IH.
Qed.

Lemma addColumn_old m1 m2 c olds new i n :
  c ∉ m1.*1 -> addColumn (m1 ++ (c, (olds, new)) :: m2) c i n = m1 ++ (c, (olds ++ [i], new)) :: m2.
Proof.
  induction m1 as [|[k [olds' new']] m1 IH]; intros Hc; cbn in *; [by rewrite decide_True|].
  apply not_elem_of_cons in Hc as [Hne Hc]. rewrite decide_False by done. by rewrite IH.
Qed.

Lemma lookup_snoc_Some' {A} (l : list A) x i y :
  (l ++ [x]) !! i = Some y <-> l !! i = Some y \/ i = length l /\ x = y.
Proof. rewrite lookup_snoc_Some. split; [|intros [H|[-> ->]]; eauto using lookup_lt_Some]; intuition. Qed.

Lemma addColumn_inv cols m c :
  map_inv cols m -> map_inv (cols ++ [c]) (addColumn m c (length cols) (length m)).
Proof.
  intros [Hnd Hent Hkeys Hlen]. destruct (decide (c ∈ m.*1)) as [Hin|Hin].
  - apply list_elem_of_split in Hin as (k1 & k2 & Hk). apply fmap_app_inv in Hk as (m1 & m2' & -> & Hk2 & ->).
    destruct m2' as [|[c' [olds new]] m2]; [done|]. injection Hk2 as <- ->. rewrite fmap_app in Hnd.
    apply NoDup_app in Hnd as (Hnd1 & Hdis & Hnd2).
    assert (Hc1 : c ∉ m1.*1) by (intros Hc; apply (Hdis c); set_solver).
    rewrite addColumn_old by done. constructor.
    + rewrite fmap_app. by apply NoDup_app.
    + intros j k olds' new' Hj. apply lookup_app_Some in Hj as [Hj|[Hge Hj]].
      * destruct (Hent j k olds' new') as [-> Hold]; [by apply lookup_app_l_Some|]. split; [done|].
        intros i. rewrite Hold, lookup_snoc_Some'. split; [by left|]. intros [?|[_ <-]]; [done|].
        destruct Hc1. apply list_elem_of_fmap. exists (c, (olds', j)). split; [done|]. by eapply list_elem_of_lookup_2.
      * destruct (j - length m1)%nat as [|d] eqn:Hd; cbn in Hj.
        -- injection Hj as <- <- <-. destruct (Hent j c olds new) as [-> Hold].
           { apply lookup_app_Some. right. by rewrite Hd. }
           split; [done|]. intros i. rewrite elem_of_app, Hold, lookup_snoc_Some', list_elem_of_singleton. intuition.
        -- destruct (Hent j k olds' new') as [-> Hold].
           { apply lookup_app_Some. right. by rewrite Hd. }
           split; [done|]. intros i. rewrite Hold, lookup_snoc_Some'. split; [by left|]. intros [?|[_ <-]]; [done|].
           apply NoDup_cons in Hnd2 as [Hn2 _]. destruct Hn2. apply list_elem_of_fmap. exists (c, (olds', j)).
           split; [done|]. by eapply list_elem_of_lookup_2.
    + intros k. rewrite elem_of_app, Hkeys, !fmap_app. set_solver.
    + rewrite !length_app in *. cbn in *. lia.
  - rewrite addColumn_new by done. constructor.
    + rewrite fmap_app. apply NoDup_app. split_and!; [done| |apply NoDup_singleton]. cbn. set_solver.
    + intros j k olds new Hj. apply lookup_snoc_Some' in Hj as [Hj|[-> [= <- <- <-]]].
      * destruct (Hent _ _ _ _ Hj) as [-> Hold]. split; [done|]. intros i. rewrite Hold, lookup_snoc_Some'.
        split; [by left|]. intros [?|[_ <-]]; [done|]. destruct Hin. apply list_elem_of_fmap.
        exists (c, (olds, j)). split; [done|]. by eapply list_elem_of_lookup_2.
      * split; [done|]. intros i. rewrite list_elem_of_singleton, lookup_snoc_Some'. split; [by intros ->; right|].
        intros [Hi|[-> _]]; [|done]. destruct Hin. apply Hkeys. by eapply list_elem_of_lookup_2.
    + intros k. rewrite elem_of_app, Hkeys, fmap_app, elem_of_app. cbn. set_solver.
    + rewrite !length_app. cbn. lia.
Qed.

Lemma columnMap_inv e : entry_wf e -> map_inv (columns e) (columnMap e).
Proof.
  intros Hwf. unfold columnMap. rewrite <- (length_columns e Hwf).
  assert (Hgen : forall l l1 m, map_inv l1 m ->
    map_inv (l1 ++ l) (fold_left (fun m p => addColumn m p.2 p.1 (length m)) (zip (seq (length l1) (length l)) l) m)).
  { induction l as [|c l IH]; intros l1 m Hm; cbn; [by rewrite app_nil_r|].
    specialize (IH (l1 ++ [c]) _ (addColumn_inv _ _ c Hm)). rewrite length_app, Nat.add_comm, <- app_assoc in IH. done. }
  apply (Hgen (columns e) [] []). constructor; cbn; try done; try set_solver. constructor.
Qed.

(** ** The rows *)

Lemma testbit_or_list l a i :
  0 <= i -> Z.testbit (fold_left (fun acc (c : nat) => Z.lor acc (Z.shiftl 1 (Z.of_nat c))) l a) i
  = Z.testbit a i || existsb (fun c => Z.of_nat c =? i) l.
Proof.
  intros Hi. apply (testbit_or_fold (fun _ : nat => true) Z.of_nat l a i Hi). intros; lia.
Qed.

Lemma testbit_originalTableIndex m r i :
  0 <= i -> Z.testbit (originalTableIndex m r) i =
    existsb (fun p => negb (Z.land (Z.shiftr r (Z.of_nat p.2.2)) 1 =? 0) && existsb (fun c => Z.of_nat c =? i) p.2.1) m.
Proof.
  intros Hi. unfold originalTableIndex.
  assert (Hgen : forall acc, Z.testbit (fold_left (fun index p =>
      if negb (Z.land (Z.shiftr r (Z.of_nat p.2.2)) 1 =? 0)
      then fold_left (fun index c => Z.lor index (Z.shiftl 1 (Z.of_nat c))) p.2.1 index else index) m acc) i
    = Z.testbit acc i || existsb (fun p => negb (Z.land (Z.shiftr r (Z.of_nat p.2.2)) 1 =? 0)
                                          && existsb (fun c => Z.of_nat c =? i) p.2.1) m).
  { induction m as [|p m IH]; intros acc; cbn; [by rewrite orb_false_r|]. rewrite IH, orb_assoc. f_equal.
    destruct (negb _); cbn; [by apply testbit_or_list|by rewrite orb_false_r]. }
  by rewrite Hgen, Z.bits_0.
Qed.

(** The row of the original table for the row [l] of the new one *)
Definition expand (m : ColumnMap) (cols : list (nat * Z)) (l : list bool) : list bool :=
  (fun c => existsb (fun p => bool_decide (p.1 = c) && default false (l !! p.2.2)) m) <$> cols.

Lemma length_expand m cols l : length (expand m cols l) = length cols.
Proof. apply length_fmap. Qed.

Lemma existsb_ext_in {A} (f g : A -> bool) l : (forall a, a ∈ l -> f a = g a) -> existsb f l = existsb g l.
Proof. induction l as [|a l IH]; intros H; cbn; [done|]. rewrite (H a), IH; set_solver. Qed.

Lemma originalTableIndex_eq cols m l :
  map_inv cols m -> originalTableIndex m (bits_to_Z l) = bits_to_Z (expand m cols l).
Proof.
  intros [_ Hent _ _]. apply Z.bits_inj'; intros i Hi. rewrite testbit_originalTableIndex by done.
  rewrite testbit_bits_to_Z_nonneg by done. unfold expand. rewrite list_lookup_fmap.
  assert (Hp : forall p, p ∈ m ->
    existsb (fun c => Z.of_nat c =? i) p.2.1 = bool_decide (cols !! Z.to_nat i = Some p.1)).
  { intros [c [olds new]] Hp. apply list_elem_of_lookup in Hp as (j & Hj). destruct (Hent _ _ _ _ Hj) as [_ Ho].
    apply Bool.eq_iff_eq_true. rewrite bool_decide_eq_true, existsb_exists. cbn. rewrite <- Ho. split.
    - intros (x & Hx & Heq%Z.eqb_eq). rewrite <- Heq, Nat2Z.id. by apply list_elem_of_In.
    - intros Hin. exists (Z.to_nat i). split; [by apply list_elem_of_In|]. apply Z.eqb_eq. lia. }
  destruct (cols !! Z.to_nat i) as [c|]; cbn.
  - apply existsb_ext_in. intros p Hin. rewrite Hp by done. rewrite land_shiftr_1 by lia.
    rewrite testbit_bits_to_Z. rewrite andb_comm. f_equal.
    + apply bool_decide_ext. split; [by intros [= ->]|by intros ->].
    + by destruct (default false (l !! p.2.2)).
  - rewrite (existsb_ext_in _ (fun _ => false)); [by clear; induction m|].
    intros p Hin. rewrite Hp by done. apply andb_false_r.
Qed.

Lemma expand_fmap cols m ρ : map_inv cols m -> expand m cols (ρ <$> m.*1) = ρ <$> cols.
Proof.
  intros [_ Hent Hkeys _]. unfold expand. apply list_fmap_ext. intros i c Hc.
  apply Bool.eq_iff_eq_true. rewrite existsb_exists. split.
  - intros ([k [olds new]] & Hp & Hb). apply list_elem_of_In, list_elem_of_lookup in Hp as (j & Hj).
    cbn in Hb. bool_to_prop. subst k. destruct (Hent _ _ _ _ Hj) as [-> _].
    rewrite !list_lookup_fmap, Hj in H0. done.
  - intros Hρ. assert (Hk : c ∈ m.*1) by (apply Hkeys; by eapply list_elem_of_lookup_2).
    apply list_elem_of_fmap in Hk as ([k [olds new]] & -> & Hin). exists (k, (olds, new)).
    split; [by apply list_elem_of_In|]. cbn. rewrite bool_decide_true by done.
    apply list_elem_of_lookup in Hin as (j & Hj). destruct (Hent _ _ _ _ Hj) as [-> _].
    by rewrite !list_lookup_fmap, Hj.
Qed.

(** ** [DedupColumns] *)

(** Filling an array slot by slot *)
Lemma fill_slots {A B} (slot : B -> nat) (h : B -> A) (z : A) N m xs :
  (forall j p, m !! j = Some p -> slot p = length xs + j)%nat -> (length xs + length m <= N)%nat ->
  fold_left (fun a p => <[slot p := h p]> a) m (xs ++ replicate (N - length xs) z)
  = xs ++ (h <$> m) ++ replicate (N - length xs - length m) z.
Proof.
  revert xs; induction m as [|p m IH]; intros xs Hs Hl; cbn in *.
  - by rewrite Nat.sub_0_r.
  - rewrite (Hs 0%nat p), Nat.add_0_r by done.
    replace (N - length xs)%nat with (S (N - length (xs ++ [h p]))) by (rewrite length_app; cbn; lia).
    cbn [replicate]. rewrite insert_app_r_alt, Nat.sub_diag by lia. cbn.
    rewrite (cons_middle _ xs), app_assoc, IH.
    + rewrite <- app_assoc. cbn. by replace (N - length (xs ++ [h p]) - length m)%nat
        with (N - length (xs ++ [h p]) - length m)%nat by lia.
    + intros j q Hj. rewrite (Hs (S j) q), length_app by done. cbn. lia.
    + rewrite length_app. cbn. lia.
Qed.

Lemma DedupColumns_sound e :
  entry_wf e -> exists b e', DedupColumns e = Ok (b, e') /\ entry_wf e' /\ columns e' ⊆ columns e /\
    (forall ρ, entry_val ρ e' = entry_val ρ e) /\ (if b : bool then _numSources e' < _numSources e else e' = e)%nat.
Proof.
  intros Hwf. pose proof (columnMap_inv e Hwf) as Hm. pose proof Hwf as (Hn & _ & _ & Ht & Hpos).
  pose proof (length_columns e Hwf) as Hl. pose proof (map_length _ _ Hm) as Hle. rewrite Hl in Hle.
  unfold DedupColumns. set (m := columnMap e) in *.
  rewrite (assert_true (length m <=? _numSources e)%nat) by (by apply Nat.leb_le). cbn [mbind result_bind].
  destruct (Nat.ltb_spec (length m) (_numSources e)) as [Hlt|]; [|by exists false, e].
  set (f := fun l => Z.testbit (_table e) (bits_to_Z (expand m (columns e) l))).
  assert (Htab : foldM (fun table newTableRow =>
        b ← GetTableEntry e (originalTableIndex m newTableRow);
        Ok (if b : bool then Z.lor table (u64_shl 1 newTableRow) else table))
      (seqZ 0 (Z.shiftl 1 (Z.of_nat (length m)))) 0 = Ok (table_of (length m) f)).
  { rewrite shiftl_1_pow by lia. pose proof (pow2_le_64 (length m)) as Hp64.
    rewrite (foldM_Ok _ (fun t r => Z.lor t (u64_shl (Z.b2z (f (Z_to_bits (length m) r))) r))).
    - rewrite (build_table _ _ f); [done|lia|done].
    - intros t r Hr%elem_of_seqZ.
      rewrite <- (bits_to_Z_to_bits (length m) r) at 1 by lia. rewrite (originalTableIndex_eq (columns e)) by done.
      rewrite GetTableEntry_eq; [|done|].
      + cbn. fold (f (Z_to_bits (length m) r)). destruct (f _); cbn [Z.b2z].
        * done.
        * change 0 with (Z.b2z false). rewrite u64_shl_bit by lia. by rewrite Z.lor_0_r.
      + pose proof (bits_to_Z_bound (expand m (columns e) (Z_to_bits (length m) r))) as Hb.
        by rewrite length_expand, Hl in Hb. }
  cbn zeta. rewrite Htab. cbn [mbind result_bind].
  assert (Hslot : forall j (p : (nat * Z) * (list nat * nat)), m !! j = Some p -> p.2.2 = j).
  { intros j [c [olds new]] Hj. by destruct (map_entry _ _ Hm _ _ _ _ Hj). }
  pose proof (fill_slots (fun p : (nat * Z) * (list nat * nat) => p.2.2) (fun p => p.1.1) 0%nat c_maxLutSources m []
    Hslot ltac:(cbn; lia)) as Hi.
  pose proof (fill_slots (fun p : (nat * Z) * (list nat * nat) => p.2.2) (fun p => p.1.2) 0 c_maxLutSources m []
    Hslot ltac:(cbn; lia)) as Hb.
  cbn [app length] in Hi, Hb. rewrite Nat.sub_0_r in Hi, Hb. rewrite Hi, Hb.
  exists true, (fill_entry m.*1 (table_of (length m.*1) f)). unfold fill_entry at 1, fill_array.
  rewrite !length_fmap, <- !list_fmap_compose. split; [done|].
  split_and!.
  - rewrite <- (length_fmap fst m). apply fill_entry_wf; [rewrite length_fmap; lia|apply table_of_bound|].
    rewrite Forall_forall in Hpos |- *. intros c Hc. by apply Hpos, (map_keys _ _ Hm).
  - rewrite columns_fill by (rewrite length_fmap; lia). intros c Hc. by apply (map_keys _ _ Hm).
  - intros ρ. rewrite <- (length_fmap fst m) at 1. rewrite entry_val_fill by (rewrite length_fmap; lia).
    unfold f. by rewrite expand_fmap.
  - cbn. by rewrite length_fmap.
Qed.

#[export] Instance RemoveDuplicateLutColumns_pass program :
  LutPass program RemoveDuplicateLutColumns sources_are_registers sources_are_registers.
Proof.
  intros op es H Hregs. unfold RemoveDuplicateLutColumns.
  rewrite (assert_true (length (_dst op) =? 1)%nat) by (by apply Nat.eqb_eq, H). cbn [mbind result_bind].
  eapply pass_result_impl; [|apply (forEachEntry_pass _ _ _ _ (fun _ => True) H)].
  - intros op' es' _ (_ & Hs & _). unfold sources_are_registers. by rewrite Hs.
  - intros e _ [Hwf _]. destruct (DedupColumns_sound e Hwf) as (b & e' & -> & ? & ? & ? & ?).
    exists (b, e'). split; [done|]. by unfold entry_result.
Qed.

End LutDedup.
