(* ===== verification/LutFixup.v ===== *)
(** * The convergence loops over look-up table operations

    [DetectConstantLut], the loop of [FixupLutOps] and [OptimizeLutOpt]: both
    loops terminate, do not throw, preserve the value of the operation and
    stop at a fixed point. *)

From S2P Require Import Prelude MachineInt Literals Ir LutOpt LutFacts Semantics.
Import MachineInt Literals Ir LutOpt LutFacts LutCofactor Semantics LutPasses LutConst LutOperands LutDedup.

Module LutFixup.

(** ** [DetectConstantLut] *)

Definition literal_mov (op' : Operation) : Prop :=
  exists l, _opcode op' = Mov /\ _signExtendSourceMask op' = 0 /\ _src op' = [SrcLiteral l] /\ lit_wf l.

Lemma GetMpWidth_eq z : 0 <= z -> Z.log2 z < 2 ^ 30 -> exists w, GetMpWidth z = Ok w /\ lit_wf (mkLiteral z w).
Proof.
  intros Hz Hl. unfold GetMpWidth, msb. destruct (Z.eqb_spec z 0) as [->|Hne].
  - exists 1. split; [done|]. unfold lit_wf. cbn. lia.
  - destruct (Z.leb_spec z 0); [lia|]. cbn.
    pose proof (Z.log2_nonneg z). unfold u64_add. rewrite u64_small by (unfold is_u64; lia).
    eexists; split; [done|]. unfold lit_wf. cbn [_value _width]. split; [lia|]. split; [done|].
    rewrite Z.add_1_r. apply Z.log2_spec. lia.
Qed.

Lemma entry_val_constant ρ e :
  entry_wf e -> _numSources e = 0%nat -> entry_val ρ e = (_table e =? 1) /\ (_table e = 0 \/ _table e = 1).
Proof.
  intros (_ & _ & _ & Ht & _) Hn. rewrite Hn in Ht. change (2 ^ 2 ^ Z.of_nat 0) with 2 in Ht.
  unfold entry_val, columns. rewrite Hn. cbn [take fmap list_fmap bits_to_Z].
  assert (Hc : _table e = 0 \/ _table e = 1) by lia. split; [|done]. by destruct Hc as [-> | ->].
Qed.

Definition all_constant (es : list LutEntry) : bool := forallb (fun e => (_numSources e =? 0)%nat) es.

Lemma detect_loop es ev :
  Forall entry_wf es ->
  exists known, foldM (fun '(allKnown, known) p =>
      let '(dstIndex, lutEntry) := p in
      if (_numSources lutEntry =? 0)%nat then
        if negb (_table lutEntry =? 0) then
          assert_ (_table lutEntry =? 1);;
          Ok (allKnown, Z.lor known (Z.shiftl 1 (Z.of_nat dstIndex)))
        else Ok (allKnown, known)
      else Ok (false, known))
    (zip (seq 0 (length es)) es) (true, 0) = Ok (all_constant es, known) /\
    (all_constant es = true -> known = lut_val ev es).
Proof.
  intros Hwf. unfold lut_val.
  destruct (foldM_zip_inv (fun '(allKnown, known) p =>
      let '(dstIndex, lutEntry) := p in
      if (_numSources lutEntry =? 0)%nat then
        if negb (_table lutEntry =? 0) then
          assert_ (_table lutEntry =? 1);;
          Ok (allKnown, Z.lor known (Z.shiftl 1 (Z.of_nat dstIndex)))
        else Ok (allKnown, known)
      else Ok (false, known))
    (fun k '(all, known) => all = all_constant (take k es) /\
       (all = true -> known = bits_to_Z (entry_val (bit_of ev) <$> take k es))) es (true, 0))
    as ([all known] & H & Hall & Hk).
  - by split.
  - intros k e [all known] He [-> Hk]. pose proof (Forall_lookup_1 _ _ _ _ Hwf He) as Hewf.
    rewrite (take_S_r _ _ _ He). unfold all_constant. rewrite forallb_app, fmap_app. cbn [forallb fmap list_fmap].
    rewrite andb_true_r. destruct (Nat.eqb_spec (_numSources e) 0) as [Hn|Hn].
    + rewrite andb_true_r. destruct (entry_val_constant (bit_of ev) e Hewf Hn) as [-> Ht].
      assert (Hlen : length (entry_val (bit_of ev) <$> take k es) = k).
      { rewrite length_fmap, length_take. apply lookup_lt_Some in He. lia. }
      rewrite bits_to_Z_app, Hlen. destruct Ht as [-> | ->]; cbn; (eexists; split; [reflexivity|]; split; [done|]).
      * intros Ha. rewrite (Hk Ha). lia.
      * intros Ha. rewrite (Hk Ha). pose proof (bits_to_Z_bound (entry_val (bit_of ev) <$> take k es)) as Hb.
        rewrite Hlen in Hb. rewrite lor_shiftl_add by lia. lia.
    + rewrite andb_false_r. eexists; split; [reflexivity|]. by split.
  - exists known. rewrite take_ge in Hall, Hk by lia. subst all. by split.
Qed.

Lemma opValue_literal_mov program σ op l d :
  _opcode op = Mov -> _src op = [SrcLiteral l] -> _signExtendSourceMask op = 0 -> dstWidth program op = Ok d ->
  opValue program σ op = Some (_value l mod 2 ^ d).
Proof.
  intros Ho Hs Hm Hd. unfold opValue, opInt. rewrite Hd, Ho. cbn. unfold srcInt. rewrite Hs. cbn.
  by rewrite signExtends_mask0.
Qed.

Lemma DetectConstantLut_sound program op es :
  lut_wf program op es ->
  (all_constant es = false /\ DetectConstantLut op = Ok (false, op)) \/
  (all_constant es = true /\ exists op', DetectConstantLut op = Ok (true, op') /\ literal_mov op' /\
    equivalent program op op' /\ _dst op' = _dst op /\ _locations op' = _locations op).
Proof.
  intros H. unfold DetectConstantLut. rewrite (getLut_eq _ _ _ H). cbn [mbind result_bind].
  rewrite (assert_true (length (_dst op) =? 1)%nat) by (by apply Nat.eqb_eq, H). cbn [mbind result_bind].
  unfold _numDestinationBits. cbn [_lutEntries].
  destruct (detect_loop es (srcInt program (fun _ => 0) op) (entries_wf _ _ _ H)) as (known & -> & Hk).
  cbn [mbind result_bind]. destruct (all_constant es) eqn:Ha; [right|left]; (split; [done|]); [|done].
  specialize (Hk eq_refl). pose proof (lut_val_bound (srcInt program (fun _ => 0) op) es) as Hb. rewrite <- Hk in Hb.
  assert (Hlog : Z.log2 known < 2 ^ 30).
  { pose proof (lut_bound _ _ _ H) as Hbd. apply Z.le_lt_trans with (Z.of_nat (length es)); [|done].
    destruct (Z.eq_dec known 0) as [->|]; [cbn; lia|]. apply Z.lt_le_incl, Z.log2_lt_pow2; lia. }
  destruct (GetMpWidth_eq known) as (w & Hw & Hl); [lia|done|].
  pose proof (lut_dst _ _ _ H) as Hdst. destruct (_dst op) as [|d [|]] eqn:Hd; try done. cbn [at_ lookup list_lookup].
  unfold at_, SourceOperand_mp_int. cbn. rewrite Hw. cbn. eexists. split; [reflexivity|]. split_and!; try done.
  - by exists (mkLiteral known w).
  - intros σ. rewrite (opValue_lut _ _ _ _ H).
    rewrite (opValue_literal_mov _ _ _ (mkLiteral known w) (Z.of_nat (length es))); try done.
    + cbn [_value]. rewrite Z.mod_small by done. rewrite Hk. f_equal. unfold lut_val. f_equal.
      apply list_fmap_ext. intros i e He. pose proof (entries_wf _ _ _ H) as Hwf.
      pose proof (Forall_lookup_1 _ _ _ _ Hwf He) as Hewf. unfold all_constant in Ha. rewrite forallb_forall in Ha.
      assert (Hn : _numSources e = 0%nat) by (apply Nat.eqb_eq, Ha, list_elem_of_In; by eapply list_elem_of_lookup_2).
      destruct (entry_val_constant (bit_of (srcInt program (fun _ => 0) op)) e Hewf Hn) as [-> _].
      by destruct (entry_val_constant (bit_of (srcInt program σ op)) e Hewf Hn) as [-> _].
    + pose proof (lut_width _ _ _ H) as Hw'. unfold dstWidth in Hw' |- *. by rewrite Hd in Hw'.
Qed.

(** ** [FixupLutOps] *)

(** The operation a round leaves: a smaller table, or a constant *)
Definition round_result (program : Program) (op op' : Operation) (b : bool) : Prop :=
  equivalent program op op' /\ _dst op' = _dst op /\ _locations op' = _locations op /\
  (literal_mov op' /\ b = true \/
   exists es', lut_wf program op' es' /\ sources_are_registers op' es' /\ all_constant es' = false /\
     (if b then lutMeasure op' < lutMeasure op else op' = op)%nat).

Lemma FixupRound_sound program op es :
  lut_wf program op es -> exists b op', FixupRound op = Ok (b, op') /\ round_result program op op' b.
Proof.
  intros H. unfold FixupRound.
  destruct (lut_pass (LutPass := FixupLutOp_pass program) op es H I)
    as (b1 & op1 & es1 & -> & H1 & P1 & E1 & D1 & L1 & M1). cbn [mbind result_bind].
  destruct (lut_pass (LutPass := RemoveUnused_pass program) op1 es1 H1 P1)
    as (b2 & op2 & es2 & -> & H2 & P2 & E2 & D2 & L2 & M2). cbn [mbind result_bind].
  destruct (lut_pass (LutPass := RemoveUnusedLutSourceOperands_pass program) op2 es2 H2 P2)
    as (b3 & op3 & es3 & -> & H3 & P3 & E3 & D3 & L3 & M3). cbn [mbind result_bind].
  destruct (lut_pass (LutPass := RemoveDuplicateLutSourceRegisters_pass program) op3 es3 H3 P3)
    as (b4 & op4 & es4 & -> & H4 & P4 & E4 & D4 & L4 & M4). cbn [mbind result_bind].
  destruct (lut_pass (LutPass := RemoveDuplicateLutColumns_pass program) op4 es4 H4 P4)
    as (b5 & op5 & es5 & -> & H5 & P5 & E5 & D5 & L5 & M5). cbn [mbind result_bind].
  assert (E : equivalent program op op5) by (do 4 (etrans; [eassumption|]); done).
  destruct (DetectConstantLut_sound program op5 es5 H5) as [(Hc & ->)|(_ & op6 & -> & Hm & E6 & D6 & L6)];
    cbn [mbind result_bind].
  - eexists _, _. split; [reflexivity|]. unfold round_result. split_and!; [done|congruence|congruence|].
    right. exists es5. split_and!; try done. destruct b1, b2, b3, b4, b5; cbn in *; subst; (done || lia).
  - eexists _, _. split; [reflexivity|]. unfold round_result. split_and!; [by etrans|congruence|congruence|].
    left. split; [done|]. by rewrite orb_true_r.
Qed.

Lemma literal_mov_not_lut op : literal_mov op -> isLut op = false.
Proof. intros (l & Ho & _). unfold isLut. by rewrite Ho. Qed.

Lemma lut_wf_isLut program op es : lut_wf program op es -> isLut op = true.
Proof. intros H. unfold isLut. by rewrite (lut_opcode _ _ _ H). Qed.

(** Where the loop stops: a constant, or a table that a further round leaves alone *)
Definition fixed_point (program : Program) (op' : Operation) : Prop :=
  literal_mov op' \/
  exists es', lut_wf program op' es' /\ sources_are_registers op' es' /\ all_constant es' = false /\
    FixupRound op' = Ok (false, op').

Lemma FixupLoop_sound program fuel op es acc :
  lut_wf program op es -> (lutMeasure op < fuel)%nat ->
  exists b op', FixupLoop fuel op acc = Ok (b, op') /\ equivalent program op op' /\ _dst op' = _dst op /\
    _locations op' = _locations op /\ fixed_point program op' /\ (b = false -> acc = false /\ op' = op).
Proof.
  revert op es acc; induction fuel as [|fuel IH]; intros op es acc H Hf; [lia|]. cbn [FixupLoop].
  destruct (FixupRound_sound program op es H) as (b & op1 & Hround & E1 & D1 & L1 & [[Hm ->]|(es1 & H1 & P1 & C1 & M1)]);
    rewrite Hround; cbn [mbind result_bind].
  - rewrite (literal_mov_not_lut _ Hm), orb_true_r. cbn. eexists _, _. split; [reflexivity|].
    rewrite orb_true_r. split_and!; try done. by left.
  - rewrite (lut_wf_isLut _ _ _ H1). destruct b; cbn.
    + destruct (IH op1 es1 (acc || true) H1) as (b & op' & -> & E & D & L & F & Hb); [lia|].
      exists b, op'. split; [done|]. split_and!; [by etrans|congruence|congruence|done|].
      intros ->. destruct Hb as [Hb _]; [done|]. by rewrite orb_true_r in Hb.
    + subst op1. eexists _, _. split; [reflexivity|]. split_and!; try done.
      * right. by exists es1.
      * by rewrite orb_false_r.
Qed.

(** An operation of the block: a LUT operation is well formed. *)
Definition lut_ops_wf (program : Program) (operations : list Operation) : Prop :=
  Forall (fun op => isLut op = true -> exists es, lut_wf program op es) operations.

Lemma FixupOperation_sound program op :
  (isLut op = true -> exists es, lut_wf program op es) ->
  exists r, FixupOperation op = Ok r /\ equivalent program op r.2 /\ _dst r.2 = _dst op /\
    _locations r.2 = _locations op /\ (isLut op = true -> fixed_point program r.2) /\
    (isLut op = false \/ r.1 = false -> r.2 = op).
Proof.
  intros Hwf. unfold FixupOperation. destruct (isLut op) eqn:Hl.
  - destruct (Hwf eq_refl) as (es & H).
    destruct (FixupLoop_sound program (S (lutMeasure op)) op es false H) as (b & op' & -> & ? & ? & ? & ? & Hb); [lia|].
    exists (b, op'). split; [done|]. split_and!; try done. cbn. intros [|Hf]; [done|]. by apply Hb.
  - exists (false, op). by split_and!.
Qed.

(** C13: [FixupLutOps] terminates without an error, preserves the value of every
    operation of the block and its destination and locations, and leaves each
    LUT operation at a fixed point of the six passes: a constant, or a table
    whose operands are distinct registers that another round does not change. *)
Theorem FixupLutOps_correct program operations :
  lut_ops_wf program operations ->
  exists b operations', FixupLutOps operations = Ok (b, operations') /\
    Forall2 (fun op op' => equivalent program op op' /\ _dst op' = _dst op /\ _locations op' = _locations op /\
      (isLut op = true -> fixed_point program op') /\ (isLut op = false -> op' = op)) operations operations' /\
    (b = false -> operations' = operations).
Proof.
  intros H. unfold FixupLutOps.
  destruct (mapM_exists FixupOperation (fun op r => equivalent program op r.2 /\ _dst r.2 = _dst op /\
    _locations r.2 = _locations op /\ (isLut op = true -> fixed_point program r.2) /\
    (isLut op = false \/ r.1 = false -> r.2 = op)) operations) as (r & -> & Hr).
  { intros op Hop. unfold lut_ops_wf in H. rewrite Forall_forall in H. by apply FixupOperation_sound, H. }
  cbn. eexists _, _. split; [reflexivity|]. split.
  - rewrite Forall2_fmap_r. eapply Forall2_impl; [exact Hr|]. naive_solver.
  - clear H. induction Hr as [|op [b op'] ops r (_ & _ & _ & _ & Hb) _ IH]; [done|]. cbn in *.
    intros [-> Hx]%orb_false_iff. rewrite IH by done. by rewrite Hb by (by right).
Qed.

(** A table over a literal, a register used twice and an unused register *)
Definition sample_entries : list LutEntry :=
  [fill_entry [(0%nat, 0); (1%nat, 2); (2%nat, 2)] 232; fill_entry [(3%nat, 1); (1%nat, 0)] 10].
Definition sample_lut : Operation :=
  mkOperation (LutOp (mkLut sample_entries)) 0 ∅
    [sample_lit 5 4; sample_reg 0; sample_reg 0; sample_reg 1] [sample_dst 2].

Lemma sample_lut_wf : lut_wf sample_program sample_lut sample_entries.
Proof.
  assert (Hr : forall i d, _registerTable sample_program !! i = Some d -> 0 < _regWidth d < 2 ^ 30 ->
    operand_wf sample_program (sample_reg i)) by (intros i d Hi Hd; exists d; auto).
  constructor; try reflexivity; [|].
  - repeat constructor; cbn; lia.
  - constructor; [repeat split; cbn; lia|].
    repeat (constructor; [eapply Hr; [reflexivity|cbn; lia]|]). constructor.
Defined.

Lemma FixupLutOps_correct_witness :
  lut_ops_wf sample_program [sample_lut] /\
  exists b operations', FixupLutOps [sample_lut] = Ok (b, operations') /\
    Forall2 (fun op op' => equivalent sample_program op op' /\ _dst op' = _dst op /\ _locations op' = _locations op /\
      (isLut op = true -> fixed_point sample_program op') /\ (isLut op = false -> op' = op)) [sample_lut] operations' /\
    (b = false -> operations' = [sample_lut]).
Proof.
  assert (Hwf : lut_ops_wf sample_program [sample_lut]).
  { constructor; [|constructor]. intros _. exists sample_entries. exact sample_lut_wf. }
  split; [exact Hwf|]. exact (FixupLutOps_correct sample_program [sample_lut] Hwf).
Defined.

(** The literal bit is 1, the two [a] operands merge, and only [a] and [b] stay. *)
Example FixupLutOps_sample :
  FixupLutOps [sample_lut] =
    Ok (true, [mkOperation (LutOp (mkLut [fill_entry [(0%nat, 2)] 2; fill_entry [(1%nat, 1)] 2])) 0 ∅
                 [sample_reg 0; sample_reg 1] [sample_dst 2]]).
Proof. vm_compute. reflexivity. Qed.

(** ** [OptimizeLutOpt] *)

Lemma RemoveUnusedLoop_sound program fuel op es :
  lut_wf program op es -> (lutMeasure op < fuel)%nat ->
  exists op' es', RemoveUnusedLoop fuel op = Ok op' /\ lut_wf program op' es' /\ equivalent program op op' /\
    _dst op' = _dst op /\ _src op' = _src op /\ Forall2 (fun e e' => columns e' ⊆ columns e) es es' /\
    RemoveUnusedLutSourceRegisters op' = Ok (false, op').
Proof.
  revert op es; induction fuel as [|fuel IH]; intros op es H Hf; [lia|]. cbn [RemoveUnusedLoop].
  destruct (RemoveUnused_result program op es H) as (b & op1 & es1 & Hr & H1 & [S1 C1] & E1 & D1 & _ & M1).
  rewrite Hr. cbn [mbind result_bind]. destruct b.
  - destruct (IH op1 es1 H1) as (op' & es' & -> & H' & E' & D' & S' & C' & F'); [lia|].
    exists op', es'. split_and!; try done; [by etrans|congruence|congruence|].
    eapply Forall2_compose; [|exact C1|exact C']. intros x y z Hxy Hyz. set_solver.
  - subst op1. exists op, es1. by split_and!.
Qed.

Lemma OptimizeConstantEntry_sound e :
  entry_wf e -> exists e', OptimizeConstantEntry e = Ok e' /\ entry_wf e' /\ columns e' ⊆ columns e /\
    forall ρ, entry_val ρ e' = entry_val ρ e.
Proof.
  intros Hwf. pose proof Hwf as (Hn & Hi & Hb & Ht & Hc). unfold OptimizeConstantEntry.
  destruct (Nat.ltb_spec 0 (_numSources e)) as [Hpos|]; [|by exists e].
  pose proof (pow2_le_64 _ Hn) as Hp. rewrite shiftl_1_pow by lia. set (n := 2 ^ Z.of_nat (_numSources e)) in *.
  rewrite (assert_true (n <=? 64)) by (apply Z.leb_le; lia). cbn [mbind result_bind].
  assert (Hmask : (if n =? 64 then size_max else Z.shiftl 1 n - 1) = 2 ^ n - 1).
  { rewrite shiftl_1_pow by lia. destruct (Z.eqb_spec n 64) as [->|]; done. }
  rewrite Hmask. assert (Hland : Z.land (_table e) (2 ^ n - 1) = _table e).
  { rewrite Z.sub_1_r, <- Z.ones_equiv, Z.land_ones by lia. by apply Z.mod_small. }
  rewrite Hland. destruct ((_table e =? 2 ^ n - 1) || (_table e =? 0)) eqn:Hconst; [|by exists e].
  eexists; split; [done|]. split_and!.
  - unfold entry_wf, columns. cbn. split_and!; try done; try lia; destruct (_table e =? 0); by cbn.
  - unfold columns. cbn. set_solver.
  - intros ρ. unfold entry_val at 1, columns. cbn [_numSources _sourceIndices _sourceBit _table take fmap list_fmap bits_to_Z].
    unfold entry_val. pose proof (bits_to_Z_bound (ρ <$> columns e)) as Hbd. rewrite length_fmap, length_columns in Hbd by done.
    destruct (Z.eqb_spec (_table e) 0) as [->|Hne]; [by rewrite !Z.bits_0|].
    rewrite orb_false_r in Hconst. apply Z.eqb_eq in Hconst. rewrite Hconst.
    rewrite Z.sub_1_r, <- Z.ones_equiv, Z.ones_spec_low by (fold n in Hbd; lia). done.
Qed.

Lemma OptimizeLutOpt_sound program op es :
  lut_wf program op es ->
  exists op' es', OptimizeLutOpt (S (lutMeasure op)) op = Ok op' /\ lut_wf program op' es' /\
    equivalent program op op' /\ _dst op' = _dst op /\
    (if all_constant es' then _src op' = [] else _src op' = _src op) /\
    Forall2 (fun e e' => columns e' ⊆ columns e) es es'.
Proof.
  intros H. unfold OptimizeLutOpt.
  destruct (RemoveUnusedLoop_sound program (S (lutMeasure op)) op es H) as (op1 & es1 & -> & H1 & E1 & D1 & S1 & C1 & _);
    [lia|]. cbn [mbind result_bind]. rewrite (getLut_eq _ _ _ H1). cbn [mbind result_bind _lutEntries].
  destruct (mapM_exists OptimizeConstantEntry (fun e e' => entry_wf e' /\ columns e' ⊆ columns e /\
    forall ρ, entry_val ρ e' = entry_val ρ e) es1) as (es2 & -> & Hall).
  { intros e He. apply OptimizeConstantEntry_sound. pose proof (entries_wf _ _ _ H1) as Hwf.
    rewrite Forall_forall in Hwf. by apply Hwf. }
  cbn [mbind result_bind].
  assert (Hneeds : existsb (fun e => negb (_numSources e =? 0)%nat) es2 = negb (all_constant es2)).
  { unfold all_constant. clear. induction es2 as [|e es2 IH]; cbn; [done|]. rewrite IH. by rewrite negb_andb. }
  rewrite Hneeds. set (op2 := if negb (all_constant es2) then _ else _).
  assert (Hlen : length es2 = length es1) by (by erewrite <- Forall2_length).
  assert (Hsrc2 : _src op2 = if all_constant es2 then [] else _src op1) by (unfold op2; by destruct (all_constant es2)).
  assert (Hwf2 : lut_wf program op2 es2).
  { assert (Hfits : Forall (entry_fits (length (_src op2))) es2).
    { rewrite Hsrc2. pose proof (lut_entries _ _ _ H1) as Hes1. apply Forall_lookup. intros k e' He'.
      destruct (Forall2_lookup_r _ _ _ _ _ Hall He') as (e & He & Hwf & Hsub & _). split; [done|].
      destruct (all_constant es2) eqn:Hc.
      - unfold all_constant in Hc. rewrite forallb_forall in Hc.
        assert (Hn : _numSources e' = 0%nat) by (apply Nat.eqb_eq, Hc, list_elem_of_In; by eapply list_elem_of_lookup_2).
        unfold columns. rewrite Hn. constructor.
      - destruct (Forall_lookup_1 _ _ _ _ Hes1 He) as [_ Hlt]. rewrite Forall_forall in Hlt |- *.
        intros c Hcin. by apply Hlt, Hsub. }
    destruct H1 as [? ? ? Hs ? ? ?]. unfold op2 in *. destruct (all_constant es2); constructor; try done; cbn; by rewrite ?Hlen. }
  exists op2, es2. split; [done|]. split; [exact Hwf2|]. split_and!.
  - etrans; [exact E1|]. eapply equivalent_lut; [exact H1|exact Hwf2|]. intros σ.
    apply Forall2_same_length_lookup_2; [done|]. intros k e e' He He'.
    destruct (Forall2_lookup_lr _ _ _ _ _ _ Hall He He') as (_ & _ & Hv).
    destruct (all_constant es2) eqn:Hc; [|rewrite Hv; done].
    unfold all_constant in Hc. rewrite forallb_forall in Hc.
    assert (Hn : _numSources e' = 0%nat) by (apply Nat.eqb_eq, Hc, list_elem_of_In; by eapply list_elem_of_lookup_2).
    rewrite <- Hv. unfold entry_val, columns. by rewrite Hn.
  - unfold op2. by destruct (all_constant es2).
  - rewrite Hsrc2. by destruct (all_constant es2).
  - eapply Forall2_compose; [|exact C1|exact Hall]. intros e e1 e' Hs1 (_ & Hs2 & _). set_solver.
Qed.

(** [OptimizeLutOpt] terminates without an error, preserves the value of the
    operation, and its unused-register loop runs to a fixed point; when no
    column is left the operands are dropped. *)
Theorem OptimizeLutOpt_correct program op es :
  lut_wf program op es ->
  exists op' es', OptimizeLutOpt (S (lutMeasure op)) op = Ok op' /\ lut_wf program op' es' /\
    equivalent program op op' /\ _dst op' = _dst op /\
    (if all_constant es' then _src op' = [] else _src op' = _src op) /\
    Forall2 (fun e e' => columns e' ⊆ columns e) es es'.
Proof. apply OptimizeLutOpt_sound. Qed.

Lemma OptimizeLutOpt_correct_witness :
  lut_wf sample_program sample_lut sample_entries /\
  exists op' es', OptimizeLutOpt (S (lutMeasure sample_lut)) sample_lut = Ok op' /\ lut_wf sample_program op' es' /\
    equivalent sample_program sample_lut op' /\ _dst op' = _dst sample_lut /\
    (if all_constant es' then _src op' = [] else _src op' = _src sample_lut) /\
    Forall2 (fun e e' => columns e' ⊆ columns e) sample_entries es'.
Proof.
  split; [exact sample_lut_wf|]. exact (OptimizeLutOpt_correct sample_program sample_lut sample_entries sample_lut_wf).
Defined.

End LutFixup.
