(* ===== verification/LutLower.v ===== *)
(** * Conversion of operations into look-up tables

    [optimize_lut.cpp]: [GetSourceOperandDescriptions],
    [ConvertPointwiseOpToLut], [ConvertShiftOpToLut], [ConvertBinaryOpToLut],
    [ConvertSelectOpToLut], [ConvertGatherOpToLut] and [LowerToLut].

    An [AllocateLutFn] returns a zero-initialised array of its own, which is
    filled in and stored in the operation: here a list of entries.  [Convert*]
    takes an [Operation&]; a version that can leave it alone returns it. *)

From S2P Require Import Prelude MachineInt Literals Ir LutOpt.
Import MachineInt Literals Ir LutOpt.

Module LutLower.

(** [op._opcode = Opcode::Lut; op._flags._lut = lut; op._signExtendSourceMask = 0] *)
Definition set_lut (op : Operation) (es : list LutEntry) : Operation :=
  mkOperation (LutOp (mkLut es)) 0 (_locations op) (_src op) (_dst op).

Record LutSourceDesc : Type := mkLutSourceDesc { _isLiteral : bool; _literalVal : Z; _srcBitIndex : Z }.

Definition GetSourceOperandDescription (program : Program) (op : Operation) (srcIdx : Z) (srcOperandIndex : nat)
    : result LutSourceDesc :=
  srcOperand ← at_ (_src op) srcOperandIndex;
  if isLiteral srcOperand then
    v ← GetLiteralBit op srcOperandIndex srcIdx; Ok (mkLutSourceDesc true v 0)
  else
    srcWidth ← SourceOperand_Width program srcOperand;
    assert_ (0 <? srcWidth);;
    if srcIdx <? srcWidth then Ok (mkLutSourceDesc false 0 srcIdx)
    else
      s ← ShouldSignExtend op srcOperandIndex;
      Ok (if s : bool then mkLutSourceDesc false 0 (srcWidth - 1) else mkLutSourceDesc true 0 0).

Definition GetSourceOperandDescriptions (program : Program) (op : Operation) (srcIdx : Z) : result (list LutSourceDesc) :=
  mapM_ (GetSourceOperandDescription program op srcIdx) (seq 0 (length (_src op))).

(** The (operand, bit) columns of the operands that are not literal; the
    operands are numbered from [k]. *)
Definition descColumns (k : nat) (sourceDescs : list LutSourceDesc) : list (nat * Z) :=
  fold_left (fun acc p => if _isLiteral p.2 then acc else acc ++ [(p.1, _srcBitIndex p.2)])
    (zip (seq k (length sourceDescs)) sourceDescs) [].

(** ** [ConvertPointwiseOpToLut] *)

(** The value of operand [p.1] in row [row] of the new table, stored at bit
    [p.1]; [numSources] counts the operands that are not literal. *)
Definition descStep (row : Z) (st : Z * Z) (p : nat * LutSourceDesc) : result (Z * Z) :=
  let '(bits, numSources) := st in
  let val := if _isLiteral p.2 then _literalVal p.2 else Z.land (Z.shiftr row numSources) 1 in
  assert_ (val <? 2);;
  Ok (Z.lor bits (u64_shl val (Z.of_nat p.1)), if _isLiteral p.2 then numSources else numSources + 1).

Definition inputTableIndex (sourceDescs : list LutSourceDesc) (outputTableIndex : Z) : result Z :=
  r ← foldM (descStep outputTableIndex) (zip (seq 0 (length sourceDescs)) sourceDescs) (0, 0);
  Ok r.1.

Definition PointwiseEntry (program : Program) (op : Operation) (inputTable : Z) (dstIdx : Z) : result LutEntry :=
  sourceDescs ← GetSourceOperandDescriptions program op dstIdx;
  let columns := descColumns 0 sourceDescs in
  assert_ (length columns <=? c_maxLutSources)%nat;;
  let lutSize := Z.shiftl 1 (Z.of_nat (length columns)) in
  outputTable ← foldM (fun outputTable outputTableIndex =>
      index ← inputTableIndex sourceDescs outputTableIndex;
      let inputVal := Z.land (Z.shiftr inputTable index) 1 in
      Ok (Z.lor outputTable (u64_shl inputVal outputTableIndex)))
    (seqZ 0 lutSize) 0;
  Ok (fill_entry columns outputTable).

Definition ConvertPointwiseOpToLut (program : Program) (op : Operation) (inputTable : Z) : result Operation :=
  assert_ (length (_dst op) =? 1)%nat;;
  w ← dstWidth program op;
  assert_ (length (_src op) <=? c_maxLutSources)%nat;;
  es ← mapM_ (PointwiseEntry program op inputTable) (seqZ 0 w);
  Ok (set_lut op es).

(** ** [ConvertShiftOpToLut] *)

(** The source bit of destination bit [dstIdx], [None] when [outputIsConst] *)
Definition shiftSourceBit (type : ParseTreeBinaryOpType) (lhsSigned : bool) (srcWidth shiftAmount dstIdx : Z)
    : result (option Z) :=
  match type with
  | ParseTreeBinaryOpTypeShl =>
      Ok (if dstIdx <? shiftAmount then None
          else if u64_add srcWidth shiftAmount <=? dstIdx then
            if lhsSigned then Some (srcWidth - 1) else None
          else Some (dstIdx - shiftAmount))
  | ParseTreeBinaryOpTypeShr =>
      Ok (if shiftAmount <=? srcWidth then
            let srcWidthMinusShift := srcWidth - shiftAmount in
            if lhsSigned then
              Some (if srcWidthMinusShift <=? dstIdx then srcWidth - 1 else dstIdx + shiftAmount)
            else if srcWidthMinusShift <=? dstIdx then None else Some (dstIdx + shiftAmount)
          else if lhsSigned then Some (srcWidth - 1) else None)
  | _ => Err AssertionFailed
  end.

Definition ShiftEntry (type : ParseTreeBinaryOpType) (lhsSigned : bool) (srcWidth shiftAmount dstIdx : Z)
    : result LutEntry :=
  b ← shiftSourceBit type lhsSigned srcWidth shiftAmount dstIdx;
  match b with
  | None => Ok (fill_entry [] 0)
  | Some srcBit => assert_ (srcBit <? srcWidth);; Ok (fill_entry [(0%nat, srcBit)] 2)
  end.

Definition ConvertShiftOpToLut (program : Program) (op : Operation) (type : ParseTreeBinaryOpType)
    : result Operation :=
  assert_ (length (_src op) =? 2)%nat;;
  assert_ (length (_dst op) =? 1)%nat;;
  src0 ← at_ (_src op) 0;
  src1 ← at_ (_src op) 1;
  lhsSigned ← ShouldSignExtend op 0;
  rhsSigned ← ShouldSignExtend op 1;
  assert_ (negb rhsSigned);;
  if negb (isLiteral src0) && isLiteral src1 then
    l ← GetLiteral src1;
    shiftAmount ← MpToSizeT (_value l);
    srcWidth ← SourceOperand_Width program src0;
    w ← dstWidth program op;
    es ← mapM_ (ShiftEntry type lhsSigned srcWidth shiftAmount) (seqZ 0 w);
    Ok (set_lut op es)
  else Ok op.

(** ** [ConvertBinaryOpToLut] *)

(** The literal that a source stands for in row [outputTableIndex], and the
    offset after it *)
Definition rowLiteral (program : Program) (outputTableIndex outputTableOffset : Z) (srcOp : SourceOperand)
    : result (Literal * Z) :=
  match srcOp with
  | SrcLiteral l => Ok (l, outputTableOffset)
  | _ =>
      srcWidth ← SourceOperand_Width program srcOp;
      let mask := u64_sub (u64_shl 1 srcWidth) 1 in
      Ok (mkLiteral (Z.land (Z.shiftr outputTableIndex outputTableOffset) mask) srcWidth,
          u64_add outputTableOffset srcWidth)
  end.

(** [resultTable[outputTableIndex]] *)
Definition rowResult (program : Program) (op : Operation) (type : ParseTreeBinaryOpType) (inputBitCount w : Z)
    (outputTableIndex : Z) : result Z :=
  src0 ← at_ (_src op) 0;
  src1 ← at_ (_src op) 1;
  '(val0, offset) ← rowLiteral program outputTableIndex 0 src0;
  '(val1, offset) ← rowLiteral program outputTableIndex offset src1;
  assert_ (offset =? inputBitCount);;
  s0 ← ShouldSignExtend op 0;
  s1 ← ShouldSignExtend op 1;
  ImplementBinaryOp val0 val1 w s0 s1 type.

Definition binaryColumns (program : Program) (op : Operation) : result (list (nat * Z)) :=
  foldM (fun acc srcOpIdx =>
      srcOp ← at_ (_src op) srcOpIdx;
      match srcOp with
      | SrcRegister r =>
          srcOpWidth ← registerWidth program (_registerIndex r);
          Ok (acc ++ (pair srcOpIdx <$> seqZ 0 srcOpWidth))
      | _ => Ok acc
      end) [0%nat; 1%nat] [].

Definition BinaryEntry (columns : list (nat * Z)) (inputBitCount : Z) (resultTable : list Z) (dstIdx : Z)
    : result LutEntry :=
  assert_ (Z.of_nat (length columns) =? inputBitCount);;
  table ← foldM (fun table p =>
      b ← bit_test p.2 dstIdx;
      assert_ (p.1 <? 64)%nat;;
      Ok (Z.lor table (u64_shl (Z.b2z b) (Z.of_nat p.1))))
    (zip (seq 0 (length resultTable)) resultTable) 0;
  Ok (fill_entry columns table).

Definition inputBits (program : Program) (op : Operation) : result Z :=
  foldM (fun inputBitCount srcOp =>
      match srcOp with
      | SrcRegister r => w ← registerWidth program (_registerIndex r); Ok (u64_add inputBitCount w)
      | _ => Ok inputBitCount
      end) (_src op) 0.

Definition ConvertBinaryOpToLut (program : Program) (op : Operation) (type : ParseTreeBinaryOpType)
    : result Operation :=
  assert_ (length (_src op) =? 2)%nat;;
  assert_ (length (_dst op) =? 1)%nat;;
  inputBitCount ← inputBits program op;
  w ← dstWidth program op;
  if inputBitCount <=? Z.of_nat c_maxLutSources then
    let outputTableSize := Z.shiftl 1 inputBitCount in
    resultTable ← mapM_ (rowResult program op type inputBitCount w) (seqZ 0 outputTableSize);
    columns ← binaryColumns program op;
    es ← mapM_ (BinaryEntry columns inputBitCount resultTable) (seqZ 0 w);
    Ok (set_lut op es)
  else Ok op.

(** ** [ConvertSelectOpToLut] *)

(** Choice [i] (from 1) contributes bit [i - 1] of [choiceBits]. *)
Definition choiceStep (numIndexBits outputValue : Z) (st : Z * Z) (p : nat * LutSourceDesc) : Z * Z :=
  let '(choiceBits, numSources) := st in
  let choiceBit := if _isLiteral p.2 then _literalVal p.2
                   else Z.land (Z.shiftr outputValue (numSources + numIndexBits)) 1 in
  (Z.lor choiceBits (u64_shl choiceBit (Z.of_nat p.1 - 1)), if _isLiteral p.2 then numSources else numSources + 1).

(** The entry of one destination bit; [None] when there are too many sources *)
Definition SelectEntry (program : Program) (op : Operation) (numChoices numIndexBits dstIdx : Z)
    : result (option LutEntry) :=
  sourceDescs ← GetSourceOperandDescriptions program op dstIdx;
  let choices := tail sourceDescs in
  let columns := (pair 0%nat <$> seqZ 0 numIndexBits) ++ descColumns 1 choices in
  if (c_maxLutSources <? length columns)%nat then Ok None
  else
    let outputTableSize := Z.shiftl 1 (Z.of_nat (length columns)) in
    let indexMask := Z.shiftl 1 numIndexBits - 1 in
    outputTable ← foldM (fun outputTable outputValue =>
        let index := Z.land outputValue indexMask in
        assert_ (index <? numChoices);;
        let choiceBits := fst (fold_left (choiceStep numIndexBits outputValue)
                                 (zip (seq 1 (length choices)) choices) (0, 0)) in
        let outputBit := Z.land (Z.shiftr choiceBits index) 1 in
        Ok (Z.lor outputTable (u64_shl outputBit outputValue)))
      (seqZ 0 outputTableSize) 0;
    Ok (Some (fill_entry columns outputTable)).

(** The loop over destination bits, which returns early *)
Fixpoint SelectEntries (program : Program) (op : Operation) (numChoices numIndexBits : Z) (dstIdxs : list Z)
    : result (option (list LutEntry)) :=
  match dstIdxs with
  | [] => Ok (Some [])
  | dstIdx :: dstIdxs =>
      e ← SelectEntry program op numChoices numIndexBits dstIdx;
      match e with
      | None => Ok None
      | Some e =>
          es ← SelectEntries program op numChoices numIndexBits dstIdxs;
          Ok (match es with Some es => Some (e :: es) | None => None end)
      end
  end.

Definition ConvertSelectOpToLut (program : Program) (op : Operation) : result Operation :=
  assert_ (length (_dst op) =? 1)%nat;;
  src0 ← at_ (_src op) 0;
  if isRegister src0 then
    let numChoices := Z.of_nat (length (_src op)) - 1 in
    assert_ (IsPow2 numChoices);;
    numIndexBits ← Log2 numChoices;
    indexWidth ← SourceOperand_Width program src0;
    assert_ (numIndexBits <=? indexWidth);;
    w ← dstWidth program op;
    es ← SelectEntries program op numChoices numIndexBits (seqZ 0 w);
    match es with Some es => Ok (set_lut op es) | None => Ok op end
  else Ok op.

(** ** [ConvertGatherOpToLut] *)

(** One bit of source [i]: the fields of the destination entry that are
    assigned; a second assignment to an entry overwrites the first. *)
Definition gatherBit (op : Operation) (i : nat) (isLiteral : bool) (gatherEntry : GatherEntry) (w : Z)
    (es : list LutEntry) (j : Z) : result (list LutEntry) :=
  let srcBit := u64_add (_sourceOffset gatherEntry) j in
  let dstBit := u64_add (_destOffset gatherEntry) j in
  assert_ (dstBit <? w);;
  lutEntry ← at_ es (Z.to_nat dstBit);
  e ← (if isLiteral then
         v ← GetLiteralBit op i srcBit;
         Ok (mkLutEntry 0 (_sourceIndices lutEntry) (_sourceBit lutEntry) v)
       else
         Ok (mkLutEntry 1 (<[0%nat := i]> (_sourceIndices lutEntry)) (<[0%nat := srcBit]> (_sourceBit lutEntry)) 2));
  Ok (<[Z.to_nat dstBit := e]> es).

Definition ConvertGatherOpToLut (program : Program) (op : Operation) (gatherEntries : list GatherEntry)
    : result Operation :=
  assert_ (length (_dst op) =? 1)%nat;;
  assert_ (length gatherEntries =? length (_src op))%nat;;
  w ← dstWidth program op;
  es ← foldM (fun es i =>
      gatherEntry ← at_ gatherEntries i;
      srcOp ← at_ (_src op) i;
      foldM (gatherBit op i (isLiteral srcOp) gatherEntry w) (seqZ 0 (_numBits gatherEntry)) es)
    (seq 0 (length (_src op))) (replicate (Z.to_nat w) LutEntry_zero);
  Ok (set_lut op es).

(** ** [LowerToLut] *)

(** [assert(n == op._src.size()); assert(1 == op._dst.size())] *)
Definition assert_arity (n : nat) (op : Operation) : result unit :=
  assert_ (length (_src op) =? n)%nat;; assert_ (length (_dst op) =? 1)%nat.

Definition LowerBinaryOp (program : Program) (op : Operation) (type : ParseTreeBinaryOpType) : result Operation :=
  assert_arity 2 op;;
  op ← match type with
       | ParseTreeBinaryOpTypeAnd => ConvertPointwiseOpToLut program op 8
       | ParseTreeBinaryOpTypeOr => ConvertPointwiseOpToLut program op 14
       | ParseTreeBinaryOpTypeXor => ConvertPointwiseOpToLut program op 6
       | ParseTreeBinaryOpTypeShl | ParseTreeBinaryOpTypeShr => ConvertShiftOpToLut program op type
       | _ => Ok op
       end;
  if isLut op then Ok op else ConvertBinaryOpToLut program op type.

Definition clear_mask (op : Operation) : Operation := mkOperation (_opcode op) 0 (_locations op) (_src op) (_dst op).

Definition LowerToLut (program : Program) (op : Operation) : result (bool * Operation) :=
  assert_ (CanOpcodeBeLoweredToLut (_opcode op));;
  op ← match _opcode op with
       | Mov => assert_arity 1 op;; ConvertPointwiseOpToLut program op 2
       | Clear => assert_arity 0 op;; ConvertPointwiseOpToLut program op 0
       | UnaryOp t =>
           assert_arity 1 op;;
           assert_ (bool_decide (t = ParseTreeUnaryOpTypeInvert));;
           ConvertPointwiseOpToLut program op 1
       | BinaryOp t => LowerBinaryOp program op t
       | Select => ConvertSelectOpToLut program op
       | Gather entries => ConvertGatherOpToLut program op entries
       | LutOp _ => Ok op
       | _ => Err AssertionFailed
       end;
  let op := if isLut op then clear_mask op else op in
  Ok (isLut op, op).

End LutLower.
