(* ===== verification/LutLowerFacts.v ===== *)
(** * The conversions into look-up tables are correct

    Every destination bit of a converted operation is the corresponding bit of
    the integer that the operation computes. *)

From S2P Require Import Prelude MachineInt Literals Ir LutOpt LutFacts Semantics LutLower.
Import MachineInt Literals Ir LutOpt LutFacts LutCofactor Semantics LutPasses LutConst LutLower.

Module LutLowerFacts.

(** ** The operation that a conversion leaves *)

(** The operands of a LUT operation are not sign-extended. *)
Definition srcBits (program : Program) (σ : nat -> Z) (op : Operation) (i : nat) : Z :=
  match _src op !! i with Some o => operandInt program σ false o | None => 0 end.

Lemma srcInt_set_lut program σ op es i : srcInt program σ (set_lut op es) i = srcBits program σ op i.
Proof. unfold srcInt, srcBits. cbn. by rewrite signExtends_mask0. Qed.

Lemma entry_val_ext ρ ρ' e : (forall c, ρ c = ρ' c) -> entry_val ρ e = entry_val ρ' e.
Proof. intros H. unfold entry_val. do 2 f_equal. by apply list_fmap_ext. Qed.

(** Entry [k] computes bit [k] of the integer [v]. *)
Definition entry_computes (program : Program) (op : Operation) (v : (nat -> Z) -> Z) (k : Z) (e : LutEntry) : Prop :=
  entry_fits (length (_src op)) e /\
  forall σ, entry_val (bit_of (srcBits program σ op)) e = Z.testbit (v σ) k.

Lemma set_lut_correct program op w es v :
  op_wf program op -> dstWidth program op = Ok w -> (forall σ, opInt program σ op = Some (v σ)) ->
  Forall2 (entry_computes program op v) (seqZ 0 w) es ->
  lut_wf program (set_lut op es) es /\ equivalent program op (set_lut op es).
Proof.
  intros [Hsrc _ _ (d & w' & Hd & Hw & Hwb)] Hdw Hv Hes. rewrite Hdw in Hw. injection Hw as <-.
  pose proof (Forall2_length _ _ _ Hes) as Hlen. rewrite length_seqZ in Hlen.
  assert (Hwf : lut_wf program (set_lut op es) es).
  { constructor; try done.
    - apply Forall_forall. intros e He. apply list_elem_of_lookup in He as (k & He).
      by destruct (Forall2_lookup_r _ _ _ _ _ Hes He) as (? & _ & Hfit & _).
    - cbn. by rewrite Hd.
    - transitivity (dstWidth program op); [done|]. rewrite Hdw. f_equal. lia.
    - lia. }
  split; [exact Hwf|]. intros σ. rewrite (opValue_lut _ _ _ _ Hwf). unfold opValue. rewrite Hdw, Hv. cbn. f_equal.
  unfold lut_val. replace w with (Z.of_nat (Z.to_nat w)) by lia. rewrite <- bits_to_Z_mod. f_equal.
  unfold Z_to_bits. apply list_eq. intros k. rewrite !list_lookup_fmap.
  destruct (decide (k < Z.to_nat w)%nat) as [Hk|Hk].
  - destruct (lookup_lt_is_Some_2 es k) as [e He]; [lia|]. rewrite He, lookup_seq_lt by done. cbn. f_equal.
    destruct (Forall2_lookup_r _ _ _ _ _ Hes He) as (k' & Hk' & _ & Hval).
    apply lookup_seqZ in Hk' as [-> _]. rewrite <- Hval. apply entry_val_ext. intros c.
    unfold bit_of. by rewrite srcInt_set_lut.
  - rewrite !lookup_ge_None_2; [done|rewrite length_seq; lia|lia].
Qed.

(** ** [GetSourceOperandDescriptions] *)

(** How a description gives bit [k] of operand [i] *)
Definition describes (program : Program) (op : Operation) (k : Z) (i : nat) (d : LutSourceDesc) : Prop :=
  if _isLiteral d then exists b, _literalVal d = Z.b2z b /\ forall σ, Z.testbit (srcInt program σ op i) k = b
  else 0 <= _srcBitIndex d < 2 ^ 32 /\
    forall σ, Z.testbit (srcBits program σ op i) (_srcBitIndex d) = Z.testbit (srcInt program σ op i) k.

Lemma SourceOperand_Width_register program r d :
  _registerTable program !! _registerIndex r = Some d ->
  SourceOperand_Width program (SrcRegister r) = Ok (_regWidth d).
Proof. intros H. cbn. unfold registerWidth. by rewrite (at_Some _ _ _ H). Qed.

Lemma GetSourceOperandDescription_eq program op k i :
  op_wf program op -> (i < length (_src op))%nat -> 0 <= k < 2 ^ 32 ->
  exists d, GetSourceOperandDescription program op k i = Ok d /\ describes program op k i d.
Proof.
  intros [Hsrc H64 _ _] Hi Hk. destruct (lookup_lt_is_Some_2 _ _ Hi) as [o Ho].
  pose proof (Forall_lookup_1 _ _ _ _ Hsrc Ho) as Howf.
  unfold GetSourceOperandDescription. rewrite (at_Some _ _ _ Ho). cbn [mbind result_bind].
  pose proof (ShouldSignExtend_eq op i Hi ltac:(lia)) as Hse.
  destruct o as [l|r| |]; try done; cbn [isLiteral].
  - destruct Howf as [Hl _]. rewrite (GetLiteralBit_eq _ _ _ _ _ Ho Hl Hse Hk). cbn.
    eexists; split; [done|]. cbn. eexists; split; [done|]. intros σ. by rewrite (srcInt_lookup _ _ _ _ _ Ho).
  - destruct Howf as (d & Hd & Hw). rewrite (SourceOperand_Width_register _ _ _ Hd). cbn [mbind result_bind].
    rewrite assert_true by (apply Z.ltb_lt; lia). cbn [mbind result_bind]. rewrite Hse.
    set (l := fun σ => mkLiteral (σ (_registerIndex r) mod 2 ^ _regWidth d) (_regWidth d)).
    assert (Hl : forall σ, lit_wf (l σ)).
    { intros σ. unfold lit_wf, l. cbn. split; [lia|]. apply Z.mod_pos_bound, Z.pow_pos_nonneg; lia. }
    assert (Hs : forall σ s, operandInt program σ s (SrcRegister r) = lit_int (l σ) s).
    { intros σ s. unfold operandInt, operandLiteral. by rewrite Hd. }
    assert (Hsi : forall σ, srcInt program σ op i = lit_int (l σ) (signExtends op i)).
    { intros σ. by rewrite (srcInt_lookup _ _ _ _ _ Ho). }
    assert (Hsb : forall σ, srcBits program σ op i = _value (l σ)).
    { intros σ. unfold srcBits. rewrite Ho, Hs. apply lit_int_false. }
    assert (Hbit : forall σ, Z.testbit (srcInt program σ op i) k = if k <? _regWidth d then Z.testbit (_value (l σ)) k
                             else signExtends op i && Z.testbit (_value (l σ)) (_regWidth d - 1)).
    { intros σ. rewrite Hsi, testbit_lit_int by (done || lia). done. }
    destruct (k <? _regWidth d) eqn:Hkw.
    + bool_to_prop. eexists; split; [done|]. unfold describes. cbn. split; [lia|]. intros σ. by rewrite Hbit, Hsb.
    + destruct (signExtends op i) eqn:Hx; cbn; (eexists; split; [done|]); unfold describes; cbn.
      * split; [lia|]. intros σ. by rewrite Hbit, Hsb.
      * exists false. split; [done|]. intros σ. by rewrite Hbit.
Qed.

Lemma GetSourceOperandDescriptions_eq program op k :
  op_wf program op -> 0 <= k < 2 ^ 32 ->
  exists ds, GetSourceOperandDescriptions program op k = Ok ds /\
    Forall2 (describes program op k) (seq 0 (length (_src op))) ds.
Proof.
  intros Hwf Hk. apply mapM_exists. intros i Hi%elem_of_seq. apply GetSourceOperandDescription_eq; (done || lia).
Qed.

(** ** Rows *)

Definition desc_val (d : LutSourceDesc) : option Z := if _isLiteral d then Some (_literalVal d) else None.

Lemma descColumns_eq k ds :
  descColumns k ds = keep (desc_val <$> ds) (zip (seq k (length ds)) (_srcBitIndex <$> ds)).
Proof.
  unfold descColumns.
  assert (Hgen : forall acc, fold_left (fun acc p => if _isLiteral p.2 then acc else acc ++ [(p.1, _srcBitIndex p.2)])
    (zip (seq k (length ds)) ds) acc = acc ++ keep (desc_val <$> ds) (zip (seq k (length ds)) (_srcBitIndex <$> ds))).
  { revert k. induction ds as [|d ds IH]; intros k acc; [by rewrite app_nil_r|].
    cbn [length seq zip zip_with fold_left fst snd]. rewrite IH, !fmap_cons.
    assert (Hd : desc_val d = if _isLiteral d then Some (_literalVal d) else None) by done. rewrite Hd.
    destruct (_isLiteral d); cbn [keep zip zip_with]; [done|]. by rewrite <- app_assoc. }
  apply Hgen.
Qed.

Definition desc_known (d : LutSourceDesc) : Prop := _isLiteral d = true -> exists b, _literalVal d = Z.b2z b.

Lemma lor_bit_snoc acc b : (length acc < 64)%nat ->
  Z.lor (bits_to_Z acc) (u64_shl (Z.b2z b) (Z.of_nat (length acc))) = bits_to_Z (acc ++ [b]).
Proof.
  intros H. rewrite u64_shl_bit by lia. rewrite bits_to_Z_app. destruct b; cbn [Z.b2z].
  - rewrite lor_shiftl_add; [done|lia|apply bits_to_Z_bound].
  - rewrite Z.lor_0_r. lia.
Qed.

Lemma head_of_drop {A} n (l : list A) : head (drop n l) = l !! n.
Proof. by rewrite head_lookup, lookup_drop, Nat.add_0_r. Qed.

Lemma tail_of_drop {A} n (l : list A) : tail (drop n l) = drop (S n) l.
Proof. revert l; induction n as [|n IH]; intros [|a l]; cbn; done. Qed.

(** The loop that assembles the bits of the operands in a row *)
Lemma desc_loop base off (l : list bool) ds acc j :
  Forall desc_known ds -> (length acc + length ds <= 64)%nat -> 0 <= off -> 0 <= j ->
  fst (fold_left (fun '(bits, numSources) p =>
      (Z.lor bits (u64_shl (if _isLiteral p.2 then _literalVal p.2
                            else Z.land (Z.shiftr (bits_to_Z l) (numSources + off)) 1) (Z.of_nat p.1 - Z.of_nat base)),
       if _isLiteral p.2 then numSources else numSources + 1))
    (zip (seq (base + length acc) (length ds)) ds) (bits_to_Z acc, j))
  = bits_to_Z (acc ++ merge (desc_val <$> ds) (drop (Z.to_nat (j + off)) l)).
Proof.
  intros Hk Hlen Hoff. revert acc j Hlen. induction Hk as [|d ds Hd _ IH]; intros acc j Hlen Hj; cbn [length] in Hlen.
  - cbn. by rewrite app_nil_r.
  - cbn [length seq zip zip_with fold_left fst snd]. rewrite Nat2Z.inj_add.
    replace (Z.of_nat base + Z.of_nat (length acc) - Z.of_nat base) with (Z.of_nat (length acc)) by lia.
    rewrite fmap_cons.
    assert (Hdv : desc_val d = if _isLiteral d then Some (_literalVal d) else None) by done. rewrite Hdv.
    assert (Hsnoc : forall b, S (base + length acc) = (base + length (acc ++ [b]))%nat)
      by (intros; rewrite length_app; cbn; lia).
    destruct (_isLiteral d) eqn:Hl.
    + destruct (Hd Hl) as (b & ->). rewrite lor_bit_snoc by lia. rewrite (Hsnoc b), IH by (rewrite ?length_app; cbn; lia).
      cbn [merge]. rewrite <- app_assoc. cbn. do 2 f_equal. by destruct b.
    + rewrite land_shiftr_1, lor_bit_snoc by lia. rewrite (Hsnoc (Z.testbit (bits_to_Z l) (j + off))), IH
        by (rewrite ?length_app; cbn; lia).
      cbn [merge]. rewrite <- app_assoc. cbn. do 2 f_equal. rewrite testbit_bits_to_Z_nonneg by lia.
      replace (Z.to_nat (j + 1 + off)) with (S (Z.to_nat (j + off))) by lia.
      by rewrite head_of_drop, tail_of_drop.
Qed.

Lemma describes_known program op k ns ds : Forall2 (describes program op k) ns ds -> Forall desc_known ds.
Proof.
  induction 1 as [|i d ns ds Hd _ IH]; constructor; [|done]. intros Hl. unfold describes in Hd. rewrite Hl in Hd.
  destruct Hd as (b & ? & _). by exists b.
Qed.

Lemma describes_merge program op k k0 n ds σ :
  Forall2 (describes program op k) (seq k0 n) ds ->
  merge (desc_val <$> ds) (bit_of (srcBits program σ op) <$> descColumns k0 ds)
  = (fun i => Z.testbit (srcInt program σ op i) k) <$> seq k0 n.
Proof.
  intros Hds. pose proof (Forall2_length _ _ _ Hds) as Hlen. rewrite length_seq in Hlen. subst n.
  rewrite descColumns_eq.
  erewrite (merge_keep _ (fun c => Z.testbit (srcInt program σ op c.1) k)).
  - change (fun c : nat * Z => Z.testbit (srcInt program σ op c.1) k)
      with ((fun i => Z.testbit (srcInt program σ op i) k) ∘ (fst (A := nat) (B := Z))).
    rewrite list_fmap_compose, fst_zip; [done|]. by rewrite length_fmap, length_seq.
  - revert k0 Hds. induction ds as [|d ds IH]; intros k0 Hds; [constructor|]. cbn in *.
    inversion_clear Hds as [|???? Hd Hds']. constructor; [|by apply IH].
    unfold describes in Hd. unfold desc_val, bit_of. cbn. destruct (_isLiteral d).
    + destruct Hd as (b & -> & Hb). rewrite Hb. by destruct b.
    + by destruct Hd as [_ ->].
Qed.

Lemma descColumns_fit program op k k0 n ds :
  Forall2 (describes program op k) (seq k0 n) ds ->
  Forall (fun c => 0 <= c.2 < 2 ^ 32 /\ (k0 <= c.1 < k0 + n)%nat) (descColumns k0 ds) /\
  (length (descColumns k0 ds) <= n)%nat.
Proof.
  intros Hds. pose proof (Forall2_length _ _ _ Hds) as Hlen. rewrite length_seq in Hlen. subst n.
  rewrite descColumns_eq. revert k0 Hds. induction ds as [|d ds IH]; intros k0 Hds; [split; [constructor|cbn; lia]|].
  cbn in *. inversion_clear Hds as [|???? Hd Hds']. destruct (IH (S k0) Hds') as [Hf Hl].
  assert (Hdv : desc_val d = if _isLiteral d then Some (_literalVal d) else None) by done. rewrite Hdv.
  unfold describes in Hd. destruct (_isLiteral d); cbn [keep length].
  - split; [|lia]. eapply Forall_impl; [exact Hf|]. cbn. lia.
  - split; [|lia]. destruct Hd as [Hb _]. constructor; [cbn; lia|]. eapply Forall_impl; [exact Hf|]. cbn. lia.
Qed.

(** ** [ConvertPointwiseOpToLut] *)

Lemma inputTableIndex_eq ds l :
  Forall desc_known ds -> (length ds <= 64)%nat ->
  inputTableIndex ds (bits_to_Z l) = Ok (bits_to_Z (merge (desc_val <$> ds) l)).
Proof.
  intros Hk Hlen. unfold inputTableIndex.
  rewrite (foldM_Ok _ (fun '(bits, numSources) p =>
      (Z.lor bits (u64_shl (if _isLiteral p.2 then _literalVal p.2
                            else Z.land (Z.shiftr (bits_to_Z l) (numSources + 0)) 1) (Z.of_nat p.1 - Z.of_nat 0)),
       if _isLiteral p.2 then numSources else numSources + 1))).
  - cbn [mbind result_bind]. f_equal. apply (desc_loop 0 0 l ds [] 0); (done || lia).
  - intros [bits n] [i d] Hin. unfold descStep. cbn [fst snd]. rewrite Z.add_0_r, Z.sub_0_r.
    rewrite assert_true; [done|]. apply Z.ltb_lt. destruct (_isLiteral d) eqn:Hl.
    + assert (Hd : d ∈ ds) by (apply elem_of_zip_r in Hin; done). rewrite Forall_forall in Hk.
      destruct (Hk d Hd Hl) as (b & ->). by destruct b.
    + change 1 with (Z.ones 1). rewrite Z.land_ones by lia. by apply Z.mod_pos_bound.
Qed.

Lemma PointwiseEntry_eq program op table k :
  op_wf program op -> (length (_src op) <= c_maxLutSources)%nat -> 0 <= k < 2 ^ 32 ->
  exists e, PointwiseEntry program op table k = Ok e /\ entry_fits (length (_src op)) e /\
    forall σ, entry_val (bit_of (srcBits program σ op)) e =
      Z.testbit table (bits_to_Z ((fun i => Z.testbit (srcInt program σ op i) k) <$> seq 0 (length (_src op)))).
Proof.
  intros Hwf H6 Hk. destruct (GetSourceOperandDescriptions_eq program op k Hwf Hk) as (ds & Heq & Hds).
  pose proof (Forall2_length _ _ _ Hds) as Hlen. rewrite length_seq in Hlen.
  destruct (descColumns_fit _ _ _ _ _ _ Hds) as [Hfit Hcl]. pose proof (describes_known _ _ _ _ _ Hds) as Hknown.
  unfold PointwiseEntry. rewrite Heq. cbn [mbind result_bind].
  rewrite assert_true by (apply Nat.leb_le; lia). cbn [mbind result_bind]. rewrite shiftl_1_pow by lia.
  set (cols := descColumns 0 ds) in *. unfold c_maxLutSources in H6.
  rewrite (foldM_Ok _ (fun t r => Z.lor t (u64_shl (Z.b2z
      (Z.testbit table (bits_to_Z (merge (desc_val <$> ds) (Z_to_bits (length cols) r))))) r))).
  - cbn [mbind result_bind].
    rewrite (build_table _ _ (fun l => Z.testbit table (bits_to_Z (merge (desc_val <$> ds) l))))
      by (done || unfold c_maxLutSources; lia).
    eexists; split; [done|]. split.
    + split.
      * apply fill_entry_wf; [unfold c_maxLutSources; lia|apply table_of_bound|]. eapply Forall_impl; [exact Hfit|]. cbn. lia.
      * rewrite columns_fill by (unfold c_maxLutSources; lia). eapply Forall_impl; [exact Hfit|]. cbn. lia.
    + intros σ. rewrite entry_val_fill by (unfold c_maxLutSources; lia). unfold cols. by erewrite describes_merge.
  - intros t r Hr%elem_of_seqZ. rewrite <- (bits_to_Z_to_bits (length cols) r) at 1 by lia.
    rewrite inputTableIndex_eq by (done || lia). cbn. by rewrite land_shiftr_1 by apply bits_to_Z_bound.
Qed.

(** A table [table] that computes, bit by bit, the integer [v] of the operands *)
Lemma ConvertPointwiseOpToLut_eq program op table v :
  op_wf program op -> (length (_src op) <= c_maxLutSources)%nat ->
  (forall σ, opInt program σ op = Some (v σ)) ->
  (forall σ k, 0 <= k -> Z.testbit (v σ) k =
     Z.testbit table (bits_to_Z ((fun i => Z.testbit (srcInt program σ op i) k) <$> seq 0 (length (_src op))))) ->
  exists es, ConvertPointwiseOpToLut program op table = Ok (set_lut op es) /\
    lut_wf program (set_lut op es) es /\ equivalent program op (set_lut op es).
Proof.
  intros Hwf H6 Hv Htab. destruct (id Hwf) as [_ _ _ (d & w & Hd & Hw & Hwb)].
  unfold ConvertPointwiseOpToLut. rewrite Hd. cbn [length Nat.eqb assert_ mbind result_bind]. rewrite Hw. cbn [mbind result_bind].
  rewrite assert_true by (by apply Nat.leb_le). cbn [mbind result_bind].
  destruct (mapM_exists (PointwiseEntry program op table) (entry_computes program op v) (seqZ 0 w)) as (es & -> & Hes).
  { intros k Hk%elem_of_seqZ. destruct (PointwiseEntry_eq program op table k Hwf H6) as (e & He & Hfit & Hval); [lia|].
    exists e. split; [done|]. split; [done|]. intros σ. rewrite Hval. symmetry. apply Htab. lia. }
  cbn [mbind result_bind]. exists es. split; [done|]. by eapply set_lut_correct.
Qed.

End LutLowerFacts.

(** * Conversion of shifts, small binary operators and selects *)

Import MachineInt Literals Ir LutOpt LutFacts LutCofactor Semantics LutPasses LutConst LutLower LutLowerFacts.

Module LutLowerOps.

Lemma entry_val_const ρ : entry_val ρ (fill_entry [] 0) = false.
Proof. unfold entry_val. rewrite columns_fill by (cbn; unfold c_maxLutSources; lia). done. Qed.

Lemma entry_val_pass ρ c : entry_val ρ (fill_entry [c] 2) = ρ c.
Proof. unfold entry_val. rewrite columns_fill by (cbn; unfold c_maxLutSources; lia). cbn. by destruct (ρ c). Qed.

Lemma entry_fits_const n : entry_fits n (fill_entry [] 0).
Proof.
  split; [|rewrite columns_fill by (cbn; unfold c_maxLutSources; lia); constructor].
  apply fill_entry_wf; [cbn; unfold c_maxLutSources; lia|cbn; lia|constructor].
Qed.

Lemma entry_fits_pass n i b : (i < n)%nat -> 0 <= b < 2 ^ 32 -> entry_fits n (fill_entry [(i, b)] 2).
Proof.
  intros Hi Hb. split; [|rewrite columns_fill by (cbn; unfold c_maxLutSources; lia); by repeat constructor].
  apply fill_entry_wf; [cbn; unfold c_maxLutSources; lia|cbn; lia|constructor; [done|constructor]].
Qed.

(** ** Registers as literals *)

(** The contents of register [r], of description [d] *)
Definition regLiteral (σ : nat -> Z) (r : AccessedRegister) (d : RegisterDescription) : Literal :=
  mkLiteral (σ (_registerIndex r) mod 2 ^ _regWidth d) (_regWidth d).

Lemma regLiteral_wf σ r d : 0 < _regWidth d < 2 ^ 30 -> lit_wf (regLiteral σ r d).
Proof.
  intros Hw. unfold lit_wf, regLiteral. cbn. split; [lia|]. apply Z.mod_pos_bound, Z.pow_pos_nonneg; lia.
Qed.

Lemma srcInt_register program σ op i r d :
  _src op !! i = Some (SrcRegister r) -> _registerTable program !! _registerIndex r = Some d ->
  srcInt program σ op i = lit_int (regLiteral σ r d) (signExtends op i) /\
  srcBits program σ op i = _value (regLiteral σ r d).
Proof.
  intros Hr Hd. unfold srcInt, srcBits. rewrite Hr. unfold operandInt, operandLiteral. rewrite Hd. by split.
Qed.

Lemma lit_int_mod l s n : lit_wf l -> 0 <= n <= _width l -> lit_int l s mod 2 ^ n = _value l mod 2 ^ n.
Proof.
  intros Hl Hn. unfold lit_int. destruct (lit_neg l s); [|done].
  destruct (pow2_divide n (_width l)) as [q Hq]; [lia|]. rewrite Hq.
  replace (_value l - q * 2 ^ n) with (_value l + (- q) * 2 ^ n) by lia.
  apply Z.mod_add, Z.pow_nonzero; lia.
Qed.

Lemma bits_to_Z_app2 l1 l2 : bits_to_Z (l1 ++ l2) = bits_to_Z l1 + 2 ^ Z.of_nat (length l1) * bits_to_Z l2.
Proof.
  induction l1 as [|b l1 IH]; [cbn [app bits_to_Z length]; lia|]. cbn [app bits_to_Z length].
  rewrite IH, Nat2Z.inj_succ, Z.pow_succ_r by lia. lia.
Qed.

(** The bits [0..n) of operand [i] as columns *)
Lemma bits_to_Z_operand program σ op i n :
  bits_to_Z (bit_of (srcBits program σ op) <$> (pair i <$> seqZ 0 n)) = srcBits program σ op i mod 2 ^ Z.of_nat (Z.to_nat n).
Proof.
  rewrite <- bits_to_Z_mod. f_equal. unfold Z_to_bits. rewrite seqZ_0, <- !list_fmap_compose. by apply list_fmap_ext.
Qed.

(** ** [ConvertShiftOpToLut] *)

Lemma ShiftEntry_eq program op type r d s k :
  type = ParseTreeBinaryOpTypeShl \/ type = ParseTreeBinaryOpTypeShr ->
  _src op !! 0%nat = Some (SrcRegister r) -> _registerTable program !! _registerIndex r = Some d ->
  0 < _regWidth d < 2 ^ 30 -> 0 <= s < 2 ^ 64 -> 0 <= k < 2 ^ 30 ->
  exists e, ShiftEntry type (signExtends op 0) (_regWidth d) s k = Ok e /\
    entry_computes program op (fun σ => binop_spec type (srcInt program σ op 0) s) k e.
Proof.
  intros Ht Hr Hd Hw Hs Hk. set (W := _regWidth d) in *.
  assert (Hn : (0 < length (_src op))%nat) by (by eapply lookup_lt_Some).
  assert (Hbit : forall σ i, 0 <= i -> Z.testbit (srcInt program σ op 0) i =
      if i <? W then Z.testbit (srcBits program σ op 0) i else signExtends op 0 && Z.testbit (srcBits program σ op 0) (W - 1)).
  { intros σ i Hi. destruct (srcInt_register program σ op 0 r d Hr Hd) as [-> ->].
    by rewrite testbit_lit_int by (done || by apply regLiteral_wf). }
  assert (Hpass : forall b v, 0 <= b < W -> (forall σ, Z.testbit (srcBits program σ op 0) b = Z.testbit (v σ) k) ->
    entry_computes program op v k (fill_entry [(0%nat, b)] 2)).
  { intros b v Hb Hv. split; [apply entry_fits_pass; (done || lia)|]. intros σ. rewrite entry_val_pass. apply Hv. }
  assert (Hconst : forall v, (forall σ, Z.testbit (v σ) k = false) -> entry_computes program op v k (fill_entry [] 0)).
  { intros v Hv. split; [apply entry_fits_const|]. intros σ. by rewrite entry_val_const, Hv. }
  unfold ShiftEntry. destruct Ht as [-> | ->]; cbn [shiftSourceBit mbind result_bind binop_spec].
  - destruct (Z.ltb_spec k s).
    { eexists; split; [done|]. apply Hconst. intros σ. rewrite Z.shiftl_spec by lia. apply Z.testbit_neg_r. lia. }
    unfold u64_add. rewrite u64_small by (unfold is_u64; lia).
    destruct (Z.leb_spec (W + s) k); [destruct (signExtends op 0) eqn:Hse|].
    + rewrite assert_true by (apply Z.ltb_lt; lia). cbn. eexists; split; [done|]. apply Hpass; [lia|]. intros σ.
      rewrite Z.shiftl_spec, Hbit by lia. by rewrite (proj2 (Z.ltb_ge (k - s) W)) by lia.
    + eexists; split; [done|]. apply Hconst. intros σ. rewrite Z.shiftl_spec, Hbit by lia.
      by rewrite (proj2 (Z.ltb_ge (k - s) W)) by lia.
    + rewrite assert_true by (apply Z.ltb_lt; lia). cbn. eexists; split; [done|]. apply Hpass; [lia|]. intros σ.
      rewrite Z.shiftl_spec, Hbit by lia. by rewrite (proj2 (Z.ltb_lt (k - s) W)) by lia.
  - assert (Hshr : forall σ, Z.testbit (Z.shiftr (srcInt program σ op 0) s) k =
      if k + s <? W then Z.testbit (srcBits program σ op 0) (k + s)
      else signExtends op 0 && Z.testbit (srcBits program σ op 0) (W - 1)).
    { intros σ. by rewrite Z.shiftr_spec, Hbit by lia. }
    destruct (Z.leb_spec s W), (signExtends op 0) eqn:Hse; try destruct (Z.leb_spec (W - s) k);
      try (rewrite assert_true by (apply Z.ltb_lt; lia)); cbn [mbind result_bind];
      (eexists; split; [reflexivity|]); first [apply Hpass; [lia|]|apply Hconst];
      intros σ; rewrite Hshr; first [rewrite (proj2 (Z.ltb_lt (k + s) W)) by lia|rewrite (proj2 (Z.ltb_ge (k + s) W)) by lia]; rewrite ?Hse; first [done|exfalso; lia].
Qed.

Lemma ConvertShiftOpToLut_eq program op type l r :
  type = ParseTreeBinaryOpTypeShl \/ type = ParseTreeBinaryOpTypeShr -> _opcode op = BinaryOp type ->
  op_wf program op -> _src op = [SrcRegister r; SrcLiteral l] -> signExtends op 1 = false -> _value l < 2 ^ 64 ->
  exists es, ConvertShiftOpToLut program op type = Ok (set_lut op es) /\
    lut_wf program (set_lut op es) es /\ equivalent program op (set_lut op es).
Proof.
  intros Ht Hop Hwf Hsrc Hs1 Hl64. destruct (id Hwf) as [Hsrcs _ _ (d & w & Hd & Hw & Hwb)].
  rewrite Hsrc in Hsrcs. inversion_clear Hsrcs as [|?? Hr Hsrcs']. inversion_clear Hsrcs' as [|?? Hl _].
  destruct Hr as (rd & Hrd & Hrw), Hl as [Hl _].
  unfold ConvertShiftOpToLut. rewrite !ShouldSignExtend_eq by (rewrite ?Hsrc; cbn; lia).
  rewrite Hsrc, Hd, Hs1. cbn [length Nat.eqb assert_ at_ lookup list_lookup mbind result_bind negb isLiteral andb GetLiteral].
  unfold at_. cbn [lookup list_lookup mbind result_bind negb isLiteral andb GetLiteral].
  rewrite MpToSizeT_small by (destruct Hl; unfold is_u64; lia). cbn [mbind result_bind].
  rewrite (SourceOperand_Width_register _ _ _ Hrd). cbn [mbind result_bind]. rewrite Hw. cbn [mbind result_bind].
  assert (H0 : _src op !! 0%nat = Some (SrcRegister r)) by (by rewrite Hsrc).
  destruct (mapM_exists (ShiftEntry type (signExtends op 0) (_regWidth rd) (_value l))
    (entry_computes program op (fun σ => binop_spec type (srcInt program σ op 0) (_value l))) (seqZ 0 w)) as (es & -> & Hes).
  { intros k Hk%elem_of_seqZ. apply (ShiftEntry_eq program op type r rd); (done || (destruct Hl; lia)). }
  cbn [mbind result_bind]. exists es. split; [done|]. eapply set_lut_correct; [done|done| |exact Hes].
  intros σ. unfold opInt. rewrite Hop. do 2 f_equal. unfold srcInt. rewrite Hsrc. cbn. by rewrite Hs1.
Qed.

(** ** [ConvertBinaryOpToLut] *)

(** The literal that operand [o] stands for in a row whose bits from [off] on are its *)
Definition rowLit (program : Program) (r off : Z) (o : SourceOperand) : Literal :=
  match o with
  | SrcLiteral l => l
  | SrcRegister x =>
      let w := match _registerTable program !! _registerIndex x with Some d => _regWidth d | None => 0 end in
      mkLiteral (Z.shiftr r off mod 2 ^ w) w
  | _ => mkLiteral 0 0
  end.

Definition operandBits (program : Program) (o : SourceOperand) : Z :=
  match o with
  | SrcRegister x => match _registerTable program !! _registerIndex x with Some d => _regWidth d | None => 0 end
  | _ => 0
  end.

Lemma operandBits_nonneg program o : operand_wf program o -> 0 <= operandBits program o.
Proof. destruct o as [l|r| |]; cbn; try lia. intros (d & -> & H). lia. Qed.

Lemma rowLiteral_eq program r off o :
  operand_wf program o -> 0 <= off -> off + operandBits program o <= 63 ->
  rowLiteral program r off o = Ok (rowLit program r off o, off + operandBits program o) /\ lit_wf (rowLit program r off o) /\
  _width (rowLit program r off o) < 2 ^ 30.
Proof.
  destruct o as [l|x| |]; try done.
  - cbn. intros [Hl Hw]. by rewrite Z.add_0_r.
  - intros (d & Hd & Hw) Hoff Hb. unfold rowLiteral. rewrite (SourceOperand_Width_register _ _ _ Hd).
    cbn in Hb |- *. rewrite Hd in *. unfold u64_add. rewrite u64_small by (unfold is_u64; lia).
    change 1 with (Z.b2z true) at 1. rewrite u64_shl_bit by lia.
    unfold u64_sub. rewrite shiftl_1_pow by lia.
    pose proof (Z.pow_pos_nonneg 2 (_regWidth d) ltac:(lia) ltac:(lia)).
    rewrite u64_small.
    2: { unfold is_u64. assert (2 ^ _regWidth d <= 2 ^ 63) by (apply Z.pow_le_mono_r; lia). lia. }
    rewrite Z.sub_1_r, <- Z.ones_equiv, Z.land_ones by lia. split; [done|].
    unfold lit_wf. cbn. split; [split; [lia|]|lia]. apply Z.mod_pos_bound. lia.
Qed.

Lemma inputBits_eq program op :
  Forall (operand_wf program) (_src op) -> (length (_src op) <= 64)%nat ->
  inputBits program op = Ok (fold_left Z.add (operandBits program <$> _src op) 0).
Proof.
  intros Hwf H64. unfold inputBits.
  assert (Hgen : forall l acc, Forall (operand_wf program) l -> (length l <= 64)%nat ->
    0 <= acc <= Z.of_nat (64 - length l) * 2 ^ 30 ->
    foldM (fun inputBitCount srcOp => match srcOp with
      | SrcRegister r => w ← registerWidth program (_registerIndex r); Ok (u64_add inputBitCount w)
      | _ => Ok inputBitCount end) l acc = Ok (fold_left Z.add (operandBits program <$> l) acc)).
  { induction l as [|o l IH]; intros acc Hl Hlen Hacc; [done|]. inversion_clear Hl as [|?? Ho Hl'].
    cbn [length] in Hlen, Hacc. destruct o as [l0|r| |]; try done.
    - cbn. rewrite IH by (done || lia). cbn. by rewrite Z.add_0_r.
    - destruct Ho as (d & Hd & Hw). cbn [foldM]. unfold registerWidth. rewrite (at_Some _ _ _ Hd). cbn [mbind result_bind].
      unfold u64_add. rewrite u64_small by (unfold is_u64; lia). rewrite IH by (done || lia). cbn. by rewrite Hd. }
  apply Hgen; (done || lia).
Qed.

(** The columns of one operand *)
Definition operandColumns (program : Program) (i : nat) (o : SourceOperand) : list (nat * Z) :=
  pair i <$> seqZ 0 (operandBits program o).

Lemma length_operandColumns program i o : length (operandColumns program i o) = Z.to_nat (operandBits program o).
Proof. unfold operandColumns. by rewrite length_fmap, length_seqZ. Qed.

Lemma binaryColumns_eq program op o0 o1 :
  _src op = [o0; o1] -> Forall (operand_wf program) (_src op) ->
  binaryColumns program op = Ok (operandColumns program 0 o0 ++ operandColumns program 1 o1).
Proof.
  intros Hs Hwf. rewrite Hs in Hwf. inversion_clear Hwf as [|?? H0 Hwf']. inversion_clear Hwf' as [|?? H1 _].
  assert (Hstep : forall i o acc, _src op !! i = Some o -> operand_wf program o ->
    (srcOp ← at_ (_src op) i;
      match srcOp with
      | SrcRegister r =>
          srcOpWidth ← registerWidth program (_registerIndex r);
          Ok (acc ++ (pair i <$> seqZ 0 srcOpWidth))
      | _ => Ok acc
      end) = Ok (acc ++ operandColumns program i o)).
  { intros i o acc Hi Ho. rewrite (at_Some _ _ _ Hi). cbn. unfold operandColumns. destruct o as [l|r| |]; try done.
    - cbn. by rewrite app_nil_r.
    - destruct Ho as (d & Hd & _). unfold registerWidth. rewrite (at_Some _ _ _ Hd). cbn. by rewrite Hd. }
  unfold binaryColumns. cbn [foldM]. rewrite (Hstep 0%nat o0) by (by rewrite ?Hs). cbn [mbind result_bind].
  rewrite (Hstep 1%nat o1) by (by rewrite ?Hs). done.
Qed.

(** The row that the contents [σ] select *)
Lemma rowLit_of_columns program op σ i o pre post off :
  _src op !! i = Some o -> operand_wf program o -> off = Z.of_nat (length pre) ->
  operandLiteral program σ o =
    Some (rowLit program (bits_to_Z (pre ++ (bit_of (srcBits program σ op) <$> operandColumns program i o) ++ post)) off o).
Proof.
  intros Hi Ho ->. destruct o as [l|r| |]; try done. destruct Ho as (d & Hd & Hw). cbn. rewrite Hd. do 2 f_equal.
  unfold operandColumns. cbn [operandBits]. rewrite Hd. rewrite !bits_to_Z_app2, bits_to_Z_operand.
  rewrite length_fmap, length_fmap, length_seqZ, Z2Nat.id by lia.
  destruct (srcInt_register program σ op i r d Hi Hd) as [_ ->]. cbn.
  pose proof (Z.pow_pos_nonneg 2 (_regWidth d) ltac:(lia) ltac:(lia)).
  pose proof (bits_to_Z_bound pre) as Hpre.
  rewrite Z.shiftr_div_pow2 by lia. rewrite Z.add_comm, Z.mul_comm, Z.div_add_l by lia.
  rewrite Z.div_small by done. rewrite Z.add_0_r, Z.mul_comm, Z.mod_add by lia. rewrite !Z.mod_mod by lia. done.
Qed.

(** What an operand can denote, whatever the registers contain *)
Definition operand_range (program : Program) (signed : bool) (o : SourceOperand) (a : Z) : Prop :=
  exists l, lit_wf l /\ a = lit_int l signed /\
    match o with SrcLiteral l' => l = l' | _ => _width l = operandBits program o end.

Lemma rowLit_range program r off s o :
  operand_wf program o -> operand_range program s o (lit_int (rowLit program r off o) s).
Proof.
  intros Ho. exists (rowLit program r off o). destruct o as [l|x| |]; try done; [by destruct Ho|].
  destruct Ho as (d & Hd & Hw). cbn. rewrite Hd. split; [|done]. unfold lit_wf. cbn. split; [lia|].
  apply Z.mod_pos_bound, Z.pow_pos_nonneg; lia.
Qed.

(** No error in any row: a non-zero divisor, a bounded shift amount, [==] on
    operands of one sign *)
Definition binary_defined (program : Program) (op : Operation) (type : ParseTreeBinaryOpType) (w : Z) : Prop :=
  forall o0 o1 a b, _src op = [o0; o1] -> operand_range program (signExtends op 0) o0 a ->
    operand_range program (signExtends op 1) o1 b -> binop_pre type a b w.

Lemma BinaryEntry_eq cols n (R : Z -> Z) k :
  Z.of_nat (length cols) = n -> (length cols <= c_maxLutSources)%nat -> 0 <= k < 2 ^ 32 ->
  BinaryEntry cols n (R <$> seqZ 0 (2 ^ n)) k =
    Ok (fill_entry cols (table_of (length cols) (fun l => Z.testbit (R (bits_to_Z l)) k))).
Proof.
  intros Hn H6 Hk. pose proof (pow2_le_64 _ H6) as Hp. rewrite Hn in Hp. unfold BinaryEntry.
  rewrite assert_true by (by apply Z.eqb_eq). cbn [mbind result_bind].
  rewrite (foldM_Ok _ (fun t p => Z.lor t (u64_shl (Z.b2z (Z.testbit p.2 k)) (Z.of_nat p.1)))).
  - cbn [mbind result_bind]. f_equal. f_equal.
    rewrite <- (build_table (length cols) (fun r => Z.testbit (R r) k)); [|done|].
    + rewrite Hn, seqZ_0, fold_left_fmap. rewrite <- list_fmap_compose.
      rewrite length_fmap, length_seq. set (m := Z.to_nat (2 ^ n)).
      assert (Hz : zip (seq 0 m) (R ∘ Z.of_nat <$> seq 0 m) = (fun i => (i, R (Z.of_nat i))) <$> seq 0 m).
      { apply list_eq. intros i. rewrite lookup_zip_with, !list_lookup_fmap.
        destruct (seq 0 m !! i); cbn; done. }
      by rewrite Hz, fold_left_fmap.
    + intros r Hr. by rewrite bits_to_Z_to_bits.
  - intros t [i v] Hin. rewrite bit_test_eq by lia. cbn [mbind result_bind fst snd].
    rewrite assert_true; [done|]. apply Nat.ltb_lt. apply elem_of_zip_l in Hin. apply elem_of_seq in Hin.
    rewrite length_fmap, length_seqZ in Hin. lia.
Qed.

Lemma ConvertBinaryOpToLut_eq program op type o0 o1 w :
  op_wf program op -> _opcode op = BinaryOp type -> _src op = [o0; o1] -> dstWidth program op = Ok w ->
  operandBits program o0 + operandBits program o1 <= 6 -> binary_defined program op type w ->
  exists es, ConvertBinaryOpToLut program op type = Ok (set_lut op es) /\
    lut_wf program (set_lut op es) es /\ equivalent program op (set_lut op es).
Proof.
  intros Hwf Hop Hs Hw H6 Hdef. destruct (id Hwf) as [Hsrcs H64 _ (d & w' & Hd & Hw' & Hwb)].
  rewrite Hw in Hw'. injection Hw' as <-.
  pose proof Hsrcs as Hsrcs'. rewrite Hs in Hsrcs'. inversion_clear Hsrcs' as [|?? H0 Ht]. inversion_clear Ht as [|?? H1 _].
  pose proof (operandBits_nonneg _ _ H0). pose proof (operandBits_nonneg _ _ H1).
  set (w0 := operandBits program o0) in *. set (w1 := operandBits program o1) in *.
  set (L0 := fun r => rowLit program r 0 o0). set (L1 := fun r => rowLit program r w0 o1).
  set (R := fun r => binop_spec type (lit_int (L0 r) (signExtends op 0)) (lit_int (L1 r) (signExtends op 1)) mod 2 ^ w).
  set (cols := operandColumns program 0 o0 ++ operandColumns program 1 o1).
  assert (Hcl : Z.of_nat (length cols) = w0 + w1).
  { unfold cols. rewrite length_app, !length_operandColumns. fold w0 w1. lia. }
  unfold ConvertBinaryOpToLut. rewrite inputBits_eq by done. rewrite Hd. rewrite (f_equal length Hs : length (_src op) = 2%nat). cbn [length Nat.eqb assert_ mbind result_bind].
  rewrite Hw, Hs. cbn [fmap list_fmap fold_left mbind result_bind]. fold w0 w1. rewrite Z.add_0_l.
  rewrite (proj2 (Z.leb_le (w0 + w1) (Z.of_nat c_maxLutSources))) by (unfold c_maxLutSources; lia). rewrite shiftl_1_pow by lia.
  rewrite (mapM_Ok _ R).
  2: { intros r Hr%elem_of_seqZ. unfold rowResult. rewrite !ShouldSignExtend_eq by (rewrite ?Hs; cbn; lia).
       rewrite Hs. unfold at_. cbn [lookup list_lookup mbind result_bind].
       destruct (rowLiteral_eq program r 0 o0) as (-> & Hl0 & Hb0); [done|lia|fold w0; lia|]. cbn [mbind result_bind]. fold w0.
       destruct (rowLiteral_eq program r (0 + w0) o1) as (-> & Hl1 & Hb1); [done|lia|fold w1; lia|]. cbn [mbind result_bind]. fold w1.
       rewrite assert_true by (apply Z.eqb_eq; lia). cbn [mbind result_bind].
       rewrite ImplementBinaryOp_eq; [done|done|done|lia|done|].
       eapply Hdef; [exact Hs|by apply rowLit_range..]. }
  cbn [mbind result_bind]. rewrite (binaryColumns_eq _ _ o0 o1) by done. cbn [mbind result_bind]. fold cols.
  destruct (mapM_exists (BinaryEntry cols (w0 + w1) (R <$> seqZ 0 (2 ^ (w0 + w1))))
    (entry_computes program op (fun σ => R (bits_to_Z (bit_of (srcBits program σ op) <$> cols)))) (seqZ 0 w)) as (es & -> & Hes).
  { intros k Hk%elem_of_seqZ. rewrite BinaryEntry_eq by (unfold c_maxLutSources; lia). eexists; split; [done|]. split.
    - assert (Hf : Forall (fun c => 0 <= c.2 < 2 ^ 32 /\ (c.1 < length (_src op))%nat) cols).
      { rewrite Hs. unfold cols. apply Forall_app; split; apply Forall_fmap, Forall_forall; intros j Hj%elem_of_seqZ; cbn;
          [fold w0 in Hj|fold w1 in Hj]; lia. }
      split; [|rewrite columns_fill by (unfold c_maxLutSources; lia); eapply Forall_impl; [exact Hf|]; by intros ? []].
      apply fill_entry_wf; [unfold c_maxLutSources; lia|apply table_of_bound|]. eapply Forall_impl; [exact Hf|]. by intros ? [].
    - intros σ. by rewrite entry_val_fill by (unfold c_maxLutSources; lia). }
  cbn [mbind result_bind]. exists es. split; [done|].
  set (v := fun σ => binop_spec type (srcInt program σ op 0) (srcInt program σ op 1)).
  apply (set_lut_correct program op w es v); try done.
  - intros σ. unfold opInt. by rewrite Hop.
  - eapply Forall2_impl; [|]. 2: { intros k e He. exact He. }
    apply Forall2_same_length_lookup_2; [by eapply Forall2_length|]. intros j k e Hk He.
    destruct (Forall2_lookup_lr _ _ _ _ _ _ Hes Hk He) as [Hfit Hval]. split; [done|]. intros σ. rewrite Hval.
    apply lookup_seqZ in Hk as [-> Hj]. unfold R, L0, L1. rewrite Z.mod_pow2_bits_low by lia.
    unfold v, srcInt. rewrite Hs. cbn [lookup list_lookup]. unfold operandInt.
    pose proof (rowLit_of_columns program op σ 0 o0 [] (bit_of (srcBits program σ op) <$> operandColumns program 1 o1) 0) as E0.
    pose proof (rowLit_of_columns program op σ 1 o1 (bit_of (srcBits program σ op) <$> operandColumns program 0 o0) [] w0) as E1.
    rewrite app_nil_l, <- fmap_app in E0. rewrite app_nil_r, <- fmap_app in E1.
    rewrite E0, E1; try done; try (by rewrite Hs).
    rewrite length_fmap, length_operandColumns. fold w0. lia.
Qed.

End LutLowerOps.

(** * Conversion of selects and gathers, and [LowerToLut] *)

Import MachineInt Literals Ir LutOpt LutFacts LutCofactor Semantics LutPasses LutConst LutLower LutLowerFacts LutLowerOps.

Module LutLowerSelect.

(** ** [ConvertSelectOpToLut] *)

Lemma bits_to_Z_take k l : (k <= length l)%nat -> bits_to_Z l mod 2 ^ Z.of_nat k = bits_to_Z (take k l).
Proof.
  intros Hk. rewrite <- (take_drop k l) at 1. rewrite bits_to_Z_app2, length_take, Nat.min_l by done.
  pose proof (bits_to_Z_bound (take k l)) as Hb. rewrite length_take, Nat.min_l in Hb by done.
  rewrite Z.mul_comm, Z.mod_add by lia. by apply Z.mod_small.
Qed.

(** The number of index bits of a select with [n] choices *)
Definition select_wf (program : Program) (op : Operation) (nib : nat) : Prop :=
  (length (_src op) = S (2 ^ nib))%nat /\
  (forall r d, _src op !! 0%nat = Some (SrcRegister r) -> _registerTable program !! _registerIndex r = Some d ->
     Z.of_nat nib <= _regWidth d).

Section Select.
Context (program : Program) (op : Operation) (nib : nat) (r : AccessedRegister) (d : RegisterDescription).
Context (Hwf : op_wf program op) (Hsel : select_wf program op nib).
Context (Hr : _src op !! 0%nat = Some (SrcRegister r)) (Hd : _registerTable program !! _registerIndex r = Some d).
Context (Hwd : 0 < _regWidth d < 2 ^ 30).

Lemma num_choices : Z.of_nat (length (_src op)) - 1 = 2 ^ Z.of_nat nib.
Proof.
  destruct Hsel as [-> _]. rewrite Nat2Z.inj_succ, Z.sub_1_r, Z.pred_succ.
  by rewrite Nat2Z.inj_pow.
Qed.

Lemma index_bits σ :
  srcInt program σ op 0 mod (Z.of_nat (length (_src op)) - 1)
  = bits_to_Z (bit_of (srcBits program σ op) <$> (pair 0%nat <$> seqZ 0 (Z.of_nat nib))).
Proof.
  rewrite num_choices, bits_to_Z_operand, Nat2Z.id. destruct (srcInt_register program σ op 0 r d Hr Hd) as [-> ->].
  apply lit_int_mod; [by apply regLiteral_wf|]. cbn. destruct Hsel as [_ Hw]. specialize (Hw _ _ Hr Hd). lia.
Qed.

Lemma select_row ds l :
  Forall desc_known ds -> (length ds <= 64)%nat -> (nib <= length l)%nat ->
  fst (fold_left (choiceStep (Z.of_nat nib) (bits_to_Z l)) (zip (seq 1 (length ds)) ds) (0, 0))
  = bits_to_Z (merge (desc_val <$> ds) (drop nib l)).
Proof.
  intros Hk Hlen Hl. pose proof (desc_loop 1 (Z.of_nat nib) l ds [] 0 Hk Hlen) as H. cbn [length] in H.
  replace (1 + 0)%nat with 1%nat in H by lia. rewrite Z.add_0_l, Nat2Z.id, app_nil_l in H. rewrite <- H by lia.
  f_equal. apply fold_left_ext. intros [bits n] p Hp. unfold choiceStep. done.
Qed.

Lemma SelectEntry_eq k :
  0 <= k < 2 ^ 30 ->
  exists o, SelectEntry program op (2 ^ Z.of_nat nib) (Z.of_nat nib) k = Ok o /\
    match o with None => True | Some e => entry_computes program op (fun σ => selectInt program σ op) k e end.
Proof.
  intros Hk. destruct (GetSourceOperandDescriptions_eq program op k Hwf ltac:(lia)) as (ds & Heq & Hds).
  unfold SelectEntry. rewrite Heq. cbn [mbind result_bind].
  pose proof num_choices as Hnum. destruct Hsel as [Hlen _]. rewrite Hlen in Hds. cbn [seq] in Hds.
  inversion Hds as [|? d0 ? cs _ Hcs Ei Eds]. subst ds. cbn [tail].
  destruct (descColumns_fit _ _ _ _ _ _ Hcs) as [Hfit _]. pose proof (describes_known _ _ _ _ _ Hcs) as Hknown.
  pose proof (Forall2_length _ _ _ Hcs) as Hcl. rewrite length_seq in Hcl.
  set (idx := pair 0%nat <$> seqZ 0 (Z.of_nat nib)).
  assert (Hil : length idx = nib) by (unfold idx; rewrite length_fmap, length_seqZ; lia).
  set (cols := idx ++ descColumns 1 cs). destruct (Nat.ltb_spec c_maxLutSources (length cols)); [by exists None|].
  assert (Hnc : (nib <= length cols)%nat) by (unfold cols; rewrite length_app; lia).
  assert (Hn64 : (length cs <= 64)%nat).
  { rewrite <- Hcl. change 64%nat with (2 ^ 6)%nat. apply Nat.pow_le_mono_r; [lia|]. unfold c_maxLutSources in *. lia. }
  set (f := fun l => Z.testbit (bits_to_Z (merge (desc_val <$> cs) (drop nib l))) (bits_to_Z (take nib l))).
  rewrite !shiftl_1_pow by lia.
  rewrite (foldM_Ok _ (fun t r => Z.lor t (u64_shl (Z.b2z (f (Z_to_bits (length cols) r))) r))).
  - cbn [mbind result_bind]. rewrite (build_table _ _ f) by done. eexists; split; [done|]. cbn. split.
    + assert (Hf : Forall (fun c => 0 <= c.2 < 2 ^ 32 /\ (c.1 < length (_src op))%nat) cols).
      { unfold cols. apply Forall_app; split.
        - unfold idx. apply Forall_fmap, Forall_forall. intros j Hj%elem_of_seqZ. cbn. rewrite Hlen.
          split; [|lia]. split; [lia|]. unfold c_maxLutSources in *. lia.
        - eapply Forall_impl; [exact Hfit|]. cbn. intros c Hc. rewrite Hlen. lia. }
      split; [|rewrite columns_fill by done; eapply Forall_impl; [exact Hf|]; by intros ? []].
      apply fill_entry_wf; [done|apply table_of_bound|]. eapply Forall_impl; [exact Hf|]. by intros ? [].
    + intros σ. rewrite entry_val_fill by done. unfold f, cols. rewrite fmap_app.
      rewrite take_app_le, drop_app_ge, take_ge by (rewrite length_fmap; lia).
      rewrite length_fmap, Hil, Nat.sub_diag, drop_0. rewrite (describes_merge _ _ _ _ _ _ _ Hcs).
      unfold idx. rewrite <- index_bits, testbit_bits_to_Z_nonneg by (apply Z.mod_pos_bound; rewrite Hnum; apply Z.pow_pos_nonneg; lia).
      unfold selectInt. replace (Z.of_nat (length (_src op) - 1)) with (Z.of_nat (length (_src op)) - 1) by lia.
      set (ix := srcInt program σ op 0 mod _).
      assert (Hix : 0 <= ix < 2 ^ Z.of_nat nib) by (unfold ix; rewrite Hnum; apply Z.mod_pos_bound, Z.pow_pos_nonneg; lia).
      rewrite list_lookup_fmap, lookup_seq_lt by (rewrite <- Hcl in *; lia). done.
  - intros t row Hx%elem_of_seqZ. set (lb := Z_to_bits (length cols) row).
    assert (Hxl : row = bits_to_Z lb) by (unfold lb; rewrite bits_to_Z_to_bits; [done|lia]).
    assert (Hll : length lb = length cols) by apply length_Z_to_bits.
    assert (Hidx : Z.land row (2 ^ Z.of_nat nib - 1) = bits_to_Z (take nib lb)).
    { rewrite Z.sub_1_r, <- Z.ones_equiv, Z.land_ones, Hxl by lia. apply bits_to_Z_take. lia. }
    rewrite Hidx. pose proof (bits_to_Z_bound (take nib lb)) as Hb. rewrite length_take, Nat.min_l in Hb by lia.
    rewrite assert_true by (apply Z.ltb_lt; lia). cbn [mbind result_bind].
    rewrite Hxl at 1. rewrite select_row by (done || lia). rewrite land_shiftr_1 by lia. done.
Qed.

Lemma SelectEntries_eq ks :
  Forall (fun k => 0 <= k < 2 ^ 30) ks ->
  exists o, SelectEntries program op (2 ^ Z.of_nat nib) (Z.of_nat nib) ks = Ok o /\
    match o with None => True | Some es => Forall2 (entry_computes program op (fun σ => selectInt program σ op)) ks es end.
Proof.
  induction 1 as [|k ks Hk _ (o & Ho & IH)]; cbn [SelectEntries]; [by exists (Some [])|].
  destruct (SelectEntry_eq k Hk) as ([e|] & -> & He); cbn [mbind result_bind]; [|by exists None].
  rewrite Ho. cbn [mbind result_bind]. destruct o as [es|]; [|by exists None].
  exists (Some (e :: es)). split; [done|]. by constructor.
Qed.

End Select.

Lemma ConvertSelectOpToLut_eq program op nib :
  op_wf program op -> _opcode op = Select -> select_wf program op nib ->
  exists op', ConvertSelectOpToLut program op = Ok op' /\
    (op' = op \/ exists es, op' = set_lut op es /\ lut_wf program op' es /\ equivalent program op op').
Proof.
  intros Hwf Hop Hsel. destruct (id Hwf) as [Hsrcs _ _ (dst & w & Hdst & Hw & Hwb)].
  pose proof (num_choices program op nib Hsel) as Hnum.
  unfold ConvertSelectOpToLut. rewrite Hdst. cbn [length Nat.eqb assert_ mbind result_bind].
  destruct Hsel as [Hlen Hidx]. destruct (lookup_lt_is_Some_2 (_src op) 0) as [o Ho]; [lia|].
  rewrite (at_Some _ _ _ Ho). cbn [mbind result_bind].
  destruct o as [l|r| |]; cbn [isRegister]; try (exists op; split; [done|by left]).
  destruct (Forall_lookup_1 _ _ _ _ Hsrcs Ho) as (d & Hd & Hwd).
  rewrite Hnum. unfold Log2. rewrite IsPow2_pow by lia. cbn [assert_ mbind result_bind].
  unfold msb. pose proof (Z.pow_pos_nonneg 2 (Z.of_nat nib) ltac:(lia) ltac:(lia)).
  rewrite (proj2 (Z.leb_gt (2 ^ Z.of_nat nib) 0)) by lia. rewrite Z.log2_pow2 by lia. cbn [mbind result_bind].
  rewrite (SourceOperand_Width_register _ _ _ Hd). cbn [mbind result_bind].
  rewrite assert_true by (apply Z.leb_le; by apply (Hidx r)). cbn [mbind result_bind]. rewrite Hw. cbn [mbind result_bind].
  destruct (SelectEntries_eq program op nib r d Hwf (conj Hlen Hidx) Ho Hd Hwd (seqZ 0 w)) as ([es|] & -> & Hes).
  { apply Forall_forall. intros k Hk%elem_of_seqZ. lia. }
  - cbn [mbind result_bind]. eexists; split; [done|]. right. exists es. split; [done|].
    eapply set_lut_correct; [done|done| |exact Hes]. intros σ. unfold opInt. by rewrite Hop.
  - cbn [mbind result_bind]. exists op. split; [done|]. by left.
Qed.

(** ** [ConvertGatherOpToLut] *)

(** The ranges of source and destination bits are in bounds and the
    destination ranges do not overlap. *)
Record gather_wf (op : Operation) (entries : list GatherEntry) (w : Z) : Prop := mk_gather_wf {
  gather_length : length entries = length (_src op);
  gather_mask : _signExtendSourceMask op = 0;
  gather_bounds : Forall (fun e => 0 <= _sourceOffset e /\ 0 <= _destOffset e /\ 0 <= _numBits e /\
    _destOffset e + _numBits e <= w /\ _sourceOffset e + _numBits e <= 2 ^ 32) entries;
  gather_disjoint : forall i j ei ej, (i < j)%nat -> entries !! i = Some ei -> entries !! j = Some ej ->
    _destOffset ei + _numBits ei <= _destOffset ej \/ _destOffset ej + _numBits ej <= _destOffset ei }.

(** The bits of the first [m] sources *)
Definition gatherPrefix (program : Program) (σ : nat -> Z) (op : Operation) (entries : list GatherEntry) (m : nat) : Z :=
  fold_left (fun acc p =>
      Z.lor acc (Z.shiftl (Z.shiftr (srcInt program σ op p.1) (_sourceOffset p.2) mod 2 ^ _numBits p.2) (_destOffset p.2)))
    (take m (zip (seq 0 (length (_src op))) entries)) 0.

Lemma testbit_slice v off n dest k :
  0 <= off -> 0 <= n -> 0 <= dest -> 0 <= k ->
  Z.testbit (Z.shiftl (Z.shiftr v off mod 2 ^ n) dest) k =
    (dest <=? k) && (k <? dest + n) && Z.testbit v (off + (k - dest)).
Proof.
  intros. rewrite Z.shiftl_spec by done. destruct (Z.leb_spec dest k); cbn.
  - rewrite Z.testbit_mod_pow2, Z.shiftr_spec by lia. rewrite Z.add_comm. f_equal.
    apply Bool.eq_iff_eq_true. rewrite !Z.ltb_lt. lia.
  - by rewrite Z.testbit_neg_r by lia.
Qed.

Section Gather.
Context (program : Program) (op : Operation) (entries : list GatherEntry) (w : Z).
Context (Hwf : op_wf program op) (Hg : gather_wf op entries w) (Hw : 0 < w < 2 ^ 30).

Lemma gatherPrefix_S σ m e :
  entries !! m = Some e ->
  gatherPrefix program σ op entries (S m) = Z.lor (gatherPrefix program σ op entries m)
    (Z.shiftl (Z.shiftr (srcInt program σ op m) (_sourceOffset e) mod 2 ^ _numBits e) (_destOffset e)).
Proof.
  intros He. unfold gatherPrefix. pose proof (gather_length _ _ _ Hg) as Hlen. pose proof (lookup_lt_Some _ _ _ He) as Hm.
  rewrite (take_S_r _ _ (m, e)).
  - by rewrite fold_left_app.
  - by rewrite lookup_zip_with, lookup_seq_lt, He by lia.
Qed.

Lemma gatherPrefix_uncovered σ m k :
  (m <= length entries)%nat -> 0 <= k ->
  (forall i e, (i < m)%nat -> entries !! i = Some e -> ~ (_destOffset e <= k < _destOffset e + _numBits e)) ->
  Z.testbit (gatherPrefix program σ op entries m) k = false.
Proof.
  intros Hm Hk. induction m as [|m IH]; intros Hu; [apply Z.bits_0|].
  destruct (lookup_lt_is_Some_2 entries m) as [e He]; [lia|]. rewrite (gatherPrefix_S σ m e He), Z.lor_spec.
  rewrite IH by (lia || (intros; eapply Hu; [|done]; lia)). cbn.
  destruct (Forall_lookup_1 _ _ _ _ (gather_bounds _ _ _ Hg) He) as (? & ? & ? & ? & ?).
  rewrite testbit_slice by lia. specialize (Hu m e ltac:(lia) He).
  destruct (Z.leb_spec (_destOffset e) k), (Z.ltb_spec k (_destOffset e + _numBits e)); cbn; (done || lia).
Qed.

(** The entries after some assignments compute the integer [v]. *)
Definition gather_inv (v : (nat -> Z) -> Z) (es : list LutEntry) : Prop :=
  length es = Z.to_nat w /\
  forall k e, es !! k = Some e -> entry_computes program op v (Z.of_nat k) e.

Lemma gatherBit_eq i o e es j :
  entries !! i = Some e -> _src op !! i = Some o -> length es = Z.to_nat w -> Forall entry_wf es -> 0 <= j < _numBits e ->
  exists le, gatherBit op i (isLiteral o) e w es j = Ok (<[Z.to_nat (_destOffset e + j) := le]> es) /\ entry_wf le /\
    entry_fits (length (_src op)) le /\
    forall σ, entry_val (bit_of (srcBits program σ op)) le = Z.testbit (srcInt program σ op i) (_sourceOffset e + j).
Proof.
  intros He Ho Hlen Hes Hj. destruct (id Hwf) as [Hsrcs H64 _ _].
  destruct (Forall_lookup_1 _ _ _ _ (gather_bounds _ _ _ Hg) He) as (? & ? & ? & ? & ?).
  pose proof (lookup_lt_Some _ _ _ Ho) as Hi.
  unfold gatherBit, u64_add. rewrite !u64_small by (unfold is_u64; lia).
  rewrite assert_true by (apply Z.ltb_lt; lia). cbn [mbind result_bind].
  destruct (lookup_lt_is_Some_2 es (Z.to_nat (_destOffset e + j))) as [le0 Hle0]; [lia|].
  rewrite (at_Some _ _ _ Hle0). cbn [mbind result_bind].
  destruct (Forall_lookup_1 _ _ _ _ Hes Hle0) as (_ & Hli & Hlb & _ & _).
  pose proof (ShouldSignExtend_eq op i Hi ltac:(lia)) as Hse. rewrite signExtends_mask0 in Hse by apply Hg.
  assert (Hsi : forall σ, srcInt program σ op i = srcBits program σ op i).
  { intros σ. unfold srcInt, srcBits. rewrite Ho. by rewrite signExtends_mask0 by apply Hg. }
  pose proof (Forall_lookup_1 _ _ _ _ Hsrcs Ho) as Howf. destruct o as [l|r| |]; try done; cbn [isLiteral].
  - destruct Howf as [Hl _]. rewrite (GetLiteralBit_eq _ _ _ _ _ Ho Hl Hse) by lia. cbn [mbind result_bind].
    eexists; split; [done|]. set (b := Z.testbit (lit_int l false) (_sourceOffset e + j)).
    assert (Hlwf : entry_wf (mkLutEntry 0 (_sourceIndices le0) (_sourceBit le0) (Z.b2z b))).
    { unfold entry_wf, columns. cbn. split_and!; try done; try (unfold c_maxLutSources; lia); try constructor; by destruct b. }
    split; [exact Hlwf|]. split; [split; [done|constructor]|]. intros σ.
    rewrite (srcInt_lookup _ _ _ _ _ Ho), signExtends_mask0 by apply Hg.
    change (operandInt program σ false (SrcLiteral l)) with (lit_int l false). fold b. by destruct b.
  - cbn [mbind result_bind]. eexists; split; [done|].
    assert (Hcols : columns (mkLutEntry 1 (<[0%nat:=i]> (_sourceIndices le0))
        (<[0%nat:=_sourceOffset e + j]> (_sourceBit le0)) 2) = [(i, _sourceOffset e + j)]).
    { unfold columns. cbn. destruct (_sourceIndices le0) as [|x xs]; [done|]. by destruct (_sourceBit le0) as [|y ys]. }
    assert (Hlwf : entry_wf (mkLutEntry 1 (<[0%nat:=i]> (_sourceIndices le0))
        (<[0%nat:=_sourceOffset e + j]> (_sourceBit le0)) 2)).
    { unfold entry_wf. rewrite Hcols. cbn [_numSources _sourceIndices _sourceBit _table].
      rewrite !length_insert. split_and!; try done; [unfold c_maxLutSources; lia|].
      constructor; [cbn; lia|constructor]. }
    split; [exact Hlwf|]. split; [split; [done|]|].
    + rewrite Hcols. by repeat constructor.
    + intros σ. unfold entry_val. rewrite Hcols. cbn. unfold bit_of. cbn. rewrite Hsi.
      by destruct (Z.testbit (srcBits program σ op i) _).
Qed.

Lemma gather_source i o e es :
  entries !! i = Some e -> _src op !! i = Some o ->
  gather_inv (fun σ => gatherPrefix program σ op entries i) es ->
  exists es', foldM (gatherBit op i (isLiteral o) e w) (seqZ 0 (_numBits e)) es = Ok es' /\
    gather_inv (fun σ => gatherPrefix program σ op entries (S i)) es'.
Proof.
  intros He Ho [Hlen Hinv]. pose proof (lookup_lt_Some _ _ _ He) as Hi.
  destruct (Forall_lookup_1 _ _ _ _ (gather_bounds _ _ _ Hg) He) as (? & ? & ? & ? & ?).
  (* the sources before [i] leave the range of [i] alone *)
  assert (Hzero : forall σ k, _destOffset e <= k < _destOffset e + _numBits e ->
    Z.testbit (gatherPrefix program σ op entries i) k = false).
  { intros σ k Hk. apply gatherPrefix_uncovered; [lia|lia|]. intros j ej Hj Hej.
    destruct (gather_disjoint _ _ _ Hg j i ej e Hj Hej He); lia. }
  destruct (foldM_seqZ_inv (gatherBit op i (isLiteral o) e w) (fun j es' =>
      length es' = Z.to_nat w /\ forall k le, es' !! k = Some le -> entry_fits (length (_src op)) le /\
        forall σ, entry_val (bit_of (srcBits program σ op)) le =
          if (_destOffset e <=? Z.of_nat k) && (Z.of_nat k <? _destOffset e + j)
          then Z.testbit (srcInt program σ op i) (_sourceOffset e + (Z.of_nat k - _destOffset e))
          else Z.testbit (gatherPrefix program σ op entries i) (Z.of_nat k)) (_numBits e) es) as (es' & -> & Hlen' & Hinv').
  - done.
  - split; [done|]. intros k le Hle. destruct (Hinv k le Hle) as [Hfit Hval]. split; [done|]. intros σ. rewrite Hval.
    rewrite Z.add_0_r. destruct (Z.leb_spec (_destOffset e) (Z.of_nat k)), (Z.ltb_spec (Z.of_nat k) (_destOffset e)); cbn; (done || lia).
  - intros j es1 Hj [Hlen1 Hinv1].
    destruct (gatherBit_eq i o e es1 j He Ho Hlen1) as (le & -> & Hwfle & Hfit & Hval); [|done|].
    { apply Forall_lookup. intros k le Hle. by destruct (Hinv1 k le Hle) as [[]]. }
    eexists; split; [done|]. rewrite length_insert. split; [done|]. intros k le' Hle'.
    destruct (decide (k = Z.to_nat (_destOffset e + j))) as [->|Hne].
    + rewrite list_lookup_insert_eq in Hle' by lia. injection Hle' as <-. split; [done|]. intros σ. rewrite Hval.
      rewrite Z2Nat.id by lia. rewrite (proj2 (Z.leb_le _ _)), (proj2 (Z.ltb_lt _ _)) by lia. cbn. f_equal. lia.
    + rewrite list_lookup_insert_ne in Hle' by done. destruct (Hinv1 k le' Hle') as [Hfit' Hval']. split; [done|].
      intros σ. rewrite Hval'. replace (Z.of_nat k <? _destOffset e + (j + 1)) with (Z.of_nat k <? _destOffset e + j); [done|].
      apply Bool.eq_iff_eq_true. rewrite !Z.ltb_lt. lia.
  - eexists; split; [done|]. split; [done|]. intros k le Hle. destruct (Hinv' k le Hle) as [Hfit Hval].
    split; [done|]. intros σ. rewrite Hval, (gatherPrefix_S σ i e He), Z.lor_spec, testbit_slice by lia.
    destruct ((_destOffset e <=? Z.of_nat k) && (Z.of_nat k <? _destOffset e + _numBits e)) eqn:Hr; cbn.
    + bool_to_prop. by rewrite Hzero by lia.
    + by rewrite orb_false_r.
Qed.

End Gather.

Lemma LutEntry_zero_fill : LutEntry_zero = fill_entry [] 0.
Proof. reflexivity. Qed.

Lemma ConvertGatherOpToLut_eq program op entries w :
  op_wf program op -> _opcode op = Gather entries -> dstWidth program op = Ok w -> gather_wf op entries w ->
  exists es, ConvertGatherOpToLut program op entries = Ok (set_lut op es) /\
    lut_wf program (set_lut op es) es /\ equivalent program op (set_lut op es).
Proof.
  intros Hwf Hop Hw Hg. destruct (id Hwf) as [Hsrcs H64 _ (d & w' & Hd & Hw' & Hwb)]. rewrite Hw in Hw'. injection Hw' as <-.
  pose proof (gather_length _ _ _ Hg) as Hlen.
  unfold ConvertGatherOpToLut. rewrite Hd. cbn [length Nat.eqb assert_ mbind result_bind].
  rewrite assert_true by (by apply Nat.eqb_eq). cbn [mbind result_bind]. rewrite Hw. cbn [mbind result_bind].
  destruct (foldM_seq_inv (fun es i =>
      gatherEntry ← at_ entries i;
      srcOp ← at_ (_src op) i;
      foldM (gatherBit op i (isLiteral srcOp) gatherEntry w) (seqZ 0 (_numBits gatherEntry)) es)
    (fun i es => gather_inv program op w (fun σ => gatherPrefix program σ op entries i) es)
    (length (_src op)) (replicate (Z.to_nat w) LutEntry_zero)) as (es & -> & Hlen' & Hes).
  - split; [apply length_replicate|]. intros k e He. apply lookup_replicate in He as [-> _].
    rewrite LutEntry_zero_fill. split; [apply entry_fits_const|]. intros σ. rewrite entry_val_const. unfold gatherPrefix.
    by rewrite take_0, Z.bits_0.
  - intros i es Hi Hinv. destruct (lookup_lt_is_Some_2 entries i) as [e He]; [lia|].
    destruct (lookup_lt_is_Some_2 (_src op) i) as [o Ho]; [lia|].
    rewrite (at_Some _ _ _ He), (at_Some _ _ _ Ho). cbn [mbind result_bind]. by apply gather_source.
  - cbn [mbind result_bind]. exists es. split; [done|].
    apply (set_lut_correct program op w es (fun σ => gatherInt program σ op entries)); try done.
    + intros σ. unfold opInt. by rewrite Hop.
    + apply Forall2_same_length_lookup_2; [by rewrite length_seqZ|]. intros k kz e Hk He.
      apply lookup_seqZ in Hk as [-> _]. destruct (Hes k e He) as [Hfit Hval]. split; [done|]. intros σ. rewrite Hval.
      unfold gatherPrefix, gatherInt. rewrite take_ge; [done|]. rewrite length_zip_with, length_seq. lia.
Qed.

End LutLowerSelect.
