(* ===== verification/LutLowerCorrect.v ===== *)
(** * [LowerToLut] is correct

    The dispatcher over the conversions, for every opcode that it accepts. *)

From S2P Require Import Prelude MachineInt Literals Ir LutOpt LutFacts Semantics LutLower LutLowerFacts.
Import MachineInt Literals Ir LutOpt LutFacts LutCofactor Semantics LutPasses LutConst LutLower LutLowerFacts.
Import LutLowerOps LutLowerSelect.

Module LutLowerCorrect.

Definition is_shift (t : ParseTreeBinaryOpType) : bool :=
  match t with ParseTreeBinaryOpTypeShl | ParseTreeBinaryOpTypeShr => true | _ => false end.

Definition totalBits (program : Program) (op : Operation) : Z := fold_left Z.add (operandBits program <$> _src op) 0.

(** The operations [LowerToLut] is called on *)
Definition lowerable (program : Program) (op : Operation) (w : Z) : Prop :=
  match _opcode op with
  | Mov => length (_src op) = 1%nat
  | Clear => length (_src op) = 0%nat
  | UnaryOp t => length (_src op) = 1%nat /\ t = ParseTreeUnaryOpTypeInvert
  | BinaryOp t =>
      length (_src op) = 2%nat /\
      (is_shift t = true -> signExtends op 1 = false /\ forall l, _src op !! 1%nat = Some (SrcLiteral l) -> _value l < 2 ^ 64) /\
      (totalBits program op <= 6 -> binary_defined program op t w)
  | Select => exists nib, select_wf program op nib
  | Gather entries => gather_wf op entries w
  | LutOp lut => lut_wf program op (_lutEntries lut)
  | _ => False
  end.

(** The operations that always become a table *)
Definition always_lowered (opcode : Opcode) : bool :=
  match opcode with
  | Mov | Clear | UnaryOp _ | Gather _ | LutOp _ => true
  | BinaryOp t => match t with ParseTreeBinaryOpTypeAnd | ParseTreeBinaryOpTypeOr | ParseTreeBinaryOpTypeXor => true
                  | _ => false end
  | _ => false
  end.

Definition lower_result (program : Program) (op op' : Operation) : Prop :=
  (op' = op /\ isLut op = false) \/
  exists es, op' = set_lut op es /\ lut_wf program op' es /\ equivalent program op op'.

Lemma lower_result_lut program op f :
  (exists es, f = Ok (set_lut op es) /\ lut_wf program (set_lut op es) es /\ equivalent program op (set_lut op es)) ->
  exists op', f = Ok op' /\ lower_result program op op' /\ isLut op' = true.
Proof. intros (es & -> & ? & ?). eexists; split; [done|]. split; [|done]. right. by exists es. Qed.

(** ** Pointwise operators *)

Definition pointwise_table (t : ParseTreeBinaryOpType) : option Z :=
  match t with
  | ParseTreeBinaryOpTypeAnd => Some 8
  | ParseTreeBinaryOpTypeOr => Some 14
  | ParseTreeBinaryOpTypeXor => Some 6
  | _ => None
  end.

Lemma pointwise_binary program op t table :
  op_wf program op -> _opcode op = BinaryOp t -> length (_src op) = 2%nat -> pointwise_table t = Some table ->
  exists es, ConvertPointwiseOpToLut program op table = Ok (set_lut op es) /\
    lut_wf program (set_lut op es) es /\ equivalent program op (set_lut op es).
Proof.
  intros Hwf Hop Hlen Ht.
  apply (ConvertPointwiseOpToLut_eq program op table (fun σ => binop_spec t (srcInt program σ op 0) (srcInt program σ op 1))).
  - done.
  - rewrite Hlen. unfold c_maxLutSources. lia.
  - intros σ. unfold opInt. by rewrite Hop.
  - intros σ k Hk. rewrite Hlen. cbn [seq fmap list_fmap].
    destruct t; try discriminate Ht; injection Ht as <-; cbn [binop_spec];
      rewrite ?Z.land_spec, ?Z.lor_spec, ?Z.lxor_spec;
      by destruct (Z.testbit (srcInt program σ op 0) k), (Z.testbit (srcInt program σ op 1) k).
Qed.

Lemma pointwise_unary program op table v :
  op_wf program op -> length (_src op) = 1%nat -> (forall σ, opInt program σ op = Some (v σ)) ->
  (forall σ k, 0 <= k -> Z.testbit (v σ) k = Z.testbit table (Z.b2z (Z.testbit (srcInt program σ op 0) k))) ->
  exists es, ConvertPointwiseOpToLut program op table = Ok (set_lut op es) /\
    lut_wf program (set_lut op es) es /\ equivalent program op (set_lut op es).
Proof.
  intros Hwf Hlen Hv Ht. apply (ConvertPointwiseOpToLut_eq program op table v); try done.
  - rewrite Hlen. unfold c_maxLutSources. lia.
  - intros σ k Hk. rewrite (Ht σ k Hk), Hlen. cbn [seq fmap list_fmap bits_to_Z]. do 2 f_equal. lia.
Qed.

(** ** Binary operators *)

Lemma ConvertBinaryOpToLut_large program op type :
  op_wf program op -> length (_src op) = 2%nat -> 6 < totalBits program op -> ConvertBinaryOpToLut program op type = Ok op.
Proof.
  intros [Hsrcs H64 _ (d & w & Hd & Hw & _)] Hlen Hb. unfold ConvertBinaryOpToLut.
  rewrite Hlen, Hd. cbn [length Nat.eqb assert_ mbind result_bind]. rewrite inputBits_eq by done. cbn [mbind result_bind].
  rewrite Hw. cbn [mbind result_bind]. fold (totalBits program op).
  by rewrite (proj2 (Z.leb_gt _ _)) by (unfold c_maxLutSources; lia).
Qed.

Lemma ConvertBinaryOpToLut_any program op t w :
  op_wf program op -> _opcode op = BinaryOp t -> length (_src op) = 2%nat -> dstWidth program op = Ok w ->
  (totalBits program op <= 6 -> binary_defined program op t w) ->
  exists op', ConvertBinaryOpToLut program op t = Ok op' /\ lower_result program op op'.
Proof.
  intros Hwf Hop Hlen Hw Hdef. destruct (Z.le_gt_cases (totalBits program op) 6) as [Hle|Hgt].
  - destruct (_src op) as [|o0 [|o1 [|]]] eqn:Hs; try discriminate Hlen.
    destruct (ConvertBinaryOpToLut_eq program op t o0 o1 w) as (es & -> & ? & ?); try done; [|by apply Hdef|].
    { unfold totalBits in Hle. rewrite Hs in Hle. cbn in Hle. lia. }
    eexists; split; [done|]. right. by exists es.
  - rewrite ConvertBinaryOpToLut_large by done. eexists; split; [done|]. left. split; [done|]. unfold isLut. by rewrite Hop.
Qed.

Lemma ConvertShiftOpToLut_any program op t :
  op_wf program op -> _opcode op = BinaryOp t -> length (_src op) = 2%nat -> is_shift t = true ->
  signExtends op 1 = false -> (forall l, _src op !! 1%nat = Some (SrcLiteral l) -> _value l < 2 ^ 64) ->
  exists op', ConvertShiftOpToLut program op t = Ok op' /\ lower_result program op op'.
Proof.
  intros Hwf Hop Hlen Ht Hs1 Hl64. destruct (id Hwf) as [Hsrcs H64 _ (d & w & Hd & Hw & _)].
  assert (Ht' : t = ParseTreeBinaryOpTypeShl \/ t = ParseTreeBinaryOpTypeShr) by (destruct t; try discriminate Ht; auto).
  destruct (_src op) as [|o0 [|o1 [|]]] eqn:Hs; try discriminate Hlen.
  destruct (decide (isLiteral o0 = false /\ isLiteral o1 = true)) as [[H0 H1]|Hn].
  - inversion_clear Hsrcs as [|?? Hw0 _]. destruct o0 as [l0|r|f0|s0], o1 as [l|r1|f1|s1]; try done.
    destruct (ConvertShiftOpToLut_eq program op t l r Ht' Hop Hwf Hs Hs1 (Hl64 l eq_refl)) as (es & -> & ? & ?).
    eexists; split; [done|]. right. by exists es.
  - exists op. split; [|left; split; [done|]; unfold isLut; by rewrite Hop].
    unfold ConvertShiftOpToLut. rewrite !ShouldSignExtend_eq by (rewrite ?Hs; cbn; lia). rewrite Hs, Hd, Hs1.
    unfold at_. cbn. destruct (isLiteral o0) eqn:H0, (isLiteral o1) eqn:H1; try done. by destruct Hn.
Qed.

Lemma LowerBinaryOp_eq program op t w :
  op_wf program op -> _opcode op = BinaryOp t -> dstWidth program op = Ok w -> lowerable program op w ->
  exists op', LowerBinaryOp program op t = Ok op' /\ lower_result program op op' /\
    (always_lowered (_opcode op) = true -> isLut op' = true).
Proof.
  intros Hwf Hop Hw Hlow. unfold lowerable in Hlow. rewrite Hop in Hlow. destruct Hlow as (Hlen & Hshift & Hdef).
  destruct (id Hwf) as [_ _ _ (d & w' & Hd & _ & _)].
  unfold LowerBinaryOp, assert_arity. rewrite Hlen, Hd. cbn [length Nat.eqb assert_ mbind result_bind].
  destruct (pointwise_table t) as [table|] eqn:Hpt.
  - destruct (lower_result_lut _ _ _ (pointwise_binary program op t table Hwf Hop Hlen Hpt)) as (op' & Hop' & Hres & Hlut).
    exists op'. split; [|done].
    destruct t; try discriminate Hpt; injection Hpt as <-; rewrite Hop'; cbn [mbind result_bind]; by rewrite Hlut.
  - assert (Hnl : isLut op = false) by (unfold isLut; by rewrite Hop).
    assert (Hal : always_lowered (_opcode op) = true -> False) by (rewrite Hop; by destruct t).
    destruct (is_shift t) eqn:Hs.
    + destruct (Hshift eq_refl) as [Hs1 Hl64].
      destruct (ConvertShiftOpToLut_any program op t Hwf Hop Hlen Hs Hs1 Hl64) as (op' & Hop' & Hres).
      assert (Hm : match t with
        | ParseTreeBinaryOpTypeAnd => ConvertPointwiseOpToLut program op 8
        | ParseTreeBinaryOpTypeOr => ConvertPointwiseOpToLut program op 14
        | ParseTreeBinaryOpTypeXor => ConvertPointwiseOpToLut program op 6
        | ParseTreeBinaryOpTypeShl | ParseTreeBinaryOpTypeShr => ConvertShiftOpToLut program op t
        | _ => Ok op end = Ok op') by (destruct t; try discriminate Hs; exact Hop').
      rewrite Hm. cbn [mbind result_bind]. destruct Hres as [[-> _]|(es & -> & Hes)].
      * rewrite Hnl. destruct (ConvertBinaryOpToLut_any program op t w Hwf Hop Hlen Hw Hdef) as (op'' & -> & ?).
        exists op''. split; [done|]. split; [done|]. intros H'. by destruct Hal.
      * cbn [isLut set_lut _opcode]. exists (set_lut op es). split; [done|]. split; [|done]. right. by exists es.
    + assert (Hm : match t with
        | ParseTreeBinaryOpTypeAnd => ConvertPointwiseOpToLut program op 8
        | ParseTreeBinaryOpTypeOr => ConvertPointwiseOpToLut program op 14
        | ParseTreeBinaryOpTypeXor => ConvertPointwiseOpToLut program op 6
        | ParseTreeBinaryOpTypeShl | ParseTreeBinaryOpTypeShr => ConvertShiftOpToLut program op t
        | _ => Ok op end = Ok op) by (by destruct t).
      rewrite Hm. cbn [mbind result_bind]. rewrite Hnl.
      destruct (ConvertBinaryOpToLut_any program op t w Hwf Hop Hlen Hw Hdef) as (op'' & -> & ?).
      exists op''. split; [done|]. split; [done|]. intros H'. by destruct Hal.
Qed.

(** ** [LowerToLut] *)

Lemma clear_mask_id op : _signExtendSourceMask op = 0 -> clear_mask op = op.
Proof. destruct op; cbn. by intros ->. Qed.

Lemma lower_dispatch program op w :
  op_wf program op -> dstWidth program op = Ok w -> lowerable program op w ->
  exists op', match _opcode op with
       | Mov => assert_arity 1 op;; ConvertPointwiseOpToLut program op 2
       | Clear => assert_arity 0 op;; ConvertPointwiseOpToLut program op 0
       | UnaryOp t =>
           assert_arity 1 op;;
           assert_ (bool_decide (t = ParseTreeUnaryOpTypeInvert));;
           ConvertPointwiseOpToLut program op 1
       | BinaryOp t => LowerBinaryOp program op t
       | Select => ConvertSelectOpToLut program op
       | Gather entries => ConvertGatherOpToLut program op entries
       | LutOp _ => Ok op
       | _ => Err AssertionFailed
       end = Ok op' /\ lower_result program op op' /\ (always_lowered (_opcode op) = true -> isLut op' = true).
Proof.
  intros Hwf Hw Hlow. destruct (id Hwf) as [_ _ _ (d & w' & Hd & _ & _)]. pose proof Hlow as Hlow0.
  assert (Hlut : forall f, (exists es, f = Ok (set_lut op es) /\ lut_wf program (set_lut op es) es /\
      equivalent program op (set_lut op es)) ->
    exists op', f = Ok op' /\ lower_result program op op' /\ (always_lowered (_opcode op) = true -> isLut op' = true)).
  { intros f Hf. destruct (lower_result_lut _ _ _ Hf) as (op' & -> & ? & ?). by exists op'. }
  unfold lowerable in Hlow. destruct (_opcode op) eqn:Hop; try done;
    unfold assert_arity; rewrite ?Hd; cbn [length Nat.eqb].
  - rewrite Hlow. cbn [Nat.eqb assert_ mbind result_bind]. apply Hlut.
    apply (pointwise_unary program op 2 (fun σ => srcInt program σ op 0)); try done.
    + intros σ. unfold opInt. by rewrite Hop.
    + intros σ k _. by destruct (Z.testbit _ k).
  - rewrite Hlow. cbn [Nat.eqb assert_ mbind result_bind]. apply Hlut.
    apply (ConvertPointwiseOpToLut_eq program op 0 (fun _ => 0)); try done.
    + rewrite Hlow. unfold c_maxLutSources. lia.
    + intros σ. unfold opInt. by rewrite Hop.
    + intros σ k _. by rewrite !Z.bits_0.
  - destruct Hlow as [Hlen ->]. rewrite Hlen. cbn [Nat.eqb assert_ mbind result_bind]. apply Hlut.
    apply (pointwise_unary program op 1 (fun σ => Z.lnot (srcInt program σ op 0))); try done.
    + intros σ. unfold opInt. by rewrite Hop.
    + intros σ k Hk. rewrite Z.lnot_spec by done. by destruct (Z.testbit _ k).
  - rewrite <- Hop. eapply LowerBinaryOp_eq; done.
  - destruct Hlow as (nib & Hsel). destruct (ConvertSelectOpToLut_eq program op nib Hwf Hop Hsel) as (op' & -> & Hres).
    exists op'. split; [done|]. split; [|done]. destruct Hres as [->|Hres]; [left|by right].
    split; [done|]. unfold isLut. by rewrite Hop.
  - apply Hlut. by eapply ConvertGatherOpToLut_eq.
  - exists op. split; [done|]. assert (Hm : set_lut op (_lutEntries _lut) = op).
    { unfold set_lut. destruct op as [o m ? ? ?]. cbn in *. subst o. pose proof (lut_mask _ _ _ Hlow) as Hm. cbn in Hm.
      subst m. by destruct _lut. }
    split; [|intros _; unfold isLut; by rewrite Hop].
    right. exists (_lutEntries _lut). by rewrite Hm.
Qed.

Lemma LowerToLut_sound program op w :
  op_wf program op -> dstWidth program op = Ok w -> lowerable program op w ->
  exists b op', LowerToLut program op = Ok (b, op') /\ equivalent program op op' /\
    _src op' = _src op /\ _dst op' = _dst op /\ _locations op' = _locations op /\
    (if b then exists es, lut_wf program op' es else op' = op) /\
    (always_lowered (_opcode op) = true -> b = true).
Proof.
  intros Hwf Hw Hlow. unfold LowerToLut.
  rewrite assert_true by (unfold lowerable in Hlow; by destruct (_opcode op)). cbn [mbind result_bind].
  destruct (lower_dispatch program op w Hwf Hw Hlow) as (op' & -> & Hres & Hal). cbn [mbind result_bind].
  destruct Hres as [[-> Hl]|(es & -> & Hes & Heq)].
  - rewrite Hl in Hal. rewrite Hl, Hl. exists false, op. by split_and!.
  - cbn [isLut set_lut _opcode]. exists true, (set_lut op es). split; [done|]. split_and!; try done. by exists es.
Qed.


(** ** A sample: [d = w >> 3], arithmetic, and [s = a > s] *)

Definition sample_shr : Operation :=
  mkOperation (BinaryOp ParseTreeBinaryOpTypeShr) 1 ∅ [sample_reg 1; sample_lit 3 2] [sample_dst 2].


(** Bit 0 is bit 3 of the operand, bit 1 its sign. *)
Example LowerToLut_sample :
  LowerToLut sample_program sample_shr =
    Ok (true, mkOperation (LutOp (mkLut [fill_entry [(0%nat, 3)] 2; fill_entry [(0%nat, 3)] 2])) 0 ∅
                [sample_reg 1; sample_lit 3 2] [sample_dst 2]).
Proof. vm_compute. reflexivity. Qed.

End LutLowerCorrect.
