(* ===== verification/LutColumns.v ===== *)
(** * The bits that a look-up table reads

    [LowerToLut] reads registers within their width ([LowerToLut_columns]): a table
    has no column beyond the register behind it, as long as the operation itself
    selects none ([source_bits]). *)

From S2P Require Import Prelude MachineInt Literals Ir LutOpt LutFacts Semantics LutLower LutLowerFacts LutLowerCorrect.
Import MachineInt Literals Ir LutOpt LutFacts Semantics LutPasses LutLower LutLowerFacts LutLowerOps LutLowerSelect LutLowerCorrect.

Module LutColumns.

Section Columns.
Context (program : Program).

(** Bit [c.2] of operand [c.1] is a bit of a register. *)
Definition column_in (src : list SourceOperand) (c : nat * Z) : Prop :=
  exists r d, src !! c.1 = Some (SrcRegister r) /\ _registerTable program !! _registerIndex r = Some d /\ c.2 < _regWidth d.

Definition columns_in (op : Operation) (es : list LutEntry) : Prop := Forall (fun e => Forall (column_in (_src op)) (columns e)) es.

(** The bits that an operation selects itself *)
Definition source_bits (op : Operation) : Prop :=
  match _opcode op with
  | LutOp lut => columns_in op (_lutEntries lut)
  | Gather entries => forall i e r d, entries !! i = Some e -> _src op !! i = Some (SrcRegister r) -> _registerTable program !! _registerIndex r = Some d -> _sourceOffset e + _numBits e <= _regWidth d
  | _ => True
  end.

Lemma columns_in_registers op es : columns_in op es -> columns_are_registers op es.
Proof. intros H. eapply Forall_impl; [exact H|]. intros e He. eapply Forall_impl; [exact He|]. intros c (r & d & Hr & _). by exists r. Qed.

Lemma columns_in_subset op es es' : Forall2 (fun e e' => columns e' ⊆ columns e) es es' -> columns_in op es -> columns_in op es'.
Proof.
  intros Hs H. apply Forall_forall. intros e' He'. apply list_elem_of_lookup in He' as [k Hk]. destruct (Forall2_lookup_r _ _ _ _ _ Hs Hk) as (e & He & Hsub).
  pose proof (Forall_lookup_1 _ _ _ _ H He) as Hin. rewrite Forall_forall in Hin |- *. intros c Hc. by apply Hin, Hsub.
Qed.

Lemma width_column src i r w b : src !! i = Some (SrcRegister r) -> registerWidth program (_registerIndex r) = Ok w -> b < w -> column_in src (i, b).
Proof. intros Hr Hw Hb. unfold registerWidth in Hw. apply bind_Ok in Hw as (d & Hd%at_Ok & [= <-]). by exists r, d. Qed.

(** ** Descriptions of source bits *)

Definition desc_in (src : list SourceOperand) (i : nat) (d : LutSourceDesc) : Prop := _isLiteral d = false -> column_in src (i, _srcBitIndex d).

Lemma GetSourceOperandDescription_in op k i d : Forall (operand_wf program) (_src op) -> GetSourceOperandDescription program op k i = Ok d -> desc_in (_src op) i d.
Proof.
  intros Hwf H. unfold GetSourceOperandDescription in H. apply bind_Ok in H as (o & Ho%at_Ok & H). pose proof (Forall_lookup_1 _ _ _ _ Hwf Ho) as How.
  destruct o as [l|r| |]; try done; cbn [isLiteral] in H; [by apply bind_Ok in H as (v & _ & [= <-])|]. apply bind_Ok in H as (w & Hw & H). apply bind_Ok in H as (u & Hpos%assert_Ok & H). apply Z.ltb_lt in Hpos.
  destruct (Z.ltb_spec k w); [injection H as <-; intros _; by apply (width_column _ _ r w)|]. apply bind_Ok in H as (s & _ & [= <-]). destruct s; [|done]. intros _. apply (width_column _ _ r w); [done|done|]. cbn. lia.
Qed.

Lemma GetSourceOperandDescriptions_in op k ds : Forall (operand_wf program) (_src op) -> GetSourceOperandDescriptions program op k = Ok ds -> forall i d, ds !! i = Some d -> desc_in (_src op) i d.
Proof.
  intros Hwf H i d Hd. unfold GetSourceOperandDescriptions in H. apply mapM_Forall2 in H. destruct (Forall2_lookup_r _ _ _ _ _ H Hd) as (j & Hj & Hdesc). apply lookup_seq in Hj as [-> _]. by eapply GetSourceOperandDescription_in.
Qed.

Lemma descColumns_in src k ds : (forall i d, ds !! i = Some d -> desc_in src (k + i) d) -> Forall (column_in src) (descColumns k ds).
Proof.
  intros H. unfold descColumns. apply fold_left_inv; [constructor|]. intros acc [i d] Hid Hacc. destruct (_isLiteral d) eqn:El; cbn; rewrite El; [done|]. apply Forall_app. split; [done|]. apply Forall_singleton.
  apply list_elem_of_lookup in Hid as [n Hn]. apply lookup_zip_Some in Hn as [Hi Hd]. apply lookup_seq in Hi as [-> _]. cbn. by apply (H n d).
Qed.

Lemma fill_in src cols t : (length cols <= c_maxLutSources)%nat -> Forall (column_in src) cols -> Forall (column_in src) (columns (fill_entry cols t)).
Proof. intros Hl H. by rewrite columns_fill. Qed.

(** A loop that makes one entry for each bit *)
Lemma entries_in {A} op (f : A -> result LutEntry) l es : mapM_ f l = Ok es -> (forall k e, f k = Ok e -> Forall (column_in (_src op)) (columns e)) -> columns_in op es.
Proof. intros H Hf. apply mapM_Forall2 in H. unfold columns_in. induction H as [|k e l es Hk _ IH]; constructor; [by apply (Hf k)|done]. Qed.

(** ** The conversions *)

Lemma Pointwise_in op table op1 es : Forall (operand_wf program) (_src op) -> ConvertPointwiseOpToLut program op table = Ok op1 -> _opcode op1 = LutOp (mkLut es) -> columns_in op1 es.
Proof.
  intros Hwf H Hes. unfold ConvertPointwiseOpToLut in H. apply bind_Ok in H as (? & _ & H). apply bind_Ok in H as (w & _ & H). apply bind_Ok in H as (? & _ & H). apply bind_Ok in H as (es' & H & [= <-]). cbn in Hes. injection Hes as <-.
  apply (entries_in op _ _ _ H). intros k e He. unfold PointwiseEntry in He. apply bind_Ok in He as (ds & Hds & He). apply bind_Ok in He as (? & Hl%assert_Ok & He). apply bind_Ok in He as (t & _ & [= <-]). apply Nat.leb_le in Hl.
  apply fill_in; [done|]. apply descColumns_in. by apply (GetSourceOperandDescriptions_in op k).
Qed.

Lemma Shift_in op t op1 es : Forall (operand_wf program) (_src op) -> ConvertShiftOpToLut program op t = Ok op1 -> isLut op = false -> _opcode op1 = LutOp (mkLut es) -> columns_in op1 es.
Proof.
  intros Hwf H Hl Hes. unfold ConvertShiftOpToLut in H. do 2 apply bind_Ok in H as (? & _ & H). apply bind_Ok in H as (src0 & H0%at_Ok & H). apply bind_Ok in H as (src1 & _ & H). do 3 apply bind_Ok in H as (? & _ & H).
  pose proof (Forall_lookup_1 _ _ _ _ Hwf H0) as How. destruct (negb (isLiteral src0) && isLiteral src1) eqn:Hc; [|injection H as <-; unfold isLut in Hl; by rewrite Hes in Hl].
  do 2 apply bind_Ok in H as (? & _ & H). apply bind_Ok in H as (w & Hw & H). apply bind_Ok in H as (? & _ & H). apply bind_Ok in H as (es' & H & [= <-]). cbn in Hes. injection Hes as <-.
  apply (entries_in op _ _ _ H). intros k e He. unfold ShiftEntry in He. apply bind_Ok in He as (b & _ & He). destruct b as [b|]; [|injection He as <-; by apply fill_in; [cbn; unfold c_maxLutSources; lia|]].
  apply bind_Ok in He as (? & Hb%assert_Ok & [= <-]). apply Z.ltb_lt in Hb. apply fill_in; [cbn; unfold c_maxLutSources; lia|]. apply Forall_singleton. destruct src0 as [l0|r| |]; try done. by apply (width_column _ _ r w).
Qed.

Lemma binaryColumns_in op cols : binaryColumns program op = Ok cols -> Forall (column_in (_src op)) cols.
Proof.
  unfold binaryColumns. apply foldM_result_inv; [|constructor]. intros acc i acc' _ Hacc H. apply bind_Ok in H as (o & Ho%at_Ok & H). destruct o as [l0|r| |]; try by injection H as <-.
  apply bind_Ok in H as (w & Hw & [= <-]). apply Forall_app. split; [done|]. apply Forall_fmap, Forall_forall. intros b Hb%elem_of_seqZ. cbn. apply (width_column _ _ r w); [done|done|lia].
Qed.

Lemma Binary_in op t op1 es : ConvertBinaryOpToLut program op t = Ok op1 -> isLut op = false -> _opcode op1 = LutOp (mkLut es) -> columns_in op1 es.
Proof.
  intros H Hl Hes. unfold ConvertBinaryOpToLut in H. do 2 apply bind_Ok in H as (? & _ & H). apply bind_Ok in H as (n & _ & H). apply bind_Ok in H as (w & _ & H).
  destruct (Z.leb_spec n (Z.of_nat c_maxLutSources)); [|injection H as <-; unfold isLut in Hl; by rewrite Hes in Hl]. apply bind_Ok in H as (results & _ & H). apply bind_Ok in H as (cols & Hcols & H). apply bind_Ok in H as (es' & H & [= <-]).
  cbn in Hes. injection Hes as <-. apply (entries_in op _ _ _ H). intros k e He. unfold BinaryEntry in He. apply bind_Ok in He as (? & Hn%assert_Ok & He). apply bind_Ok in He as (tb & _ & [= <-]). apply Z.eqb_eq in Hn.
  apply fill_in; [lia|by apply binaryColumns_in].
Qed.

Lemma SelectEntries_in op numChoices n w ks es r : Forall (operand_wf program) (_src op) -> _src op !! 0%nat = Some (SrcRegister r) -> registerWidth program (_registerIndex r) = Ok w -> n <= w ->
  SelectEntries program op numChoices n ks = Ok (Some es) -> columns_in op es.
Proof.
  intros Hwf Hr Hw Hn. revert es. induction ks as [|k ks IH]; intros es H; cbn [SelectEntries] in H; [injection H as <-; constructor|]. apply bind_Ok in H as (e & He & H). destruct e as [e|]; [|done]. apply bind_Ok in H as (es' & Hes & H).
  destruct es' as [es'|]; [injection H as <-|done]. constructor; [|by apply IH]. unfold SelectEntry in He. apply bind_Ok in He as (ds & Hds & He). set (cols := (pair 0%nat <$> seqZ 0 n) ++ descColumns 1 (tail ds)) in *.
  destruct (Nat.ltb_spec c_maxLutSources (length cols)) as [|Hl]; [done|]. apply bind_Ok in He as (tb & _ & [= <-]). apply fill_in; [done|]. apply Forall_app. split.
  - apply Forall_fmap, Forall_forall. intros b Hb%elem_of_seqZ. cbn. apply (width_column _ _ r w); [done|done|lia].
  - apply descColumns_in. intros i d Hd. apply (GetSourceOperandDescriptions_in op k ds Hwf Hds (1 + i)). rewrite <- Hd. by destruct ds.
Qed.

Lemma Select_in op op1 es : Forall (operand_wf program) (_src op) -> ConvertSelectOpToLut program op = Ok op1 -> isLut op = false -> _opcode op1 = LutOp (mkLut es) -> columns_in op1 es.
Proof.
  intros Hwf H Hl Hes. assert (Hsame : op1 = op -> columns_in op1 es) by (intros ->; unfold isLut in Hl; by rewrite Hes in Hl). unfold ConvertSelectOpToLut in H. apply bind_Ok in H as (? & _ & H). apply bind_Ok in H as (src0 & H0%at_Ok & H).
  destruct src0 as [l0|r| |]; cbn [isRegister] in H; try (injection H as <-; by apply Hsame). apply bind_Ok in H as (? & _ & H). apply bind_Ok in H as (n & _ & H). apply bind_Ok in H as (w & Hw & H). apply bind_Ok in H as (? & Hn%assert_Ok & H).
  apply bind_Ok in H as (dw & _ & H). apply bind_Ok in H as (es' & Hent & H). destruct es' as [es'|]; [|injection H as <-; by apply Hsame]. injection H as <-. cbn in Hes. injection Hes as <-. apply Z.leb_le in Hn. by apply (SelectEntries_in op _ n w _ es' r Hwf H0 Hw Hn Hent).
Qed.

Lemma gatherBit_in op i (lit : bool) e w es j es' : (lit = false -> column_in (_src op) (i, u64_add (_sourceOffset e) j)) -> columns_in op es -> gatherBit op i lit e w es j = Ok es' -> columns_in op es'.
Proof.
  intros Hc Hes H. unfold gatherBit in H. apply bind_Ok in H as (? & _ & H). apply bind_Ok in H as (le & _ & H). apply bind_Ok in H as (le' & Hle & [= <-]). apply Forall_insert; [done|].
  destruct lit; [apply bind_Ok in Hle as (v & _ & [= <-]); constructor|]. injection Hle as <-. unfold columns. cbn [_numSources _sourceIndices _sourceBit].
  destruct (_sourceIndices le) as [|i0 idxs]; [constructor|]. destruct (_sourceBit le) as [|b0 bs]; [constructor|]. cbn. constructor; [by apply Hc|constructor].
Qed.

Lemma Gather_in op entries op1 es w : _opcode op = Gather entries -> Forall (operand_wf program) (_src op) -> gather_wf op entries w -> source_bits op -> ConvertGatherOpToLut program op entries = Ok op1 -> _opcode op1 = LutOp (mkLut es) -> columns_in op1 es.
Proof.
  intros Ho Hwf Hg Hb H Hes. unfold source_bits in Hb. rewrite Ho in Hb. unfold ConvertGatherOpToLut in H. do 2 apply bind_Ok in H as (? & _ & H). apply bind_Ok in H as (dw & _ & H). apply bind_Ok in H as (es' & H & [= <-]). cbn in Hes. injection Hes as <-.
  apply (foldM_result_inv _ (columns_in op)) in H; [exact H| |apply Forall_replicate; constructor]. intros es1 i es2 _ Hes1 H1. apply bind_Ok in H1 as (e & He%at_Ok & H1). apply bind_Ok in H1 as (o & Hop%at_Ok & H1).
  apply (foldM_result_inv _ (columns_in op)) in H1; [exact H1| |done]. intros es3 j es4 Hj%elem_of_seqZ Hes3. apply gatherBit_in; [|done]. intros Hlit. pose proof (Forall_lookup_1 _ _ _ _ Hwf Hop) as How. destruct o as [l0|r| |]; try done. destruct How as (d & Hd & Hw).
  pose proof (Forall_lookup_1 _ _ _ _ (gather_bounds _ _ _ Hg) He) as (Hs & _). cbn in Hs. specialize (Hb i e r d He Hop Hd). exists r, d. split_and!; [done|done|]. cbn. unfold u64_add. rewrite u64_small by (unfold is_u64; lia). lia.
Qed.

Lemma clear_mask_in op es : columns_in op es -> columns_in (clear_mask op) es.
Proof. done. Qed.

Lemma LowerBinaryOp_in op t op1 es : Forall (operand_wf program) (_src op) -> isLut op = false -> LowerBinaryOp program op t = Ok op1 -> _opcode op1 = LutOp (mkLut es) -> columns_in op1 es.
Proof.
  intros Hwf Hl H Hes. unfold LowerBinaryOp in H. apply bind_Ok in H as (? & _ & H). apply bind_Ok in H as (op2 & H2 & H).
  assert (Hfirst : (op2 = op \/ isLut op2 = true /\ forall es, _opcode op2 = LutOp (mkLut es) -> columns_in op2 es)).
  { assert (Hp : forall table, ConvertPointwiseOpToLut program op table = Ok op2 -> isLut op2 = true /\ forall es, _opcode op2 = LutOp (mkLut es) -> columns_in op2 es).
    { intros table Ht. split; [|intros es2; by apply (Pointwise_in op table)]. unfold ConvertPointwiseOpToLut in Ht. do 3 apply bind_Ok in Ht as (? & _ & Ht). by apply bind_Ok in Ht as (? & _ & [= <-]). }
    assert (Hs : ConvertShiftOpToLut program op t = Ok op2 -> op2 = op \/ isLut op2 = true /\ forall es, _opcode op2 = LutOp (mkLut es) -> columns_in op2 es).
    { intros Ht. assert (Hin : forall es, _opcode op2 = LutOp (mkLut es) -> columns_in op2 es) by (intros es2; by apply (Shift_in op t)). unfold ConvertShiftOpToLut in Ht. do 7 apply bind_Ok in Ht as (? & _ & Ht).
      destruct (negb _ && _); [right|left; by injection Ht]. split; [|done]. do 4 apply bind_Ok in Ht as (? & _ & Ht). by apply bind_Ok in Ht as (? & _ & [= <-]). }
    destruct t; try (right; by apply Hp in H2); try (left; by injection H2); by apply Hs. }
  destruct Hfirst as [->|[Hl2 Hin]]; [rewrite Hl in H; by apply (Binary_in op t)|]. rewrite Hl2 in H. injection H as <-. by apply Hin.
Qed.

Lemma LowerToLut_columns op op1 es w : op_wf program op -> lowerable program op w -> source_bits op -> LowerToLut program op = Ok (true, op1) -> _opcode op1 = LutOp (mkLut es) -> columns_in op1 es.
Proof.
  intros [Hwf _ _ _] Hlow Hb H Hes. unfold LowerToLut in H. apply bind_Ok in H as (? & _ & H). apply bind_Ok in H as (op2 & H2 & H). destruct (isLut op2) eqn:Hl; [|by rewrite Hl in H]. injection H as _ <-. apply clear_mask_in. cbn in Hes.
  pose proof Hb as Hb0. unfold lowerable in Hlow. unfold source_bits in Hb. destruct (_opcode op) eqn:Ho; try done.
  - apply bind_Ok in H2 as (? & _ & H2). by apply (Pointwise_in op 2).
  - apply bind_Ok in H2 as (? & _ & H2). by apply (Pointwise_in op 0).
  - do 2 apply bind_Ok in H2 as (? & _ & H2). by apply (Pointwise_in op 1).
  - apply (LowerBinaryOp_in op _binaryOpType); [done|unfold isLut; by rewrite Ho|done|done].
  - apply (Select_in op); [done|done|unfold isLut; by rewrite Ho|done].
  - by apply (Gather_in op _entries op2 es w).
  - injection H2 as <-. rewrite Ho in Hes. injection Hes as ->. done.
Qed.

(** An operation that can become a table has a value. *)
Lemma lowerable_value σ op w : dstWidth program op = Ok w -> lowerable program op w -> is_Some (opValue program σ op).
Proof.
  intros Hw Hlow. unfold opValue. rewrite Hw. assert (Hs : is_Some (opInt program σ op)); [|destruct Hs as [v ->]; by eexists].
  unfold opInt. unfold lowerable in Hlow. destruct (_opcode op) eqn:Eo; try done. pose proof (opValue_lut program σ op _ Hlow) as Hv. unfold opValue, opInt in Hv. rewrite Eo in Hv.
  destruct (Evaluate _ _); [done|]. by destruct (dstWidth program op).
Qed.
End Columns.
End LutColumns.
