(* ===== verification/LutCombine.v ===== *)
(** * Combining two look-up table operations

    [CombineLuts] of [optimize_lut.cpp]: [op] reads the register that [prevOp]
    writes; the combined operation reads the sources of [prevOp] instead. *)

From S2P Require Import Prelude MachineInt Literals Ir LutOpt LutLower.
Import MachineInt Literals Ir LutOpt LutLower.

Module LutCombine.

(** [regIndexToSrcOpIndexMap]: the value of a key is the size of the map when
    the key was inserted, so the map is the list of its keys in that order. *)
Definition RegMap : Type := list nat.

Definition findIndex {A} `{EqDecision A} (x : A) (l : list A) : option nat := fst <$> list_find (x =.) l.

Definition addReg (m : RegMap) (srcReg : nat) : RegMap :=
  match findIndex srcReg m with Some _ => m | None => m ++ [srcReg] end.

Definition LookupAndAssert {A} `{EqDecision A} (m : list A) (key : A) : result nat :=
  of_option AssertionFailed (findIndex key m).

(** [newSources] together with [sourceSet] *)
Definition addSource (newSources : list (nat * Z)) (s : nat * Z) : list (nat * Z) :=
  if decide (s ∈ newSources) then newSources else newSources ++ [s].

(** All the register operands of [op] except the selected one *)
Definition initialRegMap (op : Operation) (selectedSrcOpIdx : nat) : RegMap :=
  fold_left (fun m p =>
      if (p.1 =? selectedSrcOpIdx)%nat then m
      else match p.2 with SrcRegister r => addReg m (_registerIndex r) | _ => m end)
    (zip (seq 0 (length (_src op))) (_src op)) [].

(** The register that column [c] of a LUT operation reads *)
Definition columnRegister (op : Operation) (c : nat * Z) : result nat :=
  srcOp ← at_ (_src op) c.1;
  r ← GetAccessedRegister srcOp;
  Ok (_registerIndex r).

(** The sources of the entry of [prevOp] that bit [bitInPrevOp] stands for *)
Definition prevEntryOf (prevLut : Lut) (bitInPrevOp : Z) : result LutEntry :=
  assert_ (bitInPrevOp <? Z.of_nat (_numDestinationBits prevLut));;
  at_ (_lutEntries prevLut) (Z.to_nat bitInPrevOp).

Definition addPrevSources (prevOp : Operation) (prevEntry : LutEntry) (st : RegMap * list (nat * Z))
    : result (RegMap * list (nat * Z)) :=
  foldM (fun st j =>
      c ← column prevEntry j;
      srcReg ← columnRegister prevOp c;
      let regs := addReg st.1 srcReg in
      sourceIndex ← LookupAndAssert regs srcReg;
      Ok (regs, addSource st.2 (sourceIndex, c.2)))
    (seq 0 (_numSources prevEntry)) st.

Definition gatherSources (op prevOp : Operation) (prevLut : Lut) (selectedSrcOpIdx : nat) (originalEntry : LutEntry)
    (regs : RegMap) : result (RegMap * list (nat * Z)) :=
  foldM (fun st i =>
      c ← column originalEntry i;
      if (selectedSrcOpIdx =? c.1)%nat then
        prevEntry ← prevEntryOf prevLut c.2;
        addPrevSources prevOp prevEntry st
      else
        srcReg ← columnRegister op c;
        sourceIndex ← LookupAndAssert st.1 srcReg;
        Ok (st.1, addSource st.2 (sourceIndex, c.2)))
    (seq 0 (_numSources originalEntry)) (regs, []).

(** [(newTableSlot >> LookupAndAssert(sourceToOutputIndexMap, key)) & 1] *)
Definition slotBit (sourceToOutputIndexMap : list (nat * Z)) (newTableSlot : Z) (key : nat * Z) : result Z :=
  bitIndexInNewTable ← LookupAndAssert sourceToOutputIndexMap key;
  Ok (Z.land (Z.shiftr newTableSlot (Z.of_nat bitIndexInNewTable)) 1).

(** The value that the previous operation produces in this slot *)
Definition prevValue (prevOp : Operation) (prevEntry : LutEntry) (keys : list (nat * Z)) (newTableSlot : Z) : result Z :=
  if (0 <? _numSources prevEntry)%nat then
    slotInPrevTable ← foldM (fun slot j =>
        c ← column prevEntry j;
        srcReg ← columnRegister prevOp c;
        v ← slotBit keys newTableSlot (srcReg, c.2);
        Ok (Z.lor slot (u64_shl v (Z.of_nat j))))
      (seq 0 (_numSources prevEntry)) 0;
    Ok (Z.land (Z.shiftr (_table prevEntry) slotInPrevTable) 1)
  else Ok (_table prevEntry).

Definition slotInOriginalTable (op prevOp : Operation) (prevLut : Lut) (selectedSrcOpIdx : nat)
    (originalEntry : LutEntry) (keys : list (nat * Z)) (newTableSlot : Z) : result Z :=
  foldM (fun slot i =>
      c ← column originalEntry i;
      v ← (if (c.1 =? selectedSrcOpIdx)%nat then
             prevEntry ← prevEntryOf prevLut c.2;
             prevValue prevOp prevEntry keys newTableSlot
           else
             srcReg ← columnRegister op c;
             slotBit keys newTableSlot (srcReg, c.2));
      Ok (Z.lor slot (u64_shl v (Z.of_nat i))))
    (seq 0 (_numSources originalEntry)) 0.

(** One destination bit: the grown map and the new entry, [None] when there
    are too many sources *)
Definition CombineEntry (op prevOp : Operation) (prevLut : Lut) (selectedSrcOpIdx : nat) (originalEntry : LutEntry)
    (regs : RegMap) : result (option (RegMap * LutEntry)) :=
  '(regs, newSources) ← gatherSources op prevOp prevLut selectedSrcOpIdx originalEntry regs;
  if (c_maxLutSources <? length newSources)%nat then Ok None
  else
    keys ← mapM_ (fun s => srcReg ← at_ regs s.1; Ok (srcReg, s.2)) newSources;
    newTable ← foldM (fun newTable newTableSlot =>
        slot ← slotInOriginalTable op prevOp prevLut selectedSrcOpIdx originalEntry keys newTableSlot;
        let valInOriginalTable := Z.land (Z.shiftr (_table originalEntry) slot) 1 in
        Ok (Z.lor newTable (u64_shl valInOriginalTable newTableSlot)))
      (seqZ 0 (Z.shiftl 1 (Z.of_nat (length newSources)))) 0;
    Ok (Some (regs, fill_entry newSources newTable)).

Fixpoint CombineEntries (op prevOp : Operation) (prevLut : Lut) (selectedSrcOpIdx : nat) (entries : list LutEntry)
    (regs : RegMap) : result (option (RegMap * list LutEntry)) :=
  match entries with
  | [] => Ok (Some (regs, []))
  | originalEntry :: entries =>
      r ← CombineEntry op prevOp prevLut selectedSrcOpIdx originalEntry regs;
      match r with
      | None => Ok None
      | Some (regs, e) =>
          r ← CombineEntries op prevOp prevLut selectedSrcOpIdx entries regs;
          Ok (match r with Some (regs, es) => Some (regs, e :: es) | None => None end)
      end
  end.

(** The new operation: one register source per key of the map *)
Definition combinedOperation (opInOut prevOpIn : Operation) (regs : RegMap) (es : list LutEntry)
    (dst : DestinationOperand) : Operation :=
  mkOperation (LutOp (mkLut es)) 0 (_locations opInOut ∪ _locations prevOpIn)
    ((fun r => SrcRegister (mkAccessedRegister r)) <$> regs) [dst].

Definition CombineLuts (program : Program) (opInOut prevOpIn : Operation) (selectedSrcOpIdx maxLutSources : nat)
    : result (bool * Operation) :=
  onlyLocal ← OperationUsesOnlyLocalSrcReg program prevOpIn;
  assert_ onlyLocal;;
  '(opIsLut, op) ← LowerToLut program opInOut;
  if negb opIsLut then Ok (false, opInOut)
  else
    '(prevIsLut, prevOp) ← LowerToLut program prevOpIn;
    if negb prevIsLut then Ok (false, opInOut)
    else
      lut ← getLut op;
      prevLut ← getLut prevOp;
      w ← dstWidth program op;
      assert_ (w =? Z.of_nat (_numDestinationBits lut));;
      r ← CombineEntries op prevOp prevLut selectedSrcOpIdx (_lutEntries lut) (initialRegMap op selectedSrcOpIdx);
      match r with
      | None => Ok (false, opInOut)
      | Some (regs, es) =>
          dst ← at_ (_dst op) 0;
          let newOp := combinedOperation opInOut prevOpIn regs es dst in
          newOp ← OptimizeLutOpt (S (lutMeasure newOp)) newOp;
          newLut ← getLut newOp;
          if existsb (fun e => maxLutSources <? _numSources e)%nat (_lutEntries newLut)
          then Ok (false, opInOut) else Ok (true, newOp)
      end.

End LutCombine.
