(* ===== verification/LutCombineCorrect.v ===== *)
(** * [CombineLuts] is correct

    In every state where the selected register holds the value of the previous
    operation, the combined operation has the value of the original one. *)

From S2P Require Import Prelude MachineInt Literals Ir LutOpt LutFacts Semantics LutFixup LutLower LutLowerFacts.
From S2P Require Import LutLowerCorrect LutColumns LutCombine.
Import MachineInt Literals Ir LutOpt LutFacts LutCofactor Semantics LutPasses LutConst LutOperands LutDedup LutFixup.
Import LutLower LutLowerFacts LutLowerOps LutLowerSelect LutLowerCorrect LutColumns LutCombine.

Module LutCombineCorrect.

(** ** Maps as lists of keys *)

Section FindIndex.
Context {A : Type} `{EqDecision A}.

Lemma findIndex_Some (x : A) l i : findIndex x l = Some i -> l !! i = Some x.
Proof.
  unfold findIndex. rewrite fmap_Some. intros ([j y] & Hj & ->). apply list_find_Some in Hj as (Hy & <- & _). done.
Qed.

Lemma findIndex_In (x : A) l : x ∈ l -> exists i, findIndex x l = Some i.
Proof.
  intros Hx. unfold findIndex. destruct (list_find (x =.) l) as [[i y]|] eqn:Hf; [by exists i|].
  apply list_find_None in Hf. rewrite Forall_forall in Hf. by destruct (Hf x Hx).
Qed.

Lemma LookupAndAssert_In (x : A) l : x ∈ l -> exists i, LookupAndAssert l x = Ok i /\ l !! i = Some x.
Proof.
  intros Hx. destruct (findIndex_In x l Hx) as (i & Hi). exists i. unfold LookupAndAssert. rewrite Hi. split; [done|].
  by apply findIndex_Some.
Qed.
End FindIndex.

Lemma addReg_spec m r : r ∈ addReg m r /\ m `prefix_of` addReg m r /\ (forall x, x ∈ addReg m r -> x ∈ m \/ x = r).
Proof.
  unfold addReg. destruct (findIndex r m) as [i|] eqn:Hi.
  - apply findIndex_Some in Hi. split_and!; [by eapply list_elem_of_lookup_2|done|auto].
  - split_and!; [set_solver|by apply prefix_app_r|set_solver].
Qed.

Lemma addSource_spec s x : x ∈ addSource s x /\ s ⊆ addSource s x /\ (forall y, y ∈ addSource s x -> y ∈ s \/ y = x).
Proof. unfold addSource. destruct (decide (x ∈ s)); set_solver. Qed.

(** ** The sources of the new table *)

(** The (register, bit) pairs that the sources stand for *)
Definition keysOf (regs : RegMap) (s : list (nat * Z)) : list (nat * Z) := (fun x => (regs !!! x.1, x.2)) <$> s.

(** A key is a bit of a register. *)
Definition key_in (program : Program) (key : nat * Z) : Prop := exists d, _registerTable program !! key.1 = Some d /\ key.2 < _regWidth d.

(** [Q] holds of the registers that are read. *)
Record sources_wf (program : Program) (Q : nat -> Prop) (st : RegMap * list (nat * Z)) : Prop := mk_sources_wf {
  sources_fit : Forall (fun s => (s.1 < length st.1)%nat /\ 0 <= s.2 < 2 ^ 32) st.2;
  sources_regs : Forall Q st.1;
  sources_in : Forall (key_in program) (keysOf st.1 st.2) }.

Definition grows (st st' : RegMap * list (nat * Z)) : Prop :=
  st.1 `prefix_of` st'.1 /\ keysOf st.1 st.2 ⊆ keysOf st'.1 st'.2.

Lemma grows_refl st : grows st st.
Proof. by split. Qed.

Lemma grows_trans a b c : grows a b -> grows b c -> grows a c.
Proof. intros [H1 H2] [H3 H4]. split; [by etrans|set_solver]. Qed.

Lemma prefix_lookup_total (l l' : list nat) i : (i < length l)%nat -> l `prefix_of` l' -> l' !!! i = l !!! i.
Proof. intros Hi [k ->]. by rewrite lookup_total_app_l. Qed.

Lemma keysOf_prefix regs regs' s :
  regs `prefix_of` regs' -> Forall (fun x => (x.1 < length regs)%nat) s -> keysOf regs' s = keysOf regs s.
Proof.
  intros Hp Hs. apply list_fmap_ext. intros i x Hx. f_equal. apply prefix_lookup_total; [|done].
  by apply (Forall_lookup_1 _ _ _ _ Hs Hx).
Qed.

(** One more source: register [r] of the map [regs'], bit [b] *)
Lemma add_source program Q regs s regs' r b :
  sources_wf program Q (regs, s) -> regs `prefix_of` regs' -> Forall Q regs' -> r ∈ regs' ->
  0 <= b < 2 ^ 32 -> key_in program (r, b) ->
  exists i, LookupAndAssert regs' r = Ok i /\ sources_wf program Q (regs', addSource s (i, b)) /\
    grows (regs, s) (regs', addSource s (i, b)) /\ (r, b) ∈ keysOf regs' (addSource s (i, b)).
Proof.
  intros [Hfit _ Hkeys] Hp Hregs Hr Hb Hkey. cbn [fst snd] in Hfit, Hkeys. destruct (LookupAndAssert_In r regs' Hr) as (i & Hi & Hri).
  exists i. split; [done|]. destruct (addSource_spec s (i, b)) as (Hin & Hsub & Hinv).
  pose proof (prefix_length _ _ Hp) as Hpl.
  assert (Hfit' : Forall (fun x => (x.1 < length regs)%nat) s) by (eapply Forall_impl; [exact Hfit|]; by intros ? []).
  split_and!.
  - constructor; cbn; [|done|].
    + apply Forall_forall. intros x Hx. apply Hinv in Hx as [Hx| ->].
      * rewrite Forall_forall in Hfit. destruct (Hfit x Hx). split; [lia|done].
      * cbn. split; [by eapply lookup_lt_Some|done].
    + apply Forall_fmap, Forall_forall. intros x Hx. apply Hinv in Hx as [Hx| ->]; cbn; [|by rewrite (list_lookup_total_correct _ _ _ Hri)].
      rewrite <- (keysOf_prefix regs regs' s Hp Hfit') in Hkeys. rewrite Forall_forall in Hkeys. apply Hkeys, list_elem_of_fmap. by exists x.
  - split; [done|]. cbn [fst snd]. rewrite <- (keysOf_prefix regs regs') by done. unfold keysOf. intros x Hx.
    apply list_elem_of_fmap in Hx as (y & -> & Hy). apply list_elem_of_fmap. exists y. split; [done|]. by apply Hsub.
  - apply list_elem_of_fmap. exists (i, b). split; [|done]. cbn. by rewrite (list_lookup_total_correct _ _ _ Hri).
Qed.

(** The register behind an operand *)
Definition regOf (op : Operation) (c : nat * Z) : nat :=
  match _src op !! c.1 with Some (SrcRegister r) => _registerIndex r | _ => 0%nat end.

Lemma columnRegister_eq op c r : _src op !! c.1 = Some (SrcRegister r) -> columnRegister op c = Ok (regOf op c) /\ regOf op c = _registerIndex r.
Proof. intros H. unfold columnRegister, regOf. by rewrite (at_Some _ _ _ H), H. Qed.

(** The loop over the columns of an entry, by position *)
Lemma column_loop {B} (f : B -> nat * Z -> result B) (I : list (nat * Z) -> B -> Prop) e b :
  entry_wf e -> I [] b ->
  (forall done c b, c ∈ columns e -> I done b -> exists b', f b c = Ok b' /\ I (done ++ [c]) b') ->
  exists b', foldM (fun b i => c ← column e i; f b c) (seq 0 (_numSources e)) b = Ok b' /\ I (columns e) b'.
Proof.
  intros Hwf Hb H.
  destruct (foldM_seq_inv (fun b i => c ← column e i; f b c) (fun k b => I (take k (columns e)) b) (_numSources e) b)
    as (b' & Hb' & HI).
  - done.
  - intros k b0 Hk HI. destruct (column_lookup e k Hwf Hk) as (c & Hc & ->). cbn [mbind result_bind].
    rewrite (take_S_r _ _ _ Hc). apply H; [by eapply list_elem_of_lookup_2|done].
  - exists b'. split; [done|]. by rewrite take_ge in HI by (rewrite length_columns by done; lia).
Qed.

(** The key of a column *)
Lemma column_key program o c : column_in program (_src o) c -> exists r, _src o !! c.1 = Some (SrcRegister r) /\ key_in program (regOf o c, c.2).
Proof. intros (r & d & Hr & Hd & Hlt). exists r. split; [done|]. destruct (columnRegister_eq _ _ _ Hr) as [_ ->]. by exists d. Qed.

Lemma addPrevSources_eq program Q prevOp pe st :
  entry_wf pe -> (forall r, SrcRegister r ∈ _src prevOp -> Q (_registerIndex r)) ->
  Forall (column_in program (_src prevOp)) (columns pe) -> sources_wf program Q st ->
  exists st', addPrevSources prevOp pe st = Ok st' /\ sources_wf program Q st' /\ grows st st' /\
    Forall (fun c => (regOf prevOp c, c.2) ∈ keysOf st'.1 st'.2) (columns pe).
Proof.
  intros Hwf Hsrc Hregs Hst. unfold addPrevSources.
  destruct (column_loop (fun st c => srcReg ← columnRegister prevOp c;
      let regs := addReg st.1 srcReg in
      sourceIndex ← LookupAndAssert regs srcReg; Ok (regs, addSource st.2 (sourceIndex, c.2)))
    (fun done st' => sources_wf program Q st' /\ grows st st' /\
      Forall (fun c => (regOf prevOp c, c.2) ∈ keysOf st'.1 st'.2) done) pe st Hwf) as (st' & H & HI).
  - by split_and!.
  - intros done c [regs s] Hc (Hw & Hg & Hd). rewrite Forall_forall in Hregs. destruct (column_key _ _ _ (Hregs c Hc)) as (r & Hr & Hkey).
    destruct (columnRegister_eq _ _ _ Hr) as [-> Hreg]. cbn [mbind result_bind fst snd].
    destruct (addReg_spec regs (regOf prevOp c)) as (Hin & Hp & Hinv).
    pose proof Hwf as (_ & _ & _ & _ & Hpos). rewrite Forall_forall in Hpos.
    destruct (add_source program Q regs s (addReg regs (regOf prevOp c)) (regOf prevOp c) c.2 Hw Hp) as (i & -> & Hw' & Hg' & Hk).
    + apply Forall_forall. intros x Hx. apply Hinv in Hx as [Hx| ->].
      * pose proof (sources_regs _ _ _ Hw) as Hr'. cbn in Hr'. rewrite Forall_forall in Hr'. by apply Hr'.
      * rewrite Hreg. apply Hsrc. by eapply list_elem_of_lookup_2.
    + done.
    + by apply Hpos.
    + done.
    + cbn [mbind result_bind]. eexists; split; [done|]. split_and!; [done|by eapply grows_trans|].
      apply Forall_app; split; [|by constructor]. destruct Hg' as [_ Hsub]. eapply Forall_impl; [exact Hd|]. intros c' Hc'. by apply Hsub.
  - by exists st'.
Qed.

(** A loop that assembles a row from the columns of an entry *)
Lemma row_loop (V : nat * Z -> result Z) (vb : nat * Z -> bool) e :
  entry_wf e -> (forall c, c ∈ columns e -> V c = Ok (Z.b2z (vb c))) ->
  foldM (fun slot i => c ← column e i; v ← V c; Ok (Z.lor slot (u64_shl v (Z.of_nat i)))) (seq 0 (_numSources e)) 0
  = Ok (bits_to_Z (vb <$> columns e)).
Proof.
  intros Hwf HV. pose proof Hwf as (Hn & _). pose proof (length_columns e Hwf) as Hl.
  destruct (foldM_seq_inv (fun slot i => c ← column e i; v ← V c; Ok (Z.lor slot (u64_shl v (Z.of_nat i))))
    (fun k b => b = bits_to_Z (vb <$> take k (columns e))) (_numSources e) 0) as (b & -> & ->).
  - done.
  - intros k b Hk ->. destruct (column_lookup e k Hwf Hk) as (c & Hc & ->). cbn [mbind result_bind].
    rewrite HV by (by eapply list_elem_of_lookup_2). cbn [mbind result_bind]. eexists; split; [done|].
    rewrite (take_S_r _ _ _ Hc), fmap_app. cbn [fmap list_fmap].
    assert (Hlt : length (vb <$> take k (columns e)) = k) by (rewrite length_fmap, length_take; lia).
    rewrite <- Hlt at 2. apply lor_bit_snoc. unfold c_maxLutSources in Hn. lia.
  - by rewrite take_ge by lia.
Qed.

Section Combine.
Context (program : Program) (op : Operation) (es : list LutEntry) (prevOp : Operation) (pes : list LutEntry) (sel : nat).
Context (Hop : lut_wf program op es) (Hprev : lut_wf program prevOp pes) (Hpregs : columns_in program prevOp pes).
Context (Q : nat -> Prop) (HQ : forall r, SrcRegister r ∈ _src prevOp -> Q (_registerIndex r)).

(** A column of [op] reads a register, or a bit that [prevOp] computes. *)
Definition column_ok (c : nat * Z) : Prop :=
  if decide (c.1 = sel) then c.2 < Z.of_nat (length pes) else column_in program (_src op) c.

(** The keys that column [c] needs *)
Definition needed (keys : list (nat * Z)) (c : nat * Z) : Prop :=
  if decide (c.1 = sel)
  then exists pe, pes !! Z.to_nat c.2 = Some pe /\ Forall (fun pc => (regOf prevOp pc, pc.2) ∈ keys) (columns pe)
  else (regOf op c, c.2) ∈ keys.

Lemma needed_mono keys keys' c : keys ⊆ keys' -> needed keys c -> needed keys' c.
Proof.
  intros Hs. unfold needed. destruct (decide (c.1 = sel)); [|by apply Hs]. intros (pe & Hpe & H). exists pe. split; [done|].
  eapply Forall_impl; [exact H|]. intros x Hx. by apply Hs.
Qed.

Lemma prevEntryOf_eq c :
  c.1 = sel -> column_ok c -> 0 <= c.2 ->
  exists pe, prevEntryOf (mkLut pes) c.2 = Ok pe /\ pes !! Z.to_nat c.2 = Some pe /\ entry_wf pe /\
    Forall (column_in program (_src prevOp)) (columns pe).
Proof.
  intros Hc Hok Hpos. unfold column_ok in Hok. rewrite decide_True in Hok by done.
  destruct (lookup_lt_is_Some_2 pes (Z.to_nat c.2)) as [pe Hpe]; [lia|]. exists pe. unfold prevEntryOf, _numDestinationBits.
  cbn [_lutEntries]. rewrite assert_true by (apply Z.ltb_lt; lia). cbn [mbind result_bind]. split; [by apply at_Some|]. split; [done|].
  split; [apply (Forall_lookup_1 _ _ _ _ (entries_wf _ _ _ Hprev) Hpe)|apply (Forall_lookup_1 _ _ _ _ Hpregs Hpe)].
Qed.

Lemma gatherSources_eq e regs :
  entry_wf e -> Forall column_ok (columns e) -> Forall Q regs ->
  (forall c, c ∈ columns e -> c.1 <> sel -> regOf op c ∈ regs) ->
  exists st, gatherSources op prevOp (mkLut pes) sel e regs = Ok st /\ sources_wf program Q st /\
    regs `prefix_of` st.1 /\ Forall (needed (keysOf st.1 st.2)) (columns e).
Proof.
  intros Hwf Hok Hregs Hin. unfold gatherSources. pose proof Hwf as (_ & _ & _ & _ & Hpos).
  destruct (column_loop (fun st c => if (sel =? c.1)%nat then
        prevEntry ← prevEntryOf (mkLut pes) c.2; addPrevSources prevOp prevEntry st
      else srcReg ← columnRegister op c; sourceIndex ← LookupAndAssert st.1 srcReg;
        Ok (st.1, addSource st.2 (sourceIndex, c.2)))
    (fun done st => sources_wf program Q st /\ regs `prefix_of` st.1 /\ Forall (needed (keysOf st.1 st.2)) done)
    e (regs, []) Hwf) as (st & H & HI).
  - split_and!; [|done|constructor]. constructor; [constructor|done|constructor].
  - intros dn c [regs1 s1] Hc (Hw & Hp & Hd). cbn [fst snd] in Hp |- *. rewrite Forall_forall in Hok, Hpos.
    destruct (Nat.eqb_spec sel c.1) as [Hs|Hs].
    + destruct (prevEntryOf_eq c (eq_sym Hs) (Hok c Hc)) as (pe & -> & Hpe & Hpewf & Hper); [by apply Hpos|].
      cbn [mbind result_bind].
      destruct (addPrevSources_eq program Q prevOp pe (regs1, s1) Hpewf HQ Hper Hw)
        as (st & -> & Hw' & [Hg Hk] & Hn). exists st. split; [done|]. split; [done|]. split; [by etrans|].
      apply Forall_app; split; [eapply Forall_impl; [exact Hd|]; intros x; by apply needed_mono|].
      constructor; [|constructor]. unfold needed. rewrite decide_True by done. by exists pe.
    + pose proof (Hok c Hc) as Hokc. unfold column_ok in Hokc. rewrite decide_False in Hokc by done.
      destruct (column_key _ _ _ Hokc) as (r & Hr & Hkey). destruct (columnRegister_eq _ _ _ Hr) as [-> _]. cbn [mbind result_bind].
      destruct (add_source program Q regs1 s1 regs1 (regOf op c) c.2 Hw) as (i & -> & Hw' & [_ Hk] & Hin').
      * done.
      * apply (sources_regs _ _ _ Hw).
      * destruct Hp as [k ->]. apply elem_of_app. left. by apply Hin.
      * by apply Hpos.
      * done.
      * cbn [mbind result_bind]. eexists; split; [done|]. split_and!; [done|done|].
        apply Forall_app; split; [eapply Forall_impl; [exact Hd|]; intros x; by apply needed_mono|].
        constructor; [|constructor]. unfold needed. by rewrite decide_False by done.
  - by exists st.
Qed.

(** The bit of a row [l] of the new table that stands for [key] *)
Definition bitAt (keys : list (nat * Z)) (l : list bool) (key : nat * Z) : bool :=
  match findIndex key keys with Some i => default false (l !! i) | None => false end.

Definition prevVal (keys : list (nat * Z)) (l : list bool) (pe : LutEntry) : bool :=
  Z.testbit (_table pe) (bits_to_Z ((fun pc => bitAt keys l (regOf prevOp pc, pc.2)) <$> columns pe)).

Definition colVal (keys : list (nat * Z)) (l : list bool) (c : nat * Z) : bool :=
  if decide (c.1 = sel)
  then match pes !! Z.to_nat c.2 with Some pe => prevVal keys l pe | None => false end
  else bitAt keys l (regOf op c, c.2).

Lemma slotBit_eq keys l key : key ∈ keys -> slotBit keys (bits_to_Z l) key = Ok (Z.b2z (bitAt keys l key)).
Proof.
  intros Hin. unfold slotBit, LookupAndAssert, bitAt. destruct (findIndex_In key keys Hin) as (i & ->). cbn.
  by rewrite land_shiftr_1, testbit_bits_to_Z by lia.
Qed.

Lemma prevValue_eq keys l pe :
  entry_wf pe -> Forall (column_in program (_src prevOp)) (columns pe) ->
  Forall (fun pc => (regOf prevOp pc, pc.2) ∈ keys) (columns pe) ->
  prevValue prevOp pe keys (bits_to_Z l) = Ok (Z.b2z (prevVal keys l pe)).
Proof.
  intros Hwf Hr Hk. unfold prevValue, prevVal. destruct (Nat.ltb_spec 0 (_numSources pe)) as [Hn|Hn].
  - assert (Hrow : foldM (fun slot j => c ← column pe j; srcReg ← columnRegister prevOp c;
        v ← slotBit keys (bits_to_Z l) (srcReg, c.2); Ok (Z.lor slot (u64_shl v (Z.of_nat j))))
        (seq 0 (_numSources pe)) 0 = Ok (bits_to_Z ((fun pc => bitAt keys l (regOf prevOp pc, pc.2)) <$> columns pe))).
    { rewrite <- (row_loop (fun c => srcReg ← columnRegister prevOp c; slotBit keys (bits_to_Z l) (srcReg, c.2))); [|done|].
      - apply foldM_ext. intros b j _. destruct (column pe j) as [c|]; cbn; [|done]. by destruct (columnRegister prevOp c).
      - intros c Hc. rewrite Forall_forall in Hr, Hk. destruct (Hr c Hc) as (r & _ & Hrc & _).
        destruct (columnRegister_eq _ _ _ Hrc) as [-> _]. cbn. apply slotBit_eq. by apply Hk. }
    rewrite Hrow. cbn [mbind result_bind]. by rewrite land_shiftr_1 by apply bits_to_Z_bound.
  - assert (Hn0 : _numSources pe = 0%nat) by lia.
    destruct (entry_val_constant (fun _ => false) pe Hwf Hn0) as [_ Ht]. unfold columns. rewrite Hn0. cbn.
    by destruct Ht as [-> | ->].
Qed.

Lemma slotInOriginalTable_eq keys l e :
  entry_wf e -> Forall column_ok (columns e) -> Forall (needed keys) (columns e) ->
  slotInOriginalTable op prevOp (mkLut pes) sel e keys (bits_to_Z l) = Ok (bits_to_Z (colVal keys l <$> columns e)).
Proof.
  intros Hwf Hok Hn. pose proof Hwf as (_ & _ & _ & _ & Hpos). unfold slotInOriginalTable.
  rewrite <- (row_loop (fun c => if (c.1 =? sel)%nat then
             prevEntry ← prevEntryOf (mkLut pes) c.2; prevValue prevOp prevEntry keys (bits_to_Z l)
           else srcReg ← columnRegister op c; slotBit keys (bits_to_Z l) (srcReg, c.2))); [done|done|].
  intros c Hc. rewrite Forall_forall in Hok, Hn, Hpos. specialize (Hn c Hc). pose proof (Hok c Hc) as Hokc.
  unfold needed in Hn. unfold colVal. unfold column_ok in Hokc. destruct (decide (c.1 = sel)) as [Hs|Hs].
  - rewrite (proj2 (Nat.eqb_eq c.1 sel)) by done. destruct Hn as (pe & Hpe & Hk).
    destruct (prevEntryOf_eq c Hs (Hok c Hc)) as (pe' & -> & Hpe' & Hpewf & Hper); [by apply Hpos|].
    rewrite Hpe in Hpe'. injection Hpe' as <-. cbn [mbind result_bind]. rewrite Hpe. by apply prevValue_eq.
  - rewrite (proj2 (Nat.eqb_neq c.1 sel)) by done.
    destruct Hokc as (r & _ & Hr & _). destruct (columnRegister_eq _ _ _ Hr) as [-> _]. cbn [mbind result_bind]. by apply slotBit_eq.
Qed.

(** ** States in which the selected register holds the value of [prevOp] *)

Definition regBit (τ : nat -> Z) (key : nat * Z) : bool :=
  Z.testbit (operandInt program τ false (SrcRegister (mkAccessedRegister key.1))) key.2.

Definition holds_prev (τ : nat -> Z) : Prop :=
  forall b pe, 0 <= b -> pes !! Z.to_nat b = Some pe ->
    Z.testbit (srcInt program τ op sel) b = entry_val (bit_of (srcInt program τ prevOp)) pe.

Lemma bitAt_regBit τ keys key : key ∈ keys -> bitAt keys (regBit τ <$> keys) key = regBit τ key.
Proof.
  intros Hin. unfold bitAt. destruct (findIndex_In key keys Hin) as (i & Hi). rewrite Hi.
  apply findIndex_Some in Hi. by rewrite list_lookup_fmap, Hi.
Qed.

Lemma bit_of_register τ o es0 c r :
  lut_wf program o es0 -> _src o !! c.1 = Some (SrcRegister r) ->
  bit_of (srcInt program τ o) c = regBit τ (regOf o c, c.2).
Proof.
  intros Ho Hr. unfold bit_of, regBit. rewrite (srcInt_lookup _ _ _ _ _ Hr), signExtends_mask0 by apply Ho.
  destruct (columnRegister_eq _ _ _ Hr) as [_ ->]. cbn. by destruct r.
Qed.

Lemma colVal_state τ keys e :
  holds_prev τ -> entry_wf e -> Forall column_ok (columns e) -> Forall (needed keys) (columns e) ->
  colVal keys (regBit τ <$> keys) <$> columns e = bit_of (srcInt program τ op) <$> columns e.
Proof.
  intros Hτ Hwf Hok Hn. pose proof Hwf as (_ & _ & _ & _ & Hpos). apply list_fmap_ext. intros i c Hc.
  pose proof (Forall_lookup_1 _ _ _ _ Hok Hc) as Hokc. pose proof (Forall_lookup_1 _ _ _ _ Hn Hc) as Hnc.
  pose proof (Forall_lookup_1 _ _ _ _ Hpos Hc) as Hcb. unfold needed in Hnc. unfold colVal.
  destruct (decide (c.1 = sel)) as [Hs|Hs].
  - destruct Hnc as (pe & Hpe & Hk). rewrite Hpe. unfold bit_of. rewrite Hs, (Hτ c.2 pe) by (done || (cbn in Hcb; lia)).
    unfold prevVal, entry_val. do 2 f_equal. apply list_fmap_ext. intros j pc Hpc.
    pose proof (Forall_lookup_1 _ _ _ _ Hk Hpc) as Hkey. rewrite (bitAt_regBit τ _ _ Hkey).
    pose proof (Forall_lookup_1 _ _ _ _ Hpregs Hpe) as Hper. cbn in Hper.
    destruct (Forall_lookup_1 _ _ _ _ Hper Hpc) as (r & _ & Hr & _). symmetry. by eapply bit_of_register.
  - rewrite (bitAt_regBit τ _ _ Hnc). unfold column_ok in Hokc. rewrite decide_False in Hokc by done.
    destruct Hokc as (r & _ & Hr & _). symmetry. by eapply bit_of_register.
Qed.

(** ** One destination bit *)

(** Entry [e'] over the registers [regs] computes what [e] computes. *)
Definition combines (regs : RegMap) (e e' : LutEntry) : Prop :=
  entry_wf e' /\ Forall (fun c => c.1 < length regs)%nat (columns e') /\ Forall (fun c => key_in program (regs !!! c.1, c.2)) (columns e') /\
  forall τ, holds_prev τ ->
    entry_val (fun c => regBit τ (regs !!! c.1, c.2)) e' = entry_val (bit_of (srcInt program τ op)) e.

Lemma combines_prefix regs regs' e e' : regs `prefix_of` regs' -> combines regs e e' -> combines regs' e e'.
Proof.
  intros Hp (Hwf & Hfit & Hkey & Hv). pose proof (prefix_length _ _ Hp) as Hl. split; [done|]. split_and!.
  - eapply Forall_impl; [exact Hfit|]. cbn. lia.
  - rewrite Forall_forall in Hfit, Hkey |- *. intros c Hc. rewrite (prefix_lookup_total regs regs') by (by apply Hfit || done). by apply Hkey.
  - intros τ Hτ. rewrite <- (Hv τ Hτ). unfold entry_val. do 2 f_equal. apply list_fmap_ext. intros i c Hc.
    f_equal. f_equal. apply prefix_lookup_total; [|done]. by apply (Forall_lookup_1 _ _ _ _ Hfit Hc).
Qed.

Lemma CombineEntry_eq e regs :
  entry_wf e -> Forall column_ok (columns e) -> Forall Q regs ->
  (forall c, c ∈ columns e -> c.1 <> sel -> regOf op c ∈ regs) ->
  exists o, CombineEntry op prevOp (mkLut pes) sel e regs = Ok o /\
    match o with
    | None => True
    | Some (regs', e') => regs `prefix_of` regs' /\ Forall Q regs' /\ combines regs' e e'
    end.
Proof.
  intros Hwf Hok Hregs Hin. unfold CombineEntry.
  destruct (gatherSources_eq e regs Hwf Hok Hregs Hin) as ([regs' s] & -> & [Hfit Hregs' Hkeys] & Hp & Hn).
  cbn [mbind result_bind fst snd] in *. destruct (Nat.ltb_spec c_maxLutSources (length s)); [by exists None|].
  set (keys := keysOf regs' s) in *. assert (Hkl : length keys = length s) by apply length_fmap.
  rewrite (mapM_Ok _ (fun x => (regs' !!! x.1, x.2))).
  2: { intros x Hx. rewrite Forall_forall in Hfit. destruct (Hfit x Hx) as [Hlt _].
       destruct (lookup_lt_is_Some_2 _ _ Hlt) as [r Hr]. rewrite (at_Some _ _ _ Hr). cbn. by rewrite (lookup_total_Some _ _ _ Hr). }
  change ((fun x => (regs' !!! x.1, x.2)) <$> s) with keys. cbn [mbind result_bind].
  set (f := fun l => Z.testbit (_table e) (bits_to_Z (colVal keys l <$> columns e))).
  rewrite shiftl_1_pow by lia.
  rewrite (foldM_Ok _ (fun t r => Z.lor t (u64_shl (Z.b2z (f (Z_to_bits (length s) r))) r))).
  - cbn [mbind result_bind]. rewrite (build_table _ _ f) by done. eexists; split; [done|]. cbn.
    split; [done|]. split; [done|]. split_and!.
    + apply fill_entry_wf; [done|apply table_of_bound|]. eapply Forall_impl; [exact Hfit|]. by intros ? [].
    + rewrite columns_fill by done. eapply Forall_impl; [exact Hfit|]. by intros ? [].
    + rewrite columns_fill by done. exact (proj1 (Forall_fmap _ _ _) Hkeys).
    + intros τ Hτ. rewrite entry_val_fill by done. unfold f.
      change (fun c : nat * Z => regBit τ (regs' !!! c.1, c.2)) with (regBit τ ∘ (fun c : nat * Z => (regs' !!! c.1, c.2))).
      rewrite list_fmap_compose. fold (keysOf regs' s). fold keys. rewrite colVal_state; done.
  - intros t r Hr%elem_of_seqZ. rewrite <- (bits_to_Z_to_bits (length s) r) at 1 by lia.
    rewrite slotInOriginalTable_eq by done. cbn [mbind result_bind].
    by rewrite land_shiftr_1 by apply bits_to_Z_bound.
Qed.

Lemma CombineEntries_eq l regs :
  Forall entry_wf l -> Forall (fun e => Forall column_ok (columns e)) l -> Forall Q regs ->
  (forall e c, e ∈ l -> c ∈ columns e -> c.1 <> sel -> regOf op c ∈ regs) ->
  exists o, CombineEntries op prevOp (mkLut pes) sel l regs = Ok o /\
    match o with
    | None => True
    | Some (regs', l') => regs `prefix_of` regs' /\ Forall Q regs' /\ Forall2 (combines regs') l l'
    end.
Proof.
  intros Hwf. revert regs. induction Hwf as [|e l He _ IH]; intros regs Hok Hregs Hin; cbn [CombineEntries].
  - exists (Some (regs, [])). by split_and!.
  - inversion_clear Hok as [|?? Hoke Hokl].
    destruct (CombineEntry_eq e regs He Hoke Hregs) as ([[regs1 e1]|] & -> & H1); [|..].
    + intros c Hc. apply (Hin e); [set_solver|done].
    + destruct H1 as (Hp1 & Hr1 & Hc1). cbn [mbind result_bind].
      destruct (IH regs1 Hokl Hr1) as ([[regs2 l2]|] & -> & H2).
      * intros e' c He' Hc Hs. destruct Hp1 as [k ->]. apply elem_of_app. left. apply (Hin e' c); [set_solver|done|done].
      * destruct H2 as (Hp2 & Hr2 & Hc2). cbn [mbind result_bind]. eexists; split; [done|]. cbn.
        split; [by etrans|]. split; [done|]. constructor; [|done]. by eapply combines_prefix.
      * cbn [mbind result_bind]. by exists None.
    + cbn [mbind result_bind]. by exists None.
Qed.

End Combine.

(** ** The combined operation *)

Lemma initialRegMap_spec (Q : nat -> Prop) op sel :
  (forall r, SrcRegister r ∈ _src op -> Q (_registerIndex r)) ->
  Forall Q (initialRegMap op sel) /\
  forall c r, c.1 <> sel -> _src op !! c.1 = Some (SrcRegister r) -> regOf op c ∈ initialRegMap op sel.
Proof.
  intros Hwf. unfold initialRegMap.
  set (step := fun m p => if (p.1 =? sel)%nat then m
      else match p.2 with SrcRegister r => addReg m (_registerIndex r) | _ => m end).
  assert (Hgen : forall l k m, (forall r, SrcRegister r ∈ l -> Q (_registerIndex r)) -> Forall Q m ->
    let m' := fold_left step (zip (seq k (length l)) l) m in
    Forall Q m' /\ m ⊆ m' /\
    forall i r, (k + i)%nat <> sel -> l !! i = Some (SrcRegister r) -> _registerIndex r ∈ m').
  { induction l as [|o l IH]; intros k m Hl Hm m'; [by split_and!|]. assert (Ho : forall r, o = SrcRegister r -> Q (_registerIndex r)) by (intros r ->; apply Hl; by left). assert (Hl' : forall r, SrcRegister r ∈ l -> Q (_registerIndex r)) by (intros r Hr; apply Hl; by right).
    destruct (IH (S k) (step m (k, o)) Hl') as (H1 & H2 & H3).
    - unfold step. cbn [fst snd]. destruct (Nat.eqb_spec k sel); [done|]. destruct o as [|r| |]; try done.
      destruct (addReg_spec m (_registerIndex r)) as (_ & _ & Hinv). apply Forall_forall. intros x Hx.
      apply Hinv in Hx as [Hx| ->]; [|by apply Ho]. rewrite Forall_forall in Hm. by apply Hm.
    - split; [done|]. split.
      + etrans; [|exact H2]. unfold step. cbn [fst snd]. destruct (k =? sel)%nat; [done|]. destruct o as [|r| |]; try done.
        destruct (addReg_spec m (_registerIndex r)) as (_ & [q ->] & _). set_solver.
      + intros [|i] r Hne Hi.
        * cbn in Hi. injection Hi as ->. apply H2. unfold step. cbn [fst snd].
          rewrite (proj2 (Nat.eqb_neq k sel)) by lia. by destruct (addReg_spec m (_registerIndex r)).
        * apply (H3 i r); [lia|done]. }
  destruct (Hgen (_src op) 0%nat [] Hwf (Forall_nil_2 _)) as (H1 & _ & H3). split; [done|].
  intros c r Hc Hr. unfold regOf. rewrite Hr. by apply (H3 c.1).
Qed.

Lemma combined_lut_wf program op es prevOp pes sel regs es' :
  lut_wf program op es -> Forall (register_wf program) regs -> Forall2 (combines program op prevOp pes sel regs) es es' ->
  forall locs dst, _dst op = [dst] ->
  let newOp := mkOperation (LutOp (mkLut es')) 0 locs ((fun r => SrcRegister (mkAccessedRegister r)) <$> regs) [dst] in
  lut_wf program newOp es' /\ columns_in program newOp es' /\
  forall τ, holds_prev program op prevOp pes sel τ -> opValue program τ newOp = opValue program τ op.
Proof.
  intros H Hregs Hc locs dst Hdst newOp. pose proof (Forall2_length _ _ _ Hc) as Hlen.
  assert (Hwf : lut_wf program newOp es').
  { pose proof (lut_width _ _ _ H) as Hw. pose proof (lut_bound _ _ _ H) as Hb. rewrite Hlen in Hw, Hb.
    constructor; try done.
    - apply Forall_forall. intros e' He'. apply list_elem_of_lookup in He' as (k & He').
      destruct (Forall2_lookup_r _ _ _ _ _ Hc He') as (e & _ & Hwf & Hfit & _ & _). split; [done|].
      cbn. by rewrite length_fmap.
    - cbn. apply Forall_fmap. eapply Forall_impl; [exact Hregs|]. done.
    - rewrite <- Hw. unfold dstWidth. by rewrite Hdst. }
  split; [done|]. split.
  { apply Forall_forall. intros e' He'. apply list_elem_of_lookup in He' as (k & He'). destruct (Forall2_lookup_r _ _ _ _ _ Hc He') as (e & _ & _ & Hfit & Hkey & _).
    rewrite Forall_forall in Hfit, Hkey |- *. intros c Hcin. destruct (lookup_lt_is_Some_2 _ _ (Hfit c Hcin)) as [r Hr]. destruct (Hkey c Hcin) as (d & Hd & Hlt). rewrite (lookup_total_Some _ _ _ Hr) in Hd.
    exists (mkAccessedRegister r), d. cbn. by rewrite list_lookup_fmap, Hr. }
  intros τ Hτ. rewrite (opValue_lut _ _ _ _ Hwf), (opValue_lut _ _ _ _ H). f_equal. unfold lut_val. f_equal.
  apply list_eq. intros k. rewrite !list_lookup_fmap. destruct (es' !! k) as [e'|] eqn:He'.
  - destruct (Forall2_lookup_r _ _ _ _ _ Hc He') as (e & -> & _ & Hfit & _ & Hv). cbn. f_equal. rewrite <- (Hv τ Hτ).
    unfold entry_val. do 2 f_equal. apply list_fmap_ext. intros i c Hci.
    pose proof (Forall_lookup_1 _ _ _ _ Hfit Hci) as Hlt. cbn in Hlt. destruct (lookup_lt_is_Some_2 _ _ Hlt) as [r Hr].
    unfold bit_of, regBit. cbn [fst snd]. rewrite (lookup_total_Some _ _ _ Hr).
    rewrite (srcInt_lookup _ _ _ _ (SrcRegister (mkAccessedRegister r))), signExtends_mask0; [done|done|].
    cbn. by rewrite list_lookup_fmap, Hr.
  - apply lookup_ge_None in He'. by rewrite lookup_ge_None_2 by lia.
Qed.

(** A table can have more than 64 operands, because its mask has no bits. *)
Definition table_operand (program : Program) (op : Operation) : Prop := op_wf program op \/ isLut op = true.

(** The previous operation and the register that links the two operations *)
Record combinable (program : Program) (op prevOp : Operation) (sel w wp r : nat) : Prop := mk_combinable {
  comb_op : table_operand program op /\ dstWidth program op = Ok (Z.of_nat w) /\ lowerable program op (Z.of_nat w);
  comb_prev : table_operand program prevOp /\ dstWidth program prevOp = Ok (Z.of_nat wp) /\ lowerable program prevOp (Z.of_nat wp);
  comb_local : OperationUsesOnlyLocalSrcReg program prevOp = Ok true;
  comb_selected : _src op !! sel = Some (SrcRegister (mkAccessedRegister r));
  comb_dst : _dst prevOp = [DstRegister (mkAccessedRegister r)];
  comb_bits : source_bits program op;
  comb_prev_bits : source_bits program prevOp }.

(** The register [r] holds the value of [prevOp]. *)
Definition linked (program : Program) (prevOp : Operation) (r wp : nat) (τ : nat -> Z) : Prop :=
  opValue program τ prevOp = Some (τ r mod 2 ^ Z.of_nat wp).

Lemma linked_holds program op prevOp es pes sel r wp τ d :
  lut_wf program op es -> lut_wf program prevOp pes -> _src op !! sel = Some (SrcRegister (mkAccessedRegister r)) ->
  _registerTable program !! r = Some d -> _regWidth d = Z.of_nat wp -> length pes = wp ->
  opValue program τ prevOp = Some (τ r mod 2 ^ Z.of_nat wp) -> holds_prev program op prevOp pes sel τ.
Proof.
  intros Hop Hprev Hsel Hd Hw Hlen Hv b pe Hb Hpe. rewrite (opValue_lut _ _ _ _ Hprev) in Hv. injection Hv as Hv.
  rewrite (srcInt_lookup _ _ _ _ _ Hsel), signExtends_mask0 by apply Hop. unfold operandInt, operandLiteral. cbn. rewrite Hd.
  cbn. rewrite Hw, <- Hv. unfold lut_val.
  rewrite testbit_bits_to_Z_nonneg by done. by rewrite list_lookup_fmap, Hpe.
Qed.

Lemma linked_width program prevOp r wp d : dstWidth program prevOp = Ok wp -> _dst prevOp = [DstRegister (mkAccessedRegister r)] -> _registerTable program !! r = Some d -> _regWidth d = wp.
Proof. intros Hw Hdst Hd. unfold dstWidth in Hw. rewrite Hdst in Hw. unfold at_ in Hw. cbn in Hw. unfold registerWidth, at_ in Hw. rewrite Hd in Hw. cbn in Hw. by injection Hw. Qed.

(** Fewer columns, or none and no operands *)
Lemma optimized_columns program op es op' es' : columns_in program op es -> Forall2 (fun e e' => columns e' ⊆ columns e) es es' ->
  (if all_constant es' then _src op' = [] else _src op' = _src op) -> columns_in program op' es'.
Proof.
  intros Hin Hsub Hs. pose proof (columns_in_subset program op es es' Hsub Hin) as Hin'. unfold columns_in in *. destruct (all_constant es') eqn:Ha; [|by rewrite Hs].
  apply Forall_forall. intros e He. unfold all_constant in Ha. rewrite forallb_forall in Ha. specialize (Ha e (proj1 (list_elem_of_In _ _) He)). apply Nat.eqb_eq in Ha. unfold columns. rewrite Ha. constructor.
Qed.

Lemma table_operand_wf program op w : table_operand program op -> lowerable program op w -> Forall (operand_wf program) (_src op) /\ exists d, _dst op = [d].
Proof.
  intros [[Hs _ _ (d & _ & Hd & _)]|Hl] Hlow; [split; [done|by exists d]|]. unfold isLut in Hl. unfold lowerable in Hlow. destruct (_opcode op); try done. destruct Hlow as [_ _ _ Hs Hd _ _]. split; [done|].
  destruct (_dst op) as [|d [|]]; try done. by exists d.
Qed.

Lemma LowerToLut_eq program op w :
  table_operand program op -> dstWidth program op = Ok (Z.of_nat w) -> lowerable program op (Z.of_nat w) -> source_bits program op ->
  LowerToLut program op = Ok (false, op) \/
  exists op1 es, LowerToLut program op = Ok (true, op1) /\ lut_wf program op1 es /\ equivalent program op op1 /\
    _src op1 = _src op /\ _dst op1 = _dst op /\ length es = w /\ columns_in program op1 es.
Proof.
  intros [Hwf|Hl] Hw Hlow Hb.
  - destruct (LowerToLut_sound program op _ Hwf Hw Hlow) as (b & op1 & H & He & Hs & Hd & _ & Hlut & _).
    destruct b; [right|left; by subst]. destruct Hlut as (es & Hes). exists op1, es. split_and!; try done; [|by apply (LowerToLut_columns program op op1 es _ Hwf Hlow Hb H (lut_opcode _ _ _ Hes))].
    pose proof (lut_width _ _ _ Hes) as Hw1. unfold dstWidth in Hw, Hw1. rewrite Hd, Hw in Hw1. injection Hw1. lia.
  - right. unfold isLut in Hl. unfold source_bits in Hb. unfold lowerable in Hlow. destruct (_opcode op) eqn:Ho; try done. exists op, (_lutEntries _lut). pose proof (lut_width _ _ _ Hlow) as Hw1. rewrite Hw in Hw1. injection Hw1 as Hw1.
    assert (Hlower : LowerToLut program op = Ok (true, op)); [|split_and!; (done || lia)].
    assert (Hl1 : isLut op = true) by (unfold isLut; by rewrite Ho). unfold LowerToLut. rewrite Ho. cbn [CanOpcodeBeLoweredToLut assert_ mbind result_bind]. by rewrite Hl1, clear_mask_id, Hl1 by apply Hlow.
Qed.

Lemma CombineLuts_sound program op prevOp sel maxLutSources w wp r :
  combinable program op prevOp sel w wp r ->
  exists b op', CombineLuts program op prevOp sel maxLutSources = Ok (b, op') /\
    if b : bool
    then (forall τ, linked program prevOp r wp τ -> opValue program τ op' = opValue program τ op) /\
         _dst op' = _dst op /\ (forall r, SrcRegister r ∈ _src op' -> SrcRegister r ∈ _src op \/ SrcRegister r ∈ _src prevOp) /\
         exists es', lut_wf program op' es' /\ columns_in program op' es' /\ Forall (fun e => _numSources e <= maxLutSources)%nat es'
    else op' = op.
Proof.
  intros [(Hop & Hw & Hlow) (Hpop & Hpw & Hplow) Hlocal Hsel Hpdst Hbits Hpbits].
  unfold CombineLuts. rewrite Hlocal. cbn [assert_ mbind result_bind].
  destruct (LowerToLut_eq _ _ _ Hop Hw Hlow Hbits) as [->|(op1 & es & H1 & Hes & Heq & Hs1 & Hd1 & Hlen & Hin)].
  { cbn. by exists false, op. }
  rewrite H1. cbn [negb mbind result_bind].
  destruct (LowerToLut_eq _ _ _ Hpop Hpw Hplow Hpbits) as [->|(prev1 & pes & H2 & Hpes & Hpeq & Hps1 & Hpd1 & Hplen & Hpin)].
  { cbn. by exists false, op. }
  rewrite H2. cbn [negb mbind result_bind]. rewrite (getLut_eq _ _ _ Hes), (getLut_eq _ _ _ Hpes). cbn [mbind result_bind].
  rewrite (lut_width _ _ _ Hes). cbn [mbind result_bind]. unfold _numDestinationBits. cbn [_lutEntries].
  rewrite assert_true by (by apply Z.eqb_eq). cbn [mbind result_bind].
  assert (Hok : Forall (fun e => Forall (column_ok program op1 pes sel) (columns e)) es).
  { eapply Forall_impl; [exact Hin|]. intros e He. eapply Forall_impl; [exact He|]. intros c Hc. unfold column_ok.
    destruct (decide (c.1 = sel)) as [Hs|]; [|done]. destruct Hc as (x & d & Hx & Hd & Hlt). rewrite Hs, Hs1, Hsel in Hx. injection Hx as <-. rewrite Hplen, <- (linked_width program prevOp r (Z.of_nat wp) d); done. }
  set (Q := fun x => register_wf program x /\ (SrcRegister (mkAccessedRegister x) ∈ _src op \/ SrcRegister (mkAccessedRegister x) ∈ _src prevOp)).
  assert (HQ : forall x, SrcRegister x ∈ _src op1 \/ SrcRegister x ∈ _src prev1 -> Q (_registerIndex x)).
  { intros x Hx. pose proof (lut_srcs _ _ _ Hes) as Hsrc. pose proof (lut_srcs _ _ _ Hpes) as Hpsrc. rewrite Forall_forall in Hsrc, Hpsrc. split; [by destruct Hx as [Hx|Hx]; [apply (Hsrc _ Hx)|apply (Hpsrc _ Hx)]|]. rewrite Hs1, Hps1 in Hx. by destruct x. }
  destruct (initialRegMap_spec Q op1 sel (fun x Hx => HQ x (or_introl Hx))) as [Hreg0 Hin0].
  destruct (CombineEntries_eq program op1 es prev1 pes sel Hes Hpes Hpin Q (fun x Hx => HQ x (or_intror Hx)) es
    (initialRegMap op1 sel) (entries_wf _ _ _ Hes) Hok Hreg0) as ([[regs es']|] & -> & Hres).
  { intros e c He Hc Hne. rewrite Forall_forall in Hok. specialize (Hok e He). rewrite Forall_forall in Hok.
    specialize (Hok c Hc). unfold column_ok in Hok. rewrite decide_False in Hok by done. destruct Hok as (x & _ & Hx & _). by eapply Hin0. }
  2: { cbn. by exists false, op. }
  destruct Hres as (_ & Hregs & Hcomb). cbn [mbind result_bind].
  destruct (table_operand_wf _ _ _ Hop Hlow) as (Hsrcs & dst & Hdst).
  rewrite Hd1, Hdst. unfold at_. cbn [lookup list_lookup mbind result_bind].
  rewrite Hdst in Hd1.
  destruct (combined_lut_wf program op1 es prev1 pes sel regs es' Hes) with (locs := _locations op ∪ _locations prevOp) (dst := dst)
    as (Hnew & Hnewin & Hval); [by eapply Forall_impl; [exact Hregs|]; intros ? []|done|done|]. unfold combinedOperation. set (newOp := mkOperation _ _ _ _ _) in *.
  destruct (OptimizeLutOpt_sound program newOp es' Hnew) as (op' & es'' & -> & Hwf' & Heq' & Hd' & Hs' & Hsub).
  cbn [mbind result_bind]. rewrite (getLut_eq _ _ _ Hwf'). cbn [mbind result_bind _lutEntries].
  destruct (existsb _ es'') eqn:Hmax; [by exists false, op|]. exists true, op'. split; [done|].
  split; [|split; [by rewrite Hd'|split]].
  - intros τ Hτ. rewrite (Heq' τ), <- (Heq τ). apply Hval.
    destruct (Forall_lookup_1 _ _ _ _ Hsrcs Hsel) as (d & Hd & _).
    apply (linked_holds program op1 prev1 es pes sel r wp τ d); try done.
    + by rewrite Hs1.
    + by apply (linked_width program prevOp r (Z.of_nat wp) d).
    + by rewrite (Hpeq τ).
  - intros x Hx. assert (Hxn : SrcRegister x ∈ _src newOp) by (destruct (all_constant es''); rewrite Hs' in Hx; [by apply not_elem_of_nil in Hx|done]).
    cbn in Hxn. apply list_elem_of_fmap in Hxn as (y & [= ->] & Hy). rewrite Forall_forall in Hregs. by apply Hregs.
  - exists es''. split; [done|]. split; [by apply (optimized_columns program newOp es')|]. apply Forall_forall. intros e He. apply Nat.nlt_ge. intros Hlt.
    assert (existsb (fun e => maxLutSources <? _numSources e)%nat es'' = true); [|congruence].
    apply existsb_exists. exists e. split; [by apply list_elem_of_In|by apply Nat.ltb_lt].
Qed.


(** ** A sample: [w = a & b] followed by [d = w | b] *)

Definition sample_and : Operation :=
  mkOperation (BinaryOp ParseTreeBinaryOpTypeAnd) 0 ∅ [sample_reg 0; sample_reg 1] [sample_dst 4].
Definition sample_or : Operation :=
  mkOperation (BinaryOp ParseTreeBinaryOpTypeOr) 0 ∅ [sample_reg 4; sample_reg 1] [sample_dst 2].

Lemma sample_binary_wf i j k t w :
  (exists d, _registerTable sample_program !! i = Some d /\ 0 < _regWidth d < 2 ^ 30) ->
  (exists d, _registerTable sample_program !! j = Some d /\ 0 < _regWidth d < 2 ^ 30) ->
  registerWidth sample_program k = Ok w -> 0 < w < 2 ^ 30 ->
  op_wf sample_program (mkOperation (BinaryOp t) 0 ∅ [sample_reg i; sample_reg j] [sample_dst k]).
Proof.
  intros Hi Hj Hk Hw. constructor; cbn; try lia.
  - constructor; [exact Hi|]. constructor; [exact Hj|constructor].
  - exists (sample_dst k), w. split; [reflexivity|]. split; [exact Hk|exact Hw].
Defined.


(** [(a & b) | b] needs one source per bit: the unused one is removed. *)
Example CombineLuts_sample :
  CombineLuts sample_program sample_or sample_and 0 6 =
    Ok (true, mkOperation (LutOp (mkLut [fill_entry [(0%nat, 0)] 2; fill_entry [(0%nat, 1)] 2])) 0 ∅
                [sample_reg 1; sample_reg 0] [sample_dst 2]).
Proof. vm_compute. reflexivity. Qed.

End LutCombineCorrect.
