(* ===== verification/Run.v ===== *)
(** * Straight-line execution

    The meaning of a list of operations that a pass emits: each operation
    writes its value into its destination register.  Passes that emit
    operations also allocate registers; [extends] relates the register tables
    before and after. *)

From stdpp Require Import functions.
From S2P Require Import Prelude MachineInt Literals Ir Semantics.
Import MachineInt Literals Ir Semantics.

Module Run.

Section Execution.
Context (program : Program).

(** [None] when the operation has no value or no register destination *)
Definition step (σ : nat -> Z) (op : Operation) : option (nat -> Z) :=
  match _dst op with
  | [DstRegister r] => v ← opValue program σ op; Some (<[_registerIndex r := v]> σ)
  | _ => None
  end.

Fixpoint run (ops : list Operation) (σ : nat -> Z) : option (nat -> Z) :=
  match ops with
  | [] => Some σ
  | op :: ops => σ ← step σ op; run ops σ
  end.

Lemma run_app ops1 ops2 σ : run (ops1 ++ ops2) σ = (σ ← run ops1 σ; run ops2 σ).
Proof. revert σ; induction ops1 as [|op ops1 IH]; intros σ; cbn; [done|]. destruct (step σ op); cbn; auto. Qed.

(** Locations do not matter. *)
Lemma step_ext σ op op' :
  _opcode op' = _opcode op -> _signExtendSourceMask op' = _signExtendSourceMask op ->
  _src op' = _src op -> _dst op' = _dst op -> step σ op' = step σ op.
Proof. destruct op, op'; cbn. by intros -> -> -> ->. Qed.

End Execution.

(** ** Register tables *)

Definition numRegisters (program : Program) : nat := length (_registerTable program).

(** Register [r] exists and has [w] bits. *)
Definition has_width (program : Program) (r : nat) (w : Z) : Prop :=
  exists d, _registerTable program !! r = Some d /\ _regWidth d = w.

Definition extends (program program' : Program) : Prop :=
  _registerTable program `prefix_of` _registerTable program'.

#[export] Instance extends_preorder : PreOrder extends.
Proof. split; [by intros p; unfold extends|]. intros a b c; unfold extends. apply transitivity. Qed.

Lemma extends_lookup program program' r d :
  extends program program' -> _registerTable program !! r = Some d -> _registerTable program' !! r = Some d.
Proof. intros H Hr. by eapply prefix_lookup_Some. Qed.

Lemma has_width_extends program program' r w : extends program program' -> has_width program r w -> has_width program' r w.
Proof. intros H (d & Hd & Hw). exists d. split; [by eapply extends_lookup|done]. Qed.

Lemma extends_numRegisters program program' : extends program program' -> (numRegisters program <= numRegisters program')%nat.
Proof. apply prefix_length. Qed.

Lemma has_width_lt program r w : has_width program r w -> (r < numRegisters program)%nat.
Proof. intros (d & Hd & _). by eapply lookup_lt_Some. Qed.

Lemma registerWidth_eq program r w : has_width program r w -> registerWidth program r = Ok w.
Proof. intros (d & Hd & <-). unfold registerWidth. by rewrite (at_Some _ _ _ Hd). Qed.

Lemma AllocateRegister_eq program w t name :
  name ≠ ""%string ->
  exists program', AllocateRegister program w t name = Ok (program', numRegisters program) /\
    extends program program' /\ has_width program' (numRegisters program) w /\
    numRegisters program' = S (numRegisters program) /\
    _registerTable program' !! numRegisters program = Some (mkRegisterDescription w t name).
Proof.
  intros Hn. unfold AllocateRegister. rewrite assert_true by (by destruct name). cbn [mbind result_bind].
  eexists; split; [done|]. assert (Hl : (_registerTable program ++ [mkRegisterDescription w t name]) !! numRegisters program
    = Some (mkRegisterDescription w t name)) by apply list_lookup_middle, eq_refl.
  split; [by eexists|]. split; [by eexists|]. split; [|done]. unfold numRegisters. cbn. rewrite length_app. cbn. lia.
Qed.

Lemma app_suffix_nonempty s t : t ≠ ""%string -> (s +:+ t) ≠ ""%string.
Proof. by destruct s, t. Qed.

(** ** Values of operations on registers *)

(** The contents of a register of [w] bits *)
Definition contents (σ : nat -> Z) (w : Z) (r : nat) : Z := σ r mod 2 ^ w.

Lemma contents_range σ w r : 0 <= w -> 0 <= contents σ w r < 2 ^ w.
Proof. intros. apply Z.mod_pos_bound, Z.pow_pos_nonneg; lia. Qed.

Lemma contents_small σ w r v : σ r = v -> 0 <= v < 2 ^ w -> contents σ w r = v.
Proof. intros <- H. by apply Z.mod_small. Qed.

Lemma contents_insert σ w r v : 0 <= v < 2 ^ w -> contents (<[r := v]> σ) w r = v.
Proof. intros H. apply contents_small; [apply fn_lookup_insert|done]. Qed.

Lemma contents_insert_ne σ w r r' v : r ≠ r' -> contents (<[r := v]> σ) w r' = contents σ w r'.
Proof. intros H. unfold contents. by rewrite fn_lookup_insert_ne. Qed.

Lemma operandInt_register program σ r w :
  has_width program (_registerIndex r) w -> operandInt program σ false (SrcRegister r) = contents σ w (_registerIndex r).
Proof. intros (d & Hd & <-). unfold operandInt, operandLiteral. by rewrite Hd. Qed.

(** An operation with no sign extension whose destination is register [r] *)
Lemma step_value program σ op r w v :
  _dst op = [DstRegister r] -> has_width program (_registerIndex r) w ->
  opInt program σ op = Some v -> step program σ op = Some (<[_registerIndex r := v mod 2 ^ w]> σ).
Proof.
  intros Hd Hr Hv. unfold step, opValue, dstWidth. rewrite Hd. cbn [at_ lookup list_lookup DestinationOperand_Width].
  unfold at_. cbn [lookup list_lookup mbind result_bind DestinationOperand_Width]. rewrite (registerWidth_eq _ _ _ Hr), Hv.
  done.
Qed.

Lemma opInt_binary program σ t locs r0 r1 dst w0 w1 :
  has_width program (_registerIndex r0) w0 -> has_width program (_registerIndex r1) w1 ->
  opInt program σ (mkOperation (BinaryOp t) 0 locs [SrcRegister r0; SrcRegister r1] dst)
  = Some (binop_spec t (contents σ w0 (_registerIndex r0)) (contents σ w1 (_registerIndex r1))).
Proof.
  intros H0 H1. unfold opInt, srcInt, signExtends. cbn. by rewrite (operandInt_register _ _ _ _ H0), (operandInt_register _ _ _ _ H1).
Qed.

Lemma opInt_mov program σ locs r dst w :
  has_width program (_registerIndex r) w ->
  opInt program σ (mkOperation Mov 0 locs [SrcRegister r] dst) = Some (contents σ w (_registerIndex r)).
Proof. intros H. unfold opInt, srcInt, signExtends. cbn. by rewrite (operandInt_register _ _ _ _ H). Qed.

End Run.
