(* ===== verification/Reduce.v ===== *)
(** * Reduction trees

    [optimize_lut.cpp]: [InitializeLut], [AllocateLut], [ReduceBinaryOpLut],
    [ReduceBinaryOpNoLut], [ReduceBinaryOp] and [ReduceVecBinaryOp].  They
    allocate registers, so the program is threaded through.

    The fields of the device configuration that they read ([_supportsLuts],
    [_smallLutSize]) and the value of [LocationToFileAndLineNumber] are
    arguments. *)

From S2P Require Import Prelude MachineInt Literals Ir.
Import MachineInt Literals Ir.

Module Reduce.

(** A zero-initialised array; the caller fills it in. *)
Definition AllocateLut (numDstBits : nat) : Lut := mkLut (replicate numDstBits LutEntry_zero).

(** ** [ReduceBinaryOpLut] *)

(** The two low bits are replaced by their image in the two-input table. *)
Definition reduceBitsStep (twoInputLut reducedBits : Z) : Z :=
  let indexIntoLut := Z.land reducedBits 3 in
  let output := Z.land (Z.shiftr twoInputLut indexIntoLut) 1 in
  Z.lor (Z.land (Z.shiftr reducedBits 1) (2 ^ 64 - 2)) output.

Definition reducedBit (twoInputLut : Z) (numSrcBits : nat) (tableIndex : Z) : Z :=
  Z.land (Nat.iter (numSrcBits - 1) (reduceBitsStep twoInputLut) tableIndex) 1.

(** The entry of one group of source bits.  [_sourceIndices] and [_sourceBit]
    have room for [c_maxLutSources] columns. *)
Definition ReduceEntry (twoInputLut maxLutSources srcWidth : Z) (lutEntry : LutEntry) (dstBit : Z) : result LutEntry :=
  let startSrcBit := u64_mul dstBit maxLutSources in
  let endSrcBit := Z.min (u64_add startSrcBit maxLutSources) srcWidth in
  let numSrcBits := u64_sub endSrcBit startSrcBit in
  assert_ (startSrcBit <? srcWidth);;
  assert_ (endSrcBit <=? srcWidth);;
  assert_ (0 <? numSrcBits);;
  if Z.of_nat (length (_sourceIndices lutEntry)) <? numSrcBits then Err OutOfRange
  else
    let tableSize := u64_shl 1 numSrcBits in
    let table := fold_left (fun table tableIndex =>
        Z.lor table (u64_shl (reducedBit twoInputLut (Z.to_nat numSrcBits) tableIndex) tableIndex))
      (seqZ 0 tableSize) 0 in
    Ok (fill_entry ((fun i => (0%nat, u64_add startSrcBit i)) <$> seqZ 0 numSrcBits) table).

Definition reduceLut (twoInputLut maxLutSources srcWidth dstWidth : Z) : result Lut :=
  let lut := AllocateLut (Z.to_nat dstWidth) in
  es ← mapM_ (fun dstBit =>
      lutEntry ← at_ (_lutEntries lut) (Z.to_nat dstBit);
      ReduceEntry twoInputLut maxLutSources srcWidth lutEntry dstBit) (seqZ 0 dstWidth);
  Ok (mkLut es).

(** The body of the [while (true)] loop; the register of one pass is the
    source of the next. *)
Fixpoint ReduceBinaryOpLut (fuel : nat) (maxLutSources : Z) (program : Program) (currSrcReg : AccessedRegister)
    (twoInputLut : Z) (dstOp : DestinationOperand) : result (Program * list Operation) :=
  match fuel with
  | O => Err OutOfFuel
  | S fuel =>
      src ← at_ (_registerTable program) (_registerIndex currSrcReg);
      let srcWidth := _regWidth src in
      if maxLutSources =? 0 then Err DivisionByZero
      else
        let dstWidth := u64_sub (u64_add srcWidth maxLutSources) 1 / maxLutSources in
        assert_ (0 <? dstWidth);;
        '(program, destReg) ←
          (if 1 <? dstWidth then
             '(program, r) ← AllocateRegister program dstWidth Local (_name src +:+ "_reduce");
             Ok (program, mkAccessedRegister r)
           else
             match dstOp with DstRegister r => Ok (program, r) | DstFifo _ => Err AssertionFailed end);
        lut ← reduceLut twoInputLut maxLutSources srcWidth dstWidth;
        let reduceOp := mkOperation (LutOp lut) 0 ∅ [SrcRegister currSrcReg] [DstRegister destReg] in
        if dstWidth =? 1 then Ok (program, [reduceOp])
        else
          '(program, operationList) ← ReduceBinaryOpLut fuel maxLutSources program destReg twoInputLut dstOp;
          Ok (program, reduceOp :: operationList)
  end.

(** ** Pairwise trees

    [merge] allocates the register of a pair and emits its operation.  A
    left-over register is carried to the next level. *)
Section PairwiseTree.
Context (merge : Program -> AccessedRegister -> AccessedRegister -> result (Program * AccessedRegister * Operation)).

Fixpoint reduceLevel (program : Program) (regs : list AccessedRegister)
    : result (Program * list AccessedRegister * list Operation) :=
  match regs with
  | r0 :: r1 :: rest =>
      '(program, r, op) ← merge program r0 r1;
      '(program, rs, ops) ← reduceLevel program rest;
      Ok (program, r :: rs, op :: ops)
  | _ => Ok (program, regs, [])
  end.

Fixpoint reduceTree (fuel : nat) (program : Program) (regs : list AccessedRegister)
    : result (Program * list AccessedRegister * list Operation) :=
  if (1 <? length regs)%nat then
    match fuel with
    | O => Err OutOfFuel
    | S fuel =>
        '(program, regs, ops) ← reduceLevel program regs;
        '(program, regs, ops') ← reduceTree fuel program regs;
        Ok (program, regs, ops ++ ops')
    end
  else Ok (program, regs, []).
End PairwiseTree.

(** [Operation op = {}; op._opcode = opcode; op._dst.push_back(dst)] *)
Definition emptyOperation (opcode : Opcode) (dst : DestinationOperand) : Operation := mkOperation opcode 0 ∅ [] [dst].

(** ** [ReduceBinaryOpNoLut] *)

(** The operation that isolates bit [i] *)
Definition extractBit (srcReg : AccessedRegister) (st : Program * list AccessedRegister * list Operation) (i : Z)
    : result (Program * list AccessedRegister * list Operation) :=
  let '(program, srcRegs, operationList) := st in
  '(program, r) ← AllocateRegister program 1 Local "ReductionBit";
  let op := emptyOperation (BinaryOp ParseTreeBinaryOpTypeShr) (DstRegister (mkAccessedRegister r)) in
  let op := PushOperand (PushOperand op (SrcRegister srcReg) false) (SourceOperand_size_t i 64) false in
  Ok (program, srcRegs ++ [mkAccessedRegister r], operationList ++ [op]).

Definition mergeBits (reduceOp : ParseTreeBinaryOpType) (program : Program) (r0 r1 : AccessedRegister)
    : result (Program * AccessedRegister * Operation) :=
  '(program, r) ← AllocateRegister program 1 Local "ReductionBit";
  let op := emptyOperation (BinaryOp reduceOp) (DstRegister (mkAccessedRegister r)) in
  Ok (program, mkAccessedRegister r, PushOperand (PushOperand op (SrcRegister r0) false) (SrcRegister r1) false).

Definition ReduceBinaryOpNoLut (program : Program) (srcReg : AccessedRegister) (reduceOp : ParseTreeBinaryOpType)
    (dstOp : DestinationOperand) : result (Program * list Operation) :=
  srcWidth ← registerWidth program (_registerIndex srcReg);
  '(program, srcRegs, ops) ← foldM (extractBit srcReg) (seqZ 0 srcWidth) (program, [], []);
  '(program, srcRegs, ops') ← reduceTree (mergeBits reduceOp) (length srcRegs) program srcRegs;
  srcReg0 ← at_ srcRegs 0;
  Ok (program, ops ++ ops' ++ [PushOperand (emptyOperation Mov dstOp) (SrcRegister srcReg0) false]).

(** ** [ReduceBinaryOp] *)

(** The destructor of [SetOperationLocation] *)
Definition updateOpLocations (locations : gset FileAndLineNumber) (op : Operation) : Operation :=
  if decide (_locations op = ∅)
  then mkOperation (_opcode op) (_signExtendSourceMask op) locations (_src op) (_dst op)
  else op.

Definition reduceTable (reduceOp : ParseTreeBinaryOpType) : result Z :=
  match reduceOp with
  | ParseTreeBinaryOpTypeAnd => Ok 8
  | ParseTreeBinaryOpTypeOr => Ok 14
  | _ => Err AssertionFailed
  end.

Definition ReduceBinaryOp (fuel : nat) (_supportsLuts : bool) (_smallLutSize : Z) (program : Program)
    (srcReg : AccessedRegister) (reduceOp : ParseTreeBinaryOpType) (dstOp : DestinationOperand)
    (srcLocationOp : Operation) : result (Program * list Operation) :=
  assert_ (negb (bool_decide (_locations srcLocationOp = ∅)));;
  '(program, ops) ←
    (if _supportsLuts then
       lut ← reduceTable reduceOp;
       ReduceBinaryOpLut fuel _smallLutSize program srcReg lut dstOp
     else ReduceBinaryOpNoLut program srcReg reduceOp dstOp : result (Program * list Operation));
  Ok (program, updateOpLocations (_locations srcLocationOp) <$> (ops : list Operation)).

(** ** [ReduceVecBinaryOp] *)

Definition mergeRegisters (width : Z) (reduceOp : ParseTreeBinaryOpType) (location : FileAndLineNumber)
    (intermediateRegName : string) (program : Program) (r0 r1 : AccessedRegister)
    : result (Program * AccessedRegister * Operation) :=
  '(program, r) ← AllocateRegister program width Local (intermediateRegName +:+ "_Reduced");
  w0 ← registerWidth program (_registerIndex r0);
  assert_ (width =? w0);;
  w1 ← registerWidth program (_registerIndex r1);
  assert_ (width =? w1);;
  Ok (program, mkAccessedRegister r,
      mkOperation (BinaryOp reduceOp) 0 {[location]} [SrcRegister r0; SrcRegister r1] [DstRegister (mkAccessedRegister r)]).

Definition ReduceVecBinaryOp (program : Program) (srcRegs : list AccessedRegister) (reduceOp : ParseTreeBinaryOpType)
    (dstReg : AccessedRegister) (location : FileAndLineNumber) (intermediateRegName : string) (defaultValue : Z)
    : result (Program * list Operation) :=
  width ← registerWidth program (_registerIndex dstReg);
  '(program, regs, ops) ←
    reduceTree (mergeRegisters width reduceOp location intermediateRegName) (length srcRegs) program srcRegs;
  let src := match regs with
             | r :: _ => SrcRegister r
             | [] => SrcLiteral (mkLiteral (Truncate defaultValue width) width)
             end in
  Ok (program, ops ++ [mkOperation Mov 0 ∅ [src] [DstRegister dstReg]]).

End Reduce.
