(* ===== verification/ReduceTree.v ===== *)
(** * Pairwise reduction trees compute the reduction

    The trees of [ReduceVecBinaryOp] and [ReduceBinaryOpNoLut]. *)

From stdpp Require Import functions.
From S2P Require Import Prelude MachineInt Literals Ir Semantics Run Reduce LutOpt LutFacts.
Import MachineInt Literals Ir Semantics Run Reduce.

Module ReduceTree.

(** ** The operators that are reduced with *)

(** An associative operator with a neutral element that stays within a width *)
Record reduction (f : Z -> Z -> Z) (e : Z) : Prop := mk_reduction {
  red_assoc : forall a b c, f a (f b c) = f (f a b) c;
  red_unit : forall a, f a e = a;
  red_range : forall w a b, 0 <= w -> 0 <= a < 2 ^ w -> 0 <= b < 2 ^ w -> 0 <= f a b < 2 ^ w }.

Lemma land_reduction : reduction Z.land (-1).
Proof.
  split; [intros; apply Z.land_assoc|apply Z.land_m1_r|]. intros w a b Hw Ha Hb.
  replace (Z.land a b) with (Z.land a b mod 2 ^ w); [apply Z.mod_pos_bound, Z.pow_pos_nonneg; lia|].
  apply Z.bits_inj'. intros i Hi. destruct (Z.lt_ge_cases i w).
  - by rewrite Z.mod_pow2_bits_low.
  - by rewrite Z.mod_pow2_bits_high, Z.land_spec, (testbit_high w a) by lia.
Qed.

Lemma lor_reduction : reduction Z.lor 0.
Proof. split; [intros; apply Z.lor_assoc|apply Z.lor_0_r|]. intros; by apply lor_bound. Qed.

Definition reductionOf (t : ParseTreeBinaryOpType) (f : Z -> Z -> Z) (e : Z) : Prop :=
  reduction f e /\ forall a b, binop_spec t a b = f a b.

Lemma reductionOf_And : reductionOf ParseTreeBinaryOpTypeAnd Z.land (-1).
Proof. split; [apply land_reduction|done]. Qed.
Lemma reductionOf_Or : reductionOf ParseTreeBinaryOpTypeOr Z.lor 0.
Proof. split; [apply lor_reduction|done]. Qed.

Section Tree.
Context (t : ParseTreeBinaryOpType) (f : Z -> Z -> Z) (e : Z) (w : Z).
Context (Hf : reductionOf t f e) (Hw : 0 <= w).

Definition reduceAll (l : list Z) : Z := foldr f e l.

Definition values (σ : nat -> Z) (regs : list AccessedRegister) : list Z := (fun r => contents σ w (_registerIndex r)) <$> regs.

(** What a [merge] does: a new register of [w] bits receives [f] of two others. *)
Definition merges (merge : Program -> AccessedRegister -> AccessedRegister -> result (Program * AccessedRegister * Operation)) : Prop :=
  forall program r0 r1,
  has_width program (_registerIndex r0) w -> has_width program (_registerIndex r1) w ->
  exists program' op, merge program r0 r1 = Ok (program', mkAccessedRegister (numRegisters program), op) /\
    extends program program' /\ has_width program' (numRegisters program) w /\
    numRegisters program' = S (numRegisters program) /\
    forall P σ, extends program' P ->
      step P σ op = Some (<[numRegisters program := f (contents σ w (_registerIndex r0)) (contents σ w (_registerIndex r1))]> σ).

(** What a tree or a level of it does: the operations [ops] leave the old
    registers alone, and the registers [regs'] reduce to what [regs] did. *)
Definition tree_step (program : Program) (regs : list AccessedRegister) (r : Program * list AccessedRegister * list Operation) : Prop :=
  let '(program', regs', ops) := r in
  extends program program' /\ Forall (fun r => has_width program' (_registerIndex r) w) regs' /\
  forall P σ, extends program' P -> exists σ', run P ops σ = Some σ' /\
    (forall i, (i < numRegisters program)%nat -> σ' i = σ i) /\
    reduceAll (values σ' regs') = reduceAll (values σ regs).

Lemma tree_step_refl program regs :
  Forall (fun r => has_width program (_registerIndex r) w) regs -> tree_step program regs (program, regs, []).
Proof. intros H. split; [reflexivity|]. split; [done|]. intros P σ _. by exists σ. Qed.

Lemma tree_step_trans program regs program1 regs1 ops1 program2 regs2 ops2 :
  tree_step program regs (program1, regs1, ops1) -> tree_step program1 regs1 (program2, regs2, ops2) ->
  tree_step program regs (program2, regs2, ops1 ++ ops2).
Proof.
  intros (He1 & _ & H1) (He2 & Hw2 & H2). split; [by transitivity program1|]. split; [done|]. intros P σ HP.
  destruct (H1 P σ) as (σ1 & Hr1 & Hfr1 & Hv1); [by transitivity program2|].
  destruct (H2 P σ1 HP) as (σ2 & Hr2 & Hfr2 & Hv2). exists σ2. rewrite run_app, Hr1. cbn. split; [done|].
  pose proof (extends_numRegisters _ _ He1). split; [|by rewrite Hv2].
  intros i Hi. rewrite Hfr2 by lia. by apply Hfr1.
Qed.

Lemma values_frame program σ σ' regs :
  Forall (fun r => has_width program (_registerIndex r) w) regs ->
  (forall i, (i < numRegisters program)%nat -> σ' i = σ i) -> values σ' regs = values σ regs.
Proof.
  intros Hregs Hfr. apply list_fmap_ext. intros i r Hr. unfold contents. rewrite Hfr; [done|].
  by eapply has_width_lt, (Forall_lookup_1 _ _ _ _ Hregs).
Qed.

Section Merge.
Context (merge : Program -> AccessedRegister -> AccessedRegister -> result (Program * AccessedRegister * Operation)).
Context (Hmerge : merges merge).

Lemma reduceLevel_eq program regs :
  Forall (fun r => has_width program (_registerIndex r) w) regs ->
  exists program' regs' ops, reduceLevel merge program regs = Ok (program', regs', ops) /\
    tree_step program regs (program', regs', ops) /\ (2 * length regs' <= length regs + 1)%nat /\ (regs <> [] <-> regs' <> []).
Proof.
  destruct Hf as [[Has Hu Hrg] _].
  remember (length regs) as n eqn:Hn. revert program regs Hn.
  induction (lt_wf n) as [n _ IH]. intros program regs -> Hregs.
  destruct regs as [|r0 [|r1 rest]].
  1, 2: eexists _, _, _; split; [reflexivity|]; (split; [by apply tree_step_refl|split; [cbn; lia|done]]).
  inversion_clear Hregs as [|?? H0 Hregs']. inversion_clear Hregs' as [|?? H1 Hrest].
  destruct (Hmerge program r0 r1 H0 H1) as (p1 & op & Hm & He1 & Hr & Hnum & Hstep).
  destruct (IH (length rest) ltac:(cbn; lia) p1 rest eq_refl) as (p2 & regs' & ops & Hl & (He2 & Hw' & Hrun) & Hlen & _).
  { eapply Forall_impl; [exact Hrest|]. intros r Hr'. cbn in Hr'. by eapply has_width_extends. }
  cbn [reduceLevel]. rewrite Hm. cbn [mbind result_bind]. rewrite Hl. cbn [mbind result_bind].
  eexists _, _, _; split; [reflexivity|]. split; [|split; [cbn; lia|done]].
  split; [by transitivity p1|]. split.
  { constructor; [|done]. by eapply has_width_extends. }
  intros P σ HP. cbn [run]. rewrite Hstep by (by transitivity p2). cbn [mbind option_bind].
  set (v := f _ _). set (σ1 := <[_ := v]> σ).
  destruct (Hrun P σ1 HP) as (σ' & Hσ' & Hfr & Hv). exists σ'. split; [done|].
  assert (Hσ1 : forall i, (i < numRegisters program)%nat -> σ1 i = σ i).
  { intros i Hi. unfold σ1. by rewrite fn_lookup_insert_ne by lia. }
  split; [intros i Hi; rewrite Hfr by lia; by apply Hσ1|].
  cbn [values fmap list_fmap reduceAll foldr]. fold (values σ' regs'). fold (values σ rest).
  fold (reduceAll (values σ' regs')). fold (reduceAll (values σ rest)).
  rewrite Hv, (values_frame program σ σ1) by done. rewrite Has. f_equal.
  unfold contents at 1. cbn [_registerIndex]. rewrite Hfr by lia. unfold σ1. rewrite fn_lookup_insert.
  apply Z.mod_small, Hrg; [done|by apply contents_range..].
Qed.

Lemma reduceTree_eq fuel program regs :
  (length regs <= S fuel)%nat -> Forall (fun r => has_width program (_registerIndex r) w) regs ->
  exists program' regs' ops, reduceTree merge fuel program regs = Ok (program', regs', ops) /\
    tree_step program regs (program', regs', ops) /\ (length regs' <= 1)%nat /\ (regs <> [] <-> regs' <> []).
Proof.
  revert program regs. induction fuel as [|fuel IH]; intros program regs Hlen Hregs; cbn [reduceTree];
    destruct (Nat.ltb_spec 1 (length regs)) as [H1|H1].
  2, 4: eexists _, _, _; split; [reflexivity|]; (split; [by apply tree_step_refl|done]).
  - lia.
  - destruct (reduceLevel_eq program regs Hregs) as (p1 & regs1 & ops1 & -> & Hs1 & Hl1 & Hne1). cbn [mbind result_bind].
    destruct (IH p1 regs1) as (p2 & regs2 & ops2 & -> & Hs2 & Hl2 & Hne2); [lia|apply Hs1|]. cbn [mbind result_bind].
    eexists _, _, _; split; [reflexivity|]. split; [by eapply tree_step_trans|]. split; [done|]. by rewrite Hne1.
Qed.

End Merge.
End Tree.

(** ** The two kinds of trees *)

Lemma mergeBits_merges t f e : reductionOf t f e -> merges f 1 (mergeBits t).
Proof.
  intros [[_ _ Hrg] Hspec] program r0 r1 H0 H1. unfold mergeBits.
  destruct (AllocateRegister_eq program 1 Local "ReductionBit") as (p & -> & He & Hr & Hnum & _); [done|]. cbn [mbind result_bind].
  eexists _, _; split; [reflexivity|]. do 3 (split; [done|]). intros P σ HP.
  unfold PushOperand, emptyOperation. cbn [_opcode _signExtendSourceMask _locations _src _dst app].
  erewrite (step_value _ _ _ (mkAccessedRegister (numRegisters program)) 1).
  2: done. 2: by eapply has_width_extends.
  2: { apply (opInt_binary _ _ _ _ _ _ _ 1 1); (eapply has_width_extends; [|done]); by transitivity p. }
  f_equal. rewrite Hspec, Z.mod_small; [done|]. by apply Hrg; [|apply contents_range..].
Qed.

Lemma mergeRegisters_merges t f e w location name :
  reductionOf t f e -> 0 <= w -> merges f w (mergeRegisters w t location name).
Proof.
  intros [[_ _ Hrg] Hspec] Hw program r0 r1 H0 H1. unfold mergeRegisters.
  destruct (AllocateRegister_eq program w Local (name +:+ "_Reduced")) as (p & -> & He & Hr & Hnum & _);
    [by apply app_suffix_nonempty|]. cbn [mbind result_bind].
  rewrite (registerWidth_eq p _ w), (registerWidth_eq p _ w) by (by eapply has_width_extends). cbn [mbind result_bind].
  rewrite assert_true by apply Z.eqb_refl. cbn [mbind result_bind].
  eexists _, _; split; [reflexivity|]. do 3 (split; [done|]). intros P σ HP.
  erewrite (step_value _ _ _ (mkAccessedRegister (numRegisters program)) w).
  2: done. 2: by eapply has_width_extends.
  2: { apply (opInt_binary _ _ _ _ _ _ _ w w); (eapply has_width_extends; [|done]); by transitivity p. }
  f_equal. rewrite Hspec, Z.mod_small; [done|]. by apply Hrg; [|apply contents_range..].
Qed.

(** ** [ReduceVecBinaryOp] *)

Lemma ReduceVecBinaryOp_sound t f e program srcRegs dstReg location name defaultValue w :
  reductionOf t f e -> 0 <= w -> has_width program (_registerIndex dstReg) w ->
  Forall (fun r => has_width program (_registerIndex r) w) srcRegs ->
  exists program' ops, ReduceVecBinaryOp program srcRegs t dstReg location name defaultValue = Ok (program', ops) /\
    extends program program' /\
    forall σ, exists σ', run program' ops σ = Some σ' /\
      σ' (_registerIndex dstReg) = (if srcRegs then defaultValue mod 2 ^ w else reduceAll f e (values w σ srcRegs)) /\
      (forall i, (i < numRegisters program)%nat -> i <> _registerIndex dstReg -> σ' i = σ i).
Proof.
  intros Hf Hw Hdst Hsrcs. unfold ReduceVecBinaryOp. rewrite (registerWidth_eq _ _ _ Hdst). cbn [mbind result_bind].
  destruct (reduceTree_eq t f e w Hf Hw _ (mergeRegisters_merges _ _ _ w location name Hf Hw) (length srcRegs) program srcRegs)
    as (p & regs & ops & -> & (He & Hregs & Hrun) & Hl1 & Hne); [lia|done|]. cbn [mbind result_bind].
  eexists _, _; split; [reflexivity|]. split; [done|]. intros σ.
  destruct (Hrun p σ) as (σ1 & Hσ1 & Hfr & Hv); [done|]. rewrite run_app, Hσ1. cbn [mbind option_bind run].
  pose proof (has_width_extends _ _ _ _ He Hdst) as Hdst'.
  set (v := if srcRegs then defaultValue mod 2 ^ w else reduceAll f e (values w σ srcRegs)).
  assert (Hstep : step p σ1 (mkOperation Mov 0 ∅ [match regs with r :: _ => SrcRegister r
      | [] => SrcLiteral (mkLiteral (Truncate defaultValue w) w) end] [DstRegister dstReg])
    = Some (<[_registerIndex dstReg := v]> σ1)).
  { destruct regs as [|r [|? ?]]; [| |cbn in Hl1; lia].
    - destruct srcRegs; [|by destruct (proj1 Hne)]. erewrite step_value; [|done|exact Hdst'|done]. unfold srcInt. cbn.
      rewrite Truncate_mod by lia. rewrite signExtends_mask0 by done. cbn. rewrite Z.mod_mod by (apply Z.pow_nonzero; lia). done.
    - inversion_clear Hregs as [|?? Hr _]. erewrite step_value; [|done|exact Hdst'|by apply (opInt_mov _ _ _ _ _ w)].
      do 2 f_equal. rewrite Z.mod_small by (by apply contents_range). destruct Hf as [[_ Hu Hrg] _].
      unfold v. destruct srcRegs as [|s ss].
      + by destruct (proj2 Hne).
      + rewrite <- Hv. cbn. by rewrite Hu. }
  rewrite Hstep. cbn. eexists; split; [reflexivity|]. split; [by rewrite fn_lookup_insert|].
  intros i Hi Hne'. rewrite fn_lookup_insert_ne by done. by apply Hfr.
Qed.

End ReduceTree.

(** * Reduction by look-up tables

    [ReduceBinaryOpLut] emits a chain of LUT operations that reduces the bits
    of a register to one bit, and it terminates when a table has at least two
    inputs. *)

Import MachineInt Literals Ir LutOpt LutFacts LutCofactor Semantics LutPasses Run Reduce.

Module ReduceLut.

(** A boolean monoid and its table of two inputs *)
Record bit_reduction (fb : bool -> bool -> bool) (eb : bool) (table : Z) : Prop := mk_bit_reduction {
  br_assoc : forall a b c, fb a (fb b c) = fb (fb a b) c;
  br_unit : forall a, fb a eb = a;
  br_unit_l : forall a, fb eb a = a;
  br_table : forall a b, Z.testbit table (Z.b2z a + 2 * Z.b2z b) = fb a b }.

Lemma bit_reduction_and : bit_reduction andb true 8.
Proof. split; by repeat intros []. Qed.
Lemma bit_reduction_or : bit_reduction orb false 14.
Proof. split; by repeat intros []. Qed.

Section Reduction.
Context (fb : bool -> bool -> bool) (eb : bool) (table : Z) (Hbr : bit_reduction fb eb table).

Definition reduceBits (l : list bool) : bool := foldr fb eb l.

Lemma reduceBits_app l1 l2 : reduceBits (l1 ++ l2) = fb (reduceBits l1) (reduceBits l2).
Proof.
  destruct Hbr as [Has _ Hl _]. unfold reduceBits. induction l1 as [|a l1 IH]; cbn; [by rewrite Hl|]. by rewrite IH, Has.
Qed.

Lemma fold_left_reduceBits l a : fold_left fb l a = fb a (reduceBits l).
Proof.
  destruct Hbr as [Has Hu _ _]. unfold reduceBits. revert a; induction l as [|b l IH]; intros a; cbn; [by rewrite Hu|].
  by rewrite IH, Has.
Qed.

(** ** One row *)

Lemma land_clear_bit0 x : 0 <= x < 2 ^ 64 -> Z.land x (2 ^ 64 - 2) = 2 * (x / 2).
Proof.
  intros Hx. apply Z.bits_inj'. intros i Hi. rewrite Z.land_spec.
  change (2 ^ 64 - 2) with (2 * Z.ones 63).
  destruct (Z.eqb_spec i 0) as [->|Hi0]; [by rewrite !Z.testbit_even_0, andb_false_r|].
  replace i with (Z.succ (i - 1)) by lia. rewrite !Z.testbit_even_succ by lia.
  change (x / 2) with (x / 2 ^ 1). rewrite Z.div_pow2_bits by lia. replace (i - 1 + 1) with (Z.succ (i - 1)) by lia.
  destruct (Z.lt_ge_cases (i - 1) 63).
  - by rewrite Z.ones_spec_low, andb_true_r by lia.
  - by rewrite (testbit_high 64 x) by lia.
Qed.

Lemma reduceBitsStep_eq a b l :
  (length l <= 62)%nat -> reduceBitsStep table (bits_to_Z (a :: b :: l)) = bits_to_Z (fb a b :: l).
Proof.
  intros Hl. destruct Hbr as [_ _ _ Ht]. pose proof (bits_to_Z_bound (a :: b :: l)) as Hb.
  assert (2 ^ Z.of_nat (length (a :: b :: l)) <= 2 ^ 64) by (apply Z.pow_le_mono_r; cbn [length]; lia).
  unfold reduceBitsStep. change 3 with (Z.ones 2). rewrite Z.land_ones by lia. rewrite Z.shiftr_div_pow2 by lia.
  change (2 ^ 2) with 4. change (2 ^ 1) with 2. cbn [bits_to_Z] in *. set (R := bits_to_Z l) in *.
  replace ((Z.b2z a + 2 * (Z.b2z b + 2 * R)) mod 4) with (Z.b2z a + 2 * Z.b2z b).
  2: { apply (Z.mod_unique_pos _ _ R); destruct a, b; cbn [Z.b2z]; lia. }
  replace ((Z.b2z a + 2 * (Z.b2z b + 2 * R)) / 2) with (Z.b2z b + 2 * R).
  2: { apply (Z.div_unique_pos _ _ _ (Z.b2z a)); destruct a; cbn [Z.b2z]; lia. }
  rewrite land_shiftr_1 by (destruct a, b; cbn [Z.b2z]; lia). rewrite Ht.
  rewrite land_clear_bit0 by (destruct a, b; cbn [Z.b2z] in *; lia).
  replace ((Z.b2z b + 2 * R) / 2) with R by (apply (Z.div_unique_pos _ _ _ (Z.b2z b)); destruct b; cbn [Z.b2z]; lia).
  rewrite Z.lor_comm. replace (2 * R) with (Z.shiftl R 1) at 1 by (rewrite Z.shiftl_mul_pow2 by lia; change (2 ^ 1) with 2; lia).
  rewrite lor_shiftl_add by (destruct (fb a b); cbn [Z.b2z]; lia). change (2 ^ 1) with 2. lia.
Qed.

Lemma reducedBit_eq l :
  l <> [] -> (length l <= 64)%nat -> reducedBit table (length l) (bits_to_Z l) = Z.b2z (reduceBits l).
Proof.
  intros Hne Hlen. destruct l as [|a l]; [done|]. unfold reducedBit. cbn [length]. rewrite Nat.sub_succ, Nat.sub_0_r.
  assert (Hit : forall l a, (length l <= 63)%nat ->
    Nat.iter (length l) (reduceBitsStep table) (bits_to_Z (a :: l)) = Z.b2z (fold_left fb l a)).
  { clear - Hbr. induction l as [|b l IH]; intros a Hl; cbn [length] in *; [cbn; destruct a; done|].
    rewrite Nat.iter_succ_r, reduceBitsStep_eq by lia. cbn [fold_left]. apply IH. lia. }
  rewrite Hit by (cbn in Hlen; lia). rewrite fold_left_reduceBits. change (reduceBits (a :: l)) with (fb a (reduceBits l)).
  by destruct (fb a (reduceBits l)).
Qed.

(** ** One entry *)

(** The bits of group [k] *)
Definition groupSize (m w k : Z) : Z := Z.min m (w - k * m).
Definition group (m w : Z) (b : Z -> bool) (k : Z) : bool := reduceBits (b <$> seqZ (k * m) (groupSize m w k)).

Lemma ReduceEntry_eq m w k :
  1 <= m <= 6 -> 0 < w < 2 ^ 30 -> 0 <= k -> k * m < w ->
  exists e, ReduceEntry table m w LutEntry_zero k = Ok e /\ entry_fits 1 e /\
    forall ρ, entry_val ρ e = group m w (fun i => ρ (0%nat, i)) k.
Proof.
  intros Hm Hw Hk Hkm. unfold ReduceEntry.
  assert (Hkb : 0 <= k < 2 ^ 30) by nia.
  unfold u64_mul, u64_add, u64_sub. rewrite (u64_small (k * m)) by (unfold is_u64; lia).
  rewrite (u64_small (k * m + m)) by (unfold is_u64; lia).
  replace (Z.min (k * m + m) w - k * m) with (groupSize m w k) by (unfold groupSize; lia).
  assert (Hn : 0 < groupSize m w k <= 6) by (unfold groupSize; lia). unfold group. set (n := groupSize m w k) in *.
  rewrite (u64_small n) by (unfold is_u64; lia).
  rewrite (assert_true (k * m <? w)), (assert_true (_ <=? w)), (assert_true (0 <? n))
    by (apply Z.ltb_lt || apply Z.leb_le; lia). cbn [mbind result_bind LutEntry_zero _sourceIndices].
  rewrite length_replicate. unfold c_maxLutSources. rewrite (proj2 (Z.ltb_ge _ _)) by (cbn; lia).
  set (cols := (fun i : Z => _) <$> seqZ 0 n).
  assert (Hcl : length cols = Z.to_nat n) by (unfold cols; by rewrite length_fmap, length_seqZ).
  assert (Hcols : cols = pair 0%nat <$> seqZ (k * m) n).
  { unfold cols. replace (seqZ (k * m) n) with (Z.add (k * m) <$> seqZ 0 n) by (rewrite fmap_add_seqZ; f_equal; lia).
    rewrite <- list_fmap_compose.
    apply list_fmap_ext. intros i x Hx%list_elem_of_lookup_2%elem_of_seqZ. cbn. f_equal. apply u64_small. unfold is_u64. nia. }
  replace (u64_shl 1 n) with (2 ^ Z.of_nat (length cols)).
  2: { rewrite Hcl, Z2Nat.id by lia. change 1 with (Z.b2z true). by rewrite u64_shl_bit, shiftl_1_pow by lia. }
  rewrite (fold_left_ext _ (fun acc r => Z.lor acc (u64_shl (Z.b2z (reduceBits (Z_to_bits (length cols) r))) r))).
  2: { intros acc r Hr%elem_of_seqZ. rewrite <- Hcl. rewrite <- (bits_to_Z_to_bits (length cols) r) at 1 by lia.
       rewrite <- (length_Z_to_bits (length cols) r) at 1. rewrite reducedBit_eq; [done| |rewrite length_Z_to_bits; lia].
       intros H%(f_equal length). rewrite length_Z_to_bits in H. cbn in H. lia. }
  rewrite (build_table _ _ reduceBits) by (done || unfold c_maxLutSources; lia).
  eexists; split; [reflexivity|]. split.
  - split.
    + apply fill_entry_wf; [unfold c_maxLutSources; lia|apply table_of_bound|]. rewrite Hcols.
      apply Forall_fmap, Forall_forall. intros i Hi%elem_of_seqZ. cbn. nia.
    + rewrite columns_fill by (unfold c_maxLutSources; lia). rewrite Hcols. apply Forall_fmap, Forall_forall. intros i _. cbn. lia.
  - intros ρ. rewrite entry_val_fill by (unfold c_maxLutSources; lia). rewrite Hcols, <- list_fmap_compose. done.
Qed.

(** ** One level *)

(** The groups partition the bits. *)
Lemma reduceBits_groups m w b (n : nat) :
  0 < m -> (forall k, (k < n)%nat -> Z.of_nat k * m < w) ->
  reduceBits (group m w b <$> seqZ 0 (Z.of_nat n)) = reduceBits (b <$> seqZ 0 (Z.min (Z.of_nat n * m) w)) \/ w < 0.
Proof.
  intros Hm. induction n as [|n IH]; intros Hlt.
  { destruct (Z.lt_ge_cases w 0) as [|Hw]; [by right|left]. by rewrite Z.min_l by lia. }
  destruct IH as [IH|]; [intros; apply Hlt; lia| |by right]. left.
  specialize (Hlt n ltac:(lia)).
  rewrite seqZ_S, Nat2Z.inj_succ, fmap_app, reduceBits_app, IH by lia. rewrite Z.add_0_l. cbn [fmap list_fmap].
  change (reduceBits [group m w b (Z.of_nat n)]) with (fb (group m w b (Z.of_nat n)) eb). rewrite (br_unit _ _ _ Hbr).
  unfold group. rewrite <- reduceBits_app, <- fmap_app. do 2 f_equal.
  replace (Z.of_nat n * m) with (0 + Z.min (Z.of_nat n * m) w) at 2 by lia.
  rewrite <- seqZ_app by (unfold groupSize; lia). f_equal. unfold groupSize. lia.
Qed.

Lemma numGroups m w : 1 <= m -> 0 < w -> let n := (w + m - 1) / m in
  0 < n <= w /\ (2 <= m -> 1 < n -> n < w) /\ (n - 1) * m < w /\ w <= n * m.
Proof.
  intros Hm Hw n. assert (n * m <= w + m - 1 < (n + 1) * m).
  { unfold n. pose proof (Z.div_mod (w + m - 1) m ltac:(lia)). pose proof (Z.mod_pos_bound (w + m - 1) m ltac:(lia)). nia. }
  nia.
Qed.

Lemma reduceLut_eq m w :
  1 <= m <= 6 -> 0 < w < 2 ^ 30 -> let n := (w + m - 1) / m in
  exists es, reduceLut table m w n = Ok (mkLut es) /\ Forall (entry_fits 1) es /\ length es = Z.to_nat n /\
    forall ρ, entry_val ρ <$> es = group m w (fun i => ρ (0%nat, i)) <$> seqZ 0 n.
Proof.
  intros Hm Hw n. destruct (numGroups m w) as (Hn & _ & Hn1 & _); [lia|lia|]. fold n in Hn, Hn1. unfold reduceLut.
  destruct (mapM_exists (fun k => lutEntry ← at_ (_lutEntries (AllocateLut (Z.to_nat n))) (Z.to_nat k);
      ReduceEntry table m w lutEntry k)
    (fun k e => entry_fits 1 e /\ forall ρ, entry_val ρ e = group m w (fun i => ρ (0%nat, i)) k) (seqZ 0 n)) as (es & -> & Hes).
  { intros k Hk%elem_of_seqZ. cbn [_lutEntries AllocateLut].
    rewrite (at_Some _ _ LutEntry_zero) by (apply lookup_replicate_2; lia). cbn [mbind result_bind].
    apply ReduceEntry_eq; (done || nia). }
  cbn [mbind result_bind]. exists es. split; [done|]. pose proof (Forall2_length _ _ _ Hes) as Hlen.
  rewrite length_seqZ in Hlen. split_and!; [|lia|].
  - by apply (Forall2_Forall_r _ _ _ _ Hes), Forall_forall; intros k _ e [].
  - intros ρ. clear Hlen. induction Hes as [|k e ks es [_ He] _ IH]; [done|]. cbn. by rewrite He, IH.
Qed.

Lemma reduce_step P σ src dst m w es :
  let n := (w + m - 1) / m in
  2 <= m <= 6 -> 0 < w < 2 ^ 30 -> Forall (entry_fits 1) es -> length es = Z.to_nat n ->
  (forall ρ, entry_val ρ <$> es = group m w (fun i => ρ (0%nat, i)) <$> seqZ 0 n) ->
  has_width P (_registerIndex src) w -> has_width P (_registerIndex dst) n ->
  exists v, step P σ (mkOperation (LutOp (mkLut es)) 0 ∅ [SrcRegister src] [DstRegister dst])
    = Some (<[_registerIndex dst := v]> σ) /\ 0 <= v < 2 ^ n /\
    reduceBits (Z_to_bits (Z.to_nat n) v) = reduceBits (Z_to_bits (Z.to_nat w) (σ (_registerIndex src))).
Proof.
  intros n Hm Hw Hfit Hlen Hval Hsrc Hdst. destruct (numGroups m w) as (Hn & _ & Hn1 & Hn2); [lia|lia|]. fold n in Hn, Hn1, Hn2.
  set (op := mkOperation _ _ _ _ _).
  assert (Hsi : srcInt P σ op 0 = contents σ w (_registerIndex src)).
  { unfold srcInt. rewrite signExtends_mask0 by done. cbn. by apply operandInt_register. }
  assert (Hwf : lut_wf P op es).
  { constructor; try done.
    - constructor; [|constructor]. destruct Hsrc as (d & Hd & <-). by exists d.
    - unfold dstWidth. cbn. unfold at_. cbn. rewrite (registerWidth_eq _ _ _ Hdst). f_equal. lia.
    - lia. }
  unfold step. rewrite (opValue_lut _ _ _ _ Hwf). cbn [_dst op mbind option_bind].
  eexists; split; [reflexivity|]. unfold lut_val. rewrite Hval. set (bits := _ <$> seqZ 0 n).
  assert (Hbl : length bits = Z.to_nat n) by (unfold bits; by rewrite length_fmap, length_seqZ).
  split; [pose proof (bits_to_Z_bound bits) as Hb; by rewrite Hbl, Z2Nat.id in Hb by lia|].
  rewrite <- Hbl at 1. rewrite Z_to_bits_to_Z. unfold bits. rewrite <- (Z2Nat.id n) at 1 by lia.
  destruct (reduceBits_groups m w (fun i => bit_of (srcInt P σ op) (0%nat, i)) (Z.to_nat n)) as [->|]; [lia| | |lia].
  { intros k Hk. nia. }
  f_equal. rewrite Z2Nat.id, Z.min_r by lia. unfold Z_to_bits. rewrite seqZ_0, <- list_fmap_compose.
  apply list_fmap_ext. intros i x Hx%list_elem_of_lookup_2%elem_of_seq. cbn. unfold bit_of. cbn [fst snd].
  rewrite Hsi. unfold contents. by rewrite Z.mod_pow2_bits_low by lia.
Qed.

End Reduction.
End ReduceLut.
