(* ===== verification/ReduceCorrect.v ===== *)
(** * Reductions are correct

    Both implementations of [ReduceBinaryOp] leave in the destination whether
    all bits (for [And]) or any bit (for [Or]) of the source is set. *)

From stdpp Require Import functions.
From S2P Require Import Prelude MachineInt Literals Ir LutOpt LutFacts Semantics LutLowerFacts Run Reduce ReduceTree.
Import MachineInt Literals Ir LutOpt LutFacts LutCofactor Semantics LutPasses LutLowerOps Run Reduce ReduceTree ReduceLut.

Module ReduceCorrect.

(** What both implementations promise: [bit] of the source in [dst], and no
    other register of the old program touched *)
Definition reduces (program : Program) (dst : nat) (bit : (nat -> Z) -> bool) (r : Program * list Operation) : Prop :=
  let '(program', ops) := r in
  extends program program' /\
  forall P σ, extends program' P -> exists σ', run P ops σ = Some σ' /\ σ' dst = Z.b2z (bit σ) /\
    forall i, (i < numRegisters program)%nat -> i <> dst -> σ' i = σ i.

(** ** By look-up tables *)

Section Lut.
Context (fb : bool -> bool -> bool) (eb : bool) (table : Z) (Hbr : bit_reduction fb eb table).
Context (m : Z) (Hm : 2 <= m <= 6) (dst : AccessedRegister).

Lemma reduceBits_bit v : 0 <= v < 2 ^ 1 -> v = Z.b2z (reduceBits fb eb (Z_to_bits 1 v)).
Proof.
  change (2 ^ 1) with 2. intros Hv. change (Z_to_bits 1 v) with [Z.testbit v 0]. cbn [reduceBits foldr].
  unfold reduceBits. cbn [foldr]. rewrite (br_unit _ _ _ Hbr).
  by assert (v = 0 \/ v = 1) as [-> | ->] by lia.
Qed.

Lemma ReduceBinaryOpLut_eq fuel program src w :
  (Z.to_nat w <= fuel)%nat -> 0 < w < 2 ^ 30 ->
  has_width program (_registerIndex src) w -> has_width program (_registerIndex dst) 1 ->
  exists r, ReduceBinaryOpLut fuel m program src table (DstRegister dst) = Ok r /\
    reduces program (_registerIndex dst)
      (fun σ => reduceBits fb eb (Z_to_bits (Z.to_nat w) (σ (_registerIndex src)))) r.
Proof.
  revert program src w. induction fuel as [|fuel IH]; intros program src w Hfuel Hw Hsrc Hdst; [lia|].
  destruct (numGroups m w) as (Hn & Hdec & _); [lia|lia|]. set (n := (w + m - 1) / m) in *.
  destruct (id Hsrc) as (sd & Hsd & Hsw). cbn [ReduceBinaryOpLut]. rewrite (at_Some _ _ _ Hsd). cbn [mbind result_bind].
  rewrite Hsw, (proj2 (Z.eqb_neq m 0)) by lia. unfold u64_add, u64_sub.
  rewrite (u64_small (w + m)), (u64_small (w + m - 1)) by (unfold is_u64; lia). fold n.
  rewrite assert_true by (apply Z.ltb_lt; lia). cbn [mbind result_bind].
  destruct (reduceLut_eq fb eb table Hbr m w ltac:(lia) Hw) as (es & Hlut & Hfit & Hlen & Hval). fold n in Hlut, Hlen, Hval.
  destruct (Z.ltb_spec 1 n) as [H1|H1].
  - destruct (AllocateRegister_eq program n Local (_name sd +:+ "_reduce")) as (p1 & -> & He & Hr & Hnum & _);
      [by apply app_suffix_nonempty|]. cbn [mbind result_bind]. rewrite Hlut. cbn [mbind result_bind].
    rewrite (proj2 (Z.eqb_neq n 1)) by lia.
    destruct (IH p1 (mkAccessedRegister (numRegisters program)) n) as ((p2 & ops) & Hrec & He2 & Hrun);
      [lia|lia|done|by eapply has_width_extends|]. rewrite Hrec. cbn [mbind result_bind].
    eexists; split; [reflexivity|]. split; [by transitivity p1|]. intros P σ HP.
    destruct (reduce_step fb eb table Hbr P σ src (mkAccessedRegister (numRegisters program)) m w es) as (v & Hst & Hv & Hbits);
      try done; [eapply has_width_extends; [|done]; transitivity p1; [done|by transitivity p2]|eapply has_width_extends; [|done]; by transitivity p2|].
    cbn [run]. rewrite Hst. cbn [mbind option_bind]. destruct (Hrun P (<[numRegisters program := v]> σ) HP) as (σ' & Hσ' & Hb & Hfr).
    exists σ'. split; [done|]. fold n in Hbits. split.
    + rewrite Hb. cbn [_registerIndex]. by rewrite fn_lookup_insert, Hbits.
    + intros i Hi Hne. rewrite Hfr by (done || lia). by rewrite fn_lookup_insert_ne by lia.
  - assert (Hn1 : n = 1) by lia. cbn [mbind result_bind]. rewrite Hlut. cbn [mbind result_bind]. rewrite (proj2 (Z.eqb_eq n 1)) by done.
    eexists; split; [reflexivity|]. split; [reflexivity|]. intros P σ HP.
    destruct (reduce_step fb eb table Hbr P σ src dst m w es) as (v & Hst & Hv & Hbits); try done.
    { by eapply has_width_extends. }
    { fold n. rewrite Hn1. by eapply has_width_extends. }
    cbn [run]. rewrite Hst. cbn [mbind option_bind]. eexists; split; [reflexivity|]. split.
    + rewrite fn_lookup_insert, <- Hbits. fold n. fold n in Hv. replace (Z.to_nat n) with 1%nat by lia.
      apply reduceBits_bit. by rewrite Hn1 in Hv.
    + intros i Hi Hne. by rewrite fn_lookup_insert_ne by done.
Qed.
End Lut.

(** ** By two-input operations *)

Lemma extractBit_loop program src w n :
  has_width program (_registerIndex src) w -> 0 <= n <= w -> w < 2 ^ 30 ->
  exists p regs ops, foldM (extractBit src) (seqZ 0 n) (program, [], []) = Ok (p, regs, ops) /\
    extends program p /\ Forall (fun r => has_width p (_registerIndex r) 1) regs /\ length regs = Z.to_nat n /\
    forall P σ, extends p P -> exists σ', run P ops σ = Some σ' /\
      (forall i, (i < numRegisters program)%nat -> σ' i = σ i) /\
      values 1 σ' regs = Z.b2z <$> Z_to_bits (Z.to_nat n) (σ (_registerIndex src)).
Proof.
  intros Hsrc Hn Hw.
  destruct (foldM_seqZ_inv (extractBit src) (fun k st => let '(p, regs, ops) := st in
    extends program p /\ Forall (fun r => has_width p (_registerIndex r) 1) regs /\ length regs = Z.to_nat k /\
    forall P σ, extends p P -> exists σ', run P ops σ = Some σ' /\
      (forall i, (i < numRegisters program)%nat -> σ' i = σ i) /\
      values 1 σ' regs = Z.b2z <$> Z_to_bits (Z.to_nat k) (σ (_registerIndex src))) n (program, [], []))
    as ([[p regs] ops] & Heq & HI); [lia| | |by exists p, regs, ops].
  { split; [reflexivity|]. split; [constructor|]. split; [done|]. intros P σ _. by exists σ. }
  intros k [[p regs] ops] Hk (He & Hregs & Hlen & Hrun). unfold extractBit.
  destruct (AllocateRegister_eq p 1 Local "ReductionBit") as (p1 & -> & He1 & Hr & Hnum & _); [done|]. cbn [mbind result_bind].
  eexists; split; [reflexivity|]. split; [by transitivity p|]. split.
  { apply Forall_app. split; [|by repeat constructor]. eapply Forall_impl; [exact Hregs|]. intros r. by apply has_width_extends. }
  split; [rewrite length_app; cbn; lia|]. intros P σ HP.
  destruct (Hrun P σ) as (σ1 & Hσ1 & Hfr & Hv); [by transitivity p1|].
  rewrite run_app, Hσ1. cbn [mbind option_bind run]. unfold PushOperand, emptyOperation.
  cbn [_opcode _signExtendSourceMask _locations _src _dst app].
  assert (Hsw : has_width P (_registerIndex src) w).
  { eapply has_width_extends; [|done]. by transitivity p; [|transitivity p1]. }
  erewrite (step_value _ _ _ (mkAccessedRegister (numRegisters p)) 1); [|done|by eapply has_width_extends|].
  2: { unfold opInt, srcInt, signExtends. cbn. rewrite (operandInt_register _ _ _ _ Hsw). reflexivity. }
  cbn [mbind option_bind]. eexists; split; [reflexivity|]. pose proof (extends_numRegisters _ _ He). split.
  { intros i Hi. cbn [_registerIndex]. rewrite fn_lookup_insert_ne by lia. by apply Hfr. }
  unfold values. rewrite fmap_app. cbn [fmap list_fmap].
  rewrite (contents_small _ _ _ _ (fn_lookup_insert _ _ _)) by (apply Z.mod_pos_bound, Z.pow_pos_nonneg; lia).
  replace (Z.to_nat (k + 1)) with (S (Z.to_nat k)) by lia. unfold Z_to_bits. rewrite seq_S, !fmap_app. f_equal.
  - fold (Z_to_bits (Z.to_nat k) (σ (_registerIndex src))). rewrite <- Hv. apply list_fmap_ext. intros i r Hri.
    apply contents_insert_ne. pose proof (has_width_lt _ _ _ (Forall_lookup_1 _ _ _ _ Hregs Hri)). cbn. lia.
  - cbn [fmap list_fmap plus]. f_equal. unfold contents. rewrite Hfr by (by eapply has_width_lt). cbn.
    change (2 ^ 1) with 2. change (lit_int _ _) with k. rewrite <- Z.bit0_mod, Z.shiftr_spec, Z.add_0_l, Z.mod_pow2_bits_low by lia.
    by rewrite Z2Nat.id by lia.
Qed.

Lemma ReduceBinaryOpNoLut_eq t f e fb eb program src dst w :
  reductionOf t f e -> (forall a b, f (Z.b2z a) (Z.b2z b) = Z.b2z (fb a b)) -> (forall a, fb a eb = a) ->
  0 < w < 2 ^ 30 -> has_width program (_registerIndex src) w -> has_width program (_registerIndex dst) 1 ->
  exists r, ReduceBinaryOpNoLut program src t (DstRegister dst) = Ok r /\
    reduces program (_registerIndex dst)
      (fun σ => reduceBits fb eb (Z_to_bits (Z.to_nat w) (σ (_registerIndex src)))) r.
Proof.
  intros Hf Hfb Heb Hw Hsrc Hdst. unfold ReduceBinaryOpNoLut. rewrite (registerWidth_eq _ _ _ Hsrc). cbn [mbind result_bind].
  destruct (extractBit_loop program src w w) as (p1 & regs & ops & -> & He1 & Hregs & Hlen & Hrun1); [done|lia|lia|].
  cbn [mbind result_bind].
  destruct (reduceTree_eq t f e 1 Hf ltac:(lia) (mergeBits t) (mergeBits_merges t f e Hf) (length regs) p1 regs)
    as (p2 & regs2 & ops2 & -> & (He2 & Hregs2 & Hrun2) & Hl2 & Hne); [lia|done|]. cbn [mbind result_bind].
  destruct regs2 as [|r [|? ?]]; [|clear Hne|cbn in Hl2; lia].
  { exfalso. destruct (proj1 Hne); [|done]. intros ->. cbn in Hlen. lia. }
  cbn [at_ lookup list_lookup]. unfold at_. cbn [lookup list_lookup mbind result_bind].
  eexists; split; [reflexivity|]. split; [by transitivity p1|]. intros P σ HP.
  destruct (Hrun1 P σ) as (σ1 & Hσ1 & Hfr1 & Hv1); [by transitivity p2|]. destruct (Hrun2 P σ1) as (σ2 & Hσ2 & Hfr2 & Hv2); [done|].
  rewrite run_app, Hσ1. cbn [mbind option_bind]. rewrite run_app, Hσ2. cbn [mbind option_bind run].
  inversion_clear Hregs2 as [|?? Hr _]. unfold PushOperand, emptyOperation.
  cbn [_opcode _signExtendSourceMask _locations _src _dst app].
  erewrite step_value; [|done|eapply has_width_extends; [|done]; transitivity p1; [done|by transitivity p2]|apply opInt_mov; by eapply has_width_extends].
  cbn [mbind option_bind]. eexists; split; [reflexivity|]. pose proof (extends_numRegisters _ _ He1). split.
  - rewrite fn_lookup_insert, Z.mod_small by (by apply contents_range).
    assert (Hu : contents σ2 1 (_registerIndex r) = reduceAll f e (values 1 σ2 [r])).
    { cbn. destruct Hf as [[_ Hu _] _]. by rewrite Hu. }
    rewrite Hu, Hv2, Hv1.
    assert (Hall : forall l, l <> [] -> reduceAll f e (Z.b2z <$> l) = Z.b2z (reduceBits fb eb l)).
    { destruct Hf as [[_ Hu' _] _]. induction l as [|a [|b l] IH]; intros Hl; [done|cbn; by rewrite Hu', Heb|].
      specialize (IH ltac:(done)). cbn [fmap list_fmap reduceAll reduceBits foldr] in *. by rewrite IH, Hfb. }
    apply Hall. intros H0%(f_equal length). rewrite length_Z_to_bits in H0. cbn in H0. lia.
  - intros i Hi Hne. rewrite fn_lookup_insert_ne by done. rewrite Hfr2 by lia. by apply Hfr1.
Qed.

(** ** [ReduceBinaryOp] *)

Lemma reduceBits_and l : reduceBits andb true l = (bits_to_Z l =? 2 ^ Z.of_nat (length l) - 1).
Proof.
  induction l as [|b l IH]; [done|]. pose proof (bits_to_Z_bound l).
  cbn [reduceBits foldr bits_to_Z length]. fold (reduceBits andb true l). rewrite IH, Nat2Z.inj_succ, Z.pow_succ_r by lia.
  apply eq_true_iff_eq. rewrite andb_true_iff, !Z.eqb_eq. destruct b; cbn [Z.b2z]; lia.
Qed.

Lemma reduceBits_or l : reduceBits orb false l = negb (bits_to_Z l =? 0).
Proof.
  induction l as [|b l IH]; [done|]. pose proof (bits_to_Z_bound l).
  cbn [reduceBits foldr bits_to_Z]. fold (reduceBits orb false l). rewrite IH. apply eq_true_iff_eq.
  rewrite orb_true_iff, !negb_true_iff, !Z.eqb_neq. destruct b; cbn [Z.b2z]; lia.
Qed.

Lemma run_updateOpLocations P locs ops σ : run P (updateOpLocations locs <$> ops) σ = run P ops σ.
Proof.
  revert σ; induction ops as [|op ops IH]; intros σ; [done|]. cbn [fmap list_fmap run].
  rewrite (step_ext P σ op (updateOpLocations locs op)) by (unfold updateOpLocations; by destruct (decide _)).
  destruct (step P σ op); cbn; auto.
Qed.

(** The bit that a reduction of [w] bits leaves *)
Definition reductionBit (t : ParseTreeBinaryOpType) (w v : Z) : bool :=
  match t with
  | ParseTreeBinaryOpTypeAnd => v mod 2 ^ w =? 2 ^ w - 1
  | _ => negb (v mod 2 ^ w =? 0)
  end.

Lemma reduces_ext program dst bit bit' r :
  (forall σ, bit σ = bit' σ) -> reduces program dst bit r -> reduces program dst bit' r.
Proof.
  destruct r as [p ops]. intros H [He Hr]. split; [done|]. intros P σ HP. destruct (Hr P σ HP) as (σ' & ? & ? & ?).
  exists σ'. by rewrite <- H.
Qed.

Lemma ReduceBinaryOp_sound fuel supportsLuts m program src t dst srcLocationOp w :
  t = ParseTreeBinaryOpTypeAnd \/ t = ParseTreeBinaryOpTypeOr -> _locations srcLocationOp <> ∅ -> 2 <= m <= 6 ->
  0 < w < 2 ^ 30 -> (Z.to_nat w <= fuel)%nat ->
  has_width program (_registerIndex src) w -> has_width program (_registerIndex dst) 1 ->
  exists program' ops,
    ReduceBinaryOp fuel supportsLuts m program src t (DstRegister dst) srcLocationOp = Ok (program', ops) /\
    Forall (fun op => _locations op <> ∅) ops /\
    reduces program (_registerIndex dst) (fun σ => reductionBit t w (σ (_registerIndex src))) (program', ops).
Proof.
  intros Ht Hloc Hm Hw Hfuel Hsrc Hdst. unfold ReduceBinaryOp.
  rewrite assert_true by (by rewrite bool_decide_eq_false_2). cbn [mbind result_bind].
  assert (Hres : exists r, (if supportsLuts then lut ← reduceTable t; ReduceBinaryOpLut fuel m program src lut (DstRegister dst)
      else ReduceBinaryOpNoLut program src t (DstRegister dst)) = Ok r /\
    reduces program (_registerIndex dst) (fun σ => reductionBit t w (σ (_registerIndex src))) r).
  { assert (Hz : forall z, z mod 2 ^ w = bits_to_Z (Z_to_bits (Z.to_nat w) z)) by (intros; rewrite bits_to_Z_mod, Z2Nat.id by lia; done).
    assert (Hl : forall z, 2 ^ w = 2 ^ Z.of_nat (length (Z_to_bits (Z.to_nat w) z))) by (intros; by rewrite length_Z_to_bits, Z2Nat.id by lia).
    destruct Ht as [-> | ->], supportsLuts; cbn [reduceTable mbind result_bind reductionBit].
    - destruct (ReduceBinaryOpLut_eq _ _ _ bit_reduction_and m Hm dst fuel program src w) as (r & -> & Hr); try done.
      exists r. split; [done|]. eapply reduces_ext; [|exact Hr]. intros σ. cbn beta. by rewrite reduceBits_and, <- Hz, <- Hl.
    - destruct (ReduceBinaryOpNoLut_eq _ _ _ andb true program src dst w reductionOf_And) as (r & -> & Hr); try done; try by repeat intros [].
      exists r. split; [done|]. eapply reduces_ext; [|exact Hr]. intros σ. cbn beta. by rewrite reduceBits_and, <- Hz, <- Hl.
    - destruct (ReduceBinaryOpLut_eq _ _ _ bit_reduction_or m Hm dst fuel program src w) as (r & -> & Hr); try done.
      exists r. split; [done|]. eapply reduces_ext; [|exact Hr]. intros σ. cbn beta. by rewrite reduceBits_or, <- Hz.
    - destruct (ReduceBinaryOpNoLut_eq _ _ _ orb false program src dst w reductionOf_Or) as (r & -> & Hr); try done; try by repeat intros [].
      exists r. split; [done|]. eapply reduces_ext; [|exact Hr]. intros σ. cbn beta. by rewrite reduceBits_or, <- Hz. }
  destruct Hres as ((p & ops) & -> & He & Hrun). cbn [mbind result_bind]. eexists _, _; split; [reflexivity|]. split.
  - apply Forall_fmap, Forall_true. intros op. cbn. unfold updateOpLocations. by destruct (decide _).
  - split; [done|]. intros P σ HP. rewrite run_updateOpLocations. by apply Hrun.
Qed.

(** C25: on a device with or without look-up tables, [ReduceBinaryOp] returns
    and its operations, run in order, leave in the destination whether all
    bits ([And]) or any bit ([Or]) of the source register is set; registers of
    the old program other than the destination keep their contents, and every
    operation has a location. *)
Theorem ReduceBinaryOp_correct fuel supportsLuts m program src t dst srcLocationOp w :
  t = ParseTreeBinaryOpTypeAnd \/ t = ParseTreeBinaryOpTypeOr -> _locations srcLocationOp <> ∅ -> 2 <= m <= 6 ->
  0 < w < 2 ^ 30 -> (Z.to_nat w <= fuel)%nat ->
  has_width program (_registerIndex src) w -> has_width program (_registerIndex dst) 1 ->
  exists program' ops,
    ReduceBinaryOp fuel supportsLuts m program src t (DstRegister dst) srcLocationOp = Ok (program', ops) /\
    Forall (fun op => _locations op <> ∅) ops /\
    reduces program (_registerIndex dst) (fun σ => reductionBit t w (σ (_registerIndex src))) (program', ops).
Proof. apply ReduceBinaryOp_sound. Qed.

(** The operation whose location the tree takes *)
Definition sample_located : Operation := mkOperation Clear 0 {[(0, 7, 0, None)%nat]} [] [sample_dst 3].

(** The eight bits of [w] reduced into [s]: two four-input tables, then one of two inputs *)
Lemma ReduceBinaryOp_correct_witness :
  _locations sample_located <> ∅ /\ has_width sample_program 4 8 /\ has_width sample_program 3 1 /\
  exists program' ops,
    ReduceBinaryOp 8 true 4 sample_program (mkAccessedRegister 4) ParseTreeBinaryOpTypeAnd
      (DstRegister (mkAccessedRegister 3)) sample_located = Ok (program', ops) /\
    Forall (fun op => _locations op <> ∅) ops /\
    reduces sample_program 3 (fun σ => reductionBit ParseTreeBinaryOpTypeAnd 8 (σ 4%nat)) (program', ops).
Proof.
  assert (Hl : _locations sample_located <> ∅) by (cbn; set_solver).
  assert (H8 : has_width sample_program 4 8) by (eexists; split; reflexivity).
  assert (H1 : has_width sample_program 3 1) by (eexists; split; reflexivity).
  split; [exact Hl|]. split; [exact H8|]. split; [exact H1|].
  apply (ReduceBinaryOp_correct 8 true 4 sample_program (mkAccessedRegister 4) ParseTreeBinaryOpTypeAnd
    (mkAccessedRegister 3) sample_located 8); [by left|exact Hl|lia|lia|lia|exact H8|exact H1].
Defined.

(** ** Vectors *)

(** [ReduceVecBinaryOp] returns and its operations leave in the destination
    the conjunction (disjunction) of the source registers, or the truncated
    default value when there are none; other registers of the old program keep
    their contents. *)
Theorem ReduceVecBinaryOp_correct t f e program srcRegs dstReg location name defaultValue w :
  (t, f, e) = (ParseTreeBinaryOpTypeAnd, Z.land, -1) \/ (t, f, e) = (ParseTreeBinaryOpTypeOr, Z.lor, 0) -> 0 <= w ->
  has_width program (_registerIndex dstReg) w -> Forall (fun r => has_width program (_registerIndex r) w) srcRegs ->
  exists program' ops, ReduceVecBinaryOp program srcRegs t dstReg location name defaultValue = Ok (program', ops) /\
    extends program program' /\
    forall σ, exists σ', run program' ops σ = Some σ' /\
      σ' (_registerIndex dstReg) = (if srcRegs then defaultValue mod 2 ^ w
                                    else foldr f e ((fun r => contents σ w (_registerIndex r)) <$> srcRegs)) /\
      forall i, (i < numRegisters program)%nat -> i <> _registerIndex dstReg -> σ' i = σ i.
Proof.
  intros Ht. apply (ReduceVecBinaryOp_sound t f e).
  destruct Ht as [[= -> -> ->]|[= -> -> ->]]; [apply reductionOf_And|apply reductionOf_Or].
Qed.

(** [a] and [b] into [a] *)
Lemma ReduceVecBinaryOp_correct_witness :
  has_width sample_program 0 4 /\ has_width sample_program 1 4 /\
  exists program' ops,
    ReduceVecBinaryOp sample_program [mkAccessedRegister 0; mkAccessedRegister 1] ParseTreeBinaryOpTypeOr
      (mkAccessedRegister 0) (0, 7, 0, None)%nat "r" 0 = Ok (program', ops) /\
    extends sample_program program' /\
    forall σ, exists σ', run program' ops σ = Some σ' /\
      σ' 0%nat = Z.lor (contents σ 4 0) (Z.lor (contents σ 4 1) 0) /\
      forall i, (i < 5)%nat -> i <> 0%nat -> σ' i = σ i.
Proof.
  assert (H0 : has_width sample_program 0 4) by (eexists; split; reflexivity).
  assert (H1 : has_width sample_program 1 4) by (eexists; split; reflexivity).
  split; [exact H0|]. split; [exact H1|].
  apply (ReduceVecBinaryOp_correct ParseTreeBinaryOpTypeOr Z.lor 0 sample_program
    [mkAccessedRegister 0; mkAccessedRegister 1] (mkAccessedRegister 0) (0, 7, 0, None)%nat "r" 0 4);
    [by right|lia|exact H0|by repeat constructor].
Defined.

(** ** A table of one input *)

(** C30: with [_smallLutSize = 1] a pass does not shrink the register, so the
    loop of [ReduceBinaryOpLut] does not end for a source of two bits or more:
    whatever the fuel, it is used up. *)
Theorem ReduceBinaryOpLut_one_input fuel program src dst t table w :
  reduceTable t = Ok table -> has_width program (_registerIndex src) w -> 1 < w < 2 ^ 30 ->
  ReduceBinaryOpLut fuel 1 program src table dst = Err OutOfFuel.
Proof.
  intros Ht Hsrc Hw. assert (Hbr : exists fb eb, bit_reduction fb eb table).
  { destruct t; cbn in Ht; try done; injection Ht as <-; eexists _, _; [apply bit_reduction_and|apply bit_reduction_or]. }
  destruct Hbr as (fb & eb & Hbr).
  revert program src Hsrc. induction fuel as [|fuel IH]; intros program src Hsrc; [done|].
  destruct (reduceLut_eq fb eb table Hbr 1 w) as (es & Hlut & _); [lia|lia|].
  replace ((w + 1 - 1) / 1) with w in Hlut by (rewrite Z.div_1_r; lia).
  destruct (id Hsrc) as (sd & Hsd & Hsw). cbn [ReduceBinaryOpLut]. rewrite (at_Some _ _ _ Hsd). cbn [mbind result_bind Z.eqb].
  rewrite Hsw. unfold u64_add, u64_sub. rewrite (u64_small (w + 1)), (u64_small (w + 1 - 1)), Z.div_1_r by (unfold is_u64; lia).
  replace (w + 1 - 1) with w by lia. rewrite assert_true by (apply Z.ltb_lt; lia). cbn [mbind result_bind].
  rewrite (proj2 (Z.ltb_lt 1 w)) by lia.
  destruct (AllocateRegister_eq program w Local (_name sd +:+ "_reduce")) as (p1 & -> & He & Hr & _);
    [by apply app_suffix_nonempty|]. cbn [mbind result_bind]. rewrite Hlut. cbn [mbind result_bind].
  rewrite (proj2 (Z.eqb_neq w 1)) by lia. by rewrite IH.
Qed.

Lemma ReduceBinaryOpLut_one_input_witness :
  has_width sample_program 4 8 /\
  ReduceBinaryOpLut 1000 1 sample_program (mkAccessedRegister 4) 8 (DstRegister (mkAccessedRegister 3)) = Err OutOfFuel.
Proof.
  assert (H8 : has_width sample_program 4 8) by (eexists; split; reflexivity). split; [exact H8|].
  apply (ReduceBinaryOpLut_one_input 1000 sample_program (mkAccessedRegister 4) _ ParseTreeBinaryOpTypeAnd 8 8);
    [reflexivity|exact H8|lia].
Defined.

End ReduceCorrect.
