(* ===== verification/Algebraic.v ===== *)
(** * Algebraic identities and narrowing

    [optimize.cpp]: [BinaryOpAlgebraicIdentities], [SelectAlgebraicIdentities],
    [AlgebraicIdentities], [NarrowLiterals] and [GatherToMove].

    The passes over a function visit operations of every basic block.  Each body
    returns the new operation and whether it changed it. *)

From S2P Require Import Prelude MachineInt Literals Ir.
Import MachineInt Literals Ir.

Module Algebraic.

Record BasicBlock : Type := mkBasicBlock {
  _startConditionOperations : list Operation; _operations : list Operation; _stages : list (list Operation) }.
Record Function_ : Type := mkFunction { _basicBlocks : list BasicBlock }.

Definition with_operations (basicBlock : BasicBlock) (operations : list Operation) : BasicBlock :=
  mkBasicBlock (_startConditionOperations basicBlock) operations (_stages basicBlock).

(** A loop over a list; [didChangeIR] is the disjunction. *)
Definition visitAll {A} (visit : A -> result (bool * A)) (l : list A) : result (bool * list A) :=
  rs ← mapM_ visit l; Ok (existsb fst rs, snd <$> rs).

(** [for (Operation& op : basicBlock._operations)] *)
Definition visitOperations (visit : Operation -> result (bool * Operation)) (basicBlock : BasicBlock) : result (bool * BasicBlock) :=
  '(changed, operations) ← visitAll visit (_operations basicBlock);
  Ok (changed, with_operations basicBlock operations).

(** [ForEachOperationForward(basicBlock, callback)]: not only [_operations] *)
Definition ForEachOperationForward (visit : Operation -> result (bool * Operation)) (basicBlock : BasicBlock) : result (bool * BasicBlock) :=
  '(changed1, startConditionOperations) ← visitAll visit (_startConditionOperations basicBlock);
  '(changed2, operations) ← visitAll visit (_operations basicBlock);
  '(changed3, stages) ← visitAll (visitAll visit) (_stages basicBlock);
  Ok (changed1 || changed2 || changed3, mkBasicBlock startConditionOperations operations stages).

(** [for (BasicBlock& basicBlock : function._basicBlocks)] *)
Definition visitFunction (visit : BasicBlock -> result (bool * BasicBlock)) (function : Function_) : result (bool * Function_) :=
  '(changed, basicBlocks) ← visitAll visit (_basicBlocks function);
  Ok (changed, mkFunction basicBlocks).

(** ** The operations that replace another *)

Inductive Replacement : Type :=
| ReplaceMov (srcOperand : nat)      (** the destination becomes a copy of a source *)
| ReplaceInvert (srcOperand : nat)   (** ... its complement *)
| ReplaceZero.                       (** ... zero *)

Definition newOperation (op : Operation) (r : Replacement) : result Operation :=
  dst ← at_ (_dst op) 0;
  let newOp opcode := mkOperation opcode 0 (_locations op) [] [dst] in
  match r with
  | ReplaceMov i => PushOperandFrom (newOp Mov) op i
  | ReplaceInvert i => PushOperandFrom (newOp (UnaryOp ParseTreeUnaryOpTypeInvert)) op i
  | ReplaceZero => Ok (mkOperation Mov 0 (_locations op) [SourceOperand_size_t 0 64] [dst])
  end.

Definition applyReplacement (op : Operation) (r : option Replacement) : result (bool * Operation) :=
  match r with
  | Some r => newOp ← newOperation op r; Ok (true, newOp)
  | None => Ok (false, op)
  end.

(** [if (!result) ...] *)
Definition orElse (first : option Replacement) (second : result (option Replacement)) : result (option Replacement) :=
  match first with Some r => Ok (Some r) | None => second end.

(** ** [BinaryOpAlgebraicIdentities] *)

(** [srcIsZero], [srcIsOne] and [srcIsAllOnes] of a source *)
Definition literalFacts (srcOp : SourceOperand) (srcWidth : Z) : result (bool * bool * bool) :=
  match srcOp with
  | SrcLiteral literal =>
      let value := _value literal in
      if value =? 0 then Ok (true, false, false)
      else
        allOnes ← bit_set 0 srcWidth;
        Ok (false, value =? 1, value =? allOnes - 1)
  | _ => Ok (false, false, false)
  end.

(** [op(x, 0)] *)
Definition zeroRight (type : ParseTreeBinaryOpType) : option Replacement :=
  match type with
  | ParseTreeBinaryOpTypeOr | ParseTreeBinaryOpTypeXor | ParseTreeBinaryOpTypeAdd
  | ParseTreeBinaryOpTypeSub | ParseTreeBinaryOpTypeShl | ParseTreeBinaryOpTypeShr => Some (ReplaceMov 0)
  | ParseTreeBinaryOpTypeAnd | ParseTreeBinaryOpTypeLutMul => Some ReplaceZero
  | _ => None
  end.

(** [op(0, x)] *)
Definition zeroLeft (type : ParseTreeBinaryOpType) : option Replacement :=
  match type with
  | ParseTreeBinaryOpTypeOr | ParseTreeBinaryOpTypeXor | ParseTreeBinaryOpTypeAdd => Some (ReplaceMov 1)
  | ParseTreeBinaryOpTypeAnd | ParseTreeBinaryOpTypeShl | ParseTreeBinaryOpTypeShr
  | ParseTreeBinaryOpTypeLutMul => Some ReplaceZero
  | _ => None
  end.

Definition isLutMul (type : ParseTreeBinaryOpType) : bool := bool_decide (type = ParseTreeBinaryOpTypeLutMul).

(** Source [ones] has all bits set and covers source [other] or the destination. *)
Definition onesIdentity (type : ParseTreeBinaryOpType) (ones other : nat) : option Replacement :=
  match type with
  | ParseTreeBinaryOpTypeAnd => Some (ReplaceMov other)
  | ParseTreeBinaryOpTypeOr => Some (ReplaceMov ones)
  | ParseTreeBinaryOpTypeXor => Some (ReplaceInvert other)
  | _ => None
  end.

Definition onesCover (op : Operation) (widthOnes widthOther dstWidth : Z) (ones other : nat) : result bool :=
  sOnes ← ShouldSignExtend op ones;
  sOther ← ShouldSignExtend op other;
  Ok ((dstWidth <=? widthOnes) || sOnes || ((widthOther <=? widthOnes) && negb sOther)).

(** The final [switch]: shifts by at least the width *)
Definition wideShift (op : Operation) (type : ParseTreeBinaryOpType) (src1 : SourceOperand) (src0Width dstWidth : Z)
    : result (option Replacement) :=
  match type, src1 with
  | ParseTreeBinaryOpTypeShl, SrcLiteral l => Ok (if dstWidth <=? _value l then Some ReplaceZero else None)
  | ParseTreeBinaryOpTypeShr, SrcLiteral l =>
      s ← ShouldSignExtend op 0;
      Ok (if negb s && (src0Width <=? _value l) then Some ReplaceZero else None)
  | _, _ => Ok None
  end.

Definition assert_not (type : ParseTreeBinaryOpType) (excluded : ParseTreeBinaryOpType) : result unit :=
  assert_ (negb (bool_decide (type = excluded))).

Definition BinaryOpAlgebraicIdentities (program : Program) (op : Operation) : result (bool * Operation) :=
  match _opcode op with
  | BinaryOp type =>
      assert_ (length (_src op) =? 2)%nat;;
      assert_ (length (_dst op) =? 1)%nat;;
      assert_not type ParseTreeBinaryOpTypeMul;;
      assert_not type ParseTreeBinaryOpTypeDiv;;
      assert_not type ParseTreeBinaryOpTypeLogicalAnd;;
      assert_not type ParseTreeBinaryOpTypeLogicalOr;;
      assert_not type ParseTreeBinaryOpTypeLogicalXor;;
      src0 ← at_ (_src op) 0;
      src1 ← at_ (_src op) 1;
      width0 ← SourceOperand_Width program src0;
      width1 ← SourceOperand_Width program src1;
      w ← dstWidth program op;
      '(isZero0, isOne0, isAllOnes0) ← literalFacts src0 width0;
      '(isZero1, isOne1, isAllOnes1) ← literalFacts src1 width1;
      let first :=
        if (isZero1 : bool) then zeroRight type
        else if (isZero0 : bool) then zeroLeft type
        else if isOne1 && isLutMul type then Some (ReplaceMov 0)
        else if isOne0 && isLutMul type then Some (ReplaceMov 1)
        else None in
      second ← orElse first
        (if (isAllOnes1 : bool) then
           c ← onesCover op width1 width0 w 1 0;
           Ok (if (c : bool) then onesIdentity type 1 0 else None)
         else if (isAllOnes0 : bool) then
           c ← onesCover op width0 width1 w 0 1;
           Ok (if (c : bool) then onesIdentity type 0 1 else None)
         else Ok None);
      third ← orElse second (wideShift op type src1 width0 w);
      applyReplacement op third
  | _ => Err AssertionFailed
  end.

(** ** [SelectAlgebraicIdentities] *)

(** The index is known: the chosen source is moved. *)
Definition selectKnown (op : Operation) (l : Literal) : result Operation :=
  index ← MpToSizeT (_value l);
  let whichSrcOperand := Z.to_nat (u64_add index 1) in
  assert_ (whichSrcOperand <? length (_src op))%nat;;
  dst ← at_ (_dst op) 0;
  srcOp ← at_ (_src op) whichSrcOperand;
  Ok (mkOperation Mov (Z.land (Z.shiftr (_signExtendSourceMask op) (Z.of_nat whichSrcOperand)) 1)
        (_locations op) [srcOp] [dst]).

(** [allEqual], [choiceEqualSel] and [choiceEqualInvSel] *)
Definition literalChoiceStep (op : Operation) (firstValue selWidth w : Z) (st : bool * bool * bool) (i : nat)
    : result (bool * bool * bool) :=
  let '(allEqual, choiceEqualSel, choiceEqualInvSel) := st in
  l ← literalAt op i;
  s ← ShouldSignExtend op i;
  thisValue ← Resize l s w;
  let selLiteral := mkLiteral (Z.of_nat i - 1) selWidth in
  s0 ← ShouldSignExtend op 0;
  selValue ← Resize selLiteral s0 w;
  invSel ← ImplementUnaryOp selLiteral s0 ParseTreeUnaryOpTypeInvert w;
  Ok (allEqual && (thisValue =? firstValue), choiceEqualSel && (thisValue =? selValue),
      choiceEqualInvSel && (thisValue =? invSel)).

Definition selectLiterals (program : Program) (op : Operation) (src0 : SourceOperand) : result (option Replacement) :=
  w ← dstWidth program op;
  selWidth ← SourceOperand_Width program src0;
  l1 ← literalAt op 1;
  s1 ← ShouldSignExtend op 1;
  firstValue ← Resize l1 s1 w;
  '(allEqual, choiceEqualSel, choiceEqualInvSel) ←
    foldM (literalChoiceStep op firstValue selWidth w) (seq 1 (length (_src op) - 1)) (true, true, true);
  Ok (if allEqual : bool then Some (ReplaceMov 1)
      else if choiceEqualSel : bool then Some (ReplaceMov 0)
      else if choiceEqualInvSel : bool then Some (ReplaceInvert 0)
      else None).

(** The loop stops at the first choice that differs. *)
Fixpoint sameRegister (op : Operation) (shouldSignExtend : bool) (registerIndex : nat) (is_ : list nat) : result bool :=
  match is_ with
  | [] => Ok true
  | i :: is_ =>
      s ← ShouldSignExtend op i;
      srcOp ← at_ (_src op) i;
      r ← GetAccessedRegister srcOp;
      if negb (Bool.eqb s shouldSignExtend) || negb (_registerIndex r =? registerIndex)%nat then Ok false
      else sameRegister op shouldSignExtend registerIndex is_
  end.

Definition selectRegisters (program : Program) (op : Operation) : result (option Replacement) :=
  s ← ShouldSignExtend op 1;
  src1 ← at_ (_src op) 1;
  width ← SourceOperand_Width program src1;
  r ← GetAccessedRegister src1;
  allEqual ← sameRegister op s (_registerIndex r) (seq 2 (length (_src op) - 2));
  Ok (if allEqual : bool then Some (ReplaceMov 1) else None).

Definition SelectAlgebraicIdentities (program : Program) (op : Operation) : result (bool * Operation) :=
  match _opcode op with
  | Select =>
      assert_ (3 <=? length (_src op))%nat;;
      assert_ (length (_dst op) =? 1)%nat;;
      src0 ← at_ (_src op) 0;
      match src0 with
      | SrcLiteral l => newOp ← selectKnown op l; Ok (true, newOp)
      | _ =>
          let allLiterals := forallb isLiteral (tail (_src op)) in
          let allRegisters := forallb isRegister (tail (_src op)) in
          first ← (if allLiterals then selectLiterals program op src0 else Ok None);
          second ← orElse first (if allRegisters then selectRegisters program op else Ok None);
          applyReplacement op second
      end
  | _ => Err AssertionFailed
  end.

(** ** [AlgebraicIdentities] *)

Definition OperationIdentities (program : Program) (op : Operation) : result (bool * Operation) :=
  match _opcode op with
  | BinaryOp _ => BinaryOpAlgebraicIdentities program op
  | Select => SelectAlgebraicIdentities program op
  | _ => Ok (false, op)
  end.

Definition AlgebraicIdentities (program : Program) (function : Function_) : result (bool * Function_) :=
  visitFunction (visitOperations (OperationIdentities program)) function.

(** ** [NarrowLiterals] *)

(** [while (literal._width >= 2)]: the value is not changed by the loop. *)
Fixpoint narrowSigned (fuel : nat) (value width : Z) : result Z :=
  match fuel with
  | O => Err OutOfFuel
  | S fuel =>
      if 2 <=? width then
        b1 ← bit_test value (width - 1);
        b2 ← bit_test value (width - 2);
        if Bool.eqb b1 b2 then narrowSigned fuel value (width - 1) else Ok width
      else Ok width
  end.

Definition narrowUnsigned (value width : Z) : result Z :=
  if value =? 0 then Ok 1
  else highestBitSet ← msb value; Ok (Z.min width (highestBitSet + 1)).

Definition NarrowLiteral (signExtend : bool) (literal : Literal) : result (bool * Literal) :=
  let originalWidth := _width literal in
  width ← (if signExtend then narrowSigned (Z.to_nat originalWidth + 1) (_value literal) originalWidth
           else narrowUnsigned (_value literal) originalWidth);
  assert_ (width <=? originalWidth);;
  Ok (if originalWidth =? width then (false, literal)
      else (true, mkLiteral (Z.land (_value literal) (Z.shiftl 1 width - 1)) width)).

Definition NarrowOperand (op : Operation) (srcOpIndex : nat) : result (bool * SourceOperand) :=
  srcOp ← at_ (_src op) srcOpIndex;
  match srcOp with
  | SrcLiteral literal =>
      s ← ShouldSignExtend op srcOpIndex;
      '(changed, literal) ← NarrowLiteral s literal;
      Ok (changed, SrcLiteral literal)
  | _ => Ok (false, srcOp)
  end.

Definition NarrowOperation (op : Operation) : result (bool * Operation) :=
  rs ← mapM_ (NarrowOperand op) (seq 0 (length (_src op)));
  Ok (existsb fst rs, mkOperation (_opcode op) (_signExtendSourceMask op) (_locations op) rs.*2 (_dst op)).

Definition NarrowLiterals (function : Function_) : result (bool * Function_) :=
  visitFunction (ForEachOperationForward NarrowOperation) function.

(** ** [GatherToMove] *)

Definition GatherOperationToMove (program : Program) (op : Operation) : result (bool * Operation) :=
  match _opcode op with
  | Gather entries =>
      if (length (_src op) =? 1)%nat then
        assert_ (length (_dst op) =? 1)%nat;;
        assert_ (length entries =? 1)%nat;;
        ge ← at_ entries 0;
        if (_sourceOffset ge =? 0) && (_destOffset ge =? 0) then
          src0 ← at_ (_src op) 0;
          srcWidth ← SourceOperand_Width program src0;
          w ← dstWidth program op;
          Ok (if (_numBits ge =? srcWidth) && (_numBits ge =? w)
              then (true, mkOperation Mov (_signExtendSourceMask op) (_locations op) (_src op) (_dst op))
              else (false, op))
        else Ok (false, op)
      else Ok (false, op)
  | _ => Ok (false, op)
  end.

Definition GatherToMove (program : Program) (function : Function_) : result (bool * Function_) :=
  visitFunction (ForEachOperationForward (GatherOperationToMove program)) function.

End Algebraic.
