(* ===== verification/AlgebraicFacts.v ===== *)
(** * Algebraic identities are correct: binary operations *)

From S2P Require Import Prelude MachineInt Literals Ir LutFacts Semantics Algebraic.
Import MachineInt Literals Ir LutFacts Semantics LutConst Algebraic.

Module AlgebraicFacts.

(** ** The replacing operation *)

Section Replacement.
Context (program : Program).

Definition replacement_value (σ : nat -> Z) (op : Operation) (r : Replacement) : Z :=
  match r with
  | ReplaceMov i => srcInt program σ op i
  | ReplaceInvert i => Z.lnot (srcInt program σ op i)
  | ReplaceZero => 0
  end.

Definition replacement_in (op : Operation) (r : Replacement) : Prop :=
  match r with ReplaceMov i | ReplaceInvert i => (i < length (_src op))%nat | ReplaceZero => True end.

(** The integer that the replacement stands for *)
Definition replaces (op op' : Operation) (v : (nat -> Z) -> Z) : Prop :=
  op_wf program op' /\ _dst op' = _dst op /\ _locations op' = _locations op /\
  forall σ, opInt program σ op' = Some (v σ).

Lemma push_single op opcode o s dst locs :
  op_wf program op -> _dst op = [dst] -> operand_wf program o ->
  let op' := PushOperand (mkOperation opcode 0 locs [] [dst]) o s in
  op_wf program op' /\ _opcode op' = opcode /\ _dst op' = [dst] /\ _locations op' = locs /\
  forall σ, srcInt program σ op' 0 = operandInt program σ s o.
Proof.
  intros [_ _ _ (d & w & Hd & Hw & Hb)] Hdst Ho. rewrite Hd in Hdst. injection Hdst as ->.
  assert (Hm : 0 <= _signExtendSourceMask (PushOperand (mkOperation opcode 0 locs [] [dst]) o s) /\
    signExtends (PushOperand (mkOperation opcode 0 locs [] [dst]) o s) 0 = s).
  { unfold signExtends. cbn. destruct s; cbn; [|by rewrite Z.bits_0]. split; [apply u64_range|done]. }
  destruct Hm as [Hm Hs]. cbn beta zeta. split_and!; try done.
  - constructor; [by constructor|cbn; lia|done|]. exists dst, w. split; [done|]. split; [|done].
    unfold dstWidth in *. rewrite Hd in Hw. exact Hw.
  - intros σ. by rewrite (srcInt_lookup _ _ _ _ o), Hs.
Qed.

Lemma newOperation_eq op r :
  op_wf program op -> replacement_in op r ->
  exists op', newOperation op r = Ok op' /\ replaces op op' (fun σ => replacement_value σ op r).
Proof.
  intros Hwf Hin. destruct (id Hwf) as [Hsrc H64 _ (d & w & Hd & Hw & Hb)]. unfold newOperation. rewrite Hd.
  unfold at_. cbn [lookup list_lookup mbind result_bind].
  assert (Hpush : forall opcode i, (i < length (_src op))%nat -> exists op', 
    PushOperandFrom (mkOperation opcode 0 (_locations op) [] [d]) op i = Ok op' /\ _opcode op' = opcode /\
    op_wf program op' /\ _dst op' = [d] /\ _locations op' = _locations op /\
    forall σ, srcInt program σ op' 0 = srcInt program σ op i).
  { intros opcode i Hi. destruct (lookup_lt_is_Some_2 _ _ Hi) as [o Ho]. unfold PushOperandFrom.
    rewrite assert_true by (by apply Nat.ltb_lt). cbn [mbind result_bind]. rewrite (at_Some _ _ _ Ho). cbn [mbind result_bind].
    rewrite ShouldSignExtend_eq by lia. cbn [mbind result_bind]. eexists; split; [reflexivity|].
    destruct (push_single op opcode o (signExtends op i) d (_locations op) Hwf Hd (Forall_lookup_1 _ _ _ _ Hsrc Ho))
      as (? & ? & ? & ? & Hv). split_and!; try done. intros σ. rewrite Hv. by rewrite (srcInt_lookup _ _ _ _ _ Ho). }
  unfold replaces. rewrite Hd. destruct r as [i|i|].
  - destruct (Hpush Mov i Hin) as (op' & -> & Hop & ? & ? & ? & Hv). exists op'. split_and!; try done.
    intros σ. unfold opInt. by rewrite Hop, Hv.
  - destruct (Hpush (UnaryOp ParseTreeUnaryOpTypeInvert) i Hin) as (op' & -> & Hop & ? & ? & ? & Hv). exists op'. split_and!; try done.
    intros σ. unfold opInt. rewrite Hop, Hv. done.
  - eexists; split; [reflexivity|]. split_and!; try done.
    destruct (push_single op Mov (SourceOperand_size_t 0 64) false d (_locations op) Hwf Hd) as (? & _); [|done].
    cbn. unfold lit_wf. cbn. lia.
Qed.

Lemma replaces_equivalent op op' v t d :
  replaces op op' v -> dstWidth program op = Ok d -> (forall σ, opInt program σ op = Some (t σ)) ->
  (forall σ, v σ mod 2 ^ d = t σ mod 2 ^ d) -> equivalent program op op'.
Proof.
  intros (_ & Hdst & _ & Hv) Hd Ht H σ. unfold opValue.
  replace (dstWidth program op') with (dstWidth program op) by (unfold dstWidth; by rewrite Hdst).
  rewrite Hd, Hv, Ht. cbn. by rewrite H.
Qed.

(** ** Sources of a binary operation *)

Lemma operand_width op i o :
  op_wf program op -> _src op !! i = Some o ->
  exists w, SourceOperand_Width program o = Ok w /\ 0 < w < 2 ^ 30 /\
    (forall l, o = SrcLiteral l -> w = _width l) /\
    forall σ, signExtends op i = false -> 0 <= srcInt program σ op i < 2 ^ w.
Proof.
  intros [Hsrc _ _ _] Ho. pose proof (Forall_lookup_1 _ _ _ _ Hsrc Ho) as Hwf. destruct o as [l|r| |]; try done.
  - destruct Hwf as [[Hl1 Hl2] Hl3]. exists (_width l). split; [done|]. split; [lia|]. split; [by intros ? [= <-]|].
    intros σ Hs. rewrite (srcInt_lookup _ _ _ _ _ Ho), Hs. done.
  - destruct Hwf as (d & Hd & Hw). exists (_regWidth d). split; [|split; [done|split; [done|]]].
    + cbn. unfold registerWidth. by rewrite (at_Some _ _ _ Hd).
    + intros σ Hs. rewrite (srcInt_lookup _ _ _ _ _ Ho), Hs. unfold operandInt, operandLiteral. rewrite Hd.
      apply Z.mod_pos_bound, Z.pow_pos_nonneg; lia.
Qed.

Definition is_literal_of (op : Operation) (i : nat) (v w : Z) : Prop :=
  exists l, _src op !! i = Some (SrcLiteral l) /\ lit_wf l /\ _value l = v /\ _width l = w.

Lemma literalFacts_eq op i o w :
  op_wf program op -> _src op !! i = Some o -> SourceOperand_Width program o = Ok w ->
  exists z o1 a, literalFacts o w = Ok (z, o1, a) /\
    (z = true -> is_literal_of op i 0 w) /\ (o1 = true -> is_literal_of op i 1 w) /\
    (a = true -> is_literal_of op i (2 ^ w - 1) w).
Proof.
  intros [Hsrc _ _ _] Ho Hw. pose proof (Forall_lookup_1 _ _ _ _ Hsrc Ho) as Hwf. unfold literalFacts.
  destruct o as [l|r| |]; try done; [|by exists false, false, false].
  injection Hw as <-. destruct Hwf as [Hl Hlw]. destruct (Z.eqb_spec (_value l) 0) as [H0|H0].
  - exists true, false, false. split; [done|]. split; [|done]. intros _. by exists l.
  - rewrite bit_set_eq by lia. cbn [mbind result_bind]. eexists false, _, _. split; [reflexivity|].
    unfold set_bit. rewrite Z.lor_0_l, shiftl_1_pow by (destruct Hl; lia).
    split; [done|]. split; intros H; bool_to_prop; by exists l.
Qed.

Lemma srcInt_literal_of op i v w σ :
  is_literal_of op i v w -> srcInt program σ op i = lit_int (mkLiteral v w) (signExtends op i) /\ lit_wf (mkLiteral v w).
Proof. intros ([v' w'] & Hl & Hwf & <- & <-). by rewrite (srcInt_lookup _ _ _ _ _ Hl). Qed.

Lemma srcInt_zero op i w σ : is_literal_of op i 0 w -> srcInt program σ op i = 0.
Proof.
  intros H. destruct (srcInt_literal_of op i 0 w σ H) as [-> _]. unfold lit_int, lit_neg. cbn.
  by rewrite Z.bits_0, andb_false_r.
Qed.

Lemma srcInt_one op i w σ : is_literal_of op i 1 w -> w <> 1 \/ signExtends op i = false -> srcInt program σ op i = 1.
Proof.
  intros H Hw. destruct (srcInt_literal_of op i 1 w σ H) as [-> [Hwf _]]. unfold lit_int, lit_neg. cbn in *.
  destruct Hw as [Hw| ->]; [|done]. rewrite (testbit_high 1 1 (w - 1)) by lia. by rewrite andb_false_r.
Qed.

(** Bit [k] of a literal of ones *)
Lemma srcInt_ones op i w σ k :
  is_literal_of op i (2 ^ w - 1) w -> 0 <= k -> Z.testbit (srcInt program σ op i) k = (k <? w) || signExtends op i.
Proof.
  intros H Hk. destruct (srcInt_literal_of op i _ w σ H) as [-> Hwf]. rewrite testbit_lit_int by done. cbn [_width _value].
  destruct Hwf as [Hw _]. cbn in Hw. rewrite Z.sub_1_r, <- Z.ones_equiv. destruct (Z.ltb_spec k w).
  - by rewrite Z.ones_spec_low by lia.
  - rewrite Z.ones_spec_low by lia. by rewrite andb_true_r.
Qed.

Lemma mod_eq_bits a b d : 0 <= d -> (forall k, 0 <= k < d -> Z.testbit a k = Z.testbit b k) -> a mod 2 ^ d = b mod 2 ^ d.
Proof.
  intros Hd H. apply Z.bits_inj'. intros k Hk. destruct (Z.lt_ge_cases k d).
  - rewrite !Z.mod_pow2_bits_low by lia. by apply H.
  - by rewrite !Z.mod_pow2_bits_high by lia.
Qed.

(** ** The identities *)

Section Binary.
Context (op : Operation) (t : ParseTreeBinaryOpType) (d : Z).
Context (Hwf : op_wf program op) (Hlen : length (_src op) = 2%nat) (Hd : 0 <= d).

Definition binop_value (σ : nat -> Z) : Z := binop_spec t (srcInt program σ op 0) (srcInt program σ op 1).

(** ** The three exceptions *)

(** An exclusive or of unsigned sources with a literal [i] of [w] ones, which is
    as wide as the other source but narrower than the destination *)
Record narrow_ones (i : nat) (w : Z) : Prop := mk_narrow_ones {
  no_xor : t = ParseTreeBinaryOpTypeXor;
  no_literal : is_literal_of op i (2 ^ w - 1) w;
  no_unsigned : signExtends op 0 = false /\ signExtends op 1 = false;
  no_narrow : w < d;
  no_other : exists o w', _src op !! (1 - i)%nat = Some o /\ SourceOperand_Width program o = Ok w' /\ w' <= w }.

(** A product by the sign-extended one-bit literal 1, which denotes [-1] *)
Record minus_one (i : nat) : Prop := mk_minus_one {
  mo_mul : t = ParseTreeBinaryOpTypeLutMul;
  mo_literal : is_literal_of op i 1 1;
  mo_signed : signExtends op i = true }.

(** A shift by a literal that denotes a negative amount *)
Record negative_shift : Prop := mk_negative_shift {
  ns_shift : t = ParseTreeBinaryOpTypeShl \/ t = ParseTreeBinaryOpTypeShr;
  ns_amount : exists l, _src op !! 1%nat = Some (SrcLiteral l) /\ signExtends op 1 = true /\ lit_int l true < 0 }.

Definition same_value (r : Replacement) : Prop := forall σ, replacement_value σ op r mod 2 ^ d = binop_value σ mod 2 ^ d.

(** The replacement has the value of the binary operation, or is one of the
    exceptions. *)
Definition identity_sound (r : option Replacement) : Prop :=
  match r with
  | None => True
  | Some r => replacement_in op r /\
      (same_value r \/
       (exists i w, narrow_ones i w /\ r = ReplaceInvert (1 - i)) \/
       (exists i, minus_one i /\ r = ReplaceMov (1 - i)) \/
       negative_shift /\ r = ReplaceZero)
  end.

Lemma zeroRight_sound w : is_literal_of op 1 0 w -> identity_sound (zeroRight t).
Proof.
  intros H. assert (Hz := fun σ => srcInt_zero op 1 w σ H).
  unfold identity_sound, same_value, binop_value. destruct t; cbn; try done; (split; [lia || done|]); left; intros σ; rewrite Hz; f_equal;
    by rewrite ?Z.lor_0_r, ?Z.lxor_0_r, ?Z.add_0_r, ?Z.sub_0_r, ?Z.shiftl_0_r, ?Z.shiftr_0_r, ?Z.land_0_r, ?Z.mul_0_r.
Qed.

Lemma zeroLeft_sound w : is_literal_of op 0 0 w -> identity_sound (zeroLeft t).
Proof.
  intros H. assert (Hz := fun σ => srcInt_zero op 0 w σ H).
  unfold identity_sound, same_value, binop_value. destruct t; cbn; try done; (split; [lia || done|]); left; intros σ; rewrite Hz; f_equal;
    by rewrite ?Z.lor_0_l, ?Z.lxor_0_l, ?Z.add_0_l, ?Z.shiftl_0_l, ?Z.shiftr_0_l, ?Z.land_0_l, ?Z.mul_0_l.
Qed.

Lemma lutMul_sound i w :
  i = 0%nat \/ i = 1%nat -> is_literal_of op i 1 w -> isLutMul t = true -> identity_sound (Some (ReplaceMov (1 - i))).
Proof.
  intros Hi H Ht%bool_decide_eq_true. split; [cbn; destruct Hi as [-> | ->]; cbn; lia|].
  destruct (decide (w = 1 /\ signExtends op i = true)) as [[-> Hs]|Hn]; [right; right; left; by exists i|left].
  assert (Hz : forall σ, srcInt program σ op i = 1).
  { intros σ. apply (srcInt_one op i w σ H). destruct (decide (w = 1)) as [->|]; [right|by left]. destruct (signExtends op i); [|done]. by destruct Hn. }
  intros σ. unfold binop_value. rewrite Ht. cbn. by destruct Hi as [-> | ->]; rewrite Hz, ?Z.mul_1_l, ?Z.mul_1_r.
Qed.

Lemma ones_sound i w o w' :
  i = 0%nat \/ i = 1%nat -> is_literal_of op i (2 ^ w - 1) w -> _src op !! (1 - i)%nat = Some o -> SourceOperand_Width program o = Ok w' ->
  d <= w \/ signExtends op i = true \/ w' <= w /\ signExtends op (1 - i) = false ->
  identity_sound (onesIdentity t i (1 - i)).
Proof.
  intros Hi H Ho Hw' Hcov. assert (Hb := fun σ k Hk => srcInt_ones op i w σ k H Hk).
  assert (Hc : forall σ k, 0 <= k < d -> Z.testbit (srcInt program σ op i) k = true \/ Z.testbit (srcInt program σ op (1 - i)) k = false).
  { intros σ k Hk. rewrite Hb by lia. destruct (Z.ltb_spec k w); [by left|]. cbn.
    destruct Hcov as [?|[->|[? Hu]]]; [lia|by left|right].
    destruct (operand_width op (1 - i) o Hwf Ho) as (w2 & Hw2 & ? & _ & Hr). rewrite Hw' in Hw2. injection Hw2 as <-.
    by apply (testbit_high w'); [apply Hr|lia]. }
  assert (Hcomm : forall σ, binop_value σ = binop_spec t (srcInt program σ op (1 - i)) (srcInt program σ op i) \/ onesIdentity t i (1 - i) = None).
  { intros σ. unfold binop_value. destruct Hi as [-> | ->]; [|by left]. cbn [Nat.sub].
    destruct t; try (by right); left; cbn; [apply Z.land_comm|apply Z.lor_comm|apply Z.lxor_comm]. }
  unfold identity_sound. destruct (onesIdentity t i (1 - i)) as [r|] eqn:Hr; [|done]. split.
  { destruct t; cbn in Hr; try done; injection Hr as <-; cbn; lia. }
  destruct (decide (t = ParseTreeBinaryOpTypeXor /\ w < d /\ signExtends op i = false)) as [(Ht & Hwd & Hs)|Hn].
  { right. left. exists i, w. split; [|rewrite Ht in Hr; by injection Hr as <-].
    destruct Hcov as [?|[?|[Hle Hu]]]; [lia|congruence|]. split; try done; [|by exists o, w']. by destruct Hi as [-> | ->]. }
  left. intros σ. destruct (Hcomm σ) as [->|]; [|done]. apply mod_eq_bits; [done|]. intros k Hk.
  destruct t eqn:Ht; cbn in Hr; try done; injection Hr as <-; cbn [replacement_value binop_spec].
  - rewrite Z.land_spec. destruct (Hc σ k Hk) as [->| ->]; [by rewrite andb_true_r|done].
  - rewrite Z.lor_spec. destruct (Hc σ k Hk) as [->| ->]; [by rewrite orb_true_r|done].
  - rewrite Z.lnot_spec, Z.lxor_spec, Hb by lia. destruct (Z.ltb_spec k w); [by rewrite xorb_true_r|].
    destruct (signExtends op i); [by rewrite xorb_true_r|]. destruct Hn. by split_and!; [|lia|].
Qed.

Lemma wideShift_sound src0 src1 w0 :
  _src op !! 0%nat = Some src0 -> _src op !! 1%nat = Some src1 -> 0 <= w0 ->
  (forall σ, signExtends op 0 = false -> 0 <= srcInt program σ op 0 < 2 ^ w0) ->
  exists r, wideShift op t src1 w0 d = Ok r /\ identity_sound r.
Proof.
  unfold identity_sound. intros H0 H1 Hw0 Hr. destruct (id Hwf) as [Hsrc _ _ _]. unfold wideShift.
  assert (Hlit : forall l, src1 = SrcLiteral l -> t = ParseTreeBinaryOpTypeShl \/ t = ParseTreeBinaryOpTypeShr ->
    negative_shift \/ forall σ, srcInt program σ op 1 = _value l).
  { intros l -> Hs. pose proof (Forall_lookup_1 _ _ _ _ Hsrc H1) as [Hl _].
    destruct (decide (signExtends op 1 = true /\ lit_int l true < 0)) as [[? ?]|Hn]; [left; split; [done|by exists l]|right].
    intros σ. rewrite (srcInt_lookup _ _ _ _ _ H1). unfold operandInt. cbn.
    destruct (signExtends op 1); [|done]. apply (lit_int_nonneg l true Hl). destruct (decide (lit_int l true < 0)); [by destruct Hn|lia]. }
  destruct t eqn:Ht; try (by exists None); destruct src1 as [l|r| |]; try (by exists None).
  - eexists; split; [reflexivity|]. destruct (Z.leb_spec d (_value l)) as [Hle|]; [|done]. split; [done|].
    destruct (Hlit l eq_refl ltac:(by left)) as [?|Hv]; [by right; right; right|left]. intros σ. unfold binop_value. rewrite Ht, Hv. cbn.
    rewrite Z.shiftl_mul_pow2 by lia. rewrite Z.mod_0_l by (apply Z.pow_nonzero; lia).
    replace (_value l) with ((_value l - d) + d) by lia. rewrite Z.pow_add_r, Z.mul_assoc by lia.
    symmetry. apply Z.mod_mul, Z.pow_nonzero; lia.
  - rewrite ShouldSignExtend_eq by lia. cbn [mbind result_bind]. eexists; split; [reflexivity|].
    destruct (signExtends op 0) eqn:Hse; [done|]. cbn [negb andb].
    destruct (Z.leb_spec w0 (_value l)) as [Hle|]; [|done]. split; [done|].
    destruct (Hlit l eq_refl ltac:(by right)) as [?|Hv]; [by right; right; right|left]. intros σ. unfold binop_value. rewrite Ht, Hv. cbn. f_equal. symmetry.
    rewrite Z.shiftr_div_pow2 by lia. apply Z.div_small. specialize (Hr σ eq_refl).
    pose proof (Z.pow_le_mono_r 2 w0 (_value l) ltac:(lia) Hle). lia.
Qed.

End Binary.
End Replacement.
End AlgebraicFacts.
