(* ===== verification/AlgebraicCorrect.v ===== *)
(** * Algebraic identities are correct

    [BinaryOpAlgebraicIdentities] and [SelectAlgebraicIdentities] preserve the
    value of the operation, with three exceptions for binary operations, whose
    effect is stated exactly ([rewritten]). *)

From S2P Require Import Prelude MachineInt Literals Ir LutFacts Semantics LutLowerFacts Algebraic AlgebraicFacts.
Import MachineInt Literals Ir LutFacts Semantics LutConst LutLowerOps LutLowerSelect Algebraic AlgebraicFacts.

Module AlgebraicCorrect.

(** What a rewriting of one operation promises, of the values by [R] *)
Definition rewrites (R : Operation -> Operation -> Prop) (program : Program) (op : Operation) (r : bool * Operation) : Prop :=
  let '(changed, op') := r in
  op_wf program op' /\ _dst op' = _dst op /\ _locations op' = _locations op /\ R op op' /\
  (changed = false -> op' = op).

Lemma rewrites_unchanged (R : Operation -> Operation -> Prop) program op : R op op -> op_wf program op -> rewrites R program op (false, op).
Proof. intros HR H. by split_and!. Qed.

Lemma applyReplacement_eq (R : Operation -> Operation -> Prop) program op r :
  R op op -> op_wf program op ->
  match r with
  | None => True
  | Some r => replacement_in op r /\ forall op', replaces program op op' (fun σ => replacement_value program σ op r) -> R op op'
  end ->
  exists res, applyReplacement op r = Ok res /\ rewrites R program op res.
Proof.
  intros HR Hwf Hr. destruct r as [r|]; cbn [applyReplacement].
  - destruct Hr as [Hin Hval]. destruct (newOperation_eq program op r Hwf Hin) as (op' & -> & Hrep).
    cbn [mbind result_bind]. eexists; split; [reflexivity|]. destruct (id Hrep) as (? & ? & ? & _).
    split_and!; auto. done.
  - eexists; split; [reflexivity|]. by apply rewrites_unchanged.
Qed.

(** ** [BinaryOpAlgebraicIdentities] *)

(** The operators that reach the pass *)
Definition lowered_op (t : ParseTreeBinaryOpType) : bool :=
  match t with
  | ParseTreeBinaryOpTypeMul | ParseTreeBinaryOpTypeDiv | ParseTreeBinaryOpTypeLogicalAnd
  | ParseTreeBinaryOpTypeLogicalOr | ParseTreeBinaryOpTypeLogicalXor => false
  | _ => true
  end.

Lemma lowered_op_asserts t excluded :
  lowered_op t = true -> lowered_op excluded = false -> assert_not t excluded = Ok tt.
Proof.
  intros Ht He. unfold assert_not. rewrite bool_decide_eq_false_2; [done|]. intros ->. by rewrite Ht in He.
Qed.

(** The value of the operation that takes the place of [op]: the same, or one of
    the exceptions of [AlgebraicFacts] *)
Inductive rewritten (program : Program) (op op' : Operation) : Prop :=
| rewritten_same : equivalent program op op' -> rewritten program op op'
| rewritten_complement t d i w :          (** [x ^ ones] becomes [~x] *)
    _opcode op = BinaryOp t -> dstWidth program op = Ok d -> narrow_ones program op t d i w ->
    (forall σ, exists v, opValue program σ op = Some v /\ 0 <= v < 2 ^ w /\ opValue program σ op' = Some (v + (2 ^ d - 2 ^ w))) ->
    rewritten program op op'
| rewritten_factor t d i :                (** [x * -1] becomes [x] *)
    _opcode op = BinaryOp t -> dstWidth program op = Ok d -> minus_one op t i ->
    (forall σ, exists v, opValue program σ op = Some v /\ opValue program σ op' = Some ((- v) mod 2 ^ d)) ->
    rewritten program op op'
| rewritten_shift t :                     (** [x << -c] and [x >> -c] become 0 *)
    _opcode op = BinaryOp t -> negative_shift op t -> (forall σ, opValue program σ op' = Some 0) -> rewritten program op op'.

Lemma lxor_ones x w : 0 <= w -> 0 <= x < 2 ^ w -> Z.lxor x (2 ^ w - 1) = 2 ^ w - 1 - x.
Proof.
  intros Hw Hx. apply Z.bits_inj'. intros k Hk. rewrite Z.lxor_spec. rewrite Z.sub_1_r at 1. rewrite <- Z.ones_equiv.
  replace (2 ^ w - 1 - x) with (Z.lnot x + 1 * 2 ^ w) by (unfold Z.lnot; lia).
  destruct (Z.lt_ge_cases k w).
  - rewrite Z.ones_spec_low by lia. rewrite <- (Z.mod_pow2_bits_low (_ + _) w) by lia.
    rewrite Z.mod_add, Z.mod_pow2_bits_low, Z.lnot_spec by lia. by rewrite xorb_true_r.
  - rewrite Z.ones_spec_high, (testbit_high w x) by lia. symmetry. apply (testbit_high w); [unfold Z.lnot; lia|done].
Qed.

(** The complement of a value below [2 ^ w] in a destination of [d] bits *)
Lemma lnot_narrow x w d : 0 <= w <= d -> 0 <= x < 2 ^ w -> Z.lnot x mod 2 ^ d = (2 ^ w - 1 - x) + (2 ^ d - 2 ^ w).
Proof. intros Hw Hx. pose proof (Z.pow_le_mono_r 2 w d ltac:(lia) ltac:(lia)). symmetry. apply (Z.mod_unique_pos _ _ (-1)); unfold Z.lnot; lia. Qed.

Section Values.
Context (program : Program) (op : Operation) (t : ParseTreeBinaryOpType) (d : Z).
Context (Hwf : op_wf program op) (Hop : _opcode op = BinaryOp t) (Hlen : length (_src op) = 2%nat) (Hd : dstWidth program op = Ok d).

Lemma opValue_binop σ : opValue program σ op = Some (binop_value program op t σ mod 2 ^ d).
Proof. unfold opValue, opInt. by rewrite Hd, Hop. Qed.

Lemma opValue_replacement r op' σ : replaces program op op' (fun σ => replacement_value program σ op r) ->
  opValue program σ op' = Some (replacement_value program σ op r mod 2 ^ d).
Proof. intros (_ & Hdst & _ & Hv). unfold opValue. replace (dstWidth program op') with (dstWidth program op) by (unfold dstWidth; by rewrite Hdst). by rewrite Hd, Hv. Qed.

Lemma literal_index i v w : is_literal_of op i v w -> i = 0%nat \/ i = 1%nat.
Proof. intros (l & Hl & _). apply lookup_lt_Some in Hl. lia. Qed.

Lemma narrow_ones_value i w σ : narrow_ones program op t d i w ->
  exists x, srcInt program σ op (1 - i) = x /\ 0 <= x < 2 ^ w /\ 0 < w /\ binop_value program op t σ = 2 ^ w - 1 - x.
Proof.
  intros [-> Hl [Hs0 Hs1] _ (o & w' & Ho & Hw' & Hle)]. pose proof (literal_index _ _ _ Hl) as Hi.
  assert (Hs : signExtends op i = false /\ signExtends op (1 - i) = false) by (by destruct Hi as [-> | ->]).
  destruct (operand_width program op (1 - i) o Hwf Ho) as (w2 & Hw2 & Hb & _ & Hr). rewrite Hw' in Hw2. injection Hw2 as <-.
  specialize (Hr σ (proj2 Hs)). pose proof (Z.pow_le_mono_r 2 w' w ltac:(lia) Hle).
  destruct (srcInt_literal_of program op i _ w σ Hl) as [Hv [Hw _]]. rewrite (proj1 Hs) in Hv. change (srcInt program σ op i = 2 ^ w - 1) in Hv. cbn in Hw.
  eexists. split; [reflexivity|]. split; [lia|]. split; [lia|]. rewrite <- lxor_ones by lia. unfold binop_value. cbn.
  destruct Hi as [-> | ->]; rewrite Hv; [apply Z.lxor_comm|done].
Qed.

Lemma identity_rewritten r op' : identity_sound program op t d (Some r) ->
  replaces program op op' (fun σ => replacement_value program σ op r) -> rewritten program op op'.
Proof.
  intros [_ H] Hrep. assert (Hv := fun σ => opValue_replacement r op' σ Hrep).
  destruct (wf_dst _ _ Hwf) as (_ & d' & _ & Hd' & Hdb). rewrite Hd in Hd'. injection Hd' as <-.
  destruct H as [Hsame|[(i & w & Hn & ->)|[(i & Hm & ->)|[Hs ->]]]].
  - apply rewritten_same. intros σ. by rewrite Hv, opValue_binop, Hsame.
  - apply (rewritten_complement program op op' t d i w Hop Hd Hn). intros σ. destruct (narrow_ones_value i w σ Hn) as (x & Hx & Hxr & Hw & Hb).
    pose proof (no_narrow _ _ _ _ _ _ Hn) as Hwd. pose proof (Z.pow_le_mono_r 2 w d ltac:(lia) ltac:(lia)). exists (2 ^ w - 1 - x).
    rewrite opValue_binop, Hb, Hv. cbn [replacement_value]. rewrite Hx, (lnot_narrow x w d) by lia. split; [f_equal; apply Z.mod_small; lia|]. split; [lia|done].
  - apply (rewritten_factor program op op' t d i Hop Hd Hm). intros σ. rewrite opValue_binop, Hv. eexists. split; [reflexivity|].
    destruct Hm as [-> Hl Hs]. destruct (srcInt_literal_of program op i 1 1 σ Hl) as [Hx _]. rewrite Hs in Hx. change (srcInt program σ op i = -1) in Hx.
    assert (Hb : binop_value program op ParseTreeBinaryOpTypeLutMul σ = - srcInt program σ op (1 - i)).
    { unfold binop_value. cbn. destruct (literal_index _ _ _ Hl) as [-> | ->]; rewrite Hx; cbn; lia. }
    rewrite Hb. f_equal. cbn. rewrite <- (Z.sub_0_l (_ mod _)), Zminus_mod_idemp_r. f_equal. lia.
  - apply (rewritten_shift program op op' t Hop Hs). intros σ. by rewrite Hv.
Qed.

End Values.

(** [BinaryOpAlgebraicIdentities] returns and preserves the destination and the
    locations; the value is preserved but for the exceptions of [rewritten]. *)
Lemma BinaryOpAlgebraicIdentities_eq program op t w :
  op_wf program op -> _opcode op = BinaryOp t -> length (_src op) = 2%nat -> dstWidth program op = Ok w -> lowered_op t = true ->
  exists r, BinaryOpAlgebraicIdentities program op = Ok r /\ rewrites (rewritten program) program op r.
Proof.
  intros Hwf Hop Hlen Hw Ht. destruct (id Hwf) as [_ _ _ (dst & w' & Hdst & Hw' & Hwb)].
  rewrite Hw in Hw'. injection Hw' as <-. unfold BinaryOpAlgebraicIdentities. rewrite Hop, Hlen, Hdst.
  cbn [length Nat.eqb assert_ mbind result_bind].
  do 5 (rewrite lowered_op_asserts by done; cbn [mbind result_bind]).
  destruct (lookup_lt_is_Some_2 (_src op) 0) as [src0 H0]; [lia|].
  destruct (lookup_lt_is_Some_2 (_src op) 1) as [src1 H1]; [lia|].
  rewrite (at_Some _ _ _ H0), (at_Some _ _ _ H1). cbn [mbind result_bind].
  destruct (operand_width program op 0 src0 Hwf H0) as (w0 & Hw0 & Hb0 & _ & Hr0).
  destruct (operand_width program op 1 src1 Hwf H1) as (w1 & Hw1 & Hb1 & _ & _).
  rewrite Hw0, Hw1. cbn [mbind result_bind]. rewrite Hw. cbn [mbind result_bind].
  destruct (literalFacts_eq program op 0 src0 w0 Hwf H0 Hw0) as (z0 & o0 & a0 & -> & Hz0 & Ho0 & Ha0).
  destruct (literalFacts_eq program op 1 src1 w1 Hwf H1 Hw1) as (z1 & o1 & a1 & -> & Hz1 & Ho1 & Ha1).
  cbn [mbind result_bind]. set (first := if z1 then _ else _).
  assert (Hfirst : identity_sound program op t w first).
  { unfold first. destruct z1; [by apply (zeroRight_sound _ _ _ _ Hlen w1), Hz1|].
    destruct z0; [by apply (zeroLeft_sound _ _ _ _ Hlen w0), Hz0|].
    destruct (o1 && isLutMul t) eqn:E1; [bool_to_prop; apply (lutMul_sound _ _ _ _ Hlen 1 w1); auto|].
    destruct (o0 && isLutMul t) eqn:E0; [bool_to_prop; apply (lutMul_sound _ _ _ _ Hlen 0 w0); auto|done]. }
  clearbody first.
  assert (Hsecond : exists r, orElse first (if a1 then
        c ← onesCover op w1 w0 w 1 0; Ok (if (c : bool) then onesIdentity t 1 0 else None)
      else if a0 then c ← onesCover op w0 w1 w 0 1; Ok (if (c : bool) then onesIdentity t 0 1 else None)
      else Ok None) = Ok r /\ identity_sound program op t w r).
  { destruct first as [r|]; [by exists (Some r)|]. cbn [orElse]. unfold onesCover.
    rewrite !ShouldSignExtend_eq by lia. cbn [mbind result_bind].
    destruct a1; [|destruct a0; [|by exists None]]; (eexists; split; [reflexivity|]); (destruct (_ || _) eqn:Hc; [|done]).
    - apply (ones_sound program op t w Hwf Hlen ltac:(lia) 1 w1 src0 w0); [by right|by apply Ha1|done..|].
      apply orb_true_iff in Hc as [[Hc|Hc]%orb_true_iff|Hc]; bool_to_prop; auto.
    - apply (ones_sound program op t w Hwf Hlen ltac:(lia) 0 w0 src1 w1); [by left|by apply Ha0|done..|].
      apply orb_true_iff in Hc as [[Hc|Hc]%orb_true_iff|Hc]; bool_to_prop; auto. }
  destruct Hsecond as (second & -> & Hsecond). cbn [mbind result_bind].
  assert (Hthird : exists r, orElse second (wideShift op t src1 w0 w) = Ok r /\ identity_sound program op t w r).
  { destruct second as [r|]; [by exists (Some r)|]. cbn [orElse].
    apply (wideShift_sound program op t w Hwf Hlen ltac:(lia) src0 src1 w0 H0 H1); [lia|done]. }
  destruct Hthird as (third & -> & Hthird). cbn [mbind result_bind].
  apply applyReplacement_eq; [by apply rewritten_same|done|]. destruct third as [r|]; [|done].
  split; [apply Hthird|]. intros op' Hrep. by apply (identity_rewritten program op t w Hwf Hop Hlen Hw r).
Qed.

(** [w = b & 15] with [b] of four bits *)
Definition sample_and_ones : Operation :=
  mkOperation (BinaryOp ParseTreeBinaryOpTypeAnd) 0 ∅ [sample_reg 1; sample_lit 15 4] [sample_dst 4].

Lemma sample_binop_wf t m v vw dst dw :
  dstWidth sample_program (mkOperation (BinaryOp t) m ∅ [sample_reg 1; sample_lit v vw] [sample_dst dst]) = Ok dw ->
  0 < dw < 2 ^ 30 -> 0 <= m -> 0 < vw < 2 ^ 30 -> 0 <= v < 2 ^ vw ->
  op_wf sample_program (mkOperation (BinaryOp t) m ∅ [sample_reg 1; sample_lit v vw] [sample_dst dst]).
Proof.
  intros Hd Hw Hm Hv Hl. constructor; cbn; [|lia|done|].
  - constructor; [eexists; split; [reflexivity|cbn; lia]|]. constructor; [|constructor]. cbn. unfold lit_wf. cbn. lia.
  - by exists (sample_dst dst), dw.
Qed.

Example BinaryOpAlgebraicIdentities_sample :
  BinaryOpAlgebraicIdentities sample_program sample_and_ones = Ok (true, mkOperation Mov 0 ∅ [sample_reg 1] [sample_dst 4]).
Proof. vm_compute. reflexivity. Qed.

(** ** The two exceptions *)

(** C31: the exclusive or of an unsigned register with an unsigned literal of
    ones of the same or a larger width becomes a complement also when the
    destination is wider than the literal: every bit of the destination above
    the literal is then set, where the exclusive or leaves it clear. *)
Theorem BinaryOpAlgebraicIdentities_xor program op r l w0 w :
  op_wf program op -> _opcode op = BinaryOp ParseTreeBinaryOpTypeXor -> _src op = [SrcRegister r; SrcLiteral l] ->
  registerWidth program (_registerIndex r) = Ok w0 -> dstWidth program op = Ok w ->
  _value l = 2 ^ _width l - 1 -> w0 <= _width l <= w -> _signExtendSourceMask op = 0 ->
  exists op', BinaryOpAlgebraicIdentities program op = Ok (true, op') /\
    forall σ, exists v, opValue program σ op = Some v /\ 0 <= v < 2 ^ _width l /\
      opValue program σ op' = Some (v + (2 ^ w - 2 ^ _width l)).
Proof.
  intros Hwf Hop Hsrc Hw0 Hw Hones Hwl Hmask. destruct (id Hwf) as [Hsrcs _ _ (dst & w' & Hdst & Hw' & Hwb)].
  rewrite Hw in Hw'. injection Hw' as <-.
  assert (Hl : lit_wf l /\ _width l < 2 ^ 30) by (rewrite Hsrc in Hsrcs; by inversion_clear Hsrcs as [|?? _ Hs]; inversion_clear Hs).
  destruct Hl as [[Hl1 Hl2] Hl3].
  assert (Hse : forall i, (i < 2)%nat -> ShouldSignExtend op i = Ok false).
  { intros i Hi. rewrite ShouldSignExtend_eq by (rewrite ?Hsrc; cbn; lia). by rewrite signExtends_mask0. }
  destruct (newOperation_eq program op (ReplaceInvert 0) Hwf) as (op' & Hnew & Hrep); [cbn; rewrite Hsrc; cbn; lia|].
  pose proof (Z.pow_pos_nonneg 2 (_width l) ltac:(lia) ltac:(lia)) as Hpos.
  pose proof (Z.pow_le_mono_r 2 1 (_width l) ltac:(lia) ltac:(lia)) as Hgt. change (2 ^ 1) with 2 in Hgt.
  exists op'. split.
  { unfold BinaryOpAlgebraicIdentities. rewrite Hop, Hdst. rewrite !Hsrc. unfold at_. cbn -[newOperation wideShift dstWidth Z.pow].
    rewrite Hw0. cbn -[newOperation wideShift dstWidth Z.pow]. rewrite Hw. cbn -[newOperation wideShift dstWidth Z.pow].
    rewrite (proj2 (Z.eqb_neq (_value l) 0)) by lia. rewrite bit_set_eq by lia. cbn -[newOperation wideShift dstWidth Z.pow].
    unfold set_bit. rewrite Z.lor_0_l, shiftl_1_pow, Hones, Z.eqb_refl by lia.
    rewrite andb_false_r. cbn -[newOperation wideShift dstWidth Z.pow onesCover]. unfold onesCover. rewrite !Hse by lia.
    cbn -[newOperation wideShift dstWidth Z.pow]. rewrite (proj2 (Z.leb_le w0 (_width l))), orb_true_r by lia.
    cbn -[newOperation]. by rewrite Hnew. }
  intros σ. destruct Hrep as (_ & Hd' & _ & Hv').
  assert (Hx : exists x, srcInt program σ op 0 = x /\ 0 <= x < 2 ^ _width l).
  { eexists; split; [reflexivity|]. assert (H0 : _src op !! 0%nat = Some (SrcRegister r)) by (by rewrite Hsrc).
    destruct (operand_width program op 0 _ Hwf H0) as (w1 & Hw1 & _ & _ & Hr). cbn in Hw1. rewrite Hw0 in Hw1. injection Hw1 as <-.
    specialize (Hr σ (signExtends_mask0 op 0 Hmask)). pose proof (Z.pow_le_mono_r 2 w0 (_width l)). lia. }
  destruct Hx as (x & Hx & Hxr).
  exists (2 ^ _width l - 1 - x). pose proof (Z.pow_le_mono_r 2 (_width l) w ltac:(lia) ltac:(lia)).
  split_and!; try lia.
  - unfold opValue, opInt. rewrite Hw, Hop. cbn. rewrite Hx. unfold srcInt. rewrite Hsrc. cbn.
    rewrite signExtends_mask0 by done. unfold operandInt. cbn. rewrite Hones, lxor_ones by lia. f_equal. apply Z.mod_small. lia.
  - unfold opValue. rewrite Hv'. replace (dstWidth program op') with (dstWidth program op) by (unfold dstWidth; by rewrite Hd').
    rewrite Hw. cbn. f_equal. rewrite Hx. apply (lnot_narrow x (_width l) w); lia.
Qed.

(** [w = b ^ 15]: the four high bits come out set. *)
Lemma BinaryOpAlgebraicIdentities_xor_witness :
  let op := mkOperation (BinaryOp ParseTreeBinaryOpTypeXor) 0 ∅ [sample_reg 1; sample_lit 15 4] [sample_dst 4] in
  op_wf sample_program op /\
  exists op', BinaryOpAlgebraicIdentities sample_program op = Ok (true, op') /\
    forall σ, exists v, opValue sample_program σ op = Some v /\ 0 <= v < 2 ^ 4 /\
      opValue sample_program σ op' = Some (v + (2 ^ 8 - 2 ^ 4)).
Proof.
  intros op.
  assert (Hwf : op_wf sample_program op) by (apply (sample_binop_wf _ _ _ _ _ 8); [reflexivity|lia|lia|lia|lia]).
  split; [exact Hwf|].
  apply (BinaryOpAlgebraicIdentities_xor sample_program op (mkAccessedRegister 1) (mkLiteral 15 4) 4 8 Hwf);
    first [reflexivity|cbn; lia].
Defined.

(** A product with the sign-extended one-bit literal 1, which denotes [-1]
    and which [NarrowLiterals] makes of any literal of ones, becomes a copy of
    the other factor instead of its negation. *)
Theorem BinaryOpAlgebraicIdentities_mul program op r w0 w :
  op_wf program op -> _opcode op = BinaryOp ParseTreeBinaryOpTypeLutMul ->
  _src op = [SrcRegister r; SrcLiteral (mkLiteral 1 1)] -> registerWidth program (_registerIndex r) = Ok w0 ->
  dstWidth program op = Ok w -> signExtends op 1 = true ->
  exists op', BinaryOpAlgebraicIdentities program op = Ok (true, op') /\
    forall σ, opValue program σ op = Some ((- srcInt program σ op 0) mod 2 ^ w) /\
              opValue program σ op' = Some (srcInt program σ op 0 mod 2 ^ w).
Proof.
  intros Hwf Hop Hsrc Hw0 Hw Hse. destruct (id Hwf) as [_ _ _ (dst & w' & Hdst & _ & _)].
  destruct (newOperation_eq program op (ReplaceMov 0) Hwf) as (op' & Hnew & Hrep); [cbn; rewrite Hsrc; cbn; lia|].
  exists op'. split.
  { unfold BinaryOpAlgebraicIdentities. rewrite Hop, Hdst. rewrite !Hsrc. cbn [length Nat.eqb assert_ mbind result_bind].
    do 5 (rewrite lowered_op_asserts by done; cbn [mbind result_bind]).
    unfold at_. cbn -[newOperation wideShift dstWidth isLutMul bit_set].
    rewrite Hw0. cbn -[newOperation wideShift dstWidth isLutMul bit_set]. rewrite Hw. rewrite bit_set_eq by lia.
    cbn -[newOperation isLutMul]. unfold isLutMul. rewrite bool_decide_eq_true_2 by done.
    cbn -[newOperation]. by rewrite Hnew. }
  intros σ. destruct Hrep as (_ & Hd' & _ & Hv'). split.
  - unfold opValue, opInt. rewrite Hw, Hop. cbn. unfold srcInt at 2. rewrite Hsrc. cbn. rewrite Hse.
    do 2 f_equal. change (lit_int _ true) with (-1). lia.
  - unfold opValue. rewrite Hv'. replace (dstWidth program op') with (dstWidth program op) by (unfold dstWidth; by rewrite Hd').
    by rewrite Hw.
Qed.

Lemma BinaryOpAlgebraicIdentities_mul_witness :
  let op := mkOperation (BinaryOp ParseTreeBinaryOpTypeLutMul) 2 ∅ [sample_reg 1; sample_lit 1 1] [sample_dst 4] in
  op_wf sample_program op /\
  exists op', BinaryOpAlgebraicIdentities sample_program op = Ok (true, op') /\
    forall σ, opValue sample_program σ op = Some ((- srcInt sample_program σ op 0) mod 2 ^ 8) /\
              opValue sample_program σ op' = Some (srcInt sample_program σ op 0 mod 2 ^ 8).
Proof.
  intros op.
  assert (Hwf : op_wf sample_program op) by (apply (sample_binop_wf _ _ _ _ _ 8); [reflexivity|lia|lia|lia|lia]).
  split; [exact Hwf|].
  apply (BinaryOpAlgebraicIdentities_mul sample_program op (mkAccessedRegister 1) 4 8 Hwf); reflexivity.
Defined.

End AlgebraicCorrect.
