(* ===== verification/AlgebraicSelect.v ===== *)
(** * Algebraic identities are correct: selections *)

From S2P Require Import Prelude MachineInt Literals Ir LutFacts Semantics LutLowerFacts Algebraic AlgebraicFacts.
From S2P Require Import AlgebraicCorrect.
Import MachineInt Literals Ir LutFacts Semantics LutConst LutLowerOps LutLowerSelect Algebraic AlgebraicFacts AlgebraicCorrect.

Module AlgebraicSelect.

(** A selection between [2 ^ nib] choices.  The index has at least [nib] bits;
    when all choices are literals, exactly that many. *)
Record selection_wf (program : Program) (op : Operation) (nib : nat) : Prop := mk_selection_wf {
  sel_length : length (_src op) = S (2 ^ nib);
  sel_choices : (1 <= nib)%nat;
  sel_literal : forall l, _src op !! 0%nat = Some (SrcLiteral l) -> Z.of_nat nib <= _width l /\ _value l < 2 ^ Z.of_nat nib;
  sel_register : forall r d, _src op !! 0%nat = Some (SrcRegister r) -> _registerTable program !! _registerIndex r = Some d ->
    Z.of_nat nib <= _regWidth d /\ (forallb isLiteral (tail (_src op)) = true -> _regWidth d = Z.of_nat nib) }.

Lemma fold_forallb3 {A} (f g h : A -> bool) l a b c :
  fold_left (fun (st : bool * bool * bool) i => (st.1.1 && f i, st.1.2 && g i, st.2 && h i)) l (a, b, c)
  = (a && forallb f l, b && forallb g l, c && forallb h l).
Proof.
  revert a b c; induction l as [|x l IH]; intros a b c; cbn [fold_left forallb fst snd].
  - by rewrite !andb_true_r.
  - by rewrite IH, !andb_assoc.
Qed.

Lemma forallb_lookup {A} (f : A -> bool) l i x : forallb f l = true -> l !! i = Some x -> f x = true.
Proof. intros H Hi. rewrite forallb_forall in H. apply H, list_elem_of_In. by eapply list_elem_of_lookup_2. Qed.

Section Select.
Context (program : Program) (op : Operation) (nib : nat) (w : Z).
Context (Hwf : op_wf program op) (Hop : _opcode op = Select) (Hsel : selection_wf program op nib).
Context (Hw : dstWidth program op = Ok w) (Hwb : 0 < w < 2 ^ 30).

Let n : Z := 2 ^ Z.of_nat nib.

Lemma num_choices_eq : Z.of_nat (length (_src op) - 1) = n.
Proof. rewrite (sel_length _ _ _ Hsel), Nat.sub_succ, Nat.sub_0_r. apply Nat2Z.inj_pow. Qed.

Lemma n_pos : 0 < n.
Proof. apply Z.pow_pos_nonneg; lia. Qed.

Lemma selectInt_index σ :
  exists k, (k < length (_src op) - 1)%nat /\ Z.of_nat k = srcInt program σ op 0 mod n /\ selectInt program σ op = srcInt program σ op (S k).
Proof.
  pose proof n_pos. pose proof num_choices_eq as Hn. pose proof (Z.mod_pos_bound (srcInt program σ op 0) n ltac:(lia)).
  exists (Z.to_nat (srcInt program σ op 0 mod n)). split; [lia|]. split; [lia|]. unfold selectInt. by rewrite Hn.
Qed.

(** ** A known index *)

Lemma selectKnown_eq l :
  _src op !! 0%nat = Some (SrcLiteral l) -> exists op', selectKnown op l = Ok op' /\ rewrites (equivalent program) program op (true, op').
Proof.
  intros H0. destruct (id Hwf) as [Hsrc H64 Hm (dst & w' & Hdst & Hw' & _)].
  destruct (sel_literal _ _ _ Hsel l H0) as [Hlw Hlv]. pose proof (Forall_lookup_1 _ _ _ _ Hsrc H0) as [[Hl1 Hl2] _].
  pose proof num_choices_eq as Hn. fold n in Hlv. assert (Hidx : Z.of_nat (Z.to_nat (_value l)) = _value l) by lia.
  assert (Hk : (S (Z.to_nat (_value l)) < length (_src op))%nat) by lia.
  destruct (lookup_lt_is_Some_2 _ _ Hk) as [o Ho]. unfold selectKnown.
  rewrite MpToSizeT_small by (unfold is_u64; lia). cbn [mbind result_bind]. unfold u64_add.
  rewrite u64_small by (unfold is_u64; lia). replace (Z.to_nat (_value l + 1)) with (S (Z.to_nat (_value l))) by lia.
  rewrite assert_true by (by apply Nat.ltb_lt). cbn [mbind result_bind]. rewrite Hdst. change (at_ [dst] 0) with (Ok dst).
  cbn [mbind result_bind]. rewrite (at_Some _ _ _ Ho). cbn [mbind result_bind].
  set (k := S (Z.to_nat (_value l))) in *. eexists; split; [reflexivity|].
  pose proof (Forall_lookup_1 _ _ _ _ Hsrc Ho) as Howf.
  assert (Hmask : Z.land (Z.shiftr (_signExtendSourceMask op) (Z.of_nat k)) 1 = Z.b2z (signExtends op k)).
  { unfold signExtends. by rewrite land_shiftr_1 by lia. }
  rewrite Hmask. split_and!; try done.
  - constructor; [by constructor|cbn; lia|cbn; destruct (signExtends op k); cbn; lia|]. exists dst, w. split; [done|]. split; [|done].
    unfold dstWidth in *. cbn. by rewrite Hdst in Hw.
  - intros σ. unfold opValue, opInt. cbn [_opcode]. rewrite Hop.
    replace (dstWidth program _) with (dstWidth program op) by (unfold dstWidth; by rewrite Hdst). rewrite Hw. cbn [mbind option_bind]. do 2 f_equal.
    destruct (selectInt_index σ) as (j & _ & Hj & ->).
    assert (Hs0 : srcInt program σ op 0 mod n = _value l).
    { rewrite (srcInt_lookup _ _ _ _ _ H0). cbn. unfold n. rewrite lit_int_mod by (done || lia). apply Z.mod_small. fold n. lia. }
    replace (S j) with k by (unfold k; lia). rewrite (srcInt_lookup _ _ _ k _ Ho), (srcInt_lookup _ _ _ 0%nat o) by done.
    f_equal. unfold signExtends at 1. cbn. by destruct (signExtends op k).
Qed.

(** ** All choices are literals *)

Section Register.
Context (r : AccessedRegister) (rd : RegisterDescription).
Context (H0 : _src op !! 0%nat = Some (SrcRegister r)) (Hrd : _registerTable program !! _registerIndex r = Some rd).

Lemma choice_lookup i : (i < length (_src op) - 1)%nat -> exists o, _src op !! S i = Some o /\ operand_wf program o /\ tail (_src op) !! i = Some o.
Proof.
  intros Hi. destruct (lookup_lt_is_Some_2 (_src op) (S i)) as [o Ho]; [lia|]. exists o.
  split; [done|]. destruct (id Hwf) as [Hsrc _ _ _]. split; [by apply (Forall_lookup_1 _ _ _ _ Hsrc Ho)|].
  destruct (_src op); [done|]. exact Ho.
Qed.

Lemma selectLiterals_eq :
  forallb isLiteral (tail (_src op)) = true ->
  exists x, selectLiterals program op (SrcRegister r) = Ok x /\
    match x with None => True | Some x => replacement_in op x /\
      forall σ, replacement_value program σ op x mod 2 ^ w = selectInt program σ op mod 2 ^ w end.
Proof.
  intros Hlits. destruct (sel_register _ _ _ Hsel r rd H0 Hrd) as [_ HW]. specialize (HW Hlits).
  destruct (id Hwf) as [Hsrc H64 _ _]. pose proof num_choices_eq as Hn. pose proof n_pos as Hnp. pose proof (sel_choices _ _ _ Hsel) as Hc.
  pose proof (Forall_lookup_1 _ _ _ _ Hsrc H0) as (rd' & Hrd' & Hrw). rewrite Hrd in Hrd'. injection Hrd' as <-.
  set (cv := fun i => srcInt program (fun _ => 0) op (S i) mod 2 ^ w). set (sel := fun i => mkLiteral (Z.of_nat i) (_regWidth rd)).
  set (s0 := signExtends op 0).
  assert (Hlit : forall i, (i < length (_src op) - 1)%nat -> exists l, literalAt op (S i) = Ok l /\ lit_wf l /\
    (forall σ, srcInt program σ op (S i) mod 2 ^ w = cv i) /\ lit_int l (signExtends op (S i)) mod 2 ^ w = cv i).
  { intros i Hi. destruct (choice_lookup i Hi) as (o & Ho & Howf & Hti). pose proof (forallb_lookup _ _ _ _ Hlits Hti) as Hil.
    destruct o as [l|? | |]; try done. exists l. split; [by apply literalAt_eq|]. destruct Howf as [Hl _]. split; [done|].
    unfold cv. split; [intros σ|]; rewrite ?(srcInt_lookup _ _ _ _ _ Ho); done. }
  assert (Hselwf : forall i, (i < length (_src op) - 1)%nat -> lit_wf (sel i)).
  { intros i Hi. unfold lit_wf, sel. cbn. rewrite HW in *. fold n. lia. }
  assert (Hres : forall l s, lit_wf l -> Resize l s w = Ok (lit_int l s mod 2 ^ w)) by (intros; apply Resize_eq; [done|lia]).
  unfold selectLiterals. rewrite Hw. cbn [mbind result_bind SourceOperand_Width].
  replace (registerWidth program (_registerIndex r)) with (Ok (_regWidth rd)) by (unfold registerWidth; by rewrite (at_Some _ _ _ Hrd)).
  cbn [mbind result_bind]. destruct (Hlit 0%nat) as (l1 & -> & Hl1 & _ & Hv1); [lia|]. cbn [mbind result_bind].
  rewrite ShouldSignExtend_eq by lia. cbn [mbind result_bind]. rewrite Hres by done. cbn [mbind result_bind]. rewrite Hv1.
  set (f := fun i => cv (i - 1)%nat =? cv 0%nat). set (g := fun i => cv (i - 1)%nat =? lit_int (sel (i - 1)%nat) s0 mod 2 ^ w).
  set (h := fun i => cv (i - 1)%nat =? Z.lnot (lit_int (sel (i - 1)%nat) s0) mod 2 ^ w).
  rewrite (foldM_Ok _ (fun st i => (st.1.1 && f i, st.1.2 && g i, st.2 && h i))).
  2: { intros [[a b] c] i Hi%elem_of_seq. destruct i as [|i]; [lia|]. destruct (Hlit i) as (l & Hl & Hlwf & _ & Hv); [lia|].
       unfold literalChoiceStep. rewrite Hl. cbn [mbind result_bind]. rewrite !ShouldSignExtend_eq by lia. cbn [mbind result_bind].
       rewrite (Hres l) by done. cbn [mbind result_bind]. replace (mkLiteral (Z.of_nat (S i) - 1) (_regWidth rd)) with (sel i) by (unfold sel; f_equal; lia).
       rewrite (Hres (sel i)) by (apply Hselwf; lia). cbn [mbind result_bind].
       rewrite ImplementUnaryOp_eq by (try apply Hselwf; lia).
       cbn [mbind result_bind fst snd unop_spec]. unfold f, g, h. rewrite Nat.sub_succ, Nat.sub_0_r, Hv. done. }
  rewrite fold_forallb3. cbn [andb mbind result_bind]. eexists; split; [reflexivity|].
  assert (Hall : forall p, forallb p (seq 1 (length (_src op) - 1)) = true -> forall i, (i < length (_src op) - 1)%nat -> p (S i) = true).
  { intros p Hp i Hi. rewrite forallb_forall in Hp. apply Hp, in_seq. lia. }
  assert (Hidx : forall σ, exists k, (k < length (_src op) - 1)%nat /\ selectInt program σ op mod 2 ^ w = cv k /\
    srcInt program σ op 0 = lit_int (sel k) s0).
  { intros σ. destruct (selectInt_index σ) as (k & Hk & Hke & Hki). exists k. split; [done|]. split.
    - rewrite Hki. by destruct (Hlit k Hk) as (_ & _ & _ & -> & _).
    - destruct (srcInt_register program σ op 0 r rd H0 Hrd) as [Hs _]. rewrite Hs in *. fold s0 in Hke |- *. f_equal.
      unfold n in Hke. rewrite <- HW in Hke. rewrite lit_int_mod in Hke by (try apply regLiteral_wf; cbn; lia).
      unfold regLiteral, sel in *. cbn in *. f_equal. rewrite Z.mod_mod in Hke by (apply Z.pow_nonzero; lia). lia. }
  destruct (forallb f _) eqn:Ef; [|destruct (forallb g _) eqn:Eg; [|destruct (forallb h _) eqn:Eh; [|done]]].
  - split; [cbn; lia|]. intros σ. destruct (Hidx σ) as (k & Hk & -> & _). cbn.
    destruct (Hlit 0%nat) as (_ & _ & _ & -> & _); [lia|]. specialize (Hall f Ef k Hk). unfold f in Hall.
    rewrite Nat.sub_succ, Nat.sub_0_r in Hall. by apply Z.eqb_eq in Hall.
  - split; [cbn; lia|]. intros σ. destruct (Hidx σ) as (k & Hk & -> & Hs). cbn. rewrite Hs.
    specialize (Hall g Eg k Hk). unfold g in Hall. rewrite Nat.sub_succ, Nat.sub_0_r in Hall. by apply Z.eqb_eq in Hall.
  - split; [cbn; lia|]. intros σ. destruct (Hidx σ) as (k & Hk & -> & Hs). cbn. rewrite Hs.
    specialize (Hall h Eh k Hk). unfold h in Hall. rewrite Nat.sub_succ, Nat.sub_0_r in Hall. by apply Z.eqb_eq in Hall.
Qed.

(** ** All choices are registers *)

Lemma sameRegister_eq s ri l :
  Forall (fun i => (i < length (_src op))%nat /\ exists r, _src op !! i = Some (SrcRegister r)) l ->
  exists b, sameRegister op s ri l = Ok b /\
    (b = true -> forall i, i ∈ l -> signExtends op i = s /\ _src op !! i = Some (SrcRegister (mkAccessedRegister ri))).
Proof.
  destruct (id Hwf) as [_ H64 _ _]. induction 1 as [|i l [Hi (ri' & Hr)] _ IH]; cbn [sameRegister].
  - exists true. split; [done|]. intros _ i Hi. set_solver.
  - rewrite ShouldSignExtend_eq, (at_Some _ _ _ Hr) by lia. cbn [mbind result_bind GetAccessedRegister].
    destruct (Bool.eqb _ _) eqn:Eb; cbn [negb orb]; [|by exists false].
    destruct (Nat.eqb_spec (_registerIndex ri') ri) as [He|]; cbn [negb]; [|by exists false].
    destruct IH as (b & -> & Hb). exists b. split; [done|]. intros Hbt j [->|Hj]%elem_of_cons; [|by apply Hb].
    split; [by apply Bool.eqb_prop|]. rewrite Hr. destruct ri'. cbn in He. by subst.
Qed.

Lemma selectRegisters_eq :
  forallb isRegister (tail (_src op)) = true ->
  exists x, selectRegisters program op = Ok x /\
    match x with None => True | Some x => replacement_in op x /\
      forall σ, replacement_value program σ op x mod 2 ^ w = selectInt program σ op mod 2 ^ w end.
Proof.
  intros Hregs. destruct (id Hwf) as [Hsrc H64 _ _]. pose proof num_choices_eq as Hn. pose proof n_pos as Hnp.
  assert (Hreg : forall i, (i < length (_src op) - 1)%nat -> exists r, _src op !! S i = Some (SrcRegister r)).
  { intros i Hi. destruct (choice_lookup i Hi) as (o & Ho & _ & Hti). pose proof (forallb_lookup _ _ _ _ Hregs Hti) as Hil.
    destruct o; try done. by eexists. }
  destruct (Hreg 0%nat) as (r1 & Hr1); [lia|]. unfold selectRegisters.
  rewrite ShouldSignExtend_eq, (at_Some _ _ _ Hr1) by lia. cbn [mbind result_bind].
  destruct (operand_width program op 1 _ Hwf Hr1) as (w1 & -> & _). cbn [mbind result_bind GetAccessedRegister].
  destruct (sameRegister_eq (signExtends op 1) (_registerIndex r1) (seq 2 (length (_src op) - 2))) as (b & -> & Hb).
  { apply Forall_forall. intros i Hi%elem_of_seq. split; [lia|]. destruct i as [|i]; [lia|]. apply Hreg. lia. }
  cbn [mbind result_bind]. eexists; split; [reflexivity|]. destruct b; [|done]. split; [cbn; lia|]. intros σ.
  destruct (selectInt_index σ) as (k & Hk & _ & ->). cbn. f_equal. destruct (decide (k = 0%nat)) as [->|]; [done|].
  destruct (Hb eq_refl (S k)) as [Hs Hl]; [apply elem_of_seq; lia|].
  rewrite (srcInt_lookup _ _ _ _ _ Hl), (srcInt_lookup _ _ _ _ _ Hr1), Hs. by destruct r1.
Qed.

End Register.

Lemma SelectAlgebraicIdentities_eq :
  exists res, SelectAlgebraicIdentities program op = Ok res /\ rewrites (equivalent program) program op res.
Proof.
  destruct (id Hwf) as [Hsrc H64 _ (dst & w' & Hdst & _ & _)]. pose proof num_choices_eq as Hn.
  assert (H2 : 2 <= n) by (change 2 with (2 ^ 1); apply Z.pow_le_mono_r; [lia|]; pose proof (sel_choices _ _ _ Hsel); lia).
  unfold SelectAlgebraicIdentities. rewrite Hop, Hdst. rewrite (assert_true (3 <=? length (_src op))%nat) by (apply Nat.leb_le; lia).
  cbn [length Nat.eqb assert_ mbind result_bind].
  destruct (lookup_lt_is_Some_2 (_src op) 0) as [src0 H0]; [lia|]. rewrite (at_Some _ _ _ H0). cbn [mbind result_bind].
  pose proof (Forall_lookup_1 _ _ _ _ Hsrc H0) as Howf. destruct src0 as [l|r| |]; try done.
  { destruct (selectKnown_eq l H0) as (op' & -> & Hres). cbn [mbind result_bind]. by eexists. }
  destruct Howf as (rd & Hrd & _).
  assert (Hfirst : exists x, (if forallb isLiteral (tail (_src op)) then selectLiterals program op (SrcRegister r) else Ok None) = Ok x /\
    match x with None => True | Some x => replacement_in op x /\
      forall σ, replacement_value program σ op x mod 2 ^ w = selectInt program σ op mod 2 ^ w end).
  { destruct (forallb isLiteral _) eqn:El; [|by exists None]. by apply (selectLiterals_eq r rd). }
  destruct Hfirst as (first & -> & Hfirst). cbn [mbind result_bind].
  assert (Hsecond : exists x, orElse first (if forallb isRegister (tail (_src op)) then selectRegisters program op else Ok None) = Ok x /\
    match x with None => True | Some x => replacement_in op x /\
      forall σ, replacement_value program σ op x mod 2 ^ w = selectInt program σ op mod 2 ^ w end).
  { destruct first as [x|]; [by exists (Some x)|]. cbn [orElse].
    destruct (forallb isRegister _) eqn:El; [|by exists None]. by eapply selectRegisters_eq. }
  destruct Hsecond as (second & -> & Hsecond). cbn [mbind result_bind].
  apply applyReplacement_eq; [done..|]. destruct second as [x|]; [|done]. destruct Hsecond as [Hin Hval]. split; [done|]. intros op' Hrep.
  apply (replaces_equivalent program op op' _ (fun σ => selectInt program σ op) w Hrep Hw); [|done]. intros σ. unfold opInt. by rewrite Hop.
Qed.

End Select.

(** [SelectAlgebraicIdentities] returns and preserves the destination, the
    locations and the value of a selection between a power of two of choices:
    a known index, equal choices, choices that spell the index or its
    complement. *)
Theorem SelectAlgebraicIdentities_correct program op nib w :
  op_wf program op -> _opcode op = Select -> selection_wf program op nib -> dstWidth program op = Ok w ->
  exists res, SelectAlgebraicIdentities program op = Ok res /\ rewrites (equivalent program) program op res.
Proof.
  intros Hwf Hop Hsel Hw. destruct (id Hwf) as [_ _ _ (dst & w' & _ & Hw' & Hb)]. rewrite Hw in Hw'. injection Hw' as <-.
  by apply (SelectAlgebraicIdentities_eq program op nib w).
Qed.

(** [w = d ? ...]: the choices 3, 2, 1, 0 of the two-bit index [d], whose complement they are *)
Definition sample_select : Operation :=
  mkOperation Select 0 ∅ [sample_reg 2; sample_lit 3 2; sample_lit 2 2; sample_lit 1 2; sample_lit 0 2] [sample_dst 2].

Lemma sample_select_wf : op_wf sample_program sample_select /\ selection_wf sample_program sample_select 2.
Proof.
  split.
  - constructor; [|cbn; lia|cbn; lia|].
    + constructor; [eexists; split; [reflexivity|cbn; lia]|].
      repeat (constructor; [cbn; unfold lit_wf; cbn; lia|]). constructor.
    + exists (sample_dst 2), 2. split; [reflexivity|]. split; [reflexivity|lia].
  - constructor; [reflexivity|lia|intros l Hl; discriminate Hl|].
    intros r d Hr Hd. cbn in Hr. injection Hr as <-. cbn in Hd. injection Hd as <-. cbn. lia.
Qed.

Lemma SelectAlgebraicIdentities_correct_witness :
  op_wf sample_program sample_select /\ selection_wf sample_program sample_select 2 /\
  exists res, SelectAlgebraicIdentities sample_program sample_select = Ok res /\ rewrites (equivalent sample_program) sample_program sample_select res.
Proof.
  destruct sample_select_wf as [Hwf Hsel]. split; [exact Hwf|]. split; [exact Hsel|].
  exact (SelectAlgebraicIdentities_correct sample_program sample_select 2 2 Hwf eq_refl Hsel eq_refl).
Defined.

Example SelectAlgebraicIdentities_sample :
  SelectAlgebraicIdentities sample_program sample_select
  = Ok (true, mkOperation (UnaryOp ParseTreeUnaryOpTypeInvert) 0 ∅ [sample_reg 2] [sample_dst 2]).
Proof. vm_compute. reflexivity. Qed.

End AlgebraicSelect.
