(* ===== verification/AlgebraicNarrow.v ===== *)
(** * Narrowing of literals and moves of gathers

    [NarrowLiterals] keeps the integer of every literal and leaves it in the
    smallest width; [GatherToMove] keeps the value of the operation; the passes
    over a function apply them to every operation. *)

From S2P Require Import Prelude MachineInt Literals Ir LutFacts Semantics Algebraic AlgebraicFacts AlgebraicCorrect.
From S2P Require Import AlgebraicSelect.
Import MachineInt Literals Ir LutFacts Semantics LutConst Algebraic AlgebraicFacts AlgebraicCorrect AlgebraicSelect.

Module AlgebraicNarrow.

(** ** One literal *)

(** [x] fits in [w] bits of two's complement. *)
Definition fits (x w : Z) : Prop := - 2 ^ (w - 1) <= x < 2 ^ (w - 1).

Lemma top_bit x k : 0 <= k -> 0 <= x < 2 ^ (k + 1) -> Z.testbit x k = (2 ^ k <=? x).
Proof.
  intros Hk Hx. rewrite Z.pow_add_r in Hx by lia. change (2 ^ 1) with 2 in Hx. pose proof (Z.pow_pos_nonneg 2 k ltac:(lia) Hk).
  pose proof (Z.testbit_spec' x k Hk) as Hb. destruct (Z.leb_spec (2 ^ k) x).
  - rewrite <- (Z.div_unique_pos x (2 ^ k) 1 (x - 2 ^ k)) in Hb by lia. by destruct (Z.testbit x k).
  - rewrite Z.div_small in Hb by lia. by destruct (Z.testbit x k).
Qed.

Lemma sign_bit x w : 0 < w -> fits x w -> Z.testbit x (w - 1) = (x <? 0).
Proof.
  intros Hw Hx. unfold fits in Hx. destruct (Z.ltb_spec x 0) as [Hn|Hn].
  - replace x with (Z.lnot (Z.lnot x)) by apply Z.lnot_involutive. rewrite Z.lnot_spec by lia.
    rewrite (testbit_high (w - 1)); [done|unfold Z.lnot; lia|lia].
  - apply (testbit_high (w - 1)); lia.
Qed.

(** The test of the loop: the two top bits agree when one bit less is enough. *)
Lemma top_bits_agree x w :
  2 <= w -> fits x w -> Bool.eqb (Z.testbit x (w - 1)) (Z.testbit x (w - 2)) = true <-> fits x (w - 1).
Proof.
  intros Hw Hx. rewrite sign_bit by (done || lia). unfold fits in *. replace (w - 1 - 1) with (w - 2) by lia.
  assert (Hp : 2 ^ (w - 1) = 2 * 2 ^ (w - 2)) by (rewrite <- Z.pow_succ_r by lia; f_equal; lia).
  pose proof (Z.pow_pos_nonneg 2 (w - 2) ltac:(lia) ltac:(lia)). destruct (Z.ltb_spec x 0) as [Hn|Hn].
  - replace x with (Z.lnot (Z.lnot x)) at 1 by apply Z.lnot_involutive. rewrite Z.lnot_spec by lia.
    rewrite top_bit by (replace (w - 2 + 1) with (w - 1) by lia; unfold Z.lnot; lia).
    unfold Z.lnot. destruct (Z.leb_spec (2 ^ (w - 2)) (Z.pred (- x))); cbn; split; intros; (done || lia).
  - rewrite top_bit by (replace (w - 2 + 1) with (w - 1) by lia; lia).
    destruct (Z.leb_spec (2 ^ (w - 2)) x); cbn; split; intros; (done || lia).
Qed.

Lemma lit_int_signed x w : 0 < w -> fits x w -> lit_int (mkLiteral (x mod 2 ^ w) w) true = x.
Proof.
  intros Hw Hx. unfold lit_int, lit_neg. cbn [_value _width andb]. rewrite Z.mod_pow2_bits_low, sign_bit by (done || lia).
  unfold fits in Hx. assert (Hp : 2 ^ w = 2 * 2 ^ (w - 1)) by (rewrite <- Z.pow_succ_r by lia; f_equal; lia).
  destruct (Z.ltb_spec x 0).
  - rewrite <- (Z.mod_unique_pos x (2 ^ w) (-1) (x + 2 ^ w)); lia.
  - apply Z.mod_small. lia.
Qed.

Lemma lit_int_fits l : lit_wf l -> fits (lit_int l true) (_width l).
Proof.
  intros Hl. unfold fits. destruct (id Hl) as [[Hw _] Hv].
  assert (Hp : 2 ^ _width l = 2 * 2 ^ (_width l - 1)) by (rewrite <- Z.pow_succ_r by lia; f_equal; lia).
  unfold lit_int, lit_neg. rewrite lit_neg_spec by done. cbn. destruct (Z.leb_spec (2 ^ (_width l - 1)) (_value l)); lia.
Qed.

Lemma narrowSigned_eq fuel l u :
  lit_wf l -> 0 < u <= _width l -> (Z.to_nat u <= fuel)%nat -> fits (lit_int l true) u ->
  exists w, narrowSigned fuel (_value l) u = Ok w /\ 0 < w <= u /\ fits (lit_int l true) w /\
    (w = 1 \/ ~ fits (lit_int l true) (w - 1)).
Proof.
  intros Hl. revert u. induction fuel as [|fuel IH]; intros u Hu Hfuel Hfit; [lia|]. cbn [narrowSigned].
  destruct (Z.leb_spec 2 u) as [H2|H2]; [|exists u; repeat split; try lia; try apply Hfit; left; lia].
  destruct (id Hl) as [Hw _].
  assert (Hbit : forall i, 0 <= i < _width l -> Z.testbit (_value l) i = Z.testbit (lit_int l true) i).
  { intros i Hi. rewrite testbit_lit_int by (done || lia). by rewrite (proj2 (Z.ltb_lt i (_width l))) by lia. }
  rewrite !bit_test_eq by lia. cbn [mbind result_bind]. rewrite !Hbit by lia.
  destruct (Bool.eqb _ _) eqn:Hb.
  - apply top_bits_agree in Hb; [|done|done]. destruct (IH (u - 1)) as (w & -> & ? & ? & ?); [lia|lia|done|].
    exists w. split_and!; try done; lia.
  - exists u. split_and!; try done; try lia. right. intros Hc. apply (proj2 (top_bits_agree _ _ H2 Hfit)) in Hc. by rewrite Hb in Hc.
Qed.

(** The smallest literal that denotes the integer of [l] *)
Definition narrowest (s : bool) (l l' : Literal) : Prop :=
  lit_wf l' /\ lit_int l' s = lit_int l s /\ _width l' <= _width l /\
  forall l2, lit_wf l2 -> lit_int l2 s = lit_int l s -> _width l' <= _width l2.

Lemma NarrowLiteral_eq s l :
  lit_wf l ->
  exists changed l', NarrowLiteral s l = Ok (changed, l') /\ narrowest s l l' /\
    (if changed then _width l' < _width l else l' = l).
Proof.
  intros Hl. destruct (id Hl) as [Hw Hv]. unfold NarrowLiteral.
  assert (Hres : exists w, (if s then narrowSigned (Z.to_nat (_width l) + 1) (_value l) (_width l)
      else narrowUnsigned (_value l) (_width l)) = Ok w /\ 0 < w <= _width l /\
    lit_int (mkLiteral (_value l mod 2 ^ w) w) s = lit_int l s /\
    forall l2, lit_wf l2 -> lit_int l2 s = lit_int l s -> w <= _width l2).
  { destruct s.
    - destruct (narrowSigned_eq (Z.to_nat (_width l) + 1) l (_width l)) as (w & -> & Hww & Hf & Hmin); [done|lia|lia|by apply lit_int_fits|].
      exists w. split; [done|]. split; [done|]. split.
      + replace (_value l mod 2 ^ w) with (lit_int l true mod 2 ^ w); [apply lit_int_signed; [lia|done]|].
        unfold lit_int. destruct (lit_neg l true); [|done]. destruct (pow2_divide w (_width l)) as [q Hq]; [lia|]. rewrite Hq.
        replace (_value l - q * 2 ^ w) with (_value l + (- q) * 2 ^ w) by lia. apply Z.mod_add, Z.pow_nonzero; lia.
      + intros l2 Hl2 He. destruct Hmin as [->|Hmin]; [destruct Hl2; lia|]. destruct (Z.lt_ge_cases (_width l2) w); [|done].
        exfalso. apply Hmin. pose proof (lit_int_fits l2 Hl2) as Hf2. rewrite He in Hf2. unfold fits in *.
        pose proof (Z.pow_le_mono_r 2 (_width l2 - 1) (w - 1 - 1) ltac:(lia) ltac:(lia)). lia.
    - unfold narrowUnsigned. destruct (Z.eqb_spec (_value l) 0) as [H0|H0].
      + exists 1. rewrite H0. split; [done|]. split; [lia|]. split; [done|]. intros l2 [? _] _. lia.
      + unfold msb. rewrite (proj2 (Z.leb_gt _ _)) by lia. cbn [mbind result_bind].
        assert (Hlog : Z.log2 (_value l) < _width l) by (apply Z.log2_lt_pow2; lia). pose proof (Z.log2_nonneg (_value l)).
        rewrite Z.min_r by lia. eexists; split; [reflexivity|]. split; [lia|]. rewrite !lit_int_false. cbn [_value]. split.
        * apply Z.mod_small. split; [lia|]. apply Z.log2_lt_pow2; lia.
        * intros l2 [_ Hv2] He. rewrite lit_int_false in He. rewrite He in Hv2.
          assert (Z.log2 (_value l) < _width l2) by (apply Z.log2_lt_pow2; lia). lia. }
  destruct Hres as (w & -> & Hww & Hint & Hmin). cbn [mbind result_bind]. rewrite assert_true by (apply Z.leb_le; lia).
  cbn [mbind result_bind]. unfold narrowest. destruct (Z.eqb_spec (_width l) w) as [He|He].
  - eexists _, _; split; [reflexivity|]. split; [|done]. split_and!; try done. rewrite He. done.
  - eexists _, _; split; [reflexivity|]. split; [|cbn; lia]. rewrite shiftl_1_pow, Z.sub_1_r, <- Z.ones_equiv, Z.land_ones by lia.
    split_and!; try done; [|cbn; lia]. unfold lit_wf. cbn. split; [lia|]. apply Z.mod_pos_bound, Z.pow_pos_nonneg; lia.
Qed.

(** A literal of smallest width is left alone. *)
Lemma narrowest_fixed s l l' : narrowest s l l' -> NarrowLiteral s l' = Ok (false, l').
Proof.
  intros (Hwf & Hint & _ & Hmin). destruct (NarrowLiteral_eq s l' Hwf) as (changed & l2 & Heq & (Hwf2 & Hint2 & _) & Hc).
  rewrite Heq. destruct changed; [|by subst]. exfalso. specialize (Hmin l2 Hwf2). rewrite Hint2, Hint in Hmin. specialize (Hmin eq_refl). lia.
Qed.

(** [NarrowLiterals] on one literal returns, whatever its sign extension: the
    integer is the same, no literal that denotes it is narrower, and a literal
    is reported as changed when it became narrower. *)
Theorem NarrowLiteral_correct s l :
  lit_wf l ->
  exists changed l', NarrowLiteral s l = Ok (changed, l') /\ narrowest s l l' /\
    (if changed then _width l' < _width l else l' = l).
Proof. apply NarrowLiteral_eq. Qed.

(** The signed eight-bit [-1] becomes the one-bit literal 1. *)
Lemma NarrowLiteral_correct_witness :
  lit_wf (mkLiteral 255 8) /\
  exists changed l', NarrowLiteral true (mkLiteral 255 8) = Ok (changed, l') /\ narrowest true (mkLiteral 255 8) l' /\
    (if changed then _width l' < 8 else l' = mkLiteral 255 8).
Proof.
  assert (H : lit_wf (mkLiteral 255 8)) by (unfold lit_wf; cbn; lia). split; [exact H|].
  exact (NarrowLiteral_correct true (mkLiteral 255 8) H).
Defined.

Example NarrowLiteral_sample : NarrowLiteral true (mkLiteral 255 8) = Ok (true, mkLiteral 1 1).
Proof. vm_compute. reflexivity. Qed.

(** ** One operation *)

Lemma EvaluateEntry_ext ev ev' e : (forall i, ev i = ev' i) -> EvaluateEntry ev e = EvaluateEntry ev' e.
Proof.
  intros H. unfold EvaluateEntry. f_equal. apply foldM_ext. intros b a _. destruct (at_ (_sourceIndices e) a); cbn; [|done]. by rewrite H.
Qed.

Lemma Evaluate_ext ev ev' lut : (forall i, ev i = ev' i) -> Evaluate ev lut = Evaluate ev' lut.
Proof.
  intros H. apply foldM_ext. intros b a _. destruct (at_ _ a); cbn; [|done]. by rewrite (EvaluateEntry_ext _ _ _ H).
Qed.

(** The value of an operation depends on its sources through their integers. *)
Lemma opInt_ext program σ op op' :
  _opcode op' = _opcode op -> length (_src op') = length (_src op) ->
  (forall i, srcInt program σ op' i = srcInt program σ op i) -> opInt program σ op' = opInt program σ op.
Proof.
  intros Hop Hlen Hsrc. unfold opInt. rewrite Hop. destruct (_opcode op); try done; rewrite ?Hsrc; try done.
  - unfold selectInt. by rewrite !Hsrc, Hlen.
  - f_equal. unfold gatherInt. rewrite Hlen. apply fold_left_ext. intros b a _. by rewrite Hsrc.
  - by rewrite (Evaluate_ext _ (srcInt program σ op)).
Qed.

(** The literals of the operation are well formed. *)
Definition literals_wf (op : Operation) : Prop :=
  (length (_src op) <= 64)%nat /\ Forall (fun o => match o with SrcLiteral l => lit_wf l | _ => True end) (_src op).

Definition narrowest_operand (s : bool) (o o' : SourceOperand) : Prop :=
  match o with SrcLiteral l => exists l', o' = SrcLiteral l' /\ narrowest s l l' | _ => o' = o end.

(** Only literals change, and they are as narrow as possible. *)
Definition narrowed (op op' : Operation) : Prop :=
  _opcode op' = _opcode op /\ _signExtendSourceMask op' = _signExtendSourceMask op /\ _locations op' = _locations op /\
  _dst op' = _dst op /\ length (_src op') = length (_src op) /\
  forall i o, _src op !! i = Some o -> exists o', _src op' !! i = Some o' /\ narrowest_operand (signExtends op i) o o'.

Lemma narrowed_equivalent program op op' : narrowed op op' -> equivalent program op op'.
Proof.
  intros (Hop & Hm & _ & Hd & Hlen & Hsrc) σ. unfold opValue.
  replace (dstWidth program op') with (dstWidth program op) by (unfold dstWidth; by rewrite Hd).
  rewrite (opInt_ext program σ op op'); [done|done|done|]. intros i. unfold srcInt.
  replace (signExtends op' i) with (signExtends op i) by (unfold signExtends; by rewrite Hm).
  destruct (_src op !! i) as [o|] eqn:Ho.
  - destruct (Hsrc i o Ho) as (o' & -> & Hn). destruct o as [l| | |]; cbn in Hn; [|by subst..].
    destruct Hn as (l' & -> & _ & Hint & _). exact Hint.
  - by rewrite (lookup_ge_None_2 (_src op')) by (apply lookup_ge_None_1 in Ho; lia).
Qed.

Lemma NarrowOperand_eq op i o :
  (length (_src op) <= 64)%nat -> _src op !! i = Some o -> match o with SrcLiteral l => lit_wf l | _ => True end ->
  exists changed o', NarrowOperand op i = Ok (changed, o') /\ narrowest_operand (signExtends op i) o o' /\ (changed = false -> o' = o).
Proof.
  intros H64 Ho Hwf. pose proof (lookup_lt_Some _ _ _ Ho). unfold NarrowOperand. rewrite (at_Some _ _ _ Ho). cbn [mbind result_bind].
  destruct o as [l| | |]; try (by eexists _, _). rewrite ShouldSignExtend_eq by lia. cbn [mbind result_bind].
  destruct (NarrowLiteral_eq (signExtends op i) l Hwf) as (changed & l' & -> & Hn & Hc). cbn [mbind result_bind].
  eexists _, _; split; [reflexivity|]. split; [by exists l'|]. intros ->. by rewrite Hc.
Qed.

Lemma NarrowOperation_eq op :
  literals_wf op -> exists changed op', NarrowOperation op = Ok (changed, op') /\ narrowed op op' /\ (changed = false -> op' = op).
Proof.
  intros [H64 Hwf]. unfold NarrowOperation.
  destruct (mapM_exists (NarrowOperand op) (fun i r => exists o, _src op !! i = Some o /\
    narrowest_operand (signExtends op i) o r.2 /\ (r.1 = false -> r.2 = o)) (seq 0 (length (_src op)))) as (rs & -> & Hrs).
  { intros i Hi%elem_of_seq. destruct (lookup_lt_is_Some_2 (_src op) i) as [o Ho]; [lia|].
    destruct (NarrowOperand_eq op i o H64 Ho (Forall_lookup_1 _ _ _ _ Hwf Ho)) as (c & o' & -> & Hn & Hc).
    exists (c, o'). split; [done|]. by exists o. }
  cbn [mbind result_bind]. eexists _, _; split; [reflexivity|].
  pose proof (Forall2_length _ _ _ Hrs) as Hlen. rewrite length_seq in Hlen.
  assert (Hat : forall i o, _src op !! i = Some o -> exists c o', rs !! i = Some (c, o') /\
    narrowest_operand (signExtends op i) o o' /\ (c = false -> o' = o)).
  { intros i o Ho. pose proof (lookup_lt_Some _ _ _ Ho) as Hi. destruct (lookup_lt_is_Some_2 rs i) as [[c o'] Hr]; [lia|].
    destruct (Forall2_lookup_r _ _ _ _ _ Hrs Hr) as (j & Hj & o2 & Ho2 & Hn & Hc). apply lookup_seq in Hj as [-> _].
    cbn in *. rewrite Ho in Ho2. injection Ho2 as <-. by exists c, o'. }
  split.
  - split_and!; try done; [cbn; rewrite length_fmap; lia|]. intros i o Ho. destruct (Hat i o Ho) as (c & o' & Hr & Hn & _).
    exists o'. split; [|done]. cbn. by rewrite list_lookup_fmap, Hr.
  - intros Hc. destruct op as [oc m lo src dst]. cbn in *. f_equal. apply list_eq. intros i. rewrite list_lookup_fmap.
    destruct (src !! i) as [o|] eqn:Ho.
    + destruct (Hat i o Ho) as (c & o' & Hr & _ & Hco). rewrite Hr. cbn. f_equal. apply Hco.
      destruct c; [|done]. assert (existsb fst rs = true); [|congruence].
      apply existsb_exists. exists (true, o'). split; [|done]. apply list_elem_of_In. by eapply list_elem_of_lookup_2.
    + by rewrite (lookup_ge_None_2 rs) by (apply lookup_ge_None_1 in Ho; lia).
Qed.

(** ** A function *)

(** [P] holds of every operation of the block, and of the function. *)
Definition block_all (P : Operation -> Prop) (bb : BasicBlock) : Prop :=
  Forall P (_startConditionOperations bb) /\ Forall P (_operations bb) /\ Forall (Forall P) (_stages bb).
Definition all_operations (P : Operation -> Prop) (f : Function_) : Prop := Forall (block_all P) (_basicBlocks f).

(** The operations are related one by one. *)
Definition block_related (R : Operation -> Operation -> Prop) (bb bb' : BasicBlock) : Prop :=
  Forall2 R (_startConditionOperations bb) (_startConditionOperations bb') /\ Forall2 R (_operations bb) (_operations bb') /\
  Forall2 (Forall2 R) (_stages bb) (_stages bb').
Definition related_operations (R : Operation -> Operation -> Prop) (f f' : Function_) : Prop :=
  Forall2 (block_related R) (_basicBlocks f) (_basicBlocks f').

Lemma block_related_impl (R R' : Operation -> Operation -> Prop) bb bb' : (forall op op', R op op' -> R' op op') -> block_related R bb bb' -> block_related R' bb bb'.
Proof. intros HR (H1 & H2 & H3). split_and!; (eapply Forall2_impl; [done|]); auto. intros l l' Hl. by eapply Forall2_impl. Qed.

(** What a visit of [a] promises *)
Definition visits {A} (visit : A -> result (bool * A)) (R : A -> A -> Prop) (a : A) : Prop :=
  exists changed a', visit a = Ok (changed, a') /\ R a a' /\ (changed = false -> a' = a).

Lemma visitAll_eq {A} visit (R : A -> A -> Prop) l : Forall (visits visit R) l -> visits (visitAll visit) (Forall2 R) l.
Proof.
  intros H. unfold visits, visitAll.
  destruct (mapM_exists visit (fun a r => R a r.2 /\ (r.1 = false -> r.2 = a)) l) as (rs & -> & Hrs).
  { intros a Ha. rewrite Forall_forall in H. destruct (H a Ha) as (c & a' & -> & ? & ?). by exists (c, a'). }
  cbn [mbind result_bind]. eexists _, _; split; [reflexivity|]. split.
  - apply Forall2_fmap_r. eapply Forall2_impl; [exact Hrs|]. by intros a r [].
  - clear H. induction Hrs as [|a [c a'] l rs [_ Hc] _ IH]; [done|]. cbn. intros [-> Hex]%orb_false_iff. f_equal; auto.
Qed.

Lemma visitOperations_eq visit R bb : Forall (visits visit R) (_operations bb) ->
  visits (visitOperations visit) (fun bb bb' => bb' = with_operations bb (_operations bb') /\ Forall2 R (_operations bb) (_operations bb')) bb.
Proof.
  intros (c & ops & Heq & HR & Hc)%visitAll_eq. exists c, (with_operations bb ops). unfold visitOperations. rewrite Heq. split; [done|].
  split; [done|]. intros H. rewrite (Hc H). by destruct bb.
Qed.

Lemma ForEachOperationForward_visits visit R bb : block_all (visits visit R) bb -> visits (ForEachOperationForward visit) (block_related R) bb.
Proof.
  intros (H1 & H2 & H3). apply visitAll_eq in H1 as (c1 & l1 & E1 & R1 & C1). apply visitAll_eq in H2 as (c2 & l2 & E2 & R2 & C2).
  assert (H3' : Forall (visits (visitAll visit) (Forall2 R)) (_stages bb)) by (eapply Forall_impl; [exact H3|]; intros l; apply visitAll_eq).
  apply visitAll_eq in H3' as (c3 & l3 & E3 & R3 & C3). eexists _, (mkBasicBlock l1 l2 l3). unfold ForEachOperationForward. rewrite E1, E2, E3.
  split; [reflexivity|]. split; [done|]. intros [[->  ->]%orb_false_iff ->]%orb_false_iff. rewrite C1, C2, C3 by done. by destruct bb.
Qed.

Lemma visitFunction_eq visit R f : Forall (visits visit R) (_basicBlocks f) ->
  visits (visitFunction visit) (fun f f' => Forall2 R (_basicBlocks f) (_basicBlocks f')) f.
Proof.
  intros (c & bbs & Heq & HR & Hc)%visitAll_eq. exists c, (mkFunction bbs). unfold visitFunction. rewrite Heq. split; [done|].
  split; [done|]. intros H. rewrite (Hc H). by destruct f.
Qed.

Lemma visitForward_eq visit R f : all_operations (visits visit R) f -> visits (visitFunction (ForEachOperationForward visit)) (related_operations R) f.
Proof. intros H. apply visitFunction_eq. eapply Forall_impl; [exact H|]. intros bb. apply ForEachOperationForward_visits. Qed.

Lemma existsb_fst_false {A B} (g : A -> B) l : existsb fst ((fun a => (false, g a)) <$> l) = false.
Proof. induction l; cbn; auto. Qed.

(** A pass that changes nothing *)
Lemma visitAll_fixed {A} (visit : A -> result (bool * A)) l : Forall (fun a => visit a = Ok (false, a)) l -> visitAll visit l = Ok (false, l).
Proof.
  rewrite Forall_forall. intros H. unfold visitAll. rewrite (mapM_Ok _ (fun a => (false, a))) by done. cbn [mbind result_bind]. rewrite existsb_fst_false.
  rewrite <- list_fmap_compose. do 2 f_equal. rewrite <- (list_fmap_id l) at 2. by apply list_fmap_ext.
Qed.

Lemma visitForward_fixed visit f :
  all_operations (fun op => visit op = Ok (false, op)) f -> visitFunction (ForEachOperationForward visit) f = Ok (false, f).
Proof.
  intros H. unfold visitFunction. rewrite visitAll_fixed; [by destruct f|]. eapply Forall_impl; [exact H|]. intros bb (H1 & H2 & H3).
  unfold ForEachOperationForward. rewrite !visitAll_fixed; [by destruct bb|..]; try done. eapply Forall_impl; [exact H3|]. intros l. apply visitAll_fixed.
Qed.

Lemma NarrowOperation_fixed op op' : literals_wf op -> narrowed op op' -> NarrowOperation op' = Ok (false, op').
Proof.
  intros [H64 Hwf] (_ & Hm & _ & _ & Hlen & Hsrc). unfold NarrowOperation.
  assert (Hm2 : mapM_ (NarrowOperand op') (seq 0 (length (_src op'))) = Ok ((fun o => (false, o)) <$> _src op')).
  { apply mapM_Forall2, Forall2_same_length_lookup_2; [by rewrite length_fmap, length_seq|].
    intros i j r Hj Hr. apply lookup_seq in Hj as [-> Hi]. apply list_lookup_fmap_Some in Hr as (o' & -> & Ho').
    destruct (lookup_lt_is_Some_2 (_src op) i) as [o Ho]; [lia|]. destruct (Hsrc i o Ho) as (o2 & Ho2 & Hn).
    rewrite Ho' in Ho2. injection Ho2 as <-. unfold NarrowOperand. cbn [plus]. rewrite (at_Some _ _ _ Ho'). cbn [mbind result_bind].
    destruct o' as [l'| | |]; try done. rewrite ShouldSignExtend_eq by lia. cbn [mbind result_bind].
    destruct o as [l| | |]; cbn in Hn; try done. destruct Hn as (l2 & [= <-] & Hn).
    replace (signExtends op' i) with (signExtends op i) by (unfold signExtends; by rewrite Hm).
    by rewrite (narrowest_fixed _ _ _ Hn). }
  rewrite Hm2. cbn [mbind result_bind]. rewrite existsb_fst_false. destruct op' as [oc m lo src dst]. cbn. do 3 f_equal.
  rewrite <- list_fmap_compose. rewrite <- (list_fmap_id src) at 2. by apply list_fmap_ext.
Qed.

(** C24: [NarrowLiterals] returns; every operation of the function keeps its
    opcode, operands other than literals, destinations, locations and value;
    its literals are as narrow as possible; a second run changes nothing. *)
Theorem NarrowLiterals_correct f :
  all_operations literals_wf f ->
  exists changed f', NarrowLiterals f = Ok (changed, f') /\ related_operations narrowed f f' /\
    (forall program, related_operations (equivalent program) f f') /\ (changed = false -> f' = f) /\
    NarrowLiterals f' = Ok (false, f').
Proof.
  intros H. set (R := fun op op' => literals_wf op /\ narrowed op op').
  assert (Hv : all_operations (visits NarrowOperation R) f).
  { eapply Forall_impl; [exact H|]. assert (Hop : forall op, literals_wf op -> visits NarrowOperation R op).
    { intros op Hop. destruct (NarrowOperation_eq op Hop) as (c & op' & ? & ? & ?). by exists c, op'. }
    intros bb (H1 & H2 & H3). split_and!; (eapply Forall_impl; [done|]); auto. intros l Hl. by eapply Forall_impl. }
  apply visitForward_eq in Hv as (c & f' & Heq & Hrel & Hc). exists c, f'. split; [done|].
  assert (Hrel' : forall R', (forall op op', R op op' -> R' op op') -> related_operations R' f f').
  { intros R' HR. eapply Forall2_impl; [exact Hrel|]. intros bb bb'. by apply block_related_impl. }
  split; [apply Hrel'; by intros op op' []|]. split; [intros program; apply Hrel'; intros op op' [_ ?]; by apply narrowed_equivalent|]. split; [done|].
  apply visitForward_fixed. assert (Hfix : forall l l', Forall2 R l l' -> Forall (fun op' => NarrowOperation op' = Ok (false, op')) l').
  { intros l l'. induction 1 as [|op op' l l' [Hwf Hn] _ IH]; constructor; [by apply (NarrowOperation_fixed op)|done]. }
  clear -Hrel Hfix. unfold all_operations. induction Hrel as [|bb bb' bbs bbs' (H1 & H2 & H3) _ IH]; constructor; [|done].
  split_and!; [by eapply Hfix..|]. clear -H3 Hfix. induction H3; constructor; [by eapply Hfix|done].
Qed.

End AlgebraicNarrow.
