(* ===== verification/AlgebraicPasses.v ===== *)
(** * The passes over a function

    [GatherToMove] preserves the value of every operation of the function,
    [AlgebraicIdentities] with the exceptions of [rewritten]; the samples of the
    passes of [Algebraic]. *)

From S2P Require Import Prelude MachineInt Literals Ir LutFacts Semantics Algebraic AlgebraicFacts AlgebraicCorrect.
From S2P Require Import AlgebraicSelect AlgebraicNarrow.
Import MachineInt Literals Ir LutFacts Semantics LutConst.
Import Algebraic AlgebraicFacts AlgebraicCorrect AlgebraicSelect AlgebraicNarrow.

Module AlgebraicPasses.

(** [w = b ^ 15], whose four high bits come out set *)
Definition sample_xor_ones : Operation := mkOperation (BinaryOp ParseTreeBinaryOpTypeXor) 0 ∅ [sample_reg 1; sample_lit 15 4] [sample_dst 4].

(** An identity, an exception, a literal that is narrowed, a selection *)
Definition sample_function : Function_ :=
  mkFunction [mkBasicBlock [] [sample_and_ones; sample_xor_ones; sample_sub] []; mkBasicBlock [sample_and_ones] [sample_select] [[sample_sub]]].

Lemma NarrowLiterals_correct_witness :
  all_operations literals_wf sample_function /\
  exists changed f', NarrowLiterals sample_function = Ok (changed, f') /\ related_operations narrowed sample_function f' /\
    (forall program, related_operations (equivalent program) sample_function f') /\ (changed = false -> f' = sample_function) /\
    NarrowLiterals f' = Ok (false, f').
Proof.
  assert (H : all_operations literals_wf sample_function).
  { repeat constructor; cbn; try exact I; lia. }
  split; [exact H|]. exact (NarrowLiterals_correct sample_function H).
Defined.

(** ** [AlgebraicIdentities] *)

(** What the pass asserts of a binary operation, and selections among a power of
    two of choices by an index that can address them all, no wider when every
    choice is a literal ([selection_wf]) *)
Definition identities_wf (program : Program) (op : Operation) : Prop :=
  match _opcode op with
  | BinaryOp t => op_wf program op /\ length (_src op) = 2%nat /\ lowered_op t = true
  | Select => op_wf program op /\ exists nib, selection_wf program op nib
  | _ => True
  end.

(** The destination, the locations and, but for the exceptions, the value *)
Definition keeps (R : Operation -> Operation -> Prop) (op op' : Operation) : Prop :=
  _dst op' = _dst op /\ _locations op' = _locations op /\ R op op'.

Lemma OperationIdentities_eq program op :
  identities_wf program op -> visits (OperationIdentities program) (keeps (rewritten program)) op.
Proof.
  assert (Hid : exists changed op', Ok (false, op) = Ok (changed, op') /\ keeps (rewritten program) op op' /\ (changed = false -> op' = op)).
  { exists false, op. split; [done|]. split; [|done]. split_and!; [done..|by apply rewritten_same]. }
  unfold visits, identities_wf, OperationIdentities. destruct (_opcode op) eqn:Hop; try done.
  - intros (Hwf & Hlen & Ht). destruct (id Hwf) as [_ _ _ (d & w & _ & Hw & _)].
    destruct (BinaryOpAlgebraicIdentities_eq program op _binaryOpType w Hwf Hop Hlen Hw Ht) as ([c op'] & -> & _ & ? & ? & ? & ?). by exists c, op'.
  - intros (Hwf & nib & Hsel). destruct (id Hwf) as [_ _ _ (d & w & _ & Hw & Hb)].
    destruct (SelectAlgebraicIdentities_eq program op nib w Hwf Hop Hsel Hw Hb) as ([c op'] & -> & _ & ? & ? & ? & ?).
    exists c, op'. split; [done|]. split; [|done]. split_and!; [done..|by apply rewritten_same].
Qed.

(** C23: [AlgebraicIdentities] returns, changes only the operations of the blocks,
    and every operation keeps its destination and its locations; its value is the
    same except in the three cases of [rewritten], where it is the stated other
    one: an exclusive or of unsigned sources with ones as wide as the other
    source but narrower than the destination sets the bits above the ones, a
    product by the sign-extended one-bit literal 1, which is -1, is not negated,
    and a shift by a literal that denotes a negative amount can become 0.  When
    the pass reports no change the function is the same. *)
Theorem AlgebraicIdentities_correct program f :
  Forall (fun bb => Forall (identities_wf program) (_operations bb)) (_basicBlocks f) ->
  exists changed f', AlgebraicIdentities program f = Ok (changed, f') /\
    Forall2 (fun bb bb' => bb' = with_operations bb (_operations bb') /\ Forall2 (keeps (rewritten program)) (_operations bb) (_operations bb'))
      (_basicBlocks f) (_basicBlocks f') /\
    (changed = false -> f' = f).
Proof.
  intros H. apply visitFunction_eq. eapply Forall_impl; [exact H|]. intros bb Hbb. apply visitOperations_eq.
  eapply Forall_impl; [exact Hbb|]. intros op. apply OperationIdentities_eq.
Qed.

Lemma sample_identities_wf : Forall (fun bb => Forall (identities_wf sample_program) (_operations bb)) (_basicBlocks sample_function).
Proof.
  assert (Hbin : forall t, lowered_op t = true -> identities_wf sample_program (mkOperation (BinaryOp t) 0 ∅ [sample_reg 1; sample_lit 15 4] [sample_dst 4])).
  { intros t Ht. split; [apply (sample_binop_wf _ _ _ _ _ 8); [reflexivity|lia|lia|lia|lia]|done]. }
  assert (Hsub : identities_wf sample_program sample_sub).
  { split; [|done]. constructor; [repeat constructor; cbn; lia|cbn; lia|cbn; lia|]. exists (sample_dst 4), 8. repeat split; lia. }
  assert (Hsel : identities_wf sample_program sample_select).
  { destruct sample_select_wf as [Hwf Hs]. split; [exact Hwf|]. by exists 2%nat. }
  constructor; [|constructor; [|done]].
  - constructor; [by apply (Hbin ParseTreeBinaryOpTypeAnd)|]. constructor; [by apply (Hbin ParseTreeBinaryOpTypeXor)|]. by constructor.
  - by constructor.
Qed.

Lemma AlgebraicIdentities_correct_witness :
  Forall (fun bb => Forall (identities_wf sample_program) (_operations bb)) (_basicBlocks sample_function) /\
  exists changed f', AlgebraicIdentities sample_program sample_function = Ok (changed, f') /\
    Forall2 (fun bb bb' => bb' = with_operations bb (_operations bb') /\ Forall2 (keeps (rewritten sample_program)) (_operations bb) (_operations bb'))
      (_basicBlocks sample_function) (_basicBlocks f') /\
    (changed = false -> f' = sample_function).
Proof.
  split; [exact sample_identities_wf|].
  exact (AlgebraicIdentities_correct sample_program sample_function sample_identities_wf).
Defined.

(** ** [GatherToMove] *)

Definition gather_ok (program : Program) (op : Operation) : Prop :=
  match _opcode op with
  | Gather entries => op_wf program op /\ length entries = length (_src op)
  | _ => True
  end.

(** The operands as well, and the value without exception *)
Definition keeps_operands (program : Program) (op op' : Operation) : Prop := keeps (equivalent program) op op' /\ _src op' = _src op.

Lemma GatherOperationToMove_eq program op : gather_ok program op -> visits (GatherOperationToMove program) (keeps_operands program) op.
Proof.
  assert (Hid : exists changed op', Ok (false, op) = Ok (changed, op') /\ keeps_operands program op op' /\ (changed = false -> op' = op)) by (exists false, op; by split_and!).
  unfold visits, gather_ok, GatherOperationToMove. destruct (_opcode op) eqn:Hop; try done. intros (Hwf & Hlen).
  destruct (Nat.eqb_spec (length (_src op)) 1) as [H1|]; [|done].
  destruct (id Hwf) as [Hsrc _ _ (d & w & Hd & Hw & Hwb)]. rewrite Hd, Hlen, H1. cbn [length Nat.eqb assert_ mbind result_bind].
  destruct _entries as [|ge [|? ?]]; [cbn in Hlen; lia| |cbn in Hlen; lia]. change (at_ [ge] 0) with (Ok ge). cbn [mbind result_bind].
  destruct (_ && _) eqn:Hoff; [|done]. bool_to_prop.
  destruct (lookup_lt_is_Some_2 (_src op) 0) as [o Ho]; [lia|]. rewrite (at_Some _ _ _ Ho). cbn [mbind result_bind].
  destruct (operand_width program op 0 o Hwf Ho) as (w0 & -> & _). cbn [mbind result_bind]. rewrite Hw. cbn [mbind result_bind].
  destruct (_ && _) eqn:Hbits; [|done]. bool_to_prop. eexists _, _; split; [reflexivity|]. split; [|done]. split; [|done].
  split_and!; [by rewrite <- Hd|done|]. intros σ. unfold opValue. replace (dstWidth program (mkOperation Mov _ _ _ _)) with (dstWidth program op) by (unfold dstWidth; by rewrite ?Hd).
  rewrite Hw. unfold opInt. rewrite Hop. cbn [_opcode]. unfold gatherInt. rewrite H1. cbn [seq zip zip_with fold_left fst snd mbind option_bind].
  f_equal. destruct ge as [so do nb]. cbn [_sourceOffset _destOffset _numBits] in *. subst so do nb.
  replace w0 with w by lia. rewrite Z.shiftr_0_r, Z.shiftl_0_r, Z.lor_0_l, Zmod_mod. done.
Qed.

(** [GatherToMove] returns and preserves the operands, the destination, the
    locations and the value of every operation of the function. *)
Theorem GatherToMove_correct program f :
  all_operations (gather_ok program) f ->
  exists changed f', GatherToMove program f = Ok (changed, f') /\
    related_operations (keeps_operands program) f f' /\ (changed = false -> f' = f).
Proof.
  intros H. apply visitForward_eq. eapply Forall_impl; [exact H|]. intros bb (H1 & H2 & H3). pose proof (GatherOperationToMove_eq program) as Hop.
  split_and!; (eapply Forall_impl; [done|]); auto. intros l Hl. by eapply Forall_impl.
Qed.

(** [b] gathered whole into [a] *)
Definition sample_gather_function : Function_ :=
  mkFunction [mkBasicBlock [] [mkOperation (Gather [mkGatherEntry 0 0 4]) 0 ∅ [sample_reg 1] [sample_dst 0]] []].

Lemma GatherToMove_correct_witness :
  all_operations (gather_ok sample_program) sample_gather_function /\
  exists changed f', GatherToMove sample_program sample_gather_function = Ok (changed, f') /\
    related_operations (keeps_operands sample_program) sample_gather_function f' /\
    (changed = false -> f' = sample_gather_function).
Proof.
  assert (H : all_operations (gather_ok sample_program) sample_gather_function).
  { constructor; [|constructor]. split; [done|]. split; [|done]. constructor; [|constructor]. split; [|reflexivity]. constructor; [|cbn; lia|cbn; lia|].
    - constructor; [|constructor]. eexists; split; [reflexivity|cbn; lia].
    - exists (sample_dst 0), 4. repeat split; lia. }
  split; [exact H|]. exact (GatherToMove_correct sample_program sample_gather_function H).
Defined.

Example GatherToMove_sample :
  GatherToMove sample_program sample_gather_function
  = Ok (true, mkFunction [mkBasicBlock [] [mkOperation Mov 0 ∅ [sample_reg 1] [sample_dst 0]] []]).
Proof. vm_compute. reflexivity. Qed.

End AlgebraicPasses.
