(* ===== verification/CompressedVector.v ===== *)
(** * Compressed integer vectors

    [branch_and_bound.cpp], [branch_and_bound.h]: [CompressedIntegerVector],
    which packs values of known ranges into 64-bit words, and
    [IntegerParameterVector], a vector some of whose elements are defined.

    [_codeBook] is a pointer to a code book that nobody changes: here the code
    book itself, or nothing for the default constructor. *)

From S2P Require Import Prelude MachineInt.
Import MachineInt.

Module CompressedVector.

Record CodeBookEntry : Type := mkCodeBookEntry {
  _wordIndex : nat; _shift : Z; _mask : Z; _upperBound : Z; _isConstantZero : bool }.

Record CodeBook : Type := mkCodeBook { _numWords : nat; _entries : list CodeBookEntry }.

Definition bitsPerWord : Z := 64.

(** One range: the code book and the number of bits left in its last word *)
Definition addRange (st : CodeBook * Z) (range : Z) : result (CodeBook * Z) :=
  let '(book, bitsRemaining) := st in
  assert_ (0 <? range);;
  bitCount ← Log2RoundUp range;
  let newWord := bitsRemaining <? bitCount in
  let numWords := if newWord then S (_numWords book) else _numWords book in
  let bitsRemaining := if newWord then bitsPerWord else bitsRemaining in
  assert_ ((bitCount =? 0) || (0 <? numWords)%nat);;
  let shift := u64_sub bitsPerWord bitsRemaining in
  let cbe := if bitCount =? 0 then mkCodeBookEntry 0 0 0 range true
             else mkCodeBookEntry (numWords - 1) shift (u64_shl (u64_sub (u64_shl 1 bitCount) 1) shift) range false in
  assert_ (bitCount <=? bitsRemaining);;
  Ok (mkCodeBook numWords (_entries book ++ [cbe]), u64_sub bitsRemaining bitCount).

Definition CreateCodeBook (ranges : list Z) : result CodeBook :=
  r ← foldM addRange ranges (mkCodeBook 0 [], 0); Ok r.1.

Record CompressedIntegerVector : Type := mkCompressedIntegerVector { _codeBook : option CodeBook; _words : list Z }.

(** The default constructor and [CompressedIntegerVector(codeBook)] *)
Definition CompressedIntegerVector_empty : CompressedIntegerVector := mkCompressedIntegerVector None [].
Definition CompressedIntegerVector_of (codeBook : CodeBook) : CompressedIntegerVector :=
  mkCompressedIntegerVector (Some codeBook) (replicate (_numWords codeBook) 0).

Definition GetCodeBookEntry (v : CompressedIntegerVector) (index : nat) : result CodeBookEntry :=
  codeBook ← of_option AssertionFailed (_codeBook v);
  assert_ (index <? length (_entries codeBook))%nat;;
  at_ (_entries codeBook) index.

(** [word &= ~mask; word |= value << shift] *)
Definition writeField (cbe : CodeBookEntry) (word value : Z) : Z :=
  Z.lor (Z.land word (u64 (Z.lnot (_mask cbe)))) (u64_shl value (_shift cbe)).

Definition readField (cbe : CodeBookEntry) (word : Z) : Z := Z.shiftr (Z.land word (_mask cbe)) (_shift cbe).

Definition Set_ (v : CompressedIntegerVector) (index : nat) (value : Z) : result CompressedIntegerVector :=
  cbe ← GetCodeBookEntry v index;
  assert_ (value <? _upperBound cbe);;
  if negb (_isConstantZero cbe) then
    word ← at_ (_words v) (_wordIndex cbe);
    Ok (mkCompressedIntegerVector (_codeBook v) (<[_wordIndex cbe := writeField cbe word value]> (_words v)))
  else Ok v.

Definition Get (v : CompressedIntegerVector) (index : nat) : result Z :=
  cbe ← GetCodeBookEntry v index;
  if _isConstantZero cbe then Ok 0
  else word ← at_ (_words v) (_wordIndex cbe); Ok (readField cbe word).

(** ** [IntegerParameterVector] *)

Record IntegerParameterVector : Type := mkIntegerParameterVector { _data : CompressedIntegerVector; _valid : list bool }.

Definition IntegerParameterVector_empty : IntegerParameterVector := mkIntegerParameterVector CompressedIntegerVector_empty [].
Definition IntegerParameterVector_of (codeBook : CodeBook) : IntegerParameterVector :=
  mkIntegerParameterVector (CompressedIntegerVector_of codeBook) (replicate (length (_entries codeBook)) false).

Definition IsParameterDefined (p : IntegerParameterVector) (paramIndex : nat) : result bool :=
  assert_ (paramIndex <? length (_valid p))%nat;; at_ (_valid p) paramIndex.

Definition GetParameter (p : IntegerParameterVector) (paramIndex : nat) : result Z :=
  assert_ (paramIndex <? length (_valid p))%nat;;
  valid ← at_ (_valid p) paramIndex;
  assert_ valid;;
  Get (_data p) paramIndex.

Definition GetParameterCount (p : IntegerParameterVector) : nat := length (_valid p).

Definition SetParameter (p : IntegerParameterVector) (paramIndex : nat) (value : Z) : result IntegerParameterVector :=
  assert_ (paramIndex <? length (_valid p))%nat;;
  data ← Set_ (_data p) paramIndex value;
  Ok (mkIntegerParameterVector data (<[paramIndex := true]> (_valid p))).

Definition AllDefined (p : IntegerParameterVector) : bool := forallb id (_valid p).

(** ** The layout of a code book *)

Definition bitCount_ (e : CodeBookEntry) : Z := Z.log2_up (_upperBound e).

(** An entry describes a field of a word. *)
Definition field_wf (numWords : nat) (e : CodeBookEntry) : Prop :=
  0 < _upperBound e <= 2 ^ 63 /\ (_isConstantZero e = true <-> _upperBound e = 1) /\
  (_isConstantZero e = false ->
     (_wordIndex e < numWords)%nat /\ 0 < bitCount_ e /\ 0 <= _shift e /\ _shift e + bitCount_ e <= 64 /\
     _mask e = Z.shiftl (Z.ones (bitCount_ e)) (_shift e)).

(** Two fields of one word do not overlap. *)
Definition apart (e e' : CodeBookEntry) : Prop :=
  _isConstantZero e = false -> _isConstantZero e' = false -> _wordIndex e = _wordIndex e' ->
  _shift e + bitCount_ e <= _shift e' \/ _shift e' + bitCount_ e' <= _shift e.

Definition book_wf (ranges : list Z) (b : CodeBook) : Prop :=
  _upperBound <$> _entries b = ranges /\ Forall (field_wf (_numWords b)) (_entries b) /\
  forall i j e e', i <> j -> _entries b !! i = Some e -> _entries b !! j = Some e' -> apart e e'.

Lemma bitCount_fits e : 0 < _upperBound e -> _upperBound e <= 2 ^ bitCount_ e.
Proof.
  intros H. unfold bitCount_. destruct (Z.eq_dec (_upperBound e) 1) as [->|]; [done|].
  apply Z.log2_up_spec. lia.
Qed.

(** What is left of the last word is free. *)
Definition free_above (book : CodeBook) (bitsRemaining : Z) : Prop :=
  0 <= bitsRemaining <= 64 /\ (_numWords book = 0%nat -> bitsRemaining = 0) /\
  Forall (fun e => _isConstantZero e = false -> _wordIndex e = (_numWords book - 1)%nat ->
                   _shift e + bitCount_ e <= 64 - bitsRemaining) (_entries book).

Lemma field_wf_mono n n' e : (n <= n')%nat -> field_wf n e -> field_wf n' e.
Proof. intros Hn (H1 & H2 & H3). split; [done|]. split; [done|]. intros H. destruct (H3 H). split; [lia|done]. Qed.

Lemma apart_sym e e' : apart e e' -> apart e' e.
Proof. unfold apart. intros H H1 H2 H3. destruct (H H2 H1 (eq_sym H3)); [by right|by left]. Qed.

Lemma mask_eq b s : 0 <= b < 64 -> 0 <= s -> s + b <= 64 ->
  u64_shl (u64_sub (u64_shl 1 b) 1) s = Z.shiftl (Z.ones b) s.
Proof.
  intros Hb Hs Hsb. change 1 with (Z.b2z true) at 1. rewrite u64_shl_bit, shiftl_1_pow by lia.
  pose proof (Z.pow_pos_nonneg 2 b ltac:(lia) ltac:(lia)). pose proof (Z.pow_lt_mono_r 2 b 64 ltac:(lia) ltac:(lia) ltac:(lia)).
  unfold u64_sub. rewrite u64_small by (unfold is_u64; lia). rewrite Z.sub_1_r, <- Z.ones_equiv.
  unfold u64_shl. apply u64_small. unfold is_u64. rewrite Z.shiftl_mul_pow2, Z.ones_equiv by lia.
  pose proof (Z.pow_pos_nonneg 2 s ltac:(lia) ltac:(lia)).
  assert (2 ^ b * 2 ^ s <= 2 ^ 64) by (rewrite <- Z.pow_add_r by lia; apply Z.pow_le_mono_r; lia). nia.
Qed.

Lemma addRange_eq ranges book rem range :
  book_wf ranges book -> free_above book rem -> 0 < range <= 2 ^ 63 ->
  exists book' rem', addRange (book, rem) range = Ok (book', rem') /\ book_wf (ranges ++ [range]) book' /\ free_above book' rem'.
Proof.
  intros (Hub & Hfields & Hap) (Hrem & H0 & Hfree) Hr. unfold addRange.
  rewrite assert_true by (apply Z.ltb_lt; lia). cbn [mbind result_bind]. rewrite Log2RoundUp_eq by lia. cbn [mbind result_bind].
  set (b := Z.log2_up range). assert (Hb0 : 0 <= b) by apply Z.log2_up_nonneg.
  assert (Hb63 : b <= 63) by (apply Z.log2_up_le_pow2; lia).
  assert (Hb1 : b = 0 <-> range = 1).
  { unfold b. destruct (Z.eq_dec range 1) as [->|]; [done|]. pose proof (Z.log2_up_pos range). lia. }
  set (n' := if rem <? b then S (_numWords book) else _numWords book).
  set (rem1 := if rem <? b then bitsPerWord else rem).
  assert (Hrem1 : b <= rem1 <= 64) by (unfold rem1, bitsPerWord; destruct (Z.ltb_spec rem b); lia).
  assert (Hn' : b <> 0 -> (0 < n')%nat).
  { intros Hb. unfold n'. destruct (Z.ltb_spec rem b); [lia|]. destruct (_numWords book); [specialize (H0 eq_refl)|]; lia. }
  rewrite (assert_true ((b =? 0) || (0 <? n')%nat)).
  2: { destruct (Z.eqb_spec b 0); [done|]. apply Nat.ltb_lt. auto. }
  cbn [mbind result_bind]. rewrite (assert_true (b <=? rem1)) by (apply Z.leb_le; lia). cbn [mbind result_bind].
  replace (u64_sub rem1 b) with (rem1 - b) by (symmetry; apply u64_small; unfold is_u64; lia).
  assert (Hshift : u64_sub bitsPerWord rem1 = 64 - rem1) by (unfold u64_sub, bitsPerWord; apply u64_small; unfold is_u64; lia).
  rewrite Hshift. set (cbe := if b =? 0 then _ else _).
  assert (Hold : Forall (fun e => _isConstantZero e = false -> _wordIndex e = (n' - 1)%nat -> _shift e + bitCount_ e <= 64 - rem1) (_entries book)).
  { apply Forall_forall. intros e He Hz Hw. rewrite Forall_forall in Hfree, Hfields. specialize (Hfree e He Hz).
    destruct (Hfields e He) as (_ & _ & Hf). destruct (Hf Hz) as (Hwi & _). unfold n', rem1 in *.
    destruct (Z.ltb_spec rem b); [lia|]. by apply Hfree. }
  assert (Hcz : _isConstantZero cbe = (b =? 0)) by (unfold cbe; by destruct (b =? 0)).
  assert (Hcu : _upperBound cbe = range) by (unfold cbe; by destruct (b =? 0)).
  assert (Hnz : _isConstantZero cbe = false -> _wordIndex cbe = (n' - 1)%nat /\ _shift cbe = 64 - rem1 /\ 0 < b /\ bitCount_ cbe = b).
  { intros Hz. rewrite Hcz in Hz. unfold bitCount_. rewrite Hcu. unfold cbe. rewrite Hz. bool_to_prop. cbn. split_and!; try done. lia. }
  eexists _, _; split; [reflexivity|]. split.
  - split; [cbn; rewrite fmap_app, Hub; cbn; by rewrite Hcu|]. split.
    + cbn. apply Forall_app. split.
      * eapply Forall_impl; [exact Hfields|]. intros e. apply field_wf_mono. unfold n'. destruct (rem <? b); lia.
      * constructor; [|constructor]. split; [by rewrite Hcu|]. split; [rewrite Hcz, Z.eqb_eq, Hcu; apply Hb1|].
        intros Hz. destruct (Hnz Hz) as (-> & -> & Hb & ->). split; [pose proof (Hn' ltac:(lia)); lia|]. split; [done|].
        split; [lia|]. split; [lia|]. unfold cbe. rewrite <- Hcz, Hz. cbn. apply mask_eq; lia.
    + assert (Hnew : forall i e, _entries book !! i = Some e -> apart e cbe).
      { intros i e He Hz Hz' Hw. left. destruct (Hnz Hz') as (Hwi & -> & _). rewrite Forall_forall in Hold.
        apply Hold; [by eapply list_elem_of_lookup_2|done|congruence]. }
      cbn. intros i j e e' Hij He He'.
      apply lookup_app_Some in He as [He|[Hi He]]; apply lookup_app_Some in He' as [He'|[Hj He']].
      * by apply (Hap i j).
      * apply list_lookup_singleton_Some in He' as [_ <-]. by apply (Hnew i).
      * apply list_lookup_singleton_Some in He as [_ <-]. by apply apart_sym, (Hnew j).
      * apply list_lookup_singleton_Some in He as [? _]. apply list_lookup_singleton_Some in He' as [? _]. lia.
  - split; [lia|]. split.
    + cbn. intros Hn. unfold rem1, n' in *. destruct (Z.ltb_spec rem b); [done|]. specialize (H0 Hn). lia.
    + cbn. apply Forall_app. split.
      * eapply Forall_impl; [exact Hold|]. intros e Ho Hz Hw. specialize (Ho Hz Hw). lia.
      * constructor; [|constructor]. intros Hz _. destruct (Hnz Hz) as (_ & -> & _ & ->). lia.
Qed.

Lemma CreateCodeBook_eq ranges :
  Forall (fun r => 0 < r <= 2 ^ 63) ranges -> exists book, CreateCodeBook ranges = Ok book /\ book_wf ranges book.
Proof.
  intros H. unfold CreateCodeBook.
  assert (Hgen : forall rs pre book rem, Forall (fun r => 0 < r <= 2 ^ 63) rs -> book_wf pre book -> free_above book rem ->
    exists book' rem', foldM addRange rs (book, rem) = Ok (book', rem') /\ book_wf (pre ++ rs) book').
  { induction rs as [|r rs IH]; intros pre book rem Hrs Hb Hf.
    - exists book, rem. by rewrite app_nil_r.
    - inversion_clear Hrs as [|?? Hr Hrs']. destruct (addRange_eq pre book rem r Hb Hf Hr) as (b1 & rem1 & Heq & Hb1 & Hf1).
      destruct (IH (pre ++ [r]) b1 rem1 Hrs' Hb1 Hf1) as (b2 & rem2 & Heq2 & Hb2).
      exists b2, rem2. cbn [foldM]. rewrite Heq. cbn [mbind result_bind]. by rewrite <- app_assoc in Hb2. }
  destruct (Hgen ranges [] (mkCodeBook 0 []) 0 H) as (book & rem & -> & Hb).
  - split; [done|]. split; [constructor|]. intros i j e e' _ He. done.
  - split; [lia|]. split; [done|constructor].
  - exists book. by split.
Qed.

(** ** Fields of a word *)

Section Fields.
Context (n : nat) (e : CodeBookEntry) (He : field_wf n e) (Hz : _isConstantZero e = false).

Let b := bitCount_ e.
Let s := _shift e.

Lemma testbit_mask k : 0 <= k -> Z.testbit (_mask e) k = (s <=? k) && (k <? s + b).
Proof.
  intros Hk. destruct He as (_ & _ & Hf). destruct (Hf Hz) as (_ & Hb & Hs & Hsb & ->). fold b s in Hb, Hs, Hsb |- *.
  rewrite Z.shiftl_spec by done. destruct (Z.leb_spec s k); [|by rewrite Z.testbit_neg_r by lia].
  destruct (Z.ltb_spec k (s + b)); [by rewrite Z.ones_spec_low by lia|by rewrite Z.ones_spec_high by lia].
Qed.

Lemma testbit_writeField word v k :
  0 <= v < 2 ^ b -> is_u64 word -> 0 <= k ->
  Z.testbit (writeField e word v) k = if (s <=? k) && (k <? s + b) then Z.testbit v (k - s) else Z.testbit word k.
Proof.
  intros Hv Hw Hk. destruct He as (_ & _ & Hf). destruct (Hf Hz) as (_ & Hb & Hs & Hsb & _). fold b s in Hb, Hs, Hsb.
  unfold writeField. rewrite Z.lor_spec, Z.land_spec. unfold u64_shl, u64. fold s.
  assert (Hvb : forall j, b <= j -> Z.testbit v j = false) by (intros; by apply (testbit_high b)).
  destruct (Z.lt_ge_cases k 64) as [Hk64|Hk64].
  - rewrite !Z.mod_pow2_bits_low by lia. rewrite Z.lnot_spec, testbit_mask, Z.shiftl_spec by lia.
    destruct (Z.leb_spec s k), (Z.ltb_spec k (s + b)); cbn [andb negb].
    + by rewrite andb_false_r.
    + by rewrite andb_true_r, Hvb, orb_false_r by lia.
    + by rewrite andb_true_r, (Z.testbit_neg_r v), orb_false_r by lia.
    + by rewrite andb_true_r, Hvb, orb_false_r by lia.
  - rewrite !Z.mod_pow2_bits_high by lia. rewrite andb_false_r, (proj2 (Z.ltb_ge k (s + b))), andb_false_r by lia.
    symmetry. apply (testbit_high 64); [exact Hw|done].
Qed.

Lemma writeField_u64 word v : 0 <= v < 2 ^ b -> is_u64 word -> is_u64 (writeField e word v).
Proof.
  intros Hv Hw. unfold writeField, is_u64. apply lor_bound; [|apply u64_range].
  assert (Hn : 0 <= Z.land word (u64 (Z.lnot (_mask e)))) by (apply Z.land_nonneg; left; apply Hw). split; [done|].
  destruct (Z.eq_dec (Z.land word (u64 (Z.lnot (_mask e)))) 0) as [->|]; [done|].
  apply Z.log2_lt_pow2; [lia|]. pose proof (Z.log2_land word (u64 (Z.lnot (_mask e))) ltac:(apply Hw) ltac:(apply u64_range)).
  assert (Z.log2 word < 64); [|lia]. destruct (Z.eq_dec word 0) as [->|]; [done|]. apply Z.log2_lt_pow2; destruct Hw; lia.
Qed.

Lemma testbit_readField word k : 0 <= k -> Z.testbit (readField e word) k = (k <? b) && Z.testbit word (k + s).
Proof.
  intros Hk. destruct He as (_ & _ & Hf). destruct (Hf Hz) as (_ & Hb & Hs & _). fold b s in Hb, Hs.
  unfold readField. fold s. rewrite Z.shiftr_spec, Z.land_spec, testbit_mask by lia.
  rewrite (proj2 (Z.leb_le s (k + s))), andb_comm by lia. f_equal. cbn. apply eq_true_iff_eq. rewrite !Z.ltb_lt. lia.
Qed.

Lemma read_write word v : 0 <= v < 2 ^ b -> is_u64 word -> readField e (writeField e word v) = v.
Proof.
  intros Hv Hw. destruct He as (_ & _ & Hf). destruct (Hf Hz) as (_ & Hb & Hs & _). fold b s in Hb, Hs.
  apply Z.bits_inj'. intros k Hk. rewrite testbit_readField, testbit_writeField by (done || lia).
  destruct (Z.ltb_spec k b); cbn [andb]; [|symmetry; by apply (testbit_high b)].
  rewrite (proj2 (Z.leb_le _ _)), (proj2 (Z.ltb_lt _ _)) by lia. cbn [andb]. f_equal. lia.
Qed.
End Fields.

Lemma read_write_apart n e e' word v :
  field_wf n e -> field_wf n e' -> _isConstantZero e = false -> _isConstantZero e' = false -> _wordIndex e = _wordIndex e' ->
  apart e e' -> 0 <= v < 2 ^ bitCount_ e -> is_u64 word -> readField e' (writeField e word v) = readField e' word.
Proof.
  intros He He' Hz Hz' Hw Hap Hv Hu. specialize (Hap Hz Hz' Hw). destruct (id He') as (_ & _ & Hf'). destruct (Hf' Hz') as (_ & _ & Hs' & _).
  apply Z.bits_inj'. intros k Hk. rewrite !(testbit_readField n e' He' Hz') by done. destruct (Z.ltb_spec k (bitCount_ e')); [|done]. cbn [andb].
  rewrite (testbit_writeField n e He Hz) by (done || lia).
  destruct ((_shift e <=? k + _shift e') && (k + _shift e' <? _shift e + bitCount_ e)) eqn:Hin; [|done]. bool_to_prop. lia.
Qed.

End CompressedVector.
