(* ===== verification/CompressedVectorCorrect.v ===== *)
(** * A compressed vector behaves as an array

    [CompressedIntegerVector] against a list of integers, and
    [IntegerParameterVector] against a list of optional integers. *)

From S2P Require Import Prelude MachineInt CompressedVector.
Import MachineInt CompressedVector.

Module CompressedVectorCorrect.

Section Book.
Context (ranges : list Z) (book : CodeBook) (Hbook : book_wf ranges book).

(** [v] stores the integers [l]. *)
Record stores (v : CompressedIntegerVector) (l : list Z) : Prop := mk_stores {
  st_book : _codeBook v = Some book;
  st_length : length l = length ranges;
  st_words : length (_words v) = _numWords book;
  st_u64 : Forall is_u64 (_words v);
  st_range : forall i x r, l !! i = Some x -> ranges !! i = Some r -> 0 <= x < r;
  st_fields : forall i e x, _entries book !! i = Some e -> l !! i = Some x -> _isConstantZero e = false ->
    exists word, _words v !! _wordIndex e = Some word /\ readField e word = x }.

Lemma entry_lookup i :
  (i < length ranges)%nat ->
  exists e, _entries book !! i = Some e /\ ranges !! i = Some (_upperBound e) /\ field_wf (_numWords book) e.
Proof.
  intros Hi. destruct Hbook as (Hub & Hf & _). assert (Hl : length (_entries book) = length ranges) by (by rewrite <- Hub, length_fmap).
  destruct (lookup_lt_is_Some_2 (_entries book) i) as [e He]; [lia|]. exists e. split; [done|]. split.
  - by rewrite <- Hub, list_lookup_fmap, He.
  - by apply (Forall_lookup_1 _ _ _ _ Hf He).
Qed.

Lemma length_entries : length (_entries book) = length ranges.
Proof. destruct Hbook as (Hub & _). by rewrite <- Hub, length_fmap. Qed.

Lemma GetCodeBookEntry_eq v l i e :
  stores v l -> _entries book !! i = Some e -> GetCodeBookEntry v i = Ok e.
Proof.
  intros Hv He. unfold GetCodeBookEntry. rewrite (st_book _ _ Hv). cbn [of_option mbind result_bind].
  rewrite assert_true by (apply Nat.ltb_lt; by eapply lookup_lt_Some). cbn [mbind result_bind]. by apply at_Some.
Qed.

Lemma stores_zero : stores (CompressedIntegerVector_of book) (replicate (length ranges) 0).
Proof.
  constructor; cbn; try done; try by rewrite length_replicate.
  - apply Forall_replicate. done.
  - intros i x r [-> Hi]%lookup_replicate Hr. destruct (entry_lookup i Hi) as (e & _ & Hr' & Hf & _). rewrite Hr in Hr'. injection Hr' as ->. lia.
  - intros i e x He [-> Hi]%lookup_replicate Hz. exists 0. destruct (entry_lookup i Hi) as (e' & He' & _ & Hf). rewrite He in He'. injection He' as <-.
    split; [|unfold readField; by rewrite Z.land_0_l, Z.shiftr_0_l]. apply lookup_replicate. split; [done|]. destruct Hf as (_ & _ & H). by destruct (H Hz).
Qed.

Lemma Get_eq v l i x : stores v l -> l !! i = Some x -> Get v i = Ok x.
Proof.
  intros Hv Hx. assert (Hi : (i < length ranges)%nat) by (rewrite <- (st_length _ _ Hv); by eapply lookup_lt_Some).
  destruct (entry_lookup i Hi) as (e & He & Hr & Hf). unfold Get. rewrite (GetCodeBookEntry_eq v l i e Hv He). cbn [mbind result_bind].
  destruct (_isConstantZero e) eqn:Hz.
  - destruct Hf as (_ & Hcz & _). apply Hcz in Hz. pose proof (st_range _ _ Hv i x _ Hx Hr). f_equal. lia.
  - destruct (st_fields _ _ Hv i e x He Hx Hz) as (word & Hw & <-). by rewrite (at_Some _ _ _ Hw).
Qed.

Lemma Set_eq v l i x r :
  stores v l -> ranges !! i = Some r -> 0 <= x < r -> exists v', Set_ v i x = Ok v' /\ stores v' (<[i := x]> l).
Proof.
  intros Hv Hr Hx. assert (Hi : (i < length ranges)%nat) by (by eapply lookup_lt_Some).
  destruct (entry_lookup i Hi) as (e & He & Hr' & Hf). rewrite Hr in Hr'. injection Hr' as ->.
  unfold Set_. rewrite (GetCodeBookEntry_eq v l i e Hv He). cbn [mbind result_bind].
  rewrite assert_true by (apply Z.ltb_lt; lia). cbn [mbind result_bind].
  assert (Hrange : forall j y r, <[i := x]> l !! j = Some y -> ranges !! j = Some r -> 0 <= y < r).
  { intros j y r [(-> & -> & _)|[_ Hl]]%list_lookup_insert_Some Hrj; [|by apply (st_range _ _ Hv j)].
    rewrite Hr in Hrj. by injection Hrj as <-. }
  destruct (_isConstantZero e) eqn:Hz; cbn [negb].
  - exists v. split; [done|]. destruct Hv as [H1 H2 H3 H4 H5 H6]. constructor; try done; [by rewrite length_insert|].
    intros j e' y He' [(-> & -> & _)|[_ Hl]]%list_lookup_insert_Some Hz'; [|by apply (H6 j)]. rewrite He in He'. injection He' as <-. congruence.
  - destruct (id Hf) as (Hub & _ & Hfz). destruct (Hfz Hz) as (Hwi & Hb & _). rewrite <- (st_words _ _ Hv) in Hwi.
    destruct (lookup_lt_is_Some_2 _ _ Hwi) as [word Hword]. rewrite (at_Some _ _ _ Hword). cbn [mbind result_bind].
    assert (Hxb : 0 <= x < 2 ^ bitCount_ e) by (pose proof (bitCount_fits e); lia).
    pose proof (Forall_lookup_1 _ _ _ _ (st_u64 _ _ Hv) Hword) as Hu64.
    eexists; split; [reflexivity|]. destruct Hv as [H1 H2 H3 H4 H5 H6]. constructor; cbn; try done; try by rewrite length_insert.
    + apply Forall_insert; [done|]. by apply writeField_u64.
    + intros j e' y He' Hl Hz'. apply list_lookup_insert_Some in Hl as [(-> & -> & Hlt)|[Hne Hl]].
      * rewrite He in He'. injection He' as <-. exists (writeField e word y). rewrite list_lookup_insert_eq by done. split; [done|].
        by apply (read_write (_numWords book)).
      * destruct (H6 j e' y He' Hl Hz') as (word' & Hw' & Hrd). destruct (decide (_wordIndex e = _wordIndex e')) as [Heq|Hneq].
        -- rewrite <- Heq in Hw'. rewrite Hword in Hw'. injection Hw' as <-. exists (writeField e word x).
           rewrite <- Heq, list_lookup_insert_eq by done. split; [done|]. rewrite <- Hrd.
           assert (Hj : (j < length ranges)%nat) by (rewrite <- length_entries; by eapply lookup_lt_Some).
           destruct (entry_lookup j Hj) as (e2 & He2 & _ & Hf2). rewrite He' in He2. injection He2 as <-.
           apply (read_write_apart (_numWords book)); try done. destruct Hbook as (_ & _ & Hap). by apply (Hap i j).
        -- exists word'. by rewrite list_lookup_insert_ne.
Qed.

Lemma Set_out_of_range v l i x r :
  stores v l -> ranges !! i = Some r -> r <= x -> Set_ v i x = Err AssertionFailed.
Proof.
  intros Hv Hr Hx. assert (Hi : (i < length ranges)%nat) by (by eapply lookup_lt_Some).
  destruct (entry_lookup i Hi) as (e & He & Hr' & Hf). rewrite Hr in Hr'. injection Hr' as ->.
  unfold Set_. rewrite (GetCodeBookEntry_eq v l i e Hv He). cbn [mbind result_bind]. by rewrite (proj2 (Z.ltb_ge _ _)).
Qed.

(** ** [IntegerParameterVector] *)

(** [p] stores the optional integers [l]. *)
Definition denotes (p : IntegerParameterVector) (l : list (option Z)) : Prop :=
  exists vals, stores (_data p) vals /\ length (_valid p) = length ranges /\
    l = zip_with (fun (b : bool) x => if b then Some x else None) (_valid p) vals.

Lemma denotes_length p l : denotes p l -> length l = length ranges /\ length (_valid p) = length ranges.
Proof. intros (vals & Hs & Hl & ->). rewrite length_zip_with, (st_length _ _ Hs). lia. Qed.

Lemma denotes_empty : denotes (IntegerParameterVector_of book) (replicate (length ranges) None).
Proof.
  exists (replicate (length ranges) 0). split; [apply stores_zero|]. cbn. rewrite length_replicate, length_entries. split; [done|].
  by rewrite zip_with_replicate.
Qed.

Lemma denotes_lookup p l i o :
  denotes p l -> l !! i = Some o ->
  IsParameterDefined p i = Ok (bool_decide (is_Some o)) /\ (forall x, o = Some x -> GetParameter p i = Ok x) /\
  (forall x r, o = Some x -> ranges !! i = Some r -> 0 <= x < r).
Proof.
  intros (vals & Hs & Hl & ->) Ho. apply lookup_zip_with_Some in Ho as (b & x & -> & Hb & Hx).
  pose proof (lookup_lt_Some _ _ _ Hb). unfold IsParameterDefined, GetParameter.
  rewrite assert_true by (by apply Nat.ltb_lt). cbn [mbind result_bind]. rewrite (at_Some _ _ _ Hb). cbn [mbind result_bind].
  split; [by destruct b|]. destruct b; cbn [assert_ mbind result_bind]; split; try done.
  - intros y [= <-]. by apply (Get_eq _ vals).
  - intros y r [= <-]. by apply (st_range _ _ Hs).
Qed.

(** What a client sees of a vector through its operations *)
Definition reads (p : IntegerParameterVector) (l : list (option Z)) : Prop :=
  GetParameterCount p = length l /\
  forall i o, l !! i = Some o -> IsParameterDefined p i = Ok (bool_decide (is_Some o)) /\ forall x, o = Some x -> GetParameter p i = Ok x.

Lemma denotes_reads p l : denotes p l -> reads p l.
Proof.
  intros Hd. destruct (denotes_length p l Hd) as [Hl Hv]. split; [unfold GetParameterCount; lia|].
  intros i o Ho. destruct (denotes_lookup p l i o Hd Ho) as (H1 & H2 & _). by split.
Qed.

Lemma reads_inj p l l' : reads p l -> reads p l' -> l = l'.
Proof.
  intros [Hl Hr] [Hl' Hr']. apply list_eq_same_length with (length l); [lia|done|]. intros i o o' _ Ho Ho'.
  destruct (Hr i o Ho) as [H1 H2], (Hr' i o' Ho') as [H1' H2']. rewrite H1 in H1'. injection H1' as Hb.
  destruct o as [x|], o' as [x'|]; [|exfalso; revert Hb; do 2 case_bool_decide; rewrite ?is_Some_alt in *; done..|done].
  specialize (H2 x eq_refl). specialize (H2' x' eq_refl). congruence.
Qed.

Lemma denotes_inj p l l' : denotes p l -> denotes p l' -> l = l'.
Proof. intros H H'. apply (reads_inj p); by apply denotes_reads. Qed.

Lemma SetParameter_eq p l i x r :
  denotes p l -> ranges !! i = Some r -> 0 <= x < r -> exists p', SetParameter p i x = Ok p' /\ denotes p' (<[i := Some x]> l).
Proof.
  intros (vals & Hs & Hl & ->) Hr Hx. unfold SetParameter. rewrite assert_true by (apply Nat.ltb_lt; rewrite Hl; by eapply lookup_lt_Some).
  cbn [mbind result_bind]. destruct (Set_eq _ vals i x r Hs Hr Hx) as (v' & -> & Hs'). cbn [mbind result_bind].
  eexists; split; [reflexivity|]. exists (<[i := x]> vals). split; [done|]. cbn. split; [by rewrite length_insert|].
  by rewrite <- insert_zip_with.
Qed.

End Book.

(** C33: a compressed vector behaves as an array of zeros: after any sequence of
    writes of values in their ranges, which all succeed, every element reads
    as the last value written to it. *)
Theorem CompressedIntegerVector_array ranges writes :
  Forall (fun r => 0 < r <= 2 ^ 63) ranges ->
  Forall (fun w => exists r, ranges !! w.1 = Some r /\ 0 <= w.2 < r) writes ->
  exists book v, CreateCodeBook ranges = Ok book /\
    foldM (fun v w => Set_ v w.1 w.2) writes (CompressedIntegerVector_of book) = Ok v /\
    forall i, (i < length ranges)%nat ->
      exists x, fold_left (fun l w => <[w.1 := w.2]> l) writes (replicate (length ranges) 0) !! i = Some x /\ Get v i = Ok x.
Proof.
  intros Hr Hw. destruct (CreateCodeBook_eq ranges Hr) as (book & -> & Hb). exists book.
  assert (Hgen : forall v l, stores ranges book v l -> exists v', foldM (fun v w => Set_ v w.1 w.2) writes v = Ok v' /\
    stores ranges book v' (fold_left (fun l w => <[w.1 := w.2]> l) writes l)).
  { induction Hw as [|w ws (r & Hwr & Hx) _ IH]; intros v l Hs; [by exists v|].
    destruct (Set_eq ranges book Hb v l w.1 w.2 r Hs Hwr Hx) as (v1 & Heq & Hs1). cbn [foldM fold_left]. rewrite Heq. cbn [mbind result_bind]. by apply IH. }
  destruct (Hgen _ _ (stores_zero ranges book Hb)) as (v & -> & Hs). exists v. split; [done|]. split; [done|].
  intros i Hi. rewrite <- (st_length _ _ _ _ Hs) in Hi. destruct (lookup_lt_is_Some_2 _ _ Hi) as [x Hx]. exists x. split; [done|].
  by apply (Get_eq ranges book Hb _ _ _ _ Hs).
Qed.

(** Five ranges, one of which needs no bits and two of which need a second word *)
Lemma CompressedIntegerVector_array_witness :
  Forall (fun r => 0 < r <= 2 ^ 63) [5; 1; 2 ^ 62; 1000; 2] /\
  exists book v, CreateCodeBook [5; 1; 2 ^ 62; 1000; 2] = Ok book /\
    foldM (fun v w => Set_ v w.1 w.2) [(0%nat, 4); (2%nat, 77); (3%nat, 999); (0%nat, 3)] (CompressedIntegerVector_of book) = Ok v /\
    forall i, (i < 5)%nat ->
      exists x, [3; 0; 77; 999; 0] !! i = Some x /\ Get v i = Ok x.
Proof.
  assert (Hr : Forall (fun r => 0 < r <= 2 ^ 63) [5; 1; 2 ^ 62; 1000; 2]).
  { repeat (constructor; [vm_compute; split; congruence|]). constructor. }
  split; [exact Hr|].
  apply (CompressedIntegerVector_array [5; 1; 2 ^ 62; 1000; 2] [(0%nat, 4); (2%nat, 77); (3%nat, 999); (0%nat, 3)] Hr).
  repeat (constructor; [eexists; split; [reflexivity|vm_compute; split; congruence]|]). constructor.
Defined.

End CompressedVectorCorrect.
