(* ===== verification/BranchAndBound.v ===== *)
(** * Integer branch and bound

    [branch_and_bound.cpp]: [IntegerBranchAndBoundImpl] and
    [IntegerBranchAndBound].

    The callback is a function of the parameter vector: its documentation asks
    for no side effects while [isOptimalPoint] is false, and the vector of the
    one call with [isOptimalPoint] true is the result of the model.
    [ThreadPool::MapToList] appends the lists that the calls for the elements
    make, in the order of the elements. *)

From S2P Require Import Prelude MachineInt CompressedVector.
Import MachineInt CompressedVector.

Module BranchAndBound.

Record ObjectiveFunctionBounds : Type := mkBounds { _lowerBound : Z; _upperBound : Z }.

Record WorkListEntry : Type := mkWorkListEntry { _parameters : IntegerParameterVector; _bounds : ObjectiveFunctionBounds }.

Section Impl.
Context (parameterRanges : list Z) (boundCallback : IntegerParameterVector -> ObjectiveFunctionBounds).
Context (parametersToOptimize : gset nat).

(** An undefined parameter of smallest range, the first one of them *)
Definition selectParameterToDefine (ipv : IntegerParameterVector) : result nat :=
  selectedParameterIndex ← foldM (fun (selected : option nat) i =>
      defined ← IsParameterDefined ipv i;
      if negb defined && bool_decide (i ∈ parametersToOptimize) then
        match selected with
        | Some s =>
            rangeI ← at_ parameterRanges i;
            rangeS ← at_ parameterRanges s;
            Ok (if rangeI <? rangeS then Some i else Some s)
        | None => Ok (Some i)
        end
      else Ok selected)
    (seq 0 (GetParameterCount ipv)) None;
  of_option AssertionFailed selectedParameterIndex.

(** The loop stops at the first parameter that is not defined. *)
Fixpoint allDefinedLoop (params : IntegerParameterVector) (indices : list nat) : result bool :=
  match indices with
  | [] => Ok true
  | i :: indices =>
      defined ← IsParameterDefined params i;
      if defined : bool then allDefinedLoop params indices else Ok false
  end.

Definition allDefined (params : IntegerParameterVector) : result bool :=
  allDefinedLoop params (set_elements parametersToOptimize).

(** The seed: the fixed values *)
Definition seedEntry (codeBook : CodeBook) (fixedParameterValues : list (nat * Z)) : result WorkListEntry :=
  params ← foldM (fun params p =>
      defined ← IsParameterDefined params p.1;
      assert_ (negb defined);;
      SetParameter params p.1 p.2) fixedParameterValues (IntegerParameterVector_of codeBook);
  Ok (mkWorkListEntry params (boundCallback params)).

Definition lowest (bound : ObjectiveFunctionBounds -> Z) (workList : list WorkListEntry) : Z :=
  fold_left (fun m wle => Z.min m (bound (_bounds wle))) workList size_max.

(** [lowestUpperBound] and [bestObjectiveFunctionValue] are captured by value. *)
Definition shouldFilter (lowestUpperBound best : Z) (bounds : ObjectiveFunctionBounds) : bool :=
  (lowestUpperBound <? _lowerBound bounds) || (best <=? _lowerBound bounds).

Record SearchState : Type := mkSearchState { _workList : list WorkListEntry; _best : Z; _bestParameters : IntegerParameterVector }.

(** The loop that classifies the entries: the best value, its parameters,
    [elementsToRefine] and [newWorkList] *)
Definition classifyStep (lowestLowerBound lowestUpperBound best0 : Z)
    (st : Z * IntegerParameterVector * list WorkListEntry * list WorkListEntry) (wle : WorkListEntry)
    : result (Z * IntegerParameterVector * list WorkListEntry * list WorkListEntry) :=
  let '(best, bestParameters, elementsToRefine, newWorkList) := st in
  let bounds := _bounds wle in
  if shouldFilter lowestUpperBound best0 bounds then Ok st
  else
    complete ← allDefined (_parameters wle);
    Ok (if complete : bool then
          if _lowerBound bounds <? best
          then (_lowerBound bounds, _parameters wle, elementsToRefine, newWorkList) else st
        else if (_lowerBound bounds =? lowestLowerBound) || (_upperBound bounds =? lowestUpperBound)
        then (best, bestParameters, elementsToRefine ++ [wle], newWorkList)
        else (best, bestParameters, elementsToRefine, newWorkList ++ [wle])).

(** [refineCallback] *)
Definition refineValue (baseWle : WorkListEntry) (newParameterIndex : nat) (newParameterValue : Z) : result WorkListEntry :=
  defined ← IsParameterDefined (_parameters baseWle) newParameterIndex;
  assert_ (negb defined);;
  newParams ← SetParameter (_parameters baseWle) newParameterIndex newParameterValue;
  let bounds := boundCallback newParams in
  assert_ (_lowerBound bounds <=? _upperBound bounds);;
  assert_ (_lowerBound (_bounds baseWle) <=? _lowerBound bounds);;
  assert_ (_lowerBound (_bounds baseWle) <=? _upperBound bounds);;
  Ok (mkWorkListEntry newParams bounds).

Definition refine (baseWle : WorkListEntry) : result (list WorkListEntry) :=
  newParameterIndex ← selectParameterToDefine (_parameters baseWle);
  assert_ (newParameterIndex <? length parameterRanges)%nat;;
  newParameterRange ← at_ parameterRanges newParameterIndex;
  mapM_ (refineValue baseWle newParameterIndex) (seqZ 0 newParameterRange).

(** The body of [while (!workList.empty())] *)
Definition searchStep (st : SearchState) : result SearchState :=
  let lowestLowerBound := lowest _lowerBound (_workList st) in
  let lowestUpperBound := lowest _upperBound (_workList st) in
  '(best, bestParameters, elementsToRefine, newWorkList) ←
    foldM (classifyStep lowestLowerBound lowestUpperBound (_best st)) (_workList st) (_best st, _bestParameters st, [], []);
  refined ← mapM_ refine elementsToRefine;
  Ok (mkSearchState (newWorkList ++ concat refined) best bestParameters).

(** [None]: the work list became too long. *)
Fixpoint searchLoop (fuel : nat) (maxWorkListSize : option nat) (st : SearchState) : result (option SearchState) :=
  match _workList st with
  | [] => Ok (Some st)
  | _ =>
      if match maxWorkListSize with
         | Some m => (m <? length (_workList st))%nat && (1 <? size parametersToOptimize)%nat
         | None => false
         end then Ok None
      else
        match fuel with
        | O => Err OutOfFuel
        | S fuel => st ← searchStep st; searchLoop fuel maxWorkListSize st
        end
  end.

(** [None] for the return value false, else the vector of the last call *)
Definition IntegerBranchAndBoundImpl (fuel : nat) (maxWorkListSize : option nat) (fixedParameterValues : list (nat * Z))
    : result (option IntegerParameterVector) :=
  assert_ (negb (length parameterRanges =? 0)%nat);;
  assert_ (negb (bool_decide (parametersToOptimize = ∅)));;
  mapM_ (fun range => assert_ (0 <? range)) parameterRanges;;
  codeBook ← CreateCodeBook parameterRanges;
  seed ← seedEntry codeBook fixedParameterValues;
  r ← searchLoop fuel maxWorkListSize (mkSearchState [seed] size_max IntegerParameterVector_empty);
  match r with
  | None => Ok None
  | Some st =>
      assert_ (negb (_best st =? size_max));;
      mapM_ (fun paramIndex => defined ← IsParameterDefined (_bestParameters st) paramIndex; assert_ defined)
        (set_elements parametersToOptimize);;
      mapM_ (fun p => v ← GetParameter (_bestParameters st) p.1; assert_ (v =? p.2)) fixedParameterValues;;
      Ok (Some (_bestParameters st))
  end.

End Impl.

(** All parameters are optimised, none is fixed, the work list is not bounded. *)
Definition IntegerBranchAndBound (fuel : nat) (parameterRanges : list Z)
    (boundCallback : IntegerParameterVector -> ObjectiveFunctionBounds) : result IntegerParameterVector :=
  if (length parameterRanges =? 0)%nat then Ok IntegerParameterVector_empty
  else
    let parametersToOptimize := list_to_set (seq 0 (length parameterRanges)) in
    searchResult ← IntegerBranchAndBoundImpl parameterRanges boundCallback parametersToOptimize fuel None [];
    of_option AssertionFailed searchResult.

End BranchAndBound.
