(* ===== verification/BranchAndBoundSpec.v ===== *)
(** * What branch and bound computes: partial vectors and their completions

    The contract of the callback, stated on lists of optional integers, and
    the steps of the search on the vectors that denote them. *)

From S2P Require Import Prelude MachineInt CompressedVector CompressedVectorCorrect BranchAndBound.
Import MachineInt CompressedVector CompressedVectorCorrect BranchAndBound.

Module BranchAndBoundSpec.

Section Spec.
Context (ranges : list Z) (params : gset nat).

(** A partial vector: a list of optional values in their ranges *)
Notation pvec := (list (option Z)).

Definition pvec_wf (l : pvec) : Prop :=
  length l = length ranges /\ forall i x r, l !! i = Some (Some x) -> ranges !! i = Some r -> 0 <= x < r.

(** [l'] defines more than [l]. *)
Definition refines (l l' : pvec) : Prop := forall i x, l !! i = Some (Some x) -> l' !! i = Some (Some x).

Definition complete (l : pvec) : Prop := forall i, i ∈ params -> exists x, l !! i = Some (Some x).

(** [c] defines the optimised parameters that [l] does not, and nothing else. *)
Definition completion (l c : pvec) : Prop :=
  pvec_wf c /\ refines l c /\ complete c /\ forall i, i ∉ params -> c !! i = l !! i.

#[export] Instance refines_preorder : PreOrder refines.
Proof. split; [by intros l i x|]. intros a b c Hab Hbc i x H. by apply Hbc, Hab. Qed.

Lemma refines_insert l i x : l !! i = Some None -> refines l (<[i := Some x]> l).
Proof. intros Hi j y Hj. rewrite list_lookup_insert_ne; [done|]. intros ->. by rewrite Hi in Hj. Qed.

Lemma pvec_wf_insert l i x r : pvec_wf l -> ranges !! i = Some r -> 0 <= x < r -> pvec_wf (<[i := Some x]> l).
Proof.
  intros [Hl Hr] Hi Hx. split; [by rewrite length_insert|]. intros j y r' Hj Hr'.
  apply list_lookup_insert_Some in Hj as [(-> & Heq & _)|[_ Hj]].
  - injection Heq as ->. rewrite Hi in Hr'. by injection Hr' as <-.
  - by apply (Hr j).
Qed.

Lemma completion_complete l c : pvec_wf l -> complete l -> completion l c -> c = l.
Proof.
  intros [Hl _] Hc ([Hlc _] & Href & _ & Hfr). apply list_eq. intros i. destruct (decide (i ∈ params)) as [Hi|Hi]; [|by apply Hfr].
  destruct (Hc i Hi) as (x & Hx). rewrite Hx. by apply Href.
Qed.

Lemma completion_insert l c i : completion l c -> i ∈ params -> l !! i = Some None ->
  exists x, c !! i = Some (Some x) /\ completion (<[i := Some x]> l) c.
Proof.
  intros (Hwf & Href & Hc & Hfr) Hi Hn. destruct (Hc i Hi) as (x & Hx). exists x. split; [done|].
  split; [done|]. split; [|split; [done|]].
  - intros j y Hj. apply list_lookup_insert_Some in Hj as [(-> & Heq & _)|[_ Hj]]; [by injection Heq as ->|by apply Href].
  - intros j Hj. rewrite Hfr by done. rewrite list_lookup_insert_ne; [done|]. by intros ->.
Qed.

(** The documented contract of the callback.  [bound l] covers the points that
    [l] stands for: it is tight enough not to grow looser when a parameter is
    defined, and the best point is no worse than the upper bound. *)
Record bound_contract (bound : pvec -> ObjectiveFunctionBounds) : Prop := mk_bound_contract {
  bc_order : forall l, pvec_wf l -> _lowerBound (bound l) <= _upperBound (bound l);
  bc_max : forall l, pvec_wf l -> _upperBound (bound l) <= size_max;
  bc_monotone : forall l l', pvec_wf l -> pvec_wf l' -> refines l l' -> _lowerBound (bound l) <= _lowerBound (bound l');
  bc_attained : forall l, pvec_wf l -> exists c, completion l c /\ _lowerBound (bound c) <= _upperBound (bound l);
  bc_finite : forall c, pvec_wf c -> complete c -> _lowerBound (bound c) < size_max }.

(** ** The vectors of the search *)

Context (book : CodeBook) (Hbook : book_wf ranges book) (Hparams : forall i, i ∈ params -> (i < length ranges)%nat).
Lemma denotes_wf p l : denotes ranges book p l -> pvec_wf l.
Proof.
  intros Hd. split; [by apply (denotes_length ranges book p l)|]. intros i x r Hx Hr.
  destruct (denotes_lookup ranges book Hbook p l i (Some x) Hd Hx) as (_ & _ & H). by apply H.
Qed.

Lemma allDefined_eq p l :
  denotes ranges book p l -> exists b, allDefined params p = Ok b /\ (b = true <-> complete l).
Proof.
  intros Hd. unfold allDefined, complete.
  assert (Hgen : forall ns, (forall i, i ∈ ns -> i ∈ params) -> exists b, allDefinedLoop p ns = Ok b /\
    (b = true <-> forall i, i ∈ ns -> exists x, l !! i = Some (Some x))).
  { induction ns as [|i ns IH]; intros His; cbn [allDefinedLoop].
    - exists true. split; [done|]. split; [|done]. intros _ i Hi. set_solver.
    - assert (Hi : (i < length l)%nat) by (rewrite (proj1 (denotes_length ranges book p l Hd)); apply Hparams, His; set_solver).
      destruct (lookup_lt_is_Some_2 l i Hi) as [o Ho]. destruct (denotes_lookup ranges book Hbook p l i o Hd Ho) as (-> & _).
      cbn [mbind result_bind]. destruct IH as (b & -> & Hb); [intros; apply His; set_solver|]. destruct o as [x|].
      + rewrite bool_decide_eq_true_2 by done. exists b. split; [done|]. rewrite Hb. split; intros H j Hj.
        * apply elem_of_cons in Hj as [->|Hj]; [by exists x|by apply H].
        * apply H. set_solver.
      + rewrite bool_decide_eq_false_2 by (intros [? ?]; done). exists false. split; [done|]. split; [done|].
        intros H. destruct (H i) as (x & Hx); [set_solver|]. rewrite Ho in Hx. done. }
  destruct (Hgen (set_elements params)) as (b & -> & Hb); [intros i; by rewrite elem_of_set_elements|].
  exists b. split; [done|]. rewrite Hb. split; intros H i Hi; apply H; by apply elem_of_set_elements.
Qed.

Lemma selectParameterToDefine_eq p l :
  denotes ranges book p l -> ~ complete l ->
  exists i, selectParameterToDefine ranges params p = Ok i /\ i ∈ params /\ l !! i = Some None.
Proof.
  intros Hd Hnc. unfold selectParameterToDefine. destruct (denotes_length ranges book p l Hd) as [Hl Hv].
  destruct (foldM_seq_inv (fun (selected : option nat) i =>
      defined ← IsParameterDefined p i;
      if negb defined && bool_decide (i ∈ params) then
        match selected with
        | Some s => rangeI ← at_ ranges i; rangeS ← at_ ranges s; Ok (if rangeI <? rangeS then Some i else Some s)
        | None => Ok (Some i)
        end
      else Ok selected)
    (fun k sel => (forall s, sel = Some s -> s ∈ params /\ l !! s = Some None) /\
                  (sel = None -> forall i, (i < k)%nat -> i ∈ params -> exists x, l !! i = Some (Some x)))
    (GetParameterCount p) None) as (sel & -> & Hs & Hn).
  - split; [done|]. intros _ i Hi. lia.
  - intros k sel Hk [Hs Hn]. unfold GetParameterCount in Hk. destruct (lookup_lt_is_Some_2 l k) as [o Ho]; [lia|].
    destruct (denotes_lookup ranges book Hbook p l k o Hd Ho) as (-> & _). cbn [mbind result_bind].
    destruct (negb _ && _) eqn:Hc.
    + bool_to_prop. assert (Hko : l !! k = Some None) by (destruct o; [exfalso; naive_solver|done]).
      destruct sel as [s|].
      * destruct (Hs s eq_refl) as [Hsp Hso]. destruct (lookup_lt_is_Some_2 ranges k) as [rk Hrk]; [lia|].
        destruct (lookup_lt_is_Some_2 ranges s) as [rs Hrs]; [by apply Hparams|]. rewrite (at_Some _ _ _ Hrk), (at_Some _ _ _ Hrs).
        cbn [mbind result_bind]. eexists; split; [reflexivity|]. destruct (rk <? rs); (split; [|done]); intros s' [= <-]; done.
      * eexists; split; [reflexivity|]. split; [|done]. intros s' [= <-]; done.
    + eexists; split; [reflexivity|]. split; [done|]. intros Hsel i Hi Hip. destruct (decide (i = k)) as [->|]; [|apply Hn; (done || lia)].
      destruct o as [x|]; [by exists x|]. rewrite (bool_decide_eq_true_2 (k ∈ params)), bool_decide_eq_false_2 in Hc by (done || intros [? ?]; done). done.
  - cbn [mbind result_bind]. destruct sel as [s|].
    + exists s. split; [done|]. by apply Hs.
    + exfalso. apply Hnc. intros i Hi. apply Hn; [done| |done]. unfold GetParameterCount. rewrite Hv. by apply Hparams.
Qed.

(** ** Entries *)

Context (boundCallback : IntegerParameterVector -> ObjectiveFunctionBounds) (bound : pvec -> ObjectiveFunctionBounds).

(** The callback reads the vector through its public operations. *)
Definition callback_reads : Prop := forall p l, denotes ranges book p l -> boundCallback p = bound l.

(** [seed]: the partial vector the search starts from *)
Context (seed : pvec).

Record entry_ok (e : WorkListEntry) (l : pvec) : Prop := mk_entry_ok {
  eo_denotes : denotes ranges book (_parameters e) l;
  eo_bounds : _bounds e = bound l;
  eo_seed : refines seed l;
  eo_frame : forall i, i ∉ params -> l !! i = seed !! i }.

(** The number of optimised parameters that are still undefined *)
Definition undefined (e : WorkListEntry) : nat := size (filter (fun i => _valid (_parameters e) !! i = Some false) params).

Lemma undefined_insert e e' i :
  _valid (_parameters e') = <[i := true]> (_valid (_parameters e)) -> i ∈ params -> _valid (_parameters e) !! i = Some false ->
  undefined e = S (undefined e').
Proof.
  intros Hv Hi Hf. unfold undefined. rewrite Hv. set (A := filter _ params). set (B := filter _ params).
  assert (Hiv : (i < length (_valid (_parameters e)))%nat) by (by eapply lookup_lt_Some).
  assert (HA : A = {[i]} ∪ B).
  { apply set_eq. intros j. unfold A, B. rewrite elem_of_union, elem_of_singleton, !elem_of_filter. destruct (decide (i = j)) as [->|Hne].
    - rewrite list_lookup_insert_eq by done. naive_solver.
    - rewrite list_lookup_insert_ne by done. naive_solver. }
  rewrite HA, size_union, size_singleton; [done|]. intros j [= ->]%elem_of_singleton. unfold B.
  rewrite elem_of_filter, list_lookup_insert_eq by done. naive_solver.
Qed.

Lemma denotes_valid p l i o : denotes ranges book p l -> l !! i = Some o -> _valid p !! i = Some (bool_decide (is_Some o)).
Proof.
  intros (vals & _ & _ & ->) Ho. apply lookup_zip_with_Some in Ho as (b & x & -> & -> & _). by destruct b.
Qed.

Lemma refineValue_eq e l i v r :
  bound_contract bound -> callback_reads -> entry_ok e l -> i ∈ params -> l !! i = Some None -> ranges !! i = Some r -> 0 <= v < r ->
  exists e', refineValue boundCallback e i v = Ok e' /\ entry_ok e' (<[i := Some v]> l) /\ undefined e = S (undefined e').
Proof.
  intros Hc Hcb [Hd Hb Hs Hfr] Hi Hn Hr Hv. unfold refineValue.
  destruct (denotes_lookup ranges book Hbook _ l i None Hd Hn) as (-> & _). cbn [mbind result_bind].
  rewrite bool_decide_eq_false_2 by (intros [? ?]; done). cbn [negb assert_ mbind result_bind].
  destruct (SetParameter_eq ranges book Hbook _ l i v r Hd Hr Hv) as (p' & Hset & Hd'). rewrite Hset. cbn [mbind result_bind].
  rewrite (Hcb p' _ Hd'), Hb. pose proof (denotes_wf _ _ Hd) as Hwf. pose proof (denotes_wf _ _ Hd') as Hwf'.
  pose proof (bc_order _ Hc _ Hwf') as Ho. pose proof (bc_monotone _ Hc _ _ Hwf Hwf' (refines_insert l i v Hn)) as Hm.
  rewrite !assert_true by (apply Z.leb_le; lia). cbn [mbind result_bind]. eexists; split; [reflexivity|]. split.
  - constructor; cbn; [done|done|by transitivity l; [|apply refines_insert]|].
    intros j Hj. rewrite list_lookup_insert_ne; [by apply Hfr|]. by intros ->.
  - apply (undefined_insert e _ i); [|done|].
    + cbn. unfold SetParameter in Hset. ok_inv. done.
    + by rewrite (denotes_valid _ _ _ _ Hd Hn), bool_decide_eq_false_2 by (intros [? ?]; done).
Qed.

Lemma refine_eq e l :
  bound_contract bound -> callback_reads -> entry_ok e l -> ~ complete l ->
  exists i r es, refine ranges boundCallback params e = Ok es /\ i ∈ params /\ l !! i = Some None /\ ranges !! i = Some r /\
    Forall2 (fun v e' => entry_ok e' (<[i := Some v]> l) /\ undefined e = S (undefined e')) (seqZ 0 r) es.
Proof.
  intros Hc Hcb He Hnc. unfold refine.
  destruct (selectParameterToDefine_eq _ l (eo_denotes _ _ He) Hnc) as (i & -> & Hi & Hn). cbn [mbind result_bind].
  pose proof (Hparams i Hi) as Hlt. rewrite assert_true by (by apply Nat.ltb_lt). cbn [mbind result_bind].
  destruct (lookup_lt_is_Some_2 ranges i Hlt) as [r Hr]. rewrite (at_Some _ _ _ Hr). cbn [mbind result_bind].
  destruct (mapM_exists (refineValue boundCallback e i) (fun v e' => entry_ok e' (<[i := Some v]> l) /\ undefined e = S (undefined e')) (seqZ 0 r))
    as (es & -> & Hes).
  { intros v Hv%elem_of_seqZ. destruct (refineValue_eq e l i v r Hc Hcb He Hi Hn Hr) as (e' & ? & ? & ?); [lia|]. by exists e'. }
  by exists i, r, es.
Qed.

End Spec.
End BranchAndBoundSpec.

(** * Branch and bound finds an optimal vector

    The loop of [IntegerBranchAndBoundImpl]: every completion of the seed stays
    covered by the best value found or by an entry of the work list, and the
    work list runs out. *)

Import MachineInt CompressedVector CompressedVectorCorrect BranchAndBound BranchAndBoundSpec.

Module BranchAndBoundCorrect.

(** An upper bound of the entries that refining an entry with [k] undefined
    parameters makes *)
Fixpoint weight (R k : nat) : nat := match k with O => 1 | S k => S (R * weight R k) end.

Lemma weight_pos R k : (0 < weight R k)%nat.
Proof. destruct k; cbn; lia. Qed.

Definition total {A} (f : A -> nat) (l : list A) : nat := sum_list_with f l.

Lemma total_le {A} (f : A -> nat) l n : (forall a, a ∈ l -> (f a <= n)%nat) -> (total f l <= length l * n)%nat.
Proof.
  unfold total. induction l as [|a l IH]; intros H; cbn; [lia|]. pose proof (H a ltac:(set_solver)).
  specialize (IH ltac:(set_solver)). lia.
Qed.

Lemma total_concat {A B} (f : B -> nat) (g : A -> nat) l (ls : list (list B)) :
  Forall2 (fun a bs => S (total f bs) <= g a)%nat l ls -> (total f (concat ls) + length l <= total g l)%nat.
Proof. unfold total. induction 1; cbn; [lia|]. rewrite sum_list_with_app. lia. Qed.

Lemma total_snoc {A} (f : A -> nat) l a : total f (l ++ [a]) = (total f l + f a)%nat.
Proof. unfold total. rewrite sum_list_with_app. cbn. lia. Qed.

Lemma total_app {A} (f : A -> nat) l l' : total f (l ++ l') = (total f l + total f l')%nat.
Proof. apply sum_list_with_app. Qed.

#[global] Arguments total : simpl never.

Section Correct.
Context (ranges : list Z) (params : gset nat).
Context (book : CodeBook) (Hbook : book_wf ranges book) (Hparams : forall i, i ∈ params -> (i < length ranges)%nat).
Context (boundCallback : IntegerParameterVector -> ObjectiveFunctionBounds) (bound : list (option Z) -> ObjectiveFunctionBounds).
Context (Hc : bound_contract ranges params bound) (Hcb : callback_reads ranges book boundCallback bound).
Context (seed : list (option Z)).

Notation entry_ok := (entry_ok ranges params book bound seed).
Notation completion := (completion ranges params).
Notation complete := (complete params).
Notation undefined := (undefined params).

Lemma entry_wf e l : entry_ok e l -> pvec_wf ranges l.
Proof. intros He. apply (denotes_wf ranges book Hbook (_parameters e)). by apply (eo_denotes _ _ _ _ _ _ _ He). Qed.

Lemma entry_bounds e l :
  entry_ok e l -> _lowerBound (_bounds e) <= _upperBound (_bounds e) <= size_max.
Proof.
  intros He. rewrite (eo_bounds _ _ _ _ _ _ _ He). pose proof (entry_wf _ _ He). split; [by apply (bc_order _ _ _ Hc)|by apply (bc_max _ _ _ Hc)].
Qed.

Lemma entry_completion e l c : entry_ok e l -> completion l c -> completion seed c.
Proof.
  intros [_ _ Hs Hf] (Hw & Hr & Hcm & Hfr). split; [done|]. split; [by transitivity l|]. split; [done|].
  intros i Hi. by rewrite Hfr, Hf.
Qed.

Lemma entry_completion_bound e l c : entry_ok e l -> completion l c -> _lowerBound (_bounds e) <= _lowerBound (bound c).
Proof.
  intros He (Hw & Hr & _). rewrite (eo_bounds _ _ _ _ _ _ _ He). apply (bc_monotone _ _ _ Hc); [by eapply entry_wf|done..].
Qed.

Lemma entry_self_completion e l : entry_ok e l -> complete l -> completion l l.
Proof. intros He Hl. split; [by eapply entry_wf|]. by split. Qed.

(** ** The extremes of the work list *)

Lemma lowest_spec (f : ObjectiveFunctionBounds -> Z) wl :
  (forall e, e ∈ wl -> f (_bounds e) <= size_max) ->
  (forall e, e ∈ wl -> lowest f wl <= f (_bounds e)) /\ (wl <> [] -> exists e, e ∈ wl /\ f (_bounds e) = lowest f wl).
Proof.
  unfold lowest. intros Hmax.
  assert (Hgen : forall l m, let r := fold_left (fun m e => Z.min m (f (_bounds e))) l m in
    r <= m /\ (forall e, e ∈ l -> r <= f (_bounds e)) /\ (r = m \/ exists e, e ∈ l /\ f (_bounds e) = r)).
  { induction l as [|e l IH]; intros m; cbn; [split; [lia|]; split; [set_solver|by left]|].
    destruct (IH (Z.min m (f (_bounds e)))) as (H1 & H2 & H3). split; [lia|]. split.
    - intros e' [->|He']%elem_of_cons; [lia|by apply H2].
    - destruct H3 as [H3|(e' & He' & H3)]; [|right; exists e'; set_solver].
      destruct (Z.min_spec m (f (_bounds e))) as [[? ?]|[? ?]]; [left; lia|right; exists e; split; [set_solver|lia]]. }
  destruct (Hgen wl size_max) as (H1 & H2 & H3). split; [done|]. intros Hne. destruct H3 as [H3|H3]; [|done].
  destruct wl as [|e wl]; [done|]. exists e. split; [set_solver|]. pose proof (H2 e ltac:(set_solver)). pose proof (Hmax e ltac:(set_solver)). lia.
Qed.

(** ** The state of the loop *)

Definition best_ok (best : Z) (p : IntegerParameterVector) : Prop :=
  best = size_max \/ exists l, denotes ranges book p l /\ completion seed l /\ best = _lowerBound (bound l).

(** [c] is no better than the best value, or than a completion of an entry. *)
Definition covered (c : list (option Z)) (best : Z) (wl : list WorkListEntry) : Prop :=
  best <= _lowerBound (bound c) \/
  exists e l c', e ∈ wl /\ entry_ok e l /\ completion l c' /\ _lowerBound (bound c') <= _lowerBound (bound c).

Definition entries_ok (wl : list WorkListEntry) : Prop := forall e, e ∈ wl -> exists l, entry_ok e l.

(** The largest range *)
Definition maxRange : nat := fold_right Nat.max 0%nat (Z.to_nat <$> ranges).

Lemma maxRange_ge i r : ranges !! i = Some r -> (Z.to_nat r <= maxRange)%nat.
Proof.
  unfold maxRange. clear. revert i; induction ranges as [|x l IH]; intros i Hi; [done|]. cbn. destruct i as [|i]; [injection Hi as ->; lia|].
  specialize (IH _ Hi). lia.
Qed.

Definition entryWeight (e : WorkListEntry) : nat := weight maxRange (undefined e).

(** What has become of the entry [e] *)
Definition fate (lowerL upperL best0 best : Z) (toRefine keep : list WorkListEntry) (e : WorkListEntry) : Prop :=
  shouldFilter upperL best0 (_bounds e) = true \/
  (exists l, entry_ok e l /\ complete l /\ best <= _lowerBound (_bounds e)) \/
  e ∈ toRefine \/ (e ∈ keep /\ _lowerBound (_bounds e) <> lowerL).

Record classified (lowerL upperL best0 : Z) (pre : list WorkListEntry)
    (st : Z * IntegerParameterVector * list WorkListEntry * list WorkListEntry) : Prop := mk_classified {
  cl_best : st.1.1.1 <= best0;
  cl_best_ok : best_ok st.1.1.1 st.1.1.2;
  cl_refine : forall e, e ∈ st.1.2 -> exists l, entry_ok e l /\ ~ complete l;
  cl_keep : entries_ok st.2;
  cl_fate : forall e, e ∈ pre -> fate lowerL upperL best0 st.1.1.1 st.1.2 st.2 e;
  cl_length : (length st.2 <= length pre)%nat;
  cl_drop : (exists e, e ∈ pre /\ _lowerBound (_bounds e) = lowerL) -> (length st.2 < length pre)%nat;
  cl_weight : (total entryWeight st.2 + total entryWeight st.1.2 + length pre <= total entryWeight pre + length st.2 + length st.1.2)%nat }.

Lemma fate_mono lowerL upperL best0 best best' R R' K K' e :
  best' <= best -> (forall e, e ∈ R -> e ∈ R') -> (forall e, e ∈ K -> e ∈ K') ->
  fate lowerL upperL best0 best R K e -> fate lowerL upperL best0 best' R' K' e.
Proof.
  intros Hb HR HK [H|[(l & Hl & Hcl & H)|[H|[H H']]]]; [by left| | |].
  - right. left. exists l. split; [done|]. split; [done|]. lia.
  - right. right. left. auto.
  - right. right. right. auto.
Qed.

Ltac fate_old Hfate := eapply fate_mono; [| | |apply Hfate; assumption]; [cbn; lia|set_solver..].

Lemma classifyStep_eq lowerL upperL best0 pre st e l :
  entry_ok e l -> classified lowerL upperL best0 pre st ->
  exists st', classifyStep params lowerL upperL best0 st e = Ok st' /\ classified lowerL upperL best0 (pre ++ [e]) st'.
Proof.
  intros He Hst. destruct st as [[[best bp] R] K]. destruct Hst as [Hb Hbo HR HK Hf Hlen Hdrop Hw]. cbn in *. unfold classifyStep.
  assert (Hfate : forall P : WorkListEntry -> Prop, (forall e', e' ∈ pre -> P e') -> P e -> forall e', e' ∈ pre ++ [e] -> P e') by set_solver.
  pose proof (weight_pos maxRange (undefined e)) as Hpos. fold (entryWeight e) in Hpos.
  destruct (shouldFilter upperL best0 (_bounds e)) eqn:Hsf.
  { eexists; split; [reflexivity|]. constructor; cbn; rewrite ?total_snoc, ?length_app; cbn; try done; [|lia..].
    apply Hfate; [done|]. by left. }
  destruct (allDefined_eq ranges params book Hbook Hparams _ l (eo_denotes _ _ _ _ _ _ _ He)) as (b & -> & Hbl). cbn [mbind result_bind].
  destruct b.
  - assert (Hcl : complete l) by (by apply Hbl). destruct (_lowerBound (_bounds e) <? best) eqn:Hlt; bool_to_prop; (eexists; split; [reflexivity|]).
    + constructor; cbn; rewrite ?total_snoc, ?length_app; cbn; try done; [lia| |..|lia|lia|lia].
      * right. exists l. split; [by apply (eo_denotes _ _ _ _ _ _ _ He)|]. split; [|by rewrite (eo_bounds _ _ _ _ _ _ _ He)].
        eapply entry_completion, entry_self_completion; done.
      * apply Hfate; [intros e' He'; fate_old Hf|]. right. left. exists l. by split_and!.
    + constructor; cbn; rewrite ?total_snoc, ?length_app; cbn; try done; [|lia..].
      apply Hfate; [done|]. right. left. exists l. by split_and!.
  - assert (Hcl : ~ complete l) by (intros H; by apply Hbl in H).
    destruct (_ || _) eqn:Hat; (eexists; split; [reflexivity|]).
    + constructor; cbn; rewrite ?total_snoc, ?length_app; cbn; try done; [|..|lia|lia|lia].
      * intros e' [He'| ->%list_elem_of_singleton]%elem_of_app; [by apply HR|by exists l].
      * apply Hfate; [intros e' He'; fate_old Hf|right; right; left; set_solver].
    + bool_to_prop. constructor; cbn; rewrite ?total_snoc, ?length_app; cbn; try done; [|..|lia| |lia].
      * intros e' [He'| ->%list_elem_of_singleton]%elem_of_app; [by apply HK|by exists l].
      * apply Hfate; [intros e' He'; fate_old Hf|right; right; right; set_solver].
      * intros (e' & [He'| ->%list_elem_of_singleton]%elem_of_app & Heq); [|done]. specialize (Hdrop (ex_intro _ e' (conj He' Heq))). lia.
Qed.

Lemma classify_eq lowerL upperL best0 bp wl :
  entries_ok wl -> best_ok best0 bp ->
  exists st, foldM (classifyStep params lowerL upperL best0) wl (best0, bp, [], []) = Ok st /\ classified lowerL upperL best0 wl st.
Proof.
  intros Hwl Hbo. apply (foldM_prefix_inv _ (classified lowerL upperL best0)).
  - constructor; cbn; try done; try lia; try set_solver.
  - intros pre e st He Hst. destruct (Hwl e He) as [l Hl]. by apply (classifyStep_eq lowerL upperL best0 pre st e l).
Qed.

(** ** One iteration *)

(** What an entry is refined to *)
Definition children (e : WorkListEntry) (es : list WorkListEntry) : Prop :=
  exists l i r, entry_ok e l /\ i ∈ params /\ l !! i = Some None /\ ranges !! i = Some r /\
    Forall2 (fun v e' => entry_ok e' (<[i := Some v]> l) /\ undefined e = S (undefined e')) (seqZ 0 r) es.

Lemma refine_children e l : entry_ok e l -> ~ complete l -> exists es, refine ranges boundCallback params e = Ok es /\ children e es.
Proof.
  intros He Hl. destruct (refine_eq ranges params book Hbook Hparams boundCallback bound seed e l Hc Hcb He Hl)
    as (i & r & es & -> & H). exists es. split; [done|]. exists l, i, r. tauto.
Qed.

Lemma children_weight e es : children e es -> (S (total entryWeight es) <= entryWeight e)%nat.
Proof.
  intros (l & i & r & _ & Hi & _ & Hr & Hes). unfold entryWeight at 2.
  pose proof (Forall2_length _ _ _ Hes) as Hlen. rewrite length_seqZ in Hlen. pose proof (maxRange_ge _ _ Hr).
  destruct (undefined e) as [|k] eqn:Hk.
  - destruct Hes as [|v e' ?? [_ [=]]]. unfold total. cbn. lia.
  - cbn [weight]. pose proof (total_le entryWeight es (weight maxRange k)) as Ht.
    assert (total entryWeight es <= length es * weight maxRange k)%nat; [apply Ht|nia].
    intros e' He'. apply list_elem_of_lookup in He' as [j Hj]. destruct (Forall2_lookup_r _ _ _ _ _ Hes Hj) as (v & _ & _ & [= ->]). done.
Qed.

Lemma children_ok e es : children e es -> entries_ok es.
Proof.
  intros (l & i & r & _ & _ & _ & _ & Hes) e' [j Hj]%list_elem_of_lookup.
  destruct (Forall2_lookup_r _ _ _ _ _ Hes Hj) as (v & _ & He' & _). by eexists.
Qed.

(** A completion that an entry stands for is covered after the iteration,
    unless [lowestUpperBound] rules the entry out. *)
Lemma fate_covered lowerL upperL best0 best R K refined e l c c' :
  best <= best0 -> _lowerBound (_bounds e) <= upperL \/ best0 <= _lowerBound (_bounds e) ->
  fate lowerL upperL best0 best R K e -> (forall e', e' ∈ R -> exists es, es ∈ refined /\ children e' es) ->
  entry_ok e l -> completion l c' -> _lowerBound (bound c') <= _lowerBound (bound c) ->
  covered c best (K ++ concat refined).
Proof.
  intros Hb Hup Hf HR He Hc' Hle. pose proof (entry_completion_bound _ _ _ He Hc') as Hlow.
  destruct Hf as [Hf|[(l' & Hl' & Hcl & Hf)|[Hf|[Hf _]]]].
  - left. unfold shouldFilter in Hf. bool_to_prop. lia.
  - left. lia.
  - right. destruct (HR e Hf) as (es & Hes & l0 & i & r & He0 & Hi & Hn & Hr & Hch).
    assert (l0 = l) as -> by (apply (denotes_inj ranges book Hbook (_parameters e)); [apply (eo_denotes _ _ _ _ _ _ _ He0)|apply (eo_denotes _ _ _ _ _ _ _ He)]).
    destruct (completion_insert ranges params l c' i Hc' Hi Hn) as (x & Hx & Hcx).
    assert (Hxr : 0 <= x < r) by (destruct Hc' as ([_ Hw] & _); by apply (Hw i)).
    destruct (Forall2_lookup_l _ _ _ (Z.to_nat x) x Hch) as (e' & He' & Hok & _); [apply lookup_seqZ; lia|].
    exists e', (<[i := Some x]> l), c'. split; [|done]. apply elem_of_app. right. apply elem_of_concat.
    exists es. split; [done|by eapply list_elem_of_lookup_2].
  - right. exists e, l, c'. set_solver.
Qed.

Definition state_ok (st : SearchState) : Prop :=
  entries_ok (_workList st) /\ best_ok (_best st) (_bestParameters st) /\
  forall c, completion seed c -> covered c (_best st) (_workList st).

Lemma searchStep_eq st :
  state_ok st -> _workList st <> [] ->
  exists st', searchStep ranges boundCallback params st = Ok st' /\ state_ok st' /\
    (total entryWeight (_workList st') < total entryWeight (_workList st))%nat.
Proof.
  intros (Hwl & Hbo & Hcov) Hne. unfold searchStep.
  destruct (lowest_spec _lowerBound (_workList st)) as [_ Hlow]; [intros e He; destruct (Hwl e He) as [l Hl]; pose proof (entry_bounds _ _ Hl); lia|].
  destruct (lowest_spec _upperBound (_workList st)) as [Hup Hup']; [intros e He; destruct (Hwl e He) as [l Hl]; pose proof (entry_bounds _ _ Hl); lia|].
  set (lowerL := lowest _lowerBound _) in *. set (upperL := lowest _upperBound _) in *.
  destruct (classify_eq lowerL upperL (_best st) (_bestParameters st) (_workList st) Hwl Hbo) as ([[[best bp] R] K] & -> & Hcl).
  destruct Hcl as [Hb Hbo' HR HK Hf _ Hdrop Hw]. cbn in *.
  destruct (mapM_exists (refine ranges boundCallback params) children R) as (refined & -> & Hch).
  { intros e He. destruct (HR e He) as (l & Hl & Hnc). by apply (refine_children e l). }
  cbn [mbind result_bind]. eexists; split; [reflexivity|]. cbn.
  assert (HRch : forall e', e' ∈ R -> exists es, es ∈ refined /\ children e' es).
  { intros e' [j Hj]%list_elem_of_lookup. destruct (Forall2_lookup_l _ _ _ _ _ Hch Hj) as (es & Hes & ?). exists es. split; [by eapply list_elem_of_lookup_2|done]. }
  split; [split; [|split; [done|]]|].
  - intros e [He|(es & Hes & He)%elem_of_concat]%elem_of_app; [by apply HK|].
    apply list_elem_of_lookup in Hes as [j Hj]. destruct (Forall2_lookup_r _ _ _ _ _ Hch Hj) as (e0 & _ & He0). by apply (children_ok e0 es).
  - intros c Hcs. destruct (Hcov c Hcs) as [Hc1|(e & l & c' & He & Hl & Hc' & Hle)]; [left; cbn; lia|].
    destruct (Z.le_gt_cases (_lowerBound (_bounds e)) upperL) as [Hle'|Hgt].
    { apply (fate_covered lowerL upperL (_best st) best R K refined e l c c'); auto. }
    destruct (Hup' Hne) as (e2 & He2 & Hu2). destruct (Hwl e2 He2) as [l2 Hl2]. pose proof (entry_bounds _ _ Hl2).
    destruct (bc_attained _ _ _ Hc l2 (entry_wf _ _ Hl2)) as (c2 & Hc2 & Hc2b). rewrite <- (eo_bounds _ _ _ _ _ _ _ Hl2) in Hc2b.
    pose proof (entry_completion_bound _ _ _ Hl Hc').
    apply (fate_covered lowerL upperL (_best st) best R K refined e2 l2 c c2); auto; [left; lia|lia].
  - rewrite total_app. pose proof (total_concat entryWeight entryWeight R refined) as Ht.
    assert (total entryWeight (concat refined) + length R <= total entryWeight R)%nat.
    { apply Ht. eapply Forall2_impl; [exact Hch|]. intros e es. apply children_weight. }
    specialize (Hdrop (Hlow Hne)). lia.
Qed.

(** ** The loop *)

Lemma length_le_total wl : (length wl <= total entryWeight wl)%nat.
Proof.
  unfold total. induction wl as [|e wl IH]; cbn; [lia|]. pose proof (weight_pos maxRange (undefined e)). unfold entryWeight at 1. lia.
Qed.

Lemma searchLoop_eq fuel max st :
  state_ok st -> (total entryWeight (_workList st) <= fuel)%nat ->
  exists r, searchLoop ranges boundCallback params fuel max st = Ok r /\
    (r = None -> exists m, max = Some m /\ m < total entryWeight (_workList st) /\ 1 < size params)%nat /\
    forall st', r = Some st' -> state_ok st' /\ _workList st' = [].
Proof.
  revert st; induction fuel as [|fuel IH]; intros st Hst Hfuel.
  - assert (Hnil : _workList st = []).
    { destruct (_workList st) as [|e wl] eqn:Hwl; [done|]. unfold total in Hfuel. cbn in Hfuel.
      pose proof (weight_pos maxRange (undefined e)). unfold entryWeight in Hfuel. lia. }
    cbn. rewrite Hnil. exists (Some st). split; [done|]. split; [done|]. by intros ? [= <-].
  - destruct (_workList st) as [|e wl] eqn:Hwl.
    { cbn. rewrite Hwl. exists (Some st). split; [done|]. split; [done|]. by intros ? [= <-]. }
    cbn [searchLoop]. rewrite Hwl. destruct (match max with Some _ => _ | None => _ end) eqn:Hmax.
    { exists None. split; [done|]. split; [|done]. intros _. destruct max as [m|]; [|done]. apply andb_true_iff in Hmax as [Hm Hs].
      apply Nat.ltb_lt in Hm, Hs. exists m. split; [done|]. split; [|done]. eapply Nat.lt_le_trans; [exact Hm|apply length_le_total]. }
    destruct (searchStep_eq st Hst) as (st' & -> & Hst' & Hlt); [by rewrite Hwl|]. cbn [mbind result_bind].
    rewrite Hwl in Hlt. destruct (IH st' Hst') as (r & -> & Hr & Hrest); [cbn in Hfuel, Hlt |- *; lia|]. exists r. split; [done|]. split; [|done].
    intros Hn. destruct (Hr Hn) as (m & -> & Hm & Hs). exists m. split; [done|]. split; [lia|done].
Qed.

End Correct.
End BranchAndBoundCorrect.
