(* ===== verification/BranchAndBoundOptimal.v ===== *)
(** * The vectors that branch and bound returns

    [IntegerBranchAndBoundImpl] and [IntegerBranchAndBound] from their
    arguments to their result. *)

From S2P Require Import Prelude MachineInt CompressedVector CompressedVectorCorrect BranchAndBound BranchAndBoundSpec.
Import MachineInt CompressedVector CompressedVectorCorrect BranchAndBound BranchAndBoundSpec BranchAndBoundCorrect.

Module BranchAndBoundOptimal.

(** The vector of the fixed values *)
Definition seedOf (ranges : list Z) (fixed : list (nat * Z)) : list (option Z) :=
  fold_left (fun l w => <[w.1 := Some w.2]> l) fixed (replicate (length ranges) None).

(** The callback computes [bound] of what it reads, when that is in range. *)
Definition computes (ranges : list Z) (boundCallback : IntegerParameterVector -> ObjectiveFunctionBounds)
    (bound : list (option Z) -> ObjectiveFunctionBounds) : Prop :=
  forall p l, pvec_wf ranges l -> reads p l -> boundCallback p = bound l.

Definition ranges_ok (ranges : list Z) : Prop := ranges <> [] /\ Forall (fun r => 0 < r <= 2 ^ 63) ranges.

(** An entry of [fixedParameterValues] is in its range. *)
Definition fixed_ok (ranges : list Z) (fixed : list (nat * Z)) : Prop :=
  NoDup fixed.*1 /\ forall i x, (i, x) ∈ fixed -> exists r, ranges !! i = Some r /\ 0 <= x < r.

Lemma weight_mono R k k' : (k <= k')%nat -> (weight R k <= weight R k')%nat.
Proof.
  intros H. induction H as [|k' _ IH]; [done|]. cbn. pose proof (weight_pos R k). destruct R as [|R]; [|nia].
  destruct k; cbn in *; lia.
Qed.

Lemma seedOf_lookup_ne (fixed : list (nat * Z)) (l : list (option Z)) i :
  i ∉ fixed.*1 -> fold_left (fun l w => <[w.1 := Some w.2]> l) fixed l !! i = l !! i.
Proof.
  revert l. induction fixed as [|[j y] fixed IH]; intros l Hi; [done|]. cbn in *. rewrite IH by set_solver.
  apply list_lookup_insert_ne. set_solver.
Qed.

Lemma seedOf_lookup (l : list (option Z)) (fixed : list (nat * Z)) i x :
  NoDup fixed.*1 -> (forall j y, (j, y) ∈ fixed -> (j < length l)%nat) -> (i, x) ∈ fixed ->
  fold_left (fun l w => <[w.1 := Some w.2]> l) fixed l !! i = Some (Some x).
Proof.
  revert l. induction fixed as [|[j y] fixed IH]; intros l Hnd Hlt Hin; [set_solver|]. cbn in *. apply NoDup_cons in Hnd as [Hj Hnd].
  apply elem_of_cons in Hin as [[= -> ->]|Hin].
  - rewrite seedOf_lookup_ne by done. apply list_lookup_insert_eq. apply (Hlt j y). set_solver.
  - apply IH; [done| |done]. intros k z Hk. rewrite length_insert. apply (Hlt k z). set_solver.
Qed.

Section Result.
Context (ranges : list Z) (params : gset nat) (Hranges : ranges_ok ranges) (Hparams : forall i, i ∈ params -> (i < length ranges)%nat).
Context (boundCallback : IntegerParameterVector -> ObjectiveFunctionBounds) (bound : list (option Z) -> ObjectiveFunctionBounds).
Context (Hc : bound_contract ranges params bound) (Hcb : computes ranges boundCallback bound).
Context (fixed : list (nat * Z)) (Hfixed : fixed_ok ranges fixed).

Lemma seedEntry_eq book :
  book_wf ranges book ->
  exists e, seedEntry boundCallback book fixed = Ok e /\ entry_ok ranges params book bound (seedOf ranges fixed) e (seedOf ranges fixed).
Proof.
  intros Hb. unfold seedEntry, seedOf. destruct Hfixed as [Hnd Hin].
  assert (Hgen : forall ws p l, denotes ranges book p l -> NoDup ws.*1 ->
    (forall i x, (i, x) ∈ ws -> l !! i = Some None /\ exists r, ranges !! i = Some r /\ 0 <= x < r) ->
    exists p', foldM (fun params w => defined ← IsParameterDefined params w.1; assert_ (negb defined);; SetParameter params w.1 w.2) ws p = Ok p' /\
      denotes ranges book p' (fold_left (fun l w => <[w.1 := Some w.2]> l) ws l)).
  { clear - Hb. induction ws as [|[i x] ws IH]; intros p l Hd Hnd Hin; [by exists p|]. cbn in *. apply NoDup_cons in Hnd as [Hi Hnd].
    destruct (Hin i x) as (Hn & r & Hr & Hx); [set_solver|].
    destruct (denotes_lookup ranges book Hb p l i None Hd Hn) as (-> & _). cbn [mbind result_bind].
    rewrite bool_decide_eq_false_2 by (intros [? ?]; done). cbn [negb assert_ mbind result_bind].
    destruct (SetParameter_eq ranges book Hb p l i x r Hd Hr Hx) as (p' & -> & Hd'). cbn [mbind result_bind].
    apply IH; [done..|]. intros j y Hj. destruct (Hin j y) as (Hjn & Hjr); [set_solver|]. split; [|done].
    rewrite list_lookup_insert_ne; [done|]. intros ->. apply Hi. apply list_elem_of_fmap. by exists (j, y). }
  destruct (Hgen fixed _ _ (denotes_empty ranges book Hb) Hnd) as (p & -> & Hd).
  { intros i x Hix. destruct (Hin i x Hix) as (r & Hr & Hx). split; [|by exists r]. apply lookup_replicate. split; [done|]. by eapply lookup_lt_Some. }
  cbn [mbind result_bind]. eexists; split; [reflexivity|]. constructor; cbn; [done| |done|done].
  apply Hcb; [by apply (denotes_wf ranges book Hb p)|by apply (denotes_reads ranges book Hb)].
Qed.

Notation seed := (seedOf ranges fixed).

Lemma seed_state_ok book e :
  book_wf ranges book -> entry_ok ranges params book bound seed e seed ->
  state_ok ranges params book bound seed (mkSearchState [e] size_max IntegerParameterVector_empty).
Proof.
  intros Hb He. split; [|split]; cbn.
  - intros e' ->%list_elem_of_singleton. by exists seed.
  - by left.
  - intros c Hcs. right. exists e, seed, c. split_and!; try done. set_solver.
Qed.

Lemma IntegerBranchAndBoundImpl_eq fuel max :
  params <> ∅ -> (weight (maxRange ranges) (size params) <= fuel)%nat ->
  exists r, IntegerBranchAndBoundImpl ranges boundCallback params fuel max fixed = Ok r /\
    (r = None -> exists m, max = Some m /\ m < weight (maxRange ranges) (size params) /\ 1 < size params)%nat /\
    forall p, r = Some p -> exists l, reads p l /\ completion ranges params seed l /\
      forall c, completion ranges params seed c -> _lowerBound (bound l) <= _lowerBound (bound c).
Proof.
  intros Hp Hfuel. unfold IntegerBranchAndBoundImpl. destruct Hranges as [Hne Hr].
  rewrite (assert_true (negb (length ranges =? 0)%nat)) by (apply negb_true_iff, Nat.eqb_neq; by intros ?%nil_length_inv). cbn [mbind result_bind].
  rewrite (assert_true (negb (bool_decide (params = ∅)))) by (by rewrite bool_decide_eq_false_2). cbn [mbind result_bind].
  rewrite (mapM_Ok _ (fun _ => tt)).
  2: { intros r Hin. rewrite Forall_forall in Hr. rewrite assert_true; [done|]. apply Z.ltb_lt. by apply Hr. }
  cbn [mbind result_bind]. destruct (CreateCodeBook_eq ranges Hr) as (book & -> & Hb). cbn [mbind result_bind].
  destruct (seedEntry_eq book Hb) as (e & -> & He). cbn [mbind result_bind].
  assert (Hreads : callback_reads ranges book boundCallback bound) by (intros p l Hd; apply Hcb; [by apply (denotes_wf ranges book Hb p)|by apply (denotes_reads ranges book Hb)]).
  assert (Hweight : (total (entryWeight ranges params) [e] <= weight (maxRange ranges) (size params))%nat).
  { unfold total, entryWeight. cbn. rewrite Nat.add_0_r. apply weight_mono. unfold undefined. apply subseteq_size. set_solver. }
  destruct (searchLoop_eq ranges params book Hb Hparams boundCallback bound Hc Hreads seed fuel max _ (seed_state_ok book e Hb He))
    as (r & -> & Hmax & Hst).
  { cbn. lia. }
  cbn [mbind result_bind]. destruct r as [st|].
  2: { exists None. split; [done|]. split; [|done]. intros _. destruct (Hmax eq_refl) as (m & -> & Hm & Hs). exists m.
       split; [done|]. split; [|done]. eapply Nat.lt_le_trans; [exact Hm|exact Hweight]. } destruct (Hst st eq_refl) as ((_ & Hbest & Hcov) & Hnil).
  assert (Hseedwf : pvec_wf ranges seed) by (by apply (denotes_wf ranges book Hb (_parameters e)); apply (eo_denotes _ _ _ _ _ _ _ He)).
  assert (Hcov' : forall c, completion ranges params seed c -> _best st <= _lowerBound (bound c)).
  { intros c Hcs. destruct (Hcov c Hcs) as [?|(e' & ? & ? & He' & _)]; [done|]. rewrite Hnil in He'. set_solver. }
  destruct (bc_attained _ _ _ Hc seed Hseedwf) as (c0 & Hc0 & _).
  assert (Hlt : _best st < size_max).
  { pose proof (Hcov' c0 Hc0). destruct (id Hc0) as (Hw & _ & Hcm & _). pose proof (bc_finite _ _ _ Hc c0 Hw Hcm). lia. }
  destruct Hbest as [Hbest|(l & Hd & Hl & Hbest)]; [lia|].
  rewrite (assert_true (negb (_best st =? size_max))) by (apply negb_true_iff, Z.eqb_neq; lia). cbn [mbind result_bind].
  destruct (id Hl) as (_ & Href & Hcm & _).
  rewrite (mapM_Ok _ (fun _ => tt) (set_elements params)).
  2: { intros i Hi%elem_of_set_elements. destruct (Hcm i Hi) as (x & Hx). destruct (denotes_lookup ranges book Hb _ l i _ Hd Hx) as (-> & _). done. }
  cbn [mbind result_bind]. rewrite (mapM_Ok _ (fun _ => tt)).
  2: { intros [i x] Hi. destruct Hfixed as [Hnd Hin].
       assert (Hx : l !! i = Some (Some x)).
       { apply Href, seedOf_lookup; [done| |done]. intros j y Hj. rewrite length_replicate. destruct (Hin j y Hj) as (r & Hjr & _). by eapply lookup_lt_Some. }
       destruct (denotes_lookup ranges book Hb _ l i _ Hd Hx) as (_ & Hg & _). cbn. rewrite (Hg x eq_refl). cbn. by rewrite Z.eqb_refl. }
  cbn [mbind result_bind]. eexists; split; [reflexivity|]. split; [done|]. intros p [= <-].
  exists l. split; [by apply (denotes_reads ranges book Hb)|]. split; [done|]. intros c Hcs. rewrite <- Hbest. by apply Hcov'.
Qed.

End Result.
(** ** A cost function: the squares of the distances to 1 *)

(** The vector that the operations show *)
Definition view (p : IntegerParameterVector) : list (option Z) :=
  (fun i => match IsParameterDefined p i with
            | Ok true => match GetParameter p i with Ok x => Some x | Err _ => None end
            | _ => None
            end) <$> seq 0 (GetParameterCount p).

Lemma view_reads p l : reads p l -> view p = l.
Proof.
  intros [Hl Hr]. unfold view. rewrite Hl. apply list_eq. intros i. rewrite list_lookup_fmap.
  destruct (decide (i < length l)%nat) as [Hi|Hi].
  - rewrite lookup_seq_lt by done. cbn. destruct (lookup_lt_is_Some_2 l i Hi) as [o Ho]. destruct (Hr i o Ho) as [-> Hx].
    rewrite Ho. destruct o as [x|]; [rewrite bool_decide_eq_true_2 by (by eexists); by rewrite (Hx x)|].
    by rewrite bool_decide_eq_false_2 by (intros [? ?]; done).
  - rewrite lookup_seq_ge, lookup_ge_None_2 by lia. done.
Qed.

Definition demoCost (o : option Z) : Z := match o with Some x => (x - 1) * (x - 1) | None => 0 end.
Definition demoSlack (o : option Z) : Z := match o with Some _ => 0 | None => 1 end.
Definition demoBound (l : list (option Z)) : ObjectiveFunctionBounds :=
  match l with
  | [a; b] => mkBounds (demoCost a + demoCost b) (demoCost a + demoCost b + demoSlack a + demoSlack b)
  | _ => mkBounds 0 0
  end.

Lemma demo_computes : computes [3; 2] (fun p => demoBound (view p)) demoBound.
Proof. intros p l _ H. by rewrite (view_reads p l H). Qed.

Lemma demo_wf l : pvec_wf [3; 2] l -> exists a b, l = [a; b] /\ (forall x, a = Some x -> 0 <= x < 3) /\ (forall x, b = Some x -> 0 <= x < 2).
Proof.
  intros [Hl Hr]. destruct l as [|a [|b []]]; try done. exists a, b. split; [done|]. split; intros x ->.
  - by apply (Hr 0%nat x 3).
  - by apply (Hr 1%nat x 2).
Qed.

Lemma demo_contract params : (forall i, i ∈ params -> (i < 2)%nat) -> bound_contract [3; 2] params demoBound.
Proof.
  intros Hp. constructor.
  - intros l (a & b & -> & _)%demo_wf. cbn. destruct a, b; cbn; lia.
  - intros l (a & b & -> & Ha & Hb)%demo_wf. cbn. unfold size_max. destruct a as [x|], b as [y|]; cbn;
      try pose proof (Ha _ eq_refl); try pose proof (Hb _ eq_refl); nia.
  - intros l l' (a & b & -> & _)%demo_wf (a' & b' & -> & Ha & Hb)%demo_wf Href. cbn.
    assert (H0 : forall x, a = Some x -> a' = Some x) by (intros x ->; specialize (Href 0%nat x eq_refl); by injection Href).
    assert (H1 : forall x, b = Some x -> b' = Some x) by (intros x ->; specialize (Href 1%nat x eq_refl); by injection Href).
    assert (Hsq : forall o, 0 <= demoCost o) by (intros [x|]; cbn; nia).
    assert (demoCost a <= demoCost a') by (destruct a; [by rewrite (H0 _ eq_refl)|apply Hsq]).
    assert (demoCost b <= demoCost b') by (destruct b; [by rewrite (H1 _ eq_refl)|apply Hsq]). lia.
  - intros l Hwf. destruct (demo_wf l Hwf) as (a & b & -> & Ha & Hb).
    set (fill := fun (i : nat) (o : option Z) => match o with Some x => Some x | None => if decide (i ∈ params) then Some 1 else None end).
    exists [fill 0%nat a; fill 1%nat b]. split; [split; [|split; [|split]]|].
    + split; [done|]. intros [|[|i]] x r [= Hx] [= <-]; unfold fill in Hx; [destruct a as [z|]|destruct b as [z|]]; try (injection Hx as <-); auto;
        destruct (decide _); naive_solver lia.
    + intros [|[|i]] x [= Hx]; cbn; unfold fill; by rewrite Hx.
    + intros i Hi. pose proof (Hp i Hi). destruct i as [|[|i]]; [| |lia]; cbn; unfold fill; [destruct a|destruct b]; try (by eexists);
        rewrite decide_True by done; by eexists.
    + intros [|[|i]] Hi; cbn; unfold fill; [destruct a|destruct b|done]; try done; by rewrite decide_False.
    + cbn. unfold fill. destruct a, b; cbn; repeat destruct (decide _); cbn; lia.
  - intros c (a & b & -> & Ha & Hb)%demo_wf _. cbn. unfold size_max. destruct a as [x|], b as [y|]; cbn;
      try pose proof (Ha _ eq_refl); try pose proof (Hb _ eq_refl); nia.
Qed.

(** C32: the search with fixed values and a bound on the work list ends and
    raises no assertion; it gives up only when there is such a bound; the
    vector that it passes to the last call of the callback keeps the fixed
    values and is the best of all the ways to define the other parameters. *)
Theorem IntegerBranchAndBoundImpl_optimal ranges params boundCallback bound fixed fuel max :
  ranges_ok ranges -> params <> ∅ -> (forall i, i ∈ params -> (i < length ranges)%nat) ->
  bound_contract ranges params bound -> computes ranges boundCallback bound -> fixed_ok ranges fixed ->
  (weight (maxRange ranges) (size params) <= fuel)%nat ->
  exists r, IntegerBranchAndBoundImpl ranges boundCallback params fuel max fixed = Ok r /\
    (r = None -> exists m, max = Some m /\ m < weight (maxRange ranges) (size params) /\ 1 < size params)%nat /\
    forall p, r = Some p -> exists l, reads p l /\ completion ranges params (seedOf ranges fixed) l /\
      forall c, completion ranges params (seedOf ranges fixed) c -> _lowerBound (bound l) <= _lowerBound (bound c).
Proof. intros. by apply IntegerBranchAndBoundImpl_eq. Qed.

(** The second parameter is fixed. *)
Lemma IntegerBranchAndBoundImpl_optimal_witness :
  IntegerBranchAndBoundImpl [3; 2] (fun p => demoBound (view p)) {[0%nat]} 100 (Some 5%nat) [(1%nat, 0)]
    = Ok (Some (mkIntegerParameterVector (mkCompressedIntegerVector (Some (mkCodeBook 1 [mkCodeBookEntry 0 0 3 3 false; mkCodeBookEntry 0 2 4 2 false])) [1]) [true; true])) /\
  exists r, IntegerBranchAndBoundImpl [3; 2] (fun p => demoBound (view p)) {[0%nat]} 100 (Some 5%nat) [(1%nat, 0)] = Ok r /\
    (r = None -> exists m, Some 5 = Some m /\ m < weight (maxRange [3%Z; 2%Z]) (size ({[0]} : gset nat)) /\ 1 < size ({[0]} : gset nat))%nat /\
    forall p, r = Some p -> exists l, reads p l /\ completion [3; 2] {[0%nat]} [None; Some 0] l /\
      forall c, completion [3; 2] {[0%nat]} [None; Some 0] c -> _lowerBound (demoBound l) <= _lowerBound (demoBound c).
Proof.
  split; [vm_compute; reflexivity|].
  apply (IntegerBranchAndBoundImpl_optimal [3; 2] {[0%nat]} (fun p => demoBound (view p)) demoBound [(1%nat, 0)] 100 (Some 5%nat)).
  - split; [done|]. repeat constructor; vm_compute; congruence.
  - by vm_compute.
  - intros i ->%elem_of_singleton. cbn. lia.
  - apply demo_contract. intros i ->%elem_of_singleton. lia.
  - apply demo_computes.
  - split; [repeat constructor; set_solver|]. intros i x [= -> ->]%list_elem_of_singleton. exists 2. done.
  - vm_compute. lia.
Defined.

Definition in_ranges (ranges xs : list Z) : Prop := Forall2 (fun r x => 0 <= x < r) ranges xs.

Lemma in_ranges_completion ranges xs :
  in_ranges ranges xs -> completion ranges (list_to_set (seq 0 (length ranges))) (replicate (length ranges) None) (Some <$> xs).
Proof.
  intros H. pose proof (Forall2_length _ _ _ H) as Hl. split; [|split; [|split]].
  - split; [by rewrite length_fmap|]. intros i x r Hx Hr. rewrite list_lookup_fmap in Hx. destruct (xs !! i) as [y|] eqn:Hy; [|done].
    injection Hx as ->. by apply (Forall2_lookup_lr _ _ _ _ _ _ H Hr Hy).
  - intros i x Hx. apply lookup_replicate in Hx as [? _]. done.
  - intros i Hi%elem_of_list_to_set%elem_of_seq. destruct (lookup_lt_is_Some_2 xs i) as [x Hx]; [lia|]. exists x. by rewrite list_lookup_fmap, Hx.
  - intros i Hi. rewrite elem_of_list_to_set, elem_of_seq in Hi. rewrite !lookup_ge_None_2; [done|..]; rewrite ?length_fmap, ?length_replicate; lia.
Qed.

Lemma completion_in_ranges ranges l :
  completion ranges (list_to_set (seq 0 (length ranges))) (replicate (length ranges) None) l -> exists xs, l = Some <$> xs /\ in_ranges ranges xs.
Proof.
  intros ([Hl Hr] & _ & Hcm & _).
  assert (Hl' : Forall (fun o => is_Some o) l).
  { apply Forall_lookup. intros i o Ho. destruct (Hcm i) as (x & Hx); [|rewrite Ho in Hx; injection Hx as ->; by exists x].
    apply elem_of_list_to_set, elem_of_seq. apply lookup_lt_Some in Ho. lia. }
  assert (Hgen : forall l : list (option Z), Forall (fun o => is_Some o) l -> exists xs, l = Some <$> xs).
  { clear. induction 1 as [|o l [x ->] _ (xs & ->)]; [by exists []|by exists (x :: xs)]. }
  destruct (Hgen l Hl') as (xs & ->). exists xs. split; [done|]. rewrite length_fmap in Hl. apply Forall2_same_length_lookup_2; [done|].
  intros i r x Hi Hx. apply (Hr i x r); [|done]. by rewrite list_lookup_fmap, Hx.
Qed.

(** C14: branch and bound over all parameters returns an assignment in range
    that is no worse than any other, for every objective function whose
    callback keeps its documented contract. *)
Theorem IntegerBranchAndBound_optimal ranges boundCallback bound fuel :
  ranges_ok ranges -> bound_contract ranges (list_to_set (seq 0 (length ranges))) bound -> computes ranges boundCallback bound ->
  (weight (maxRange ranges) (length ranges) <= fuel)%nat ->
  exists p xs, IntegerBranchAndBound fuel ranges boundCallback = Ok p /\ reads p (Some <$> xs) /\ in_ranges ranges xs /\
    forall ys, in_ranges ranges ys -> _lowerBound (bound (Some <$> xs)) <= _lowerBound (bound (Some <$> ys)).
Proof.
  intros Hr Hc Hcb Hfuel. unfold IntegerBranchAndBound. destruct (id Hr) as [Hne _].
  rewrite (proj2 (Nat.eqb_neq (length ranges) 0)) by (by intros ?%nil_length_inv).
  set (params := list_to_set (seq 0 (length ranges))) in *.
  assert (Hsize : size params = length ranges).
  { unfold params. rewrite size_list_to_set by apply NoDup_seq. by rewrite length_seq. }
  destruct (IntegerBranchAndBoundImpl_eq ranges params Hr) with (boundCallback := boundCallback) (bound := bound) (fixed := @nil (nat * Z)) (fuel := fuel) (max := @None nat)
    as (r & -> & Hmax & Hp); try done.
  - intros i Hi%elem_of_list_to_set%elem_of_seq. lia.
  - split; [constructor|]. intros i x Hx. set_solver.
  - intros H0. rewrite H0, size_empty in Hsize. by destruct ranges.
  - by rewrite Hsize.
  - cbn [mbind result_bind]. destruct r as [p|]; [|by destruct (Hmax eq_refl) as (m & ? & _)].
    destruct (Hp p eq_refl) as (l & Hl & Hcm & Hopt). destruct (completion_in_ranges ranges l Hcm) as (xs & -> & Hxs).
    exists p, xs. split; [done|]. split; [done|]. split; [done|]. intros ys Hys. apply Hopt. by apply in_ranges_completion.
Qed.

(** Two parameters: the best values are 1 and 1. *)
Lemma IntegerBranchAndBound_optimal_witness :
  (p ← IntegerBranchAndBound 100 [3; 2] (fun p => demoBound (view p)); Ok (view p)) = Ok [Some 1; Some 1] /\
  exists p xs, IntegerBranchAndBound 100 [3; 2] (fun p => demoBound (view p)) = Ok p /\ reads p (Some <$> xs) /\ in_ranges [3; 2] xs /\
    forall ys, in_ranges [3; 2] ys -> _lowerBound (demoBound (Some <$> xs)) <= _lowerBound (demoBound (Some <$> ys)).
Proof.
  split; [vm_compute; reflexivity|]. apply IntegerBranchAndBound_optimal.
  - split; [done|]. repeat constructor; vm_compute; congruence.
  - apply demo_contract. intros i Hi%elem_of_list_to_set%elem_of_seq. cbn in Hi. lia.
  - apply demo_computes.
  - vm_compute. lia.
Defined.

End BranchAndBoundOptimal.
