(* ===== verification/BranchAndBoundSparse.v ===== *)
(** * Branch and bound over a graph of interactions

    [branch_and_bound.cpp]: [IntegerBranchAndBoundSparse] and the functions on
    graphs that it calls.

    A [boost::adjacency_list] is the property of its vertices and its edges, in
    the order in which they were added.  The algorithms of the Boost graph
    library are parameters: [connected_components] returns the number of
    components and the component of each vertex, [articulation_points] a list
    of vertices and [degree] the number of edges of a vertex. *)

From S2P Require Import Prelude MachineInt CompressedVector BranchAndBound.
Import MachineInt Containers CompressedVector BranchAndBound.

Module BranchAndBoundSparse.

(** [_color] of a vertex is the index of its parameter. *)
Record UndirectedGraph : Type := mkGraph { _color : list nat; _edges : list (nat * nat) }.

Definition num_vertices (g : UndirectedGraph) : nat := length (_color g).

(** [Subgraph], its two loops: the vertices and the edges to keep *)
Definition subgraphVertex (srcGraph : UndirectedGraph) (predicate : nat -> result bool)
    (st : gmap nat nat * list nat) (vertexIdInSrcGraph : nat) : result (gmap nat nat * list nat) :=
  let '(srcToNewVertex, color) := st in
  p ← predicate vertexIdInSrcGraph;
  if p : bool then
    srcToNewVertex ← SafeInsert srcToNewVertex vertexIdInSrcGraph (length color);
    parameterIndex ← at_ (_color srcGraph) vertexIdInSrcGraph;
    Ok (srcToNewVertex, color ++ [parameterIndex])
  else Ok (srcToNewVertex, color).

Definition subgraphEdge (predicate : nat -> result bool) (srcToNewVertex : gmap nat nat)
    (edges : list (nat * nat)) (edge : nat * nat) : result (list (nat * nat)) :=
  p ← predicate edge.1;
  q ← (if p : bool then predicate edge.2 else Ok false);
  if q : bool then
    srcInNewGraph ← SafeLookup srcToNewVertex edge.1;
    targetInNewGraph ← SafeLookup srcToNewVertex edge.2;
    assert_ (negb (srcInNewGraph =? targetInNewGraph)%nat);;
    Ok (edges ++ [(srcInNewGraph, targetInNewGraph)])
  else Ok edges.

Definition Subgraph (srcGraph : UndirectedGraph) (predicate : nat -> result bool) : result UndirectedGraph :=
  '(srcToNewVertex, color) ← foldM (subgraphVertex srcGraph predicate) (seq 0 (num_vertices srcGraph)) (∅, []);
  assert_ (negb (bool_decide (srcToNewVertex = ∅)));;
  edges ← foldM (subgraphEdge predicate srcToNewVertex) (_edges srcGraph) [];
  Ok (mkGraph color edges).

Definition componentPredicate (componentVector : list nat) (componentIndex vertexId : nat) : result bool :=
  assert_ (vertexId <? length componentVector)%nat;;
  thisVertexComponentIndex ← at_ componentVector vertexId;
  Ok (thisVertexComponentIndex =? componentIndex)%nat.

(** What the function appends to [outputList] *)
Definition DecomposeConnectedComponents (srcGraph : UndirectedGraph) (componentVector : list nat) (connectedComponentCount : nat)
    : result (list UndirectedGraph) :=
  assert_ (1 <? connectedComponentCount)%nat;;
  mapM_ (fun componentIndex => Subgraph srcGraph (componentPredicate componentVector componentIndex)) (seq 0 connectedComponentCount).

Definition RemoveVertex (srcGraph : UndirectedGraph) (vertexToRemove : nat) : result (list UndirectedGraph) :=
  g ← Subgraph srcGraph (fun vertexId => Ok (negb (vertexId =? vertexToRemove)%nat));
  g' ← Subgraph srcGraph (fun vertexId => Ok (vertexId =? vertexToRemove)%nat);
  Ok [g; g'].

Definition GetParameterSet (srcGraph : UndirectedGraph) : result (gset nat) :=
  foldM (fun result vertexId => parameterIndex ← at_ (_color srcGraph) vertexId; SafeInsert_set result parameterIndex)
    (seq 0 (num_vertices srcGraph)) ∅.

Section Sparse.
Context (connected_components : UndirectedGraph -> nat * list nat).
Context (articulation_points : UndirectedGraph -> list nat).
Context (degree : nat -> UndirectedGraph -> nat).

(** A candidate of largest degree, the last one of them *)
Definition SelectVertexToRemove (srcGraph : UndirectedGraph) : result nat :=
  let points := articulation_points srcGraph in
  let candidateVertices := match points with [] => seq 0 (num_vertices srcGraph) | _ => points end in
  assert_ (negb (length candidateVertices =? 0)%nat);;
  let '(maxDegreeVertex, _) :=
    fold_left (fun (m : option nat * nat) vertex => let d := degree vertex srcGraph in if (m.2 <=? d)%nat then (Some vertex, d) else m)
      candidateVertices (None, 0%nat) in
  of_option AssertionFailed maxDegreeVertex.

Context (parameterRanges : list Z) (boundCallback : IntegerParameterVector -> ObjectiveFunctionBounds).

(** [boost::add_edge] grows the graph when a vertex is not in it; the model
    stops instead: the interactions are between parameters. *)
Definition addInteraction (p : nat) (st : gset (nat * nat) * list (nat * nat)) (otherVertex : nat)
    : result (gset (nat * nat) * list (nat * nat)) :=
  let '(edges, graphEdges) := st in
  if (otherVertex =? p)%nat then Ok st
  else
    let v1 := Nat.min p otherVertex in
    let v2 := Nat.max p otherVertex in
    assert_ (negb (v1 =? v2)%nat);;
    assert_ (v1 <? v2)%nat;;
    if bool_decide ((v1, v2) ∈ edges) then Ok st
    else if (v2 <? length parameterRanges)%nat then Ok ({[(v1, v2)]} ∪ edges, graphEdges ++ [(v1, v2)])
    else Err OutOfRange.

(** The graph of the full search space *)
Definition fullGraph (interactions : list (nat * list nat)) : result UndirectedGraph :=
  st ← foldM (fun st (p : nat * list nat) => foldM (addInteraction p.1) p.2 st) interactions (∅, []);
  Ok (mkGraph (seq 0 (length parameterRanges)) st.2).

Record SparseState : Type := mkSparseState {
  _graphs : list UndirectedGraph; _optimalValues : gmap nat Z; _maxSearchSpaceSize : Z }.

(** The last call of [boundCallbackWrapper]: the values that are defined *)
Definition recordOptimum (optimalValues : gmap nat Z) (paramVector : IntegerParameterVector) : result (gmap nat Z) :=
  foldM (fun optimalValues i =>
    defined ← IsParameterDefined paramVector i;
    if defined : bool then parameterValue ← GetParameter paramVector i; SafeInsertIdempotent optimalValues i parameterValue
    else Ok optimalValues) (seq 0 (GetParameterCount paramVector)) optimalValues.

(** [logSearchSpaceSize] *)
Definition searchSpaceSize (parametersToOptimize : gset nat) : result Z :=
  foldM (fun size parameterIndex => r ← at_ parameterRanges parameterIndex; Ok (u64_add size r)) (set_elements parametersToOptimize) 0.

(** One graph of the work list *)
Definition sparseStep (fuel maxWorkListSize : nat) (srcGraph : UndirectedGraph) (st : SparseState) : result SparseState :=
  let '(connectedComponentCount, componentVector) := connected_components srcGraph in
  if (1 <? connectedComponentCount)%nat then
    gs ← DecomposeConnectedComponents srcGraph componentVector connectedComponentCount;
    Ok (mkSparseState (_graphs st ++ gs) (_optimalValues st) (_maxSearchSpaceSize st))
  else
    parametersToOptimize ← GetParameterSet srcGraph;
    logSearchSpaceSize ← searchSpaceSize parametersToOptimize;
    optimizeResult ←
      (if (logSearchSpaceSize <? _maxSearchSpaceSize st) || (size parametersToOptimize =? 1)%nat then
         IntegerBranchAndBoundImpl parameterRanges boundCallback parametersToOptimize fuel (Some maxWorkListSize)
           (map_entries (_optimalValues st))
       else Ok None);
    let maxSearchSpaceSize :=
      if (logSearchSpaceSize <? _maxSearchSpaceSize st) || (size parametersToOptimize =? 1)%nat then
        match optimizeResult with Some _ => _maxSearchSpaceSize st | None => logSearchSpaceSize end
      else _maxSearchSpaceSize st in
    match optimizeResult with
    | Some paramVector =>
        optimalValues ← recordOptimum (_optimalValues st) paramVector;
        mapM_ (fun paramIndex => assert_ (bool_decide (is_Some (optimalValues !! paramIndex)))) (set_elements parametersToOptimize);;
        Ok (mkSparseState (_graphs st) optimalValues maxSearchSpaceSize)
    | None =>
        vertexToRemove ← SelectVertexToRemove srcGraph;
        parameterToRemove ← at_ (_color srcGraph) vertexToRemove;
        gs ← RemoveVertex srcGraph vertexToRemove;
        Ok (mkSparseState (_graphs st ++ gs) (_optimalValues st) maxSearchSpaceSize)
    end.

Fixpoint sparseLoop (loopFuel fuel maxWorkListSize : nat) (st : SparseState) : result SparseState :=
  match _graphs st with
  | [] => Ok st
  | srcGraph :: graphs =>
      match loopFuel with
      | O => Err OutOfFuel
      | S loopFuel =>
          st ← sparseStep fuel maxWorkListSize srcGraph (mkSparseState graphs (_optimalValues st) (_maxSearchSpaceSize st));
          sparseLoop loopFuel fuel maxWorkListSize st
      end
  end.

(** The vector of the last call of the callback *)
Definition IntegerBranchAndBoundSparse (loopFuel fuel : nat) (interactions : list (nat * list nat)) (maxWorkListSize : nat)
    : result IntegerParameterVector :=
  if (length parameterRanges =? 0)%nat then Ok IntegerParameterVector_empty
  else
    g ← fullGraph interactions;
    st ← sparseLoop loopFuel fuel maxWorkListSize (mkSparseState [g] ∅ size_max);
    codeBook ← CreateCodeBook parameterRanges;
    foldM (fun finalVector i => value ← SafeLookup (_optimalValues st) i; SetParameter finalVector i value)
      (seq 0 (length parameterRanges)) (IntegerParameterVector_of codeBook).

End Sparse.
End BranchAndBoundSparse.
