(* ===== verification/SparseGraph.v ===== *)
(** * The graphs of the sparse search

    What [Subgraph], [DecomposeConnectedComponents], [RemoveVertex] and
    [GetParameterSet] compute, in terms of the parameters of the vertices. *)

From S2P Require Import Prelude MachineInt CompressedVector BranchAndBound BranchAndBoundSparse CompressedVectorCorrect.
From S2P Require Import BranchAndBoundSpec BranchAndBoundOptimal.
Import MachineInt Containers CompressedVector BranchAndBound BranchAndBoundSparse.

Module SparseGraph.

(** The vertices carry different parameters and the edges join two of them. *)
Record graph_ok (g : UndirectedGraph) : Prop := mk_graph_ok {
  go_colors : NoDup (_color g);
  go_edges : forall a b, (a, b) ∈ _edges g -> (a < num_vertices g)%nat /\ (b < num_vertices g)%nat /\ a <> b }.

(** An edge between the vertices of two parameters *)
Definition adjacent (g : UndirectedGraph) (p q : nat) : Prop :=
  exists a b, ((a, b) ∈ _edges g \/ (b, a) ∈ _edges g) /\ _color g !! a = Some p /\ _color g !! b = Some q.

(** ** [Subgraph] *)

Section Subgraph.
Context (g : UndirectedGraph) (Hg : graph_ok g) (predicate : nat -> result bool) (pred : nat -> bool).
Context (Hpred : forall v, (v < num_vertices g)%nat -> predicate v = Ok (pred v)).

(** After the vertices below [k] *)
Record vertices_done (k : nat) (st : gmap nat nat * list nat) : Prop := mk_vertices_done {
  vd_dom : forall v, is_Some (st.1 !! v) <-> (v < k)%nat /\ pred v = true;
  vd_color : forall v j, st.1 !! v = Some j -> exists p, st.2 !! j = Some p /\ _color g !! v = Some p;
  vd_colors : st.2 = omap (fun v => _color g !! v) (List.filter pred (seq 0 k)) }.

Lemma filter_snoc k : List.filter pred (seq 0 (S k)) = List.filter pred (seq 0 k) ++ (if pred k then [k] else []).
Proof. by rewrite seq_S, List.filter_app. Qed.

Lemma subgraphVertex_eq k st :
  (k < num_vertices g)%nat -> vertices_done k st -> exists st', subgraphVertex g predicate st k = Ok st' /\ vertices_done (S k) st'.
Proof.
  intros Hk [H1 H2 H3]. destruct st as [m color]. cbn in *. unfold subgraphVertex. rewrite Hpred by done. cbn [mbind result_bind].
  destruct (lookup_lt_is_Some_2 (_color g) k Hk) as [p Hp]. destruct (pred k) eqn:Hpk.
  - unfold SafeInsert. destruct (m !! k) eqn:Hmk; [exfalso; destruct (proj1 (H1 k)); [by eexists|lia]|]. cbn [mbind result_bind].
    rewrite (at_Some _ _ _ Hp). cbn [mbind result_bind]. eexists; split; [reflexivity|]. constructor; cbn [fst snd].
    + intros v. rewrite lookup_insert_is_Some. rewrite H1. split; [intros [<-|[? [? ?]]]; [split; [lia|done]|split; [lia|done]]|].
      intros [? ?]. destruct (decide (k = v)); [by left|right; split; [done|]; split; [lia|done]].
    + intros v j Hv. destruct (decide (v = k)) as [->|Hne].
      * rewrite lookup_insert_eq in Hv. injection Hv as <-. exists p. split; [by apply list_lookup_middle|done].
      * rewrite lookup_insert_ne in Hv by done. destruct (H2 v j Hv) as (q & Hq & Hgq). exists q. split; [by apply lookup_app_l_Some|done].
    + rewrite filter_snoc, Hpk, omap_app, <- H3. cbn. by rewrite Hp.
  - eexists; split; [reflexivity|]. constructor; cbn [fst snd]; [|done|by rewrite filter_snoc, Hpk, app_nil_r].
    intros v. rewrite H1. split; intros [? ?]; split; try done; [lia|]. destruct (decide (v = k)) as [->|]; [congruence|lia].
Qed.

Lemma subgraphEdge_eq m color edges (Hm : vertices_done (num_vertices g) (m, color)) a b :
  (a, b) ∈ _edges g ->
  subgraphEdge predicate m edges (a, b) =
    Ok (if pred a && pred b then edges ++ [(default 0%nat (m !! a), default 0%nat (m !! b))] else edges) /\
  (pred a && pred b = true -> exists p q, color !! default 0%nat (m !! a) = Some p /\ color !! default 0%nat (m !! b) = Some q /\
    _color g !! a = Some p /\ _color g !! b = Some q /\ p <> q).
Proof.
  intros Hab. destruct (go_edges _ Hg a b Hab) as (Ha & Hb & Hne). unfold subgraphEdge. cbn [fst snd].
  rewrite !Hpred by done. cbn [mbind result_bind]. destruct (pred a) eqn:Hpa; [|done]. cbn [mbind result_bind andb].
  destruct (pred b) eqn:Hpb; [|done]. cbn [mbind result_bind].
  destruct (proj2 (vd_dom _ _ Hm a) (conj Ha Hpa)) as [ja Hja]. destruct (proj2 (vd_dom _ _ Hm b) (conj Hb Hpb)) as [jb Hjb].
  cbn in Hja, Hjb. unfold SafeLookup. rewrite Hja, Hjb. cbn [of_option mbind result_bind default].
  destruct (vd_color _ _ Hm a ja Hja) as (p & Hp & Hgp). destruct (vd_color _ _ Hm b jb Hjb) as (q & Hq & Hgq). cbn in Hp, Hq.
  assert (Hpq : p <> q) by (intros ->; apply Hne; by apply (NoDup_lookup _ _ _ q (go_colors _ Hg))).
  split; [|intros _; exists p, q; split_and!; done]. rewrite assert_true; [done|]. apply negb_true_iff, Nat.eqb_neq. congruence.
Qed.

(** The vertices that satisfy the predicate, and the edges between them *)
Lemma Subgraph_eq :
  (exists v, (v < num_vertices g)%nat /\ pred v = true) ->
  exists g', Subgraph g predicate = Ok g' /\ graph_ok g' /\
    _color g' = omap (fun v => _color g !! v) (List.filter pred (seq 0 (num_vertices g))) /\
    (forall a b p q, (a, b) ∈ _edges g -> pred a = true -> pred b = true -> _color g !! a = Some p -> _color g !! b = Some q ->
      adjacent g' p q).
Proof.
  intros (v0 & Hv0 & Hpv0). unfold Subgraph.
  destruct (foldM_seq_inv (subgraphVertex g predicate) vertices_done (num_vertices g) (∅, [])) as ([m color] & -> & Hm).
  { constructor; cbn; [|done|done]. intros v. rewrite lookup_empty. split; [intros [? ?]; done|intros [? ?]; lia]. }
  { intros k st Hk Hst. by apply subgraphVertex_eq. }
  cbn [mbind result_bind]. rewrite assert_true.
  2: { apply negb_true_iff, bool_decide_eq_false_2. intros ->. destruct (proj2 (vd_dom _ _ Hm v0) (conj Hv0 Hpv0)) as [? ?]. done. }
  cbn [mbind result_bind].
  destruct (foldM_prefix_inv (subgraphEdge predicate m)
    (fun pre es =>
      (forall a b, (a, b) ∈ es -> exists p q, color !! a = Some p /\ color !! b = Some q /\ p <> q) /\
      (forall a b, (a, b) ∈ pre -> pred a && pred b = true -> (default 0%nat (m !! a), default 0%nat (m !! b)) ∈ es))
    (_edges g) []) as (es & -> & Hes1 & Hes2).
  { split; intros a b Hab; set_solver. }
  { intros pre [a b] es Hab [He1 He2]. destruct (subgraphEdge_eq m color es Hm a b Hab) as [-> Hnew]. eexists; split; [reflexivity|].
    destruct (pred a && pred b) eqn:Hp.
    - destruct (Hnew eq_refl) as (p & q & ? & ? & ? & ? & ?). split.
      + intros x y [Hxy|[= -> ->]%list_elem_of_singleton]%elem_of_app; [by apply He1|by exists p, q].
      + intros x y [Hxy|[= -> ->]%list_elem_of_singleton]%elem_of_app Hpxy; apply elem_of_app; [left; by apply He2|right; set_solver].
    - split; [done|]. intros x y [Hxy|[= -> ->]%list_elem_of_singleton]%elem_of_app Hpxy; [by apply He2|congruence]. }
  cbn [mbind result_bind]. eexists; split; [reflexivity|]. pose proof (vd_colors _ _ Hm) as Hcol. cbn in Hcol.
  assert (Hnd : NoDup color).
  { rewrite Hcol. assert (Hgen : forall l, NoDup l -> NoDup (omap (fun v => _color g !! v) l)).
    { induction 1 as [|v l Hv _ IH]; cbn; [constructor|]. destruct (_color g !! v) as [p|] eqn:Hp; [|done]. constructor; [|done].
      intros (v' & Hv' & Hp')%list_elem_of_omap. apply Hv. by rewrite (NoDup_lookup _ _ _ p (go_colors _ Hg) Hp Hp'). }
    apply Hgen. apply NoDup_ListNoDup, List.NoDup_filter, NoDup_ListNoDup, NoDup_seq. }
  split; [|split; [done|]].
  - constructor; cbn; [done|]. intros a b Hab. destruct (Hes1 a b Hab) as (p & q & Hp & Hq & Hne). unfold num_vertices. cbn.
    split; [by eapply lookup_lt_Some|]. split; [by eapply lookup_lt_Some|]. intros ->. congruence.
  - intros a b p q Hab Ha Hb Hp Hq. assert (Hpab : pred a && pred b = true) by (by rewrite Ha, Hb).
    destruct (subgraphEdge_eq m color [] Hm a b Hab) as [_ Hnew]. destruct (Hnew Hpab) as (p' & q' & Hp' & Hq' & Hgp & Hgq & _).
    rewrite Hp in Hgp. injection Hgp as <-. rewrite Hq in Hgq. injection Hgq as <-.
    exists (default 0%nat (m !! a)), (default 0%nat (m !! b)). cbn. split; [left; by apply Hes2|done].
Qed.

End Subgraph.

(** Membership and number of the vertices of the subgraph *)
Lemma elem_of_filtered g pred p l : p ∈ omap (fun v => _color g !! v) (List.filter pred l) <-> exists v, v ∈ l /\ pred v = true /\ _color g !! v = Some p.
Proof.
  rewrite list_elem_of_omap. split.
  - intros (v & Hv & Hp). apply list_elem_of_In, filter_In in Hv as [Hv Hpv]. exists v. split; [by apply list_elem_of_In|done].
  - intros (v & Hv & Hpv & Hp). exists v. split; [|done]. apply list_elem_of_In, filter_In. split; [by apply list_elem_of_In|done].
Qed.

Lemma length_filtered g pred l :
  (forall v, v ∈ l -> (v < num_vertices g)%nat) -> length (omap (fun v => _color g !! v) (List.filter pred l)) = length (List.filter pred l).
Proof.
  induction l as [|v l IH]; intros Hl; [done|]. cbn. destruct (pred v); [|apply IH; set_solver]. cbn.
  destruct (lookup_lt_is_Some_2 (_color g) v) as [p ->]; [apply Hl; set_solver|]. cbn. f_equal. apply IH. set_solver.
Qed.

(** ** Parts of a graph *)

(** [g'] is the part of [g] with the vertices that satisfy [pred]. *)
Record part_of (g : UndirectedGraph) (pred : nat -> bool) (g' : UndirectedGraph) : Prop := mk_part_of {
  po_ok : graph_ok g';
  po_color : _color g' = omap (fun v => _color g !! v) (List.filter pred (seq 0 (num_vertices g)));
  po_adjacent : forall a b p q, (a, b) ∈ _edges g -> pred a = true -> pred b = true -> _color g !! a = Some p -> _color g !! b = Some q ->
    adjacent g' p q }.

Lemma Subgraph_part g predicate pred :
  graph_ok g -> (forall v, (v < num_vertices g)%nat -> predicate v = Ok (pred v)) ->
  (exists v, (v < num_vertices g)%nat /\ pred v = true) -> exists g', Subgraph g predicate = Ok g' /\ part_of g pred g'.
Proof. intros Hg Hp Hv. destruct (Subgraph_eq g Hg predicate pred Hp Hv) as (g' & Heq & H1 & H2 & H3). by exists g'. Qed.

Lemma part_color g pred g' p :
  part_of g pred g' -> p ∈ _color g' <-> exists v, pred v = true /\ _color g !! v = Some p.
Proof.
  intros [_ Hc _]. rewrite Hc, elem_of_filtered. split; [intros (v & _ & ? & ?); by exists v|].
  intros (v & ? & Hv). exists v. split; [|done]. apply elem_of_seq. pose proof (lookup_lt_Some _ _ _ Hv). unfold num_vertices. lia.
Qed.

Lemma part_length g pred g' : part_of g pred g' -> num_vertices g' = length (List.filter pred (seq 0 (num_vertices g))).
Proof. intros [_ Hc _]. unfold num_vertices at 1. rewrite Hc. apply length_filtered. intros v Hv%elem_of_seq. lia. Qed.

(** What the search of connected components promises *)
Record components_ok (g : UndirectedGraph) (r : nat * list nat) : Prop := mk_components_ok {
  co_length : length r.2 = num_vertices g;
  co_bound : forall v c, r.2 !! v = Some c -> (c < r.1)%nat;
  co_used : forall c, (c < r.1)%nat -> exists v, r.2 !! v = Some c;
  co_edges : forall a b, (a, b) ∈ _edges g -> r.2 !! a = r.2 !! b }.

Definition inComponent (cv : list nat) (c v : nat) : bool := bool_decide (cv !! v = Some c).

Lemma DecomposeConnectedComponents_eq g n cv :
  graph_ok g -> components_ok g (n, cv) -> (1 < n)%nat ->
  exists gs, DecomposeConnectedComponents g cv n = Ok gs /\ Forall2 (fun c g' => part_of g (inComponent cv c) g') (seq 0 n) gs.
Proof.
  intros Hg Hc Hn. unfold DecomposeConnectedComponents. rewrite assert_true by (by apply Nat.ltb_lt). cbn [mbind result_bind].
  apply mapM_exists. intros c Hc'%elem_of_seq. pose proof (co_length _ _ Hc) as Hlen. cbn in Hlen. apply Subgraph_part; [done|..].
  - intros v Hv. unfold componentPredicate, inComponent. rewrite assert_true by (apply Nat.ltb_lt; lia). cbn [mbind result_bind].
    destruct (lookup_lt_is_Some_2 cv v) as [x Hx]; [lia|]. rewrite (at_Some _ _ _ Hx), Hx. cbn [mbind result_bind]. f_equal.
    destruct (Nat.eqb_spec x c) as [->|]; [by rewrite bool_decide_eq_true_2|rewrite bool_decide_eq_false_2; congruence].
  - destruct (co_used _ _ Hc c) as [v Hv]; [cbn; lia|]. cbn in Hv. exists v. split; [rewrite <- Hlen; by eapply lookup_lt_Some|].
    unfold inComponent. by rewrite bool_decide_eq_true_2.
Qed.

Lemma RemoveVertex_eq g v :
  graph_ok g -> (v < num_vertices g)%nat -> (1 < num_vertices g)%nat ->
  exists g1 g2, RemoveVertex g v = Ok [g1; g2] /\ part_of g (fun u => negb (u =? v)%nat) g1 /\ part_of g (fun u => (u =? v)%nat) g2.
Proof.
  intros Hg Hv Hn. unfold RemoveVertex.
  destruct (Subgraph_part g (fun u => Ok (negb (u =? v)%nat)) (fun u => negb (u =? v)%nat) Hg) as (g1 & -> & H1); [done| |].
  { destruct v as [|v]; [exists 1%nat; by split|]. exists 0%nat. split; [lia|done]. }
  cbn [mbind result_bind].
  destruct (Subgraph_part g (fun u => Ok (u =? v)%nat) (fun u => (u =? v)%nat) Hg) as (g2 & -> & H2); [done| |].
  { exists v. split; [done|]. apply Nat.eqb_refl. }
  by exists g1, g2.
Qed.

Lemma GetParameterSet_eq g : graph_ok g -> GetParameterSet g = Ok (list_to_set (_color g)).
Proof.
  intros Hg. unfold GetParameterSet.
  destruct (foldM_seq_inv (fun result vertexId => parameterIndex ← at_ (_color g) vertexId; SafeInsert_set result parameterIndex)
    (fun k s => s = list_to_set (take k (_color g))) (num_vertices g) ∅) as (s & -> & ->); [done| |].
  - intros k s Hk ->. destruct (lookup_lt_is_Some_2 (_color g) k Hk) as [p Hp]. rewrite (at_Some _ _ _ Hp). cbn [mbind result_bind].
    unfold SafeInsert_set. rewrite bool_decide_eq_false_2.
    + eexists; split; [reflexivity|]. rewrite (take_S_r _ _ _ Hp), list_to_set_app_L. cbn. set_solver.
    + rewrite elem_of_list_to_set. intros (i & Hi & Hlt)%elem_of_take. pose proof (NoDup_lookup _ _ _ p (go_colors _ Hg) Hp Hi). lia.
  - f_equal. unfold num_vertices. by rewrite take_ge by lia.
Qed.

(** ** The measure of a graph: twice its vertices, less one *)

Definition graphWeight (g : UndirectedGraph) : nat := 2 * num_vertices g - 1.

Lemma sum_filters cv n (l : list nat) :
  (forall v, v ∈ l -> exists c, cv !! v = Some c /\ (c < n)%nat) ->
  sum_list_with (fun c => length (List.filter (inComponent cv c) l)) (seq 0 n) = length l.
Proof.
  induction l as [|v l IH]; intros Hl.
  - cbn. induction (seq 0 n); cbn; lia.
  - destruct (Hl v) as (c & Hc & Hlt); [set_solver|]. cbn [length]. rewrite <- IH by set_solver.
    assert (Hgen : forall k, sum_list_with (fun c => length (List.filter (inComponent cv c) (v :: l))) (seq 0 k) =
      (sum_list_with (fun c => length (List.filter (inComponent cv c) l)) (seq 0 k) + if (c <? k)%nat then 1 else 0)%nat).
    { induction k as [|k IHk]; [done|]. rewrite seq_S, !sum_list_with_app, IHk. cbn [sum_list_with List.filter Nat.add].
      assert (Hv : inComponent cv k v = bool_decide (c = k)) by (unfold inComponent; rewrite Hc; apply bool_decide_ext; split; congruence).
      rewrite Hv. destruct (decide (c = k)) as [->|Hne].
      - rewrite bool_decide_eq_true_2, Nat.ltb_irrefl by done. rewrite (proj2 (Nat.ltb_lt k (S k))) by lia. cbn [length]. lia.
      - rewrite bool_decide_eq_false_2 by done. destruct (Nat.ltb_spec c k), (Nat.ltb_spec c (S k)); lia. }
    rewrite Hgen, (proj2 (Nat.ltb_lt c n)) by done. lia.
Qed.

Lemma Decompose_weight g n cv gs :
  components_ok g (n, cv) -> (1 < n)%nat -> Forall2 (fun c g' => part_of g (inComponent cv c) g') (seq 0 n) gs ->
  (sum_list_with graphWeight gs < graphWeight g)%nat.
Proof.
  intros Hc Hn Hgs. pose proof (co_length _ _ Hc) as Hlen. cbn in Hlen.
  assert (Hsum : sum_list_with (fun c => length (List.filter (inComponent cv c) (seq 0 (num_vertices g)))) (seq 0 n) = num_vertices g).
  { rewrite sum_filters; [apply length_seq|]. intros v Hv%elem_of_seq. destruct (lookup_lt_is_Some_2 cv v) as [c Hcv]; [lia|].
    exists c. split; [done|]. by apply (co_bound _ _ Hc v). }
  assert (Hw : forall cs gs, Forall2 (fun c g' => part_of g (inComponent cv c) g') cs gs -> (forall c, c ∈ cs -> (c < n)%nat) ->
    (sum_list_with graphWeight gs + length cs = 2 * sum_list_with (fun c => length (List.filter (inComponent cv c) (seq 0 (num_vertices g)))) cs)%nat).
  { clear Hgs Hsum. induction 1 as [|c g' cs gs' Hp _ IH]; intros Hcs; cbn [sum_list_with length]; [done|]. unfold graphWeight at 1. rewrite (part_length _ _ _ Hp).
    specialize (IH ltac:(set_solver)). assert (Hpos : (0 < length (List.filter (inComponent cv c) (seq 0 (num_vertices g))))%nat); [|lia].
    destruct (co_used _ _ Hc c) as [v Hv]; [apply Hcs; set_solver|]. cbn in Hv.
    assert (Hin : v ∈ List.filter (inComponent cv c) (seq 0 (num_vertices g))).
    { apply list_elem_of_In, filter_In. split; [apply list_elem_of_In, elem_of_seq; apply lookup_lt_Some in Hv; lia|]. unfold inComponent. by rewrite bool_decide_eq_true_2. }
    destruct (List.filter _ _); [set_solver|cbn; lia]. }
  specialize (Hw _ _ Hgs). rewrite length_seq, Hsum in Hw. unfold graphWeight at 2.
  assert ((sum_list_with graphWeight gs + n = 2 * num_vertices g)%nat) by (apply Hw; intros c ?%elem_of_seq; lia). lia.
Qed.

Lemma Remove_weight g v g1 g2 :
  (v < num_vertices g)%nat -> (1 < num_vertices g)%nat ->
  part_of g (fun u => negb (u =? v)%nat) g1 -> part_of g (fun u => (u =? v)%nat) g2 -> (graphWeight g1 + graphWeight g2 < graphWeight g)%nat.
Proof.
  intros Hv Hn H1 H2. unfold graphWeight. rewrite (part_length _ _ _ H1), (part_length _ _ _ H2).
  pose proof (List.filter_length (fun u => (u =? v)%nat) (seq 0 (num_vertices g))) as Hl. rewrite length_seq in Hl.
  assert (Hpos : forall pred u, (u < num_vertices g)%nat -> pred u = true -> (0 < length (List.filter pred (seq 0 (num_vertices g))))%nat).
  { intros pred u Hu Hp. assert (Hin : In u (List.filter pred (seq 0 (num_vertices g)))) by (apply filter_In; split; [apply in_seq; lia|done]).
    destruct (List.filter pred (seq 0 (num_vertices g))); [by destruct Hin|cbn; lia]. }
  pose proof (Hpos (fun u => (u =? v)%nat) v Hv (Nat.eqb_refl v)).
  assert ((0 < length (List.filter (fun u => negb (u =? v)) (seq 0 (num_vertices g))))%nat).
  { destruct v as [|v]; [by apply (Hpos _ 1%nat)|apply (Hpos _ 0%nat); [lia|done]]. }
  lia.
Qed.

End SparseGraph.

(** * The steps of the sparse search

    The graph of the interactions, the values recorded from the vector of an
    optimum, and what one iteration of the loop of
    [IntegerBranchAndBoundSparse] does to its state. *)

Import MachineInt Containers CompressedVector CompressedVectorCorrect BranchAndBound BranchAndBoundSpec.
Import BranchAndBoundCorrect BranchAndBoundOptimal BranchAndBoundSparse SparseGraph.

Module SparseFacts.

Section Facts.
Context (ranges : list Z) (Hranges : ranges_ok ranges).

Notation n := (length ranges).
Notation allParams := (list_to_set (seq 0 (length ranges)) : gset nat).

Lemma elem_of_allParams i : i ∈ allParams <-> (i < n)%nat.
Proof. rewrite elem_of_list_to_set, elem_of_seq. lia. Qed.

(** A contract for all the parameters is one for some of them. *)
Lemma bound_contract_subset params bound :
  (forall i, i ∈ params -> (i < n)%nat) -> bound_contract ranges allParams bound -> bound_contract ranges params bound.
Proof.
  intros Hp [H1 H2 H3 H4 H5]. constructor; [done..| |].
  - intros l Hl. destruct (H4 l Hl) as (c & (Hw & Hr & Hcm & Hfr) & Hle).
    set (c' := imap (fun i o => if decide (i ∈ params) then mjoin (c !! i) else o) l).
    assert (Hlc : length l = length c) by (rewrite (proj1 Hl), (proj1 Hw); done).
    assert (Hc' : forall i, c' !! i = if decide (i ∈ params) then c !! i else l !! i).
    { intros i. unfold c'. rewrite list_lookup_imap. destruct (decide (i < length l)%nat) as [Hi|Hi].
      - destruct (lookup_lt_is_Some_2 l i Hi) as [o ->], (lookup_lt_is_Some_2 c i) as [o' ->]; [lia|]. cbn. by destruct (decide _).
      - rewrite (lookup_ge_None_2 l), (lookup_ge_None_2 c) by lia. by destruct (decide _). }
    assert (Hrc : refines c' c).
    { intros i x. rewrite Hc'. destruct (decide _); [done|]. apply Hr. }
    assert (Hw' : pvec_wf ranges c').
    { split; [unfold c'; rewrite length_imap; apply Hl|]. intros i x r. rewrite Hc'. destruct (decide _); [apply Hw|apply Hl]. }
    exists c'. split; [split; [done|split; [|split]]|].
    + intros i x Hx. rewrite Hc'. destruct (decide _); [by apply Hr|done].
    + intros i Hi. rewrite Hc', decide_True by done. apply Hcm. rewrite elem_of_allParams. by apply Hp.
    + intros i Hi. by rewrite Hc', decide_False.
    + specialize (H3 c' c Hw' Hw Hrc). lia.
  - intros c Hc _. destruct (H4 c Hc) as (c2 & (Hw & Hr & Hcm & _) & _). specialize (H3 c c2 Hc Hw Hr). specialize (H5 c2 Hw Hcm). lia.
Qed.

(** ** The values found so far, as a vector *)

Definition optVec (opt : gmap nat Z) : list (option Z) := (fun i => opt !! i) <$> seq 0 n.

Definition opt_ok (opt : gmap nat Z) : Prop := forall i x, opt !! i = Some x -> exists r, ranges !! i = Some r /\ 0 <= x < r.

Lemma optVec_lookup opt i : (i < n)%nat -> optVec opt !! i = Some (opt !! i).
Proof. intros Hi. unfold optVec. by rewrite list_lookup_fmap, lookup_seq_lt. Qed.

Lemma optVec_ge opt i : (n <= i)%nat -> optVec opt !! i = None.
Proof. intros Hi. apply lookup_ge_None_2. unfold optVec. by rewrite length_fmap, length_seq. Qed.

Lemma opt_ok_fixed opt : opt_ok opt -> fixed_ok ranges (map_entries opt).
Proof. intros Ho. split; [apply NoDup_map_entries|]. intros i x Hx%elem_of_map_entries. by apply Ho. Qed.

Lemma seedOf_entries opt : opt_ok opt -> seedOf ranges (map_entries opt) = optVec opt.
Proof.
  intros Ho. apply list_eq. intros i. unfold seedOf. destruct (decide (i < n)%nat) as [Hi|Hi].
  - rewrite optVec_lookup by done. destruct (opt !! i) as [x|] eqn:Hx.
    + apply seedOf_lookup; [apply NoDup_map_entries| |by apply elem_of_map_entries].
      intros j y Hy%elem_of_map_entries. destruct (Ho j y Hy) as (r & Hr & _). rewrite length_replicate. by eapply lookup_lt_Some.
    + rewrite seedOf_lookup_ne; [by apply lookup_replicate|]. rewrite map_entries_keys, elem_of_set_elements. by apply not_elem_of_dom.
  - rewrite optVec_ge by lia. rewrite seedOf_lookup_ne; [apply lookup_ge_None_2; rewrite length_replicate; lia|].
    rewrite map_entries_keys, elem_of_set_elements, elem_of_dom. intros [x Hx]. destruct (Ho i x Hx) as (r & Hr & _).
    apply lookup_lt_Some in Hr. lia.
Qed.

Lemma optVec_wf opt : opt_ok opt -> pvec_wf ranges (optVec opt).
Proof.
  intros Ho. split; [unfold optVec; by rewrite length_fmap, length_seq|]. intros i x r Hx Hr.
  rewrite optVec_lookup in Hx by (by eapply lookup_lt_Some). injection Hx as Hx. destruct (Ho i x Hx) as (r' & Hr' & H).
  rewrite Hr in Hr'. by injection Hr' as <-.
Qed.

(** ** Recording an optimum *)

Lemma recordOptimum_eq opt p l :
  opt_ok opt -> pvec_wf ranges l -> reads p l -> refines (optVec opt) l ->
  exists opt', recordOptimum opt p = Ok opt' /\ opt_ok opt' /\ optVec opt' = l.
Proof.
  intros Ho [Hl Hr] [Hc Hp] Href. unfold recordOptimum. rewrite Hc, Hl.
  destruct (foldM_seq_inv (fun optimalValues i => defined ← IsParameterDefined p i;
      if defined : bool then parameterValue ← GetParameter p i; SafeInsertIdempotent optimalValues i parameterValue else Ok optimalValues)
    (fun k o => opt_ok o /\ (forall i, (i < k)%nat -> l !! i = Some (o !! i)) /\ forall i, (k <= i)%nat -> o !! i = opt !! i) n opt)
    as (opt' & -> & Ho' & Hlt & _).
  - split; [done|]. split; [lia|done].
  - intros k o Hk (Hok & Hlow & Hhigh). destruct (lookup_lt_is_Some_2 l k) as [x Hx]; [lia|]. destruct (Hp k x Hx) as [-> Hget].
    cbn [mbind result_bind]. destruct (lookup_lt_is_Some_2 ranges k Hk) as [r Hrk]. destruct x as [x|].
    + rewrite bool_decide_eq_true_2 by (by eexists). rewrite (Hget x eq_refl). cbn [mbind result_bind].
      assert (Hold : forall y, o !! k = Some y -> y = x).
      { intros y Hy. rewrite Hhigh in Hy by done. specialize (Href k y). rewrite optVec_lookup, Hy, Hx in Href by done.
        specialize (Href eq_refl). by injection Href. }
      exists (<[k := x]> o). split.
      { unfold SafeInsertIdempotent. destruct (o !! k) as [y|] eqn:Hy; [|done]. rewrite (Hold y eq_refl) in Hy |- *.
        rewrite bool_decide_eq_true_2 by done. by rewrite insert_id. }
      split; [|split].
      * intros i y [[<- <-]|[_ Hy]]%lookup_insert_Some; [exists r; split; [done|by apply (Hr k)]|by apply Hok].
      * intros i Hi. destruct (decide (i = k)) as [->|]; [by rewrite lookup_insert_eq|]. rewrite lookup_insert_ne by done. apply Hlow. lia.
      * intros i Hi. rewrite lookup_insert_ne by lia. apply Hhigh. lia.
    + rewrite bool_decide_eq_false_2 by (intros [? ?]; done). exists o. split; [done|]. split; [done|]. split; [|intros; apply Hhigh; lia].
      intros i Hi. destruct (decide (i = k)) as [->|]; [|apply Hlow; lia]. destruct (o !! k) as [y|] eqn:Hy; [|done].
      rewrite Hhigh in Hy by done. specialize (Href k y). rewrite optVec_lookup, Hy, Hx in Href by done. by specialize (Href eq_refl).
  - exists opt'. split; [done|]. split; [done|]. apply list_eq. intros i. destruct (decide (i < n)%nat) as [Hi|Hi].
    + by rewrite optVec_lookup, Hlt.
    + rewrite optVec_ge, lookup_ge_None_2 by lia. done.
Qed.

(** The vector of the last call of the callback *)
Lemma finalVector_eq opt book :
  book_wf ranges book -> opt_ok opt -> (forall i, (i < n)%nat -> is_Some (opt !! i)) ->
  exists p, foldM (fun finalVector i => value ← SafeLookup opt i; SetParameter finalVector i value) (seq 0 n) (IntegerParameterVector_of book) = Ok p /\
    denotes ranges book p (optVec opt).
Proof.
  intros Hb Ho Hall.
  destruct (foldM_seq_inv (fun finalVector i => value ← SafeLookup opt i; SetParameter finalVector i value)
    (fun k p => denotes ranges book p ((fun i => if (i <? k)%nat then opt !! i else None) <$> seq 0 n)) n (IntegerParameterVector_of book))
    as (p & -> & Hp).
  - replace ((fun i => if (i <? 0)%nat then opt !! i else None) <$> seq 0 n) with (replicate n (@None Z)); [by apply denotes_empty|].
    apply list_eq. intros i. rewrite list_lookup_fmap. destruct (decide (i < n)%nat).
    + rewrite lookup_seq_lt by done. by rewrite lookup_replicate_2 by done.
    + rewrite lookup_seq_ge by lia. rewrite lookup_ge_None_2; [done|]. rewrite length_replicate. lia.
  - intros k p Hk Hd. destruct (Hall k Hk) as [x Hx]. unfold SafeLookup. rewrite Hx. cbn [of_option mbind result_bind].
    destruct (Ho k x Hx) as (r & Hr & Hxr). destruct (SetParameter_eq ranges book Hb p _ k x r Hd Hr Hxr) as (p' & -> & Hd').
    exists p'. split; [done|]. replace (_ <$> seq 0 n) with (<[k := Some x]> ((fun i => if (i <? k)%nat then opt !! i else None) <$> seq 0 n)); [done|].
    apply list_eq. intros i. rewrite list_lookup_fmap. destruct (decide (k = i)) as [<-|Hne].
    + rewrite list_lookup_insert_eq by (by rewrite length_fmap, length_seq). rewrite lookup_seq_lt by done. cbn [fmap option_fmap option_map Nat.add].
      destruct (Nat.ltb_spec k (S k)); [by rewrite Hx|lia].
    + rewrite list_lookup_insert_ne, list_lookup_fmap by done. destruct (decide (i < n)%nat).
      * rewrite lookup_seq_lt by done. cbn [fmap option_fmap option_map Nat.add]. destruct (Nat.ltb_spec i k), (Nat.ltb_spec i (S k)); try done; lia.
      * by rewrite lookup_seq_ge by lia.
  - exists p. split; [done|]. replace (optVec opt) with ((fun i => if (i <? n)%nat then opt !! i else None) <$> seq 0 n); [done|].
    apply list_fmap_ext. intros i x Hx%lookup_seq. destruct (Nat.ltb_spec x n); [done|lia].
Qed.

End Facts.
End SparseFacts.

(** * One iteration of the sparse search, and the graph it starts from *)

Import MachineInt Containers CompressedVector CompressedVectorCorrect BranchAndBound BranchAndBoundSpec.
Import BranchAndBoundCorrect BranchAndBoundOptimal BranchAndBoundSparse SparseGraph SparseFacts.

Module SparseStep.

(** ** The graph of the interactions *)

(** [i] and [j] are different and one is listed for the other. *)
Definition interacts (interactions : list (nat * list nat)) (i j : nat) : Prop :=
  i <> j /\ exists p qs, (p, qs) ∈ interactions /\ (i = p /\ j ∈ qs \/ j = p /\ i ∈ qs).

Definition interactions_ok (ranges : list Z) (interactions : list (nat * list nat)) : Prop :=
  forall p qs, (p, qs) ∈ interactions -> (p < length ranges)%nat /\ forall q, q ∈ qs -> (q < length ranges)%nat.

Section FullGraph.
Context (ranges : list Z).

Definition edges_ok (st : gset (nat * nat) * list (nat * nat)) : Prop :=
  (forall e, e ∈ st.1 <-> e ∈ st.2) /\ forall a b, (a, b) ∈ st.2 -> (a < b < length ranges)%nat.

Lemma addInteraction_eq p q st :
  (p < length ranges)%nat -> (q < length ranges)%nat -> edges_ok st ->
  exists st', addInteraction ranges p st q = Ok st' /\ edges_ok st' /\ (forall e, e ∈ st.2 -> e ∈ st'.2) /\
    (p <> q -> (Nat.min p q, Nat.max p q) ∈ st'.2).
Proof.
  intros Hp Hq [H1 H2]. destruct st as [es l]. cbn [fst snd] in *. unfold addInteraction. destruct (Nat.eqb_spec q p) as [->|Hne].
  { exists (es, l). split; [done|]. split; [by split|]. split; [done|]. by intros []. }
  rewrite (assert_true (negb (Nat.min p q =? Nat.max p q)%nat)) by (apply negb_true_iff, Nat.eqb_neq; lia). cbn [mbind result_bind].
  rewrite assert_true by (apply Nat.ltb_lt; lia). cbn [mbind result_bind]. case_bool_decide as Hin.
  - exists (es, l). split; [done|]. split; [by split|]. split; [done|]. intros _. by apply H1.
  - rewrite (proj2 (Nat.ltb_lt (Nat.max p q) (length ranges))) by lia. eexists; split; [reflexivity|]. cbn. split; [split; cbn|split].
    + intros e. rewrite elem_of_union, elem_of_singleton, elem_of_app, list_elem_of_singleton, H1. tauto.
    + intros a b [Hab|[= -> ->]%list_elem_of_singleton]%elem_of_app; [by apply H2|lia].
    + set_solver.
    + set_solver.
Qed.

Lemma fullGraph_eq interactions :
  interactions_ok ranges interactions ->
  exists g, fullGraph ranges interactions = Ok g /\ graph_ok g /\ _color g = seq 0 (length ranges) /\
    forall i j, interacts interactions i j -> adjacent g i j.
Proof.
  intros Hi. unfold fullGraph.
  destruct (foldM_prefix_inv (fun st (p : nat * list nat) => foldM (addInteraction ranges p.1) p.2 st)
    (fun pre st => edges_ok st /\ forall p qs q, (p, qs) ∈ pre -> q ∈ qs -> p <> q -> (Nat.min p q, Nat.max p q) ∈ st.2)
    interactions (∅, [])) as (st & -> & [Hok1 Hok2] & Hin).
  { split; [split|]; cbn; set_solver. }
  { intros pre [p qs] st Hp [Hok Hpre]. destruct (Hi p qs Hp) as [Hpn Hqn]. cbn [fst snd].
    destruct (foldM_prefix_inv (addInteraction ranges p)
      (fun done st' => edges_ok st' /\ (forall e, e ∈ st.2 -> e ∈ st'.2) /\ forall q, q ∈ done -> p <> q -> (Nat.min p q, Nat.max p q) ∈ st'.2)
      qs st) as (st' & -> & Hok' & Hsub & Hqs).
    - split; [done|]. split; [done|]. set_solver.
    - intros done_ q st1 Hq (Hok1 & Hs1 & Hd1). destruct (addInteraction_eq p q st1 Hpn (Hqn q Hq) Hok1) as (st2 & -> & Hok2 & Hs2 & Hnew).
      exists st2. split; [done|]. split; [done|]. split; [auto|]. intros q' [Hq'| ->%list_elem_of_singleton]%elem_of_app Hne; auto.
    - exists st'. split; [done|]. split; [done|]. intros p' qs' q [Hpq|[= -> ->]%list_elem_of_singleton]%elem_of_app Hq Hne; [|by apply Hqs].
      apply Hsub. by apply (Hpre p' qs'). }
  cbn [mbind result_bind]. eexists; split; [reflexivity|]. split; [|split; [done|]].
  - constructor; cbn; [apply NoDup_seq|]. intros a b Hab. destruct (Hok2 a b Hab). unfold num_vertices. cbn. rewrite length_seq. lia.
  - intros i j (Hne & p & qs & Hp & Hij). destruct (Hi p qs Hp) as [Hpn Hqn].
    assert (Hedge : exists a b, (a, b) ∈ st.2 /\ (a = i /\ b = j \/ a = j /\ b = i)).
    { destruct Hij as [[-> Hq]|[-> Hq]].
      - exists (Nat.min p j), (Nat.max p j). split; [by apply (Hin p qs)|]. lia.
      - exists (Nat.min p i), (Nat.max p i). split; [apply (Hin p qs); [done..|congruence]|]. lia. }
    destruct Hedge as (a & b & Hab & Hcase). pose proof (Hok2 a b Hab). exists i, j. cbn. split.
    + destruct Hcase as [[<- <-]|[<- <-]]; auto.
    + rewrite !lookup_seq_lt by lia. done.
Qed.
End FullGraph.

(** ** One iteration *)

Section Step.
Context (connected_components : UndirectedGraph -> nat * list nat).
Context (articulation_points : UndirectedGraph -> list nat) (degree : nat -> UndirectedGraph -> nat).
Context (Hcc : forall g, graph_ok g -> components_ok g (connected_components g)).
Context (Hap : forall g v, graph_ok g -> v ∈ articulation_points g -> (v < num_vertices g)%nat).
Context (ranges : list Z) (Hranges : ranges_ok ranges).
Context (boundCallback : IntegerParameterVector -> ObjectiveFunctionBounds) (bound : list (option Z) -> ObjectiveFunctionBounds).
Notation allParams := (list_to_set (seq 0 (length ranges)) : gset nat).
Context (Hc : bound_contract ranges allParams bound) (Hcb : computes ranges boundCallback bound).
Context (fuel maxWorkListSize : nat) (Hfuel : (weight (maxRange ranges) (length ranges) <= fuel)%nat).

Notation sparseStep := (sparseStep connected_components articulation_points degree ranges boundCallback fuel maxWorkListSize).

Lemma SelectVertexToRemove_eq g :
  graph_ok g -> (0 < num_vertices g)%nat ->
  exists v, SelectVertexToRemove articulation_points degree g = Ok v /\ (v < num_vertices g)%nat.
Proof.
  intros Hg Hn. unfold SelectVertexToRemove. cbv zeta. set (cs := match articulation_points g with [] => _ | _ => _ end).
  assert (Hcs : cs <> [] /\ forall v, v ∈ cs -> (v < num_vertices g)%nat).
  { unfold cs. destruct (articulation_points g) as [|v vs] eqn:Hvs.
    - split; [destruct (num_vertices g); [lia|done]|]. intros v Hv%elem_of_seq. lia.
    - split; [done|]. intros u Hu. apply Hap; [done|]. by rewrite Hvs. }
  destruct Hcs as [Hne Hlt]. rewrite assert_true by (apply negb_true_iff, Nat.eqb_neq; by intros ?%nil_length_inv). cbn [mbind result_bind].
  assert (Hgen : forall l m, l <> [] \/ m.1 <> None -> (m.1 = None -> m.2 = 0%nat) -> (forall v, m.1 = Some v -> (v < num_vertices g)%nat) ->
    (forall v, v ∈ l -> (v < num_vertices g)%nat) ->
    exists v d, fold_left (fun (m : option nat * nat) v => if (m.2 <=? degree v g)%nat then (Some v, degree v g) else m) l m = (Some v, d) /\ (v < num_vertices g)%nat).
  { clear. induction l as [|u l IH]; intros [o d0] Hm H0 Ho Hl; cbn [fold_left fst snd] in *.
    - destruct o as [v|]; [|by destruct Hm]. exists v, d0. split; [done|by apply Ho].
    - destruct (Nat.leb_spec d0 (degree u g)).
      + apply IH; cbn; [by right|done| |set_solver]. intros v [= <-]. apply Hl. set_solver.
      + apply IH; cbn; [|done|done|set_solver]. right. intros ->. rewrite H0 in *; [lia|done]. }
  destruct (Hgen cs (None, 0%nat)) as (v & d & -> & Hv); [by left|done|done|done|]. by exists v.
Qed.
Lemma searchSpaceSize_eq params :
  (forall i, i ∈ params -> (i < length ranges)%nat) ->
  exists z, searchSpaceSize ranges params = Ok z /\ 0 <= z <= Z.of_nat (size params) * Z.of_nat (maxRange ranges).
Proof.
  intros Hp. unfold searchSpaceSize. rewrite <- length_set_elements.
  destruct (foldM_prefix_inv (fun size parameterIndex => r ← at_ ranges parameterIndex; Ok (u64_add size r))
    (fun pre z => 0 <= z <= Z.of_nat (length pre) * Z.of_nat (maxRange ranges)) (set_elements params) 0) as (z & -> & Hz).
  - cbn. lia.
  - intros pre i z Hi%elem_of_set_elements Hz. destruct (lookup_lt_is_Some_2 ranges i (Hp i Hi)) as [r Hr].
    rewrite (at_Some _ _ _ Hr). cbn [mbind result_bind]. eexists; split; [reflexivity|]. rewrite length_app. cbn [length].
    pose proof (maxRange_ge ranges i r Hr). destruct Hranges as [_ Hpos]. pose proof (Forall_lookup_1 _ _ _ _ Hpos Hr) as Hr0. cbn in Hr0.
    unfold u64_add. pose proof (u64_range (z + r)). pose proof (Z.mod_le (z + r) (2 ^ 64) ltac:(lia) ltac:(lia)). fold (u64 (z + r)) in *.
    unfold is_u64 in *. rewrite Nat2Z.inj_add, Z.mul_add_distr_r. cbn [Z.of_nat Pos.of_succ_nat]. lia.
  - by exists z.
Qed.

Lemma size_params (params : gset nat) : (forall i, i ∈ params -> (i < length ranges)%nat) -> (size params <= length ranges)%nat.
Proof.
  intros Hp. transitivity (size allParams); [apply subseteq_size; intros i Hi; apply elem_of_allParams; by apply Hp|].
  rewrite size_list_to_set by apply NoDup_seq. by rewrite length_seq.
Qed.

(** The parameters of a graph *)
Definition paramsOf (g : UndirectedGraph) : gset nat := list_to_set (_color g).

Definition graph_in (g : UndirectedGraph) : Prop :=
  graph_ok g /\ (0 < num_vertices g)%nat /\ forall p, p ∈ _color g -> (p < length ranges)%nat.

(** What an iteration does to the graph taken from the work list *)
Inductive outcome (g : UndirectedGraph) (st : SparseState) : SparseState -> Prop :=
| outcome_components k cv gs :
    components_ok g (k, cv) -> (1 < k)%nat -> Forall2 (fun c g' => part_of g (inComponent cv c) g') (seq 0 k) gs ->
    outcome g st (mkSparseState (_graphs st ++ gs) (_optimalValues st) (_maxSearchSpaceSize st))
| outcome_removed v g1 g2 max :
    (v < num_vertices g)%nat -> (1 < num_vertices g)%nat ->
    part_of g (fun u => negb (u =? v)%nat) g1 -> part_of g (fun u => (u =? v)%nat) g2 ->
    (maxWorkListSize < weight (maxRange ranges) (length ranges))%nat \/
      _maxSearchSpaceSize st <= Z.of_nat (length ranges) * Z.of_nat (maxRange ranges) ->
    outcome g st (mkSparseState (_graphs st ++ [g1; g2]) (_optimalValues st) max)
| outcome_optimum opt l :
    opt_ok ranges opt -> optVec ranges opt = l -> completion ranges (paramsOf g) (optVec ranges (_optimalValues st)) l ->
    (forall c, completion ranges (paramsOf g) (optVec ranges (_optimalValues st)) c -> _lowerBound (bound l) <= _lowerBound (bound c)) ->
    outcome g st (mkSparseState (_graphs st) opt (_maxSearchSpaceSize st)).

Lemma removed_eq g st max :
  graph_in g -> (1 < num_vertices g)%nat ->
  (maxWorkListSize < weight (maxRange ranges) (length ranges))%nat \/
    _maxSearchSpaceSize st <= Z.of_nat (length ranges) * Z.of_nat (maxRange ranges) ->
  exists st', (vertexToRemove ← SelectVertexToRemove articulation_points degree g;
      parameterToRemove ← at_ (_color g) vertexToRemove;
      gs ← RemoveVertex g vertexToRemove;
      Ok (mkSparseState (_graphs st ++ gs) (_optimalValues st) max)) = Ok st' /\ outcome g st st'.
Proof.
  intros (Hg & Hn & _) Hn1 Hwhy. destruct (SelectVertexToRemove_eq g Hg Hn) as (v & -> & Hv). cbn [mbind result_bind].
  destruct (lookup_lt_is_Some_2 (_color g) v Hv) as [p Hp]. rewrite (at_Some _ _ _ Hp). cbn [mbind result_bind].
  destruct (RemoveVertex_eq g v Hg Hv Hn1) as (g1 & g2 & -> & H1 & H2). cbn [mbind result_bind].
  eexists; split; [reflexivity|]. by apply (outcome_removed g st v).
Qed.

Lemma sparseStep_eq g st :
  graph_in g -> opt_ok ranges (_optimalValues st) -> exists st', sparseStep g st = Ok st' /\ outcome g st st'.
Proof.
  intros Hin Hopt. destruct (id Hin) as (Hg & Hn & Hp). unfold sparseStep, BranchAndBoundSparse.sparseStep.
  pose proof (Hcc g Hg) as Hcomp. destruct (connected_components g) as [k cv].
  destruct (Nat.ltb_spec 1 k) as [Hk|_].
  { destruct (DecomposeConnectedComponents_eq g k cv Hg Hcomp Hk) as (gs & -> & Hgs). cbn [mbind result_bind].
    eexists; split; [reflexivity|]. by apply (outcome_components g st k cv). }
  rewrite (GetParameterSet_eq g Hg). cbn [mbind result_bind]. fold (paramsOf g).
  assert (Hps : forall i, i ∈ paramsOf g -> (i < length ranges)%nat) by (intros i Hi%elem_of_list_to_set; by apply Hp).
  destruct (searchSpaceSize_eq (paramsOf g) Hps) as (z & -> & Hz). cbn [mbind result_bind].
  assert (Hsize : size (paramsOf g) = num_vertices g) by (unfold paramsOf; by rewrite size_list_to_set by apply (go_colors _ Hg)).
  pose proof (size_params (paramsOf g) Hps) as Hsn.
  destruct ((z <? _maxSearchSpaceSize st) || (size (paramsOf g) =? 1)%nat) eqn:Htry.
  - assert (Hne : paramsOf g <> ∅) by (intros H0; rewrite H0, size_empty in Hsize; lia).
    destruct (IntegerBranchAndBoundImpl_eq ranges (paramsOf g) Hranges Hps boundCallback bound) with
      (fixed := map_entries (_optimalValues st)) (fuel := fuel) (max := Some maxWorkListSize) as (r & -> & Hnone & Hsome); [|done| |done| |].
    + by apply bound_contract_subset.
    + by apply opt_ok_fixed.
    + etransitivity; [|exact Hfuel]. by apply weight_mono.
    + cbn [mbind result_bind]. destruct r as [p|].
      * destruct (Hsome p eq_refl) as (l & Hreads & Hl & Hmin). rewrite seedOf_entries in Hl, Hmin by done.
        destruct (id Hl) as (Hwf & Href & Hcm & _).
        destruct (recordOptimum_eq ranges (_optimalValues st) p l Hopt Hwf Hreads Href) as (opt' & -> & Hopt' & Hvec).
        cbn [mbind result_bind]. rewrite (mapM_Ok _ (fun _ => tt)).
        2: { intros i Hi%elem_of_set_elements. rewrite assert_true; [done|]. apply bool_decide_eq_true_2. destruct (Hcm i Hi) as (x & Hx).
             rewrite <- Hvec, optVec_lookup in Hx by (by apply Hps). injection Hx as ->. by eexists. }
        cbn [mbind result_bind]. eexists; split; [reflexivity|]. by apply (outcome_optimum g st opt' l).
      * destruct (Hnone eq_refl) as (m & [= <-] & Hm & Hs). apply removed_eq; [done|lia|]. left.
        eapply Nat.lt_le_trans; [exact Hm|]. by apply weight_mono.
  - apply orb_false_iff in Htry as [Hz' Hs]. apply Z.ltb_ge in Hz'. apply Nat.eqb_neq in Hs. cbn [mbind result_bind].
    apply removed_eq; [done|lia|]. right. etransitivity; [exact Hz'|]. nia.
Qed.

End Step.
End SparseStep.
