(* ===== verification/SparseCorrect.v ===== *)
(** * What the sparse search returns

    [IntegerBranchAndBoundSparse] always returns an assignment in range; when
    the objective function is a sum over the connected components of the graph
    of interactions and the search is never cut short, it returns an optimal
    one. *)

From S2P Require Import Prelude MachineInt CompressedVector CompressedVectorCorrect BranchAndBound BranchAndBoundSpec.
From S2P Require Import BranchAndBoundOptimal BranchAndBoundSparse SparseGraph.
Import MachineInt Containers CompressedVector CompressedVectorCorrect BranchAndBound BranchAndBoundSpec.
Import BranchAndBoundCorrect BranchAndBoundOptimal BranchAndBoundSparse SparseGraph SparseFacts SparseStep.

Module SparseCorrect.

(** ** Parts of the graphs of the work list *)

Lemma adjacent_sym g p q : adjacent g p q -> adjacent g q p.
Proof. intros (a & b & Hab & Ha & Hb). exists b, a. split; [tauto|done]. Qed.

(** All the interactions of the parameters of the graph are its edges. *)
Definition closed (interactions : list (nat * list nat)) (g : UndirectedGraph) : Prop :=
  forall i j, i ∈ _color g -> interacts interactions i j -> adjacent g i j.

Section Parts.
Context (ranges : list Z) (g : UndirectedGraph) (Hg : graph_in ranges g).

Lemma part_in pred g' v : part_of g pred g' -> pred v = true -> (v < num_vertices g)%nat -> graph_in ranges g'.
Proof.
  intros Hp Hv Hlt. destruct (lookup_lt_is_Some_2 (_color g) v Hlt) as [p Hc]. split; [by apply (po_ok _ _ _ Hp)|]. split.
  - assert (Hin : p ∈ _color g') by (apply (part_color _ _ _ _ Hp); by exists v). unfold num_vertices. destruct (_color g'); [set_solver|cbn; lia].
  - intros q (u & _ & Hu)%(part_color _ _ _ _ Hp). destruct Hg as (_ & _ & Hr). apply Hr. by eapply list_elem_of_lookup_2.
Qed.

Lemma components_in k cv gs :
  components_ok g (k, cv) -> Forall2 (fun c g' => part_of g (inComponent cv c) g') (seq 0 k) gs -> forall g', g' ∈ gs -> graph_in ranges g'.
Proof.
  intros Hc Hgs g' [j Hj]%list_elem_of_lookup. destruct (Forall2_lookup_r _ _ _ _ _ Hgs Hj) as (c & Hseq & Hp).
  apply lookup_seq in Hseq as [-> Hlt]. destruct (co_used _ _ Hc j Hlt) as [v Hv]. cbn in Hv. apply (part_in _ g' v Hp).
  - unfold inComponent. by rewrite bool_decide_eq_true_2.
  - rewrite <- (co_length _ _ Hc). by eapply lookup_lt_Some.
Qed.

(** Every parameter of the graph is one of a component. *)
Lemma components_cover k cv gs i :
  components_ok g (k, cv) -> Forall2 (fun c g' => part_of g (inComponent cv c) g') (seq 0 k) gs -> i ∈ _color g ->
  exists g', g' ∈ gs /\ i ∈ _color g'.
Proof.
  intros Hc Hgs [v Hv]%list_elem_of_lookup. pose proof (lookup_lt_Some _ _ _ Hv) as Hlt. rewrite <- (co_length _ _ Hc : length cv = length (_color g)) in Hlt.
  destruct (lookup_lt_is_Some_2 cv v Hlt) as [c Hcv]. pose proof (co_bound _ _ Hc v c Hcv) as Hck. cbn in Hck.
  destruct (Forall2_lookup_l _ _ _ c c Hgs) as (g' & Hg' & Hp); [by apply lookup_seq|].
  exists g'. split; [by eapply list_elem_of_lookup_2|]. apply (part_color _ _ _ _ Hp). exists v. unfold inComponent. by rewrite bool_decide_eq_true_2.
Qed.

Lemma components_closed interactions k cv gs :
  closed interactions g -> components_ok g (k, cv) -> Forall2 (fun c g' => part_of g (inComponent cv c) g') (seq 0 k) gs ->
  forall g', g' ∈ gs -> closed interactions g'.
Proof.
  intros Hcl Hc Hgs g' [c Hj]%list_elem_of_lookup. destruct (Forall2_lookup_r _ _ _ _ _ Hgs Hj) as (c' & Hseq & Hp).
  apply lookup_seq in Hseq as [-> Hlt]. cbn in Hp. intros i j (v & Hv & Hi)%(part_color _ _ _ _ Hp) Hij.
  destruct (Hcl i j) as (a & b & Hab & Ha & Hb); [by eapply list_elem_of_lookup_2|done|]. destruct Hg as (Hok & _ & _).
  assert (v = a) as -> by (by apply (NoDup_lookup _ _ _ i (go_colors _ Hok))).
  unfold inComponent in Hv. apply bool_decide_eq_true_1 in Hv.
  assert (Hvb : cv !! b = Some c) by (destruct Hab as [Hab|Hab]; apply (co_edges _ _ Hc) in Hab; cbn in Hab; congruence).
  destruct Hab as [Hab|Hab]; [|apply adjacent_sym]; apply (po_adjacent _ _ _ Hp _ _ _ _ Hab);
    unfold inComponent; rewrite ?bool_decide_eq_true_2; done.
Qed.

Lemma removed_cover v g1 g2 i :
  part_of g (fun u => negb (u =? v)%nat) g1 -> part_of g (fun u => (u =? v)%nat) g2 -> i ∈ _color g ->
  exists g', g' ∈ [g1; g2] /\ i ∈ _color g'.
Proof.
  intros H1 H2 [u Hu]%list_elem_of_lookup. destruct (Nat.eqb_spec u v) as [->|Hne].
  - exists g2. split; [set_solver|]. apply (part_color _ _ _ _ H2). exists v. by rewrite Nat.eqb_refl.
  - exists g1. split; [set_solver|]. apply (part_color _ _ _ _ H1). exists u. by rewrite (proj2 (Nat.eqb_neq u v)).
Qed.

Lemma removed_in v g1 g2 :
  (v < num_vertices g)%nat -> (1 < num_vertices g)%nat ->
  part_of g (fun u => negb (u =? v)%nat) g1 -> part_of g (fun u => (u =? v)%nat) g2 -> forall g', g' ∈ [g1; g2] -> graph_in ranges g'.
Proof.
  intros Hv Hn H1 H2 g' [->|[->|?%not_elem_of_nil]%elem_of_cons]%elem_of_cons; [| |done].
  - destruct v as [|v]; [apply (part_in _ _ 1%nat H1); done|apply (part_in _ _ 0%nat H1); [done|lia]].
  - apply (part_in _ _ v H2); [apply Nat.eqb_refl|done].
Qed.
End Parts.

(** ** The loop *)

Section Loop.
Context (connected_components : UndirectedGraph -> nat * list nat).
Context (articulation_points : UndirectedGraph -> list nat) (degree : nat -> UndirectedGraph -> nat).
Context (Hcc : forall g, graph_ok g -> components_ok g (connected_components g)).
Context (Hap : forall g v, graph_ok g -> v ∈ articulation_points g -> (v < num_vertices g)%nat).
Context (ranges : list Z) (Hranges : ranges_ok ranges).
Context (boundCallback : IntegerParameterVector -> ObjectiveFunctionBounds) (bound : list (option Z) -> ObjectiveFunctionBounds).
Notation allParams := (list_to_set (seq 0 (length ranges)) : gset nat).
Context (Hc : bound_contract ranges allParams bound) (Hcb : computes ranges boundCallback bound).
Context (fuel maxWorkListSize : nat) (Hfuel : (weight (maxRange ranges) (length ranges) <= fuel)%nat).

Notation outcome := (outcome ranges bound maxWorkListSize).

Record sparse_inv (st : SparseState) : Prop := mk_sparse_inv {
  si_graphs : forall g, g ∈ _graphs st -> graph_in ranges g;
  si_opt : opt_ok ranges (_optimalValues st);
  si_cover : forall i, (i < length ranges)%nat -> is_Some (_optimalValues st !! i) \/ exists g, g ∈ _graphs st /\ i ∈ _color g }.

Definition totalWeight (gs : list UndirectedGraph) : nat := sum_list_with graphWeight gs.

Definition pop (g : UndirectedGraph) (st : SparseState) : SparseState := mkSparseState (g :: _graphs st) (_optimalValues st) (_maxSearchSpaceSize st).

Lemma graph_pos g : graph_in ranges g -> (0 < graphWeight g)%nat.
Proof. intros (_ & Hn & _). unfold graphWeight. lia. Qed.

Lemma outcome_inv g st st' :
  sparse_inv (pop g st) -> outcome g st st' -> sparse_inv st' /\ (totalWeight (_graphs st') < graphWeight g + totalWeight (_graphs st))%nat.
Proof.
  intros [H1 H2 H3] Hout. assert (Hg : graph_in ranges g) by (apply H1; set_solver). unfold totalWeight.
  assert (Hmore : forall gs, (forall g', g' ∈ gs -> graph_in ranges g') -> (forall i, i ∈ _color g -> exists g', g' ∈ gs /\ i ∈ _color g') ->
    forall max, sparse_inv (mkSparseState (_graphs st ++ gs) (_optimalValues st) max)).
  { intros gs Hin Hcov max. constructor; cbn; [intros g' [?|?]%elem_of_app; [apply H1; set_solver|by apply Hin]|done|].
    intros i Hi. destruct (H3 i Hi) as [?|(g' & [->|Hg']%elem_of_cons & Hig)]; [by left|..]; right.
    - destruct (Hcov i Hig) as (g2 & ? & ?). exists g2. set_solver.
    - exists g'. set_solver. }
  destruct Hout as [k cv gs Hok Hk Hgs|v g1 g2 max Hv Hn Hp1 Hp2 _|opt l Hopt Hl Hcomp _].
  - split; [apply Hmore; [by apply (components_in ranges g Hg k cv)|intros i; by eapply components_cover]|].
    cbn [_graphs]. rewrite sum_list_with_app. pose proof (Decompose_weight g k cv gs Hok Hk Hgs). lia.
  - split; [apply Hmore; [by apply (removed_in ranges g Hg v)|intros i; by eapply removed_cover]|].
    cbn [_graphs]. rewrite sum_list_with_app. cbn [sum_list_with]. pose proof (Remove_weight g v g1 g2 Hv Hn Hp1 Hp2). lia.
  - destruct Hcomp as (Hw & Href & Hcm & _). pose proof (graph_pos g Hg). split; [|cbn [_graphs]; lia]. constructor; cbn; [set_solver|done|].
    intros i Hi. assert (Hll : forall x, l !! i = Some (Some x) -> is_Some (opt !! i)).
    { intros x Hx. rewrite <- Hl, optVec_lookup in Hx by done. injection Hx as ->. by eexists. }
    destruct (H3 i Hi) as [[x Hx]|(g' & [->|Hg']%elem_of_cons & Hig)]; [left|left|right; by exists g'].
    + apply (Hll x), Href. cbn in Hx. by rewrite optVec_lookup, Hx.
    + destruct (Hcm i) as (x & Hx); [by apply elem_of_list_to_set|by apply (Hll x)].
Qed.

(** A property that every iteration keeps holds at the end. *)
Lemma sparseLoop_eq (J : SparseState -> Prop) loopFuel st :
  (forall g st st', sparse_inv (pop g st) -> J (pop g st) -> outcome g st st' -> J st') ->
  sparse_inv st -> J st -> (totalWeight (_graphs st) <= loopFuel)%nat ->
  exists st', sparseLoop connected_components articulation_points degree ranges boundCallback loopFuel fuel maxWorkListSize st = Ok st' /\
    sparse_inv st' /\ J st' /\ _graphs st' = [].
Proof.
  intros HJ. revert st; induction loopFuel as [|loopFuel IH]; intros st Hinv HJst Hlf.
  - assert (Hnil : _graphs st = []).
    { destruct (_graphs st) as [|g gs] eqn:Hgs; [done|]. unfold totalWeight in Hlf. cbn [sum_list_with] in Hlf.
      pose proof (graph_pos g (si_graphs _ Hinv g ltac:(rewrite Hgs; set_solver))). lia. }
    cbn. rewrite Hnil. by exists st.
  - cbn. destruct (_graphs st) as [|g gs] eqn:Hgs; [by exists st|].
    set (st0 := mkSparseState gs (_optimalValues st) (_maxSearchSpaceSize st)).
    assert (Hpop : st = pop g st0) by (unfold pop; cbn; rewrite <- Hgs; by destruct st).
    destruct (sparseStep_eq connected_components articulation_points degree Hcc Hap ranges Hranges boundCallback bound Hc Hcb fuel maxWorkListSize Hfuel g st0)
      as (st1 & -> & Hout); [apply (si_graphs _ Hinv); rewrite Hgs; set_solver|apply (si_opt _ Hinv)|]. cbn [mbind result_bind].
    rewrite Hpop in Hinv, HJst. destruct (outcome_inv g st0 st1 Hinv Hout) as [Hinv1 Hw]. unfold totalWeight in *. cbn [sum_list_with _graphs st0] in *.
    apply IH; [done|by apply (HJ g st0)|lia].
Qed.

End Loop.
(** ** Separable objective functions *)

(** [a] on the parameters of [S] and [b] on the others *)
Definition choose (S : gset nat) (a b : list (option Z)) : list (option Z) :=
  imap (fun i o => if decide (i ∈ S) then mjoin (a !! i) else o) b.

(** No interaction leaves [S]. *)
Definition isolated (interactions : list (nat * list nat)) (S : gset nat) : Prop :=
  forall i j, i ∈ S -> interacts interactions i j -> j ∈ S.

(** What an isolated set of parameters adds to the lower bound does not depend
    on the others. *)
Definition separable (ranges : list Z) (interactions : list (nat * list nat)) (bound : list (option Z) -> ObjectiveFunctionBounds) : Prop :=
  forall S a a' b b', isolated interactions S -> pvec_wf ranges a -> pvec_wf ranges a' -> pvec_wf ranges b -> pvec_wf ranges b' ->
    _lowerBound (bound (choose S a b)) + _lowerBound (bound (choose S a' b')) =
    _lowerBound (bound (choose S a b')) + _lowerBound (bound (choose S a' b)).

(** The values of [v], and those of [c] where [v] has none *)
Definition override (v c : list (option Z)) : list (option Z) := zip_with (fun o x => match o with Some y => Some y | None => x end) v c.

Lemma choose_lookup S a b i : length a = length b -> choose S a b !! i = if decide (i ∈ S) then a !! i else b !! i.
Proof.
  intros Hl. unfold choose. rewrite list_lookup_imap. destruct (decide (i < length b)%nat) as [Hi|Hi].
  - destruct (lookup_lt_is_Some_2 b i Hi) as [o ->], (lookup_lt_is_Some_2 a i) as [o' ->]; [lia|]. cbn. by destruct (decide _).
  - rewrite (lookup_ge_None_2 b), (lookup_ge_None_2 a) by lia. by destruct (decide _).
Qed.

Lemma length_choose S a b : length (choose S a b) = length b.
Proof. apply length_imap. Qed.

Lemma override_lookup v c i : length v = length c -> override v c !! i = match v !! i with Some (Some y) => Some (Some y) | _ => c !! i end.
Proof.
  intros Hl. unfold override. rewrite lookup_zip_with. destruct (decide (i < length c)%nat) as [Hi|Hi].
  - destruct (lookup_lt_is_Some_2 c i Hi) as [o ->], (lookup_lt_is_Some_2 v i) as [o' ->]; [lia|]. cbn. by destruct o'.
  - rewrite (lookup_ge_None_2 v), (lookup_ge_None_2 c) by lia. done.
Qed.

Section Optimal.
Context (ranges : list Z) (interactions : list (nat * list nat)) (bound : list (option Z) -> ObjectiveFunctionBounds).
Context (Hsep : separable ranges interactions bound).
Notation allParams := (list_to_set (seq 0 (length ranges)) : gset nat).
Notation total_ := (fun c => pvec_wf ranges c /\ complete allParams c).

Lemma choose_wf S a b : pvec_wf ranges a -> pvec_wf ranges b -> pvec_wf ranges (choose S a b).
Proof.
  intros [Hla Ha] [Hlb Hb]. split; [by rewrite length_choose|]. intros i x r. rewrite choose_lookup by congruence.
  destruct (decide _); [apply Ha|apply Hb].
Qed.

Lemma override_total v c : pvec_wf ranges v -> total_ c -> total_ (override v c).
Proof.
  intros [Hlv Hv] [[Hlc Hw] Hcm]. assert (Hl : length v = length c) by congruence. split; [split|].
  - unfold override. rewrite length_zip_with. lia.
  - intros i x r. rewrite override_lookup by done. destruct (v !! i) as [[y|]|] eqn:Hvi; [|apply Hw..].
    intros [= <-]. by apply (Hv i).
  - intros i Hi. rewrite override_lookup by done. destruct (v !! i) as [[y|]|]; [by exists y|by apply Hcm..].
Qed.

(** The best completion of [v] on an isolated set is the best choice there. *)
Lemma optimum_override S v v' c :
  (forall i, i ∈ S -> (i < length ranges)%nat) -> isolated interactions S -> pvec_wf ranges v -> completion ranges S v v' ->
  (forall c', completion ranges S v c' -> _lowerBound (bound v') <= _lowerBound (bound c')) ->
  total_ c -> _lowerBound (bound (override v' c)) <= _lowerBound (bound (override v c)).
Proof.
  intros HS Hiso Hv Hv' Hmin Hc. destruct (override_total v c Hv Hc) as [Hm Hmc]. set (m := override v c) in *.
  destruct Hv' as (Hw' & Href & Hcm' & Hfr'). destruct Hc as [Hw Hcm].
  pose proof (proj1 Hv) as Hlv. pose proof (proj1 Hw') as Hlv'. pose proof (proj1 Hw) as Hlc. pose proof (proj1 Hm) as Hlm.
  assert (Hmi : forall i, m !! i = match v !! i with Some (Some y) => Some (Some y) | _ => c !! i end) by (intros; apply override_lookup; congruence).
  assert (E1 : choose S v' m = override v' c).
  { apply list_eq. intros i. rewrite choose_lookup, override_lookup by congruence. destruct (decide (i ∈ S)) as [Hi|Hi].
    - destruct (Hcm' i Hi) as (x & ->). done.
    - by rewrite Hmi, Hfr'. }
  assert (E2 : choose S v' v = v').
  { apply list_eq. intros i. rewrite choose_lookup by congruence. destruct (decide (i ∈ S)) as [Hi|Hi]; [done|by rewrite Hfr']. }
  assert (E3 : choose S m m = m).
  { apply list_eq. intros i. rewrite choose_lookup by done. by destruct (decide _). }
  pose proof (Hsep S v' m m v Hiso Hw' Hm Hm Hv) as Hs. rewrite E1, E2, E3 in Hs.
  assert (Hle : _lowerBound (bound v') <= _lowerBound (bound (choose S m v))); [|lia].
  apply Hmin. split; [by apply choose_wf|]. split; [|split].
  - intros i x Hx. rewrite choose_lookup by congruence. destruct (decide (i ∈ S)); [by rewrite Hmi, Hx|done].
  - intros i Hi. rewrite choose_lookup, decide_True by congruence. apply Hmc, elem_of_allParams, HS, Hi.
  - intros i Hi. by rewrite choose_lookup, decide_False by congruence.
Qed.

(** Every assignment is matched by one that has the values found so far. *)
Record optimal_inv (st : SparseState) : Prop := mk_optimal_inv {
  oi_max : _maxSearchSpaceSize st = size_max;
  oi_closed : forall g, g ∈ _graphs st -> closed interactions g;
  oi_best : forall c, total_ c -> _lowerBound (bound (override (optVec ranges (_optimalValues st)) c)) <= _lowerBound (bound c) }.

Lemma outcome_optimal maxWorkListSize g st st' :
  (weight (maxRange ranges) (length ranges) <= maxWorkListSize)%nat ->
  Z.of_nat (length ranges) * Z.of_nat (maxRange ranges) < size_max ->
  sparse_inv ranges (pop g st) -> optimal_inv (pop g st) -> outcome ranges bound maxWorkListSize g st st' -> optimal_inv st'.
Proof.
  intros Hmax Hspace [H1 H2 H3] [O1 O2 O3] Hout. cbn in O1.
  assert (Hg : graph_in ranges g) by (apply H1; set_solver). assert (Hcl : closed interactions g) by (apply O2; set_solver).
  destruct Hout as [k cv gs Hok Hk Hgs|v g1 g2 max _ _ _ _ [?|?]|opt l Hopt Hl Hcomp Hmin]; [|lia|lia|].
  - constructor; cbn; [done| |done]. intros g' [?|Hg']%elem_of_app; [apply O2; set_solver|]. by eapply components_closed.
  - constructor; cbn; [done|intros; apply O2; set_solver|]. intros c Hc. etransitivity; [|by apply O3].
    rewrite Hl. apply (optimum_override (paramsOf g)); try done.
    + intros i Hi%elem_of_list_to_set. by apply Hg.
    + intros i j Hi%elem_of_list_to_set Hij. apply elem_of_list_to_set. destruct (Hcl i j Hi Hij) as (a & b & _ & _ & Hb). by eapply list_elem_of_lookup_2.
    + by apply optVec_wf.
Qed.
End Optimal.

(** ** The results *)

Section Result.
Context (connected_components : UndirectedGraph -> nat * list nat).
Context (articulation_points : UndirectedGraph -> list nat) (degree : nat -> UndirectedGraph -> nat).
Context (Hcc : forall g, graph_ok g -> components_ok g (connected_components g)).
Context (Hap : forall g v, graph_ok g -> v ∈ articulation_points g -> (v < num_vertices g)%nat).
Context (ranges : list Z) (Hranges : ranges_ok ranges).
Context (boundCallback : IntegerParameterVector -> ObjectiveFunctionBounds) (bound : list (option Z) -> ObjectiveFunctionBounds).
Notation allParams := (list_to_set (seq 0 (length ranges)) : gset nat).
Context (Hc : bound_contract ranges allParams bound) (Hcb : computes ranges boundCallback bound).
Context (interactions : list (nat * list nat)) (Hint : interactions_ok ranges interactions).

Lemma Sparse_eq (J : SparseState -> Prop) loopFuel fuel maxWorkListSize :
  (weight (maxRange ranges) (length ranges) <= fuel)%nat -> (2 * length ranges <= loopFuel)%nat ->
  (forall g st st', sparse_inv ranges (pop g st) -> J (pop g st) -> outcome ranges bound maxWorkListSize g st st' -> J st') ->
  (forall g, (forall i j, interacts interactions i j -> adjacent g i j) -> J (mkSparseState [g] ∅ size_max)) ->
  exists p xs st, IntegerBranchAndBoundSparse connected_components articulation_points degree ranges boundCallback loopFuel fuel interactions maxWorkListSize = Ok p /\
    reads p (Some <$> xs) /\ in_ranges ranges xs /\ J st /\ optVec ranges (_optimalValues st) = Some <$> xs.
Proof.
  intros Hfuel Hlf HJ HJ0. unfold IntegerBranchAndBoundSparse. destruct Hranges as [Hne Hpos].
  rewrite (proj2 (Nat.eqb_neq (length ranges) 0)) by (by intros ?%nil_length_inv).
  destruct (fullGraph_eq ranges interactions Hint) as (g & -> & Hg & Hcol & Hadj). cbn [mbind result_bind].
  assert (Hn : (0 < length ranges)%nat) by (destruct (length ranges) eqn:Hl0; [by apply nil_length_inv in Hl0|lia]).
  assert (Hnum : num_vertices g = length ranges) by (unfold num_vertices; by rewrite Hcol, length_seq).
  destruct (sparseLoop_eq connected_components articulation_points degree Hcc Hap ranges Hranges boundCallback bound Hc Hcb fuel maxWorkListSize Hfuel J
    loopFuel (mkSparseState [g] ∅ size_max)) as (st & -> & Hinv & HJst & Hnil); [done| |by apply HJ0| |].
  - constructor; cbn.
    + intros g' ->%list_elem_of_singleton. split; [done|]. split; [lia|]. intros p. rewrite Hcol, elem_of_seq. lia.
    + intros i x. by rewrite lookup_empty.
    + intros i Hi. right. exists g. split; [set_solver|]. rewrite Hcol, elem_of_seq. lia.
  - unfold totalWeight. cbn [_graphs sum_list_with]. unfold graphWeight. lia.
  - cbn [mbind result_bind]. destruct (CreateCodeBook_eq ranges Hpos) as (book & -> & Hb). cbn [mbind result_bind].
    assert (Hall : forall i, (i < length ranges)%nat -> is_Some (_optimalValues st !! i)).
    { intros i Hi. destruct (si_cover _ _ Hinv i Hi) as [?|(g' & Hg' & _)]; [done|]. rewrite Hnil in Hg'. set_solver. }
    pose proof (si_opt _ _ Hinv) as Hopt.
    destruct (finalVector_eq ranges (_optimalValues st) book Hb Hopt Hall) as (p & -> & Hd).
    destruct (completion_in_ranges ranges (optVec ranges (_optimalValues st))) as (xs & Hxs & Hxr).
    { split; [by apply optVec_wf|]. split; [intros i x Hx; by apply lookup_replicate in Hx as [? _]|]. split.
      - intros i Hi%elem_of_allParams. destruct (Hall i Hi) as [x Hx]. exists x. by rewrite optVec_lookup, Hx.
      - intros i Hi. rewrite elem_of_allParams in Hi. rewrite optVec_ge, lookup_ge_None_2 by (rewrite ?length_replicate; lia). done. }
    exists p, xs, st. rewrite <- Hxs. split_and!; try done. by apply (denotes_reads ranges book Hb).
Qed.
End Result.

(** The result of the search, and when it is the best one *)
Lemma Sparse_result connected_components articulation_points degree ranges boundCallback bound interactions
    loopFuel fuel maxWorkListSize :
  (forall g, graph_ok g -> components_ok g (connected_components g)) ->
  (forall g v, graph_ok g -> v ∈ articulation_points g -> (v < num_vertices g)%nat) ->
  ranges_ok ranges -> bound_contract ranges (list_to_set (seq 0 (length ranges))) bound -> computes ranges boundCallback bound ->
  interactions_ok ranges interactions ->
  (weight (maxRange ranges) (length ranges) <= fuel)%nat -> (2 * length ranges <= loopFuel)%nat ->
  exists p xs, IntegerBranchAndBoundSparse connected_components articulation_points degree ranges boundCallback loopFuel fuel interactions maxWorkListSize = Ok p /\
    reads p (Some <$> xs) /\ in_ranges ranges xs /\
    (separable ranges interactions bound -> (weight (maxRange ranges) (length ranges) <= maxWorkListSize)%nat ->
     Z.of_nat (length ranges) * Z.of_nat (maxRange ranges) < size_max ->
     forall ys, in_ranges ranges ys -> _lowerBound (bound (Some <$> xs)) <= _lowerBound (bound (Some <$> ys))).
Proof.
  intros Hcc Hap Hr Hc Hcb Hint Hf Hl.
  set (long := separable ranges interactions bound /\ (weight (maxRange ranges) (length ranges) <= maxWorkListSize)%nat /\
    Z.of_nat (length ranges) * Z.of_nat (maxRange ranges) < size_max).
  destruct (Sparse_eq connected_components articulation_points degree Hcc Hap ranges Hr boundCallback bound Hc Hcb interactions Hint
    (fun st => long -> optimal_inv ranges interactions bound st) loopFuel fuel maxWorkListSize Hf Hl) as (p & xs & st & Heq & Hp & Hx & HJ & Hvec).
  - intros g st st' Hi HJ Hout (Hsep & Hmax & Hspace). apply (outcome_optimal ranges interactions bound Hsep maxWorkListSize g st st'); auto.
    apply HJ. by split.
  - intros g Hg _. constructor; cbn; [done|intros g' ->%list_elem_of_singleton i j _; apply Hg|]. intros c [[Hlc _] _].
    replace (override (optVec ranges ∅) c) with c; [done|]. apply list_eq. intros i.
    rewrite override_lookup by (unfold optVec; by rewrite length_fmap, length_seq). destruct (optVec ranges ∅ !! i) as [[y|]|] eqn:Hi; [|done..].
    unfold optVec in Hi. apply list_lookup_fmap_Some in Hi as (j & Hj & _). by rewrite lookup_empty in Hj.
  - exists p, xs. split_and!; try done. intros Hsep Hmax Hspace ys Hys. pose proof (in_ranges_completion ranges ys Hys) as (Hw & _ & Hcm & _).
    pose proof (oi_best _ _ _ _ (HJ (conj Hsep (conj Hmax Hspace))) (Some <$> ys) (conj Hw Hcm)) as Hle. rewrite Hvec in Hle.
    replace (override (Some <$> xs) (Some <$> ys)) with (Some <$> xs) in Hle; [done|]. apply list_eq. intros i.
    pose proof (Forall2_length _ _ _ Hx). pose proof (Forall2_length _ _ _ Hys).
    rewrite override_lookup by (rewrite !length_fmap; lia). rewrite !list_lookup_fmap.
    destruct (xs !! i) eqn:Hxi; cbn; [done|]. apply lookup_ge_None in Hxi. rewrite lookup_ge_None_2 by lia. done.
Qed.

(** C35: the sparse search ends and raises no assertion, whatever the bound on
    its work lists and the vertices it removes, and the last call of the
    callback gets an assignment of all the parameters in their ranges. *)
Theorem IntegerBranchAndBoundSparse_total connected_components articulation_points degree ranges boundCallback bound interactions
    loopFuel fuel maxWorkListSize :
  (forall g, graph_ok g -> components_ok g (connected_components g)) ->
  (forall g v, graph_ok g -> v ∈ articulation_points g -> (v < num_vertices g)%nat) ->
  ranges_ok ranges -> bound_contract ranges (list_to_set (seq 0 (length ranges))) bound -> computes ranges boundCallback bound ->
  interactions_ok ranges interactions ->
  (weight (maxRange ranges) (length ranges) <= fuel)%nat -> (2 * length ranges <= loopFuel)%nat ->
  exists p xs, IntegerBranchAndBoundSparse connected_components articulation_points degree ranges boundCallback loopFuel fuel interactions maxWorkListSize = Ok p /\
    reads p (Some <$> xs) /\ in_ranges ranges xs.
Proof.
  intros Hcc Hap Hr Hc Hcb Hint Hf Hl.
  destruct (Sparse_result connected_components articulation_points degree ranges boundCallback bound interactions loopFuel fuel maxWorkListSize
    Hcc Hap Hr Hc Hcb Hint Hf Hl) as (p & xs & Heq & Hp & Hx & _). by exists p, xs.
Qed.

(** C16: when the objective function is separable over the interactions and the
    work lists are long enough, the assignment that the sparse search finds is
    no worse than any other: taking the connected components one after another
    covers the same search space. *)
Theorem IntegerBranchAndBoundSparse_optimal connected_components articulation_points degree ranges boundCallback bound interactions
    loopFuel fuel maxWorkListSize :
  (forall g, graph_ok g -> components_ok g (connected_components g)) ->
  (forall g v, graph_ok g -> v ∈ articulation_points g -> (v < num_vertices g)%nat) ->
  ranges_ok ranges -> bound_contract ranges (list_to_set (seq 0 (length ranges))) bound -> computes ranges boundCallback bound ->
  interactions_ok ranges interactions -> separable ranges interactions bound ->
  (weight (maxRange ranges) (length ranges) <= fuel)%nat -> (2 * length ranges <= loopFuel)%nat ->
  (weight (maxRange ranges) (length ranges) <= maxWorkListSize)%nat ->
  Z.of_nat (length ranges) * Z.of_nat (maxRange ranges) < size_max ->
  exists p xs, IntegerBranchAndBoundSparse connected_components articulation_points degree ranges boundCallback loopFuel fuel interactions maxWorkListSize = Ok p /\
    reads p (Some <$> xs) /\ in_ranges ranges xs /\
    forall ys, in_ranges ranges ys -> _lowerBound (bound (Some <$> xs)) <= _lowerBound (bound (Some <$> ys)).
Proof.
  intros Hcc Hap Hr Hc Hcb Hint Hsep Hf Hl Hmax Hspace.
  destruct (Sparse_result connected_components articulation_points degree ranges boundCallback bound interactions loopFuel fuel maxWorkListSize
    Hcc Hap Hr Hc Hcb Hint Hf Hl) as (p & xs & Heq & Hp & Hx & Hbest). exists p, xs. split_and!; auto.
Qed.

(** ** Two parameters that do not interact *)

(** Every vertex on its own when there is no edge, else all of them together *)
Definition demoComponents (g : UndirectedGraph) : nat * list nat :=
  match _edges g with
  | [] => (num_vertices g, seq 0 (num_vertices g))
  | _ => (1%nat, replicate (num_vertices g) 0%nat)
  end.

Lemma demoComponents_ok g : graph_ok g -> components_ok g (demoComponents g).
Proof.
  intros Hg. unfold demoComponents. destruct (_edges g) as [|[a0 b0] es] eqn:He; constructor; cbn; rewrite ?He.
  - apply length_seq.
  - intros v c [-> ?]%lookup_seq. lia.
  - intros c Hc. exists c. by apply lookup_seq.
  - set_solver.
  - apply length_replicate.
  - intros v c [-> _]%lookup_replicate. lia.
  - intros c Hc. exists 0%nat. apply lookup_replicate. split; [lia|]. destruct (go_edges _ Hg a0 b0); [rewrite He; set_solver|lia].
  - intros a b Hab. destruct (go_edges _ Hg a b) as (Ha & Hb & _); [by rewrite He|]. by rewrite !lookup_replicate_2.
Qed.

Lemma demo_separable interactions : separable [3; 2] interactions demoBound.
Proof.
  intros S a a' b b' _ (a0 & a1 & -> & _)%demo_wf (a0' & a1' & -> & _)%demo_wf (b0 & b1 & -> & _)%demo_wf (b0' & b1' & -> & _)%demo_wf.
  unfold choose. cbn. destruct (decide (0%nat ∈ S)), (decide (1%nat ∈ S)); cbn; lia.
Qed.

Lemma IntegerBranchAndBoundSparse_total_witness :
  (p ← IntegerBranchAndBoundSparse demoComponents (fun _ => []) (fun _ _ => 0%nat) [3; 2] (fun p => demoBound (view p)) 4 16 [] 0; Ok (view p)) = Ok [Some 1; Some 1] /\
  exists p xs, IntegerBranchAndBoundSparse demoComponents (fun _ => []) (fun _ _ => 0%nat) [3; 2] (fun p => demoBound (view p)) 4 16 [] 0 = Ok p /\
    reads p (Some <$> xs) /\ in_ranges [3; 2] xs.
Proof.
  split; [vm_compute; reflexivity|]. apply (IntegerBranchAndBoundSparse_total demoComponents (fun _ => []) (fun _ _ => 0%nat) [3; 2] _ demoBound).
  - exact demoComponents_ok.
  - intros g v _ Hv. set_solver.
  - split; [done|]. repeat constructor; vm_compute; congruence.
  - apply demo_contract. intros i Hi%elem_of_list_to_set%elem_of_seq. cbn in Hi. lia.
  - apply demo_computes.
  - intros p qs Hp. set_solver.
  - vm_compute. lia.
  - cbn. lia.
Defined.

Lemma IntegerBranchAndBoundSparse_optimal_witness :
  exists p xs, IntegerBranchAndBoundSparse demoComponents (fun _ => []) (fun _ _ => 0%nat) [3; 2] (fun p => demoBound (view p)) 4 16 [] 16 = Ok p /\
    reads p (Some <$> xs) /\ in_ranges [3; 2] xs /\
    forall ys, in_ranges [3; 2] ys -> _lowerBound (demoBound (Some <$> xs)) <= _lowerBound (demoBound (Some <$> ys)).
Proof.
  apply (IntegerBranchAndBoundSparse_optimal demoComponents (fun _ => []) (fun _ _ => 0%nat) [3; 2] _ demoBound).
  - exact demoComponents_ok.
  - intros g v _ Hv. set_solver.
  - split; [done|]. repeat constructor; vm_compute; congruence.
  - apply demo_contract. intros i Hi%elem_of_list_to_set%elem_of_seq. cbn in Hi. lia.
  - apply demo_computes.
  - intros p qs Hp. set_solver.
  - apply demo_separable.
  - vm_compute. lia.
  - cbn. lia.
  - vm_compute. lia.
  - vm_compute. reflexivity.
Defined.

End SparseCorrect.
