(* ===== verification/ThreadPool.v ===== *)
(** * The thread pool

    [thread_pool.h], [thread_pool.cpp]: the pool as a transition system.

    A state holds the fields of [ThreadPool], the point that each of its threads
    and the thread that owns the pool have reached, and the memory that the
    tasks share.  A step is one critical section of [_lock], one notification,
    or one action of a task, so the threads interleave at those points; waiting
    on a condition variable gives the lock up and blocks in the same step.

    A task is a list of actions on the shared memory, each of which can throw;
    what it throws derives from [std::exception], as everything does that the
    tasks of the compiler throw, and [e.what()] is the value thrown.  The tasks
    do not call the pool.  The owner makes a list of calls and then destroys the
    pool; an exception that leaves a call ends the list. *)

From stdpp Require Import relations.
From S2P Require Import Prelude MachineInt.
Import MachineInt.

Module ThreadPool.

Section Pool.
Context {Store : Type}.

Definition Action : Type := Store -> string + Store.
Definition TaskCallback : Type := list Action.

(** What [what()] of a failed [assert] says *)
Context (assertMessage : string).

Record ThreadPool : Type := mkThreadPool {
  _shouldExit : bool;
  _taskQueue : list TaskCallback;
  _tasksEnqueued : Z;
  _tasksCompleted : Z;
  _errorString : option string }.

(** Where a thread is in [ThreadFunction] *)
Inductive worker : Type :=
| WLoop                                  (** at the first critical section *)
| WWait                                  (** in [_cvToThreads.wait] *)
| WRun (rest : TaskCallback)             (** in the task *)
| WEnd (errorString : option string)     (** at the second critical section *)
| WNotify                                (** at [_cvFromThreads.notify_one] *)
| WExit.                                 (** returned *)

(** Where the owner is; the flag is set when the destructor waits. *)
Inductive owner : Type :=
| OBody                                  (** between two calls *)
| ONotify                                (** in [Async], at [_cvToThreads.notify_one] *)
| OIdle (destroying : bool)              (** in [WaitForIdle], at the predicate *)
| OBlocked (destroying : bool)           (** in [_cvFromThreads.wait] *)
| OSetExit | ONotifyAll | OJoin          (** in the destructor *)
| ODone
| OTerminate.                            (** the destructor has thrown *)

Inductive call : Type := CAsync (callback : TaskCallback) | CWaitForIdle.

Record sys : Type := mkSys {
  pool : ThreadPool; _threads : list worker; own : owner; calls : list call; thrown : option string; store : Store }.

(** ** The critical sections *)

(** The first critical section of [ThreadFunction] *)
Definition takeTask (p : ThreadPool) : worker * ThreadPool :=
  match _taskQueue p with
  | [] => (if _shouldExit p then WExit else WWait, p)
  | task :: queue => (WRun task, mkThreadPool (_shouldExit p) queue (_tasksEnqueued p) (_tasksCompleted p) (_errorString p))
  end.

(** The second one: only the first error is kept. *)
Definition completeTask (errorString : option string) (p : ThreadPool) : ThreadPool :=
  mkThreadPool (_shouldExit p) (_taskQueue p) (_tasksEnqueued p) (u64_add (_tasksCompleted p) 1)
    (match errorString, _errorString p with Some e, None => Some e | _, _ => _errorString p end).

Definition Async (callback : TaskCallback) (p : ThreadPool) : ThreadPool :=
  mkThreadPool (_shouldExit p) (_taskQueue p ++ [callback]) (u64_add (_tasksEnqueued p) 1) (_tasksCompleted p) (_errorString p).

(** Nothing while the predicate of the wait is false, else what is thrown, if
    anything, and the pool *)
Definition WaitForIdle (p : ThreadPool) : option (option string * ThreadPool) :=
  if _tasksEnqueued p =? _tasksCompleted p then
    Some (match _taskQueue p with
          | [] => (_errorString p, mkThreadPool (_shouldExit p) (_taskQueue p) (_tasksEnqueued p) (_tasksCompleted p) None)
          | _ => (Some assertMessage, p)
          end)
  else None.

(** [_shouldExit = true] of the destructor *)
Definition requestExit (p : ThreadPool) : ThreadPool :=
  mkThreadPool true (_taskQueue p) (_tasksEnqueued p) (_tasksCompleted p) (_errorString p).

Definition wakeOwner (o : owner) : owner := match o with OBlocked d => OIdle d | _ => o end.
Definition wakeWorker (w : worker) : worker := match w with WWait => WLoop | _ => w end.

Definition with_worker (s : sys) (i : nat) (w : worker) : sys :=
  mkSys (pool s) (<[i := w]> (_threads s)) (own s) (calls s) (thrown s) (store s).
Definition with_pool (s : sys) (p : ThreadPool) : sys := mkSys p (_threads s) (own s) (calls s) (thrown s) (store s).
Definition with_owner (s : sys) (o : owner) : sys := mkSys (pool s) (_threads s) o (calls s) (thrown s) (store s).
Definition with_calls (s : sys) (cs : list call) : sys := mkSys (pool s) (_threads s) (own s) cs (thrown s) (store s).
Definition with_store (s : sys) (m : Store) : sys := mkSys (pool s) (_threads s) (own s) (calls s) (thrown s) m.

(** ** The steps *)

Inductive step : sys -> sys -> Prop :=
| step_take s i w p : _threads s !! i = Some WLoop -> takeTask (pool s) = (w, p) -> step s (with_worker (with_pool s p) i w)
| step_action s i a rest m : _threads s !! i = Some (WRun (a :: rest)) -> a (store s) = inr m -> step s (with_worker (with_store s m) i (WRun rest))
| step_catch s i a rest e : _threads s !! i = Some (WRun (a :: rest)) -> a (store s) = inl e -> step s (with_worker s i (WEnd (Some e)))
| step_end s i : _threads s !! i = Some (WRun []) -> step s (with_worker s i (WEnd None))
| step_complete s i err : _threads s !! i = Some (WEnd err) -> step s (with_worker (with_pool s (completeTask err (pool s))) i WNotify)
| step_notify s i : _threads s !! i = Some WNotify -> step s (with_owner (with_worker s i WLoop) (wakeOwner (own s)))
| step_async s t cs : own s = OBody -> calls s = CAsync t :: cs -> step s (with_owner (with_calls (with_pool s (Async t (pool s))) cs) ONotify)
| step_async_wake s i : own s = ONotify -> _threads s !! i = Some WWait -> step s (with_owner (with_worker s i WLoop) OBody)
| step_async_lost s : own s = ONotify -> WWait ∉ _threads s -> step s (with_owner s OBody)
| step_wait s cs : own s = OBody -> calls s = CWaitForIdle :: cs -> step s (with_owner (with_calls s cs) (OIdle false))
| step_destroy s : own s = OBody -> calls s = [] -> step s (with_owner s (OIdle true))
| step_block s d : own s = OIdle d -> WaitForIdle (pool s) = None -> step s (with_owner s (OBlocked d))
| step_return s d p : own s = OIdle d -> WaitForIdle (pool s) = Some (None, p) ->
    step s (with_owner (with_pool s p) (if d then OSetExit else OBody))
| step_throw s e p : own s = OIdle false -> WaitForIdle (pool s) = Some (Some e, p) ->
    step s (mkSys p (_threads s) OBody [] (Some e) (store s))
| step_terminate s e p : own s = OIdle true -> WaitForIdle (pool s) = Some (Some e, p) -> step s (with_owner (with_pool s p) OTerminate)
| step_exit s : own s = OSetExit -> step s (with_owner (with_pool s (requestExit (pool s))) ONotifyAll)
| step_notify_all s : own s = ONotifyAll ->
    step s (mkSys (pool s) (wakeWorker <$> _threads s) OJoin (calls s) (thrown s) (store s))
| step_join s : own s = OJoin -> Forall (fun w => w = WExit) (_threads s) -> step s (with_owner s ODone).

(** A thread that waits on a condition variable may wake up for no reason. *)
Inductive spurious : sys -> sys -> Prop :=
| spurious_worker s i : _threads s !! i = Some WWait -> spurious s (with_worker s i WLoop)
| spurious_owner s d : own s = OBlocked d -> spurious s (with_owner s (OIdle d)).

(** The constructor with [threadCount] threads *)
Definition start (threadCount : nat) (cs : list call) (m : Store) : sys :=
  mkSys (mkThreadPool false [] 0 0 None) (replicate threadCount WLoop) OBody cs None m.

(** Any number of steps, with spurious wakeups *)
Definition runs : sys -> sys -> Prop := rtc (fun s s' => step s s' \/ spurious s s').

Definition reachable (threadCount : nat) (cs : list call) (m : Store) (s : sys) : Prop := runs (start threadCount cs m) s.

(** A pool between two uses: all its tasks have completed, their error has been
    thrown, and the owner is about to make the next calls. *)
Record idle (s : sys) : Prop := mk_idle {
  idle_owner : own s = OBody /\ thrown s = None;
  idle_pool : _shouldExit (pool s) = false /\ _taskQueue (pool s) = [] /\ _errorString (pool s) = None;
  idle_count : 0 <= _tasksCompleted (pool s) /\ _tasksEnqueued (pool s) = _tasksCompleted (pool s);
  idle_room : _tasksEnqueued (pool s) + Z.of_nat (length (calls s)) < 2 ^ 64;
  idle_threads : (0 < length (_threads s))%nat /\ Forall (fun w => w = WLoop \/ w = WWait \/ w = WNotify) (_threads s) }.

(** ** Measures *)

(** A thread that has a task *)
Definition busy (w : worker) : nat := match w with WRun _ | WEnd _ => 1 | _ => 0 end.

(** A thread that neither waits nor has returned *)
Definition active (w : worker) : Prop := match w with WWait | WExit => False | _ => True end.

Definition workerWeight (w : worker) : nat :=
  match w with WLoop => 1 | WWait | WExit => 0 | WRun rest => length rest + 5 | WEnd _ => 4 | WNotify => 3 end.

Definition callWeight (c : call) : nat := match c with CAsync t => length t + 8 | CWaitForIdle => 3 end.

Definition ownerWeight (n : nat) (o : owner) : nat :=
  match o with
  | OBody => 6 + n | ONotify => 8 + n | OIdle false => 8 + n | OBlocked false => 7 + n
  | OIdle true => 5 + n | OBlocked true => 4 + n | OSetExit => 3 + n | ONotifyAll => 2 + n | OJoin => 1
  | ODone | OTerminate => 0
  end.

(** A bound on the steps that are left *)
Definition weight (s : sys) : nat :=
  sum_list_with workerWeight (_threads s) + sum_list_with (fun t => length t + 5)%nat (_taskQueue (pool s)) +
  sum_list_with callWeight (calls s) + ownerWeight (length (_threads s)) (own s).

End Pool.

Arguments ThreadPool : clear implicits.
Arguments sys : clear implicits.
Arguments TaskCallback : clear implicits.
Arguments worker : clear implicits.
Arguments call : clear implicits.

End ThreadPool.
