(* ===== verification/ThreadPoolFacts.v ===== *)
(** * The invariant of the thread pool

    What holds in every state the pool can reach, under every interleaving and
    with every spurious wakeup; what [WaitForIdle] guarantees; that no state is
    stuck and every run ends. *)

From stdpp Require Import relations.
From S2P Require Import Prelude MachineInt ThreadPool.
Import MachineInt ThreadPool.

Module ThreadPoolFacts.

(** The next step of a concrete run *)
Tactic Notation "pstep" uconstr(R) := eapply rtc_l; [left; eapply R; first [reflexivity|vm_compute; reflexivity]|cbn].

(** ** Sums over the threads *)

Lemma sum_list_with_insert {A} (f : A -> nat) l i x y :
  l !! i = Some x -> (sum_list_with f (<[i := y]> l) + f x = sum_list_with f l + f y)%nat.
Proof.
  revert i; induction l as [|a l IH]; intros [|i] H; [done..|cbn in *; injection H as ->; lia|].
  specialize (IH i H). change (<[S i := y]> (a :: l)) with (a :: <[i := y]> l). cbn [sum_list_with]. lia.
Qed.

Lemma sum_list_with_zero {A} (f : A -> nat) l : sum_list_with f l = 0%nat <-> forall x, x ∈ l -> f x = 0%nat.
Proof.
  induction l as [|a l IH]; cbn; [split; [intros _ x Hx; set_solver|done]|]. split.
  - intros H x [->|Hx]%elem_of_cons; [lia|]. apply IH; [lia|done].
  - intros H. rewrite (H a), (proj2 IH) by set_solver. done.
Qed.

Lemma sum_list_with_fmap_le {A} (f : A -> nat) (g : A -> A) l :
  (forall x, f (g x) <= f x + 1)%nat -> (sum_list_with f (g <$> l) <= sum_list_with f l + length l)%nat.
Proof. intros H. induction l as [|a l IH]; cbn; [lia|]. specialize (H a). lia. Qed.

Section Facts.
Context {Store : Type} (assertMessage : string).
Notation sys := (sys Store).
Notation worker := (worker Store).

Definition exiting (o : owner) : bool := match o with ONotifyAll | OJoin | ODone => true | _ => false end.
Definition quiet (o : owner) : bool := match o with OSetExit => true | _ => exiting o end.
Definition joining (o : owner) : bool := match o with OJoin | ODone => true | _ => false end.

Record pool_inv (s : sys) : Prop := mk_pool_inv {
  pi_count : _tasksEnqueued (pool s) =
    _tasksCompleted (pool s) + Z.of_nat (length (_taskQueue (pool s)) + sum_list_with busy (_threads s));
  pi_room : 0 <= _tasksCompleted (pool s) /\ _tasksEnqueued (pool s) + Z.of_nat (length (calls s)) < 2 ^ 64;
  pi_threads : (0 < length (_threads s))%nat;
  pi_exit : _shouldExit (pool s) = exiting (own s);
  pi_quiet : quiet (own s) = true -> _tasksEnqueued (pool s) = _tasksCompleted (pool s);
  pi_returned : WExit ∈ _threads s -> exiting (own s) = true;
  pi_awake : _taskQueue (pool s) <> [] -> own s = ONotify \/ exists w, w ∈ _threads s /\ active w;
  pi_blocked : forall d, own s = OBlocked d -> _tasksEnqueued (pool s) <> _tasksCompleted (pool s) \/ WNotify ∈ _threads s;
  pi_joining : joining (own s) = true -> WWait ∉ _threads s;
  pi_done : own s = ODone -> forall w, w ∈ _threads s -> w = WExit }.

Lemma idle_inv (s : sys) : idle s -> pool_inv s.
Proof.
  intros [[Ho _] (He & Hq & _) [Hc Heq] Hr [Hn Hts]]. rewrite Forall_forall in Hts.
  assert (Hz : sum_list_with busy (_threads s) = 0%nat) by (apply sum_list_with_zero; intros w Hw; by destruct (Hts w Hw) as [->|[->| ->]]).
  constructor; rewrite ?Ho, ?He, ?Hq, ?Hz; try done; try (cbn; lia).
  intros Hw. by destruct (Hts _ Hw) as [?|[?|?]].
Qed.

Lemma start_idle n cs (m : Store) : (0 < n)%nat -> Z.of_nat (length cs) < 2 ^ 64 -> idle (start n cs m).
Proof.
  intros Hn Hcs. constructor; cbn; rewrite ?length_replicate; try done; try lia.
  split; [done|]. apply Forall_replicate. by left.
Qed.

(** With the queue empty and no thread at work the counters agree, and the
    other way round. *)
Lemma inv_idle s : pool_inv s ->
  _tasksEnqueued (pool s) = _tasksCompleted (pool s) <->
  _taskQueue (pool s) = [] /\ forall w, w ∈ _threads s -> busy w = 0%nat.
Proof.
  intros Hi. pose proof (pi_count _ Hi) as Hc. rewrite <- sum_list_with_zero. split.
  - intros Heq. destruct (_taskQueue (pool s)); [split; [done|]|]; cbn in Hc; lia.
  - intros [Hq Hw]. rewrite Hq, Hw in Hc. cbn in Hc. lia.
Qed.

(** Replacing one thread of the list *)
Lemma elem_of_insert_thread (ts : list worker) i w x :
  (i < length ts)%nat -> x ∈ <[i := w]> ts -> x = w \/ x ∈ ts.
Proof.
  intros Hi [j Hj]%list_elem_of_lookup. apply list_lookup_insert_Some in Hj as [(_ & -> & _)|[_ Hj]]; [by left|right].
  by eapply list_elem_of_lookup_2.
Qed.

Lemma elem_of_insert_new (ts : list worker) i w x : ts !! i = Some x -> w ∈ <[i := w]> ts.
Proof. intros Hi. apply list_elem_of_lookup. exists i. apply list_lookup_insert_eq. by eapply lookup_lt_Some. Qed.

Lemma elem_of_insert_other (ts : list worker) i w x y : ts !! i = Some y -> y <> x -> x ∈ ts -> x ∈ <[i := w]> ts.
Proof.
  intros Hi Hne [j Hj]%list_elem_of_lookup. apply list_elem_of_lookup. exists j. rewrite list_lookup_insert_ne; [done|]. intros ->. congruence.
Qed.

(** ** The steps of the threads *)

Lemma inv_worker s i w0 w p m :
  pool_inv s -> _threads s !! i = Some w0 -> active w0 -> w0 <> WNotify ->
  _shouldExit p = _shouldExit (pool s) -> _tasksEnqueued p = _tasksEnqueued (pool s) ->
  _tasksCompleted (pool s) <= _tasksCompleted p ->
  _tasksCompleted p + Z.of_nat (length (_taskQueue p) + busy w) =
    _tasksCompleted (pool s) + Z.of_nat (length (_taskQueue (pool s)) + busy w0) ->
  (w = WExit -> exiting (own s) = true) -> (w = WWait -> joining (own s) = false) ->
  (_taskQueue p <> [] -> active w) -> (_tasksCompleted p <> _tasksCompleted (pool s) -> w = WNotify) ->
  pool_inv (with_worker (with_store (with_pool s p) m) i w).
Proof.
  intros Hinv Hw0 Hact Hnn He Hq Hle Hc Hex Hwait Hqa Hcn.
  pose proof (sum_list_with_insert busy _ _ _ w Hw0) as Hsum. pose proof (lookup_lt_Some _ _ _ Hw0) as Hlt.
  destruct (inv_idle s Hinv) as [Hidle _]. destruct Hinv as [H1 H2 H3 H4 H5 H6 H7 H8 H9 H10].
  constructor; cbn; rewrite ?length_insert.
  - rewrite Hq. lia.
  - rewrite Hq. lia.
  - done.
  - by rewrite He.
  - intros Hquiet. destruct (Hidle (H5 Hquiet)) as [Hnil Hb]. rewrite Hnil in *. cbn in *.
    assert (busy w0 = 0%nat) by (apply Hb; by eapply list_elem_of_lookup_2). rewrite Hq, (H5 Hquiet). lia.
  - intros [Heq|Hin]%elem_of_insert_thread; [by apply Hex|by apply H6|done].
  - intros Hne. right. exists w. split; [by eapply elem_of_insert_new|by apply Hqa].
  - intros d Hd. destruct (H8 d Hd) as [Hneq|Hn].
    + destruct (decide (_tasksCompleted p = _tasksCompleted (pool s))) as [->|Hneq']; [left; by rewrite Hq|].
      right. rewrite (Hcn Hneq'). by eapply elem_of_insert_new.
    + right. by apply (elem_of_insert_other _ _ _ _ w0).
  - intros Hj [Heq|Hin]%elem_of_insert_thread; [by rewrite Hwait in Hj|by apply (H9 Hj)|done].
  - intros Hd. exfalso. rewrite (H10 Hd w0) in Hact by (by eapply list_elem_of_lookup_2). done.
Qed.

Lemma take_inv s i w p :
  pool_inv s -> _threads s !! i = Some WLoop -> takeTask (pool s) = (w, p) -> pool_inv (with_worker (with_pool s p) i w).
Proof.
  intros Hinv Hi Ht. pose proof (pi_exit _ Hinv) as Hex. unfold takeTask in Ht.
  assert (Hj : exiting (own s) = false -> joining (own s) = false) by (by destruct (own s)).
  destruct (_taskQueue (pool s)) as [|t q] eqn:Hq; injection Ht as <- <-.
  - apply (inv_worker s i WLoop _ (pool s) (store s)); rewrite ?Hq; try done; destruct (_shouldExit (pool s)); try done.
    intros _. apply Hj. by rewrite <- Hex.
  - apply (inv_worker s i WLoop _ _ (store s)); rewrite ?Hq; cbn; try done. lia.
Qed.

Lemma complete_inv s i err :
  pool_inv s -> _threads s !! i = Some (WEnd err) -> pool_inv (with_worker (with_pool s (completeTask err (pool s))) i WNotify).
Proof.
  intros Hinv Hi. assert (Hc : u64_add (_tasksCompleted (pool s)) 1 = _tasksCompleted (pool s) + 1).
  { pose proof (pi_count _ Hinv). pose proof (pi_room _ Hinv). assert (Hb : (1 <= sum_list_with busy (_threads s))%nat).
    { destruct (decide (sum_list_with busy (_threads s) = 0%nat)) as [Hz|]; [|lia].
      rewrite sum_list_with_zero in Hz. specialize (Hz (WEnd err) ltac:(by eapply list_elem_of_lookup_2)). done. }
    unfold u64_add. apply u64_small. unfold is_u64. lia. }
  apply (inv_worker s i (WEnd err) _ _ (store s)); cbn; rewrite ?Hc; try done; lia.
Qed.

Lemma notify_inv s i :
  pool_inv s -> _threads s !! i = Some WNotify -> pool_inv (with_owner (with_worker s i WLoop) (wakeOwner (own s))).
Proof.
  intros Hinv Hi. pose proof (sum_list_with_insert busy _ _ _ WLoop Hi) as Hsum. cbn in Hsum. pose proof (lookup_lt_Some _ _ _ Hi) as Hlt.
  destruct Hinv as [H1 H2 H3 H4 H5 H6 H7 H8 H9 H10]. constructor; cbn; rewrite ?length_insert; try done.
  - lia.
  - by destruct (own s).
  - intros Hq. apply H5. by destruct (own s).
  - intros [Heq|Hin]%elem_of_insert_thread; [done| |done]. specialize (H6 Hin). by destruct (own s).
  - intros _. right. exists WLoop. split; [by eapply elem_of_insert_new|done].
  - intros d Hd. by destruct (own s).
  - intros Hj [Heq|Hin]%elem_of_insert_thread; [done| |done]. apply H9; [by destruct (own s)|done].
  - intros Hd. assert (Hd' : own s = ODone) by (by destruct (own s)).
    specialize (H10 Hd' WNotify ltac:(by eapply list_elem_of_lookup_2)). done.
Qed.

(** A waiting thread wakes up. *)
Lemma wake_inv s i o :
  pool_inv s -> _threads s !! i = Some WWait -> o = own s \/ own s = ONotify /\ o = OBody ->
  pool_inv (with_owner (with_worker s i WLoop) o).
Proof.
  intros Hinv Hi Ho. pose proof (sum_list_with_insert busy _ _ _ WLoop Hi) as Hsum. cbn in Hsum. pose proof (lookup_lt_Some _ _ _ Hi) as Hlt.
  assert (Hex : exiting o = exiting (own s) /\ quiet o = quiet (own s) /\ joining o = joining (own s)) by (by destruct Ho as [->|[-> ->]]).
  destruct Hex as (Hex & Hqu & Hjo). destruct Hinv as [H1 H2 H3 H4 H5 H6 H7 H8 H9 H10]. constructor; cbn; rewrite ?length_insert; try done.
  - lia.
  - by rewrite Hex.
  - by rewrite Hqu.
  - rewrite Hex. intros [Heq|Hin]%elem_of_insert_thread; [done|by apply H6|done].
  - intros _. right. exists WLoop. split; [by eapply elem_of_insert_new|done].
  - intros d ->. destruct Ho as [Ho|[_ Ho]]; [|done]. destruct (H8 d (eq_sym Ho)) as [?|Hn]; [by left|right].
    by apply (elem_of_insert_other _ _ _ _ WWait).
  - rewrite Hjo. intros Hj. destruct (H9 Hj). by eapply list_elem_of_lookup_2.
  - intros ->. destruct Ho as [Ho|[_ Ho]]; [|done]. specialize (H10 (eq_sym Ho) WWait ltac:(by eapply list_elem_of_lookup_2)). done.
Qed.

(** ** The steps of the owner *)

(** What [WaitForIdle] finds when it stops waiting *)
Lemma WaitForIdle_eq s r p :
  pool_inv s -> WaitForIdle assertMessage (pool s) = Some (r, p) ->
  r = _errorString (pool s) /\ _errorString p = None /\ _taskQueue (pool s) = [] /\ (forall w, w ∈ _threads s -> busy w = 0%nat) /\
  _taskQueue p = [] /\ _shouldExit p = _shouldExit (pool s) /\
  _tasksEnqueued p = _tasksEnqueued (pool s) /\ _tasksCompleted p = _tasksEnqueued (pool s).
Proof.
  intros Hinv. unfold WaitForIdle. destruct (Z.eqb_spec (_tasksEnqueued (pool s)) (_tasksCompleted (pool s))) as [Heq|]; [|done].
  destruct (proj1 (inv_idle s Hinv) Heq) as [Hq Hb]. rewrite Hq. intros [= <- <-]. cbn. split_and!; auto.
Qed.

(** The owner moves and the threads do not. *)
Lemma inv_owner s p o cs th m :
  pool_inv s -> _taskQueue p = _taskQueue (pool s) ->
  _tasksEnqueued p = _tasksEnqueued (pool s) -> _tasksCompleted p = _tasksCompleted (pool s) ->
  (length cs <= length (calls s))%nat -> _shouldExit p = exiting o ->
  (quiet o = true -> _tasksEnqueued (pool s) = _tasksCompleted (pool s)) -> (exiting (own s) = true -> exiting o = true) ->
  (own s = ONotify -> exists w, w ∈ _threads s /\ active w) ->
  (forall d, o = OBlocked d -> _tasksEnqueued (pool s) <> _tasksCompleted (pool s)) ->
  (joining o = true -> joining (own s) = true) -> (o = ODone -> forall w, w ∈ _threads s -> w = WExit) ->
  pool_inv (mkSys p (_threads s) o cs th m).
Proof.
  intros [H1 H2 H3 H4 H5 H6 H7 H8 H9 H10] Hq He Hc Hlen Hex Hqu Hmono Hnot Hbl Hjo Hdo.
  constructor; cbn; rewrite ?Hq, ?He, ?Hc; try done; try lia.
  - intros Hin. apply Hmono, H6, Hin.
  - intros Hne. destruct (H7 Hne) as [Hn|?]; right; auto.
  - intros d Hd. left. by apply (Hbl d).
  - intros Hj. apply H9, Hjo, Hj.
Qed.

Lemma async_inv s t cs :
  pool_inv s -> own s = OBody -> calls s = CAsync t :: cs ->
  pool_inv (with_owner (with_calls (with_pool s (Async t (pool s))) cs) ONotify).
Proof.
  intros Hinv Ho Hcs. pose proof (pi_count _ Hinv). destruct (pi_room _ Hinv) as [Hr1 Hr2]. rewrite Hcs in Hr2. cbn in Hr2.
  assert (He : u64_add (_tasksEnqueued (pool s)) 1 = _tasksEnqueued (pool s) + 1) by (unfold u64_add; apply u64_small; unfold is_u64; lia).
  destruct Hinv as [H1 H2 H3 H4 H5 H6 H7 H8 H9 H10]. constructor; cbn; rewrite ?He, ?length_app; cbn; try done; try lia; [by rewrite H4, Ho| |by left].
  intros Hin. specialize (H6 Hin). by rewrite Ho in H6.
Qed.

Lemma notify_all_inv s :
  pool_inv s -> own s = ONotifyAll -> pool_inv (mkSys (pool s) (wakeWorker <$> _threads s) OJoin (calls s) (thrown s) (store s)).
Proof.
  intros Hinv Ho. assert (Hb : sum_list_with busy (wakeWorker <$> _threads s) = sum_list_with busy (_threads s)).
  { induction (_threads s) as [|w ws IH]; cbn; [done|]. rewrite IH. by destruct w. }
  pose proof (proj1 (inv_idle s Hinv)) as Hid.
  destruct Hinv as [H1 H2 H3 H4 H5 H6 H7 H8 H9 H10]. assert (Heq : _tasksEnqueued (pool s) = _tasksCompleted (pool s)) by (apply H5; by rewrite Ho).
  destruct (Hid Heq) as [Hq _].
  constructor; cbn; rewrite ?length_fmap, ?Hb; try done; [by rewrite H4, Ho|].
  intros _ (w & Hw & _)%list_elem_of_fmap. by destruct w.
Qed.

Lemma active_dec (ts : list worker) : (exists w, w ∈ ts /\ active w) \/ forall w, w ∈ ts -> w = WWait \/ w = WExit.
Proof.
  induction ts as [|w ts IH]; [right; set_solver|]. destruct IH as [(w' & Hw' & Ha)|IH]; [left; exists w'; set_solver|].
  destruct w; try (left; eexists; split; [left|done]); right; intros w' [->|Hw']%elem_of_cons; auto.
Qed.

(** Some thread is active when none waits and none has returned. *)
Lemma inv_active s : pool_inv s -> WWait ∉ _threads s -> exiting (own s) = false -> exists w, w ∈ _threads s /\ active w.
Proof.
  intros Hinv Hw He. destruct (active_dec (_threads s)) as [?|Hall]; [done|]. exfalso.
  pose proof (pi_threads _ Hinv) as Hn. destruct (_threads s) as [|w ts] eqn:Hts; [cbn in Hn; lia|].
  destruct (Hall w) as [->| ->]; [set_solver..| |]; [set_solver|].
  rewrite (pi_returned _ Hinv) in He; [done|]. rewrite Hts. set_solver.
Qed.

Lemma step_inv s s' : pool_inv s -> step assertMessage s s' -> pool_inv s'.
Proof.
  intros Hinv Hst. destruct Hst as [s i w p Hi Ht|s i a rest m Hi Ha|s i a rest e Hi Ha|s i Hi|s i err Hi|s i Hi
    |s t cs Ho Hcs|s i Ho Hi|s Ho Hi|s cs Ho Hcs|s Ho Hcs|s d Ho Hw|s d p Ho Hw|s e p Ho Hw|s e p Ho Hw|s Ho|s Ho|s Ho Hall].
  - by apply take_inv.
  - apply (inv_worker s i _ _ (pool s) m Hinv Hi); done.
  - apply (inv_worker s i _ _ (pool s) (store s) Hinv Hi); done.
  - apply (inv_worker s i _ _ (pool s) (store s) Hinv Hi); done.
  - by apply complete_inv.
  - by apply notify_inv.
  - by apply async_inv.
  - apply wake_inv; auto.
  - apply (inv_owner s); cbn; rewrite ?(pi_exit _ Hinv), ?Ho; try done. intros _. apply inv_active; [done..|by rewrite Ho].
  - apply (inv_owner s); cbn; rewrite ?(pi_exit _ Hinv), ?Ho, ?Hcs; cbn; try done. lia.
  - apply (inv_owner s); cbn; rewrite ?(pi_exit _ Hinv), ?Ho; done.
  - apply (inv_owner s); cbn; rewrite ?(pi_exit _ Hinv), ?Ho; try done. intros d' _ Heq. unfold WaitForIdle in Hw. by rewrite Heq, Z.eqb_refl in Hw.
  - destruct (WaitForIdle_eq s _ _ Hinv Hw) as (_ & _ & Hq & Hb & Hq' & He & Hen & Hco). pose proof (proj2 (inv_idle s Hinv) (conj Hq Hb)) as Heq.
    apply (inv_owner s); cbn; rewrite ?He, ?(pi_exit _ Hinv), ?Ho, ?Hq, ?Hco, ?Hen; cbn; try done; by destruct d.
  - destruct (WaitForIdle_eq s _ _ Hinv Hw) as (_ & _ & Hq & Hb & Hq' & He & Hen & Hco). pose proof (proj2 (inv_idle s Hinv) (conj Hq Hb)) as Heq.
    apply (inv_owner s); cbn; rewrite ?He, ?(pi_exit _ Hinv), ?Ho, ?Hq, ?Hco, ?Hen; try done. cbn. lia.
  - destruct (WaitForIdle_eq s _ _ Hinv Hw) as (_ & _ & Hq & Hb & Hq' & He & Hen & Hco). pose proof (proj2 (inv_idle s Hinv) (conj Hq Hb)) as Heq.
    apply (inv_owner s); cbn; rewrite ?He, ?(pi_exit _ Hinv), ?Ho, ?Hq, ?Hco, ?Hen; done.
  - assert (Heq : _tasksEnqueued (pool s) = _tasksCompleted (pool s)) by (apply (pi_quiet _ Hinv); by rewrite Ho).
    apply (inv_owner s); cbn; rewrite ?Ho; done.
  - by apply notify_all_inv.
  - assert (Heq : _tasksEnqueued (pool s) = _tasksCompleted (pool s)) by (apply (pi_quiet _ Hinv); by rewrite Ho).
    apply (inv_owner s); cbn; rewrite ?(pi_exit _ Hinv), ?Ho; try done. intros _ w Hw. rewrite Forall_forall in Hall. by apply Hall.
Qed.

Lemma spurious_inv s s' : pool_inv s -> spurious s s' -> pool_inv s'.
Proof.
  intros Hinv Hst. destruct Hst as [s i Hi|s d Ho].
  - replace (with_worker s i WLoop) with (with_owner (with_worker s i WLoop) (own s)) by done. apply wake_inv; auto.
  - apply (inv_owner s); cbn; rewrite ?(pi_exit _ Hinv), ?Ho; done.
Qed.

Lemma runs_inv s0 s : pool_inv s0 -> runs assertMessage s0 s -> pool_inv s.
Proof. intros H0. induction 1 as [|s0 s1 s2 [H|H] _ IH]; [done|..]; apply IH; [by eapply step_inv|by eapply spurious_inv]. Qed.

Lemma reachable_inv n cs m s :
  (0 < n)%nat -> Z.of_nat (length cs) < 2 ^ 64 -> reachable assertMessage n cs m s -> pool_inv s.
Proof. intros Hn Hcs. apply runs_inv, idle_inv. by apply start_idle. Qed.

(** After [WaitForIdle] the pool is ready for the next calls, also when it throws. *)
Lemma WaitForIdle_idle s r p cs m :
  pool_inv s -> own s = OIdle false -> WaitForIdle assertMessage (pool s) = Some (r, p) ->
  _tasksEnqueued p + Z.of_nat (length cs) < 2 ^ 64 -> idle (mkSys p (_threads s) OBody cs None m).
Proof.
  intros Hinv Ho Hw Hroom. destruct (WaitForIdle_eq s r p Hinv Hw) as (_ & He & _ & Hb & Hq & Hex & Hen & Hco).
  pose proof (pi_room _ Hinv) as Hr. pose proof (pi_count _ Hinv). constructor; cbn; try done.
  - split; [by rewrite Hex, (pi_exit _ Hinv), Ho|done].
  - rewrite Hen, Hco. lia.
  - split; [apply (pi_threads _ Hinv)|]. apply Forall_forall. intros w Hin. specialize (Hb w Hin).
    destruct w; cbn in Hb; auto; try done. pose proof (pi_returned _ Hinv Hin) as Hx. by rewrite Ho in Hx.
Qed.

(** ** Progress *)

Lemma active_step (s : sys) (w : worker) : w ∈ _threads s -> active w -> exists s', step assertMessage s s'.
Proof.
  intros [i Hi]%list_elem_of_lookup Ha. destruct w as [| |[|a rest]|err| |]; try done.
  - destruct (takeTask (pool s)) as [w p] eqn:Ht. eexists. by eapply step_take.
  - eexists. by eapply step_end.
  - destruct (a (store s)) as [e|m] eqn:Hs; eexists; [by eapply step_catch|by eapply step_action].
  - eexists. by eapply step_complete.
  - eexists. by eapply step_notify.
Qed.

Lemma wait_dec (ts : list worker) : (exists i, ts !! i = Some WWait) \/ WWait ∉ ts.
Proof.
  induction ts as [|w ts [[i Hi]|IH]]; [right; set_solver|left; by exists (S i)|].
  destruct w; try (right; intros [?|?]%elem_of_cons; done). left. by exists 0%nat.
Qed.

Lemma busy_active (w : worker) : busy w <> 0%nat -> active w.
Proof. by destruct w. Qed.

Lemma inv_progress s : pool_inv s -> own s = ODone \/ own s = OTerminate \/ exists s', step assertMessage s s'.
Proof.
  intros Hinv. destruct (own s) as [| |d|d| | | | |] eqn:Ho; auto; right; right.
  - destruct (calls s) as [|[t|] cs] eqn:Hcs; eexists; [by apply step_destroy|by eapply step_async|by eapply step_wait].
  - destruct (wait_dec (_threads s)) as [[i Hi]|Hw]; eexists; [by eapply step_async_wake|by apply step_async_lost].
  - destruct (WaitForIdle assertMessage (pool s)) as [[[e|] p]|] eqn:Hw; [destruct d|..]; eexists;
      [by eapply step_terminate|by eapply step_throw|by eapply step_return|by eapply step_block].
  - destruct (active_dec (_threads s)) as [(w & Hw & Ha)|Hall]; [by eapply active_step|]. exfalso.
    destruct (pi_blocked _ Hinv d Ho) as [Hne|Hn]; [|by destruct (Hall _ Hn)].
    apply Hne, (inv_idle s Hinv). split; [|intros w Hw; by destruct (Hall w Hw) as [->| ->]].
    destruct (_taskQueue (pool s)) as [|t q] eqn:Hq; [done|]. exfalso.
    destruct (pi_awake _ Hinv) as [Hn|(w & Hw & Ha)]; [by rewrite Hq|by rewrite Ho in Hn|]. by destruct (Hall w Hw) as [->| ->].
  - eexists. by apply step_exit.
  - eexists. by apply step_notify_all.
  - destruct (active_dec (_threads s)) as [(w & Hw & Ha)|Hall]; [by eapply active_step|].
    eexists. apply step_join; [done|]. apply Forall_forall. intros w Hw. destruct (Hall w Hw) as [->|]; [|done].
    exfalso. apply (pi_joining _ Hinv); [by rewrite Ho|done].
Qed.

(** ** The weight decreases *)

Lemma weight_worker (s : sys) i (w w' : worker) p m :
  _threads s !! i = Some w ->
  (workerWeight w' + sum_list_with (fun t => length t + 5) (_taskQueue p) < workerWeight w + sum_list_with (fun t => length t + 5) (_taskQueue (pool s)))%nat ->
  (weight (with_worker (with_store (with_pool s p) m) i w') < weight s)%nat.
Proof.
  intros Hi Hlt. unfold weight. cbn. rewrite length_insert. pose proof (sum_list_with_insert workerWeight _ _ _ w' Hi). lia.
Qed.

Lemma wakeOwner_weight n (o : owner) : (ownerWeight n (wakeOwner o) <= ownerWeight n o + 1)%nat.
Proof. destruct o as [| |[]|[]| | | | |]; cbn; lia. Qed.

Lemma WaitForIdle_queue p r p' : WaitForIdle assertMessage p = Some (r, p') -> _taskQueue p' = _taskQueue (Store := Store) p.
Proof. unfold WaitForIdle. destruct (_ =? _); [|done]. destruct (_taskQueue p) eqn:Hq; by intros [= <- <-]. Qed.

Lemma step_weight (s s' : sys) : step assertMessage s s' -> (weight s' < weight s)%nat.
Proof.
  intros Hst. destruct Hst as [s i w p Hi Ht|s i a rest m Hi Ha|s i a rest e Hi Ha|s i Hi|s i err Hi|s i Hi
    |s t cs Ho Hcs|s i Ho Hi|s Ho Hi|s cs Ho Hcs|s Ho Hcs|s d Ho Hw|s d p Ho Hw|s e p Ho Hw|s e p Ho Hw|s Ho|s Ho|s Ho Hall].
  - apply (weight_worker s i WLoop _ _ (store s) Hi). unfold takeTask in Ht.
    destruct (_taskQueue (pool s)) as [|t q] eqn:Hq; injection Ht as <- <-; [rewrite Hq; destruct (_shouldExit (pool s))|]; cbn; lia.
  - apply (weight_worker s i _ _ (pool s) m Hi). cbn. lia.
  - apply (weight_worker s i _ _ (pool s) (store s) Hi). cbn. lia.
  - apply (weight_worker s i _ _ (pool s) (store s) Hi). cbn. lia.
  - apply (weight_worker s i _ _ _ (store s) Hi). cbn. lia.
  - unfold weight. cbn. rewrite length_insert. pose proof (sum_list_with_insert workerWeight _ _ _ WLoop Hi) as H. cbn in H.
    pose proof (wakeOwner_weight (length (_threads s)) (own s)). lia.
  - unfold weight. cbn. rewrite Hcs, Ho, sum_list_with_app. cbn. lia.
  - unfold weight. cbn. rewrite length_insert, Ho. pose proof (sum_list_with_insert workerWeight _ _ _ WLoop Hi) as H. cbn in *. lia.
  - unfold weight. cbn. rewrite Ho. cbn. lia.
  - unfold weight. cbn. rewrite Ho, Hcs. cbn. lia.
  - unfold weight. cbn. rewrite Ho. cbn. lia.
  - unfold weight. cbn. rewrite Ho. destruct d; cbn; lia.
  - unfold weight. cbn. rewrite Ho, (WaitForIdle_queue _ _ _ Hw). destruct d; cbn; lia.
  - unfold weight. cbn. rewrite Ho, (WaitForIdle_queue _ _ _ Hw). cbn. lia.
  - unfold weight. cbn. rewrite Ho, (WaitForIdle_queue _ _ _ Hw). cbn. lia.
  - unfold weight. cbn. rewrite Ho. cbn. lia.
  - unfold weight. cbn. rewrite Ho. cbn.
    assert (sum_list_with workerWeight (wakeWorker <$> _threads s) <= sum_list_with workerWeight (_threads s) + length (_threads s))%nat.
    { apply (sum_list_with_fmap_le workerWeight wakeWorker). intros []; cbn; lia. } lia.
  - unfold weight. cbn. rewrite Ho. cbn. lia.
Qed.

Lemma nsteps_weight k (s s' : sys) : nsteps (step assertMessage) k s s' -> (k + weight s' <= weight s)%nat.
Proof. induction 1 as [|k s1 s2 s3 H _ IH]; [lia|]. pose proof (step_weight _ _ H). lia. Qed.

End Facts.
End ThreadPoolFacts.

(** * What a pool computes

    When the actions of different tasks commute, the memory that the owner
    finds after [WaitForIdle] is the one that the tasks leave when they run one
    after another in the order of the calls of [Async], whatever the
    interleaving was. *)

Import MachineInt ThreadPool ThreadPoolFacts.

Module ThreadPoolTasks.

Section Tasks.
Context {Store : Type} (assertMessage : string).
Notation sys := (sys Store).
Notation Action := (@Action Store).

(** A sequential run of actions, if none of them throws *)
Fixpoint runActions (l : list Action) (m : Store) : option Store :=
  match l with
  | [] => Some m
  | a :: l => match a m with inr m' => runActions l m' | inl _ => None end
  end.

Definition tasksOf (cs : list (call Store)) : list (list Action) :=
  omap (fun c => match c with CAsync t => Some t | CWaitForIdle => None end) cs.

(** [a] followed by [b] has the effect of [b] followed by [a]. *)
Definition commute (a b : Action) : Prop :=
  forall m m1 m2, a m = inr m1 -> b m1 = inr m2 -> exists m1', b m = inr m1' /\ a m1' = inr m2.

Definition independent (tasks : list (list Action)) : Prop :=
  forall i j ti tj a b, i <> j -> tasks !! i = Some ti -> tasks !! j = Some tj -> a ∈ ti -> b ∈ tj -> commute a b.

Lemma runActions_app l l' m m1 : runActions l m = Some m1 -> runActions (l ++ l') m = runActions l' m1.
Proof. revert m; induction l as [|a l IH]; intros m H; cbn in *; [by injection H as ->|]. destruct (a m); [done|]. by apply IH. Qed.

Lemma runActions_app_inv l l' m m2 :
  runActions (l ++ l') m = Some m2 -> exists m1, runActions l m = Some m1 /\ runActions l' m1 = Some m2.
Proof. revert m; induction l as [|a l IH]; intros m H; cbn in *; [by exists m|]. destruct (a m); [done|]. by apply IH. Qed.

Lemma runActions_commute l a m m1 m2 :
  (forall b, b ∈ l -> commute b a) -> runActions l m = Some m1 -> a m1 = inr m2 ->
  exists m', a m = inr m' /\ runActions l m' = Some m2.
Proof.
  revert m; induction l as [|b l IH]; intros m Hl Hr Ha; cbn in *; [injection Hr as ->; by exists m2|].
  destruct (b m) as [|mb] eqn:Hb; [done|]. destruct (IH mb) as (mb' & Ha' & Hr'); [set_solver|done..|].
  destruct (Hl b ltac:(set_solver) _ _ _ Hb Ha') as (m' & Hm' & Hbm'). exists m'. by rewrite Hbm'.
Qed.

(** ** The invariant *)

(** A task that a thread has taken: what it has done, what is left and the
    thread that runs it, if it still does *)
Notation piece := (list Action * list Action * option nat)%type.
Definition done (p : piece) : list Action := p.1.1.
Definition left_ (p : piece) : list Action := p.1.2.

(** The actions [ds] of the first tasks leave [m]. *)
Definition explains (tasks : list (list Action)) (m0 : Store) (ds : list (list Action)) (m : Store) : Prop :=
  runActions (concat ds) m0 = Some m /\ forall k d, ds !! k = Some d -> exists t, tasks !! k = Some t /\ d `prefix_of` t.

(** An action of a task throws [e] after such actions. *)
Definition fails (tasks : list (list Action)) (m0 : Store) (e : string) : Prop :=
  exists ds m k d t a, explains tasks m0 ds m /\ ds !! k = Some d /\ tasks !! k = Some t /\ t !! length d = Some a /\ a m = inl e.

Definition failing (s : sys) : Prop :=
  (exists i e, _threads s !! i = Some (WEnd (Some e))) \/ _errorString (pool s) <> None \/ thrown s <> None.

Definition ending (o : owner) : bool :=
  match o with OIdle d | OBlocked d => d | OSetExit | ONotifyAll | OJoin | ODone | OTerminate => true | _ => false end.

Context (tasks : list (list Action)) (m0 : Store) (Hind : independent tasks).

Record tasks_inv (s : sys) (ps : list piece) : Prop := mk_tasks_inv {
  ti_tasks : exists dropped, ((fun p => done p ++ left_ p) <$> ps) ++ _taskQueue (pool s) ++ tasksOf (calls s) ++ dropped = tasks /\
    (thrown s = None -> dropped = []);
  ti_store : runActions (concat (done <$> ps)) m0 = Some (store s);
  ti_running : forall i r, _threads s !! i = Some (WRun r) -> exists k d, ps !! k = Some (d, r, Some i);
  ti_runner : forall k d r i, ps !! k = Some (d, r, Some i) -> _threads s !! i = Some (WRun r);
  ti_inj : forall k k' p p' i, ps !! k = Some p -> ps !! k' = Some p' -> p.2 = Some i -> p'.2 = Some i -> k = k';
  ti_ended : forall k d r, ps !! k = Some (d, r, None) -> own s = OTerminate \/ r = [] \/ failing s;
  ti_end : forall i e, _threads s !! i = Some (WEnd (Some e)) -> fails tasks m0 e;
  ti_error : forall e, _errorString (pool s) = Some e -> fails tasks m0 e;
  ti_calls : ending (own s) = true -> calls s = [] }.

Lemma explains_pieces s ps : tasks_inv s ps -> explains tasks m0 (done <$> ps) (store s).
Proof.
  intros Hi. split; [apply (ti_store _ _ Hi)|]. intros k d Hd. destruct (ti_tasks _ _ Hi) as (dr & <- & _).
  apply list_lookup_fmap_Some in Hd as (p & -> & Hp). exists (done p ++ left_ p). split; [|by apply prefix_app_r].
  apply lookup_app_l_Some. by apply (list_lookup_fmap_Some_2 (fun p : piece => done p ++ left_ p)).
Qed.

Lemma piece_task s ps k p : tasks_inv s ps -> ps !! k = Some p -> tasks !! k = Some (done p ++ left_ p).
Proof. intros Hi Hp. destruct (ti_tasks _ _ Hi) as (dr & <- & _). apply lookup_app_l_Some. by apply (list_lookup_fmap_Some_2 (fun p : piece => done p ++ left_ p)). Qed.

(** One more action of piece [k] *)
Lemma run_piece s ps k d a r i m :
  tasks_inv s ps -> ps !! k = Some (d, a :: r, Some i) -> a (store s) = inr m ->
  runActions (concat (done <$> <[k := (d ++ [a], r, Some i)]> ps)) m0 = Some m.
Proof.
  intros Hi Hk Ha. pose proof (ti_store _ _ Hi) as Hs. pose proof (lookup_lt_Some _ _ _ Hk) as Hlt.
  pose proof (take_drop_middle _ _ _ Hk) as Hps. rewrite insert_take_drop by done. rewrite <- Hps in Hs.
  rewrite fmap_app, fmap_cons, concat_app in *. cbn [concat done fst] in *. rewrite <- (app_assoc d [a]).
  rewrite (app_assoc _ d) in *. destruct (runActions_app_inv _ _ _ _ Hs) as (m1 & Hm1 & Hm2). rewrite (runActions_app _ _ _ _ Hm1). cbn.
  destruct (runActions_commute (concat (done <$> drop (S k) ps)) a m1 (store s) m) as (m' & -> & Hm'); [|done..].
  intros b (l & (p & -> & Hp)%list_elem_of_fmap & Hb)%elem_of_concat.
  apply list_elem_of_lookup in Hp as [j Hj]. rewrite lookup_drop in Hj.
  apply (Hind (S k + j)%nat k (done p ++ left_ p) (d ++ a :: r)); [lia|by apply (piece_task s ps)|by apply (piece_task s ps _ _ Hi Hk)|set_solver..].
Qed.

(** The failure of an action of piece [k] *)
Lemma piece_fails s ps k d a r i e :
  tasks_inv s ps -> ps !! k = Some (d, a :: r, Some i) -> a (store s) = inl e -> fails tasks m0 e.
Proof.
  intros Hi Hk Ha. exists (done <$> ps), (store s), k, d, (d ++ a :: r), a. split; [by apply explains_pieces|].
  split; [by apply (list_lookup_fmap_Some_2 done _ _ (d, a :: r, Some i))|]. split; [by apply (piece_task s ps _ _ Hi Hk)|].
  split; [by apply list_lookup_middle|done].
Qed.

(** ** The steps *)

(** A thread that runs no task before or after moves. *)
Lemma tasks_inv_other s s' ps i w w' :
  tasks_inv s ps -> _threads s !! i = Some w -> (forall r, w <> WRun r) -> (forall r, w' <> WRun r) ->
  _threads s' = <[i := w']> (_threads s) -> _taskQueue (pool s') = _taskQueue (pool s) -> calls s' = calls s ->
  thrown s' = thrown s -> store s' = store s -> ending (own s') = ending (own s) -> (own s = OTerminate -> own s' = OTerminate) ->
  (forall e, w' = WEnd (Some e) -> fails tasks m0 e) -> (forall e, _errorString (pool s') = Some e -> fails tasks m0 e) ->
  (failing s -> failing s') -> tasks_inv s' ps.
Proof.
  intros [H1 H2 H3 H4 H5 H6 H7 H8 H9] Hw Hnr Hnr' Hts Hq Hcs Hth Hst Hend Hter Hwe Her Hf.
  constructor; rewrite ?Hq, ?Hcs, ?Hth, ?Hst, ?Hend; try done.
  - intros j r. rewrite Hts. intros [(-> & -> & _)|[_ Hj]]%list_lookup_insert_Some; [by destruct (Hnr' r)|by apply H3].
  - intros k d r j Hk. specialize (H4 k d r j Hk). rewrite Hts. rewrite list_lookup_insert_ne; [done|]. intros ->. rewrite Hw in H4. injection H4 as ->. by destruct (Hnr r).
  - intros k d r Hk. destruct (H6 k d r Hk) as [?|[?|?]]; auto.
  - intros j e. rewrite Hts. intros [(-> & -> & _)|[_ Hj]]%list_lookup_insert_Some; [by apply Hwe|by apply (H7 j)].
Qed.

(** The owner moves and keeps the queue and the calls together. *)
Lemma tasks_inv_owner s s' ps :
  tasks_inv s ps -> _threads s' = _threads s -> _taskQueue (pool s') ++ tasksOf (calls s') = _taskQueue (pool s) ++ tasksOf (calls s) ->
  thrown s' = thrown s -> store s' = store s -> (ending (own s') = true -> calls s' = []) -> (own s = OTerminate -> own s' = OTerminate) ->
  (forall e, _errorString (pool s') = Some e -> fails tasks m0 e) -> (failing s -> failing s' \/ own s' = OTerminate) -> tasks_inv s' ps.
Proof.
  intros [H1 H2 H3 H4 H5 H6 H7 H8 H9] Hts Hq Hth Hst Hend Hter Her Hf.
  constructor; rewrite ?Hts, ?Hst, ?Hth; try done.
  - destruct H1 as (dr & Hdr & Hn). exists dr. split; [|done]. rewrite <- Hdr. f_equal.
    pose proof (f_equal (fun l => l ++ dr) Hq) as H. cbn in H. rewrite <- !app_assoc in H. exact H.
  - intros k d r Hk. destruct (H6 k d r Hk) as [?|[?|[?|?]%Hf]]; auto.
Qed.

(** A thread moves on in its piece [k]. *)
Lemma tasks_inv_piece s ps i k d r0 d' r' o w' m :
  tasks_inv s ps -> _threads s !! i = Some (WRun r0) -> ps !! k = Some (d, r0, Some i) ->
  d' ++ r' = d ++ r0 \/ o = None /\ d' = d /\ r' = r0 -> runActions (concat (done <$> <[k := (d', r', o)]> ps)) m0 = Some m ->
  (o = Some i /\ w' = WRun r') \/ (o = None /\ (forall r, w' <> WRun r) /\ (r' = [] \/ exists e, w' = WEnd (Some e))) ->
  (forall e, w' = WEnd (Some e) -> fails tasks m0 e) ->
  tasks_inv (with_worker (with_store s m) i w') (<[k := (d', r', o)]> ps).
Proof.
  intros [H1 H2 H3 H4 H5 H6 H7 H8 H9] Hi Hk Hdr Hrun Ho Hfail.
  assert (Hdr' : d' ++ r' = d ++ r0) by (by destruct Hdr as [|(_ & -> & ->)]). clear Hdr.
  pose proof (lookup_lt_Some _ _ _ Hi) as Hilt. pose proof (lookup_lt_Some _ _ _ Hk) as Hklt.
  constructor; cbn; try done.
  - destruct H1 as (dr & <- & Hn). exists dr. split; [|done]. f_equal. rewrite list_fmap_insert. cbn. unfold done, left_ at 1. cbn.
    rewrite Hdr'. apply list_insert_id. by apply (list_lookup_fmap_Some_2 (fun p : piece => done p ++ left_ p) ps k (d, r0, Some i)).
  - intros j r [(-> & -> & _)|[Hne Hj]]%list_lookup_insert_Some.
    + destruct Ho as [[-> [= ->]]|(_ & Hno & _)]; [|by destruct (Hno r)]. exists k, d'. by apply list_lookup_insert_eq.
    + destruct (H3 j r Hj) as (k' & d1 & Hk'). exists k', d1. rewrite list_lookup_insert_ne; [done|]. intros ->. rewrite Hk in Hk'. by injection Hk' as ->.
  - intros k' d1 r j [(-> & [= -> -> ->] & _)|[Hne Hj]]%list_lookup_insert_Some.
    + destruct Ho as [[[= ->] ->]|[? _]]; [by apply list_lookup_insert_eq|done].
    + rewrite list_lookup_insert_ne; [by apply (H4 k' d1)|]. intros ->. apply Hne. by apply (H5 _ _ _ _ j Hk Hj).
  - intros k1 k2 p1 p2 j Hp1 Hp2 Hj1 Hj2.
    assert (Hold : forall k1 p1, <[k := (d', r', o)]> ps !! k1 = Some p1 -> p1.2 = Some j -> exists p, ps !! k1 = Some p /\ p.2 = Some j).
    { intros k3 p3 [(-> & <- & _)|[_ H]]%list_lookup_insert_Some Hp; [|by exists p3]. exists (d, r0, Some i). split; [done|].
      cbn in *. destruct Ho as [[-> _]|[-> _]]; done. }
    destruct (Hold _ _ Hp1 Hj1) as (q1 & Hq1 & ?), (Hold _ _ Hp2 Hj2) as (q2 & Hq2 & ?). by apply (H5 _ _ q1 q2 j).
  - assert (Hmono : failing s -> failing (with_worker (with_store s m) i w')).
    { intros [(j & e & Hj)|H]; [left|by right]. exists j, e. cbn. rewrite list_lookup_insert_ne; [done|]. intros ->. congruence. }
    intros k' d1 r [(-> & [= -> -> ->] & _)|[Hne Hj]]%list_lookup_insert_Some.
    + destruct Ho as [[? _]|(_ & _ & [->|[e ->]])]; [done|auto|]. right. right. left. exists i, e. cbn. by apply list_lookup_insert_eq.
    + destruct (H6 k' d1 r Hj) as [?|[?|?]]; auto.
  - intros j e [(-> & -> & _)|[_ Hj]]%list_lookup_insert_Some; [by apply Hfail|by apply (H7 j)].
Qed.

Lemma tasks_inv_take s ps i w p :
  tasks_inv s ps -> _threads s !! i = Some WLoop -> takeTask (pool s) = (w, p) ->
  exists ps', tasks_inv (with_worker (with_pool s p) i w) ps'.
Proof.
  intros Hinv Hi Ht. unfold takeTask in Ht. destruct (_taskQueue (pool s)) as [|t q] eqn:Hq; injection Ht as <- <-.
  - exists ps. apply (tasks_inv_other s _ ps i WLoop (if _shouldExit (pool s) then WExit else WWait)); cbn; try done;
      try (by destruct (_shouldExit (pool s))); [apply (ti_error _ _ Hinv)|].
    intros [(j & e & Hj)|H]; [left|by right]. exists j, e. cbn. rewrite list_lookup_insert_ne; [done|]. intros ->. congruence.
  - pose proof (lookup_lt_Some _ _ _ Hi) as Hilt.
    exists (ps ++ [([], t, Some i)]). destruct Hinv as [H1 H2 H3 H4 H5 H6 H7 H8 H9].
    assert (Hfree : forall k d r, ps !! k <> Some (d, r, Some i)) by (intros k d r Hk; specialize (H4 _ _ _ _ Hk); congruence).
    constructor; cbn; try done.
    + destruct H1 as (dr & Hdr & Hn). exists dr. split; [|done]. rewrite fmap_app, <- (app_assoc _ _ (q ++ _)), <- Hdr, Hq. done.
    + by rewrite fmap_app, concat_app, app_nil_r.
    + intros j r [(-> & [= ->] & _)|[Hne Hj]]%list_lookup_insert_Some.
      * exists (length ps), []. by apply list_lookup_middle.
      * destruct (H3 j r Hj) as (k & d & Hk). exists k, d. by apply lookup_app_l_Some.
    + intros k d r j [Hk|[_ Hk]]%lookup_app_Some.
      * rewrite list_lookup_insert_ne; [by apply (H4 k d)|]. intros ->. by apply (Hfree k d r).
      * apply list_lookup_singleton_Some in Hk as [_ [= <- <- <-]]. by apply list_lookup_insert_eq.
    + intros k k' p p' j [Hk|[Hlen Hk]]%lookup_app_Some [Hk'|[Hlen' Hk']]%lookup_app_Some Hp Hp'.
      * by apply (H5 _ _ p p' j).
      * apply list_lookup_singleton_Some in Hk' as [_ <-]. cbn in Hp'. injection Hp' as ->. destruct p as [[d r] o]. cbn in Hp. subst o. by destruct (Hfree k d r).
      * apply list_lookup_singleton_Some in Hk as [_ <-]. cbn in Hp. injection Hp as ->. destruct p' as [[d r] o]. cbn in Hp'. subst o. by destruct (Hfree k' d r).
      * apply list_lookup_singleton_Some in Hk as [? _]. apply list_lookup_singleton_Some in Hk' as [? _]. lia.
    + intros k d r [Hk|[_ Hk]]%lookup_app_Some; [|by apply list_lookup_singleton_Some in Hk as [_ ?]].
      destruct (H6 k d r Hk) as [?|[?|[(j & e & Hj)|?]]]; auto; right; right; [left|by right].
      exists j, e. cbn. rewrite list_lookup_insert_ne; [done|]. intros ->. congruence.
    + intros j e [(-> & ? & _)|[_ Hj]]%list_lookup_insert_Some; [done|by apply (H7 j)].
Qed.

Lemma failing_insert s s' i w w' :
  _threads s !! i = Some w -> (forall e, w <> WEnd (Some e)) -> _threads s' = <[i := w']> (_threads s) ->
  _errorString (pool s') = _errorString (pool s) -> thrown s' = thrown s -> failing s -> failing s'.
Proof.
  intros Hw Hn Hts He Ht [(j & e & Hj)|H]; [left|right; by rewrite He, Ht]. exists j, e. rewrite Hts.
  rewrite list_lookup_insert_ne; [done|]. intros ->. rewrite Hw in Hj. injection Hj as ->. by destruct (Hn e).
Qed.

Lemma tasks_inv_complete s ps i err :
  tasks_inv s ps -> _threads s !! i = Some (WEnd err) ->
  tasks_inv (with_worker (with_pool s (completeTask err (pool s))) i WNotify) ps.
Proof.
  intros Hinv Hi. apply (tasks_inv_other s _ ps i (WEnd err) WNotify); cbn; try done.
  - intros e He. destruct err as [e'|]; [|by apply (ti_error _ _ Hinv)].
    destruct (_errorString (pool s)) as [e0|] eqn:Heq; [by apply (ti_error _ _ Hinv); rewrite Heq|].
    injection He as <-. by apply (ti_end _ _ Hinv i).
  - intros [(j & e & Hj)|H].
    + destruct (decide (i = j)) as [->|Hne]; [|left; exists j, e; cbn; by rewrite list_lookup_insert_ne].
      right. left. cbn. rewrite Hi in Hj. injection Hj as ->. by destruct (_errorString (pool s)).
    + right. cbn. destruct H as [H|H]; [left|by right]. destruct err, (_errorString (pool s)); done.
Qed.

Lemma tasks_inv_throw s ps e p :
  tasks_inv s ps -> WaitForIdle assertMessage (pool s) = Some (Some e, p) -> (forall e, _errorString p = Some e -> fails tasks m0 e) ->
  _taskQueue p = _taskQueue (pool s) -> tasks_inv (mkSys p (_threads s) OBody [] (Some e) (store s)) ps.
Proof.
  intros [H1 H2 H3 H4 H5 H6 H7 H8 H9] Hw Hp Hq. constructor; cbn; try done.
  - destruct H1 as (dr & <- & _). exists (tasksOf (calls s) ++ dr). split; [|done]. by rewrite Hq.
  - intros k d r Hk. right. right. right. right. done.
Qed.

Ltac owner_case s Hinv Ho :=
  apply (tasks_inv_owner s); cbn; rewrite ?Ho; try done; try (by apply (ti_error _ _ Hinv)); try (by left).

Lemma tasks_inv_step s s' ps :
  pool_inv s -> tasks_inv s ps -> step assertMessage s s' -> exists ps', tasks_inv s' ps'.
Proof.
  intros Hp Hinv Hst. destruct Hst as [s i w p Hi Ht|s i a rest m Hi Ha|s i a rest e Hi Ha|s i Hi|s i err Hi|s i Hi
    |s t cs Ho Hcs|s i Ho Hi|s Ho Hi|s cs Ho Hcs|s Ho Hcs|s d Ho Hw|s d p Ho Hw|s e p Ho Hw|s e p Ho Hw|s Ho|s Ho|s Ho Hall].
  - by apply (tasks_inv_take s ps).
  - destruct (ti_running _ _ Hinv i _ Hi) as (k & d & Hk). exists (<[k := (d ++ [a], rest, Some i)]> ps).
    apply (tasks_inv_piece s ps i k d (a :: rest)); try done; [left; by rewrite <- app_assoc|by apply (run_piece s)|by left].
  - destruct (ti_running _ _ Hinv i _ Hi) as (k & d & Hk). exists (<[k := (d, a :: rest, None)]> ps).
    apply (tasks_inv_piece s ps i k d (a :: rest) d (a :: rest) None (WEnd (Some e)) (store s)); try done; [by left| | |].
    + rewrite list_fmap_insert. cbn. rewrite list_insert_id; [apply (ti_store _ _ Hinv)|]. by apply (list_lookup_fmap_Some_2 done ps k (d, a :: rest, Some i)).
    + right. split; [done|]. split; [done|]. right. by exists e.
    + intros e' [= <-]. by apply (piece_fails s ps k d a rest i).
  - destruct (ti_running _ _ Hinv i _ Hi) as (k & d & Hk). exists (<[k := (d, [], None)]> ps).
    apply (tasks_inv_piece s ps i k d [] d [] None (WEnd None) (store s)); try done; [by left| |].
    + rewrite list_fmap_insert. cbn. rewrite list_insert_id; [apply (ti_store _ _ Hinv)|]. by apply (list_lookup_fmap_Some_2 done ps k (d, [], Some i)).
    + right. split; [done|]. split; [done|by left].
  - exists ps. by apply tasks_inv_complete.
  - exists ps. apply (tasks_inv_other s _ ps i WNotify WLoop); cbn; try done; try (by destruct (own s)); [by apply (ti_error _ _ Hinv)|].
    by apply (failing_insert s _ i WNotify WLoop).
  - exists ps. owner_case s Hinv Ho. by rewrite Hcs, <- app_assoc.
  - exists ps. apply (tasks_inv_other s _ ps i WWait WLoop); cbn; rewrite ?Ho; try done; [by apply (ti_error _ _ Hinv)|].
    by apply (failing_insert s _ i WWait WLoop).
  - exists ps. owner_case s Hinv Ho.
  - exists ps. owner_case s Hinv Ho. by rewrite Hcs.
  - exists ps. owner_case s Hinv Ho.
  - exists ps. owner_case s Hinv Ho. intros ->. by apply (ti_calls _ _ Hinv); rewrite Ho.
  - destruct (WaitForIdle_eq assertMessage s _ _ Hp Hw) as (Her & Her' & Hq & Hb & Hq' & _).
    exists ps. owner_case s Hinv Ho.
    + by rewrite Hq, Hq'.
    + destruct d; [|done]. intros _. by apply (ti_calls _ _ Hinv); rewrite Ho.
    + by rewrite Her'.
    + intros [(j & e & Hj)|[He|Ht]]; [|by rewrite <- Her in He|left; right; by right].
      specialize (Hb (WEnd (Some e)) ltac:(by eapply list_elem_of_lookup_2)). done.
  - destruct (WaitForIdle_eq assertMessage s _ _ Hp Hw) as (Her & Her' & Hq & Hb & Hq' & _).
    exists ps. apply (tasks_inv_throw s ps e p); try done; [by rewrite Her'|by rewrite Hq, Hq'].
  - destruct (WaitForIdle_eq assertMessage s _ _ Hp Hw) as (Her & Her' & Hq & Hb & Hq' & _).
    exists ps. owner_case s Hinv Ho; [by rewrite Hq, Hq'| |by rewrite Her'|by right].
    intros _. by apply (ti_calls _ _ Hinv); rewrite Ho.
  - exists ps. owner_case s Hinv Ho. intros _. by apply (ti_calls _ _ Hinv); rewrite Ho.
  - exists ps. assert (Hwake : forall i w, (wakeWorker <$> _threads s) !! i = Some w -> (w = WLoop \/ w = WExit \/ _threads s !! i = Some w) /\ w <> WWait).
    { intros i w (w0 & -> & H)%list_lookup_fmap_Some. destruct w0; cbn; auto. }
    assert (Hwake' : forall i w, _threads s !! i = Some w -> w <> WWait -> (wakeWorker <$> _threads s) !! i = Some w).
    { intros i w H Hne. rewrite list_lookup_fmap, H. by destruct w. }
    destruct Hinv as [H1 H2 H3 H4 H5 H6 H7 H8 H9]. constructor; cbn; try done.
    + intros i r [[?|[?|Hi]] _]%Hwake; [done..|by apply H3].
    + intros k d r i Hk. apply Hwake'; [by apply (H4 k d)|done].
    + intros k d r Hk. destruct (H6 k d r Hk) as [Ht|[?|[(j & e & Hj)|?]]]; [by rewrite Ho in Ht|auto| |].
      * right. right. left. exists j, e. by apply Hwake'.
      * right. right. by right.
    + intros i e [[?|[?|Hi]] _]%Hwake; [done..|by apply (H7 i)].
    + intros _. apply H9. by rewrite Ho.
  - exists ps. owner_case s Hinv Ho. intros _. by apply (ti_calls _ _ Hinv); rewrite Ho.
Qed.

Lemma tasks_inv_spurious s s' ps : tasks_inv s ps -> spurious s s' -> tasks_inv s' ps.
Proof.
  intros Hinv Hst. destruct Hst as [s i Hi|s d Ho].
  - apply (tasks_inv_other s _ ps i WWait WLoop); cbn; try done; [by apply (ti_error _ _ Hinv)|]. by apply (failing_insert s _ i WWait WLoop).
  - owner_case s Hinv Ho. intros ->. by apply (ti_calls _ _ Hinv); rewrite Ho.
Qed.

Lemma idle_tasks s : idle s -> tasksOf (calls s) = tasks -> store s = m0 -> tasks_inv s [].
Proof.
  intros [[Ho Ht] (_ & Hq & He) _ _ [_ Hts]] Htasks Hst. rewrite Forall_lookup in Hts. constructor; rewrite ?Ho, ?He, ?Hq; try done.
  - exists []. by rewrite app_nil_r.
  - by rewrite Hst.
  - intros i r Hi. by destruct (Hts _ _ Hi) as [?|[?|?]].
  - intros i e Hi. by destruct (Hts _ _ Hi) as [?|[?|?]].
Qed.

Lemma runs_tasks s0 s :
  idle s0 -> tasksOf (calls s0) = tasks -> store s0 = m0 -> runs assertMessage s0 s -> pool_inv s /\ exists ps, tasks_inv s ps.
Proof.
  intros H0 Ht Hm Hr. split; [by apply (runs_inv assertMessage s0), Hr; apply idle_inv|].
  assert (Hps : exists ps, tasks_inv s0 ps) by (exists []; by apply idle_tasks). apply idle_inv in H0. clear Ht Hm.
  induction Hr as [|s0 s1 s2 [H|H] _ IH]; [done|..]; destruct Hps as [ps Hps]; apply IH; clear IH.
  - by apply (step_inv assertMessage s0).
  - by apply (tasks_inv_step s0 s1 ps).
  - by apply (spurious_inv s0).
  - exists ps. by apply (tasks_inv_spurious s0).
Qed.

(** What the owner finds after [WaitForIdle] *)
Lemma WaitForIdle_tasks s0 s d r p :
  idle s0 -> tasksOf (calls s0) = tasks -> store s0 = m0 -> runs assertMessage s0 s ->
  own s = OIdle d -> thrown s = None -> WaitForIdle assertMessage (pool s) = Some (r, p) ->
  match r with
  | None => exists called, tasks = called ++ tasksOf (calls s) /\ runActions (concat called) m0 = Some (store s)
  | Some e => fails tasks m0 e
  end.
Proof.
  intros H0 Ht Hm Hr Ho Hth Hw. destruct (runs_tasks s0 s H0 Ht Hm Hr) as (Hinv & ps & Hps).
  destruct (WaitForIdle_eq assertMessage s _ _ Hinv Hw) as (-> & _ & Hq & Hb & _).
  destruct (_errorString (pool s)) as [e|] eqn:He; [by apply (ti_error _ _ Hps)|].
  destruct (ti_tasks _ _ Hps) as (dr & Hdr & Hnil). rewrite (Hnil Hth), app_nil_r, Hq in Hdr.
  exists ((fun p => done p ++ left_ p) <$> ps). split; [by rewrite <- Hdr|]. rewrite <- (ti_store _ _ Hps). do 2 f_equal.
  apply list_fmap_ext. intros k [[d0 l0] o] Hk. cbn. unfold done, left_. cbn. destruct o as [i|].
  - specialize (Hb (WRun l0)). pose proof (ti_runner _ _ Hps _ _ _ _ Hk). assert (1%nat = 0%nat); [|done].
    apply Hb. by eapply list_elem_of_lookup_2.
  - destruct (ti_ended _ _ Hps _ _ _ Hk) as [Hot|[->|[(j & e & Hj)|[Her|Htr]]]]; [by rewrite Ho in Hot|by rewrite app_nil_r| |done..].
    specialize (Hb (WEnd (Some e)) ltac:(by eapply list_elem_of_lookup_2)). done.
Qed.

End Tasks.
End ThreadPoolTasks.
