(* ===== verification/ThreadPoolCorrect.v ===== *)
(** * The guarantees of the thread pool

    For every interleaving of the threads, with spurious wakeups: what
    [WaitForIdle] waits for, that no notification is lost, that every run ends,
    and that the tasks have the effect they have one after another. *)

From stdpp Require Import relations.
From S2P Require Import Prelude MachineInt ThreadPool ThreadPoolFacts.
Import MachineInt ThreadPool ThreadPoolFacts ThreadPoolTasks.

Module ThreadPoolCorrect.

(** ** Two tasks and two threads, for the witnesses *)

Definition addTask (n : nat) : TaskCallback nat := [fun m => inr (m + n)%nat].
Definition demoCalls : list (call nat) := [CAsync (addTask 1); CAsync (addTask 2); CWaitForIdle].

Lemma demo_independent : independent (tasksOf demoCalls).
Proof.
  intros i j ti tj a b _ Hi Hj Ha Hb. destruct i as [|[|i]], j as [|[|j]]; try done; injection Hi as <-; injection Hj as <-;
    apply list_elem_of_singleton in Ha as ->; apply list_elem_of_singleton in Hb as ->; intros m m1 m2 [= <-] [= <-];
    eexists; (split; [reflexivity|]); f_equal; lia.
Qed.

(** The second task runs before the first one ends. *)
Definition demoState : sys nat :=
  mkSys (mkThreadPool false [] 2 2 None) [WLoop; WLoop] (OIdle false) [] None 3%nat.

Lemma demoState_reachable : reachable "assert" 2 demoCalls 0%nat demoState.
Proof.
  unfold reachable, start, demoCalls. cbn. pstep @step_async. eapply rtc_l; [left; apply step_async_lost; [done|cbn; set_solver]|cbn].
  pstep @step_async. eapply rtc_l; [left; apply step_async_lost; [done|cbn; set_solver]|cbn].
  pstep (@step_take nat "assert" _ 0%nat). pstep (@step_take nat "assert" _ 1%nat).
  pstep (@step_action nat "assert" _ 1%nat). pstep (@step_action nat "assert" _ 0%nat).
  pstep (@step_end nat "assert" _ 1%nat). pstep (@step_end nat "assert" _ 0%nat).
  pstep (@step_complete nat "assert" _ 0%nat). pstep (@step_complete nat "assert" _ 1%nat).
  pstep (@step_notify nat "assert" _ 0%nat). pstep (@step_notify nat "assert" _ 1%nat).
  pstep @step_wait. apply rtc_refl.
Qed.

Section Properties.
Context {Store : Type} (assertMessage : string).

(** C18: in every state that the pool can reach, the tasks enqueued are those
    completed, those in the queue and those that a thread runs, and no
    notification is lost: a thread is on its way to a queued task or about to
    be notified, and an owner that waits has something left to wait for or is
    about to be notified. *)
Theorem ThreadPool_invariant n cs (m : Store) s :
  (0 < n)%nat -> Z.of_nat (length cs) < 2 ^ 64 -> reachable assertMessage n cs m s ->
  _tasksEnqueued (pool s) = _tasksCompleted (pool s) + Z.of_nat (length (_taskQueue (pool s)) + sum_list_with busy (_threads s)) /\
  (_taskQueue (pool s) <> [] -> own s = ONotify \/ exists w, w ∈ _threads s /\ active w) /\
  (forall d, own s = OBlocked d -> _tasksEnqueued (pool s) <> _tasksCompleted (pool s) \/ WNotify ∈ _threads s).
Proof.
  intros Hn Hcs Hr. pose proof (reachable_inv assertMessage n cs m s Hn Hcs Hr) as Hi.
  split; [apply (pi_count _ Hi)|]. split; [apply (pi_awake _ Hi)|apply (pi_blocked _ Hi)].
Qed.

(** C19: when [WaitForIdle] stops waiting, all the tasks enqueued have completed:
    its assertion on the queue holds, no thread has a task, and it throws the
    recorded error, which it clears, or nothing. *)
Theorem WaitForIdle_waits n cs (m : Store) s d r p :
  (0 < n)%nat -> Z.of_nat (length cs) < 2 ^ 64 -> reachable assertMessage n cs m s ->
  own s = OIdle d -> WaitForIdle assertMessage (pool s) = Some (r, p) ->
  _taskQueue (pool s) = [] /\ (forall w, w ∈ _threads s -> busy w = 0%nat) /\ r = _errorString (pool s) /\ _errorString p = None.
Proof.
  intros Hn Hcs Hr _ Hw. pose proof (reachable_inv assertMessage n cs m s Hn Hcs Hr) as Hi.
  destruct (WaitForIdle_eq assertMessage s r p Hi Hw) as (-> & He & Hq & Hb & _). auto.
Qed.

(** C17: every run ends: from a state that the pool can reach there are at most
    [weight] steps, spurious wakeups aside, and a state without a next step is
    one where the destructor has joined all the threads with nothing left to do
    or has thrown. *)
Theorem ThreadPool_runs_end n cs (m : Store) s :
  (0 < n)%nat -> Z.of_nat (length cs) < 2 ^ 64 -> reachable assertMessage n cs m s ->
  (forall k s', nsteps (step assertMessage) k s s' -> (k <= weight s)%nat) /\
  ((forall s', ~ step assertMessage s s') ->
    own s = OTerminate \/
    own s = ODone /\ _taskQueue (pool s) = [] /\ forall w, w ∈ _threads s -> w = WExit).
Proof.
  intros Hn Hcs Hr. pose proof (reachable_inv assertMessage n cs m s Hn Hcs Hr) as Hi. split.
  - intros k s' Hk. pose proof (nsteps_weight assertMessage k s s' Hk). lia.
  - intros Hstuck. destruct (inv_progress assertMessage s Hi) as [Ho|[Ho|[s' Hs']]]; [right|by left|by destruct (Hstuck s')].
    split; [done|]. split; [|by apply (pi_done _ Hi)]. apply (inv_idle s Hi), (pi_quiet _ Hi). by rewrite Ho.
Qed.

(** C21: what [WaitForIdle] lets its caller see: without an error the shared
    memory is what the tasks enqueued so far leave when they run one after
    another in that order; an error is what an action of a task throws after a
    part of each task has run. *)
Theorem Async_sequential n cs (m : Store) s d r p :
  (0 < n)%nat -> Z.of_nat (length cs) < 2 ^ 64 -> independent (tasksOf cs) -> reachable assertMessage n cs m s ->
  own s = OIdle d -> thrown s = None -> WaitForIdle assertMessage (pool s) = Some (r, p) ->
  match r with
  | None => exists called, tasksOf cs = called ++ tasksOf (calls s) /\ runActions (concat called) m = Some (store s)
  | Some e => fails (tasksOf cs) m e
  end.
Proof. intros Hn Hcs Hind Hr Ho Ht Hw. by apply (WaitForIdle_tasks assertMessage (tasksOf cs) m Hind (start n cs m) s d r p); [apply start_idle|..]. Qed.

(** ** The end of a run *)

(** An error that the owner has not seen *)
Definition pending (s : sys Store) : Prop := (exists i e, _threads s !! i = Some (WEnd (Some e))) \/ _errorString (pool s) <> None.

(** An error that only the destructor will see *)
Definition doomed (s : sys Store) : Prop :=
  CWaitForIdle ∉ calls s /\
  match own s with
  | OBody | ONotify | OIdle true | OBlocked true => pending s
  | OTerminate => True
  | _ => False
  end.

Lemma pending_insert s s' i w w' :
  _threads s !! i = Some w -> (forall e, w <> WEnd (Some e)) -> _threads s' = <[i := w']> (_threads s) ->
  _errorString (pool s') = _errorString (pool s) -> pending s -> pending s'.
Proof.
  intros Hw Hn Hts He [(j & e & Hj)|H]; [left|right; by rewrite He]. exists j, e. rewrite Hts.
  rewrite list_lookup_insert_ne; [done|]. intros ->. rewrite Hw in Hj. injection Hj as ->. by destruct (Hn e).
Qed.

(** A thread moves on and the owner stays where it is or wakes up. *)
Lemma doomed_worker s s' i w w' :
  _threads s !! i = Some w -> (forall e, w <> WEnd (Some e)) -> _threads s' = <[i := w']> (_threads s) ->
  _errorString (pool s') = _errorString (pool s) -> calls s' = calls s -> own s' = own s \/ own s' = wakeOwner (own s) ->
  doomed s -> doomed s'.
Proof.
  intros Hw Hn Hts He Hc Ho [H1 H2]. split; [by rewrite Hc|]. pose proof (pending_insert s s' i w w' Hw Hn Hts He).
  destruct Ho as [->| ->]; destruct (own s) as [| |[]|[]| | | | |]; cbn; auto.
Qed.

Lemma doomed_step s s' : pool_inv s -> doomed s -> step assertMessage s s' -> doomed s'.
Proof.
  intros Hinv Hd Hs. pose proof Hd as [Hcalls Hown].
  destruct Hs as [s i w p Hi Hk|s i a rest m' Hi Ha|s i a rest e Hi Ha|s i Hi|s i err Hi|s i Hi
    |s t cs' Ho Hc|s i Ho Hi|s Ho Hi|s cs' Ho Hc|s Ho Hc|s d Ho Hw|s d p Ho Hw|s e p Ho Hw|s e p Ho Hw|s Ho|s Ho|s Ho Hall];
    try rewrite Ho in Hown; try done.
  - apply (doomed_worker s _ i WLoop w); cbn; auto. unfold takeTask in Hk. by destruct (_taskQueue (pool s)); injection Hk as <- <-.
  - by apply (doomed_worker s _ i (WRun (a :: rest)) (WRun rest)); auto.
  - by apply (doomed_worker s _ i (WRun (a :: rest)) (WEnd (Some e))); auto.
  - by apply (doomed_worker s _ i (WRun []) (WEnd None)); auto.
  - destruct err as [e|].
    + split; [done|]. cbn. assert (Hp : pending (with_worker (with_pool s (completeTask (Some e) (pool s))) i WNotify)).
      { right. cbn. by destruct (_errorString (pool s)). }
      by destruct (own s) as [| |[]|[]| | | | |].
    + apply (doomed_worker s _ i (WEnd None) WNotify); cbn; auto.
  - by apply (doomed_worker s _ i WNotify WLoop); cbn; auto.
  - split; [|exact Hown]. rewrite Hc in Hcalls. cbn. set_solver.
  - split; [done|]. cbn. by apply (pending_insert s _ i WWait WLoop).
  - rewrite Hc in Hcalls. set_solver.
  - destruct d; [|done]. exfalso. destruct (WaitForIdle_eq assertMessage s _ _ Hinv Hw) as (He & _ & _ & Hb & _).
    destruct Hown as [(i & e & Hi)|Hn]; [|by rewrite <- He in Hn]. by specialize (Hb _ (list_elem_of_lookup_2 _ _ _ Hi)).
Qed.

Lemma doomed_spurious s s' : doomed s -> spurious s s' -> doomed s'.
Proof.
  intros Hd Hs. destruct Hs as [s i Hi|s d Ho]; [by apply (doomed_worker s _ i WWait WLoop); auto|].
  destruct Hd as [H1 H2]. rewrite Ho in H2. split; [done|]. by destruct d.
Qed.

Lemma doomed_runs s s' : pool_inv s -> doomed s -> runs assertMessage s s' -> pool_inv s' /\ doomed s'.
Proof.
  intros Hinv Hd. induction 1 as [|s0 s1 s2 [H|H] _ IH]; [done|..]; apply IH.
  - by eapply step_inv.
  - by eapply doomed_step.
  - by eapply spurious_inv.
  - by eapply doomed_spurious.
Qed.

(** C34: a task that throws when the owner has no [WaitForIdle] in progress or
    left to call ends the program, whatever the other tasks do: in every run from
    there the destructor does not return, at most [weight] more steps are
    possible, spurious wakeups aside, and without a next step the destructor has
    thrown the recorded error: as it is [noexcept], [std::terminate] is called. *)
Theorem destructor_terminates n cs (m : Store) s i a rest e s' :
  (0 < n)%nat -> Z.of_nat (length cs) < 2 ^ 64 -> reachable assertMessage n cs m s ->
  _threads s !! i = Some (WRun (a :: rest)) -> a (store s) = inl e ->
  CWaitForIdle ∉ calls s -> own s <> OIdle false -> own s <> OBlocked false ->
  runs assertMessage (with_worker s i (WEnd (Some e))) s' ->
  own s' <> ODone /\ (forall k s'', nsteps (step assertMessage) k s' s'' -> (k <= weight s')%nat) /\
  ((forall s'', ~ step assertMessage s' s'') -> own s' = OTerminate).
Proof.
  intros Hn Hcs Hr Hi Ha Hw Ho1 Ho2 Hruns. pose proof (reachable_inv assertMessage n cs m s Hn Hcs Hr) as Hinv.
  assert (Hinv1 : pool_inv (with_worker s i (WEnd (Some e)))) by (by eapply (step_inv assertMessage s), step_catch).
  assert (Hd : doomed (with_worker s i (WEnd (Some e)))).
  { split; [done|]. assert (Hp : pending (with_worker s i (WEnd (Some e)))).
    { left. exists i, e. cbn. apply list_lookup_insert_eq. by eapply lookup_lt_Some. }
    assert (Hq : quiet (own s) = false).
    { destruct (quiet (own s)) eqn:Hq; [|done]. destruct (proj1 (inv_idle s Hinv) (pi_quiet _ Hinv Hq)) as [_ Hb].
      by specialize (Hb _ (list_elem_of_lookup_2 _ _ _ Hi)). }
    cbn. by destruct (own s) as [| |[]|[]| | | | |]. }
  destruct (doomed_runs _ s' Hinv1 Hd Hruns) as [Hinv' [_ Hown]]. split; [by intros Heq; rewrite Heq in Hown|]. split.
  - intros k s'' Hk. pose proof (nsteps_weight assertMessage k s' s'' Hk). lia.
  - intros Hstuck. destruct (inv_progress assertMessage s' Hinv') as [Heq|[Heq|[s'' Hs'']]]; [by rewrite Heq in Hown|done|by destruct (Hstuck s'')].
Qed.

End Properties.

Lemma ThreadPool_invariant_witness :
  reachable "assert" 2 demoCalls 0%nat demoState /\
  _tasksEnqueued (pool demoState) = _tasksCompleted (pool demoState) + Z.of_nat (length (_taskQueue (pool demoState)) + sum_list_with busy (_threads demoState)) /\
  (_taskQueue (pool demoState) <> [] -> own demoState = ONotify \/ exists w, w ∈ _threads demoState /\ active w) /\
  (forall d, own demoState = OBlocked d -> _tasksEnqueued (pool demoState) <> _tasksCompleted (pool demoState) \/ WNotify ∈ _threads demoState).
Proof.
  split; [exact demoState_reachable|].
  apply (ThreadPool_invariant "assert" 2 demoCalls 0%nat); [lia|done|exact demoState_reachable].
Defined.

Lemma WaitForIdle_waits_witness :
  WaitForIdle "assert" (pool demoState) = Some (None, mkThreadPool false [] 2 2 None) /\
  _taskQueue (pool demoState) = [] /\ (forall w, w ∈ _threads demoState -> busy w = 0%nat) /\
  None = _errorString (pool demoState) /\ _errorString (@mkThreadPool nat false [] 2 2 None) = None.
Proof.
  split; [reflexivity|].
  apply (WaitForIdle_waits "assert" 2 demoCalls 0%nat demoState false); [lia|done|exact demoState_reachable|done|reflexivity].
Defined.

Lemma ThreadPool_runs_end_witness :
  weight demoState = 12%nat /\
  (forall k s', nsteps (step "assert") k demoState s' -> (k <= weight demoState)%nat) /\
  ((forall s', ~ step "assert" demoState s') ->
    own demoState = OTerminate \/
    own demoState = ODone /\ _taskQueue (pool demoState) = [] /\ forall w, w ∈ _threads demoState -> w = WExit).
Proof.
  split; [reflexivity|].
  apply (ThreadPool_runs_end "assert" 2 demoCalls 0%nat); [lia|done|exact demoState_reachable].
Defined.

Lemma Async_sequential_witness :
  exists called, tasksOf demoCalls = called ++ tasksOf (calls demoState) /\ runActions (concat called) 0%nat = Some 3%nat.
Proof.
  apply (Async_sequential "assert" 2 demoCalls 0%nat demoState false None (mkThreadPool false [] 2 2 None));
    [lia|done|exact demo_independent|exact demoState_reachable|done|done|reflexivity].
Defined.

(** One thread, a task before a [WaitForIdle] and one after it that throws *)
Definition throwing : TaskCallback nat := [fun _ => inl "failed"%string].
Definition failedCalls : list (call nat) := [CAsync (addTask 1); CWaitForIdle; CAsync throwing].
Definition throwState : sys nat := mkSys (mkThreadPool false [] 2 1 None) [WRun throwing] OBody [] None 1%nat.
Definition failedState : sys nat := mkSys (mkThreadPool false [] 2 2 None) [WWait] OTerminate [] None 1%nat.

Lemma throwState_reachable : reachable "assert" 1 failedCalls 0%nat throwState.
Proof.
  unfold reachable, runs, start, failedCalls. cbn. pstep @step_async. eapply rtc_l; [left; apply step_async_lost; [done|cbn; set_solver]|cbn].
  pstep @step_wait. pstep (@step_take nat "assert" _ 0%nat). pstep (@step_action nat "assert" _ 0%nat). pstep (@step_end nat "assert" _ 0%nat).
  pstep (@step_complete nat "assert" _ 0%nat). pstep (@step_notify nat "assert" _ 0%nat). pstep @step_return.
  pstep @step_async. eapply rtc_l; [left; apply step_async_lost; [done|cbn; set_solver]|cbn].
  pstep (@step_take nat "assert" _ 0%nat). apply rtc_refl.
Qed.

Lemma failedState_runs : runs "assert" (with_worker throwState 0 (WEnd (Some "failed"%string))) failedState.
Proof.
  unfold runs. cbn. pstep (@step_complete nat "assert" _ 0%nat). pstep (@step_notify nat "assert" _ 0%nat).
  pstep @step_destroy. pstep (@step_take nat "assert" _ 0%nat). pstep @step_terminate. apply rtc_refl.
Qed.

Lemma destructor_terminates_witness : reachable "assert" 1 failedCalls 0%nat throwState /\ own failedState = OTerminate.
Proof.
  split; [exact throwState_reachable|].
  apply (destructor_terminates "assert" 1 failedCalls 0%nat throwState 0 (fun _ => inl "failed"%string) [] "failed"%string failedState);
    [lia|done|exact throwState_reachable|done|done|cbn; set_solver|done|done|exact failedState_runs|].
  intros s' Hs. inversion Hs; subst; cbn in *; try done; destruct i; done.
Defined.
End ThreadPoolCorrect.
