(* ===== verification/MapToList.v ===== *)
(** * [ThreadPool::MapToList]

    [thread_pool.h]: the calls for the elements are distributed over the tasks
    of the pool, each of which fills a list of its own, and the lists are
    combined in the order of the elements.

    The memory that the tasks share is [subLists].  The sums and differences of
    [size_t] wrap around: for the last [threadCount - 1] values of [count] the
    number of elements per thread comes out as 0. *)

From stdpp Require Import relations.
From S2P Require Import Prelude MachineInt ThreadPool ThreadPoolFacts.
Import MachineInt ThreadPool ThreadPoolFacts ThreadPoolTasks.

Module MapToList.

Section Map.
Context {T : Type} (assertMessage : string) (callback : list T -> Z -> string + list T).

(** Code that reads and writes [subLists[tid]] *)
Definition onSubList (tid : nat) (f : list T -> string + list T) : @Action (list (list T)) := fun subLists =>
  match subLists !! tid with
  | Some l => match f l with inr l' => inr (<[tid := l']> subLists) | inl e => inl e end
  | None => inl assertMessage
  end.

(** [assert(subList.empty())] *)
Definition assertEmpty (l : list T) : string + list T := match l with [] => inr [] | _ => inl assertMessage end.

(** The callback that [MapToList] gives to [Async] *)
Definition mapTask (tid : nat) (startElement endElement : Z) : TaskCallback (list (list T)) :=
  onSubList tid assertEmpty :: ((fun i => onSubList tid (fun l => callback l i)) <$> seqZ startElement (endElement - startElement)).

(** The loop over the elements, from [startElement] *)
Fixpoint MapToListLoop (fuel : nat) (threadCount count elementsPerThread startElement : Z) : result (list (call (list (list T)))) :=
  if startElement <? count then
    match fuel with
    | O => Err OutOfFuel
    | S fuel =>
        let endElement := Z.min (u64_add startElement elementsPerThread) count in
        assert_ (startElement <? endElement);;
        let tid := startElement / elementsPerThread in
        assert_ (tid <? threadCount);;
        cs ← MapToListLoop fuel threadCount count elementsPerThread (u64_add startElement elementsPerThread);
        Ok (CAsync (mapTask (Z.to_nat tid) startElement endElement) :: cs)
    end
  else Ok [].

(** The calls that [MapToList] makes on the pool *)
Definition MapToListCalls (threadCount count : Z) : result (list (call (list (list T)))) :=
  let elementsPerThread := u64_sub (u64_add count threadCount) 1 / threadCount in
  cs ← MapToListLoop (Z.to_nat threadCount) threadCount count elementsPerThread 0;
  Ok (cs ++ [CWaitForIdle]).

(** [subLists] before the loop, and the result after [WaitForIdle] *)
Definition initialSubLists (threadCount : Z) : list (list T) := replicate (Z.to_nat threadCount) [].
Definition combineSubLists (resultList : list T) (subLists : list (list T)) : list T := resultList ++ concat subLists.

(** ** The tasks *)

(** The documented callback: it appends what depends on the element. *)
Definition appends (g : Z -> string + list T) : Prop :=
  forall l i, callback l i = match g i with inr xs => inr (l ++ xs) | inl e => inl e end.

Lemma onSubList_ne tid f m m' k : onSubList tid f m = inr m' -> k <> tid -> m' !! k = m !! k.
Proof.
  unfold onSubList. destruct (m !! tid); [|done]. destruct (f l); [done|]. intros [= <-] Hk. by rewrite list_lookup_insert_ne.
Qed.

Lemma onSubList_length tid f m m' : onSubList tid f m = inr m' -> length m' = length m.
Proof. unfold onSubList. destruct (m !! tid); [|done]. destruct (f l); [done|]. intros [= <-]. by rewrite length_insert. Qed.

Lemma onSubList_commute i j f g : i <> j -> commute (onSubList i f) (onSubList j g).
Proof.
  intros Hij m m1 m2. unfold onSubList. destruct (m !! i) as [li|] eqn:Hi; [|done]. destruct (f li) as [|li'] eqn:Hf; [done|].
  intros [= <-]. rewrite list_lookup_insert_ne by done. destruct (m !! j) as [lj|] eqn:Hj; [|done].
  destruct (g lj) as [|lj'] eqn:Hg; [done|]. intros [= <-]. eexists; split; [reflexivity|].
  rewrite list_lookup_insert_ne, Hi, Hf by done. f_equal. by apply list_insert_insert_ne.
Qed.

Lemma elem_of_mapTask tid s e a : a ∈ mapTask tid s e -> exists f, a = onSubList tid f.
Proof. intros [->|(i & -> & _)%list_elem_of_fmap]%elem_of_cons; by eexists. Qed.

(** A chunk: the index of its list, its first element and its end *)
Notation chunk := (nat * Z * Z)%type.
Definition chunkTask (c : chunk) : TaskCallback (list (list T)) := mapTask c.1.1 c.1.2 c.2.
Definition chunkElements (c : chunk) : list Z := seqZ c.1.2 (c.2 - c.1.2).

Lemma tasksOf_async (ts : list (TaskCallback (list (list T)))) cs : tasksOf ((CAsync <$> ts) ++ cs) = ts ++ tasksOf cs.
Proof. induction ts as [|t ts IH]; [done|]. cbn. f_equal. apply IH. Qed.

Lemma seqZ_split_at a b c : a <= b -> b <= c -> seqZ a (b - a) ++ seqZ b (c - b) = seqZ a (c - a).
Proof. intros. replace (c - a) with ((b - a) + (c - b)) by lia. rewrite seqZ_app by lia. do 2 f_equal. lia. Qed.

Lemma seqZ_nil a n : n <= 0 -> seqZ a n = [].
Proof. intros H. unfold seqZ. by replace (Z.to_nat n) with 0%nat by lia. Qed.

Lemma MapToListLoop_eq threadCount count n fuel k :
  0 < n -> count <= threadCount * n < 2 ^ 64 -> (Z.to_nat (threadCount - Z.of_nat k) <= fuel)%nat ->
  exists chunks, MapToListLoop fuel threadCount count n (Z.of_nat k * n) = Ok (CAsync <$> (chunkTask <$> chunks)) /\
    chunks.*1.*1 = seq k (length chunks) /\ (Z.of_nat k <= threadCount -> Z.of_nat (k + length chunks) <= threadCount) /\
    concat (chunkElements <$> chunks) = seqZ (Z.of_nat k * n) (count - Z.of_nat k * n).
Proof.
  intros Hn Hc. revert k; induction fuel as [|fuel IH]; intros k Hfuel; cbn [MapToListLoop].
  - rewrite (proj2 (Z.ltb_ge _ _)) by nia. exists []. split; [done|]. split; [done|]. split; [cbn; lia|]. by rewrite seqZ_nil by nia.
  - destruct (Z.ltb_spec (Z.of_nat k * n) count) as [Hlt|Hge].
    2: { exists []. split; [done|]. split; [done|]. split; [cbn; lia|]. by rewrite seqZ_nil by lia. }
    assert (Hk : Z.of_nat k < threadCount) by nia.
    replace (u64_add (Z.of_nat k * n) n) with (Z.of_nat (S k) * n) by (unfold u64_add; rewrite u64_small; [lia|unfold is_u64; nia]).
    rewrite (assert_true (Z.of_nat k * n <? Z.min _ _)) by (apply Z.ltb_lt; lia). cbn [mbind result_bind]. rewrite Z.div_mul by lia.
    rewrite assert_true by (by apply Z.ltb_lt). cbn [mbind result_bind].
    destruct (IH (S k)) as (cs & -> & H1 & H2 & H3); [lia|]. cbn [mbind result_bind]. rewrite Nat2Z.id.
    exists ((k, Z.of_nat k * n, Z.min (Z.of_nat (S k) * n) count) :: cs). split; [done|]. split; [cbn; by rewrite H1|]. split; [cbn; lia|].
    cbn [fmap list_fmap concat]. rewrite H3. unfold chunkElements. cbn [fst snd]. destruct (Z.min_spec (Z.of_nat (S k) * n) count) as [[? ->]|[? ->]].
    + apply seqZ_split_at; lia.
    + rewrite (seqZ_nil (Z.of_nat (S k) * n)) by lia. apply app_nil_r.
Qed.

Lemma MapToListCalls_eq threadCount count :
  0 < threadCount -> 0 <= count -> count + threadCount - 1 < 2 ^ 64 ->
  exists chunks, MapToListCalls threadCount count = Ok ((CAsync <$> (chunkTask <$> chunks)) ++ [CWaitForIdle]) /\
    chunks.*1.*1 = seq 0 (length chunks) /\ Z.of_nat (length chunks) <= threadCount /\ concat (chunkElements <$> chunks) = seqZ 0 count.
Proof.
  intros Ht Hc Hsum. unfold MapToListCalls.
  replace (u64_sub (u64_add count threadCount) 1) with (count + threadCount - 1).
  2: { unfold u64_sub, u64_add, u64. rewrite Zminus_mod_idemp_l. symmetry. apply Z.mod_small. lia. }
  set (n := (count + threadCount - 1) / threadCount).
  pose proof (Z.div_mod (count + threadCount - 1) threadCount ltac:(lia)). pose proof (Z.mod_pos_bound (count + threadCount - 1) threadCount ltac:(lia)).
  fold n in H. destruct (Z.eq_dec count 0) as [->|Hc0].
  { exists []. destruct (Z.to_nat threadCount); cbn; split_and!; (done || lia). }
  assert (Hn : 0 < n) by (apply Z.div_str_pos; lia).
  destruct (MapToListLoop_eq threadCount count n (Z.to_nat threadCount) 0 Hn) as (cs & Heq & H1 & H2 & H3); [lia|lia|].
  change (Z.of_nat 0 * n) with 0 in *. rewrite Heq. exists cs. split; [done|]. split; [done|]. split; [lia|]. by rewrite H3, Z.sub_0_r.
Qed.

(** With more elements the first assertion of the loop fails. *)
Lemma MapToListCalls_wraps threadCount count :
  0 < threadCount < 2 ^ 64 -> 0 <= count < 2 ^ 64 -> 2 ^ 64 <= count + threadCount - 1 -> MapToListCalls threadCount count = Err AssertionFailed.
Proof.
  intros Ht Hc Hsum. unfold MapToListCalls.
  replace (u64_sub (u64_add count threadCount) 1) with (count + threadCount - 1 - 2 ^ 64).
  2: { unfold u64_sub, u64_add, u64. rewrite Zminus_mod_idemp_l. apply (Z.mod_unique_pos _ _ 1); lia. }
  rewrite (Z.div_small (_ - _) threadCount) by lia. destruct (Z.to_nat threadCount) eqn:E; [lia|]. cbn [MapToListLoop].
  destruct (Z.ltb_spec 0 count); [|lia]. change (u64_add 0 0) with 0. by rewrite Z.min_l by lia.
Qed.

(** ** The tasks one after another *)

Context (g : Z -> string + list T) (Happ : appends g).

Lemma run_elements elems pre acc post m' :
  runActions ((fun i => onSubList (length pre) (fun l => callback l i)) <$> elems) (pre ++ acc :: post) = Some m' ->
  exists xss, Forall2 (fun i xs => g i = inr xs) elems xss /\ m' = pre ++ (acc ++ concat xss) :: post.
Proof.
  revert acc; induction elems as [|i elems IH]; intros acc H; cbn in H.
  - injection H as <-. exists []. by rewrite app_nil_r.
  - unfold onSubList at 1 in H. rewrite list_lookup_middle in H by done. rewrite Happ in H. destruct (g i) as [e|xs] eqn:Hg; [done|].
    rewrite insert_app_r_alt, Nat.sub_diag in H by done. cbn in H. destruct (IH _ H) as (xss & Hxss & ->).
    exists (xs :: xss). split; [by constructor|]. cbn. by rewrite app_assoc.
Qed.

Lemma run_mapTask pre post s e m' :
  runActions (mapTask (length pre) s e) (pre ++ [] :: post) = Some m' ->
  exists xss, Forall2 (fun i xs => g i = inr xs) (seqZ s (e - s)) xss /\ m' = pre ++ concat xss :: post.
Proof.
  unfold mapTask. cbn [runActions]. unfold onSubList at 1. rewrite list_lookup_middle by done. cbn [assertEmpty].
  rewrite list_insert_id by (by apply list_lookup_middle). apply run_elements.
Qed.

Lemma run_chunks (chunks : list chunk) pre r m' :
  chunks.*1.*1 = seq (length pre) (length chunks) -> (length chunks <= r)%nat ->
  runActions (concat (chunkTask <$> chunks)) (pre ++ replicate r []) = Some m' ->
  exists xss, Forall2 (fun i xs => g i = inr xs) (concat (chunkElements <$> chunks)) xss /\ concat m' = concat pre ++ concat xss.
Proof.
  revert pre r; induction chunks as [|[[tid s] e] chunks IH]; intros pre r Htid Hr H.
  - injection H as <-. exists []. split; [constructor|]. rewrite concat_app. f_equal. clear. induction r as [|r IH]; [done|exact IH].
  - cbn in Htid, Hr. injection Htid as -> Htid. destruct r as [|r]; [lia|].
    change (runActions (mapTask (length pre) s e ++ concat (chunkTask <$> chunks)) (pre ++ [] :: replicate r []) = Some m') in H.
    destruct (runActions_app_inv _ _ _ _ H) as (m1 & H1 & H2).
    destruct (run_mapTask pre (replicate r []) s e m1 H1) as (xss & Hxss & ->).
    rewrite cons_middle, app_assoc in H2. destruct (IH (pre ++ [concat xss]) r) as (yss & Hyss & Hm); [|lia|done|].
    + by rewrite length_app, Nat.add_1_r.
    + exists (xss ++ yss). split; [by apply Forall2_app|]. rewrite Hm, !concat_app. cbn. by rewrite app_nil_r, app_assoc.
Qed.

(** ** Errors *)

Lemma run_length l m m' : (forall a, a ∈ l -> exists tid f, a = onSubList tid f) -> runActions l m = Some m' -> length m' = length m.
Proof.
  revert m; induction l as [|a l IH]; intros m Hl H; cbn in H; [by injection H as ->|].
  destruct (Hl a) as (tid & f & ->); [set_solver|]. destruct (onSubList tid f m) as [|m1] eqn:Hm; [done|].
  rewrite <- (onSubList_length tid f m m1 Hm). apply IH; [set_solver|done].
Qed.

(** Actions on other lists leave a list alone. *)
Lemma run_ne k l m m' :
  (forall a, a ∈ l -> exists tid f, tid <> k /\ a = onSubList tid f) -> runActions l m = Some m' -> m' !! k = m !! k.
Proof.
  revert m; induction l as [|a l IH]; intros m Hl H; cbn in H; [by injection H as ->|].
  destruct (Hl a) as (tid & f & Hne & ->); [set_solver|]. destruct (onSubList tid f m) as [|m1] eqn:Hm; [done|].
  rewrite <- (onSubList_ne tid f m m1 k Hm) by done. apply IH; [set_solver|done].
Qed.

Lemma chunk_lookup (chunks : list chunk) k t :
  chunks.*1.*1 = seq 0 (length chunks) -> (chunkTask <$> chunks) !! k = Some t ->
  exists s e, chunks !! k = Some (k, s, e) /\ t = mapTask k s e.
Proof.
  intros Htid ([[tid s] e] & -> & Hk)%list_lookup_fmap_Some. exists s, e.
  assert (Heq : chunks.*1.*1 !! k = Some tid) by (by rewrite !list_lookup_fmap, Hk).
  rewrite Htid in Heq. apply lookup_seq in Heq as [-> _]. done.
Qed.

Lemma chunks_fail (chunks : list chunk) threadCount e :
  chunks.*1.*1 = seq 0 (length chunks) -> Z.of_nat (length chunks) <= threadCount ->
  fails (chunkTask <$> chunks) (initialSubLists threadCount) e ->
  exists i, i ∈ concat (chunkElements <$> chunks) /\ g i = inl e.
Proof.
  intros Htid Hlen (ds & m & k & d & t & a & [Hrun Hds] & Hd & Ht & Ha & He).
  destruct (chunk_lookup chunks k t Htid Ht) as (s & en & Hc & ->).
  assert (Hk : (k < Z.to_nat threadCount)%nat) by (apply lookup_lt_Some in Hc; lia).
  assert (Hown : forall j dj, ds !! j = Some dj -> forall b, b ∈ dj -> exists f, b = onSubList j f).
  { intros j dj Hj b Hb. destruct (Hds j dj Hj) as (tj & Htj & [rest ->]). destruct (chunk_lookup chunks j _ Htid Htj) as (sj & ej & _ & Heq).
    apply (elem_of_mapTask j sj ej). rewrite <- Heq. set_solver. }
  assert (Hm : length m = Z.to_nat threadCount).
  { erewrite run_length; [| |exact Hrun]; [unfold initialSubLists; by rewrite length_replicate|].
    intros b (dj & [j Hj]%list_elem_of_lookup & Hb)%elem_of_concat. exists j. by apply (Hown j dj). }
  destruct (lookup_lt_is_Some_2 m k) as [l Hl]; [lia|]. destruct (length d) as [|j] eqn:Hlend.
  - exfalso. apply nil_length_inv in Hlend as ->. injection Ha as <-. unfold onSubList in He.
    assert (Hm0 : m !! k = Some []).
    { rewrite (run_ne k (concat ds) (initialSubLists threadCount) m); [by apply lookup_replicate|..|done].
      intros b (dj & [j Hj]%list_elem_of_lookup & Hb)%elem_of_concat. destruct (Hown j dj Hj b Hb) as [f ->]. exists j, f. split; [|done].
      intros ->. rewrite Hd in Hj. injection Hj as <-. set_solver. }
    by rewrite Hm0 in He.
  - unfold mapTask in Ha. cbn in Ha. apply list_lookup_fmap_Some in Ha as (i & -> & Hi). unfold onSubList in He. rewrite Hl, Happ in He.
    destruct (g i) as [e'|] eqn:Hg; [|done]. injection He as ->. exists i. split; [|done]. apply elem_of_concat.
    exists (chunkElements (k, s, en)). split; [apply list_elem_of_fmap; exists (k, s, en); split; [done|by eapply list_elem_of_lookup_2]|].
    by eapply list_elem_of_lookup_2.
Qed.

Lemma chunks_independent (chunks : list chunk) : chunks.*1.*1 = seq 0 (length chunks) -> independent (chunkTask <$> chunks).
Proof.
  intros Htid i j ti tj a b Hij Hi Hj Ha Hb. destruct (chunk_lookup chunks i ti Htid Hi) as (s & e & _ & ->).
  destruct (chunk_lookup chunks j tj Htid Hj) as (s' & e' & _ & ->).
  apply elem_of_mapTask in Ha as [f ->]. apply elem_of_mapTask in Hb as [f' ->]. by apply onSubList_commute.
Qed.

End Map.
(** C20: [MapToList] on any idle pool, fresh or used before, whose threads and
    elements together do not wrap around in [size_t]: it passes its assertions,
    and under every interleaving, when its [WaitForIdle] returns, the combined
    list is the old list followed by what the calls for the elements append, in
    the order of the elements; when it throws, it throws what the call for an
    element has thrown.  Either way the pool is idle again, ready for the next
    calls.  With more elements the number of elements per thread wraps around to
    0 and the first assertion of the loop fails. *)
Theorem MapToList_correct {T} (assertMessage : string) (callback : list T -> Z -> string + list T) g (s0 : sys (list (list T))) count resultList :
  appends callback g -> 0 <= count < 2 ^ 64 -> 0 < Z.of_nat (length (_threads s0)) < 2 ^ 64 ->
  let threadCount := Z.of_nat (length (_threads s0)) in
  (2 ^ 64 <= count + threadCount - 1 -> MapToListCalls assertMessage callback threadCount count = Err AssertionFailed) /\
  (count + threadCount - 1 < 2 ^ 64 ->
    exists cs, MapToListCalls assertMessage callback threadCount count = Ok cs /\
    (idle s0 -> calls s0 = cs -> store s0 = initialSubLists threadCount ->
     forall s r p, runs assertMessage s0 s ->
      own s = OIdle false -> calls s = [] -> thrown s = None -> WaitForIdle assertMessage (pool s) = Some (r, p) ->
      match r with
      | None => exists xss, Forall2 (fun i xs => g i = inr xs) (seqZ 0 count) xss /\ combineSubLists resultList (store s) = resultList ++ concat xss
      | Some e => exists i, 0 <= i < count /\ g i = inl e
      end /\
      forall cs' m', _tasksEnqueued p + Z.of_nat (length cs') < 2 ^ 64 -> idle (mkSys p (_threads s) OBody cs' None m'))).
Proof.
  intros Happ Hcount Hn threadCount. split; [by apply MapToListCalls_wraps|]. intros Hsum.
  destruct (MapToListCalls_eq assertMessage callback threadCount count) as (chunks & -> & Htid & Hlen & Hel); [lia..|].
  eexists; split; [reflexivity|]. intros H0 Hcs0 Hst s r p Hr Ho Hcs Hth Hw.
  split; [|intros cs' m'; apply (WaitForIdle_idle assertMessage s r); [by apply (runs_inv assertMessage s0), Hr; apply idle_inv|done..]].
  assert (Htasks : tasksOf (calls s0) = chunkTask assertMessage callback <$> chunks).
  { rewrite Hcs0, tasksOf_async. apply app_nil_r. }
  pose proof (WaitForIdle_tasks assertMessage _ _ (chunks_independent assertMessage callback chunks Htid) s0 s false r p H0 Htasks Hst Hr Ho Hth Hw) as H.
  destruct r as [e|].
  - destruct (chunks_fail assertMessage callback g Happ chunks threadCount e Htid Hlen H) as (i & Hi & Hg).
    exists i. split; [|done]. rewrite Hel in Hi. apply elem_of_seqZ in Hi. lia.
  - destruct H as (called & Heq & Hrun). rewrite Hcs, app_nil_r in Heq. subst called.
    destruct (run_chunks assertMessage callback g Happ chunks [] (Z.to_nat threadCount) (store s) Htid ltac:(lia) Hrun) as (xss & Hxss & Hm).
    exists xss. split; [by rewrite <- Hel|]. unfold combineSubLists. by rewrite Hm.
Qed.

(** ** Two elements on two threads, the second one first, on a pool used before *)

Definition demoCallback (l : list Z) (i : Z) : string + list Z := inr (l ++ [i + 3]).
Definition demoMapCalls : list (call (list (list Z))) :=
  match MapToListCalls "assert" demoCallback 2 2 with Ok cs => cs | Err _ => [] end.
Definition idleState : sys (list (list Z)) :=
  mkSys (mkThreadPool false [] 5 5 None) [WLoop; WWait] OBody demoMapCalls None (initialSubLists 2).
Definition mapState : sys (list (list Z)) :=
  mkSys (mkThreadPool false [] 7 7 None) [WLoop; WLoop] (OIdle false) [] None [[3]; [4]].

Lemma idleState_idle : idle idleState.
Proof. constructor; cbn; try done. split; [lia|]. constructor; [by left|]. constructor; [by right; left|done]. Qed.

Lemma mapState_runs : runs "assert" idleState mapState.
Proof.
  unfold runs. pstep @step_async. pstep (@step_async_wake _ "assert" _ 1%nat).
  pstep @step_async. eapply rtc_l; [left; apply step_async_lost; [done|cbn; set_solver]|cbn].
  pstep (@step_take _ "assert" _ 0%nat). pstep (@step_take _ "assert" _ 1%nat).
  do 2 pstep (@step_action _ "assert" _ 1%nat). do 2 pstep (@step_action _ "assert" _ 0%nat).
  pstep (@step_end _ "assert" _ 1%nat). pstep (@step_complete _ "assert" _ 1%nat).
  pstep (@step_end _ "assert" _ 0%nat). pstep (@step_complete _ "assert" _ 0%nat).
  pstep (@step_notify _ "assert" _ 0%nat). pstep (@step_notify _ "assert" _ 1%nat).
  pstep @step_wait. apply rtc_refl.
Qed.

Lemma MapToList_correct_witness :
  MapToListCalls "assert" demoCallback 2 (2 ^ 64 - 1) = Err AssertionFailed /\
  exists xss, Forall2 (fun i xs => inr [i + 3] = inr (A := string) xs) (seqZ 0 2) xss /\
    combineSubLists [7] (store mapState) = 7 :: concat xss.
Proof.
  assert (Happ : appends demoCallback (fun i => inr [i + 3])) by done. split.
  - apply (MapToList_correct "assert" demoCallback _ idleState (2 ^ 64 - 1) [7] Happ); cbn; lia.
  - destruct (MapToList_correct "assert" demoCallback _ idleState 2 [7] Happ) as [_ H]; [lia|cbn; lia|].
    destruct (H ltac:(cbn; lia)) as (cs & Hcs & Hrun).
    apply (Hrun idleState_idle ltac:(by injection Hcs) eq_refl mapState None (mkThreadPool false [] 7 7 None) mapState_runs); reflexivity.
Defined.

End MapToList.
