(* ===== verification/Propagations.v ===== *)
(** * Placing local variables in FIFOs

    [local_data_propagation.cpp]: [PropagationRangeDepth], [OptimizePropagations]
    with its lambdas, and [FindLatestPropagation].

    A propagation carries the values of some registers from one pipeline stage
    to a later one, through registers or through a FIFO that it can share with
    others.  The choice is left to [IntegerBranchAndBoundSparse], which gets the
    cost of a partial choice from a callback.  The callback can fail an
    assertion; for the search it is then a pair of zeros, which the vectors that
    the search passes never meet. *)

From S2P Require Import Prelude MachineInt CompressedVector BranchAndBound BranchAndBoundSparse.
Import MachineInt Containers CompressedVector BranchAndBound BranchAndBoundSparse.

Module Propagations.

(** The members of [CodeGenDeviceConfig] and [CodeGenConfig] that are used *)
Record Config : Type := mkConfig {
  _fifoWidthAlignment : Z; _fifoDepthAlignment : Z; _fifoFixedCost : Z; _fifoBitsPerRegister : Z; _fifoMergeDistance : Z }.

(** First and last pipeline stage *)
Notation PropagationRange := (Z * Z)%type (only parsing).
Notation RangeAndRegisters := (Z * Z * gset nat)%type (only parsing).
Notation AnchorAndDepth := (Z * Z)%type (only parsing).

(** Stage to registers, and FIFO to stages *)
Notation DropPoints := (gmap Z (gset nat)) (only parsing).
Notation FifoPropagations := (gmap (Z * Z) (gmap Z (gset nat))) (only parsing).

Definition PropagationRangeDepth (range : PropagationRange) : result Z :=
  assert_ (range.1 <=? range.2);; Ok (range.2 - range.1).

Record PropagationDesc : Type := mkPropagationDesc { _inFifo : bool; _anchorAndDepth : AnchorAndDepth }.

Section Optimize.
(** [flatInputPropagations]: the entries of the map, in its order *)
Context (config : Config) (regToWidth : nat -> Z) (flatInputPropagations : list RangeAndRegisters).

Definition getRegisterCost (depth width : Z) : Z := u64_mul (u64_mul depth width) (_fifoBitsPerRegister config).

Definition getTrailingRegisterCost (registerRange : PropagationRange) (fifoDepth width : Z) : result Z :=
  registerRangeDepth ← PropagationRangeDepth registerRange;
  assert_ (fifoDepth <=? registerRangeDepth);;
  Ok (getRegisterCost (registerRangeDepth - fifoDepth) width).

Definition getFifoCost (depth width : Z) : Z :=
  u64_add (u64_mul (AlignNonPow2 width (_fifoWidthAlignment config)) (AlignNonPow2 depth (_fifoDepthAlignment config))) (_fifoFixedCost config).

Definition getUnalignedFifoCost (depth width : Z) : Z := u64_mul width depth.

Definition getRangeWidth (rar : RangeAndRegisters) : Z :=
  fold_left (fun result registerIndex => u64_add result (regToWidth registerIndex)) (set_elements rar.2) 0.

(** The ways to implement one propagation *)
Definition fifoChoices (inputRange : PropagationRange) (width inputDepth costUpperBound : Z) : result (list PropagationDesc) :=
  let firstAnchorStage := if _fifoMergeDistance config <=? inputRange.1 then inputRange.1 - _fifoMergeDistance config else 0 in
  let lastAnchorStage := u64_add inputRange.1 (_fifoMergeDistance config) in
  foldM (fun pdv anchorStage =>
    foldM (fun pdv depth =>
      leadingTrailingCost ← getTrailingRegisterCost inputRange depth width;
      Ok (if leadingTrailingCost <? costUpperBound then pdv ++ [mkPropagationDesc true (anchorStage, depth)] else pdv))
      (seqZ 3 (inputDepth - 2)) pdv)
    (seqZ firstAnchorStage (lastAnchorStage - firstAnchorStage + 1)) [].

Definition propagationDesc (rar : RangeAndRegisters) : result (list PropagationDesc) :=
  let width := getRangeWidth rar in
  inputDepth ← PropagationRangeDepth rar.1;
  let costUpperBound := Z.min (getRegisterCost inputDepth width) (getFifoCost inputDepth width) in
  choices ← fifoChoices rar.1 width inputDepth costUpperBound;
  Ok (mkPropagationDesc false (0, 0) :: choices).

(** The bounds used for a parameter without a value *)
Definition precomputedBound (rar : RangeAndRegisters) : result ObjectiveFunctionBounds :=
  let width := getRangeWidth rar in
  inputDepth ← PropagationRangeDepth rar.1;
  let registerCost := getRegisterCost inputDepth width in
  let fifoCost := getFifoCost inputDepth width in
  let freeLoadWidth := u64_sub (_fifoWidthAlignment config) 1 in
  let lowerBound :=
    if width <=? freeLoadWidth then 0
    else Z.min registerCost (getUnalignedFifoCost inputDepth (u64_sub width freeLoadWidth)) in
  let upperBound := Z.min registerCost fifoCost in
  assert_ (lowerBound <=? upperBound);;
  Ok (mkBounds lowerBound upperBound).

(** [fifoWidths[key] += width] *)
Definition addWidth (fifoWidths : gmap (Z * Z) Z) (key : AnchorAndDepth) (width : Z) : gmap (Z * Z) Z :=
  <[key := u64_add (default 0 (fifoWidths !! key)) width]> fifoWidths.

Context (propagationDescs : list (list PropagationDesc)) (precomputedBounds : list ObjectiveFunctionBounds).

(** The choice that the vector makes for propagation [i] *)
Definition selectedDesc (paramVec : IntegerParameterVector) (i : nat) : result PropagationDesc :=
  pdv ← at_ propagationDescs i;
  paramValue ← GetParameter paramVec i;
  assert_ (paramValue <? Z.of_nat (length pdv));;
  at_ pdv (Z.to_nat paramValue).

(** The loop of [boundCallback]: the two bounds and [fifoWidths] *)
Definition boundStep (paramVec : IntegerParameterVector) (st : Z * Z * gmap (Z * Z) Z) (i : nat) : result (Z * Z * gmap (Z * Z) Z) :=
  let '(lowerBound, upperBound, fifoWidths) := st in
  rar ← at_ flatInputPropagations i;
  let inputRangeWidth := getRangeWidth rar in
  inputDepth ← PropagationRangeDepth rar.1;
  defined ← IsParameterDefined paramVec i;
  if defined : bool then
    pd ← selectedDesc paramVec i;
    '(registerCost, fifoWidths) ← (if _inFifo pd then
        trailing ← getTrailingRegisterCost rar.1 (_anchorAndDepth pd).2 inputRangeWidth;
        Ok (trailing, addWidth fifoWidths (_anchorAndDepth pd) inputRangeWidth)
      else Ok (getRegisterCost inputDepth inputRangeWidth, fifoWidths) : result (Z * gmap (Z * Z) Z));
    Ok (u64_add lowerBound registerCost, u64_add upperBound registerCost, fifoWidths)
  else
    precomputed ← at_ precomputedBounds i;
    Ok (u64_add lowerBound (_lowerBound precomputed), u64_add upperBound (_upperBound precomputed), fifoWidths).

(** The sum over [fifoWidths] does not depend on the order of its entries. *)
Definition boundCallback (paramVec : IntegerParameterVector) : result ObjectiveFunctionBounds :=
  assert_ (GetParameterCount paramVec =? length flatInputPropagations)%nat;;
  '(lowerBound, upperBound, fifoWidths) ← foldM (boundStep paramVec) (seq 0 (length flatInputPropagations)) (0, 0, ∅);
  let fifoCosts := map_fold (fun (key : Z * Z) width sum => u64_add sum (getFifoCost key.2 width)) 0 fifoWidths in
  Ok (mkBounds (u64_add lowerBound fifoCosts) (u64_add upperBound fifoCosts)).

Definition totalCallback (paramVec : IntegerParameterVector) : ObjectiveFunctionBounds :=
  match boundCallback paramVec with Ok bounds => bounds | Err _ => mkBounds 0 0 end.

(** [finalResult], which the call with [isOptimalPoint] fills *)
Definition collectStep (paramVec : IntegerParameterVector) (finalResult : FifoPropagations) (i : nat) : result FifoPropagations :=
  rar ← at_ flatInputPropagations i;
  defined ← IsParameterDefined paramVec i;
  assert_ defined;;
  pd ← selectedDesc paramVec i;
  Ok (if _inFifo pd then
        let dropPoints := default ∅ (finalResult !! _anchorAndDepth pd) in
        let registers := default ∅ (dropPoints !! rar.1.1) in
        <[_anchorAndDepth pd := <[rar.1.1 := registers ∪ rar.2]> dropPoints]> finalResult
      else finalResult).

Definition collectFifos (paramVec : IntegerParameterVector) : result FifoPropagations :=
  foldM (collectStep paramVec) (seq 0 (length flatInputPropagations)) ∅.

(** The propagations that can use a FIFO *)
Definition fifoMap : gmap (Z * Z) (gset nat) :=
  fold_left (fun fifoMap (p : nat * list PropagationDesc) =>
    fold_left (fun (fifoMap : gmap (Z * Z) (gset nat)) pd =>
      if _inFifo pd then <[_anchorAndDepth pd := {[p.1]} ∪ default ∅ (fifoMap !! _anchorAndDepth pd)]> fifoMap else fifoMap) p.2 fifoMap)
    (zip (seq 0 (length propagationDescs)) propagationDescs) ∅.

(** [interactions[i]]: the propagations that share a FIFO with propagation [i] *)
Definition interactionsOf (i : nat) (pdv : list PropagationDesc) : gset nat :=
  fold_left (fun (others : gset nat) pd =>
    if _inFifo pd then others ∪ (default ∅ (fifoMap !! _anchorAndDepth pd) ∖ {[i]}) else others) pdv ∅.

Definition interactions : list (nat * list nat) :=
  (fun p => (p.1, set_elements (interactionsOf p.1 p.2))) <$> zip (seq 0 (length propagationDescs)) propagationDescs.

End Optimize.

Definition OptimizePropagations (config : Config) (regToWidth : nat -> Z)
    (connected_components : UndirectedGraph -> nat * list nat) (articulation_points : UndirectedGraph -> list nat)
    (degree : nat -> UndirectedGraph -> nat) (loopFuel fuel maxWorkListSize : nat)
    (flatInputPropagations : list RangeAndRegisters) : result FifoPropagations :=
  propagationDescs ← mapM_ (propagationDesc config regToWidth) flatInputPropagations;
  let parameterRanges := (fun pdv : list PropagationDesc => Z.of_nat (length pdv)) <$> propagationDescs in
  precomputedBounds ← mapM_ (precomputedBound config regToWidth) flatInputPropagations;
  p ← IntegerBranchAndBoundSparse connected_components articulation_points degree parameterRanges
        (totalCallback config regToWidth flatInputPropagations propagationDescs precomputedBounds)
        loopFuel fuel (interactions propagationDescs) maxWorkListSize;
  collectFifos flatInputPropagations propagationDescs p.

(** ** The destination of a propagated register *)

(** [(_stageSequence, _registerIndex)] of [DestinationRegister], in the order
    of the set *)
Definition FindLatestPropagation (propagatedRegisters : list (Z * nat)) (stageSequence : Z) : option nat :=
  fold_left (fun result (it : Z * nat) => if it.1 <=? stageSequence then Some it.2 else result) propagatedRegisters None.

End Propagations.
