(* ===== verification/PropagationCosts.v ===== *)
(** * The cost of a plan of propagations

    The reference for [OptimizePropagations]: what the pipeline registers and
    the FIFOs of a plan cost, over unbounded integers, and how the cost changes
    when one more propagation gets its implementation. *)

From S2P Require Import Prelude MachineInt CompressedVector BranchAndBound BranchAndBoundSpec BranchAndBoundSparse.
From S2P Require Import Propagations CompressedVectorCorrect BranchAndBoundOptimal.
Import MachineInt Containers CompressedVector BranchAndBound BranchAndBoundSpec BranchAndBoundSparse Propagations.

Module PropagationCosts.

Lemma u64_add_l a b : u64 (u64 a + b) = u64 (a + b).
Proof. unfold u64. apply Z.add_mod_idemp_l. lia. Qed.

(** ** Sums *)

Section Sums.
Context {A : Type}.
Implicit Types (f g : A -> Z) (l : list A).

Fixpoint sumZ f l : Z := match l with [] => 0 | a :: l => f a + sumZ f l end.

Lemma sumZ_cons f a l : sumZ f (a :: l) = f a + sumZ f l.
Proof. done. Qed.

Lemma sumZ_ext f g l : (forall a, a ∈ l -> f a = g a) -> sumZ f l = sumZ g l.
Proof. induction l as [|a l IH]; intros H; [done|]. cbn. rewrite IH by set_solver. by rewrite H by set_solver. Qed.

Lemma sumZ_le f g l : (forall a, a ∈ l -> f a <= g a) -> sumZ f l <= sumZ g l.
Proof. induction l as [|a l IH]; intros H; [done|]. cbn. pose proof (H a ltac:(set_solver)). specialize (IH ltac:(set_solver)). lia. Qed.

Lemma sumZ_nonneg f l : (forall a, a ∈ l -> 0 <= f a) -> 0 <= sumZ f l.
Proof. intros H. transitivity (sumZ (fun _ => 0) l); [|by apply sumZ_le]. clear H. induction l; cbn in *; lia. Qed.

Lemma sumZ_elem f l a : (forall b, b ∈ l -> 0 <= f b) -> a ∈ l -> f a <= sumZ f l.
Proof.
  induction l as [|b l IH]; intros H Ha; [set_solver|]. cbn.
  pose proof (H b ltac:(set_solver)). pose proof (sumZ_nonneg f l ltac:(set_solver)).
  apply elem_of_cons in Ha as [->|Ha]; [lia|]. specialize (IH ltac:(set_solver) Ha). lia.
Qed.

Lemma sumZ_perm f l l' : l ≡ₚ l' -> sumZ f l = sumZ f l'.
Proof. induction 1; cbn; lia. Qed.

Lemma sumZ_app f l l' : sumZ f (l ++ l') = sumZ f l + sumZ f l'.
Proof. induction l as [|a l IH]; cbn; lia. Qed.

(** Two sums that differ in one term *)
Lemma sumZ_change `{EqDecision A} f g l a : NoDup l -> a ∈ l -> (forall b, b ∈ l -> b <> a -> f b = g b) -> sumZ f l - f a = sumZ g l - g a.
Proof.
  induction 1 as [|b l Hb Hnd IH]; intros Ha H; [set_solver|]. cbn. destruct (decide (b = a)) as [->|Hne].
  - rewrite (sumZ_ext f g l); [lia|]. intros b Hb'. apply H; [set_solver|]. by intros ->.
  - rewrite H by set_solver. pose proof (IH ltac:(set_solver) ltac:(set_solver)). lia.
Qed.

(** A fold of 64-bit additions *)
Lemma foldr_u64_add f b l : foldr (fun a s => u64_add s (f a)) (u64 b) l = u64 (b + sumZ f l).
Proof.
  induction l as [|a l IH]; [cbn [foldr sumZ]; by rewrite Z.add_0_r|]. cbn [foldr sumZ]. rewrite IH. unfold u64_add. rewrite u64_add_l. f_equal. lia.
Qed.

Lemma fold_left_u64_add f b l : fold_left (fun s a => u64_add s (f a)) l (u64 b) = u64 (b + sumZ f l).
Proof.
  revert b; induction l as [|a l IH]; intros b; cbn [fold_left sumZ]; [by rewrite Z.add_0_r|].
  unfold u64_add at 2. rewrite u64_add_l, IH. f_equal. lia.
Qed.

End Sums.

Lemma sumZ_positions {A} (f : A -> Z) l : sumZ (fun i => from_option f 0 (l !! i)) (seq 0 (length l)) = sumZ f l.
Proof.
  induction l as [|a l IH] using rev_ind; [done|]. rewrite length_app, Nat.add_1_r, seq_S, !sumZ_app. cbn [sumZ Nat.add]. f_equal.
  - rewrite <- IH. apply sumZ_ext. intros i Hi%elem_of_seq. by rewrite lookup_app_l by lia.
  - by rewrite lookup_app_r, Nat.sub_diag by lia.
Qed.

(** ** Rounding up *)

Definition alignUp (a w : Z) : Z := (w + a - 1) / a * a.

Lemma alignUp_bounds a w : 0 < a -> w <= alignUp a w <= w + a - 1.
Proof. intros. unfold alignUp. pose proof (Z.div_mod (w + a - 1) a ltac:(lia)). pose proof (Z.mod_pos_bound (w + a - 1) a ltac:(lia)). nia. Qed.

Lemma alignUp_mono a w w' : 0 < a -> w <= w' -> alignUp a w <= alignUp a w'.
Proof. intros. unfold alignUp. apply Z.mul_le_mono_nonneg_r; [lia|]. apply Z.div_le_mono; lia. Qed.

Lemma alignUp_add a w w' : 0 < a -> alignUp a (w + w') <= alignUp a w + alignUp a w'.
Proof.
  intros Ha. pose proof (alignUp_bounds a w Ha). pose proof (alignUp_bounds a w' Ha). pose proof (alignUp_bounds a (w + w') Ha).
  unfold alignUp in *. set (p := (w + a - 1) / a) in *. set (q := (w' + a - 1) / a) in *. set (r := (w + w' + a - 1) / a) in *.
  assert (r < p + q + 1) by (apply (Z.mul_lt_mono_pos_r a); lia). nia.
Qed.

Lemma alignUp_0 a : 0 < a -> alignUp a 0 = 0.
Proof. intros. unfold alignUp. rewrite Z.div_small; lia. Qed.

Lemma AlignNonPow2_eq w a : 0 < a -> 0 <= w -> w + a <= size_max -> AlignNonPow2 w a = alignUp a w.
Proof.
  unfold size_max. intros Ha Hw Hs. unfold AlignNonPow2, u64_add, u64_sub, u64_mul. pose proof (alignUp_bounds a w Ha).
  rewrite (u64_small (w + a)) by (unfold is_u64; lia). rewrite (u64_small (w + a - 1)) by (unfold is_u64; lia).
  apply u64_small. unfold is_u64. unfold alignUp in *. lia.
Qed.

(** ** The cost of a plan *)

Section Costs.
Context (config : Config).
Notation B := (_fifoBitsPerRegister config).
Notation WA := (_fifoWidthAlignment config).
Notation DA := (_fifoDepthAlignment config).

(** [width] and [depth] of the propagations *)
Context (n : nat) (width depth : nat -> Z).

(** A partial plan: the implementation of each propagation that has one *)
Notation plan := (list (option PropagationDesc)).

Definition registerCost (d w : Z) : Z := d * w * B.
Definition fifoCost (d w : Z) : Z := alignUp WA w * alignUp DA d + _fifoFixedCost config.

(** The pipeline registers of propagation [i] *)
Definition descCost (i : nat) (pd : PropagationDesc) : Z :=
  registerCost (if _inFifo pd then depth i - (_anchorAndDepth pd).2 else depth i) (width i).

Definition fifoKey (o : option PropagationDesc) : option AnchorAndDepth :=
  match o with Some pd => if _inFifo pd then Some (_anchorAndDepth pd) else None | None => None end.

Definition usedKeys (m : plan) : list AnchorAndDepth := remove_dups (omap fifoKey m).

(** The total width in the FIFO [k] *)
Definition keyWidth (m : plan) (k : AnchorAndDepth) : Z :=
  sumZ (fun i => if bool_decide (fifoKey (mjoin (m !! i)) = Some k) then width i else 0) (seq 0 n).

Definition fifoCosts (m : plan) : Z := sumZ (fun k => fifoCost k.2 (keyWidth m k)) (usedKeys m).

(** [h i] stands for a propagation without an implementation. *)
Definition cost (h : nat -> Z) (m : plan) : Z :=
  sumZ (fun i => match mjoin (m !! i) with Some pd => descCost i pd | None => h i end) (seq 0 n) + fifoCosts m.

(** A configuration for which two stages are cheaper in registers than in a
    FIFO of their own *)
Record config_ok : Prop := mk_config_ok {
  ck_width : 0 < WA <= 2 ^ 32; ck_depth : 0 < DA <= 2 ^ 32; ck_fixed : 0 <= _fifoFixedCost config; ck_bits : 0 <= B;
  ck_merge : 0 <= _fifoMergeDistance config <= 2 ^ 16;
  ck_share : 2 * B <= DA }.

Context (Hck : config_ok) (Hw : forall i, 0 <= width i) (Hd : forall i, 0 <= depth i).

Lemma elem_of_usedKeys m k : k ∈ usedKeys m <-> exists i, fifoKey (mjoin (m !! i)) = Some k.
Proof.
  unfold usedKeys. rewrite elem_of_remove_dups, list_elem_of_omap. split.
  - intros (o & [i Hi]%list_elem_of_lookup & Hk). exists i. by rewrite Hi.
  - intros (i & Hk). destruct (m !! i) as [o|] eqn:Hi; [|done]. exists o. split; [by eapply list_elem_of_lookup_2|done].
Qed.

Lemma NoDup_usedKeys m : NoDup (usedKeys m).
Proof. apply NoDup_remove_dups. Qed.

Lemma keyWidth_nonneg m k : 0 <= keyWidth m k.
Proof. apply sumZ_nonneg. intros i _. case_bool_decide; [done|lia]. Qed.

Lemma keyWidth_unused m k : k ∉ usedKeys m -> keyWidth m k = 0.
Proof.
  intros Hk. unfold keyWidth. rewrite (sumZ_ext _ (fun _ => 0)); [induction (seq 0 n); cbn in *; lia|].
  intros i _. rewrite bool_decide_eq_false_2; [done|]. intros H. apply Hk, elem_of_usedKeys. by exists i.
Qed.

Lemma fifoCost_nonneg d w : 0 <= d -> 0 <= w -> 0 <= fifoCost d w.
Proof.
  intros. destruct Hck as [? ? ? _ _ _]. unfold fifoCost. pose proof (alignUp_bounds WA w). pose proof (alignUp_bounds DA d). nia.
Qed.

(** ** One more propagation *)

(** What propagation [i] adds to the FIFO [k] *)
Definition marginal (m : plan) (k : AnchorAndDepth) (w : Z) : Z :=
  if bool_decide (k ∈ usedKeys m) then fifoCost k.2 (keyWidth m k + w) - fifoCost k.2 (keyWidth m k) else fifoCost k.2 w.

Lemma lookup_join_insert (m : plan) i j o : (i < length m)%nat -> mjoin (<[i := o]> m !! j) = if decide (i = j) then o else mjoin (m !! j).
Proof. intros Hi. destruct (decide (i = j)) as [->|Hne]; [by rewrite list_lookup_insert_eq|by rewrite list_lookup_insert_ne]. Qed.

Section Insert.
Context (m : plan) (i : nat) (pd : PropagationDesc) (Hi : m !! i = Some None) (Hn : (i < n)%nat).
Notation m' := (<[i := Some pd]> m).

Lemma insert_lt : (i < length m)%nat.
Proof. by eapply lookup_lt_Some. Qed.

Lemma keyWidth_insert k : keyWidth m' k = keyWidth m k + (if bool_decide (fifoKey (Some pd) = Some k) then width i else 0).
Proof.
  unfold keyWidth. pose proof (sumZ_change (fun j => if bool_decide (fifoKey (mjoin (m' !! j)) = Some k) then width j else 0)
    (fun j => if bool_decide (fifoKey (mjoin (m !! j)) = Some k) then width j else 0) (seq 0 n) i) as H.
  cbn beta in H. rewrite lookup_join_insert, decide_True, Hi in H by (done || apply insert_lt). cbn [mjoin option_join fifoKey] in H.
  rewrite (bool_decide_eq_false_2 (None = Some k)) in H by done.
  assert (sumZ (fun j => if bool_decide (fifoKey (mjoin (m' !! j)) = Some k) then width j else 0) (seq 0 n) - (if bool_decide (fifoKey (Some pd) = Some k) then width i else 0) =
    sumZ (fun j => if bool_decide (fifoKey (mjoin (m !! j)) = Some k) then width j else 0) (seq 0 n) - 0); [|lia].
  apply H; [apply NoDup_seq|apply elem_of_seq; lia|]. intros j _ Hne. rewrite lookup_join_insert, decide_False by (congruence || apply insert_lt). done.
Qed.

Lemma usedKeys_insert k : k ∈ usedKeys m' <-> fifoKey (Some pd) = Some k \/ k ∈ usedKeys m.
Proof.
  rewrite !elem_of_usedKeys. split.
  - intros (j & Hj). rewrite lookup_join_insert in Hj by apply insert_lt. destruct (decide (i = j)); [by left|right; by exists j].
  - intros [Hk|(j & Hj)]; [exists i; by rewrite lookup_join_insert, decide_True by (done || apply insert_lt)|].
    exists j. rewrite lookup_join_insert, decide_False; [done| |apply insert_lt]. intros <-. by rewrite Hi in Hj.
Qed.

Lemma fifoCosts_insert : fifoCosts m' = fifoCosts m + match fifoKey (Some pd) with Some k => marginal m k (width i) | None => 0 end.
Proof.
  unfold fifoCosts. destruct (fifoKey (Some pd)) as [k|] eqn:Hk.
  - unfold marginal. assert (Hsame : forall k', k' <> k -> fifoCost k'.2 (keyWidth m' k') = fifoCost k'.2 (keyWidth m k')).
    { intros k' Hne. rewrite keyWidth_insert, Hk, bool_decide_eq_false_2 by congruence. by rewrite Z.add_0_r. }
    pose proof (keyWidth_insert k) as Hkw. rewrite Hk, bool_decide_eq_true_2 in Hkw by done. case_bool_decide as Hin.
    + rewrite (sumZ_perm _ (usedKeys m') (usedKeys m)).
      2: { apply NoDup_Permutation; [apply NoDup_usedKeys..|]. intros k'. rewrite usedKeys_insert, Hk. split; [intros [[= ->]|?]; done|by right]. }
      pose proof (sumZ_change (fun k => fifoCost k.2 (keyWidth m' k)) (fun k => fifoCost k.2 (keyWidth m k)) (usedKeys m) k (NoDup_usedKeys m) Hin) as H.
      cbn beta in H. rewrite Hkw in H. specialize (H (fun k' _ Hne => Hsame k' Hne)). cbn beta in *. lia.
    + rewrite (sumZ_perm _ (usedKeys m') (k :: usedKeys m)).
      2: { apply NoDup_Permutation; [apply NoDup_usedKeys|by constructor; [|apply NoDup_usedKeys]|].
           intros k'. rewrite usedKeys_insert, Hk, elem_of_cons. split; (intros [?|?]; [left; congruence|by right]). }
      rewrite sumZ_cons. rewrite Hkw, keyWidth_unused, Z.add_0_l by done.
      rewrite (sumZ_ext _ (fun k => fifoCost k.2 (keyWidth m k))); [lia|]. intros k' Hk'. apply Hsame. by intros ->.
  - rewrite Z.add_0_r, (sumZ_perm _ (usedKeys m') (usedKeys m)).
    2: { apply NoDup_Permutation; [apply NoDup_usedKeys..|]. intros k'. rewrite usedKeys_insert, Hk. split; [intros [?|?]; done|by right]. }
    apply sumZ_ext. intros k' _. by rewrite keyWidth_insert, Hk, bool_decide_eq_false_2, Z.add_0_r by done.
Qed.

Lemma cost_insert h :
  cost h m' = cost h m - h i + descCost i pd + match fifoKey (Some pd) with Some k => marginal m k (width i) | None => 0 end.
Proof.
  unfold cost. rewrite fifoCosts_insert.
  pose proof (sumZ_change (fun j => match mjoin (m' !! j) with Some pd => descCost j pd | None => h j end)
    (fun j => match mjoin (m !! j) with Some pd => descCost j pd | None => h j end) (seq 0 n) i (NoDup_seq 0 n)) as H.
  cbn beta in H. rewrite lookup_join_insert, decide_True, Hi in H by (done || apply insert_lt). cbn [mjoin option_join] in H.
  assert (Hin : i ∈ seq 0 n) by (apply elem_of_seq; lia). specialize (H Hin). rewrite <- (Z.sub_add (descCost i pd) (sumZ _ _)), H; [lia|].
  intros j _ Hne. by rewrite lookup_join_insert, decide_False by (congruence || apply insert_lt).
Qed.
End Insert.

(** Bits of a FIFO that another propagation does not leave free are paid for. *)
Lemma marginal_lower m k w : 0 <= k.2 -> 0 <= w -> 0 <= marginal m k w /\ (w - (WA - 1)) * k.2 <= marginal m k w.
Proof.
  intros Hk Hw0. destruct Hck as [? ? ? _ _ _]. pose proof (keyWidth_nonneg m k). unfold marginal, fifoCost. set (W := keyWidth m k) in *.
  pose proof (alignUp_bounds DA k.2 ltac:(lia)). case_bool_decide.
  - pose proof (alignUp_bounds WA W ltac:(lia)). pose proof (alignUp_bounds WA (W + w) ltac:(lia)). pose proof (alignUp_mono WA W (W + w) ltac:(lia) ltac:(lia)).
    set (X := alignUp WA W) in *. set (Y := alignUp WA (W + w)) in *. set (D := alignUp DA k.2) in *.
    assert (0 <= (Y - X) * D) by (apply Z.mul_nonneg_nonneg; lia). split; [lia|].
    destruct (Z.leb_spec 0 (w - (WA - 1))); [|nia]. assert ((w - (WA - 1)) * k.2 <= (Y - X) * D); [|lia]. apply Z.mul_le_mono_nonneg; lia.
  - pose proof (alignUp_bounds WA w ltac:(lia)). set (Y := alignUp WA w) in *. set (D := alignUp DA k.2) in *. assert (0 <= Y * D) by nia. split; [lia|].
    destruct (Z.leb_spec 0 (w - (WA - 1))); [|nia]. assert ((w - (WA - 1)) * k.2 <= Y * D); [|lia]. apply Z.mul_le_mono_nonneg; lia.
Qed.

(** Sharing a FIFO never costs more than having one. *)
Lemma marginal_upper m k w : 0 <= k.2 -> marginal m k w <= fifoCost k.2 w.
Proof.
  intros Hk. destruct Hck as [? ? ? _ _ _]. unfold marginal, fifoCost. case_bool_decide; [|lia].
  pose proof (alignUp_add WA (keyWidth m k) w ltac:(lia)). pose proof (alignUp_bounds DA k.2 ltac:(lia)). nia.
Qed.

Lemma fifoCost_mono d d' w : 0 <= w -> 0 <= d <= d' -> fifoCost d w <= fifoCost d' w.
Proof.
  intros Hw0 Hdd. destruct Hck as [? ? ? _ _ _]. unfold fifoCost. pose proof (alignUp_mono DA d d' ltac:(lia) ltac:(lia)).
  pose proof (alignUp_bounds WA w ltac:(lia)). nia.
Qed.

End Costs.
End PropagationCosts.

(** * The choices of a propagation

    The 64-bit arithmetic of [OptimizePropagations] is exact on the inputs that
    the compiler meets, [propagationDesc] lists the FIFOs that can pay off, and
    [precomputedBound] is a pair of bounds. *)

Import MachineInt Containers CompressedVector BranchAndBound BranchAndBoundSpec BranchAndBoundCorrect BranchAndBoundSparse.
Import Propagations PropagationCosts.

Module PropagationChoices.

Section Spec.
Context (config : Config) (regToWidth : nat -> Z).
Notation B := (_fifoBitsPerRegister config).
Notation WA := (_fifoWidthAlignment config).
Notation DA := (_fifoDepthAlignment config).
Notation MD := (_fifoMergeDistance config).

Definition rangeWidth (rar : RangeAndRegisters) : Z := sumZ regToWidth (set_elements rar.2).
Definition rangeDepth (rar : RangeAndRegisters) : Z := rar.1.2 - rar.1.1.

(** The propagation in registers, and in a FIFO of its own *)
Definition allRegisterCost (rar : RangeAndRegisters) : Z := registerCost config (rangeDepth rar) (rangeWidth rar).
Definition allFifoCost (rar : RangeAndRegisters) : Z := fifoCost config (rangeDepth rar) (rangeWidth rar).
Definition aloneCost (rar : RangeAndRegisters) : Z := Z.min (allRegisterCost rar) (allFifoCost rar).
Definition worstCost (rar : RangeAndRegisters) : Z := allRegisterCost rar + allFifoCost rar.

(** No FIFO has more unused bits per stage than its alignment, less one. *)
Definition freeLoadCost (rar : RangeAndRegisters) : Z :=
  if rangeWidth rar <=? WA - 1 then 0 else Z.min (allRegisterCost rar) ((rangeWidth rar - (WA - 1)) * rangeDepth rar).

(** The FIFOs that the source considers *)
Definition reachable (rar : RangeAndRegisters) (pd : PropagationDesc) : Prop :=
  _inFifo pd = true -> Z.max 0 (rar.1.1 - MD) <= (_anchorAndDepth pd).1 <= rar.1.1 + MD /\ 3 <= (_anchorAndDepth pd).2 <= rangeDepth rar.

(** Those whose trailing registers cost less than the propagation on its own *)
Definition worthwhile (rar : RangeAndRegisters) (pd : PropagationDesc) : Prop :=
  _inFifo pd = true -> registerCost config (rangeDepth rar - (_anchorAndDepth pd).2) (rangeWidth rar) < aloneCost rar.

Definition choiceBound (rar : RangeAndRegisters) : Z := 1 + (2 * MD + 1) * Z.max 0 (rangeDepth rar - 2).

(** What the bounds on 64-bit sums ask of one propagation *)
Record range_ok (rar : RangeAndRegisters) : Prop := mk_range_ok {
  ro_stages : 0 <= rar.1.1 < rar.1.2; ro_last : rar.1.2 <= 2 ^ 32; ro_cost : worstCost rar <= 2 ^ 63 }.

Context (Hck : config_ok config) (Hwidths : forall r, 0 <= regToWidth r).

Lemma rangeWidth_nonneg rar : 0 <= rangeWidth rar.
Proof. apply sumZ_nonneg. intros r _. apply Hwidths. Qed.

Lemma registerCost_nonneg d w : 0 <= d -> 0 <= w -> 0 <= registerCost config d w.
Proof. intros. unfold registerCost. pose proof (ck_bits _ Hck). apply Z.mul_nonneg_nonneg; [nia|lia]. Qed.

Lemma registerCost_mono d d' w : 0 <= w -> d <= d' -> registerCost config d w <= registerCost config d' w.
Proof. intros. unfold registerCost. pose proof (ck_bits _ Hck). apply Z.mul_le_mono_nonneg_r; [lia|]. nia. Qed.

(** A FIFO holds at least what is put in it. *)
Lemma fifoCost_area d w : 0 <= d -> 0 <= w -> w * d <= fifoCost config d w.
Proof.
  intros. destruct Hck as [? ? ? _ _ _]. unfold fifoCost. pose proof (alignUp_bounds WA w ltac:(lia)). pose proof (alignUp_bounds DA d ltac:(lia)).
  assert (w * d <= alignUp WA w * alignUp DA d); [|lia]. apply Z.mul_le_mono_nonneg; lia.
Qed.

Lemma getFifoCost_eq d w : 1 <= d <= 2 ^ 32 -> 0 <= w -> fifoCost config d w <= 2 ^ 63 -> getFifoCost config d w = fifoCost config d w.
Proof.
  intros Hd Hw Hs. pose proof (fifoCost_area d w ltac:(lia) Hw). pose proof (fifoCost_nonneg config Hck d w ltac:(lia) Hw).
  destruct Hck as [? ? ? _ _ _]. assert (w <= w * d) by nia. unfold getFifoCost.
  rewrite !AlignNonPow2_eq by (unfold size_max; lia). pose proof (alignUp_bounds WA w ltac:(lia)). pose proof (alignUp_bounds DA d ltac:(lia)).
  unfold fifoCost in *. assert (0 <= alignUp WA w * alignUp DA d) by nia. unfold u64_add, u64_mul. rewrite (u64_small (alignUp WA w * _)) by (unfold is_u64; lia). apply u64_small. unfold is_u64. lia.
Qed.

Section Range.
Context (rar : RangeAndRegisters) (Hro : range_ok rar).
Notation D := (rangeDepth rar).
Notation W := (rangeWidth rar).

Lemma rangeDepth_pos : 1 <= D <= 2 ^ 32.
Proof. destruct Hro. unfold rangeDepth. lia. Qed.

Lemma PropagationRangeDepth_eq : PropagationRangeDepth rar.1 = Ok D.
Proof. unfold PropagationRangeDepth. destruct Hro. by rewrite assert_true by (apply Z.leb_le; lia). Qed.

Lemma costs_nonneg : 0 <= allRegisterCost rar /\ 0 <= allFifoCost rar.
Proof.
  pose proof rangeDepth_pos. pose proof (rangeWidth_nonneg rar). split; [apply registerCost_nonneg; lia|apply fifoCost_nonneg; (done || lia)].
Qed.

Lemma rangeWidth_small : 0 <= W <= 2 ^ 63 /\ W * D <= allFifoCost rar.
Proof.
  pose proof rangeDepth_pos. pose proof (rangeWidth_nonneg rar). pose proof (fifoCost_area D W ltac:(lia) ltac:(lia)).
  pose proof costs_nonneg. destruct Hro as [_ _ Hc]. unfold worstCost, allFifoCost in *. split; [|done]. nia.
Qed.

Lemma getRangeWidth_eq : getRangeWidth regToWidth rar = W.
Proof.
  unfold getRangeWidth. change 0 with (u64 0). rewrite fold_left_u64_add. apply u64_small. pose proof rangeWidth_small. unfold is_u64, rangeWidth in *. lia.
Qed.

Lemma getRegisterCost_eq d : 0 <= d <= D -> getRegisterCost config d W = registerCost config d W.
Proof.
  intros Hd. pose proof rangeWidth_small. pose proof costs_nonneg. pose proof (registerCost_mono d D W ltac:(lia) ltac:(lia)).
  pose proof (registerCost_nonneg d W ltac:(lia) ltac:(lia)). destruct Hro as [_ _ Hc]. unfold worstCost, allRegisterCost in *.
  unfold getRegisterCost, u64_mul, registerCost in *. assert (d * W <= W * D) by nia. assert (0 <= d * W) by nia.
  rewrite (u64_small (d * W)) by (unfold is_u64; lia). apply u64_small. unfold is_u64. lia.
Qed.

Lemma getFifoCost_range d : 1 <= d <= D -> getFifoCost config d W = fifoCost config d W.
Proof.
  intros Hd. pose proof rangeDepth_pos. pose proof rangeWidth_small. pose proof costs_nonneg. pose proof (fifoCost_mono config Hck d D W).
  destruct Hro as [_ _ Hc]. unfold worstCost, allFifoCost in *. apply getFifoCost_eq; lia.
Qed.

Lemma getTrailingRegisterCost_eq d : 0 <= d <= D -> getTrailingRegisterCost config rar.1 d W = Ok (registerCost config (D - d) W).
Proof.
  intros Hd. unfold getTrailingRegisterCost. rewrite PropagationRangeDepth_eq. cbn [mbind result_bind].
  rewrite assert_true by (apply Z.leb_le; lia). cbn [mbind result_bind]. f_equal. apply getRegisterCost_eq. lia.
Qed.

(** ** The choices *)

Lemma propagationDesc_eq :
  exists pdv, propagationDesc config regToWidth rar = Ok (mkPropagationDesc false (0, 0) :: pdv) /\
    (forall pd, pd ∈ pdv <-> _inFifo pd = true /\ reachable rar pd /\ worthwhile rar pd) /\
    Z.of_nat (S (length pdv)) <= choiceBound rar.
Proof.
  pose proof rangeDepth_pos as HD. pose proof (ck_merge _ Hck) as HM. unfold propagationDesc, fifoChoices. rewrite getRangeWidth_eq, PropagationRangeDepth_eq. cbn [mbind result_bind].
  rewrite getRegisterCost_eq, getFifoCost_range by lia. fold (allRegisterCost rar) (allFifoCost rar) (aloneCost rar).
  set (first := if MD <=? rar.1.1 then rar.1.1 - MD else 0). unfold u64_add. rewrite (u64_small (rar.1.1 + MD)) by (destruct Hro; unfold is_u64; lia).
  set (gd := fun a d => if registerCost config (D - d) W <? aloneCost rar then [mkPropagationDesc true (a, d)] else []).
  set (ga := fun a => concat (gd a <$> seqZ 3 (D - 2))). rewrite (foldM_append _ ga).
  2: { intros acc a _. apply (foldM_append _ (gd a)). intros acc' d Hd%elem_of_seqZ. rewrite getTrailingRegisterCost_eq by lia. cbn [mbind result_bind].
       unfold gd. destruct (_ <? _); [done|by rewrite app_nil_r]. }
  cbn [mbind result_bind app]. eexists; split; [reflexivity|]. assert (Hf : first = Z.max 0 (rar.1.1 - MD)) by (unfold first; destruct (Z.leb_spec MD rar.1.1); lia).
  split.
  - intros pd. rewrite elem_of_concat. setoid_rewrite list_elem_of_fmap. unfold reachable, worthwhile. split.
    + intros (? & (a & -> & Ha%elem_of_seqZ) & Hpd). unfold ga in Hpd. apply elem_of_concat in Hpd as (? & (d & -> & Hd%elem_of_seqZ)%list_elem_of_fmap & Hpd).
      unfold gd in Hpd. destruct (Z.ltb_spec (registerCost config (D - d) W) (aloneCost rar)); [|set_solver]. apply list_elem_of_singleton in Hpd as ->. cbn. split; [done|]. split; intros _; [lia|done].
    + destruct pd as [b [a d]]. cbn. intros (-> & Hr & Hw'). specialize (Hr eq_refl). specialize (Hw' eq_refl). exists (ga a). split.
      * exists a. split; [done|]. apply elem_of_seqZ. lia.
      * unfold ga. apply elem_of_concat. exists (gd a d). split; [apply list_elem_of_fmap; exists d; split; [done|]; apply elem_of_seqZ; lia|].
        unfold gd. rewrite (proj2 (Z.ltb_lt _ _)) by done. set_solver.
  - assert (Hgd : forall a d, (length (gd a d) <= 1)%nat) by (intros a d; unfold gd; destruct (_ <? _); cbn; lia).
    assert (Hga : forall a, (length (ga a) <= Z.to_nat (D - 2))%nat).
    { intros a. unfold ga. pose proof (length_concat_le (gd a) (seqZ 3 (D - 2)) 1%nat ltac:(auto)) as H. rewrite length_seqZ in H. lia. }
    pose proof (length_concat_le ga (seqZ first (rar.1.1 + MD - first + 1)) (Z.to_nat (D - 2)) ltac:(auto)) as H. rewrite length_seqZ in H.
    unfold choiceBound. rewrite Nat2Z.inj_succ. set (len := length _) in *.
    assert (Z.of_nat len <= Z.max 0 (rar.1.1 + MD - first + 1) * Z.max 0 (D - 2)) by nia.
    assert (Z.max 0 (rar.1.1 + MD - first + 1) * Z.max 0 (D - 2) <= (2 * MD + 1) * Z.max 0 (D - 2)) by (apply Z.mul_le_mono_nonneg_r; lia). lia.
Qed.

Lemma freeLoadCost_le : 0 <= freeLoadCost rar <= aloneCost rar.
Proof.
  pose proof rangeWidth_small. pose proof rangeDepth_pos. pose proof costs_nonneg. pose proof (ck_width _ Hck). unfold freeLoadCost, aloneCost.
  destruct (Z.leb_spec W (WA - 1)); [lia|]. assert ((W - (WA - 1)) * D <= W * D) by nia. assert (0 <= (W - (WA - 1)) * D) by nia. lia.
Qed.

Lemma precomputedBound_eq : precomputedBound config regToWidth rar = Ok (mkBounds (freeLoadCost rar) (aloneCost rar)).
Proof.
  pose proof rangeDepth_pos. pose proof rangeWidth_small. pose proof costs_nonneg. pose proof freeLoadCost_le. destruct (ck_width _ Hck). unfold precomputedBound. rewrite getRangeWidth_eq, PropagationRangeDepth_eq. cbn [mbind result_bind].
  rewrite getRegisterCost_eq, getFifoCost_range by lia. fold (allRegisterCost rar) (allFifoCost rar) (aloneCost rar).
  unfold u64_sub. rewrite (u64_small (WA - 1)) by (unfold is_u64; lia).
  assert (Hlow : (if W <=? WA - 1 then 0 else Z.min (allRegisterCost rar) (getUnalignedFifoCost D (u64 (W - (WA - 1))))) = freeLoadCost rar).
  { unfold freeLoadCost. destruct (Z.leb_spec W (WA - 1)); [done|]. f_equal. unfold getUnalignedFifoCost, u64_mul.
    rewrite (u64_small (W - (WA - 1))) by (unfold is_u64; lia). apply u64_small. destruct Hro as [_ _ Hc]. unfold worstCost, is_u64 in *. nia. }
  rewrite Hlow, assert_true by (apply Z.leb_le; lia). done.
Qed.

End Range.
End Spec.
End PropagationChoices.

(** * Plans

    The bounds of [OptimizePropagations] as costs of partial plans: what one
    more choice does to them, and the plan that a partial plan can still reach. *)

Import MachineInt Containers CompressedVector BranchAndBound BranchAndBoundSpec BranchAndBoundCorrect BranchAndBoundSparse.
Import Propagations PropagationCosts PropagationChoices.

Module PropagationPlans.

Section Plans.
Context (config : Config) (regToWidth : nat -> Z) (flat : list RangeAndRegisters).
Notation plan := (list (option PropagationDesc)).

Definition widthOf (i : nat) : Z := from_option (rangeWidth regToWidth) 0 (flat !! i).
Definition depthOf (i : nat) : Z := from_option rangeDepth 0 (flat !! i).
Definition perRange (f : RangeAndRegisters -> Z) (i : nat) : Z := from_option f 0 (flat !! i).

(** The cost of a partial plan whose other propagations cost [h] *)
Definition planCost (h : RangeAndRegisters -> Z) (m : plan) : Z := cost config (length flat) widthOf depthOf (perRange h) m.

Definition plan_ok (m : plan) : Prop :=
  length m = length flat /\ forall i pd rar, m !! i = Some (Some pd) -> flat !! i = Some rar -> reachable config rar pd.

(** What the choice [pd] for a propagation adds to the plan [m] *)
Definition added (m : plan) (i : nat) (pd : PropagationDesc) : Z :=
  descCost config widthOf depthOf i pd +
  match fifoKey (Some pd) with Some k => marginal config (length flat) widthOf m k (widthOf i) | None => 0 end.

Context (Hck : config_ok config) (Hwidths : forall r, 0 <= regToWidth r) (Hflat : forall rar, rar ∈ flat -> range_ok config regToWidth rar).

Lemma planCost_insert h m i pd rar :
  m !! i = Some None -> flat !! i = Some rar -> planCost h (<[i := Some pd]> m) = planCost h m - h rar + added m i pd.
Proof.
  intros Hi Hr. unfold planCost, added. rewrite cost_insert by (try done; by eapply lookup_lt_Some).
  unfold perRange at 2. rewrite Hr. cbn [from_option]. lia.
Qed.

Lemma plan_ok_insert m i pd rar : plan_ok m -> flat !! i = Some rar -> reachable config rar pd -> plan_ok (<[i := Some pd]> m).
Proof.
  intros [Hl Hm] Hr Hpd. split; [by rewrite length_insert|]. intros j pd' rar' Hj Hr'.
  apply list_lookup_insert_Some in Hj as [(-> & Heq & _)|[_ Hj]]; [|by apply (Hm j)].
  injection Heq as ->. rewrite Hr in Hr'. by injection Hr' as <-.
Qed.

(** ** One choice *)

Section Choice.
Context (m : plan) (i : nat) (rar : RangeAndRegisters) (Hr : flat !! i = Some rar).

Lemma choice_range : range_ok config regToWidth rar.
Proof. apply Hflat. by eapply list_elem_of_lookup_2. Qed.

Lemma added_eq pd :
  added m i pd = if _inFifo pd then registerCost config (rangeDepth rar - (_anchorAndDepth pd).2) (rangeWidth regToWidth rar)
                                    + marginal config (length flat) widthOf m (_anchorAndDepth pd) (rangeWidth regToWidth rar)
                 else allRegisterCost config regToWidth rar.
Proof.
  unfold added, descCost, widthOf, depthOf. rewrite Hr. cbn [from_option fifoKey]. destruct (_inFifo pd); [done|]. by rewrite Z.add_0_r.
Qed.

Lemma added_lower pd : reachable config rar pd -> freeLoadCost config regToWidth rar <= added m i pd.
Proof.
  intros Hpd. rewrite added_eq. pose proof choice_range as Hro. pose proof (rangeWidth_small _ _ Hck Hwidths rar Hro) as [[HW _] _].
  pose proof (costs_nonneg _ _ Hck Hwidths rar Hro) as [Hreg _]. pose proof (ck_bits _ Hck). pose proof (ck_width _ Hck).
  unfold freeLoadCost. destruct (_inFifo pd) eqn:Hf; [|destruct (_ <=? _); lia]. destruct (Hpd Hf) as [_ Hd].
  pose proof (marginal_lower config (length flat) widthOf Hck) as Hm. specialize (Hm ltac:(intros j; unfold widthOf; destruct (flat !! j); [by apply rangeWidth_nonneg|done]) m (_anchorAndDepth pd) (rangeWidth regToWidth rar) ltac:(lia) HW) as [Hm0 Hm1].
  set (mg := marginal _ _ _ _ _ _) in *. set (d := (_anchorAndDepth pd).2) in *. set (W := rangeWidth regToWidth rar) in *. set (D := rangeDepth rar) in *.
  assert (0 <= registerCost config (D - d) W) by (apply registerCost_nonneg; (done || lia)).
  destruct (Z.leb_spec W (_fifoWidthAlignment config - 1)); [lia|]. unfold allRegisterCost, registerCost in *. fold D W in Hreg |- *.
  set (u := W - (_fifoWidthAlignment config - 1)) in *. set (B := _fifoBitsPerRegister config) in *.
  destruct (Z.eq_dec B 0) as [->|]; [lia|]. assert ((D - d) * W <= (D - d) * W * B) by nia. assert ((D - d) * u <= (D - d) * W) by nia.
  assert (u * D <= (D - d) * W * B + mg) by lia. lia.
Qed.

Lemma added_upper pd : reachable config rar pd -> added m i pd <= worstCost config regToWidth rar.
Proof.
  intros Hpd. rewrite added_eq. pose proof choice_range as Hro. pose proof (costs_nonneg _ _ Hck Hwidths rar Hro) as [Hreg Hfifo].
  unfold worstCost. destruct (_inFifo pd) eqn:Hf; [|lia]. destruct (Hpd Hf) as [_ Hd]. pose proof (rangeWidth_nonneg regToWidth Hwidths rar).
  pose proof (marginal_upper config (length flat) widthOf Hck m (_anchorAndDepth pd) (rangeWidth regToWidth rar) ltac:(lia)).
  pose proof (fifoCost_mono config Hck (_anchorAndDepth pd).2 (rangeDepth rar) (rangeWidth regToWidth rar) ltac:(lia) ltac:(lia)).
  pose proof (registerCost_mono config Hck (rangeDepth rar - (_anchorAndDepth pd).2) (rangeDepth rar) (rangeWidth regToWidth rar) ltac:(lia) ltac:(lia)).
  unfold allRegisterCost, allFifoCost. lia.
Qed.

(** A choice that is not worthwhile costs as much as the propagation alone. *)
Lemma added_pruned pd : reachable config rar pd -> ~ worthwhile config regToWidth rar pd -> aloneCost config regToWidth rar <= added m i pd.
Proof.
  intros Hpd Hw. rewrite added_eq. unfold worthwhile in Hw. destruct (_inFifo pd) eqn:Hf; [|exfalso; by apply Hw]. destruct (Hpd Hf) as [_ Hd].
  pose proof (marginal_lower config (length flat) widthOf Hck) as Hm. specialize (Hm ltac:(intros j; unfold widthOf; destruct (flat !! j); [by apply rangeWidth_nonneg|done]) m (_anchorAndDepth pd) (rangeWidth regToWidth rar) ltac:(lia) ltac:(by apply rangeWidth_nonneg)) as [Hm0 _].
  destruct (Z.lt_ge_cases (registerCost config (rangeDepth rar - (_anchorAndDepth pd).2) (rangeWidth regToWidth rar)) (aloneCost config regToWidth rar)) as [Hlt|]; [|lia].
  exfalso. by apply Hw.
Qed.

(** The propagation on its own: in registers, or in a FIFO that starts with it *)
Definition alone : PropagationDesc :=
  if allRegisterCost config regToWidth rar <=? allFifoCost config regToWidth rar then mkPropagationDesc false (0, 0)
  else mkPropagationDesc true (rar.1.1, rangeDepth rar).

Lemma alone_reachable : reachable config rar alone /\ worthwhile config regToWidth rar alone.
Proof.
  pose proof choice_range as Hro. pose proof (rangeWidth_nonneg regToWidth Hwidths rar). pose proof (rangeDepth_pos config regToWidth rar Hro).
  pose proof (costs_nonneg _ _ Hck Hwidths rar Hro) as [_ Hfifo]. unfold alone, reachable, worthwhile, aloneCost. destruct (Z.leb_spec (allRegisterCost config regToWidth rar) (allFifoCost config regToWidth rar)) as [|Hlt]; [done|].
  cbn. destruct Hck as [Hwa Hda Hfc Hb Hmd Hsh]. rewrite Z.sub_diag. unfold registerCost at 1. unfold allRegisterCost, allFifoCost, registerCost, fifoCost in *.
  set (W := rangeWidth regToWidth rar) in *. set (D := rangeDepth rar) in *. set (B := _fifoBitsPerRegister config) in *.
  pose proof (alignUp_bounds (_fifoWidthAlignment config) W ltac:(lia)) as HW. pose proof (alignUp_bounds (_fifoDepthAlignment config) D ltac:(lia)) as HDA.
  set (aw := alignUp _ W) in *. set (ad := alignUp _ D) in *. assert (0 < W) by (destruct (Z.eq_dec W 0) as [->|]; lia).
  assert (Hda' : _fifoDepthAlignment config <= ad).
  { unfold ad, alignUp. assert (1 <= (D + _fifoDepthAlignment config - 1) / _fifoDepthAlignment config) by (apply Z.div_le_lower_bound; lia). nia. }
  assert (0 < aw * ad) by nia. split; intros _; [|lia]. split; [destruct Hro; lia|]. split; [|lia].
  assert (W * ad <= aw * ad) by nia. destruct (Z.leb_spec D 2); [|lia]. assert (D * B <= 2 * B) by nia. assert (D * W * B <= W * ad) by nia. lia.
Qed.

Lemma alone_added : added m i alone <= aloneCost config regToWidth rar.
Proof.
  rewrite added_eq. pose proof (rangeDepth_pos config regToWidth rar choice_range). unfold alone, aloneCost.
  destruct (Z.leb_spec (allRegisterCost config regToWidth rar) (allFifoCost config regToWidth rar)); cbn; [lia|]. rewrite Z.sub_diag. unfold registerCost at 1.
  pose proof (marginal_upper config (length flat) widthOf Hck m (rar.1.1, rangeDepth rar) (rangeWidth regToWidth rar) ltac:(cbn; lia)) as Hm. cbn in Hm. unfold allFifoCost in *. lia.
Qed.
End Choice.

(** ** All choices *)

Lemma planCost_none h : planCost h (replicate (length flat) None) = sumZ h flat.
Proof.
  unfold planCost, cost, fifoCosts, usedKeys. replace (omap fifoKey (replicate (length flat) None)) with (@nil (Z * Z)).
  2: { symmetry. generalize (length flat). by induction n. }
  cbn [remove_dups sumZ]. rewrite Z.add_0_r, <- (sumZ_positions h flat). apply sumZ_ext.
  intros i _. destruct (replicate (length flat) None !! i) as [o|] eqn:Ho; [|done]. by apply lookup_replicate in Ho as [-> _].
Qed.

(** A property of all partial plans that one choice keeps *)
Lemma plan_induction (P : plan -> Prop) m :
  plan_ok m -> P (replicate (length flat) None) ->
  (forall m i pd rar, plan_ok m -> P m -> m !! i = Some None -> flat !! i = Some rar -> reachable config rar pd -> P (<[i := Some pd]> m)) -> P m.
Proof.
  intros [Hl Hm] H0 Hstep. apply (fill_ind P (replicate (length flat) None)); [by rewrite length_replicate| |done|].
  - intros i x Hx. by apply lookup_replicate in Hx as [? _].
  - intros m' i pd HP Hl' Href _ Hn Hpd. assert (Hi : (i < length flat)%nat) by (rewrite <- Hl; by eapply lookup_lt_Some).
    destruct (lookup_lt_is_Some_2 flat i Hi) as [rar Hr]. apply (Hstep m' i pd rar); [|done..|by apply (Hm i)].
    split; [congruence|]. intros j pd' rar' Hj. apply Hm. by apply Href.
Qed.

(** Nothing costs more than all the registers and all the FIFOs. *)
Lemma planCost_bound h m : plan_ok m -> (forall rar, rar ∈ flat -> h rar <= worstCost config regToWidth rar) -> planCost h m <= sumZ (worstCost config regToWidth) flat.
Proof.
  intros Hm Hh. transitivity (planCost (worstCost config regToWidth) m).
  - unfold planCost, cost. apply Z.add_le_mono_r, sumZ_le. intros i _. destruct (mjoin (m !! i)); [done|]. unfold perRange.
    destruct (flat !! i) eqn:Hr; [|done]. apply Hh. by eapply list_elem_of_lookup_2.
  - rewrite <- planCost_none. apply (plan_induction (fun m => planCost (worstCost config regToWidth) m <= planCost (worstCost config regToWidth) (replicate (length flat) None)) m Hm); [done|].
    intros m' i pd rar _ HP Hn Hr Hpd. rewrite (planCost_insert _ _ _ _ _ Hn Hr). pose proof (added_upper m' i rar Hr pd Hpd). lia.
Qed.

Lemma planCost_parts h m : plan_ok m -> (forall rar, rar ∈ flat -> 0 <= h rar) -> 0 <= planCost h m - fifoCosts config (length flat) widthOf m /\ 0 <= fifoCosts config (length flat) widthOf m.
Proof.
  intros [Hl Hm] Hh. unfold planCost, cost. assert (Hw : forall i, 0 <= widthOf i) by (intros i; unfold widthOf; destruct (flat !! i); [by apply rangeWidth_nonneg|done]). split.
  - rewrite Z.add_simpl_r. apply sumZ_nonneg. intros i _. destruct (m !! i) as [[pd|]|] eqn:Hi; cbn [mjoin option_join].
    + destruct (lookup_lt_is_Some_2 flat i) as [rar Hr]; [rewrite <- Hl; by eapply lookup_lt_Some|]. unfold descCost, depthOf, widthOf. rewrite Hr. cbn [from_option].
      pose proof (rangeDepth_pos config regToWidth rar (choice_range i rar Hr)). apply registerCost_nonneg; [done| |by apply rangeWidth_nonneg].
      destruct (_inFifo pd) eqn:Hf; [|lia]. destruct (Hm i pd rar Hi Hr Hf). lia.
    + unfold perRange. destruct (flat !! i) eqn:Hr; [|done]. apply Hh. by eapply list_elem_of_lookup_2.
    + unfold perRange. destruct (flat !! i) eqn:Hr; [|done]. apply Hh. by eapply list_elem_of_lookup_2.
  - apply sumZ_nonneg. intros k (i & Hk)%elem_of_usedKeys. apply fifoCost_nonneg; [done| |by apply keyWidth_nonneg].
    destruct (m !! i) as [[pd|]|] eqn:Hi; cbn in Hk; [|done..]. destruct (_inFifo pd) eqn:Hf; [|done]. injection Hk as <-.
    destruct (lookup_lt_is_Some_2 flat i) as [rar Hr]; [rewrite <- Hl; by eapply lookup_lt_Some|]. destruct (Hm i pd rar Hi Hr Hf). lia.
Qed.

(** More choices do not lower the lower bound. *)
Lemma planCost_monotone m m' :
  plan_ok m -> plan_ok m' -> (forall i pd, m !! i = Some (Some pd) -> m' !! i = Some (Some pd)) ->
  planCost (freeLoadCost config regToWidth) m <= planCost (freeLoadCost config regToWidth) m'.
Proof.
  intros [Hl Hm] [Hl' Hm'] Href. apply (fill_ind (fun m' => planCost _ m <= planCost _ m') m); [congruence|done|done|].
  intros m1 i pd HP _ _ _ Hn Hpd. destruct (lookup_lt_is_Some_2 flat i) as [rar Hr]; [rewrite <- Hl'; by eapply lookup_lt_Some|].
  rewrite (planCost_insert _ _ _ _ _ Hn Hr). pose proof (added_lower m1 i rar Hr pd (Hm' i pd rar Hpd Hr)). lia.
Qed.

(** A plan is completed with propagations on their own. *)
Definition completeAlone (m : plan) : plan :=
  imap (fun i o => match o with Some pd => Some pd | None => alone <$> flat !! i end) m.

Lemma completeAlone_lookup m i : completeAlone m !! i = (fun o => match o with Some pd => Some pd | None => alone <$> flat !! i end) <$> m !! i.
Proof. unfold completeAlone. by rewrite list_lookup_imap. Qed.

Lemma completeAlone_cost m :
  plan_ok m -> planCost (aloneCost config regToWidth) (completeAlone m) <= planCost (aloneCost config regToWidth) m.
Proof.
  intros [Hl Hm]. apply (fill_ind (fun m' => planCost _ m' <= planCost _ m) m); [by unfold completeAlone; rewrite length_imap| |done|].
  - intros i pd Hi. by rewrite completeAlone_lookup, Hi.
  - intros m1 i pd HP _ _ Href Hn Hpd. rewrite completeAlone_lookup in Hpd. destruct (m !! i) as [o|] eqn:Hi; [|done]. cbn in Hpd.
    destruct (lookup_lt_is_Some_2 flat i) as [rar Hr]; [rewrite <- Hl; by eapply lookup_lt_Some|]. rewrite (planCost_insert _ _ _ _ _ Hn Hr).
    destruct o as [pd'|]; [rewrite (Href _ _ Hi) in Hn; done|]. rewrite Hr in Hpd. injection Hpd as <-. pose proof (alone_added m1 i rar Hr). lia.
Qed.

(** ** Pruning *)

(** A choice that is not worthwhile can be replaced. *)
Definition prune (m : plan) (worth : nat -> bool) : plan :=
  imap (fun i o => if worth i then o else None) m.

Lemma pruned_cost m worth :
  plan_ok m -> (forall i pd rar, m !! i = Some (Some pd) -> flat !! i = Some rar -> worth i = false -> ~ worthwhile config regToWidth rar pd) ->
  planCost (aloneCost config regToWidth) (prune m worth) <= planCost (aloneCost config regToWidth) m.
Proof.
  intros [Hl Hm] Hworth. assert (Hlook : forall i, prune m worth !! i = (fun o => if worth i then o else None) <$> m !! i) by (intros i; unfold prune; by rewrite list_lookup_imap).
  apply (fill_ind (fun m' => _ <= planCost _ m') (prune m worth)); [by unfold prune; rewrite length_imap| |done|].
  - intros i pd Hi. rewrite Hlook in Hi. destruct (m !! i) as [o|]; [|done]. cbn in Hi. by destruct (worth i).
  - intros m1 i pd HP _ _ Href Hn Hpd. destruct (lookup_lt_is_Some_2 flat i) as [rar Hr]; [rewrite <- Hl; by eapply lookup_lt_Some|].
    rewrite (planCost_insert _ _ _ _ _ Hn Hr). destruct (worth i) eqn:Hwi.
    + rewrite (Href i pd) in Hn; [done|]. by rewrite Hlook, Hpd, Hwi.
    + pose proof (added_pruned m1 i rar Hr pd (Hm i pd rar Hpd Hr) (Hworth i pd rar Hpd Hr Hwi)). lia.
Qed.

End Plans.
End PropagationPlans.

(** * The callback of the search

    [boundCallback] computes the costs of the partial plan that a vector stands
    for, and these costs satisfy the documented contract of branch and bound. *)

Import MachineInt Containers CompressedVector CompressedVectorCorrect BranchAndBound BranchAndBoundSpec BranchAndBoundCorrect BranchAndBoundOptimal BranchAndBoundSparse.
Import Propagations PropagationCosts PropagationChoices PropagationPlans.

Module PropagationBounds.

Lemma sumZ_fmap {A C} (f : C -> Z) (g : A -> C) l : sumZ f (g <$> l) = sumZ (fun a => f (g a)) l.
Proof. induction l as [|a l IH]; [done|]. rewrite fmap_cons. cbn [sumZ]. by rewrite IH. Qed.

Lemma u64_add_u64 a b : u64_add (u64 a) (u64 b) = u64 (a + b).
Proof. unfold u64_add. rewrite u64_add_l, Z.add_comm, u64_add_l. f_equal. lia. Qed.

Section Bounds.
Context (config : Config) (regToWidth : nat -> Z) (flat : list RangeAndRegisters).
Context (Hck : config_ok config) (Hwidths : forall r, 0 <= regToWidth r) (Hflat : forall rar, rar ∈ flat -> range_ok config regToWidth rar).
Context (Hsum : sumZ (worstCost config regToWidth) flat <= 2 ^ 63).

(** What [propagationDesc] gives for one propagation *)
Definition choices_ok (rar : RangeAndRegisters) (pdv : list PropagationDesc) : Prop :=
  exists others, pdv = mkPropagationDesc false (0, 0) :: others /\
    (forall pd, pd ∈ others <-> _inFifo pd = true /\ reachable config rar pd /\ worthwhile config regToWidth rar pd) /\
    Z.of_nat (length pdv) <= choiceBound config rar.

Context (descs : list (list PropagationDesc)) (Hdescs : Forall2 choices_ok flat descs).
Notation ranges := ((fun pdv : list PropagationDesc => Z.of_nat (length pdv)) <$> descs).
Notation lower := (freeLoadCost config regToWidth).
Notation upper := (aloneCost config regToWidth).
Notation planCost := (planCost config regToWidth flat).
Notation plan_ok := (plan_ok config flat).
Notation n := (length flat).
Notation width := (widthOf regToWidth flat).

Lemma choices_sound rar pdv pd : choices_ok rar pdv -> pd ∈ pdv -> reachable config rar pd /\ worthwhile config regToWidth rar pd.
Proof. intros (others & -> & Ho & _) [->|(_ & ? & ?)%Ho]%elem_of_cons; [by split; intros ?|done]. Qed.

Lemma choices_complete rar pdv pd : choices_ok rar pdv -> _inFifo pd = true -> reachable config rar pd -> worthwhile config regToWidth rar pd -> pd ∈ pdv.
Proof. intros (others & -> & Ho & _) ???. apply elem_of_cons. right. by apply Ho. Qed.

(** The plan that a partial vector stands for *)
Definition planOf (l : list (option Z)) : list (option PropagationDesc) :=
  imap (fun i o => x ← o; pdv ← descs !! i; pdv !! Z.to_nat x) l.

Lemma planOf_lookup l i o rar :
  pvec_wf ranges l -> l !! i = Some o -> flat !! i = Some rar ->
  exists pdv, descs !! i = Some pdv /\ choices_ok rar pdv /\ planOf l !! i = Some (x ← o; pdv !! Z.to_nat x) /\
    forall x, o = Some x -> 0 <= x < Z.of_nat (length pdv) /\ exists pd, pdv !! Z.to_nat x = Some pd /\ pd ∈ pdv.
Proof.
  intros [Hl Hx] Ho Hr. destruct (Forall2_lookup_l _ _ _ _ _ Hdescs Hr) as (pdv & Hpdv & Hok). exists pdv. split_and!; [done|done| |].
  - unfold planOf. rewrite list_lookup_imap, Ho. cbn. by destruct o; cbn; [rewrite Hpdv|].
  - intros x ->. assert (0 <= x < Z.of_nat (length pdv)) by (apply (Hx i x); [done|by rewrite list_lookup_fmap, Hpdv]).
    split; [done|]. destruct (lookup_lt_is_Some_2 pdv (Z.to_nat x)) as [pd Hpd]; [lia|]. exists pd. split; [done|]. by eapply list_elem_of_lookup_2.
Qed.

Lemma length_ranges : length ranges = n.
Proof. rewrite length_fmap. symmetry. by eapply Forall2_length. Qed.

Lemma planOf_inv l i pd rar : pvec_wf ranges l -> planOf l !! i = Some (Some pd) -> flat !! i = Some rar ->
  exists pdv x, descs !! i = Some pdv /\ choices_ok rar pdv /\ l !! i = Some (Some x) /\ pdv !! Z.to_nat x = Some pd.
Proof.
  intros Hl Hpd Hr. destruct (l !! i) as [o|] eqn:Ho.
  - destruct (planOf_lookup l i o rar Hl Ho Hr) as (pdv & Hpdv & Hok & Heq & _). rewrite Heq in Hpd. injection Hpd as Hpd.
    destruct o as [x|]; [|done]. by exists pdv, x.
  - unfold planOf in Hpd. by rewrite list_lookup_imap, Ho in Hpd.
Qed.

Lemma planOf_ok l : pvec_wf ranges l -> plan_ok (planOf l).
Proof.
  intros Hl. split; [unfold planOf; rewrite length_imap; rewrite (proj1 Hl); apply length_ranges|].
  intros i pd rar Hpd Hr. destruct (planOf_inv l i pd rar Hl Hpd Hr) as (pdv & x & _ & Hok & _ & Hx).
  apply (choices_sound rar pdv pd Hok). by eapply list_elem_of_lookup_2.
Qed.

(** ** The loop *)

Section Callback.
Context (bounds : list ObjectiveFunctionBounds) (Hbounds : Forall2 (fun rar b => b = mkBounds (lower rar) (upper rar)) flat bounds).
Context (p : IntegerParameterVector) (l : list (option Z)) (Hp : reads p l) (Hl : pvec_wf ranges l).
Notation m := (planOf l).

Lemma length_l : length l = n.
Proof. rewrite (proj1 Hl). apply length_ranges. Qed.

Definition term (h : RangeAndRegisters -> Z) (i : nat) : Z :=
  match mjoin (m !! i) with Some pd => descCost config width (depthOf flat) i pd | None => perRange flat h i end.

Definition widthUpTo (k : nat) (key : AnchorAndDepth) : Z :=
  sumZ (fun i => if bool_decide (fifoKey (mjoin (m !! i)) = Some key) then width i else 0) (seq 0 k).

Record step_inv (k : nat) (st : Z * Z * gmap (Z * Z) Z) : Prop := mk_step_inv {
  sv_lower : st.1.1 = u64 (sumZ (term lower) (seq 0 k));
  sv_upper : st.1.2 = u64 (sumZ (term upper) (seq 0 k));
  sv_widths : forall key, st.2 !! key = if bool_decide (key ∈ usedKeys (take k m)) then Some (u64 (widthUpTo k key)) else None }.

Lemma sumZ_seq_S (f : nat -> Z) k : sumZ f (seq 0 (S k)) = sumZ f (seq 0 k) + f k.
Proof. rewrite seq_S, sumZ_app. cbn [sumZ Nat.add]. lia. Qed.

Lemma elem_of_take_S k o key : m !! k = Some o -> key ∈ usedKeys (take (S k) m) <-> key ∈ usedKeys (take k m) \/ fifoKey o = Some key.
Proof.
  intros Ho. unfold usedKeys. rewrite !elem_of_remove_dups, (take_S_r _ _ _ Ho), omap_app, elem_of_app. apply or_iff_compat_l.
  cbn. destruct (fifoKey o); [rewrite list_elem_of_singleton; split; congruence|]. split; [set_solver|done].
Qed.

Lemma widthUpTo_unused k key : (k <= length m)%nat -> key ∉ usedKeys (take k m) -> widthUpTo k key = 0.
Proof.
  intros Hk Hu. unfold widthUpTo. rewrite (sumZ_ext _ (fun _ => 0)); [induction (seq 0 k); cbn in *; lia|].
  intros i Hi%elem_of_seq. rewrite bool_decide_eq_false_2; [done|]. intros Hkey. apply Hu, elem_of_usedKeys. exists i. by rewrite lookup_take_lt by lia.
Qed.

(** [fifoWidths] after the choice [pd] *)
Lemma widths_step k st pd :
  (k <= length m)%nat -> step_inv k st -> m !! k = Some (Some pd) ->
  forall key, (if _inFifo pd then addWidth st.2 (_anchorAndDepth pd) (width k) else st.2) !! key =
    if bool_decide (key ∈ usedKeys (take (S k) m)) then Some (u64 (widthUpTo (S k) key)) else None.
Proof.
  intros Hk [_ _ Hv] Hm key. pose proof (elem_of_take_S k (Some pd) key Hm) as Hu.
  assert (HS : widthUpTo (S k) key = widthUpTo k key + if bool_decide (fifoKey (Some pd) = Some key) then width k else 0).
  { unfold widthUpTo. rewrite sumZ_seq_S. by rewrite Hm. }
  rewrite HS. clear HS. destruct (_inFifo pd) eqn:Hf; cbn [fifoKey] in *; rewrite Hf in *.
  - unfold addWidth. destruct (decide (_anchorAndDepth pd = key)) as [<-|Hne].
    + rewrite lookup_insert_eq, (bool_decide_eq_true_2 (_ ∈ usedKeys (take (S k) _))), (bool_decide_eq_true_2 (Some _ = Some _)) by (done || (apply Hu; by right)).
      f_equal. rewrite Hv. unfold u64_add. case_bool_decide as Hin; cbn [from_option id]; [by rewrite u64_add_l|]. by rewrite widthUpTo_unused.
    + rewrite lookup_insert_ne, Hv, (bool_decide_eq_false_2 (Some _ = Some _)), Z.add_0_r by congruence.
      rewrite (bool_decide_ext (key ∈ usedKeys (take (S k) m)) (key ∈ usedKeys (take k m))); [done|]. rewrite Hu. split; [intros [?|?]; [done|congruence]|by left].
  - rewrite Hv, (bool_decide_eq_false_2 (None = Some _)), Z.add_0_r by done.
    rewrite (bool_decide_ext (key ∈ usedKeys (take (S k) m)) (key ∈ usedKeys (take k m))); [done|]. rewrite Hu. split; [intros [?|?]; done|by left].
Qed.

Lemma boundStep_eq k st :
  (k < n)%nat -> step_inv k st -> exists st', boundStep config regToWidth flat descs bounds p st k = Ok st' /\ step_inv (S k) st'.
Proof.
  intros Hk Hst. destruct (lookup_lt_is_Some_2 flat k Hk) as [rar Hr]. pose proof (Hflat rar ltac:(by eapply list_elem_of_lookup_2)) as Hro.
  destruct (lookup_lt_is_Some_2 l k) as [o Ho]; [rewrite length_l; lia|]. destruct (planOf_lookup l k o rar Hl Ho Hr) as (pdv & Hpdv & Hok & Hm & Hx).
  assert (Hkm : (k <= length m)%nat) by (apply lookup_lt_Some in Hm; lia). destruct (proj2 Hp k o Ho) as [Hdef Hget].
  assert (Hwk : width k = rangeWidth regToWidth rar) by (unfold widthOf; by rewrite Hr). assert (Hdk : depthOf flat k = rangeDepth rar) by (unfold depthOf; by rewrite Hr).
  pose proof (rangeDepth_pos config regToWidth rar Hro) as HD. destruct st as [[lb ub] V]. unfold boundStep.
  rewrite (at_Some _ _ _ Hr). cbn [mbind result_bind]. rewrite (getRangeWidth_eq config regToWidth Hck Hwidths rar Hro), (PropagationRangeDepth_eq config regToWidth rar Hro). cbn [mbind result_bind]. rewrite Hdef. cbn [mbind result_bind].
  destruct o as [x|].
  - rewrite bool_decide_eq_true_2 by done. destruct (Hx x eq_refl) as (Hxr & pd & Hpd & Hin). unfold selectedDesc. rewrite (at_Some _ _ _ Hpdv), (Hget x eq_refl).
    cbn [mbind result_bind]. rewrite assert_true by (apply Z.ltb_lt; lia). cbn [mbind result_bind]. rewrite (at_Some _ _ _ Hpd). cbn [mbind result_bind].
    assert (Hmk : m !! k = Some (Some pd)) by (rewrite Hm; cbn; by rewrite Hpd). pose proof (widths_step k _ pd Hkm Hst Hmk) as Hws. cbn [snd] in Hws. rewrite Hwk in Hws.
    assert (Hterm : forall h, term h k = descCost config width (depthOf flat) k pd) by (intros h; unfold term; by rewrite Hmk).
    destruct Hst as [Hlo Hup _]. cbn [fst snd] in Hlo, Hup. unfold descCost in Hterm. rewrite Hwk, Hdk in Hterm.
    destruct (_inFifo pd) eqn:Hf.
    + destruct (choices_sound rar pdv pd Hok Hin) as [Hre _]. destruct (Hre Hf) as [_ Hd]. rewrite (getTrailingRegisterCost_eq config regToWidth Hck Hwidths rar Hro) by lia.
      cbn [mbind result_bind]. eexists; split; [reflexivity|]. constructor; cbn [fst snd]; [..|done]; rewrite sumZ_seq_S, Hterm, ?Hlo, ?Hup; unfold u64_add; by rewrite u64_add_l.
    + cbn [mbind result_bind]. eexists; split; [reflexivity|]. rewrite (getRegisterCost_eq config regToWidth Hck Hwidths rar Hro) by lia.
      constructor; cbn [fst snd]; [..|done]; rewrite sumZ_seq_S, Hterm, ?Hlo, ?Hup; unfold u64_add; by rewrite u64_add_l.
  - rewrite bool_decide_eq_false_2 by (intros [? ?]; done). destruct (Forall2_lookup_l _ _ _ _ _ Hbounds Hr) as (b & Hb & ->). rewrite (at_Some _ _ _ Hb).
    cbn [mbind result_bind _lowerBound _upperBound]. eexists; split; [reflexivity|]. cbn in Hm. destruct Hst as [Hlo Hup Hv]. cbn [fst snd] in Hlo, Hup, Hv.
    assert (Hterm : forall h, term h k = h rar) by (intros h; unfold term, perRange; by rewrite Hm, Hr).
    constructor; cbn [fst snd]; [rewrite sumZ_seq_S, Hterm, Hlo; unfold u64_add; by rewrite u64_add_l|rewrite sumZ_seq_S, Hterm, Hup; unfold u64_add; by rewrite u64_add_l|].
    intros key. rewrite Hv. pose proof (elem_of_take_S k None key Hm) as Hu. rewrite (bool_decide_ext (key ∈ usedKeys (take (S k) m)) (key ∈ usedKeys (take k m))).
    + destruct (bool_decide (key ∈ usedKeys (take k m))); [|done]. f_equal. unfold widthUpTo. rewrite sumZ_seq_S, Hm. cbn [mjoin option_join fifoKey].
      rewrite (bool_decide_eq_false_2 (None = Some key)) by done. by rewrite Z.add_0_r.
    + rewrite Hu. split; [intros [?|?]; done|by left].
Qed.

(** ** The FIFOs *)

Lemma lower_le rar : rar ∈ flat -> 0 <= lower rar /\ lower rar <= worstCost config regToWidth rar /\ 0 <= upper rar /\ upper rar <= worstCost config regToWidth rar.
Proof.
  intros Hin. pose proof (Hflat rar Hin) as Hro. pose proof (freeLoadCost_le config regToWidth Hck Hwidths rar Hro). pose proof (costs_nonneg config regToWidth Hck Hwidths rar Hro).
  unfold worstCost, aloneCost in *. lia.
Qed.

Lemma fifo_bounds key : key ∈ usedKeys m -> 1 <= key.2 <= 2 ^ 32 /\ 0 <= keyWidth n width m key /\ fifoCost config key.2 (keyWidth n width m key) <= 2 ^ 63.
Proof.
  intros Hk. pose proof (planOf_ok l Hl) as Hok. pose proof (proj1 (elem_of_usedKeys m key) Hk) as (i & Hi).
  assert (Hw : forall j, 0 <= width j) by (intros j; unfold widthOf; destruct (flat !! j); [by apply rangeWidth_nonneg|done]).
  assert (Hd : forall k, k ∈ usedKeys m -> 3 <= k.2 <= 2 ^ 32).
  { intros k (j & Hj)%elem_of_usedKeys. destruct (m !! j) as [[pd|]|] eqn:Hm; cbn in Hj; [|done..]. destruct (_inFifo pd) eqn:Hf; [|done]. injection Hj as <-.
    destruct (lookup_lt_is_Some_2 flat j) as [rar Hr]; [rewrite <- (proj1 Hok); by eapply lookup_lt_Some|].
    pose proof (rangeDepth_pos config regToWidth rar (Hflat rar ltac:(by eapply list_elem_of_lookup_2))). destruct (proj2 Hok j pd rar Hm Hr Hf). lia. }
  pose proof (planCost_bound config regToWidth flat Hck Hwidths Hflat lower m Hok (fun rar Hin => proj1 (proj2 (lower_le rar Hin)))).
  pose proof (planCost_parts config regToWidth flat Hck Hwidths Hflat lower m Hok (fun rar Hin => proj1 (lower_le rar Hin))) as [? _].
  pose proof (sumZ_elem (fun k => fifoCost config k.2 (keyWidth n width m k)) (usedKeys m) key) as He. cbn beta in He.
  split; [pose proof (Hd key Hk); lia|]. split; [by apply keyWidth_nonneg|]. unfold fifoCosts in *. etransitivity; [apply He; [|done]|lia].
  intros k Hk'. apply fifoCost_nonneg; [done|pose proof (Hd k Hk'); lia|by apply keyWidth_nonneg].
Qed.

Lemma fifoWidths_cost (V : gmap (Z * Z) Z) :
  (forall key, V !! key = if bool_decide (key ∈ usedKeys m) then Some (u64 (keyWidth n width m key)) else None) ->
  map_fold (fun (key : Z * Z) w sum => u64_add sum (getFifoCost config key.2 w)) 0 V = u64 (fifoCosts config n width m).
Proof.
  intros HV. rewrite map_fold_foldr. change 0 with (u64 0).
  rewrite (foldr_ext _ (fun (kw : Z * Z * Z) s => u64_add s (getFifoCost config kw.1.2 kw.2)) _ (u64 0) _ (map_to_list V)) by (done || by intros [? ?]).
  rewrite foldr_u64_add, Z.add_0_l. f_equal. rewrite (sumZ_perm _ _ ((fun k => (k, keyWidth n width m k)) <$> usedKeys m)).
  - rewrite sumZ_fmap. apply sumZ_ext. intros k Hk. destruct (fifo_bounds k Hk) as (? & ? & ?). by apply getFifoCost_eq.
  - apply NoDup_Permutation; [apply NoDup_map_to_list|apply NoDup_fmap; [by intros ? ? [= ? _]|apply NoDup_usedKeys]|].
    intros [k w]. rewrite elem_of_map_to_list, HV, list_elem_of_fmap. split.
    + case_bool_decide as Hk; [|done]. intros [= <-]. exists k. split; [|done]. f_equal. apply u64_small.
      destruct (fifo_bounds k Hk) as (? & ? & ?). pose proof (fifoCost_area config Hck k.2 (keyWidth n width m k) ltac:(lia) ltac:(lia)). unfold is_u64. nia.
    + intros (k' & [= -> ->] & Hk). rewrite bool_decide_eq_true_2 by done. f_equal. apply u64_small.
      destruct (fifo_bounds k' Hk) as (? & ? & ?). pose proof (fifoCost_area config Hck k'.2 (keyWidth n width m k') ltac:(lia) ltac:(lia)). unfold is_u64. nia.
Qed.

Lemma boundCallback_eq : boundCallback config regToWidth flat descs bounds p = Ok (mkBounds (planCost lower m) (planCost upper m)).
Proof.
  pose proof length_l as Hn. unfold boundCallback. rewrite assert_true by (apply Nat.eqb_eq; rewrite (proj1 Hp); done). cbn [mbind result_bind].
  destruct (foldM_seq_inv (boundStep config regToWidth flat descs bounds p) step_inv n (0, 0, ∅)) as ([[lb ub] V] & -> & [Hlo Hup Hv]).
  { constructor; cbn; [done..|]. intros key. by rewrite lookup_empty. }
  { intros k st Hk Hst. by apply boundStep_eq. }
  cbn [mbind result_bind fst snd] in *. pose proof (planOf_ok l Hl) as Hok. rewrite (fifoWidths_cost V).
  2: { intros key. rewrite Hv, take_ge; [done|]. pose proof (proj1 Hok). lia. }
  rewrite Hlo, Hup, !u64_add_u64. f_equal. f_equal; apply u64_small.
  - pose proof (planCost_bound config regToWidth flat Hck Hwidths Hflat lower m Hok (fun rar Hin => proj1 (proj2 (lower_le rar Hin)))).
    pose proof (planCost_parts config regToWidth flat Hck Hwidths Hflat lower m Hok (fun rar Hin => proj1 (lower_le rar Hin))) as [? ?].
    change (is_u64 (planCost lower m)). unfold is_u64. lia.
  - pose proof (planCost_bound config regToWidth flat Hck Hwidths Hflat upper m Hok (fun rar Hin => proj2 (proj2 (proj2 (lower_le rar Hin))))).
    pose proof (planCost_parts config regToWidth flat Hck Hwidths Hflat upper m Hok (fun rar Hin => proj1 (proj2 (proj2 (lower_le rar Hin))))) as [? ?].
    change (is_u64 (planCost upper m)). unfold is_u64. lia.
Qed.

End Callback.
End Bounds.
End PropagationBounds.
