(* ===== verification/PropagationContract.v ===== *)
(** * The contract of the callback

    The costs that the callback computes bound the plans that a partial plan
    can become, and they are separable: a FIFO is shared only by propagations
    that interact. *)

From S2P Require Import Prelude MachineInt CompressedVector CompressedVectorCorrect BranchAndBound BranchAndBoundSpec.
From S2P Require Import BranchAndBoundOptimal BranchAndBoundSparse SparseGraph SparseCorrect Propagations.
From S2P Require Import PropagationCosts.
Import MachineInt Containers CompressedVector CompressedVectorCorrect BranchAndBound BranchAndBoundSpec BranchAndBoundCorrect BranchAndBoundOptimal BranchAndBoundSparse.
Import SparseGraph SparseFacts SparseStep SparseCorrect Propagations PropagationCosts PropagationChoices PropagationPlans PropagationBounds.

Module PropagationContract.

Section Contract.
Context (config : Config) (regToWidth : nat -> Z) (flat : list RangeAndRegisters).
Context (Hck : config_ok config) (Hwidths : forall r, 0 <= regToWidth r) (Hflat : forall rar, rar ∈ flat -> range_ok config regToWidth rar).
Context (Hsum : sumZ (worstCost config regToWidth) flat <= 2 ^ 63).
Context (descs : list (list PropagationDesc)) (Hdescs : Forall2 (choices_ok config regToWidth) flat descs).
Notation ranges := ((fun pdv : list PropagationDesc => Z.of_nat (length pdv)) <$> descs).
Notation lower := (freeLoadCost config regToWidth).
Notation upper := (aloneCost config regToWidth).
Notation planCost := (planCost config regToWidth flat).
Notation plan_ok := (plan_ok config flat).
Notation planOf := (planOf descs).
Notation n := (length flat).
Notation width := (widthOf regToWidth flat).
Notation allParams := (list_to_set (seq 0 (length ranges)) : gset nat).

Definition planBound (l : list (option Z)) : ObjectiveFunctionBounds := mkBounds (planCost lower (planOf l)) (planCost upper (planOf l)).

Lemma length_pvec l : pvec_wf ranges l -> length l = n.
Proof. intros [Hl _]. rewrite Hl. by apply (length_ranges config regToWidth). Qed.

Lemma planOf_None l i : pvec_wf ranges l -> l !! i = Some None -> planOf l !! i = Some None.
Proof. intros Hl Hi. unfold PropagationBounds.planOf. by rewrite list_lookup_imap, Hi. Qed.

Lemma planOf_refines l l' : pvec_wf ranges l -> pvec_wf ranges l' -> refines l l' ->
  forall i pd, planOf l !! i = Some (Some pd) -> planOf l' !! i = Some (Some pd).
Proof.
  intros Hl Hl' Href i pd Hpd. assert (Hi : (i < n)%nat).
  { rewrite <- (length_pvec l Hl). apply lookup_lt_Some in Hpd. unfold PropagationBounds.planOf in Hpd. by rewrite length_imap in Hpd. }
  destruct (lookup_lt_is_Some_2 flat i Hi) as [rar Hr]. destruct (planOf_inv config regToWidth flat descs Hdescs l i pd rar Hl Hpd Hr) as (pdv & x & Hpdv & Hok & Hx & Hxpd).
  destruct (planOf_lookup config regToWidth flat descs Hdescs l' i (Some x) rar Hl' (Href i x Hx) Hr) as (pdv' & Hpdv' & _ & -> & _).
  rewrite Hpdv in Hpdv'. injection Hpdv' as <-. cbn. by rewrite Hxpd.
Qed.

(** The vector of a plan *)
Lemma planOf_onto (m : list (option PropagationDesc)) :
  length m = n -> (forall i o rar pdv, m !! i = Some o -> flat !! i = Some rar -> descs !! i = Some pdv -> forall pd, o = Some pd -> pd ∈ pdv) ->
  exists l, pvec_wf ranges l /\ planOf l = m.
Proof.
  intros Hlen Hm. pose proof (Forall2_length _ _ _ Hdescs) as Hld.
  assert (Hex : exists l, length l = n /\ forall i o, m !! i = Some o -> exists pdv, descs !! i = Some pdv /\
    match o with
    | Some pd => exists x, l !! i = Some (Some x) /\ 0 <= x < Z.of_nat (length pdv) /\ pdv !! Z.to_nat x = Some pd
    | None => l !! i = Some None
    end).
  { assert (Hgen : forall k, (k <= n)%nat -> exists l, length l = k /\ forall i o, (i < k)%nat -> m !! i = Some o -> exists pdv, descs !! i = Some pdv /\
      match o with
      | Some pd => exists x, l !! i = Some (Some x) /\ 0 <= x < Z.of_nat (length pdv) /\ pdv !! Z.to_nat x = Some pd
      | None => l !! i = Some None
      end).
    { induction k as [|k IH]; intros Hk; [exists []; split; [done|intros; lia]|]. destruct IH as (l & Hll & Hl); [lia|].
      destruct (lookup_lt_is_Some_2 flat k) as [rar Hr]; [lia|]. destruct (lookup_lt_is_Some_2 descs k) as [pdv Hpdv]; [lia|].
      destruct (lookup_lt_is_Some_2 m k) as [o Ho]; [lia|].
      assert (Hv : exists v : option Z, match o with Some pd => exists x, v = Some x /\ 0 <= x < Z.of_nat (length pdv) /\ pdv !! Z.to_nat x = Some pd | None => v = None end).
      { destruct o as [pd|]; [|by exists None]. destruct (proj1 (list_elem_of_lookup _ _) (Hm k (Some pd) rar pdv Ho Hr Hpdv pd eq_refl)) as [j Hj].
        exists (Some (Z.of_nat j)). exists (Z.of_nat j). split; [done|]. rewrite Nat2Z.id. split; [|done]. apply lookup_lt_Some in Hj. lia. }
      destruct Hv as [v Hv]. exists (l ++ [v]). split; [rewrite length_app; cbn; lia|]. intros i o' Hi Ho'. destruct (decide (i = k)) as [->|Hne].
      - rewrite Ho in Ho'. injection Ho' as <-. exists pdv. split; [done|]. rewrite list_lookup_middle by done. destruct o as [pd|]; [|congruence].
        destruct Hv as (x & -> & ?). by exists x.
      - destruct (Hl i o' ltac:(lia) Ho') as (pdv' & ? & Hm'). exists pdv'. split; [done|]. by rewrite lookup_app_l by lia. }
    destruct (Hgen n ltac:(lia)) as (l & Hll & Hl). exists l. split; [done|]. intros i o Ho. apply Hl; [|done]. rewrite <- Hlen. by eapply lookup_lt_Some. }
  destruct Hex as (l & Hll & Hl). exists l. split; [split|].
  - rewrite length_fmap. lia.
  - intros i x r Hx Hr. apply list_lookup_fmap_Some in Hr as (pdv & -> & Hpdv). destruct (lookup_lt_is_Some_2 m i) as [o Ho]; [rewrite Hlen, <- Hll; by eapply lookup_lt_Some|].
    destruct (Hl i o Ho) as (pdv' & Hpdv' & Ho'). rewrite Hpdv in Hpdv'. injection Hpdv' as <-. destruct o as [pd|]; [|congruence].
    destruct Ho' as (x' & Hx' & ? & _). rewrite Hx in Hx'. by injection Hx' as ->.
  - apply list_eq. intros i. unfold PropagationBounds.planOf. rewrite list_lookup_imap. destruct (m !! i) as [o|] eqn:Ho.
    + destruct (Hl i o Ho) as (pdv & Hpdv & Ho'). destruct o as [pd|]; [destruct Ho' as (x & -> & _ & Hx)|rewrite Ho']; cbn; [|done]. rewrite Hpdv. cbn. by rewrite Hx.
    + rewrite (lookup_ge_None_2 l); [done|]. apply lookup_ge_None in Ho. lia.
Qed.

Lemma alone_choice i rar pdv : flat !! i = Some rar -> descs !! i = Some pdv -> alone config regToWidth rar ∈ pdv.
Proof.
  intros Hr Hpdv. pose proof (Forall2_lookup_lr _ _ _ _ _ _ Hdescs Hr Hpdv) as Hok.
  destruct (alone_reachable config regToWidth flat Hck Hwidths Hflat i rar Hr) as [Hre Hwo]. destruct (_inFifo (alone config regToWidth rar)) eqn:Hf.
  - by apply (choices_complete config regToWidth rar pdv _ Hok).
  - destruct Hok as (others & -> & _). unfold alone in *. destruct (_ <=? _); [set_solver|done].
Qed.

Lemma cost_complete h h' (m : list (option PropagationDesc)) : (forall i, (i < n)%nat -> exists pd, m !! i = Some (Some pd)) -> planCost h m = planCost h' m.
Proof.
  intros Hm. unfold PropagationPlans.planCost, cost. f_equal. apply sumZ_ext. intros i Hi%elem_of_seq. destruct (Hm i ltac:(lia)) as [pd ->]. done.
Qed.

(** A partial vector can be completed with propagations on their own. *)
Lemma completion_alone l :
  pvec_wf ranges l -> exists c, completion ranges allParams l c /\ planOf c = completeAlone config regToWidth flat (planOf l) /\
    forall i, (i < n)%nat -> exists pd, planOf c !! i = Some (Some pd).
Proof.
  intros Hl. pose proof (planOf_ok config regToWidth flat descs Hdescs l Hl) as [Hlp _].
  set (cp := completeAlone config regToWidth flat (planOf l)). assert (Hlcp : length cp = n) by (unfold cp, completeAlone; by rewrite length_imap).
  assert (Hall : forall i, (i < n)%nat -> exists pd, cp !! i = Some (Some pd)).
  { intros i Hi. unfold cp. rewrite completeAlone_lookup. destruct (lookup_lt_is_Some_2 (planOf l) i) as [o ->]; [lia|]. destruct (lookup_lt_is_Some_2 flat i Hi) as [rar Hr]. rewrite Hr. destruct o as [pd|]; [by exists pd|by eexists]. }
  destruct (planOf_onto cp Hlcp) as (c & Hc & Hpc).
  { intros i o rar pdv Ho Hr Hpdv pd ->. unfold cp in Ho. rewrite completeAlone_lookup in Ho. destruct (planOf l !! i) as [[pd'|]|] eqn:Hpl; cbn in Ho; [|rewrite Hr in Ho; injection Ho as <-; by apply (alone_choice i)|done].
    injection Ho as <-. destruct (planOf_inv config regToWidth flat descs Hdescs l i pd' rar Hl Hpl Hr) as (pdv' & x & Hpdv' & _ & _ & Hx). rewrite Hpdv in Hpdv'. injection Hpdv' as <-. by eapply list_elem_of_lookup_2. }
  assert (Hct : forall i, (i < n)%nat -> exists x, c !! i = Some (Some x)).
  { intros i Hi. destruct (Hall i Hi) as [pd Hpd]. rewrite <- Hpc in Hpd. destruct (lookup_lt_is_Some_2 flat i Hi) as [rar Hr].
    destruct (planOf_inv config regToWidth flat descs Hdescs c i pd rar Hc Hpd Hr) as (_ & x & _ & _ & Hx & _). by exists x. }
  pose proof (length_pvec l Hl) as Hll. pose proof (length_pvec c Hc) as Hlc.
  destruct (override_total ranges l c Hl) as [Hw Hcm]; [split; [done|]; intros i Hi%elem_of_allParams; apply Hct; by rewrite (length_ranges config regToWidth flat descs Hdescs) in Hi|].
  assert (Hpo : planOf (override l c) = cp); [|exists (override l c); split; [split; [done|]; split; [|split; [done|]]|split; [done|by rewrite Hpo]]].
  - apply list_eq. intros i. destruct (decide (i < n)%nat) as [Hi|Hi].
  + destruct (lookup_lt_is_Some_2 flat i Hi) as [rar Hr]. destruct (lookup_lt_is_Some_2 l i) as [o Ho]; [lia|].
    unfold PropagationBounds.planOf at 1. rewrite list_lookup_imap, override_lookup by congruence. rewrite Ho. destruct o as [x|].
    * unfold cp. rewrite completeAlone_lookup. destruct (planOf_lookup config regToWidth flat descs Hdescs l i (Some x) rar Hl Ho Hr) as (pdv & Hpdv & _ & -> & Hx).
      cbn. rewrite Hpdv. cbn. destruct (Hx x eq_refl) as (_ & pd & -> & _). done.
    * rewrite <- Hpc. unfold PropagationBounds.planOf. by rewrite list_lookup_imap.
  + rewrite !lookup_ge_None_2; [done|lia|]. unfold PropagationBounds.planOf. rewrite length_imap. unfold override. rewrite length_zip_with. lia.
  - intros i x Hx. by rewrite override_lookup, Hx by congruence.
  - intros i Hi. rewrite elem_of_allParams, (length_ranges config regToWidth flat descs Hdescs) in Hi. rewrite override_lookup by congruence. rewrite !lookup_ge_None_2 by lia. done.
Qed.

Lemma planBound_contract : bound_contract ranges allParams planBound.
Proof.
  assert (Hlow : forall rar, rar ∈ flat -> 0 <= lower rar /\ lower rar <= worstCost config regToWidth rar /\ 0 <= upper rar /\ upper rar <= worstCost config regToWidth rar) by (by apply lower_le).
  constructor.
  - intros l Hl. cbn. unfold PropagationPlans.planCost, cost. apply Z.add_le_mono_r, sumZ_le. intros i _. destruct (mjoin (planOf l !! i)); [done|]. unfold perRange.
    destruct (flat !! i) as [rar|] eqn:Hr; [|done]. cbn. apply (freeLoadCost_le config regToWidth Hck Hwidths rar). apply Hflat. by eapply list_elem_of_lookup_2.
  - intros l Hl. cbn. pose proof (planCost_bound config regToWidth flat Hck Hwidths Hflat upper (planOf l) (planOf_ok config regToWidth flat descs Hdescs l Hl)) as H.
    specialize (H ltac:(naive_solver)). unfold size_max. lia.
  - intros l l' Hl Hl' Href. cbn. apply (planCost_monotone config regToWidth flat Hck Hwidths Hflat); [by apply (planOf_ok config regToWidth)..|]. by apply planOf_refines.
  - intros l Hl. destruct (completion_alone l Hl) as (c & Hc & Hpc & Hall). exists c. split; [done|]. cbn.
    rewrite (cost_complete lower upper (planOf c) Hall), Hpc. by apply completeAlone_cost, (planOf_ok config regToWidth).
  - intros c Hc _. cbn. pose proof (planCost_bound config regToWidth flat Hck Hwidths Hflat lower (planOf c) (planOf_ok config regToWidth flat descs Hdescs c Hc)) as H.
    specialize (H ltac:(naive_solver)). unfold size_max. lia.
Qed.

End Contract.
End PropagationContract.

(** * Propagations that can share a FIFO

    [interactions] of [OptimizePropagations] relates the propagations that have
    a FIFO in common, so that the objective function is separable over it. *)

Import MachineInt Containers CompressedVector CompressedVectorCorrect BranchAndBound BranchAndBoundSpec BranchAndBoundCorrect BranchAndBoundOptimal BranchAndBoundSparse.
Import SparseGraph SparseFacts SparseStep SparseCorrect Propagations PropagationCosts PropagationChoices PropagationPlans PropagationBounds PropagationContract.

Module PropagationInteractions.

Lemma elem_of_zip_seq {A} (l : list A) i a : (i, a) ∈ zip (seq 0 (length l)) l <-> l !! i = Some a.
Proof.
  rewrite list_elem_of_lookup. split.
  - intros (k & Hk). rewrite lookup_zip_with in Hk. destruct (seq 0 (length l) !! k) as [x|] eqn:Hx; [|done]. apply lookup_seq in Hx as [-> _].
    cbn in Hk. destruct (l !! k) eqn:Hl; [|done]. by injection Hk as <- <-.
  - intros Hl. exists i. rewrite lookup_zip_with, Hl. rewrite (proj2 (lookup_seq 0 (length l) i i)); [done|]. split; [done|]. by eapply lookup_lt_Some.
Qed.

(** ** The graph *)

(** Propagation [i] can be put in the FIFO [key]. *)
Definition canUse (descs : list (list PropagationDesc)) (i : nat) (key : AnchorAndDepth) : Prop :=
  exists pdv pd, descs !! i = Some pdv /\ pd ∈ pdv /\ fifoKey (Some pd) = Some key.

Section Graph.
Context (descs : list (list PropagationDesc)).

Lemma fifoMap_row (i j : nat) (pdv : list PropagationDesc) (fm : gmap (Z * Z) (gset nat)) (key : AnchorAndDepth) :
  j ∈ default ∅ (fold_left (fun (fifoMap : gmap (Z * Z) (gset nat)) pd =>
      if _inFifo pd then <[_anchorAndDepth pd := {[i]} ∪ default ∅ (fifoMap !! _anchorAndDepth pd)]> fifoMap else fifoMap) pdv fm !! key) <->
  j ∈ default ∅ (fm !! key) \/ (j = i /\ exists pd, pd ∈ pdv /\ fifoKey (Some pd) = Some key).
Proof.
  revert fm; induction pdv as [|pd pdv IH]; intros fm; cbn [fold_left].
  - split; [by left|]. intros [?|(_ & pd & ? & _)]; [done|set_solver].
  - rewrite IH. setoid_rewrite elem_of_cons. cbn [fifoKey]. destruct (_inFifo pd) eqn:Hf.
    + destruct (decide (_anchorAndDepth pd = key)) as [<-|Hne].
      * rewrite lookup_insert_eq. cbn [from_option id]. rewrite elem_of_union, elem_of_singleton. split.
        -- intros [[->|?]|(-> & pd' & ? & ?)]; [right; split; [done|]; exists pd; rewrite Hf; auto|by left|right; split; [done|]; exists pd'; auto].
        -- intros [?|(-> & _)]; [left; by right|left; by left].
      * rewrite lookup_insert_ne by done. split.
        -- intros [?|(-> & pd' & ? & ?)]; [by left|right; split; [done|]; exists pd'; auto].
        -- intros [?|(-> & pd' & [->|?] & Hk)]; [by left| |right; split; [done|]; by exists pd']. rewrite Hf in Hk. congruence.
    + split.
      * intros [?|(-> & pd' & ? & ?)]; [by left|right; split; [done|]; exists pd'; auto].
      * intros [?|(-> & pd' & [->|?] & Hk)]; [by left| |right; split; [done|]; by exists pd']. by rewrite Hf in Hk.
Qed.

Lemma elem_of_fifoMap (j : nat) (key : AnchorAndDepth) : j ∈ default ∅ (fifoMap descs !! key) <-> canUse descs j key.
Proof.
  unfold fifoMap, canUse.
  assert (Hgen : forall zs (fm : gmap (Z * Z) (gset nat)),
    j ∈ default ∅ (fold_left (fun fifoMap (p : nat * list PropagationDesc) =>
      fold_left (fun (fifoMap : gmap (Z * Z) (gset nat)) pd =>
        if _inFifo pd then <[_anchorAndDepth pd := {[p.1]} ∪ default ∅ (fifoMap !! _anchorAndDepth pd)]> fifoMap else fifoMap) p.2 fifoMap) zs fm !! key) <->
    j ∈ default ∅ (fm !! key) \/ exists pdv pd, (j, pdv) ∈ zs /\ pd ∈ pdv /\ fifoKey (Some pd) = Some key).
  { induction zs as [|[i pdv] zs IH]; intros fm; cbn [fold_left].
    - split; [by left|]. intros [?|(? & ? & ? & _)]; [done|set_solver].
    - rewrite IH, fifoMap_row. setoid_rewrite elem_of_cons. cbn [fst snd]. split.
      + intros [[?|(-> & pd & ? & ?)]|(pdv' & pd & ? & ? & ?)]; [by left|right; exists pdv, pd; auto|right; exists pdv', pd; auto].
      + intros [?|(pdv' & pd & [[= -> ->]|?] & ? & ?)]; [by left; left|left; right; split; [done|]; by exists pd|right; by exists pdv', pd]. }
  rewrite Hgen, lookup_empty. split.
  - intros [?|(pdv & pd & Hz%elem_of_zip_seq & ? & ?)]; [set_solver|]. by exists pdv, pd.
  - intros (pdv & pd & ? & ? & ?). right. exists pdv, pd. split; [by apply elem_of_zip_seq|done].
Qed.

Lemma elem_of_interactionsOf (i j : nat) (pdv : list PropagationDesc) :
  j ∈ interactionsOf descs i pdv <-> i <> j /\ exists pd key, pd ∈ pdv /\ fifoKey (Some pd) = Some key /\ canUse descs j key.
Proof.
  unfold interactionsOf.
  assert (Hgen : forall (acc : gset nat), j ∈ fold_left (fun (others : gset nat) pd =>
    if _inFifo pd then others ∪ (default ∅ (fifoMap descs !! _anchorAndDepth pd) ∖ {[i]}) else others) pdv acc <->
    j ∈ acc \/ (i <> j /\ exists pd key, pd ∈ pdv /\ fifoKey (Some pd) = Some key /\ canUse descs j key)).
  { induction pdv as [|pd pdv' IH]; intros acc; cbn [fold_left].
    - split; [by left|]. intros [?|(_ & ? & ? & ? & _)]; [done|set_solver].
    - rewrite IH. setoid_rewrite elem_of_cons. destruct (_inFifo pd) eqn:Hf.
      + rewrite elem_of_union, elem_of_difference, elem_of_fifoMap, elem_of_singleton. split.
        * intros [[?|[Hu Hij]]|(Hij & pd' & key & ? & ? & ?)]; [by left| |right; split; [done|]; exists pd', key; auto].
          right. split; [congruence|]. exists pd, (_anchorAndDepth pd). split; [by left|]. split; [cbn; by rewrite Hf|done].
        * intros [?|(Hij & pd' & key & [->|?] & Hk & ?)]; [by left; left| |right; split; [done|]; by exists pd', key].
          left. right. cbn in Hk. rewrite Hf in Hk. injection Hk as ->. split; [done|congruence].
      + split.
        * intros [?|(Hij & pd' & key & ? & ? & ?)]; [by left|right; split; [done|]; exists pd', key; auto].
        * intros [?|(Hij & pd' & key & [->|?] & Hk & ?)]; [by left| |right; split; [done|]; by exists pd', key]. cbn in Hk. by rewrite Hf in Hk. }
  rewrite Hgen. set_solver.
Qed.

(** Exactly the propagations with a FIFO in common interact. *)
Lemma interacts_eq i j : interacts (interactions descs) i j <-> i <> j /\ exists key, canUse descs i key /\ canUse descs j key.
Proof.
  assert (Hin : forall p qs q, (p, qs) ∈ interactions descs -> q ∈ qs -> p <> q /\ exists key, canUse descs p key /\ canUse descs q key).
  { intros p qs q (x & [= -> ->] & Hx)%list_elem_of_fmap Hq. destruct x as [p pdv]. apply elem_of_zip_seq in Hx. cbn [fst snd] in Hq.
    apply elem_of_set_elements, elem_of_interactionsOf in Hq as (? & pd & key & ? & ? & ?). split; [done|]. exists key. split; [by exists pdv, pd|done]. }
  split.
  - intros (Hne & p & qs & Hpq & [[-> Hj]|[-> Hi]]); destruct (Hin _ _ _ Hpq ltac:(eassumption)) as (? & key & ? & ?); (split; [done|by exists key]).
  - intros (Hne & key & (pdv & pd & Hpdv & Hpd & Hk) & Hj). split; [done|]. exists i, (set_elements (interactionsOf descs i pdv)). split.
    + apply list_elem_of_fmap. exists (i, pdv). split; [done|]. by apply elem_of_zip_seq.
    + left. split; [done|]. apply elem_of_set_elements, elem_of_interactionsOf. split; [done|]. by exists pd, key.
Qed.

Lemma canUse_lt i key : canUse descs i key -> (i < length descs)%nat.
Proof. intros (pdv & _ & Hi & _). by eapply lookup_lt_Some. Qed.

Lemma interactions_wf : interactions_ok ((fun pdv : list PropagationDesc => Z.of_nat (length pdv)) <$> descs) (interactions descs).
Proof.
  intros p qs (x & [= -> ->] & Hx)%list_elem_of_fmap. destruct x as [p pdv]. rewrite length_fmap. apply elem_of_zip_seq in Hx. cbn [fst snd].
  split; [by eapply lookup_lt_Some|]. intros q (_ & _ & key & _ & _ & Hq)%elem_of_set_elements%elem_of_interactionsOf. by eapply canUse_lt.
Qed.

Global Instance canUse_dec i key : Decision (canUse descs i key).
Proof.
  refine (cast_if (decide (Exists (fun pd => fifoKey (Some pd) = Some key) (default [] (descs !! i))))).
  - abstract (destruct (descs !! i) as [pdv|] eqn:Hi; [|by apply Exists_nil in e]; apply Exists_exists in e as (pd & ? & ?); by exists pdv, pd).
  - abstract (intros (pdv & pd & Hi & ? & ?); apply n; rewrite Hi; apply Exists_exists; by exists pd).
Defined.
End Graph.

(** ** Separability *)

Section Separable.
Context (config : Config) (regToWidth : nat -> Z) (flat : list RangeAndRegisters).
Context (descs : list (list PropagationDesc)) (Hdescs : Forall2 (choices_ok config regToWidth) flat descs).
Notation ranges := ((fun pdv : list PropagationDesc => Z.of_nat (length pdv)) <$> descs).
Notation n := (length flat).
Notation width := (widthOf regToWidth flat).
Notation planOf := (planOf descs).

(** The cost of one FIFO, none when it is not used *)
Definition keyCost (m : list (option PropagationDesc)) (k : AnchorAndDepth) : Z :=
  if bool_decide (k ∈ usedKeys m) then fifoCost config k.2 (keyWidth n width m k) else 0.

Lemma fifoCosts_over (m : list (option PropagationDesc)) ks : NoDup ks -> (forall k, k ∈ usedKeys m -> k ∈ ks) -> fifoCosts config n width m = sumZ (keyCost m) ks.
Proof.
  intros Hnd Hks. assert (Hf : forall l, sumZ (keyCost m) l = sumZ (fun k => fifoCost config k.2 (keyWidth n width m k)) (filter (fun k => k ∈ usedKeys m) l)).
  { induction l as [|k l IH]; [done|]. cbn [sumZ]. rewrite filter_cons, IH. unfold keyCost at 1. destruct (decide (k ∈ usedKeys m)).
    - by rewrite bool_decide_eq_true_2.
    - by rewrite bool_decide_eq_false_2. }
  rewrite Hf. unfold fifoCosts. apply sumZ_perm, NoDup_Permutation; [apply NoDup_usedKeys|by apply NoDup_filter|].
  intros k. rewrite list_elem_of_filter. split; [intros Hk; split; [done|by apply Hks]|by intros [? _]].
Qed.

Lemma keyCost_ext (m m' : list (option PropagationDesc)) k :
  (forall i, fifoKey (mjoin (m !! i)) = Some k <-> fifoKey (mjoin (m' !! i)) = Some k) -> keyCost m k = keyCost m' k.
Proof.
  intros H. unfold keyCost. rewrite (bool_decide_ext (k ∈ usedKeys m) (k ∈ usedKeys m')).
  - destruct (bool_decide (k ∈ usedKeys m')); [|done]. f_equal. unfold keyWidth. apply sumZ_ext. intros i _.
    by rewrite (bool_decide_ext _ _ (H i)).
  - rewrite !elem_of_usedKeys. split; intros (i & Hi); exists i; by apply H.
Qed.

Lemma planOf_choose S a b i :
  pvec_wf ranges a -> pvec_wf ranges b -> planOf (choose S a b) !! i = if decide (i ∈ S) then planOf a !! i else planOf b !! i.
Proof.
  intros Ha Hb. unfold PropagationBounds.planOf. rewrite list_lookup_imap, choose_lookup by (rewrite (proj1 Ha); symmetry; apply (proj1 Hb)).
  rewrite !list_lookup_imap. by destruct (decide _).
Qed.

Lemma planOf_uses l i k : pvec_wf ranges l -> fifoKey (mjoin (planOf l !! i)) = Some k -> canUse descs i k.
Proof.
  intros Hl Hk. destruct (planOf l !! i) as [[pd|]|] eqn:Hpd; [|done..]. cbn [mjoin option_join] in Hk.
  assert (Hi : (i < n)%nat) by (rewrite <- (length_pvec config regToWidth flat descs Hdescs l Hl); apply lookup_lt_Some in Hpd; unfold PropagationBounds.planOf in Hpd; by rewrite length_imap in Hpd).
  destruct (lookup_lt_is_Some_2 flat i Hi) as [rar Hr].
  destruct (planOf_inv config regToWidth flat descs Hdescs l i pd rar Hl Hpd Hr) as (pdv & x & ? & _ & _ & Hx). exists pdv, pd. split_and!; [done|by eapply list_elem_of_lookup_2|done].
Qed.

Lemma planBound_separable : separable ranges (interactions descs) (planBound config regToWidth flat descs).
Proof.
  intros S a a' b b' Hiso Ha Ha' Hb Hb'. cbn [planBound _lowerBound]. unfold planCost, cost. set (lower := freeLoadCost config regToWidth).
  set (mab := planOf (choose S a b)). set (mab' := planOf (choose S a b')). set (ma'b := planOf (choose S a' b)). set (ma'b' := planOf (choose S a' b')).
  set (ks := remove_dups (usedKeys mab ++ usedKeys mab' ++ usedKeys ma'b ++ usedKeys ma'b')).
  rewrite !(fifoCosts_over _ ks) by (apply NoDup_remove_dups || (intros k Hk; apply elem_of_remove_dups; rewrite !elem_of_app; tauto)).
  assert (Hadd : forall A (f g f' g' : A -> Z) l, (forall x, f x + g x = f' x + g' x) -> sumZ f l + sumZ g l = sumZ f' l + sumZ g' l).
  { clear. intros A f g f' g' l H. induction l as [|x l IH]; [done|]. cbn. specialize (H x). lia. }
  match goal with |- ?t1 + ?k1 + (?t2 + ?k2) = ?t3 + ?k3 + (?t4 + ?k4) => assert (Hterms : t1 + t2 = t3 + t4); [|assert (Hkeys : k1 + k2 = k3 + k4); [|lia]] end.
  - apply Hadd. intros i. unfold mab, mab', ma'b, ma'b'. rewrite !planOf_choose by done. destruct (decide (i ∈ S)); lia.
  - apply Hadd. intros k.
    assert (Hcase : (exists i, (i < length descs)%nat /\ i ∈ S /\ canUse descs i k) \/ (forall i, i ∈ S -> ~ canUse descs i k)).
    { destruct (decide (Exists (fun i => i ∈ S /\ canUse descs i k) (seq 0 (length descs)))) as [He|He].
      - left. apply Exists_exists in He as (i & Hi%elem_of_seq & ? & ?). exists i. split; [lia|done].
      - right. intros i Hi Hu. apply He, Exists_exists. exists i. split; [|done]. apply elem_of_seq. pose proof (canUse_lt _ _ _ Hu). lia. }
    assert (Hsame : forall c d c' d', pvec_wf ranges c -> pvec_wf ranges d -> pvec_wf ranges c' -> pvec_wf ranges d' ->
      (forall i, i ∈ S -> fifoKey (mjoin (planOf c !! i)) = Some k <-> fifoKey (mjoin (planOf c' !! i)) = Some k) ->
      (forall i, i ∉ S -> fifoKey (mjoin (planOf d !! i)) = Some k <-> fifoKey (mjoin (planOf d' !! i)) = Some k) ->
      keyCost (planOf (choose S c d)) k = keyCost (planOf (choose S c' d')) k).
    { intros c d c' d' Hc Hd Hc' Hd' H1 H2. apply keyCost_ext. intros i. rewrite !planOf_choose by done. destruct (decide (i ∈ S)); auto. }
    destruct Hcase as [(i0 & _ & Hi0 & Hu)|Hnone].
    + assert (Hout : forall l i, pvec_wf ranges l -> i ∉ S -> fifoKey (mjoin (planOf l !! i)) <> Some k).
      { intros l i Hl Hi Hk. apply Hi. apply (Hiso i0); [done|]. apply interacts_eq. split; [by intros ->|]. exists k. split; [done|]. by apply (planOf_uses l). }
      unfold mab, mab', ma'b, ma'b'. rewrite (Hsame a b a b'), (Hsame a' b' a' b) by (done || (intros i Hi; split; intros Hk; exfalso; [eapply (Hout b)|eapply (Hout b')]; eassumption) || (intros i Hi; split; intros Hk; exfalso; [eapply (Hout b')|eapply (Hout b)]; eassumption)). lia.
    + assert (Hin : forall l i, pvec_wf ranges l -> i ∈ S -> fifoKey (mjoin (planOf l !! i)) <> Some k).
      { intros l i Hl Hi Hk. by apply (Hnone i Hi), (planOf_uses l). }
      unfold mab, mab', ma'b, ma'b'. rewrite (Hsame a b a' b), (Hsame a' b' a b') by (done || (intros i Hi; split; intros Hk; exfalso; [eapply (Hin a)|eapply (Hin a')]; eassumption) || (intros i Hi; split; intros Hk; exfalso; [eapply (Hin a')|eapply (Hin a)]; eassumption)). lia.
Qed.
End Separable.
End PropagationInteractions.
