(* ===== verification/PropagationCorrect.v ===== *)
(** * The choice of FIFOs is optimal

    [OptimizePropagations] always returns the FIFOs of a valid plan, and when
    the search is not cut short no other plan costs less, not even one with a
    FIFO that the search does not consider. *)

From S2P Require Import Prelude MachineInt CompressedVector CompressedVectorCorrect BranchAndBound BranchAndBoundSpec.
From S2P Require Import BranchAndBoundOptimal BranchAndBoundSparse SparseGraph SparseCorrect Propagations.
From S2P Require Import PropagationCosts PropagationContract.
Import MachineInt Containers CompressedVector CompressedVectorCorrect BranchAndBound BranchAndBoundSpec BranchAndBoundCorrect BranchAndBoundOptimal BranchAndBoundSparse.
Import SparseGraph SparseFacts SparseStep SparseCorrect Propagations PropagationCosts PropagationChoices PropagationPlans PropagationBounds PropagationContract PropagationInteractions.

Module PropagationCorrect.

(** ** Plans as lists of choices *)

Record input_ok (config : Config) (regToWidth : nat -> Z) (flat : list RangeAndRegisters) : Prop := mk_input_ok {
  io_config : config_ok config; io_widths : forall r, 0 <= regToWidth r;
  io_ranges : forall rar, rar ∈ flat -> range_ok config regToWidth rar;
  io_cost : sumZ (worstCost config regToWidth) flat <= 2 ^ 63; io_count : (length flat <= 4096)%nat }.

(** Every propagation in registers, or in a FIFO within the merge distance *)
Definition choosable (config : Config) (rar : RangeAndRegisters) (pd : PropagationDesc) : Prop :=
  pd = mkPropagationDesc false (0, 0) \/ (_inFifo pd = true /\ reachable config rar pd).

Definition choice_ok (config : Config) (flat : list RangeAndRegisters) (choice : list PropagationDesc) : Prop := Forall2 (choosable config) flat choice.

Lemma choosable_reachable config rar pd : choosable config rar pd -> reachable config rar pd.
Proof. intros [->|[_ H]]; [by intros ?|done]. Qed.

Lemma choices_choosable config regToWidth rar pdv pd : choices_ok config regToWidth rar pdv -> pd ∈ pdv -> choosable config rar pd.
Proof. intros (others & -> & Ho & _) [->|(? & ? & _)%Ho]%elem_of_cons; [by left|by right]. Qed.

Definition choiceCost (config : Config) (regToWidth : nat -> Z) (flat : list RangeAndRegisters) (choice : list PropagationDesc) : Z :=
  planCost config regToWidth flat (fun _ => 0) (Some <$> choice).

(** Each FIFO holds the registers of the propagations that choose it, by the
    stage in which they start. *)
Record realises (flat : list RangeAndRegisters) (choice : list PropagationDesc) (fifos : FifoPropagations) : Prop := mk_realises {
  re_keys : forall key, is_Some (fifos !! key) <-> exists pd, pd ∈ choice /\ fifoKey (Some pd) = Some key;
  re_registers : forall key (stage : Z) (r : nat), r ∈ default ∅ (default ∅ (fifos !! key) !! stage) <->
    exists i rar pd, flat !! i = Some rar /\ choice !! i = Some pd /\ fifoKey (Some pd) = Some key /\ rar.1.1 = stage /\ r ∈ rar.2 }.

Section Collect.
Context (flat : list RangeAndRegisters) (descs : list (list PropagationDesc)) (choice : list PropagationDesc).
Context (p : IntegerParameterVector) (xs : list Z) (Hp : reads p (Some <$> xs)).
Context (Hlen : length flat = length choice).
Context (Hxs : forall i pd, choice !! i = Some pd -> exists x pdv, xs !! i = Some x /\ descs !! i = Some pdv /\ 0 <= x < Z.of_nat (length pdv) /\ pdv !! Z.to_nat x = Some pd).

Record collect_inv (k : nat) (fifos : FifoPropagations) : Prop := mk_collect_inv {
  ci_keys : forall key, is_Some (fifos !! key) <-> exists pd, pd ∈ take k choice /\ fifoKey (Some pd) = Some key;
  ci_registers : forall key (stage : Z) (r : nat), r ∈ default ∅ (default ∅ (fifos !! key) !! stage) <->
    exists i rar pd, (i < k)%nat /\ flat !! i = Some rar /\ choice !! i = Some pd /\ fifoKey (Some pd) = Some key /\ rar.1.1 = stage /\ r ∈ rar.2 }.

(** One propagation of [collectFifos] *)
Lemma collect_insert (fifos : FifoPropagations) k (rar : RangeAndRegisters) pd :
  collect_inv k fifos -> flat !! k = Some rar -> choice !! k = Some pd ->
  collect_inv (S k) (if _inFifo pd then
        let dropPoints := default ∅ (fifos !! _anchorAndDepth pd) in
        let registers := default ∅ (dropPoints !! rar.1.1) in
        <[_anchorAndDepth pd := <[rar.1.1 := registers ∪ rar.2]> dropPoints]> fifos
      else fifos).
Proof.
  intros [Hk Hr] Hrar Hpd. constructor.
  - intros key. rewrite (take_S_r _ _ _ Hpd). setoid_rewrite elem_of_app. setoid_rewrite list_elem_of_singleton. cbn [fifoKey] in *. destruct (_inFifo pd) eqn:Hf.
    + cbn zeta. destruct (decide (_anchorAndDepth pd = key)) as [<-|Hne].
      * rewrite lookup_insert_eq. split; [intros _; exists pd; rewrite Hf; auto|intros _; by eexists].
      * rewrite lookup_insert_ne, Hk by done. split; [intros (pd' & ? & ?); exists pd'; auto|].
        intros (pd' & [?| ->] & Hk'); [by exists pd'|]. rewrite Hf in Hk'. congruence.
    + rewrite Hk. split; [intros (pd' & ? & ?); exists pd'; auto|]. intros (pd' & [?| ->] & Hk'); [by exists pd'|]. by rewrite Hf in Hk'.
  - intros key stage r.
    assert (HS : (exists i rar pd, (i < S k)%nat /\ flat !! i = Some rar /\ choice !! i = Some pd /\ fifoKey (Some pd) = Some key /\ rar.1.1 = stage /\ r ∈ rar.2) <->
      (r ∈ default ∅ (default ∅ (fifos !! key) !! stage)) \/ (fifoKey (Some pd) = Some key /\ rar.1.1 = stage /\ r ∈ rar.2)).
    { rewrite Hr. split.
      - intros (i & rar' & pd' & Hi & Hrar' & Hpd' & Hrest). destruct (decide (i = k)) as [->|Hne]; [right; rewrite Hrar in Hrar'; rewrite Hpd in Hpd'; by injection Hrar' as ->; injection Hpd' as ->|].
        left. exists i, rar', pd'. split; [lia|done].
      - intros [(i & rar' & pd' & Hi & Hrest)|Hrest]; [exists i, rar', pd'; split; [lia|done]|exists k, rar, pd; split; [lia|done]]. }
    rewrite HS. clear HS. cbn [fifoKey]. destruct (_inFifo pd) eqn:Hf; [|split; [by left|by intros [?|[? _]]]].
    cbn zeta. destruct (decide (_anchorAndDepth pd = key)) as [<-|Hne].
    + rewrite lookup_insert_eq. cbn [from_option id]. destruct (decide (rar.1.1 = stage)) as [<-|Hne].
      * rewrite lookup_insert_eq. cbn [from_option id]. rewrite elem_of_union. split; [intros [?|?]; [by left|by right]|intros [?|(_ & _ & ?)]; [by left|by right]].
      * rewrite lookup_insert_ne by done. split; [by left|intros [?|(_ & ? & _)]; done].
    + rewrite lookup_insert_ne by done. split; [by left|intros [?|([= ?] & _)]; done].
Qed.

Lemma collectFifos_eq : exists fifos, collectFifos flat descs p = Ok fifos /\ realises flat choice fifos.
Proof.
  unfold collectFifos. destruct (foldM_seq_inv (collectStep flat descs p) collect_inv (length flat) ∅) as (fifos & -> & [Hk Hr]).
  - constructor.
    + intros key. rewrite lookup_empty. split; [by intros [? ?]|]. intros (pd & Hpd & _). set_solver.
    + intros key stage r. rewrite lookup_empty. cbn [from_option id]. rewrite lookup_empty. split; [set_solver|]. intros (i & rar & pd & Hi & _). lia.
  - intros k fifos Hk Hinv. destruct (lookup_lt_is_Some_2 flat k Hk) as [rar Hrar]. destruct (lookup_lt_is_Some_2 choice k) as [pd Hpd]; [lia|].
    destruct (Hxs k pd Hpd) as (x & pdv & Hx & Hpdv & Hxr & Hxpd). unfold collectStep. rewrite (at_Some _ _ _ Hrar). cbn [mbind result_bind].
    destruct (proj2 Hp k (Some x)) as [-> Hget]; [by rewrite list_lookup_fmap, Hx|]. rewrite bool_decide_eq_true_2 by done. cbn [assert_ mbind result_bind].
    unfold selectedDesc. rewrite (at_Some _ _ _ Hpdv), (Hget x eq_refl). cbn [mbind result_bind]. rewrite assert_true by (apply Z.ltb_lt; lia). cbn [mbind result_bind].
    rewrite (at_Some _ _ _ Hxpd). cbn [mbind result_bind]. eexists; split; [reflexivity|]. by apply collect_insert.
  - exists fifos. split; [done|]. constructor.
    + intros key. by rewrite Hk, take_ge by lia.
    + intros key stage r. rewrite Hr. split; [intros (i & rar & pd & _ & H); by exists i, rar, pd|].
      intros (i & rar & pd & Hi & H). exists i, rar, pd. split; [by eapply lookup_lt_Some|done].
Qed.
End Collect.

(** ** The search *)

Lemma weight_mono_R R R' k : (R <= R')%nat -> (weight R k <= weight R' k)%nat.
Proof. intros H. induction k as [|k IH]; [done|]. cbn. apply le_n_S. apply Nat.mul_le_mono; done. Qed.

Lemma maxRange_mono rs rs' : Forall2 (fun r r' => r <= r') rs rs' -> (maxRange rs <= maxRange rs')%nat.
Proof. unfold maxRange. induction 1; cbn; lia. Qed.

Lemma maxRange_bound rs b : Forall (fun r => r <= b) rs -> (maxRange rs <= Z.to_nat b)%nat.
Proof. unfold maxRange. induction 1; cbn; lia. Qed.

Section Search.
Context (config : Config) (regToWidth : nat -> Z) (flat : list RangeAndRegisters) (Hio : input_ok config regToWidth flat).
Notation n := (length flat).

Lemma descs_eq : exists descs, mapM_ (propagationDesc config regToWidth) flat = Ok descs /\ Forall2 (choices_ok config regToWidth) flat descs.
Proof.
  apply mapM_exists. intros rar Hrar. destruct Hio as [Hck Hw Hr _ _]. destruct (propagationDesc_eq config regToWidth Hck Hw rar (Hr rar Hrar)) as (pdv & -> & Hpdv & Hl).
  eexists; split; [reflexivity|]. by exists pdv.
Qed.

Context (descs : list (list PropagationDesc)) (Hdescs : Forall2 (choices_ok config regToWidth) flat descs).
Notation ranges := ((fun pdv : list PropagationDesc => Z.of_nat (length pdv)) <$> descs).
Notation bounds := ((fun rar => mkBounds (freeLoadCost config regToWidth rar) (aloneCost config regToWidth rar)) <$> flat).
Notation planOf := (planOf descs).

Lemma bounds_eq : mapM_ (precomputedBound config regToWidth) flat = Ok bounds.
Proof. destruct Hio as [Hck Hw Hr _ _]. apply mapM_Ok. intros rar Hrar. by apply precomputedBound_eq, Hr. Qed.

Lemma callback_computes : computes ranges (totalCallback config regToWidth flat descs bounds) (planBound config regToWidth flat descs).
Proof.
  destruct Hio as [Hck Hw Hr Hc _]. intros p l Hl Hp. unfold totalCallback.
  rewrite (boundCallback_eq config regToWidth flat Hck Hw Hr Hc descs Hdescs bounds) with (l := l); [done| |done..].
  apply Forall2_fmap_r, Forall_Forall2_diag, Forall_true. done.
Qed.

Lemma choice_count rar : rar ∈ flat -> choiceBound config rar <= 2 ^ 50.
Proof.
  intros Hrar. destruct Hio as [Hck _ Hr _ _]. pose proof (rangeDepth_pos config regToWidth rar (Hr rar Hrar)). pose proof (ck_merge _ Hck). unfold choiceBound.
  assert ((2 * _fifoMergeDistance config + 1) * Z.max 0 (rangeDepth rar - 2) <= (2 * 2 ^ 16 + 1) * 2 ^ 32) by (apply Z.mul_le_mono_nonneg; lia). lia.
Qed.

Lemma ranges_bounds : Forall2 (fun r r' => r <= r') ranges (choiceBound config <$> flat).
Proof. apply Forall2_fmap_2, Forall2_flip. eapply Forall2_impl; [exact Hdescs|]. by intros rar pdv (others & _ & _ & H). Qed.

Lemma ranges_wf : flat <> [] -> ranges_ok ranges.
Proof.
  intros Hne. split.
  - intros Hnil. apply Hne. pose proof (length_ranges config regToWidth flat descs Hdescs) as H. rewrite Hnil in H. by destruct flat.
  - apply Forall_fmap, Forall_lookup. intros i pdv Hpdv. destruct (Forall2_lookup_r _ _ _ _ _ Hdescs Hpdv) as (rar & Hrar & others & -> & _ & Hb).
    pose proof (choice_count rar ltac:(by eapply list_elem_of_lookup_2)). cbn in *. lia.
Qed.

Lemma space_small : Z.of_nat (length ranges) * Z.of_nat (maxRange ranges) < size_max.
Proof.
  pose proof (maxRange_mono _ _ ranges_bounds). assert (Hb : (maxRange (choiceBound config <$> flat) <= Z.to_nat (2 ^ 50))%nat).
  { apply maxRange_bound, Forall_fmap, Forall_forall. intros rar Hrar. by apply choice_count. }
  rewrite (length_ranges config regToWidth flat descs Hdescs). destruct Hio as [_ _ _ _ Hn]. unfold size_max. nia.
Qed.

(** The plan of an assignment *)
Lemma assignment_plan xs : in_ranges ranges xs ->
  exists choice, planOf (Some <$> xs) = Some <$> choice /\ choice_ok config flat choice /\
    forall i pd, choice !! i = Some pd -> exists x pdv, xs !! i = Some x /\ descs !! i = Some pdv /\ 0 <= x < Z.of_nat (length pdv) /\ pdv !! Z.to_nat x = Some pd.
Proof.
  intros Hx. destruct (in_ranges_completion ranges xs Hx) as (Hwf & _). pose proof (length_pvec config regToWidth flat descs Hdescs _ Hwf) as Hl. rewrite length_fmap in Hl.
  assert (Hex : forall i x, xs !! i = Some x -> exists pdv rar pd, descs !! i = Some pdv /\ flat !! i = Some rar /\ 0 <= x < Z.of_nat (length pdv) /\ pdv !! Z.to_nat x = Some pd /\ choosable config rar pd).
  { intros i x Hxi. destruct (lookup_lt_is_Some_2 flat i) as [rar Hrar]; [rewrite <- Hl; by eapply lookup_lt_Some|].
    destruct (planOf_lookup config regToWidth flat descs Hdescs (Some <$> xs) i (Some x) rar Hwf) as (pdv & Hpdv & Hok & _ & Hpd); [by rewrite list_lookup_fmap, Hxi|done|].
    destruct (Hpd x eq_refl) as (? & pd & ? & Hin). exists pdv, rar, pd. do 4 (split; [done|]). by apply (choices_choosable config regToWidth rar pdv). }
  destruct (mapM_exists (fun p : nat * Z => of_option AssertionFailed (pdv ← descs !! p.1; pdv !! Z.to_nat p.2)) (fun p pd => (pdv ← descs !! p.1; pdv !! Z.to_nat p.2) = Some pd)
    (zip (seq 0 (length xs)) xs)) as (choice & _ & Hch).
  { intros [i x] Hix%elem_of_zip_seq. destruct (Hex i x Hix) as (pdv & _ & pd & Hpdv & _ & _ & Hpd & _). exists pd. cbn [fst snd]. rewrite Hpdv. cbn. by rewrite Hpd. }
  assert (Hlc : length choice = length xs) by (rewrite <- (Forall2_length _ _ _ Hch), length_zip_with, length_seq; lia).
  assert (Hlook : forall i x, xs !! i = Some x -> (pdv ← descs !! i; pdv !! Z.to_nat x) = choice !! i).
  { intros i x Hxi. assert (Hz : zip (seq 0 (length xs)) xs !! i = Some (i, x)).
    { rewrite lookup_zip_with, (proj2 (lookup_seq 0 (length xs) i i)), Hxi by (split; [done|by eapply lookup_lt_Some]). done. }
    destruct (Forall2_lookup_l _ _ _ _ _ Hch Hz) as (pd & -> & Hpd). done. }
  exists choice. split_and!.
  - apply list_eq. intros i. unfold PropagationBounds.planOf. rewrite list_lookup_imap, !list_lookup_fmap. destruct (xs !! i) as [x|] eqn:Hxi; cbn.
    + rewrite (Hlook i x Hxi). destruct (choice !! i) eqn:Hc; [done|]. apply lookup_ge_None in Hc. apply lookup_lt_Some in Hxi. lia.
    + apply lookup_ge_None in Hxi. by rewrite lookup_ge_None_2 by lia.
  - apply Forall2_same_length_lookup_2; [congruence|]. intros i rar pd Hrar Hpd. destruct (lookup_lt_is_Some_2 xs i) as [x Hxi]; [rewrite <- Hlc; by eapply lookup_lt_Some|].
    destruct (Hex i x Hxi) as (pdv & rar' & pd' & Hpdv & Hrar' & _ & Hpd' & Hre). rewrite <- (Hlook i x Hxi), Hpdv in Hpd. cbn in Hpd. congruence.
  - intros i pd Hpd. destruct (lookup_lt_is_Some_2 xs i) as [x Hxi]; [rewrite <- Hlc; by eapply lookup_lt_Some|].
    destruct (Hex i x Hxi) as (pdv & _ & pd' & Hpdv & _ & ? & Hpd' & _). rewrite <- (Hlook i x Hxi), Hpdv in Hpd. cbn in Hpd. exists x, pdv. by rewrite Hpd.
Qed.

(** No reachable plan is better than all the assignments of the search. *)
Lemma assignment_for choice : choice_ok config flat choice ->
  exists ys, in_ranges ranges ys /\ _lowerBound (planBound config regToWidth flat descs (Some <$> ys)) <= choiceCost config regToWidth flat choice.
Proof.
  intros Hch. destruct Hio as [Hck Hw Hr Hc _]. pose proof (Forall2_length _ _ _ Hch) as Hl. set (m := Some <$> choice).
  assert (Hm : plan_ok config flat m).
  { split; [by unfold m; rewrite length_fmap|]. intros i pd rar Hpd Hrar. apply list_lookup_fmap_Some in Hpd as (pd' & [= <-] & Hpd). by apply choosable_reachable, (Forall2_lookup_lr _ _ _ _ _ _ Hch Hrar Hpd). }
  set (worth := fun i => match flat !! i, choice !! i with
    | Some rar, Some pd => negb (_inFifo pd) || (registerCost config (rangeDepth rar - (_anchorAndDepth pd).2) (rangeWidth regToWidth rar) <? aloneCost config regToWidth rar)
    | _, _ => true end).
  assert (Hworth : forall i rar pd, flat !! i = Some rar -> choice !! i = Some pd -> worth i = true <-> worthwhile config regToWidth rar pd).
  { intros i rar pd Hrar Hpd. unfold worth, worthwhile. rewrite Hrar, Hpd, orb_true_iff, negb_true_iff, Z.ltb_lt. destruct (_inFifo pd); naive_solver. }
  set (m1 := prune m worth). assert (Hm1 : forall i, m1 !! i = (fun o => if worth i then o else None) <$> m !! i) by (intros i; unfold m1, prune; by rewrite list_lookup_imap).
  pose proof (pruned_cost config regToWidth flat Hck Hw m worth Hm) as Hcost1.
  set (m2 := completeAlone config regToWidth flat m1).
  assert (Hl1 : length m1 = n) by (unfold m1, prune, m; by rewrite length_imap, length_fmap).
  assert (Hok1 : plan_ok config flat m1).
  { split; [done|]. intros i pd rar Hpd. rewrite Hm1 in Hpd. destruct (m !! i) as [o|] eqn:Ho; [|done]. cbn in Hpd. destruct (worth i); [|done]. apply (proj2 Hm). congruence. }
  pose proof (completeAlone_cost config regToWidth flat Hck Hr m1 Hok1) as Hcost2.
  assert (Hall : forall i, (i < n)%nat -> exists pd, m2 !! i = Some (Some pd)).
  { intros i Hi. unfold m2. rewrite completeAlone_lookup. destruct (lookup_lt_is_Some_2 m1 i) as [o ->]; [lia|]. destruct (lookup_lt_is_Some_2 flat i Hi) as [rar ->]. destruct o as [pd|]; [by exists pd|by eexists]. }
  destruct (planOf_onto config regToWidth flat descs Hdescs m2) as (l & Hwf & Hpl); [unfold m2, completeAlone; by rewrite length_imap| |].
  { intros i o rar pdv Ho Hrar Hpdv pd ->. unfold m2 in Ho. rewrite completeAlone_lookup, Hm1 in Ho. unfold m in Ho. rewrite list_lookup_fmap in Ho. destruct (choice !! i) as [pd'|] eqn:Hpd'; [|done]. cbn in Ho.
    destruct (worth i) eqn:Hwi; [|rewrite Hrar in Ho; injection Ho as <-; by apply (alone_choice config regToWidth flat Hck Hw Hr Hc descs Hdescs i)]. injection Ho as <-.
    pose proof (Forall2_lookup_lr _ _ _ _ _ _ Hdescs Hrar Hpdv) as Hok. destruct (Forall2_lookup_lr _ _ _ _ _ _ Hch Hrar Hpd') as [->|[Hf Hre]].
    - destruct Hok as (others & -> & _). set_solver.
    - apply (choices_complete config regToWidth rar); [done..|]. by apply (Hworth i rar pd'). }
  fold m2 in Hcost2. rewrite <- Hpl in Hcost2, Hall.
  destruct (completion_in_ranges ranges l) as (ys & -> & Hys).
  { split; [done|]. split; [intros i x Hx; by apply lookup_replicate in Hx as [? _]|]. pose proof (length_pvec config regToWidth flat descs Hdescs l Hwf). split.
    - intros i Hi%elem_of_allParams. rewrite (length_ranges config regToWidth flat descs Hdescs) in Hi. destruct (Hall i Hi) as [pd Hpd]. destruct (lookup_lt_is_Some_2 flat i Hi) as [rar Hrar].
      destruct (planOf_inv config regToWidth flat descs Hdescs l i pd rar Hwf Hpd Hrar) as (_ & x & _ & _ & Hx & _). by exists x.
    - intros i Hi. rewrite elem_of_allParams, (length_ranges config regToWidth flat descs Hdescs) in Hi. by rewrite !lookup_ge_None_2 by (rewrite ?length_replicate, ?(length_ranges config regToWidth flat descs Hdescs); lia). }
  exists ys. split; [done|]. cbn [planBound _lowerBound]. rewrite (cost_complete config regToWidth flat _ (aloneCost config regToWidth) _ Hall).
  unfold choiceCost. fold m. rewrite (cost_complete config regToWidth flat (fun _ => 0) (aloneCost config regToWidth) m).
  - etransitivity; [exact Hcost2|]. apply Hcost1. intros i pd rar Hpd Hrar Hwi. apply list_lookup_fmap_Some in Hpd as (pd' & [= <-] & Hpd).
    intros Hw'. apply (Hworth i rar pd Hrar Hpd) in Hw'. congruence.
  - intros i Hi. unfold m. destruct (lookup_lt_is_Some_2 choice i) as [pd Hpd]; [lia|]. exists pd. by rewrite list_lookup_fmap, Hpd.
Qed.

End Search.

(** C15: the propagations of a basic block get FIFOs that realise a valid plan:
    no assertion of the two callbacks or of the search fails and no 64-bit sum
    wraps.  When the work lists are long enough, no plan that keeps to the merge
    distance costs less: neither the choices that are pruned because of their
    trailing registers, nor the decomposition along the interactions, lose the
    optimum. *)
Theorem OptimizePropagations_optimal config regToWidth connected_components articulation_points degree loopFuel fuel maxWorkListSize flat :
  input_ok config regToWidth flat ->
  (forall g, graph_ok g -> components_ok g (connected_components g)) ->
  (forall g v, graph_ok g -> v ∈ articulation_points g -> (v < num_vertices g)%nat) ->
  (weight (maxRange (choiceBound config <$> flat)) (length flat) <= fuel)%nat -> (2 * length flat <= loopFuel)%nat ->
  exists fifos choice,
    OptimizePropagations config regToWidth connected_components articulation_points degree loopFuel fuel maxWorkListSize flat = Ok fifos /\
    choice_ok config flat choice /\ realises flat choice fifos /\
    ((weight (maxRange (choiceBound config <$> flat)) (length flat) <= maxWorkListSize)%nat ->
     forall choice', choice_ok config flat choice' -> choiceCost config regToWidth flat choice <= choiceCost config regToWidth flat choice').
Proof.
  intros Hio Hcc Hap Hfuel Hlf. destruct (descs_eq config regToWidth flat Hio) as (descs & Heq & Hdescs).
  pose proof (length_ranges config regToWidth flat descs Hdescs) as Hlr. pose proof (Forall2_length _ _ _ Hdescs) as Hld.
  unfold OptimizePropagations. rewrite Heq. cbn [mbind result_bind]. rewrite (bounds_eq config regToWidth flat Hio). cbn [mbind result_bind].
  destruct (decide (flat = [])) as [->|Hne].
  { destruct descs; [|done]. exists ∅, []. cbn. split_and!; [done|constructor| |].
    - constructor; [intros key; rewrite lookup_empty; split; [by intros [? ?]|intros (? & ? & _); set_solver]|].
      intros key stage r. rewrite lookup_empty. cbn. split; [set_solver|]. by intros (? & ? & ? & ? & _).
    - intros _ choice' H. by inversion H. }
  pose proof (weight_mono_R _ _ (length flat) (maxRange_mono _ _ (ranges_bounds config regToWidth flat descs Hdescs))) as Hw.
  pose proof Hio as [Hck Hwd Hr Hc Hn].
  destruct (Sparse_result connected_components articulation_points degree _ _ _ (interactions descs) loopFuel fuel maxWorkListSize Hcc Hap
    (ranges_wf config regToWidth flat Hio descs Hdescs Hne) (planBound_contract config regToWidth flat Hck Hwd Hr Hc descs Hdescs)
    (callback_computes config regToWidth flat Hio descs Hdescs) (interactions_wf descs)) as (p & xs & Hs & Hp & Hx & Hbest); [rewrite Hlr; lia..|].
  rewrite Hs. cbn [mbind result_bind]. destruct (assignment_plan config regToWidth flat descs Hdescs xs Hx) as (choice & Hpl & Hch & Hxs).
  destruct (collectFifos_eq flat descs choice p xs Hp (Forall2_length _ _ _ Hch) Hxs) as (fifos & Hf & Hre).
  exists fifos, choice. do 3 (split; [done|]). intros Hmax choice' Hch'.
  destruct (assignment_for config regToWidth flat Hio descs Hdescs choice' Hch') as (ys & Hys & Hle). etransitivity; [|exact Hle].
  specialize (Hbest (planBound_separable config regToWidth flat descs Hdescs) ltac:(rewrite Hlr; lia) (space_small config regToWidth flat Hio descs Hdescs) ys Hys).
  cbn [planBound _lowerBound] in Hbest |- *. rewrite Hpl in Hbest. unfold choiceCost. rewrite (cost_complete config regToWidth flat _ (freeLoadCost config regToWidth)); [done|].
  intros i Hi. destruct (lookup_lt_is_Some_2 choice i) as [pd Hpd]; [rewrite <- (Forall2_length _ _ _ Hch); lia|]. exists pd. by rewrite list_lookup_fmap, Hpd.
Qed.

(** ** Two propagations that share a FIFO *)

Definition demoConfig : Config := mkConfig 4 4 1 2 1.
Definition demoFlat : list RangeAndRegisters := [((0, 4), {[0%nat]}); ((1, 5), {[1%nat]})].

Lemma demo_input : input_ok demoConfig (fun _ => 2) demoFlat.
Proof.
  constructor; [constructor; vm_compute; done|done| |vm_compute; done|vm_compute; lia].
  intros rar [->|[->|?%not_elem_of_nil]%elem_of_cons]%elem_of_cons; [constructor; vm_compute; done..|done].
Qed.

Lemma OptimizePropagations_optimal_witness :
  OptimizePropagations demoConfig (fun _ => 2) demoComponents (fun _ => []) (fun _ _ => 0%nat) 4 64 64 demoFlat = Ok {[(0, 4) := {[0 := {[0%nat]}; 1 := {[1%nat]}]}]} /\
  exists fifos choice,
    OptimizePropagations demoConfig (fun _ => 2) demoComponents (fun _ => []) (fun _ _ => 0%nat) 4 64 64 demoFlat = Ok fifos /\
    choice_ok demoConfig demoFlat choice /\ realises demoFlat choice fifos /\
    ((weight (maxRange (choiceBound demoConfig <$> demoFlat)) (length demoFlat) <= 64)%nat ->
     forall choice', choice_ok demoConfig demoFlat choice' -> choiceCost demoConfig (fun _ => 2) demoFlat choice <= choiceCost demoConfig (fun _ => 2) demoFlat choice').
Proof.
  split; [vm_compute; reflexivity|]. apply OptimizePropagations_optimal.
  - exact demo_input.
  - exact demoComponents_ok.
  - intros g v _ Hv. set_solver.
  - vm_compute. lia.
  - cbn. lia.
Defined.

End PropagationCorrect.
