(* ===== verification/Flow.v ===== *)
(** * Functions as graphs of basic blocks

    [ir.h]: the fields of [Operation], [BasicBlock] and [Function] that the
    analyses across basic blocks use; [ir.cpp]: [ForEachOperationForward],
    [ForEachOperationReverse]; [control_flow_graph.cpp]: [ControlFlowGraph] in
    its phase before pipelining; [data_flow_work_list.cpp].

    A [BasicBlock*] is a key of [_blocks], a [Function*] an index of
    [_functions].  A set of pointers is iterated in the order of the addresses,
    which the source does not fix: [firstBlock] stands for it. *)

From stdpp Require Import functions.
From S2P Require Import Prelude MachineInt Literals Ir Semantics.
Import MachineInt Containers Literals Ir.

Module Flow.

(** An operation with its fields for enqueue operations; [_operation] holds
    the others, [_isContextSaverCaller] is the test of [_flags._enqueue._type]. *)
Record FlowOperation : Type := mkFlowOperation {
  _operation : Operation;
  _getSuccessorBlock : option nat;
  _renamingTable : gmap nat nat;
  _reverseRenamingTable : gmap nat nat;
  _isContextSaverCaller : bool }.

Record FlowBlock : Type := mkFlowBlock {
  _startConditionOperations : list FlowOperation;
  _operations : list FlowOperation;
  _stages : list (list FlowOperation);
  _function : nat;
  _liveInReg : list nat;
  _returnValueReg : list nat;
  _forcedDeadInReg : list nat;
  _invocationInstanceRegisterIndex : option nat }.

Record FlowFunction : Type := mkFlowFunction { _basicBlocks : list nat; _start : option nat; _isAsync : bool }.

Record FlowProgram : Type := mkFlowProgram {
  _program : Program; _functions : list FlowFunction; _blocks : gmap nat FlowBlock; _afterCall : list nat }.

Definition blockAt (blocks : gmap nat FlowBlock) (b : nat) : result FlowBlock := of_option KeyNotFound (blocks !! b).

Definition IsFirstInFunction (functions : list FlowFunction) (b : nat) (bb : FlowBlock) : result bool :=
  f ← at_ functions (_function bb); Ok (bool_decide (_start f = Some b)).

Definition registerType (program : Program) (registerIndex : nat) : result RegisterType :=
  d ← at_ (_registerTable program) registerIndex; Ok (_type d).

Definition IsLocalRegister (program : Program) (reg : AccessedRegister) : result bool :=
  t ← registerType program (_registerIndex reg); Ok (bool_decide (Local = t)).

Definition CanRegisterTypeBeRenamed (registerType : RegisterType) : bool := _canBeRenamed (GetRegisterTableEntry registerType).

(** [AllocateRegister(&program, regDesc)] *)
Definition AllocateRegister_desc (program : Program) (regDesc : RegisterDescription) : Program * nat :=
  (mkProgram (_registerTable program ++ [regDesc]), length (_registerTable program)).

Definition isEnqueue (opcode : Opcode) : bool := match opcode with Enqueue _ => true | _ => false end.

(** ** Enumeration of the operations *)

Inductive OperationEnumerationMode : Type := Unscheduled | Scheduled.

Definition operationsOf (mode : OperationEnumerationMode) (bb : FlowBlock) : list FlowOperation :=
  (match mode with Unscheduled => _startConditionOperations bb ++ _operations bb | Scheduled => [] end) ++ concat (_stages bb).

(** A callback that may change the operation *)
Definition visitList {S} (callback : S -> FlowOperation -> result (S * FlowOperation)) (ops : list FlowOperation) (s : S)
    : result (S * list FlowOperation) :=
  foldM (fun st op => '(s, op) ← callback st.1 op; Ok (s, st.2 ++ [op])) ops (s, []).

Definition ForEachOperationForward {S} (callback : S -> FlowOperation -> result (S * FlowOperation))
    (mode : OperationEnumerationMode) (bb : FlowBlock) (s : S) : result (S * FlowBlock) :=
  '(s, startConditionOperations) ← (match mode with Unscheduled => visitList callback (_startConditionOperations bb) s | Scheduled => Ok (s, _startConditionOperations bb) end);
  '(s, operations) ← (match mode with Unscheduled => visitList callback (_operations bb) s | Scheduled => Ok (s, _operations bb) end);
  '(s, stages) ← foldM (fun st stage => '(s, stage) ← visitList callback stage st.1; Ok (s, st.2 ++ [stage])) (_stages bb) (s, []);
  Ok (s, mkFlowBlock startConditionOperations operations stages (_function bb) (_liveInReg bb) (_returnValueReg bb)
           (_forcedDeadInReg bb) (_invocationInstanceRegisterIndex bb)).

(** A callback that only reads the operation *)
Definition ForEachOperationReverse {S} (callback : S -> FlowOperation -> result S) (mode : OperationEnumerationMode) (bb : FlowBlock) (s : S)
    : result S :=
  foldM callback (reverse (operationsOf mode bb)) s.

(** ** Renaming tables *)

Definition OptionallyMapIndex (originalIndex : nat) (table : gmap nat nat) : nat := LookupWithDefault table originalIndex originalIndex.

Definition MapOriginalToRenamedRegisterIndex (op : FlowOperation) (originalIndex : nat) : result nat :=
  assert_ (isEnqueue (_opcode (_operation op)));; Ok (OptionallyMapIndex originalIndex (_renamingTable op)).

Definition MapRenamedToOriginalRegisterIndex (op : FlowOperation) (originalIndex : nat) : result nat :=
  assert_ (isEnqueue (_opcode (_operation op)));; Ok (OptionallyMapIndex originalIndex (_reverseRenamingTable op)).

(** ** The control flow graph *)

Record ControlFlowGraph : Type := mkControlFlowGraph { _successors : gmap nat (gset nat); _predecessors : gmap nat (gset nat) }.

Definition GetSuccessors (cfg : ControlFlowGraph) (b : nat) : gset nat := default ∅ (_successors cfg !! b).
Definition GetPredecessors (cfg : ControlFlowGraph) (b : nat) : gset nat := default ∅ (_predecessors cfg !! b).

(** [map[key].insert(value)] *)
Definition insertInto (m : gmap nat (gset nat)) (key value : nat) : gmap nat (gset nat) := <[key := {[value]} ∪ default ∅ (m !! key)]> m.

Section Graph.
Context (blocks : gmap nat FlowBlock) (functionIndex : nat).

Definition addEdge (b : nat) (cfg : ControlFlowGraph) (op : FlowOperation) : result ControlFlowGraph :=
  match _getSuccessorBlock op with
  | Some successor =>
      assert_ (isEnqueue (_opcode (_operation op)));;
      s ← blockAt blocks successor;
      Ok (if (_function s =? functionIndex)%nat
          then mkControlFlowGraph (insertInto (_successors cfg) b successor) (insertInto (_predecessors cfg) successor b)
          else cfg)
  | None => Ok cfg
  end.

Definition buildGraph (mode : OperationEnumerationMode) (basicBlocks : list nat) : result ControlFlowGraph :=
  foldM (fun cfg b => bb ← blockAt blocks b; foldM (addEdge b) (operationsOf mode bb) cfg) basicBlocks (mkControlFlowGraph ∅ ∅).

(** ** The work list *)

Definition AddBasicBlock (workingSet : gset nat) (b : nat) : result (gset nat) :=
  bb ← blockAt blocks b; assert_ (_function bb =? functionIndex)%nat;; Ok ({[b]} ∪ workingSet).

Definition AddPredecessors (cfg : ControlFlowGraph) (workingSet : gset nat) (b : nat) : result (gset nat) :=
  foldM AddBasicBlock (set_elements (GetPredecessors cfg b)) workingSet.

Definition AddSuccessors (cfg : ControlFlowGraph) (workingSet : gset nat) (b : nat) : result (gset nat) :=
  foldM AddBasicBlock (set_elements (GetSuccessors cfg b)) workingSet.

Definition DataFlowWorkList (basicBlocks : list nat) : gset nat := list_to_set basicBlocks.

Context (firstBlock : gset nat -> nat).

Definition Pop (workingSet : gset nat) : result (nat * gset nat) :=
  let b := firstBlock workingSet in
  bb ← blockAt blocks b; assert_ (_function bb =? functionIndex)%nat;; Ok (b, workingSet ∖ {[b]}).
End Graph.

(** ** Lemmas *)

Section Visit.
Context {S : Type} (callback : S -> FlowOperation -> result (S * FlowOperation)).

Lemma visitList_acc ops s acc :
  foldM (fun (st : S * list FlowOperation) op => '(s, op) ← callback st.1 op; Ok (s, st.2 ++ [op])) ops (s, acc)
  = ('(s, ops) ← visitList callback ops s; Ok (s, acc ++ ops)).
Proof.
  unfold visitList. revert s acc. induction ops as [|op ops IH]; intros s acc; cbn [foldM].
  - cbn. by rewrite app_nil_r.
  - cbn [fst snd]. destruct (callback s op) as [[s' op']|]; cbn [mbind result_bind]; [|done]. rewrite IH, (IH s' ([] ++ [op'])).
    destruct (foldM _ ops (s', [])) as [[s'' ops'']|]; cbn; [|done]. by rewrite <- app_assoc.
Qed.

Lemma visitList_app ops1 ops2 s :
  visitList callback (ops1 ++ ops2) s = ('(s, o1) ← visitList callback ops1 s; '(s, o2) ← visitList callback ops2 s; Ok (s, o1 ++ o2)).
Proof.
  unfold visitList at 1. rewrite foldM_app. change (foldM _ ops1 (s, [])) with (visitList callback ops1 s).
  destruct (visitList callback ops1 s) as [[s1 o1]|]; cbn [mbind result_bind]; [|done]. apply visitList_acc.
Qed.

Lemma visitList_cons op ops s :
  visitList callback (op :: ops) s = ('(s, op') ← callback s op; '(s, ops') ← visitList callback ops s; Ok (s, op' :: ops')).
Proof.
  change (op :: ops) with ([op] ++ ops). rewrite visitList_app.
  replace (visitList callback [op] s) with ('(s, op') ← callback s op; Ok (s, [op'])) by (unfold visitList; cbn; by destruct (callback s op) as [[? ?]|]).
  by destruct (callback s op) as [[s' op']|].
Qed.

(** The enumeration visits the operations in order and only changes them. *)
Lemma ForEachOperationForward_eq mode bb s s' ops' :
  visitList callback (operationsOf mode bb) s = Ok (s', ops') ->
  exists bb', ForEachOperationForward callback mode bb s = Ok (s', bb') /\ operationsOf mode bb' = ops' /\
    _function bb' = _function bb /\ _liveInReg bb' = _liveInReg bb /\ _returnValueReg bb' = _returnValueReg bb /\
    _forcedDeadInReg bb' = _forcedDeadInReg bb /\ _invocationInstanceRegisterIndex bb' = _invocationInstanceRegisterIndex bb /\
    (mode = Scheduled -> _startConditionOperations bb' = _startConditionOperations bb /\ _operations bb' = _operations bb).
Proof.
  assert (Hstages : forall stages s s' ops', visitList callback (concat stages) s = Ok (s', ops') ->
    exists stages', foldM (fun (st : S * list (list FlowOperation)) stage => '(s, stage) ← visitList callback stage st.1; Ok (s, st.2 ++ [stage])) stages (s, []) = Ok (s', stages') /\
      concat stages' = ops').
  { intros stages. assert (Hgen : forall s acc s' ops', visitList callback (concat stages) s = Ok (s', ops') ->
      exists stages', foldM (fun (st : S * list (list FlowOperation)) stage => '(s, stage) ← visitList callback stage st.1; Ok (s, st.2 ++ [stage])) stages (s, acc) = Ok (s', acc ++ stages') /\
      concat stages' = ops').
    { induction stages as [|stage stages IH]; intros s0 acc s1 ops1 H.
      - cbn in H. injection H as <- <-. exists []. by rewrite app_nil_r.
      - cbn [concat] in H. rewrite visitList_app in H. cbn [foldM fst snd]. destruct (visitList callback stage s0) as [[s2 o2]|]; [|done].
        cbn [mbind result_bind] in *. destruct (visitList callback (concat stages) s2) as [[s3 o3]|] eqn:H3; [|done]. injection H as <- <-.
        destruct (IH s2 (acc ++ [o2]) s3 o3 H3) as (st' & -> & <-). exists (o2 :: st'). by rewrite <- app_assoc. }
    intros s0 s1 ops1 H. by apply (Hgen s0 []). }
  intros H. unfold ForEachOperationForward, operationsOf in *. destruct mode.
  - rewrite <- app_assoc, visitList_app in H. destruct (visitList callback (_startConditionOperations bb) s) as [[s1 o1]|]; [|done]. cbn [mbind result_bind] in *.
    rewrite visitList_app in H. destruct (visitList callback (_operations bb) s1) as [[s2 o2]|]; [|done]. cbn [mbind result_bind] in *.
    destruct (visitList callback (concat (_stages bb)) s2) as [[s3 o3]|] eqn:H3; [|done]. cbn in H. injection H as <- <-.
    destruct (Hstages _ _ _ _ H3) as (st' & -> & <-). cbn. eexists; split; [reflexivity|]. cbn. by rewrite app_assoc.
  - cbn [app mbind result_bind] in *. destruct (Hstages _ _ _ _ H) as (st' & -> & <-). cbn. eexists; split; [reflexivity|]. done.
Qed.
End Visit.

End Flow.

(** * The execution of a basic block

    The reference against which the passes over basic blocks are proved.  A
    thread executes the operations of a block in order on its registers.  An
    operation with a value ([opValue]) writes that value; any other one, a load
    or a read of a FIFO for instance, writes results that the rest of the
    machine chooses.  Between two operations other threads can write the global
    registers.  The events of an execution record everything the rest of the
    machine sees: the operation, the values of its sources, its results, and at
    an enqueue operation the value of every original register. *)

Import MachineInt Containers Literals Ir Semantics Flow.

Module FlowSemantics.

Record event : Type := mkEvent {
  _evOpcode : Opcode; _evMask : Z; _evSources : list SourceOperand; _evResults : list Z;
  _evSuccessor : option nat; _evPassed : nat -> Z }.

Section Execution.
Context (program : Program).

(** A source operand whose register is replaced by its contents *)
Definition resolve (σ : nat -> Z) (o : SourceOperand) : SourceOperand :=
  match operandLiteral program σ o with Some l => SrcLiteral l | None => o end.

Definition isGlobal (r : nat) : bool := match _registerTable program !! r with Some d => bool_decide (_type d = Global) | None => false end.

(** What other threads do between two operations *)
Definition interfere (σ σ' : nat -> Z) : Prop := forall r, isGlobal r = false -> σ' r = σ r.

Definition writeOne (σ : nat -> Z) (dv : DestinationOperand * Z) : nat -> Z :=
  match dv.1 with DstRegister r => <[_registerIndex r := dv.2]> σ | DstFifo _ => σ end.

Definition write (dst : list DestinationOperand) (vs : list Z) (σ : nat -> Z) : nat -> Z := fold_left writeOne (zip dst vs) σ.

(** The results that an operation can have *)
Definition results_of (σ : nat -> Z) (op : Operation) (vs : list Z) : Prop :=
  length vs = length (_dst op) /\ forall v, opValue program σ op = Some v -> vs = [v].

Definition eventOf (σ : nat -> Z) (op : FlowOperation) (vs : list Z) : event :=
  mkEvent (_opcode (_operation op)) (_signExtendSourceMask (_operation op)) (resolve σ <$> _src (_operation op)) vs
    (_getSuccessorBlock op) (fun o => σ (OptionallyMapIndex o (_renamingTable op))).

Inductive exec : list FlowOperation -> (nat -> Z) -> list event -> (nat -> Z) -> Prop :=
| exec_nil σ : exec [] σ [] σ
| exec_cons op ops σ σ1 vs tr σ2 :
    interfere σ σ1 -> results_of σ1 (_operation op) vs ->
    exec ops (write (_dst (_operation op)) vs σ1) tr σ2 ->
    exec (op :: ops) σ (eventOf σ1 op vs :: tr) σ2.

End Execution.

(** ** The value of an operation depends on its resolved sources. *)

Lemma srcInt_resolve program program' σ σ' op op' i :
  _signExtendSourceMask op' = _signExtendSourceMask op ->
  operandLiteral program' σ' <$> _src op' = operandLiteral program σ <$> _src op -> srcInt program' σ' op' i = srcInt program σ op i.
Proof.
  intros Hm Hs. unfold srcInt, operandInt, signExtends. rewrite Hm. apply (f_equal (fun l => l !! i)) in Hs. rewrite !list_lookup_fmap in Hs.
  destruct (_src op' !! i) as [o'|], (_src op !! i) as [o|]; try done. cbn in Hs. injection Hs as ->. done.
Qed.

Lemma opValue_resolve program program' σ σ' op op' :
  _opcode op' = _opcode op -> _signExtendSourceMask op' = _signExtendSourceMask op ->
  operandLiteral program' σ' <$> _src op' = operandLiteral program σ <$> _src op -> dstWidth program' op' = dstWidth program op ->
  opValue program' σ' op' = opValue program σ op.
Proof.
  intros Ho Hm Hs Hd. unfold opValue. rewrite Hd. destruct (dstWidth program op) as [w|]; [|done].
  assert (Hi : forall i, srcInt program' σ' op' i = srcInt program σ op i) by (intros i; by apply srcInt_resolve).
  assert (Hl : length (_src op') = length (_src op)) by (apply (f_equal length) in Hs; by rewrite !length_fmap in Hs).
  assert (opInt program' σ' op' = opInt program σ op) as ->; [|done].
  unfold opInt. rewrite Ho. destruct (_opcode op); rewrite ?Hi; try done.
  - f_equal. unfold selectInt. by rewrite !Hi, Hl.
  - f_equal. unfold gatherInt. rewrite Hl. apply fold_left_ext. intros b p _. by rewrite Hi.
  - assert (Evaluate (srcInt program' σ' op') _lut = Evaluate (srcInt program σ op) _lut) as ->; [|done].
    unfold Evaluate. apply foldM_ext. intros b k _. destruct (at_ (_lutEntries _lut) k) as [e|]; [|done]. cbn [mbind result_bind].
    assert (EvaluateEntry (srcInt program' σ' op') e = EvaluateEntry (srcInt program σ op) e) as ->; [|done].
    unfold EvaluateEntry. f_equal. apply foldM_ext. intros c j _. destruct (at_ (_sourceIndices e) j); [|done]. cbn [mbind result_bind]. by rewrite Hi.
Qed.

Lemma resolve_literal program program' σ σ' o o' :
  operandLiteral program' σ' o' = operandLiteral program σ o -> (operandLiteral program σ o = None -> o' = o) -> resolve program' σ' o' = resolve program σ o.
Proof. unfold resolve. intros ->. destruct (operandLiteral program σ o); [done|]. auto. Qed.

Lemma write_nil_l vs σ : write [] vs σ = σ.
Proof. done. Qed.

Lemma write_cons d dst v vs σ : write (d :: dst) (v :: vs) σ = write dst vs (writeOne σ (d, v)).
Proof. done. Qed.

Lemma interfere_refl program σ : interfere program σ σ.
Proof. by intros r. Qed.

End FlowSemantics.
