(* ===== verification/Rename.v ===== *)
(** * Renaming of local registers

    [lower.cpp]: [Rename], which gives every write of a local register in a
    basic block a register of its own.  An enqueue operation keeps the table
    from original to renamed registers and its inverse. *)

From S2P Require Import Prelude MachineInt Literals Ir Flow.
Import MachineInt Containers Literals Ir Flow.

Module Rename.

Definition renameSource (renameTable : gmap nat nat) (srcOp : SourceOperand) : SourceOperand :=
  match srcOp with
  | SrcRegister r => SrcRegister (mkAccessedRegister (LookupWithDefault renameTable (_registerIndex r) (_registerIndex r)))
  | _ => srcOp
  end.

Definition renameDestination (st : Program * gmap nat nat) (destOp : DestinationOperand)
    : result (Program * gmap nat nat * DestinationOperand) :=
  let '(program, renameTable) := st in
  match destOp with
  | DstRegister reg =>
      regDesc ← at_ (_registerTable program) (_registerIndex reg);
      if CanRegisterTypeBeRenamed (_type regDesc) then
        let '(program, newRegisterIndex) := AllocateRegister_desc program regDesc in
        Ok (program, <[_registerIndex reg := newRegisterIndex]> renameTable, DstRegister (mkAccessedRegister newRegisterIndex))
      else
        assert_ (bool_decide (renameTable !! _registerIndex reg = None));;
        Ok (program, renameTable, destOp)
  | DstFifo _ => Ok (program, renameTable, destOp)
  end.

Definition renameDestinations (st : Program * gmap nat nat) (dst : list DestinationOperand)
    : result (Program * gmap nat nat * list DestinationOperand) :=
  foldM (fun acc destOp => '(st, destOp) ← renameDestination acc.1 destOp; Ok (st, acc.2 ++ [destOp])) dst (st, []).

(** The inverse of the renaming table *)
Definition reverseTable (renameTable : gmap nat nat) : result (gmap nat nat) :=
  foldM (fun reverseRenamingTable (p : nat * nat) => SafeInsert reverseRenamingTable p.2 p.1) (map_entries renameTable) ∅.

Definition renameOperation (st : Program * gmap nat nat) (op : FlowOperation) : result (Program * gmap nat nat * FlowOperation) :=
  '(renamingTable, reverseRenamingTable) ←
    (if isEnqueue (_opcode (_operation op)) then
       assert_ (bool_decide (_reverseRenamingTable op = ∅));;
       reverseRenamingTable ← reverseTable st.2;
       Ok (st.2, reverseRenamingTable)
     else Ok (_renamingTable op, _reverseRenamingTable op));
  '(st', dst) ← renameDestinations st (_dst (_operation op));
  let o := _operation op in
  Ok (st', mkFlowOperation (mkOperation (_opcode o) (_signExtendSourceMask o) (_locations o) (renameSource st.2 <$> _src o) dst)
             (_getSuccessorBlock op) renamingTable reverseRenamingTable (_isContextSaverCaller op)).

Definition Rename (program : Program) (basicBlock : FlowBlock) : result (Program * FlowBlock) :=
  '(st, basicBlock) ← ForEachOperationForward renameOperation Unscheduled basicBlock (program, ∅);
  Ok (st.1, basicBlock).

End Rename.
