(* ===== verification/RenameCorrect.v ===== *)
(** * Renaming preserves the executions of a basic block

    A renamed block and the original one have the same events, and after
    renaming every register that can be renamed is written once. *)

From stdpp Require Import functions.
From S2P Require Import Prelude MachineInt Literals Ir Semantics Run Flow Rename.
Import MachineInt Containers Literals Ir Semantics Run Flow FlowSemantics Rename.

Module RenameCorrect.

(** The registers of an operation exist, and its tables are still empty. *)
Record op_original (P : Program) (op : FlowOperation) : Prop := mk_op_original {
  oo_src : forall r, SrcRegister r ∈ _src (_operation op) -> (_registerIndex r < numRegisters P)%nat;
  oo_dst : forall r, DstRegister r ∈ _dst (_operation op) -> (_registerIndex r < numRegisters P)%nat;
  oo_table : _renamingTable op = ∅; oo_reverse : _reverseRenamingTable op = ∅ }.

(** The registers that an operation writes and that can be renamed *)
Definition renamable (P : Program) (d : DestinationOperand) : option nat :=
  match d with
  | DstRegister r => match _registerTable P !! _registerIndex r with Some desc => if CanRegisterTypeBeRenamed (_type desc) then Some (_registerIndex r) else None | None => None end
  | DstFifo _ => None
  end.

Definition writes (P : Program) (ops : list FlowOperation) : list nat := concat ((fun op => omap (renamable P) (_dst (_operation op))) <$> ops).

Section Sim.
Context (P : Program).
Notation N := (numRegisters P).

(** The table during renaming: it sends originals to fresh copies. *)
Record table_ok (pk : Program) (T : gmap nat nat) : Prop := mk_table_ok {
  to_extends : extends P pk;
  to_copy : forall o r, T !! o = Some r -> (N <= r)%nat /\
    exists d, _registerTable P !! o = Some d /\ _registerTable pk !! r = Some d /\ CanRegisterTypeBeRenamed (_type d) = true;
  to_inj : forall o1 o2 r, T !! o1 = Some r -> T !! o2 = Some r -> o1 = o2;
  to_fresh : forall r d, (N <= r)%nat -> _registerTable pk !! r = Some d -> CanRegisterTypeBeRenamed (_type d) = true }.

Definition sim (T : gmap nat nat) (σ σ' : nat -> Z) : Prop := forall o, (o < N)%nat -> σ' (OptionallyMapIndex o T) = σ o.

Lemma renamed_type t : CanRegisterTypeBeRenamed t = true -> t = Local.
Proof. by destruct t. Qed.

Lemma map_cases (T : gmap nat nat) o : (exists r, T !! o = Some r /\ OptionallyMapIndex o T = r) \/ (T !! o = None /\ OptionallyMapIndex o T = o).
Proof. unfold OptionallyMapIndex, LookupWithDefault. destruct (T !! o) as [r|]; [left; by exists r|by right]. Qed.

(** A copy has the description of its original. *)
Lemma copy_desc pk PF T o : table_ok pk T -> extends pk PF -> (o < N)%nat ->
  exists d, _registerTable P !! o = Some d /\ _registerTable PF !! OptionallyMapIndex o T = Some d.
Proof.
  intros [Hext Hc _ _] He Ho. destruct (map_cases T o) as [(r & HT & ->)|[HT ->]].
  - destruct (Hc o r HT) as (_ & d & Hd & Hr & _). exists d. split; [done|]. by eapply extends_lookup.
  - destruct (lookup_lt_is_Some_2 (_registerTable P) o Ho) as [d Hd]. exists d. split; [done|]. eapply extends_lookup; [exact He|]. by eapply extends_lookup.
Qed.

Lemma renameSource_literal pk PF T σ σ' o :
  table_ok pk T -> extends pk PF -> sim T σ σ' -> (forall r, o = SrcRegister r -> (_registerIndex r < N)%nat) ->
  operandLiteral PF σ' (renameSource T o) = operandLiteral P σ o /\ resolve PF σ' (renameSource T o) = resolve P σ o.
Proof.
  intros HT He Hs Ho. destruct o as [l|[r]| |]; try done. cbn [renameSource _registerIndex]. specialize (Ho _ eq_refl). cbn in Ho.
  change (LookupWithDefault T r r) with (OptionallyMapIndex r T). destruct (copy_desc pk PF T r HT He Ho) as (d & Hd & Hd').
  assert (Heq : operandLiteral PF σ' (SrcRegister (mkAccessedRegister (OptionallyMapIndex r T))) = operandLiteral P σ (SrcRegister (mkAccessedRegister r))).
  { cbn. rewrite Hd, Hd'. cbn. by rewrite Hs. }
  split; [done|]. apply resolve_literal; [done|]. cbn. by rewrite Hd.
Qed.

(** ** Destinations *)

Definition dst_rel (PF : Program) (d d' : DestinationOperand) : Prop :=
  match d, d' with
  | DstRegister r, DstRegister r' => exists desc, _registerTable P !! _registerIndex r = Some desc /\ _registerTable PF !! _registerIndex r' = Some desc
  | DstFifo f, DstFifo f' => f = f'
  | _, _ => False
  end.

Lemma renameDestination_eq pk T d :
  table_ok pk T -> (forall r, d = DstRegister r -> (_registerIndex r < N)%nat) ->
  exists pk' T' d', renameDestination (pk, T) d = Ok (pk', T', d') /\ table_ok pk' T' /\ extends pk pk' /\
    (forall PF, extends pk' PF -> dst_rel PF d d') /\
    (forall σ σ' v, sim T σ σ' -> sim T' (writeOne σ (d, v)) (writeOne σ' (d', v))) /\
    (forall PF, extends pk' PF -> omap (renamable PF) [d'] = seq (numRegisters pk) (numRegisters pk' - numRegisters pk)).
Proof.
  intros HT Hd. destruct d as [[o]|f]; [|by exists pk, T, (DstFifo f); rewrite Nat.sub_diag].
  specialize (Hd _ eq_refl). cbn in Hd. destruct (lookup_lt_is_Some_2 (_registerTable P) o Hd) as [desc Hdesc]. destruct HT as [Hext Hc Hinj Hfresh].
  assert (Hpk : _registerTable pk !! o = Some desc) by (by eapply extends_lookup). pose proof (extends_numRegisters _ _ Hext) as Hlen.
  unfold renameDestination. cbn [_registerIndex]. rewrite (at_Some _ _ _ Hpk). cbn [mbind result_bind].
  destruct (CanRegisterTypeBeRenamed (_type desc)) eqn:Hren; cbn [AllocateRegister_desc].
  - set (new := length (_registerTable pk)). set (pk' := mkProgram (_registerTable pk ++ [desc])).
    assert (Hx : extends pk pk') by (by exists [desc]). assert (Hnew : _registerTable pk' !! new = Some desc) by (by apply list_lookup_middle).
    assert (HTlt : forall o r, T !! o = Some r -> r <> new).
    { intros o' r Hr. destruct (Hc o' r Hr) as (_ & d' & _ & Hr' & _). apply lookup_lt_Some in Hr'. unfold new. lia. }
    exists pk', (<[o := new]> T), (DstRegister (mkAccessedRegister new)). split; [done|]. split; [|split; [done|split; [|split]]].
    + constructor.
      * by transitivity pk.
      * intros o' r Hr. apply lookup_insert_Some in Hr as [[<- <-]|[Hne Hr]].
        -- split; [exact Hlen|]. by exists desc.
        -- destruct (Hc o' r Hr) as (? & d' & ? & ? & ?). split; [done|]. exists d'. split_and!; try done. by eapply extends_lookup.
      * intros o1 o2 r H1 H2. apply lookup_insert_Some in H1 as [[<- <-]|[Hn1 H1]]; apply lookup_insert_Some in H2 as [[<- H2]|[Hn2 H2]]; try done.
        -- by apply HTlt in H2.
        -- subst r. by apply HTlt in H1.
        -- by eapply Hinj.
      * intros r d' Hr Hlook. cbn in Hlook. apply lookup_app_Some in Hlook as [Hlook|[Hge Hlook]]; [by eapply Hfresh|]. destruct (r - length (_registerTable pk))%nat; [|done]. by injection Hlook as <-.
    + intros PF He. exists desc. split; [done|]. by eapply extends_lookup.
    + intros σ σ' v Hs o' Ho'. cbn. destruct (decide (o' = o)) as [->|Hne].
      * unfold OptionallyMapIndex, LookupWithDefault. by rewrite lookup_insert_eq, !fn_lookup_insert.
      * unfold OptionallyMapIndex, LookupWithDefault. rewrite lookup_insert_ne by done. fold (LookupWithDefault T o' o'). fold (OptionallyMapIndex o' T).
        rewrite !fn_lookup_insert_ne; [by apply Hs|done|]. destruct (map_cases T o') as [(r & Hr & ->)|[_ ->]]; [by apply not_eq_sym, (HTlt o')|unfold new, numRegisters in *; lia].
    + intros PF He. cbn. rewrite (extends_lookup _ _ _ _ He Hnew), Hren. unfold numRegisters. cbn. rewrite length_app. cbn.
      replace (length (_registerTable pk) + 1 - length (_registerTable pk))%nat with 1%nat by lia. done.
  - assert (HoT : T !! o = None).
    { destruct (T !! o) as [r|] eqn:Hr; [|done]. destruct (Hc o r Hr) as (_ & d' & Hd' & _ & Hren'). rewrite Hdesc in Hd'. injection Hd' as <-. congruence. }
    rewrite bool_decide_eq_true_2 by done. cbn. exists pk, T, (DstRegister (mkAccessedRegister o)). split; [done|]. split; [done|]. split; [done|]. split; [|split].
    + intros PF He. exists desc. split; [done|]. by eapply extends_lookup.
    + intros σ σ' v Hs o' Ho'. cbn. destruct (map_cases T o') as [(r & Hr & Heq)|[Hr Heq]].
      * assert (o <> o') by (intros ->; congruence). destruct (Hc o' r Hr) as (Hge & _). rewrite Heq, !fn_lookup_insert_ne by (done || lia). rewrite <- Heq. by apply Hs.
      * rewrite Heq. destruct (decide (o = o')) as [<-|Hne]; [by rewrite !fn_lookup_insert|]. rewrite !fn_lookup_insert_ne by done. specialize (Hs o' Ho'). by rewrite Heq in Hs.
    + intros PF He. cbn. rewrite (extends_lookup _ _ _ _ He Hpk), Hren, Nat.sub_diag. done.
Qed.

Lemma renameDestinations_eq pk T dst :
  table_ok pk T -> (forall r, DstRegister r ∈ dst -> (_registerIndex r < N)%nat) ->
  exists pk' T' dst', renameDestinations (pk, T) dst = Ok (pk', T', dst') /\ table_ok pk' T' /\ extends pk pk' /\
    (forall PF, extends pk' PF -> Forall2 (dst_rel PF) dst dst') /\
    (forall σ σ' vs, length vs = length dst -> sim T σ σ' -> sim T' (write dst vs σ) (write dst' vs σ')) /\
    (forall PF, extends pk' PF -> omap (renamable PF) dst' = seq (numRegisters pk) (numRegisters pk' - numRegisters pk)).
Proof.
  intros HT Hd. assert (Hgen : forall acc, exists pk' T' dst',
    foldM (fun (acc : Program * gmap nat nat * list DestinationOperand) destOp => '(st, destOp) ← renameDestination acc.1 destOp; Ok (st, acc.2 ++ [destOp])) dst (pk, T, acc) = Ok (pk', T', acc ++ dst') /\
    table_ok pk' T' /\ extends pk pk' /\ (forall PF, extends pk' PF -> Forall2 (dst_rel PF) dst dst') /\
    (forall σ σ' vs, length vs = length dst -> sim T σ σ' -> sim T' (write dst vs σ) (write dst' vs σ')) /\
    (forall PF, extends pk' PF -> omap (renamable PF) dst' = seq (numRegisters pk) (numRegisters pk' - numRegisters pk))).
  2: { destruct (Hgen []) as (pk' & T' & dst' & H). by exists pk', T', dst'. }
  revert pk T HT Hd. induction dst as [|d dst IH]; intros pk T HT Hd acc.
  { exists pk, T, []. rewrite app_nil_r, Nat.sub_diag. do 3 (split; [done|]). split; [constructor|]. split; [|done]. intros σ σ' vs _. by destruct vs. }
  destruct (renameDestination_eq pk T d HT) as (p1 & T1 & d1 & Heq & HT1 & He1 & Hd1 & Hs1 & Hw1); [intros r ->; apply Hd; set_solver|].
  destruct (IH p1 T1 HT1 ltac:(set_solver) (acc ++ [d1])) as (p2 & T2 & dst2 & Heq2 & HT2 & He2 & Hd2 & Hs2 & Hw2).
  exists p2, T2, (d1 :: dst2). cbn [foldM fst snd]. rewrite Heq. cbn [mbind result_bind]. rewrite Heq2, <- app_assoc. split; [done|]. split; [done|].
  pose proof (extends_numRegisters _ _ He1). pose proof (extends_numRegisters _ _ He2). split; [by transitivity p1|]. split; [|split].
  - intros PF HPF. constructor; [apply Hd1; by transitivity p2|by apply Hd2].
  - intros σ σ' [|v vs] Hlen Hs; [done|]. rewrite !write_cons. apply Hs2; [by injection Hlen|]. by apply Hs1.
  - intros PF HPF. change (d1 :: dst2) with ([d1] ++ dst2). rewrite omap_app, Hw2, Hw1 by (done || by transitivity p2).
    replace (numRegisters p2 - numRegisters pk)%nat with ((numRegisters p1 - numRegisters pk) + (numRegisters p2 - numRegisters p1))%nat by lia.
    rewrite seq_app. do 2 f_equal. lia.
Qed.

(** The inverse table *)
Lemma reverseTable_eq pk T : table_ok pk T -> exists R, reverseTable T = Ok R /\ forall o r, R !! r = Some o <-> T !! o = Some r.
Proof.
  intros [_ _ Hinj _]. unfold reverseTable.
  assert (Hgen : forall (l : list (nat * nat)) (R : gmap nat nat), NoDup l.*1 -> (forall o r, (o, r) ∈ l -> T !! o = Some r) ->
    (forall o r, R !! r = Some o -> T !! o = Some r /\ o ∉ l.*1) ->
    exists R', foldM (fun (R : gmap nat nat) (p : nat * nat) => SafeInsert R p.2 p.1) l R = Ok R' /\ forall o r, R' !! r = Some o <-> R !! r = Some o \/ (o, r) ∈ l).
  { induction l as [|[o r] l IH]; intros R Hnd HT HR; cbn [foldM].
    - exists R. split; [done|]. set_solver.
    - cbn [fst snd]. apply NoDup_cons in Hnd as [Ho Hnd]. assert (Hor : T !! o = Some r) by (apply HT; set_solver).
      assert (HRr : SafeInsert R r o = Ok (<[r := o]> R)).
      { unfold SafeInsert. destruct (R !! r) as [o'|] eqn:HRr; [|done].
        destruct (HR o' r HRr) as [Ho' Hni]. exfalso. apply Hni. rewrite (Hinj o' o r Ho' Hor). set_solver. }
      rewrite HRr. cbn [mbind result_bind]. destruct (IH (<[r := o]> R)) as (R' & -> & HR'); [done|set_solver| |].
      + intros o1 r1 H1. apply lookup_insert_Some in H1 as [[<- <-]|[_ H1]]; [done|]. destruct (HR o1 r1 H1). set_solver.
      + exists R'. split; [done|]. intros o1 r1. rewrite HR', lookup_insert_Some, elem_of_cons. split.
        * intros [[[-> ->]|[? ?]]|?]; [right; by left|by left|right; by right].
        * intros [H1|[[= -> ->]|?]]; [left; right; split; [|done]|left; by left|by right].
          intros <-. destruct (HR o1 r H1) as [H1' Hni]. apply Hni. rewrite (Hinj o1 o r H1' Hor). set_solver. }
  destruct (Hgen (map_entries T) ∅) as (R & HR & HR').
  - apply NoDup_map_entries.
  - intros o r H. by apply elem_of_map_entries.
  - intros o r. by rewrite lookup_empty.
  - exists R. split; [exact HR|]. intros o r. rewrite HR', lookup_empty, elem_of_map_entries. split; [by intros [?|?]|by right].
Qed.

(** ** Operations *)

(** What the rest of the machine sees of two events *)
Definition event_rel (e e' : event) : Prop :=
  _evOpcode e' = _evOpcode e /\ _evMask e' = _evMask e /\ _evSources e' = _evSources e /\ _evResults e' = _evResults e /\
  _evSuccessor e' = _evSuccessor e /\
  (isEnqueue (_evOpcode e) = true -> forall o, (o < N)%nat -> _evPassed e' o = _evPassed e o).

(** An enqueue operation keeps the table and its inverse. *)
Definition tables_inverse (op : FlowOperation) : Prop :=
  isEnqueue (_opcode (_operation op)) = true -> forall o r, _reverseRenamingTable op !! r = Some o <-> _renamingTable op !! o = Some r.

Record renamed (pk : Program) (T : gmap nat nat) (pk' : Program) (T' : gmap nat nat) (op op' : FlowOperation) : Prop := mk_renamed {
  rn_table : table_ok pk' T';
  rn_extends : extends pk pk';
  rn_inverse : tables_inverse op';
  rn_dst_length : length (_dst (_operation op')) = length (_dst (_operation op));
  rn_writes : forall PF, extends pk' PF -> omap (renamable PF) (_dst (_operation op')) = seq (numRegisters pk) (numRegisters pk' - numRegisters pk);
  rn_step : forall PF σ σ' vs, extends pk' PF -> sim T σ σ' -> length vs = length (_dst (_operation op)) ->
    opValue PF σ' (_operation op') = opValue P σ (_operation op) /\ event_rel (eventOf P σ op vs) (eventOf PF σ' op' vs) /\
    sim T' (write (_dst (_operation op)) vs σ) (write (_dst (_operation op')) vs σ') }.

Lemma renameOperation_eq pk T op :
  table_ok pk T -> op_original P op -> exists pk' T' op', renameOperation (pk, T) op = Ok (pk', T', op') /\ renamed pk T pk' T' op op'.
Proof.
  intros HT [Hsrc Hdst Htab Hrev]. unfold renameOperation. destruct op as [o succ tab rev caller]. cbn [_operation _renamingTable _reverseRenamingTable] in *. subst tab rev.
  destruct (reverseTable_eq pk T HT) as (R & HR & Hinv). destruct (renameDestinations_eq pk T (_dst o) HT Hdst) as (p1 & T1 & dst1 & Heq & HT1 & He1 & Hrel & Hsim & Hw).
  set (tables := if isEnqueue (_opcode o) then (T, R) else (∅, ∅)).
  assert (Htables : (if isEnqueue (_opcode o) then assert_ (bool_decide ((∅ : gmap nat nat) = ∅));; reverseRenamingTable ← reverseTable T; Ok (T, reverseRenamingTable) else Ok (∅, ∅)) = Ok tables).
  { unfold tables. destruct (isEnqueue _); [|done]. rewrite bool_decide_eq_true_2 by done. cbn. by rewrite HR. }
  cbn [snd]. rewrite Htables. cbn [mbind result_bind]. destruct tables as [t1 t2] eqn:Ht. rewrite Heq. cbn [mbind result_bind].
  eexists _, _, _. split; [reflexivity|]. constructor; cbn [_operation _dst _renamingTable _reverseRenamingTable _opcode _getSuccessorBlock]; [done|done| | |done|].
  - unfold tables_inverse. cbn. intros Hen. unfold tables in Ht. rewrite Hen in Ht. by injection Ht as <- <-.
  - symmetry. by eapply (Forall2_length _ _ _ (Hrel p1 (reflexivity p1))).
  - intros PF σ σ' vs HPF Hs Hlen. assert (HeP : extends pk PF) by (by transitivity p1).
    assert (Hlit : operandLiteral PF σ' <$> (renameSource T <$> _src o) = operandLiteral P σ <$> _src o).
    { rewrite <- list_fmap_compose. apply list_fmap_ext. intros i x Hx. cbn. apply (renameSource_literal pk); [done..|]. intros r ->. apply Hsrc. by eapply list_elem_of_lookup_2. }
    split; [|split].
    + apply opValue_resolve; [done|done|exact Hlit|]. unfold dstWidth. cbn [_dst]. specialize (Hrel PF HPF). destruct Hrel as [|d d' ? ? Hd _]; [done|]. cbn.
      destruct d as [r|f], d' as [r'|f']; cbn in Hd; try done; [|by subst]. destruct Hd as (desc & Hd & Hd'). unfold DestinationOperand_Width, registerWidth. by rewrite (at_Some _ _ _ Hd), (at_Some _ _ _ Hd').
    + unfold event_rel, eventOf. cbn. split_and!; try done.
      * rewrite <- list_fmap_compose. apply list_fmap_ext. intros i x Hx. cbn. apply (renameSource_literal pk); [done..|]. intros r ->. apply Hsrc. by eapply list_elem_of_lookup_2.
      * intros Hen o' Ho'. unfold tables in Ht. rewrite Hen in Ht. injection Ht as <- <-. rewrite Hs by done. unfold OptionallyMapIndex, LookupWithDefault. by rewrite lookup_empty.
    + by apply Hsim.
Qed.

(** ** Executions *)

Inductive renamed_ops : Program -> gmap nat nat -> Program -> gmap nat nat -> list FlowOperation -> list FlowOperation -> Prop :=
| renamed_nil pk T : table_ok pk T -> renamed_ops pk T pk T [] []
| renamed_cons pk T p1 T1 p2 T2 op op' ops ops' :
    table_ok pk T -> renamed pk T p1 T1 op op' -> renamed_ops p1 T1 p2 T2 ops ops' -> renamed_ops pk T p2 T2 (op :: ops) (op' :: ops').

Lemma visit_renamed pk T ops :
  table_ok pk T -> Forall (op_original P) ops -> exists pk' T' ops', visitList renameOperation ops (pk, T) = Ok (pk', T', ops') /\ renamed_ops pk T pk' T' ops ops'.
Proof.
  intros HT Hops. revert pk T HT. induction Hops as [|op ops Hop _ IH]; intros pk T HT; [exists pk, T, []; split; [done|by constructor]|].
  destruct (renameOperation_eq pk T op HT Hop) as (p1 & T1 & op1 & Heq & Hr). destruct (IH p1 T1 (rn_table _ _ _ _ _ _ Hr)) as (p2 & T2 & ops2 & Heq2 & Hr2).
  exists p2, T2, (op1 :: ops2). rewrite visitList_cons, Heq. cbn [mbind result_bind]. rewrite Heq2. split; [done|]. by econstructor.
Qed.

Lemma renamed_ops_extends pk T pk' T' ops ops' : renamed_ops pk T pk' T' ops ops' -> extends pk pk' /\ table_ok pk' T' /\ Forall tables_inverse ops'.
Proof.
  induction 1 as [|pk T p1 T1 p2 T2 op op' ops ops' _ Hr _ (IH1 & IH2 & IH3)]; [done|]. split; [|split; [done|]].
  - transitivity p1; [by apply (rn_extends _ _ _ _ _ _ Hr)|done].
  - constructor; [by apply (rn_inverse _ _ _ _ _ _ Hr)|done].
Qed.

Lemma renamed_ops_writes pk T pk' T' ops ops' PF :
  renamed_ops pk T pk' T' ops ops' -> extends pk' PF -> writes PF ops' = seq (numRegisters pk) (numRegisters pk' - numRegisters pk).
Proof.
  intros H HPF. induction H as [pk T|pk T p1 T1 p2 T2 op op' ops ops' _ Hr Hrs IH]; [by rewrite Nat.sub_diag|].
  destruct (renamed_ops_extends _ _ _ _ _ _ Hrs) as [He _]. unfold writes in *. cbn. rewrite (rn_writes _ _ _ _ _ _ Hr) by (by transitivity p2). rewrite IH by done.
  pose proof (extends_numRegisters _ _ (rn_extends _ _ _ _ _ _ Hr)). pose proof (extends_numRegisters _ _ He).
  replace (numRegisters p2 - numRegisters pk)%nat with ((numRegisters p1 - numRegisters pk) + (numRegisters p2 - numRegisters p1))%nat by lia.
  rewrite seq_app. do 2 f_equal. lia.
Qed.

(** ** Other threads

    Global registers are not renamed, so both machines can be disturbed in the
    same way. *)

Section Machine.
Context (PF : Program) (TF : gmap nat nat) (HF : table_ok PF TF).

Lemma isGlobal_fresh r : (N <= r)%nat -> isGlobal PF r = false.
Proof.
  intros Hr. unfold isGlobal. destruct (_registerTable PF !! r) as [d|] eqn:Hd; [|done]. apply bool_decide_eq_false_2.
  rewrite (renamed_type _ (to_fresh _ _ HF r d Hr Hd)). done.
Qed.

Lemma isGlobal_old r : (r < N)%nat -> isGlobal PF r = isGlobal P r.
Proof.
  intros Hr. destruct (lookup_lt_is_Some_2 (_registerTable P) r Hr) as [d Hd]. unfold isGlobal. by rewrite Hd, (extends_lookup _ _ _ _ (to_extends _ _ HF) Hd).
Qed.

Lemma table_not_global pk T o r : table_ok pk T -> T !! o = Some r -> isGlobal P o = false /\ isGlobal PF r = false.
Proof.
  intros HT Hr. destruct (to_copy _ _ HT o r Hr) as (Hge & d & Hd & _ & Hren). split; [|by apply isGlobal_fresh]. unfold isGlobal. rewrite Hd. apply bool_decide_eq_false_2.
  by rewrite (renamed_type _ Hren).
Qed.

Lemma interfere_forward pk T σ σ' σ1 : table_ok pk T -> sim T σ σ' -> interfere P σ σ1 -> exists σ1', interfere PF σ' σ1' /\ sim T σ1 σ1'.
Proof.
  intros HT Hs Hi. exists (fun r => if isGlobal PF r then σ1 r else σ' r). split; [by intros r ->|]. intros o Ho. specialize (Hs o Ho).
  destruct (map_cases T o) as [(r & Hr & Heq)|[Hr Heq]]; rewrite Heq in *.
  - destruct (table_not_global pk T o r HT Hr) as [Hg ->]. rewrite Hs. symmetry. by apply Hi.
  - rewrite isGlobal_old by done. destruct (isGlobal P o) eqn:Hg; [done|]. rewrite Hs. symmetry. by apply Hi.
Qed.

Lemma interfere_backward pk T σ σ' σ1' : table_ok pk T -> sim T σ σ' -> interfere PF σ' σ1' -> exists σ1, interfere P σ σ1 /\ sim T σ1 σ1'.
Proof.
  intros HT Hs Hi. exists (fun r => if isGlobal P r then σ1' r else σ r). split; [by intros r ->|]. intros o Ho. specialize (Hs o Ho).
  destruct (map_cases T o) as [(r & Hr & Heq)|[Hr Heq]]; rewrite Heq in *.
  - destruct (table_not_global pk T o r HT Hr) as [-> Hg]. rewrite <- Hs. by apply Hi.
  - destruct (isGlobal P o) eqn:Hg; [done|]. rewrite <- Hs. apply Hi. by rewrite isGlobal_old.
Qed.

Lemma exec_forward pk T pk' T' ops ops' σ σ' tr σe :
  renamed_ops pk T pk' T' ops ops' -> extends pk' PF -> sim T σ σ' -> exec P ops σ tr σe ->
  exists tr' σe', exec PF ops' σ' tr' σe' /\ Forall2 event_rel tr tr' /\ sim T' σe σe'.
Proof.
  intros Hr HPF. revert σ σ' tr. induction Hr as [pk T HT|pk T p1 T1 p2 T2 op op' ops ops' HT Hop Hrs IH]; intros σ σ' tr Hs Hex; inversion Hex; subst.
  - exists [], σ'. by repeat constructor.
  - destruct (interfere_forward pk T σ σ' σ1 HT Hs) as (σ1' & Hi' & Hs1); [done|]. destruct (renamed_ops_extends _ _ _ _ _ _ Hrs) as [He _].
    match goal with H : results_of _ _ _ _ |- _ => destruct H as [Hlen Hval] end.
    destruct (rn_step _ _ _ _ _ _ Hop PF σ1 σ1' vs ltac:(by transitivity p2) Hs1 Hlen) as (Hv & Hev & Hs2).
    edestruct IH as (tr' & σe' & Hex' & Htr & Hse); [done|exact Hs2|eassumption|]. exists (eventOf PF σ1' op' vs :: tr'), σe'.
    split; [|split; [by constructor|done]]. econstructor; [exact Hi'| |exact Hex']. split; [by rewrite (rn_dst_length _ _ _ _ _ _ Hop)|]. by rewrite Hv.
Qed.

Lemma exec_backward pk T pk' T' ops ops' σ σ' tr' σe' :
  renamed_ops pk T pk' T' ops ops' -> extends pk' PF -> sim T σ σ' -> exec PF ops' σ' tr' σe' ->
  exists tr σe, exec P ops σ tr σe /\ Forall2 event_rel tr tr' /\ sim T' σe σe'.
Proof.
  intros Hr HPF. revert σ σ' tr'. induction Hr as [pk T HT|pk T p1 T1 p2 T2 op op' ops ops' HT Hop Hrs IH]; intros σ σ' tr' Hs Hex; inversion Hex; subst.
  - exists [], σ. by repeat constructor.
  - destruct (interfere_backward pk T σ σ' σ1 HT Hs) as (σ1' & Hi' & Hs1); [done|]. destruct (renamed_ops_extends _ _ _ _ _ _ Hrs) as [He _].
    match goal with H : results_of _ _ _ _ |- _ => destruct H as [Hlen Hval] end. rewrite (rn_dst_length _ _ _ _ _ _ Hop) in Hlen.
    destruct (rn_step _ _ _ _ _ _ Hop PF σ1' σ1 vs ltac:(by transitivity p2) Hs1 Hlen) as (Hv & Hev & Hs2).
    edestruct IH as (tr1 & σe & Hex' & Htr & Hse); [done|exact Hs2|eassumption|]. exists (eventOf P σ1' op vs :: tr1), σe.
    split; [|split; [by constructor|done]]. econstructor; [exact Hi'| |exact Hex']. split; [done|]. by rewrite <- Hv.
Qed.
End Machine.

End Sim.

Lemma sim_empty P σ : sim P ∅ σ σ.
Proof. intros o _. unfold OptionallyMapIndex, LookupWithDefault. by rewrite lookup_empty. Qed.

Lemma table_ok_empty P : table_ok P P ∅.
Proof. constructor; [done|by intros|by intros|]. intros r d Hr Hd. apply lookup_lt_Some in Hd. unfold numRegisters in Hr. lia. Qed.

(** C8: renaming a basic block succeeds, copies the description of a register
    for each write of it, and preserves every execution: from the same registers
    the block before and the block after can do the same, and see the same at
    every operation.  What an enqueue operation passes for an original register
    is the contents of its last copy, and the two tables are inverse. *)
Theorem Rename_correct program bb :
  Forall (op_original program) (operationsOf Unscheduled bb) ->
  exists program' bb' T, Rename program bb = Ok (program', bb') /\ extends program program' /\
    Forall tables_inverse (operationsOf Unscheduled bb') /\
    (forall σ tr σe, exec program (operationsOf Unscheduled bb) σ tr σe ->
       exists tr' σe', exec program' (operationsOf Unscheduled bb') σ tr' σe' /\ Forall2 (event_rel program) tr tr' /\ sim program T σe σe') /\
    (forall σ tr' σe', exec program' (operationsOf Unscheduled bb') σ tr' σe' ->
       exists tr σe, exec program (operationsOf Unscheduled bb) σ tr σe /\ Forall2 (event_rel program) tr tr' /\ sim program T σe σe').
Proof.
  intros Hops. destruct (visit_renamed program program ∅ _ (table_ok_empty program) Hops) as (p' & T & ops' & Hv & Hr).
  destruct (ForEachOperationForward_eq _ _ _ _ _ _ Hv) as (bb' & Heq & Hbb & _). destruct (renamed_ops_extends _ _ _ _ _ _ _ Hr) as (He & HT & Hinv).
  exists p', bb', T. unfold Rename. rewrite Heq, Hbb. split; [done|]. split; [done|]. split; [done|]. split.
  - intros σ tr σe Hex. eapply (exec_forward program p' T HT); [exact Hr|done|apply sim_empty|done].
  - intros σ tr' σe' Hex. eapply (exec_backward program p' T HT); [exact Hr|done|apply sim_empty|done].
Qed.

(** C36: after renaming the registers that can be renamed are in single-assignment
    form: the block writes each of the new registers exactly once, in the order
    of their indices, and none of the old ones. *)
Theorem Rename_single_assignment program bb :
  Forall (op_original program) (operationsOf Unscheduled bb) ->
  exists program' bb', Rename program bb = Ok (program', bb') /\
    writes program' (operationsOf Unscheduled bb') = seq (numRegisters program) (numRegisters program' - numRegisters program).
Proof.
  intros Hops. destruct (visit_renamed program program ∅ _ (table_ok_empty program) Hops) as (p' & T & ops' & Hv & Hr).
  destruct (ForEachOperationForward_eq _ _ _ _ _ _ Hv) as (bb' & Heq & Hbb & _). exists p', bb'. unfold Rename. rewrite Heq, Hbb. split; [done|].
  eapply (renamed_ops_writes program program ∅ p' T); [exact Hr|done].
Qed.

(** ** The example of the source *)

Definition demoProgram : Program := mkProgram (replicate 2 (mkRegisterDescription 8 Local "r"%string)).
Definition demoMove (dst : nat) (value : Z) : FlowOperation :=
  mkFlowOperation (mkOperation Mov 0 ∅ [SrcLiteral (mkLiteral value 8)] [DstRegister (mkAccessedRegister dst)]) None ∅ ∅ false.
Definition demoUse (opcode : Opcode) (src : list nat) (successor : option nat) : FlowOperation :=
  mkFlowOperation (mkOperation opcode 0 ∅ ((fun r => SrcRegister (mkAccessedRegister r)) <$> src) []) successor ∅ ∅ false.
Definition demoBlock : FlowBlock :=
  mkFlowBlock [] [demoMove 0 3; demoMove 1 8; demoUse (Print []) [0%nat] None; demoMove 0 7; demoUse (Enqueue false) [] (Some 1%nat)] [] 0 [] [] [] None.

Lemma demo_original : Forall (op_original demoProgram) (operationsOf Unscheduled demoBlock).
Proof. unfold operationsOf, demoBlock. cbn. repeat apply Forall_cons_2; try apply Forall_nil_2; constructor; cbn; try done; intros [r] H; repeat (apply elem_of_cons in H as [H|H]; [first [discriminate|injection H as ->; cbn; lia]|]); by apply not_elem_of_nil in H. Qed.

Lemma Rename_correct_witness :
  (exists p', (r ← Rename demoProgram demoBlock; Ok r.2) = Ok p' /\ _renamingTable <$> (operationsOf Unscheduled p' !! 4%nat) = Some {[0%nat := 4%nat; 1%nat := 3%nat]}) /\
  exists program' bb' T, Rename demoProgram demoBlock = Ok (program', bb') /\ extends demoProgram program' /\
    Forall tables_inverse (operationsOf Unscheduled bb') /\
    (forall σ tr σe, exec demoProgram (operationsOf Unscheduled demoBlock) σ tr σe ->
       exists tr' σe', exec program' (operationsOf Unscheduled bb') σ tr' σe' /\ Forall2 (event_rel demoProgram) tr tr' /\ sim demoProgram T σe σe') /\
    (forall σ tr' σe', exec program' (operationsOf Unscheduled bb') σ tr' σe' ->
       exists tr σe, exec demoProgram (operationsOf Unscheduled demoBlock) σ tr σe /\ Forall2 (event_rel demoProgram) tr tr' /\ sim demoProgram T σe σe').
Proof. split; [eexists; split; vm_compute; reflexivity|]. exact (Rename_correct demoProgram demoBlock demo_original). Defined.

Lemma Rename_single_assignment_witness :
  exists program' bb', Rename demoProgram demoBlock = Ok (program', bb') /\
    writes program' (operationsOf Unscheduled bb') = seq (numRegisters demoProgram) (numRegisters program' - numRegisters demoProgram).
Proof. exact (Rename_single_assignment demoProgram demoBlock demo_original). Defined.

End RenameCorrect.
