(* ===== verification/Liveness.v ===== *)
(** * Live registers

    [lower.cpp]: [GetLiveInToSuccessor], [ComputeLiveRegistersBeforeStage] and
    both [ComputeLiveInMap].

    [liveInMap[block]] of the source makes an empty entry when there is none;
    here an absent entry stands for the empty set. *)

From S2P Require Import Prelude MachineInt Literals Ir Flow.
Import MachineInt Containers Literals Ir Flow.

Module Liveness.

Definition liveIn (liveInMap : gmap nat (gset nat)) (b : nat) : gset nat := default ∅ (liveInMap !! b).

Section Liveness.
Context (program : Program) (functions : list FlowFunction) (blocks : gmap nat FlowBlock) (returnSites : gset nat).

Definition IsAsyncCallEntryPoint (b : nat) (basicBlock : FlowBlock) : result bool :=
  isFirst ← IsFirstInFunction functions b basicBlock;
  if isFirst : bool then f ← at_ functions (_function basicBlock); Ok (_isAsync f) else Ok false.

Definition insertMapped (op : FlowOperation) (live : gset nat) (registerIndex : nat) : result (gset nat) :=
  renamed ← MapOriginalToRenamedRegisterIndex op registerIndex; Ok ({[renamed]} ∪ live).

Definition eraseMapped (op : FlowOperation) (live : gset nat) (registerIndex : nat) : result (gset nat) :=
  renamed ← MapOriginalToRenamedRegisterIndex op registerIndex; Ok (live ∖ {[renamed]}).

(** [function] is that of the block with the operation. *)
Definition GetLiveInToSuccessor (op : FlowOperation) (function : nat) (liveInMap : gmap nat (gset nat)) (liveInToSuccessor : gset nat)
    : result (gset nat) :=
  successor ← of_option AssertionFailed (_getSuccessorBlock op);
  block ← blockAt blocks successor;
  isAsync ← IsAsyncCallEntryPoint successor block;
  live ← (if isAsync : bool then Ok liveInToSuccessor
          else
            live ← foldM (insertMapped op) (set_elements (liveIn liveInMap successor)) liveInToSuccessor;
            live ← foldM (insertMapped op) (_liveInReg block) live;
            live ← foldM (eraseMapped op) (_forcedDeadInReg block) live;
            match _isContextSaverCaller op, _invocationInstanceRegisterIndex block with
            | true, Some registerIndex => eraseMapped op live registerIndex
            | _, _ => Ok live
            end);
  if bool_decide (successor ∈ returnSites) && (function =? _function block)%nat then foldM (eraseMapped op) (_returnValueReg block) live
  else Ok live.

Definition eraseDestination (live : gset nat) (destOp : DestinationOperand) : result (gset nat) :=
  match destOp with
  | DstRegister reg => isLocal ← IsLocalRegister program reg; Ok (if isLocal : bool then live ∖ {[_registerIndex reg]} else live)
  | DstFifo _ => Ok live
  end.

Definition insertSource (live : gset nat) (sourceOperand : SourceOperand) : result (gset nat) :=
  match sourceOperand with
  | SrcRegister reg => isLocal ← IsLocalRegister program reg; Ok (if isLocal : bool then {[_registerIndex reg]} ∪ live else live)
  | _ => Ok live
  end.

(** The live registers before an operation *)
Definition liveBeforeOperation (function : nat) (liveInMap : gmap nat (gset nat)) (live : gset nat) (op : FlowOperation) : result (gset nat) :=
  live ← foldM eraseDestination (_dst (_operation op)) live;
  live ← foldM insertSource (_src (_operation op)) live;
  match _getSuccessorBlock op with
  | Some _ => GetLiveInToSuccessor op function liveInMap live
  | None => Ok live
  end.

Definition ComputeLiveRegistersBeforeStage (function : nat) (liveInMap : gmap nat (gset nat)) (stage : list FlowOperation) (liveAfter : gset nat)
    : result (gset nat) :=
  foldM (liveBeforeOperation function liveInMap) (reverse stage) liveAfter.

Section Loop.
Context (functionIndex : nat) (cfg : ControlFlowGraph) (firstBlock : gset nat -> nat) (mode : OperationEnumerationMode).

(** One block of the work list *)
Definition liveBlock (workList : gset nat) (liveInMap : gmap nat (gset nat)) : result (gset nat * gmap nat (gset nat)) :=
  '(b, workList) ← Pop blocks functionIndex firstBlock workList;
  basicBlock ← blockAt blocks b;
  liveRegisters ← ForEachOperationReverse (liveBeforeOperation (_function basicBlock) liveInMap) mode basicBlock ∅;
  if bool_decide (liveRegisters = liveIn liveInMap b) then Ok (workList, liveInMap)
  else workList ← AddPredecessors blocks functionIndex cfg workList b; Ok (workList, <[b := liveRegisters]> liveInMap).

Fixpoint liveLoop (fuel : nat) (workList : gset nat) (liveInMap : gmap nat (gset nat)) : result (gmap nat (gset nat)) :=
  if bool_decide (workList = ∅) then Ok liveInMap
  else match fuel with
       | O => Err OutOfFuel
       | S fuel => '(workList, liveInMap) ← liveBlock workList liveInMap; liveLoop fuel workList liveInMap
       end.

Definition ComputeLiveInMap (fuel : nat) (basicBlocks : list nat) (liveInMap : gmap nat (gset nat)) : result (gmap nat (gset nat)) :=
  liveLoop fuel (DataFlowWorkList basicBlocks) liveInMap.
End Loop.
End Liveness.

(** All the functions of the program, one after another *)
Definition ComputeLiveInMap_program (firstBlock : gset nat -> nat) (fuel : nat) (p : FlowProgram) : result (gmap nat (gset nat) * gset nat) :=
  let returnSites := list_to_set (_afterCall p) in
  liveInMap ← foldM (fun liveInMap i =>
      function ← at_ (_functions p) i;
      controlFlowGraph ← buildGraph (_blocks p) i Unscheduled (_basicBlocks function);
      ComputeLiveInMap (_program p) (_functions p) (_blocks p) returnSites i controlFlowGraph firstBlock Unscheduled fuel (_basicBlocks function) liveInMap)
    (seq 0 (length (_functions p))) ∅;
  Ok (liveInMap, returnSites).

End Liveness.
