(* ===== verification/LivenessFacts.v ===== *)
(** * The transfer functions of the liveness analysis

    What [liveBeforeOperation] computes, as operations on sets, and the paths
    along which a register is live. *)

From S2P Require Import Prelude MachineInt Literals Ir Run Flow Liveness.
Import MachineInt Containers Literals Ir Run Flow Liveness.

Module LivenessFacts.

Lemma foldM_inserts {A} (f : gset nat -> A -> result (gset nat)) (g : A -> gset nat) l X :
  (forall X a, a ∈ l -> f X a = Ok (g a ∪ X)) -> foldM f l X = Ok (⋃ (g <$> l) ∪ X).
Proof.
  revert X; induction l as [|a l IH]; intros X H; cbn; [f_equal; set_solver|]. rewrite H by set_solver. cbn. rewrite IH by set_solver. f_equal. set_solver.
Qed.

Lemma foldM_erases {A} (f : gset nat -> A -> result (gset nat)) (g : A -> gset nat) l X :
  (forall X a, a ∈ l -> f X a = Ok (X ∖ g a)) -> foldM f l X = Ok (X ∖ ⋃ (g <$> l)).
Proof.
  revert X; induction l as [|a l IH]; intros X H; cbn; [f_equal; set_solver|]. rewrite H by set_solver. cbn. rewrite IH by set_solver. f_equal.
  apply set_eq. intros x. rewrite !elem_of_difference, elem_of_union. tauto.
Qed.

Section Transfer.
Context (program : Program) (functions : list FlowFunction) (blocks : gmap nat FlowBlock) (returnSites : gset nat).
Notation N := (numRegisters program).

Definition isLocal (r : nat) : bool := match _registerTable program !! r with Some d => bool_decide (Local = _type d) | None => false end.

Definition destination (d : DestinationOperand) : gset nat :=
  match d with DstRegister r => if isLocal (_registerIndex r) then {[_registerIndex r]} else ∅ | DstFifo _ => ∅ end.
Definition source (o : SourceOperand) : gset nat :=
  match o with SrcRegister r => if isLocal (_registerIndex r) then {[_registerIndex r]} else ∅ | _ => ∅ end.

Definition defs (op : FlowOperation) : gset nat := ⋃ (destination <$> _dst (_operation op)).
Definition uses (op : FlowOperation) : gset nat := ⋃ (source <$> _src (_operation op)).

(** The registers of this block that pass the registers [l] of the successor *)
Definition passed (op : FlowOperation) (l : list nat) : gset nat := list_to_set ((fun r => OptionallyMapIndex r (_renamingTable op)) <$> l).

Definition isAsync (s : nat) (block : FlowBlock) : bool :=
  match functions !! _function block with Some f => bool_decide (_start f = Some s) && _isAsync f | None => false end.

(** Registers that a successor takes from elsewhere *)
Definition notPassed (op : FlowOperation) (function s : nat) (block : FlowBlock) : gset nat :=
  (if isAsync s block then ∅
   else passed op (_forcedDeadInReg block) ∪
        match _isContextSaverCaller op, _invocationInstanceRegisterIndex block with true, Some r => passed op [r] | _, _ => ∅ end) ∪
  (if bool_decide (s ∈ returnSites) && (function =? _function block)%nat then passed op (_returnValueReg block) else ∅).

Definition fromSuccessor (op : FlowOperation) (s : nat) (block : FlowBlock) (L : gset nat) : gset nat :=
  if isAsync s block then ∅ else passed op (set_elements L) ∪ passed op (_liveInReg block).

Definition transfer (function : nat) (m : gmap nat (gset nat)) (X : gset nat) (op : FlowOperation) : gset nat :=
  let X := uses op ∪ X ∖ defs op in
  match _getSuccessorBlock op with
  | Some s => match blocks !! s with Some block => (fromSuccessor op s block (liveIn m s) ∪ X) ∖ notPassed op function s block | None => X end
  | None => X
  end.

(** What an operation must satisfy *)
Record op_ok (op : FlowOperation) : Prop := mk_op_ok {
  ok_src : forall r, SrcRegister r ∈ _src (_operation op) -> (_registerIndex r < N)%nat;
  ok_dst : forall r, DstRegister r ∈ _dst (_operation op) -> (_registerIndex r < N)%nat;
  ok_table : forall o r, _renamingTable op !! o = Some r -> (r < N)%nat;
  ok_successor : forall s, _getSuccessorBlock op = Some s -> isEnqueue (_opcode (_operation op)) = true /\
    exists block f, blocks !! s = Some block /\ functions !! _function block = Some f /\
      forall r, r ∈ _liveInReg block -> (r < N)%nat }.

Lemma IsLocalRegister_eq r : (_registerIndex r < N)%nat -> IsLocalRegister program r = Ok (isLocal (_registerIndex r)).
Proof.
  intros Hr. destruct (lookup_lt_is_Some_2 _ _ Hr) as [d Hd]. unfold IsLocalRegister, registerType, isLocal. by rewrite (at_Some _ _ _ Hd), Hd.
Qed.

Lemma IsAsync_eq s block f : functions !! _function block = Some f -> IsAsyncCallEntryPoint functions s block = Ok (isAsync s block).
Proof.
  intros Hf. unfold IsAsyncCallEntryPoint, IsFirstInFunction, isAsync. rewrite (at_Some _ _ _ Hf), Hf. cbn. by destruct (bool_decide _).
Qed.

Lemma elem_of_passed op l r : r ∈ passed op l <-> exists o, o ∈ l /\ r = OptionallyMapIndex o (_renamingTable op).
Proof. unfold passed. rewrite elem_of_list_to_set, list_elem_of_fmap. split; intros (o & ? & ?); by exists o. Qed.

Lemma passed_union op l : ⋃ ((fun r => {[OptionallyMapIndex r (_renamingTable op)]}) <$> l) = passed op l.
Proof. unfold passed. induction l as [|r l IH]; [done|]. cbn. by rewrite <- IH. Qed.

Lemma inserts_eq op l X : isEnqueue (_opcode (_operation op)) = true -> foldM (insertMapped op) l X = Ok (passed op l ∪ X).
Proof.
  intros He. rewrite (foldM_inserts _ (fun r => {[OptionallyMapIndex r (_renamingTable op)]})), passed_union; [done|].
  intros Y r _. unfold insertMapped, MapOriginalToRenamedRegisterIndex. by rewrite He.
Qed.

Lemma erases_eq op l X : isEnqueue (_opcode (_operation op)) = true -> foldM (eraseMapped op) l X = Ok (X ∖ passed op l).
Proof.
  intros He. rewrite (foldM_erases _ (fun r => {[OptionallyMapIndex r (_renamingTable op)]})), passed_union; [done|].
  intros Y r _. unfold eraseMapped, MapOriginalToRenamedRegisterIndex. by rewrite He.
Qed.

Lemma liveBeforeOperation_eq function m X op : op_ok op ->
  liveBeforeOperation program functions blocks returnSites function m X op = Ok (transfer function m X op).
Proof.
  intros [Hsrc Hdst _ Hsucc]. unfold liveBeforeOperation, transfer.
  rewrite (foldM_erases _ destination) by (intros Y [r|f] Hd; cbn; [rewrite IsLocalRegister_eq by (by apply Hdst); cbn; destruct (isLocal _); [done|f_equal; set_solver]|f_equal; set_solver]).
  cbn [mbind result_bind]. rewrite (foldM_inserts _ source) by (intros Y [l|r|f|s] Hs; cbn; [f_equal; set_solver|rewrite IsLocalRegister_eq by (by apply Hsrc); cbn; destruct (isLocal _); [done|f_equal; set_solver]|f_equal; set_solver..]).
  cbn [mbind result_bind]. fold (defs op) (uses op). destruct (_getSuccessorBlock op) as [s|] eqn:Hs; [|done].
  destruct (Hsucc s eq_refl) as (He & block & f & Hb & Hf & _). unfold GetLiveInToSuccessor. rewrite Hs, Hb. cbn [of_option mbind result_bind]. unfold blockAt. rewrite Hb.
  cbn [of_option mbind result_bind]. rewrite (IsAsync_eq s block f Hf). cbn [mbind result_bind]. unfold fromSuccessor, notPassed. set (Y := uses op ∪ X ∖ defs op).
  destruct (isAsync s block).
  - cbn [mbind result_bind]. destruct (bool_decide (s ∈ returnSites) && (function =? _function block)%nat); [rewrite erases_eq by done|]; f_equal; set_solver.
  - rewrite !inserts_eq by done. cbn [mbind result_bind]. rewrite inserts_eq by done. cbn [mbind result_bind]. rewrite erases_eq by done. cbn [mbind result_bind].
    set (Z0 := passed op (_liveInReg block) ∪ (passed op (set_elements (liveIn m s)) ∪ Y)).
    assert (Hinv : match _isContextSaverCaller op, _invocationInstanceRegisterIndex block with true, Some r => eraseMapped op (Z0 ∖ passed op (_forcedDeadInReg block)) r | _, _ => Ok (Z0 ∖ passed op (_forcedDeadInReg block)) end =
      Ok (Z0 ∖ passed op (_forcedDeadInReg block) ∖ match _isContextSaverCaller op, _invocationInstanceRegisterIndex block with true, Some r => passed op [r] | _, _ => ∅ end)).
    { destruct (_isContextSaverCaller op), (_invocationInstanceRegisterIndex block) as [r|]; try (f_equal; set_solver).
      unfold eraseMapped, MapOriginalToRenamedRegisterIndex. rewrite He. cbn. f_equal. set_solver. }
    rewrite Hinv. cbn [mbind result_bind]. destruct (bool_decide (s ∈ returnSites) && (function =? _function block)%nat); [rewrite erases_eq by done|]; f_equal;
      apply set_eq; intros x; unfold Z0; repeat (rewrite elem_of_difference || rewrite elem_of_union); (tauto || set_solver).
Qed.

(** The registers that are live before a block *)
Definition blockTransfer (function : nat) (m : gmap nat (gset nat)) (ops : list FlowOperation) : gset nat := foldr (fun op X => transfer function m X op) ∅ ops.

Lemma blockTransfer_eq function m ops : Forall op_ok ops ->
  foldM (liveBeforeOperation program functions blocks returnSites function m) (reverse ops) ∅ = Ok (blockTransfer function m ops).
Proof.
  rewrite Forall_forall. intros Hops. rewrite (foldM_Ok _ (transfer function m)). 2: { intros X op Hop. by apply liveBeforeOperation_eq, Hops, elem_of_reverse. }
  f_equal. unfold blockTransfer, reverse. rewrite <- rev_alt. rewrite <- (rev_involutive ops) at 2. symmetry. exact (fold_left_rev_right (fun op X => transfer function m X op) (rev ops) ∅).
Qed.

(** ** Liveness along paths *)

(** Register [r] gets its value elsewhere, whatever comes after [op]. *)
Definition cut (function : nat) (op : FlowOperation) (r : nat) : Prop :=
  exists s block, _getSuccessorBlock op = Some s /\ blocks !! s = Some block /\ r ∈ notPassed op function s block.

(** The successor of [op] takes registers from this block. *)
Definition follows (op : FlowOperation) (s : nat) (block : FlowBlock) : Prop :=
  _getSuccessorBlock op = Some s /\ blocks !! s = Some block /\ isAsync s block = false.

Context (m0 : gmap nat (gset nat)) (members : list nat) (mode : OperationEnumerationMode).

(** [live function ops r]: before [ops], in a block of [function], there is a
    path to a use of [r], or to a register of a block outside the function that
    is live there.  [members] are the blocks of the function. *)
Inductive live (function : nat) : list FlowOperation -> nat -> Prop :=
| live_use op ops r : ~ cut function op r -> r ∈ uses op -> live function (op :: ops) r
| live_later op ops r : ~ cut function op r -> r ∉ defs op -> live function ops r -> live function (op :: ops) r
| live_forced op ops s block r : ~ cut function op r -> follows op s block -> r ∈ passed op (_liveInReg block) -> live function (op :: ops) r
| live_outside op ops s block o :
    ~ cut function op (OptionallyMapIndex o (_renamingTable op)) -> follows op s block -> s ∉ members -> o ∈ liveIn m0 s ->
    live function (op :: ops) (OptionallyMapIndex o (_renamingTable op))
| live_inside op ops s block o :
    ~ cut function op (OptionallyMapIndex o (_renamingTable op)) -> follows op s block -> s ∈ members -> live function (operationsOf mode block) o ->
    live function (op :: ops) (OptionallyMapIndex o (_renamingTable op)).

End Transfer.
End LivenessFacts.
