(* ===== verification/LivenessCorrect.v ===== *)
(** * The liveness analysis finds exactly the live registers

    [ComputeLiveInMap] ends, raises no assertion, and a register is in the
    entry of a block exactly when a path leads from the block to a use of it. *)

From S2P Require Import Prelude MachineInt Literals Ir Run Flow Liveness LivenessFacts.
Import MachineInt Containers Literals Ir Run Flow Liveness LivenessFacts.

Module LivenessCorrect.

Section Sets.
Context (program : Program) (functions : list FlowFunction) (blocks : gmap nat FlowBlock) (returnSites : gset nat) (fi : nat).
Notation N := (numRegisters program).
Notation transfer := (transfer program functions blocks returnSites fi).
Notation blockTransfer := (blockTransfer program functions blocks returnSites fi).

Lemma elem_of_transfer m X op r :
  r ∈ transfer m X op <-> ~ cut functions blocks returnSites fi op r /\
    (r ∈ uses program op \/ (r ∈ X /\ r ∉ defs program op) \/
     exists s block, follows functions blocks op s block /\ (r ∈ passed op (_liveInReg block) \/ exists o, o ∈ liveIn m s /\ r = OptionallyMapIndex o (_renamingTable op))).
Proof.
  unfold LivenessFacts.transfer, cut, follows. destruct (_getSuccessorBlock op) as [s|] eqn:Hs.
  2: { rewrite elem_of_union, elem_of_difference. split; [intros H; split; [by intros (? & ? & ? & _)|tauto]|]. intros (_ & [?|[?|(? & ? & (? & _) & _)]]); [tauto..|done]. }
  destruct (blocks !! s) as [block|] eqn:Hb.
  2: { rewrite elem_of_union, elem_of_difference. split; [intros H; split; [intros (? & ? & [= ->] & ? & _); congruence|tauto]|]. intros (_ & [?|[?|(? & ? & ([= ->] & ? & _) & _)]]); [tauto..|congruence]. }
  rewrite elem_of_difference, !elem_of_union, elem_of_difference. unfold fromSuccessor.
  assert (Hcut : r ∉ notPassed functions returnSites op fi s block <-> ~ (exists s0 block0, Some s = Some s0 /\ blocks !! s0 = Some block0 /\ r ∈ notPassed functions returnSites op fi s0 block0)).
  { split; [intros H (s0 & b0 & [= <-] & Hb0 & Hin); rewrite Hb in Hb0; injection Hb0 as <-; done|]. intros H Hin. apply H. by exists s, block. }
  rewrite Hcut. destruct (isAsync functions s block) eqn:Ha.
  - split; [intros [[?|?] ?]; [set_solver|tauto]|]. intros (? & [?|[?|(s0 & b0 & ([= <-] & Hb0 & Ha') & _)]]); [tauto..|congruence].
  - rewrite elem_of_union, !elem_of_passed. setoid_rewrite elem_of_set_elements. split.
    + intros [[[?|?]|?] ?]; [|  |tauto]; (split; [done|]; right; right; exists s, block; split; [done|]); [by right|left; by apply elem_of_passed].
    + intros (? & [?|[?|(s0 & b0 & ([= <-] & Hb0 & Ha') & Hin)]]); [tauto..|]. rewrite Hb in Hb0. injection Hb0 as <-. rewrite elem_of_passed in Hin. tauto.
Qed.

(** The result grows with the entries of the successors. *)
Lemma transfer_mono m m' X X' op : X ⊆ X' -> (forall s, _getSuccessorBlock op = Some s -> liveIn m s ⊆ liveIn m' s) -> transfer m X op ⊆ transfer m' X' op.
Proof.
  intros HX Hm r. rewrite !elem_of_transfer. intros (? & [?|[[? ?]|(s & block & Hf & [?|(o & ? & ?)])]]); (split; [done|]).
  - by left.
  - right. left. split; [by apply HX|done].
  - right. right. exists s, block. split; [done|]. by left.
  - right. right. exists s, block. split; [done|]. right. exists o. split; [|done]. destruct Hf as (? & _). by apply (Hm s).
Qed.

Lemma blockTransfer_mono m m' ops : (forall op s, op ∈ ops -> _getSuccessorBlock op = Some s -> liveIn m s ⊆ liveIn m' s) -> blockTransfer m ops ⊆ blockTransfer m' ops.
Proof.
  induction ops as [|op ops IH]; intros H; [done|]. cbn. apply transfer_mono; [apply IH; intros op' s Hop; apply H; apply elem_of_cons; by right|]. intros s. apply H. apply elem_of_cons. by left.
Qed.

Lemma transfer_bound m X op (U := list_to_set (seq 0 N) : gset nat) :
  op_ok program functions blocks op -> X ⊆ U -> (forall s, liveIn m s ⊆ U) -> transfer m X op ⊆ U.
Proof.
  intros Hop HX Hm r. rewrite elem_of_transfer. intros (_ & H). apply elem_of_list_to_set, elem_of_seq. split; [lia|]. cbn.
  assert (Hpass : forall o, (o < N)%nat -> (OptionallyMapIndex o (_renamingTable op) < N)%nat).
  { intros o Ho. unfold OptionallyMapIndex, LookupWithDefault. destruct (_renamingTable op !! o) eqn:Ht; [by eapply (ok_table _ _ _ _ Hop)|done]. }
  assert (HU : forall x, x ∈ U -> (x < N)%nat) by (intros x Hx%elem_of_list_to_set%elem_of_seq; lia).
  destruct H as [Hu|[[Hx _]|(s & block & (Hs & Hb & _) & [Hl|(o & Ho & ->)])]].
  - unfold uses in Hu. apply elem_of_union_list in Hu as (Y & (o & -> & Ho)%list_elem_of_fmap & Hr). unfold source in Hr. destruct o as [|reg| |]; [set_solver| |set_solver..].
    destruct (isLocal program (_registerIndex reg)); [|set_solver]. apply elem_of_singleton in Hr as ->. by apply (ok_src _ _ _ _ Hop).
  - by apply HU, HX.
  - apply elem_of_passed in Hl as (o & Ho & ->). apply Hpass. destruct (ok_successor _ _ _ _ Hop s Hs) as (_ & b' & f & Hb' & _ & Hlist). rewrite Hb in Hb'. injection Hb' as <-. by apply Hlist.
  - by apply Hpass, HU, (Hm s).
Qed.

Lemma blockTransfer_bound m ops : Forall (op_ok program functions blocks) ops -> (forall s, liveIn m s ⊆ list_to_set (seq 0 N)) -> blockTransfer m ops ⊆ list_to_set (seq 0 N).
Proof. intros Hops Hm. induction Hops as [|op ops Hop _ IH]; [set_solver|]. cbn. by apply transfer_bound. Qed.

(** ** The graph *)

Context (mode : OperationEnumerationMode) (members : list nat).

Record function_ok : Prop := mk_function_ok {
  fo_nodup : NoDup members;
  fo_block : forall b, b ∈ members -> exists bb, blocks !! b = Some bb /\ _function bb = fi /\ Forall (op_ok program functions blocks) (operationsOf mode bb);
  fo_closed : forall b bb op s block, b ∈ members -> blocks !! b = Some bb -> op ∈ operationsOf mode bb -> _getSuccessorBlock op = Some s -> blocks !! s = Some block ->
    (s ∈ members <-> _function block = fi) }.

Context (Hok : function_ok).

Definition opsOf (b : nat) : list FlowOperation := match blocks !! b with Some bb => operationsOf mode bb | None => [] end.

Definition edge (b s : nat) : Prop := b ∈ members /\ s ∈ members /\ exists op, op ∈ opsOf b /\ _getSuccessorBlock op = Some s.

Lemma exists_snoc {A} (l : list A) a (P : A -> Prop) : (exists x, x ∈ l ++ [a] /\ P x) <-> (exists x, x ∈ l /\ P x) \/ P a.
Proof. split; [intros (x & [Hx|Hx%list_elem_of_singleton]%elem_of_app & HP); [left; eauto|right; by subst]|intros [(x & Hx & HP)|HP]; [exists x|exists a]; set_solver]. Qed.

Lemma insertInto_elem (m : gmap nat (gset nat)) k v k' x : x ∈ default ∅ (insertInto m k v !! k') <-> (k' = k /\ x = v) \/ x ∈ default ∅ (m !! k').
Proof.
  unfold insertInto. destruct (decide (k = k')) as [<-|Hne]; [rewrite lookup_insert_eq; cbn [from_option id]; set_solver|]. rewrite lookup_insert_ne by done. naive_solver.
Qed.

Lemma buildGraph_eq : exists cfg, buildGraph blocks fi mode members = Ok cfg /\
  (forall b s, s ∈ GetSuccessors cfg b <-> edge b s) /\ (forall b s, b ∈ GetPredecessors cfg s <-> edge b s).
Proof.
  unfold buildGraph.
  destruct (foldM_prefix_inv (fun cfg b => bb ← blockAt blocks b; foldM (addEdge blocks fi b) (operationsOf mode bb) cfg)
    (fun pre cfg => (forall b, b ∈ pre -> b ∈ members) -> (forall b s, s ∈ GetSuccessors cfg b <-> b ∈ pre /\ edge b s) /\ (forall b s, b ∈ GetPredecessors cfg s <-> b ∈ pre /\ edge b s))
    members (mkControlFlowGraph ∅ ∅)) as (cfg & Hcfg & Hinv).
  - intros _. unfold GetSuccessors, GetPredecessors. cbn. split; intros b s; rewrite lookup_empty; set_solver.
  - intros pre b cfg Hb Hpre. destruct (fo_block Hok b Hb) as (bb & Hbb & Hf & Hops). unfold blockAt. rewrite Hbb. cbn [of_option mbind result_bind].
    assert (HopsOf : opsOf b = operationsOf mode bb) by (unfold opsOf; by rewrite Hbb).
    destruct (foldM_prefix_inv (addEdge blocks fi b) (fun opre cfg' =>
      (forall op, op ∈ opre -> op ∈ operationsOf mode bb) ->
      (forall b' s, s ∈ GetSuccessors cfg' b' <-> s ∈ GetSuccessors cfg b' \/ (b' = b /\ s ∈ members /\ exists op, op ∈ opre /\ _getSuccessorBlock op = Some s)) /\
      (forall b' s, b' ∈ GetPredecessors cfg' s <-> b' ∈ GetPredecessors cfg s \/ (b' = b /\ s ∈ members /\ exists op, op ∈ opre /\ _getSuccessorBlock op = Some s)))
      (operationsOf mode bb) cfg) as (cfg' & Heq & Hinv').
    + intros _. split; intros b' s; (split; [by left|intros [?|(_ & _ & op & ? & _)]; [done|set_solver]]).
    + intros opre op cfg1 Hop H1. unfold addEdge. rewrite Forall_forall in Hops. destruct (_getSuccessorBlock op) as [s|] eqn:Hs.
      * destruct (ok_successor _ _ _ _ (Hops op Hop) s Hs) as (He & block & _ & Hblock & _ & _). rewrite He. cbn [assert_ mbind result_bind]. unfold blockAt. rewrite Hblock. cbn [of_option mbind result_bind].
        eexists; split; [reflexivity|]. intros Hsub. destruct H1 as [H1 H2]; [set_solver|]. pose proof (fo_closed Hok b bb op s block Hb Hbb Hop Hs Hblock) as Hcl.
        destruct (Nat.eqb_spec (_function block) fi) as [Hfi|Hfi]; cbn [_successors _predecessors]; unfold GetSuccessors, GetPredecessors in *; cbn [_successors _predecessors];
          (split; intros b' s'; [rewrite ?insertInto_elem, H1|rewrite ?insertInto_elem, H2]); rewrite exists_snoc, Hs, (inj_iff Some); clear -Hcl Hfi; naive_solver.
      * eexists; split; [reflexivity|]. intros Hsub. destruct H1 as [H1 H2]; [set_solver|]. split; intros b' s'; [rewrite H1|rewrite H2]; rewrite exists_snoc, Hs; clear; intuition congruence.
    + rewrite Heq. eexists; split; [reflexivity|]. intros Hsub. destruct (Hpre ltac:(set_solver)) as [P1 P2]. destruct (Hinv' ltac:(done)) as [Q1 Q2].
      assert (Hedge : forall b' s, (b' ∈ pre /\ edge b' s) \/ (b' = b /\ s ∈ members /\ exists op, op ∈ operationsOf mode bb /\ _getSuccessorBlock op = Some s) <-> b' ∈ pre ++ [b] /\ edge b' s).
      { intros b' s. rewrite elem_of_app, list_elem_of_singleton. unfold edge. rewrite <- HopsOf. split; [intros [?|(-> & ?)]; [tauto|split; [by right|done]]|].
        intros [[?| ->] (? & ? & ?)]; [left; done|right; done]. }
      split; intros b' s; [rewrite Q1, P1|rewrite Q2, P2]; apply Hedge.
  - exists cfg. split; [exact Hcfg|]. destruct (Hinv ltac:(done)) as [H1 H2]. unfold edge in *. split; intros b s; [rewrite H1|rewrite H2]; tauto.
Qed.

(** ** The loop *)

Context (m0 : gmap nat (gset nat)).
Notation live := (live program functions blocks returnSites m0 members mode fi).
Notation U := (list_to_set (seq 0 N) : gset nat).

Record analysis (workList : gset nat) (m : gmap nat (gset nat)) : Prop := mk_analysis {
  an_members : forall b, b ∈ workList -> b ∈ members;
  an_outside : forall s, s ∉ members -> m !! s = m0 !! s;
  an_sound : forall b r, b ∈ members -> r ∈ liveIn m b -> live (opsOf b) r;
  an_fixed : forall b, b ∈ members -> b ∈ workList \/ liveIn m b = blockTransfer m (opsOf b);
  an_grows : forall b, b ∈ members -> liveIn m b ⊆ blockTransfer m (opsOf b);
  an_bound : forall s, liveIn m s ⊆ U }.

Lemma opsOf_ok b : b ∈ members -> exists bb, blocks !! b = Some bb /\ _function bb = fi /\ opsOf b = operationsOf mode bb /\ Forall (op_ok program functions blocks) (opsOf b).
Proof. intros Hb. destruct (fo_block Hok b Hb) as (bb & Hbb & Hf & Hops). exists bb. unfold opsOf. by rewrite Hbb. Qed.

Lemma blockTransfer_sound m ops :
  (forall s, s ∉ members -> m !! s = m0 !! s) -> (forall b r, b ∈ members -> r ∈ liveIn m b -> live (opsOf b) r) ->
  forall r, r ∈ blockTransfer m ops -> live ops r.
Proof.
  intros Hout Hs. induction ops as [|op ops IH]; intros r Hr; [set_solver|]. cbn in Hr. apply elem_of_transfer in Hr as (Hcut & [Hu|[[Hx Hd]|(s & block & Hf & [Hl|(o & Ho & ->)])]]).
  - by constructor.
  - apply live_later; [done|done|by apply IH].
  - by eapply live_forced.
  - destruct (decide (s ∈ members)) as [Hm|Hm].
    + eapply live_inside; [done|exact Hf|done|]. specialize (Hs s o Hm Ho). unfold opsOf in Hs. destruct Hf as (_ & Hb & _). by rewrite Hb in Hs.
    + eapply live_outside; [done|exact Hf|done|]. unfold liveIn in *. by rewrite <- Hout.
Qed.

Lemma blockTransfer_complete m ops r :
  (forall s, s ∉ members -> m !! s = m0 !! s) -> (forall b, b ∈ members -> liveIn m b = blockTransfer m (opsOf b)) -> live ops r -> r ∈ blockTransfer m ops.
Proof.
  intros Hout Hfix. induction 1 as [op ops r Hc Hu|op ops r Hc Hd Hl IH|op ops s block r Hc Hf Hl|op ops s block o Hc Hf Hm Ho|op ops s block o Hc Hf Hm Hl IH]; cbn; apply elem_of_transfer; (split; [done|]).
  - by left.
  - by right; left.
  - right. right. exists s, block. split; [done|]. by left.
  - right. right. exists s, block. split; [done|]. right. exists o. split; [|done]. unfold liveIn in *. by rewrite Hout.
  - right. right. exists s, block. split; [done|]. right. exists o. split; [|done]. rewrite Hfix by done. unfold opsOf. destruct Hf as (_ & Hb & _). by rewrite Hb.
Qed.

Context (cfg : ControlFlowGraph) (Hpred : forall b s, b ∈ GetPredecessors cfg s <-> edge b s).
Context (firstBlock : gset nat -> nat) (Hfirst : forall X, X <> ∅ -> firstBlock X ∈ X).

Lemma AddPredecessors_eq workList b : AddPredecessors blocks fi cfg workList b = Ok (GetPredecessors cfg b ∪ workList).
Proof.
  unfold AddPredecessors. rewrite (foldM_inserts _ (fun b => {[b]})).
  - f_equal. f_equal. apply set_eq. intros x. rewrite elem_of_union_list. split.
    + intros (Y & (y & -> & Hy%elem_of_set_elements)%list_elem_of_fmap & ->%elem_of_singleton). done.
    + intros Hx. exists {[x]}. split; [|by apply elem_of_singleton]. apply list_elem_of_fmap. exists x. split; [done|]. by apply elem_of_set_elements.
  - intros X b' Hb'%elem_of_set_elements. apply Hpred in Hb' as (Hb' & _). unfold AddBasicBlock. destruct (opsOf_ok b' Hb') as (bb & Hbb & Hf & _). unfold blockAt. rewrite Hbb. cbn. by rewrite Hf, Nat.eqb_refl.
Qed.

(** The room that is left for the sets to grow *)
Definition room (m : gmap nat (gset nat)) : nat := sum_list_with (fun b => N - size (liveIn m b))%nat members.

Definition measure (workList : gset nat) (m : gmap nat (gset nat)) : nat := (size workList + S (length members) * room m)%nat.

Lemma room_insert m b X : b ∈ members -> liveIn m b ⊂ X -> X ⊆ U -> (room (<[b := X]> m) < room m)%nat.
Proof.
  intros Hb Hsub HU. assert (Hlt : (size (liveIn m b) < size X)%nat) by (by apply subset_size).
  assert (Hle : (size X <= N)%nat) by (pose proof (subseteq_size _ _ HU) as H; rewrite size_list_to_set, length_seq in H by apply NoDup_seq; done).
  unfold room. assert (Hin : liveIn (<[b := X]> m) b = X) by (unfold liveIn; by rewrite lookup_insert_eq).
  assert (Hne : forall b', b' <> b -> liveIn (<[b := X]> m) b' = liveIn m b') by (intros b' ?; unfold liveIn; by rewrite lookup_insert_ne).
  assert (Hgen : forall l, NoDup l -> (sum_list_with (fun b' => N - size (liveIn (<[b := X]> m) b')) l + (if decide (b ∈ l) then 1 else 0) <= sum_list_with (fun b => N - size (liveIn m b)) l)%nat).
  2: { specialize (Hgen members (fo_nodup Hok)). rewrite decide_True in Hgen by done. lia. }
  clear Hb. induction 1 as [|b' l Hni _ IH]; [done|]. cbn [sum_list_with]. destruct (decide (b' = b)) as [->|Hneq].
  - rewrite Hin. rewrite decide_False in IH by done. rewrite decide_True by set_solver. lia.
  - rewrite Hne by done. destruct (decide (b ∈ l)); [rewrite decide_True by set_solver; lia|rewrite decide_False by set_solver; lia].
Qed.

Lemma size_workList (workList : gset nat) : (forall b, b ∈ workList -> b ∈ members) -> (size workList <= length members)%nat.
Proof. intros H. rewrite <- (size_list_to_set (C := gset nat) members) by apply (fo_nodup Hok). apply subseteq_size. intros b Hb. apply elem_of_list_to_set. by apply H. Qed.

Lemma liveBlock_eq workList m :
  analysis workList m -> workList <> ∅ ->
  exists workList' m', liveBlock program functions blocks returnSites fi cfg firstBlock mode workList m = Ok (workList', m') /\ analysis workList' m' /\ (measure workList' m' < measure workList m)%nat.
Proof.
  intros [Hmem Hout Hsound Hfix Hgrow Hbound] Hne. set (b := firstBlock workList). pose proof (Hfirst workList Hne) as Hb. fold b in Hb.
  destruct (opsOf_ok b (Hmem b Hb)) as (bb & Hbb & Hf & HopsOf & Hops). unfold liveBlock, Pop. fold b. unfold blockAt. rewrite Hbb. cbn [of_option mbind result_bind].
  rewrite Hf, Nat.eqb_refl. cbn [assert_ mbind result_bind]. rewrite Hbb. cbn [of_option mbind result_bind]. unfold ForEachOperationReverse. rewrite Hf, <- HopsOf, blockTransfer_eq by done.
  cbn [mbind result_bind]. set (X := blockTransfer m (opsOf b)).
  assert (Hsize : size (workList ∖ {[b]}) = (size workList - 1)%nat) by (rewrite size_difference, size_singleton by set_solver; done).
  assert (Hpos : (0 < size workList)%nat) by (destruct (size workList) eqn:Hsz; [apply size_empty_inv in Hsz; set_solver|lia]).
  case_bool_decide as HX.
  - exists (workList ∖ {[b]}), m. split; [done|]. split; [|unfold measure; lia]. constructor; try done; [set_solver|]. intros b' Hb'.
    destruct (decide (b' = b)) as [->|Hneq]; [by right|]. destruct (Hfix b' Hb'); [left; set_solver|by right].
  - rewrite AddPredecessors_eq. cbn [mbind result_bind]. eexists _, _. split; [reflexivity|]. set (m' := <[b := X]> m).
    assert (Hin : liveIn m' b = X) by (unfold m', liveIn; by rewrite lookup_insert_eq).
    assert (Hother : forall b', b' <> b -> liveIn m' b' = liveIn m b') by (intros b' ?; unfold m', liveIn; by rewrite lookup_insert_ne).
    assert (Hle : forall s, liveIn m s ⊆ liveIn m' s) by (intros s; destruct (decide (s = b)) as [->|]; [rewrite Hin; by apply Hgrow, Hmem|by rewrite Hother]).
    assert (HXU : X ⊆ U) by (by apply blockTransfer_bound). split; [constructor|].
    + intros b' [Hp|Hw]%elem_of_union; [by apply Hpred in Hp as (? & _)|set_solver].
    + intros s Hs. unfold m'. rewrite lookup_insert_ne; [by apply Hout|]. intros <-. by apply Hs, Hmem.
    + intros b' r Hb' Hr. destruct (decide (b' = b)) as [->|Hneq]; [|apply Hsound; [done|by rewrite <- Hother]].
      rewrite Hin in Hr. by apply (blockTransfer_sound m).
    + intros b' Hb'. destruct (decide (b' ∈ GetPredecessors cfg b)) as [Hp|Hp]; [left; set_solver|].
      assert (Hsame : blockTransfer m' (opsOf b') = blockTransfer m (opsOf b')).
      { apply (anti_symm (⊆)); apply blockTransfer_mono; intros op s Hop Hs; (destruct (decide (s = b)) as [->|Hneq]; [exfalso; apply Hp, Hpred; split; [done|split; [by apply Hmem|by exists op]]|by rewrite Hother]). }
      rewrite Hsame. destruct (decide (b' = b)) as [->|Hneq]; [right; by rewrite Hin|]. rewrite Hother by done. destruct (Hfix b' Hb'); [left; set_solver|by right].
    + intros b' Hb'. transitivity (blockTransfer m (opsOf b')); [|apply blockTransfer_mono; intros; apply Hle].
      destruct (decide (b' = b)) as [->|Hneq]; [by rewrite Hin|rewrite Hother by done; by apply Hgrow].
    + intros s. destruct (decide (s = b)) as [->|]; [by rewrite Hin|by rewrite Hother].
    + assert (Hroom : (room m' < room m)%nat).
      { apply room_insert; [by apply Hmem| |done]. split; [by apply Hgrow, Hmem|]. intros Hsub. apply HX. apply (anti_symm (⊆)); [done|by apply Hgrow, Hmem]. }
      assert (Hwl : (size (GetPredecessors cfg b ∪ workList ∖ {[b]}) <= length members)%nat).
      { apply size_workList. intros b' [Hp|Hw]%elem_of_union; [by apply Hpred in Hp as (? & _)|set_solver]. }
      unfold measure. nia.
Qed.

Lemma liveLoop_eq fuel workList m :
  analysis workList m -> (measure workList m <= fuel)%nat ->
  exists m', liveLoop program functions blocks returnSites fi cfg firstBlock mode fuel workList m = Ok m' /\ analysis ∅ m'.
Proof.
  revert workList m. induction fuel as [|fuel IH]; intros workList m Ha Hfuel; cbn [liveLoop].
  - case_bool_decide as He; [subst; by exists m|]. destruct (liveBlock_eq workList m Ha He) as (? & ? & _ & _ & ?). lia.
  - case_bool_decide as He; [subst; by exists m|]. destruct (liveBlock_eq workList m Ha He) as (w' & m' & -> & Ha' & Hlt). cbn [mbind result_bind]. apply IH; [done|lia].
Qed.

Lemma analysis_start :
  (forall b, b ∈ members -> liveIn m0 b = ∅) -> (forall s, liveIn m0 s ⊆ U) -> analysis (DataFlowWorkList members) m0.
Proof.
  intros Hempty HU. constructor; try done.
  - intros b Hb. by apply elem_of_list_to_set in Hb.
  - intros b r Hb. rewrite Hempty by done. by intros ?%elem_of_empty.
  - intros b Hb. left. by apply elem_of_list_to_set.
  - intros b Hb. rewrite Hempty by done. apply empty_subseteq.
Qed.

Lemma measure_start : (measure (DataFlowWorkList members) m0 <= length members + S (length members) * (length members * N))%nat.
Proof.
  unfold measure. assert (Hroom : (room m0 <= length members * N)%nat) by (unfold room; induction members as [|b l IH]; cbn [sum_list_with length]; lia).
  pose proof (size_workList (DataFlowWorkList members)) as Hw. rewrite Nat.mul_comm in Hroom.
  assert ((size (DataFlowWorkList members) <= length members)%nat) by (apply Hw; intros b Hb; by apply elem_of_list_to_set in Hb). nia.
Qed.

Lemma analysis_exact m b bb r :
  analysis ∅ m -> b ∈ members -> blocks !! b = Some bb -> r ∈ liveIn m b <-> live (operationsOf mode bb) r.
Proof.
  intros [_ Hout Hsound Hfix _ _] Hb Hbb. assert (HopsOf : opsOf b = operationsOf mode bb) by (unfold opsOf; by rewrite Hbb). rewrite <- HopsOf.
  assert (Hfix' : forall b', b' ∈ members -> liveIn m b' = blockTransfer m (opsOf b')) by (intros b' Hb'; by destruct (Hfix b' Hb') as [?%elem_of_empty|]).
  split; [by apply Hsound|]. intros Hl. rewrite Hfix' by done. by apply blockTransfer_complete.
Qed.

End Sets.

(** C26: For every function whose operations are well formed, and for every
    order in which the work list gives its blocks, the analysis ends with no
    failed assertion, within [n + (n + 1) n N] blocks for [n] blocks and [N]
    registers.  A register is in the entry of a block exactly when there is a
    path from the start of the block to a use of the register (through enqueue
    operations, with the registers renamed on the way) on which nothing writes
    it and no successor takes it from elsewhere.  The entries of the blocks of
    other functions do not change. *)
Theorem ComputeLiveInMap_exact program functions blocks returnSites fi mode members m0 firstBlock fuel :
  function_ok program functions blocks fi mode members ->
  (forall b, b ∈ members -> liveIn m0 b = ∅) -> (forall s r, r ∈ liveIn m0 s -> (r < numRegisters program)%nat) ->
  (forall X, X <> ∅ -> firstBlock X ∈ X) ->
  (length members + S (length members) * (length members * numRegisters program) <= fuel)%nat ->
  exists cfg m, buildGraph blocks fi mode members = Ok cfg /\
    ComputeLiveInMap program functions blocks returnSites fi cfg firstBlock mode fuel members m0 = Ok m /\
    (forall b bb r, b ∈ members -> blocks !! b = Some bb ->
       r ∈ liveIn m b <-> live program functions blocks returnSites m0 members mode fi (operationsOf mode bb) r) /\
    (forall s, s ∉ members -> m !! s = m0 !! s).
Proof.
  intros Hok Hempty HU Hfirst Hfuel. destruct (buildGraph_eq program functions blocks fi mode members Hok) as (cfg & Hcfg & _ & Hpred).
  assert (HU' : forall s, liveIn m0 s ⊆ list_to_set (seq 0 (numRegisters program))) by (intros s r Hr; apply elem_of_list_to_set, elem_of_seq; specialize (HU s r Hr); lia).
  pose proof (analysis_start program functions blocks returnSites fi mode members m0 Hempty HU') as Ha.
  pose proof (measure_start program functions blocks fi mode members Hok m0) as Hm.
  destruct (liveLoop_eq program functions blocks returnSites fi mode members Hok m0 cfg Hpred firstBlock Hfirst fuel _ _ Ha ltac:(lia)) as (m & Hrun & Hend).
  exists cfg, m. split; [done|]. split; [exact Hrun|]. split; [|apply Hend]. intros b bb r Hb Hbb. by apply (analysis_exact program functions blocks returnSites fi mode members m0 m b bb r Hend).
Qed.

(** ** A loop of two blocks

    Block 0 passes its register 1 to block 1 as register 2; block 1 prints it
    and passes its register 3 back to block 0 as register 0. *)

Definition demoProgram : Program := mkProgram (replicate 4 (mkRegisterDescription 8 Local "r"%string)).
Definition demoUse (opcode : Opcode) (src dst : list nat) : FlowOperation :=
  mkFlowOperation (mkOperation opcode 0 ∅ ((fun r => SrcRegister (mkAccessedRegister r)) <$> src) ((fun r => DstRegister (mkAccessedRegister r)) <$> dst)) None ∅ ∅ false.
Definition demoEnqueue (successor : nat) (table : gmap nat nat) : FlowOperation :=
  mkFlowOperation (mkOperation (Enqueue false) 0 ∅ [] []) (Some successor) table ∅ false.
Definition demoBlocks : gmap nat FlowBlock :=
  {[0%nat := mkFlowBlock [] [demoUse Mov [0%nat] [1%nat]; demoEnqueue 1 {[2%nat := 1%nat]}] [] 0 [] [] [] None;
    1%nat := mkFlowBlock [] [demoUse (Print []) [2%nat] []; demoEnqueue 0 {[0%nat := 3%nat]}] [] 0 [] [] [] None]}.
Definition demoFunctions : list FlowFunction := [mkFlowFunction [0%nat; 1%nat] (Some 0%nat) false].
Definition demoFirst (X : gset nat) : nat := default 0%nat (set_elements X !! 0%nat).

Lemma demo_first X : X <> ∅ -> demoFirst X ∈ X.
Proof.
  intros H. unfold demoFirst. destruct (set_elements X) as [|x l] eqn:Hl.
  - exfalso. apply H, set_eq. intros x. rewrite <- elem_of_set_elements, Hl. split; [by intros ?%not_elem_of_nil|by intros ?%elem_of_empty].
  - cbn. apply elem_of_set_elements. rewrite Hl. by left.
Qed.

Definition demoOps : list FlowOperation := [demoUse Mov [0%nat] [1%nat]; demoEnqueue 1 {[2%nat := 1%nat]}; demoUse (Print []) [2%nat] []; demoEnqueue 0 {[0%nat := 3%nat]}].

Lemma demo_ops_ok : Forall (op_ok demoProgram demoFunctions demoBlocks) demoOps.
Proof.
  repeat apply Forall_cons_2; try apply Forall_nil_2; constructor; cbn.
  all: try (intros [r] H; repeat (apply elem_of_cons in H as [H|H]; [first [discriminate|injection H as ->; cbn; lia]|]); by apply not_elem_of_nil in H).
  all: try (intros o r H; first [by rewrite lookup_empty in H|apply lookup_singleton_Some in H as [<- <-]; lia]).
  all: intros s Hs; first [discriminate|injection Hs as <-; split; [done|]; eexists _, _; split; [reflexivity|]; split; [reflexivity|]; cbn; intros r H; by apply not_elem_of_nil in H].
Qed.

Lemma demo_ok : function_ok demoProgram demoFunctions demoBlocks 0 Unscheduled [0%nat; 1%nat].
Proof.
  constructor.
  - apply (bool_decide_unpack (NoDup [0%nat; 1%nat])). by vm_compute.
  - intros b Hb. repeat (apply elem_of_cons in Hb as [->|Hb]); [..|by apply not_elem_of_nil in Hb]; (eexists; split; [reflexivity|]; split; [reflexivity|]; pose proof demo_ops_ok as H; repeat (apply Forall_cons in H as [? H]); cbn; repeat apply Forall_cons_2; try apply Forall_nil_2; done).
  - intros b bb op s block Hb Hbb Hop Hs Hblock. assert (Hf : forall k b', demoBlocks !! k = Some b' -> k ∈ [0%nat; 1%nat] /\ _function b' = 0%nat).
    { intros k b' H. unfold demoBlocks in H. apply lookup_insert_Some in H as [[<- <-]|[_ H]]; [split; [by left|done]|]. apply lookup_singleton_Some in H as [<- <-]. split; [right; by left|done]. }
    destruct (Hf _ _ Hblock). done.
Qed.

Lemma ComputeLiveInMap_exact_witness :
  (cfg ← buildGraph demoBlocks 0 Unscheduled [0%nat; 1%nat];
   m ← ComputeLiveInMap demoProgram demoFunctions demoBlocks ∅ 0 cfg demoFirst Unscheduled 26 [0%nat; 1%nat] ∅;
   Ok ((liveIn m 0, liveIn m 1) : gset nat * gset nat)) = Ok ({[0%nat; 3%nat]}, {[2%nat; 3%nat]}) /\
  exists cfg m, buildGraph demoBlocks 0 Unscheduled [0%nat; 1%nat] = Ok cfg /\
    ComputeLiveInMap demoProgram demoFunctions demoBlocks ∅ 0 cfg demoFirst Unscheduled 26 [0%nat; 1%nat] ∅ = Ok m /\
    (forall b bb r, b ∈ [0%nat; 1%nat] -> demoBlocks !! b = Some bb ->
       r ∈ liveIn m b <-> live demoProgram demoFunctions demoBlocks ∅ ∅ [0%nat; 1%nat] Unscheduled 0 (operationsOf Unscheduled bb) r) /\
    (forall s, s ∉ [0%nat; 1%nat] -> m !! s = (∅ : gmap nat (gset nat)) !! s).
Proof.
  split; [vm_compute; reflexivity|]. apply (ComputeLiveInMap_exact demoProgram demoFunctions demoBlocks ∅ 0 Unscheduled [0%nat; 1%nat] ∅ demoFirst 26).
  - exact demo_ok.
  - intros b _. reflexivity.
  - intros s r Hr. unfold liveIn in Hr. rewrite lookup_empty in Hr. by apply elem_of_empty in Hr.
  - exact demo_first.
  - cbn. lia.
Defined.

End LivenessCorrect.
