(* ===== verification/Decompose.v ===== *)
(** * Decomposition of wide operations

    [optimize.cpp]: [GetPromotedWidth], [DecomposeCompareCarryChain],
    [DecomposeCompareEQ], [Mux21], [BinaryOp], [Concat],
    [GetSourceOperandName], [GetDestOperandName], [DecomposeShift],
    [DecomposeSelect], [ComputeDecomposeAddSubConfig], [DecomposeAddSub] and
    [DecomposeWideOps]; [lower.cpp]: [OperationUsesOnlyLocalReg].

    A decomposition takes an operation of a block and gives the operations that
    stand in its place, or [None] when it leaves the block alone.  The fields of
    the configuration are arguments.  The search for a word width with
    carry-select computes with floating-point numbers; its result is a
    parameter ([carrySelectWidth]). *)

From stdpp Require Import pretty.
From S2P Require Import Prelude MachineInt Literals Ir Reduce Algebraic.
Import MachineInt Literals Ir Reduce Algebraic.

Module Decompose.

Definition OperationUsesOnlyLocalDstReg (program : Program) (op : Operation) : result bool :=
  foldM (fun acc dstOp =>
      match dstOp with
      | DstRegister r =>
          d ← at_ (_registerTable program) (_registerIndex r);
          Ok (acc && IsLocalRegisterType (_type d))
      | _ => Ok acc
      end) (_dst op) true.

Definition OperationUsesOnlyLocalReg (program : Program) (op : Operation) : result bool :=
  local ← OperationUsesOnlyLocalSrcReg program op;
  if local : bool then OperationUsesOnlyLocalDstReg program op else Ok false.

Definition GetRegisterName (program : Program) (r : AccessedRegister) : result string :=
  d ← at_ (_registerTable program) (_registerIndex r); Ok (_name d).

(** [dst.GetAccessedRegister()] *)
Definition destinationRegister (d : DestinationOperand) : result AccessedRegister :=
  match d with DstRegister r => Ok r | DstFifo _ => Err AssertionFailed end.

Definition dst0 (op : Operation) : result AccessedRegister := d ← at_ (_dst op) 0; destinationRegister d.

(** [{AllocateRegister(&program, width, RegisterType::Local, name)}] *)
Definition allocateLocal (program : Program) (width : Z) (name : string) : result (Program * AccessedRegister) :=
  '(program, r) ← AllocateRegister program width Local name; Ok (program, mkAccessedRegister r).

Definition withLocations (locations : gset FileAndLineNumber) (op : Operation) : Operation :=
  mkOperation (_opcode op) (_signExtendSourceMask op) locations (_src op) (_dst op).

(** ** Comparisons *)

Definition GetPromotedWidth (sizeIn : Z) (operandSigned resultSigned : bool) : Z :=
  if resultSigned && negb operandSigned then u64_add sizeIn 1 else sizeIn.

(** [(lhsOpIndex, rhsOpIndex, invertSignBit)] *)
Definition carryChainOperands (t : ParseTreeBinaryOpType) : result (nat * nat * bool) :=
  match t with
  | ParseTreeBinaryOpTypeGT => Ok (1, 0, false)%nat
  | ParseTreeBinaryOpTypeGE => Ok (0, 1, true)%nat
  | ParseTreeBinaryOpTypeLT => Ok (0, 1, false)%nat
  | ParseTreeBinaryOpTypeLE => Ok (1, 0, true)%nat
  | _ => Err AssertionFailed
  end.

Definition DecomposeCompareCarryChain (program : Program) (op : Operation) (t : ParseTreeBinaryOpType)
    : result (Program * list Operation) :=
  assert_ (length (_src op) =? 2)%nat;;
  assert_ (length (_dst op) =? 1)%nat;;
  dst ← dst0 op;
  dstName ← GetRegisterName program dst;
  '(lhsOpIndex, rhsOpIndex, invertSignBit) ← carryChainOperands t;
  lhs ← at_ (_src op) lhsOpIndex;
  rhs ← at_ (_src op) rhsOpIndex;
  lhsSigned ← ShouldSignExtend op lhsOpIndex;
  rhsSigned ← ShouldSignExtend op rhsOpIndex;
  let eitherSigned := lhsSigned || rhsSigned in
  lhsSize ← SourceOperand_Width program lhs;
  rhsSize ← SourceOperand_Width program rhs;
  let lhsWidth := GetPromotedWidth lhsSize lhsSigned eitherSigned in
  let rhsWidth := GetPromotedWidth rhsSize rhsSigned eitherSigned in
  let subResultWidth := u64_add (Z.max lhsWidth rhsWidth) 1 in
  '(program, subResultRegister) ← allocateLocal program subResultWidth (dstName +:+ "_diff");
  let subOp := mkOperation (BinaryOp ParseTreeBinaryOpTypeSub)
    (Z.lor (if lhsSigned : bool then u64_shl 1 0 else 0) (if rhsSigned : bool then u64_shl 1 1 else 0))
    (_locations op) [lhs; rhs] [DstRegister subResultRegister] in
  '(program, shiftResultRegister) ← allocateLocal program 1 (dstName +:+ "_sign_bit");
  let shiftOp := withLocations (_locations op) (emptyOperation (BinaryOp ParseTreeBinaryOpTypeShr) (DstRegister shiftResultRegister)) in
  let shiftOp := PushOperand (PushOperand shiftOp (SrcRegister subResultRegister) false) (SourceOperand_size_t (u64_sub subResultWidth 1) 64) false in
  let finalOp := withLocations (_locations op)
    (emptyOperation (if invertSignBit : bool then UnaryOp ParseTreeUnaryOpTypeInvert else Mov) (DstRegister dst)) in
  Ok (program, [subOp; shiftOp; PushOperand finalOp (SrcRegister shiftResultRegister) false]).

Section Compare.
(** The arguments of [ReduceBinaryOp] *)
Context (fuel : nat) (_supportsLuts : bool) (_smallLutSize : Z).

Definition DecomposeCompareEQ (program : Program) (op : Operation) (t : ParseTreeBinaryOpType) : result (Program * list Operation) :=
  assert_ (length (_src op) =? 2)%nat;;
  assert_ (length (_dst op) =? 1)%nat;;
  finalDestRegister ← dst0 op;
  name ← GetRegisterName program finalDestRegister;
  lhsSigned ← ShouldSignExtend op 0;
  rhsSigned ← ShouldSignExtend op 1;
  let eitherSigned := lhsSigned || rhsSigned in
  src0 ← at_ (_src op) 0;
  src1 ← at_ (_src op) 1;
  lhsSize ← SourceOperand_Width program src0;
  rhsSize ← SourceOperand_Width program src1;
  let lhsWidth := GetPromotedWidth lhsSize lhsSigned eitherSigned in
  let rhsWidth := GetPromotedWidth rhsSize rhsSigned eitherSigned in
  let intermediateWidth := Z.max lhsWidth rhsWidth in
  '(program, xorResultRegister) ← allocateLocal program intermediateWidth (name +:+ "_xor");
  let xorOp := mkOperation (BinaryOp ParseTreeBinaryOpTypeXor) (_signExtendSourceMask op) (_locations op) (_src op) [DstRegister xorResultRegister] in
  '(program, ops, reductionTreeInputRegister, reduceOp) ←
    (if bool_decide (t = ParseTreeBinaryOpTypeEQ) then
       '(program, invertResultRegister) ← allocateLocal program intermediateWidth (name +:+ "_reduce_eq");
       Ok (program, [xorOp; mkOperation (UnaryOp ParseTreeUnaryOpTypeInvert) 0 (_locations op) [SrcRegister xorResultRegister] [DstRegister invertResultRegister]],
           invertResultRegister, ParseTreeBinaryOpTypeAnd)
     else
       assert_ (bool_decide (t = ParseTreeBinaryOpTypeNE));;
       Ok (program, [xorOp], xorResultRegister, ParseTreeBinaryOpTypeOr));
  '(program, reductionTree) ←
    ReduceBinaryOp fuel _supportsLuts _smallLutSize program reductionTreeInputRegister reduceOp (DstRegister finalDestRegister) xorOp;
  Ok (program, ops ++ reductionTree).
End Compare.

(** ** Operations on new registers *)

Definition Mux21 (program : Program) (dstWidth : Z) (dstRegName : string) (selectIndex src0 : SourceOperand) (signExtend0 : bool)
    (src1 : SourceOperand) (signExtend1 : bool) : result (Program * Operation) :=
  '(program, dstReg) ← allocateLocal program dstWidth dstRegName;
  let op := emptyOperation Select (DstRegister dstReg) in
  Ok (program, PushOperand (PushOperand (PushOperand op selectIndex false) src0 signExtend0) src1 signExtend1).

(** The function [BinaryOp] *)
Definition NewBinaryOp (program : Program) (opType : ParseTreeBinaryOpType) (dstWidth : Z) (dstRegName : string)
    (src0 : SourceOperand) (signExtend0 : bool) (src1 : SourceOperand) (signExtend1 : bool) : result (Program * Operation) :=
  '(program, dstReg) ← allocateLocal program dstWidth dstRegName;
  let op := emptyOperation (BinaryOp opType) (DstRegister dstReg) in
  Ok (program, PushOperand (PushOperand op src0 signExtend0) src1 signExtend1).

Definition Concat (program : Program) (dstRegName : string) (srcOperands : list SourceOperand) : result (Program * Operation) :=
  '(entries, dstWidth) ← foldM (fun st srcOp =>
      srcWidth ← SourceOperand_Width program srcOp;
      Ok (st.1 ++ [mkGatherEntry 0 st.2 srcWidth], u64_add st.2 srcWidth)) srcOperands (([], 0) : list GatherEntry * Z);
  '(program, dstReg) ← allocateLocal program dstWidth dstRegName;
  Ok (program, mkOperation (Gather entries) 0 ∅ srcOperands [DstRegister dstReg]).

Definition GetSourceOperandName (program : Program) (src : SourceOperand) : result string :=
  match src with
  | SrcRegister r => GetRegisterName program r
  | SrcLiteral l => Ok ("literal_" +:+ pretty (_value l))
  | _ => Err AssertionFailed
  end.

Definition GetDestOperandName (program : Program) (dst : DestinationOperand) : result string :=
  r ← destinationRegister dst; GetRegisterName program r.

(** ** Shifts by a register *)

(** One bit of the shift amount: [st] is the program, the operations so far and [currentValue]. *)
Definition shiftStep (op : Operation) (t : ParseTreeBinaryOpType) (isSigned : bool) (shiftAmountOperand : SourceOperand)
    (shiftAmountName operandToShiftName : string) (st : Program * list Operation * AccessedRegister) (shiftAmountBitIndex : Z)
    : result (Program * list Operation * AccessedRegister) :=
  let '(program, ops, currentValue) := st in
  currentWidth ← registerWidth program (_registerIndex currentValue);
  '(program, shiftAmountBit) ← allocateLocal program 1 (shiftAmountName +:+ "_bit_" +:+ pretty shiftAmountBitIndex);
  let extractBit := emptyOperation (BinaryOp ParseTreeBinaryOpTypeShr) (DstRegister shiftAmountBit) in
  let extractBit := PushOperand (PushOperand extractBit shiftAmountOperand false) (SourceOperand_size_t shiftAmountBitIndex 64) false in
  assert_ (shiftAmountBitIndex <? 64);;
  let staticShiftAmount := u64_shl 1 shiftAmountBitIndex in
  newWidth ← (match t with
              | ParseTreeBinaryOpTypeShl => Ok (u64_add currentWidth staticShiftAmount)
              | ParseTreeBinaryOpTypeShr => Ok currentWidth
              | _ => Err AssertionFailed
              end);
  '(program, shiftedCurrentValue) ← allocateLocal program newWidth (operandToShiftName +:+ "_shift_choice_" +:+ pretty staticShiftAmount);
  let shiftOp := emptyOperation (BinaryOp t) (DstRegister shiftedCurrentValue) in
  let shiftOp := PushOperand (PushOperand shiftOp (SrcRegister currentValue) isSigned) (SourceOperand_size_t staticShiftAmount 64) false in
  '(program, newValue) ← allocateLocal program newWidth (operandToShiftName +:+ "_shifted_" +:+ pretty staticShiftAmount);
  let muxOp := emptyOperation Select (DstRegister newValue) in
  let muxOp := PushOperand (PushOperand (PushOperand muxOp (SrcRegister shiftAmountBit) false) (SrcRegister currentValue) isSigned)
    (SrcRegister shiftedCurrentValue) isSigned in
  Ok (program, ops ++ [extractBit; shiftOp; muxOp], newValue).

Definition DecomposeShift (program : Program) (op : Operation) (t : ParseTreeBinaryOpType) : result (Program * option (list Operation)) :=
  assert_ (length (_src op) =? 2)%nat;;
  assert_ (length (_dst op) =? 1)%nat;;
  local ← OperationUsesOnlyLocalReg program op;
  if negb local then Ok (program, None)
  else
    operandToShift ← at_ (_src op) 0;
    shiftAmountOperand ← at_ (_src op) 1;
    match shiftAmountOperand with
    | SrcRegister shiftAmountRegister =>
        operandToShiftName ← (match operandToShift with
                              | SrcRegister r => GetRegisterName program r
                              | _ => l ← GetLiteral operandToShift; Ok ("shift_literal_" +:+ pretty (_value l))
                              end);
        operandToShiftWidth ← SourceOperand_Width program operandToShift;
        isSigned ← ShouldSignExtend op 0;
        shiftAmountName ← GetRegisterName program shiftAmountRegister;
        shiftAmountWidth ← SourceOperand_Width program shiftAmountOperand;
        if 64 <=? shiftAmountWidth then Ok (program, None)
        else
          '(program, currentValue) ← allocateLocal program operandToShiftWidth operandToShiftName;
          mov ← PushOperandFrom (emptyOperation Mov (DstRegister currentValue)) op 0;
          '(program, ops, currentValue) ←
            foldM (shiftStep op t isSigned shiftAmountOperand shiftAmountName operandToShiftName) (seqZ 0 shiftAmountWidth)
              (program, [mov], currentValue);
          dst ← at_ (_dst op) 0;
          let mov := withLocations (_locations op) (emptyOperation Mov dst) in
          Ok (program, Some ((updateOpLocations (_locations op) <$> ops) ++ [PushOperand mov (SrcRegister currentValue) isSigned]))
    | _ => Ok (program, None)
    end.

(** ** Selections *)

(** The selection among the choices that share their upper index bits *)
Definition selectIntermediate (originalOp : Operation) (threshold : nat) (lowerBitsReg : AccessedRegister) (intermediateWidth : Z)
    (intermediateName : string) (st : Program * list Operation * list AccessedRegister) (i : nat)
    : result (Program * list Operation * list AccessedRegister) :=
  let '(program, ops, intermediateResults) := st in
  '(program, intermediate) ← allocateLocal program intermediateWidth intermediateName;
  let op := mkOperation Select 0 (_locations originalOp) [SrcRegister lowerBitsReg] [DstRegister intermediate] in
  op ← foldM (fun op j => PushOperandFrom op originalOp (i * threshold + 1 + j)) (seq 0 threshold) op;
  Ok (program, ops ++ [op], intermediateResults ++ [intermediate]).

Definition DecomposeSelect (program : Program) (originalOp : Operation) (threshold : nat) : result (Program * option (list Operation)) :=
  assert_ (length (_dst originalOp) =? 1)%nat;;
  assert_ (negb (length (_src originalOp) =? 0)%nat);;
  local ← OperationUsesOnlyLocalReg program originalOp;
  if negb local then Ok (program, None)
  else
    indexOp ← at_ (_src originalOp) 0;
    match indexOp with
    | SrcRegister originalIndexRegister =>
        originalIndexDesc ← at_ (_registerTable program) (_registerIndex originalIndexRegister);
        let numChoices := (length (_src originalOp) - 1)%nat in
        indexWidth ← Log2 (Z.of_nat numChoices);
        assert_ (2 <=? threshold)%nat;;
        if (numChoices <=? threshold)%nat then Ok (program, None)
        else
          let numRegisterSources := length (filter (fun srcOp => isRegister srcOp = true) (tail (_src originalOp))) in
          if (numRegisterSources <=? threshold)%nat then Ok (program, None)
          else
            numLowBits ← Log2 (Z.of_nat threshold);
            assert_ (numLowBits <? indexWidth);;
            '(program, lowerBitsReg) ← allocateLocal program numLowBits (_name originalIndexDesc);
            '(program, upperBitsReg) ← allocateLocal program (indexWidth - numLowBits) (_name originalIndexDesc);
            lowerOp ← PushOperandFrom (withLocations (_locations originalOp) (emptyOperation Mov (DstRegister lowerBitsReg))) originalOp 0;
            upperOp ← PushOperandFrom (withLocations (_locations originalOp)
              (emptyOperation (BinaryOp ParseTreeBinaryOpTypeShr) (DstRegister upperBitsReg))) originalOp 0;
            let upperOp := PushOperand upperOp (SourceOperand_size_t numLowBits 64) false in
            assert_ (numChoices mod threshold =? 0)%nat;;
            let numIntermediateResults := (numChoices / threshold)%nat in
            finalDstOperand ← at_ (_dst originalOp) 0;
            intermediateWidth ← DestinationOperand_Width program finalDstOperand;
            finalDst ← destinationRegister finalDstOperand;
            intermediateName ← GetRegisterName program finalDst;
            '(program, ops, intermediateResults) ←
              foldM (selectIntermediate originalOp threshold lowerBitsReg intermediateWidth intermediateName) (seq 0 numIntermediateResults)
                (program, [lowerOp; upperOp], []);
            mapM_ (fun intermediate => w ← registerWidth program (_registerIndex intermediate); assert_ (w =? intermediateWidth))
              intermediateResults;;
            Ok (program, Some (ops ++ [mkOperation Select 0 (_locations originalOp)
              (SrcRegister upperBitsReg :: (SrcRegister <$> intermediateResults)) [finalDstOperand]]))
    | _ => Ok (program, None)
    end.

(** ** Additions and subtractions *)

Record DecomposeAddSubConfig : Type := mkDecomposeAddSubConfig { _carrySelect : bool; _internalWordWidth : Z }.

(** The fields of [CodeGenConfig] that these functions read *)
Record CodeGenConfig : Type := mkCodeGenConfig {
  _configCarrySelect : bool; _carryChainWidthPerLogicLevel : Z; _logicRegisterRatio : Z; _maxSelectInputs : nat }.

(** [carrySelectWidth dstWidth] is the word width that the search with
    floating-point numbers finds, if any. *)
Definition ComputeDecomposeAddSubConfig (codeGenConfig : CodeGenConfig) (carrySelectWidth : Z -> option Z) (dstWidth : Z)
    : option DecomposeAddSubConfig :=
  let result := if _configCarrySelect codeGenConfig then mkDecomposeAddSubConfig true <$> carrySelectWidth dstWidth else None in
  match result with
  | Some config => Some config
  | None =>
      let maxWordWidth := u64_mul (_carryChainWidthPerLogicLevel codeGenConfig) (_logicRegisterRatio codeGenConfig) in
      if (maxWordWidth <? dstWidth) && (2 <? maxWordWidth) then Some (mkDecomposeAddSubConfig false (maxWordWidth - 2)) else None
  end.

Section Words.
Context (op : Operation) (t : ParseTreeBinaryOpType) (isAdd carrySelect : bool) (internalWordWidth dstWidth numWords : Z) (dstName : string).

(** The word of source operand [srcOperandIndex], with the carry or borrow
    bit below it in all words but the first *)
Definition sourceWord (wordIndex wordStartOffset wordSize : Z) (carryBorrowBit : option AccessedRegister) (speculativeIterationIndex : Z)
    (program : Program) (srcOperandIndex : nat) : result (Program * list Operation * AccessedRegister) :=
  src ← at_ (_src op) srcOperandIndex;
  srcName ← GetSourceOperandName program src;
  let srcWordName := srcName +:+ "_word_" +:+ pretty wordIndex in
  s ← ShouldSignExtend op srcOperandIndex;
  '(program, extractOp) ← NewBinaryOp program ParseTreeBinaryOpTypeShr wordSize srcWordName src s (SourceOperand_size_t wordStartOffset 64) false;
  extracted ← dst0 extractOp;
  if wordIndex =? 0 then Ok (program, [extractOp], extracted)
  else
    concatLsb ← (if (srcOperandIndex =? 0)%nat then Ok (SrcLiteral (mkLiteral (if isAdd then 1 else 0) 1))
                 else
                   assert_ (srcOperandIndex =? 1)%nat;;
                   if carrySelect then Ok (SrcLiteral (mkLiteral speculativeIterationIndex 1))
                   else r ← of_option OutOfRange carryBorrowBit; Ok (SrcRegister r));
    w ← SourceOperand_Width program concatLsb;
    assert_ (1 =? w);;
    '(program, gatherOp) ← Concat program srcWordName [concatLsb; SrcRegister extracted];
    gathered ← dst0 gatherOp;
    Ok (program, [extractOp; gatherOp], gathered).

(** One speculative iteration: the output word, and the carry or borrow bit of
    all words but the last *)
Definition speculateWord (wordIndex wordStartOffset wordSize : Z) (carryBorrowBit : option AccessedRegister)
    (program : Program) (speculativeIterationIndex : Z)
    : result (Program * list Operation * AccessedRegister * option AccessedRegister) :=
  let isFirstWord := wordIndex =? 0 in
  let isLastWord := wordIndex =? numWords - 1 in
  '(program, ops0, srcWord0) ← sourceWord wordIndex wordStartOffset wordSize carryBorrowBit speculativeIterationIndex program 0;
  '(program, ops1, srcWord1) ← sourceWord wordIndex wordStartOffset wordSize carryBorrowBit speculativeIterationIndex program 1;
  width0 ← registerWidth program (_registerIndex srcWord0);
  width1 ← registerWidth program (_registerIndex srcWord1);
  assert_ (width0 =? width1);;
  let addSubOutputWidth := u64_add width0 (if isLastWord then 0 else 1) in
  let sumDiffName := dstName +:+ (if isAdd then "_sum_" else "_diff_") +:+ pretty wordIndex in
  '(program, addSubOp) ← NewBinaryOp program t addSubOutputWidth sumDiffName (SrcRegister srcWord0) isLastWord (SrcRegister srcWord1) isLastWord;
  addSubOutput ← dst0 addSubOp;
  '(program, ops2, addSubOutput) ←
    (if isFirstWord then Ok (program, [addSubOp], addSubOutput)
     else
       '(program, discardOp) ← NewBinaryOp program ParseTreeBinaryOpTypeShr (u64_sub addSubOutputWidth 1) sumDiffName
         (SrcRegister addSubOutput) false (SourceOperand_size_t 1 64) false;
       addSubOutput ← dst0 discardOp;
       Ok (program, [addSubOp; discardOp], addSubOutput));
  if isLastWord then Ok (program, ops0 ++ ops1 ++ ops2, addSubOutput, None)
  else
    modifiedAddSubOutputWidth ← registerWidth program (_registerIndex addSubOutput);
    assert_ (0 <? modifiedAddSubOutputWidth);;
    mask ← SourceOperand_mp_int (Z.shiftl 1 (modifiedAddSubOutputWidth - 1) - 1);
    let wordName := dstName +:+ "_word_" +:+ pretty wordIndex in
    '(program, andOp) ← NewBinaryOp program ParseTreeBinaryOpTypeAnd (modifiedAddSubOutputWidth - 1) wordName (SrcRegister addSubOutput) false mask false;
    outputWord ← dst0 andOp;
    '(program, extractCarryBorrowOp) ← NewBinaryOp program ParseTreeBinaryOpTypeShr 1 (wordName +:+ (if isAdd then "_carry" else "_borrow"))
      (SrcRegister addSubOutput) false (SourceOperand_size_t (modifiedAddSubOutputWidth - 1) 64) false;
    carry ← dst0 extractCarryBorrowOp;
    Ok (program, ops0 ++ ops1 ++ ops2 ++ [andOp; extractCarryBorrowOp], outputWord, Some carry).

(** The choice between the two speculative results *)
Definition chooseWord (wordIndex : Z) (carryBorrowBit : option AccessedRegister) (program : Program)
    (outputWord0 outputWord1 : AccessedRegister) (carry0 carry1 : option AccessedRegister)
    : result (Program * list Operation * AccessedRegister * option AccessedRegister) :=
  w0 ← registerWidth program (_registerIndex outputWord0);
  w1 ← registerWidth program (_registerIndex outputWord1);
  assert_ (w0 =? w1);;
  let wordName := dstName +:+ "_word_" +:+ pretty wordIndex in
  carryIn ← of_option OutOfRange carryBorrowBit;
  '(program, selectWordOp) ← Mux21 program w0 wordName (SrcRegister carryIn) (SrcRegister outputWord0) false (SrcRegister outputWord1) false;
  chosenOutputWord ← dst0 selectWordOp;
  if wordIndex =? numWords - 1 then Ok (program, [selectWordOp], chosenOutputWord, carryBorrowBit)
  else
    c0 ← of_option AssertionFailed carry0;
    c1 ← of_option AssertionFailed carry1;
    '(program, selectCarryOp) ← Mux21 program 1 (wordName +:+ (if isAdd then "_carry" else "_borrow")) (SrcRegister carryIn)
      (SrcRegister c0) false (SrcRegister c1) false;
    carry ← dst0 selectCarryOp;
    Ok (program, [selectWordOp; selectCarryOp], chosenOutputWord, Some carry).

(** The state of the loop over the words: the program, [operationList], the
    sources and entries of [finalGatherOp], [carryBorrowBit] *)
Definition addSubWord (st : Program * list Operation * list SourceOperand * list GatherEntry * option AccessedRegister) (wordIndex : Z)
    : result (Program * list Operation * list SourceOperand * list GatherEntry * option AccessedRegister) :=
  let '(program, operationList, gatherSrc, gatherEntries, carryBorrowBit) := st in
  let wordStartOffset := u64_mul wordIndex internalWordWidth in
  let wordEndOffset := Z.min dstWidth (u64_add wordStartOffset internalWordWidth) in
  let wordSize := u64_sub wordEndOffset wordStartOffset in
  assert_ (0 <? wordSize);;
  assert_ (implb (wordIndex =? numWords - 1) (wordEndOffset =? dstWidth));;
  '(program, ops, chosenOutputWord, carryBorrowBit) ←
    (if carrySelect && negb (wordIndex =? 0) then
       '(program, ops0, word0, carry0) ← speculateWord wordIndex wordStartOffset wordSize carryBorrowBit program 0;
       '(program, ops1, word1, carry1) ← speculateWord wordIndex wordStartOffset wordSize carryBorrowBit program 1;
       '(program, ops2, word, carry) ← chooseWord wordIndex carryBorrowBit program word0 word1 carry0 carry1;
       Ok (program, ops0 ++ ops1 ++ ops2, word, carry)
     else speculateWord wordIndex wordStartOffset wordSize carryBorrowBit program 0);
  Ok (program, operationList ++ ops, gatherSrc ++ [SrcRegister chosenOutputWord],
      gatherEntries ++ [mkGatherEntry 0 wordStartOffset wordSize], carryBorrowBit).
End Words.

Definition DecomposeAddSub (codeGenConfig : CodeGenConfig) (carrySelectWidth : Z -> option Z) (program : Program) (op : Operation)
    (t : ParseTreeBinaryOpType) : result (Program * option (list Operation)) :=
  assert_ (bool_decide (t = ParseTreeBinaryOpTypeAdd) || bool_decide (t = ParseTreeBinaryOpTypeSub));;
  assert_ (length (_src op) =? 2)%nat;;
  assert_ (length (_dst op) =? 1)%nat;;
  let isAdd := bool_decide (t = ParseTreeBinaryOpTypeAdd) in
  dst ← at_ (_dst op) 0;
  dstName ← GetDestOperandName program dst;
  dstWidth ← DestinationOperand_Width program dst;
  match ComputeDecomposeAddSubConfig codeGenConfig carrySelectWidth dstWidth with
  | None => Ok (program, None)
  | Some config =>
      let internalWordWidth := _internalWordWidth config in
      if internalWordWidth =? 0 then Err DivisionByZero
      else
        let numWords := u64_sub (u64_add dstWidth internalWordWidth) 1 / internalWordWidth in
        assert_ (1 <? numWords);;
        '(program, operationList, gatherSrc, gatherEntries, _) ←
          foldM (addSubWord op t isAdd (_carrySelect config) internalWordWidth dstWidth numWords dstName) (seqZ 0 numWords)
            (program, [], [], [], None);
        let operationList := operationList ++ [mkOperation (Gather gatherEntries) 0 ∅ gatherSrc [dst]] in
        mapM_ (fun otherOp => assert_ (bool_decide (_locations otherOp = ∅));; assert_ (negb (bool_decide (_locations op = ∅)))) operationList;;
        Ok (program, Some (withLocations (_locations op) <$> operationList))
  end.

(** ** [DecomposeWideOps] *)

Section WideOps.
Context (fuel : nat) (_supportsLuts : bool) (_smallLutSize : Z) (codeGenConfig : CodeGenConfig) (carrySelectWidth : Z -> option Z).

(** The operations that replace [op], if any *)
Definition decomposeOperation (program : Program) (op : Operation) : result (Program * option (list Operation)) :=
  match _opcode op with
  | BinaryOp t =>
      assert_ (length (_src op) =? 2)%nat;;
      assert_ (length (_dst op) =? 1)%nat;;
      match t with
      | ParseTreeBinaryOpTypeGT | ParseTreeBinaryOpTypeGE | ParseTreeBinaryOpTypeLT | ParseTreeBinaryOpTypeLE =>
          '(program, ops) ← DecomposeCompareCarryChain program op t; Ok (program, Some ops)
      | ParseTreeBinaryOpTypeEQ | ParseTreeBinaryOpTypeNE =>
          '(program, ops) ← DecomposeCompareEQ fuel _supportsLuts _smallLutSize program op t; Ok (program, Some ops)
      | ParseTreeBinaryOpTypeAdd | ParseTreeBinaryOpTypeSub => DecomposeAddSub codeGenConfig carrySelectWidth program op t
      | _ => Ok (program, None)
      end
  | Select => DecomposeSelect program op (_maxSelectInputs codeGenConfig)
  | _ => Ok (program, None)
  end.

(** The state of the loop over the operations: the program, the operations
    before [it], [atomicBlockDepth], [didChangeIR] *)
Definition decomposeStep (st : Program * list Operation * nat * bool) (op : Operation) : result (Program * list Operation * nat * bool) :=
  let '(program, ops, atomicBlockDepth, didChangeIR) := st in
  atomicBlockDepth ← (match _opcode op with
                      | BeginAtomic => Ok (S atomicBlockDepth)
                      | EndAtomic => assert_ (0 <? atomicBlockDepth)%nat;; Ok (atomicBlockDepth - 1)%nat
                      | _ => Ok atomicBlockDepth
                      end);
  if (atomicBlockDepth =? 0)%nat then
    '(program, replacement) ← decomposeOperation program op;
    match replacement with
    | Some ops' => Ok (program, ops ++ ops', atomicBlockDepth, true)
    | None => Ok (program, ops ++ [op], atomicBlockDepth, didChangeIR)
    end
  else Ok (program, ops ++ [op], atomicBlockDepth, didChangeIR).

Definition decomposeBlock (program : Program) (ops : list Operation) : result (Program * list Operation * bool) :=
  '(program, ops, atomicBlockDepth, didChangeIR) ← foldM decomposeStep ops (program, [], 0%nat, false);
  assert_ (atomicBlockDepth =? 0)%nat;;
  Ok (program, ops, didChangeIR).

Definition DecomposeWideOps (program : Program) (function : Function_) : result (Program * Function_ * bool) :=
  '(program, blocks, didChangeIR) ← foldM (fun st basicBlock =>
      '(program, ops, changed) ← decomposeBlock st.1.1 (_operations basicBlock);
      Ok (program, st.1.2 ++ [with_operations basicBlock ops], st.2 || changed)) (_basicBlocks function) ((program, [], false) : Program * list BasicBlock * bool);
  Ok (program, mkFunction blocks, didChangeIR).
End WideOps.

End Decompose.
