(* ===== verification/Emit.v ===== *)
(** * Operations that a pass emits on new registers

    Passes that replace one operation by several allocate local registers and
    emit operations that write them.  [emits] collects what the emitted
    operations leave in the new registers, as facts about the registers before
    the first of them; [replaces] is the contract of a replacement. *)

From stdpp Require Import functions.
From S2P Require Import Prelude MachineInt Literals Ir Semantics Run Reduce Decompose.
Import MachineInt Literals Ir Semantics Run Reduce Decompose.

Module Emit.

(** ** Operands *)

(** The integer that [w] bits denote *)
Definition reading (w : Z) (signed : bool) (v : Z) : Z := lit_int (mkLiteral (v mod 2 ^ w) w) signed.

Lemma reading_unsigned w v : reading w false v = v mod 2 ^ w.
Proof. done. Qed.

Lemma reading_mod w s v k : 0 <= k <= w -> reading w s v mod 2 ^ k = v mod 2 ^ k.
Proof.
  intros Hk. unfold reading, lit_int. cbn [_value _width].
  destruct (lit_neg _ s); [|by apply mod_mod_pow2].
  rewrite <- (mod_mod_pow2 v k w) by lia. rewrite <- Z.add_opp_r.
  destruct (pow2_divide k w Hk) as [c Hc]. rewrite Hc at 2. rewrite <- Z.mul_opp_l. apply Z.mod_add. apply Z.pow_nonzero; lia.
Qed.

Lemma reading_id w (s : bool) v : 0 < w -> (if s then - 2 ^ (w - 1) <= v < 2 ^ (w - 1) else 0 <= v < 2 ^ w) -> reading w s v = v.
Proof.
  intros Hw Hv. assert (Hp : 2 ^ w = 2 * 2 ^ (w - 1)) by (rewrite <- Z.pow_succ_r by lia; f_equal; lia).
  pose proof (Z.pow_pos_nonneg 2 (w - 1) ltac:(lia) ltac:(lia)). destruct s; [|rewrite reading_unsigned; by apply Z.mod_small].
  unfold reading, lit_int, lit_neg. cbn [andb _value _width].
  assert (Hbit : Z.testbit (v mod 2 ^ w) (w - 1) = (v <? 0)).
  { rewrite Z.mod_pow2_bits_low, Z.testbit_eqb by lia. destruct (Z.ltb_spec v 0).
    - rewrite <- (Z.div_unique_pos v (2 ^ (w - 1)) (-1) (v + 2 ^ (w - 1))) by lia. done.
    - by rewrite Z.div_small by lia. }
  rewrite Hbit. destruct (Z.ltb_spec v 0); [|apply Z.mod_small; lia].
  rewrite <- (Z.mod_unique_pos v (2 ^ w) (-1) (v + 2 ^ w)) by lia. lia.
Qed.

Section Operands.
Context (P : Program) (σ : nat -> Z).

Lemma operandInt_reading s r w :
  has_width P (_registerIndex r) w -> operandInt P σ s (SrcRegister r) = reading w s (σ (_registerIndex r)).
Proof. intros (d & Hd & <-). unfold operandInt, operandLiteral. by rewrite Hd. Qed.

Lemma operandInt_small (s : bool) r w v :
  has_width P (_registerIndex r) w -> 0 < w -> σ (_registerIndex r) = v mod 2 ^ w ->
  (if s then - 2 ^ (w - 1) <= v < 2 ^ (w - 1) else 0 <= v < 2 ^ w) -> operandInt P σ s (SrcRegister r) = v.
Proof.
  intros Hr Hw Hv Hb. rewrite (operandInt_reading _ _ _ Hr), Hv. rewrite <- (reading_id w s v Hw Hb) at 2.
  unfold reading. by rewrite Zmod_mod.
Qed.

(** An operand that is pushed last *)
Lemma push_srcInt op o s i :
  mask_wf op -> (length (_src op) < 64)%nat ->
  srcInt P σ (PushOperand op o s) i = (if (i =? length (_src op))%nat then operandInt P σ s o else srcInt P σ op i) /\
  mask_wf (PushOperand op o s).
Proof.
  intros Hm Hl. set (n := length (_src op)) in *.
  assert (Hone : u64_shl 1 (Z.of_nat (length (_src op ++ [o]) - 1)) = 2 ^ Z.of_nat n).
  { rewrite length_app. cbn [length]. replace (length (_src op) + 1 - 1)%nat with n by lia. change 1 with (Z.b2z true).
    rewrite u64_shl_bit by lia. by rewrite shiftl_1_pow by lia. }
  assert (Hmask : Z.testbit (_signExtendSourceMask op) (Z.of_nat n) = false) by (apply (testbit_high (Z.of_nat n)); [exact Hm|lia]).
  assert (Hbit : forall j, (j <= n)%nat -> signExtends (PushOperand op o s) j = (if (j =? n)%nat then s else signExtends op j)).
  { intros j Hj. unfold signExtends, PushOperand. cbn [_signExtendSourceMask]. rewrite Hone.
    destruct s; [rewrite Z.lor_spec, Z.pow2_bits_eqb by lia|]; destruct (Nat.eqb_spec j n) as [->|].
    - by rewrite Z.eqb_refl, orb_true_r.
    - rewrite (proj2 (Z.eqb_neq _ _)) by lia. apply orb_false_r.
    - done.
    - done. }
  split.
  - unfold srcInt at 1. cbn [_src PushOperand]. destruct (Nat.eqb_spec i n) as [->|Hne].
    + rewrite list_lookup_middle by done. by rewrite Hbit, Nat.eqb_refl by lia.
    + unfold srcInt. destruct (decide (i < n)%nat).
      * rewrite lookup_app_l by (fold n; lia). rewrite Hbit by lia. by rewrite (proj2 (Nat.eqb_neq i n)) by done.
      * rewrite !lookup_ge_None_2; [done|fold n; lia|rewrite length_app; fold n; cbn; lia].
  - unfold mask_wf in *. cbn [PushOperand _signExtendSourceMask _src]. rewrite Hone, length_app. cbn [length]. fold n in Hm |- *.
    assert (Hp : 2 ^ Z.of_nat (n + 1) = 2 * 2 ^ Z.of_nat n) by (rewrite Nat2Z.inj_add, Z.add_1_r, Z.pow_succ_r by lia; done).
    rewrite Hp. pose proof (Z.pow_pos_nonneg 2 (Z.of_nat n) ltac:(lia) ltac:(lia)).
    destruct s; [|lia]. rewrite <- Hp. apply lor_bound; [|rewrite Hp]; lia.
Qed.

(** An operation that has no operands yet *)
Definition no_operands (op : Operation) : Prop := _src op = [] /\ _signExtendSourceMask op = 0.

Lemma no_operands_mask op : no_operands op -> mask_wf op.
Proof. intros [Hs Hm]. unfold mask_wf. rewrite Hs, Hm. cbn. lia. Qed.

Lemma srcInt_push1 op o0 s0 : no_operands op -> srcInt P σ (PushOperand op o0 s0) 0 = operandInt P σ s0 o0.
Proof.
  intros H. pose proof (no_operands_mask op H) as Hm. destruct H as [Hs _].
  rewrite (proj1 (push_srcInt op o0 s0 0 Hm ltac:(rewrite Hs; cbn; lia))). by rewrite Hs.
Qed.

Lemma srcInt_push2 op o0 s0 o1 s1 :
  no_operands op -> let op' := PushOperand (PushOperand op o0 s0) o1 s1 in
  srcInt P σ op' 0 = operandInt P σ s0 o0 /\ srcInt P σ op' 1 = operandInt P σ s1 o1.
Proof.
  intros H op'. pose proof (no_operands_mask op H) as Hm. pose proof (proj1 H) as Hs.
  destruct (push_srcInt op o0 s0 0 Hm ltac:(rewrite Hs; cbn; lia)) as [_ Hm1].
  unfold op'. rewrite !(proj1 (push_srcInt _ o1 s1 _ Hm1 ltac:(cbn; rewrite Hs; cbn; lia))). cbn [_src PushOperand]. rewrite Hs.
  cbn [app length Nat.eqb]. by rewrite srcInt_push1.
Qed.

Lemma srcInt_push3 op o0 s0 o1 s1 o2 s2 :
  no_operands op -> let op' := PushOperand (PushOperand (PushOperand op o0 s0) o1 s1) o2 s2 in
  srcInt P σ op' 0 = operandInt P σ s0 o0 /\ srcInt P σ op' 1 = operandInt P σ s1 o1 /\ srcInt P σ op' 2 = operandInt P σ s2 o2.
Proof.
  intros H op'. pose proof (no_operands_mask op H) as Hm. pose proof (proj1 H) as Hs.
  destruct (push_srcInt op o0 s0 0 Hm ltac:(rewrite Hs; cbn; lia)) as [_ Hm1].
  destruct (push_srcInt _ o1 s1 0 Hm1 ltac:(cbn; rewrite Hs; cbn; lia)) as [_ Hm2].
  unfold op'. rewrite !(proj1 (push_srcInt _ o2 s2 _ Hm2 ltac:(cbn; rewrite Hs; cbn; lia))). cbn [_src PushOperand]. rewrite Hs.
  cbn [app length Nat.eqb]. destruct (srcInt_push2 op o0 s0 o1 s1 H) as [H0 H1]. by rewrite <- H0, <- H1.
Qed.

End Operands.

(** ** Frames *)

(** The registers of [p] have not changed. *)
Definition frame (p : Program) (σ σ' : nat -> Z) : Prop := forall i, (i < numRegisters p)%nat -> σ' i = σ i.

Lemma frame_trans p p' σ σ1 σ2 : extends p p' -> frame p σ σ1 -> frame p' σ1 σ2 -> frame p σ σ2.
Proof. intros He H1 H2 i Hi. pose proof (extends_numRegisters _ _ He). rewrite H2 by lia. by apply H1. Qed.

Lemma operandInt_old p P σ σ' s o :
  operand_wf p o -> extends p P -> frame p σ σ' -> operandInt P σ' s o = operandInt p σ s o.
Proof.
  intros Ho He Hf. unfold operandInt. assert (operandLiteral P σ' o = operandLiteral p σ o) as ->; [|done].
  destruct o as [l|r| |]; cbn; try done. destruct Ho as (d & Hd & _).
  rewrite (extends_lookup _ _ _ _ He Hd), Hd. cbn. by rewrite Hf by (by eapply lookup_lt_Some).
Qed.

Lemma srcInt_old p P σ σ' op i :
  Forall (operand_wf p) (_src op) -> extends p P -> frame p σ σ' -> srcInt P σ' op i = srcInt p σ op i.
Proof.
  intros Ho He Hf. unfold srcInt. destruct (_src op !! i) as [o|] eqn:Hi; [|done].
  apply operandInt_old; [|done..]. by eapply (Forall_lookup_1 _ _ _ _ Ho).
Qed.

(** The integers that an operand of [w] bits denotes *)
Definition in_width (w : Z) (s : bool) (v : Z) : Prop := if s then - 2 ^ (w - 1) <= v < 2 ^ (w - 1) else 0 <= v < 2 ^ w.

Lemma pow2_half w : 0 < w -> 2 ^ w = 2 * 2 ^ (w - 1) /\ 0 < 2 ^ (w - 1).
Proof.
  intros Hw. split; [rewrite <- Z.pow_succ_r by lia; f_equal; lia|apply Z.pow_pos_nonneg; lia].
Qed.

Lemma lit_in_width l s : lit_wf l -> in_width (_width l) s (lit_int l s).
Proof.
  intros Hl. destruct (lit_int_bounds l s Hl) as (Hb & Hneg & Hpos). destruct (pow2_half (_width l)) as [Hp Hq]; [apply Hl|].
  pose proof (lit_neg_spec l Hl) as Hn. destruct Hl as [Hw Hv]. unfold in_width. destruct s; [|done].
  split; [apply Hb|]. unfold lit_int, lit_neg in *. rewrite Hn in *. cbn [andb] in *.
  destruct (Z.leb_spec (2 ^ (_width l - 1)) (_value l)); lia.
Qed.

Lemma operand_in_width p o :
  operand_wf p o -> exists w, SourceOperand_Width p o = Ok w /\ 0 < w < 2 ^ 30 /\ forall σ s, in_width w s (operandInt p σ s o).
Proof.
  destruct o as [l|r| |]; cbn; try done.
  - intros [Hl Hw]. exists (_width l). split; [done|]. split; [destruct Hl; lia|]. intros σ s. by apply (lit_in_width l s).
  - intros (d & Hd & Hw). exists (_regWidth d). split; [unfold registerWidth; by rewrite (at_Some _ _ _ Hd)|]. split; [done|]. intros σ s.
    unfold operandInt, operandLiteral. rewrite Hd. cbn [mbind option_bind].
    set (l := mkLiteral (σ (_registerIndex r) mod 2 ^ _regWidth d) (_regWidth d)). apply (lit_in_width l s).
    split; cbn; [lia|]. apply Z.mod_pos_bound, Z.pow_pos_nonneg; lia.
Qed.

Lemma in_width_mono w w' s v : 0 < w <= w' -> in_width w s v -> in_width w' s v.
Proof.
  intros Hw. unfold in_width. assert (2 ^ w <= 2 ^ w') by (apply Z.pow_le_mono_r; lia).
  assert (2 ^ (w - 1) <= 2 ^ (w' - 1)) by (apply Z.pow_le_mono_r; lia). destruct s; lia.
Qed.

(** An unsigned operand with a zero bit on top *)
Lemma in_width_promote w v : 0 < w -> in_width w false v -> in_width (w + 1) true v.
Proof. unfold in_width. intros Hw. pose proof (Z.pow_pos_nonneg 2 w ltac:(lia) ltac:(lia)). replace (w + 1 - 1) with w by lia. lia. Qed.

Lemma dst0_eq op d : _dst op = [DstRegister d] -> dst0 op = Ok d.
Proof. unfold dst0. by intros ->. Qed.

Lemma GetRegisterName_eq p r w : has_width p (_registerIndex r) w -> exists name, GetRegisterName p r = Ok name.
Proof. intros (d & Hd & _). exists (_name d). unfold GetRegisterName. by rewrite (at_Some _ _ _ Hd). Qed.

(** ** Allocation *)

Record grown (p p' : Program) (w : Z) : Prop := mk_grown {
  gr_extends : extends p p';
  gr_width : has_width p' (numRegisters p) w;
  gr_local : exists d, _registerTable p' !! numRegisters p = Some d /\ _type d = Local /\ _name d <> ""%string;
  gr_size : numRegisters p' = S (numRegisters p) }.

(** The register that is allocated next *)
Definition next (p : Program) : AccessedRegister := mkAccessedRegister (numRegisters p).

Lemma allocateLocal_eq p w name : name <> ""%string -> exists p', allocateLocal p w name = Ok (p', next p) /\ grown p p' w.
Proof.
  intros Hn. unfold allocateLocal. destruct (AllocateRegister_eq p w Local name Hn) as (p' & -> & He & Hw & Hs & Hl).
  exists p'. split; [done|]. split; try done. by eexists.
Qed.

(** An operation that writes the next register and computes [v] *)
Record computes_next (p : Program) (op : Operation) (v : Program -> (nat -> Z) -> Z) : Prop := mk_computes_next {
  cn_dst : _dst op = [DstRegister (next p)];
  cn_locations : _locations op = ∅;
  cn_value : forall P σ, opInt P σ op = Some (v P σ) }.

Lemma NewBinaryOp_eq p t w name o0 s0 o1 s1 :
  name <> ""%string ->
  exists p' op, NewBinaryOp p t w name o0 s0 o1 s1 = Ok (p', op) /\ dst0 op = Ok (next p) /\ grown p p' w /\
    computes_next p op (fun P σ => binop_spec t (operandInt P σ s0 o0) (operandInt P σ s1 o1)).
Proof.
  intros Hn. unfold NewBinaryOp. destruct (allocateLocal_eq p w name Hn) as (p' & -> & Hg). cbn [mbind result_bind].
  eexists _, _; split; [reflexivity|]. split; [done|]. split; [done|]. split; [done|done|]. intros P σ.
  destruct (srcInt_push2 P σ (emptyOperation (BinaryOp t) (DstRegister (next p))) o0 s0 o1 s1) as [H0 H1]; [done|]. unfold opInt. cbn [_opcode PushOperand emptyOperation].
  by rewrite H0, H1.
Qed.

Lemma opInt_mux P σ d i o0 s0 o1 s1 :
  opInt P σ (PushOperand (PushOperand (PushOperand (emptyOperation Select d) i false) o0 s0) o1 s1)
  = Some (if operandInt P σ false i mod 2 =? 0 then operandInt P σ s0 o0 else operandInt P σ s1 o1).
Proof.
  destruct (srcInt_push3 P σ (emptyOperation Select d) i false o0 s0 o1 s1) as (H0 & H1 & H2); [done|]. unfold opInt. cbn [_opcode PushOperand emptyOperation].
  unfold selectInt. rewrite H0. cbn [_src PushOperand emptyOperation app length]. change (Z.of_nat (3 - 1)) with 2.
  pose proof (Z.mod_pos_bound (operandInt P σ false i) 2 ltac:(lia)).
  destruct (Z.eqb_spec (operandInt P σ false i mod 2) 0) as [->|]; [change (S (Z.to_nat 0)) with 1%nat; by rewrite H1|].
  replace (operandInt P σ false i mod 2) with 1 by lia. change (S (Z.to_nat 1)) with 2%nat. by rewrite H2.
Qed.

Lemma Mux21_eq p w name i o0 s0 o1 s1 :
  name <> ""%string ->
  exists p' op, Mux21 p w name i o0 s0 o1 s1 = Ok (p', op) /\ dst0 op = Ok (next p) /\ grown p p' w /\
    computes_next p op (fun P σ => if operandInt P σ false i mod 2 =? 0 then operandInt P σ s0 o0 else operandInt P σ s1 o1).
Proof.
  intros Hn. unfold Mux21. destruct (allocateLocal_eq p w name Hn) as (p' & -> & Hg). cbn [mbind result_bind].
  eexists _, _; split; [reflexivity|]. split; [done|]. split; [done|]. split; [done|done|]. intros P σ. apply opInt_mux.
Qed.

(** Two operands next to each other *)
Lemma Concat_eq p name o0 o1 w0 w1 :
  name <> ""%string -> SourceOperand_Width p o0 = Ok w0 -> SourceOperand_Width p o1 = Ok w1 -> 0 <= w0 -> 0 <= w1 -> w0 + w1 < 2 ^ 64 ->
  exists p' op, Concat p name [o0; o1] = Ok (p', op) /\ dst0 op = Ok (next p) /\ grown p p' (w0 + w1) /\
    computes_next p op (fun P σ => operandInt P σ false o0 mod 2 ^ w0 + (operandInt P σ false o1 mod 2 ^ w1) * 2 ^ w0).
Proof.
  intros Hn H0 H1 Hw0 Hw1 Hb. unfold Concat. cbn [foldM]. rewrite H0. cbn [mbind result_bind fst snd]. rewrite H1. cbn [mbind result_bind fst snd].
  unfold u64_add. rewrite Z.add_0_l, (u64_small w0), (u64_small (w0 + w1)) by (unfold is_u64; lia).
  destruct (allocateLocal_eq p (w0 + w1) name Hn) as (p' & -> & Hg). cbn [mbind result_bind].
  eexists _, _; split; [reflexivity|]. split; [done|]. split; [done|]. split; [done|done|]. intros P σ. unfold opInt. cbn [_opcode]. f_equal. unfold gatherInt, srcInt, signExtends.
  cbn [_src _signExtendSourceMask length seq zip zip_with fold_left fst snd app lookup list_lookup _sourceOffset _destOffset _numBits]. rewrite !Z.bits_0, !Z.shiftr_0_r, Z.shiftl_0_r, Z.lor_0_l.
  rewrite lor_shiftl_add; [done|done|]. apply Z.mod_pos_bound, Z.pow_pos_nonneg; lia.
Qed.

(** An operand that is taken over from another operation *)
Lemma PushOperandFrom_eq op other i o :
  _src other !! i = Some o -> (i < 64)%nat -> PushOperandFrom op other i = Ok (PushOperand op o (signExtends other i)).
Proof.
  intros Ho Hi. pose proof (lookup_lt_Some _ _ _ Ho) as Hl. unfold PushOperandFrom. rewrite assert_true by (by apply Nat.ltb_lt).
  cbn [mbind result_bind]. rewrite (at_Some _ _ _ Ho). cbn [mbind result_bind]. by rewrite ShouldSignExtend_eq.
Qed.

(** [op'] has the operands of [op] and then [n] operands of [other] from [start] on. *)
Record pushed (op other : Operation) (start n : nat) (op' : Operation) : Prop := mk_pushed {
  pu_opcode : _opcode op' = _opcode op;
  pu_dst : _dst op' = _dst op;
  pu_locations : _locations op' = _locations op;
  pu_mask : mask_wf op';
  pu_src : _src op' = _src op ++ take n (drop start (_src other));
  pu_old : forall P σ i, (i < length (_src op))%nat -> srcInt P σ op' i = srcInt P σ op i;
  pu_new : forall P σ i, (i < n)%nat -> srcInt P σ op' (length (_src op) + i) = srcInt P σ other (start + i) }.

Lemma push_range op other start n :
  mask_wf op -> (start + n <= length (_src other))%nat -> (length (_src other) <= 64)%nat -> (length (_src op) + n <= 64)%nat ->
  exists op', foldM (fun op j => PushOperandFrom op other (start + j)) (seq 0 n) op = Ok op' /\ pushed op other start n op'.
Proof.
  intros Hm Hn H64 Hlen. induction n as [|n IH].
  { exists op. split; [done|]. split; try done; [by rewrite app_nil_r|lia]. }
  destruct IH as (op1 & Hop1 & [Ho Hd Hl Hmask Hs Hold Hnew]); [lia|lia|]. rewrite seq_S, foldM_app, Hop1. cbn [mbind result_bind foldM Nat.add].
  destruct (lookup_lt_is_Some_2 (_src other) (start + n)) as [o Hoo]; [lia|]. rewrite (PushOperandFrom_eq _ _ _ _ Hoo) by lia. cbn [mbind result_bind].
  assert (Hl1 : length (_src op1) = (length (_src op) + n)%nat) by (rewrite Hs, length_app, length_take, length_drop; lia).
  eexists; split; [reflexivity|]. pose proof (fun P σ i => push_srcInt P σ op1 o (signExtends other (start + n)) i Hmask ltac:(lia)) as Hpush.
  rewrite Hl1 in Hpush. split; try done.
  - by apply (Hpush (mkProgram []) (fun _ => 0) 0%nat).
  - cbn [PushOperand _src]. rewrite Hs, <- app_assoc. f_equal. by rewrite (take_S_r _ _ o) by (by rewrite lookup_drop).
  - intros P σ i Hi. rewrite (proj1 (Hpush P σ i)), (proj2 (Nat.eqb_neq _ _)) by lia. by apply Hold.
  - intros P σ i Hi. rewrite (proj1 (Hpush P σ _)). destruct (Nat.eqb_spec (length (_src op) + i) (length (_src op) + n)) as [Heq|Hne].
    + replace i with n by lia. by rewrite (srcInt_lookup _ _ _ _ _ Hoo).
    + apply Hnew. lia.
Qed.

(** ** Emitted operations *)

(** [fact.1] is a new register and [fact.2] what it holds. *)
Notation facts := (list (nat * ((nat -> Z) -> Z))).

Record emits (p0 p : Program) (locations : gset FileAndLineNumber) (ops : list Operation) (F : facts) : Prop := mk_emits {
  em_extends : extends p0 p;
  em_registers : Forall (fun f => (f.1 < numRegisters p)%nat) F;
  em_locations : Forall (fun op => _locations op = locations) ops;
  em_run : forall P σ, extends p P -> exists σ', run P ops σ = Some σ' /\ frame p0 σ σ' /\ Forall (fun f => σ' f.1 = f.2 σ) F }.

Lemma emits_nil p locations : emits p p locations [] [].
Proof. split; [reflexivity|constructor|constructor|]. intros P σ _. exists σ. split; [done|]. split; [by intros i|constructor]. Qed.

Lemma emits_facts p0 p locations ops F F' : emits p0 p locations ops F -> F' ⊆ F -> emits p0 p locations ops F'.
Proof.
  intros [He Hr Hl Hrun] Hsub. split; [done| |done|].
  - rewrite Forall_forall in Hr |- *. auto.
  - intros P σ HP. destruct (Hrun P σ HP) as (σ' & ? & ? & HF). exists σ'. split; [done|]. split; [done|]. rewrite Forall_forall in HF |- *. auto.
Qed.

(** A fact can be told in other words. *)
Lemma emits_also p0 p locations ops F r g g' :
  emits p0 p locations ops F -> (r, g) ∈ F -> (forall σ, g σ = g' σ) -> emits p0 p locations ops ((r, g') :: F).
Proof.
  intros [He Hr Hl Hrun] Hin Hg. split; [done| |done|].
  - constructor; [|done]. rewrite Forall_forall in Hr. by apply (Hr (r, g)).
  - intros P σ HP. destruct (Hrun P σ HP) as (σ' & ? & ? & HF). exists σ'. split; [done|]. split; [done|]. constructor; [|done].
    rewrite Forall_forall in HF. cbn [fst snd]. rewrite <- Hg. by apply (HF (r, g)).
Qed.

(** An operation that writes the next register *)
Lemma emits_gen p0 p locations ops F p' w op v g :
  emits p0 p locations ops F -> grown p p' w -> _dst op = [DstRegister (next p)] -> _locations op = locations ->
  (forall P σ σ', extends p P -> frame p0 σ σ' -> Forall (fun f => σ' f.1 = f.2 σ) F -> opInt P σ' op = Some (v P σ') /\ v P σ' mod 2 ^ w = g σ) ->
  emits p0 p' locations (ops ++ [op]) ((numRegisters p, g) :: F).
Proof.
  intros [He Hr Hl Hrun] [Hge Hgw _ Hgs] Hdst Hloc Hval. split.
  - by transitivity p.
  - constructor; [cbn; lia|]. eapply Forall_impl; [exact Hr|]. cbn. lia.
  - apply Forall_app. split; [done|]. by constructor.
  - intros P σ HP. destruct (Hrun P σ) as (σ1 & Hσ1 & Hf1 & HF1); [by transitivity p'|]. rewrite run_app, Hσ1. cbn [mbind option_bind run].
    destruct (Hval P σ σ1) as [Hv Hg]; [by transitivity p'|done|done|].
    erewrite (step_value P σ1 op (next p) w (v P σ1)); [|done|by eapply has_width_extends|exact Hv].
    cbn [mbind option_bind]. eexists; split; [reflexivity|]. cbn [next _registerIndex]. pose proof (extends_numRegisters _ _ He). split.
    + intros i Hi. rewrite fn_lookup_insert_ne by lia. by apply Hf1.
    + constructor; [cbn; by rewrite fn_lookup_insert|]. rewrite Forall_forall in HF1, Hr |- *. intros f Hin.
      specialize (Hr f Hin). rewrite fn_lookup_insert_ne by lia. by apply HF1.
Qed.

Lemma emits_op p0 p locations ops F p' w op v :
  emits p0 p locations ops F -> grown p p' w -> 0 <= w -> _dst op = [DstRegister (next p)] -> _locations op = locations ->
  (forall P σ σ', extends p P -> frame p0 σ σ' -> Forall (fun f => σ' f.1 = f.2 σ) F -> opInt P σ' op = Some (v σ)) ->
  emits p0 p' locations (ops ++ [op]) ((numRegisters p, fun σ => v σ mod 2 ^ w) :: F).
Proof.
  intros HE Hg _ Hdst Hloc Hval. apply (emits_gen p0 p locations ops F p' w op (fun P σ => default 0 (opInt P σ op)) _ HE Hg Hdst Hloc).
  intros P σ σ' HP Hf HF. by rewrite (Hval P σ σ' HP Hf HF).
Qed.

Lemma emits_next p0 p ops F p' w op v g :
  emits p0 p ∅ ops F -> grown p p' w -> 0 <= w -> computes_next p op v ->
  (forall P σ σ', extends p P -> frame p0 σ σ' -> Forall (fun f => σ' f.1 = f.2 σ) F -> v P σ' mod 2 ^ w = g σ) ->
  emits p0 p' ∅ (ops ++ [op]) ((numRegisters p, g) :: F).
Proof.
  intros HE Hg _ [Hd Hl Hv] Hval. apply (emits_gen p0 p ∅ ops F p' w op v g HE Hg Hd Hl). intros P σ σ' HP Hf HF. by rewrite Hv, (Hval P σ σ' HP Hf HF).
Qed.

(** Locations do not matter to what the operations compute. *)
Lemma run_relocate P f ops σ :
  (forall op, _opcode (f op) = _opcode op /\ _signExtendSourceMask (f op) = _signExtendSourceMask op /\ _src (f op) = _src op /\ _dst (f op) = _dst op) ->
  run P (f <$> ops) σ = run P ops σ.
Proof.
  intros Hf. revert σ; induction ops as [|op ops IH]; intros σ; [done|]. cbn [fmap list_fmap run].
  destruct (Hf op) as (H1 & H2 & H3 & H4). rewrite (step_ext P σ op (f op)) by done. destruct (step P σ op); cbn; auto.
Qed.

Lemma emits_relocate p0 p locations' ops F f :
  emits p0 p ∅ ops F ->
  (forall op, _opcode (f op) = _opcode op /\ _signExtendSourceMask (f op) = _signExtendSourceMask op /\ _src (f op) = _src op /\ _dst (f op) = _dst op) ->
  (forall op, _locations op = ∅ -> _locations (f op) = locations') -> emits p0 p locations' (f <$> ops) F.
Proof.
  intros [He Hr Hl Hrun] Hf Hloc. split; [done|done| |].
  - apply Forall_fmap. eapply Forall_impl; [exact Hl|]. cbn. auto.
  - intros P σ HP. rewrite run_relocate by done. by apply Hrun.
Qed.

(** ** Replacements *)

(** The operations [r] have the effect of [op] on the registers of [p0]. *)
Definition replaces (p0 : Program) (op : Operation) (r : Program * list Operation) : Prop :=
  extends p0 r.1 /\ forall P σ σ1, extends r.1 P -> step p0 σ op = Some σ1 -> exists σ', run P r.2 σ = Some σ' /\ frame p0 σ1 σ'.

(** The last operation writes the destination of [op]. *)
Lemma emits_replaces p0 p locations ops F op final d w :
  emits p0 p locations ops F -> _dst op = [DstRegister d] -> _dst final = [DstRegister d] -> has_width p0 (_registerIndex d) w ->
  (forall P σ σ' v, extends p P -> frame p0 σ σ' -> Forall (fun f => σ' f.1 = f.2 σ) F -> opInt p0 σ op = Some v ->
     exists v', opInt P σ' final = Some v' /\ v' mod 2 ^ w = v mod 2 ^ w) ->
  replaces p0 op (p, ops ++ [final]).
Proof.
  intros [He _ _ Hrun] Hd Hfd Hw Hval. split; [done|]. intros P σ σ1 HP Hstep.
  destruct (opInt p0 σ op) as [v|] eqn:Hv.
  2: { exfalso. unfold step, opValue in Hstep. rewrite Hd in Hstep. destruct (dstWidth p0 op); [|done]. by rewrite Hv in Hstep. }
  rewrite (step_value p0 σ op d w v Hd Hw Hv) in Hstep. injection Hstep as <-.
  destruct (Hrun P σ HP) as (σ' & Hσ' & Hf & HF). cbn [fst snd] in *. rewrite run_app, Hσ'. cbn [mbind option_bind run].
  destruct (Hval P σ σ' v HP Hf HF Hv) as (v' & Hv' & Hmod).
  rewrite (step_value P σ' final d w v' Hfd) by (done || (eapply has_width_extends; [by transitivity p|done])).
  cbn [mbind option_bind]. eexists; split; [reflexivity|]. rewrite Hmod. intros i Hi.
  destruct (decide (_registerIndex d = i)) as [<-|]; [by rewrite !fn_lookup_insert|]. rewrite !fn_lookup_insert_ne by done. by apply Hf.
Qed.

(** Facts are looked up by the register they are about. *)
Lemma fact_of (F : facts) σ σ' r f : Forall (fun g => σ' g.1 = g.2 σ) F -> (r, f) ∈ F -> σ' r = f σ.
Proof. intros H Hin. rewrite Forall_forall in H. by apply (H (r, f)). Qed.

End Emit.
