(* ===== verification/Decompositions.v ===== *)
(** * Comparisons by subtraction and by reduction

    [DecomposeCompareCarryChain] and [DecomposeCompareEQ] replace a comparison
    by operations that have its effect. *)

From stdpp Require Import functions.
From stdpp Require Import functions pretty.
From S2P Require Import Prelude MachineInt Literals Ir LutFacts Semantics Run Reduce ReduceCorrect Decompose Emit.
Import MachineInt Literals Ir LutFacts Semantics Run Reduce ReduceCorrect Decompose Emit.

Module DecomposeCompare.

(** What the decomposition of a comparison needs: two operands and a
    destination of one bit *)
Record compare_ok (program : Program) (op : Operation) (t : ParseTreeBinaryOpType) (a b : SourceOperand) (d : AccessedRegister) : Prop := mk_compare_ok {
  co_opcode : _opcode op = BinaryOp t;
  co_src : _src op = [a; b];
  co_wf : operand_wf program a /\ operand_wf program b;
  co_dst : _dst op = [DstRegister d];
  co_width : has_width program (_registerIndex d) 1;
  co_locations : _locations op <> ∅ }.

Lemma GetPromotedWidth_eq w s e : 0 < w < 2 ^ 30 -> GetPromotedWidth w s e = w + Z.b2z (e && negb s).
Proof. intros Hw. unfold GetPromotedWidth, u64_add. destruct (e && negb s); [rewrite u64_small by (unfold is_u64; lia)|]; cbn; lia. Qed.

(** Both operands fit into the wider of the promoted widths. *)
Lemma promoted_in_width w0 w1 s0 s1 v0 v1 :
  let e := s0 || s1 in let W := Z.max (w0 + Z.b2z (e && negb s0)) (w1 + Z.b2z (e && negb s1)) in
  0 < w0 -> 0 < w1 -> in_width w0 s0 v0 -> in_width w1 s1 v1 -> in_width W e v0 /\ in_width W e v1.
Proof.
  intros e W Hw0 Hw1 H0 H1.
  assert (Hgen : forall w s v, 0 < w -> w + Z.b2z (e && negb s) <= W -> (e = false -> s = false) -> in_width w s v -> in_width W e v).
  { intros w s v Hw Hle Hes Hv. destruct e; [destruct s|rewrite (Hes eq_refl) in *]; cbn in Hle.
    - eapply in_width_mono; [|exact Hv]. lia.
    - eapply in_width_mono; [|by apply in_width_promote]. lia.
    - eapply in_width_mono; [|exact Hv]. lia. }
  split; (eapply Hgen; [| |intros He|eassumption]; [done|lia|]); by destruct s0, s1.
Qed.

(** The sign of a difference *)
Lemma difference_sign W e a b :
  0 < W -> in_width W e a -> in_width W e b -> Z.shiftr ((a - b) mod 2 ^ (W + 1)) W = Z.b2z (a <? b).
Proof.
  intros HW Ha Hb. rewrite Z.shiftr_div_pow2 by lia. destruct (pow2_half W HW). assert (Hp : 2 ^ (W + 1) = 2 * 2 ^ W) by (rewrite Z.pow_add_r by lia; lia).
  assert (H2 : - 2 ^ W <= a - b < 2 ^ W) by (unfold in_width in *; destruct e; lia). rewrite Hp.
  destruct (Z.ltb_spec a b).
  - rewrite <- (Z.mod_unique_pos (a - b) (2 * 2 ^ W) (-1) (a - b + 2 * 2 ^ W)) by lia.
    by rewrite <- (Z.div_unique_pos _ (2 ^ W) 1 (a - b + 2 ^ W)) by lia.
  - rewrite Z.mod_small by lia. by rewrite Z.div_small by lia.
Qed.

Definition carry_chain_type (t : ParseTreeBinaryOpType) : bool :=
  match t with ParseTreeBinaryOpTypeGT | ParseTreeBinaryOpTypeGE | ParseTreeBinaryOpTypeLT | ParseTreeBinaryOpTypeLE => true | _ => false end.

Lemma shiftr_size_t p σ k : 0 <= k -> operandInt p σ false (SourceOperand_size_t k 64) = k.
Proof. done. Qed.

Lemma DecomposeCompareCarryChain_eq program op t a b d :
  compare_ok program op t a b d -> carry_chain_type t = true ->
  exists p' ops, DecomposeCompareCarryChain program op t = Ok (p', ops) /\ replaces program op (p', ops) /\
    Forall (fun op' => _locations op' = _locations op) ops.
Proof.
  intros [Hop Hsrc [Ha Hb] Hdst Hw1 _] Ht. destruct (id Hw1) as (dd & Hdd & _).
  assert (Hside : exists l r inv, carryChainOperands t = Ok (l, r, inv) /\ (l < 2)%nat /\ (r < 2)%nat /\
    forall x0 x1, let x i := if (i =? 0)%nat then x0 else x1 in
      binop_spec t x0 x1 mod 2 = (if inv : bool then Z.lnot (Z.b2z (x l <? x r)) else Z.b2z (x l <? x r)) mod 2).
  { destruct t; try done; cbn [carryChainOperands]; eexists _, _, _; (split; [reflexivity|]; do 2 (split; [lia|]); intros x0 x1; cbn [binop_spec Nat.eqb]).
    - done.
    - destruct (Z.leb_spec x1 x0), (Z.ltb_spec x0 x1); try lia; done.
    - done.
    - destruct (Z.leb_spec x0 x1), (Z.ltb_spec x1 x0); try lia; done. }
  destruct Hside as (l & r & inv & Hlr & Hl & Hr & Hval). set (o i := if (i =? 0)%nat then a else b).
  assert (Ho : forall i, (i < 2)%nat -> at_ (_src op) i = Ok (o i) /\ operand_wf program (o i) /\ ShouldSignExtend op i = Ok (signExtends op i)).
  { intros i Hi. rewrite Hsrc. destruct i as [|[|]]; [| |lia]; (split; [done|]; split; [done|]; apply ShouldSignExtend_eq; rewrite ?Hsrc; cbn; lia). }
  destruct (GetRegisterName_eq _ _ _ Hw1) as (name & Hname).
  unfold DecomposeCompareCarryChain. rewrite (dst0_eq _ _ Hdst), Hlr, Hsrc, Hdst. cbn [length Nat.eqb assert_ mbind result_bind]. rewrite Hname. cbn [mbind result_bind].
  rewrite <- Hsrc. destruct (Ho l Hl) as (-> & Hol & ->), (Ho r Hr) as (-> & Hor & ->). cbn [mbind result_bind].
  destruct (operand_in_width program (o l) Hol) as (wl & -> & Hwl & Hvl), (operand_in_width program (o r) Hor) as (wr & -> & Hwr & Hvr). cbn [mbind result_bind].
  rewrite !GetPromotedWidth_eq by done. set (sl := signExtends op l) in *. set (sr := signExtends op r) in *.
  set (W := Z.max _ _). assert (HWb : 0 < W < 2 ^ 31) by (unfold W; destruct sl, sr; cbn; lia).
  unfold u64_add, u64_sub. rewrite (u64_small (W + 1)) by (unfold is_u64; lia).
  destruct (allocateLocal_eq program (W + 1) (name +:+ "_diff")) as (p1 & -> & Hg1); [by apply app_suffix_nonempty|]. cbn [mbind result_bind].
  destruct (allocateLocal_eq p1 1 (name +:+ "_sign_bit")) as (p2 & -> & Hg2); [by apply app_suffix_nonempty|]. cbn [mbind result_bind].
  replace (W + 1 - 1) with W by lia. rewrite (u64_small W) by (unfold is_u64; lia).
  set (A σ := operandInt program σ sl (o l)). set (B σ := operandInt program σ sr (o r)).
  set (subOp := mkOperation _ _ _ _ _). set (shiftOp := PushOperand (PushOperand _ _ _) _ _). set (finalOp := PushOperand _ (SrcRegister _) false).
  assert (E1 : emits program p1 (_locations op) [subOp] [(numRegisters program, fun σ => (A σ - B σ) mod 2 ^ (W + 1))]).
  { apply (emits_op program program _ [] [] p1 (W + 1) subOp (fun σ => A σ - B σ)); try done; [apply emits_nil|lia|].
    intros P σ σ' HP Hf _. unfold opInt, subOp. cbn [_opcode binop_spec].
    assert (Hs : forall i x, [o l; o r] !! i = Some x -> srcInt P σ' subOp i = operandInt program σ (if (i =? 0)%nat then sl else sr) x).
    { intros i x Hi. unfold srcInt, subOp. cbn [_src]. rewrite Hi. destruct i as [|[|]]; [| |done]; injection Hi as <-.
      - rewrite (operandInt_old program P σ σ') by done. f_equal. unfold signExtends. cbn. by destruct sl, sr.
      - rewrite (operandInt_old program P σ σ') by done. f_equal. unfold signExtends. cbn. by destruct sl, sr. }
    fold subOp. by rewrite (Hs 0%nat (o l)), (Hs 1%nat (o r)) by done. }
  assert (E2 : emits program p2 (_locations op) [subOp; shiftOp]
    ((numRegisters p1, fun σ => Z.b2z (A σ <? B σ) mod 2 ^ 1) :: [(numRegisters program, fun σ => (A σ - B σ) mod 2 ^ (W + 1))])).
  { apply (emits_op program p1 _ [subOp] _ p2 1 shiftOp _ E1 Hg2); [lia|done|done|]. intros P σ σ' HP Hf HF. unfold shiftOp, opInt. cbn [_opcode PushOperand withLocations emptyOperation].
    destruct (srcInt_push2 P σ' (withLocations (_locations op) (emptyOperation (BinaryOp ParseTreeBinaryOpTypeShr) (DstRegister (next p1)))) (SrcRegister (next program)) false (SourceOperand_size_t W 64) false) as [-> ->]; [done|].
    rewrite shiftr_size_t by lia. rewrite (operandInt_reading _ _ _ _ (W + 1)) by (eapply has_width_extends; [exact HP|apply Hg1]). rewrite reading_unsigned.
    cbn [next _registerIndex binop_spec]. rewrite (fact_of _ _ _ _ _ HF ltac:(by left)), Zmod_mod. f_equal.
    apply (difference_sign W (sl || sr)); [lia| |]; apply (promoted_in_width wl wr sl sr (A σ) (B σ)); (lia || apply Hvl || apply Hvr). }
  eexists _, _; split; [reflexivity|]. split; [|by repeat constructor].
  apply (emits_replaces program p2 _ [subOp; shiftOp] _ op finalOp d 1 E2 Hdst); [done|done|]. intros P σ σ' v HP Hf HF Hv.
  assert (Hbit : operandInt P σ' false (SrcRegister (next p1)) = Z.b2z (A σ <? B σ)).
  { apply (operandInt_small P σ' false (next p1) 1); [eapply has_width_extends; [exact HP|apply Hg2]|lia|exact (proj1 (Forall_cons_1 _ _ _ HF))|].
    by destruct (A σ <? B σ). }
  unfold opInt in Hv. rewrite Hop in Hv. injection Hv as <-.
  rewrite (srcInt_lookup _ _ _ _ a), (srcInt_lookup _ _ _ _ b) by (by rewrite Hsrc). change (2 ^ 1) with 2. rewrite Hval.
  assert (Hfin : srcInt P σ' finalOp 0 = Z.b2z (A σ <? B σ)) by (unfold finalOp; by rewrite srcInt_push1).
  assert (Hx : (if (l =? 0)%nat then operandInt program σ (signExtends op 0) a else operandInt program σ (signExtends op 1) b) = A σ).
  { unfold A, sl, o. destruct l as [|[|]]; [done|done|lia]. }
  assert (Hy : (if (r =? 0)%nat then operandInt program σ (signExtends op 0) a else operandInt program σ (signExtends op 1) b) = B σ).
  { unfold B, sr, o. destruct r as [|[|]]; [done|done|lia]. }
  rewrite Hx, Hy. eexists. split; [|reflexivity]. unfold opInt. rewrite Hfin. unfold finalOp. cbn [_opcode PushOperand withLocations emptyOperation].
  by destruct inv.
Qed.


(** ** Equality *)

(** There is room for one more bit, and fuel for the reduction tree. *)
Definition width_fits (fuel : nat) (program : Program) (o : SourceOperand) : Prop :=
  forall w, SourceOperand_Width program o = Ok w -> w + 1 < 2 ^ 30 /\ (Z.to_nat w < fuel)%nat.

Lemma lxor_mod_zero W e a b :
  0 < W -> in_width W e a -> in_width W e b -> (Z.lxor a b mod 2 ^ W =? 0) = (a =? b).
Proof.
  intros HW Ha Hb. apply eq_true_iff_eq. rewrite !Z.eqb_eq. split; [|intros ->; by rewrite Z.lxor_nilpotent].
  intros Hx. assert (Hmod : a mod 2 ^ W = b mod 2 ^ W).
  { apply Z.bits_inj'. intros i Hi. destruct (Z.lt_ge_cases i W) as [Hlt|]; [|by rewrite !Z.mod_pow2_bits_high by lia].
    rewrite !Z.mod_pow2_bits_low by lia. apply (f_equal (fun z => Z.testbit z i)) in Hx.
    rewrite Z.mod_pow2_bits_low, Z.lxor_spec, Z.bits_0 in Hx by lia. by destruct (Z.testbit a i), (Z.testbit b i). }
  rewrite <- (reading_id W e a), <- (reading_id W e b) by done. unfold reading. by rewrite Hmod.
Qed.

(** The tree that follows the emitted operations *)
Lemma emits_reduces program p locations ops F op d r bit :
  emits program p locations ops F -> _dst op = [DstRegister d] -> has_width program (_registerIndex d) 1 ->
  reduces p (_registerIndex d) bit r ->
  (forall P σ σ' v, extends p P -> frame program σ σ' -> Forall (fun f => σ' f.1 = f.2 σ) F -> opInt program σ op = Some v ->
     Z.b2z (bit σ') = v mod 2) ->
  replaces program op (r.1, ops ++ r.2).
Proof.
  intros [He _ _ Hrun] Hd Hw Hr Hbit. destruct r as [p' ops']. destruct Hr as [Hep Hr]. cbn [fst snd]. split; [by transitivity p|].
  intros P σ σ1 HP Hstep. destruct (opInt program σ op) as [v|] eqn:Hv.
  2: { exfalso. unfold step, opValue in Hstep. rewrite Hd in Hstep. destruct (dstWidth program op); [|done]. by rewrite Hv in Hstep. }
  rewrite (step_value program σ op d 1 v Hd Hw Hv) in Hstep. injection Hstep as <-. cbn [fst snd] in *.
  destruct (Hrun P σ) as (σ2 & Hσ2 & Hf & HF); [by transitivity p'|]. rewrite run_app, Hσ2. cbn [mbind option_bind].
  destruct (Hr P σ2 HP) as (σ3 & Hσ3 & Hb & Hfr). exists σ3. split; [done|]. pose proof (extends_numRegisters _ _ He).
  intros i Hi. destruct (decide (i = _registerIndex d)) as [->|Hne].
  - rewrite Hb, fn_lookup_insert. apply (Hbit P σ σ2 v); [by transitivity p'|done..].
  - rewrite fn_lookup_insert_ne by done. rewrite Hfr by (done || lia). by apply Hf.
Qed.

Section Equality.
Context (fuel : nat) (supportsLuts : bool) (smallLutSize : Z) (Hlut : 2 <= smallLutSize <= 6).

Lemma DecomposeCompareEQ_eq program op t a b d :
  compare_ok program op t a b d -> t = ParseTreeBinaryOpTypeEQ \/ t = ParseTreeBinaryOpTypeNE ->
  width_fits fuel program a -> width_fits fuel program b ->
  exists p' ops, DecomposeCompareEQ fuel supportsLuts smallLutSize program op t = Ok (p', ops) /\ replaces program op (p', ops) /\
    Forall (fun op' => _locations op' <> ∅) ops.
Proof.
  intros [Hop Hsrc [Ha Hb] Hdst Hw1 Hloc] Ht Hfa Hfb. destruct (GetRegisterName_eq _ _ _ Hw1) as (name & Hname).
  assert (Hs : forall i, (i < 2)%nat -> ShouldSignExtend op i = Ok (signExtends op i)) by (intros i Hi; apply ShouldSignExtend_eq; rewrite ?Hsrc; cbn; lia).
  unfold DecomposeCompareEQ. rewrite (dst0_eq _ _ Hdst), Hdst, !Hs by lia. rewrite Hsrc. cbn [length Nat.eqb assert_ mbind result_bind]. rewrite Hname.
  cbn [mbind result_bind]. unfold at_ at 1 2. cbn [lookup list_lookup mbind result_bind].
  destruct (operand_in_width program a Ha) as (wa & Hwa & Hwab & Hva), (operand_in_width program b Hb) as (wb & Hwb & Hwbb & Hvb).
  destruct (Hfa wa Hwa) as [Ha1 Ha2], (Hfb wb Hwb) as [Hb1 Hb2]. rewrite Hwa, Hwb. cbn [mbind result_bind].
  rewrite !GetPromotedWidth_eq by done. set (s0 := signExtends op 0) in *. set (s1 := signExtends op 1) in *.
  set (W := Z.max _ _). assert (HWb : 0 < W < 2 ^ 30 /\ (Z.to_nat W <= fuel)%nat) by (unfold W; destruct s0, s1; cbn; lia). destruct HWb as [HWb HWf].
  destruct (allocateLocal_eq program W (name +:+ "_xor")) as (p1 & -> & Hg1); [by apply app_suffix_nonempty|]. cbn [mbind result_bind].
  set (A σ := operandInt program σ s0 a). set (B σ := operandInt program σ s1 b).
  assert (HA : forall σ, srcInt program σ op 0 = A σ) by (intros σ; by rewrite (srcInt_lookup _ _ _ _ a) by (by rewrite Hsrc)).
  assert (HB : forall σ, srcInt program σ op 1 = B σ) by (intros σ; by rewrite (srcInt_lookup _ _ _ _ b) by (by rewrite Hsrc)).
  assert (HAB : forall σ, (Z.lxor (A σ) (B σ) mod 2 ^ W =? 0) = (A σ =? B σ)).
  { intros σ. apply (lxor_mod_zero W (s0 || s1)); [lia| |]; apply (promoted_in_width wa wb s0 s1 (A σ) (B σ)); (lia || apply Hva || apply Hvb). }
  set (xorOp := mkOperation (BinaryOp ParseTreeBinaryOpTypeXor) _ _ _ _).
  assert (E1 : emits program p1 (_locations op) [xorOp] [(numRegisters program, fun σ => Z.lxor (A σ) (B σ) mod 2 ^ W)]).
  { apply (emits_op program program _ [] [] p1 W xorOp _ (emits_nil program _) Hg1); [lia|done|done|]. intros P σ σ' HP Hf _. unfold opInt, xorOp. cbn [_opcode binop_spec].
    assert (Hsame : forall i, srcInt P σ' xorOp i = srcInt program σ op i).
    { intros i. transitivity (srcInt P σ' op i); [unfold srcInt, xorOp; cbn [_src]; by rewrite Hsrc|]. apply srcInt_old; [rewrite Hsrc; by repeat constructor|done|done]. }
    fold xorOp. by rewrite !Hsame, HA, HB. }
  destruct Ht as [-> | ->].
  - rewrite bool_decide_eq_true_2 by done.
    destruct (allocateLocal_eq p1 W (name +:+ "_reduce_eq")) as (p2 & -> & Hg2); [by apply app_suffix_nonempty|]. cbn [mbind result_bind].
    set (invertOp := mkOperation (UnaryOp _) _ _ _ _).
    assert (E2 : emits program p2 (_locations op) [xorOp; invertOp]
      ((numRegisters p1, fun σ => Z.lnot (Z.lxor (A σ) (B σ) mod 2 ^ W) mod 2 ^ W) :: [(numRegisters program, fun σ => Z.lxor (A σ) (B σ) mod 2 ^ W)])).
    { apply (emits_op program p1 _ [xorOp] _ p2 W invertOp _ E1 Hg2); [lia|done|done|]. intros P σ σ' HP Hf HF. unfold opInt, invertOp, srcInt, signExtends. cbn [_opcode _src _signExtendSourceMask lookup list_lookup unop_spec].
      rewrite Z.bits_0, (operandInt_reading _ _ _ _ W) by (eapply has_width_extends; [exact HP|apply Hg1]). rewrite reading_unsigned.
      cbn [next _registerIndex]. pose proof (proj1 (Forall_cons_1 _ _ _ HF)) as Hx. cbn [fst snd] in Hx. by rewrite Hx, Zmod_mod. }
    destruct (ReduceBinaryOp_sound fuel supportsLuts smallLutSize p2 (next p1) ParseTreeBinaryOpTypeAnd d xorOp W) as (p3 & tree & -> & Hlocs & Hred); try done; [by left|apply Hg2|eapply has_width_extends; [apply E2|done]|].
    cbn [mbind result_bind]. eexists _, _; split; [reflexivity|]. split; [|repeat constructor; done].
    apply (emits_reduces program p2 _ _ _ op d (p3, tree) _ E2 Hdst Hw1 Hred). intros P σ σ' v HP Hf HF Hv.
    unfold opInt in Hv. rewrite Hop, HA, HB in Hv. injection Hv as <-. cbn [binop_spec]. pose proof (proj1 (Forall_cons_1 _ _ _ HF)) as Hx. cbn [fst snd] in Hx.
    cbn [next _registerIndex reductionBit]. rewrite Hx, Zmod_mod, <- HAB. set (X := Z.lxor (A σ) (B σ) mod 2 ^ W).
    assert (HX : 0 <= X < 2 ^ W) by (apply Z.mod_pos_bound, Z.pow_pos_nonneg; lia).
    rewrite <- (Z.mod_unique_pos (Z.lnot X) (2 ^ W) (-1) (2 ^ W - 1 - X)) by (unfold Z.lnot; lia).
    destruct (Z.eqb_spec X 0), (Z.eqb_spec (2 ^ W - 1 - X) (2 ^ W - 1)); try lia; done.
  - rewrite bool_decide_eq_false_2 by done. rewrite bool_decide_eq_true_2 by done. cbn [assert_ mbind result_bind].
    destruct (ReduceBinaryOp_sound fuel supportsLuts smallLutSize p1 (next program) ParseTreeBinaryOpTypeOr d xorOp W) as (p3 & tree & -> & Hlocs & Hred); try done; [by right|apply Hg1|eapply has_width_extends; [apply E1|done]|].
    cbn [mbind result_bind]. eexists _, _; split; [reflexivity|]. split; [|repeat constructor; done].
    apply (emits_reduces program p1 _ _ _ op d (p3, tree) _ E1 Hdst Hw1 Hred). intros P σ σ' v HP Hf HF Hv.
    unfold opInt in Hv. rewrite Hop, HA, HB in Hv. injection Hv as <-. cbn [binop_spec]. pose proof (proj1 (Forall_cons_1 _ _ _ HF)) as Hx. cbn [fst snd] in Hx.
    cbn [next _registerIndex reductionBit]. rewrite Hx, Zmod_mod, HAB. by destruct (A σ =? B σ).
Qed.
End Equality.

End DecomposeCompare.

(** * Selections in two levels and shifts bit by bit

    [DecomposeSelect] and [DecomposeShift] replace an operation by operations
    that have its effect. *)

Import MachineInt Literals Ir LutFacts Semantics Run Reduce Decompose Emit.

Module DecomposeSelect.

Definition named (program : Program) (r : nat) : Prop := exists d, _registerTable program !! r = Some d /\ _name d <> ""%string.

(** The result of a decomposition that may leave the operation alone *)
Definition replaced (program : Program) (op : Operation) (r : Program * option (list Operation)) : Prop :=
  match r.2 with
  | Some ops => replaces program op (r.1, ops) /\ Forall (fun op' => _locations op' <> ∅) ops
  | None => r.1 = program
  end.

Lemma OperationUsesOnlyLocalReg_table program op :
  (forall r, SrcRegister r ∈ _src op -> (_registerIndex r < numRegisters program)%nat) -> (forall d, DstRegister d ∈ _dst op -> (_registerIndex d < numRegisters program)%nat) ->
  exists b, OperationUsesOnlyLocalReg program op = Ok b.
Proof.
  intros Hsrc Hdst. unfold OperationUsesOnlyLocalReg, OperationUsesOnlyLocalSrcReg, OperationUsesOnlyLocalDstReg.
  destruct (foldM_inv (fun acc srcOp => match srcOp with SrcRegister r => d ← at_ (_registerTable program) (_registerIndex r); Ok (acc && IsLocalRegisterType (_type d)) | _ => Ok acc end)
    (fun _ => True) (_src op) true) as (b & -> & _); [done| |].
  { intros acc o Ho _. destruct o as [?|r|?|?]; [by exists acc| |by exists acc..]. destruct (lookup_lt_is_Some_2 _ _ (Hsrc r Ho)) as [d Hd]. rewrite (at_Some _ _ _ Hd). by exists (acc && IsLocalRegisterType (_type d)). }
  cbn [mbind result_bind]. destruct b; [|by exists false].
  destruct (foldM_inv (fun acc dstOp => match dstOp with DstRegister r => d ← at_ (_registerTable program) (_registerIndex r); Ok (acc && IsLocalRegisterType (_type d)) | _ => Ok acc end)
    (fun _ => True) (_dst op) true) as (b & -> & _); [done| |by exists b].
  intros acc o Ho _. destruct o as [d|]; [|by exists acc]. destruct (lookup_lt_is_Some_2 _ _ (Hdst d Ho)) as [x Hx]. rewrite (at_Some _ _ _ Hx). by exists (acc && IsLocalRegisterType (_type x)).
Qed.

Lemma operands_in_table program src : Forall (operand_wf program) src -> forall r, SrcRegister r ∈ src -> (_registerIndex r < numRegisters program)%nat.
Proof. intros H r Hr. rewrite Forall_forall in H. destruct (H _ Hr) as (d & Hd & _). by eapply lookup_lt_Some. Qed.

Lemma OperationUsesOnlyLocalReg_Ok program op :
  Forall (operand_wf program) (_src op) -> (forall d, DstRegister d ∈ _dst op -> (_registerIndex d < numRegisters program)%nat) ->
  exists b, OperationUsesOnlyLocalReg program op = Ok b.
Proof. intros Hsrc. apply OperationUsesOnlyLocalReg_table. by apply operands_in_table. Qed.

Lemma Log2_pow n : 0 <= n -> Log2 (2 ^ n) = Ok n.
Proof.
  intros Hn. unfold Log2, msb. rewrite IsPow2_pow by done. cbn [assert_ mbind result_bind]. pose proof (Z.pow_pos_nonneg 2 n ltac:(lia) Hn).
  destruct (Z.leb_spec (2 ^ n) 0); [lia|]. by rewrite Z.log2_pow2.
Qed.

(** ** Selections *)

Section Select.
Context (program : Program) (op : Operation) (d : AccessedRegister) (w n m : Z).

(** A selection among [2^n] choices *)
Record select_ok : Prop := mk_select_ok {
  so_opcode : _opcode op = Select;
  so_wf : op_wf program op;
  so_choices : 0 <= n /\ Z.of_nat (length (_src op)) = 2 ^ n + 1;
  so_dst : _dst op = [DstRegister d];
  so_width : has_width program (_registerIndex d) w /\ 0 < w;
  so_named : named program (_registerIndex d) /\ forall r, _src op !! 0%nat = Some (SrcRegister r) -> named program (_registerIndex r);
  so_locations : _locations op <> ∅ }.

Context (Hok : select_ok) (Hm : 1 <= m) (threshold : nat) (Hth : Z.of_nat threshold = 2 ^ m).

Let index σ := srcInt program σ op 0.
Let low σ := index σ mod 2 ^ m.
Let upper σ := Z.shiftr (index σ) m mod 2 ^ (n - m).

Lemma selectIntermediate_eq p ops F lower name results i :
  emits program p (_locations op) ops F -> name <> ""%string -> has_width p (_registerIndex lower) m ->
  (_registerIndex lower, low) ∈ F -> (i * threshold + 1 + threshold <= length (_src op))%nat ->
  exists p' op', selectIntermediate op threshold lower w name (p, ops, results) i = Ok (p', ops ++ [op'], results ++ [next p]) /\ grown p p' w /\
    emits program p' (_locations op) (ops ++ [op']) ((numRegisters p, fun σ => srcInt program σ op (i * threshold + 1 + Z.to_nat (low σ)) mod 2 ^ w) :: F).
Proof.
  intros HE Hname Hw Hlow Hlen. unfold selectIntermediate. destruct (allocateLocal_eq p w name Hname) as (p' & -> & Hg). cbn [mbind result_bind].
  destruct Hok as [_ Hwf _ _ [_ Hw0] _ _]. set (op0 := mkOperation Select 0 _ _ _).
  pose proof (wf_src_length _ _ Hwf) as H64. assert (Ht1 : (1 <= threshold)%nat) by (pose proof (Z.pow_pos_nonneg 2 m ltac:(lia) ltac:(lia)); lia).
  destruct (push_range op0 op (i * threshold + 1) threshold) as (op' & Heq & Hpu); [unfold mask_wf; cbn; lia|lia|lia|cbn; lia|].
  rewrite Heq. cbn [mbind result_bind]. exists p', op'. split; [done|]. split; [done|]. destruct Hpu as [Ho Hd Hl _ Hs Hold Hnew].
  apply (emits_op program p _ ops F p' w op' _ HE Hg); [lia|done|done|]. intros P σ σ' HP Hf HF. unfold opInt. rewrite Ho. cbn [op0 _opcode]. unfold selectInt.
  rewrite (Hold P σ' 0%nat) by (cbn; lia). assert (Hi0 : srcInt P σ' op0 0 = low σ).
  { unfold srcInt, op0, signExtends. cbn [_src lookup list_lookup _signExtendSourceMask]. rewrite Z.bits_0.
    apply (operandInt_small P σ' false lower m); [by eapply has_width_extends|lia|rewrite (fact_of _ _ _ _ _ HF Hlow)|].
    - unfold low. by rewrite Zmod_mod.
    - apply Z.mod_pos_bound, Z.pow_pos_nonneg; lia. }
  rewrite Hi0, Hs, length_app, length_take, length_drop. cbn [op0 _src length].
  replace (Z.of_nat (1 + threshold `min` (length (_src op) - (i * threshold + 1)) - 1)) with (2 ^ m) by lia.
  assert (Hlb : 0 <= low σ < 2 ^ m) by (apply Z.mod_pos_bound, Z.pow_pos_nonneg; lia). rewrite Z.mod_small by done.
  change (S (Z.to_nat (low σ))) with (length (_src op0) + Z.to_nat (low σ))%nat. rewrite Hnew by lia.
  f_equal. apply (srcInt_old program); [apply Hwf| |done]. transitivity p; [apply HE|done].
Qed.

Lemma threshold_pow : (2 <= threshold)%nat.
Proof. pose proof (Z.pow_le_mono_r 2 1 m ltac:(lia) ltac:(lia)). change (2 ^ 1) with 2 in *. lia. Qed.

(** The choices split into groups of [threshold]. *)
Lemma groups : m <= n -> let K := ((length (_src op) - 1) / threshold)%nat in
  ((length (_src op) - 1) mod threshold = 0)%nat /\ Z.of_nat K = 2 ^ (n - m) /\ (length (_src op) = K * threshold + 1)%nat.
Proof.
  intros Hnm K. destruct (so_choices Hok) as [Hn Hlen]. pose proof threshold_pow.
  assert (Hpow : 2 ^ n = 2 ^ (n - m) * 2 ^ m) by (rewrite <- Z.pow_add_r by lia; f_equal; lia).
  assert (Hl : (length (_src op) - 1 = Z.to_nat (2 ^ (n - m)) * threshold)%nat) by nia.
  unfold K. rewrite Hl, Nat.Div0.mod_mul, Nat.div_mul by lia. split; [done|]. split; [rewrite Z2Nat.id; [done|apply Z.pow_nonneg; lia]|].
  rewrite <- Hl. lia.
Qed.

Lemma selectLoop_eq p ops F lower name K :
  emits program p (_locations op) ops F -> name <> ""%string -> has_width p (_registerIndex lower) m ->
  (_registerIndex lower, low) ∈ F -> (K * threshold + 1 <= length (_src op))%nat ->
  exists p' ops' results F', foldM (selectIntermediate op threshold lower w name) (seq 0 K) (p, ops, []) = Ok (p', ops', results) /\
    emits program p' (_locations op) ops' F' /\ extends p p' /\ F ⊆ F' /\ length results = K /\
    forall k r, results !! k = Some r -> has_width p' (_registerIndex r) w /\
      (_registerIndex r, fun σ => srcInt program σ op (k * threshold + 1 + Z.to_nat (low σ)) mod 2 ^ w) ∈ F'.
Proof.
  intros HE Hname Hw Hlow Hlen.
  destruct (foldM_seq_inv (selectIntermediate op threshold lower w name) (fun i st => let '(p', ops', results) := st in exists F',
    emits program p' (_locations op) ops' F' /\ extends p p' /\ F ⊆ F' /\ length results = i /\
    forall k r, results !! k = Some r -> has_width p' (_registerIndex r) w /\
      (_registerIndex r, fun σ => srcInt program σ op (k * threshold + 1 + Z.to_nat (low σ)) mod 2 ^ w) ∈ F') K (p, ops, [])) as ([[p' ops'] results] & Heq & F' & HI).
  - exists F. split; [done|]. split; [reflexivity|]. split; [done|]. split; [done|]. by intros k r.
  - intros i [[p1 ops1] results] Hi (F1 & HE1 & He1 & HF1 & Hl1 & Hr1).
    destruct (selectIntermediate_eq p1 ops1 F1 lower name results i HE1 Hname) as (p2 & op2 & -> & Hg & HE2); [by eapply has_width_extends|by apply HF1|nia|].
    eexists; split; [reflexivity|]. cbn beta iota. eexists. split; [exact HE2|]. split; [transitivity p1; [done|apply Hg]|]. split; [intros x Hx; right; by apply HF1|].
    split; [rewrite length_app; cbn; lia|]. intros k r Hk. apply lookup_app_Some in Hk as [Hk|[Hge Hk]].
    + destruct (Hr1 k r Hk) as [Hwr Hfr]. split; [eapply has_width_extends; [apply Hg|done]|by right].
    + apply list_lookup_singleton_Some in Hk as [Hk0 <-]. split; [apply Hg|]. replace k with i by lia. by left.
  - by exists p', ops', results, F'.
Qed.

Lemma DecomposeSelect_eq :
  exists r, DecomposeSelect program op threshold = Ok r /\ replaced program op r.
Proof.
  destruct (id Hok) as [Hop Hwf [Hn Hlen] Hdst [Hw Hw0] [Hnd Hni] Hloc].
  destruct (OperationUsesOnlyLocalReg_Ok program op) as (local & Hlocal); [apply Hwf|rewrite Hdst; intros x [= ->]%list_elem_of_singleton; by eapply has_width_lt|].
  unfold DecomposeSelect. assert (Hld : length (_dst op) = 1%nat) by (by rewrite Hdst). rewrite Hld, (proj2 (Nat.eqb_neq (length (_src op)) 0)) by lia. cbn [length Nat.eqb negb assert_ mbind result_bind]. rewrite Hlocal. cbn [mbind result_bind].
  destruct local; cbn [negb]; [|by eexists].
  destruct (lookup_lt_is_Some_2 (_src op) 0) as [o Ho]; [lia|]. rewrite (at_Some _ _ _ Ho). cbn [mbind result_bind].
  destruct o as [|r| |]; [by eexists| |by eexists..]. destruct (Hni r Ho) as (rd & Hrd & Hrn). rewrite (at_Some _ _ _ Hrd). cbn [mbind result_bind].
  pose proof threshold_pow as Ht2. replace (Z.of_nat (length (_src op) - 1)) with (2 ^ n) by lia. rewrite Log2_pow by done. cbn [mbind result_bind].
  rewrite (assert_true (2 <=? threshold)%nat) by (by apply Nat.leb_le). cbn [mbind result_bind]. destruct (Nat.leb_spec (length (_src op) - 1) threshold) as [|Hgt]; [by eexists|].
  destruct (_ <=? threshold)%nat; [by eexists|]. rewrite Hth, Log2_pow by lia. cbn [mbind result_bind].
  assert (Hmn : m < n) by (apply (Z.pow_lt_mono_r_iff 2); lia). rewrite (assert_true (m <? n)) by (by apply Z.ltb_lt). cbn [mbind result_bind].
  destruct (allocateLocal_eq program m (_name rd) Hrn) as (p1 & -> & Hg1). cbn [mbind result_bind].
  destruct (allocateLocal_eq p1 (n - m) (_name rd) Hrn) as (p2 & -> & Hg2). cbn [mbind result_bind].
  rewrite !(PushOperandFrom_eq _ _ _ _ Ho) by lia. cbn [mbind result_bind].
  set (lowerOp := PushOperand _ _ _). set (upperOp := PushOperand _ (SourceOperand_size_t m 64) false).
  destruct (groups ltac:(lia)) as (Hmod & HK & HlenK). rewrite (assert_true ((length (_src op) - 1) mod threshold =? 0)%nat) by (by apply Nat.eqb_eq). cbn [mbind result_bind].
  rewrite Hdst. change (at_ [DstRegister d] 0) with (Ok (DstRegister d)). cbn [mbind result_bind DestinationOperand_Width destinationRegister].
  rewrite (registerWidth_eq _ _ _ (has_width_extends _ _ _ _ (gr_extends _ _ _ Hg2) (has_width_extends _ _ _ _ (gr_extends _ _ _ Hg1) Hw))). cbn [mbind result_bind].
  destruct Hnd as (dd & Hdd & Hdn). unfold GetRegisterName.
  rewrite (at_Some _ _ _ (extends_lookup _ _ _ _ (gr_extends _ _ _ Hg2) (extends_lookup _ _ _ _ (gr_extends _ _ _ Hg1) Hdd))). cbn [mbind result_bind].
  assert (Hidx : forall P σ σ' s, extends program P -> frame program σ σ' -> s = signExtends op 0 -> operandInt P σ' s (SrcRegister r) = index σ).
  { intros P σ σ' s HP Hf ->. unfold index. rewrite (srcInt_lookup _ _ _ _ _ Ho). apply operandInt_old; [|done..]. by eapply (Forall_lookup_1 _ _ _ _ (wf_src _ _ Hwf)). }
  assert (E1 : emits program p1 (_locations op) [lowerOp] [(numRegisters program, low)]).
  { apply (emits_op program program _ [] [] p1 m lowerOp index (emits_nil program _) Hg1); [lia|done|done|]. intros P σ σ' HP Hf _. unfold opInt. cbn [lowerOp _opcode PushOperand withLocations emptyOperation].
    fold lowerOp. unfold lowerOp. rewrite srcInt_push1 by done. by rewrite (Hidx P σ σ'). }
  assert (E2 : emits program p2 (_locations op) [lowerOp; upperOp] [(numRegisters p1, upper); (numRegisters program, low)]).
  { apply (emits_op program p1 _ [lowerOp] _ p2 (n - m) upperOp (fun σ => Z.shiftr (index σ) m) E1 Hg2); [lia|done|done|]. intros P σ σ' HP Hf _. unfold opInt. cbn [upperOp _opcode PushOperand withLocations emptyOperation].
    fold upperOp. destruct (srcInt_push2 P σ' (withLocations (_locations op) (emptyOperation (BinaryOp ParseTreeBinaryOpTypeShr) (DstRegister (next p1)))) (SrcRegister r) (signExtends op 0) (SourceOperand_size_t m 64) false) as [H0 H1]; [done|].
    unfold upperOp. rewrite H0, H1. rewrite (Hidx P σ σ'); [done| |done|done]. by transitivity p1; [apply Hg1|]. }
  destruct (selectLoop_eq p2 _ _ (next program) (_name dd) ((length (_src op) - 1) / threshold)%nat E2 Hdn) as (p3 & ops & results & F & -> & HE3 & He3 & HF3 & Hlr & Hres); [eapply has_width_extends; [apply Hg2|apply Hg1]|right; by left|lia|].
  cbn [mbind result_bind].
  rewrite (mapM_Ok _ (fun _ => tt)).
  2: { intros x Hx%list_elem_of_lookup_1. destruct Hx as (k & Hx). destruct (Hres k x Hx) as [Hwx _]. rewrite (registerWidth_eq _ _ _ Hwx). cbn. by rewrite Z.eqb_refl. }
  cbn [mbind result_bind]. eexists; split; [reflexivity|]. split.
  2: { apply Forall_app. split; [|by repeat constructor]. eapply Forall_impl; [apply HE3|]. by intros x ->. }
  set (finalOp := mkOperation Select 0 _ _ _). apply (emits_replaces program p3 _ ops F op finalOp d w HE3 Hdst); [done|done|].
  intros P σ σ' v HP Hf HF Hv. unfold opInt in Hv. rewrite Hop in Hv. injection Hv as <-. unfold opInt. cbn [finalOp _opcode].
  fold finalOp. eexists; split; [reflexivity|]. unfold selectInt.
  assert (Hub : 0 <= upper σ < 2 ^ (n - m)) by (apply Z.mod_pos_bound, Z.pow_pos_nonneg; lia).
  assert (Hu : srcInt P σ' finalOp 0 = upper σ).
  { unfold srcInt, finalOp, signExtends. cbn [_src lookup list_lookup _signExtendSourceMask]. rewrite Z.bits_0.
    apply (operandInt_small P σ' false (next p1) (n - m)); [eapply has_width_extends; [by transitivity p3|apply Hg2]|lia| |done].
    cbn [next _registerIndex]; rewrite (fact_of _ _ _ _ _ HF (HF3 _ ltac:(by left))). unfold upper. by rewrite Zmod_mod. }
  rewrite Hu. replace (Z.of_nat (length (_src finalOp) - 1)) with (2 ^ (n - m)) by (unfold finalOp; cbn [_src length]; rewrite length_fmap, Hlr; lia).
  rewrite (Z.mod_small (upper σ)) by done. destruct (lookup_lt_is_Some_2 results (Z.to_nat (upper σ))) as [x Hx]; [lia|]. destruct (Hres _ _ Hx) as [Hwx Hfx].
  assert (Hlb : 0 <= low σ < 2 ^ m) by (apply Z.mod_pos_bound, Z.pow_pos_nonneg; lia).
  unfold srcInt at 1, finalOp. cbn [_src]. change ((SrcRegister (next p1) :: (SrcRegister <$> results)) !! S (Z.to_nat (upper σ))) with ((SrcRegister <$> results) !! Z.to_nat (upper σ)). rewrite list_lookup_fmap, Hx. cbn [fmap option_fmap option_map]. unfold signExtends at 1. cbn [_signExtendSourceMask]. rewrite Z.bits_0.
  rewrite (operandInt_reading _ _ _ _ w) by (eapply has_width_extends; [exact HP|done]). rewrite reading_unsigned, (fact_of _ _ _ _ _ HF Hfx), !Zmod_mod. do 2 f_equal.
  replace (Z.of_nat (length (_src op) - 1)) with (2 ^ n) by lia.
  assert (Hsplit : index σ mod 2 ^ n = upper σ * 2 ^ m + low σ).
  { unfold upper, low. rewrite Z.shiftr_div_pow2 by lia. replace n with (m + (n - m)) at 1 by lia. rewrite Z.pow_add_r by lia.
    rewrite Z.rem_mul_r by (apply Z.pow_nonzero || apply Z.pow_pos_nonneg; lia). lia. }
  fold index. fold (index σ). rewrite Hsplit. nia.
Qed.

End Select.
(** ** Shifts *)

Definition shift_type (t : ParseTreeBinaryOpType) : bool :=
  match t with ParseTreeBinaryOpTypeShl | ParseTreeBinaryOpTypeShr => true | _ => false end.

(** The width after the shifts by the low [k] bits of the amount *)
Definition shifted_width (t : ParseTreeBinaryOpType) (w k : Z) : Z :=
  match t with ParseTreeBinaryOpTypeShl => w + 2 ^ k - 1 | _ => w end.

Lemma shift_add t a x y :
  shift_type t = true -> 0 <= x -> 0 <= y -> binop_spec t a (x + y) = binop_spec t (binop_spec t a x) y.
Proof. intros Ht Hx Hy. destruct t; try done; cbn; [by rewrite Z.shiftl_shiftl by lia|by rewrite Z.shiftr_shiftr by lia]. Qed.

Lemma shift_in_width t w s a j :
  shift_type t = true -> 0 < w -> 0 <= j -> in_width w s a ->
  in_width (match t with ParseTreeBinaryOpTypeShl => w + j | _ => w end) s (binop_spec t a j).
Proof.
  intros Ht Hw Hj Ha. pose proof (Z.pow_pos_nonneg 2 j ltac:(lia) Hj) as Hp. destruct t; try done; cbn [binop_spec]; unfold in_width in *.
  - rewrite Z.shiftl_mul_pow2 by done. replace (w + j - 1) with (w - 1 + j) by lia. rewrite !Z.pow_add_r by lia. destruct s; nia.
  - rewrite Z.shiftr_div_pow2 by done. pose proof (Z.div_mod a (2 ^ j) ltac:(lia)). pose proof (Z.mod_pos_bound a (2 ^ j) Hp). destruct s; nia.
Qed.

Section Shift.
Context (program : Program) (op : Operation) (t : ParseTreeBinaryOpType) (a : SourceOperand) (b d : AccessedRegister) (wa wb w : Z).

Record shift_ok : Prop := mk_shift_ok {
  sh_opcode : _opcode op = BinaryOp t /\ shift_type t = true;
  sh_src : _src op = [a; SrcRegister b];
  sh_wf : operand_wf program a /\ SourceOperand_Width program a = Ok wa;
  sh_amount : has_width program (_registerIndex b) wb /\ 0 < wb < 2 ^ 30 /\ signExtends op 1 = false;
  sh_room : wa + 2 ^ wb <= 2 ^ 64;
  sh_dst : _dst op = [DstRegister d];
  sh_width : has_width program (_registerIndex d) w;
  sh_named : forall r, a = SrcRegister r -> named program (_registerIndex r);
  sh_locations : _locations op <> ∅ }.

Context (Hok : shift_ok).

Let s := signExtends op 0.
Let A σ := operandInt program σ s a.
Let B σ := contents σ wb (_registerIndex b).
Let value (k : Z) σ := binop_spec t (A σ) (B σ mod 2 ^ k).

Lemma value_in_width k σ : 0 <= k -> in_width (shifted_width t wa k) s (value k σ).
Proof.
  intros Hk. destruct (sh_opcode Hok) as [_ Ht]. destruct (sh_wf Hok) as [Ha Hwa].
  destruct (operand_in_width program a Ha) as (w0 & Hw0 & Hb & Hin). rewrite Hwa in Hw0. injection Hw0 as <-.
  pose proof (Z.mod_pos_bound (B σ) (2 ^ k) ltac:(apply Z.pow_pos_nonneg; lia)) as Hm.
  pose proof (shift_in_width t wa s (A σ) (B σ mod 2 ^ k) Ht ltac:(lia) ltac:(lia) (Hin σ s)) as H.
  eapply in_width_mono; [|exact H]. unfold shifted_width. destruct t; try done; lia.
Qed.

Lemma value_step k σ : 0 <= k -> value (k + 1) σ = if Z.testbit (B σ) k then binop_spec t (value k σ) (2 ^ k) else value k σ.
Proof.
  intros Hk. destruct (sh_opcode Hok) as [_ Ht]. pose proof (Z.pow_pos_nonneg 2 k ltac:(lia) Hk).
  unfold value. rewrite Z.pow_add_r by lia. change (2 ^ 1) with 2. rewrite Z.rem_mul_r by lia.
  assert (Hb : B σ / 2 ^ k mod 2 = Z.b2z (Z.testbit (B σ) k)) by (by rewrite <- Z.bit0_mod, Z.div_pow2_bits, Z.add_0_l by lia).
  rewrite Hb. pose proof (Z.mod_pos_bound (B σ) (2 ^ k) ltac:(lia)). destruct (Z.testbit (B σ) k); cbn [Z.b2z].
  - rewrite Z.mul_1_r. by apply shift_add; [|lia|lia].
  - by rewrite Z.mul_0_r, Z.add_0_r.
Qed.

Lemma shifted_width_step k : 0 <= k < wb -> wb < 64 -> 0 < wa ->
  0 < shifted_width t wa k /\
  match t with
  | ParseTreeBinaryOpTypeShl => Ok (u64_add (shifted_width t wa k) (u64_shl 1 k))
  | ParseTreeBinaryOpTypeShr => Ok (shifted_width t wa k)
  | _ => Err AssertionFailed
  end = Ok (shifted_width t wa (k + 1)).
Proof.
  intros Hk Hwb Hwa. destruct (sh_opcode Hok) as [_ Ht]. pose proof (sh_room Hok) as Hroom. pose proof (Z.pow_pos_nonneg 2 k ltac:(lia) ltac:(lia)).
  assert (Hle : 2 ^ (k + 1) <= 2 ^ wb) by (apply Z.pow_le_mono_r; lia). assert (Hs : 2 ^ (k + 1) = 2 * 2 ^ k) by (rewrite Z.pow_add_r by lia; lia).
  destruct t; try done; cbn [shifted_width]. split; [lia|]. f_equal. change 1 with (Z.b2z true) at 2.
  rewrite u64_shl_bit, shiftl_1_pow by lia. unfold u64_add. rewrite u64_small by (unfold is_u64; lia). lia.
Qed.

Lemma shiftStep_eq p ops F cur bitName name k :
  0 <= k < wb -> wb < 64 -> emits program p ∅ ops F -> has_width p (_registerIndex cur) (shifted_width t wa k) ->
  (_registerIndex cur, fun σ => value k σ mod 2 ^ shifted_width t wa k) ∈ F ->
  exists p' ops' F' cur', shiftStep op t s (SrcRegister b) bitName name (p, ops, cur) k = Ok (p', ops', cur') /\
    emits program p' ∅ ops' F' /\ extends p p' /\ has_width p' (_registerIndex cur') (shifted_width t wa (k + 1)) /\
    (_registerIndex cur', fun σ => value (k + 1) σ mod 2 ^ shifted_width t wa (k + 1)) ∈ F'.
Proof.
  intros Hk Hwb HE Hw Hcur. destruct Hok as [[_ Ht] _ [Ha Hwa] [Hb [Hb0 _]] _ _ _ _ _].
  assert (Hwa0 : 0 < wa) by (destruct (operand_in_width program a Ha) as (w0 & Hw0 & ? & _); rewrite Hwa in Hw0; injection Hw0 as <-; lia).
  destruct (shifted_width_step k Hk Hwb Hwa0) as [Hpos Hnew]. set (W := shifted_width t wa k) in *. set (W' := shifted_width t wa (k + 1)) in *.
  unfold shiftStep. rewrite (registerWidth_eq _ _ _ Hw). cbn [mbind result_bind].
  destruct (allocateLocal_eq p 1 (bitName +:+ "_bit_" +:+ pretty k)) as (p1 & -> & Hg1); [by apply app_suffix_nonempty|]. cbn [mbind result_bind].
  rewrite (assert_true (k <? 64)) by (apply Z.ltb_lt; lia). cbn [mbind result_bind]. rewrite Hnew. cbn [mbind result_bind].
  destruct (allocateLocal_eq p1 W' (name +:+ "_shift_choice_" +:+ pretty (u64_shl 1 k))) as (p2 & -> & Hg2); [by apply app_suffix_nonempty|]. cbn [mbind result_bind].
  destruct (allocateLocal_eq p2 W' (name +:+ "_shifted_" +:+ pretty (u64_shl 1 k))) as (p3 & -> & Hg3); [by apply app_suffix_nonempty|]. cbn [mbind result_bind].
  set (extractBit := PushOperand (PushOperand _ (SrcRegister b) false) _ false). set (shiftOp := PushOperand (PushOperand _ (SrcRegister cur) s) _ false). set (muxOp := PushOperand _ _ s).
  assert (Hcurv : forall P σ σ', extends p P -> Forall (fun f => σ' f.1 = f.2 σ) F -> operandInt P σ' s (SrcRegister cur) = value k σ).
  { intros P σ σ' HP HF. apply (operandInt_small P σ' s cur W); [by eapply has_width_extends|done|by rewrite (fact_of _ _ _ _ _ HF Hcur)|]. apply (value_in_width k σ). lia. }
  assert (E1 : emits program p1 ∅ (ops ++ [extractBit]) ((numRegisters p, fun σ => Z.b2z (Z.testbit (B σ) k) mod 2 ^ 1) :: F)).
  { eapply (emits_op program p ∅ ops F p1 1 extractBit (fun σ => Z.shiftr (B σ) k)) in HE as E; [|done|lia|done|done|].
    - destruct E as [X1 X2 X3 X4]. split; [done|by inversion X2; constructor|done|]. intros P σ HP. destruct (X4 P σ HP) as (σ' & H1 & H2 & H3). exists σ'. split; [done|]. split; [done|].
      apply Forall_cons in H3 as [H3 H4]. constructor; [|done]. cbn [fst snd] in *. rewrite H3. change (2 ^ 1) with 2.
      rewrite <- Z.bit0_mod, Z.shiftr_spec, Z.add_0_l by lia. symmetry. apply Z.mod_small. by destruct (Z.testbit (B σ) k).
    - intros P σ σ' HP Hf HF. unfold opInt. cbn [extractBit _opcode PushOperand emptyOperation]. unfold extractBit.
      destruct (srcInt_push2 P σ' (emptyOperation (BinaryOp ParseTreeBinaryOpTypeShr) (DstRegister (next p))) (SrcRegister b) false (SourceOperand_size_t k 64) false) as [-> ->]; [done|].
      rewrite (operandInt_reading _ _ _ _ wb) by (eapply has_width_extends; [|exact Hb]; transitivity p; [apply HE|done]). rewrite reading_unsigned, Hf by (by eapply has_width_lt). done. }
  assert (E2 : emits program p2 ∅ ((ops ++ [extractBit]) ++ [shiftOp]) ((numRegisters p1, fun σ => binop_spec t (value k σ) (2 ^ k) mod 2 ^ W') :: (numRegisters p, fun σ => Z.b2z (Z.testbit (B σ) k) mod 2 ^ 1) :: F)).
  { apply (emits_op program p1 ∅ _ _ p2 W' shiftOp _ E1 Hg2); [unfold W', shifted_width; destruct t; try done; lia|done|done|]. intros P σ σ' HP Hf HF. apply Forall_cons in HF as [_ HF].
    unfold opInt. cbn [shiftOp _opcode PushOperand emptyOperation]. unfold shiftOp.
    destruct (srcInt_push2 P σ' (emptyOperation (BinaryOp t) (DstRegister (next p1))) (SrcRegister cur) s (SourceOperand_size_t (u64_shl 1 k) 64) false) as [-> ->]; [done|].
    rewrite (Hcurv P σ σ') by (done || (transitivity p1; [apply Hg1|done])). do 2 f_equal. change (lit_int (mkLiteral (u64_shl 1 k) 64) false = 2 ^ k). change 1 with (Z.b2z true). by rewrite u64_shl_bit, shiftl_1_pow by lia. }
  assert (E3 : emits program p3 ∅ (((ops ++ [extractBit]) ++ [shiftOp]) ++ [muxOp]) ((numRegisters p2, fun σ => value (k + 1) σ mod 2 ^ W') ::
    (numRegisters p1, fun σ => binop_spec t (value k σ) (2 ^ k) mod 2 ^ W') :: (numRegisters p, fun σ => Z.b2z (Z.testbit (B σ) k) mod 2 ^ 1) :: F)).
  { apply (emits_op program p2 ∅ _ _ p3 W' muxOp (value (k + 1)) E2 Hg3); [unfold W', shifted_width; destruct t; try done; lia|done|done|]. intros P σ σ' HP Hf HF.
    apply Forall_cons in HF as [Hs HF]. apply Forall_cons in HF as [Hbit HF]. cbn [fst snd] in Hs, Hbit. unfold muxOp. rewrite opInt_mux. f_equal.
    assert (H1 : extends p1 P) by (transitivity p2; [apply Hg2|done]). assert (H0 : extends p P) by (transitivity p1; [apply Hg1|done]).
    rewrite (Hcurv P σ σ' H0 HF), value_step by lia.
    rewrite (operandInt_small P σ' false (next p) 1 (Z.b2z (Z.testbit (B σ) k))); [|by eapply has_width_extends; [|apply Hg1]|lia|done|by destruct (Z.testbit (B σ) k)].
    rewrite (operandInt_small P σ' s (next p1) W' (binop_spec t (value k σ) (2 ^ k))); [by destruct (Z.testbit (B σ) k)|by eapply has_width_extends; [|apply Hg2]|unfold W', shifted_width; destruct t; try done; lia|done|].
    pose proof (shift_in_width t W s (value k σ) (2 ^ k) Ht Hpos ltac:(lia) (value_in_width k σ ltac:(lia))) as Hin. eapply in_width_mono; [|exact Hin].
    unfold W, W', shifted_width in *. rewrite Z.pow_add_r by lia. destruct t; try done; lia. }
  eexists p3, _, _, (next p2). split; [reflexivity|]. split; [by rewrite <- !(assoc_L (++)) in E3|]. split; [|split; [apply Hg3|by left]].
  transitivity p1; [apply Hg1|]. transitivity p2; [apply Hg2|apply Hg3].
Qed.


Lemma shiftLoop_eq p ops F cur bitName name :
  wb < 64 -> emits program p ∅ ops F -> has_width p (_registerIndex cur) wa -> (_registerIndex cur, fun σ => A σ mod 2 ^ wa) ∈ F ->
  exists p' ops' F' cur', foldM (shiftStep op t s (SrcRegister b) bitName name) (seqZ 0 wb) (p, ops, cur) = Ok (p', ops', cur') /\
    emits program p' ∅ ops' F' /\ extends p p' /\ has_width p' (_registerIndex cur') (shifted_width t wa wb) /\
    (_registerIndex cur', fun σ => value wb σ mod 2 ^ shifted_width t wa wb) ∈ F'.
Proof.
  intros Hwb HE Hw Hcur. destruct (sh_opcode Hok) as [_ Ht]. destruct (sh_amount Hok) as (_ & Hb0 & _).
  assert (H0 : shifted_width t wa 0 = wa) by (destruct t; try done; cbn; lia).
  assert (Hv0 : forall σ, value 0 σ = A σ) by (intros σ; unfold value; change (2 ^ 0) with 1; rewrite Z.mod_1_r; by destruct t).
  destruct (foldM_seqZ_inv (shiftStep op t s (SrcRegister b) bitName name) (fun k st => let '(p', ops', cur') := st in exists F',
    emits program p' ∅ ops' F' /\ extends p p' /\ has_width p' (_registerIndex cur') (shifted_width t wa k) /\
    (_registerIndex cur', fun σ => value k σ mod 2 ^ shifted_width t wa k) ∈ F') wb (p, ops, cur)) as ([[p' ops'] cur'] & Heq & F' & HI); [lia| | |by exists p', ops', F', cur'].
  - exists ((_registerIndex cur, fun σ => value 0 σ mod 2 ^ shifted_width t wa 0) :: F). rewrite H0. split; [|split; [reflexivity|split; [done|by left]]].
    destruct HE as [X1 X2 X3 X4]. split; try done.
    + constructor; [by eapply has_width_lt|done].
    + intros P σ HP. destruct (X4 P σ HP) as (σ' & H1 & H2 & H3). exists σ'. split; [done|]. split; [done|]. constructor; [|done]. cbn [fst snd]. rewrite Hv0. by rewrite (fact_of _ _ _ _ _ H3 Hcur).
  - intros k [[p1 ops1] cur1] Hk (F1 & HE1 & He1 & Hw1 & Hf1). destruct (shiftStep_eq p1 ops1 F1 cur1 bitName name k Hk Hwb HE1 Hw1 Hf1) as (p2 & ops2 & F2 & cur2 & -> & HE2 & He2 & Hw2 & Hf2).
    eexists; split; [reflexivity|]. cbn beta iota. exists F2. split; [done|]. split; [by transitivity p1|done].
Qed.

Lemma DecomposeShift_eq : exists r, DecomposeShift program op t = Ok r /\ replaced program op r.
Proof.
  destruct (id Hok) as [[Hop Ht] Hsrc [Ha Hwa] [Hb [Hb0 Hs1]] Hroom Hdst Hw Hn Hloc]. destruct (id Hb) as (bd & Hbd & Hbw).
  assert (Hwf : Forall (operand_wf program) (_src op)) by (rewrite Hsrc; repeat constructor; [done|]; exists bd; by rewrite Hbw).
  destruct (OperationUsesOnlyLocalReg_Ok program op Hwf) as (local & Hlocal); [rewrite Hdst; intros x [= ->]%list_elem_of_singleton; by eapply has_width_lt|].
  assert (Hsh : ShouldSignExtend op 0 = Ok s) by (apply ShouldSignExtend_eq; rewrite ?Hsrc; cbn; lia).
  destruct (operand_in_width program a Ha) as (wa' & Hwa' & Hwab & _). rewrite Hwa in Hwa'. injection Hwa' as <-.
  assert (Hld : length (_dst op) = 1%nat) by (by rewrite Hdst). assert (Hls : length (_src op) = 2%nat) by (by rewrite Hsrc).
  unfold DecomposeShift. rewrite Hls, Hld. cbn [Nat.eqb assert_ mbind result_bind]. rewrite Hlocal. cbn [mbind result_bind]. destruct local; cbn [negb]; [|by eexists].
  rewrite (at_Some (_src op) 0 a), (at_Some (_src op) 1 (SrcRegister b)) by (by rewrite Hsrc). cbn [mbind result_bind].
  assert (Hname : exists name, name <> ""%string /\ (match a with SrcRegister r => GetRegisterName program r | _ => l ← GetLiteral a; Ok ("shift_literal_" +:+ pretty (_value l)) end) = Ok name).
  { destruct a as [l|r| |]; try done; [by exists ("shift_literal_" +:+ pretty (_value l))|]. destruct (Hn r eq_refl) as (rd & Hrd & Hne). exists (_name rd). unfold GetRegisterName. by rewrite (at_Some _ _ _ Hrd). }
  destruct Hname as (name & Hne & ->). cbn [mbind result_bind]. rewrite Hwa. cbn [mbind result_bind]. rewrite Hsh. cbn [mbind result_bind].
  unfold GetRegisterName. rewrite (at_Some _ _ _ Hbd). cbn [mbind result_bind SourceOperand_Width]. rewrite (registerWidth_eq _ _ _ Hb). cbn [mbind result_bind].
  destruct (Z.leb_spec 64 wb) as [|H64]; [by eexists|].
  destruct (allocateLocal_eq program wa name Hne) as (p1 & -> & Hg1). cbn [mbind result_bind].
  rewrite (PushOperandFrom_eq _ op 0 a) by (lia || by rewrite Hsrc). cbn [mbind result_bind]. set (mov := PushOperand _ _ _).
  assert (E1 : emits program p1 ∅ [mov] [(numRegisters program, fun σ => A σ mod 2 ^ wa)]).
  { apply (emits_op program program _ [] [] p1 wa mov A (emits_nil program _) Hg1); [lia|done|done|]. intros P σ σ' HP Hf _. unfold opInt. cbn [mov _opcode PushOperand emptyOperation].
    fold mov. unfold mov. rewrite srcInt_push1 by done. unfold A. by rewrite (operandInt_old program P σ σ'). }
  destruct (shiftLoop_eq p1 _ _ (next program) (_name bd) name H64 E1) as (p2 & ops & F & cur & -> & HE & He & Hwc & Hfc); [apply Hg1|by left|].
  cbn [mbind result_bind]. rewrite (at_Some (_dst op) 0 (DstRegister d)) by (by rewrite Hdst). cbn [mbind result_bind]. eexists; split; [reflexivity|].
  set (finalOp := PushOperand _ (SrcRegister cur) s).
  assert (HE' : emits program p2 (_locations op) (updateOpLocations (_locations op) <$> ops) F).
  { apply emits_relocate; [done| |]; intros o; unfold updateOpLocations; [by destruct (decide _)|]. intros Ho. by destruct (decide _). }
  split; [|apply Forall_app; split; [|by repeat constructor]; eapply Forall_impl; [apply HE'|]; by intros x ->].
  apply (emits_replaces program p2 _ _ F op finalOp d w HE' Hdst); [done|done|]. intros P σ σ' v HP Hf HF Hv.
  exists v. split; [|done]. rewrite <- Hv. unfold opInt. rewrite Hop. cbn [finalOp _opcode PushOperand withLocations emptyOperation]. fold finalOp. unfold finalOp. rewrite srcInt_push1 by done.
  assert (Hwb0 : 0 <= wb) by lia. assert (Hin : in_width (shifted_width t wa wb) s (value wb σ)) by (by apply value_in_width).
  rewrite (operandInt_small P σ' s cur (shifted_width t wa wb) (value wb σ)); [|by eapply has_width_extends|pose proof (Z.pow_pos_nonneg 2 wb ltac:(lia) Hwb0); destruct t; try done; cbn; lia|by rewrite (fact_of _ _ _ _ _ HF Hfc)|exact Hin].
  f_equal. rewrite (srcInt_lookup _ _ _ _ a), (srcInt_lookup _ _ _ 1 (SrcRegister b)) by (by rewrite Hsrc). rewrite Hs1, (operandInt_register _ _ _ _ Hb).
  unfold value. fold (B σ). rewrite (Z.mod_small (B σ)); [done|]. apply (contents_range σ wb (_registerIndex b)). lia.
Qed.

End Shift.

End DecomposeSelect.

(** * Additions and subtractions word by word

    [DecomposeAddSub] replaces a wide addition or subtraction by operations on
    words that pass a carry or borrow bit on, or choose between the results for
    both values of that bit. *)

Import MachineInt Literals Ir LutFacts Semantics Run Reduce Decompose Emit DecomposeSelect.

Module DecomposeAdd.

(** ** Arithmetic on words *)

Section Arithmetic.
(** [1] for an addition, [-1] for a subtraction *)
Context (sgn : Z) (Hsgn : sgn = 1 \/ sgn = -1) (A B : Z).

Definition word (x k z : Z) : Z := Z.shiftr x k mod 2 ^ z.

(** The carry or borrow into bit [k] *)
Definition carry (k : Z) : Z := sgn * ((A mod 2 ^ k + sgn * (B mod 2 ^ k)) / 2 ^ k).

(** What the word of [z] bits at bit [k] adds up to, with [c] coming in *)
Definition wordSum (k z c : Z) : Z := word A k z + sgn * (word B k z + c).

Lemma word_range x k z : 0 <= z -> 0 <= word x k z < 2 ^ z.
Proof. intros Hz. apply Z.mod_pos_bound, Z.pow_pos_nonneg; lia. Qed.

Lemma low_split x k z : 0 <= k -> 0 <= z -> x mod 2 ^ (k + z) = x mod 2 ^ k + 2 ^ k * word x k z.
Proof.
  intros Hk Hz. unfold word. rewrite Z.shiftr_div_pow2, Z.pow_add_r by done. apply Z.rem_mul_r; [apply Z.pow_nonzero|apply Z.pow_pos_nonneg]; lia.
Qed.

Lemma carry_bit k : 0 <= k -> carry k = 0 \/ carry k = 1.
Proof.
  intros Hk. unfold carry. pose proof (Z.pow_pos_nonneg 2 k ltac:(lia) Hk) as Hp.
  pose proof (Z.mod_pos_bound A (2 ^ k) Hp). pose proof (Z.mod_pos_bound B (2 ^ k) Hp). set (x := _ + _).
  pose proof (Z.div_mod x (2 ^ k) ltac:(lia)). pose proof (Z.mod_pos_bound x (2 ^ k) Hp). destruct Hsgn as [-> | ->]; nia.
Qed.

Lemma carry_0 : carry 0 = 0.
Proof. unfold carry. change (2 ^ 0) with 1. rewrite !Z.mod_1_r. destruct Hsgn as [-> | ->]; done. Qed.

(** The low bits add up to what the carry says. *)
Lemma low_sum k : 0 <= k -> (A mod 2 ^ k + sgn * (B mod 2 ^ k)) / 2 ^ k = sgn * carry k.
Proof. intros Hk. unfold carry. destruct Hsgn as [-> | ->]; lia. Qed.

Lemma carry_next k z : 0 <= k -> 0 <= z -> sgn * carry (k + z) = wordSum k z (carry k) / 2 ^ z.
Proof.
  intros Hk Hz. rewrite <- low_sum by lia. rewrite !low_split, Z.pow_add_r by done.
  pose proof (Z.pow_pos_nonneg 2 k ltac:(lia) Hk). pose proof (Z.pow_pos_nonneg 2 z ltac:(lia) Hz).
  rewrite <- Z.div_div by lia. f_equal. unfold wordSum. rewrite (Z.mul_add_distr_l sgn (word B k z)), <- (low_sum k) by done.
  replace (A mod 2 ^ k + 2 ^ k * word A k z + sgn * (B mod 2 ^ k + 2 ^ k * word B k z))
    with (A mod 2 ^ k + sgn * (B mod 2 ^ k) + (word A k z + sgn * word B k z) * 2 ^ k) by ring.
  rewrite Z.div_add by lia. ring.
Qed.

Lemma wordSum_bounds k z c : 0 <= z -> c = 0 \/ c = 1 -> if sgn =? 1 then 0 <= wordSum k z c < 2 * 2 ^ z else - 2 ^ z <= wordSum k z c < 2 ^ z.
Proof.
  intros Hz Hc. unfold wordSum. pose proof (word_range A k z Hz). pose proof (word_range B k z Hz). destruct Hsgn as [-> | ->]; cbn [Z.eqb Pos.eqb]; lia.
Qed.

(** The bit above the word is the carry out. *)
Lemma wordSum_carry k z : 0 <= k -> 0 <= z -> Z.shiftr (wordSum k z (carry k) mod 2 ^ (z + 1)) z = carry (k + z).
Proof.
  intros Hk Hz. pose proof (carry_next k z Hk Hz) as Hn. pose proof (Z.pow_pos_nonneg 2 z ltac:(lia) Hz).
  rewrite Z.shiftr_div_pow2 by done. assert (Hp : 2 ^ (z + 1) = 2 ^ z * 2) by (rewrite Z.pow_add_r by lia; done). rewrite Hp.
  set (S := wordSum k z (carry k)) in *. assert (Hd : S mod (2 ^ z * 2) / 2 ^ z = (S / 2 ^ z) mod 2).
  { rewrite Z.rem_mul_r by lia. rewrite Z.mul_comm, Z.div_add by lia. rewrite Z.div_small by (apply Z.mod_pos_bound; lia). lia. }
  rewrite Hd, <- Hn. destruct (carry_bit (k + z) ltac:(lia)) as [-> | ->], Hsgn as [-> | ->]; done.
Qed.

Lemma wordSum_result k z : 0 <= k -> 0 <= z -> wordSum k z (carry k) mod 2 ^ z = word (A + sgn * B) k z.
Proof.
  intros Hk Hz. unfold word at 1. rewrite Z.shiftr_div_pow2 by done. pose proof (Z.pow_pos_nonneg 2 k ltac:(lia) Hk) as Hp. pose proof (Z.pow_pos_nonneg 2 z ltac:(lia) Hz).
  assert (Hsum : (A + sgn * B) / 2 ^ k = A / 2 ^ k + sgn * (B / 2 ^ k) + sgn * carry k).
  { rewrite <- low_sum by done. rewrite (Z.div_mod A (2 ^ k)) at 1 by lia. rewrite (Z.div_mod B (2 ^ k)) at 1 by lia.
    replace (2 ^ k * (A / 2 ^ k) + A mod 2 ^ k + sgn * (2 ^ k * (B / 2 ^ k) + B mod 2 ^ k))
      with (A mod 2 ^ k + sgn * (B mod 2 ^ k) + (A / 2 ^ k + sgn * (B / 2 ^ k)) * 2 ^ k) by ring.
    rewrite Z.div_add by lia. ring. }
  rewrite Hsum. unfold wordSum, word. rewrite !Z.shiftr_div_pow2 by done.
  rewrite (Z.div_mod (A / 2 ^ k) (2 ^ z)) at 2 by lia. rewrite (Z.div_mod (B / 2 ^ k) (2 ^ z)) at 2 by lia.
  set (a := A / 2 ^ k). set (b := B / 2 ^ k).
  replace (2 ^ z * (a / 2 ^ z) + a mod 2 ^ z + sgn * (2 ^ z * (b / 2 ^ z) + b mod 2 ^ z) + sgn * carry k)
    with (a mod 2 ^ z + sgn * (b mod 2 ^ z + carry k) + (a / 2 ^ z + sgn * (b / 2 ^ z)) * 2 ^ z) by ring.
  by rewrite Z.mod_add by lia.
Qed.

(** A bit below both operands: 1 on the left and the carry on the right, or 0
    and the borrow. *)
Lemma lsb_sum x y c : c = 0 \/ c = 1 -> Z.shiftr ((if sgn =? 1 then 1 else 0) + x * 2 + sgn * (c + y * 2)) 1 = x + sgn * (y + c).
Proof.
  intros Hc. rewrite Z.shiftr_div_pow2 by lia. change (2 ^ 1) with 2. symmetry.
  destruct Hsgn as [-> | ->], Hc as [-> | ->]; cbn [Z.eqb Pos.eqb]; [apply (Z.div_unique_pos _ 2 _ 1)|apply (Z.div_unique_pos _ 2 _ 0)|apply (Z.div_unique_pos _ 2 _ 0)|apply (Z.div_unique_pos _ 2 _ 1)]; lia.
Qed.

(** The bit on top of a word *)
Lemma carry_out_small x z : 0 <= z -> Z.shiftr (x mod 2 ^ (z + 1)) z mod 2 ^ 1 = Z.shiftr (x mod 2 ^ (z + 1)) z.
Proof.
  intros Hz. apply Z.mod_small. split; [apply Z.shiftr_nonneg, Z.mod_pos_bound, Z.pow_pos_nonneg; lia|]. rewrite Z.shiftr_div_pow2 by lia.
  apply Z.div_lt_upper_bound; [apply Z.pow_pos_nonneg; lia|]. rewrite <- Z.pow_add_r by lia. apply Z.mod_pos_bound, Z.pow_pos_nonneg; lia.
Qed.

Lemma shiftr_mod_pow2 x j k : 0 <= j <= k -> Z.shiftr (x mod 2 ^ k) j mod 2 ^ (k - j) = Z.shiftr x j mod 2 ^ (k - j).
Proof.
  intros Hj. apply Z.bits_inj'. intros i Hi. destruct (Z.lt_ge_cases i (k - j)); [|by rewrite !Z.mod_pow2_bits_high by lia].
  rewrite !Z.mod_pow2_bits_low, !Z.shiftr_spec by lia. by rewrite Z.mod_pow2_bits_low by lia.
Qed.

End Arithmetic.

(** ** One word *)

(** [1] for an addition, [-1] for a subtraction *)
Definition sign_of (t : ParseTreeBinaryOpType) : Z := if bool_decide (t = ParseTreeBinaryOpTypeAdd) then 1 else -1.

Lemma sign_of_cases t : sign_of t = 1 \/ sign_of t = -1.
Proof. unfold sign_of. destruct (bool_decide _); auto. Qed.

Definition add_type (t : ParseTreeBinaryOpType) : Prop := t = ParseTreeBinaryOpTypeAdd \/ t = ParseTreeBinaryOpTypeSub.

Lemma add_type_spec t x y : add_type t -> binop_spec t x y = x + sign_of t * y.
Proof. intros [-> | ->]; unfold sign_of; [rewrite bool_decide_eq_true_2 by done|rewrite bool_decide_eq_false_2 by done]; cbn; lia. Qed.

Section Words.
Context (program : Program) (op : Operation) (t : ParseTreeBinaryOpType) (o0 o1 : SourceOperand) (Ht : add_type t).
Context (Hsrc : _src op = [o0; o1]) (Hwf : operand_wf program o0 /\ operand_wf program o1).
Context (carrySelect : bool) (iw w numWords : Z) (dstName : string).
Notation isAdd := (bool_decide (t = ParseTreeBinaryOpTypeAdd)).
Notation sgn := (sign_of t).
Notation A := (fun σ => srcInt program σ op 0).
Notation B := (fun σ => srcInt program σ op 1).

(** What the carry or borrow bit of the iteration is *)
Definition carry_is (p : Program) (F : list (nat * ((nat -> Z) -> Z))) (i : Z) (carryBorrowBit : option AccessedRegister) (speculative : Z)
    (c : (nat -> Z) -> Z) : Prop :=
  (forall σ, c σ = 0 \/ c σ = 1) /\
  (i <> 0 -> if carrySelect then forall σ, c σ = speculative
             else exists r, carryBorrowBit = Some r /\ has_width p (_registerIndex r) 1 /\ (_registerIndex r, c) ∈ F).

(** The bit below the word of each source operand *)
Definition lsb (c : (nat -> Z) -> Z) (j : nat) (σ : nat -> Z) : Z := if (j =? 0)%nat then (if sgn =? 1 then 1 else 0) else c σ.

Definition sourceValue (i ws z : Z) (c : (nat -> Z) -> Z) (j : nat) (σ : nat -> Z) : Z :=
  let x := word (srcInt program σ op j) ws z in if i =? 0 then x else lsb c j σ + x * 2.

Lemma emits_has_width p ops F r v : emits program p ∅ ops F -> has_width program r v -> has_width p r v.
Proof. intros HE. apply has_width_extends, HE. Qed.

Lemma sourceWord_eq p ops F i ws z carryBorrowBit speculative c j :
  (j < 2)%nat -> emits program p ∅ ops F -> 0 <= ws < 2 ^ 31 -> 0 < z < 2 ^ 31 -> carry_is p F i carryBorrowBit speculative c ->
  exists p' ops' r, sourceWord op isAdd carrySelect i ws z carryBorrowBit speculative p j = Ok (p', ops', r) /\
    emits program p' ∅ (ops ++ ops') ((_registerIndex r, sourceValue i ws z c j) :: F) /\ extends p p' /\
    has_width p' (_registerIndex r) (z + if i =? 0 then 0 else 1).
Proof.
  intros Hj HE Hws Hz [Hc Hci]. destruct Hwf as [Hwf0 Hwf1]. assert (Ho : exists o, _src op !! j = Some o /\ operand_wf program o).
  { rewrite Hsrc. destruct j as [|[|]]; [by exists o0|by exists o1|lia]. }
  destruct Ho as (o & Ho & Hwo). assert (HwfO : Forall (operand_wf program) (_src op)) by (rewrite Hsrc; by repeat constructor).
  assert (Hname : exists name, GetSourceOperandName p o = Ok name).
  { destruct o as [l|r| |]; try done; [by eexists|]. destruct Hwo as (x & Hx & _). cbn. unfold GetRegisterName. rewrite (at_Some _ _ _ (extends_lookup _ _ _ _ (em_extends _ _ _ _ _ HE) Hx)). by eexists. }
  destruct Hname as (name & Hname). unfold sourceWord. rewrite (at_Some _ _ _ Ho). cbn [mbind result_bind]. rewrite Hname. cbn [mbind result_bind].
  rewrite ShouldSignExtend_eq by (rewrite ?Hsrc; cbn; lia). cbn [mbind result_bind]. set (wordName := name +:+ _).
  assert (Hne : wordName <> ""%string) by (by apply app_suffix_nonempty).
  destruct (NewBinaryOp_eq p ParseTreeBinaryOpTypeShr z wordName o (signExtends op j) (SourceOperand_size_t ws 64) false Hne) as (p1 & extractOp & -> & Hd1 & Hg1 & Hcn1).
  cbn [mbind result_bind]. rewrite Hd1. cbn [mbind result_bind].
  assert (E1 : emits program p1 ∅ (ops ++ [extractOp]) ((numRegisters p, fun σ => word (srcInt program σ op j) ws z) :: F)).
  { apply (emits_next program p ops F p1 z extractOp _ _ HE Hg1 ltac:(lia) Hcn1). intros P σ σ' HP Hf HF. cbn [binop_spec].
    rewrite (operandInt_old program P σ σ') by (done || (transitivity p; [apply HE|done])). change (operandInt P σ' false (SourceOperand_size_t ws 64)) with ws.
    by rewrite (srcInt_lookup _ _ _ _ _ Ho). }
  unfold sourceValue. destruct (Z.eqb_spec i 0) as [Hi|Hi].
  { exists p1, [extractOp], (next p). rewrite Z.add_0_r. split; [done|]. split; [done|]. split; apply Hg1. }
  assert (Hlsb : exists o', (if (j =? 0)%nat then Ok (SrcLiteral (mkLiteral (if isAdd then 1 else 0) 1))
      else assert_ (j =? 1)%nat;; if carrySelect then Ok (SrcLiteral (mkLiteral speculative 1)) else r ← of_option OutOfRange carryBorrowBit; Ok (SrcRegister r)) = Ok o' /\
      SourceOperand_Width p1 o' = Ok 1 /\ forall P σ σ', extends p1 P -> Forall (fun f => σ' f.1 = f.2 σ) F -> operandInt P σ' false o' = lsb c j σ).
  { unfold lsb. destruct (Nat.eqb_spec j 0) as [|Hj0].
    - eexists; split; [reflexivity|]. split; [done|]. intros P σ σ' _ _. unfold sign_of. by destruct isAdd.
    - rewrite (proj2 (Nat.eqb_eq j 1)) by lia. cbn [assert_ mbind result_bind]. specialize (Hci Hi). destruct carrySelect.
      + eexists; split; [reflexivity|]. split; [done|]. intros P σ σ' _ _. by rewrite Hci.
      + destruct Hci as (r & -> & Hr & Hf). cbn [of_option mbind result_bind]. eexists; split; [reflexivity|]. split; [cbn; apply registerWidth_eq; eapply has_width_extends; [apply Hg1|done]|].
        intros P σ σ' HP HF. apply (operandInt_small P σ' false r 1); [eapply has_width_extends; [|exact Hr]; transitivity p1; [apply Hg1|done]|lia| |by destruct (Hc σ) as [-> | ->]].
        rewrite (fact_of _ _ _ _ _ HF Hf). by destruct (Hc σ) as [-> | ->]. }
  destruct Hlsb as (o' & -> & Hwo' & Hv). cbn [mbind result_bind]. rewrite Hwo'. cbn [Z.eqb Pos.eqb assert_ mbind result_bind].
  destruct (Concat_eq p1 wordName o' (SrcRegister (next p)) 1 z Hne Hwo') as (p2 & gatherOp & -> & Hd2 & Hg2 & Hcn2); [cbn; apply registerWidth_eq, Hg1|lia|lia|lia|].
  cbn [mbind result_bind]. rewrite Hd2. cbn [mbind result_bind]. exists p2, [extractOp; gatherOp], (next p1). split; [done|]. split; [|split; [transitivity p1; [apply Hg1|apply Hg2]|rewrite Z.add_comm; apply Hg2]].
  assert (Hl01 : forall σ, 0 <= lsb c j σ < 2) by (intros σ; unfold lsb; destruct (j =? 0)%nat; [destruct (sgn =? 1); lia|destruct (Hc σ) as [-> | ->]; lia]).
  assert (E2 : emits program p2 ∅ ((ops ++ [extractOp]) ++ [gatherOp]) ((numRegisters p1, fun σ => lsb c j σ + word (srcInt program σ op j) ws z * 2) :: (numRegisters p, fun σ => word (srcInt program σ op j) ws z) :: F)).
  { apply (emits_next program p1 _ _ p2 (1 + z) gatherOp _ _ E1 Hg2 ltac:(lia) Hcn2). intros P σ σ' HP Hf HF. apply Forall_cons in HF as [Hx HF]. cbn [fst snd] in Hx. rewrite (Hv P σ σ' HP HF).
    pose proof (word_range (srcInt program σ op j) ws z ltac:(lia)) as Hwr.
    rewrite (operandInt_small P σ' false (next p) z (word (srcInt program σ op j) ws z)); [|by eapply has_width_extends; [|apply Hg1]|lia|cbn [next _registerIndex]; rewrite Hx; symmetry; by apply Z.mod_small|done].
    change (2 ^ 1) with 2. rewrite !Z.mod_small; [done|done|by apply Hl01| ]. rewrite Z.pow_add_r by lia. change (2 ^ 1) with 2. rewrite !Z.mod_small by (done || apply Hl01). specialize (Hl01 σ). lia. }
  rewrite <- (assoc_L (++)) in E2. eapply emits_facts; [exact E2|]. intros x Hx. apply elem_of_cons in Hx as [->|Hx]; [by left|by right; right].
Qed.

Lemma carry_is_mono p p' F F' i carryBorrowBit speculative c :
  extends p p' -> F ⊆ F' -> carry_is p F i carryBorrowBit speculative c -> carry_is p' F' i carryBorrowBit speculative c.
Proof.
  intros He HF [Hc Hi]. split; [done|]. intros Hne. specialize (Hi Hne). destruct carrySelect; [done|]. destruct Hi as (r & Hr & Hw & Hin).
  exists r. split; [done|]. split; [by eapply has_width_extends|by apply HF].
Qed.

(** What the word adds up to *)
Definition total (i ws z : Z) (c : (nat -> Z) -> Z) (σ : nat -> Z) : Z := wordSum sgn (A σ) (B σ) ws z (if i =? 0 then 0 else c σ).

Lemma source_total i ws z c σ :
  c σ = 0 \/ c σ = 1 ->
  let X := sourceValue i ws z c 0 σ + sgn * sourceValue i ws z c 1 σ in
  total i ws z c σ = if i =? 0 then X else Z.shiftr X 1.
Proof.
  intros Hc X. unfold total, X, sourceValue. destruct (i =? 0); [unfold wordSum; lia|]. unfold lsb. cbn [Nat.eqb]. by rewrite (lsb_sum _ (sign_of_cases t)).
Qed.

Lemma sourceValue_range i ws z c j σ :
  0 < z -> c σ = 0 \/ c σ = 1 -> 0 <= sourceValue i ws z c j σ < 2 ^ (z + if i =? 0 then 0 else 1).
Proof.
  intros Hz Hc. unfold sourceValue. pose proof (word_range (srcInt program σ op j) ws z ltac:(lia)). destruct (i =? 0); [by rewrite Z.add_0_r|].
  rewrite Z.pow_add_r by lia. change (2 ^ 1) with 2. unfold lsb. destruct (j =? 0)%nat; [destruct (sgn =? 1); lia|destruct Hc as [-> | ->]; lia].
Qed.

Lemma sum_congr x x' y y' m : x mod m = x' mod m -> y mod m = y' mod m -> (x + sgn * y) mod m = (x' + sgn * y') mod m.
Proof. intros Hx Hy. by rewrite (Zplus_mod x), (Zplus_mod x'), (Zmult_mod sgn y), (Zmult_mod sgn y'), Hx, Hy. Qed.

(** The sum of the two words *)
Lemma addSub_sum p F i ws z c s r0 r1 P σ σ' W :
  has_width p (_registerIndex r0) (z + if i =? 0 then 0 else 1) -> has_width p (_registerIndex r1) (z + if i =? 0 then 0 else 1) ->
  (_registerIndex r0, sourceValue i ws z c 0) ∈ F -> (_registerIndex r1, sourceValue i ws z c 1) ∈ F ->
  0 < z -> (forall σ, c σ = 0 \/ c σ = 1) -> (s = true -> W = z + if i =? 0 then 0 else 1) ->
  extends p P -> Forall (fun f => σ' f.1 = f.2 σ) F ->
  binop_spec t (operandInt P σ' s (SrcRegister r0)) (operandInt P σ' s (SrcRegister r1)) mod 2 ^ W
  = (sourceValue i ws z c 0 σ + sgn * sourceValue i ws z c 1 σ) mod 2 ^ W.
Proof.
  intros Hr0 Hr1 Hf0 Hf1 Hz Hc HW HP HF. rewrite add_type_spec by done. set (V := z + _) in *.
  assert (Hop : forall r j, has_width p (_registerIndex r) V -> (_registerIndex r, sourceValue i ws z c j) ∈ F ->
    operandInt P σ' s (SrcRegister r) mod 2 ^ W = sourceValue i ws z c j σ mod 2 ^ W).
  { intros r j Hr Hf. assert (HVpos : 0 < V) by (unfold V; destruct (i =? 0); lia). pose proof (sourceValue_range i ws z c j σ Hz (Hc σ)) as Hrange. fold V in Hrange.
    rewrite (operandInt_reading _ _ _ _ V) by (by eapply has_width_extends). rewrite (fact_of _ _ _ _ _ HF Hf). destruct s.
    - rewrite (HW eq_refl). apply reading_mod. lia.
    - rewrite reading_unsigned. by rewrite (Z.mod_small _ (2 ^ V)). }
  apply sum_congr; by apply Hop.
Qed.

Lemma mask_literal z : 0 < z < 2 ^ 31 -> exists wm, SourceOperand_mp_int (Z.shiftl 1 z - 1) = Ok (SrcLiteral (mkLiteral (2 ^ z - 1) wm)).
Proof.
  intros Hz. rewrite shiftl_1_pow by lia. pose proof (proj1 (Z.pow_gt_1 2 z ltac:(lia)) ltac:(lia)). unfold SourceOperand_mp_int, GetMpWidth, msb.
  destruct (Z.eqb_spec (2 ^ z - 1) 0); [lia|]. destruct (Z.leb_spec (2 ^ z - 1) 0); [lia|]. cbn. by eexists.
Qed.

(** A word of the result, and the carry or borrow bit out of it *)
Definition word_result (p : Program) (F : list (nat * ((nat -> Z) -> Z))) (i ws z : Z) (c : (nat -> Z) -> Z)
    (r : AccessedRegister) (cr : option AccessedRegister) : Prop :=
  has_width p (_registerIndex r) z /\ (_registerIndex r, fun σ => total i ws z c σ mod 2 ^ z) ∈ F /\
  (i <> numWords - 1 -> exists r', cr = Some r' /\ has_width p (_registerIndex r') 1 /\
     (_registerIndex r', fun σ => Z.shiftr (total i ws z c σ mod 2 ^ (z + 1)) z) ∈ F).

Lemma word_result_mono p p' F F' i ws z c r cr : extends p p' -> F ⊆ F' -> word_result p F i ws z c r cr -> word_result p' F' i ws z c r cr.
Proof.
  intros He HF (Hw & Hin & Hc). split; [by eapply has_width_extends|]. split; [by apply HF|]. intros Hi. destruct (Hc Hi) as (r' & ? & ? & ?).
  exists r'. split; [done|]. split; [by eapply has_width_extends|by apply HF].
Qed.

(** The bit below the word is discarded again in all words but the first. *)
Lemma discard_eq p F ops addOp r W i ws z c (last : bool) name :
  name <> ""%string -> emits program p ∅ (ops ++ [addOp]) F -> has_width p (_registerIndex r) W ->
  W = z + (if i =? 0 then 0 else 1) + (if last then 0 else 1) -> 0 < z < 2 ^ 31 -> (forall σ, c σ = 0 \/ c σ = 1) ->
  (_registerIndex r, fun σ => (sourceValue i ws z c 0 σ + sgn * sourceValue i ws z c 1 σ) mod 2 ^ W) ∈ F ->
  exists p' ops' s, (if i =? 0 then Ok (p, [addOp], r)
      else '(program, discardOp) ← NewBinaryOp p ParseTreeBinaryOpTypeShr (u64_sub W 1) name (SrcRegister r) false (SourceOperand_size_t 1 64) false;
           addSubOutput ← dst0 discardOp; Ok (program, [addOp; discardOp], addSubOutput)) = Ok (p', ops', s) /\
    extends p p' /\ has_width p' (_registerIndex s) (z + if last then 0 else 1) /\
    exists F', emits program p' ∅ (ops ++ ops') F' /\ F ⊆ F' /\ (_registerIndex s, fun σ => total i ws z c σ mod 2 ^ (z + if last then 0 else 1)) ∈ F'.
Proof.
  intros Hn HE Hr HW Hz Hc Hin. pose proof (fun σ => source_total i ws z c σ (Hc σ)) as HX. cbv zeta in HX.
  destruct (Z.eqb_spec i 0) as [Hi0|Hi0].
  - rewrite Z.add_0_r in HW. eexists _, _, _. split; [reflexivity|]. split; [reflexivity|]. rewrite <- HW. split; [done|]. exists ((_registerIndex r, fun σ => total i ws z c σ mod 2 ^ W) :: F).
    split; [eapply emits_also; [exact HE|exact Hin|]|split; [intros x Hx; by right|by left]]. intros σ. by rewrite HX.
  - unfold u64_sub. rewrite (u64_small (W - 1)) by (unfold is_u64; destruct last; lia).
    destruct (NewBinaryOp_eq p ParseTreeBinaryOpTypeShr (W - 1) name (SrcRegister r) false (SourceOperand_size_t 1 64) false Hn) as (p4 & discardOp & -> & Hd4 & Hg4 & Hcn4).
    cbn [mbind result_bind]. rewrite Hd4. cbn [mbind result_bind]. eexists _, _, _. split; [reflexivity|]. split; [apply Hg4|].
    assert (HWz : W - 1 = z + if last then 0 else 1) by lia. rewrite <- HWz. split; [apply Hg4|]. exists ((numRegisters p, fun σ => total i ws z c σ mod 2 ^ (W - 1)) :: F). split; [|split; [intros x Hx; by right|by left]].
    replace [addOp; discardOp] with ([addOp] ++ [discardOp]) by done. rewrite (assoc_L (++)).
    apply (emits_next program p _ _ p4 (W - 1) discardOp _ _ HE Hg4 ltac:(destruct last; lia) Hcn4). intros P σ σ' HP Hf HF. cbn [binop_spec].
    rewrite (operandInt_reading _ _ _ _ W) by (by eapply has_width_extends). rewrite reading_unsigned, (fact_of _ _ _ _ _ HF Hin), Zmod_mod.
    change (operandInt P σ' false (SourceOperand_size_t 1 64)) with 1. rewrite shiftr_mod_pow2 by (destruct last; lia). by rewrite HX.
Qed.

(** The word of the result and its carry bit are taken apart. *)
Lemma splitCarry_eq p ops F s i ws z c wordName :
  wordName <> ""%string -> 0 < z < 2 ^ 31 -> emits program p ∅ ops F -> has_width p (_registerIndex s) (z + 1) ->
  (_registerIndex s, fun σ => total i ws z c σ mod 2 ^ (z + 1)) ∈ F ->
  exists p5 andOp p6 carryOp mask, SourceOperand_mp_int (Z.shiftl 1 z - 1) = Ok mask /\
    NewBinaryOp p ParseTreeBinaryOpTypeAnd z wordName (SrcRegister s) false mask false = Ok (p5, andOp) /\ dst0 andOp = Ok (next p) /\
    NewBinaryOp p5 ParseTreeBinaryOpTypeShr 1 (wordName +:+ (if isAdd then "_carry" else "_borrow")) (SrcRegister s) false (SourceOperand_size_t z 64) false = Ok (p6, carryOp) /\
    dst0 carryOp = Ok (next p5) /\
    exists F', emits program p6 ∅ ((ops ++ [andOp]) ++ [carryOp]) F' /\ extends p p6 /\ F ⊆ F' /\ word_result p6 F' i ws z c (next p) (Some (next p5)).
Proof.
  intros Hwn Hz HE Hs Hin. destruct (mask_literal z Hz) as (wm & ->).
  destruct (NewBinaryOp_eq p ParseTreeBinaryOpTypeAnd z wordName (SrcRegister s) false (SrcLiteral (mkLiteral (2 ^ z - 1) wm)) false Hwn) as (p5 & andOp & H5 & Hd5 & Hg5 & Hcn5).
  assert (Hcn : wordName +:+ (if isAdd then "_carry" else "_borrow") <> ""%string) by (destruct isAdd; by apply app_suffix_nonempty).
  destruct (NewBinaryOp_eq p5 ParseTreeBinaryOpTypeShr 1 _ (SrcRegister s) false (SourceOperand_size_t z 64) false Hcn) as (p6 & carryOp & H6 & Hd6 & Hg6 & Hcn6).
  exists p5, andOp, p6, carryOp, (SrcLiteral (mkLiteral (2 ^ z - 1) wm)). repeat (split; [done|]).
  assert (Hread : forall P σ σ', extends p P -> Forall (fun f => σ' f.1 = f.2 σ) F -> operandInt P σ' false (SrcRegister s) = total i ws z c σ mod 2 ^ (z + 1)).
  { intros P σ σ' HP HF. rewrite (operandInt_reading _ _ _ _ (z + 1)) by (by eapply has_width_extends). rewrite reading_unsigned. rewrite (fact_of _ _ _ _ _ HF Hin). by rewrite Zmod_mod. }
  assert (E5 : emits program p5 ∅ (ops ++ [andOp]) ((numRegisters p, fun σ => total i ws z c σ mod 2 ^ z) :: F)).
  { apply (emits_next program p _ _ p5 z andOp _ _ HE Hg5 ltac:(lia) Hcn5). intros P σ σ' HP Hf HF. cbn [binop_spec]. rewrite (Hread P σ σ' HP HF).
    change (operandInt P σ' false (SrcLiteral (mkLiteral (2 ^ z - 1) wm))) with (2 ^ z - 1).
    replace (2 ^ z - 1) with (Z.ones z) by (rewrite Z.ones_equiv; lia). rewrite Z.land_ones, Zmod_mod by lia. by rewrite mod_mod_pow2 by lia. }
  eexists ((numRegisters p5, fun σ => Z.shiftr (total i ws z c σ mod 2 ^ (z + 1)) z) :: _). split.
  { apply (emits_next program p5 _ _ p6 1 carryOp _ _ E5 Hg6 ltac:(lia) Hcn6). intros P σ σ' HP Hf HF. cbn [binop_spec]. apply Forall_cons in HF as [_ HF].
    rewrite (Hread P σ σ') by (done || (transitivity p5; [apply Hg5|done])). change (operandInt P σ' false (SourceOperand_size_t z 64)) with z.
    apply carry_out_small. lia. }
  split; [transitivity p5; [apply Hg5|apply Hg6]|]. split; [intros x Hx; by do 2 right|]. split; [eapply has_width_extends; [apply Hg6|apply Hg5]|]. split; [right; by left|].
  intros _. exists (next p5). split; [done|]. split; [apply Hg6|by left].
Qed.

Lemma speculateWord_eq p ops F i ws z carryBorrowBit speculative c :
  emits program p ∅ ops F -> 0 <= i -> 0 <= ws < 2 ^ 31 -> 0 < z < 2 ^ 31 -> 1 < numWords ->
  carry_is p F i carryBorrowBit speculative c ->
  exists p' ops' r cr F', speculateWord op t isAdd carrySelect numWords dstName i ws z carryBorrowBit p speculative = Ok (p', ops', r, cr) /\
    emits program p' ∅ (ops ++ ops') F' /\ extends p p' /\ F ⊆ F' /\ word_result p' F' i ws z c r cr.
Proof.
  intros HE Hi Hws Hz Hnw Hci. pose proof (proj1 Hci) as Hc. unfold speculateWord.
  destruct (sourceWord_eq p ops F i ws z carryBorrowBit speculative c 0 ltac:(lia) HE Hws Hz Hci) as (p1 & ops1 & r0 & -> & HE1 & He1 & Hw0). cbn [mbind result_bind].
  destruct (sourceWord_eq p1 _ _ i ws z carryBorrowBit speculative c 1 ltac:(lia) HE1 Hws Hz) as (p2 & ops2 & r1 & -> & HE2 & He2 & Hw1); [eapply carry_is_mono; [exact He1| |exact Hci]; intros x Hx; by right|]. cbn [mbind result_bind].
  set (V := z + if i =? 0 then 0 else 1) in *. assert (HV : 0 < V < 2 ^ 32) by (unfold V; destruct (i =? 0); lia).
  assert (Hw0' : has_width p2 (_registerIndex r0) V) by (by eapply has_width_extends).
  rewrite (registerWidth_eq _ _ _ Hw0'), (registerWidth_eq _ _ _ Hw1). cbn [mbind result_bind]. rewrite Z.eqb_refl. cbn [assert_ mbind result_bind].
  set (last := i =? numWords - 1). unfold u64_add. rewrite (u64_small (V + if last then 0 else 1)) by (unfold is_u64; destruct last; lia). set (W := V + if last then 0 else 1).
  set (sumName := dstName +:+ (if isAdd then _ else _) +:+ _). assert (Hsn : sumName <> ""%string) by (unfold sumName; destruct isAdd; by apply app_suffix_nonempty).
  destruct (NewBinaryOp_eq p2 t W sumName (SrcRegister r0) last (SrcRegister r1) last Hsn) as (p3 & addOp & -> & Hd3 & Hg3 & Hcn3). cbn [mbind result_bind]. rewrite Hd3. cbn [mbind result_bind].
  set (X σ := sourceValue i ws z c 0 σ + sgn * sourceValue i ws z c 1 σ). set (F2 := _ :: _ :: F) in HE2.
  assert (HW : 0 < W < 2 ^ 33) by (unfold W; destruct last; lia).
  assert (E3 : emits program p3 ∅ (((ops ++ ops1) ++ ops2) ++ [addOp]) ((numRegisters p2, fun σ => X σ mod 2 ^ W) :: F2)).
  { apply (emits_next program p2 _ _ p3 W addOp _ _ HE2 Hg3 ltac:(lia) Hcn3). intros P σ σ' HP Hf HF.
    apply (addSub_sum p2 F2 i ws z c last r0 r1 P σ σ' W); try done; [right; by left|by left|lia|]. intros Hl. unfold W. rewrite Hl. fold V. lia. }
  destruct (discard_eq p3 _ _ addOp (next p2) W i ws z c last sumName Hsn E3) as (p4 & opsX & s & -> & He4 & Hws4 & F4 & E4 & Hsub4 & Hs4); [apply Hg3|done|done|done|by left|]. cbn [mbind result_bind].
  assert (He24 : extends p p4) by (transitivity p3; [transitivity p2; [by transitivity p1|apply Hg3]|done]).
  rewrite <- !(assoc_L (++)) in E4. assert (HF4 : F ⊆ F4) by (intros x Hx; apply Hsub4; by do 3 right).
  unfold last in *. destruct (Z.eqb_spec i (numWords - 1)) as [Hl|Hl]; [rewrite Z.add_0_r in *; by eexists _, _, _, _, F4|].
  rewrite (registerWidth_eq _ _ _ Hws4). cbn [mbind result_bind]. rewrite assert_true by (apply Z.ltb_lt; lia). cbn [mbind result_bind]. replace (z + 1 - 1) with z by lia.
  set (wordName := dstName +:+ _). destruct (splitCarry_eq p4 _ F4 s i ws z c wordName ltac:(by apply app_suffix_nonempty) Hz E4 Hws4 Hs4) as (p5 & andOp & p6 & carryOp & mask & -> & Hp5). cbn [mbind result_bind].
  destruct Hp5 as (-> & Hd5 & Hp6). cbn [mbind result_bind]. rewrite Hd5. cbn [mbind result_bind]. destruct Hp6 as (-> & Hd6 & F6 & E6 & He6 & HF6 & Hres). cbn [mbind result_bind]. rewrite Hd6. cbn [mbind result_bind].
  eexists p6, _, (next p4), (Some (next p5)), F6. split; [reflexivity|]. split; [by rewrite <- !(assoc_L (++)) in E6|]. split; [by transitivity p4|]. split; [|by apply Hres].
  intros x Hx. by apply HF6, HF4.
Qed.

(** The choice of a speculative result by the carry that comes in *)
Lemma chosen_value p (F : list (nat * ((nat -> Z) -> Z))) r0 r1 rc (f0 f1 c : (nat -> Z) -> Z) z P σ σ' :
  0 < z -> has_width p (_registerIndex r0) z -> has_width p (_registerIndex r1) z -> has_width p (_registerIndex rc) 1 ->
  (_registerIndex r0, f0) ∈ F -> (_registerIndex r1, f1) ∈ F -> (_registerIndex rc, c) ∈ F -> c σ = 0 \/ c σ = 1 ->
  extends p P -> Forall (fun f => σ' f.1 = f.2 σ) F ->
  (if operandInt P σ' false (SrcRegister rc) mod 2 =? 0 then operandInt P σ' false (SrcRegister r0) else operandInt P σ' false (SrcRegister r1)) mod 2 ^ z
  = (if c σ =? 0 then f0 σ else f1 σ) mod 2 ^ z.
Proof.
  intros Hz H0 H1 Hc F0 F1 Fc Hcv HP HF.
  rewrite (operandInt_small P σ' false rc 1 (c σ)); [|by eapply has_width_extends|lia| |by destruct Hcv as [-> | ->]].
  2: { rewrite (fact_of _ _ _ _ _ HF Fc). by destruct Hcv as [-> | ->]. }
  rewrite (operandInt_reading _ _ _ r0 z), (operandInt_reading _ _ _ r1 z) by (by eapply has_width_extends). rewrite !reading_unsigned.
  rewrite (fact_of _ _ _ _ _ HF F0), (fact_of _ _ _ _ _ HF F1). destruct Hcv as [-> | ->]; [change (0 mod 2 =? 0) with true|change (1 mod 2 =? 0) with false]; cbv iota; apply Zmod_mod.
Qed.

Lemma total_choice i ws z c σ : i <> 0 -> c σ = 0 \/ c σ = 1 -> (if c σ =? 0 then total i ws z (fun _ => 0) σ else total i ws z (fun _ => 1) σ) = total i ws z c σ.
Proof. intros Hi Hc. unfold total. rewrite (proj2 (Z.eqb_neq i 0)) by done. by destruct Hc as [-> | ->]. Qed.

Lemma chooseWord_eq p ops F i ws z rc c r0 r1 cr0 cr1 :
  emits program p ∅ ops F -> i <> 0 -> 0 < z < 2 ^ 31 -> (forall σ, c σ = 0 \/ c σ = 1) ->
  has_width p (_registerIndex rc) 1 -> (_registerIndex rc, c) ∈ F ->
  word_result p F i ws z (fun _ => 0) r0 cr0 -> word_result p F i ws z (fun _ => 1) r1 cr1 ->
  exists p' ops' r cr F', chooseWord isAdd numWords dstName i (Some rc) p r0 r1 cr0 cr1 = Ok (p', ops', r, cr) /\
    emits program p' ∅ (ops ++ ops') F' /\ extends p p' /\ F ⊆ F' /\ word_result p' F' i ws z c r cr.
Proof.
  intros HE Hi Hz Hc Hrc Frc (Hw0 & F0 & C0) (Hw1 & F1 & C1). unfold chooseWord.
  rewrite (registerWidth_eq _ _ _ Hw0), (registerWidth_eq _ _ _ Hw1). cbn [mbind result_bind]. rewrite Z.eqb_refl. cbn [assert_ of_option mbind result_bind].
  set (wordName := dstName +:+ "_word_" +:+ _). assert (Hwn : wordName <> ""%string) by (by apply app_suffix_nonempty).
  destruct (Mux21_eq p z wordName (SrcRegister rc) (SrcRegister r0) false (SrcRegister r1) false Hwn) as (p1 & wordOp & -> & Hd1 & Hg1 & Hcn1). cbn [mbind result_bind]. rewrite Hd1. cbn [mbind result_bind].
  assert (E1 : emits program p1 ∅ (ops ++ [wordOp]) ((numRegisters p, fun σ => total i ws z c σ mod 2 ^ z) :: F)).
  { apply (emits_next program p ops F p1 z wordOp _ _ HE Hg1 ltac:(lia) Hcn1). intros P σ σ' HP Hf HF.
    erewrite (chosen_value p F r0 r1 rc _ _ c z P σ σ') by (eassumption || lia || apply Hc). cbn beta.
    rewrite <- (total_choice i ws z c σ Hi (Hc σ)). destruct (c σ =? 0); apply Zmod_mod. }
  destruct (Z.eqb_spec i (numWords - 1)) as [Hl|Hl].
  { eexists p1, _, _, _, _. split; [reflexivity|]. split; [exact E1|]. split; [apply Hg1|]. split; [intros x Hx; by right|].
    split; [apply Hg1|]. split; [by left|done]. }
  destruct (C0 Hl) as (c0 & -> & Hc0 & Fc0), (C1 Hl) as (c1 & -> & Hc1 & Fc1). cbn [of_option mbind result_bind].
  assert (Hcn : wordName +:+ (if isAdd then "_carry" else "_borrow") <> ""%string) by (destruct isAdd; by apply app_suffix_nonempty).
  destruct (Mux21_eq p1 1 _ (SrcRegister rc) (SrcRegister c0) false (SrcRegister c1) false Hcn) as (p2 & carryOp & -> & Hd2 & Hg2 & Hcn2). cbn [mbind result_bind]. rewrite Hd2. cbn [mbind result_bind].
  assert (E2 : emits program p2 ∅ ((ops ++ [wordOp]) ++ [carryOp]) ((numRegisters p1, fun σ => Z.shiftr (total i ws z c σ mod 2 ^ (z + 1)) z) :: (numRegisters p, fun σ => total i ws z c σ mod 2 ^ z) :: F)).
  { apply (emits_next program p1 _ _ p2 1 carryOp _ _ E1 Hg2 ltac:(lia) Hcn2). intros P σ σ' HP Hf HF. apply Forall_cons in HF as [_ HF].
    erewrite (chosen_value p F c0 c1 rc _ _ c 1 P σ σ') by (eassumption || lia || apply Hc || (transitivity p1; [apply Hg1|done])). cbn beta.
    rewrite <- (total_choice i ws z c σ Hi (Hc σ)). destruct (c σ =? 0); apply carry_out_small; lia. }
  rewrite <- (assoc_L (++)) in E2. eexists p2, _, (next p), (Some (next p1)), _. split; [reflexivity|]. split; [exact E2|]. split; [transitivity p1; [apply Hg1|apply Hg2]|].
  split; [intros x Hx; by do 2 right|]. split; [eapply has_width_extends; [apply Hg2|apply Hg1]|]. split; [right; by left|]. intros _. exists (next p1). split; [done|]. split; [apply Hg2|by left].
Qed.

(** ** The loop over the words *)

Context (Hiw : 0 < iw < 2 ^ 31) (Hww : 0 < w < 2 ^ 30) (Hlast : (numWords - 1) * iw < w <= numWords * iw) (Hwords : 1 < numWords).

Definition wordEnd (j : Z) : Z := Z.min w (j * iw + iw).
Definition wordSize (j : Z) : Z := wordEnd j - j * iw.

Lemma wordSize_spec j : 0 <= j < numWords -> 0 < wordSize j <= iw /\ 0 <= j * iw < w /\ (j <> numWords - 1 -> j * iw + wordSize j = (j + 1) * iw) /\ (j = numWords - 1 -> wordEnd j = w).
Proof.
  intros Hj. assert (Hm : j * iw <= (numWords - 1) * iw) by (apply Z.mul_le_mono_nonneg_r; lia). unfold wordSize, wordEnd.
  split; [lia|]. split; [nia|].
  split; [|intros ->; lia]. intros Hne. assert (j * iw + iw <= (numWords - 1) * iw) by nia. lia.
Qed.

(** The result of the operation *)
Notation R := (fun σ => A σ + sgn * B σ).

(** The register of a word holds the word of the result. *)
Definition word_done (p : Program) (F : list (nat * ((nat -> Z) -> Z))) (j : Z) (o : SourceOperand) : Prop :=
  exists r, o = SrcRegister r /\ has_width p (_registerIndex r) (wordSize j) /\ (_registerIndex r, fun σ => word (R σ) (j * iw) (wordSize j)) ∈ F.

Lemma word_done_mono p p' F F' j o : extends p p' -> F ⊆ F' -> word_done p F j o -> word_done p' F' j o.
Proof. intros He HF (r & -> & Hw & Hin). exists r. split; [done|]. split; [by eapply has_width_extends|by apply HF]. Qed.

Definition add_inv (k : Z) (st : Program * list Operation * list SourceOperand * list GatherEntry * option AccessedRegister) : Prop :=
  let '(p, ops, gatherSrc, gatherEntries, carryBorrowBit) := st in
  exists F, emits program p ∅ ops F /\ gatherEntries = (fun j => mkGatherEntry 0 (j * iw) (wordSize j)) <$> seqZ 0 k /\
    Forall2 (word_done p F) (seqZ 0 k) gatherSrc /\
    (0 < k < numWords -> exists r, carryBorrowBit = Some r /\ has_width p (_registerIndex r) 1 /\ (_registerIndex r, fun σ => carry sgn (A σ) (B σ) (k * iw)) ∈ F).

(** What the true carry makes of a word *)
Lemma true_total k σ z : 0 <= k -> 0 <= z -> total k (k * iw) z (fun σ => carry sgn (A σ) (B σ) (k * iw)) σ = wordSum sgn (A σ) (B σ) (k * iw) z (carry sgn (A σ) (B σ) (k * iw)).
Proof. intros Hk Hz. unfold total. destruct (Z.eqb_spec k 0) as [->|]; [|done]. by rewrite (carry_0 _ (sign_of_cases t)). Qed.

Lemma addSubWord_eq k st :
  0 <= k < numWords -> add_inv k st -> exists st', addSubWord op t isAdd carrySelect iw w numWords dstName st k = Ok st' /\ add_inv (k + 1) st'.
Proof.
  intros Hk. destruct st as [[[[p ops] gatherSrc] gatherEntries] cb]. intros (F & HE & -> & Hsrcs & Hcb).
  destruct (wordSize_spec k Hk) as (Hz & Hstart & Hnext & Hend). unfold addSubWord, u64_mul, u64_add, u64_sub.
  rewrite (u64_small (k * iw)), (u64_small (k * iw + iw)) by (unfold is_u64; lia). fold (wordEnd k). fold (wordSize k). rewrite (u64_small (wordSize k)) by (unfold is_u64; lia).
  rewrite (assert_true (0 <? wordSize k)) by (apply Z.ltb_lt; lia). cbn [mbind result_bind].
  rewrite (assert_true (implb _ _)) by (destruct (Z.eqb_spec k (numWords - 1)) as [Hl|]; [rewrite Hend by done; apply Z.eqb_refl|done]). cbn [mbind result_bind].
  set (c := fun σ => carry sgn (A σ) (B σ) (k * iw)). assert (Hc : forall σ, c σ = 0 \/ c σ = 1) by (intros σ; apply carry_bit; [apply sign_of_cases|lia]).
  assert (Hword : exists p' ops' r cr F', (if carrySelect && negb (k =? 0) then
       '(program, ops0, word0, carry0) ← speculateWord op t isAdd carrySelect numWords dstName k (k * iw) (wordSize k) cb p 0;
       '(program, ops1, word1, carry1) ← speculateWord op t isAdd carrySelect numWords dstName k (k * iw) (wordSize k) cb program 1;
       '(program, ops2, word, carry) ← chooseWord isAdd numWords dstName k cb program word0 word1 carry0 carry1;
       Ok (program, ops0 ++ ops1 ++ ops2, word, carry)
     else speculateWord op t isAdd carrySelect numWords dstName k (k * iw) (wordSize k) cb p 0) = Ok (p', ops', r, cr) /\
     emits program p' ∅ (ops ++ ops') F' /\ extends p p' /\ F ⊆ F' /\ word_result p' F' k (k * iw) (wordSize k) c r cr).
  { destruct (carrySelect && negb (k =? 0)) eqn:Hsel.
    - apply andb_true_iff in Hsel as [Hcs Hk0]. apply negb_true_iff, Z.eqb_neq in Hk0. destruct (Hcb ltac:(lia)) as (rc & -> & Hrc & Frc).
      assert (Hci : forall v, v = 0 \/ v = 1 -> forall p F, carry_is p F k (Some rc) v (fun _ => v)) by (intros v Hv p0 F0; split; [done|]; intros _; by rewrite Hcs).
      destruct (speculateWord_eq p ops F k (k * iw) (wordSize k) (Some rc) 0 (fun _ => 0) HE) as (p1 & ops1 & r0 & cr0 & F1 & -> & E1 & He1 & HF1 & W0); [lia..|apply Hci; by left|]. cbn [mbind result_bind].
      destruct (speculateWord_eq p1 _ F1 k (k * iw) (wordSize k) (Some rc) 1 (fun _ => 1) E1) as (p2 & ops2 & r1 & cr1 & F2 & -> & E2 & He2 & HF2 & W1); [lia..|apply Hci; by right|]. cbn [mbind result_bind].
      destruct (chooseWord_eq p2 _ F2 k (k * iw) (wordSize k) rc c r0 r1 cr0 cr1 E2) as (p3 & ops3 & r & cr & F3 & -> & E3 & He3 & HF3 & W); try done; [lia|eapply has_width_extends; [|exact Hrc]; by transitivity p1|by apply HF2, HF1|by eapply word_result_mono|].
      cbn [mbind result_bind]. rewrite <- !(assoc_L (++)) in E3. eexists _, _, _, _, F3. split; [reflexivity|]. split; [done|]. split; [transitivity p1; [done|by transitivity p2]|]. split; [|done].
      intros x Hx. by apply HF3, HF2, HF1.
    - apply speculateWord_eq; [done|lia..|]. split; [done|]. intros Hk0. rewrite (proj2 (Z.eqb_neq k 0)), andb_true_r in Hsel by done. rewrite Hsel. apply Hcb. lia. }
  destruct Hword as (p' & ops' & r & cr & F' & -> & E' & He & HF & Hr & Fr & Hcr). cbn [mbind result_bind]. eexists; split; [reflexivity|].
  assert (E1 : emits program p' ∅ (ops ++ ops') ((_registerIndex r, fun σ => word (R σ) (k * iw) (wordSize k)) :: F')).
  { eapply emits_also; [exact E'|exact Fr|]. intros σ. cbn beta. unfold c. rewrite true_total by lia. apply wordSum_result; [apply sign_of_cases|lia..]. }
  assert (Hdone : exists F1, emits program p' ∅ (ops ++ ops') F1 /\ F' ⊆ F1 /\ word_done p' F1 k (SrcRegister r) /\
    (k + 1 < numWords -> exists r', cr = Some r' /\ has_width p' (_registerIndex r') 1 /\ (_registerIndex r', fun σ => carry sgn (A σ) (B σ) ((k + 1) * iw)) ∈ F1)).
  { destruct (decide (k = numWords - 1)) as [Hl|Hl].
    - eexists; split; [exact E1|]. split; [intros x Hx; by right|]. split; [|lia]. exists r. split; [done|]. split; [done|by left].
    - destruct (Hcr Hl) as (r' & -> & Hr' & Fr'). eexists; split; [eapply emits_also; [exact E1|right; exact Fr'|]|split; [intros x Hx; by do 2 right|split]].
      + intros σ. cbn beta. unfold c. rewrite true_total by lia. rewrite wordSum_carry by (apply sign_of_cases || lia). rewrite Hnext by done.
        instantiate (1 := fun σ => carry sgn (A σ) (B σ) ((k + 1) * iw)). done.
      + exists r. split; [done|]. split; [done|right; by left].
      + intros _. exists r'. split; [done|]. split; [done|by left]. }
  destruct Hdone as (F1 & HE1 & HF1 & Hdone & Hcarry). exists F1. split; [done|].
  assert (Hseq : seqZ 0 (k + 1) = seqZ 0 k ++ [k]) by (rewrite seqZ_app by lia; done). rewrite Hseq. split; [by rewrite fmap_app|]. split; [|intros ?; apply Hcarry; lia].
  apply Forall2_app; [|by repeat constructor]. eapply Forall2_impl; [exact Hsrcs|]. intros j o. apply word_done_mono; [done|]. intros x Hx. by apply HF1, HF.
Qed.

(** ** The words together *)

Lemma gather_words x f k :
  (Z.of_nat k <= numWords) -> (forall i, (i < k)%nat -> f i = word x (Z.of_nat i * iw) (wordSize (Z.of_nat i))) ->
  fold_left (fun acc p => Z.lor acc (Z.shiftl (Z.shiftr (f p.1) (_sourceOffset p.2) mod 2 ^ _numBits p.2) (_destOffset p.2)))
    (zip (seq 0 k) ((fun j => mkGatherEntry 0 (j * iw) (wordSize j)) <$> seqZ 0 (Z.of_nat k))) 0 = x mod 2 ^ Z.min w (Z.of_nat k * iw).
Proof.
  induction k as [|k IH]; intros Hk Hf; [cbn; by rewrite Z.min_r, Z.mod_1_r by lia|].
  destruct (wordSize_spec (Z.of_nat k)) as (Hz & Hstart & Hnext & Hend); [lia|].
  assert (Hseq : seqZ 0 (Z.of_nat (S k)) = seqZ 0 (Z.of_nat k) ++ [Z.of_nat k]).
  { replace (Z.of_nat (S k)) with (Z.of_nat k + 1) by lia. by rewrite seqZ_app by lia. }
  rewrite Hseq, fmap_app, seq_S, zip_with_app by (by rewrite length_fmap, length_seq, length_seqZ, Nat2Z.id). rewrite fold_left_app, IH by (lia || (intros; apply Hf; lia)).
  cbn [fmap list_fmap zip zip_with fold_left fst snd _sourceOffset _numBits _destOffset Nat.add]. rewrite Hf, Z.shiftr_0_r by lia.
  rewrite Z.min_r by lia. unfold word at 1. rewrite Zmod_mod. fold (word x (Z.of_nat k * iw) (wordSize (Z.of_nat k))).
  rewrite lor_shiftl_add by (lia || (apply Z.mod_pos_bound, Z.pow_pos_nonneg; lia)).
  assert (Hs : Z.min w (Z.of_nat (S k) * iw) = Z.of_nat k * iw + wordSize (Z.of_nat k)) by (unfold wordSize, wordEnd; lia).
  rewrite Hs, low_split by lia. ring.
Qed.

Lemma final_gather p F gatherSrc d P σ σ' :
  Forall2 (word_done p F) (seqZ 0 numWords) gatherSrc -> extends p P -> Forall (fun f => σ' f.1 = f.2 σ) F ->
  opInt P σ' (mkOperation (Gather ((fun j => mkGatherEntry 0 (j * iw) (wordSize j)) <$> seqZ 0 numWords)) 0 ∅ gatherSrc [d]) = Some (R σ mod 2 ^ w).
Proof.
  intros Hsrcs HP HF. unfold opInt. cbn [_opcode]. f_equal. unfold gatherInt. cbn [_src].
  assert (Hlen : length gatherSrc = Z.to_nat numWords) by (rewrite <- (Forall2_length _ _ _ Hsrcs); apply length_seqZ). rewrite Hlen.
  replace numWords with (Z.of_nat (Z.to_nat numWords)) at 2 by lia. rewrite (gather_words (R σ)); [f_equal; f_equal; lia|lia|].
  intros i Hi. destruct (lookup_lt_is_Some_2 gatherSrc i) as [o Ho]; [lia|].
  assert (Hj : seqZ 0 numWords !! i = Some (Z.of_nat i)) by (rewrite lookup_seqZ; lia).
  destruct (Forall2_lookup_lr _ _ _ _ _ _ Hsrcs Hj Ho) as (r & -> & Hw & Hin). erewrite srcInt_lookup by exact Ho.
  destruct (wordSize_spec (Z.of_nat i)) as (Hz & _); [lia|]. unfold signExtends. cbn [_signExtendSourceMask]. rewrite Z.bits_0.
  rewrite (operandInt_reading _ _ _ _ (wordSize (Z.of_nat i))) by (by eapply has_width_extends). rewrite reading_unsigned, (fact_of _ _ _ _ _ HF Hin).
  apply Z.mod_small, word_range. lia.
Qed.

End Words.

(** What the decomposition of an addition or subtraction needs *)
Record add_ok (program : Program) (op : Operation) (t : ParseTreeBinaryOpType) (o0 o1 : SourceOperand) (d : AccessedRegister) (w : Z) : Prop := mk_add_ok {
  ao_opcode : _opcode op = BinaryOp t /\ add_type t;
  ao_src : _src op = [o0; o1];
  ao_wf : operand_wf program o0 /\ operand_wf program o1;
  ao_dst : _dst op = [DstRegister d];
  ao_width : has_width program (_registerIndex d) w /\ 0 < w < 2 ^ 30;
  ao_locations : _locations op <> ∅ }.

(** The words of a search are narrower than the result. *)
Definition search_ok (carrySelectWidth : Z -> option Z) : Prop := forall d iw, carrySelectWidth d = Some iw -> 1 <= iw < d.

Lemma ComputeDecomposeAddSubConfig_width cfg search d config :
  search_ok search -> ComputeDecomposeAddSubConfig cfg search d = Some config -> 1 <= _internalWordWidth config < d.
Proof.
  intros Hs. unfold ComputeDecomposeAddSubConfig. set (m := u64_mul _ _).
  assert (Hrest : (if (m <? d) && (2 <? m) then Some (mkDecomposeAddSubConfig false (m - 2)) else None) = Some config -> 1 <= _internalWordWidth config < d).
  { destruct (Z.ltb_spec m d), (Z.ltb_spec 2 m); cbn [andb]; intros [= <-]; cbn; lia. }
  destruct (_configCarrySelect cfg); [|done]. destruct (search d) as [iw|] eqn:Hd; [|done]. cbn. intros [= <-]. cbn. by apply Hs.
Qed.

Lemma numWords_spec w iw :
  1 <= iw < w -> let n := (w + iw - 1) / iw in 1 < n /\ (n - 1) * iw < w <= n * iw.
Proof.
  intros Hw n. pose proof (Z.div_mod (w + iw - 1) iw ltac:(lia)). pose proof (Z.mod_pos_bound (w + iw - 1) iw ltac:(lia)). fold n in H |- *. nia.
Qed.

Lemma DecomposeAddSub_eq cfg search program op t o0 o1 d w :
  search_ok search -> add_ok program op t o0 o1 d w ->
  exists r, DecomposeAddSub cfg search program op t = Ok r /\ replaced program op r.
Proof.
  intros Hs [[Hop Ht] Hsrc Hwf Hdst [Hw Hwb] Hloc]. destruct (GetRegisterName_eq _ _ _ Hw) as (name & Hname).
  unfold DecomposeAddSub. rewrite (assert_true (_ || _)) by (by destruct Ht as [-> | ->]). rewrite Hsrc, Hdst. cbn [length Nat.eqb assert_ mbind result_bind at_ lookup list_lookup].
  unfold at_. cbn [lookup list_lookup mbind result_bind]. unfold GetDestOperandName. cbn [destinationRegister mbind result_bind]. rewrite Hname. cbn [mbind result_bind DestinationOperand_Width].
  rewrite (registerWidth_eq _ _ _ Hw). cbn [mbind result_bind]. destruct (ComputeDecomposeAddSubConfig cfg search w) as [config|] eqn:Hcfg; [|by eexists].
  pose proof (ComputeDecomposeAddSubConfig_width _ _ _ _ Hs Hcfg) as Hiw. set (iw := _internalWordWidth config) in *. rewrite (proj2 (Z.eqb_neq iw 0)) by lia.
  unfold u64_add, u64_sub. rewrite (u64_small (w + iw)), (u64_small (w + iw - 1)) by (unfold is_u64; lia). pose proof (numWords_spec w iw Hiw) as Hnw. cbv zeta in Hnw. set (n := (w + iw - 1) / iw) in *. destruct Hnw as [Hn Hlast].
  rewrite (assert_true (1 <? n)) by (by apply Z.ltb_lt). cbn [mbind result_bind]. set (cs := _carrySelect config).
  destruct (foldM_seqZ_inv (addSubWord op t (bool_decide (t = ParseTreeBinaryOpTypeAdd)) cs iw w n name) (add_inv program op t iw w n) n (program, [], [], [], None))
    as ([[[[p ops] gatherSrc] gatherEntries] cb] & -> & F & HE & -> & Hwords & _).
  - lia.
  - exists []. split; [apply emits_nil|]. split; [done|]. split; [constructor|lia].
  - intros k st Hk HI. eapply addSubWord_eq; [done..|lia|lia|done|done|done|done].
  - cbn [mbind result_bind]. set (final := mkOperation (Gather _) 0 ∅ gatherSrc [DstRegister d]).
    erewrite mapM_Ok.
    2: { intros o Ho. rewrite (assert_true (bool_decide (_locations o = ∅))), (assert_true (negb _)); [done|by rewrite bool_decide_eq_false_2|].
      apply bool_decide_eq_true_2. apply elem_of_app in Ho as [Ho|Ho%list_elem_of_singleton]; [|by rewrite Ho]. by apply (proj1 (Forall_forall _ _) (em_locations _ _ _ _ _ HE)). }
    cbn [mbind result_bind]. eexists; split; [reflexivity|]. unfold replaced. cbn [fst snd]. rewrite fmap_app. split; [|rewrite <- fmap_app; by apply Forall_fmap, Forall_true].
    cbn [fmap list_fmap]. eapply emits_replaces; [eapply (emits_relocate _ _ (_locations op)); [exact HE|done|done]|done|done|done|].
    intros P σ σ' v HP Hf HF Hv. unfold opInt in Hv. rewrite Hop, add_type_spec in Hv by done. injection Hv as <-. eexists; split; [|apply Zmod_mod].
    rewrite <- (final_gather program op t iw w n ltac:(lia) ltac:(lia) Hlast Hn p F gatherSrc (DstRegister d) P σ σ' Hwords HP HF). done.
Qed.

End DecomposeAdd.
