(* ===== verification/DecomposeCorrect.v ===== *)
(** * The decomposition of wide operations is correct

    [DecomposeWideOps] terminates without a failed assertion and replaces
    operations outside of atomic blocks by operations with the same effect on
    the registers of the program; all others stay as they are. *)

From stdpp Require Import functions.
From S2P Require Import Prelude MachineInt Literals Ir Semantics Flow Run Reduce Algebraic Decompose Emit Decompositions.
Import MachineInt Literals Ir Semantics Flow FlowSemantics Run Reduce Algebraic Decompose Emit.
Import DecomposeCompare DecomposeSelect DecomposeAdd.

Module DecomposeCorrect.

(** ** More registers *)

Lemma operand_wf_extends p p' o : extends p p' -> operand_wf p o -> operand_wf p' o.
Proof. intros He. destruct o as [l|r| |]; cbn; try done. intros (d & Hd & Hw). exists d. split; [by eapply extends_lookup|done]. Qed.

Lemma named_extends p p' r : extends p p' -> named p r -> named p' r.
Proof. intros He (d & Hd & Hn). exists d. split; [by eapply extends_lookup|done]. Qed.

Lemma SourceOperand_Width_extends p p' o w : extends p p' -> operand_wf p o -> SourceOperand_Width p' o = Ok w -> SourceOperand_Width p o = Ok w.
Proof.
  intros He. destruct o as [l|r| |]; cbn; try done. intros (d & Hd & _). unfold registerWidth.
  by rewrite (at_Some _ _ _ Hd), (at_Some _ _ _ (extends_lookup _ _ _ _ He Hd)).
Qed.

Lemma dstWidth_extends p p' op w : extends p p' -> dstWidth p op = Ok w -> dstWidth p' op = Ok w.
Proof.
  intros He. unfold dstWidth. destruct (at_ (_dst op) 0) as [x|]; [|done]. cbn [mbind result_bind]. destruct x as [r|f]; cbn; [|done].
  unfold registerWidth, at_. destruct (_registerTable p !! _registerIndex r) as [d|] eqn:Hd; [|done]. by rewrite (extends_lookup _ _ _ _ He Hd).
Qed.

Lemma compare_ok_extends p p' op t a b d : extends p p' -> compare_ok p op t a b d -> compare_ok p' op t a b d.
Proof. intros He [? ? [? ?] ? ? ?]. split; try done; [split; by eapply operand_wf_extends|by eapply has_width_extends]. Qed.

Lemma width_fits_extends fuel p p' o : extends p p' -> operand_wf p o -> width_fits fuel p o -> width_fits fuel p' o.
Proof. intros He Ho Hf w Hw. apply Hf. by eapply SourceOperand_Width_extends. Qed.

Lemma add_ok_extends p p' op t o0 o1 d w : extends p p' -> add_ok p op t o0 o1 d w -> add_ok p' op t o0 o1 d w.
Proof. intros He [? ? [? ?] ? [? ?] ?]. split; try done; split; try done; try (by eapply operand_wf_extends). by eapply has_width_extends. Qed.

Lemma op_wf_extends p p' op : extends p p' -> op_wf p op -> op_wf p' op.
Proof.
  intros He [Hs Hl Hm (d & w & Hd & Hw & Hb)]. split; try done; [eapply Forall_impl; [exact Hs|]; intros o; by apply operand_wf_extends|].
  exists d, w. split; [done|]. split; [by eapply dstWidth_extends|done].
Qed.

Lemma select_ok_extends p p' op d w n : extends p p' -> select_ok p op d w n -> select_ok p' op d w n.
Proof.
  intros He [? ? ? ? [? ?] [Hd Hs] ?]. split; try done; [by eapply op_wf_extends|split; [by eapply has_width_extends|done]|].
  split; [by eapply named_extends|]. intros r Hr. eapply named_extends; [done|by apply Hs].
Qed.

(** ** One operation *)

Section Operation.
Context (fuel : nat) (supportsLuts : bool) (smallLutSize : Z) (Hlut : 2 <= smallLutSize <= 6).
Context (cfg : CodeGenConfig) (search : Z -> option Z) (Hsearch : search_ok search).
Context (m : Z) (Hm : 1 <= m) (Hselect : Z.of_nat (_maxSelectInputs cfg) = 2 ^ m).

(** The operations that the pass looks at are typed; there is fuel for the
    reduction trees. *)
Definition decompose_ok (program : Program) (op : Operation) : Prop :=
  match _opcode op with
  | BinaryOp t =>
      match t with
      | ParseTreeBinaryOpTypeGT | ParseTreeBinaryOpTypeGE | ParseTreeBinaryOpTypeLT | ParseTreeBinaryOpTypeLE =>
          exists a b d, compare_ok program op t a b d
      | ParseTreeBinaryOpTypeEQ | ParseTreeBinaryOpTypeNE =>
          exists a b d, compare_ok program op t a b d /\ width_fits fuel program a /\ width_fits fuel program b
      | ParseTreeBinaryOpTypeAdd | ParseTreeBinaryOpTypeSub => exists o0 o1 d w, add_ok program op t o0 o1 d w
      | _ => length (_src op) = 2%nat /\ length (_dst op) = 1%nat
      end
  | Select => exists d w n, select_ok program op d w n
  | _ => True
  end.

Lemma decompose_ok_extends p p' op : extends p p' -> decompose_ok p op -> decompose_ok p' op.
Proof.
  intros He. unfold decompose_ok. destruct (_opcode op); try done.
  - assert (Hcmp : forall t, (exists a b d, compare_ok p op t a b d) -> exists a b d, compare_ok p' op t a b d) by (intros t (a & b & d & H); exists a, b, d; by eapply compare_ok_extends).
    assert (Heq : forall t, (exists a b d, compare_ok p op t a b d /\ width_fits fuel p a /\ width_fits fuel p b) -> exists a b d, compare_ok p' op t a b d /\ width_fits fuel p' a /\ width_fits fuel p' b).
    { intros t (a & b & d & H & Ha & Hb). exists a, b, d. split; [by eapply compare_ok_extends|]. split; (eapply width_fits_extends; [done| |done]); apply H. }
    assert (Hadd : forall t, (exists o0 o1 d w, add_ok p op t o0 o1 d w) -> exists o0 o1 d w, add_ok p' op t o0 o1 d w) by (intros t (o0 & o1 & d & w & H); exists o0, o1, d, w; by eapply add_ok_extends).
    destruct _binaryOpType; auto.
  - intros (d & w & n & H). exists d, w, n. by eapply select_ok_extends.
Qed.

(** What stands in the place of an operation *)
Definition decomposed (program p' : Program) (op : Operation) (ops : list Operation) : Prop :=
  ops = [op] \/ (Forall (operand_wf program) (_src op) /\ replaces program op (p', ops) /\ Forall (fun op' => _locations op' <> ∅) ops).

(** The operations that the pass can replace *)
Definition decomposable (op : Operation) : bool :=
  match _opcode op with
  | BinaryOp t =>
      match t with
      | ParseTreeBinaryOpTypeGT | ParseTreeBinaryOpTypeGE | ParseTreeBinaryOpTypeLT | ParseTreeBinaryOpTypeLE
      | ParseTreeBinaryOpTypeEQ | ParseTreeBinaryOpTypeNE | ParseTreeBinaryOpTypeAdd | ParseTreeBinaryOpTypeSub => true
      | _ => false
      end
  | Select => true
  | _ => false
  end.

Lemma decompose_ok_wf program op : decompose_ok program op -> decomposable op = true -> Forall (operand_wf program) (_src op).
Proof.
  assert (Hpair : forall a b, _src op = [a; b] -> operand_wf program a /\ operand_wf program b -> Forall (operand_wf program) (_src op)) by (intros a b -> [? ?]; by repeat constructor).
  unfold decompose_ok, decomposable. destruct (_opcode op); try done.
  - destruct _binaryOpType; try done; intros H _; decompose [ex and] H;
      match goal with H : compare_ok _ _ _ ?a ?b _ |- _ => apply (Hpair a b); apply H | H : add_ok _ _ _ ?a ?b _ _ |- _ => apply (Hpair a b); apply H end.
  - intros (d & w & n & H) _. apply H.
Qed.

Lemma decomposeOperation_eq program op :
  decompose_ok program op ->
  exists r, decomposeOperation fuel supportsLuts smallLutSize cfg search program op = Ok r /\ replaced program op r /\
    (r.2 <> None -> decomposable op = true).
Proof.
  unfold decompose_ok, decomposeOperation, decomposable. destruct (_opcode op) eqn:Hop; try (by eexists).
  - rename _binaryOpType into t.
    assert (Hlen : length (_src op) = 2%nat -> length (_dst op) = 1%nat -> forall k : result (Program * option (list Operation)),
      (assert_ (length (_src op) =? 2)%nat;; assert_ (length (_dst op) =? 1)%nat;; k) = k) by (intros -> -> k; done).
    assert (Hcmp : (exists a b d, compare_ok program op t a b d) -> carry_chain_type t = true -> exists r,
      (assert_ (length (_src op) =? 2)%nat;; assert_ (length (_dst op) =? 1)%nat;; '(p, ops) ← DecomposeCompareCarryChain program op t; Ok (p, Some ops)) = Ok r /\ replaced program op r /\ (r.2 <> None -> true = true)).
    { intros (a & b & d & H) Ht. destruct (DecomposeCompareCarryChain_eq program op t a b d H Ht) as (p' & ops & -> & Hrep & Hlocs). destruct H as [_ Hs Hwf Hd _ Hloc].
      rewrite Hlen by (by rewrite ?Hs, ?Hd). eexists; split; [reflexivity|]. split; [|done]. split; [done|]. eapply Forall_impl; [exact Hlocs|]. cbn. by intros x ->. }
    assert (Heq : (exists a b d, compare_ok program op t a b d /\ width_fits fuel program a /\ width_fits fuel program b) -> t = ParseTreeBinaryOpTypeEQ \/ t = ParseTreeBinaryOpTypeNE -> exists r,
      (assert_ (length (_src op) =? 2)%nat;; assert_ (length (_dst op) =? 1)%nat;; '(p, ops) ← DecomposeCompareEQ fuel supportsLuts smallLutSize program op t; Ok (p, Some ops)) = Ok r /\ replaced program op r /\ (r.2 <> None -> true = true)).
    { intros (a & b & d & H & Ha & Hb) Ht. destruct (DecomposeCompareEQ_eq fuel supportsLuts smallLutSize Hlut program op t a b d H Ht Ha Hb) as (p' & ops & -> & Hrep & Hlocs). destruct H as [_ Hs Hwf Hd _ Hloc].
      rewrite Hlen by (by rewrite ?Hs, ?Hd). eexists; split; [reflexivity|]. done. }
    assert (Hadd : (exists o0 o1 d w, add_ok program op t o0 o1 d w) -> exists r,
      (assert_ (length (_src op) =? 2)%nat;; assert_ (length (_dst op) =? 1)%nat;; DecomposeAddSub cfg search program op t) = Ok r /\ replaced program op r /\ (r.2 <> None -> true = true)).
    { intros (o0 & o1 & d & w & H). destruct (DecomposeAddSub_eq cfg search program op t o0 o1 d w Hsearch H) as (r & -> & Hr). destruct H as [_ Hs Hwf Hd _ _].
      rewrite Hlen by (by rewrite ?Hs, ?Hd). eexists; split; [reflexivity|]. done. }
    destruct t; auto; intros [Hs Hd]; rewrite Hlen by done; by eexists.
  - intros (d & w & n & H). destruct (DecomposeSelect_eq program op d w n m H Hm (_maxSelectInputs cfg) Hselect) as (r & -> & Hr). by exists r.
Qed.

(** ** One step of the execution *)

(** An operation does the same in a larger program, on registers that are the
    same so far. *)
Lemma step_frame program P σ σ' σ1 op :
  Forall (operand_wf program) (_src op) -> extends program P -> frame program σ σ' -> step program σ op = Some σ1 ->
  exists σ2, step P σ' op = Some σ2 /\ frame program σ1 σ2.
Proof.
  intros Hwf He Hf. unfold step. destruct (_dst op) as [|[r|] [|]] eqn:Hd; try done.
  assert (Hlits : operandLiteral P σ' <$> _src op = operandLiteral program σ <$> _src op).
  { apply list_fmap_ext. intros i o Ho. pose proof (Forall_lookup_1 _ _ _ _ Hwf Ho) as Hwo. destruct o as [l|s| |]; try done. destruct Hwo as (x & Hx & _). cbn.
    rewrite (extends_lookup _ _ _ _ He Hx), Hx. cbn. by rewrite Hf by (by eapply lookup_lt_Some). }
  destruct (dstWidth program op) as [w|] eqn:Hw.
  2: { unfold opValue. by rewrite Hw. }
  rewrite (opValue_resolve program P σ σ' op op) by (done || (rewrite Hw; by eapply dstWidth_extends)).
  destruct (opValue program σ op) as [v|]; [|done]. cbn [mbind option_bind]. intros [= <-]. eexists; split; [reflexivity|].
  intros i Hi. destruct (decide (_registerIndex r = i)) as [<-|]; [by rewrite !fn_lookup_insert|]. rewrite !fn_lookup_insert_ne by done. by apply Hf.
Qed.

Lemma frame_weaken program p σ σ' : extends program p -> frame p σ σ' -> frame program σ σ'.
Proof. intros He Hf i Hi. apply Hf. pose proof (extends_numRegisters _ _ He). lia. Qed.

(** A replacement that was made in a larger program *)
Lemma decomposed_extends program p p1 p' op ops :
  extends program p -> extends p1 p' -> Forall (operand_wf program) (_src op) -> replaces p op (p1, ops) -> replaces program op (p', ops).
Proof.
  intros He He1 Hwf [Hep Hrun]. cbn [fst snd] in *. split; cbn [fst snd]; [by transitivity p; [|transitivity p1]|].
  intros P σ σ1 HP Hstep. destruct (step_frame program p σ σ σ1 op) as (σ2 & Hσ2 & Hf); [done..|].
  destruct (Hrun P σ σ2) as (σ3 & Hσ3 & Hf3); [by transitivity p'|done|]. exists σ3. split; [done|].
  intros i Hi. rewrite (frame_weaken program p σ2 σ3 He Hf3) by done. by apply Hf.
Qed.

Lemma decomposed_step program p' P op ops σ σ' σ1 :
  Forall (operand_wf program) (_src op) -> decomposed program p' op ops -> extends program p' -> extends p' P -> frame program σ σ' ->
  step program σ op = Some σ1 -> exists σ2, run P ops σ' = Some σ2 /\ frame program σ1 σ2.
Proof.
  intros Hwf Hd He HP Hf Hstep. destruct Hd as [-> | (_ & [_ Hrun] & _)].
  - destruct (step_frame program P σ σ' σ1 op) as (σ2 & Hσ2 & Hf2); [done|by transitivity p'|done..|]. exists σ2. cbn [run]. by rewrite Hσ2.
  - destruct (step_frame program program σ σ' σ1 op) as (σ2 & Hσ2 & Hf2); [done..|]. destruct (Hrun P σ' σ2 HP Hσ2) as (σ3 & Hσ3 & Hf3). exists σ3. split; [done|].
    intros i Hi. rewrite Hf3 by done. by apply Hf2.
Qed.

(** ** Basic blocks *)

(** The nesting of atomic blocks after an operation *)
Definition depthAfter (depth : nat) (op : Operation) : nat :=
  match _opcode op with BeginAtomic => S depth | EndAtomic => (depth - 1)%nat | _ => depth end.

(** Atomic blocks are closed, and only open ones are. *)
Fixpoint balanced (depth : nat) (ops : list Operation) : Prop :=
  match ops with
  | [] => depth = 0%nat
  | op :: ops => (_opcode op = EndAtomic -> (0 < depth)%nat) /\ balanced (depthAfter depth op) ops
  end.

(** The operations outside of atomic blocks are replaced, the others kept. *)
Fixpoint decomposed_at (program p' : Program) (depth : nat) (ops : list Operation) (groups : list (list Operation)) : Prop :=
  match ops, groups with
  | [], [] => True
  | op :: ops, group :: groups =>
      (if (depthAfter depth op =? 0)%nat then decomposed program p' op group else group = [op]) /\
      decomposed_at program p' (depthAfter depth op) ops groups
  | _, _ => False
  end.

Lemma decomposed_mono program p p' op ops : extends p p' -> decomposed program p op ops -> decomposed program p' op ops.
Proof.
  intros He [-> | (Hwf & [Hep Hrun] & Hl)]; [by left|right]. split; [done|]. split; [|done]. cbn [fst snd] in *.
  split; cbn [fst snd]; [by transitivity p|]. intros P σ σ1 HP. apply Hrun. by transitivity p'.
Qed.

Lemma decomposed_at_mono program p p' depth ops groups : extends p p' -> decomposed_at program p depth ops groups -> decomposed_at program p' depth ops groups.
Proof.
  intros He. revert depth groups; induction ops as [|op ops IH]; intros depth [|g groups]; cbn; try done. intros [Hg Hr]. split; [|by apply IH].
  destruct (_ =? 0)%nat; [by eapply decomposed_mono|done].
Qed.

Notation stepFn := (decomposeStep fuel supportsLuts smallLutSize cfg search).

Lemma decomposeStep_eq program p ops depth changed op :
  extends program p -> decompose_ok program op -> (_opcode op = EndAtomic -> (0 < depth)%nat) ->
  exists p' group changed', stepFn (p, ops, depth, changed) op = Ok (p', ops ++ group, depthAfter depth op, changed') /\ extends p p' /\
    (if (depthAfter depth op =? 0)%nat then decomposed program p' op group else group = [op]) /\
    (changed' = false -> p' = p /\ group = [op] /\ changed = false).
Proof.
  intros He Hok Hend. unfold decomposeStep.
  assert (Hdepth : (match _opcode op with BeginAtomic => Ok (S depth) | EndAtomic => assert_ (0 <? depth)%nat;; Ok (depth - 1)%nat | _ => Ok depth end) = Ok (depthAfter depth op)).
  { unfold depthAfter. destruct (_opcode op); try done. by rewrite (proj2 (Nat.ltb_lt _ _) (Hend eq_refl)). }
  rewrite Hdepth. cbn [mbind result_bind]. destruct (depthAfter depth op =? 0)%nat; [|by exists p, [op], changed].
  destruct (decomposeOperation_eq p op) as ([p1 [group|]] & -> & Hr & Hsome); [by eapply decompose_ok_extends| |]; cbn [mbind result_bind].
  - destruct Hr as [Hr Hl]. cbn [fst snd] in *. exists p1, group, true. split; [done|]. split; [apply Hr|]. split; [|done].
    pose proof (decompose_ok_wf program op Hok (Hsome ltac:(done))) as Hwf. right. split; [done|]. split; [|done]. by eapply (decomposed_extends program p p1).
  - cbn in Hr. subst p1. exists p, [op], changed. split; [done|]. split; [done|]. split; [by left|done].
Qed.

Lemma decompose_loop program ops : forall p done depth changed,
  extends program p -> Forall (decompose_ok program) ops -> balanced depth ops ->
  exists p' groups changed', foldM stepFn ops (p, done, depth, changed) = Ok (p', done ++ concat groups, 0%nat, changed') /\ extends p p' /\
    decomposed_at program p' depth ops groups /\ (changed' = false -> p' = p /\ concat groups = ops /\ changed = false).
Proof.
  induction ops as [|op ops IH]; intros p done depth changed He Hok Hb.
  { cbn in Hb. subst depth. exists p, [], changed. cbn. by rewrite app_nil_r. }
  apply Forall_cons in Hok as [Hop Hok]. destruct Hb as [Hend Hb].
  destruct (decomposeStep_eq program p done depth changed op He Hop Hend) as (p1 & group & ch1 & Hstep & He1 & Hg & Hch1).
  destruct (IH p1 (done ++ group) (depthAfter depth op) ch1) as (p2 & groups & ch2 & Hrest & He2 & Hgs & Hch2); [by transitivity p|done|done|].
  exists p2, (group :: groups), ch2. cbn [foldM]. rewrite Hstep. cbn [mbind result_bind]. rewrite Hrest. cbn [concat]. rewrite (assoc_L (++)).
  split; [reflexivity|]. split; [by transitivity p1|]. split.
  - split; [|done]. destruct (_ =? 0)%nat; [by eapply decomposed_mono|done].
  - intros Hc. destruct (Hch2 Hc) as (-> & Hcc & Hc1). destruct (Hch1 Hc1) as (-> & -> & ->). by rewrite Hcc.
Qed.

Lemma decomposeBlock_eq program ops p :
  extends program p -> Forall (decompose_ok program) ops -> balanced 0 ops ->
  exists p' groups changed, decomposeBlock fuel supportsLuts smallLutSize cfg search p ops = Ok (p', concat groups, changed) /\ extends p p' /\
    decomposed_at program p' 0 ops groups /\ (changed = false -> p' = p /\ concat groups = ops).
Proof.
  intros He Hok Hb. destruct (decompose_loop program ops p [] 0 false He Hok Hb) as (p' & groups & ch & Hl & He' & Hg & Hch).
  exists p', groups, ch. unfold decomposeBlock. rewrite Hl. split; [done|]. split; [done|]. split; [done|]. intros Hc. by destruct (Hch Hc) as (? & ? & _).
Qed.

(** A decomposed block has the effect of the block. *)
Lemma decomposed_run program p' P : extends program p' -> extends p' P -> forall ops depth groups σ σ' σ1,
  Forall (fun op => Forall (operand_wf program) (_src op)) ops -> decomposed_at program p' depth ops groups -> frame program σ σ' ->
  run program ops σ = Some σ1 -> exists σ2, run P (concat groups) σ' = Some σ2 /\ frame program σ1 σ2.
Proof.
  intros He HP. induction ops as [|op ops IH]; intros depth [|group groups] σ σ' σ1 Hwf Hd Hf; try done.
  { cbn. intros [= <-]. by exists σ'. }
  apply Forall_cons in Hwf as [Hwo Hwf]. destruct Hd as [Hg Hd]. cbn [run]. destruct (step program σ op) as [σs|] eqn:Hs; [|done]. cbn [mbind option_bind]. intros Hr.
  assert (Hg' : decomposed program p' op group) by (destruct (_ =? 0)%nat; [done|by left]).
  destruct (decomposed_step program p' P op group σ σ' σs Hwo Hg' He HP Hf Hs) as (σt & Hσt & Hft). cbn [concat]. rewrite run_app, Hσt. cbn [mbind option_bind].
  by apply (IH (depthAfter depth op) groups σs).
Qed.

(** ** [DecomposeWideOps] *)

(** A block and the block that takes its place: each operation outside of an
    atomic block is kept or replaced by located operations with its effect,
    operations inside are kept, and the block as a whole has the same effect.
    Nothing else of the block changes. *)
Definition block_decomposed (program p' : Program) (b b' : BasicBlock) : Prop :=
  b' = with_operations b (_operations b') /\
  (exists groups, _operations b' = concat groups /\ decomposed_at program p' 0 (_operations b) groups) /\
  (Forall (fun op => Forall (operand_wf program) (_src op)) (_operations b) -> forall P σ σ' σ1, extends p' P -> frame program σ σ' ->
     run program (_operations b) σ = Some σ1 -> exists σ2, run P (_operations b') σ' = Some σ2 /\ frame program σ1 σ2).

Definition block_ok (program : Program) (b : BasicBlock) : Prop := balanced 0 (_operations b) /\ Forall (decompose_ok program) (_operations b).

Lemma block_decomposed_intro program p' b ops groups :
  extends program p' -> ops = concat groups -> decomposed_at program p' 0 (_operations b) groups -> block_decomposed program p' b (with_operations b ops).
Proof.
  intros He -> Hd. split; [done|]. split; [by exists groups|]. intros Hwf P σ σ' σ1 HP Hf Hr. by apply (decomposed_run program p' P He HP (_operations b) 0%nat groups σ).
Qed.

Lemma block_decomposed_mono program p p' b b' : extends program p -> extends p p' -> block_decomposed program p b b' -> block_decomposed program p' b b'.
Proof.
  intros He Hep (-> & (groups & Ho & Hd) & _). apply (block_decomposed_intro program p' b _ groups); [by transitivity p|done|by eapply decomposed_at_mono].
Qed.

(** C6: on a function whose atomic blocks are closed, [DecomposeWideOps]
    returns without a failed assertion.  Every operation outside of an atomic
    block is kept or replaced by located operations that have its effect on the
    registers of the program: comparisons, additions and subtractions of any
    width, and selections.  A basic block of operations with values leaves what
    it left before in every register of the old program, and when the pass
    reports no change there is none. *)
Theorem DecomposeWideOps_correct program function :
  Forall (block_ok program) (_basicBlocks function) ->
  exists p' function' changed, DecomposeWideOps fuel supportsLuts smallLutSize cfg search program function = Ok (p', function', changed) /\
    extends program p' /\ Forall2 (block_decomposed program p') (_basicBlocks function) (_basicBlocks function') /\
    (changed = false -> p' = program /\ function' = function).
Proof.
  intros Hok. unfold DecomposeWideOps.
  assert (Hloop : forall bs p done changed, extends program p -> Forall (block_ok program) bs ->
    exists p' bs' changed', foldM (fun st basicBlock =>
      '(program, ops, changed) ← decomposeBlock fuel supportsLuts smallLutSize cfg search st.1.1 (_operations basicBlock);
      Ok (program, st.1.2 ++ [with_operations basicBlock ops], st.2 || changed)) bs (p, done, changed) = Ok (p', done ++ bs', changed') /\ extends p p' /\
      Forall2 (block_decomposed program p') bs bs' /\ (changed' = false -> p' = p /\ bs' = bs /\ changed = false)).
  { induction bs as [|b bs IH]; intros p done changed He Hbs; [exists p, [], changed; cbn; by rewrite app_nil_r|].
    apply Forall_cons in Hbs as [[Hbal Hops] Hbs]. cbn [foldM fst snd].
    destruct (decomposeBlock_eq program (_operations b) p He Hops Hbal) as (p1 & groups & ch1 & -> & He1 & Hgs & Hch1). cbn [mbind result_bind].
    destruct (IH p1 (done ++ [with_operations b (concat groups)]) (changed || ch1)) as (p2 & bs' & ch2 & -> & He2 & Hbs' & Hch2); [by transitivity p|done|].
    exists p2, (with_operations b (concat groups) :: bs'), ch2. rewrite <- (assoc_L (++)). split; [done|]. split; [by transitivity p1|]. split.
    - constructor; [|done]. apply (block_decomposed_mono program p1 p2); [by transitivity p|done|]. apply (block_decomposed_intro program p1 b _ groups); [by transitivity p|done|done].
    - intros Hc. destruct (Hch2 Hc) as (-> & -> & [-> ->]%orb_false_iff). destruct (Hch1 eq_refl) as (-> & ->). by destruct b. }
  destruct (Hloop (_basicBlocks function) program [] false) as (p' & bs' & ch & -> & He & Hbs & Hch); [done|done|]. cbn [mbind result_bind app].
  exists p', (mkFunction bs'), ch. split; [done|]. split; [done|]. split; [done|]. intros Hc. destruct (Hch Hc) as (-> & -> & _). by destruct function.
Qed.

End Operation.
(** ** Shifts *)

Lemma DecomposeShift_decides program op t a b d wa wb w r :
  shift_ok program op t a b d wa wb w -> OperationUsesOnlyLocalReg program op = Ok true -> wb < 64 -> DecomposeShift program op t = Ok r -> r.2 <> None.
Proof.
  intros [_ Hs _ [Hb _] _ Hd _ _ _] Hl Hw. unfold DecomposeShift. rewrite Hl, Hs. cbn [length Nat.eqb assert_ mbind result_bind negb at_ lookup list_lookup]. unfold at_. cbn [lookup list_lookup mbind result_bind SourceOperand_Width].
  rewrite (registerWidth_eq _ _ _ Hb).
  repeat (match goal with |- (if 64 <=? wb then _ else _) = _ -> _ => rewrite (proj2 (Z.leb_gt 64 wb)) by lia | |- (?m ≫= _) = _ -> _ => destruct m as [?|?]; cbn [mbind result_bind]; [|done] | |- context [match ?x with pair _ _ => _ end] => destruct x end); by intros [= <-].
Qed.

(** C37: on a shift by a register, [DecomposeShift] returns without a failed
    assertion; the selections by the bits of the shift amount that it emits have
    the effect of the shift, signed or not, and it leaves the shift alone only
    if a register is global or the amount has 64 bits or more. *)
Theorem DecomposeShift_correct program op t a b d wa wb w :
  shift_ok program op t a b d wa wb w ->
  exists r, DecomposeShift program op t = Ok r /\ replaced program op r /\
    (OperationUsesOnlyLocalReg program op = Ok true -> wb < 64 -> r.2 <> None).
Proof.
  intros Hok. destruct (DecomposeShift_eq program op t a b d wa wb w Hok) as (r & Hr & Hrep). exists r. split; [done|]. split; [done|].
  intros Hl Hw. by eapply DecomposeShift_decides.
Qed.

(** ** An example *)

Definition wide_program : Program :=
  mkProgram [mkRegisterDescription 8 Local "a"; mkRegisterDescription 8 Local "b"; mkRegisterDescription 9 Local "sum";
             mkRegisterDescription 1 Local "flag"; mkRegisterDescription 2 Local "index"; mkRegisterDescription 8 Local "choice"].

Definition wide_op (opcode : Opcode) (mask : Z) (srcs : list nat) (dst : nat) : Operation :=
  mkOperation opcode mask {[(0, 7, 0, None)%nat]} ((fun r => SrcRegister (mkAccessedRegister r)) <$> srcs) [DstRegister (mkAccessedRegister dst)].

(** Signed and unsigned operands, both kinds of comparison, a selection among
    four registers, and a subtraction inside of an atomic block *)
Definition wide_function : Function_ :=
  mkFunction [mkBasicBlock [] [wide_op (BinaryOp ParseTreeBinaryOpTypeAdd) 1 [0; 1]%nat 2; wide_op (BinaryOp ParseTreeBinaryOpTypeGT) 2 [0; 1]%nat 3;
    wide_op (BinaryOp ParseTreeBinaryOpTypeNE) 0 [0; 1]%nat 3; wide_op Select 0 [4; 0; 1; 5; 0]%nat 5] [];
    mkBasicBlock [] [mkOperation BeginAtomic 0 ∅ [] []; wide_op (BinaryOp ParseTreeBinaryOpTypeSub) 0 [0; 1]%nat 2; mkOperation EndAtomic 0 ∅ [] []] []].

(** Words of three bits, selections of two inputs; the search finds words of four bits. *)
Definition wide_config (carrySelect : bool) : CodeGenConfig := mkCodeGenConfig carrySelect 5 1 2.
Definition wide_search (dstWidth : Z) : option Z := if 4 <? dstWidth then Some 4 else None.

Lemma wide_function_ok : Forall (block_ok 20 wide_program) (_basicBlocks wide_function).
Proof.
  assert (H : forall r x, _registerTable wide_program !! r = Some x -> 0 < _regWidth x < 2 ^ 30 -> operand_wf wide_program (SrcRegister (mkAccessedRegister r))) by (intros r x Hx Hb; by exists x).
  assert (Hl : {[(0, 7, 0, None)%nat]} <> (∅ : gset FileAndLineNumber)) by set_solver.
  assert (Ha : operand_wf wide_program (SrcRegister (mkAccessedRegister 0))) by (eapply H; [reflexivity|cbn; lia]).
  assert (Hb : operand_wf wide_program (SrcRegister (mkAccessedRegister 1))) by (eapply H; [reflexivity|cbn; lia]).
  assert (Hf : has_width wide_program 3 1) by (eexists; split; reflexivity).
  assert (Hadd : forall t mask, add_type t -> add_ok wide_program (wide_op (BinaryOp t) mask [0; 1]%nat 2) t (SrcRegister (mkAccessedRegister 0)) (SrcRegister (mkAccessedRegister 1)) (mkAccessedRegister 2) 9).
  { intros t mask Ht. split; try done. split; [eexists; split; reflexivity|lia]. }
  assert (Hcmp : forall t mask, compare_ok wide_program (wide_op (BinaryOp t) mask [0; 1]%nat 3) t (SrcRegister (mkAccessedRegister 0)) (SrcRegister (mkAccessedRegister 1)) (mkAccessedRegister 3)) by (intros t mask; by split).
  assert (Hw : forall r x, _registerTable wide_program !! r = Some x -> _regWidth x = 8 -> width_fits 20 wide_program (SrcRegister (mkAccessedRegister r))).
  { intros r x Hx H8 w. cbn. unfold registerWidth. rewrite (at_Some _ _ _ Hx). cbn. intros [= <-]. rewrite H8. split; lia. }
  constructor; [|constructor; [|constructor]].
  - split; [cbn; repeat split; done|]. constructor; [|constructor; [|constructor; [|constructor; [|constructor]]]].
    + do 4 eexists. apply Hadd. by left.
    + do 3 eexists. apply Hcmp.
    + do 3 eexists. split; [apply Hcmp|]. split; eapply Hw; reflexivity.
    + exists (mkAccessedRegister 5), 8, 2. split; try done.
      * split; [|cbn; lia|cbn; lia|]. { repeat (constructor; [eapply H; [reflexivity|cbn; lia]|]). constructor. } eexists _, 8. split; [reflexivity|]. split; [reflexivity|]. lia.
      * split; [eexists; split; reflexivity|lia].
      * split; [by eexists|]. intros r [= <-]. by eexists.
  - split; [cbn; repeat split; try done; lia|]. constructor; [done|]. constructor; [|constructor; [done|constructor]]. do 4 eexists. apply Hadd. by right.
Qed.

(** A signed value shifted to the right by the register [index] *)
Definition wide_shift : Operation := wide_op (BinaryOp ParseTreeBinaryOpTypeShr) 1 [0; 4]%nat 2.

Lemma DecomposeShift_correct_witness :
  shift_ok wide_program wide_shift ParseTreeBinaryOpTypeShr (SrcRegister (mkAccessedRegister 0)) (mkAccessedRegister 4) (mkAccessedRegister 2) 8 2 9 /\
  exists r, DecomposeShift wide_program wide_shift ParseTreeBinaryOpTypeShr = Ok r /\ replaced wide_program wide_shift r /\
    (OperationUsesOnlyLocalReg wide_program wide_shift = Ok true -> 2 < 64 -> r.2 <> None).
Proof.
  assert (H : shift_ok wide_program wide_shift ParseTreeBinaryOpTypeShr (SrcRegister (mkAccessedRegister 0)) (mkAccessedRegister 4) (mkAccessedRegister 2) 8 2 9).
  { split; [done|done| | |lia|done| | |cbn; set_solver].
    - split; [eexists; split; [reflexivity|cbn; lia]|done].
    - split; [eexists; split; reflexivity|]. split; [lia|done].
    - eexists; split; reflexivity.
    - intros r [= <-]. by eexists. }
  split; [exact H|]. exact (DecomposeShift_correct wide_program wide_shift _ _ _ _ 8 2 9 H).
Defined.

Lemma DecomposeWideOps_correct_witness :
  Forall (block_ok 20 wide_program) (_basicBlocks wide_function) /\ search_ok wide_search /\
  (forall carrySelect, exists p' function' changed,
    DecomposeWideOps 20 true 4 (wide_config carrySelect) wide_search wide_program wide_function = Ok (p', function', changed) /\
    extends wide_program p' /\ Forall2 (block_decomposed wide_program p') (_basicBlocks wide_function) (_basicBlocks function') /\
    (changed = false -> p' = wide_program /\ function' = wide_function)).
Proof.
  assert (Hs : search_ok wide_search) by (intros d iw; unfold wide_search; destruct (Z.ltb_spec 4 d); intros [= <-]; lia).
  split; [exact wide_function_ok|]. split; [exact Hs|]. intros carrySelect.
  apply (DecomposeWideOps_correct 20 true 4 ltac:(lia) (wide_config carrySelect) wide_search Hs 1 ltac:(lia) eq_refl wide_program wide_function wide_function_ok).
Defined.

(** With carry bits the addition becomes 20 operations on three words, the
    comparisons three each and the selection five; the operations of the atomic
    block stay. *)
Example DecomposeWideOps_sample :
  (fun carrySelect => (fun r => (fun b => length (_operations b)) <$> _basicBlocks r.1.2) <$>
    (match DecomposeWideOps 20 true 4 (wide_config carrySelect) wide_search wide_program wide_function with Ok r => Some r | Err _ => None end)) <$> [false; true]
  = [Some [31; 3]%nat; Some [48; 3]%nat].
Proof. vm_compute. reflexivity. Qed.

End DecomposeCorrect.
