(* ===== verification/ConstProp.v ===== *)
(** * Constant propagation

    [optimize.cpp]: [AllowLiteralSourceOperand], [IsGlobalReg], [Equal],
    [IsSuperSet], [ComputeConstantGlobals], [SubstituteLiterals] and
    [ConstantPropagation], whose [switch] is [FoldOperation] of [Ir].

    The address of an operation, which identifies an edge to a successor, is the
    pair of its block and its position in the enumeration of the block.  A
    [std::map] with such keys is only intersected over all its entries, which
    does not depend on their order.  The [Global()] part of a register
    description is an entry of [globals]. *)

From S2P Require Import Prelude MachineInt Literals Ir LutOpt Flow.
Import MachineInt Containers Literals Ir LutOpt Flow.

Module ConstProp.

(** [RegisterDescription::GlobalDesc] *)
Record GlobalDesc : Type := mkGlobalDesc { _hasInitialValue : bool; _isConstant : bool; _initialValue : Z }.

Notation RegisterValueMap := (gmap nat Literal).

Definition AllowLiteralSourceOperand (op : Operation) (sourceOperandIndex : nat) : result bool :=
  assert_ (sourceOperandIndex <? length (_src op))%nat;;
  Ok (match _opcode op with
      | StartCondition _ | MovCrossFunction => false
      | Enqueue isPredicated => isPredicated && (sourceOperandIndex =? 0)%nat
      | _ => true
      end).

Definition Equal (src1 src2 : RegisterValueMap) : bool :=
  (size src1 =? size src2)%nat && forallb (fun p => bool_decide (src2 !! p.1 = Some p.2)) (map_entries src1).

Definition IsSuperSet (larger smaller : RegisterValueMap) : bool :=
  forallb (fun p => bool_decide (larger !! p.1 = Some p.2)) (map_entries smaller).

Section Constants.
Context (program : Program) (globals : gmap nat GlobalDesc).

Definition IsGlobalReg (reg : AccessedRegister) : result bool :=
  t ← registerType program (_registerIndex reg); Ok (bool_decide (t = Global)).

(** The value of a constant global *)
Definition constantGlobal (registerIndex : nat) : result (option Literal) :=
  regDesc ← at_ (_registerTable program) registerIndex;
  if bool_decide (Global = _type regDesc) then
    global ← of_option AssertionFailed (globals !! registerIndex);
    Ok (if _isConstant global && _hasInitialValue global then Some (mkLiteral (_initialValue global) (_regWidth regDesc)) else None)
  else Ok None.

Definition ComputeConstantGlobals : result RegisterValueMap :=
  foldM (fun result registerIndex =>
      v ← constantGlobal registerIndex;
      Ok (match v with Some l => <[registerIndex := l]> result | None => result end))
    (seq 0 (length (_registerTable program))) ∅.

Definition setSource (op : Operation) (i : nat) (o : SourceOperand) : Operation :=
  mkOperation (_opcode op) (_signExtendSourceMask op) (_locations op) (<[i := o]> (_src op)) (_dst op).

(** [op.<field of Operation> = ...] *)
Definition withOperation (op : FlowOperation) (o : Operation) : FlowOperation :=
  mkFlowOperation o (_getSuccessorBlock op) (_renamingTable op) (_reverseRenamingTable op) (_isContextSaverCaller op).

Definition substituteSource (globalConstants : RegisterValueMap) (st : bool * Operation) (i : nat) : result (bool * Operation) :=
  o ← at_ (_src st.2) i;
  Ok (match o with
      | SrcRegister r =>
          match globalConstants !! _registerIndex r with Some l => (true, setSource st.2 i (SrcLiteral l)) | None => st end
      | _ => st
      end).

Definition SubstituteLiterals (functions : list FlowFunction) (blocks : gmap nat FlowBlock) : result (gmap nat FlowBlock * bool) :=
  globalConstants ← ComputeConstantGlobals;
  foldM (fun st b =>
      basicBlock ← blockAt st.1 b;
      '(madeSubstitution, basicBlock) ← ForEachOperationForward (fun madeSubstitution op =>
          '(made, o) ← foldM (substituteSource globalConstants) (seq 0 (length (_src (_operation op)))) (madeSubstitution, _operation op);
          Ok (made, withOperation op o)) Unscheduled basicBlock st.2;
      Ok (<[b := basicBlock]> st.1, madeSubstitution))
    (concat (_basicBlocks <$> functions)) (blocks, false).

(** ** One operation *)

(** The value of a source register, if it is known *)
Definition sourceValue (registerValues : RegisterValueMap) (registerIndex : nat) : result (option Literal) :=
  match registerValues !! registerIndex with Some l => Ok (Some l) | None => constantGlobal registerIndex end.

(** One source operand: the state is the operation, [allSourcesKnown] and [didChangeIR]. *)
Definition propagateSource (registerValues : RegisterValueMap) (st : Operation * bool * bool) (sourceOperandIndex : nat)
    : result (Operation * bool * bool) :=
  let '(op, allSourcesKnown, didChangeIR) := st in
  srcOp ← at_ (_src op) sourceOperandIndex;
  match srcOp with
  | SrcFifo _ | SrcStringLiteral _ => Ok (op, false, didChangeIR)
  | SrcRegister srcReg =>
      srcValue ← sourceValue registerValues (_registerIndex srcReg);
      match srcValue with
      | Some l =>
          allow ← AllowLiteralSourceOperand op sourceOperandIndex;
          if allow : bool then
            let op := setSource op sourceOperandIndex (SrcLiteral l) in
            op ← (if isLut op then '(_, op) ← FixupLutOp op; Ok op else Ok op);
            Ok (op, allSourcesKnown, true)
          else Ok (op, allSourcesKnown, didChangeIR)
      | None => Ok (op, false, didChangeIR)
      end
  | SrcLiteral _ => Ok st
  end.

(** The literal that the operation writes, and whether the operation is to be replaced *)
Definition destinationValue (op : Operation) (dstWidth : Z) : result (option (Literal * bool)) :=
  v ← FoldOperation op dstWidth;
  match v with
  | Some v =>
      doUpdateIR ← (match _opcode op with Mov => o ← at_ (_src op) 0; Ok (negb (isLiteral o)) | _ => Ok true end);
      Ok (Some (mkLiteral v dstWidth, doUpdateIR))
  | None => Ok None
  end.

(** The part of the callback after the propagation to the successor *)
Definition propagateOperation (registerValues : RegisterValueMap) (op : FlowOperation) (didChangeIR : bool)
    : result (RegisterValueMap * FlowOperation * bool) :=
  mapM_ (fun destOp => match destOp with
                       | DstRegister r => assert_ (bool_decide (registerValues !! _registerIndex r = None))
                       | DstFifo _ => Ok tt
                       end) (_dst (_operation op));;
  '(o, allSourcesKnown, didChangeIR) ← foldM (propagateSource registerValues) (seq 0 (length (_src (_operation op)))) (_operation op, true, didChangeIR);
  let op := withOperation op o in
  match allSourcesKnown, _dst o with
  | true, [DstRegister dstReg] =>
      isGlobal ← IsGlobalReg dstReg;
      if isGlobal : bool then Ok (registerValues, op, didChangeIR)
      else
        dstWidth ← registerWidth program (_registerIndex dstReg);
        value ← destinationValue o dstWidth;
        match value with
        | Some (newValue, doUpdateIR) =>
            let registerValues' := <[_registerIndex dstReg := newValue]> registerValues in
            if doUpdateIR : bool then
              assert_ (_width newValue =? dstWidth);;
              Ok (registerValues', mkFlowOperation (mkOperation Mov 0 (_locations o) [SrcLiteral newValue] [DstRegister dstReg]) None ∅ ∅ false, true)
            else Ok (registerValues', op, didChangeIR)
        | None => Ok (registerValues, op, didChangeIR)
        end
  | _, _ => Ok (registerValues, op, didChangeIR)
  end.

(** ** Edges *)

(** [PredecessorMap]: the values at each enqueue operation of a predecessor *)
Notation PredecessorMap := (gmap (nat * nat) (gmap nat Literal)).

(** The values that an enqueue operation passes on *)
Definition valuesForSuccessor (op : FlowOperation) (registerValues : RegisterValueMap) : result RegisterValueMap :=
  foldM (fun values p =>
      match _renamingTable op !! p.1 with
      | Some _ => Ok values
      | None => registerIndex ← MapRenamedToOriginalRegisterIndex op p.1; Ok (<[registerIndex := p.2]> values)
      end) (map_entries registerValues) ∅.

(** The values on which all predecessors agree *)
Definition intersectPredecessors (predecessorMap : PredecessorMap) : RegisterValueMap :=
  match map_to_list predecessorMap with
  | [] => ∅
  | (_, valuesAtPredecessor0) :: _ =>
      fold_left (fun registerValues p =>
          if forallb (fun q => bool_decide (q.2 !! p.1 = Some p.2)) (map_to_list predecessorMap)
          then <[p.1 := p.2]> registerValues else registerValues) (map_entries valuesAtPredecessor0) ∅
  end.

Section Function_.
Context (functions : list FlowFunction) (functionIndex : nat) (mode : OperationEnumerationMode).

Definition initializeOperation (blocks : gmap nat FlowBlock) (b : nat) (st : gmap nat PredecessorMap) (p : nat * FlowOperation)
    : result (gmap nat PredecessorMap) :=
  match _getSuccessorBlock p.2 with
  | Some successor =>
      s ← blockAt blocks successor;
      Ok (if (_function s =? functionIndex)%nat then <[successor := <[(b, p.1) := ∅]> (default ∅ (st !! successor))]> st else st)
  | None => Ok st
  end.

Definition enumerate (ops : list FlowOperation) : list (nat * FlowOperation) := zip (seq 0 (length ops)) ops.

Definition initializePredecessorMaps (blocks : gmap nat FlowBlock) (basicBlocks : list nat) : result (gmap nat PredecessorMap) :=
  foldM (fun st b => bb ← blockAt blocks b; foldM (initializeOperation blocks b) (enumerate (operationsOf mode bb)) st) basicBlocks ∅.

(** What the callback changes: the values, the predecessor maps, the work list,
    [didChangeIR], and the position of the next operation *)
Record state : Type := mkState {
  _registerValues : RegisterValueMap;
  _inputValueMap : gmap nat PredecessorMap;
  _workList : gset nat;
  _didChangeIR : bool;
  _position : nat }.

(** The part of the callback for an enqueue operation *)
Definition propagateToSuccessor (blocks : gmap nat FlowBlock) (b : nat) (st : state) (op : FlowOperation)
    : result (gmap nat PredecessorMap * gset nat) :=
  match _getSuccessorBlock op with
  | None => Ok (_inputValueMap st, _workList st)
  | Some successor =>
      s ← blockAt blocks successor;
      if (_function s =? functionIndex)%nat then
        values ← valuesForSuccessor op (_registerValues st);
        predecessorMap ← of_option AssertionFailed (_inputValueMap st !! successor);
        previousValues ← of_option AssertionFailed (predecessorMap !! (b, _position st));
        if Equal values previousValues then Ok (_inputValueMap st, _workList st)
        else
          assert_ (IsSuperSet values previousValues);;
          workList ← AddBasicBlock blocks functionIndex (_workList st) successor;
          Ok (<[successor := <[(b, _position st) := values]> predecessorMap]> (_inputValueMap st), workList)
      else Ok (_inputValueMap st, _workList st)
  end.

Definition operationCallback (blocks : gmap nat FlowBlock) (b : nat) (st : state) (op : FlowOperation) : result (state * FlowOperation) :=
  '(inputValueMap, workList) ← propagateToSuccessor blocks b st op;
  '(registerValues, op, didChangeIR) ← propagateOperation (_registerValues st) op (_didChangeIR st);
  Ok (mkState registerValues inputValueMap workList didChangeIR (S (_position st)), op).

Context (firstBlock : gset nat -> nat).

(** One block of the work list *)
Definition propagateBlock (blocks : gmap nat FlowBlock) (inputValueMap : gmap nat PredecessorMap) (workList : gset nat) (didChangeIR : bool)
    : result (gmap nat FlowBlock * gmap nat PredecessorMap * gset nat * bool) :=
  '(b, workList) ← Pop blocks functionIndex firstBlock workList;
  basicBlock ← blockAt blocks b;
  isFunctionStart ← IsFirstInFunction functions b basicBlock;
  let predecessorMap := default ∅ (inputValueMap !! b) in
  let registerValues := if negb (bool_decide (predecessorMap = ∅)) && negb isFunctionStart then intersectPredecessors predecessorMap else ∅ in
  '(st, basicBlock) ← ForEachOperationForward (operationCallback blocks b) mode basicBlock (mkState registerValues inputValueMap workList didChangeIR 0);
  Ok (<[b := basicBlock]> blocks, _inputValueMap st, _workList st, _didChangeIR st).

Fixpoint propagateLoop (fuel : nat) (blocks : gmap nat FlowBlock) (inputValueMap : gmap nat PredecessorMap) (workList : gset nat) (didChangeIR : bool)
    : result (gmap nat FlowBlock * bool) :=
  if bool_decide (workList = ∅) then Ok (blocks, didChangeIR)
  else match fuel with
       | O => Err OutOfFuel
       | S fuel => '(blocks, inputValueMap, workList, didChangeIR) ← propagateBlock blocks inputValueMap workList didChangeIR;
                   propagateLoop fuel blocks inputValueMap workList didChangeIR
       end.

Definition ConstantPropagation (fuel : nat) (blocks : gmap nat FlowBlock) : result (gmap nat FlowBlock * bool) :=
  function ← at_ functions functionIndex;
  inputValueMap ← initializePredecessorMaps blocks (_basicBlocks function);
  propagateLoop fuel blocks inputValueMap (DataFlowWorkList (_basicBlocks function)) false.
End Function_.
End Constants.

End ConstProp.
