(* ===== verification/FlowPaths.v ===== *)
(** * The executions of a function

    The reference for passes over the control flow graph.  A thread starts at
    an entry of the function with any values in its registers, executes the
    operations of a block in order, and continues at the successor of any of its
    enqueue operations with the values that the operation passes on.  Other
    threads write global registers meanwhile, but not the constant ones.  The
    observations of an execution are everything the rest of the machine sees:
    operations with a value are seen only when they write a global register. *)

From stdpp Require Import functions.
From S2P Require Import Prelude MachineInt Literals Ir Semantics Flow ConstProp.
Import MachineInt Containers Literals Ir Semantics Flow FlowSemantics ConstProp.

Module FlowPaths.

Inductive observation : Type :=
| ObWrite (register : nat) (value : Z)
| ObOperation (e : event).

Section Paths.
Context (program : Program) (globals : gmap nat GlobalDesc).

(** Register [r] holds the literal [l]. *)
Definition holds (σ : nat -> Z) (r : nat) (l : Literal) : Prop := operandLiteral program σ (SrcRegister (mkAccessedRegister r)) = Some l.

(** A constant global with an initial value has that value. *)
Definition constantValue (r : nat) (l : Literal) : Prop :=
  exists d g, _registerTable program !! r = Some d /\ _type d = Global /\ globals !! r = Some g /\
    _isConstant g = true /\ _hasInitialValue g = true /\ l = mkLiteral (_initialValue g) (_regWidth d).

Definition constants (σ : nat -> Z) : Prop := forall r l, constantValue r l -> holds σ r l.

Lemma constantGlobal_value r l : constantGlobal program globals r = Ok (Some l) <-> constantValue r l.
Proof.
  unfold constantGlobal, at_. destruct (_registerTable program !! r) as [d|] eqn:Hd; cbn [of_option mbind result_bind].
  - case_bool_decide as Ht.
    + destruct (globals !! r) as [g|] eqn:Hg; cbn [of_option mbind result_bind]; [|split; [done|]; intros (? & g & _ & _ & Hg' & _); congruence]. destruct (_isConstant g && _hasInitialValue g) eqn:Hc.
      * apply andb_true_iff in Hc as [H1 H2]. split; [intros [= <-]; by exists d, g|]. intros (d' & g' & Hd' & _ & Hg' & _ & _ & ->). rewrite Hg in Hg'. rewrite Hd in Hd'. congruence.
      * split; [done|]. intros (d' & g' & _ & _ & Hg' & H1 & H2 & _). rewrite Hg in Hg'. injection Hg' as <-. by rewrite H1, H2 in Hc.
    + split; [done|]. intros (d' & g' & Hd' & Ht' & _). rewrite Hd in Hd'. injection Hd' as <-. congruence.
  - split; [done|]. intros (d' & g' & Hd' & _). congruence.
Qed.

Definition globalWrite (dv : DestinationOperand * Z) : option observation :=
  match dv.1 with DstRegister r => if isGlobal program (_registerIndex r) then Some (ObWrite (_registerIndex r) dv.2) else None | DstFifo _ => None end.

(** What is seen of an operation with results [vs] *)
Definition observe (σ : nat -> Z) (op : FlowOperation) (vs : list Z) : list observation :=
  if CanOpcodeBeLoweredToLut (_opcode (_operation op)) then omap globalWrite (zip (_dst (_operation op)) vs)
  else [ObOperation (eventOf program σ op vs)].

(** The registers of a successor: those that the block has renamed come from
    the renamed registers, the others are passed through. *)
Definition passes (op : FlowOperation) (σ σ' : nat -> Z) : Prop :=
  forall r, isGlobal program r = false -> σ' r = σ (OptionallyMapIndex r (_renamingTable op)).

Section Function_.
Context (members : list nat) (entry : nat -> Prop) (ops : nat -> list FlowOperation).

(** An execution with the observations [tr] reaches operation [k] of block [b]
    with the registers [σ]. *)
Inductive reaches : list observation -> nat -> nat -> (nat -> Z) -> Prop :=
| reaches_entry b σ : b ∈ members -> entry b -> constants σ -> reaches [] b 0 σ
| reaches_interfere tr b k σ σ' : reaches tr b k σ -> interfere program σ σ' -> constants σ' -> reaches tr b k σ'
| reaches_step tr b k σ op vs :
    reaches tr b k σ -> ops b !! k = Some op -> results_of program σ (_operation op) vs ->
    reaches (tr ++ observe σ op vs) b (S k) (write (_dst (_operation op)) vs σ)
| reaches_jump tr b k σ op s σ' :
    reaches tr b k σ -> ops b !! k = Some op -> _getSuccessorBlock op = Some s -> s ∈ members ->
    passes op σ σ' -> constants σ' -> reaches tr s 0 σ'.

Definition reachable (b k : nat) (σ : nat -> Z) : Prop := exists tr, reaches tr b k σ.

Lemma reaches_member tr b k σ : reaches tr b k σ -> b ∈ members.
Proof. by induction 1. Qed.
End Function_.

(** ** Functions with the same executions *)

(** On the registers in [P] the operations do the same. *)
Record does_same (P : (nat -> Z) -> Prop) (op op' : FlowOperation) : Prop := mk_does_same {
  sa_dst : _dst (_operation op') = _dst (_operation op);
  sa_successor : _getSuccessorBlock op' = _getSuccessorBlock op;
  sa_renaming : _getSuccessorBlock op <> None -> _renamingTable op' = _renamingTable op;
  sa_results : forall σ vs, P σ -> results_of program σ (_operation op') vs <-> results_of program σ (_operation op) vs;
  sa_observe : forall σ vs, P σ -> observe σ op' vs = observe σ op vs }.

Section Congruence.
Context (members : list nat) (entry entry' : nat -> Prop) (ops ops' : nat -> list FlowOperation).
Context (Hentry : forall b, entry' b <-> entry b) (Hlen : forall b, b ∈ members -> length (ops' b) = length (ops b)).
Context (Hops : forall b k op op', b ∈ members -> ops b !! k = Some op -> ops' b !! k = Some op' -> does_same (reachable members entry ops b k) op op').

Lemma congruence_lookup b k : b ∈ members -> is_Some (ops b !! k) <-> is_Some (ops' b !! k).
Proof. intros Hb. by rewrite !lookup_lt_is_Some, Hlen. Qed.

Lemma reaches_congruence tr b k σ : reaches members entry ops tr b k σ <-> reaches members entry' ops' tr b k σ.
Proof.
  split.
  - induction 1 as [b σ Hb He Hc|tr b k σ σ' H IH Hi Hc|tr b k σ op vs H IH Hk Hres|tr b k σ op s σ' H IH Hk Hs Hm Hp Hc].
    + apply reaches_entry; [done|by apply Hentry|done].
    + by eapply reaches_interfere.
    + pose proof (reaches_member _ _ _ _ _ _ _ H) as Hb. destruct (proj1 (congruence_lookup b k Hb) ltac:(by eexists)) as [op' Hk']. pose proof (Hops b k op op' Hb Hk Hk') as Hsame.
      assert (Hr : reachable members entry ops b k σ) by (by exists tr). rewrite <- (sa_observe _ _ _ Hsame σ vs Hr), <- (sa_dst _ _ _ Hsame). apply reaches_step; [done..|]. by apply (sa_results _ _ _ Hsame).
    + pose proof (reaches_member _ _ _ _ _ _ _ H) as Hb. destruct (proj1 (congruence_lookup b k Hb) ltac:(by eexists)) as [op' Hk']. pose proof (Hops b k op op' Hb Hk Hk') as Hsame.
      eapply reaches_jump; [done..|by rewrite (sa_successor _ _ _ Hsame)|done| |done]. intros r Hr. rewrite (sa_renaming _ _ _ Hsame) by congruence. by apply Hp.
  - induction 1 as [b σ Hb He Hc|tr b k σ σ' H IH Hi Hc|tr b k σ op' vs H IH Hk' Hres|tr b k σ op' s σ' H IH Hk' Hs Hm Hp Hc].
    + apply reaches_entry; [done|by apply Hentry|done].
    + by eapply reaches_interfere.
    + pose proof (reaches_member _ _ _ _ _ _ _ H) as Hb. destruct (proj2 (congruence_lookup b k Hb) ltac:(by eexists)) as [op Hk]. pose proof (Hops b k op op' Hb Hk Hk') as Hsame.
      assert (Hr : reachable members entry ops b k σ) by (by exists tr). rewrite (sa_observe _ _ _ Hsame σ vs Hr), (sa_dst _ _ _ Hsame). apply reaches_step; [done..|]. by apply (sa_results _ _ _ Hsame).
    + pose proof (reaches_member _ _ _ _ _ _ _ H) as Hb. destruct (proj2 (congruence_lookup b k Hb) ltac:(by eexists)) as [op Hk]. pose proof (Hops b k op op' Hb Hk Hk') as Hsame.
      rewrite (sa_successor _ _ _ Hsame) in Hs. eapply reaches_jump; [done..| |done]. intros r Hr. rewrite <- (sa_renaming _ _ _ Hsame) by congruence. by apply Hp.
Qed.
End Congruence.

End Paths.

End FlowPaths.
