(* ===== verification/ConstPropOps.v ===== *)
(** * Constant propagation: one operation

    What [propagateOperation] does to an operation whose source registers are
    known in part: the result has the value of the operation on all registers
    that hold the known values, and what is recorded for the destination is what
    the operation writes. *)

From stdpp Require Import functions.
From S2P Require Import Prelude MachineInt Literals Ir LutOpt LutFacts Semantics Flow ConstProp FlowPaths Run.
Import MachineInt Containers Literals Ir LutOpt LutFacts LutPasses LutConst Semantics Flow FlowSemantics.
Import ConstProp FlowPaths.

Module ConstPropOps.

Section Operation.
Context (program : Program) (globals : gmap nat GlobalDesc).
Notation holds := (holds program).
Notation constants := (constants program globals).
Notation constantGlobal := (constantGlobal program globals).
Notation sourceValue := (sourceValue program globals).

(** ** Well-formed operations *)

Definition source_ok (o : SourceOperand) : Prop :=
  match o with
  | SrcLiteral l => lit_wf l /\ _width l < 2 ^ 30
  | SrcRegister r => exists d, _registerTable program !! _registerIndex r = Some d /\ 0 < _regWidth d < 2 ^ 30 /\
      (_type d = Global -> exists g, globals !! _registerIndex r = Some g /\ 0 <= _initialValue g < 2 ^ _regWidth d)
  | _ => True
  end.

(** Constant globals are not written. *)
Definition dst_ok (o : DestinationOperand) : Prop :=
  match o with
  | DstRegister r => exists d, _registerTable program !! _registerIndex r = Some d /\ 0 < _regWidth d < 2 ^ 30 /\ forall l, ~ constantValue program globals (_registerIndex r) l
  | DstFifo _ => True
  end.

(** The operations that can be folded have their arity, and what the operator
    needs of its operands holds whatever the registers contain. *)
Record op_ok (op : Operation) : Prop := mk_op_ok {
  oo_src : Forall source_ok (_src op);
  oo_dst : Forall dst_ok (_dst op);
  oo_length : (length (_src op) <= 64)%nat;
  oo_mask : 0 <= _signExtendSourceMask op;
  oo_value : match _opcode op with
             | Mov | UnaryOp _ => length (_src op) = 1%nat
             | BinaryOp t => length (_src op) = 2%nat /\ forall σ d, binop_pre t (srcInt program σ op 0) (srcInt program σ op 1) d
             | Gather entries => length entries = length (_src op) /\ _signExtendSourceMask op = 0 /\ Forall (fun e => 0 <= _numBits e) entries
             | LutOp _ => exists es, lut_wf program op es
             | _ => True
             end }.

(** ** Known values *)

(** A value that is recorded for a register *)
Definition value_ok (r : nat) (l : Literal) : Prop :=
  exists d, _registerTable program !! r = Some d /\ _type d <> Global /\ 0 < _regWidth d < 2 ^ 30 /\ _width l = _regWidth d /\ 0 <= _value l < 2 ^ _regWidth d.

Definition values_ok (V : RegisterValueMap) : Prop := forall r l, V !! r = Some l -> value_ok r l.

(** The registers hold the recorded values. *)
Definition agrees (V : RegisterValueMap) (σ : nat -> Z) : Prop := forall r l, V !! r = Some l -> holds σ r l.

Definition known (V : RegisterValueMap) (r : nat) : option Literal :=
  match V !! r with Some l => Some l | None => match constantGlobal r with Ok v => v | Err _ => None end end.

Lemma constantGlobal_Ok r : source_ok (SrcRegister (mkAccessedRegister r)) -> exists v, constantGlobal r = Ok v.
Proof.
  intros (d & Hd & _ & Hg). cbn in *. unfold ConstProp.constantGlobal. rewrite (at_Some _ _ _ Hd). cbn [mbind result_bind].
  destruct (bool_decide (Global = _type d)) eqn:Ht; [|by eexists]. apply bool_decide_eq_true_1 in Ht. destruct Hg as (g & Hg & _); [done|]. rewrite Hg. by eexists.
Qed.

Lemma sourceValue_known V r : source_ok (SrcRegister (mkAccessedRegister r)) -> sourceValue V r = Ok (known V r).
Proof.
  intros Hr. unfold ConstProp.sourceValue, known. destruct (V !! r); [done|]. by destruct (constantGlobal_Ok r Hr) as (v & ->).
Qed.

(** A known value has the width of its register. *)
Lemma known_wf V r l : values_ok V -> source_ok (SrcRegister (mkAccessedRegister r)) -> known V r = Some l ->
  exists d, _registerTable program !! r = Some d /\ _width l = _regWidth d /\ 0 < _regWidth d < 2 ^ 30 /\ 0 <= _value l < 2 ^ _regWidth d.
Proof.
  intros HV (d & Hd & Hw & Hg). cbn in *. unfold known. destruct (V !! r) as [l'|] eqn:Hl.
  - intros [= <-]. destruct (HV r l' Hl) as (d' & Hd' & _ & _ & ? & ?). rewrite Hd in Hd'. injection Hd' as <-. by exists d.
  - unfold ConstProp.constantGlobal. rewrite (at_Some _ _ _ Hd). cbn [mbind result_bind]. destruct (bool_decide (Global = _type d)) eqn:Ht; [|done].
    apply bool_decide_eq_true_1 in Ht. destruct (Hg (eq_sym Ht)) as (g & Hgl & Hb). rewrite Hgl. cbn [of_option mbind result_bind].
    destruct (_isConstant g && _hasInitialValue g); [|done]. intros [= <-]. by exists d.
Qed.

Lemma known_holds V r l σ : agrees V σ -> constants σ -> known V r = Some l -> holds σ r l.
Proof.
  intros HV Hc. unfold known. destruct (V !! r) as [l'|] eqn:Hl; [intros [= <-]; by apply HV|]. destruct (constantGlobal r) as [v|] eqn:Hg; [|done]. intros ->. by apply Hc, constantGlobal_value.
Qed.

Lemma known_mono V1 V2 r l : V1 ⊆ V2 -> values_ok V2 -> known V1 r = Some l -> known V2 r = Some l.
Proof.
  intros Hsub HV. unfold known. destruct (V1 !! r) as [l'|] eqn:H1; [intros [= <-]; by rewrite (lookup_weaken _ _ _ _ H1 Hsub)|].
  destruct (V2 !! r) as [l2|] eqn:H2; [|done]. destruct (HV r l2 H2) as (d & Hd & Ht & _). unfold ConstProp.constantGlobal. rewrite (at_Some _ _ _ Hd). cbn [mbind result_bind].
  by rewrite bool_decide_eq_false_2 by congruence.
Qed.

(** Registers that hold the known values, and otherwise what they held *)
Definition override (V : RegisterValueMap) (σ : nat -> Z) (r : nat) : Z := match known V r with Some l => _value l | None => σ r end.

Lemma operandLiteral_override V σ r l :
  values_ok V -> source_ok (SrcRegister (mkAccessedRegister r)) -> known V r = Some l -> holds (override V σ) r l.
Proof.
  intros HV Hr Hk. destruct (known_wf V r l HV Hr Hk) as (d & Hd & Hw & Hb & Hv). unfold FlowPaths.holds, operandLiteral. cbn [_registerIndex]. rewrite Hd. cbn [mbind option_bind].
  unfold override. rewrite Hk, Z.mod_small, <- Hw by done. by destruct l.
Qed.

(** ** The source operands *)

Definition allowed (opcode : Opcode) (i : nat) : bool :=
  match opcode with StartCondition _ | MovCrossFunction => false | Enqueue isPredicated => isPredicated && (i =? 0)%nat | _ => true end.

Lemma allowed_lut opcode i : CanOpcodeBeLoweredToLut opcode = true -> allowed opcode i = true.
Proof. by destruct opcode. Qed.

(** What becomes of source operand [i] *)
Definition newSource (V : RegisterValueMap) (opcode : Opcode) (i : nat) (o : SourceOperand) : SourceOperand :=
  match o with
  | SrcRegister r => match known V (_registerIndex r) with Some l => if allowed opcode i then SrcLiteral l else o | None => o end
  | _ => o
  end.

(** Its value is known. *)
Definition settled (V : RegisterValueMap) (o : SourceOperand) : bool :=
  match o with SrcLiteral _ => true | SrcRegister r => match known V (_registerIndex r) with Some _ => true | None => false end | _ => false end.

(** Both have the same value and are of the same kind. *)
Definition same_kind (opcode opcode' : Opcode) : Prop :=
  match opcode with LutOp _ => exists lut, opcode' = LutOp lut | _ => opcode' = opcode end.

Lemma same_kind_refl opcode : same_kind opcode opcode.
Proof. destruct opcode; cbn; by try eexists. Qed.

(** The state of the loop after [n] operands *)
Record propagated (V : RegisterValueMap) (op : Operation) (n : nat) (o : Operation) : Prop := mk_propagated {
  pg_opcode : same_kind (_opcode op) (_opcode o);
  pg_mask : _signExtendSourceMask o = _signExtendSourceMask op;
  pg_locations : _locations o = _locations op;
  pg_dst : _dst o = _dst op;
  pg_src : forall j, _src o !! j = (fun x => if (j <? n)%nat then newSource V (_opcode op) j x else x) <$> _src op !! j;
  pg_lut : isLut op = true -> exists es, lut_wf program o es;
  pg_value : forall σ, agrees V σ -> constants σ -> opValue program σ o = opValue program σ op }.

Lemma newSource_literal V opcode i x σ : agrees V σ -> constants σ -> operandLiteral program σ (newSource V opcode i x) = operandLiteral program σ x.
Proof.
  intros HV Hc. destruct x as [l|r| |]; try done. cbn [newSource]. destruct (known V (_registerIndex r)) as [l|] eqn:Hk; [|done]. destruct (allowed opcode i); [|done].
  symmetry. destruct r. by apply (known_holds V).
Qed.

Lemma propagated_literals V op n o σ : propagated V op n o -> agrees V σ -> constants σ -> operandLiteral program σ <$> _src o = operandLiteral program σ <$> _src op.
Proof.
  intros H HV Hc. apply list_eq. intros j. rewrite !list_lookup_fmap, (pg_src _ _ _ _ H). destruct (_src op !! j) as [x|]; [|done]. cbn [fmap option_fmap option_map]. f_equal. destruct (j <? n)%nat; [by apply newSource_literal|done].
Qed.

Lemma propagated_length V op n o : propagated V op n o -> length (_src o) = length (_src op).
Proof.
  intros H. apply Nat.le_antisymm.
  - destruct (decide (length (_src o) <= length (_src op))%nat) as [|Hn]; [done|]. destruct (lookup_lt_is_Some_2 (_src o) (length (_src op))) as [x Hx]; [lia|].
    rewrite (pg_src _ _ _ _ H), lookup_ge_None_2 in Hx by lia. done.
  - destruct (decide (length (_src op) <= length (_src o))%nat) as [|Hn]; [done|]. destruct (lookup_lt_is_Some_2 (_src op) (length (_src o))) as [x Hx]; [lia|].
    pose proof (pg_src _ _ _ _ H (length (_src o))) as Hs. by rewrite Hx, lookup_ge_None_2 in Hs by lia.
Qed.

Lemma settled_new V opcode i x : allowed opcode i = true -> settled V x = true -> exists l, newSource V opcode i x = SrcLiteral l.
Proof.
  intros Ha. destruct x as [l|r| |]; cbn; try done; [by exists l|]. destruct (known V (_registerIndex r)) as [l|]; [|done]. intros _. exists l. by rewrite Ha.
Qed.

Lemma newSource_ok V opcode i x : values_ok V -> source_ok x -> source_ok (newSource V opcode i x).
Proof.
  intros HV Hx. destruct x as [l|r| |]; try done. cbn [newSource]. destruct (known V (_registerIndex r)) as [l|] eqn:Hk; [|done]. destruct (allowed opcode i); [|done].
  destruct r as [r]. destruct (known_wf V r l HV Hx Hk) as (d & _ & Hw & Hb & Hv). cbn. unfold lit_wf. rewrite Hw. lia.
Qed.

(** A look-up table keeps its form when an operand becomes a literal. *)
Lemma lut_wf_setSource o es i l : lut_wf program o es -> lit_wf l -> _width l < 2 ^ 30 -> lut_wf program (setSource o i (SrcLiteral l)) es.
Proof.
  intros [Ho He Hm Hs Hd Hw Hb] Hl Hlw. split; try done; cbn [setSource _src]; [by rewrite length_insert|].
  apply Forall_insert; [done|]. by split.
Qed.

Lemma FixupLutOp_setSource o es : lut_wf program o es ->
  exists b o' es', FixupLutOp o = Ok (b, o') /\ lut_wf program o' es' /\ equivalent program o o' /\ _src o' = _src o /\ _signExtendSourceMask o' = _signExtendSourceMask o /\
    _dst o' = _dst o /\ _locations o' = _locations o /\ isLut o' = true.
Proof.
  intros H. destruct (lut_pass (LutPass := FixupLutOp_pass program) o es H I) as (b & o' & es' & Hf & Hwf & _ & He & Hd & Hl & _).
  exists b, o', es'. split; [done|]. split; [done|]. split; [done|]. unfold FixupLutOp, forEachEntry in Hf. destruct (getLut o) as [lut|]; [|done]. cbn [mbind result_bind] in Hf.
  destruct (mapM_ (FixupLutEntry o) (_lutEntries lut)) as [r|]; [|done]. cbn [mbind result_bind] in Hf. injection Hf as _ <-. done.
Qed.

(** One operand *)
Lemma propagateSource_step V op n o all ch x :
  values_ok V -> Forall source_ok (_src op) -> _src op !! n = Some x -> propagated V op n o ->
  exists o' ch', propagateSource program globals V (o, all, ch) n = Ok (o', all && settled V x, ch') /\ propagated V op (S n) o' /\
    (ch' = false -> ch = false /\ o' = o) /\ (ch = true -> ch' = true).
Proof.
  intros HV Hs Hx H. pose proof (Forall_lookup_1 _ _ _ _ Hs Hx) as Hox. pose proof (propagated_length _ _ _ _ H) as Hlen. pose proof (lookup_lt_Some _ _ _ Hx) as Hn.
  assert (Hon : _src o !! n = Some x) by (rewrite (pg_src _ _ _ _ H), Hx; cbn [fmap option_fmap option_map]; by rewrite Nat.ltb_irrefl).
  unfold propagateSource. rewrite (at_Some _ _ _ Hon). cbn [mbind result_bind].
  (* an operand that stays *)
  assert (Hstay : newSource V (_opcode op) n x = x -> propagated V op (S n) o).
  { intros Hnew. destruct H as [Ho Hm Hl Hd Hsrc Hlut Hv]. split; try done. intros j. rewrite Hsrc. destruct (decide (j = n)) as [->|Hne].
    - rewrite Hx. cbn [fmap option_fmap option_map]. rewrite Nat.ltb_irrefl, (proj2 (Nat.ltb_lt n (S n))) by lia. by rewrite Hnew.
    - destruct (Nat.ltb_spec j n), (Nat.ltb_spec j (S n)); try done; lia. }
  destruct x as [l|r|f|s].
  - rewrite andb_true_r. exists o, ch. split; [done|]. split; [by apply Hstay|done].
  - destruct r as [r]. rewrite sourceValue_known by done. cbn [mbind result_bind settled newSource _registerIndex] in *. destruct (known V r) as [l|] eqn:Hk.
    2: { rewrite andb_false_r. exists o, ch. split; [done|]. split; [by apply Hstay|done]. }
    assert (Hal : AllowLiteralSourceOperand o n = Ok (allowed (_opcode op) n)).
    { unfold AllowLiteralSourceOperand. rewrite (proj2 (Nat.ltb_lt _ _)) by lia. cbn [assert_ mbind result_bind]. f_equal. pose proof (pg_opcode _ _ _ _ H) as Hk'.
      unfold same_kind in Hk'. destruct (_opcode op) eqn:Eop; try (by rewrite Hk'). by destruct Hk' as (lut & ->). }
    rewrite Hal, andb_true_r. cbn [mbind result_bind]. destruct (allowed (_opcode op) n) eqn:Ha; [|exists o, ch; split; [done|]; split; [by apply Hstay|done]].
    destruct (known_wf V r l HV Hox Hk) as (d & Hd & Hw & Hb & Hvb). assert (Hlwf : lit_wf l /\ _width l < 2 ^ 30) by (unfold lit_wf; rewrite Hw; lia).
    set (o1 := setSource o n (SrcLiteral l)).
    assert (Hsrc1 : forall j, _src o1 !! j = (fun x => if (j <? S n)%nat then newSource V (_opcode op) j x else x) <$> _src op !! j).
    { intros j. unfold o1. cbn [setSource _src]. destruct (decide (j = n)) as [->|Hne].
      - rewrite list_lookup_insert_eq by lia. rewrite Hx. cbn [fmap option_fmap option_map]. rewrite (proj2 (Nat.ltb_lt n (S n))) by lia. cbn [newSource _registerIndex]. by rewrite Hk, Ha.
      - rewrite list_lookup_insert_ne by done. rewrite (pg_src _ _ _ _ H). destruct (Nat.ltb_spec j n), (Nat.ltb_spec j (S n)); try done; lia. }
    assert (Hval1 : forall σ, agrees V σ -> constants σ -> opValue program σ o1 = opValue program σ o).
    { intros σ Hag Hc. apply opValue_resolve; try done. apply list_eq. intros j. rewrite !list_lookup_fmap, Hsrc1, (pg_src _ _ _ _ H). destruct (_src op !! j) as [y|]; [|done].
      cbn [fmap option_fmap option_map]. f_equal. destruct (Nat.ltb_spec j n), (Nat.ltb_spec j (S n)); try done; [lia|]. by apply newSource_literal. }
    destruct (isLut op) eqn:Hlut.
    + destruct (pg_lut _ _ _ _ H Hlut) as (es & Hes). pose proof (lut_wf_setSource o es n l Hes (proj1 Hlwf) (proj2 Hlwf)) as Hes1. fold o1 in Hes1.
      assert (isLut o1 = true) as -> by (unfold isLut; by rewrite (lut_opcode _ _ _ Hes1)).
      destruct (FixupLutOp_setSource o1 es Hes1) as (b & o2 & es2 & -> & Hes2 & He2 & Hs2 & Hm2 & Hd2 & Hl2 & Hlut2). cbn [mbind result_bind].
      exists o2, true. split; [done|]. split; [|done]. destruct H as [Ho Hm Hlo Hdst Hsrc Hl Hv]. split.
      * unfold isLut in Hlut, Hlut2. unfold same_kind. destruct (_opcode op); try done. destruct (_opcode o2); try done. by eexists.
      * rewrite Hm2. done.
      * rewrite Hl2. done.
      * rewrite Hd2. done.
      * intros j. by rewrite Hs2.
      * intros _. by exists es2.
      * intros σ Hag Hc. rewrite He2, Hval1 by done. by apply Hv.
    + assert (isLut o1 = false) as ->.
      { unfold isLut, o1 in *. cbn [setSource _opcode]. pose proof (pg_opcode _ _ _ _ H) as Hk'. unfold same_kind in Hk'. destruct (_opcode op); rewrite ?Hk'; done. }
      cbn [mbind result_bind]. exists o1, true. split; [done|]. split; [|done]. destruct H as [Ho Hm Hlo Hdst Hsrc Hl Hv]. split; try done; [by rewrite Hlut|]. intros σ Hag Hc. rewrite Hval1 by done. by apply Hv.
  - rewrite andb_false_r. exists o, ch. split; [done|]. split; [by apply Hstay|done].
  - rewrite andb_false_r. exists o, ch. split; [done|]. split; [by apply Hstay|done].
Qed.

Lemma propagateSources_eq V op ch :
  values_ok V -> Forall source_ok (_src op) -> (isLut op = true -> exists es, lut_wf program op es) ->
  exists o ch', foldM (propagateSource program globals V) (seq 0 (length (_src op))) (op, true, ch) = Ok (o, forallb (settled V) (_src op), ch') /\
    propagated V op (length (_src op)) o /\ (ch' = false -> ch = false /\ o = op) /\ (ch = true -> ch' = true).
Proof.
  intros HV Hs Hlut.
  assert (Hgen : forall n, (n <= length (_src op))%nat -> exists o ch', foldM (propagateSource program globals V) (seq 0 n) (op, true, ch) = Ok (o, forallb (settled V) (take n (_src op)), ch') /\
    propagated V op n o /\ (ch' = false -> ch = false /\ o = op) /\ (ch = true -> ch' = true)).
  { induction n as [|n IH]; intros Hn.
    - exists op, ch. split; [done|]. split; [|done]. split; try done; [apply same_kind_refl|]. intros j. by destruct (_src op !! j).
    - destruct IH as (o & ch1 & Hf & Hp & Hc1 & Hc2); [lia|]. destruct (lookup_lt_is_Some_2 (_src op) n) as [x Hx]; [lia|].
      destruct (propagateSource_step V op n o (forallb (settled V) (take n (_src op))) ch1 x HV Hs Hx Hp) as (o' & ch2 & Hstep & Hp' & Hc3 & Hc4).
      exists o', ch2. rewrite seq_S, foldM_app, Hf. cbn [mbind result_bind foldM Nat.add]. rewrite Hstep. cbn [mbind result_bind]. split.
      { rewrite (take_S_r _ _ _ Hx), forallb_app. cbn [forallb]. by rewrite andb_true_r. }
      split; [done|]. split; [|auto]. intros Hc. destruct (Hc3 Hc) as [Hc' ->]. by apply Hc1. }
  destruct (Hgen (length (_src op))) as (o & ch' & Hf & H); [done|]. rewrite firstn_all in Hf. by exists o, ch'.
Qed.

(** ** The value of the destination *)

Lemma isLut_kind op : isLut op = true <-> exists lut, _opcode op = LutOp lut.
Proof. unfold isLut. destruct (_opcode op); split; try done; try (intros (lut & ?); done). intros _. by eexists. Qed.

Lemma propagated_override V op o σ :
  values_ok V -> Forall source_ok (_src op) -> propagated V op (length (_src op)) o -> CanOpcodeBeLoweredToLut (_opcode op) = true ->
  operandLiteral program σ <$> _src o = operandLiteral program (override V σ) <$> _src op.
Proof.
  intros HV Hs H Hop. apply list_eq. intros j. rewrite !list_lookup_fmap, (pg_src _ _ _ _ H). destruct (_src op !! j) as [x|] eqn:Hx; [|done].
  cbn [fmap option_fmap option_map]. f_equal. rewrite (proj2 (Nat.ltb_lt _ _)) by (by eapply lookup_lt_Some). destruct x as [l|r| |]; try done. destruct r as [r]. cbn [newSource _registerIndex].
  pose proof (Forall_lookup_1 _ _ _ _ Hs Hx) as Hr. destruct (known V r) as [l|] eqn:Hk.
  - rewrite allowed_lut by done. symmetry. by apply operandLiteral_override.
  - unfold operandLiteral. cbn [_registerIndex]. unfold override. by rewrite Hk.
Qed.

(** The operation after the loop is well-formed again. *)
Lemma propagated_ok V op o : values_ok V -> op_ok op -> propagated V op (length (_src op)) o -> op_ok o.
Proof.
  intros HV [Hs Hd Hl Hm Hv] H. pose proof (propagated_length _ _ _ _ H) as Hlen. split.
  - apply Forall_lookup_2. intros j x'. rewrite (pg_src _ _ _ _ H). destruct (_src op !! j) as [x|] eqn:Hx; [|done]. cbn [fmap option_fmap option_map]. intros [= <-].
    pose proof (Forall_lookup_1 _ _ _ _ Hs Hx). destruct (_ <? _)%nat; [by apply newSource_ok|done].
  - by rewrite (pg_dst _ _ _ _ H).
  - by rewrite Hlen.
  - by rewrite (pg_mask _ _ _ _ H).
  - rewrite Hlen, (pg_mask _ _ _ _ H). pose proof (pg_opcode _ _ _ _ H) as Hk. unfold same_kind in Hk. destruct (_opcode op) eqn:Hop; try (rewrite Hk; done).
    + rewrite Hk. destruct Hv as [H2 Hpre]. split; [done|]. intros σ d.
      assert (Hsi : forall i, srcInt program σ o i = srcInt program (override V σ) op i).
      { intros i. apply srcInt_resolve; [apply (pg_mask _ _ _ _ H)|]. apply propagated_override; try done. by rewrite Hop. }
      rewrite !Hsi. apply Hpre.
    + destruct Hk as (lut & Hk). rewrite Hk. apply (pg_lut _ _ _ _ H). apply isLut_kind. by eexists.
Qed.

(** The operations that are folded *)
Definition folds (opcode : Opcode) : bool := match opcode with Mov | Clear | UnaryOp _ | BinaryOp _ | Gather _ => true | _ => false end.

(** What is recorded for the destination of an operation *)
Definition written (V : RegisterValueMap) (op : Operation) : option (nat * Literal) :=
  if forallb (settled V) (_src op) && folds (_opcode op) then
    match _dst op with
    | [DstRegister r] =>
        d ← _registerTable program !! _registerIndex r;
        if bool_decide (_type d = Global) then None
        else v ← opValue program (override V (fun _ => 0)) op; Some (_registerIndex r, mkLiteral v (_regWidth d))
    | _ => None
    end
  else None.

Lemma FoldOperation_none op d : folds (_opcode op) = false -> FoldOperation op d = Ok None.
Proof. unfold FoldOperation. by destruct (_opcode op). Qed.

Lemma FoldOperation_known op r d :
  op_ok op -> forallb isLiteral (_src op) = true -> _dst op = [DstRegister r] -> _registerTable program !! _registerIndex r = Some d -> 0 < _regWidth d < 2 ^ 30 ->
  folds (_opcode op) = true -> exists v, FoldOperation op (_regWidth d) = Ok (Some v) /\ 0 <= v < 2 ^ _regWidth d /\ forall σ, opValue program σ op = Some v.
Proof.
  intros [Hs Hd Hl Hm Hv] Hlit Hdst Hr Hw Hf.
  assert (Hdw : dstWidth program op = Ok (_regWidth d)) by (unfold dstWidth; rewrite Hdst; cbn; unfold registerWidth; by rewrite (at_Some _ _ _ Hr)).
  assert (Hwf : op_wf program op).
  { split; try done; [|exists (DstRegister r), (_regWidth d); done]. apply Forall_lookup_2. intros j x Hx. pose proof (Forall_lookup_1 _ _ _ _ Hs Hx) as Hox.
    rewrite forallb_forall in Hlit. specialize (Hlit x (proj1 (list_elem_of_In _ _) (list_elem_of_lookup_2 _ _ _ Hx))). by destruct x. }
  assert (Hfold : foldable program op (_regWidth d)).
  { unfold foldable. destruct (_opcode op); try done. destruct Hv as [? Hpre]. by split. }
  destruct (FoldOperation_eq program (fun _ => 0) op (_regWidth d) Hwf Hdw Hlit Hfold) as (v & HF & Hv0). exists v. split; [done|].
  assert (Hval : forall σ, opValue program σ op = Some v).
  { intros σ. destruct (FoldOperation_eq program σ op (_regWidth d) Hwf Hdw Hlit Hfold) as (v' & HF' & Hv'). rewrite HF in HF'. by injection HF' as ->. }
  split; [|done].
  specialize (Hval (fun _ => 0)). unfold opValue in Hval. rewrite Hdw in Hval. destruct (opInt program (fun _ => 0) op) as [z|]; [|done]. cbn in Hval. injection Hval as <-.
  apply Z.mod_pos_bound, Z.pow_pos_nonneg; lia.
Qed.

(** ** The callback on one operation *)

Definition recorded (V : RegisterValueMap) (op : Operation) : RegisterValueMap := match written V op with Some (r, l) => <[r := l]> V | None => V end.

(** The destinations have no recorded values. *)
Definition fresh (V : RegisterValueMap) (op : Operation) : Prop := forall r, DstRegister r ∈ _dst op -> V !! _registerIndex r = None.

Record visited (V : RegisterValueMap) (op op' : FlowOperation) : Prop := mk_visited {
  vi_ok : op_ok (_operation op');
  vi_dst : _dst (_operation op') = _dst (_operation op);
  vi_value : forall σ, agrees V σ -> constants σ -> opValue program σ (_operation op') = opValue program σ (_operation op);
  vi_lower : CanOpcodeBeLoweredToLut (_opcode (_operation op')) = CanOpcodeBeLoweredToLut (_opcode (_operation op));
  vi_effect : CanOpcodeBeLoweredToLut (_opcode (_operation op)) = false ->
    op' = withOperation op (_operation op') /\ _opcode (_operation op') = _opcode (_operation op) /\ _signExtendSourceMask (_operation op') = _signExtendSourceMask (_operation op) /\
    forall σ, agrees V σ -> constants σ -> resolve program σ <$> _src (_operation op') = resolve program σ <$> _src (_operation op);
  vi_successor : _getSuccessorBlock op = None -> _getSuccessorBlock op' = None;
  vi_written : forall V2 x, values_ok V2 -> written V (_operation op) = Some x -> written V2 (_operation op') = Some x }.

Lemma opValue_all_literals V op o σ :
  values_ok V -> Forall source_ok (_src op) -> propagated V op (length (_src op)) o -> CanOpcodeBeLoweredToLut (_opcode op) = true -> isLut op = false ->
  opValue program σ o = opValue program (override V σ) op.
Proof.
  intros HV Hs H Hl Hlut. apply opValue_resolve.
  - pose proof (pg_opcode _ _ _ _ H) as Hk. unfold same_kind, isLut in *. by destruct (_opcode op).
  - apply (pg_mask _ _ _ _ H).
  - by apply propagated_override.
  - unfold dstWidth. by rewrite (pg_dst _ _ _ _ H).
Qed.

Lemma propagated_all_literals V op o :
  propagated V op (length (_src op)) o -> CanOpcodeBeLoweredToLut (_opcode op) = true -> forallb (settled V) (_src op) = true -> forallb isLiteral (_src o) = true.
Proof.
  intros H Hl Hall. apply forallb_forall. intros x' Hx'. apply list_elem_of_In, list_elem_of_lookup in Hx' as (j & Hj). rewrite (pg_src _ _ _ _ H) in Hj.
  destruct (_src op !! j) as [x|] eqn:Hx; [|done]. cbn [fmap option_fmap option_map] in Hj. injection Hj as <-. rewrite (proj2 (Nat.ltb_lt _ _)) by (by eapply lookup_lt_Some).
  rewrite forallb_forall in Hall. destruct (settled_new V (_opcode op) j x) as (l & ->); [by apply allowed_lut|by apply Hall, list_elem_of_In, (list_elem_of_lookup_2 _ j)|done].
Qed.

Lemma literals_settled V o : forallb isLiteral (_src o) = true -> forallb (settled V) (_src o) = true.
Proof. rewrite !forallb_forall. intros H x Hx. specialize (H x Hx). by destruct x. Qed.

Lemma folds_lower opcode : folds opcode = true -> CanOpcodeBeLoweredToLut opcode = true.
Proof. by destruct opcode. Qed.

Lemma folds_not_lut op : folds (_opcode op) = true -> isLut op = false.
Proof. unfold isLut. by destruct (_opcode op). Qed.

(** An operation all of whose sources are literals records its value whatever is known. *)
Lemma written_literals V o r d v :
  forallb isLiteral (_src o) = true -> folds (_opcode o) = true -> _dst o = [DstRegister r] -> _registerTable program !! _registerIndex r = Some d -> _type d <> Global ->
  (forall σ, opValue program σ o = Some v) -> written V o = Some (_registerIndex r, mkLiteral v (_regWidth d)).
Proof.
  intros Hl Hf Hd Hr Ht Hv. unfold written. rewrite literals_settled, Hf, Hd by done. cbn [andb]. rewrite Hr. cbn [mbind option_bind]. rewrite bool_decide_eq_false_2 by done. by rewrite Hv.
Qed.

Lemma visited_propagated V op o :
  values_ok V -> op_ok (_operation op) -> propagated V (_operation op) (length (_src (_operation op))) o ->
  (forall V2 x, values_ok V2 -> written V (_operation op) = Some x -> written V2 o = Some x) -> visited V op (withOperation op o).
Proof.
  intros HV Hok H Hw. split; cbn [withOperation _operation].
  - by eapply propagated_ok.
  - apply (pg_dst _ _ _ _ H).
  - apply (pg_value _ _ _ _ H).
  - pose proof (pg_opcode _ _ _ _ H) as Hk. unfold same_kind in Hk. destruct (_opcode (_operation op)); try (by rewrite Hk). by destruct Hk as (lut & ->).
  - intros Hlow. split; [done|]. split; [pose proof (pg_opcode _ _ _ _ H) as Hk; unfold same_kind in Hk; by destruct (_opcode (_operation op))|]. split; [apply (pg_mask _ _ _ _ H)|].
    intros σ Hag Hc. apply list_eq. intros j. rewrite !list_lookup_fmap, (pg_src _ _ _ _ H). destruct (_src (_operation op) !! j) as [x|]; [|done]. cbn [fmap option_fmap option_map]. f_equal.
    destruct (_ <? _)%nat; [|done]. apply resolve_literal; [by apply newSource_literal|]. intros Hnone. destruct x as [l|r| |]; try done. cbn [newSource]. destruct (known V (_registerIndex r)) as [l|] eqn:Hk; [|done].
    destruct r as [r]. pose proof (known_holds V r l σ Hag Hc Hk) as Hh. unfold FlowPaths.holds in Hh. congruence.
  - done.
  - done.
Qed.

Lemma IsGlobalReg_eq r d : _registerTable program !! _registerIndex r = Some d -> IsGlobalReg program r = Ok (bool_decide (_type d = Global)).
Proof. intros Hd. unfold IsGlobalReg, registerType. by rewrite (at_Some _ _ _ Hd). Qed.

(** The operation that replaces a folded one *)
Lemma visited_mov V op r d v locs :
  values_ok V -> op_ok (_operation op) -> _dst (_operation op) = [DstRegister r] -> _registerTable program !! _registerIndex r = Some d -> 0 < _regWidth d < 2 ^ 30 -> _type d <> Global ->
  folds (_opcode (_operation op)) = true -> 0 <= v < 2 ^ _regWidth d -> (forall σ, agrees V σ -> constants σ -> opValue program σ (_operation op) = Some v) ->
  (forall x, written V (_operation op) = Some x -> x = (_registerIndex r, mkLiteral v (_regWidth d))) ->
  visited V op (mkFlowOperation (mkOperation Mov 0 locs [SrcLiteral (mkLiteral v (_regWidth d))] [DstRegister r]) None ∅ ∅ false).
Proof.
  intros HV [Hs Hdo Hl Hm Hvo] Hd Hr Hw Ht Hf Hv Hval Hx. set (o := mkOperation Mov 0 locs _ _).
  assert (Hov : forall σ, opValue program σ o = Some v).
  { intros σ. unfold opValue, dstWidth, o. cbn. unfold registerWidth. rewrite (at_Some _ _ _ Hr). cbn. f_equal. unfold srcInt, operandInt, signExtends. cbn. by apply Z.mod_small. }
  split; cbn [_operation].
  - split; cbn; [|by rewrite <- Hd|lia|lia|done]. constructor; [|constructor]. cbn. unfold lit_wf. cbn. lia.
  - by rewrite Hd.
  - intros σ Hag Hc. by rewrite Hov, Hval.
  - by rewrite (folds_lower _ Hf).
  - rewrite (folds_lower _ Hf); done.
  - done.
  - intros V2 x HV2 Hwx. rewrite (Hx x Hwx). by apply (written_literals V2 o r d v).
Qed.

Lemma mapM_unit {A} (f : A -> result unit) l : (forall a, a ∈ l -> f a = Ok tt) -> mapM_ f l = Ok (replicate (length l) tt).
Proof. intros H. rewrite (mapM_Ok f (fun _ => tt)) by done. f_equal. clear H. by induction l as [|a l IH]; [|cbn; f_equal]. Qed.

Lemma isLut_wf op : op_ok op -> isLut op = true -> exists es, lut_wf program op es.
Proof. intros [_ _ _ _ Hv] (lut & Ho)%isLut_kind. by rewrite Ho in Hv. Qed.

Definition isMov (opcode : Opcode) : bool := match opcode with Mov => true | _ => false end.

(** The value that the [switch] computes *)
Lemma destinationValue_eq V op o r d :
  values_ok V -> op_ok op -> propagated V op (length (_src op)) o -> forallb (settled V) (_src op) = true ->
  _dst op = [DstRegister r] -> _registerTable program !! _registerIndex r = Some d -> 0 < _regWidth d < 2 ^ 30 ->
  if folds (_opcode op)
  then exists v, destinationValue o (_regWidth d) = Ok (Some (mkLiteral v (_regWidth d), negb (isMov (_opcode op)))) /\
         0 <= v < 2 ^ _regWidth d /\ (forall σ, opValue program σ o = Some v) /\ opValue program (override V (fun _ => 0)) op = Some v /\ _opcode o = _opcode op /\ forallb isLiteral (_src o) = true
  else destinationValue o (_regWidth d) = Ok None.
Proof.
  intros HV Hok H Hall Hd Hr Hw. pose proof (pg_opcode _ _ _ _ H) as Hk. destruct (folds (_opcode op)) eqn:Hf.
  - pose proof (propagated_all_literals V op o H (folds_lower _ Hf) Hall) as Hlit. assert (Hko : _opcode o = _opcode op) by (unfold same_kind in Hk; by destruct (_opcode op)).
    destruct (FoldOperation_known o r d (propagated_ok V op o HV Hok H) Hlit) as (v & HF & Hv & Hval); [by rewrite (pg_dst _ _ _ _ H)|done|done|by rewrite Hko|].
    exists v. unfold destinationValue. rewrite HF. cbn [mbind result_bind]. split.
    + rewrite Hko. destruct (_opcode op) eqn:Hop; try done. pose proof (oo_value _ Hok) as H1. rewrite Hop in H1. pose proof (propagated_length _ _ _ _ H) as Hlen.
      destruct (_src o) as [|x [|]] eqn:Ho; try (cbn in Hlen; lia). unfold at_. cbn in Hlit |- *. by rewrite andb_true_r in Hlit; rewrite Hlit.
    + split; [done|]. split; [done|]. split; [|done]. rewrite <- (Hval (fun _ => 0)). symmetry. apply opValue_all_literals; [done|apply Hok|done|by apply folds_lower|by apply folds_not_lut].
  - unfold destinationValue. rewrite FoldOperation_none; [done|]. unfold same_kind in Hk. destruct (_opcode op); try (by rewrite Hk). by destruct Hk as (lut & ->).
Qed.

Lemma propagateOperation_eq V op ch :
  values_ok V -> op_ok (_operation op) -> fresh V (_operation op) ->
  exists op' ch', propagateOperation program globals V op ch = Ok (recorded V (_operation op), op', ch') /\ visited V op op' /\
    (ch' = false -> ch = false /\ op' = op) /\ (ch = true -> ch' = true).
Proof.
  intros HV Hok Hfresh. unfold propagateOperation. rewrite mapM_unit.
  2: { intros [r|f] Hr; [|done]. by rewrite bool_decide_eq_true_2 by (by apply Hfresh). }
  cbn [mbind result_bind]. destruct (propagateSources_eq V (_operation op) ch HV (oo_src _ Hok) (isLut_wf _ Hok)) as (o & ch1 & -> & Hp & Hc1 & Hc2). cbn [mbind result_bind].
  (* nothing is recorded *)
  assert (Hnone : written V (_operation op) = None -> exists op' ch', Ok (V, withOperation op o, ch1) = Ok (recorded V (_operation op), op', ch') /\ visited V op op' /\
    (ch' = false -> ch = false /\ op' = op) /\ (ch = true -> ch' = true)).
  { intros Hn. exists (withOperation op o), ch1. unfold recorded. rewrite Hn. split; [done|]. split; [apply visited_propagated; try done; intros; congruence|]. split; [|done].
    intros Hc. destruct (Hc1 Hc) as [? ->]. split; [done|]. by destruct op. }
  rewrite (pg_dst _ _ _ _ Hp). destruct (forallb (settled V) (_src (_operation op))) eqn:Hall; [|apply Hnone; unfold written; by rewrite Hall].
  destruct (_dst (_operation op)) as [|[r|f] [|]] eqn:Hd; try (apply Hnone; unfold written; rewrite Hd; by destruct (_ && _)).
  pose proof (oo_dst _ Hok) as Hdo. rewrite Hd in Hdo. apply Forall_cons in Hdo as [(d & Hr & Hw & _) _]. rewrite (IsGlobalReg_eq r d Hr). cbn [mbind result_bind].
  destruct (bool_decide (_type d = Global)) eqn:Ht.
  { apply Hnone. unfold written. rewrite Hd. destruct (_ && _); [|done]. rewrite Hr. cbn [mbind option_bind]. by rewrite Ht. }
  pose proof (bool_decide_eq_false_1 _ Ht) as Hnt. unfold registerWidth. rewrite (at_Some _ _ _ Hr). cbn [mbind result_bind].
  pose proof (destinationValue_eq V (_operation op) o r d HV Hok Hp Hall Hd Hr Hw) as Hdv. destruct (folds (_opcode (_operation op))) eqn:Hf.
  2: { rewrite Hdv. cbn [mbind result_bind]. apply Hnone. unfold written. by rewrite Hall, Hf. }
  destruct Hdv as (v & -> & Hv & Hval & Hval0 & Hko & Hlit). cbn [mbind result_bind].
  assert (Hwr : written V (_operation op) = Some (_registerIndex r, mkLiteral v (_regWidth d))).
  { unfold written. rewrite Hall, Hf, Hd. cbn [andb]. rewrite Hr. cbn [mbind option_bind]. by rewrite Ht, Hval0. }
  assert (Hrec : recorded V (_operation op) = <[_registerIndex r := mkLiteral v (_regWidth d)]> V) by (unfold recorded; by rewrite Hwr). rewrite Hrec.
  assert (Hnew : forall V2 x, values_ok V2 -> written V (_operation op) = Some x -> written V2 o = Some x).
  { intros V2 x HV2 Hx. rewrite Hwr in Hx. injection Hx as <-. apply (written_literals V2 o r d v); try done; [by rewrite Hko|by rewrite (pg_dst _ _ _ _ Hp)]. }
  destruct (isMov (_opcode (_operation op))); cbn [negb].
  - exists (withOperation op o), ch1. split; [done|]. split; [by apply visited_propagated|]. split; [|done]. intros Hc. destruct (Hc1 Hc) as [? ->]. split; [done|]. by destruct op.
  - cbn [_width]. rewrite Z.eqb_refl. cbn [assert_ mbind result_bind]. eexists _, true. split; [reflexivity|]. split; [|done].
    apply (visited_mov V op r d v _ HV Hok Hd Hr Hw Hnt Hf Hv); [|intros x Hx; rewrite Hwr in Hx; by injection Hx as <-].
    intros σ Hag Hc. rewrite <- (pg_value _ _ _ _ Hp σ Hag Hc). apply Hval.
Qed.

(** ** What is recorded *)

Lemma written_spec V op x :
  values_ok V -> Forall source_ok (_src op) -> written V op = Some x ->
  exists r d, _dst op = [DstRegister r] /\ x.1 = _registerIndex r /\ _registerTable program !! _registerIndex r = Some d /\ _type d <> Global /\ _width x.2 = _regWidth d /\
    forallb (settled V) (_src op) = true /\ folds (_opcode op) = true /\
    forall σ, (forall q l, SrcRegister (mkAccessedRegister q) ∈ _src op -> known V q = Some l -> holds σ q l) -> opValue program σ op = Some (_value x.2).
Proof.
  intros HV Hs. unfold written. destruct (forallb (settled V) (_src op)) eqn:Hall; [|done]. destruct (folds (_opcode op)) eqn:Hf; [|done]. cbn [andb].
  destruct (_dst op) as [|[r|f] [|]] eqn:Hd; try done. destruct (_registerTable program !! _registerIndex r) as [d|] eqn:Hr; [|done]. cbn [mbind option_bind].
  destruct (bool_decide (_type d = Global)) eqn:Ht; [done|]. apply bool_decide_eq_false_1 in Ht. destruct (opValue program (override V (fun _ => 0)) op) as [v|] eqn:Hv; [|done]. cbn [mbind option_bind].
  intros [= <-]. exists r, d. repeat (split; [done|]). intros σ Hk. cbn [snd _value]. rewrite <- Hv. apply opValue_resolve; try done.
  apply list_eq. intros j. rewrite !list_lookup_fmap. destruct (_src op !! j) as [y|] eqn:Hy; [|done]. cbn. f_equal. rewrite forallb_forall in Hall.
  specialize (Hall y (proj1 (list_elem_of_In _ _) (list_elem_of_lookup_2 _ _ _ Hy))). pose proof (Forall_lookup_1 _ _ _ _ Hs Hy) as Hoy. destruct y as [l|q| |]; try done. destruct q as [q]. cbn [settled _registerIndex] in Hall.
  destruct (known V q) as [l|] eqn:Hkq; [|done]. transitivity (Some l); [apply Hk; [by eapply list_elem_of_lookup_2|done]|]. symmetry. by apply operandLiteral_override.
Qed.

Lemma written_value V op x σ :
  values_ok V -> Forall source_ok (_src op) -> agrees V σ -> constants σ -> written V op = Some x -> opValue program σ op = Some (_value x.2).
Proof.
  intros HV Hs Hag Hc Hw. destruct (written_spec V op x HV Hs Hw) as (r & d & _ & _ & _ & _ & _ & _ & _ & H). apply H. intros q l _ Hk. by apply (known_holds V).
Qed.

Lemma opValue_bound σ op r d v :
  _dst op = [DstRegister r] -> _registerTable program !! _registerIndex r = Some d -> 0 <= _regWidth d -> opValue program σ op = Some v -> 0 <= v < 2 ^ _regWidth d.
Proof.
  intros Hd Hr Hw. unfold opValue, dstWidth. rewrite Hd. cbn. unfold registerWidth. rewrite (at_Some _ _ _ Hr). cbn. destruct (opInt program σ op); [|done]. cbn. intros [= <-]. apply Z.mod_pos_bound, Z.pow_pos_nonneg; lia.
Qed.

Lemma recorded_ok V op : values_ok V -> op_ok op -> values_ok (recorded V op).
Proof.
  intros HV Hok. unfold recorded. destruct (written V op) as [[r l]|] eqn:Hw; [|done]. intros r' l' Hl'. apply lookup_insert_Some in Hl' as [[<- <-]|[_ Hl']]; [|by apply HV].
  destruct (written_spec V op _ HV (oo_src _ Hok) Hw) as (r0 & d & Hd & Hr0 & Hr & Ht & Hlw & _ & _ & Hval). cbn [fst snd] in *. subst r.
  pose proof (oo_dst _ Hok) as Hdo. rewrite Hd in Hdo. apply Forall_cons in Hdo as [(d' & Hr' & Hb & _) _]. rewrite Hr in Hr'. injection Hr' as <-.
  exists d. split; [done|]. split; [done|]. split; [done|]. split; [done|]. unfold written in Hw. destruct (_ && _); [|done]. rewrite Hd, Hr in Hw. cbn [mbind option_bind] in Hw. destruct (bool_decide _); [done|].
  destruct (opValue program (override V (fun _ => 0)) op) as [v|] eqn:Hv; [|done]. cbn [mbind option_bind] in Hw. injection Hw as <-. eapply opValue_bound; [exact Hd|exact Hr|lia|exact Hv].
Qed.

Lemma written_mono V1 V2 op x : V1 ⊆ V2 -> values_ok V1 -> values_ok V2 -> Forall source_ok (_src op) -> written V1 op = Some x -> written V2 op = Some x.
Proof.
  intros Hsub HV1 HV2 Hs Hw. destruct (written_spec V1 op x HV1 Hs Hw) as (r & d & Hd & Hx1 & Hr & Ht & Hxw & Hall & Hf & Hval).
  assert (Hall2 : forallb (settled V2) (_src op) = true).
  { rewrite !forallb_forall in *. intros y Hy. specialize (Hall y Hy). destruct y as [l|q| |]; try done. cbn [settled] in *. destruct (known V1 (_registerIndex q)) as [l|] eqn:Hk; [|done]. by rewrite (known_mono V1 V2 _ l Hsub HV2 Hk). }
  unfold written. rewrite Hall2, Hf, Hd. cbn [andb]. rewrite Hr. cbn [mbind option_bind]. rewrite bool_decide_eq_false_2 by done.
  rewrite (Hval (override V2 (fun _ => 0))).
  2: { intros q l Hq Hk. apply operandLiteral_override; [done|by apply (proj1 (Forall_forall _ _) Hs)|by apply (known_mono V1)]. }
  cbn [mbind option_bind]. destruct x as [x1 [xv xw]]. cbn in *. by rewrite Hx1, Hxw.
Qed.

Lemma written_dst V op r l : written V op = Some (r, l) -> DstRegister (mkAccessedRegister r) ∈ _dst op.
Proof.
  unfold written. destruct (_ && _); [|done]. destruct (_dst op) as [|[q|f] [|]]; try done. destruct (_registerTable program !! _registerIndex q) as [d|]; [|done]. cbn [mbind option_bind].
  destruct (bool_decide _); [done|]. destruct (opValue program (override V (fun _ => 0)) op); [|done]. cbn. intros [= <- _]. destruct q. by left.
Qed.

(** More is recorded from more values. *)
Lemma recorded_subseteq V1 V2 op1 op2 :
  V1 ⊆ V2 -> fresh V2 op2 -> _dst op2 = _dst op1 -> (forall x, written V1 op1 = Some x -> written V2 op2 = Some x) -> recorded V1 op1 ⊆ recorded V2 op2.
Proof.
  intros Hsub Hf Hd Hw. unfold recorded at 1. destruct (written V1 op1) as [[r l]|] eqn:H1.
  - unfold recorded. rewrite (Hw _ eq_refl). by apply insert_mono.
  - unfold recorded. destruct (written V2 op2) as [[r l]|] eqn:H2; [|done]. transitivity V2; [done|]. apply insert_subseteq. apply (Hf (mkAccessedRegister r)). by eapply written_dst.
Qed.

Lemma recorded_dom V op r l : recorded V op !! r = Some l -> V !! r = Some l \/ DstRegister (mkAccessedRegister r) ∈ _dst op.
Proof.
  unfold recorded. destruct (written V op) as [[q k]|] eqn:Hw; [|by left]. intros H. apply lookup_insert_Some in H as [[<- _]|[_ H]]; [right; by eapply written_dst|by left].
Qed.

(** ** Execution *)

Lemma write_other dst vs σ r : (forall q, DstRegister q ∈ dst -> _registerIndex q <> r) -> write dst vs σ r = σ r.
Proof.
  unfold write. revert vs σ; induction dst as [|d dst IH]; intros [|v vs] σ H; try done. cbn [zip zip_with fold_left]. rewrite IH by (intros q Hq; apply H; by right).
  unfold writeOne. cbn [fst snd]. destruct d as [q|f]; [|done]. rewrite fn_lookup_insert_ne; [done|]. apply H. by left.
Qed.

Lemma holds_value σ r d l : _registerTable program !! r = Some d -> _width l = _regWidth d -> 0 <= _value l < 2 ^ _regWidth d -> σ r = _value l -> holds σ r l.
Proof.
  intros Hr Hw Hv Hσ. unfold FlowPaths.holds, operandLiteral. cbn [_registerIndex]. rewrite Hr. cbn [mbind option_bind]. rewrite Hσ, Z.mod_small, <- Hw by done. by destruct l.
Qed.

Lemma holds_ext σ σ' r l : σ' r = σ r -> holds σ r l -> holds σ' r l.
Proof. intros H. unfold FlowPaths.holds, operandLiteral. cbn [_registerIndex]. by rewrite H. Qed.

(** After the operation the registers hold what is recorded. *)
Lemma recorded_agrees V op σ vs :
  values_ok V -> op_ok op -> fresh V op -> agrees V σ -> constants σ -> results_of program σ op vs -> agrees (recorded V op) (write (_dst op) vs σ).
Proof.
  intros HV Hok Hf Hag Hc [Hlen Hres] r l Hl. destruct (V !! r) as [l'|] eqn:HVr.
  - assert (Hnd : forall q, DstRegister q ∈ _dst op -> _registerIndex q <> r) by (intros q Hq <-; rewrite (Hf q Hq) in HVr; done).
    eapply holds_ext; [by apply write_other|]. unfold recorded in Hl. destruct (written V op) as [[q k]|] eqn:Hw; [|by apply Hag].
    rewrite lookup_insert_ne in Hl; [by apply Hag|]. apply (Hnd (mkAccessedRegister q)). by eapply written_dst.
  - pose proof (recorded_ok V op HV Hok r l Hl) as (d & Hr & _ & _ & Hw & Hv). unfold recorded in Hl. destruct (written V op) as [[q k]|] eqn:Hwr; [|congruence].
    apply lookup_insert_Some in Hl as [[-> ->]|[_ Hl]]; [|congruence]. destruct (written_spec V op _ HV (oo_src _ Hok) Hwr) as (x & d' & Hd & Hx & _). cbn [fst] in Hx. subst r.
    pose proof (written_value V op _ σ HV (oo_src _ Hok) Hag Hc Hwr) as Hval. cbn [snd] in Hval. rewrite (Hres _ Hval), Hd. apply (holds_value _ _ d); try done. cbn. by rewrite fn_lookup_insert.
Qed.

(** Constant globals keep their values. *)
Lemma write_constants op σ vs : Forall dst_ok (_dst op) -> constants σ -> constants (write (_dst op) vs σ).
Proof.
  intros Hd Hc r l Hr. eapply holds_ext; [|by apply Hc]. apply write_other. intros q Hq <-. rewrite Forall_forall in Hd. destruct (Hd _ Hq) as (d & _ & _ & Hn). by destruct (Hn l).
Qed.

Lemma reaches_constants members entry ops tr b k σ :
  (forall b op, b ∈ members -> op ∈ ops b -> Forall dst_ok (_dst (_operation op))) -> reaches program globals members entry ops tr b k σ -> constants σ.
Proof.
  intros Hd H. induction H as [b σ _ _ Hc|tr b k σ σ' _ _ _ Hc|tr b k σ op vs H IH Hk _|tr b k σ op s σ' _ _ _ _ _ _ Hc]; try done.
  apply write_constants; [|done]. apply (Hd b); [by eapply reaches_member|by eapply list_elem_of_lookup_2].
Qed.

Lemma agrees_interfere V σ σ' : values_ok V -> interfere program σ σ' -> agrees V σ -> agrees V σ'.
Proof.
  intros HV Hi Hag r l Hl. eapply holds_ext; [|by apply Hag]. apply Hi. destruct (HV r l Hl) as (d & Hr & Ht & _). unfold isGlobal. rewrite Hr. by apply bool_decide_eq_false_2.
Qed.

End Operation.

End ConstPropOps.

(** * Constant propagation: what passes between basic blocks

    The comparisons of register maps, the values that an enqueue operation passes
    on, and the values on which all predecessors agree. *)

Import MachineInt Containers Literals Ir Semantics Flow FlowSemantics ConstProp FlowPaths ConstPropOps.

Module ConstPropEdges.

Lemma forallb_entries (m m' : gmap nat Literal) : forallb (fun p => bool_decide (m' !! p.1 = Some p.2)) (map_entries m) = true <-> m ⊆ m'.
Proof.
  rewrite forallb_forall, map_subseteq_spec. split.
  - intros H i x Hx. specialize (H (i, x)). rewrite <- list_elem_of_In, elem_of_map_entries in H. specialize (H Hx). by apply bool_decide_eq_true_1 in H.
  - intros H [i x] Hx. rewrite <- list_elem_of_In, elem_of_map_entries in Hx. apply bool_decide_eq_true_2. by apply H.
Qed.

Lemma Equal_spec src1 src2 : Equal src1 src2 = true <-> src1 = src2.
Proof.
  unfold Equal. rewrite andb_true_iff, Nat.eqb_eq, forallb_entries. split; [|by intros ->]. intros [Hs Hsub].
  apply (map_subseteq_size_eq _ _ Hsub). lia.
Qed.

Lemma IsSuperSet_spec larger smaller : IsSuperSet larger smaller = true <-> smaller ⊆ larger.
Proof. apply forallb_entries. Qed.

(** ** The values of a successor *)

(** The tables of an enqueue operation: an original register and the one that
    stands for it have the same width and are not global, and the reverse table
    leads back. *)
Record tables_ok (program : Program) (op : FlowOperation) : Prop := mk_tables_ok {
  tb_renamed : forall o n, _renamingTable op !! o = Some n -> exists d d', _registerTable program !! o = Some d /\ _registerTable program !! n = Some d' /\
    _regWidth d = _regWidth d' /\ _type d <> Global;
  tb_reverse : forall o n, _reverseRenamingTable op !! n = Some o -> _renamingTable op !! o = Some n }.

Section Edges.
Context (program : Program) (globals : gmap nat GlobalDesc).

Lemma reverse_injective op r1 r2 :
  tables_ok program op -> _renamingTable op !! r1 = None -> _renamingTable op !! r2 = None ->
  OptionallyMapIndex r1 (_reverseRenamingTable op) = OptionallyMapIndex r2 (_reverseRenamingTable op) -> r1 = r2.
Proof.
  intros [_ Hr] H1 H2. unfold OptionallyMapIndex, LookupWithDefault.
  destruct (_reverseRenamingTable op !! r1) as [o1|] eqn:E1, (_reverseRenamingTable op !! r2) as [o2|] eqn:E2; intros Heq; subst; try done.
  - apply Hr in E1, E2. congruence.
  - apply Hr in E1. congruence.
  - apply Hr in E2. congruence.
Qed.

Lemma valuesForSuccessor_eq op V :
  isEnqueue (_opcode (_operation op)) = true -> tables_ok program op ->
  exists M, valuesForSuccessor op V = Ok M /\
    forall i l, M !! i = Some l <-> exists r, V !! r = Some l /\ _renamingTable op !! r = None /\ i = OptionallyMapIndex r (_reverseRenamingTable op).
Proof.
  intros He Ht. unfold valuesForSuccessor.
  match goal with |- context [foldM ?f _ _] => destruct (foldM_prefix_inv f
    (fun pre (M : gmap nat Literal) => pre ⊆ map_entries V -> forall i l, M !! i = Some l <-> exists r, (r, l) ∈ pre /\ _renamingTable op !! r = None /\ i = OptionallyMapIndex r (_reverseRenamingTable op))
    (map_entries V) ∅) as (M & HM & Hinv) end.
  - intros _ i l. rewrite lookup_empty. split; [done|]. intros (r & Hr & _). set_solver.
  - intros pre [r v] M Hrv HI. cbn [fst snd].
    assert (Hin : (r, v) ∈ map_entries V) by exact Hrv. apply elem_of_map_entries in Hin.
    destruct (_renamingTable op !! r) as [n|] eqn:Hr.
    + exists M. split; [done|]. intros Hsub i l. rewrite HI by set_solver. setoid_rewrite elem_of_app. setoid_rewrite list_elem_of_singleton. split; [naive_solver|]. intros (r' & [?|[= -> ->]] & ? & ?); [naive_solver|congruence].
    + unfold MapRenamedToOriginalRegisterIndex. rewrite He. cbn [assert_ mbind result_bind]. eexists; split; [reflexivity|]. intros Hsub i l. specialize (HI ltac:(set_solver)).
      setoid_rewrite elem_of_app. setoid_rewrite list_elem_of_singleton. destruct (decide (i = OptionallyMapIndex r (_reverseRenamingTable op))) as [->|Hne].
      * rewrite lookup_insert_eq. split; [intros [= <-]; exists r; naive_solver|]. intros (r' & Hr' & Hn & Heq). apply reverse_injective in Heq as <-; [|done..]. destruct Hr' as [Hr'|[= ->]]; [|done].
        assert (Hin' : (r, l) ∈ map_entries V) by set_solver. apply elem_of_map_entries in Hin'. congruence.
      * rewrite lookup_insert_ne by done. rewrite HI. split; [naive_solver|]. intros (r' & [?|[= -> ->]] & ? & ?); [naive_solver|done].
  - exists M. split; [done|]. intros i l. rewrite Hinv by done. by setoid_rewrite elem_of_map_entries.
Qed.

(** What an enqueue operation passes on of known values *)
Definition edgeValues (op : FlowOperation) (V : RegisterValueMap) : RegisterValueMap := match valuesForSuccessor op V with Ok M => M | Err _ => ∅ end.

Section Passing.
Context (op : FlowOperation) (He : isEnqueue (_opcode (_operation op)) = true) (Ht : tables_ok program op).

Lemma edgeValues_eq V : valuesForSuccessor op V = Ok (edgeValues op V).
Proof. unfold edgeValues. by destruct (valuesForSuccessor_eq op V He Ht) as (M & -> & _). Qed.

Lemma edgeValues_lookup V i l :
  edgeValues op V !! i = Some l <-> exists r, V !! r = Some l /\ _renamingTable op !! r = None /\ i = OptionallyMapIndex r (_reverseRenamingTable op).
Proof. unfold edgeValues. destruct (valuesForSuccessor_eq op V He Ht) as (M & -> & HM). apply HM. Qed.

Lemma edgeValues_mono V1 V2 : V1 ⊆ V2 -> edgeValues op V1 ⊆ edgeValues op V2.
Proof.
  rewrite !map_subseteq_spec. intros Hsub i l. rewrite !edgeValues_lookup. intros (r & Hr & ? & ?). exists r. split; [by apply Hsub|done].
Qed.

(** A register of the successor and the register that it comes from *)
Lemma edge_register V i l : edgeValues op V !! i = Some l -> exists r, V !! r = Some l /\ r = OptionallyMapIndex i (_renamingTable op) /\
  (i = r \/ exists d d', _registerTable program !! i = Some d /\ _registerTable program !! r = Some d' /\ _regWidth d = _regWidth d' /\ _type d <> Global).
Proof.
  rewrite edgeValues_lookup. intros (r & Hr & Hn & ->). exists r. split; [done|]. unfold OptionallyMapIndex, LookupWithDefault. destruct (_reverseRenamingTable op !! r) as [o|] eqn:Hrev.
  - pose proof (tb_reverse _ _ Ht _ _ Hrev) as Ho. rewrite Ho. split; [done|]. right. by eapply tb_renamed.
  - rewrite Hn. by split; [|left].
Qed.

Lemma edgeValues_ok V : values_ok program V -> values_ok program (edgeValues op V).
Proof.
  intros HV i l Hi. destruct (edge_register V i l Hi) as (r & Hr & _ & [->|(d & d' & Hd & Hd' & Hw & Hg)]); [by apply HV|]. destruct (HV r l Hr) as (x & Hx & _ & Hb & Hlw & Hv). rewrite Hd' in Hx. injection Hx as <-.
  exists d. rewrite Hw. done.
Qed.

(** The successor starts with registers that hold the values. *)
Lemma edgeValues_agrees V σ σ' : values_ok program V -> agrees program V σ -> passes program op σ σ' -> agrees program (edgeValues op V) σ'.
Proof.
  intros HV Hag Hp i l Hi. destruct (edgeValues_ok V HV i l Hi) as (d & Hd & Hg & Hb & Hlw & Hv). destruct (edge_register V i l Hi) as (r & Hr & Hir & Hcase). pose proof (Hag r l Hr) as Hh.
  assert (Hσ : σ' i = σ r) by (rewrite Hir; apply Hp; unfold isGlobal; rewrite Hd; by apply bool_decide_eq_false_2).
  unfold FlowPaths.holds, operandLiteral in *. cbn [_registerIndex] in *. rewrite Hd. cbn [mbind option_bind]. rewrite Hσ. destruct Hcase as [->|(x & x' & Hx & Hx' & Hw & _)]; [by rewrite Hd in Hh|].
  rewrite Hd in Hx. injection Hx as <-. rewrite Hx' in Hh. cbn [mbind option_bind] in Hh. by rewrite Hw.
Qed.
End Passing.
End Edges.

(** ** Agreement of the predecessors *)

Section Agreement.
Context (pm : gmap (nat * nat) (gmap nat Literal)).

(** All predecessors have [x] for register [r]. *)
Definition agreed (r : nat) (x : Literal) : Prop := forall k M, pm !! k = Some M -> M !! r = Some x.

Lemma agreed_spec p : forallb (fun q => bool_decide (q.2 !! p.1 = Some p.2)) (map_to_list pm) = true <-> agreed p.1 p.2.
Proof.
  rewrite forallb_forall. split.
  - intros H k M Hk. apply elem_of_map_to_list in Hk. specialize (H (k, M) (proj1 (list_elem_of_In _ _) Hk)). by apply bool_decide_eq_true_1 in H.
  - intros H [k M] Hk. apply list_elem_of_In, elem_of_map_to_list in Hk. apply bool_decide_eq_true_2. by eapply H.
Qed.

Lemma agree_fold k0 M0 r l es acc :
  pm !! k0 = Some M0 ->
  fold_left (fun (registerValues : gmap nat Literal) p => if forallb (fun q => bool_decide (q.2 !! p.1 = Some p.2)) (map_to_list pm) then <[p.1 := p.2]> registerValues else registerValues) es acc !! r = Some l <->
  ((r, l) ∈ es /\ agreed r l) \/ (acc !! r = Some l /\ forall x, (r, x) ∈ es -> ~ agreed r x).
Proof.
  intros H0. assert (Huniq : forall x y, agreed r x -> agreed r y -> x = y) by (intros x y Hx Hy; pose proof (Hx _ _ H0); pose proof (Hy _ _ H0); congruence).
  revert acc; induction es as [|[i x] es IH]; intros acc; cbn [fold_left fst snd]; [set_solver|]. rewrite IH. setoid_rewrite elem_of_cons. destruct (forallb _ _) eqn:Hf.
  - apply (agreed_spec (i, x)) in Hf. cbn [fst snd] in Hf. destruct (decide (i = r)) as [->|Hne].
    + rewrite lookup_insert_eq. split; [intros [[? ?]|[[= <-] _]]; left; (split; [|done]); [by right|by left]|]. intros [[Hin Hl]|[_ Hn]]; [|exfalso; by apply (Hn x); [left|]].
      pose proof (Huniq _ _ Hf Hl). subst x. destruct (decide ((r, l) ∈ es)) as [|Hni]; [by left|]. right. split; [done|]. intros y Hy Hay. pose proof (Huniq _ _ Hl Hay). by subst y.
    + rewrite lookup_insert_ne by done. split.
      * intros [[? ?]|[? Hn]]; [left; split; [by right|done]|right]. split; [done|]. intros y [[= -> ->]|Hy]; [done|by apply Hn].
      * intros [[[[= -> ->]|?] ?]|[? Hn]]; [done|by left|right]. split; [done|]. intros y Hy. apply Hn. by right.
  - assert (Hnf : ~ agreed i x) by (intros H; pose proof (proj2 (agreed_spec (i, x)) H) as H'; cbn [fst snd] in H'; by rewrite Hf in H'). split.
    + intros [[? ?]|[? Hn]]; [left; split; [by right|done]|right]. split; [done|]. intros y [[= -> ->]|Hy]; [done|by apply Hn].
    + intros [[[[= -> ->]|?] ?]|[? Hn]]; [done|by left|right]. split; [done|]. intros y Hy. apply Hn. by right.
Qed.

Lemma intersectPredecessors_lookup r l : intersectPredecessors pm !! r = Some l <-> pm <> ∅ /\ agreed r l.
Proof.
  unfold intersectPredecessors. destruct (map_to_list pm) as [|[k0 M0] rest] eqn:Hpm.
  - apply map_to_list_empty_iff in Hpm. rewrite lookup_empty. naive_solver.
  - assert (Hne : pm <> ∅) by (intros H; by rewrite H, map_to_list_empty in Hpm).
    assert (H0 : pm !! k0 = Some M0) by (apply elem_of_map_to_list; rewrite Hpm; by left). rewrite <- Hpm, (agree_fold k0 M0) by done. rewrite lookup_empty, elem_of_map_entries.
    split; [intros [[? ?]|[? _]]; done|]. intros [_ H]. left. split; [by apply (H k0)|done].
Qed.
End Agreement.

End ConstPropEdges.

(** * Constant propagation: one basic block

    A block is processed with the values on which its predecessors agree.
    [valuesAt] is what is known before each operation. *)

Import MachineInt Containers Literals Ir Run Semantics Flow FlowSemantics ConstProp FlowPaths ConstPropOps ConstPropEdges.

Module ConstPropBlock.

Section Block.
Context (program : Program) (globals : gmap nat GlobalDesc).
Notation op_ok := (op_ok program globals).
Notation values_ok := (values_ok program).
Notation recorded := (recorded program globals).
Notation visited := (visited program globals).
Notation V := (gmap nat Literal).

(** What is known before operation [k] *)
Definition valuesAt (S : V) (ops : list FlowOperation) (k : nat) : V := fold_left (fun W op => recorded W (_operation op)) (take k ops) S.

Lemma valuesAt_0 S ops : valuesAt S ops 0 = S.
Proof. done. Qed.

Lemma valuesAt_S S ops k op : ops !! k = Some op -> valuesAt S ops (Datatypes.S k) = recorded (valuesAt S ops k) (_operation op).
Proof. intros Hk. unfold valuesAt. by rewrite (take_S_r _ _ _ Hk), fold_left_app. Qed.

(** The registers that operations write, but for global ones *)
Definition writtenBy (op : FlowOperation) : list nat :=
  omap (fun d => match d with DstRegister r => if isGlobal program (_registerIndex r) then None else Some (_registerIndex r) | DstFifo _ => None end) (_dst (_operation op)).

Definition blockWrites (ops : list FlowOperation) : list nat := concat (writtenBy <$> ops).

Lemma elem_of_writtenBy op r : r ∈ writtenBy op <-> DstRegister (mkAccessedRegister r) ∈ _dst (_operation op) /\ isGlobal program r = false.
Proof.
  unfold writtenBy. rewrite list_elem_of_omap. split.
  - intros ([q|f] & Hq & H); [|done]. destruct (isGlobal program (_registerIndex q)) eqn:Hg; [done|]. injection H as <-. by destruct q.
  - intros [Hr Hg]. exists (DstRegister (mkAccessedRegister r)). cbn. by rewrite Hg.
Qed.

Lemma elem_of_blockWrites ops r : r ∈ blockWrites ops <-> exists op, op ∈ ops /\ r ∈ writtenBy op.
Proof.
  unfold blockWrites. rewrite list_elem_of_In, in_concat. split.
  - intros (x & Hx & Hr). apply list_elem_of_In, list_elem_of_fmap in Hx as (op & -> & Hop). exists op. split; [done|]. by apply list_elem_of_In.
  - intros (op & Hop & Hr). exists (writtenBy op). split; [|by apply list_elem_of_In]. apply list_elem_of_In, list_elem_of_fmap. by exists op.
Qed.

(** Nothing is known of the registers that the block writes. *)
Definition fresh_for (S : V) (ops : list FlowOperation) : Prop := forall r, r ∈ blockWrites ops -> S !! r = None.

Lemma values_ok_local W r l : values_ok W -> W !! r = Some l -> isGlobal program r = false.
Proof. intros HW Hr. destruct (HW r l Hr) as (d & Hd & Ht & _). unfold isGlobal. rewrite Hd. by apply bool_decide_eq_false_2. Qed.

Section Values.
Context (S : V) (ops : list FlowOperation) (HS : values_ok S) (Hok : Forall (fun op => op_ok (_operation op)) ops).

Lemma valuesAt_ok k : values_ok (valuesAt S ops k).
Proof.
  induction k as [|k IH]; [done|]. destruct (ops !! k) as [op|] eqn:Hk.
  - rewrite (valuesAt_S _ _ _ _ Hk). apply recorded_ok; [done|]. apply (Forall_lookup_1 _ _ _ _ Hok Hk).
  - unfold valuesAt in *. apply lookup_ge_None in Hk. rewrite !take_ge in * by lia. done.
Qed.

Lemma valuesAt_dom k r l : valuesAt S ops k !! r = Some l -> S !! r = Some l \/ r ∈ blockWrites (take k ops).
Proof.
  revert l; induction k as [|k IH]; intros l H; [by left|]. destruct (ops !! k) as [op|] eqn:Hk.
  - pose proof (values_ok_local _ _ _ (valuesAt_ok (Datatypes.S k)) H) as Hg. rewrite (valuesAt_S _ _ _ _ Hk) in H. rewrite (take_S_r _ _ _ Hk). apply recorded_dom in H as [H|H].
    + destruct (IH l H) as [|Hin]; [by left|right]. apply elem_of_blockWrites in Hin as (op' & ? & ?). apply elem_of_blockWrites. exists op'. split; [apply elem_of_app; by left|done].
    + right. apply elem_of_blockWrites. exists op. split; [apply elem_of_app; right; by left|]. by apply elem_of_writtenBy.
  - apply lookup_ge_None in Hk. unfold valuesAt in *. rewrite !take_ge in * by lia. by apply IH.
Qed.

(** With single assignments a destination is not known yet. *)
Lemma valuesAt_fresh k op : fresh_for S ops -> NoDup (blockWrites ops) -> ops !! k = Some op -> fresh (valuesAt S ops k) (_operation op).
Proof.
  intros Hf Hnd Hk r Hr. destruct (valuesAt S ops k !! _registerIndex r) as [l|] eqn:Hl; [exfalso|done]. pose proof (values_ok_local _ _ _ (valuesAt_ok k) Hl) as Hg.
  assert (Hw : _registerIndex r ∈ writtenBy op) by (apply elem_of_writtenBy; split; [by destruct r|done]).
  destruct (valuesAt_dom k _ _ Hl) as [HSr|Hin].
  - rewrite Hf in HSr; [done|]. apply elem_of_blockWrites. exists op. split; [by eapply list_elem_of_lookup_2|done].
  - rewrite <- (take_drop_middle _ _ _ Hk) in Hnd. unfold blockWrites in *. rewrite fmap_app, concat_app, fmap_cons in Hnd. cbn [concat] in Hnd.
    apply NoDup_app in Hnd as (_ & Hdis & _). apply (Hdis _ Hin). apply elem_of_app. by left.
Qed.
End Values.

(** The operations after a pass record at least as much. *)
Lemma valuesAt_visited S M ops ops' :
  S ⊆ M -> values_ok S -> values_ok M -> Forall (fun op => op_ok (_operation op)) ops -> Forall (fun op => op_ok (_operation op)) ops' ->
  length ops' = length ops -> (forall j op op', ops !! j = Some op -> ops' !! j = Some op' -> visited (valuesAt S ops j) op op') ->
  fresh_for M ops' -> NoDup (blockWrites ops') -> forall k, valuesAt S ops k ⊆ valuesAt M ops' k.
Proof.
  intros Hsub HS HM Hok Hok' Hlen Hvis Hf Hnd. induction k as [|k IH]; [done|]. destruct (ops !! k) as [op|] eqn:Hk.
  - destruct (lookup_lt_is_Some_2 ops' k) as [op' Hk']; [rewrite Hlen; by eapply lookup_lt_Some|]. rewrite (valuesAt_S _ _ _ _ Hk), (valuesAt_S _ _ _ _ Hk'). pose proof (Hvis k op op' Hk Hk') as Hv.
    apply recorded_subseteq; [done|by apply valuesAt_fresh|apply (vi_dst _ _ _ _ _ Hv)|]. intros x Hx. apply (vi_written _ _ _ _ _ Hv); [by apply valuesAt_ok|done].
  - unfold valuesAt in *. pose proof Hk as Hk'. apply lookup_ge_None in Hk. rewrite !(take_ge) in * by lia. done.
Qed.

(** More is known from more values, with the same operations. *)
Lemma valuesAt_mono S M ops :
  S ⊆ M -> values_ok S -> values_ok M -> Forall (fun op => op_ok (_operation op)) ops -> fresh_for M ops -> NoDup (blockWrites ops) -> forall k, valuesAt S ops k ⊆ valuesAt M ops k.
Proof.
  intros Hsub HS HM Hok Hf Hnd. induction k as [|k IH]; [done|]. destruct (ops !! k) as [op|] eqn:Hk.
  - rewrite !(valuesAt_S _ _ _ _ Hk). apply recorded_subseteq; [done|by apply valuesAt_fresh|done|]. intros x Hx. apply (written_mono program globals (valuesAt S ops k)); [done|by apply valuesAt_ok|by apply valuesAt_ok| |done].
    apply (Forall_lookup_1 _ _ _ _ Hok Hk).
  - unfold valuesAt in *. apply lookup_ge_None in Hk. rewrite !take_ge in * by lia. done.
Qed.

(** ** The pass over a block *)

(** The values at the edge [key] to block [s] *)
Definition edgeAt (maps : gmap nat (gmap (nat * nat) V)) (s : nat) (key : nat * nat) : option V := m ← maps !! s; m !! key.

Lemma edgeAt_insert maps s m key M s' key' :
  maps !! s = Some m -> edgeAt (<[s := <[key := M]> m]> maps) s' key' = if decide (s' = s /\ key' = key) then Some M else edgeAt maps s' key'.
Proof.
  intros Hm. unfold edgeAt. destruct (decide (s' = s)) as [->|Hne].
  - rewrite lookup_insert_eq, Hm. cbn [mbind option_bind]. destruct (decide (key' = key)) as [->|]; [rewrite lookup_insert_eq, decide_True by done; done|]. rewrite lookup_insert_ne, decide_False by naive_solver. done.
  - rewrite lookup_insert_ne by done. rewrite decide_False by naive_solver. done.
Qed.

(** How many values all the edges know *)
Definition knownValues (edges : list (nat * (nat * nat))) (maps : gmap nat (gmap (nat * nat) V)) : nat :=
  sum_list_with (fun e => size (default ∅ (edgeAt maps e.1 e.2))) edges.

Section Pass.
Context (blocks : gmap nat FlowBlock) (fi : nat) (members : list nat) (b : nat) (ops : list FlowOperation) (S : V) (edges : list (nat * (nat * nat))).
Context (maps : gmap nat (gmap (nat * nat) V)) (W : gset nat) (ch : bool).
Context (HS : values_ok S) (Hok : Forall (fun op => op_ok (_operation op)) ops) (Hfresh : fresh_for S ops) (Hnd : NoDup (blockWrites ops)).

(** Operation [k] passes values on to a block of the function. *)
Definition edge_to (k s : nat) (op : FlowOperation) : Prop := ops !! k = Some op /\ _getSuccessorBlock op = Some s /\ s ∈ members.

Context (Hsucc : forall op s, op ∈ ops -> _getSuccessorBlock op = Some s -> isEnqueue (_opcode (_operation op)) = true /\ tables_ok program op /\
  exists sb, blocks !! s = Some sb /\ (s ∈ members <-> _function sb = fi)).
Context (Hmaps : forall k s op, edge_to k s op -> exists E, edgeAt maps s (b, k) = Some E /\ E ⊆ edgeValues op (valuesAt S ops k)).
Context (Hedges : forall k s op, edge_to k s op -> (s, (b, k)) ∈ edges).

(** The state before operation [k] *)
Record pass_ok (k : nat) (st : state) : Prop := mk_pass_ok {
  pa_values : _registerValues st = valuesAt S ops k;
  pa_position : _position st = k;
  pa_new : forall j s op, (j < k)%nat -> edge_to j s op -> edgeAt (_inputValueMap st) s (b, j) = Some (edgeValues op (valuesAt S ops j));
  pa_old : forall s key, (forall j op, key = (b, j) -> edge_to j s op -> (k <= j)%nat) -> edgeAt (_inputValueMap st) s key = edgeAt maps s key;
  pa_members : forall s, s ∈ _workList st -> s ∈ W \/ s ∈ members;
  pa_measure : (size (_workList st) + knownValues edges maps <= size W + knownValues edges (_inputValueMap st))%nat }.

Lemma knownValues_grow maps1 s key m M E :
  maps1 !! s = Some m -> edgeAt maps1 s key = Some E -> (s, key) ∈ edges -> (size E < size M)%nat ->
  (knownValues edges maps1 < knownValues edges (<[s := <[key := M]> m]> maps1))%nat.
Proof.
  intros Hm HE Hin Hsz. unfold knownValues.
  assert (Hle : forall l, (sum_list_with (fun e => size (default ∅ (edgeAt maps1 e.1 e.2))) l <= sum_list_with (fun e => size (default ∅ (edgeAt (<[s := <[key := M]> m]> maps1) e.1 e.2))) l)%nat /\
    ((s, key) ∈ l -> (sum_list_with (fun e => size (default ∅ (edgeAt maps1 e.1 e.2))) l < sum_list_with (fun e => size (default ∅ (edgeAt (<[s := <[key := M]> m]> maps1) e.1 e.2))) l)%nat)).
  { induction l as [|[s' key'] l [IH1 IH2]]; [split; [done|set_solver]|]. cbn [sum_list_with fst snd]. rewrite (edgeAt_insert _ _ _ _ _ _ _ Hm). rewrite elem_of_cons.
    destruct (decide (s' = s /\ key' = key)) as [[-> ->]|Hne]; [rewrite HE; cbn [from_option id]; split; intros; lia|]. split; [lia|]. intros [[= <- <-]|Hl]; [by destruct Hne|]. specialize (IH2 Hl). lia. }
  by apply Hle.
Qed.

Lemma propagateToSuccessor_step k st op :
  ops !! k = Some op -> pass_ok k st ->
  exists maps' W', propagateToSuccessor fi blocks b st op = Ok (maps', W') /\
    (forall s, edge_to k s op -> edgeAt maps' s (b, k) = Some (edgeValues op (valuesAt S ops k))) /\
    (forall s key, (edge_to k s op -> key <> (b, k)) -> edgeAt maps' s key = edgeAt (_inputValueMap st) s key) /\
    (forall s, s ∈ W' -> s ∈ _workList st \/ s ∈ members) /\
    (size W' + knownValues edges (_inputValueMap st) <= size (_workList st) + knownValues edges maps')%nat.
Proof.
  intros Hk H. unfold propagateToSuccessor. destruct (_getSuccessorBlock op) as [s|] eqn:Hs.
  2: { eexists _, _. split; [reflexivity|]. split; [intros s (_ & Hs' & _); congruence|]. split; [done|]. split; [by left|done]. }
  destruct (Hsucc op s (list_elem_of_lookup_2 _ _ _ Hk) Hs) as (He & Ht & sb & Hsb & Hin). unfold blockAt. rewrite Hsb. cbn [of_option mbind result_bind].
  destruct (Nat.eqb_spec (_function sb) fi) as [Hf|Hf].
  2: { eexists _, _. split; [reflexivity|]. split; [intros s' (_ & Hs' & Hm); exfalso; rewrite Hs in Hs'; injection Hs' as <-; by apply Hf, Hin|]. split; [done|]. split; [by left|done]. }
  assert (Hedge : edge_to k s op) by (split; [done|split; [done|by apply Hin]]). destruct (Hmaps k s op Hedge) as (E & HE & HEsub).
  rewrite (edgeValues_eq program op He Ht), (pa_values _ _ H), (pa_position _ _ H). cbn [mbind result_bind].
  assert (HE' : edgeAt (_inputValueMap st) s (b, k) = Some E).
  { rewrite (pa_old _ _ H); [done|]. intros j op' [= <-] _. done. }
  unfold edgeAt in HE' at 1. destruct (_inputValueMap st !! s) as [m|] eqn:Hm; [|done]. cbn [mbind option_bind of_option result_bind] in *. rewrite HE'. cbn [of_option mbind result_bind].
  assert (Honly : forall s', edge_to k s' op -> s' = s) by (intros s' (_ & Hs' & _); congruence).
  destruct (Equal (edgeValues op (valuesAt S ops k)) E) eqn:Heq.
  - apply Equal_spec in Heq. eexists _, _. split; [reflexivity|]. split; [intros s' Hs'; rewrite (Honly s' Hs'); unfold edgeAt; rewrite Hm; cbn [mbind option_bind]; by rewrite Heq|]. split; [done|]. split; [by left|done].
  - rewrite (proj2 (IsSuperSet_spec _ _) HEsub). cbn [assert_ mbind result_bind]. unfold AddBasicBlock, blockAt. rewrite Hsb. cbn [of_option mbind result_bind]. rewrite (proj2 (Nat.eqb_eq _ _) Hf). cbn [assert_ mbind result_bind].
    eexists _, _. split; [reflexivity|]. split; [|split; [|split]].
    + intros s' Hs'. rewrite (Honly s' Hs'), (edgeAt_insert _ _ _ _ _ _ _ Hm), decide_True by done. done.
    + intros s' key Hkey. rewrite (edgeAt_insert _ _ _ _ _ _ _ Hm). destruct (decide (s' = s /\ key = (b, k))) as [[-> ->]|]; [|done]. by destruct (Hkey Hedge).
    + intros s' Hs'. apply elem_of_union in Hs' as [->%elem_of_singleton|Hs']; [right; by apply Hin|by left].
    + assert (Hgrow : (size E < size (edgeValues op (valuesAt S ops k)))%nat).
      { destruct (decide (size E < size (edgeValues op (valuesAt S ops k)))%nat) as [|Hn]; [done|]. exfalso. assert (Hsame : E = edgeValues op (valuesAt S ops k)) by (apply (map_subseteq_size_eq _ _ HEsub); lia).
        rewrite <- Hsame in Heq. by rewrite (proj2 (Equal_spec E E) eq_refl) in Heq. }
      assert (Hedge' : edgeAt (_inputValueMap st) s (b, k) = Some E) by (unfold edgeAt; rewrite Hm; done).
      pose proof (knownValues_grow _ s (b, k) m _ E Hm Hedge' (Hedges k s op Hedge) Hgrow) as Hlt.
      assert (Hsz' : (size ({[s]} ∪ _workList st) <= 1 + size (_workList st))%nat) by (rewrite size_union_alt, size_singleton; pose proof (subseteq_size (_workList st ∖ {[s]}) (_workList st) ltac:(set_solver)); lia). lia.
Qed.

Lemma operationCallback_step k st op :
  ops !! k = Some op -> pass_ok k st ->
  exists st' op', operationCallback program globals fi blocks b st op = Ok (st', op') /\ pass_ok (Datatypes.S k) st' /\ visited (valuesAt S ops k) op op' /\
    (_didChangeIR st' = false -> _didChangeIR st = false /\ op' = op).
Proof.
  intros Hk H. destruct (propagateToSuccessor_step k st op Hk H) as (maps' & W' & Hp & Hnew & Hold & Hmem & Hmeas). unfold operationCallback. rewrite Hp. cbn [mbind result_bind]. rewrite (pa_values _ _ H).
  destruct (propagateOperation_eq program globals (valuesAt S ops k) op (_didChangeIR st)) as (op' & ch' & -> & Hv & Hch & _);
    [by apply valuesAt_ok|by apply (Forall_lookup_1 _ _ _ _ Hok Hk)|by apply valuesAt_fresh|]. cbn [mbind result_bind].
  eexists _, op'. split; [reflexivity|]. split; [|done]. destruct H as [Hval Hpos Hn Ho Hm Hme]. split; cbn [_registerValues _inputValueMap _workList _position].
  - symmetry. by apply valuesAt_S.
  - by rewrite Hpos.
  - intros j s op0 Hj Hedge. destruct (decide (j = k)) as [->|Hne].
    + assert (op0 = op) as -> by (destruct Hedge; congruence). by apply Hnew.
    + rewrite Hold; [apply Hn; [lia|done]|]. intros _ [= ->]. done.
  - intros s key Hkey. rewrite Hold; [apply Ho|].
    + intros j op0 Hj Hedge. specialize (Hkey j op0 Hj Hedge). lia.
    + intros Hedge ->. specialize (Hkey k op eq_refl Hedge). lia.
  - intros s Hs. destruct (Hmem s Hs); [by apply Hm|by right].
  - lia.
Qed.

Lemma pass_list rest : forall k st, drop k ops = rest -> pass_ok k st ->
  exists st' rest', visitList (operationCallback program globals fi blocks b) rest st = Ok (st', rest') /\ pass_ok (k + length rest) st' /\ length rest' = length rest /\
    (forall j op op', rest !! j = Some op -> rest' !! j = Some op' -> visited (valuesAt S ops (k + j)) op op') /\
    (_didChangeIR st' = false -> _didChangeIR st = false /\ rest' = rest).
Proof.
  induction rest as [|op rest IH]; intros k st Hdrop H.
  - exists st, []. cbn [length]. rewrite Nat.add_0_r. repeat (split; [done|]). done.
  - assert (Hk : ops !! k = Some op) by (rewrite <- (Nat.add_0_r k), <- lookup_drop, Hdrop; done).
    destruct (operationCallback_step k st op Hk H) as (st1 & op' & Hcb & H1 & Hv & Hc1).
    destruct (IH (Datatypes.S k) st1) as (st2 & rest' & Hvis & H2 & Hlen & Hvs & Hc2); [|done|].
    { replace (Datatypes.S k) with (k + 1)%nat by lia. by rewrite <- drop_drop, Hdrop. }
    exists st2, (op' :: rest'). rewrite visitList_cons, Hcb. cbn [mbind result_bind]. rewrite Hvis. cbn [mbind result_bind length]. split; [done|].
    split; [by replace (k + Datatypes.S (length rest))%nat with (Datatypes.S k + length rest)%nat by lia|]. split; [by f_equal|]. split.
    + intros [|j] o o'; cbn [lookup list_lookup]; [intros [= <-] [= <-]; by rewrite Nat.add_0_r|]. intros Ho Ho'. replace (k + Datatypes.S j)%nat with (Datatypes.S k + j)%nat by lia. by apply Hvs.
    + intros Hc. destruct (Hc2 Hc) as [Hc' ->]. destruct (Hc1 Hc') as [? ->]. done.
Qed.

Lemma pass_eq :
  exists st ops', visitList (operationCallback program globals fi blocks b) ops (mkState S maps W ch 0) = Ok (st, ops') /\ pass_ok (length ops) st /\ length ops' = length ops /\
    (forall j op op', ops !! j = Some op -> ops' !! j = Some op' -> visited (valuesAt S ops j) op op') /\ (_didChangeIR st = false -> ch = false /\ ops' = ops).
Proof.
  apply (pass_list ops 0%nat (mkState S maps W ch 0)); [done|]. split; cbn; try done; [lia|by left].
Qed.

End Pass.
End Block.

End ConstPropBlock.
