(* ===== verification/ConstPropInvariant.v ===== *)
(** * Constant propagation: the invariant of the work list

    The operations have the values that they had in all executions, the values
    at the edges hold in all executions that pass them, and only grow.  Processing
    a block keeps this. *)

From S2P Require Import Prelude MachineInt Literals Ir Run Semantics Flow ConstProp FlowPaths ConstPropOps.
Import MachineInt Containers Literals Ir Run Semantics Flow FlowSemantics.
Import ConstProp FlowPaths ConstPropOps ConstPropEdges ConstPropBlock.

Module ConstPropInvariant.

Section Function_.
Context (program : Program) (globals : gmap nat GlobalDesc) (functions : list FlowFunction) (fi : nat) (mode : OperationEnumerationMode).
Context (members : list nat) (start : nat) (blocks0 : gmap nat FlowBlock).
Notation op_ok := (op_ok program globals).
Notation values_ok := (values_ok program).
Notation agrees := (agrees program).
Notation constants := (constants program globals).
Notation visited := (visited program globals).
Notation valuesAt := (valuesAt program globals).
Notation blockWrites := (blockWrites program).
Notation fresh_for := (fresh_for program).
Notation V := (gmap nat Literal).

Definition opsOf (blocks : gmap nat FlowBlock) (b : nat) : list FlowOperation := match blocks !! b with Some bb => operationsOf mode bb | None => [] end.
Notation ops0 := (opsOf blocks0).

Definition flow_ok (op : FlowOperation) : Prop :=
  op_ok (_operation op) /\ forall s, _getSuccessorBlock op = Some s -> isEnqueue (_opcode (_operation op)) = true /\ tables_ok program op /\
    exists sb, blocks0 !! s = Some sb /\ (s ∈ members <-> _function sb = fi).

Definition edge (c s : nat) : Prop := c ∈ members /\ s ∈ members /\ exists op, op ∈ ops0 c /\ _getSuccessorBlock op = Some s.

(** A path from the start leads to the block. *)
Inductive connected : nat -> Prop :=
| connected_start : connected start
| connected_edge c s : connected c -> edge c s -> connected s.

(** The function before the pass: its blocks hang together, and renaming has
    left one assignment of every register that is not global. *)
Record function_ok : Prop := mk_function_ok {
  fn_function : exists f, functions !! fi = Some f /\ _basicBlocks f = members /\ _start f = Some start;
  fn_start : start ∈ members;
  fn_block : forall b, b ∈ members -> exists bb, blocks0 !! b = Some bb /\ _function bb = fi;
  fn_ops : forall b, b ∈ members -> Forall flow_ok (ops0 b);
  fn_connected : forall b, b ∈ members -> connected b;
  fn_once : forall b, b ∈ members -> NoDup (blockWrites (ops0 b));
  fn_one_block : forall b c r, b ∈ members -> c ∈ members -> r ∈ blockWrites (ops0 b) -> r ∈ blockWrites (ops0 c) -> b = c;
  fn_originals : forall b c op o n, b ∈ members -> c ∈ members -> op ∈ ops0 b -> _renamingTable op !! o = Some n -> _getSuccessorBlock op <> None -> o ∉ blockWrites (ops0 c) }.

Context (Hfn : function_ok).

(** ** Executions *)

Definition entry (b : nat) : Prop := b = start \/ forall c, ~ edge c b.

Notation reachable := (reachable program globals members entry ops0).

Lemma reachable_constants b k σ : reachable b k σ -> constants σ.
Proof.
  intros (tr & H). eapply reaches_constants; [|exact H]. intros c op Hc Hop. pose proof (fn_ops Hfn c Hc) as Hf. rewrite Forall_forall in Hf. apply (Hf op Hop).
Qed.

(** An operation that has taken the place of operation [k] of block [b] *)
Record tracks (b k : nat) (op0 op : FlowOperation) : Prop := mk_tracks {
  tk_ok : op_ok (_operation op);
  tk_dst : _dst (_operation op) = _dst (_operation op0);
  tk_lower : CanOpcodeBeLoweredToLut (_opcode (_operation op)) = CanOpcodeBeLoweredToLut (_opcode (_operation op0));
  tk_value : forall σ, reachable b k σ -> opValue program σ (_operation op) = opValue program σ (_operation op0);
  tk_successor : _getSuccessorBlock op = _getSuccessorBlock op0;
  tk_effect : CanOpcodeBeLoweredToLut (_opcode (_operation op0)) = false ->
    op = withOperation op0 (_operation op) /\ _opcode (_operation op) = _opcode (_operation op0) /\ _signExtendSourceMask (_operation op) = _signExtendSourceMask (_operation op0) /\
    forall σ, reachable b k σ -> resolve program σ <$> _src (_operation op) = resolve program σ <$> _src (_operation op0) }.

Lemma tracks_refl b k op : flow_ok op -> tracks b k op op.
Proof. intros [Hok _]. split; try done. intros _. split; [by destruct op|done]. Qed.

Lemma tracks_visited b k W op0 op op' :
  flow_ok op0 -> tracks b k op0 op -> visited W op op' -> (forall σ, reachable b k σ -> agrees W σ) -> tracks b k op0 op'.
Proof.
  intros [_ Hs] H Hv Hag. split.
  - apply (vi_ok _ _ _ _ _ Hv).
  - by rewrite (vi_dst _ _ _ _ _ Hv), (tk_dst _ _ _ _ H).
  - by rewrite (vi_lower _ _ _ _ _ Hv), (tk_lower _ _ _ _ H).
  - intros σ Hσ. rewrite (vi_value _ _ _ _ _ Hv) by (by apply Hag || by eapply reachable_constants). by apply (tk_value _ _ _ _ H).
  - destruct (_getSuccessorBlock op0) as [s|] eqn:H0.
    + destruct (Hs s eq_refl) as (He & _). assert (Hl : CanOpcodeBeLoweredToLut (_opcode (_operation op0)) = false) by (by destruct (_opcode (_operation op0))).
      destruct (vi_effect _ _ _ _ _ Hv) as (-> & _); [by rewrite (tk_lower _ _ _ _ H)|]. cbn. by rewrite (tk_successor _ _ _ _ H).
    + apply (vi_successor _ _ _ _ _ Hv). by rewrite (tk_successor _ _ _ _ H).
  - intros Hl. destruct (tk_effect _ _ _ _ H Hl) as (H1 & H2 & H3 & H4). destruct (vi_effect _ _ _ _ _ Hv) as (V1 & V2 & V3 & V4); [by rewrite (tk_lower _ _ _ _ H)|].
    split; [rewrite V1, H1; by destruct op0|]. split; [by rewrite V2|]. split; [by rewrite V3|]. intros σ Hσ. rewrite V4 by (by apply Hag || by eapply reachable_constants). by apply H4.
Qed.

(** The tables of an enqueue operation stay. *)
Lemma tracks_enqueue b k op0 op s : flow_ok op0 -> tracks b k op0 op -> _getSuccessorBlock op0 = Some s ->
  _renamingTable op = _renamingTable op0 /\ _reverseRenamingTable op = _reverseRenamingTable op0 /\ isEnqueue (_opcode (_operation op)) = true.
Proof.
  intros [_ Hs] H H0. destruct (Hs s H0) as (He & _). destruct (tk_effect _ _ _ _ H) as (-> & Ho & _); [by destruct (_opcode (_operation op0))|]. cbn in *. by rewrite Ho.
Qed.

Lemma tracks_results b k op0 op σ vs : tracks b k op0 op -> reachable b k σ -> results_of program σ (_operation op) vs <-> results_of program σ (_operation op0) vs.
Proof. intros H Hσ. unfold results_of. by rewrite (tk_dst _ _ _ _ H), (tk_value _ _ _ _ H σ Hσ). Qed.

(** ** Paths that avoid a block *)

Inductive avoiding (w : nat) : nat -> Prop :=
| avoiding_start : start <> w -> avoiding w start
| avoiding_edge c s : avoiding w c -> edge c s -> s <> w -> avoiding w s.

Lemma avoiding_ne w c : avoiding w c -> c <> w.
Proof. by destruct 1. Qed.

(** A block that is not the start has a predecessor that is reached before it. *)
Lemma first_visit b : b ∈ members -> b <> start -> exists c, avoiding b c /\ edge c b.
Proof.
  intros Hb Hne. assert (H : forall x, connected x -> avoiding b x \/ exists c, avoiding b c /\ edge c b).
  { induction 1 as [|c s Hc IH He]; [left; by constructor|]. destruct IH as [IH|]; [|by right]. destruct (decide (s = b)) as [->|]; [right; by exists c|left; by eapply avoiding_edge]. }
  destruct (H b (fn_connected Hfn b Hb)) as [Ha|]; [|done]. by apply avoiding_ne in Ha.
Qed.

(** ** The state of the loop *)

(** What is known at the start of a block *)
Definition startValues (maps : gmap nat (gmap (nat * nat) V)) (b : nat) : V :=
  let predecessorMap := default ∅ (maps !! b) in
  if negb (bool_decide (predecessorMap = ∅)) && negb (bool_decide (Some start = Some b)) then intersectPredecessors predecessorMap else ∅.

(** [op] is operation [k] of block [c] before the pass and passes values on to [s]. *)
Definition edge_op (c k s : nat) (op : FlowOperation) : Prop := c ∈ members /\ edge_to members (ops0 c) k s op.

Lemma edge_op_edge c k s op : edge_op c k s op -> edge c s.
Proof. intros (Hc & Hk & Hs & Hm). split; [done|]. split; [done|]. exists op. split; [by eapply list_elem_of_lookup_2|done]. Qed.

Record inv (blocks : gmap nat FlowBlock) (maps : gmap nat (gmap (nat * nat) V)) (W : gset nat) (ch : bool) : Prop := mk_inv {
  in_blocks : forall b, _function <$> blocks !! b = _function <$> blocks0 !! b;
  in_others : forall b, b ∉ members -> blocks !! b = blocks0 !! b;
  in_length : forall b, b ∈ members -> length (opsOf blocks b) = length (ops0 b);
  in_tracks : forall b k op0 op, b ∈ members -> ops0 b !! k = Some op0 -> opsOf blocks b !! k = Some op -> tracks b k op0 op;
  in_edges : forall c k s op, edge_op c k s op -> exists E, edgeAt maps s (c, k) = Some E;
  in_edge : forall c k s E, edgeAt maps s (c, k) = Some E -> values_ok E /\ exists op, edge_op c k s op /\
    forall σ σ', reachable c k σ -> passes program op σ σ' -> agrees E σ';
  in_grow : forall b k s op E M, edge_op b k s op -> edgeAt maps s (b, k) = Some E -> startValues maps b ⊆ M -> values_ok M -> fresh_for M (ops0 b) ->
    forall op', opsOf blocks b !! k = Some op' -> E ⊆ edgeValues op' (valuesAt M (opsOf blocks b) k);
  in_fresh : forall w r c k s E, w ∈ members -> r ∈ blockWrites (ops0 w) -> edgeAt maps s (c, k) = Some E -> avoiding w c -> E !! r = None;
  in_work : forall b, b ∈ W -> b ∈ members;
  in_same : ch = false -> forall b, b ∈ members -> opsOf blocks b = ops0 b }.

Section Invariant.
Context (blocks : gmap nat FlowBlock) (maps : gmap nat (gmap (nat * nat) V)) (W : gset nat) (ch : bool) (HI : inv blocks maps W ch).

Lemma predecessor_lookup b k E : default ∅ (maps !! b) !! k = Some E <-> edgeAt maps b k = Some E.
Proof. unfold edgeAt. destruct (maps !! b) as [m|]; cbn; [done|]. by rewrite lookup_empty. Qed.

Lemma startValues_lookup b r l : startValues maps b !! r = Some l -> b <> start /\ (exists k E, edgeAt maps b k = Some E) /\ forall k E, edgeAt maps b k = Some E -> E !! r = Some l.
Proof.
  unfold startValues. destruct (bool_decide (default ∅ (maps !! b) = ∅)) eqn:He; cbn [negb andb]; [by rewrite lookup_empty|]. apply bool_decide_eq_false_1 in He.
  destruct (bool_decide (Some start = Some b)) eqn:Hs; cbn [negb andb]; [by rewrite lookup_empty|]. apply bool_decide_eq_false_1 in Hs. rewrite intersectPredecessors_lookup. intros [_ Ha].
  split; [congruence|]. split.
  - destruct (map_choose _ He) as (k & E & Hk). exists k, E. by apply predecessor_lookup.
  - intros k E Hk. apply (Ha k). by apply predecessor_lookup.
Qed.

Lemma startValues_ok b : values_ok (startValues maps b).
Proof. intros r l Hr. destruct (startValues_lookup b r l Hr) as (_ & ([c k] & E & HE) & Hall). apply (proj1 (in_edge _ _ _ _ HI c k b E HE)). by eapply Hall. Qed.

(** What is known at the start of a block is not written there. *)
Lemma startValues_fresh b : b ∈ members -> fresh_for (startValues maps b) (ops0 b).
Proof.
  intros Hb r Hr. destruct (startValues maps b !! r) as [l|] eqn:Hl; [exfalso|done]. destruct (startValues_lookup b r l Hl) as (Hne & _ & Hall).
  destruct (first_visit b Hb Hne) as (c & Hav & (Hc & _ & op & Hop & Hs)). apply list_elem_of_lookup in Hop as [k Hk].
  destruct (in_edges _ _ _ _ HI c k b op) as (E & HE); [by split|]. pose proof (Hall _ _ HE). by rewrite (in_fresh _ _ _ _ HI b r c k b E Hb Hr HE Hav) in *.
Qed.

(** The start values hold in every execution. *)
Lemma startValues_agree b σ : reachable b 0 σ -> agrees (startValues maps b) σ.
Proof.
  intros (tr & H). remember 0%nat as k0 eqn:Hk0. induction H as [b σ Hb He Hc|tr b k σ σ' H IH Hi Hc|tr b k σ op vs H IH Hk Hres|tr b k σ op s σ' H IH Hk Hs Hm Hp Hc]; try done.
  - intros r l Hr. destruct (startValues_lookup b r l Hr) as (Hne & ([c k] & E & HE) & _). destruct He as [->|He]; [done|]. destruct (in_edge _ _ _ _ HI c k b E HE) as (_ & op & Hop & _). destruct (He c). by eapply edge_op_edge.
  - subst k. eapply agrees_interfere; [by apply startValues_ok|done|by apply IH].
  - intros r l Hr. destruct (startValues_lookup s r l Hr) as (_ & _ & Hall). pose proof (reaches_member _ _ _ _ _ _ _ _ _ H) as Hb.
    destruct (in_edges _ _ _ _ HI b k s op) as (E & HE); [by split|]. destruct (in_edge _ _ _ _ HI b k s E HE) as (_ & op' & (_ & Hk' & _) & Hag). assert (op' = op) as -> by congruence.
    apply (Hag σ σ'); [by exists tr|done|by apply (Hall (b, k))].
Qed.

Lemma current_ops b : b ∈ members -> Forall (fun op => op_ok (_operation op)) (opsOf blocks b).
Proof.
  intros Hb. apply Forall_lookup_2. intros k op Hk. destruct (lookup_lt_is_Some_2 (ops0 b) k) as [op0 H0]; [rewrite <- (in_length _ _ _ _ HI b Hb); by eapply lookup_lt_Some|].
  apply (tk_ok _ _ _ _ (in_tracks _ _ _ _ HI b k op0 op Hb H0 Hk)).
Qed.

Lemma current_original b k op : b ∈ members -> opsOf blocks b !! k = Some op -> exists op0, ops0 b !! k = Some op0 /\ flow_ok op0 /\ tracks b k op0 op.
Proof.
  intros Hb Hk. destruct (lookup_lt_is_Some_2 (ops0 b) k) as [op0 H0]; [rewrite <- (in_length _ _ _ _ HI b Hb); by eapply lookup_lt_Some|]. exists op0. split; [done|].
  split; [apply (Forall_lookup_1 _ _ _ _ (fn_ops Hfn b Hb) H0)|by apply (in_tracks _ _ _ _ HI)].
Qed.

(** The operations have the destinations that they had. *)
Lemma current_writes b : b ∈ members -> blockWrites (opsOf blocks b) = blockWrites (ops0 b).
Proof.
  intros Hb. unfold ConstPropBlock.blockWrites. f_equal. apply list_eq. intros k. rewrite !list_lookup_fmap. destruct (opsOf blocks b !! k) as [op|] eqn:Hk.
  - destruct (current_original b k op Hb Hk) as (op0 & H0 & _ & Ht). rewrite H0. cbn. unfold writtenBy. by rewrite (tk_dst _ _ _ _ Ht).
  - rewrite lookup_ge_None_2; [done|]. rewrite <- (in_length _ _ _ _ HI b Hb). by apply lookup_ge_None.
Qed.

(** The values before an operation hold in every execution. *)
Lemma valuesAt_agree b k σ : reachable b k σ -> agrees (valuesAt (startValues maps b) (opsOf blocks b) k) σ.
Proof.
  intros (tr & H). induction H as [b σ Hb He Hc|tr b k σ σ' H IH Hi Hc|tr b k σ op vs H IH Hk Hres|tr b k σ op s σ' H IH Hk Hs Hm Hp Hc].
  - apply startValues_agree. exists []. by apply reaches_entry.
  - eapply agrees_interfere; [|done|done]. apply valuesAt_ok; [apply startValues_ok|]. apply current_ops. by eapply reaches_member.
  - pose proof (reaches_member _ _ _ _ _ _ _ _ _ H) as Hb. destruct (lookup_lt_is_Some_2 (opsOf blocks b) k) as [op' Hk']; [rewrite (in_length _ _ _ _ HI b Hb); by eapply lookup_lt_Some|].
    pose proof (in_tracks _ _ _ _ HI b k op op' Hb Hk Hk') as Ht. rewrite (valuesAt_S _ _ _ _ _ _ Hk'), <- (tk_dst _ _ _ _ Ht).
    apply recorded_agrees; try done.
    + apply valuesAt_ok; [apply startValues_ok|by apply current_ops].
    + apply (tk_ok _ _ _ _ Ht).
    + apply valuesAt_fresh; [apply startValues_ok|by apply current_ops| | |done]; [|rewrite current_writes by done; by apply (fn_once Hfn)].
      intros r Hr. rewrite current_writes in Hr by done. by apply (startValues_fresh b Hb).
    + eapply reachable_constants. by exists tr.
    + apply (tracks_results b k op op'); [done|by exists tr|done].
  - apply startValues_agree. exists tr. by eapply reaches_jump.
Qed.
End Invariant.

(** ** One block of the work list *)

Lemma startValues_intro maps b r l :
  b <> start -> (exists k E, edgeAt maps b k = Some E) -> (forall k E, edgeAt maps b k = Some E -> E !! r = Some l) -> startValues maps b !! r = Some l.
Proof.
  intros Hne (k & E & Hk) Hall. unfold startValues. apply predecessor_lookup in Hk. rewrite bool_decide_eq_false_2 by (intros He; rewrite He, lookup_empty in Hk; done).
  rewrite bool_decide_eq_false_2 by congruence. cbn [negb andb]. apply intersectPredecessors_lookup. split; [intros He; by rewrite He, lookup_empty in Hk|].
  intros k' E' Hk'. apply (Hall k'). by apply predecessor_lookup.
Qed.

(** More values at the edges mean more at the start of the blocks. *)
Lemma startValues_mono maps maps' b :
  (forall s key E', edgeAt maps' s key = Some E' -> exists E, edgeAt maps s key = Some E /\ E ⊆ E') ->
  (forall s key E, edgeAt maps s key = Some E -> exists E', edgeAt maps' s key = Some E') -> startValues maps b ⊆ startValues maps' b.
Proof.
  intros H1 H2. apply map_subseteq_spec. intros r l Hr. destruct (startValues_lookup maps b r l Hr) as (Hne & (k & E & Hk) & Hall). apply startValues_intro; [done| |].
  - exists k. by eapply H2.
  - intros k' E' Hk'. destruct (H1 b k' E' Hk') as (E0 & HE0 & Hsub). eapply lookup_weaken; [by eapply Hall|done].
Qed.

Definition edgeList : list (nat * (nat * nat)) :=
  concat ((fun b => omap (fun p => (fun s => (s, (b, p.1))) <$> _getSuccessorBlock p.2) (enumerate (ops0 b))) <$> members).

Lemma elem_of_enumerate ops k op : (k, op) ∈ enumerate ops <-> ops !! k = Some op.
Proof.
  unfold enumerate. rewrite list_elem_of_lookup. split.
  - intros (j & Hj). apply lookup_zip_with_Some in Hj as (a & x & [= -> ->] & Ha & Hx). apply lookup_seq in Ha as [-> _]. done.
  - intros Hk. exists k. apply lookup_zip_with_Some. exists k, op. split; [done|]. split; [|done]. apply lookup_seq. split; [done|by eapply lookup_lt_Some].
Qed.

Lemma edgeList_in c k s op : edge_op c k s op -> (s, (c, k)) ∈ edgeList.
Proof.
  intros (Hc & Hk & Hs & _). unfold edgeList. apply elem_of_concat. eexists. split; [apply list_elem_of_fmap; by exists c|]. apply list_elem_of_omap. exists (k, op). split; [by apply elem_of_enumerate|]. cbn. by rewrite Hs.
Qed.

Section Step.
Context (firstBlock : gset nat -> nat) (Hfirst : forall W, W <> ∅ -> firstBlock W ∈ W).
Context (blocks : gmap nat FlowBlock) (maps : gmap nat (gmap (nat * nat) V)) (W : gset nat) (ch : bool) (HI : inv blocks maps W ch).
Context (b : nat) (Hb : b ∈ members).
Notation ops := (opsOf blocks b).
Notation S := (startValues maps b).

Lemma edge_current k s op : edge_to members ops k s op -> exists op0, edge_op b k s op0 /\ tracks b k op0 op /\ flow_ok op0.
Proof.
  intros (Hk & Hs & Hm). destruct (current_original blocks maps W ch HI b k op Hb Hk) as (op0 & H0 & Hf & Ht). exists op0. split; [|done]. split; [done|]. split; [done|]. split; [|done].
  by rewrite <- (tk_successor _ _ _ _ Ht).
Qed.

Lemma edge_current_iff k s op op0 : edge_op b k s op0 -> ops !! k = Some op -> edge_to members ops k s op.
Proof.
  intros (_ & H0 & Hs & Hm) Hk. pose proof (in_tracks _ _ _ _ HI b k op0 op Hb H0 Hk) as Ht. split; [done|]. split; [by rewrite (tk_successor _ _ _ _ Ht)|done].
Qed.

Lemma current_successor op s : op ∈ ops -> _getSuccessorBlock op = Some s -> isEnqueue (_opcode (_operation op)) = true /\ tables_ok program op /\
  exists sb, blocks !! s = Some sb /\ (s ∈ members <-> _function sb = fi).
Proof.
  intros [k Hk]%list_elem_of_lookup Hs. destruct (current_original blocks maps W ch HI b k op Hb Hk) as (op0 & H0 & Hf & Ht). pose proof (tk_successor _ _ _ _ Ht) as Hss. rewrite Hs in Hss.
  destruct (tracks_enqueue b k op0 op s Hf Ht (eq_sym Hss)) as (Hr & Hrr & He). split; [done|]. destruct (proj2 Hf s (eq_sym Hss)) as (_ & [T1 T2] & sb0 & Hsb0 & Hin).
  split; [split; [rewrite Hr; exact T1|rewrite Hr, Hrr; exact T2]|]. pose proof (in_blocks _ _ _ _ HI s) as Hfs. rewrite Hsb0 in Hfs. destruct (blocks !! s) as [sb|]; [|done]. cbn in Hfs. injection Hfs as Hfs. exists sb. split; [done|]. by rewrite Hfs.
Qed.

Lemma current_edges k s op : edge_to members ops k s op -> exists E, edgeAt maps s (b, k) = Some E /\ E ⊆ edgeValues op (valuesAt S ops k).
Proof.
  intros He. destruct (edge_current k s op He) as (op0 & He0 & Ht & Hf). destruct (in_edges _ _ _ _ HI b k s op0 He0) as (E & HE). exists E. split; [done|].
  apply (in_grow _ _ _ _ HI b k s op0 E S He0 HE); [done|by eapply startValues_ok|by eapply startValues_fresh|apply He].
Qed.

Lemma current_fresh : fresh_for S ops.
Proof. intros r Hr. rewrite (current_writes blocks maps W ch HI b Hb) in Hr. by eapply startValues_fresh. Qed.

Lemma current_once : NoDup (blockWrites ops).
Proof. rewrite (current_writes blocks maps W ch HI b Hb). by apply (fn_once Hfn). Qed.

Lemma current_pass W' : exists st ops', visitList (operationCallback program globals fi blocks b) ops (mkState S maps W' ch 0) = Ok (st, ops') /\
  pass_ok program globals members b ops S edgeList maps W' (length ops) st /\ length ops' = length ops /\
  (forall j op op', ops !! j = Some op -> ops' !! j = Some op' -> visited (valuesAt S ops j) op op') /\ (_didChangeIR st = false -> ch = false /\ ops' = ops).
Proof.
  apply pass_eq; [by eapply startValues_ok|by eapply current_ops|apply current_fresh|apply current_once|apply current_successor|apply current_edges|].
  intros k s op He. destruct (edge_current k s op He) as (op0 & He0 & _). by eapply edgeList_in.
Qed.

(** The state after the block *)
Section After.
Context (W' : gset nat) (st : state) (ops' : list FlowOperation) (bb' : FlowBlock).
Context (Hp : pass_ok program globals members b ops S edgeList maps W' (length ops) st) (Hlen : length ops' = length ops).
Context (Hvis : forall j op op', ops !! j = Some op -> ops' !! j = Some op' -> visited (valuesAt S ops j) op op') (Hch : _didChangeIR st = false -> ch = false /\ ops' = ops).
Context (Hbb' : operationsOf mode bb' = ops') (Hf' : _function bb' = fi) (HW' : forall c, c ∈ W' -> c ∈ members).
Notation maps' := (_inputValueMap st).
Notation blocks' := (<[b := bb']> blocks).

Lemma edges_cases s key E' : edgeAt maps' s key = Some E' ->
  (exists k op, key = (b, k) /\ edge_to members ops k s op /\ E' = edgeValues op (valuesAt S ops k)) \/
  ((forall k op, key = (b, k) -> ~ edge_to members ops k s op) /\ edgeAt maps s key = Some E').
Proof.
  intros HE. destruct key as [c k].
  assert (Hdec : (exists op, c = b /\ edge_to members ops k s op) \/ ~ exists op, c = b /\ edge_to members ops k s op).
  { destruct (decide (c = b)) as [->|]; [|right; naive_solver]. unfold edge_to. destruct (ops !! k) as [op|]; [|right; naive_solver]. destruct (decide (_getSuccessorBlock op = Some s)); [|right; naive_solver].
    destruct (decide (s ∈ members)); [left; by exists op|right; naive_solver]. }
  destruct Hdec as [(op & -> & He)|Hn].
  - left. exists k, op. split; [done|]. split; [done|]. rewrite (pa_new _ _ _ _ _ _ _ _ _ _ _ Hp k s op) in HE; [by injection HE|eapply lookup_lt_Some; apply He|done].
  - right. split; [intros k' op [= -> ->] He; apply Hn; by exists op|]. rewrite <- HE. symmetry. apply (pa_old _ _ _ _ _ _ _ _ _ _ _ Hp). intros j op [= -> ->] He. exfalso. apply Hn. by exists op.
Qed.

Lemma edges_grow s key E' : edgeAt maps' s key = Some E' -> exists E, edgeAt maps s key = Some E /\ E ⊆ E'.
Proof. intros HE. destruct (edges_cases s key E' HE) as [(k & op & -> & He & ->)|[_ HE']]; [by apply current_edges|by exists E']. Qed.

Lemma edges_stay s key E : edgeAt maps s key = Some E -> exists E', edgeAt maps' s key = Some E'.
Proof.
  intros HE. destruct key as [c k]. destruct (in_edge _ _ _ _ HI c k s E HE) as (_ & op0 & He0 & _). destruct (decide (c = b)) as [->|Hne].
  - destruct (lookup_lt_is_Some_2 ops k) as [op Hk]; [rewrite (in_length _ _ _ _ HI b Hb); destruct He0 as (_ & H0 & _); by eapply lookup_lt_Some|].
    pose proof (edge_current_iff k s op op0 He0 Hk) as He. eexists. apply (pa_new _ _ _ _ _ _ _ _ _ _ _ Hp k s op); [by eapply lookup_lt_Some|done].
  - exists E. rewrite <- HE. apply (pa_old _ _ _ _ _ _ _ _ _ _ _ Hp). intros j op [= -> ->]. done.
Qed.

Lemma start_grows c : startValues maps c ⊆ startValues maps' c.
Proof. apply startValues_mono; [apply edges_grow|apply edges_stay]. Qed.

Lemma opsOf_after c : opsOf blocks' c = if decide (c = b) then ops' else opsOf blocks c.
Proof. unfold opsOf. destruct (decide (c = b)) as [->|Hne]; [by rewrite lookup_insert_eq|by rewrite lookup_insert_ne]. Qed.

Lemma tracks_after k op0 op' : ops0 b !! k = Some op0 -> ops' !! k = Some op' -> tracks b k op0 op'.
Proof.
  intros H0 Hk'. destruct (lookup_lt_is_Some_2 ops k) as [op Hk]; [rewrite <- Hlen; by eapply lookup_lt_Some|].
  eapply (tracks_visited b k (valuesAt S ops k) op0 op op'); [apply (Forall_lookup_1 _ _ _ _ (fn_ops Hfn b Hb) H0)|by apply (in_tracks _ _ _ _ HI)|by apply Hvis|].
  intros σ Hσ. by eapply valuesAt_agree.
Qed.
Lemma writes_after : blockWrites ops' = blockWrites (ops0 b).
Proof.
  rewrite <- (current_writes blocks maps W ch HI b Hb). unfold ConstPropBlock.blockWrites. f_equal. apply list_eq. intros k. rewrite !list_lookup_fmap. destruct (ops !! k) as [op|] eqn:Hk.
  - destruct (lookup_lt_is_Some_2 ops' k) as [op' Hk']; [rewrite Hlen; by eapply lookup_lt_Some|]. rewrite Hk'. cbn. unfold writtenBy. by rewrite (vi_dst _ _ _ _ _ (Hvis k op op' Hk Hk')).
  - apply lookup_ge_None in Hk. rewrite (lookup_ge_None_2 ops') by lia. done.
Qed.

Lemma ops_after : Forall (fun op => op_ok (_operation op)) ops'.
Proof.
  apply Forall_lookup_2. intros k op' Hk'. destruct (lookup_lt_is_Some_2 (ops0 b) k) as [op0 H0]; [rewrite <- (in_length _ _ _ _ HI b Hb), <- Hlen; by eapply lookup_lt_Some|].
  apply (tk_ok _ _ _ _ (tracks_after k op0 op' H0 Hk')).
Qed.

(** A new entry holds in the executions that pass the edge. *)
Lemma new_edge k s op : edge_to members ops k s op -> values_ok (edgeValues op (valuesAt S ops k)) /\
  exists op0, edge_op b k s op0 /\ forall σ σ', reachable b k σ -> passes program op0 σ σ' -> agrees (edgeValues op (valuesAt S ops k)) σ'.
Proof.
  intros He. destruct (edge_current k s op He) as (op0 & He0 & Ht & Hf). destruct (current_successor op s (list_elem_of_lookup_2 _ _ _ (proj1 He)) (proj1 (proj2 He))) as (Hq & Htb & _).
  assert (HV : values_ok (valuesAt S ops k)) by (apply valuesAt_ok; [by eapply startValues_ok|by eapply current_ops]).
  split; [by apply edgeValues_ok|]. exists op0. split; [done|]. intros σ σ' Hσ Hpass. destruct (tracks_enqueue b k op0 op s Hf Ht) as (Hr & _); [apply He0|].
  eapply edgeValues_agrees; [done..| |]; [by eapply valuesAt_agree|]. intros r Hr'. rewrite Hr. by apply Hpass.
Qed.

Lemma grow_after k s op0 E M op' : edge_op b k s op0 -> edgeAt maps' s (b, k) = Some E -> startValues maps' b ⊆ M -> values_ok M -> fresh_for M (ops0 b) ->
  ops' !! k = Some op' -> E ⊆ edgeValues op' (valuesAt M ops' k).
Proof.
  intros He0 HE HM HMok HMf Hk'. destruct (lookup_lt_is_Some_2 ops k) as [op Hk]; [rewrite <- Hlen; by eapply lookup_lt_Some|]. pose proof (edge_current_iff k s op op0 He0 Hk) as He.
  rewrite (pa_new _ _ _ _ _ _ _ _ _ _ _ Hp k s op) in HE by (done || by eapply lookup_lt_Some). injection HE as <-. destruct He0 as (_ & H0 & Hs0 & _).
  pose proof (Forall_lookup_1 _ _ _ _ (fn_ops Hfn b Hb) H0) as Hf.
  destruct (tracks_enqueue b k op0 op s Hf (in_tracks _ _ _ _ HI b k op0 op Hb H0 Hk) Hs0) as (R1 & R2 & R3). destruct (tracks_enqueue b k op0 op' s Hf (tracks_after k op0 op' H0 Hk') Hs0) as (Q1 & Q2 & Q3).
  destruct (proj2 Hf s Hs0) as (_ & [T1 T2] & _).
  assert (Ht : tables_ok program op) by (split; rewrite ?R1, ?R2; done). assert (Ht' : tables_ok program op') by (split; rewrite ?Q1, ?Q2; done).
  apply map_subseteq_spec. intros i l. rewrite !edgeValues_lookup by done. rewrite R1, R2, Q1, Q2. intros (r & Hr & Hrest). exists r. split; [|done].
  eapply lookup_weaken; [exact Hr|]. apply (valuesAt_visited program globals); try done.
  - etransitivity; [apply start_grows|done].
  - by eapply startValues_ok.
  - by eapply current_ops.
  - apply ops_after.
  - intros q Hq. apply HMf. by rewrite <- writes_after.
  - rewrite writes_after. by apply (fn_once Hfn).
Qed.

Lemma fresh_after w r k s op : w ∈ members -> r ∈ blockWrites (ops0 w) -> edge_to members ops k s op -> avoiding w b -> edgeValues op (valuesAt S ops k) !! r = None.
Proof.
  intros Hw Hr He Hav. destruct (edgeValues op (valuesAt S ops k) !! r) as [l|] eqn:Hl; [exfalso|done].
  destruct (edge_current k s op He) as (op0 & He0 & Ht & Hf). destruct (current_successor op s (list_elem_of_lookup_2 _ _ _ (proj1 He)) (proj1 (proj2 He))) as (Hq & Htb & _).
  destruct (tracks_enqueue b k op0 op s Hf Ht) as (Hren & _); [apply He0|]. destruct (edge_register program op Hq Htb _ r l Hl) as (q & Hql & -> & _).
  unfold OptionallyMapIndex, LookupWithDefault in Hql. destruct (_renamingTable op !! r) as [n|] eqn:Hn.
  { rewrite Hren in Hn. destruct He0 as (_ & H0 & Hs0 & _). apply (fn_originals Hfn b w op0 r n Hb Hw); [by eapply list_elem_of_lookup_2|done|by rewrite Hs0|done]. }
  apply (valuesAt_dom program globals) in Hql as [HS|Hin]; [| |by eapply startValues_ok|by eapply current_ops].
  - destruct (startValues_lookup maps b r l HS) as (Hne & _ & Hall). destruct Hav as [|c b' Hav Hedge _]; [done|]. destruct Hedge as (Hc & Hb'' & opc & Hopc & Hsc).
    apply list_elem_of_lookup in Hopc as [j Hj]. destruct (in_edges _ _ _ _ HI c j b' opc) as (E & HE); [by split|]. pose proof (Hall _ _ HE). by rewrite (in_fresh _ _ _ _ HI w r c j b' E Hw Hr HE Hav) in *.
  - apply (avoiding_ne w b Hav). apply (fn_one_block Hfn b w r Hb Hw); [|done]. rewrite <- (current_writes blocks maps W ch HI b Hb). apply elem_of_blockWrites. apply elem_of_blockWrites in Hin as (o & Ho & Hro).
    exists o. split; [|done]. by eapply elem_of_take in Ho as (? & ? & _); eapply list_elem_of_lookup_2.
Qed.

Lemma inv_after : inv blocks' maps' (_workList st) (_didChangeIR st).
Proof.
  split.
  - intros c. destruct (decide (c = b)) as [->|Hne]; [|rewrite lookup_insert_ne by done; apply HI]. rewrite lookup_insert_eq. destruct (fn_block Hfn b Hb) as (bb & -> & Hbf). cbn. by rewrite Hf', Hbf.
  - intros c Hc. rewrite lookup_insert_ne by (intros <-; done). by apply (in_others _ _ _ _ HI).
  - intros c Hc. rewrite opsOf_after. destruct (decide (c = b)) as [->|Hne]; [rewrite Hlen|]; by apply (in_length _ _ _ _ HI).
  - intros c k op0 op Hc H0. rewrite opsOf_after. destruct (decide (c = b)) as [->|Hne]; [by apply tracks_after|by apply (in_tracks _ _ _ _ HI)].
  - intros c k s op He. destruct (in_edges _ _ _ _ HI c k s op He) as (E & HE). by eapply edges_stay.
  - intros c k s E HE. destruct (edges_cases s (c, k) E HE) as [(k' & op & [= -> ->] & He & ->)|[_ HE']]; [by apply new_edge|by apply (in_edge _ _ _ _ HI)].
  - intros c k s op0 E M He0 HE HM HMok HMf op'. rewrite opsOf_after. destruct (decide (c = b)) as [->|Hne]; [by eapply grow_after|].
    intros Hk'. apply (in_grow _ _ _ _ HI c k s op0 E M); try done; [|etransitivity; [apply start_grows|done]].
    rewrite <- HE. symmetry. apply (pa_old _ _ _ _ _ _ _ _ _ _ _ Hp). intros j op [= -> ->]. done.
  - intros w r c k s E Hw Hr HE Hav. destruct (edges_cases s (c, k) E HE) as [(k' & op & [= -> ->] & He & ->)|[_ HE']]; [by eapply fresh_after|by eapply (in_fresh _ _ _ _ HI)].
  - intros c Hc. destruct (pa_members _ _ _ _ _ _ _ _ _ _ _ Hp c Hc) as [|]; [by apply HW'|done].
  - intros Hfalse c Hc. destruct (Hch Hfalse) as [-> Heq]. rewrite opsOf_after. destruct (decide (c = b)) as [->|Hne]; [rewrite Heq|]; by apply (in_same _ _ _ _ HI).
Qed.
End After.
End Step.

End Function_.

(** The parameters of the section are inferred. *)
Arguments tk_ok {program globals mode members start blocks0 b k op0 op}.
Arguments tk_dst {program globals mode members start blocks0 b k op0 op}.
Arguments tk_lower {program globals mode members start blocks0 b k op0 op}.
Arguments tk_value {program globals mode members start blocks0 b k op0 op}.
Arguments tk_successor {program globals mode members start blocks0 b k op0 op}.
Arguments tk_effect {program globals mode members start blocks0 b k op0 op}.
Arguments in_blocks {program globals mode members start blocks0 blocks maps W ch}.
Arguments in_others {program globals mode members start blocks0 blocks maps W ch}.
Arguments in_length {program globals mode members start blocks0 blocks maps W ch}.
Arguments in_tracks {program globals mode members start blocks0 blocks maps W ch}.
Arguments in_edges {program globals mode members start blocks0 blocks maps W ch}.
Arguments in_edge {program globals mode members start blocks0 blocks maps W ch}.
Arguments in_grow {program globals mode members start blocks0 blocks maps W ch}.
Arguments in_fresh {program globals mode members start blocks0 blocks maps W ch}.
Arguments in_work {program globals mode members start blocks0 blocks maps W ch}.
Arguments in_same {program globals mode members start blocks0 blocks maps W ch}.
Arguments fn_function {program globals functions fi mode members start blocks0}.
Arguments fn_start {program globals functions fi mode members start blocks0}.
Arguments fn_block {program globals functions fi mode members start blocks0}.
Arguments fn_ops {program globals functions fi mode members start blocks0}.
Arguments fn_connected {program globals functions fi mode members start blocks0}.
Arguments fn_once {program globals functions fi mode members start blocks0}.
Arguments fn_one_block {program globals functions fi mode members start blocks0}.
Arguments fn_originals {program globals functions fi mode members start blocks0}.

(** Operations with the same successors have the same entries. *)
Lemma entry_congruence mode members start blocks blocks' b :
  (forall c, c ∈ members -> length (opsOf mode blocks' c) = length (opsOf mode blocks c)) ->
  (forall c k op op', c ∈ members -> opsOf mode blocks c !! k = Some op -> opsOf mode blocks' c !! k = Some op' -> _getSuccessorBlock op' = _getSuccessorBlock op) ->
  entry mode members start blocks' b <-> entry mode members start blocks b.
Proof.
  intros Hlen Hs. assert (He : forall c, edge mode members blocks' c b <-> edge mode members blocks c b); [|unfold entry; by setoid_rewrite He].
  intros c. unfold edge. split; intros (Hc & Hb & op & [k Hk]%list_elem_of_lookup & Hsucc); (split; [done|]; split; [done|]).
  - destruct (lookup_lt_is_Some_2 (opsOf mode blocks c) k) as [op0 H0]; [rewrite <- Hlen by done; by eapply lookup_lt_Some|].
    exists op0. split; [by eapply list_elem_of_lookup_2|]. by rewrite <- (Hs c k op0 op Hc H0 Hk).
  - destruct (lookup_lt_is_Some_2 (opsOf mode blocks' c) k) as [op' Hk']; [rewrite Hlen by done; by eapply lookup_lt_Some|].
    exists op'. split; [by eapply list_elem_of_lookup_2|]. by rewrite (Hs c k op op' Hc Hk Hk').
Qed.

End ConstPropInvariant.
