(* ===== verification/ConstPropCorrect.v ===== *)
(** * Constant propagation is correct

    [ConstantPropagation] ends without a failed assertion, and the function has
    the executions that it had, with the same observations. *)

From S2P Require Import Prelude MachineInt Literals Ir Run Semantics Flow ConstProp FlowPaths ConstPropOps.
From S2P Require Import ConstPropInvariant.
Import MachineInt Containers Literals Ir Run Semantics Flow FlowSemantics.
Import ConstProp FlowPaths ConstPropOps ConstPropEdges ConstPropBlock ConstPropInvariant.

Module ConstPropCorrect.

Lemma size_DataFlowWorkList basicBlocks : (size (DataFlowWorkList basicBlocks) <= length basicBlocks)%nat.
Proof.
  unfold DataFlowWorkList. induction basicBlocks as [|b l IH]; [done|]. cbn [list_to_set length]. rewrite size_union_alt, size_singleton.
  pose proof (subseteq_size (list_to_set l ∖ {[b]} : gset nat) (list_to_set l) ltac:(set_solver)). lia.
Qed.

Section Function_.
Context (program : Program) (globals : gmap nat GlobalDesc) (functions : list FlowFunction) (fi : nat) (mode : OperationEnumerationMode).
Context (members : list nat) (start : nat) (blocks0 : gmap nat FlowBlock).
Context (Hfn : function_ok program globals functions fi mode members start blocks0).
Notation inv := (inv program globals mode members start blocks0).
Notation opsOf := (opsOf mode).
Notation edgeList := (edgeList mode members blocks0).
Notation values_ok := (values_ok program).
Notation N := (numRegisters program).
Notation V := (gmap nat Literal).

(** ** Termination *)

Lemma values_size (E : V) : values_ok E -> (size E <= N)%nat.
Proof.
  intros HE. rewrite <- (size_dom E). transitivity (size (list_to_set (seq 0 N) : gset nat)).
  - apply subseteq_size. intros r Hr. apply elem_of_dom in Hr as [l Hl]. destruct (HE r l Hl) as (d & Hd & _). apply elem_of_list_to_set, elem_of_seq. apply lookup_lt_Some in Hd. unfold numRegisters. lia.
  - rewrite size_list_to_set by apply NoDup_seq. by rewrite length_seq.
Qed.

Lemma knownValues_bound blocks maps W ch : inv blocks maps W ch -> (knownValues edgeList maps <= length edgeList * N)%nat.
Proof.
  intros HI. unfold knownValues. induction edgeList as [|[s [c k]] l IH]; [done|]. cbn [sum_list_with length fst snd].
  assert (H : (size (default ∅ (edgeAt maps s (c, k))) <= N)%nat).
  { destruct (edgeAt maps s (c, k)) as [E|] eqn:HE; cbn; [|rewrite map_size_empty; lia]. apply values_size. apply (in_edge HI c k s E HE). }
  lia.
Qed.

Section Loop.
Context (firstBlock : gset nat -> nat) (Hfirst : forall W, W <> ∅ -> firstBlock W ∈ W).
Notation propagateBlock := (propagateBlock program globals functions fi mode firstBlock).
Notation propagateLoop := (propagateLoop program globals functions fi mode firstBlock).

Lemma propagateBlock_eq blocks maps W ch :
  inv blocks maps W ch -> W <> ∅ ->
  exists blocks' maps' W' ch', propagateBlock blocks maps W ch = Ok (blocks', maps', W', ch') /\ inv blocks' maps' W' ch' /\
    (size W' + knownValues edgeList maps < size W + knownValues edgeList maps')%nat.
Proof.
  intros HI Hne. pose proof (Hfirst W Hne) as HbW. set (b := firstBlock W) in *. pose proof (in_work HI b HbW) as Hb.
  destruct (fn_block Hfn b Hb) as (bb0 & Hbb0 & Hf0). pose proof (in_blocks HI b) as Hbb. rewrite Hbb0 in Hbb.
  destruct (blocks !! b) as [bb|] eqn:Hblk; [|done]. cbn in Hbb. injection Hbb as Hbf. rewrite Hf0 in Hbf.
  unfold ConstProp.propagateBlock, Pop, blockAt. fold b. rewrite Hblk. cbn [of_option mbind result_bind]. rewrite (proj2 (Nat.eqb_eq _ _) Hbf). cbn [assert_ mbind result_bind].
  rewrite Hblk. cbn [of_option mbind result_bind]. destruct (fn_function Hfn) as (f & Hf & Hmem & Hst).
  unfold IsFirstInFunction. rewrite Hbf, (at_Some _ _ _ Hf). cbn [mbind result_bind]. rewrite Hst.
  destruct (current_pass program globals functions fi mode members start blocks0 Hfn blocks maps W ch HI b Hb (W ∖ {[b]})) as (st & ops' & Hrun & Hp & Hlen & Hvis & Hch).
  assert (Hops : opsOf blocks b = operationsOf mode bb) by (unfold ConstPropInvariant.opsOf; by rewrite Hblk). rewrite Hops in Hrun.
  destruct (ForEachOperationForward_eq _ _ _ _ _ _ Hrun) as (bb' & Heq & Hbb' & Hf' & _). unfold startValues in Heq. rewrite Heq. cbn [mbind result_bind].
  eexists _, _, _, _. split; [reflexivity|]. split.
  - eapply (inv_after program globals functions fi mode members start blocks0 Hfn blocks maps W ch HI b Hb (W ∖ {[b]})); try done; [congruence|].
    intros c Hc. apply elem_of_difference in Hc as [Hc _]. by apply (in_work HI).
  - pose proof (pa_measure _ _ _ _ _ _ _ _ _ _ _ Hp) as Hm. assert (size (W ∖ {[b]}) < size W)%nat; [|lia]. apply subset_size. set_solver.
Qed.

Lemma propagateLoop_eq fuel blocks maps W ch :
  inv blocks maps W ch -> (size W + length edgeList * N <= fuel + knownValues edgeList maps)%nat ->
  exists blocks' maps' ch', propagateLoop fuel blocks maps W ch = Ok (blocks', ch') /\ inv blocks' maps' ∅ ch'.
Proof.
  revert blocks maps W ch; induction fuel as [|fuel IH]; intros blocks maps W ch HI Hfuel; cbn [ConstProp.propagateLoop].
  - case_bool_decide as HW; [subst W; by exists blocks, maps, ch|]. exfalso. pose proof (knownValues_bound _ _ _ _ HI). apply HW. apply leibniz_equiv, size_empty_iff. lia.
  - case_bool_decide as HW; [subst W; by exists blocks, maps, ch|]. destruct (propagateBlock_eq _ _ _ _ HI HW) as (blocks1 & maps1 & W1 & ch1 & -> & H1 & Hm). cbn [mbind result_bind].
    apply (IH _ maps1); [done|lia].
Qed.
End Loop.

(** ** The start *)

Lemma edgeAt_insert_default (maps : gmap nat (gmap (nat * nat) V)) s key M s' key' :
  edgeAt (<[s := <[key := M]> (default ∅ (maps !! s))]> maps) s' key' = if decide (s' = s /\ key' = key) then Some M else edgeAt maps s' key'.
Proof.
  unfold edgeAt. destruct (decide (s' = s)) as [->|Hne].
  - rewrite lookup_insert_eq. cbn [mbind option_bind]. destruct (decide (key' = key)) as [->|]; [by rewrite lookup_insert_eq, decide_True|].
    rewrite lookup_insert_ne, decide_False by naive_solver. by destruct (maps !! s).
  - by rewrite lookup_insert_ne, decide_False by naive_solver.
Qed.

Notation edges_of c maps := (forall s b k E, edgeAt maps s (b, k) = Some E <-> E = ∅ /\ exists op, c b k op /\ _getSuccessorBlock op = Some s /\ s ∈ members).

Lemma initializeOperations_eq b (c : nat -> nat -> FlowOperation -> Prop) maps : b ∈ members -> edges_of c maps ->
  exists maps', foldM (initializeOperation fi blocks0 b) (enumerate (opsOf blocks0 b)) maps = Ok maps' /\
    edges_of (fun b' k op => c b' k op \/ (b' = b /\ opsOf blocks0 b !! k = Some op)) maps'.
Proof.
  intros Hb H0. destruct (foldM_prefix_inv (initializeOperation fi blocks0 b)
    (fun pre maps => edges_of (fun b' k op => c b' k op \/ (b' = b /\ (k, op) ∈ pre)) maps) (enumerate (opsOf blocks0 b)) maps) as (maps' & Hr & HI).
  - intros s b' k E. rewrite H0. setoid_rewrite elem_of_nil. naive_solver.
  - intros pre [k op] m Hin HI. unfold initializeOperation. cbn [fst snd]. apply elem_of_enumerate in Hin.
    pose proof (Forall_lookup_1 _ _ _ _ (fn_ops Hfn b Hb) Hin) as [_ Hs]. destruct (_getSuccessorBlock op) as [s|] eqn:Hsucc.
    + destruct (Hs s eq_refl) as (_ & _ & sb & Hsb & Hiff). unfold blockAt. rewrite Hsb. cbn [of_option mbind result_bind]. eexists; split; [reflexivity|]. intros s' b' k' E. setoid_rewrite elem_of_app. setoid_rewrite list_elem_of_singleton.
      destruct (Nat.eqb_spec (_function sb) fi) as [Hf|Hf].
      * rewrite edgeAt_insert_default. destruct (decide (s' = s /\ (b', k') = (b, k))) as [[-> [= -> ->]]|Hne]; [|rewrite HI; naive_solver].
        split; [intros [= <-]; split; [done|]; exists op; naive_solver|]. by intros [-> _].
      * rewrite HI. naive_solver.
    + eexists; split; [reflexivity|]. intros s' b' k' E. rewrite HI. setoid_rewrite elem_of_app. setoid_rewrite list_elem_of_singleton. naive_solver.
  - exists maps'. split; [done|]. intros s b' k E. rewrite HI. setoid_rewrite elem_of_enumerate. done.
Qed.

Lemma initializePredecessorMaps_eq : exists maps, initializePredecessorMaps fi mode blocks0 members = Ok maps /\
  forall s c k E, edgeAt maps s (c, k) = Some E <-> E = ∅ /\ exists op, edge_op mode members blocks0 c k s op.
Proof.
  destruct (foldM_prefix_inv (fun st b => bb ← blockAt blocks0 b; foldM (initializeOperation fi blocks0 b) (enumerate (operationsOf mode bb)) st)
    (fun pre maps => edges_of (fun b k op => b ∈ pre /\ opsOf blocks0 b !! k = Some op) maps) members ∅) as (maps & Hr & HI).
  - intros s b k E. unfold edgeAt. rewrite lookup_empty. setoid_rewrite elem_of_nil. naive_solver.
  - intros pre b m Hb HI. destruct (fn_block Hfn b Hb) as (bb & Hbb & _). unfold blockAt. rewrite Hbb. cbn [of_option mbind result_bind].
    assert (Hops : opsOf blocks0 b = operationsOf mode bb) by (unfold ConstPropInvariant.opsOf; by rewrite Hbb). rewrite <- Hops.
    destruct (initializeOperations_eq b _ m Hb HI) as (m' & Hm & HI'). exists m'. split; [done|]. intros s b' k E. rewrite HI'. setoid_rewrite elem_of_app. setoid_rewrite list_elem_of_singleton. naive_solver.
  - exists maps. split; [exact Hr|]. intros s c k E. rewrite HI. unfold edge_op, edge_to. naive_solver.
Qed.

Lemma initial_inv maps : (forall s c k E, edgeAt maps s (c, k) = Some E <-> E = ∅ /\ exists op, edge_op mode members blocks0 c k s op) ->
  inv blocks0 maps (DataFlowWorkList members) false.
Proof.
  intros Hm. split; try done.
  - intros b k op0 op Hb H0 H1. assert (op = op0) as -> by congruence. eapply tracks_refl. by eapply (Forall_lookup_1 _ _ _ _ (fn_ops Hfn b Hb)).
  - intros c k s op He. exists ∅. apply Hm. split; [done|]. by exists op.
  - intros c k s E HE. apply Hm in HE as [-> (op & He)]. split; [intros r l; by rewrite lookup_empty|]. exists op. split; [done|]. intros σ σ' _ _ r l. by rewrite lookup_empty.
  - intros b k s op E M He HE _ _ _ op' _. apply Hm in HE as [-> _]. apply map_empty_subseteq.
  - intros w r c k s E _ _ HE _. apply Hm in HE as [-> _]. by rewrite lookup_empty.
  - intros b Hb. by apply elem_of_list_to_set in Hb.
Qed.
(** ** The executions *)

Notation reaches := (reaches program globals members).
Notation entry := (entry mode members start).

Section Executions.
Context (blocks : gmap nat FlowBlock) (maps : gmap nat (gmap (nat * nat) V)) (W : gset nat) (ch : bool) (HI : inv blocks maps W ch).

Notation tracks := (tracks program globals mode members start blocks0).
Notation reachable := (reachable program globals members (entry blocks0) (opsOf blocks0)).

Lemma tracks_same b k op0 op : flow_ok program globals fi members blocks0 op0 -> tracks b k op0 op -> does_same program (reachable b k) op0 op.
Proof.
  intros Hf Ht. split.
  - apply (tk_dst Ht).
  - apply (tk_successor Ht).
  - destruct (_getSuccessorBlock op0) as [s|] eqn:Hs; [intros _|done]. by destruct (tracks_enqueue _ _ _ _ _ _ _ _ _ _ _ _ Hf Ht Hs).
  - intros σ vs Hσ. by eapply tracks_results.
  - intros σ vs Hσ. unfold observe. rewrite (tk_lower Ht), (tk_dst Ht). destruct (CanOpcodeBeLoweredToLut (_opcode (_operation op0))) eqn:Hl; [done|].
    destruct (tk_effect Ht Hl) as (Hw & Ho & Hm & Hs). unfold eventOf. rewrite Ho, Hm, (Hs σ Hσ), Hw. done.
Qed.

(** The executions are the same, with the same observations. *)
Lemma reaches_same tr b k σ : reaches (entry blocks0) (opsOf blocks0) tr b k σ <-> reaches (entry blocks) (opsOf blocks) tr b k σ.
Proof.
  apply reaches_congruence.
  - intros c. apply entry_congruence; [intros c' Hc'; by apply (in_length HI)|]. intros c' j op op' Hc' Hj Hj'. apply (tk_successor (in_tracks HI c' j op op' Hc' Hj Hj')).
  - intros c Hc. by apply (in_length HI).
  - intros c j op op' Hc Hj Hj'. apply tracks_same; [by apply (Forall_lookup_1 _ _ _ _ (fn_ops Hfn c Hc) Hj)|by apply (in_tracks HI)].
Qed.
End Executions.
End Function_.


(** ** A constant that passes to another block

    Block 0 assigns 5 to its register 0 and passes it to block 1 as register 1,
    where 3 is added and the sum printed. *)

Definition demoReg (r : nat) : SourceOperand := SrcRegister (mkAccessedRegister r).
Definition demoLit (v : Z) : SourceOperand := SrcLiteral (mkLiteral v 8).
Definition demoOp (opcode : Opcode) (src : list SourceOperand) (dst : list nat) : FlowOperation :=
  mkFlowOperation (mkOperation opcode 0 ∅ src ((fun r => DstRegister (mkAccessedRegister r)) <$> dst)) None ∅ ∅ false.
Definition demoEnqueue : FlowOperation := mkFlowOperation (mkOperation (Enqueue false) 0 ∅ [] []) (Some 1%nat) {[1%nat := 0%nat]} {[0%nat := 1%nat]} false.
Definition demoProgram : Program := mkProgram (replicate 3 (mkRegisterDescription 8 Local "r"%string)).
Definition demoBlock (ops : list FlowOperation) : FlowBlock := mkFlowBlock [] ops [] 0 [] [] [] None.
Definition demoBlocks : gmap nat FlowBlock :=
  {[0%nat := demoBlock [demoOp Mov [demoLit 5] [0%nat]; demoEnqueue];
    1%nat := demoBlock [demoOp (BinaryOp ParseTreeBinaryOpTypeAdd) [demoReg 1; demoLit 3] [2%nat]; demoOp (Print []) [demoReg 2] []]]}.
Definition demoFunctions : list FlowFunction := [mkFlowFunction [0%nat; 1%nat] (Some 0%nat) false].
Definition demoFirst (X : gset nat) : nat := default 0%nat (set_elements X !! 0%nat).

Lemma demo_pops X : X <> ∅ -> demoFirst X ∈ X.
Proof.
  intros H. unfold demoFirst. destruct (set_elements X) as [|x l] eqn:Hl.
  - exfalso. apply H, set_eq. intros x. rewrite <- elem_of_set_elements, Hl. split; [by intros ?%not_elem_of_nil|by intros ?%elem_of_empty].
  - cbn. apply elem_of_set_elements. rewrite Hl. by left.
Qed.

Lemma demo_member b : b ∈ [0%nat; 1%nat] -> b = 0%nat \/ b = 1%nat.
Proof. set_solver. Qed.

Lemma demo_source (o : SourceOperand) : (exists r, (r < 3)%nat /\ o = demoReg r) \/ (exists v, 0 <= v < 256 /\ o = demoLit v) -> source_ok demoProgram ∅ o.
Proof.
  intros [(r & Hr & ->)|(v & Hv & ->)]; cbn; [|unfold lit_wf; cbn; lia]. exists (mkRegisterDescription 8 Local "r"%string). split; [by apply (lookup_replicate_2 3)|]. cbn. split; [lia|done].
Qed.

Lemma demo_register r : (r < 3)%nat -> dst_ok demoProgram ∅ (DstRegister (mkAccessedRegister r)).
Proof.
  intros Hr. exists (mkRegisterDescription 8 Local "r"%string). cbn [_registerIndex]. split; [by apply (lookup_replicate_2 3)|]. split; [by cbn|]. intros l (d & g & _ & _ & Hg & _). by rewrite lookup_empty in Hg.
Qed.

Lemma demo_flow_ok b op : b ∈ [0%nat; 1%nat] -> op ∈ opsOf Unscheduled demoBlocks b -> flow_ok demoProgram ∅ 0 [0%nat; 1%nat] demoBlocks op.
Proof.
  intros Hb Hop. apply demo_member in Hb as [-> | ->]; apply list_elem_of_In in Hop; cbn in Hop; destruct Hop as [<-|[<-|[]]]; (split; [split|]).
  all: try (cbn; done). all: try (cbn; lia).
  all: try (cbn; repeat apply Forall_cons_2; try apply Forall_nil_2; first [apply demo_register; lia|apply demo_source; left; eexists; split; [|reflexivity]; lia|apply demo_source; right; eexists; split; [|reflexivity]; lia]).
  intros s [= <-]. split; [done|]. split.
  - split; cbn.
    + intros o n [<- <-]%lookup_singleton_Some. by eexists _, _.
    + intros o n [<- <-]%lookup_singleton_Some. by rewrite lookup_singleton_eq.
  - eexists. split; [reflexivity|]. split; [done|]. intros _. right. by left.
Qed.

Lemma demo_function : function_ok demoProgram ∅ demoFunctions 0 Unscheduled [0%nat; 1%nat] 0 demoBlocks.
Proof.
  assert (H01 : edge Unscheduled [0%nat; 1%nat] demoBlocks 0 1).
  { split; [by left|]. split; [right; by left|]. exists demoEnqueue. split; [|done]. right. by left. }
  constructor.
  - eexists. split; [reflexivity|done].
  - by left.
  - intros b [-> | ->]%demo_member; eexists; split; reflexivity.
  - intros b Hb. apply Forall_forall. intros op. by apply demo_flow_ok.
  - intros b [-> | ->]%demo_member; [constructor|]. eapply connected_edge; [constructor|done].
  - intros b [-> | ->]%demo_member; apply (bool_decide_unpack _); by vm_compute.
  - intros b c r [-> | ->]%demo_member [-> | ->]%demo_member; try done; vm_compute; set_solver.
  - intros b c op o n Hb [-> | ->]%demo_member Hop Ho _; apply demo_member in Hb as [-> | ->]; apply list_elem_of_In in Hop; cbn in Hop; destruct Hop as [<-|[<-|[]]];
      cbn in Ho; try (by rewrite lookup_empty in Ho); apply lookup_singleton_Some in Ho as [<- _]; vm_compute; set_solver.
Qed.


End ConstPropCorrect.
