(* ===== verification/ConstPropGlobals.v ===== *)
(** * Substitution of constant globals is correct

    [SubstituteLiterals] replaces every constant global by its value; the
    executions stay. *)

From S2P Require Import Prelude MachineInt Literals Ir Semantics Flow ConstProp FlowPaths ConstPropOps ConstPropInvariant.
Import MachineInt Containers Literals Ir Semantics Flow FlowSemantics.
Import ConstProp FlowPaths ConstPropOps ConstPropInvariant.

Module ConstPropGlobals.

Section Globals.
Context (program : Program) (globals : gmap nat GlobalDesc).
Notation constantGlobal := (constantGlobal program globals).
Notation opsOf := (opsOf Unscheduled).

Definition globals_ok : Prop := forall r d, _registerTable program !! r = Some d -> _type d = Global -> is_Some (globals !! r).

Lemma constantGlobal_total r : globals_ok -> (r < length (_registerTable program))%nat -> exists v, constantGlobal r = Ok v.
Proof.
  intros Hg Hr. destruct (lookup_lt_is_Some_2 _ _ Hr) as [d Hd]. unfold ConstProp.constantGlobal. rewrite (at_Some _ _ _ Hd). cbn [mbind result_bind].
  case_bool_decide as Ht; [|by eexists]. destruct (Hg r d Hd (eq_sym Ht)) as [g ->]. by eexists.
Qed.

Lemma constantGlobal_range r l : constantGlobal r = Ok (Some l) -> (r < length (_registerTable program))%nat.
Proof.
  unfold ConstProp.constantGlobal, at_. destruct (_registerTable program !! r) eqn:Hr; [intros _; by eapply lookup_lt_Some|done].
Qed.

Lemma ComputeConstantGlobals_eq : globals_ok -> exists M, ComputeConstantGlobals program globals = Ok M /\ forall r l, M !! r = Some l <-> constantValue program globals r l.
Proof.
  intros Hg. unfold ComputeConstantGlobals.
  match goal with |- context [foldM ?f ?rs ?M0] => destruct (foldM_prefix_inv f (fun pre (M : gmap nat Literal) => forall r l, M !! r = Some l <-> r ∈ pre /\ constantGlobal r = Ok (Some l)) rs M0) as (M & HM & HI) end.
  - intros r l. rewrite lookup_empty. split; [done|]. intros [?%not_elem_of_nil _]. done.
  - intros pre r M Hr HI. apply elem_of_seq in Hr. destruct (constantGlobal_total r Hg) as (v & Hv); [lia|]. rewrite Hv. cbn [mbind result_bind]. eexists; split; [reflexivity|].
    intros q l. rewrite elem_of_app, list_elem_of_singleton. destruct v as [v|]; [destruct (decide (q = r)) as [->|Hne]; [rewrite lookup_insert_eq|rewrite lookup_insert_ne by done]|]; rewrite ?HI; naive_solver congruence.
  - exists M. split; [done|]. intros r l. rewrite <- constantGlobal_value, HI, elem_of_seq. split; [by intros [_ ?]|]. intros H. split; [|done]. pose proof (constantGlobal_range r l H). lia.
Qed.

Section Substitution.
Context (M : gmap nat Literal) (HM : forall r l, M !! r = Some l <-> constantValue program globals r l).

Definition substituted (o : SourceOperand) : SourceOperand :=
  match o with SrcRegister r => match M !! _registerIndex r with Some l => SrcLiteral l | None => o end | _ => o end.

Definition substitutedOperation (op : Operation) : Operation :=
  mkOperation (_opcode op) (_signExtendSourceMask op) (_locations op) (substituted <$> _src op) (_dst op).

Definition substitutedOp (op : FlowOperation) : FlowOperation := withOperation op (substitutedOperation (_operation op)).

Lemma substituted_idem o : substituted (substituted o) = substituted o.
Proof. destruct o as [l|r| |]; try done. cbn. destruct (M !! _registerIndex r) eqn:Hr; [done|]. cbn. by rewrite Hr. Qed.

Lemma substitutedOp_idem op : substitutedOp (substitutedOp op) = substitutedOp op.
Proof.
  unfold substitutedOp, withOperation, substitutedOperation. cbn. rewrite <- list_fmap_compose. do 2 f_equal. apply list_fmap_ext. intros i o _. apply substituted_idem.
Qed.

Lemma setSource_eq op pre o post o' :
  setSource (mkOperation (_opcode op) (_signExtendSourceMask op) (_locations op) (pre ++ o :: post) (_dst op)) (length pre) o' =
  mkOperation (_opcode op) (_signExtendSourceMask op) (_locations op) ((pre ++ [o']) ++ post) (_dst op).
Proof. unfold setSource. cbn. f_equal. rewrite insert_app_r_alt, Nat.sub_diag by lia. cbn. by rewrite <- app_assoc. Qed.

Lemma substituteSources_from op post : forall pre made,
  exists made', foldM (substituteSource M) (seq (length pre) (length post)) (made, mkOperation (_opcode op) (_signExtendSourceMask op) (_locations op) (pre ++ post) (_dst op)) =
    Ok (made', mkOperation (_opcode op) (_signExtendSourceMask op) (_locations op) (pre ++ (substituted <$> post)) (_dst op)) /\
    (made' = false -> made = false /\ substituted <$> post = post).
Proof.
  induction post as [|o post IH]; intros pre made; [by exists made|]. cbn [length seq foldM].
  match goal with |- context [substituteSource M ?st (length pre) ≫= _] => assert (Hstep : substituteSource M st (length pre) =
      Ok (match o with SrcRegister r => match M !! _registerIndex r with Some l => (true, setSource st.2 (length pre) (SrcLiteral l)) | None => st end | _ => st end)) end.
  { unfold substituteSource. cbn [fst snd _src]. by rewrite (at_Some _ _ o) by (by rewrite lookup_app_r, Nat.sub_diag by lia). }
  rewrite Hstep. clear Hstep. cbn [mbind result_bind fst snd].
  assert (Hstay : substituted o = o -> exists made', foldM (substituteSource M) (seq (S (length pre)) (length post)) (made, mkOperation (_opcode op) (_signExtendSourceMask op) (_locations op) (pre ++ o :: post) (_dst op)) =
    Ok (made', mkOperation (_opcode op) (_signExtendSourceMask op) (_locations op) (pre ++ (substituted <$> (o :: post))) (_dst op)) /\
    (made' = false -> made = false /\ substituted <$> (o :: post) = o :: post)).
  { intros Ho. destruct (IH (pre ++ [o]) made) as (made' & Hr & Hmade). rewrite length_app, Nat.add_1_r, <- !app_assoc in Hr. exists made'. rewrite fmap_cons, Ho. split; [exact Hr|]. intros Hf. destruct (Hmade Hf) as [-> ->]. done. }
  destruct o as [l|r|f|s]; try by apply Hstay. destruct (M !! _registerIndex r) as [l|] eqn:Hr; [|apply Hstay; cbn; by rewrite Hr]. rewrite fmap_cons. cbn [substituted]. rewrite Hr. clear Hstay.
  rewrite setSource_eq. destruct (IH (pre ++ [SrcLiteral l]) true) as (made' & Hf & Hmade). rewrite length_app, Nat.add_1_r in Hf. exists made'. rewrite Hf, <- app_assoc. split; [done|]. intros Hfalse. by destruct (Hmade Hfalse).
Qed.

Lemma substituteSources_eq op made : exists made', foldM (substituteSource M) (seq 0 (length (_src op))) (made, op) = Ok (made', substitutedOperation op) /\
  (made' = false -> made = false /\ substitutedOperation op = op).
Proof.
  destruct (substituteSources_from op (_src op) [] made) as (made' & Hr & Hm). exists made'. destruct op as [oc m lo src dst]. cbn in *. split; [exact Hr|]. intros Hf. destruct (Hm Hf) as [? Hs]. unfold substitutedOperation. cbn. by rewrite Hs.
Qed.

Lemma substitute_block_eq bb made : exists made' bb',
  ForEachOperationForward (fun madeSubstitution op =>
    '(made, o) ← foldM (substituteSource M) (seq 0 (length (_src (_operation op)))) (madeSubstitution, _operation op); Ok (made, withOperation op o)) Unscheduled bb made = Ok (made', bb') /\
  operationsOf Unscheduled bb' = substitutedOp <$> operationsOf Unscheduled bb /\ (made' = false -> made = false /\ operationsOf Unscheduled bb' = operationsOf Unscheduled bb).
Proof.
  match goal with |- context [ForEachOperationForward ?f _ _ _] => set (callback := f) end.
  assert (Hv : forall ops made, exists made', visitList callback ops made = Ok (made', substitutedOp <$> ops) /\ (made' = false -> made = false /\ substitutedOp <$> ops = ops)).
  { induction ops as [|op ops IH]; intros m; [by exists m|]. destruct (substituteSources_eq (_operation op) m) as (m1 & H1 & Hm1). destruct (IH m1) as (m2 & H2 & Hm2). exists m2.
    assert (Hstep : callback m op = Ok (m1, substitutedOp op)) by (unfold callback; by rewrite H1). rewrite visitList_cons, Hstep. cbn [mbind result_bind]. rewrite H2. cbn [mbind result_bind]. split; [done|]. intros Hf. destruct (Hm2 Hf) as [Hf1 Hops]. destruct (Hm1 Hf1) as [-> Hop].
    split; [done|]. rewrite fmap_cons, Hops. f_equal. unfold substitutedOp. rewrite Hop. by destruct op. }
  destruct (Hv (operationsOf Unscheduled bb) made) as (made' & Hr & Hm). destruct (ForEachOperationForward_eq _ _ _ _ _ _ Hr) as (bb' & Heq & Hbb' & _).
  exists made', bb'. split; [exact Heq|]. split; [done|]. intros Hf. destruct (Hm Hf) as [-> Hsame]. by rewrite Hbb'.
Qed.

(** On registers that hold the constants the operation does the same. *)
Lemma substituted_literal σ o : constants program globals σ -> operandLiteral program σ (substituted o) = operandLiteral program σ o.
Proof.
  intros Hc. destruct o as [l|r| |]; try done. cbn [substituted]. destruct (M !! _registerIndex r) as [l|] eqn:Hr; [|done]. apply HM in Hr. symmetry. destruct r as [r]. by apply Hc.
Qed.

Lemma substituted_same P op : (forall σ, P σ -> constants program globals σ) -> does_same program P op (substitutedOp op).
Proof.
  intros HP.
  assert (Hl : forall σ, P σ -> operandLiteral program σ <$> _src (_operation (substitutedOp op)) = operandLiteral program σ <$> _src (_operation op)).
  { intros σ Hσ. cbn. rewrite <- list_fmap_compose. apply list_fmap_ext. intros i o _. apply substituted_literal. by apply HP. }
  split; try done.
  - intros σ vs Hσ. unfold results_of. rewrite (opValue_resolve program program σ σ (_operation op) (_operation (substitutedOp op))) by (done || by apply Hl). done.
  - intros σ vs Hσ. unfold observe, eventOf. cbn [substitutedOp substitutedOperation withOperation _operation _opcode _dst _src _signExtendSourceMask _getSuccessorBlock _renamingTable].
    destruct (CanOpcodeBeLoweredToLut _); [done|]. do 3 f_equal. rewrite <- list_fmap_compose. apply list_fmap_ext. intros i o _. cbn. apply resolve_literal; [apply substituted_literal; by apply HP|].
    destruct o as [l|[r]| |]; try done. cbn [substituted _registerIndex]. destruct (M !! r) as [l|] eqn:Hr; [|done]. apply HM in Hr. pose proof (HP σ Hσ r l Hr) as Hh. unfold FlowPaths.holds in Hh. by rewrite Hh.
Qed.
End Substitution.

Lemma substituteBlocks_eq M bs blocks : (forall b, b ∈ bs -> is_Some (blocks !! b)) ->
  exists blocks' made, foldM (fun st b =>
      basicBlock ← blockAt st.1 b;
      '(madeSubstitution, basicBlock) ← ForEachOperationForward (fun madeSubstitution op =>
          '(made, o) ← foldM (substituteSource M) (seq 0 (length (_src (_operation op)))) (madeSubstitution, _operation op);
          Ok (made, withOperation op o)) Unscheduled basicBlock st.2;
      Ok (<[b := basicBlock]> st.1, madeSubstitution)) bs (blocks, false) = Ok (blocks', made) /\
    (forall b, b ∈ bs -> opsOf blocks' b = substitutedOp M <$> opsOf blocks b) /\ (forall b, b ∉ bs -> blocks' !! b = blocks !! b) /\
    (made = false -> forall b, opsOf blocks' b = opsOf blocks b).
Proof.
  intros Hbs. match goal with |- context [foldM ?f ?l ?st0] => destruct (foldM_prefix_inv f (fun pre st => (forall b, is_Some (blocks !! b) -> is_Some (st.1 !! b)) /\
    (forall b, b ∈ pre -> opsOf st.1 b = substitutedOp M <$> opsOf blocks b) /\ (forall b, b ∉ pre -> st.1 !! b = blocks !! b) /\ (st.2 = false -> forall b, opsOf st.1 b = opsOf blocks b)) bs st0) as ([blocks' made] & Hr & _ & HI) end.
  - split; [done|]. split; [by intros b ?%not_elem_of_nil|done].
  - intros pre b [cur m] Hb (Hsome & Hin & Hout & Hm). cbn [fst snd] in *. destruct (Hsome b (Hbs b Hb)) as [bb Hbb]. unfold blockAt. rewrite Hbb. cbn [of_option mbind result_bind].
    destruct (substitute_block_eq M bb m) as (m' & bb' & -> & Hops & Hm'). cbn [mbind result_bind]. eexists; split; [reflexivity|]. cbn [fst snd].
    assert (Hcur : opsOf cur b = operationsOf Unscheduled bb) by (unfold ConstPropInvariant.opsOf; by rewrite Hbb).
    assert (Hnew : forall c, opsOf (<[b := bb']> cur) c = if decide (c = b) then substitutedOp M <$> opsOf cur b else opsOf cur c).
    { intros c. destruct (decide (c = b)) as [->|Hne]; [rewrite Hcur; unfold ConstPropInvariant.opsOf; by rewrite lookup_insert_eq|unfold ConstPropInvariant.opsOf; by rewrite lookup_insert_ne]. }
    split; [|split; [|split]].
    + intros c Hc. destruct (decide (c = b)) as [->|Hne]; [by rewrite lookup_insert_eq|rewrite lookup_insert_ne by done; by apply Hsome].
    + intros c Hc. rewrite Hnew. apply elem_of_app in Hc. rewrite list_elem_of_singleton in Hc. destruct (decide (c = b)) as [->|Hne]; [|apply Hin; naive_solver].
      destruct (decide (b ∈ pre)) as [Hp|Hp]; [|unfold ConstPropInvariant.opsOf; by rewrite (Hout b Hp)].
      rewrite (Hin b Hp), <- list_fmap_compose. apply list_fmap_ext. intros i op _. apply substitutedOp_idem.
    + intros c Hc. rewrite elem_of_app, list_elem_of_singleton in Hc. rewrite lookup_insert_ne by naive_solver. apply Hout. naive_solver.
    + intros Hf c. destruct (Hm' Hf) as [Hf0 Hsame]. rewrite Hnew. destruct (decide (c = b)) as [->|Hne]; [|by apply Hm]. rewrite Hcur, <- Hops, Hsame, <- Hcur. by apply Hm.
  - exists blocks', made. split; [exact Hr|done].
Qed.
End Globals.

(** C22: When every global register has its description and no constant global is
    written, [SubstituteLiterals] succeeds; every function has exactly the executions
    that it had, whatever other threads write to the globals that are not constant;
    no operation of a function reads a constant global afterwards; the blocks of no
    function stay; and if no substitution is reported, no operation has changed. *)
Theorem SubstituteLiterals_equivalent program globals functions blocks :
  globals_ok program globals ->
  (forall b, b ∈ concat (_basicBlocks <$> functions) -> is_Some (blocks !! b) /\ Forall (fun op => Forall (dst_ok program globals) (_dst (_operation op))) (opsOf Unscheduled blocks b)) ->
  exists blocks' made, SubstituteLiterals program globals functions blocks = Ok (blocks', made) /\
    (forall members start tr b k σ, (forall c, c ∈ members -> c ∈ concat (_basicBlocks <$> functions)) ->
       reaches program globals members (entry Unscheduled members start blocks) (opsOf Unscheduled blocks) tr b k σ <->
       reaches program globals members (entry Unscheduled members start blocks') (opsOf Unscheduled blocks') tr b k σ) /\
    (forall b op r l, b ∈ concat (_basicBlocks <$> functions) -> op ∈ opsOf Unscheduled blocks' b -> SrcRegister r ∈ _src (_operation op) ->
       ~ constantValue program globals (_registerIndex r) l) /\
    (forall b, b ∉ concat (_basicBlocks <$> functions) -> blocks' !! b = blocks !! b) /\
    (made = false -> forall b, opsOf Unscheduled blocks' b = opsOf Unscheduled blocks b).
Proof.
  intros Hg Hb. destruct (ComputeConstantGlobals_eq program globals Hg) as (M & HM & Hconst).
  destruct (substituteBlocks_eq M (concat (_basicBlocks <$> functions)) blocks) as (blocks' & made & Hr & Hin & Hout & Hmade); [intros b Hbb; by apply Hb|].
  exists blocks', made. unfold SubstituteLiterals. rewrite HM. cbn [mbind result_bind]. split; [exact Hr|]. split; [|split; [|done]].
  - intros members start tr b k σ Hsub. apply reaches_congruence.
    + intros c. apply entry_congruence; [intros d Hd; rewrite (Hin d (Hsub d Hd)); by rewrite length_fmap|]. intros d j op op' Hd Hj. rewrite (Hin d (Hsub d Hd)), list_lookup_fmap, Hj. by intros [= <-].
    + intros d Hd. rewrite (Hin d (Hsub d Hd)). by rewrite length_fmap.
    + intros d j op op' Hd Hj. rewrite (Hin d (Hsub d Hd)), list_lookup_fmap, Hj. intros [= <-]. apply (substituted_same program globals M Hconst). intros σ' (tr' & Hreach).
      eapply reaches_constants; [|exact Hreach]. intros c o Hc Ho. destruct (Hb c (Hsub c Hc)) as [_ Hf]. rewrite Forall_forall in Hf. by apply Hf.
  - intros b op r l Hbb Hop Hr' Hl. rewrite (Hin b Hbb) in Hop. apply list_elem_of_fmap in Hop as (op0 & -> & _). cbn in Hr'. apply list_elem_of_fmap in Hr' as (o & Ho & _).
    apply Hconst in Hl. destruct o as [|q| |]; try done. cbn in Ho. destruct (M !! _registerIndex q) eqn:Hq; [done|]. injection Ho as ->. congruence.
Qed.

(** ** A constant global that is printed *)

Definition demoProgram : Program := mkProgram [mkRegisterDescription 8 Global "g"%string; mkRegisterDescription 8 Global "h"%string].
Definition demoGlobals : gmap nat GlobalDesc := {[0%nat := mkGlobalDesc true true 7; 1%nat := mkGlobalDesc true false 9]}.
Definition demoPrint : FlowOperation := mkFlowOperation (mkOperation (Print []) 0 ∅ [SrcRegister (mkAccessedRegister 0); SrcRegister (mkAccessedRegister 1)] []) None ∅ ∅ false.
Definition demoBlocks : gmap nat FlowBlock := {[0%nat := mkFlowBlock [] [demoPrint] [] 0 [] [] [] None]}.
Definition demoFunctions : list FlowFunction := [mkFlowFunction [0%nat] (Some 0%nat) false].

Lemma SubstituteLiterals_equivalent_witness :
  ('(blocks', made) ← SubstituteLiterals demoProgram demoGlobals demoFunctions demoBlocks;
   Ok ((fun op => _src (_operation op)) <$> opsOf Unscheduled blocks' 0, made)) = Ok ([[SrcLiteral (mkLiteral 7 8); SrcRegister (mkAccessedRegister 1)]], true) /\
  exists blocks' made, SubstituteLiterals demoProgram demoGlobals demoFunctions demoBlocks = Ok (blocks', made) /\
    (forall members start tr b k σ, (forall c, c ∈ members -> c ∈ concat (_basicBlocks <$> demoFunctions)) ->
       reaches demoProgram demoGlobals members (entry Unscheduled members start demoBlocks) (opsOf Unscheduled demoBlocks) tr b k σ <->
       reaches demoProgram demoGlobals members (entry Unscheduled members start blocks') (opsOf Unscheduled blocks') tr b k σ) /\
    (forall b op r l, b ∈ concat (_basicBlocks <$> demoFunctions) -> op ∈ opsOf Unscheduled blocks' b -> SrcRegister r ∈ _src (_operation op) ->
       ~ constantValue demoProgram demoGlobals (_registerIndex r) l) /\
    (forall b, b ∉ concat (_basicBlocks <$> demoFunctions) -> blocks' !! b = demoBlocks !! b) /\
    (made = false -> forall b, opsOf Unscheduled blocks' b = opsOf Unscheduled demoBlocks b).
Proof.
  split; [vm_compute; reflexivity|]. apply SubstituteLiterals_equivalent.
  - intros [|[|r]] d Hd Ht; [by eexists..|done].
  - intros b Hb. cbn in Hb. apply list_elem_of_singleton in Hb as ->. split; [by eexists|]. repeat constructor.
Defined.

End ConstPropGlobals.
