(* ===== verification/Scheduler.v ===== *)
(** * The constraint scheduler

    [schedule.cpp]: the class [ConstraintScheduler], which assigns nodes to
    pipeline stages.

    An operation is its position in the basic block.  Constraint functions and
    the callback are closures over the data of the client: [World] is that data,
    and they take it and return it.  A constraint function also sees the maps of
    the scheduler, which it reads with [GetAtomicBlockPassIndex] and
    [GetAtomicBlockRegisterRatio]. *)

From S2P Require Import Prelude MachineInt Literals Ir.
Import MachineInt Containers Literals Ir.

Module Scheduler.

(** [AtomicBlockSchedulingPass] *)
Inductive AtomicBlockSchedulingPass : Type :=
| Default | IgnorePathLengthExceeded | IgnoreRegisterRatio | RemovePredication | ReadLatencyOne | Count.

Definition passNumber (pass : AtomicBlockSchedulingPass) : Z :=
  match pass with
  | Default => 0 | IgnorePathLengthExceeded => 1 | IgnoreRegisterRatio => 2 | RemovePredication => 3 | ReadLatencyOne => 4 | Count => 5
  end.

(** [std::numeric_limits<size_t>::max()] *)
Definition size_max : Z := 2 ^ 64 - 1.

Record Range : Type := mkRange { _begin : Z; _end : Z }.

Definition Infinite : Range := mkRange 0 size_max.

Definition Intersect (range rhs : Range) : Range := mkRange (Z.max (_begin range) (_begin rhs)) (Z.min (_end range) (_end rhs)).

(** [_atomicBlockPassIndex] and [_atomicBlockRegisterRatio] *)
Record AtomicBlockSettings : Type := mkAtomicBlockSettings {
  _atomicBlockPassIndex : gmap nat Z;
  _atomicBlockRegisterRatio : gmap nat Z }.

Definition GetAtomicBlockPassIndex (settings : AtomicBlockSettings) (op : nat) : result Z := SafeLookup (_atomicBlockPassIndex settings) op.
Definition GetAtomicBlockRegisterRatio (settings : AtomicBlockSettings) (op : nat) : result Z := SafeLookup (_atomicBlockRegisterRatio settings) op.

(** What the scheduler reads of [OperationListDependencyGraph] *)
Record AtomicBlocks : Type := mkAtomicBlocks {
  operationToAtomicBlockIndex : gmap nat (list nat);
  atomicBlockIndexToBeginAtomicOp : gmap nat nat;
  beginAtomicOpToAtomicBlockIndex : gmap nat nat;
  atomicBlockIndexToEndAtomicOp : gmap nat nat }.

(** [delay_map_t] *)
Notation delay_map_t := (gmap nat Z).

Section Scheduler.
Context {World : Type}.

Definition constraint_function_t : Type := AtomicBlockSettings -> World -> Z -> Range -> result (World * Range).
Definition schedule_function_t : Type := World -> nat -> Z -> result World.

Record Constraint : Type := mkConstraint { _targetNode : nat; _constraintFunction : constraint_function_t }.

Record Node : Type := mkNode {
  _pendingConstraints : Z;
  _totalConstraints : Z;
  _minPipelineStage : Z;
  _constraints : list Constraint;
  _allowedRange : Range;
  _operation : nat }.

Definition Reset (node : Node) : Node :=
  mkNode (_totalConstraints node) (_totalConstraints node) (_minPipelineStage node) (_constraints node)
    (mkRange (_minPipelineStage node) (_end Infinite)) (_operation node).

Record ConstraintScheduler : Type := mkConstraintScheduler { _nodes : list Node; _settings : AtomicBlockSettings }.

Definition emptyScheduler : ConstraintScheduler := mkConstraintScheduler [] (mkAtomicBlockSettings ∅ ∅).

Context (opcodes : list Opcode) (logicRegisterRatio maxLogicRegisterRatio : Z).

Definition AddNode (scheduler : ConstraintScheduler) (operation : nat) (minPipelineStage : Z) : result (ConstraintScheduler * nat) :=
  let n := mkNode 0 0 minPipelineStage [] Infinite operation in
  opcode ← at_ opcodes operation;
  let settings := match opcode with
                  | BeginAtomic => mkAtomicBlockSettings (<[operation := 0]> (_atomicBlockPassIndex (_settings scheduler)))
                                     (<[operation := logicRegisterRatio]> (_atomicBlockRegisterRatio (_settings scheduler)))
                  | _ => _settings scheduler
                  end in
  Ok (mkConstraintScheduler (_nodes scheduler ++ [n]) settings, length (_nodes scheduler)).

Definition AddConstraint (scheduler : ConstraintScheduler) (src dst : nat) (constraintFunction : constraint_function_t) : result ConstraintScheduler :=
  assert_ (src <? length (_nodes scheduler))%nat;;
  assert_ (dst <? length (_nodes scheduler))%nat;;
  assert_ (negb (src =? dst)%nat);;
  d ← at_ (_nodes scheduler) dst;
  let nodes := <[dst := mkNode (_pendingConstraints d) (u64_add (_totalConstraints d) 1) (_minPipelineStage d) (_constraints d) (_allowedRange d) (_operation d)]> (_nodes scheduler) in
  s ← at_ nodes src;
  Ok (mkConstraintScheduler
        (<[src := mkNode (_pendingConstraints s) (_totalConstraints s) (_minPipelineStage s) (_constraints s ++ [mkConstraint dst constraintFunction]) (_allowedRange s) (_operation s)]> nodes)
        (_settings scheduler)).

Context (scheduleCallback : schedule_function_t) (delayMap : delay_map_t) (dependencyGraph : AtomicBlocks).

(** The atomic blocks of an operation whose constraints cannot be satisfied *)
Definition failingBlocks (operation : nat) : result (list nat) :=
  match operationToAtomicBlockIndex dependencyGraph !! operation with
  | None =>
      opcode ← at_ opcodes operation;
      assert_ (match opcode with BeginAtomic => true | _ => false end);;
      atomicBlockIndex ← SafeLookup (beginAtomicOpToAtomicBlockIndex dependencyGraph) operation;
      Ok [atomicBlockIndex]
  | Some atomicBlockIndices => Ok atomicBlockIndices
  end.

(** The state of the loop over the ready nodes *)
Record progress : Type := mkProgress {
  _scheduled : list Node;
  _world : World;
  _newReadyNodes : list nat;
  _numScheduledNodes : nat }.

(** One constraint of a node that was scheduled: the state is the nodes, the
    world, [newReadyNodes] and [failingAtomicBlockIndices] *)
Definition processConstraint (settings : AtomicBlockSettings) (selectedPipelineStage : Z)
    (st : list Node * World * list nat * gset nat) (constraint : Constraint) : result (list Node * World * list nat * gset nat) :=
  let '(nodes, world, newReadyNodes, failing) := st in
  targetNode ← at_ nodes (_targetNode constraint);
  '(world, range) ← _constraintFunction constraint settings world selectedPipelineStage (_allowedRange targetNode);
  if _end range <=? _begin range then
    blocks ← failingBlocks (_operation targetNode);
    Ok (<[_targetNode constraint := mkNode (_pendingConstraints targetNode) (_totalConstraints targetNode) (_minPipelineStage targetNode) (_constraints targetNode) range (_operation targetNode)]> nodes,
        world, newReadyNodes, list_to_set blocks ∪ failing)
  else
    assert_ (0 <? _pendingConstraints targetNode);;
    let pendingConstraints := _pendingConstraints targetNode - 1 in
    Ok (<[_targetNode constraint := mkNode pendingConstraints (_totalConstraints targetNode) (_minPipelineStage targetNode) (_constraints targetNode) range (_operation targetNode)]> nodes,
        world, if pendingConstraints =? 0 then newReadyNodes ++ [_targetNode constraint] else newReadyNodes, failing).

(** The settings of the first block, from the last one backwards, that can be relaxed *)
Fixpoint relaxBlocks (settings : AtomicBlockSettings) (atomicBlockIndices : list nat) : result (option AtomicBlockSettings) :=
  match atomicBlockIndices with
  | [] => Ok None
  | atomicBlockIndex :: rest =>
      beginAtomicOp ← SafeLookup (atomicBlockIndexToBeginAtomicOp dependencyGraph) atomicBlockIndex;
      previousPass ← SafeLookup (_atomicBlockPassIndex settings) beginAtomicOp;
      previousRegisterRatio ← SafeLookup (_atomicBlockRegisterRatio settings) beginAtomicOp;
      if previousRegisterRatio <? maxLogicRegisterRatio then
        Ok (Some (mkAtomicBlockSettings (_atomicBlockPassIndex settings) (<[beginAtomicOp := previousRegisterRatio + 1]> (_atomicBlockRegisterRatio settings))))
      else if previousPass <? passNumber Count then
        Ok (Some (mkAtomicBlockSettings (<[beginAtomicOp := previousPass + 1]> (_atomicBlockPassIndex settings)) (_atomicBlockRegisterRatio settings)))
      else relaxBlocks settings rest
  end.

(** The stage that is selected for a node *)
Definition selectStage (nodeIndex : nat) (allowedRange : Range) : result Z :=
  assert_ (_begin allowedRange <? _end allowedRange);;
  desiredDelay ← SafeLookup delayMap nodeIndex;
  let selectedPipelineStage := Z.min (u64_add (_begin allowedRange) desiredDelay) (_end allowedRange - 1) in
  assert_ (_begin allowedRange <=? selectedPipelineStage);;
  assert_ (selectedPipelineStage <? _end allowedRange);;
  Ok selectedPipelineStage.

(** One ready node; [inr] returns [false] from [Schedule] *)
Definition scheduleNode (settings : AtomicBlockSettings) (p : progress) (nodeIndex : nat) : result (progress + (AtomicBlockSettings * list Node * World)) :=
  node ← at_ (_scheduled p) nodeIndex;
  assert_ (_pendingConstraints node =? 0);;
  selectedPipelineStage ← selectStage nodeIndex (_allowedRange node);
  world ← scheduleCallback (_world p) nodeIndex selectedPipelineStage;
  '(nodes, world, newReadyNodes, failing) ← foldM (processConstraint settings selectedPipelineStage) (_constraints node) (_scheduled p, world, _newReadyNodes p, ∅);
  if bool_decide (failing = ∅) then Ok (inl (mkProgress nodes world newReadyNodes (S (_numScheduledNodes p))))
  else
    relaxed ← relaxBlocks settings (reverse (set_elements failing));
    match relaxed with
    | Some settings' => Ok (inr (settings', nodes, world))
    | None => Err RuntimeError
    end.

Fixpoint scheduleReady (settings : AtomicBlockSettings) (p : progress) (readyNodes : list nat) : result (progress + (AtomicBlockSettings * list Node * World)) :=
  match readyNodes with
  | [] => Ok (inl p)
  | nodeIndex :: rest =>
      r ← scheduleNode settings p nodeIndex;
      match r with inl p => scheduleReady settings p rest | inr failed => Ok (inr failed) end
  end.

Fixpoint scheduleLoop (fuel : nat) (settings : AtomicBlockSettings) (p : progress) (readyNodes : list nat) : result (progress + (AtomicBlockSettings * list Node * World)) :=
  match readyNodes with
  | [] => Ok (inl p)
  | _ =>
      match fuel with
      | O => Err OutOfFuel
      | S fuel =>
          r ← scheduleReady settings (mkProgress (_scheduled p) (_world p) [] (_numScheduledNodes p)) readyNodes;
          match r with inl p => scheduleLoop fuel settings p (_newReadyNodes p) | inr failed => Ok (inr failed) end
      end
  end.

Definition initialReady (nodes : list Node) : list nat :=
  omap (fun p => if _pendingConstraints p.2 =? 0 then Some p.1 else None) (zip (seq 0 (length nodes)) nodes).

Definition Schedule (scheduler : ConstraintScheduler) (world : World) : result (ConstraintScheduler * World * bool) :=
  let nodes := Reset <$> _nodes scheduler in
  r ← scheduleLoop (S (length nodes)) (_settings scheduler) (mkProgress nodes world [] 0) (initialReady nodes);
  match r with
  | inl p => assert_ (_numScheduledNodes p =? length (_scheduled p))%nat;; Ok (mkConstraintScheduler (_scheduled p) (_settings scheduler), _world p, true)
  | inr (settings, nodes, world) => Ok (mkConstraintScheduler nodes settings, world, false)
  end.

(** [scheduleOnce] of [ScheduleBasicBlock]: [clear] empties the schedule before each attempt. *)
Fixpoint scheduleOnce (clear : World -> World) (fuel : nat) (scheduler : ConstraintScheduler) (world : World) : result (ConstraintScheduler * World) :=
  match fuel with
  | O => Err OutOfFuel
  | S fuel =>
      '(scheduler, world, didSchedule) ← Schedule scheduler (clear world);
      if didSchedule : bool then Ok (scheduler, world) else scheduleOnce clear fuel scheduler world
  end.
End Scheduler.

End Scheduler.
