(* ===== verification/SchedulerFacts.v ===== *)
(** * The constraint scheduler: what a schedule keeps

    The constraint functions and the callback are those of any client that
    keeps the contract [client].  The constraints form a graph without cycles. *)

From S2P Require Import Prelude MachineInt Literals Ir Scheduler.
Import MachineInt Containers Literals Ir Scheduler.

Module SchedulerFacts.

Notation nonempty r := (_begin r < _end r).

Section Facts.
Context {World : Type}.
Notation Node := (Node (World := World)).
Notation Constraint := (Constraint (World := World)).
Context (opcodes : list Opcode) (maxLogicRegisterRatio : Z) (scheduleCallback : schedule_function_t (World := World)) (delayMap : delay_map_t) (dependencyGraph : AtomicBlocks).
Notation failingBlocks := (failingBlocks opcodes dependencyGraph).

(** ** What the client promises *)

(** The settings of a block can be looked up. *)
Definition relaxable (settings : AtomicBlockSettings) (i : nat) : Prop :=
  exists op, atomicBlockIndexToBeginAtomicOp dependencyGraph !! i = Some op /\ is_Some (_atomicBlockPassIndex settings !! op) /\ is_Some (_atomicBlockRegisterRatio settings !! op).

(** The blocks that are blamed when an operation cannot be placed *)
Definition blamed (settings : AtomicBlockSettings) (operation : nat) (blocks : list nat) : Prop :=
  failingBlocks operation = Ok blocks /\ blocks <> [] /\
  forall i, i ∈ blocks -> relaxable settings i.

Definition failable (settings : AtomicBlockSettings) (operation : nat) : Prop := exists blocks, blamed settings operation blocks.

#[export] Instance relaxable_dec settings i : Decision (relaxable settings i).
Proof.
  unfold relaxable. destruct (atomicBlockIndexToBeginAtomicOp dependencyGraph !! i) as [op|]; [|right; naive_solver].
  destruct (decide (is_Some (_atomicBlockPassIndex settings !! op) /\ is_Some (_atomicBlockRegisterRatio settings !! op))); [left; by exists op|right; naive_solver].
Defined.

#[export] Instance failable_dec settings operation : Decision (failable settings operation).
Proof.
  unfold failable, blamed. destruct (failingBlocks operation) as [blocks|]; [|right; naive_solver].
  destruct (decide (blocks <> [] /\ Forall (relaxable settings) blocks)) as [[H1 H2]|H]; [left; exists blocks; rewrite Forall_forall in H2; done|right].
  intros (b & [= <-] & H1 & H2). apply H. split; [done|]. by apply Forall_forall.
Defined.

(** A constraint only narrows the range; a range that is not empty begins at
    most [reach] stages after the source, and becomes empty only when an atomic
    block can be blamed. *)
Record constraint_ok (I : list nat -> World -> Prop) (reach : Z) (settings : AtomicBlockSettings) (operation : nat) (c : Constraint) : Prop := mk_constraint_ok {
  co_runs : forall done w stage range, I done w -> 0 <= stage -> exists w' range', _constraintFunction c settings w stage range = Ok (w', range') /\ I done w' /\
    _begin range <= _begin range' /\ _end range' <= _end range /\
    (nonempty range' -> _begin range' <= Z.max (_begin range) (stage + reach)) /\
    (~ failable settings operation -> nonempty range -> nonempty range') }.

Definition targets (node : Node) : list nat := _targetNode <$> _constraints node.

(** How many constraints of nodes that are not done target [d] *)
Definition outstanding (nodes : list Node) (done : list nat) (d : nat) : nat :=
  sum_list_with (fun s => if decide (s ∈ done) then 0%nat else from_option (fun node => count_occ Nat.eq_dec (targets node) d) 0%nat (nodes !! s)) (seq 0 (length nodes)).

Lemma outstanding_done nodes done s node d : nodes !! s = Some node -> s ∉ done ->
  outstanding nodes done d = (outstanding nodes (done ++ [s]) d + count_occ Nat.eq_dec (targets node) d)%nat.
Proof.
  intros Hs Hnd. unfold outstanding. set (f := fun (done : list nat) s => if decide (s ∈ done) then 0%nat else from_option (fun node => count_occ Nat.eq_dec (targets node) d) 0%nat (nodes !! s)).
  change (sum_list_with (f done) (seq 0 (length nodes)) = (sum_list_with (f (done ++ [s])) (seq 0 (length nodes)) + count_occ Nat.eq_dec (targets node) d)%nat).
  assert (Hother : forall x, x <> s -> f (done ++ [s]) x = f done x) by (intros x Hx; unfold f; destruct (decide (x ∈ done)), (decide (x ∈ done ++ [s])); set_solver).
  assert (Hself : f done s = count_occ Nat.eq_dec (targets node) d) by (unfold f; rewrite decide_False by done; by rewrite Hs).
  assert (Hself' : f (done ++ [s]) s = 0%nat) by (unfold f; rewrite decide_True by set_solver; done).
  assert (Hgen : forall l, NoDup l -> (s ∉ l -> sum_list_with (f done) l = sum_list_with (f (done ++ [s])) l) /\
    (s ∈ l -> sum_list_with (f done) l = (sum_list_with (f (done ++ [s])) l + count_occ Nat.eq_dec (targets node) d)%nat)).
  { induction l as [|x l IH]; intros Hl; [split; [done|set_solver]|]. apply NoDup_cons in Hl as [Hx Hl]. destruct (IH Hl) as [IH1 IH2]. cbn [sum_list_with]. split.
    - intros Hn. rewrite IH1 by set_solver. rewrite Hother by set_solver. done.
    - intros Hin. destruct (decide (x = s)) as [->|Hne]; [rewrite IH1 by done; rewrite Hself, Hself'; lia|]. rewrite IH2 by set_solver. rewrite Hother by done. lia. }
  apply Hgen; [apply NoDup_seq|]. apply elem_of_seq. apply lookup_lt_Some in Hs. lia.
Qed.

Lemma outstanding_source nodes done d : (0 < outstanding nodes done d)%nat -> exists s node c, nodes !! s = Some node /\ s ∉ done /\ c ∈ _constraints node /\ _targetNode c = d.
Proof.
  unfold outstanding. induction (seq 0 (length nodes)) as [|s l IH]; cbn [sum_list_with]; [lia|]. intros H.
  destruct (decide (s ∈ done)) as [|Hs]; [apply IH; lia|]. destruct (nodes !! s) as [node|] eqn:Hn; cbn [from_option] in H; [|apply IH; lia].
  destruct (decide (count_occ Nat.eq_dec (targets node) d = 0%nat)) as [H0|H0]; [apply IH; lia|].
  assert (Hin : In d (targets node)) by (apply (count_occ_In Nat.eq_dec); lia). apply list_elem_of_In, list_elem_of_fmap in Hin as (c & -> & Hc). by exists s, node, c.
Qed.

(** ** Well-formed schedulers *)

Definition same_static (node0 node : Node) : Prop :=
  _totalConstraints node = _totalConstraints node0 /\ _minPipelineStage node = _minPipelineStage node0 /\ _constraints node = _constraints node0 /\ _operation node = _operation node0.

(** Every node knows how many constraints target it, and [rank] grows along the constraints. *)
Record scheduler_ok (I : list nat -> World -> Prop) (reach slack : Z) (rank : nat -> nat) (settings : AtomicBlockSettings) (nodes : list Node) : Prop := mk_scheduler_ok {
  so_total : forall d node, nodes !! d = Some node -> _totalConstraints node = Z.of_nat (outstanding nodes [] d);
  so_target : forall s node c, nodes !! s = Some node -> c ∈ _constraints node -> (_targetNode c < length nodes)%nat;
  so_rank : forall s node c, nodes !! s = Some node -> c ∈ _constraints node -> (rank s < rank (_targetNode c))%nat;
  so_constraint : forall s node c target, nodes !! s = Some node -> c ∈ _constraints node -> nodes !! _targetNode c = Some target -> constraint_ok I reach settings (_operation target) c;
  so_callback : forall done w d stage, I done w -> d ∉ done -> (d < length nodes)%nat -> 0 <= stage -> exists w', scheduleCallback w d stage = Ok w' /\ I (done ++ [d]) w';
  so_reach : 0 <= reach;
  so_delay : forall d, (d < length nodes)%nat -> exists delay, delayMap !! d = Some delay /\ 0 <= delay <= slack;
  so_min : forall d node, nodes !! d = Some node -> 0 <= _minPipelineStage node <= slack;
  so_bound : forall d, (d < length nodes)%nat -> slack + (reach + slack) * Z.of_nat (rank d) + slack < size_max }.

(** ** Relaxing the settings *)

(** How often the settings can be relaxed *)
Definition slackOf (settings : AtomicBlockSettings) (op : nat) : nat :=
  (Z.to_nat (maxLogicRegisterRatio - default 0%Z (_atomicBlockRegisterRatio settings !! op))%Z + Z.to_nat (passNumber Count - default 0%Z (_atomicBlockPassIndex settings !! op))%Z)%nat.

Definition relaxations (settings : AtomicBlockSettings) : nat := sum_list_with (slackOf settings) (elements (dom (_atomicBlockPassIndex settings))).

Definition exhausted (settings : AtomicBlockSettings) (i : nat) : Prop :=
  exists op ratio pass, atomicBlockIndexToBeginAtomicOp dependencyGraph !! i = Some op /\ _atomicBlockRegisterRatio settings !! op = Some ratio /\
    _atomicBlockPassIndex settings !! op = Some pass /\ maxLogicRegisterRatio <= ratio /\ passNumber Count <= pass.

(** The settings of one block have been relaxed. *)
Definition relaxed (settings settings' : AtomicBlockSettings) : Prop :=
  dom (_atomicBlockPassIndex settings') = dom (_atomicBlockPassIndex settings) /\ dom (_atomicBlockRegisterRatio settings') = dom (_atomicBlockRegisterRatio settings) /\
  (relaxations settings' < relaxations settings)%nat.

Lemma sum_list_lt {A} (f g : A -> nat) l x : (forall y, y ∈ l -> (f y <= g y)%nat) -> x ∈ l -> (f x < g x)%nat -> (sum_list_with f l < sum_list_with g l)%nat.
Proof.
  intros Hle Hx Hlt. assert (Hgen : forall l', (forall y, y ∈ l' -> (f y <= g y)%nat) -> (sum_list_with f l' <= sum_list_with g l')%nat).
  { induction l' as [|y l' IH]; intros H; [done|]. cbn [sum_list_with]. pose proof (H y (list_elem_of_here _ _)). specialize (IH ltac:(set_solver)). lia. }
  induction l as [|y l IH]; [by apply not_elem_of_nil in Hx|]. cbn [sum_list_with]. apply elem_of_cons in Hx as [<-|Hx].
  - specialize (Hgen l ltac:(set_solver)). lia.
  - specialize (IH ltac:(set_solver) Hx). pose proof (Hle y (list_elem_of_here _ _)). lia.
Qed.

Lemma relaxed_intro settings1 settings2 op :
  dom (_atomicBlockPassIndex settings2) = dom (_atomicBlockPassIndex settings1) -> dom (_atomicBlockRegisterRatio settings2) = dom (_atomicBlockRegisterRatio settings1) ->
  op ∈ dom (_atomicBlockPassIndex settings1) -> (forall x, x <> op -> slackOf settings2 x = slackOf settings1 x) -> (slackOf settings2 op < slackOf settings1 op)%nat -> relaxed settings1 settings2.
Proof.
  intros Hd1 Hd2 Hop Hsame Hlt. split; [done|]. split; [done|]. unfold relaxations. rewrite Hd1. apply (sum_list_lt _ _ _ op); [|by apply elem_of_elements|done].
  intros y _. destruct (decide (y = op)) as [->|Hne]; [lia|by rewrite Hsame].
Qed.

Lemma relaxBlocks_eq settings1 indices : (forall i, i ∈ indices -> relaxable settings1 i) ->
  exists r, relaxBlocks maxLogicRegisterRatio dependencyGraph settings1 indices = Ok r /\
    match r with Some settings2 => relaxed settings1 settings2 | None => forall i, i ∈ indices -> exhausted settings1 i end.
Proof.
  induction indices as [|i rest IH]; intros Hall; cbn [relaxBlocks]; [exists None; split; [done|]; by intros i ?%not_elem_of_nil|].
  destruct (Hall i (list_elem_of_here _ _)) as (op & Hop & [pass Hpass] & [ratio Hratio]). unfold SafeLookup. rewrite Hop. cbn [of_option mbind result_bind]. rewrite Hpass. cbn [of_option mbind result_bind]. rewrite Hratio. cbn [of_option mbind result_bind].
  assert (Hin : op ∈ dom (_atomicBlockPassIndex settings1)) by (by apply elem_of_dom_2 in Hpass). assert (Hin' : op ∈ dom (_atomicBlockRegisterRatio settings1)) by (by apply elem_of_dom_2 in Hratio).
  destruct (Z.ltb_spec ratio maxLogicRegisterRatio) as [Hr|Hr].
  { eexists (Some _). split; [reflexivity|]. apply (relaxed_intro _ _ op); cbn [_atomicBlockPassIndex _atomicBlockRegisterRatio]; [done|rewrite dom_insert_L; set_solver|done| |]; unfold slackOf; cbn [_atomicBlockPassIndex _atomicBlockRegisterRatio].
    - intros x Hx. by rewrite lookup_insert_ne.
    - rewrite lookup_insert_eq, Hratio. cbn [default from_option id]. lia. }
  destruct (Z.ltb_spec pass (passNumber Count)) as [Hp|Hp].
  { eexists (Some _). split; [reflexivity|]. apply (relaxed_intro _ _ op); cbn [_atomicBlockPassIndex _atomicBlockRegisterRatio]; [rewrite dom_insert_L; set_solver|done|done| |]; unfold slackOf; cbn [_atomicBlockPassIndex _atomicBlockRegisterRatio].
    - intros x Hx. by rewrite lookup_insert_ne.
    - rewrite lookup_insert_eq, Hpass. cbn [default from_option id]. lia. }
  destruct IH as (r & Hrun & Hres); [intros j Hj; apply Hall; by right|]. exists r. split; [done|]. destruct r; [done|]. intros j [->|Hj]%elem_of_cons; [by exists op, ratio, pass|by apply Hres].
Qed.
(** ** The state of the loop *)

Context (I : list nat -> World -> Prop) (reach slack : Z) (rank : nat -> nat) (settings : AtomicBlockSettings) (nodes0 : list Node).
Context (Hok : scheduler_ok I reach slack rank settings nodes0).
Notation n := (length nodes0).

(** Where a node can begin *)
Definition beginBound (d : nat) : Z := slack + (reach + slack) * Z.of_nat (rank d).

(** A constraint has been applied for the stage of its source. *)
Definition applied (nodes : list Node) (c : Constraint) (stage : Z) : Prop :=
  exists w w' range range' target, _constraintFunction c settings w stage range = Ok (w', range') /\ nodes !! _targetNode c = Some target /\
    _begin range' <= _begin (_allowedRange target) /\ _end (_allowedRange target) <= _end range'.

(** The nodes after [sched] has been decided; [extra d] constraints of the last
    node still target [d]. *)
Record nodes_ok (sched : list (nat * Z)) (extra : nat -> nat) (nodes : list Node) (failing : gset nat) : Prop := mk_nodes_ok {
  no_static : Forall2 same_static nodes0 nodes;
  no_pending : forall d node, nodes !! d = Some node -> Z.of_nat (outstanding nodes0 sched.*1 d + extra d) <= _pendingConstraints node;
  no_exact : failing = ∅ -> forall d node, nodes !! d = Some node -> _pendingConstraints node = Z.of_nat (outstanding nodes0 sched.*1 d + extra d);
  no_done : forall d node, nodes !! d = Some node -> d ∈ sched.*1 -> _pendingConstraints node = 0;
  no_nonempty : forall d node, nodes !! d = Some node -> failing = ∅ \/ ~ failable settings (_operation node) -> nonempty (_allowedRange node);
  no_begin : forall d node, nodes !! d = Some node -> 0 <= _begin (_allowedRange node) /\ (nonempty (_allowedRange node) -> _begin (_allowedRange node) <= beginBound d);
  no_end : forall d node, nodes !! d = Some node -> _end (_allowedRange node) <= size_max;
  no_min : forall d node, nodes !! d = Some node -> _minPipelineStage node <= _begin (_allowedRange node);
  no_stage : forall d stage node, (d, stage) ∈ sched -> nodes !! d = Some node -> exists delay, delayMap !! d = Some delay /\
    stage = Z.min (_begin (_allowedRange node) + delay) (_end (_allowedRange node) - 1) /\ _begin (_allowedRange node) <= stage < _end (_allowedRange node);
  no_failing : forall i, i ∈ failing -> relaxable settings i }.

Definition lists_ok (sched : list (nat * Z)) (nodes : list Node) (ready : list nat) : Prop :=
  NoDup (sched.*1 ++ ready) /\ forall d, d ∈ sched.*1 ++ ready <-> exists node, nodes !! d = Some node /\ _pendingConstraints node = 0.

Lemma static_lookup nodes d node : Forall2 same_static nodes0 nodes -> nodes !! d = Some node -> exists node0, nodes0 !! d = Some node0 /\ same_static node0 node.
Proof. intros H Hd. destruct (Forall2_lookup_r _ _ _ _ _ H Hd) as (node0 & ? & ?). by exists node0. Qed.

Lemma static_length nodes : Forall2 same_static nodes0 nodes -> length nodes = n.
Proof. intros H. symmetry. by eapply Forall2_length. Qed.

Notation counts cs := (fun d => count_occ Nat.eq_dec (_targetNode <$> cs) d).

Definition withRange (node : Node) (pending : Z) (range : Range) : Node :=
  mkNode pending (_totalConstraints node) (_minPipelineStage node) (_constraints node) range (_operation node).

Lemma applied_narrower nodes d target pending range c stage :
  nodes !! d = Some target -> _begin (_allowedRange target) <= _begin range -> _end range <= _end (_allowedRange target) ->
  applied nodes c stage -> applied (<[d := withRange target pending range]> nodes) c stage.
Proof.
  intros Hd Hb He (w & w' & r & r' & t & Hf & Ht & H1 & H2). exists w, w', r, r'. destruct (decide (_targetNode c = d)) as [Heq|Hne].
  - rewrite Heq in *. rewrite Hd in Ht. injection Ht as <-. exists (withRange target pending range). split; [done|]. split; [apply list_lookup_insert_eq; by eapply lookup_lt_Some|]. cbn. lia.
  - exists t. rewrite list_lookup_insert_ne by done. done.
Qed.

Section Process.
Context (sched : list (nat * Z)) (stage : Z) (c : Constraint) (cs : list Constraint) (nodes : list Node) (w : World) (failing : gset nat) (newReady rest : list nat).
Context (Hn : nodes_ok sched (counts (c :: cs)) nodes failing) (HI : I sched.*1 w).
Context (target : Node) (Ht : nodes !! _targetNode c = Some target) (Hc : constraint_ok I reach settings (_operation target) c).
Context (Hstage : 0 <= stage) (Hreach : stage + reach <= beginBound (_targetNode c)).
Notation d := (_targetNode c).

Lemma target_pending : 0 < _pendingConstraints target.
Proof. pose proof (no_pending _ _ _ _ Hn d target Ht) as H. cbn in H. destruct (Nat.eq_dec d d) as [_|]; [|done]. lia. Qed.

Lemma target_open : d ∉ sched.*1.
Proof. intros Hd. pose proof (no_done _ _ _ _ Hn d target Ht Hd). pose proof target_pending. lia. Qed.

Lemma update_ok w' range pending failing' :
  _constraintFunction c settings w stage (_allowedRange target) = Ok (w', range) ->
  _begin (_allowedRange target) <= _begin range -> _end range <= _end (_allowedRange target) ->
  (nonempty range -> _begin range <= Z.max (_begin (_allowedRange target)) (stage + reach)) ->
  (failing' = ∅ \/ ~ failable settings (_operation target) -> nonempty range) -> (failing' = ∅ -> failing = ∅) ->
  _pendingConstraints target - 1 <= pending <= _pendingConstraints target -> (failing' = ∅ -> pending = _pendingConstraints target - 1) ->
  (forall i, i ∈ failing' -> relaxable settings i) ->
  nodes_ok sched (counts cs) (<[d := withRange target pending range]> nodes) failing' /\ applied (<[d := withRange target pending range]> nodes) c stage.
Proof.
  intros Hf Hb He Hbound Hne Hsub Hp Hpeq Hfail. pose proof target_open as Hopen. pose proof (lookup_lt_Some _ _ _ Ht) as Hlt.
  assert (Hcase : forall x node, <[d := withRange target pending range]> nodes !! x = Some node -> (x = d /\ node = withRange target pending range) \/ (x <> d /\ nodes !! x = Some node)).
  { intros x node Hx. destruct (decide (x = d)) as [->|Hxd]; [rewrite list_lookup_insert_eq in Hx by done; left; split; [done|congruence]|rewrite list_lookup_insert_ne in Hx by done; by right]. }
  assert (Hcount : forall x, count_occ Nat.eq_dec (_targetNode <$> c :: cs) x = (count_occ Nat.eq_dec (_targetNode <$> cs) x + if decide (x = d) then 1 else 0)%nat).
  { intros x. rewrite fmap_cons. cbn [count_occ]. destruct (Nat.eq_dec d x), (decide (x = d)); try congruence; lia. }
  split; [split|].
  - pose proof (no_static _ _ _ _ Hn) as Hs. destruct (static_lookup nodes d target Hs Ht) as (t0 & Ht0 & Hst). rewrite <- (list_insert_id nodes0 d t0 Ht0). apply Forall2_insert; [done|]. destruct Hst as (?&?&?&?). by repeat split.
  - intros x node Hx. destruct (Hcase x node Hx) as [[-> ->]|[Hxd Hx']].
    + pose proof (no_pending _ _ _ _ Hn d target Ht) as H. rewrite Hcount, decide_True in H by done. cbn [withRange _pendingConstraints]. lia.
    + pose proof (no_pending _ _ _ _ Hn x node Hx') as H. rewrite Hcount, decide_False in H by done. lia.
  - intros Hf' x node Hx. destruct (Hcase x node Hx) as [[-> ->]|[Hxd Hx']].
    + pose proof (no_exact _ _ _ _ Hn (Hsub Hf') d target Ht) as H. rewrite Hcount, decide_True in H by done. cbn [withRange _pendingConstraints]. rewrite (Hpeq Hf'). lia.
    + pose proof (no_exact _ _ _ _ Hn (Hsub Hf') x node Hx') as H. rewrite Hcount, decide_False in H by done. lia.
  - intros x node Hx Hxs. destruct (Hcase x node Hx) as [[-> ->]|[Hxd Hx']]; [done|]. by apply (no_done _ _ _ _ Hn x).
  - intros x node Hx Hcond. destruct (Hcase x node Hx) as [[-> ->]|[Hxd Hx']]; [by apply Hne|]. apply (no_nonempty _ _ _ _ Hn x node Hx'). destruct Hcond; [left; by apply Hsub|by right].
  - intros x node Hx. destruct (Hcase x node Hx) as [[-> ->]|[Hxd Hx']]; [|by apply (no_begin _ _ _ _ Hn)]. destruct (no_begin _ _ _ _ Hn d target Ht) as [H0 H1]. cbn [withRange _allowedRange]. split; [lia|].
    intros Hr. pose proof (Hbound Hr). assert (nonempty (_allowedRange target)) by lia. specialize (H1 ltac:(done)). lia.
  - intros x node Hx. destruct (Hcase x node Hx) as [[-> ->]|[Hxd Hx']]; [|by apply (no_end _ _ _ _ Hn x)]. pose proof (no_end _ _ _ _ Hn d target Ht). cbn [withRange _allowedRange]. lia.
  - intros x node Hx. destruct (Hcase x node Hx) as [[-> ->]|[Hxd Hx']]; [|by apply (no_min _ _ _ _ Hn x)]. pose proof (no_min _ _ _ _ Hn d target Ht). cbn [withRange _allowedRange _minPipelineStage]. lia.
  - intros x st node Hxs Hx. destruct (Hcase x node Hx) as [[-> ->]|[Hxd Hx']]; [|by apply (no_stage _ _ _ _ Hn x)]. destruct Hopen. apply list_elem_of_fmap. by exists (d, st).
  - done.
  - exists w, w', (_allowedRange target), range, (withRange target pending range). split; [done|]. split; [by apply list_lookup_insert_eq|]. done.
Qed.

Lemma processConstraint_eq : exists nodes' w' newReady' failing',
  processConstraint opcodes dependencyGraph settings stage (nodes, w, newReady, failing) c = Ok (nodes', w', newReady', failing') /\
  nodes_ok sched (counts cs) nodes' failing' /\ I sched.*1 w' /\ applied nodes' c stage /\ (forall c' stage', applied nodes c' stage' -> applied nodes' c' stage') /\
  (failing' = ∅ -> failing = ∅ /\ (lists_ok sched nodes (rest ++ newReady) -> lists_ok sched nodes' (rest ++ newReady'))).
Proof.
  destruct (co_runs _ _ _ _ _ Hc sched.*1 w stage (_allowedRange target) HI Hstage) as (w' & range & Hf & HI' & Hb & He & Hbound & Hflex).
  unfold processConstraint. rewrite (at_Some _ _ _ Ht). cbn [mbind result_bind]. rewrite Hf. cbn [mbind result_bind]. pose proof target_pending as Hpend. pose proof (lookup_lt_Some _ _ _ Ht) as Hlt.
  destruct (Z.leb_spec (_end range) (_begin range)) as [Hempty|Hnonempty].
  - destruct (decide (failable settings (_operation target))) as [(blocks & Hblocks & Hne & Hall)|Hnf].
    + rewrite Hblocks. cbn [mbind result_bind]. eexists _, w', newReady, _. split; [reflexivity|]. assert (Hsome : (list_to_set blocks ∪ failing : gset nat) <> ∅) by (destruct blocks as [|i blocks]; [done|cbn; set_solver]).
      destruct (update_ok w' range (_pendingConstraints target) (list_to_set blocks ∪ failing) Hf Hb He Hbound) as [H1 H2]; try done; try lia.
      { intros [|Hnf]; [done|]. destruct Hnf. by exists blocks. }
      { intros i Hi. apply elem_of_union in Hi as [Hi|Hi]; [apply elem_of_list_to_set in Hi; by apply Hall|by apply (no_failing _ _ _ _ Hn)]. }
      split; [exact H1|]. split; [done|]. split; [exact H2|]. split; [intros c' st'; by apply applied_narrower|done].
    + exfalso. assert (nonempty (_allowedRange target)) by (apply (no_nonempty _ _ _ _ Hn d target Ht); by right). specialize (Hflex Hnf ltac:(done)). lia.
  - rewrite (proj2 (Z.ltb_lt 0 _) Hpend). cbn [assert_ mbind result_bind]. eexists _, w', _, failing. split; [reflexivity|].
    destruct (update_ok w' range (_pendingConstraints target - 1) failing Hf Hb He Hbound) as [H1 H2]; try done; try lia; [by apply (no_failing _ _ _ _ Hn)|].
    split; [exact H1|]. split; [done|]. split; [exact H2|]. split; [intros c' st'; by apply applied_narrower|]. intros Hempty. split; [done|]. intros [Hnd Hiff].
    assert (Hnin : d ∉ sched.*1 ++ rest ++ newReady) by (intros (node & Hd & H0)%Hiff; rewrite Ht in Hd; injection Hd as <-; lia).
    assert (Hset : forall x, (exists node, <[d := withRange target (_pendingConstraints target - 1) range]> nodes !! x = Some node /\ _pendingConstraints node = 0) <->
      (x = d /\ _pendingConstraints target - 1 = 0) \/ (x <> d /\ x ∈ sched.*1 ++ rest ++ newReady)).
    { intros x. rewrite Hiff. destruct (decide (x = d)) as [->|Hxd]; [rewrite list_lookup_insert_eq by done|rewrite list_lookup_insert_ne by done]; naive_solver. }
    destruct (Z.eqb_spec (_pendingConstraints target - 1) 0) as [H0|H0].
    + split.
      * replace (sched.*1 ++ rest ++ newReady ++ [d]) with ((sched.*1 ++ rest ++ newReady) ++ [d]) by (by rewrite <- !app_assoc). apply NoDup_app. split; [done|]. split; [|apply NoDup_singleton]. by intros x Hx ->%list_elem_of_singleton.
      * intros x. rewrite Hset. replace (sched.*1 ++ rest ++ newReady ++ [d]) with ((sched.*1 ++ rest ++ newReady) ++ [d]) by (by rewrite <- !app_assoc).
        rewrite elem_of_app, list_elem_of_singleton. destruct (decide (x = d)) as [->|]; naive_solver.
    + split; [done|]. intros x. rewrite Hset. destruct (decide (x = d)) as [->|]; naive_solver.
Qed.
End Process.

(** All constraints of a node *)
Lemma processConstraints_eq sched stage rest cs : forall nodes w newReady failing,
  nodes_ok sched (counts cs) nodes failing -> I sched.*1 w -> 0 <= stage ->
  (forall c, c ∈ cs -> stage + reach <= beginBound (_targetNode c) /\ exists target, nodes0 !! _targetNode c = Some target /\ constraint_ok I reach settings (_operation target) c) ->
  exists nodes' w' newReady' failing', foldM (processConstraint opcodes dependencyGraph settings stage) cs (nodes, w, newReady, failing) = Ok (nodes', w', newReady', failing') /\
    nodes_ok sched (fun _ => 0%nat) nodes' failing' /\ I sched.*1 w' /\ (forall c, c ∈ cs -> applied nodes' c stage /\ _targetNode c ∉ sched.*1) /\
    (forall c' stage', applied nodes c' stage' -> applied nodes' c' stage') /\
    (failing' = ∅ -> failing = ∅ /\ (lists_ok sched nodes (rest ++ newReady) -> lists_ok sched nodes' (rest ++ newReady'))).
Proof.
  induction cs as [|c cs IH]; intros nodes w newReady failing Hn HI Hst Hcs.
  - exists nodes, w, newReady, failing. split; [done|]. split; [exact Hn|]. split; [done|]. split; [by intros c ?%not_elem_of_nil|done].
  - destruct (Hcs c (list_elem_of_here _ _)) as (Hreach & t0 & Ht0 & Hc). destruct (Forall2_lookup_l _ _ _ _ _ (no_static _ _ _ _ Hn) Ht0) as (target & Ht & Hstat).
    assert (Hc' : constraint_ok I reach settings (_operation target) c) by (destruct Hstat as (_ & _ & _ & ->); done).
    destruct (processConstraint_eq sched stage c cs nodes w failing newReady rest Hn HI target Ht Hc' Hst Hreach) as (n1 & w1 & r1 & f1 & H1 & Hn1 & HI1 & Happ1 & Hkeep1 & Hl1).
    destruct (IH n1 w1 r1 f1 Hn1 HI1 Hst) as (n2 & w2 & r2 & f2 & H2 & Hn2 & HI2 & Happ2 & Hkeep2 & Hl2); [intros c' Hc''; apply Hcs; by right|].
    exists n2, w2, r2, f2. cbn [foldM]. rewrite H1. cbn [mbind result_bind]. split; [done|]. split; [done|]. split; [done|]. split; [|split; [auto|]].
    + intros c' [->|Hin]%elem_of_cons; [split; [by apply Hkeep2|]|by apply Happ2]. by eapply target_open.
    + intros Hf. destruct (Hl2 Hf) as [Hf1 Hl2']. destruct (Hl1 Hf1) as [Hf0 Hl1']. split; [done|]. auto.
Qed.

End Facts.

(** The parameters are inferred. *)
Arguments no_static {World opcodes delayMap dependencyGraph reach slack rank settings nodes0 sched extra nodes failing}.
Arguments no_pending {World opcodes delayMap dependencyGraph reach slack rank settings nodes0 sched extra nodes failing}.
Arguments no_exact {World opcodes delayMap dependencyGraph reach slack rank settings nodes0 sched extra nodes failing}.
Arguments no_done {World opcodes delayMap dependencyGraph reach slack rank settings nodes0 sched extra nodes failing}.
Arguments no_nonempty {World opcodes delayMap dependencyGraph reach slack rank settings nodes0 sched extra nodes failing}.
Arguments no_begin {World opcodes delayMap dependencyGraph reach slack rank settings nodes0 sched extra nodes failing}.
Arguments no_end {World opcodes delayMap dependencyGraph reach slack rank settings nodes0 sched extra nodes failing}.
Arguments no_min {World opcodes delayMap dependencyGraph reach slack rank settings nodes0 sched extra nodes failing}.
Arguments no_stage {World opcodes delayMap dependencyGraph reach slack rank settings nodes0 sched extra nodes failing}.
Arguments no_failing {World opcodes delayMap dependencyGraph reach slack rank settings nodes0 sched extra nodes failing}.
Arguments so_total {World opcodes scheduleCallback delayMap dependencyGraph I reach slack rank settings nodes}.
Arguments so_target {World opcodes scheduleCallback delayMap dependencyGraph I reach slack rank settings nodes}.
Arguments so_rank {World opcodes scheduleCallback delayMap dependencyGraph I reach slack rank settings nodes}.
Arguments so_constraint {World opcodes scheduleCallback delayMap dependencyGraph I reach slack rank settings nodes}.
Arguments so_callback {World opcodes scheduleCallback delayMap dependencyGraph I reach slack rank settings nodes}.
Arguments so_reach {World opcodes scheduleCallback delayMap dependencyGraph I reach slack rank settings nodes}.
Arguments so_delay {World opcodes scheduleCallback delayMap dependencyGraph I reach slack rank settings nodes}.
Arguments so_min {World opcodes scheduleCallback delayMap dependencyGraph I reach slack rank settings nodes}.
Arguments so_bound {World opcodes scheduleCallback delayMap dependencyGraph I reach slack rank settings nodes}.

End SchedulerFacts.
