(* ===== verification/SchedulerCorrect.v ===== *)
(** * The constraint scheduler is correct

    A schedule that is found places every node once, in an order and at a stage
    that every constraint allows; a schedule that is not found relaxes the
    settings of an atomic block, so that [scheduleOnce] ends. *)

From S2P Require Import Prelude MachineInt Literals Ir Scheduler SchedulerFacts.
Import MachineInt Containers Literals Ir Scheduler SchedulerFacts.

Module SchedulerCorrect.

Section Correct.
Context {World : Type}.
Notation Node := (Node (World := World)).
Notation Constraint := (Constraint (World := World)).
Notation progress := (progress (World := World)).
Context (opcodes : list Opcode) (maxLogicRegisterRatio : Z) (scheduleCallback : schedule_function_t (World := World)) (delayMap : delay_map_t) (dependencyGraph : AtomicBlocks).

Section Attempt.
Context (I : list nat -> World -> Prop) (reach slack : Z) (rank : nat -> nat) (settings : AtomicBlockSettings) (nodes0 : list Node).
Context (Hok : scheduler_ok opcodes scheduleCallback delayMap dependencyGraph I reach slack rank settings nodes0).
Notation nodes_ok := (SchedulerFacts.nodes_ok opcodes delayMap dependencyGraph reach slack rank settings nodes0).
Notation applied := (applied settings).
Notation beginBound := (beginBound reach slack rank).

(** The state between two nodes: [sched] has been decided, [ready] comes next. *)
Record loop_ok (sched : list (nat * Z)) (ready : list nat) (p : progress) : Prop := mk_loop_ok {
  lo_nodes : nodes_ok sched (fun _ => 0%nat) (_scheduled p) ∅;
  lo_world : I sched.*1 (_world p);
  lo_lists : lists_ok sched (_scheduled p) (ready ++ _newReadyNodes p);
  lo_applied : forall s stage node c, (s, stage) ∈ sched -> nodes0 !! s = Some node -> c ∈ _constraints node -> applied (_scheduled p) c stage;
  lo_order : forall l1 s stage l2 node c, sched = l1 ++ (s, stage) :: l2 -> nodes0 !! s = Some node -> c ∈ _constraints node -> _targetNode c ∉ l1.*1 /\ _targetNode c <> s;
  lo_count : _numScheduledNodes p = length sched }.

(** An attempt fails when a block cannot be relaxed any more, or after relaxing one. *)
Definition attempt (r : result (progress + (AtomicBlockSettings * list Node * World))) (P : progress -> Prop) : Prop :=
  match r with
  | Ok (inl p) => P p
  | Ok (inr (settings', nodes, w)) => relaxed maxLogicRegisterRatio settings settings' /\ Forall2 same_static nodes0 nodes /\ exists done, I done w
  | Err e => e = RuntimeError /\ exists i, exhausted maxLogicRegisterRatio dependencyGraph settings i
  end.

Lemma attempt_mono r (P Q : progress -> Prop) : attempt r P -> (forall p, P p -> Q p) -> attempt r Q.
Proof. unfold attempt. destruct r as [[p|[[s n] w]]|e]; auto. Qed.

(** A node that is decided *)
Lemma selected_ok sched d node stage nodes :
  nodes_ok sched (fun _ => 0%nat) nodes ∅ -> nodes0 !! d = Some node -> d ∉ sched.*1 -> (exists x, nodes !! d = Some x /\ _pendingConstraints x = 0) ->
  (forall x, nodes !! d = Some x -> exists delay, delayMap !! d = Some delay /\ stage = Z.min (_begin (_allowedRange x) + delay) (_end (_allowedRange x) - 1) /\ _begin (_allowedRange x) <= stage < _end (_allowedRange x)) ->
  nodes_ok (sched ++ [(d, stage)]) (fun x => count_occ Nat.eq_dec (targets node) x) nodes ∅.
Proof.
  intros H Hd Hnin (x0 & Hx0 & Hpend) Hstage. pose proof (fun x => outstanding_done nodes0 sched.*1 d node x Hd Hnin) as Hout.
  destruct H as [Hs Hp He Hdone Hne Hb Hend Hmin Hst Hfail]. split; try done.
  - intros x y Hy. specialize (Hp x y Hy). rewrite fmap_app. cbn [fmap list_fmap fst]. specialize (Hout x). lia.
  - intros _ x y Hy. specialize (He eq_refl x y Hy). rewrite fmap_app. cbn [fmap list_fmap fst]. specialize (Hout x). lia.
  - intros x y Hy Hin. rewrite fmap_app, elem_of_app in Hin. destruct Hin as [Hin|Hin]; [by apply (Hdone x)|]. cbn in Hin. apply list_elem_of_singleton in Hin as ->. congruence.
  - intros x st y Hin Hy. apply elem_of_app in Hin as [Hin|Hin]; [by apply (Hst x)|]. apply list_elem_of_singleton in Hin. injection Hin as -> ->. by apply Hstage.
Qed.

Lemma scheduleNode_eq sched d rest p : loop_ok sched (d :: rest) p ->
  attempt (scheduleNode opcodes maxLogicRegisterRatio scheduleCallback delayMap dependencyGraph settings p d) (fun p' => exists stage, loop_ok (sched ++ [(d, stage)]) rest p').
Proof.
  intros [Hn HI [Hnd Hready] Happ Hord Hcnt]. destruct (proj1 (Hready d)) as (node & Hnode & Hpend); [rewrite elem_of_app; right; by left|].
  destruct (static_lookup _ _ _ _ (no_static Hn) Hnode) as (node0 & Hnode0 & Hstat). pose proof (lookup_lt_Some _ _ _ Hnode0) as Hlt.
  assert (Hdn : d ∉ sched.*1).
  { apply NoDup_app in Hnd as (_ & Hdis & _). intros Hin. apply (Hdis d Hin). by left. }
  unfold scheduleNode. rewrite (at_Some _ _ _ Hnode). cbn [mbind result_bind]. rewrite Hpend. cbn [assert_ Z.eqb mbind result_bind].
  pose proof (no_nonempty Hn d node Hnode (or_introl eq_refl)) as Hne. destruct (no_begin Hn d node Hnode) as [Hb0 Hbb]. specialize (Hbb Hne).
  pose proof (no_end Hn d node Hnode) as Hend.
  destruct (so_delay Hok d Hlt) as (delay & Hdelay & Hdb). pose proof (so_bound Hok d Hlt) as Hbound.
  assert (Hsum : u64_add (_begin (_allowedRange node)) delay = _begin (_allowedRange node) + delay).
  { unfold u64_add. apply u64_small. unfold SchedulerFacts.beginBound, size_max in *. unfold is_u64. lia. }
  set (stage := Z.min (_begin (_allowedRange node) + delay) (_end (_allowedRange node) - 1)).
  assert (Hsel : selectStage delayMap d (_allowedRange node) = Ok stage).
  { unfold selectStage, SafeLookup. rewrite Hdelay. rewrite (proj2 (Z.ltb_lt _ _)) by done. cbn [assert_ of_option mbind result_bind]. rewrite Hsum. fold stage.
    rewrite (proj2 (Z.leb_le _ _)), (proj2 (Z.ltb_lt _ _)) by (unfold stage; lia). done. }
  rewrite Hsel. cbn [mbind result_bind]. destruct (so_callback Hok sched.*1 (_world p) d stage HI Hdn Hlt ltac:(unfold stage; lia)) as (w1 & Hcb & HI1).
  rewrite Hcb. cbn [mbind result_bind]. assert (HI1' : I (sched ++ [(d, stage)]).*1 w1) by (by rewrite fmap_app).
  assert (Hn1 : nodes_ok (sched ++ [(d, stage)]) (fun x => count_occ Nat.eq_dec (_targetNode <$> _constraints node) x) (_scheduled p) ∅).
  { destruct Hstat as (_ & _ & Hcons & _). rewrite Hcons. apply (selected_ok sched d node0 stage); [done|done|done|by exists node|]. intros x Hx. rewrite Hnode in Hx. injection Hx as <-. exists delay. split; [done|]. split; [done|]. unfold stage. lia. }
  assert (Hlists : lists_ok (sched ++ [(d, stage)]) (_scheduled p) (rest ++ _newReadyNodes p)).
  { unfold lists_ok. rewrite fmap_app. cbn [fmap list_fmap fst]. rewrite <- app_assoc. by split. }
  destruct (processConstraints_eq opcodes scheduleCallback delayMap dependencyGraph I reach slack rank settings nodes0 Hok (sched ++ [(d, stage)]) stage rest (_constraints node) (_scheduled p) w1 (_newReadyNodes p) ∅ Hn1 HI1')
    as (n2 & w2 & r2 & f2 & Hrun & Hn2 & HI2 & Happ2 & Hkeep & Hl2).
  { unfold stage. lia. }
  { intros c Hc. destruct Hstat as (_ & _ & Hcons & _). rewrite Hcons in Hc. pose proof (so_target Hok d node0 c Hnode0 Hc) as Htl. pose proof (so_rank Hok d node0 c Hnode0 Hc) as Hrk.
    destruct (lookup_lt_is_Some_2 _ _ Htl) as [t Ht]. split; [|exists t; split; [done|by apply (so_constraint Hok d node0)]].
    unfold SchedulerFacts.beginBound in *. pose proof (so_reach Hok). unfold stage. nia. }
  rewrite Hrun. cbn [mbind result_bind]. case_bool_decide as Hf.
  - subst f2. destruct (Hl2 eq_refl) as [_ Hl]. specialize (Hl Hlists). exists stage. split; cbn [_scheduled _world _newReadyNodes _numScheduledNodes]; try done.
    + intros s st nd c Hin Hnd' Hc. apply elem_of_app in Hin as [Hin|Hin]; [by apply Hkeep, (Happ s st nd)|]. apply list_elem_of_singleton in Hin. injection Hin as -> ->.
      rewrite Hnode0 in Hnd'. injection Hnd' as <-. apply Happ2. by destruct Hstat as (_ & _ & -> & _).
    + intros l1 s st l2 nd c Heq Hnd' Hc. destruct (decide (s = d)) as [->|Hsd].
      * rewrite Hnode0 in Hnd'. injection Hnd' as <-. destruct (Happ2 c) as [_ Hnot]; [by destruct Hstat as (_ & _ & -> & _)|]. rewrite fmap_app in Hnot.
        split; [|intros Hself; apply Hnot, elem_of_app; right; rewrite Hself; by left]. intros Hin. apply Hnot. rewrite <- fmap_app, Heq, fmap_app. apply elem_of_app. by left.
      * destruct l2 as [|q l2 _] using rev_ind; [apply app_inj_tail in Heq as [_ Heq]; congruence|]. rewrite app_comm_cons, app_assoc in Heq. apply app_inj_tail in Heq as [-> _]. by eapply Hord.
    + rewrite Hcnt, length_app. cbn. lia.
  - destruct (relaxBlocks_eq maxLogicRegisterRatio dependencyGraph settings (reverse (set_elements f2))) as (r & Hr & Hres).
    { intros i Hi. apply (no_failing Hn2). by rewrite elem_of_reverse, elem_of_set_elements in Hi. }
    rewrite Hr. cbn [mbind result_bind]. destruct r as [settings'|]; cbn [attempt].
    + split; [done|]. split; [apply (no_static Hn2)|]. by eexists.
    + split; [done|]. destruct (set_choose_L _ Hf) as [i Hi]. exists i. apply Hres. by rewrite elem_of_reverse, elem_of_set_elements.
Qed.

Lemma scheduleReady_eq ready : forall sched p, loop_ok sched ready p ->
  attempt (scheduleReady opcodes maxLogicRegisterRatio scheduleCallback delayMap dependencyGraph settings p ready)
    (fun p' => exists sched', loop_ok (sched ++ sched') [] p' /\ sched'.*1 = ready).
Proof.
  induction ready as [|d rest IH]; intros sched p Hp; cbn [scheduleReady].
  - exists []. by rewrite app_nil_r.
  - pose proof (scheduleNode_eq sched d rest p Hp) as Hnode. destruct (scheduleNode _ _ _ _ _ _ _ d) as [[p1|[[s1 n1] w1]]|e]; cbn [mbind result_bind]; [|done|done].
    destruct Hnode as (stage & H1). eapply attempt_mono; [by apply (IH _ _ H1)|]. intros p2 (sched2 & H2 & Heq). exists ((d, stage) :: sched2). split; [by rewrite <- app_assoc in H2|]. cbn. by rewrite Heq.
Qed.

Lemma loop_bound sched ready p : loop_ok sched ready p -> (length sched + length (ready ++ _newReadyNodes p) <= length nodes0)%nat.
Proof.
  intros [Hn _ [Hnd Hiff] _ _ _]. rewrite <- (length_fmap fst sched), <- length_app. rewrite <- (length_seq (length nodes0) 0). apply submseteq_length, NoDup_submseteq; [done|].
  intros d Hd. apply Hiff in Hd as (node & Hd & _). apply elem_of_seq. apply lookup_lt_Some in Hd. rewrite (static_length _ _ (no_static Hn)) in Hd. lia.
Qed.

Lemma scheduleLoop_eq fuel : forall sched ready p, loop_ok sched ready p -> _newReadyNodes p = [] -> (length nodes0 < fuel + length sched)%nat ->
  attempt (scheduleLoop opcodes maxLogicRegisterRatio scheduleCallback delayMap dependencyGraph fuel settings p ready) (fun p' => exists sched', loop_ok sched' [] p' /\ _newReadyNodes p' = []).
Proof.
  induction fuel as [|fuel IH]; intros sched ready p Hp Hnew Hfuel; cbn [scheduleLoop].
  - pose proof (loop_bound _ _ _ Hp). lia.
  - destruct ready as [|d rest]; [by exists sched|]. set (p0 := mkProgress (_scheduled p) (_world p) [] (_numScheduledNodes p)).
    assert (Hp0 : loop_ok sched (d :: rest) p0). { destruct Hp as [H1 H2 H3 H4 H5 H6]. rewrite Hnew in H3. by split. }
    pose proof (scheduleReady_eq _ _ _ Hp0) as Hr. destruct (scheduleReady _ _ _ _ _ _ p0 (d :: rest)) as [[p1|[[s1 n1] w1]]|e]; cbn [mbind result_bind]; [|done|done].
    destruct Hr as (sched' & H1 & Heq). set (p2 := mkProgress (_scheduled p1) (_world p1) [] (_numScheduledNodes p1)).
    assert (H1' : loop_ok (sched ++ sched') (_newReadyNodes p1) p2).
    { destruct H1 as [G1 G2 G3 G4 G5 G6]. split; try done. cbn. by rewrite app_nil_r. }
    assert (Hlen : length sched' = S (length rest)) by (rewrite <- (length_fmap fst sched'), Heq; done).
    assert (Hstep : scheduleLoop opcodes maxLogicRegisterRatio scheduleCallback delayMap dependencyGraph fuel settings p1 (_newReadyNodes p1) =
      scheduleLoop opcodes maxLogicRegisterRatio scheduleCallback delayMap dependencyGraph fuel settings p2 (_newReadyNodes p1)).
    { destruct fuel; cbn [scheduleLoop]; (destruct (_newReadyNodes p1) eqn:Hq; [|done]); do 2 f_equal; unfold p2; destruct p1; cbn in *; by rewrite Hq. }
    rewrite Hstep. apply (IH (sched ++ sched')); [done|done|]. rewrite length_app. lia.
Qed.

(** When no node is ready any more every node has been decided. *)
Lemma loop_complete sched p : loop_ok sched [] p -> _newReadyNodes p = [] -> sched.*1 ≡ₚ seq 0 (length nodes0).
Proof.
  intros Hp Hnew. destruct Hp as [Hn _ [Hnd Hiff] _ _ _]. rewrite Hnew, app_nil_r in *. pose proof (static_length _ _ (no_static Hn)) as Hlen.
  apply NoDup_Permutation; [done|apply NoDup_seq|]. intros d. rewrite elem_of_seq. split.
  - intros Hd. apply Hiff in Hd as (node & Hd & _). apply lookup_lt_Some in Hd. lia.
  - intros [_ Hd]. cbn in Hd. assert (Hrank : forall k d, (rank d < k)%nat -> (d < length nodes0)%nat -> d ∈ sched.*1); [|by apply (Hrank (S (rank d)) d); [lia|]].
    clear d Hd. induction k as [|k IH]; [lia|]. intros d Hk Hd. destruct (lookup_lt_is_Some_2 (_scheduled p) d) as [node Hnode]; [lia|].
    apply Hiff. exists node. split; [done|]. rewrite (no_exact Hn eq_refl d node Hnode), Nat.add_0_r. destruct (decide (outstanding nodes0 sched.*1 d = 0%nat)) as [->|Hpos]; [done|].
    destruct (outstanding_source nodes0 sched.*1 d) as (s & node0 & c & Hs & Hns & Hc & Hd'); [lia|]. destruct Hns. apply IH; [|by eapply lookup_lt_Some].
    pose proof (so_rank Hok s node0 c Hs Hc). rewrite Hd' in *. lia.
Qed.

(** A schedule: every node once; a node is placed as early as its delay and the
    range that is left allow; a constraint was applied for the stage of its
    source, which is decided before its target, and the stage of the target is in
    the range that it returned. *)
Record schedule_ok (nodes : list Node) (sched : list (nat * Z)) : Prop := mk_schedule_ok {
  sc_nodes : sched.*1 ≡ₚ seq 0 (length nodes0);
  sc_stage : forall d stage node, (d, stage) ∈ sched -> nodes !! d = Some node -> exists delay, delayMap !! d = Some delay /\
    stage = Z.min (_begin (_allowedRange node) + delay) (_end (_allowedRange node) - 1) /\
    _begin (_allowedRange node) <= stage < _end (_allowedRange node) /\ _minPipelineStage node <= stage;
  sc_constraint : forall l1 s stage l2 node c, sched = l1 ++ (s, stage) :: l2 -> nodes0 !! s = Some node -> c ∈ _constraints node ->
    exists stage', (_targetNode c, stage') ∈ l2 /\
      exists w w' range range', _constraintFunction c settings w stage range = Ok (w', range') /\ _begin range' <= stage' < _end range' }.

Lemma loop_schedule sched p : loop_ok sched [] p -> _newReadyNodes p = [] -> schedule_ok (_scheduled p) sched.
Proof.
  intros Hp Hnew. pose proof (loop_complete sched p Hp Hnew) as Hall. destruct Hp as [Hn HI [Hnd Hiff] Happ Hord Hcnt]. split; [done| |].
  - intros d stage node Hin Hnode. destruct (no_stage Hn d stage node Hin Hnode) as (delay & H1 & H2 & H3). exists delay. pose proof (no_min Hn d node Hnode). split; [done|]. split; [done|]. split; [done|lia].
  - intros l1 s stage l2 node c Heq Hs Hc. destruct (Hord l1 s stage l2 node c Heq Hs Hc) as [Hn1 Hn2].
    assert (Ht : _targetNode c ∈ sched.*1) by (rewrite Hall; apply elem_of_seq; pose proof (so_target Hok s node c Hs Hc); lia).
    rewrite Heq, fmap_app, fmap_cons in Ht. apply elem_of_app in Ht as [?|Ht]; [done|]. apply elem_of_cons in Ht as [?|Ht]; [done|]. apply list_elem_of_fmap in Ht as ([t stage'] & Heqt & Hin). cbn in Heqt. subst t.
    exists stage'. split; [done|]. destruct (Happ s stage node c) as (w & w' & r & r' & target & Hf & Htarget & Hb & He); [rewrite Heq; apply elem_of_app; right; by left|done|done|].
    exists w, w', r, r'. split; [done|]. destruct (no_stage Hn (_targetNode c) stage' target) as (_ & _ & _ & Hst); [rewrite Heq; apply elem_of_app; right; by right|done|]. lia.
Qed.

Lemma static_refl (nodes : list Node) : Forall2 same_static nodes nodes.
Proof. apply Forall_Forall2_diag, Forall_true. by intros. Qed.

Lemma initial_ok w : I [] w -> loop_ok [] (initialReady (Reset <$> nodes0)) (mkProgress (Reset <$> nodes0) w [] 0).
Proof.
  intros HI. assert (Hlk : forall d node, (Reset <$> nodes0) !! d = Some node -> exists node0, nodes0 !! d = Some node0 /\ node = Reset node0).
  { intros d node Hd. rewrite list_lookup_fmap in Hd. destruct (nodes0 !! d) as [node0|]; [|done]. exists node0. by injection Hd as <-. }
  split; cbn [_scheduled _world _newReadyNodes _numScheduledNodes fmap list_fmap]; try done.
  - split.
    + apply Forall2_fmap_r. eapply Forall2_impl; [apply static_refl|]. intros x y (? & ? & ? & ?). by repeat split.
    + intros d node Hd. destruct (Hlk d node Hd) as (node0 & H0 & ->). cbn. rewrite (so_total Hok d node0 H0). lia.
    + intros _ d node Hd. destruct (Hlk d node Hd) as (node0 & H0 & ->). cbn. rewrite (so_total Hok d node0 H0), Nat.add_0_r. done.
    + by intros d node _ ?%not_elem_of_nil.
    + intros d node Hd _. destruct (Hlk d node Hd) as (node0 & H0 & ->). cbn. pose proof (so_min Hok d node0 H0). pose proof (so_bound Hok d (lookup_lt_Some _ _ _ H0)). pose proof (so_reach Hok). nia.
    + intros d node Hd. destruct (Hlk d node Hd) as (node0 & H0 & ->). cbn. pose proof (so_min Hok d node0 H0). pose proof (so_reach Hok). unfold SchedulerFacts.beginBound. split; [lia|intros _; nia].
    + intros d node Hd. destruct (Hlk d node Hd) as (node0 & H0 & ->). cbn. lia.
    + intros d node Hd. destruct (Hlk d node Hd) as (node0 & H0 & ->). cbn. lia.
    + by intros d stage node ?%not_elem_of_nil.
    + by intros i ?%elem_of_empty.
  - unfold lists_ok. cbn [fmap list_fmap app]. rewrite app_nil_r. unfold initialReady. rewrite length_fmap.
    assert (Hin : forall d, d ∈ omap (fun p : nat * Node => if _pendingConstraints p.2 =? 0 then Some p.1 else None) (zip (seq 0 (length nodes0)) (Reset <$> nodes0)) <->
      exists node, (Reset <$> nodes0) !! d = Some node /\ _pendingConstraints node = 0).
    { intros d. rewrite list_elem_of_omap. split.
      - intros ([i node] & Hz & Hp). cbn in Hp. destruct (Z.eqb_spec (_pendingConstraints node) 0) as [H0|]; [|done]. injection Hp as ->. exists node. split; [|done].
        apply list_elem_of_lookup in Hz as [j Hj]. apply lookup_zip_with_Some in Hj as (a & x & [= -> ->] & Ha & Hx). by apply lookup_seq in Ha as [-> _].
      - intros (node & Hd & H0). exists (d, node). cbn. rewrite H0. split; [|done]. apply list_elem_of_lookup. exists d. apply lookup_zip_with_Some. exists d, node. split; [done|]. split; [|done].
        apply lookup_seq. split; [done|]. apply lookup_lt_Some in Hd. by rewrite length_fmap in Hd. }
    split; [|exact Hin]. assert (Hnd : forall l start, NoDup (omap (fun p : nat * Node => if _pendingConstraints p.2 =? 0 then Some p.1 else None) (zip (seq start (length l)) l)) /\
      forall d, d ∈ omap (fun p : nat * Node => if _pendingConstraints p.2 =? 0 then Some p.1 else None) (zip (seq start (length l)) l) -> (start <= d)%nat).
    { induction l as [|x l IH]; intros start; [split; [constructor|by intros d ?%not_elem_of_nil]|]. cbn [length seq zip zip_with omap list_omap fst snd]. destruct (IH (S start)) as [IH1 IH2].
      destruct (_pendingConstraints x =? 0); [|split; [done|]; intros d Hd; specialize (IH2 d Hd); lia]. split; [constructor; [intros Hd; specialize (IH2 _ Hd); lia|done]|]. intros d [->|Hd]%elem_of_cons; [lia|]. specialize (IH2 d Hd). lia. }
    specialize (Hnd (Reset <$> nodes0) 0%nat). rewrite length_fmap in Hnd. apply Hnd.
  - by intros s stage node c ?%not_elem_of_nil.
  - intros l1 s stage l2 node c Heq. by destruct l1.
Qed.
End Attempt.

Notation Schedule := (Schedule opcodes maxLogicRegisterRatio scheduleCallback delayMap dependencyGraph).
Notation scheduler_ok := (scheduler_ok opcodes scheduleCallback delayMap dependencyGraph).

(** One attempt *)
Lemma Schedule_eq I reach slack rank settings nodes w : scheduler_ok I reach slack rank settings nodes -> I [] w ->
  match Schedule (mkConstraintScheduler nodes settings) w with
  | Ok (scheduler, w', true) => _settings scheduler = settings /\ Forall2 same_static nodes (_nodes scheduler) /\ exists sched, schedule_ok settings nodes (_nodes scheduler) sched /\ I sched.*1 w'
  | Ok (scheduler, w', false) => relaxed maxLogicRegisterRatio settings (_settings scheduler) /\ Forall2 same_static nodes (_nodes scheduler) /\ exists done, I done w'
  | Err e => e = RuntimeError /\ exists i, exhausted maxLogicRegisterRatio dependencyGraph settings i
  end.
Proof.
  intros Hok HI. pose proof (initial_ok I reach slack rank settings nodes Hok w HI) as H0. unfold Scheduler.Schedule. cbn [_nodes _settings].
  pose proof (scheduleLoop_eq I reach slack rank settings nodes Hok (S (length (Reset <$> nodes))) [] _ _ H0 eq_refl) as Hrun. rewrite length_fmap in *. specialize (Hrun ltac:(cbn; lia)).
  destruct (scheduleLoop _ _ _ _ _ _ _ _ _) as [[p|[[settings' nodes'] w']]|e]; cbn [mbind result_bind]; [|exact Hrun|exact Hrun].
  destruct Hrun as (sched & Hp & Hnew). pose proof (loop_schedule I reach slack rank settings nodes Hok sched p Hp Hnew) as Hs.
  assert (Hcount : (_numScheduledNodes p =? length (_scheduled p))%nat = true).
  { apply Nat.eqb_eq. rewrite (lo_count _ _ _ _ _ _ _ _ _ Hp), (static_length _ _ (no_static (lo_nodes _ _ _ _ _ _ _ _ _ Hp))).
    rewrite <- (length_fmap fst sched), (sc_nodes _ _ _ _ Hs). apply length_seq. }
  rewrite Hcount. cbn [assert_ mbind result_bind]. split; [done|]. split; [apply (no_static (lo_nodes _ _ _ _ _ _ _ _ _ Hp))|]. exists sched. split; [done|]. apply (lo_world _ _ _ _ _ _ _ _ _ Hp).
Qed.

Lemma outstanding_static (nodes nodes' : list Node) done d : Forall2 same_static nodes nodes' -> outstanding nodes' done d = outstanding nodes done d.
Proof.
  intros H. unfold outstanding. rewrite <- (Forall2_length _ _ _ H). induction (seq 0 (length nodes)) as [|s l IH]; [done|]. cbn [sum_list_with]. rewrite IH. f_equal. destruct (decide (s ∈ done)); [done|].
  destruct (nodes !! s) as [node|] eqn:Hs.
  - destruct (Forall2_lookup_l _ _ _ _ _ H Hs) as (node' & -> & _ & _ & Hc & _). cbn. unfold targets. by rewrite Hc.
  - destruct (nodes' !! s) as [node'|] eqn:Hs'; [|done]. destruct (Forall2_lookup_r _ _ _ _ _ H Hs') as (x & Hx & _). congruence.
Qed.

Lemma scheduler_ok_static I reach slack rank settings nodes nodes' : Forall2 same_static nodes nodes' -> scheduler_ok I reach slack rank settings nodes -> scheduler_ok I reach slack rank settings nodes'.
Proof.
  intros Hst [H1 H2 H3 H4 H5 H6 H7 H8 H9]. pose proof (Forall2_length _ _ _ Hst) as Hlen.
  assert (Hback : forall d node', nodes' !! d = Some node' -> exists node, nodes !! d = Some node /\ same_static node node') by (intros d node' Hd; destruct (Forall2_lookup_r _ _ _ _ _ Hst Hd) as (x & ? & ?); by exists x).
  split; rewrite <- ?Hlen; try done.
  - intros d node' Hd. destruct (Hback d node' Hd) as (node & Hn & -> & _). rewrite (outstanding_static nodes nodes' _ _ Hst). by apply H1.
  - intros s node' c Hs Hc. destruct (Hback s node' Hs) as (node & Hn & _ & _ & Hcs & _). rewrite Hcs in Hc. by eapply H2.
  - intros s node' c Hs Hc. destruct (Hback s node' Hs) as (node & Hn & _ & _ & Hcs & _). rewrite Hcs in Hc. by eapply H3.
  - intros s node' c target' Hs Hc Ht. destruct (Hback s node' Hs) as (node & Hn & _ & _ & Hcs & _). rewrite Hcs in Hc. destruct (Hback _ _ Ht) as (target & Htn & _ & _ & _ & ->). by apply (H4 s node c target).
  - intros d node' Hd. destruct (Hback d node' Hd) as (node & Hn & _ & -> & _). by eapply H8.
Qed.

(** All attempts *)
Lemma scheduleOnce_eq I reach slack rank nodes0 clear (settings0 : AtomicBlockSettings) :
  (forall settings, dom (_atomicBlockPassIndex settings) = dom (_atomicBlockPassIndex settings0) -> dom (_atomicBlockRegisterRatio settings) = dom (_atomicBlockRegisterRatio settings0) ->
    scheduler_ok I reach slack rank settings nodes0) ->
  (forall done w, I done w -> I [] (clear w)) ->
  forall fuel settings nodes w done, Forall2 same_static nodes0 nodes -> dom (_atomicBlockPassIndex settings) = dom (_atomicBlockPassIndex settings0) ->
    dom (_atomicBlockRegisterRatio settings) = dom (_atomicBlockRegisterRatio settings0) -> I done w -> (relaxations maxLogicRegisterRatio settings < fuel)%nat ->
  match scheduleOnce opcodes maxLogicRegisterRatio scheduleCallback delayMap dependencyGraph clear fuel (mkConstraintScheduler nodes settings) w with
  | Ok (scheduler, w') => exists sched, schedule_ok (_settings scheduler) nodes0 (_nodes scheduler) sched /\ I sched.*1 w' /\ Forall2 same_static nodes0 (_nodes scheduler) /\
      (relaxations maxLogicRegisterRatio (_settings scheduler) <= relaxations maxLogicRegisterRatio settings)%nat
  | Err e => e = RuntimeError /\ exists settings' i, exhausted maxLogicRegisterRatio dependencyGraph settings' i
  end.
Proof.
  intros Hok Hclear. assert (Htrans : forall l1 l2 l3 : list Node, Forall2 same_static l1 l2 -> Forall2 same_static l2 l3 -> Forall2 same_static l1 l3).
  { intros l1 l2 l3 H1 H2. eapply Forall2_compose; [|exact H1|exact H2]. intros x y z (a1 & a2 & a3 & a4) (b1 & b2 & b3 & b4). repeat split; congruence. }
  induction fuel as [|fuel IH]; intros settings nodes w done Hst Hd1 Hd2 HI Hfuel; [lia|]. cbn [scheduleOnce].
  pose proof (Hok settings Hd1 Hd2) as Hok0. pose proof (scheduler_ok_static _ _ _ _ _ _ _ Hst Hok0) as Hok1. pose proof (Schedule_eq I reach slack rank settings nodes (clear w) Hok1 (Hclear _ _ HI)) as H.
  destruct (Schedule (mkConstraintScheduler nodes settings) (clear w)) as [[[scheduler w'] [|]]|e]; cbn [mbind result_bind].
  - destruct H as (Hset & Hst1 & sched & Hs & HI'). exists sched. rewrite Hset. split; [|split; [done|split; [by eapply Htrans|done]]]. pose proof (Forall2_length _ _ _ Hst) as Hlen. destruct Hs as [S1 S2 S3]. split; [by rewrite Hlen|done|].
    intros l1 s stage l2 node c Heq Hs Hc. destruct (Forall2_lookup_l _ _ _ _ _ Hst Hs) as (node' & Hs' & _ & _ & Hcs & _). apply (S3 l1 s stage l2 node' c Heq Hs'). by rewrite Hcs.
  - destruct H as ((E1 & E2 & Hlt) & Hst' & done' & HI'). destruct scheduler as [nodes' settings']. cbn [_settings _nodes] in *.
    pose proof (Htrans _ _ _ Hst Hst') as Hst2.
    pose proof (IH settings' nodes' w' done' Hst2 ltac:(congruence) ltac:(congruence) HI' ltac:(lia)) as Hrec.
    destruct (scheduleOnce _ _ _ _ _ _ _ _ _) as [[sch2 w2]|e]; [|done]. destruct Hrec as (sched & Ha & Hb & Hc & Hle). exists sched. split; [done|]. split; [done|]. split; [done|lia].
  - destruct H as (-> & i & Hi). split; [done|]. by exists settings, i.
Qed.
End Correct.

End SchedulerCorrect.
