(* ===== verification/SchedulerBuild.v ===== *)
(** * Schedulers from their nodes and constraints

    A client adds its nodes and then its constraints.  [scheduleOnce] then finds
    a schedule or runs out of settings that could be relaxed. *)

From S2P Require Import Prelude MachineInt Literals Ir Scheduler SchedulerFacts SchedulerCorrect.
Import MachineInt Containers Literals Ir Scheduler SchedulerFacts SchedulerCorrect.

Module SchedulerBuild.

Section Build.
Context {World : Type}.
Notation Node := (Node (World := World)).
Notation Constraint := (Constraint (World := World)).
Notation constraint_function_t := (constraint_function_t (World := World)).
Notation ConstraintScheduler := (ConstraintScheduler (World := World)).
Context (opcodes : list Opcode) (logicRegisterRatio maxLogicRegisterRatio : Z).

(** A constraint between two nodes *)
Record edge : Type := mkEdge { _src : nat; _target : nat; _function : constraint_function_t }.

(** What a client adds: the operations with their first stages, then the constraints *)
Definition build (operations : list (nat * Z)) (edges : list edge) : result ConstraintScheduler :=
  scheduler ← foldM (fun scheduler o => '(scheduler, _) ← AddNode opcodes logicRegisterRatio scheduler o.1 o.2; Ok scheduler) operations emptyScheduler;
  foldM (fun scheduler e => AddConstraint scheduler (_src e) (_target e) (_function e)) edges scheduler.

Definition constraintsFrom (edges : list edge) (d : nat) : list Constraint :=
  omap (fun e => if decide (_src e = d) then Some (mkConstraint (_target e) (_function e)) else None) edges.

Definition nodeOf (edges : list edge) (d : nat) (o : nat * Z) : Node :=
  mkNode 0 (Z.of_nat (count_occ Nat.eq_dec (_target <$> edges) d)) o.2 (constraintsFrom edges d) Infinite o.1.

Definition nodesOf (operations : list (nat * Z)) (edges : list edge) : list Node := imap (nodeOf edges) operations.

Definition settingsOf (operations : list (nat * Z)) : AtomicBlockSettings :=
  fold_left (fun settings o => match opcodes !! o.1 with
                               | Some BeginAtomic => mkAtomicBlockSettings (<[o.1 := 0]> (_atomicBlockPassIndex settings)) (<[o.1 := logicRegisterRatio]> (_atomicBlockRegisterRatio settings))
                               | _ => settings
                               end) operations (mkAtomicBlockSettings ∅ ∅).

Lemma addNodes_eq operations : Forall (fun o => is_Some (opcodes !! o.1)) operations ->
  foldM (fun scheduler o => '(scheduler, _) ← AddNode opcodes logicRegisterRatio scheduler o.1 o.2; Ok scheduler) operations emptyScheduler
  = Ok (mkConstraintScheduler (nodesOf operations []) (settingsOf operations)).
Proof.
  induction operations as [|o operations IH] using rev_ind; [done|]. intros Hops. apply Forall_app in Hops as [Hops Ho]. apply Forall_singleton in Ho as [opcode Ho].
  rewrite foldM_app, (IH Hops). cbn [mbind result_bind foldM]. unfold AddNode. rewrite (at_Some _ _ _ Ho). cbn [mbind result_bind]. f_equal. f_equal.
  - unfold nodesOf. cbn [_nodes]. by rewrite imap_app.
  - unfold settingsOf. rewrite fold_left_app. cbn [fold_left]. rewrite Ho. by destruct opcode.
Qed.

Lemma nodesOf_lookup operations edges d : nodesOf operations edges !! d = nodeOf edges d <$> operations !! d.
Proof. unfold nodesOf. by rewrite list_lookup_imap. Qed.

Lemma count_snoc l (x d : nat) : count_occ Nat.eq_dec (l ++ [x]) d = (count_occ Nat.eq_dec l d + if decide (x = d) then 1 else 0)%nat.
Proof. rewrite count_occ_app. cbn [count_occ]. destruct (Nat.eq_dec x d), (decide (x = d)); congruence || lia. Qed.

Lemma addConstraint_eq operations edges e settings :
  (_src e < length operations)%nat -> (_target e < length operations)%nat -> _src e <> _target e -> Z.of_nat (length edges) + 1 < 2 ^ 64 ->
  AddConstraint (mkConstraintScheduler (nodesOf operations edges) settings) (_src e) (_target e) (_function e)
  = Ok (mkConstraintScheduler (nodesOf operations (edges ++ [e])) settings).
Proof.
  intros Hs Ht Hne Hlen. destruct (lookup_lt_is_Some_2 operations _ Hs) as [os Hos]. destruct (lookup_lt_is_Some_2 operations _ Ht) as [ot Hot].
  assert (Hl : length (nodesOf operations edges) = length operations) by (unfold nodesOf; by rewrite length_imap).
  unfold AddConstraint. cbn [_nodes _settings]. rewrite Hl, (proj2 (Nat.ltb_lt _ _)), (proj2 (Nat.ltb_lt _ _)), (proj2 (Nat.eqb_neq _ _)) by done. cbn [negb assert_ mbind result_bind].
  assert (Hdst : nodesOf operations edges !! _target e = Some (nodeOf edges (_target e) ot)) by (by rewrite nodesOf_lookup, Hot).
  assert (Hsrc : nodesOf operations edges !! _src e = Some (nodeOf edges (_src e) os)) by (by rewrite nodesOf_lookup, Hos).
  rewrite (at_Some _ _ _ Hdst). cbn [mbind result_bind]. erewrite at_Some by (rewrite list_lookup_insert_ne by done; exact Hsrc). cbn [mbind result_bind]. f_equal. f_equal.
  assert (Hcount : u64_add (_totalConstraints (nodeOf edges (_target e) ot)) 1 = Z.of_nat (count_occ Nat.eq_dec (_target <$> edges) (_target e) + 1)).
  { cbn. unfold u64_add. rewrite u64_small; [lia|]. unfold is_u64. pose proof (count_occ_bound Nat.eq_dec (_target e) (_target <$> edges)). rewrite length_fmap in *. lia. }
  apply list_eq. intros d. rewrite nodesOf_lookup. destruct (decide (d = _src e)) as [->|Hds]; [|destruct (decide (d = _target e)) as [->|Hdt]].
  - rewrite list_lookup_insert_eq by (rewrite length_insert; lia). rewrite Hos. cbn [fmap option_fmap option_map]. f_equal. unfold nodeOf. cbn [_pendingConstraints _totalConstraints _minPipelineStage _constraints _allowedRange _operation]. f_equal.
    + rewrite fmap_app. cbn [fmap list_fmap]. rewrite count_snoc, decide_False by done. f_equal. lia.
    + unfold constraintsFrom. rewrite omap_app. cbn. by rewrite decide_True.
  - rewrite list_lookup_insert_ne by done. rewrite list_lookup_insert_eq by lia. rewrite Hot. cbn [fmap option_fmap option_map]. f_equal. rewrite Hcount. unfold nodeOf. cbn [_pendingConstraints _totalConstraints _minPipelineStage _constraints _allowedRange _operation]. f_equal.
    + rewrite fmap_app. cbn [fmap list_fmap]. by rewrite count_snoc, decide_True.
    + unfold constraintsFrom. rewrite omap_app. cbn. rewrite decide_False by done. by rewrite app_nil_r.
  - rewrite !list_lookup_insert_ne by done. rewrite nodesOf_lookup. destruct (operations !! d) as [o|]; [|done]. cbn [fmap option_fmap option_map]. f_equal. unfold nodeOf. f_equal.
    + rewrite fmap_app. cbn [fmap list_fmap]. rewrite count_snoc, decide_False by done. f_equal. lia.
    + unfold constraintsFrom. rewrite omap_app. cbn. rewrite decide_False by done. by rewrite app_nil_r.
Qed.

Lemma build_eq operations edges :
  Forall (fun o => is_Some (opcodes !! o.1)) operations ->
  Forall (fun e => (_src e < length operations)%nat /\ (_target e < length operations)%nat /\ _src e <> _target e) edges -> Z.of_nat (length edges) < 2 ^ 64 ->
  build operations edges = Ok (mkConstraintScheduler (nodesOf operations edges) (settingsOf operations)).
Proof.
  intros Hops Hedges Hlen. unfold build. rewrite addNodes_eq by done. cbn [mbind result_bind].
  induction edges as [|e edges IH] using rev_ind; [done|]. apply Forall_app in Hedges as [Hedges He]. apply Forall_singleton in He as (Hs & Ht & Hne). rewrite length_app in Hlen. cbn in Hlen.
  rewrite foldM_app, IH by (done || lia). cbn [mbind result_bind foldM]. rewrite addConstraint_eq by (done || lia). done.
Qed.

(** Every constraint has a source. *)
Lemma outstanding_nodes operations edges d : Forall (fun e => (_src e < length operations)%nat) edges ->
  outstanding (nodesOf operations edges) [] d = count_occ Nat.eq_dec (_target <$> edges) d.
Proof.
  intros Hsrc. unfold outstanding. unfold nodesOf at 2. rewrite length_imap.
  assert (Heq : forall s, s ∈ seq 0 (length operations) -> from_option (fun node => count_occ Nat.eq_dec (targets node) d) 0%nat (nodesOf operations edges !! s) =
    count_occ Nat.eq_dec (_target <$> filter (fun e => _src e = s) edges) d).
  { intros s Hs. apply elem_of_seq in Hs. rewrite nodesOf_lookup. destruct (lookup_lt_is_Some_2 operations s) as [o ->]; [lia|]. cbn. unfold targets. cbn [_constraints nodeOf]. f_equal.
    clear. induction edges as [|e edges IH]; [done|]. unfold constraintsFrom. cbn [omap list_omap]. rewrite filter_cons. destruct (decide (_src e = s)); cbn; [f_equal|]; exact IH. }
  transitivity (sum_list_with (fun s => count_occ Nat.eq_dec (_target <$> filter (fun e => _src e = s) edges) d) (seq 0 (length operations))).
  { revert Heq. induction (seq 0 (length operations)) as [|s l IH]; intros Heq; [done|]. cbn [sum_list_with]. rewrite IH by (intros; apply Heq; by right). f_equal. rewrite decide_False by apply not_elem_of_nil. apply Heq. by left. }
  clear Heq. induction edges as [|e edges IH].
  - induction (seq 0 (length operations)) as [|s l IH]; [done|]. cbn [sum_list_with]. by rewrite IH.
  - apply Forall_cons in Hsrc as [He Hsrc]. specialize (IH Hsrc). rewrite fmap_cons. cbn [count_occ].
    assert (Hsplit : forall l, NoDup l -> sum_list_with (fun s => count_occ Nat.eq_dec (_target <$> filter (fun e => _src e = s) (e :: edges)) d) l =
      (sum_list_with (fun s => count_occ Nat.eq_dec (_target <$> filter (fun e => _src e = s) edges) d) l + if decide (_src e ∈ l) then (if Nat.eq_dec (_target e) d then 1 else 0) else 0)%nat).
    { induction l as [|s l IHl]; intros Hnd; [done|]. apply NoDup_cons in Hnd as [Hs Hnd]. cbn [sum_list_with]. rewrite (IHl Hnd), filter_cons. destruct (decide (_src e = s)) as [Heq|Hne].
      - rewrite fmap_cons. cbn [count_occ]. subst s. rewrite (decide_False (P := _src e ∈ l)) by done. rewrite (decide_True (P := _src e ∈ _src e :: l)) by (by left). destruct (Nat.eq_dec (_target e) d); lia.
      - destruct (decide (_src e ∈ l)) as [Hin|Hin]; [rewrite (decide_True (P := _src e ∈ s :: l)) by (by right)|rewrite (decide_False (P := _src e ∈ s :: l)) by (rewrite elem_of_cons; naive_solver)]; lia. }
    rewrite Hsplit by apply NoDup_seq. rewrite IH, decide_True by (apply elem_of_seq; lia). destruct (Nat.eq_dec (_target e) d); lia.
Qed.

Section Client.
Context (scheduleCallback : schedule_function_t (World := World)) (delayMap : delay_map_t) (dependencyGraph : AtomicBlocks).
Context (I : list nat -> World -> Prop) (reach slack : Z) (rank : nat -> nat) (operations : list (nat * Z)) (edges : list edge).

(** The contract of a client: [I] holds of its data, [rank] grows along the
    constraints, and the stages stay far below [2^64]. *)
Record client_ok : Prop := mk_client_ok {
  cl_operations : Forall (fun o => is_Some (opcodes !! o.1) /\ 0 <= o.2 <= slack) operations;
  cl_edges : Forall (fun e => (_src e < length operations)%nat /\ (_target e < length operations)%nat /\ (rank (_src e) < rank (_target e))%nat) edges;
  cl_length : Z.of_nat (length edges) < 2 ^ 64;
  cl_constraint : forall settings e o, dom (_atomicBlockPassIndex settings) = dom (_atomicBlockPassIndex (settingsOf operations)) ->
    dom (_atomicBlockRegisterRatio settings) = dom (_atomicBlockRegisterRatio (settingsOf operations)) -> e ∈ edges -> operations !! _target e = Some o ->
    constraint_ok opcodes dependencyGraph I reach settings o.1 (mkConstraint (_target e) (_function e));
  cl_callback : forall done w d stage, I done w -> d ∉ done -> (d < length operations)%nat -> 0 <= stage -> exists w', scheduleCallback w d stage = Ok w' /\ I (done ++ [d]) w';
  cl_reach : 0 <= reach;
  cl_delay : forall d, (d < length operations)%nat -> exists delay, delayMap !! d = Some delay /\ 0 <= delay <= slack;
  cl_bound : forall d, (d < length operations)%nat -> slack + (reach + slack) * Z.of_nat (rank d) + slack < size_max }.

Lemma elem_of_constraintsFrom d c : c ∈ constraintsFrom edges d <-> exists e, e ∈ edges /\ _src e = d /\ c = mkConstraint (_target e) (_function e).
Proof.
  unfold constraintsFrom. rewrite list_elem_of_omap. split.
  - intros (e & He & Hc). destruct (decide (_src e = d)) as [Hd|]; [|done]. exists e. split; [done|]. split; [done|]. by injection Hc as <-.
  - intros (e & He & Hd & ->). exists e. by rewrite decide_True.
Qed.

Lemma nodes_scheduler_ok settings : client_ok -> dom (_atomicBlockPassIndex settings) = dom (_atomicBlockPassIndex (settingsOf operations)) ->
  dom (_atomicBlockRegisterRatio settings) = dom (_atomicBlockRegisterRatio (settingsOf operations)) ->
  scheduler_ok opcodes scheduleCallback delayMap dependencyGraph I reach slack rank settings (nodesOf operations edges).
Proof.
  intros [H1 H2 H3 H4 H5 H6 H7 H8] Hd1 Hd2. assert (Hlen : length (nodesOf operations edges) = length operations) by (unfold nodesOf; by rewrite length_imap).
  assert (Hlk : forall d node, nodesOf operations edges !! d = Some node -> exists o, operations !! d = Some o /\ node = nodeOf edges d o).
  { intros d node Hd. rewrite nodesOf_lookup in Hd. destruct (operations !! d) as [o|]; [|done]. exists o. by injection Hd as <-. }
  pose proof (proj1 (Forall_forall _ _) H1) as H1'. pose proof (proj1 (Forall_forall _ _) H2) as H2'. split; rewrite ?Hlen; try done.
  - intros d node Hd. destruct (Hlk d node Hd) as (o & Ho & ->). cbn [_totalConstraints nodeOf]. rewrite outstanding_nodes; [done|]. apply Forall_forall. intros e He. by apply H2'.
  - intros s node c Hs Hc. destruct (Hlk s node Hs) as (o & Ho & ->). apply elem_of_constraintsFrom in Hc as (e & He & _ & ->). by apply (H2' e He).
  - intros s node c Hs Hc. destruct (Hlk s node Hs) as (o & Ho & ->). apply elem_of_constraintsFrom in Hc as (e & He & <- & ->). by apply (H2' e He).
  - intros s node c target Hs Hc Ht. destruct (Hlk s node Hs) as (o & Ho & ->). apply elem_of_constraintsFrom in Hc as (e & He & <- & ->). destruct (Hlk _ _ Ht) as (o' & Ho' & ->). by apply H4.
  - intros d node Hd. destruct (Hlk d node Hd) as (o & Ho & ->). apply (H1' o). by eapply list_elem_of_lookup_2.
Qed.
End Client.
End Build.

(** C10: A scheduler to which a client has added nodes and constraints that form no
    cycle: [scheduleOnce] ends, within one attempt more than the settings of the
    atomic blocks can be relaxed, and no assertion fails.  The schedule that it
    returns has every node exactly once, none before its first stage; the source of
    a constraint is decided before its target, and the stage of the target is in
    the range that the constraint function returned for the stage of the source.
    It throws only when the settings of a block cannot be relaxed any more. *)
Theorem scheduleOnce_correct {World : Type} opcodes logicRegisterRatio maxLogicRegisterRatio scheduleCallback delayMap dependencyGraph
    (I : list nat -> World -> Prop) reach slack rank operations edges clear fuel w :
  client_ok opcodes logicRegisterRatio scheduleCallback delayMap dependencyGraph I reach slack rank operations edges ->
  I [] w -> (forall done w, I done w -> I [] (clear w)) ->
  (relaxations maxLogicRegisterRatio (settingsOf opcodes logicRegisterRatio operations) < fuel)%nat ->
  exists scheduler, build opcodes logicRegisterRatio operations edges = Ok scheduler /\
    match scheduleOnce opcodes maxLogicRegisterRatio scheduleCallback delayMap dependencyGraph clear fuel scheduler w with
    | Ok (scheduler', w') => exists sched, sched.*1 ≡ₚ seq 0 (length operations) /\ I sched.*1 w' /\
        (forall d stage o, (d, stage) ∈ sched -> operations !! d = Some o -> o.2 <= stage) /\
        (forall e, e ∈ edges -> exists l1 stage l2 stage', sched = l1 ++ (_src e, stage) :: l2 /\ (_target e, stage') ∈ l2 /\
           exists w1 w2 range range', _function e (_settings scheduler') w1 stage range = Ok (w2, range') /\ _begin range' <= stage' < _end range')
    | Err e => e = RuntimeError /\ exists settings i, exhausted maxLogicRegisterRatio dependencyGraph settings i
    end.
Proof.
  intros Hc HI Hclear Hfuel. pose proof (cl_operations _ _ _ _ _ _ _ _ _ _ _ Hc) as Hops. pose proof (cl_edges _ _ _ _ _ _ _ _ _ _ _ Hc) as Hedges.
  eexists. split.
  { apply build_eq; [|eapply Forall_impl; [exact Hedges|intros e (? & ? & ?); split; [done|split; [done|intros Heq; rewrite Heq in *; lia]]]|apply Hc].
    eapply Forall_impl; [exact Hops|]. by intros o [? _]. }
  set (settings0 := settingsOf opcodes logicRegisterRatio operations) in *.
  pose proof (scheduleOnce_eq opcodes maxLogicRegisterRatio scheduleCallback delayMap dependencyGraph I reach slack rank (nodesOf operations edges) clear settings0
    (fun settings H1 H2 => nodes_scheduler_ok opcodes logicRegisterRatio scheduleCallback delayMap dependencyGraph I reach slack rank operations edges settings Hc H1 H2) Hclear
    fuel settings0 (nodesOf operations edges) w [] (static_refl _) eq_refl eq_refl HI Hfuel) as Hrun.
  destruct (scheduleOnce _ _ _ _ _ _ _ _ _) as [[scheduler' w']|e]; [|exact Hrun]. destruct Hrun as (sched & [S1 S2 S3] & HI' & Hst & _).
  assert (Hlen : length (nodesOf operations edges) = length operations) by (unfold nodesOf; by rewrite length_imap).
  exists sched. split; [by rewrite <- Hlen|]. split; [done|]. split.
  - intros d stage o Hin Ho. destruct (lookup_lt_is_Some_2 (_nodes scheduler') d) as [node Hnode].
    { rewrite (static_length _ _ Hst), Hlen. by eapply lookup_lt_Some. }
    destruct (S2 d stage node Hin Hnode) as (_ & _ & _ & _ & Hmin). destruct (static_lookup _ _ _ _ Hst Hnode) as (node0 & H0 & _ & Hm & _).
    rewrite nodesOf_lookup, Ho in H0. injection H0 as <-. by rewrite Hm in Hmin.
  - intros e He. assert (Hsrc : (_src e < length operations)%nat) by (pose proof (proj1 (Forall_forall _ _) Hedges e He) as Hx; apply Hx).
    assert (Hin : _src e ∈ sched.*1) by (rewrite S1, Hlen; apply elem_of_seq; lia). apply list_elem_of_fmap in Hin as ([s stage] & Heq & Hin). cbn in Heq. subst s.
    apply list_elem_of_split in Hin as (l1 & l2 & Heq). destruct (lookup_lt_is_Some_2 operations _ Hsrc) as [o Ho].
    destruct (S3 l1 (_src e) stage l2 (nodeOf edges (_src e) o) (mkConstraint (_target e) (_function e)) Heq) as (stage' & Hin' & w1 & w2 & r & r' & Hf & Hb).
    + by rewrite nodesOf_lookup, Ho.
    + apply elem_of_constraintsFrom. by exists e.
    + exists l1, stage, l2, stage'. split; [done|]. split; [done|]. by exists w1, w2, r, r'.
Qed.

(** ** An atomic block that has to be relaxed

    Operation 1 is in the atomic block that operation 0 begins and runs in its
    stage; operation 2 produces its operand and, with a register ratio below 2,
    needs a stage of its own. *)

Definition demoOpcodes : list Opcode := [BeginAtomic; Mov; Mov].
Definition demoOperations : list (nat * Z) := [(0%nat, 0); (1%nat, 0); (2%nat, 0)].
Definition demoInBlock : edge (World := list (nat * Z)) := mkEdge 0 1 (fun _ w stage range => Ok (w, Intersect range (mkRange stage (stage + 1)))).
Definition demoOperand : edge (World := list (nat * Z)) :=
  mkEdge 2 1 (fun settings w stage range =>
    ratio ← GetAtomicBlockRegisterRatio settings 0%nat;
    Ok (w, Intersect range (mkRange (if ratio <? 2 then stage + 1 else stage) size_max))).
Definition demoGraph : AtomicBlocks := mkAtomicBlocks {[1%nat := [0%nat]]} {[0%nat := 0%nat]} {[0%nat := 0%nat]} ∅.
Definition demoDelays : delay_map_t := {[0%nat := 0; 1%nat := 0; 2%nat := 0]}.
Definition demoRecord (w : list (nat * Z)) (node : nat) (stage : Z) : result (list (nat * Z)) := Ok (w ++ [(node, stage)]).
Definition demoRecorded (done : list nat) (w : list (nat * Z)) : Prop := w.*1 = done.

Lemma demo_failable settings : dom (_atomicBlockPassIndex settings) = {[0%nat]} -> dom (_atomicBlockRegisterRatio settings) = {[0%nat]} -> failable demoOpcodes demoGraph settings 1.
Proof.
  intros H1 H2. exists [0%nat]. split; [done|]. split; [done|]. intros i ->%list_elem_of_singleton. exists 0%nat. split; [done|]. split; apply elem_of_dom; [rewrite H1|rewrite H2]; set_solver.
Qed.

Lemma demo_client : client_ok demoOpcodes 1 demoRecord demoDelays demoGraph demoRecorded 1 0 (fun d => if (d =? 1)%nat then 1%nat else 0%nat) demoOperations [demoInBlock; demoOperand].
Proof.
  assert (Hdom : dom (_atomicBlockPassIndex (settingsOf demoOpcodes 1 demoOperations)) = {[0%nat]} /\ dom (_atomicBlockRegisterRatio (settingsOf demoOpcodes 1 demoOperations)) = {[0%nat]}) by (cbn; rewrite !dom_insert_L; set_solver).
  destruct Hdom as [Hdom1 Hdom2]. split.
  - repeat constructor; cbn; by try eexists.
  - repeat constructor; cbn; lia.
  - cbn. lia.
  - intros settings e o H1 H2 He Ho. rewrite Hdom1 in H1. rewrite Hdom2 in H2. pose proof (demo_failable settings H1 H2) as Hf.
    assert (Hop : o.1 = 1%nat) by (apply elem_of_cons in He as [->|He]; [|apply list_elem_of_singleton in He as ->]; cbn in Ho; by injection Ho as <-).
    rewrite Hop. split. intros done w stage range HI Hstage. apply elem_of_cons in He as [->|He].
    + eexists _, _. split; [reflexivity|]. split; [done|]. cbn. split; [lia|]. split; [lia|]. split; [lia|]. by intros [].
    + apply list_elem_of_singleton in He as ->. assert (Hr : is_Some (_atomicBlockRegisterRatio settings !! 0%nat)) by (apply elem_of_dom; rewrite H2; set_solver). destruct Hr as [ratio Hr].
      eexists _, _. cbn [_constraintFunction demoOperand _function]. unfold GetAtomicBlockRegisterRatio, SafeLookup. rewrite Hr. cbn [of_option mbind result_bind]. split; [reflexivity|]. split; [done|]. cbn [Intersect _begin _end].
      split; [lia|]. split; [lia|]. split; [destruct (ratio <? 2); lia|]. by intros [].
  - intros done w d stage HI _ _ _. eexists. split; [reflexivity|]. unfold demoRecorded in *. by rewrite fmap_app, HI.
  - lia.
  - intros d Hd. cbn in Hd. exists 0. split; [|lia]. by do 3 (destruct d as [|d]; [done|]); lia.
  - intros d Hd. unfold size_max. destruct (d =? 1)%nat; lia.
Qed.

Lemma scheduleOnce_correct_witness :
  (scheduler ← build demoOpcodes 1 demoOperations [demoInBlock; demoOperand];
   '(scheduler, w) ← scheduleOnce demoOpcodes 3 demoRecord demoDelays demoGraph (fun _ => []) 8 scheduler [];
   Ok (w, _atomicBlockRegisterRatio (_settings scheduler) !! 0%nat)) = Ok ([(0%nat, 0); (2%nat, 0); (1%nat, 0)], Some 2) /\
  exists scheduler, build demoOpcodes 1 demoOperations [demoInBlock; demoOperand] = Ok scheduler /\
    match scheduleOnce demoOpcodes 3 demoRecord demoDelays demoGraph (fun _ => []) 8 scheduler [] with
    | Ok (scheduler', w') => exists sched, sched.*1 ≡ₚ seq 0 (length demoOperations) /\ demoRecorded sched.*1 w' /\
        (forall d stage o, (d, stage) ∈ sched -> demoOperations !! d = Some o -> o.2 <= stage) /\
        (forall e, e ∈ [demoInBlock; demoOperand] -> exists l1 stage l2 stage', sched = l1 ++ (_src e, stage) :: l2 /\ (_target e, stage') ∈ l2 /\
           exists w1 w2 range range', _function e (_settings scheduler') w1 stage range = Ok (w2, range') /\ _begin range' <= stage' < _end range')
    | Err e => e = RuntimeError /\ exists settings i, exhausted 3 demoGraph settings i
    end.
Proof.
  split; [vm_compute; reflexivity|].
  apply (scheduleOnce_correct demoOpcodes 1 3 demoRecord demoDelays demoGraph demoRecorded 1 0 (fun d => if (d =? 1)%nat then 1%nat else 0%nat) demoOperations [demoInBlock; demoOperand] (fun _ => []) 8 []).
  - exact demo_client.
  - reflexivity.
  - reflexivity.
  - vm_compute. lia.
Defined.

End SchedulerBuild.
