(* ===== verification/PipelineStages.v ===== *)
(** * Pipeline stages

    [schedule.cpp]: [EmitPipelineStage], which divides the operations of one
    pipeline stage into [Stage] structures whose operations run in parallel, and
    the functions that prepare a basic block for the scheduler and score a
    schedule; [lower.cpp]: [GetAccessedRegisters]. *)

From S2P Require Import Prelude MachineInt Literals Ir.
Import MachineInt Containers Literals Ir.

Module PipelineStages.

(** [struct Stage], without what later passes add *)
Record PipelineStage : Type := mkPipelineStage {
  _atomicSequence : Z;
  _fileAndLineNumbers : gset FileAndLineNumber;
  _stageOperations : list Operation }.

(** The registers that an operation reads, and those that it writes *)
Definition readRegisters (op : Operation) : list nat :=
  omap (fun sourceOperand => match sourceOperand with SrcRegister ar => Some (_registerIndex ar) | _ => None end) (_src op).
Definition writtenRegisters (op : Operation) : list nat :=
  omap (fun destOp => match destOp with DstRegister ar => Some (_registerIndex ar) | DstFifo _ => None end) (_dst op).

Definition GetAccessedRegisters (op : Operation) : list nat * list nat := (readRegisters op, writtenRegisters op).

Definition GetNextAtomicSequenceNumber (stages : list PipelineStage) : Z :=
  match last stages with None => 0 | Some stage => u64_add (_atomicSequence stage) 1 end.

(** What the first loop collects *)
Record summary : Type := mkSummary {
  _lineNumbers : gset FileAndLineNumber;
  _globalsAfterStartCondition : bool;
  _numWriteGlobals : Z;
  _numPrintAssertAndStringOps : Z;
  _prints : list Operation;
  _assertions : list Operation;
  _stringFormats : list Operation;
  _stringReferences : list Operation;
  _assertStringEquals : list Operation }.

Definition emptySummary : summary := mkSummary ∅ false 0 0 [] [] [] [] [].

Definition summarize (sequenceNumber : Z) (s : summary) (op : Operation) : result summary :=
  match _opcode op with
  | LineNumber =>
      Ok (mkSummary (_locations op ∪ _lineNumbers s) (_globalsAfterStartCondition s) (_numWriteGlobals s) (_numPrintAssertAndStringOps s)
            (_prints s) (_assertions s) (_stringFormats s) (_stringReferences s) (_assertStringEquals s))
  | StartCondition false =>
      assert_ (sequenceNumber =? 0);;
      Ok (mkSummary (_lineNumbers s) true (_numWriteGlobals s) (_numPrintAssertAndStringOps s)
            (_prints s) (_assertions s) (_stringFormats s) (_stringReferences s) (_assertStringEquals s))
  | WriteGlobal =>
      Ok (mkSummary (_lineNumbers s) (_globalsAfterStartCondition s) (u64_add (_numWriteGlobals s) 1) (_numPrintAssertAndStringOps s)
            (_prints s) (_assertions s) (_stringFormats s) (_stringReferences s) (_assertStringEquals s))
  | Print _ =>
      Ok (mkSummary (_lineNumbers s) (_globalsAfterStartCondition s) (_numWriteGlobals s) (u64_add (_numPrintAssertAndStringOps s) 1)
            (_prints s ++ [op]) (_assertions s) (_stringFormats s) (_stringReferences s) (_assertStringEquals s))
  | Assert =>
      Ok (mkSummary (_lineNumbers s) (_globalsAfterStartCondition s) (_numWriteGlobals s) (u64_add (_numPrintAssertAndStringOps s) 1)
            (_prints s) (_assertions s ++ [op]) (_stringFormats s) (_stringReferences s) (_assertStringEquals s))
  | FormatString | FormatEnum =>
      Ok (mkSummary (_lineNumbers s) (_globalsAfterStartCondition s) (_numWriteGlobals s) (u64_add (_numPrintAssertAndStringOps s) 1)
            (_prints s) (_assertions s) (_stringFormats s ++ [op]) (_stringReferences s) (_assertStringEquals s))
  | ReferenceString =>
      Ok (mkSummary (_lineNumbers s) (_globalsAfterStartCondition s) (_numWriteGlobals s) (u64_add (_numPrintAssertAndStringOps s) 1)
            (_prints s) (_assertions s) (_stringFormats s) (_stringReferences s ++ [op]) (_assertStringEquals s))
  | AssertStringEqual =>
      Ok (mkSummary (_lineNumbers s) (_globalsAfterStartCondition s) (_numWriteGlobals s) (u64_add (_numPrintAssertAndStringOps s) 1)
            (_prints s) (_assertions s) (_stringFormats s) (_stringReferences s) (_assertStringEquals s ++ [op]))
  | _ => Ok s
  end.

Definition shouldFilter (op : Operation) : bool :=
  match _opcode op with BeginAtomic | EndAtomic | Stage | LineNumber => true | _ => false end.

(** Operations that go to the print stage *)
Definition isPrintStageOp (opcode : Opcode) : bool :=
  match opcode with Print _ | Assert | FormatString | FormatEnum | ReferenceString | AssertStringEqual => true | _ => false end.

(** The state of the inner loop: the operations that stay, those of the stage,
    the registers written, both counters, and what the start condition sets *)
Record emission : Type := mkEmission {
  _remaining : list Operation;
  _emitted : list Operation;
  _registersWritten : gset nat;
  _writeGlobals : Z;
  _printOps : Z;
  _globalsAfterStartConditionNext : bool;
  _startConditionStage : bool;
  _printStageBeforeStartCondition : bool }.

Definition emitOperation (globalsAfterStartCondition : bool) (st : emission) (op : Operation) : result emission :=
  let '(readSet, writeSet) := GetAccessedRegisters op in
  let emitNow := negb (existsb (fun registerIndex => bool_decide (registerIndex ∈ _registersWritten st)) readSet) in
  let registersWritten := list_to_set writeSet ∪ _registersWritten st in
  let keep := mkEmission (_remaining st ++ [op]) (_emitted st) registersWritten (_writeGlobals st) (_printOps st)
                (_globalsAfterStartConditionNext st) (_startConditionStage st) (_printStageBeforeStartCondition st) in
  match _opcode op with
  | StartCondition globalsBefore =>
      let emitNow := emitNow && negb (globalsBefore && ((0 <? _writeGlobals st) || (0 <? _printOps st))) in
      Ok (if emitNow then mkEmission (_remaining st) (_emitted st ++ [op]) registersWritten (_writeGlobals st) (_printOps st) false true globalsBefore else keep)
  | WriteGlobal =>
      if emitNow && negb globalsAfterStartCondition then
        assert_ (0 <? _writeGlobals st);;
        Ok (mkEmission (_remaining st) (_emitted st ++ [op]) registersWritten (_writeGlobals st - 1) (_printOps st)
              (_globalsAfterStartConditionNext st) (_startConditionStage st) (_printStageBeforeStartCondition st))
      else Ok keep
  | opcode =>
      if isPrintStageOp opcode then
        if emitNow then
          assert_ (0 <? _printOps st);;
          Ok (mkEmission (_remaining st) (_emitted st) registersWritten (_writeGlobals st) (_printOps st - 1)
                (_globalsAfterStartConditionNext st) (_startConditionStage st) (_printStageBeforeStartCondition st))
        else Ok keep
      else
        Ok (if emitNow then mkEmission (_remaining st) (_emitted st ++ [op]) registersWritten (_writeGlobals st) (_printOps st)
                              (_globalsAfterStartConditionNext st) (_startConditionStage st) (_printStageBeforeStartCondition st)
            else keep)
  end.

(** What the outer loop keeps: [numWriteGlobals], [numPrintAssertAndStringOps],
    [globalsAfterStartCondition], the stages, and the stage of the start condition *)
Record progress : Type := mkProgress {
  _pgWriteGlobals : Z;
  _pgPrintOps : Z;
  _pgGlobalsAfter : bool;
  _pgStages : list (list Operation);
  _pgStartConditionStage : option nat;
  _pgPrintStageBefore : bool }.

Definition emitPass (p : progress) (operations : list Operation) : result (list Operation * progress) :=
  st ← foldM (emitOperation (_pgGlobalsAfter p)) operations
         (mkEmission [] [] ∅ (_pgWriteGlobals p) (_pgPrintOps p) (_pgGlobalsAfter p) false (_pgPrintStageBefore p));
  Ok (_remaining st,
      mkProgress (_writeGlobals st) (_printOps st) (_globalsAfterStartConditionNext st)
        (match _emitted st with [] => _pgStages p | _ => _pgStages p ++ [_emitted st] end)
        (match _emitted st with
         | [] => _pgStartConditionStage p
         | _ => if _startConditionStage st then Some (length (_pgStages p)) else _pgStartConditionStage p
         end)
        (_printStageBeforeStartCondition st)).

Fixpoint emitLoop (fuel : nat) (p : progress) (operations : list Operation) : result progress :=
  match operations with
  | [] => Ok p
  | _ => match fuel with
         | O => Err OutOfFuel
         | S fuel => '(operations, p) ← emitPass p operations; emitLoop fuel p operations
         end
  end.

(** The stages that are added, and their line numbers *)
Definition EmitPipelineStage (stages : list PipelineStage) (operationsIn : list Operation) : result (list PipelineStage) :=
  let sequenceNumber := GetNextAtomicSequenceNumber stages in
  s ← foldM (summarize sequenceNumber) operationsIn emptySummary;
  let fileAndLineNumbers :=
    if bool_decide (_lineNumbers s = ∅) then match last stages with Some stage => _fileAndLineNumbers stage | None => ∅ end else _lineNumbers s in
  let operations := filter (fun op => shouldFilter op = false) operationsIn in
  p ← emitLoop (S (length operations)) (mkProgress (_numWriteGlobals s) (_numPrintAssertAndStringOps s) (_globalsAfterStartCondition s) [] None false) operations;
  let printStage := _stringFormats s ++ _prints s ++ _assertStringEquals s ++ _stringReferences s ++ _assertions s in
  newStages ← (match printStage with
               | [] => Ok (_pgStages p)
               | _ => if _pgPrintStageBefore p
                      then i ← of_option AssertionFailed (_pgStartConditionStage p); Ok (take i (_pgStages p) ++ [printStage] ++ drop i (_pgStages p))
                      else Ok (_pgStages p ++ [printStage])
               end);
  let newStages := match newStages with [] => [[]] | _ => newStages end in
  Ok (stages ++ (mkPipelineStage sequenceNumber fileAndLineNumbers <$> newStages)).

End PipelineStages.
