(* ===== verification/StageSemantics.v ===== *)
(** * The meaning of stages

    The operations of a basic block run one after another; those of a [Stage] run
    in parallel, on the registers before the stage.  An operation that is not a
    pure one gets its results from an oracle, [value], from the operation and
    the values of its sources.  [divides] is what one pass of
    [EmitPipelineStage] does to a list: some operations are emitted as a stage,
    some stay, and prints wait for the print stage. *)

From stdpp Require Import functions.
From S2P Require Import Prelude MachineInt Literals Ir Semantics Flow PipelineStages.
Import MachineInt Containers Literals Ir Semantics FlowSemantics PipelineStages.

Module StageSemantics.

Notation same σ τ := (forall r, σ r = τ r).

(** The registers that operations write *)
Definition written (ops : list Operation) : list nat := concat (writtenRegisters <$> ops).

Lemma written_app l1 l2 : written (l1 ++ l2) = written l1 ++ written l2.
Proof. unfold written. by rewrite fmap_app, concat_app. Qed.

Lemma elem_of_written ops r : r ∈ written ops <-> exists op, op ∈ ops /\ r ∈ writtenRegisters op.
Proof. unfold written. rewrite elem_of_concat. setoid_rewrite list_elem_of_fmap. naive_solver. Qed.

Lemma written_singleton op : written [op] = writtenRegisters op.
Proof. unfold written. cbn. by rewrite app_nil_r. Qed.

Lemma elem_of_writtenRegisters op r : r ∈ writtenRegisters op <-> DstRegister (mkAccessedRegister r) ∈ _dst op.
Proof.
  unfold writtenRegisters. rewrite list_elem_of_omap. split.
  - intros ([[q]|f] & Hin & Heq); [|done]. by injection Heq as <-.
  - intros Hin. by exists (DstRegister (mkAccessedRegister r)).
Qed.

(** ** Writing *)

Lemma write_at d vs σ τ r : σ r = τ r -> write d vs σ r = write d vs τ r.
Proof.
  unfold write. revert vs σ τ. induction d as [|d0 d IH]; intros [|v vs] σ τ H; try done. cbn [zip zip_with fold_left]. apply IH. unfold writeOne. cbn [fst snd]. destruct d0 as [[q]|f]; [|done]. cbn.
  destruct (decide (q = r)) as [->|Hne]; [by rewrite !fn_lookup_insert|by rewrite !fn_lookup_insert_ne].
Qed.

Lemma write_unwritten op vs σ r : r ∉ writtenRegisters op -> write (_dst op) vs σ r = σ r.
Proof.
  rewrite elem_of_writtenRegisters. unfold write. generalize (_dst op) as d. intros d. revert vs σ. induction d as [|d0 d IH]; intros [|v vs] σ H; try done. cbn [zip zip_with fold_left].
  rewrite IH by set_solver. unfold writeOne. cbn [fst snd]. destruct d0 as [[q]|f]; [|done]. cbn. rewrite fn_lookup_insert_ne; [done|]. intros ->. apply H. by left.
Qed.

Lemma write_commute op1 op2 vs1 vs2 σ : writtenRegisters op1 ## writtenRegisters op2 ->
  same (write (_dst op1) vs1 (write (_dst op2) vs2 σ)) (write (_dst op2) vs2 (write (_dst op1) vs1 σ)).
Proof.
  intros Hd r. destruct (decide (r ∈ writtenRegisters op1)) as [H1|H1].
  - assert (H2 : r ∉ writtenRegisters op2) by (intros H2; by apply (Hd r)). rewrite (write_unwritten op2) by done. apply write_at. by rewrite write_unwritten.
  - rewrite (write_unwritten op1) by done. apply write_at. by rewrite write_unwritten.
Qed.

(** ** One pass *)

(** An operation that is emitted by the first pass that sees it *)
Definition prompt (pre : list Operation) (op : Operation) : Prop :=
  readRegisters op ## written pre /\ match _opcode op with StartCondition _ | WriteGlobal => False | opcode => isPrintStageOp opcode = false end.

(** An operation reads a register that is written after it only when it is emitted at once. *)
Definition war_free (ops : list Operation) : Prop :=
  forall l1 op l2, ops = l1 ++ op :: l2 -> prompt l1 op \/ readRegisters op ## written l2.

(** [emitted] and [delayed] are taken from the operations, [remaining] stays. *)
Inductive divides : list Operation -> list Operation -> list Operation -> list Operation -> Prop :=
| divides_nil : divides [] [] [] []
| divides_emit pre emitted remaining delayed op : divides pre emitted remaining delayed -> readRegisters op ## written pre -> divides (pre ++ [op]) (emitted ++ [op]) remaining delayed
| divides_keep pre emitted remaining delayed op : divides pre emitted remaining delayed -> ~ prompt pre op -> divides (pre ++ [op]) emitted (remaining ++ [op]) delayed
| divides_delay pre emitted remaining delayed op : divides pre emitted remaining delayed -> readRegisters op ## written pre -> writtenRegisters op = [] -> ~ prompt pre op ->
    divides (pre ++ [op]) emitted remaining (delayed ++ [op]).

Lemma divides_perm pre emitted remaining delayed : divides pre emitted remaining delayed -> pre ≡ₚ emitted ++ delayed ++ remaining.
Proof.
  induction 1 as [|pre e r d op H IH Hr|pre e r d op H IH Hp|pre e r d op H IH Hr Hw Hp]; [done|..]; rewrite IH; solve_Permutation.
Qed.

(** What stays was not emitted at once. *)
Lemma divides_remaining pre emitted remaining delayed op :
  divides pre emitted remaining delayed -> op ∈ remaining ++ delayed -> exists l1 l2, pre = l1 ++ op :: l2 /\ ~ prompt l1 op.
Proof.
  induction 1 as [|pre e r d o H IH Hr|pre e r d o H IH Hp|pre e r d o H IH Hr Hw Hp]; intros Hin.
  - by apply not_elem_of_nil in Hin.
  - destruct (IH Hin) as (l1 & l2 & -> & Hn). exists l1, (l2 ++ [o]). by rewrite <- app_assoc.
  - assert (Hcase : op ∈ r ++ d \/ op = o) by set_solver. destruct Hcase as [Hc| ->]; [|by exists pre, []].
    destruct (IH Hc) as (l1 & l2 & -> & Hn). exists l1, (l2 ++ [o]). by rewrite <- app_assoc.
  - assert (Hcase : op ∈ r ++ d \/ op = o) by set_solver. destruct Hcase as [Hc| ->]; [|by exists pre, []].
    destruct (IH Hc) as (l1 & l2 & -> & Hn). exists l1, (l2 ++ [o]). by rewrite <- app_assoc.
Qed.

Lemma war_free_prefix pre op : war_free (pre ++ [op]) -> war_free pre.
Proof. intros H l1 o l2 ->. destruct (H l1 o (l2 ++ [op])) as [|Hd]; [by rewrite <- app_assoc|by left|right]. rewrite written_app in Hd. set_solver. Qed.

(** What was delayed reads nothing that the operations write. *)
Lemma divides_delayed pre emitted remaining delayed op :
  divides pre emitted remaining delayed -> war_free pre -> op ∈ delayed -> readRegisters op ## written pre /\ writtenRegisters op = [].
Proof.
  induction 1 as [|pre e r d o H IH Hr|pre e r d o H IH Hp|pre e r d o H IH Hr Hw Hp]; intros Hwar Hin; [by apply not_elem_of_nil in Hin|..].
  1, 2: destruct (divides_remaining _ _ _ _ op H) as (l1 & l2 & -> & Hn); [set_solver|]; destruct (IH (war_free_prefix _ _ Hwar) Hin) as [Hd Hw]; split; [|done];
    destruct (Hwar l1 op (l2 ++ [o])) as [|Hd']; [by rewrite <- app_assoc|done|]; rewrite !written_app, !written_singleton in *; set_solver.
  apply elem_of_app in Hin as [Hin| ->%list_elem_of_singleton].
  - destruct (IH (war_free_prefix _ _ Hwar) Hin) as [Hd Hw']. split; [|done]. rewrite written_app, written_singleton, Hw. set_solver.
  - split; [|done]. rewrite written_app, written_singleton, Hw. set_solver.
Qed.

Lemma divides_war_free pre emitted remaining delayed : divides pre emitted remaining delayed -> war_free pre -> war_free remaining.
Proof.
  intros H Hwar. cut (forall l1 op l2, remaining = l1 ++ op :: l2 -> readRegisters op ## written l2); [by intros Hc l1 op l2 Heq; right; eauto|].
  induction H as [|pre e r d o H IH Hr|pre e r d o H IH Hp|pre e r d o H IH Hr Hw Hp]; intros l1 op l2 Heq; [by destruct l1|by eauto using war_free_prefix| |by eauto using war_free_prefix].
  destruct l2 as [|x l2 _] using rev_ind; [set_solver|]. rewrite app_comm_cons, app_assoc in Heq. apply app_inj_tail in Heq as [-> ->].
  specialize (IH (war_free_prefix _ _ Hwar) l1 op l2 eq_refl). destruct (divides_remaining _ _ _ _ op H) as (m1 & m2 & -> & Hn); [set_solver|].
  destruct (Hwar m1 op (m2 ++ [x])) as [|Hd]; [by rewrite <- app_assoc|done|]. rewrite !written_app in *. set_solver.
Qed.

(** ** Execution *)

Section Execution.
Context (program : Program) (value : Operation -> list SourceOperand -> list Z).

(** The values of the sources *)
Definition sources (σ : nat -> Z) (op : Operation) : list SourceOperand := resolve program σ <$> _src op.

Definition step (σ : nat -> Z) (op : Operation) : nat -> Z := write (_dst op) (value op (sources σ op)) σ.

Definition run (σ : nat -> Z) (ops : list Operation) : nat -> Z := fold_left step ops σ.

Definition parallel (σ : nat -> Z) (stage : list Operation) : nat -> Z := fold_left (fun τ op => write (_dst op) (value op (sources σ op)) τ) stage σ.

Definition runStages (σ : nat -> Z) (stages : list (list Operation)) : nat -> Z := fold_left parallel stages σ.

(** What every operation sees of its sources *)
Fixpoint events (σ : nat -> Z) (ops : list Operation) : list (Operation * list SourceOperand) :=
  match ops with [] => [] | op :: ops => (op, sources σ op) :: events (step σ op) ops end.

Definition stageEvents (σ : nat -> Z) (stage : list Operation) : list (Operation * list SourceOperand) := (fun op => (op, sources σ op)) <$> stage.

Fixpoint stagesEvents (σ : nat -> Z) (stages : list (list Operation)) : list (Operation * list SourceOperand) :=
  match stages with [] => [] | stage :: stages => stageEvents σ stage ++ stagesEvents (parallel σ stage) stages end.

Lemma sources_agree σ τ op : (forall r, r ∈ readRegisters op -> σ r = τ r) -> sources σ op = sources τ op.
Proof.
  intros H. unfold sources. apply list_fmap_ext. intros i o Ho. unfold resolve, operandLiteral. destruct o as [l|r| |]; try done.
  rewrite (H (_registerIndex r)); [done|]. unfold readRegisters. apply list_elem_of_omap. exists (SrcRegister r). split; [by eapply list_elem_of_lookup_2|done].
Qed.

Lemma step_at σ τ op r : (forall q, q ∈ readRegisters op -> σ q = τ q) -> σ r = τ r -> step σ op r = step τ op r.
Proof. intros Hs Hr. unfold step. rewrite (sources_agree σ τ op Hs). by apply write_at. Qed.

Lemma run_seq_app σ l1 l2 : run σ (l1 ++ l2) = run (run σ l1) l2.
Proof. apply fold_left_app. Qed.

Lemma run_unwritten ops σ r : r ∉ written ops -> run σ ops r = σ r.
Proof.
  revert σ. induction ops as [|op ops IH]; intros σ H; [done|]. cbn. change (op :: ops) with ([op] ++ ops) in H. rewrite written_app, written_singleton in H.
  unfold run in IH. rewrite IH by set_solver. unfold step. apply write_unwritten. set_solver.
Qed.

Lemma run_same ops σ τ : same σ τ -> same (run σ ops) (run τ ops).
Proof. revert σ τ. induction ops as [|op ops IH]; intros σ τ H; [done|]. apply IH. intros r. by apply step_at. Qed.

Lemma events_same ops σ τ : same σ τ -> events σ ops = events τ ops.
Proof.
  revert σ τ. induction ops as [|op ops IH]; intros σ τ H; [done|]. cbn. rewrite (sources_agree σ τ) by done. f_equal. apply IH. intros r. by apply step_at.
Qed.

Lemma events_app ops1 ops2 σ : events σ (ops1 ++ ops2) = events σ ops1 ++ events (run σ ops1) ops2.
Proof. revert σ. induction ops1 as [|op ops1 IH]; intros σ; [done|]. cbn. by rewrite IH. Qed.

Lemma parallel_unwritten ops σ r : r ∉ written ops -> parallel σ ops r = σ r.
Proof.
  unfold parallel. cut (forall τ, r ∉ written ops -> fold_left (fun τ op => write (_dst op) (value op (sources σ op)) τ) ops τ r = τ r); [by intros Hc; apply Hc|].
  induction ops as [|op ops IH]; intros τ H; [done|]. change (op :: ops) with ([op] ++ ops) in H. rewrite written_app, written_singleton in H. cbn [fold_left]. rewrite IH by set_solver.
  apply write_unwritten. set_solver.
Qed.

Lemma parallel_snoc σ ops op : parallel σ (ops ++ [op]) = write (_dst op) (value op (sources σ op)) (parallel σ ops).
Proof. unfold parallel. by rewrite fold_left_app. Qed.

(** An operation whose registers no other operation reads or writes can run first. *)
Lemma run_write op vs ops σ : (forall o, o ∈ ops -> readRegisters o ## writtenRegisters op /\ writtenRegisters o ## writtenRegisters op) ->
  same (run (write (_dst op) vs σ) ops) (write (_dst op) vs (run σ ops)) /\ events (write (_dst op) vs σ) ops = events σ ops.
Proof.
  revert σ. induction ops as [|o ops IH]; intros σ H; [done|]. destruct (H o (list_elem_of_here _ _)) as [Hr Hw].
  assert (Hsrc : sources (write (_dst op) vs σ) o = sources σ o) by (apply sources_agree; intros r Hin; apply write_unwritten; intros Hin'; by apply (Hr r)).
  destruct (IH (step σ o) ltac:(intros o' Ho'; apply H; by right)) as [IH1 IH2].
  assert (Hstep : same (step (write (_dst op) vs σ) o) (write (_dst op) vs (step σ o))) by (unfold step; rewrite Hsrc; by apply write_commute).
  split.
  - intros r. cbn. change (fold_left step ops ?x) with (run x ops). rewrite (run_same ops _ _ Hstep). apply IH1.
  - cbn. rewrite Hsrc. f_equal. rewrite (events_same ops _ _ Hstep). apply IH2.
Qed.

(** The stage and then what stays has the effect of all operations, and every
    operation sees what it saw. *)
Lemma divides_run pre emitted remaining delayed σ : divides pre emitted remaining delayed -> NoDup (written pre) -> war_free pre ->
  same (run σ pre) (run (parallel σ emitted) remaining) /\
  events σ pre ≡ₚ stageEvents σ emitted ++ stageEvents σ delayed ++ events (parallel σ emitted) remaining.
Proof.
  induction 1 as [|pre e r d op H IH Hr|pre e r d op H IH Hp|pre e r d op H IH Hr Hw Hp]; intros Hnd Hwar; [done|..];
    (rewrite written_app, written_singleton in Hnd; apply NoDup_app in Hnd as (Hnd & Hdis & _); destruct (IH Hnd (war_free_prefix _ _ Hwar)) as [IH1 IH2]; rewrite run_seq_app, events_app).
  - assert (Hsrc : sources (run σ pre) op = sources σ op) by (apply sources_agree; intros x Hx; apply run_unwritten; intros Hx'; by apply (Hr x)).
    assert (Hcomm : forall o, o ∈ r -> readRegisters o ## writtenRegisters op /\ writtenRegisters o ## writtenRegisters op).
    { intros o Ho. destruct (divides_remaining _ _ _ _ o H) as (l1 & l2 & -> & Hn); [set_solver|]. split.
      - destruct (Hwar l1 o (l2 ++ [op])) as [|Hd]; [by rewrite <- app_assoc|done|]. rewrite written_app, written_singleton in Hd. set_solver.
      - intros x Hx Hx'. apply (Hdis x); [|done]. apply elem_of_written. exists o. split; [|done]. set_solver. }
    destruct (run_write op (value op (sources σ op)) r (parallel σ e) Hcomm) as [R1 R2]. rewrite parallel_snoc, R2. split.
    + intros x. rewrite R1. cbn. unfold step. rewrite Hsrc. apply write_at, IH1.
    + unfold stageEvents. rewrite fmap_app. cbn [events fmap list_fmap]. rewrite Hsrc, IH2. unfold stageEvents. solve_Permutation.
  - rewrite run_seq_app, events_app. split; [intros x; apply (run_same [op]); exact IH1|]. rewrite IH2, (events_same [op] _ _ IH1). by rewrite <- !app_assoc.
  - assert (Hsrc : sources (run σ pre) op = sources σ op) by (apply sources_agree; intros x Hx; apply run_unwritten; intros Hx'; by apply (Hr x)).
    split; [intros x; cbn; unfold step; rewrite write_unwritten by (rewrite Hw; set_solver); apply IH1|]. unfold stageEvents. rewrite fmap_app. cbn [events fmap list_fmap]. rewrite Hsrc, IH2. unfold stageEvents. solve_Permutation.
Qed.
End Execution.

End StageSemantics.

(** * The loop of [EmitPipelineStage]

    What one pass over the operations of a pipeline stage does ([passInvariant]),
    that every pass takes an operation from the list, and what the loop keeps
    ([loopInvariant]): the stages so far and the operations that stay have the
    effect of the operations of the start. *)

Import MachineInt Containers Literals Ir Semantics FlowSemantics PipelineStages StageSemantics.

Module StageLoop.

Definition isWriteGlobal (op : Operation) : bool := match _opcode op with WriteGlobal => true | _ => false end.
Definition isPrint (op : Operation) : bool := isPrintStageOp (_opcode op).
Definition startCondition (op : Operation) : option bool := match _opcode op with StartCondition globalsBefore => Some globalsBefore | _ => None end.

Definition count (f : Operation -> bool) (ops : list Operation) : Z := Z.of_nat (length (filter (fun op => f op = true) ops)).

Lemma count_app f l1 l2 : count f (l1 ++ l2) = count f l1 + count f l2.
Proof. unfold count. rewrite filter_app, length_app. lia. Qed.

Lemma count_cons f op l : count f (op :: l) = (if f op then 1 else 0) + count f l.
Proof. unfold count. rewrite filter_cons. destruct (f op) eqn:E; [rewrite decide_True by done|rewrite decide_False by done]; cbn [length]; lia. Qed.

Lemma count_nonneg f l : 0 <= count f l.
Proof. unfold count. lia. Qed.

Lemma count_zero f l : count f l = 0 -> forall op, op ∈ l -> f op = false.
Proof.
  intros H op Hin. destruct (f op) eqn:E; [|done]. apply list_elem_of_split in Hin as (l1 & l2 & ->). rewrite count_app, count_cons, E in H.
  pose proof (count_nonneg f l1). pose proof (count_nonneg f l2). lia.
Qed.

Lemma count_length f l : count f l <= Z.of_nat (length l).
Proof. unfold count. pose proof (length_filter (fun op => f op = true) l). lia. Qed.

(** No register that an operation reads has been written *)
Definition ready (st : emission) (op : Operation) : bool := negb (existsb (fun registerIndex => bool_decide (registerIndex ∈ _registersWritten st)) (readRegisters op)).

Lemma ready_spec st op pre : (forall r, r ∈ _registersWritten st <-> r ∈ written pre) -> ready st op = true <-> readRegisters op ## written pre.
Proof.
  intros H. unfold ready. rewrite negb_true_iff, <- not_true_iff_false, existsb_exists. split.
  - intros Hn x Hx Hw. apply Hn. exists x. split; [by apply list_elem_of_In|by apply bool_decide_eq_true, H].
  - intros Hd (x & Hx%list_elem_of_In & Hw%bool_decide_eq_true). apply (Hd x); [done|by apply H].
Qed.

(** [emitOperation] by the class of the operation *)
Lemma emitOperation_class ga st op :
  emitOperation ga st op =
  let registersWritten := list_to_set (writtenRegisters op) ∪ _registersWritten st in
  let next remaining emitted w p := mkEmission remaining emitted registersWritten w p in
  let keep := next (_remaining st ++ [op]) (_emitted st) (_writeGlobals st) (_printOps st) (_globalsAfterStartConditionNext st) (_startConditionStage st) (_printStageBeforeStartCondition st) in
  match startCondition op with
  | Some gb => Ok (if ready st op && negb (gb && ((0 <? _writeGlobals st) || (0 <? _printOps st)))
                   then next (_remaining st) (_emitted st ++ [op]) (_writeGlobals st) (_printOps st) false true gb else keep)
  | None =>
      if isWriteGlobal op then
        if ready st op && negb ga
        then assert_ (0 <? _writeGlobals st);;
             Ok (next (_remaining st) (_emitted st ++ [op]) (_writeGlobals st - 1) (_printOps st) (_globalsAfterStartConditionNext st) (_startConditionStage st) (_printStageBeforeStartCondition st))
        else Ok keep
      else if isPrint op then
        if ready st op
        then assert_ (0 <? _printOps st);;
             Ok (next (_remaining st) (_emitted st) (_writeGlobals st) (_printOps st - 1) (_globalsAfterStartConditionNext st) (_startConditionStage st) (_printStageBeforeStartCondition st))
        else Ok keep
      else Ok (if ready st op
               then next (_remaining st) (_emitted st ++ [op]) (_writeGlobals st) (_printOps st) (_globalsAfterStartConditionNext st) (_startConditionStage st) (_printStageBeforeStartCondition st)
               else keep)
  end.
Proof. unfold emitOperation, startCondition, isWriteGlobal, isPrint, GetAccessedRegisters, ready. destruct (_opcode op); reflexivity. Qed.

Lemma isPrint_class op : isPrint op = true -> startCondition op = None /\ isWriteGlobal op = false.
Proof. unfold isPrint, startCondition, isWriteGlobal. by destruct (_opcode op). Qed.

Lemma isWriteGlobal_class op : isWriteGlobal op = true -> startCondition op = None /\ isPrint op = false.
Proof. unfold isPrint, startCondition, isWriteGlobal. by destruct (_opcode op). Qed.

Lemma startCondition_class op gb : startCondition op = Some gb -> isWriteGlobal op = false /\ isPrint op = false.
Proof. unfold isPrint, startCondition, isWriteGlobal. by destruct (_opcode op). Qed.

(** An operation is prompt when it reads nothing that is written before and belongs to no class. *)
Lemma prompt_class pre op : prompt pre op <-> readRegisters op ## written pre /\ startCondition op = None /\ isWriteGlobal op = false /\ isPrint op = false.
Proof. unfold prompt, startCondition, isWriteGlobal, isPrint. destruct (_opcode op); cbn; naive_solver. Qed.

(** ** The operations of a pipeline stage *)

Definition isStartCondition (op : Operation) : bool := match startCondition op with Some _ => true | None => false end.

(** At most one start condition, which writes nothing; when the globals are
    written after it, it does not depend on what is written to them before;
    what is printed writes nothing. *)
Record wellFormed (ops : list Operation) : Prop := mkWellFormed {
  wf_written : NoDup (written ops);
  wf_startCondition : count isStartCondition ops <= 1;
  wf_startConditionWrites : forall op gb, op ∈ ops -> startCondition op = Some gb -> writtenRegisters op = [];
  wf_globalsAfter : forall l1 sc l2 wg op, ops = l1 ++ sc :: l2 -> startCondition sc = Some false -> wg ∈ l1 -> isWriteGlobal wg = true -> op ∈ l1 ++ [sc] ->
                    readRegisters op ## writtenRegisters wg;
  wf_printWrites : forall op, op ∈ ops -> isPrint op = true -> writtenRegisters op = [] }.

Lemma count_sublist f l1 l2 : l1 `sublist_of` l2 -> count f l1 <= count f l2.
Proof. induction 1; rewrite ?count_cons; [lia|lia|destruct (f x); lia]. Qed.

Lemma written_sublist l1 l2 : l1 `sublist_of` l2 -> written l1 `sublist_of` written l2.
Proof.
  unfold written. induction 1 as [|x l1 l2 H IH|x l1 l2 H IH]; cbn [fmap list_fmap concat]; [done|by apply sublist_app|].
  by apply sublist_inserts_l.
Qed.

Lemma wellFormed_sublist l1 l2 : l1 `sublist_of` l2 -> wellFormed l2 -> wellFormed l1.
Proof.
  intros Hs [W1 W2 W3 W4 W5]. pose proof (fun x H => elem_of_sublist _ _ x H Hs) as Hin. split; [|..|by eauto].
  - eapply sublist_NoDup; [exact W1|by apply written_sublist].
  - pose proof (count_sublist isStartCondition _ _ Hs). lia.
  - eauto.
  - intros r1 sc r2 wg op -> Hsc Hwg Hg Hop. apply sublist_app_cons_l in Hs as (p1 & p2 & -> & Hs1 & Hs2).
    apply (W4 p1 sc p2 wg op); [done|done|by eapply elem_of_sublist|done|]. eapply elem_of_sublist; [exact Hop|by apply sublist_app].
Qed.

Lemma divides_sublist pre emitted remaining delayed : divides pre emitted remaining delayed -> emitted `sublist_of` pre /\ remaining `sublist_of` pre.
Proof. induction 1 as [|pre e r d op H [IH1 IH2]|pre e r d op H [IH1 IH2]|pre e r d op H [IH1 IH2]]; [done|..]; split; by (apply sublist_app || apply sublist_inserts_r). Qed.

(** ** One pass *)

Section Pass.
Context (p : progress) (operations : list Operation).
Hypothesis Hwf : wellFormed operations.

(** The start condition, when the pass has emitted it *)
Definition started (rest : list Operation) (st : emission) : Prop :=
  (count isStartCondition (_emitted st) = 0 /\ _startConditionStage st = false /\ _globalsAfterStartConditionNext st = _pgGlobalsAfter p /\
   _printStageBeforeStartCondition st = _pgPrintStageBefore p) \/
  (exists globalsBefore e1 sc e2, _emitted st = e1 ++ sc :: e2 /\ startCondition sc = Some globalsBefore /\ _startConditionStage st = true /\
   _globalsAfterStartConditionNext st = false /\ _printStageBeforeStartCondition st = globalsBefore /\
   (globalsBefore = true -> count isWriteGlobal (e2 ++ _remaining st ++ rest) = 0 /\ count isPrint (_remaining st ++ rest) = 0)).

(** Something was taken, unless all that was seen must wait *)
Definition advances (pre rest emitted delayed : list Operation) : Prop :=
  emitted ++ delayed <> [] \/
  ((forall op, op ∈ pre -> isWriteGlobal op = true) /\ (pre <> [] -> _pgGlobalsAfter p = true)) \/
  (exists sc, pre = [sc] /\ startCondition sc = Some true /\ 0 < count isWriteGlobal rest + count isPrint rest).

Record passInvariant (pre rest : list Operation) (st : emission) (delayed : list Operation) : Prop := mkPassInvariant {
  pi_divides : divides pre (_emitted st) (_remaining st) delayed;
  pi_written : forall r, r ∈ _registersWritten st <-> r ∈ written pre;
  pi_writeGlobals : _writeGlobals st = count isWriteGlobal (_remaining st ++ rest);
  pi_printOps : _printOps st = count isPrint (_remaining st ++ rest);
  pi_delayed : Forall (fun op => isPrint op = true) delayed;
  pi_emitted : Forall (fun op => isPrint op = false) (_emitted st);
  pi_started : started rest st;
  pi_globals : _pgGlobalsAfter p = true -> count isWriteGlobal (_emitted st) = 0;
  pi_advances : advances pre rest (_emitted st) delayed }.

Lemma only_start op : op ∈ operations -> isStartCondition op = true -> count isStartCondition operations = 1.
Proof.
  intros Hin Hsc. pose proof (wf_startCondition _ Hwf). apply list_elem_of_split in Hin as (l1 & l2 & Heq). rewrite Heq, count_app, count_cons, Hsc in *.
  pose proof (count_nonneg isStartCondition l1). pose proof (count_nonneg isStartCondition l2). lia.
Qed.

Lemma start_kind l1 op l2 : operations = l1 ++ op :: l2 -> isStartCondition op = true -> forall op', op' ∈ operations -> isStartCondition op' = true -> op' = op.
Proof.
  intros Heq Hsc op' Hin Hsc'. pose proof (only_start op ltac:(rewrite Heq; set_solver) Hsc) as H1. rewrite Heq, count_app, count_cons, Hsc in H1.
  pose proof (count_nonneg isStartCondition l1). pose proof (count_nonneg isStartCondition l2).
  rewrite Heq in Hin. apply elem_of_app in Hin as [Hin|Hin]; [by rewrite (count_zero isStartCondition l1) in Hsc' by (done || lia)|].
  apply elem_of_cons in Hin as [Hin|Hin]; [done|by rewrite (count_zero isStartCondition l2) in Hsc' by (done || lia)].
Qed.

Lemma isStartCondition_Some op gb : startCondition op = Some gb -> isStartCondition op = true.
Proof. unfold isStartCondition. by intros ->. Qed.

Context (Hafter : _pgGlobalsAfter p = true -> exists sc, sc ∈ operations /\ startCondition sc = Some false).

(** When the globals wait for the start condition, a start condition of the other kind is not among the operations. *)
Lemma after_no_before op : op ∈ operations -> startCondition op = Some true -> _pgGlobalsAfter p = false.
Proof.
  intros Hin Hsc. destruct (_pgGlobalsAfter p) eqn:E; [|done]. destruct (Hafter eq_refl) as (sc & Hin' & Hsc').
  pose proof Hin' as (l1 & l2 & Heq)%list_elem_of_split. assert (op = sc) as -> by eauto using start_kind, isStartCondition_Some. congruence.
Qed.

(** An operation that must not be taken is not ready, or all that was seen waits. *)
Lemma advances_ready pre op rest emitted delayed :
  operations = pre ++ op :: rest -> advances pre (op :: rest) emitted delayed -> emitted ++ delayed <> [] \/ readRegisters op ## written pre.
Proof.
  intros Heq [H|[[Hall Hga]|(sc & -> & Hsc & _)]]; [by left|right..].
  - destruct (decide (pre = [])) as [->|Hne]; [set_solver|]. destruct (Hafter (Hga Hne)) as (sc & Hin & Hsc).
    assert (Hin' : sc ∈ op :: rest).
    { rewrite Heq in Hin. apply elem_of_app in Hin as [Hin|Hin]; [|done]. apply Hall, isWriteGlobal_class in Hin as [Hin _]. congruence. }
    apply list_elem_of_split in Hin' as (m1 & m2 & Heq'). intros r Hr Hw. apply elem_of_written in Hw as (wg & Hwg & Hw).
    refine (wf_globalsAfter _ Hwf (pre ++ m1) sc m2 wg op _ Hsc _ (Hall _ Hwg) _ r Hr Hw); [by rewrite <- app_assoc, <- Heq'|set_solver|].
    destruct m1 as [|o m1]; cbn in Heq'; injection Heq' as -> _; set_solver.
  - rewrite written_singleton, (wf_startConditionWrites _ Hwf sc true) by (done || rewrite Heq; set_solver). set_solver.
Qed.

Lemma advances_keep pre op rest emitted delayed :
  operations = pre ++ op :: rest -> advances pre (op :: rest) emitted delayed ->
  ~ readRegisters op ## written pre \/ (startCondition op = Some true /\ 0 < count isWriteGlobal (pre ++ rest) + count isPrint (pre ++ rest)) \/ (isWriteGlobal op = true /\ _pgGlobalsAfter p = true) ->
  advances (pre ++ [op]) rest emitted delayed.
Proof.
  intros Heq Hadv [Hn|[[Hsc Hp]|[Hwg Hga]]].
  - destruct (advances_ready _ _ _ _ _ Heq Hadv) as [H|H]; [by left|done].
  - assert (Hno : _pgGlobalsAfter p = false) by (apply (after_no_before op); [rewrite Heq; set_solver|done]).
    destruct Hadv as [H|[[Hall Hga]|(sc & -> & Hsc' & _)]]; [by left|..].
    + right; right. destruct pre as [|o pre]; [by exists op|]. rewrite Hga in Hno; done.
    + pose proof (wf_startCondition _ Hwf) as H1. rewrite Heq in H1. cbn [app] in H1. rewrite !count_cons, (isStartCondition_Some _ _ Hsc), (isStartCondition_Some _ _ Hsc') in H1.
      pose proof (count_nonneg isStartCondition rest). lia.
  - destruct Hadv as [H|[[Hall _]|(sc & -> & Hsc' & _)]]; [by left|..].
    + right; left. split; [|done]. intros o [Ho|Ho%list_elem_of_singleton]%elem_of_app; [by apply Hall|by subst].
    + rewrite (after_no_before sc) in Hga by (done || rewrite Heq; set_solver). done.
Qed.

Lemma advances_end emitted delayed : operations <> [] -> advances operations [] emitted delayed -> emitted ++ delayed <> [].
Proof.
  intros Hne [H|[[Hall Hga]|(sc & _ & _ & H)]]; [done|..].
  - destruct (Hafter (Hga Hne)) as (sc & Hin & Hsc). apply Hall, isWriteGlobal_class in Hin as [Hin _]. congruence.
  - by change (0 < 0) in H.
Qed.

(** ** The outcomes of one operation *)

Lemma pi_written_snoc (w : gset nat) pre op : (forall r, r ∈ w <-> r ∈ written pre) -> forall r, r ∈ list_to_set (writtenRegisters op) ∪ w <-> r ∈ written (pre ++ [op]).
Proof. intros H r. rewrite written_app, written_singleton, elem_of_app, elem_of_union, elem_of_list_to_set, H. tauto. Qed.

Lemma started_counts rest rest' e r r' w w' q q' z z' n s b :
  count isWriteGlobal (r' ++ rest') = count isWriteGlobal (r ++ rest) -> count isPrint (r' ++ rest') <= count isPrint (r ++ rest) ->
  started rest (mkEmission r e w q z n s b) -> started rest' (mkEmission r' e w' q' z' n s b).
Proof.
  intros Hw Hp [H|(gb & e1 & sc & e2 & H1 & H2 & H3 & H4 & H5 & H6)]; [by left|right]. exists gb, e1, sc, e2. cbn in *. split_and!; try done.
  intros Hgb. destruct (H6 Hgb) as [H7 H8]. rewrite (count_app _ e2) in *. rewrite Hw. split; [done|]. pose proof (count_nonneg isPrint (r' ++ rest')). lia.
Qed.

Lemma pass_keep pre op rest r e w q z n s b d :
  operations = pre ++ op :: rest -> passInvariant pre (op :: rest) (mkEmission r e w q z n s b) d ->
  ~ readRegisters op ## written pre \/ (startCondition op = Some true /\ 0 < count isWriteGlobal (pre ++ rest) + count isPrint (pre ++ rest)) \/ (isWriteGlobal op = true /\ _pgGlobalsAfter p = true) \/ False ->
  passInvariant (pre ++ [op]) rest (mkEmission (r ++ [op]) e (list_to_set (writtenRegisters op) ∪ w) q z n s b) d.
Proof.
  intros Heq [I1 I2 I3 I4 I5 I6 I7 I8 I9] Hwhy. cbn in *. split; cbn; try done.
  - apply divides_keep; [done|]. rewrite prompt_class. intros (? & ? & ? & ?). naive_solver congruence.
  - by apply pi_written_snoc.
  - by rewrite <- app_assoc.
  - by rewrite <- app_assoc.
  - eapply started_counts, I7; by rewrite <- app_assoc.
  - eapply advances_keep; [done..|naive_solver].
Qed.

Lemma pass_emit pre op rest r e w q z n s b d :
  operations = pre ++ op :: rest -> passInvariant pre (op :: rest) (mkEmission r e w q z n s b) d ->
  readRegisters op ## written pre -> startCondition op = None -> isPrint op = false -> (isWriteGlobal op = true -> _pgGlobalsAfter p = false) ->
  passInvariant (pre ++ [op]) rest (mkEmission r (e ++ [op]) (list_to_set (writtenRegisters op) ∪ w) (q - if isWriteGlobal op then 1 else 0) z n s b) d.
Proof.
  intros Heq [I1 I2 I3 I4 I5 I6 I7 I8 I9] Hr Hsc Hp Hwg. cbn in *. split; cbn; try done.
  - by apply divides_emit.
  - by apply pi_written_snoc.
  - rewrite count_app, count_cons in I3. rewrite count_app. lia.
  - rewrite count_app, count_cons, Hp in I4. rewrite count_app. lia.
  - apply Forall_app. split; [done|]. by constructor.
  - destruct I7 as [(H1 & H2 & H3 & H4)|(gb & e1 & sc & e2 & H1 & H2 & H3 & H4 & H5 & H6)]; cbn in *; [left|right; exists gb, e1, sc, (e2 ++ [op])]; cbn; [|rewrite H1].
    + split_and!; try done. rewrite count_app, count_cons, H1. unfold isStartCondition. by rewrite Hsc.
    + rewrite <- app_assoc. split_and!; try done. intros Hgb. destruct (H6 Hgb) as [H7 H8]. rewrite !count_app, ?count_cons, Hp in *. cbn. 
      change (count isWriteGlobal []) with 0. lia.
  - intros Hga. rewrite count_app, count_cons, I8 by done. destruct (isWriteGlobal op); [|done]. by rewrite Hwg in Hga.
  - left. by destruct e.
Qed.

Lemma pass_delay pre op rest r e w q z n s b d :
  operations = pre ++ op :: rest -> passInvariant pre (op :: rest) (mkEmission r e w q z n s b) d ->
  readRegisters op ## written pre -> isPrint op = true ->
  passInvariant (pre ++ [op]) rest (mkEmission r e (list_to_set (writtenRegisters op) ∪ w) q (z - 1) n s b) (d ++ [op]).
Proof.
  intros Heq [I1 I2 I3 I4 I5 I6 I7 I8 I9] Hr Hp. destruct (isPrint_class op Hp) as [Hsc Hwg]. cbn in *. split; cbn; try done.
  - apply divides_delay; try done; [apply (wf_printWrites _ Hwf); [rewrite Heq; set_solver|done]|]. rewrite prompt_class, Hp. naive_solver.
  - by apply pi_written_snoc.
  - rewrite count_app, count_cons, Hwg in I3. rewrite count_app. lia.
  - rewrite count_app, count_cons, Hp in I4. rewrite count_app. lia.
  - apply Forall_app. split; [done|]. by constructor.
  - eapply started_counts, I7; rewrite !count_app, count_cons, ?Hwg, ?Hp; lia.
  - left. destruct e; [|done]. by destruct d.
Qed.

Lemma pass_start pre op rest r e w q z n s b d gb :
  operations = pre ++ op :: rest -> passInvariant pre (op :: rest) (mkEmission r e w q z n s b) d ->
  readRegisters op ## written pre -> startCondition op = Some gb -> (gb = true -> q <= 0 /\ z <= 0) ->
  passInvariant (pre ++ [op]) rest (mkEmission r (e ++ [op]) (list_to_set (writtenRegisters op) ∪ w) q z false true gb) d.
Proof.
  intros Heq [I1 I2 I3 I4 I5 I6 I7 I8 I9] Hr Hsc Hgb. destruct (startCondition_class op gb Hsc) as [Hwg Hp]. cbn in *. split; cbn; try done.
  - by apply divides_emit.
  - by apply pi_written_snoc.
  - rewrite count_app, count_cons, Hwg in I3. rewrite count_app. lia.
  - rewrite count_app, count_cons, Hp in I4. rewrite count_app. lia.
  - apply Forall_app. split; [done|]. by constructor.
  - right. exists gb, e, op, []. cbn. split_and!; try done. intros ->. destruct (Hgb eq_refl) as [H1 H2].
    rewrite !count_app, !count_cons, Hwg, Hp in *. pose proof (count_nonneg isWriteGlobal (r ++ rest)) as N1. pose proof (count_nonneg isPrint (r ++ rest)) as N2. rewrite !count_app in N1, N2. lia.
  - intros Hga. rewrite count_app, count_cons, I8, Hwg by done. done.
  - left. by destruct e.
Qed.

(** ** A whole pass *)

Lemma pending_sublist pre op rest r e w q z n s b d :
  passInvariant pre (op :: rest) (mkEmission r e w q z n s b) d -> startCondition op <> None -> 0 < q \/ 0 < z -> 0 < count isWriteGlobal (pre ++ rest) + count isPrint (pre ++ rest).
Proof.
  intros [I1 I2 I3 I4 I5 I6 I7 I8 I9] Hsc Hpos. cbn in *. destruct (startCondition op) as [gb|] eqn:E; [|done]. destruct (startCondition_class op gb E) as [Hwg Hp].
  destruct (divides_sublist _ _ _ _ I1) as [_ Hsub]. pose proof (count_sublist isWriteGlobal _ _ Hsub) as S1. pose proof (count_sublist isPrint _ _ Hsub) as S2.
  rewrite count_app, count_cons, Hwg in I3. rewrite count_app, count_cons, Hp in I4. rewrite !count_app.
  pose proof (count_nonneg isWriteGlobal rest). pose proof (count_nonneg isPrint rest). pose proof (count_nonneg isWriteGlobal pre). pose proof (count_nonneg isPrint pre). lia.
Qed.

Lemma pass_step pre op rest st d :
  operations = pre ++ op :: rest -> passInvariant pre (op :: rest) st d ->
  exists st' d', emitOperation (_pgGlobalsAfter p) st op = Ok st' /\ passInvariant (pre ++ [op]) rest st' d'.
Proof.
  intros Heq Hinv. destruct st as [r e w q z n s b]. pose proof Hinv as [I1 I2 I3 I4 I5 I6 I7 I8 I9]. cbn in I2, I3, I4. rewrite emitOperation_class. cbn [_remaining _emitted _registersWritten _writeGlobals _printOps _globalsAfterStartConditionNext _startConditionStage _printStageBeforeStartCondition].
  pose proof (ready_spec (mkEmission r e w q z n s b) op pre I2) as Hready. destruct (ready _ op) eqn:Er.
  2: { assert (Hn : ~ readRegisters op ## written pre) by (intros H; by apply Hready in H).
       exists (mkEmission (r ++ [op]) e (list_to_set (writtenRegisters op) ∪ w) q z n s b), d. split; [|by eauto using pass_keep].
       cbn [andb]. by destruct (startCondition op), (isWriteGlobal op), (isPrint op). }
  assert (Hr : readRegisters op ## written pre) by (by apply Hready). cbn [andb].
  pose proof (count_nonneg isWriteGlobal (r ++ rest)) as N1. pose proof (count_nonneg isPrint (r ++ rest)) as N2. rewrite count_app in N1, N2. rewrite count_app, count_cons in I3, I4.
  destruct (startCondition op) as [gb|] eqn:Esc; [|destruct (isWriteGlobal op) eqn:Ewg; [|destruct (isPrint op) eqn:Ep]].
  - destruct (gb && ((0 <? q) || (0 <? z))) eqn:Epend; cbn [negb]; eexists _, d; (split; [reflexivity|]).
    + apply andb_true_iff in Epend as [-> [Hpos%Z.ltb_lt|Hpos%Z.ltb_lt]%orb_true_iff]; (eapply pass_keep; [done..|right; left; split; [done|]; eapply pending_sublist; [done|congruence|by auto]]).
    + eapply pass_start; [done..|]. intros ->. apply orb_false_iff in Epend as [H1%Z.ltb_ge H2%Z.ltb_ge]. done.
  - assert (Hga : _pgGlobalsAfter p = true \/ _pgGlobalsAfter p = false) by (by destruct (_pgGlobalsAfter p); [left|right]).
    destruct Hga as [Ega|Ega]; rewrite Ega; cbn [negb]; eexists _, d.
    + split; [reflexivity|]. eapply pass_keep; [done..|naive_solver].
    + rewrite assert_true by (apply Z.ltb_lt; lia). split; [reflexivity|]. pose proof (pass_emit pre op rest r e w q z n s b d Heq Hinv Hr Esc) as H. rewrite Ewg in H.
      apply H; [by apply isWriteGlobal_class|done].
  - rewrite assert_true by (apply Z.ltb_lt; lia). eexists _, _. split; [reflexivity|]. by eapply pass_delay.
  - eexists _, d. split; [reflexivity|]. pose proof (pass_emit pre op rest r e w q z n s b d Heq Hinv Hr Esc Ep) as H. rewrite Ewg, Z.sub_0_r in H. by apply H.
Qed.

Lemma pass_fold rest pre st d :
  operations = pre ++ rest -> passInvariant pre rest st d ->
  exists st' d', foldM (emitOperation (_pgGlobalsAfter p)) rest st = Ok st' /\ passInvariant operations [] st' d'.
Proof.
  revert pre st d. induction rest as [|op rest IH]; intros pre st d Heq Hinv.
  - exists st, d. rewrite app_nil_r in Heq. by subst.
  - destruct (pass_step pre op rest st d Heq Hinv) as (st1 & d1 & Hop & Hinv1). cbn [foldM]. rewrite Hop. cbn [mbind result_bind]. apply (IH (pre ++ [op])) with (d := d1); [by rewrite <- app_assoc|done].
Qed.

Lemma pass_runs : operations <> [] -> _pgWriteGlobals p = count isWriteGlobal operations -> _pgPrintOps p = count isPrint operations ->
  exists st d, foldM (emitOperation (_pgGlobalsAfter p)) operations (mkEmission [] [] ∅ (_pgWriteGlobals p) (_pgPrintOps p) (_pgGlobalsAfter p) false (_pgPrintStageBefore p)) = Ok st /\
    passInvariant operations [] st d /\ _emitted st ++ d <> [].
Proof.
  intros Hne Hw Hp. destruct (pass_fold operations [] (mkEmission [] [] ∅ (_pgWriteGlobals p) (_pgPrintOps p) (_pgGlobalsAfter p) false (_pgPrintStageBefore p)) []) as (st & d & Hf & Hinv); [done|..].
  - split; cbn; [apply divides_nil|set_solver|done|done|by constructor|by constructor|by left|done|right; left; split; [set_solver|done]].
  - exists st, d. split; [done|]. split; [done|]. eapply advances_end; [done|]. apply Hinv.
Qed.

End Pass.

End StageLoop.
