(* ===== verification/StageCorrect.v ===== *)
(** * Stages implement the operations of a pipeline stage

    The outer loop of [EmitPipelineStage] ([loopInvariant]) and the theorem: what
    the stages compute and print is what the operations, one after another,
    compute and print; and [CheckStartingGlobalWrites] of [compiler.cpp], the check
    that the compiler makes of the result, never fails. *)

From S2P Require Import Prelude MachineInt Literals Ir Semantics Flow PipelineStages StageSemantics.
Import MachineInt Containers Literals Ir Semantics FlowSemantics PipelineStages StageSemantics StageLoop.

Module StageCorrect.

(** What the check has seen: the start condition, its kind, and the writes *)
Record startCheck : Type := mkStartCheck {
  _startCondition : bool;
  _globalsBefore : bool;
  _globalWriteBeforeStartCondition : bool;
  _globalWriteAfterStartCondition : bool }.

Definition checkOperation (c : startCheck) (op : Operation) : startCheck :=
  match _opcode op with
  | WriteGlobal | Print _ | Assert =>
      if _startCondition c then mkStartCheck true (_globalsBefore c) (_globalWriteBeforeStartCondition c) true
      else mkStartCheck false (_globalsBefore c) true (_globalWriteAfterStartCondition c)
  | StartCondition globalsBefore => mkStartCheck true globalsBefore (_globalWriteBeforeStartCondition c) (_globalWriteAfterStartCondition c)
  | _ => c
  end.

Fixpoint checkStages (c : startCheck) (stages : list PipelineStage) : startCheck :=
  match stages with
  | [] => c
  | stage :: stages => if 0 <? _atomicSequence stage then c else checkStages (fold_left checkOperation (_stageOperations stage) c) stages
  end.

(** The check of one basic block that has a start condition *)
Definition CheckStartingGlobalWrites (stages : list PipelineStage) : result unit :=
  let c := checkStages (mkStartCheck false false false false) stages in
  assert_ (_startCondition c);;
  if _globalsBefore c then assert_ (negb (_globalWriteAfterStartCondition c));; Ok tt
  else assert_ (negb (_globalWriteBeforeStartCondition c));; Ok tt.

(** ** Stages *)

Section Stages.
Context (program : Program) (value : Operation -> list SourceOperand -> list Z).

Local Abbreviation run := (run program value).
Local Abbreviation runStages := (runStages program value).
Local Abbreviation parallel := (parallel program value).
Local Abbreviation stagesEvents := (stagesEvents program value).
Local Abbreviation stageEvents := (stageEvents program).
Local Abbreviation events := (events program value).

Definition addStage (stages : list (list Operation)) (stage : list Operation) : list (list Operation) :=
  match stage with [] => stages | _ => stages ++ [stage] end.

Lemma runStages_app σ s1 s2 : runStages σ (s1 ++ s2) = runStages (runStages σ s1) s2.
Proof. apply fold_left_app. Qed.

Lemma stagesEvents_app σ s1 s2 : stagesEvents σ (s1 ++ s2) = stagesEvents σ s1 ++ stagesEvents (runStages σ s1) s2.
Proof. revert σ. induction s1 as [|s s1 IH]; intros σ; [done|]. cbn. by rewrite IH, <- app_assoc. Qed.

Lemma runStages_add σ stages stage : runStages σ (addStage stages stage) = parallel (runStages σ stages) stage.
Proof. destruct stage; [done|]. cbn [addStage]. by rewrite runStages_app. Qed.

Lemma stagesEvents_add σ stages stage : stagesEvents σ (addStage stages stage) = stagesEvents σ stages ++ stageEvents (runStages σ stages) stage.
Proof. destruct stage; cbn [addStage]; [by rewrite app_nil_r|]. rewrite stagesEvents_app. cbn. by rewrite app_nil_r. Qed.

Lemma concat_add (stages : list (list Operation)) stage : concat (addStage stages stage) = concat stages ++ stage.
Proof. destruct stage; cbn [addStage]; [by rewrite app_nil_r|]. rewrite concat_app. cbn. by rewrite app_nil_r. Qed.

Lemma stageEvents_agree σ τ ops : (forall op r, op ∈ ops -> r ∈ readRegisters op -> σ r = τ r) -> stageEvents σ ops = stageEvents τ ops.
Proof. intros H. unfold StageSemantics.stageEvents. apply list_fmap_ext. intros i op Hop. f_equal. apply sources_agree. intros r Hr. eapply H; [by eapply list_elem_of_lookup_2|done]. Qed.

Lemma parallel_at ops σ τ r : (forall r, σ r = τ r) -> parallel σ ops r = parallel τ ops r.
Proof.
  intros H. unfold StageSemantics.parallel. cut (forall σ' τ', same σ' τ' -> fold_left (fun τ0 op => write (_dst op) (value op (sources program σ op)) τ0) ops σ' r =
    fold_left (fun τ0 op => write (_dst op) (value op (sources program τ op)) τ0) ops τ' r); [by auto|].
  induction ops as [|op ops IH]; intros σ' τ' H'; [done|]. cbn. apply IH. intros q. rewrite (sources_agree program σ τ op) by done. by apply write_at.
Qed.

Lemma runStages_same stages σ τ : same σ τ -> same (runStages σ stages) (runStages τ stages).
Proof. revert σ τ. induction stages as [|s stages IH]; intros σ τ H; [done|]. cbn. apply IH. intros r. by apply parallel_at. Qed.

Lemma stagesEvents_same stages σ τ : same σ τ -> stagesEvents σ stages = stagesEvents τ stages.
Proof.
  revert σ τ. induction stages as [|s stages IH]; intros σ τ H; [done|]. cbn. rewrite (stageEvents_agree σ τ) by done. f_equal. apply IH. intros r. by apply parallel_at.
Qed.

Lemma runStages_unwritten stages σ r : r ∉ written (concat stages) -> runStages σ stages r = σ r.
Proof.
  revert σ. induction stages as [|s stages IH]; intros σ H; [done|]. cbn [concat] in H. rewrite written_app in H.
  change (runStages σ (s :: stages)) with (runStages (parallel σ s) stages). rewrite IH by set_solver. apply parallel_unwritten. set_solver.
Qed.

Lemma unwritten_nil ops : (forall op, op ∈ ops -> writtenRegisters op = []) -> written ops = [].
Proof. intros H. destruct (written ops) as [|r l] eqn:E; [done|]. assert (Hin : r ∈ written ops) by (rewrite E; set_solver). apply elem_of_written in Hin as (op & Hop & Hr). rewrite H in Hr by done. by apply not_elem_of_nil in Hr. Qed.

(** ** The loop *)

Section Loop.
Context (σ : nat -> Z) (ops0 : list Operation) (Hwf0 : wellFormed ops0).

(** The start condition, when it is in a stage: everything that comes before
    it is in the stages before it, or is a print that can run there *)
Definition placed (p : progress) (operations delayed : list Operation) : Prop :=
  (count isStartCondition (concat (_pgStages p)) = 0 /\ _pgStartConditionStage p = None /\ _pgPrintStageBefore p = false /\
   ((exists sc, sc ∈ operations /\ startCondition sc = Some false) -> _pgGlobalsAfter p = true) /\
   (_pgGlobalsAfter p = true -> count isWriteGlobal (concat (_pgStages p)) = 0)) \/
  (exists i globalsBefore s1 e1 sc e2 s2, _pgStages p = s1 ++ (e1 ++ sc :: e2) :: s2 /\ length s1 = i /\ startCondition sc = Some globalsBefore /\
   _pgStartConditionStage p = Some i /\ _pgPrintStageBefore p = globalsBefore /\ _pgGlobalsAfter p = false /\
   (globalsBefore = true -> count isWriteGlobal (e2 ++ concat s2 ++ operations) = 0 /\ count isPrint operations = 0 /\
                            forall d, d ∈ delayed -> readRegisters d ## written ((e1 ++ sc :: e2) ++ concat s2)) /\
   (globalsBefore = false -> count isWriteGlobal (concat s1 ++ e1 ++ sc :: e2) = 0)).

Record loopInvariant (p : progress) (operations delayed : list Operation) : Prop := mkLoopInvariant {
  li_run : same (run σ ops0) (run (runStages σ (_pgStages p)) operations);
  li_events : events σ ops0 ≡ₚ stagesEvents σ (_pgStages p) ++ stageEvents (runStages σ (_pgStages p)) delayed ++ events (runStages σ (_pgStages p)) operations;
  li_operations : ops0 ≡ₚ concat (_pgStages p) ++ delayed ++ operations;
  li_wellFormed : wellFormed operations;
  li_war : war_free operations;
  li_delayed : forall d, d ∈ delayed -> isPrint d = true /\ writtenRegisters d = [] /\ readRegisters d ## written operations;
  li_stages : Forall (fun op => isPrint op = false) (concat (_pgStages p));
  li_nonempty : Forall (fun stage => stage <> []) (_pgStages p);
  li_writeGlobals : _pgWriteGlobals p = count isWriteGlobal operations;
  li_printOps : _pgPrintOps p = count isPrint operations;
  li_after : _pgGlobalsAfter p = true -> exists sc, sc ∈ operations /\ startCondition sc = Some false;
  li_placed : placed p operations delayed }.

Lemma emitPass_add p operations st :
  foldM (emitOperation (_pgGlobalsAfter p)) operations (mkEmission [] [] ∅ (_pgWriteGlobals p) (_pgPrintOps p) (_pgGlobalsAfter p) false (_pgPrintStageBefore p)) = Ok st ->
  (_startConditionStage st = true -> _emitted st <> []) ->
  emitPass p operations = Ok (_remaining st, mkProgress (_writeGlobals st) (_printOps st) (_globalsAfterStartConditionNext st) (addStage (_pgStages p) (_emitted st))
    (if _startConditionStage st then Some (length (_pgStages p)) else _pgStartConditionStage p) (_printStageBeforeStartCondition st)).
Proof.
  intros H Hs. unfold emitPass. rewrite H. cbn [mbind result_bind]. destruct (_emitted st) eqn:E; [|done]. destruct (_startConditionStage st); [by specialize (Hs eq_refl)|done].
Qed.

Lemma addStage_app s1 stage s2 e : addStage (s1 ++ stage :: s2) e = s1 ++ stage :: addStage s2 e.
Proof. destruct e; [done|]. cbn [addStage]. by rewrite <- app_assoc. Qed.

Lemma count_perm f l1 l2 : l1 ≡ₚ l2 -> count f l1 = count f l2.
Proof. intros H. unfold count. by rewrite H. Qed.

Lemma written_sub l1 l2 r : l1 `sublist_of` l2 -> r ∈ written l1 -> r ∈ written l2.
Proof. intros H Hr. eapply elem_of_sublist; [done|by apply written_sublist]. Qed.

(** What the pass found of the start condition, as the loop keeps it *)
Lemma placed_pass p operations delayed st d :
  loopInvariant p operations delayed -> passInvariant p operations [] st d ->
  placed (mkProgress (_writeGlobals st) (_printOps st) (_globalsAfterStartConditionNext st) (addStage (_pgStages p) (_emitted st))
    (if _startConditionStage st then Some (length (_pgStages p)) else _pgStartConditionStage p) (_printStageBeforeStartCondition st)) (_remaining st) (delayed ++ d).
Proof.
  intros [L1 L2 L3 L4 L5 L6 L7 Lne L8 L9 L10 Lp] [I1 I2 I3 I4 I5 I6 I7 I8 _]. pose proof (divides_perm _ _ _ _ I1) as Hperm. destruct (divides_sublist _ _ _ _ I1) as [Hse Hsr].
  destruct I7 as [(S1 & S2 & S3 & S4)|(gb & e1 & sc & e2 & S1 & S2 & S3 & S4 & S5 & S6)]; rewrite ?S2, ?S3, ?S4, ?S5.
  - destruct Lp as [(P1 & P2 & P3 & P4 & P5)|(i & gb & s1 & e1 & sc & e2 & s2 & P1 & P2 & P3 & P4 & P5 & P6 & P7 & P8)]; [left|right; exists i, gb, s1, e1, sc, e2, (addStage s2 (_emitted st))]; unfold _pgStages, _pgStartConditionStage, _pgPrintStageBefore, _pgGlobalsAfter; fold (_pgStages p) (_pgStartConditionStage p) (_pgPrintStageBefore p) (_pgGlobalsAfter p).
    + rewrite concat_add, !count_app. split_and!; try done; [lia|..].
      * intros (sc & Hin & Hsc). apply P4. exists sc. split; [by eapply elem_of_sublist|done].
      * intros Hga. rewrite P5, I8 by done. done.
    + rewrite P1, addStage_app. split_and!; try done. intros ->. destruct (P7 eq_refl) as (Q1 & Q2 & Q3).
      assert (Hprint : count isPrint (_remaining st) = 0) by (pose proof (count_sublist isPrint _ _ Hsr); pose proof (count_nonneg isPrint (_remaining st)); lia).
      split_and!; [|done|].
      * rewrite !count_app in Q1. rewrite (count_perm isWriteGlobal _ _ Hperm), !count_app in Q1. rewrite !count_app, concat_add, count_app.
        pose proof (count_nonneg isWriteGlobal d). pose proof (count_nonneg isWriteGlobal e2). pose proof (count_nonneg isWriteGlobal (concat s2)). pose proof (count_nonneg isWriteGlobal (_emitted st)). pose proof (count_nonneg isWriteGlobal (_remaining st)). lia.
      * intros o [Ho|Ho]%elem_of_app.
        -- rewrite concat_add, app_assoc, written_app. intros r Hr [Hw|Hw]%elem_of_app; [by apply (Q3 o Ho r)|]. destruct (L6 o Ho) as (_ & _ & Hd). apply (Hd r Hr). by apply (written_sub _ _ _ Hse).
        -- assert (Hin : o ∈ operations) by (rewrite Hperm; set_solver). pose proof (proj1 (Forall_forall _ _) I5 o Ho) as Hp. cbn in Hp. by rewrite (count_zero isPrint operations Q2 o Hin) in Hp.
  - right. assert (Hsc : sc ∈ operations) by (eapply elem_of_sublist; [|exact Hse]; rewrite S1; set_solver).
    destruct Lp as [(P1 & P2 & P3 & P4 & P5)|(i & gb' & s1 & f1 & sc' & f2 & s2 & P1 & P2 & P3 & P4 & P5 & P6 & P7 & P8)].
    2: { exfalso. pose proof (wf_startCondition _ Hwf0) as Hle. rewrite (count_perm isStartCondition _ _ L3), P1, concat_app, !count_app in Hle. cbn [concat] in Hle. rewrite !count_app, !count_cons, (isStartCondition_Some _ _ P3) in Hle.
         apply list_elem_of_split in Hsc as (m1 & m2 & ->). rewrite count_app, count_cons, (isStartCondition_Some _ _ S2) in Hle.
         pose proof (count_nonneg isStartCondition (concat s1)). pose proof (count_nonneg isStartCondition (concat s2)). pose proof (count_nonneg isStartCondition f1). pose proof (count_nonneg isStartCondition f2).
         pose proof (count_nonneg isStartCondition m1). pose proof (count_nonneg isStartCondition m2). pose proof (count_nonneg isStartCondition delayed). lia. }
    assert (Hne : _emitted st <> []) by (rewrite S1; by destruct e1). exists (length (_pgStages p)), gb, (_pgStages p), e1, sc, e2, []. cbn [_pgStages _pgStartConditionStage _pgPrintStageBefore _pgGlobalsAfter]. split_and!; try done.
    + rewrite <- S1. unfold addStage. by destruct (_emitted st).
    + intros ->. destruct (S6 eq_refl) as [Q1 Q2]. cbn [concat]. rewrite app_nil_r in *. cbn [app]. split_and!; try done. rewrite ?app_nil_r, <- S1. intros o [Ho|Ho]%elem_of_app r Hr Hw.
      * destruct (L6 o Ho) as (_ & _ & Hd). apply (Hd r Hr). by apply (written_sub _ _ _ Hse).
      * destruct (divides_delayed _ _ _ _ o I1 L5 Ho) as [Hd _]. apply (Hd r Hr). by apply (written_sub _ _ _ Hse).
    + intros ->. assert (Hga : _pgGlobalsAfter p = true) by (apply P4; eauto). rewrite <- S1, count_app, P5, I8 by done. done.
Qed.

Lemma stageEvents_app τ l1 l2 : stageEvents τ (l1 ++ l2) = stageEvents τ l1 ++ stageEvents τ l2.
Proof. apply fmap_app. Qed.

Lemma loop_step p operations delayed : operations <> [] -> loopInvariant p operations delayed ->
  exists operations' p' delayed', emitPass p operations = Ok (operations', p') /\ loopInvariant p' operations' delayed' /\ (length operations' < length operations)%nat.
Proof.
  intros Hne Hinv. pose proof Hinv as [L1 L2 L3 L4 L5 L6 L7 Lne L8 L9 L10 Lp]. destruct (pass_runs p operations L4 L10 Hne L8 L9) as (st & d & Hf & Hpi & Htaken).
  pose proof Hpi as [I1 I2 I3 I4 I5 I6 I7 I8 _]. pose proof (divides_perm _ _ _ _ I1) as Hperm. destruct (divides_sublist _ _ _ _ I1) as [Hse Hsr].
  set (τ := runStages σ (_pgStages p)) in *. destruct (divides_run program value operations (_emitted st) (_remaining st) d τ I1 (wf_written _ L4) L5) as [R1 R2].
  eexists _, _, (delayed ++ d). split; [apply emitPass_add; [done|]|split].
  - intros Hs. destruct I7 as [(_ & H & _)|(gb & e1 & sc & e2 & -> & _)]; [congruence|by destruct e1].
  - pose proof (placed_pass _ _ _ _ _ Hinv Hpi) as Hplaced. rewrite app_nil_r in I3, I4. split; cbn [_pgStages _pgWriteGlobals _pgPrintOps _pgGlobalsAfter]; try done.
    + rewrite runStages_add. fold τ. intros r. by rewrite L1, R1.
    + rewrite runStages_add, stagesEvents_add. fold τ. rewrite L2, R2, stageEvents_app.
      rewrite (stageEvents_agree (parallel τ (_emitted st)) τ delayed), (stageEvents_agree (parallel τ (_emitted st)) τ d); [solve_Permutation|..];
        intros o r Ho Hr; apply parallel_unwritten; intros Hw; apply (written_sub _ _ _ Hse) in Hw.
      * by apply (proj1 (divides_delayed _ _ _ _ o I1 L5 Ho) r).
      * destruct (L6 o Ho) as (_ & _ & Hd). by apply (Hd r).
    + rewrite concat_add, L3, Hperm. solve_Permutation.
    + by eapply wellFormed_sublist.
    + by eapply divides_war_free.
    + intros o [Ho|Ho]%elem_of_app.
      * destruct (L6 o Ho) as (H1 & H2 & H3). split_and!; try done. intros r Hr Hw. apply (H3 r Hr). by apply (written_sub _ _ _ Hsr).
      * destruct (divides_delayed _ _ _ _ o I1 L5 Ho) as [H1 H2]. split_and!; [by apply (proj1 (Forall_forall _ _) I5)|done|]. intros r Hr Hw. apply (H1 r Hr). by apply (written_sub _ _ _ Hsr).
    + rewrite concat_add. by apply Forall_app.
    + unfold addStage. destruct (_emitted st) eqn:E; [done|]. apply Forall_app. split; [done|]. by constructor.
    + destruct I7 as [(S1 & S2 & -> & S4)|(gb & e1 & sc & e2 & S1 & S2 & S3 & -> & _)]; [|done]. intros Hga. destruct (L10 Hga) as (sc & Hin & Hsc). exists sc. split; [|done].
      rewrite Hperm in Hin. apply elem_of_app in Hin as [Hin|Hin].
      * apply isStartCondition_Some in Hsc. by rewrite (count_zero isStartCondition _ S1 sc Hin) in Hsc.
      * apply elem_of_app in Hin as [Hin|Hin]; [|done]. pose proof (proj1 (Forall_forall _ _) I5 sc Hin) as Hp. apply isPrint_class in Hp as [Hp _]. congruence.
  - apply Permutation_length in Hperm. rewrite Hperm, !length_app. destruct (_emitted st), d; cbn in *; try done; lia.
Qed.

Lemma loop_runs fuel p operations delayed : (length operations < fuel)%nat -> loopInvariant p operations delayed ->
  exists p' delayed', emitLoop fuel p operations = Ok p' /\ loopInvariant p' [] delayed'.
Proof.
  revert p operations delayed. induction fuel as [|fuel IH]; intros p operations delayed Hl Hinv; [lia|]. cbn [emitLoop]. destruct operations as [|op operations]; [by exists p, delayed|].
  destruct (loop_step p (op :: operations) delayed ltac:(done) Hinv) as (o' & p' & d' & -> & Hinv' & Hlt). cbn [mbind result_bind]. apply (IH p' o' d'); [lia|done].
Qed.

(** ** The print stage *)

Lemma insert_prints s1 s2 prints delayed :
  prints ≡ₚ delayed -> (forall d, d ∈ delayed -> writtenRegisters d = [] /\ readRegisters d ## written (concat s2)) ->
  same (runStages σ (s1 ++ s2)) (runStages σ (s1 ++ [prints] ++ s2)) /\
  stagesEvents σ (s1 ++ s2) ++ stageEvents (runStages σ (s1 ++ s2)) delayed ≡ₚ stagesEvents σ (s1 ++ [prints] ++ s2).
Proof.
  intros Hperm Hd. assert (Hw : written prints = []) by (apply unwritten_nil; intros o Ho; rewrite Hperm in Ho; by apply Hd).
  assert (Hsame : same (parallel (runStages σ s1) prints) (runStages σ s1)) by (intros r; apply parallel_unwritten; rewrite Hw; set_solver).
  rewrite !runStages_app, !stagesEvents_app. split; [by intros r; symmetry; apply runStages_same|]. cbn [StageSemantics.stagesEvents].
  change (runStages (runStages σ s1) [prints]) with (parallel (runStages σ s1) prints). rewrite (stagesEvents_same s2 _ _ Hsame).
  rewrite (stageEvents_agree (runStages (runStages σ s1) s2) (runStages σ s1) delayed).
  - assert (Hev : stageEvents (runStages σ s1) prints ≡ₚ stageEvents (runStages σ s1) delayed) by (unfold StageSemantics.stageEvents; by rewrite Hperm). rewrite Hev. solve_Permutation.
  - intros o r Ho Hr. apply runStages_unwritten. intros Hr'. destruct (Hd o Ho) as [_ H]. by apply (H r).
Qed.

(** What has effects, for [CheckStartingGlobalWrites] *)
Definition isEffect (op : Operation) : bool := match _opcode op with WriteGlobal | Print _ | Assert => true | _ => false end.

Lemma isEffect_class op : isWriteGlobal op = false -> isPrint op = false -> isEffect op = false.
Proof. unfold isWriteGlobal, isPrint, isEffect. by destruct (_opcode op). Qed.

(** No effect is on the wrong side of the start condition. *)
Definition ordered (stages : list (list Operation)) : Prop :=
  forall op, op ∈ ops0 -> isStartCondition op = true -> exists globalsBefore l1 sc l2,
    concat stages = l1 ++ sc :: l2 /\ startCondition sc = Some globalsBefore /\
    (globalsBefore = true -> forall o, o ∈ l2 -> isEffect o = false) /\ (globalsBefore = false -> forall o, o ∈ l1 -> isEffect o = false).

Definition addPrintStage (p : progress) (printStage : list Operation) : result (list (list Operation)) :=
  match printStage with
  | [] => Ok (_pgStages p)
  | _ => if _pgPrintStageBefore p
         then i ← of_option AssertionFailed (_pgStartConditionStage p); Ok (take i (_pgStages p) ++ [printStage] ++ drop i (_pgStages p))
         else Ok (_pgStages p ++ [printStage])
  end.

Definition withPrints (s1 s2 : list (list Operation)) (prints : list Operation) : list (list Operation) :=
  match prints with [] => s1 ++ s2 | _ => s1 ++ [prints] ++ s2 end.

Lemma concat_withPrints s1 s2 prints : concat (withPrints s1 s2 prints) = concat s1 ++ prints ++ concat s2.
Proof. destruct prints; cbn [withPrints]; rewrite !concat_app; cbn [concat app]; [done|]. by rewrite app_nil_r. Qed.

Lemma no_effects l : count isWriteGlobal l = 0 -> Forall (fun op => isPrint op = false) l -> forall o, o ∈ l -> isEffect o = false.
Proof. intros Hc Hf o Ho. apply isEffect_class; [by eapply count_zero|]. by apply (proj1 (Forall_forall _ _) Hf). Qed.

(** The print stage is somewhere among the stages, after what it reads, and on the right side of the start condition. *)
Lemma addPrintStage_split p delayed prints : loopInvariant p [] delayed -> prints ≡ₚ delayed ->
  exists s1 s2, _pgStages p = s1 ++ s2 /\ addPrintStage p prints = Ok (withPrints s1 s2 prints) /\
    (forall d, d ∈ delayed -> writtenRegisters d = [] /\ readRegisters d ## written (concat s2)) /\ ordered (withPrints s1 s2 prints).
Proof.
  intros [L1 L2 L3 L4 L5 L6 L7 Lne L8 L9 L10 Lp] Hperm. destruct Lp as [(P1 & P2 & P3 & P4 & P5)|(i & gb & s1 & e1 & sc & e2 & s2 & P1 & P2 & P3 & P4 & P5 & P6 & P7 & P8)].
  - exists (_pgStages p), []. split_and!; [by rewrite app_nil_r|unfold addPrintStage, withPrints; rewrite P3; destruct prints; by rewrite ?app_nil_r|..].
    + intros d Hd. split; [by apply L6|set_solver].
    + intros op Hin Hsc. rewrite L3, app_nil_r in Hin. apply elem_of_app in Hin as [Hin|Hin]; [by rewrite (count_zero _ _ P1 op Hin) in Hsc|].
      apply L6 in Hin as [Hp _]. apply isPrint_class in Hp as [Hp _]. unfold isStartCondition in Hsc. by rewrite Hp in Hsc.
  - rewrite P1, concat_app in L7. cbn [concat] in L7. apply Forall_app in L7 as [F1 F2]. apply Forall_app in F2 as [F2 F3]. apply Forall_app in F2 as [F2 F4]. apply Forall_cons in F4 as [F4 F5].
    destruct gb.
    + exists s1, ((e1 ++ sc :: e2) :: s2). destruct (P7 eq_refl) as (Q1 & _ & Q3). split_and!; [done|..].
      * unfold addPrintStage, withPrints. rewrite P5, P4, P1, <- P2. cbn [of_option mbind result_bind]. rewrite take_app_length, drop_app_length. by destruct prints.
      * intros d Hd. split; [by apply L6|by apply Q3].
      * intros op _ _. exists true, (concat s1 ++ prints ++ e1), sc, (e2 ++ concat s2). rewrite concat_withPrints. cbn [concat]. split_and!; [by rewrite <- !app_assoc|done| |done].
        intros _. rewrite app_nil_r in Q1. apply no_effects; [done|by apply Forall_app].
    + exists (_pgStages p), []. split_and!; [by rewrite app_nil_r|unfold addPrintStage, withPrints; rewrite P5; destruct prints; by rewrite ?app_nil_r|..].
      * intros d Hd. split; [by apply L6|set_solver].
      * intros op _ _. exists false, (concat s1 ++ e1), sc, (e2 ++ concat s2 ++ prints). rewrite concat_withPrints, P1, concat_app. cbn [concat]. split_and!; [by rewrite <- !app_assoc, app_nil_r|done|done|].
        intros _. specialize (P8 eq_refl). rewrite app_assoc, count_app in P8. pose proof (count_nonneg isWriteGlobal (sc :: e2)). pose proof (count_nonneg isWriteGlobal (concat s1 ++ e1)).
        apply no_effects; [lia|by apply Forall_app].
Qed.

Lemma loop_final p delayed prints : loopInvariant p [] delayed -> prints ≡ₚ delayed ->
  exists new, addPrintStage p prints = Ok new /\ concat new ≡ₚ ops0 /\ ordered new /\ same (run σ ops0) (runStages σ new) /\ events σ ops0 ≡ₚ stagesEvents σ new.
Proof.
  intros Hinv Hperm. destruct (addPrintStage_split p delayed prints Hinv Hperm) as (s1 & s2 & Hs & Hadd & Hd & Hord). exists (withPrints s1 s2 prints). split; [done|].
  destruct Hinv as [L1 L2 L3 _ _ _ _ _ _ _ _]. rewrite Hs in L1, L2, L3. rewrite app_nil_r in L3. cbn [StageSemantics.events] in L2. rewrite app_nil_r in L2.
  destruct (insert_prints s1 s2 prints delayed Hperm Hd) as [H1 H2]. split; [|split; [done|]].
  - rewrite concat_withPrints, L3, concat_app, Hperm. solve_Permutation.
  - destruct prints as [|o prints]; cbn [withPrints]; [apply Permutation_nil_l in Hperm; subst delayed; cbn in L2; rewrite app_nil_r in L2; by split|].
    split; [intros r; rewrite L1; apply H1|by rewrite L2].
Qed.

End Loop.

End Stages.

(** ** What is collected first *)

Definition printStage (s : summary) : list Operation := _stringFormats s ++ _prints s ++ _assertStringEquals s ++ _stringReferences s ++ _assertions s.

Definition waitsFor (op : Operation) : bool := match startCondition op with Some false => true | _ => false end.

Record summarized (pre : list Operation) (s : summary) : Prop := mkSummarized {
  sm_writeGlobals : _numWriteGlobals s = count isWriteGlobal pre;
  sm_printOps : _numPrintAssertAndStringOps s = count isPrint pre;
  sm_after : _globalsAfterStartCondition s = existsb waitsFor pre;
  sm_prints : printStage s ≡ₚ filter (fun op => isPrint op = true) pre }.

Lemma summarize_step n pre op s : Z.of_nat (length pre) < 2 ^ 64 - 1 -> (waitsFor op = true -> n = 0) ->
  summarized pre s -> exists s', summarize n s op = Ok s' /\ summarized (pre ++ [op]) s'.
Proof.
  intros Hl Hw [M1 M2 M3 M4]. pose proof (count_length isWriteGlobal pre). pose proof (count_length isPrint pre). pose proof (count_nonneg isWriteGlobal pre). pose proof (count_nonneg isPrint pre).
  assert (U1 : u64_add (_numWriteGlobals s) 1 = count isWriteGlobal pre + 1) by (rewrite M1; unfold u64_add; apply u64_small; unfold is_u64; lia).
  assert (U2 : u64_add (_numPrintAssertAndStringOps s) 1 = count isPrint pre + 1) by (rewrite M2; unfold u64_add; apply u64_small; unfold is_u64; lia).
  assert (C : forall f, count f (pre ++ [op]) = count f pre + if f op then 1 else 0).
  { intros f. rewrite count_app, count_cons. change (count f []) with 0. lia. }
  assert (W : existsb waitsFor (pre ++ [op]) = existsb waitsFor pre || waitsFor op) by (rewrite existsb_app; cbn; by rewrite orb_false_r).
  assert (F : filter (fun op => isPrint op = true) (pre ++ [op]) = filter (fun op => isPrint op = true) pre ++ if isPrint op then [op] else []).
  { rewrite filter_app, filter_cons, filter_nil. destruct (isPrint op); [by rewrite decide_True|by rewrite decide_False]. }
  assert (G : forall s', _numWriteGlobals s' = count isWriteGlobal pre + (if isWriteGlobal op then 1 else 0) -> _numPrintAssertAndStringOps s' = count isPrint pre + (if isPrint op then 1 else 0) ->
    _globalsAfterStartCondition s' = existsb waitsFor pre || waitsFor op -> printStage s' ≡ₚ printStage s ++ (if isPrint op then [op] else []) -> summarized (pre ++ [op]) s').
  { intros s' G1 G2 G3 G4. split; [by rewrite C|by rewrite C|by rewrite W|]. by rewrite F, G4, M4. }
  unfold waitsFor, startCondition, isWriteGlobal, isPrint in Hw, G. unfold summarize, printStage in *.
  destruct (_opcode op) as [] eqn:E; cbn [isPrintStageOp] in G; try (eexists; split; [reflexivity|apply G; cbn; rewrite ?orb_false_r, ?app_nil_r, ?Z.add_0_r; done || solve_Permutation]).
  destruct _globalsBefore0; [eexists; split; [reflexivity|apply G; cbn; rewrite ?orb_false_r, ?app_nil_r, ?Z.add_0_r; done]|].
  rewrite assert_true by (by apply Z.eqb_eq, Hw). eexists. split; [reflexivity|]. apply G; cbn; rewrite ?orb_true_r, ?app_nil_r, ?Z.add_0_r; done.
Qed.

Lemma summarize_all n ops : Z.of_nat (length ops) < 2 ^ 64 -> ((exists sc, sc ∈ ops /\ waitsFor sc = true) -> n = 0) ->
  exists s, foldM (summarize n) ops emptySummary = Ok s /\ summarized ops s.
Proof.
  intros Hl Hn. cut (forall rest pre s, pre ++ rest = ops -> summarized pre s -> exists s', foldM (summarize n) rest s = Ok s' /\ summarized ops s').
  { intros Hc. apply (Hc ops []); [done|]. by split. }
  induction rest as [|op rest IH]; intros pre s Heq Hs; [exists s; rewrite app_nil_r in Heq; by subst|].
  destruct (summarize_step n pre op s) as (s1 & H1 & Hs1); [rewrite <- Heq, length_app in Hl; cbn in Hl; lia|intros Hw; apply Hn; exists op; split; [rewrite <- Heq; set_solver|done]|done|].
  cbn [foldM]. rewrite H1. cbn [mbind result_bind]. apply (IH (pre ++ [op])); [by rewrite <- app_assoc|done].
Qed.

(** What is filtered out is of no class. *)
Definition kept (operationsIn : list Operation) : list Operation := filter (fun op => shouldFilter op = false) operationsIn.

Lemma count_kept f ops : (forall op, shouldFilter op = true -> f op = false) -> count f (kept ops) = count f ops.
Proof.
  intros H. unfold kept. induction ops as [|op ops IH]; [done|]. rewrite filter_cons. destruct (shouldFilter op) eqn:E.
  - rewrite decide_False by done. by rewrite IH, count_cons, H.
  - rewrite decide_True by done. by rewrite !count_cons, IH.
Qed.

Lemma filter_kept ops : filter (fun op => isPrint op = true) (kept ops) = filter (fun op => isPrint op = true) ops.
Proof.
  unfold kept. induction ops as [|op ops IH]; [done|]. rewrite !filter_cons. destruct (shouldFilter op) eqn:E.
  - rewrite (decide_False (P := true = false)) by done. rewrite (decide_False (P := isPrint op = true)); [done|]. unfold shouldFilter, isPrint in *. by destruct (_opcode op).
  - rewrite (decide_True (P := false = false)) by done. rewrite filter_cons, IH. done.
Qed.

Lemma shouldFilter_class op : shouldFilter op = true -> isWriteGlobal op = false /\ isPrint op = false /\ startCondition op = None.
Proof. unfold shouldFilter, isWriteGlobal, isPrint, startCondition. by destruct (_opcode op). Qed.


(** ** [EmitPipelineStage] *)

Lemma loop_begins program value σ operationsIn s :
  wellFormed (kept operationsIn) -> war_free (kept operationsIn) -> summarized operationsIn s ->
  loopInvariant program value σ (kept operationsIn) (mkProgress (_numWriteGlobals s) (_numPrintAssertAndStringOps s) (_globalsAfterStartCondition s) [] None false) (kept operationsIn) [].
Proof.
  intros Hwf Hwar [M1 M2 M3 M4].
  assert (Hafter : existsb waitsFor operationsIn = true <-> exists sc, sc ∈ kept operationsIn /\ startCondition sc = Some false).
  { rewrite existsb_exists. unfold kept. setoid_rewrite list_elem_of_filter. split.
    - intros (sc & Hin%list_elem_of_In & Hw). exists sc. unfold waitsFor in Hw. destruct (startCondition sc) as [[]|] eqn:E; try done. split; [|done]. split; [|done].
      destruct (shouldFilter sc) eqn:Es; [|done]. apply shouldFilter_class in Es as (_ & _ & ?). congruence.
    - intros (sc & [_ Hin] & Hsc). exists sc. split; [by apply list_elem_of_In|]. unfold waitsFor. by rewrite Hsc. }
  split; cbn [_pgStages _pgWriteGlobals _pgPrintOps _pgGlobalsAfter]; try done.
  - intros d Hd. by apply not_elem_of_nil in Hd.
  - rewrite M1, count_kept; [done|]. intros op H. by apply shouldFilter_class in H as (? & ? & ?).
  - rewrite M2, count_kept; [done|]. intros op H. by apply shouldFilter_class in H as (? & ? & ?).
  - rewrite M3. apply Hafter.
  - left. cbn [_pgStages _pgStartConditionStage _pgPrintStageBefore _pgGlobalsAfter]. rewrite M3. split_and!; try done. apply Hafter.
Qed.

Lemma filter_no (f : Operation -> bool) (l : list Operation) : Forall (fun op => f op = false) l -> filter (fun op => f op = true) l = [].
Proof. induction 1 as [|op l Hop _ IH]; [done|]. rewrite filter_cons, decide_False by congruence. done. Qed.

Lemma filter_yes (f : Operation -> bool) (l : list Operation) : (forall op, op ∈ l -> f op = true) -> filter (fun op => f op = true) l = l.
Proof. intros H. induction l as [|op l IH]; [done|]. rewrite filter_cons, decide_True by (apply H; set_solver). f_equal. apply IH. intros o Ho. apply H. set_solver. Qed.

Section EmitPipelineStage.
Context (stages : list PipelineStage) (operationsIn : list Operation).
Context (Hwf : wellFormed (kept operationsIn)) (Hwar : war_free (kept operationsIn)).
Context (Hlen : Z.of_nat (length operationsIn) < 2 ^ 64).
Context (Hseq : (exists sc, sc ∈ operationsIn /\ waitsFor sc = true) -> GetNextAtomicSequenceNumber stages = 0).

Lemma EmitPipelineStage_runs program value σ :
  exists lines newStages, EmitPipelineStage stages operationsIn = Ok (stages ++ (mkPipelineStage (GetNextAtomicSequenceNumber stages) lines <$> newStages)) /\
    newStages <> [] /\ concat newStages ≡ₚ kept operationsIn /\ ordered (kept operationsIn) newStages /\
    same (run program value σ (kept operationsIn)) (runStages program value σ newStages) /\
    events program value σ (kept operationsIn) ≡ₚ stagesEvents program value σ newStages.
Proof.
  destruct (summarize_all (GetNextAtomicSequenceNumber stages) operationsIn Hlen Hseq) as (s & Hs & Hsum).
  pose proof (loop_begins program value σ operationsIn s Hwf Hwar Hsum) as Hbegin.
  destruct (loop_runs program value σ (kept operationsIn) Hwf (S (length (kept operationsIn))) _ _ _ (Nat.lt_succ_diag_r _) Hbegin) as (p & delayed & Hloop & Hinv).
  assert (Hperm : printStage s ≡ₚ delayed).
  { rewrite (sm_prints _ _ Hsum), <- filter_kept. destruct Hinv as [_ _ L3 _ _ L6 L7 _ _ _ _ _]. rewrite L3, app_nil_r, filter_app.
    rewrite (filter_yes isPrint delayed) by (intros d Hd; by apply L6).
    rewrite (filter_no isPrint (concat _)) by done. done. }
  destruct (loop_final program value σ (kept operationsIn) Hwf p delayed (printStage s) Hinv Hperm) as (new & Hadd & Hcat & Hord & Hrun & Hev).
  unfold EmitPipelineStage. rewrite Hs. cbn [mbind result_bind]. fold (kept operationsIn). rewrite Hloop. cbn [mbind result_bind]. fold (printStage s).
  fold (addPrintStage p (printStage s)). rewrite Hadd. cbn [mbind result_bind]. eexists _, (match new with [] => [[]] | _ => new end). split; [reflexivity|].
  destruct new as [|stage new]; [|by split_and!]. split_and!; done.
Qed.

(** The stages do what the operations do. *)
Lemma EmitPipelineStage_implements :
  exists lines newStages, EmitPipelineStage stages operationsIn = Ok (stages ++ (mkPipelineStage (GetNextAtomicSequenceNumber stages) lines <$> newStages)) /\
    newStages <> [] /\ concat newStages ≡ₚ kept operationsIn /\ ordered (kept operationsIn) newStages /\
    forall program value σ, same (run program value σ (kept operationsIn)) (runStages program value σ newStages) /\
      events program value σ (kept operationsIn) ≡ₚ stagesEvents program value σ newStages.
Proof.
  destruct (EmitPipelineStage_runs (mkProgram []) (fun _ _ => []) (fun _ => 0)) as (lines & new & Hemit & Hne & Hcat & Hord & _).
  exists lines, new. split_and!; [done..|]. intros program value σ. destruct (EmitPipelineStage_runs program value σ) as (lines' & new' & Hemit' & _ & _ & _ & H).
  rewrite Hemit in Hemit'. injection Hemit' as Heq%app_inv_head. replace new with new'; [done|]. apply (f_equal (fmap _stageOperations)) in Heq. by rewrite <- !list_fmap_compose, !list_fmap_id in Heq.
Qed.

End EmitPipelineStage.

(** ** The check of the compiler *)

Lemma check_effects c ops : count isStartCondition ops = 0 -> fold_left checkOperation ops c =
  if _startCondition c then mkStartCheck true (_globalsBefore c) (_globalWriteBeforeStartCondition c) (_globalWriteAfterStartCondition c || existsb isEffect ops)
  else mkStartCheck false (_globalsBefore c) (_globalWriteBeforeStartCondition c || existsb isEffect ops) (_globalWriteAfterStartCondition c).
Proof.
  revert c. induction ops as [|op ops IH]; intros [s g b a] H; [cbn; rewrite !orb_false_r; by destruct s|]. rewrite count_cons in H. pose proof (count_nonneg isStartCondition ops).
  cbn [fold_left existsb]. rewrite IH by (destruct (isStartCondition op); lia). destruct (isStartCondition op) eqn:Es; [lia|]. unfold isStartCondition, startCondition in Es.
  unfold checkOperation, isEffect. destruct (_opcode op); try done; cbn; destruct s; cbn; rewrite ?orb_true_r; done.
Qed.

Lemma checkStages_first c n lines (stages : list (list Operation)) later : n <= 0 -> Forall (fun stage => 0 < _atomicSequence stage) later ->
  checkStages c ((mkPipelineStage n lines <$> stages) ++ later) = fold_left checkOperation (concat stages) c.
Proof.
  intros Hn Hl. revert c. induction stages as [|stage stages IH]; intros c; cbn [fmap list_fmap app checkStages concat].
  - cbn. destruct Hl as [|s later Hs _]; [done|]. cbn [checkStages]. by rewrite (proj2 (Z.ltb_lt _ _) Hs).
  - cbn [_atomicSequence _stageOperations]. rewrite (proj2 (Z.ltb_ge _ _) Hn), fold_left_app. apply IH.
Qed.

Lemma no_effect_existsb ops : (forall o, o ∈ ops -> isEffect o = false) -> existsb isEffect ops = false.
Proof. intros H. apply not_true_iff_false. rewrite existsb_exists. intros (o & Ho%list_elem_of_In & He). by rewrite H in He. Qed.

Lemma check_start c sc gb : startCondition sc = Some gb -> checkOperation c sc = mkStartCheck true gb (_globalWriteBeforeStartCondition c) (_globalWriteAfterStartCondition c).
Proof. unfold startCondition, checkOperation. destruct (_opcode sc); try done. by intros [= ->]. Qed.

Lemma CheckStartingGlobalWrites_ordered operations n lines (stages : list (list Operation)) later :
  n <= 0 -> Forall (fun stage => 0 < _atomicSequence stage) later -> count isStartCondition operations = 1 -> concat stages ≡ₚ operations -> ordered operations stages ->
  CheckStartingGlobalWrites ((mkPipelineStage n lines <$> stages) ++ later) = Ok tt.
Proof.
  intros Hn Hl Hc Hperm Hord. unfold CheckStartingGlobalWrites. rewrite (checkStages_first _ _ _ _ _ Hn Hl).
  assert (Hex : exists op, op ∈ operations /\ isStartCondition op = true).
  { destruct (existsb isStartCondition operations) eqn:E; [apply existsb_exists in E as (o & Ho%list_elem_of_In & ?); eauto|]. unfold count in Hc. rewrite filter_no in Hc; [done|].
    apply Forall_forall. intros o Ho. apply not_true_iff_false. intros Hs. apply not_true_iff_false in E. apply E, existsb_exists. exists o. split; [by apply list_elem_of_In|done]. }
  destruct Hex as (op & Hop & Hs). destruct (Hord op Hop Hs) as (gb & l1 & sc & l2 & Heq & Hsc & Hafter & Hbefore).
  rewrite <- (count_perm _ _ _ Hperm), Heq, count_app, count_cons, (isStartCondition_Some _ _ Hsc) in Hc. pose proof (count_nonneg isStartCondition l1). pose proof (count_nonneg isStartCondition l2).
  rewrite Heq, fold_left_app. rewrite (check_effects _ l1) by lia. cbn [fold_left _startCondition _globalsBefore _globalWriteBeforeStartCondition _globalWriteAfterStartCondition].
  rewrite (check_start _ sc gb Hsc), (check_effects _ l2) by lia.
  destruct gb; cbn [_startCondition _globalsBefore _globalWriteBeforeStartCondition _globalWriteAfterStartCondition].
  - by rewrite (no_effect_existsb l2) by (by apply Hafter).
  - by rewrite (no_effect_existsb l1) by (by apply Hbefore).
Qed.

(** ** The theorems *)

(** C7: [EmitPipelineStage] terminates and adds at least one stage, all with the next
    sequence number, which hold every operation that is not filtered exactly once
    (prints in one stage of their own).  The stages, whose operations run in
    parallel, leave the registers as the operations one after another would, and
    every operation, print or global write sees the same values, whatever the
    operations compute; provided that registers are written once, that an operation
    that must wait reads nothing that is written after it, and that the start
    condition does not depend on the global writes that wait for it. *)
Theorem EmitPipelineStage_correct (stages : list PipelineStage) (operationsIn : list Operation)
  (Hwf : wellFormed (kept operationsIn)) (Hwar : war_free (kept operationsIn)) (Hlen : Z.of_nat (length operationsIn) < 2 ^ 64)
  (Hseq : (exists sc, sc ∈ operationsIn /\ waitsFor sc = true) -> GetNextAtomicSequenceNumber stages = 0) :
  exists newStages, EmitPipelineStage stages operationsIn = Ok (stages ++ newStages) /\ newStages <> [] /\
    (forall stage, stage ∈ newStages -> _atomicSequence stage = GetNextAtomicSequenceNumber stages) /\
    concat (_stageOperations <$> newStages) ≡ₚ kept operationsIn /\
    forall program value σ,
      same (run program value σ (kept operationsIn)) (runStages program value σ (_stageOperations <$> newStages)) /\
      events program value σ (kept operationsIn) ≡ₚ stagesEvents program value σ (_stageOperations <$> newStages).
Proof.
  destruct (EmitPipelineStage_implements stages operationsIn Hwf Hwar Hlen Hseq) as (lines & new & Hemit & Hne & Hcat & _ & H).
  exists (mkPipelineStage (GetNextAtomicSequenceNumber stages) lines <$> new). rewrite <- !list_fmap_compose, !list_fmap_id. split_and!; [done|by destruct new|..|done|done].
  intros stage (s & -> & _)%list_elem_of_fmap. done.
Qed.

(** C38: when a basic block starts with a start condition, the stages of its first
    pipeline stage pass [CheckStartingGlobalWrites], whatever stages with a greater
    sequence number follow: global writes, prints and assertions are all before the
    start condition, or all after it, as its [_globalsBefore] says. *)
Theorem EmitPipelineStage_starts (operationsIn : list Operation) (later : list PipelineStage)
  (Hwf : wellFormed (kept operationsIn)) (Hwar : war_free (kept operationsIn)) (Hlen : Z.of_nat (length operationsIn) < 2 ^ 64)
  (Hstart : count isStartCondition operationsIn = 1) (Hlater : Forall (fun stage => 0 < _atomicSequence stage) later) :
  exists newStages, EmitPipelineStage [] operationsIn = Ok newStages /\ CheckStartingGlobalWrites (newStages ++ later) = Ok tt.
Proof.
  destruct (EmitPipelineStage_implements [] operationsIn Hwf Hwar Hlen ltac:(done)) as (lines & new & Hemit & _ & Hcat & Hord & _).
  eexists. split; [exact Hemit|]. apply (CheckStartingGlobalWrites_ordered (kept operationsIn)); try done. rewrite count_kept; [done|].
  intros op H. apply shouldFilter_class in H as (_ & _ & H). unfold isStartCondition. by rewrite H.
Qed.

(** ** An example: a value, a global write and a print of it, a start condition *)

Definition demoOp (opcode : Opcode) (src dst : list nat) : Operation :=
  mkOperation opcode 0 ∅ (SrcRegister ∘ mkAccessedRegister <$> src) (DstRegister ∘ mkAccessedRegister <$> dst).

Definition demoStart (globalsBefore : bool) : list Operation :=
  [demoOp LineNumber [] []; demoOp Mov [0] [1]; demoOp WriteGlobal [1] [2]; demoOp (Print []) [1] []; demoOp (StartCondition globalsBefore) [0] []]%nat.

Definition demoStages (globalsBefore : bool) : list (list Opcode) :=
  match EmitPipelineStage [] (demoStart globalsBefore) with Ok stages => (fun stage => _opcode <$> _stageOperations stage) <$> stages | Err _ => [] end.

Example EmitPipelineStage_before : demoStages true = [[Mov]; [Print []]; [WriteGlobal; StartCondition true]].
Proof. vm_compute. reflexivity. Qed.

Example EmitPipelineStage_after : demoStages false = [[Mov; StartCondition false]; [WriteGlobal]; [Print []]].
Proof. vm_compute. reflexivity. Qed.

Lemma demoStart_kept b : kept (demoStart b) = [demoOp Mov [0] [1]; demoOp WriteGlobal [1] [2]; demoOp (Print []) [1] []; demoOp (StartCondition b) [0] []]%nat.
Proof. reflexivity. Qed.

Lemma demoStart_wellFormed b : wellFormed (kept (demoStart b)).
Proof.
  rewrite demoStart_kept. split.
  - vm_compute. repeat constructor; set_solver.
  - by destruct b.
  - intros op gb Hin. repeat (apply elem_of_cons in Hin as [->|Hin]; [done|]). by apply not_elem_of_nil in Hin.
  - intros l1 sc l2 wg op Heq Hsc Hwg Hg Hop. assert (H2 : writtenRegisters wg ⊆ [2]%nat).
    { assert (Hin : wg ∈ demoStart b) by (unfold demoStart; rewrite elem_of_cons, Heq; set_solver). unfold demoStart in Hin.
      repeat (apply elem_of_cons in Hin as [->|Hin]; [by vm_compute; set_solver|]). by apply not_elem_of_nil in Hin. }
    assert (Hin : op ∈ demoStart b) by (unfold demoStart; rewrite elem_of_cons, Heq; set_solver). unfold demoStart in Hin.
    assert (Hr : 2%nat ∉ readRegisters op) by (repeat (apply elem_of_cons in Hin as [->|Hin]; [by vm_compute; set_solver|]); by apply not_elem_of_nil in Hin). set_solver.
  - intros op Hin. repeat (apply elem_of_cons in Hin as [->|Hin]; [done|]). by apply not_elem_of_nil in Hin.
Qed.

Lemma demoStart_war b : war_free (kept (demoStart b)).
Proof.
  rewrite demoStart_kept. intros l1 op l2 Heq. right.
  assert (Hs : op :: l2 `suffix_of` kept (demoStart b)) by (exists l1; exact Heq). clear Heq. rewrite demoStart_kept in Hs.
  repeat (apply suffix_cons_inv in Hs as [[= -> ->]|Hs]; [vm_compute; set_solver|]). by apply suffix_nil_inv in Hs.
Qed.

Lemma EmitPipelineStage_correct_witness :
  exists newStages, EmitPipelineStage [] (demoStart true) = Ok ([] ++ newStages) /\ newStages <> [] /\
    (forall stage, stage ∈ newStages -> _atomicSequence stage = GetNextAtomicSequenceNumber []) /\
    concat (_stageOperations <$> newStages) ≡ₚ kept (demoStart true) /\
    forall program value σ,
      same (run program value σ (kept (demoStart true))) (runStages program value σ (_stageOperations <$> newStages)) /\
      events program value σ (kept (demoStart true)) ≡ₚ stagesEvents program value σ (_stageOperations <$> newStages).
Proof. apply (EmitPipelineStage_correct [] (demoStart true)); [apply demoStart_wellFormed|apply demoStart_war|done|done]. Defined.

Lemma EmitPipelineStage_starts_witness :
  exists newStages, EmitPipelineStage [] (demoStart false) = Ok newStages /\
    CheckStartingGlobalWrites (newStages ++ [mkPipelineStage 1 ∅ [demoOp WriteGlobal [1%nat] [2%nat]]]) = Ok tt.
Proof. apply (EmitPipelineStage_starts (demoStart false)); [apply demoStart_wellFormed|apply demoStart_war|done|done|by constructor]. Defined.

End StageCorrect.
