(* ===== verification/Opcodes.v ===== *)
(** * Opcodes

    [ir.h], [ir.cpp]: the enumeration [Opcode], the table [g_opcodeTable] with what
    the passes ask of an opcode, and the estimate of the levels of logic that an
    operation needs ([GetOpPathLength]).  [GetCodeGenConfig()] is a parameter where
    it is read. *)

From S2P Require Import Prelude MachineInt Literals Ir.
Import MachineInt Containers Literals Ir.

Module Opcodes.

(** [enum class Opcode]; the constructors of [Opcode] in [Ir] also carry the flags. *)
Inductive OpcodeTag : Type :=
| Opcode_Mov | Opcode_MovCrossFunction | Opcode_Clear | Opcode_UnaryOp | Opcode_BinaryOp | Opcode_BeginAtomic | Opcode_EndAtomic | Opcode_Assert
| Opcode_Enqueue | Opcode_Select | Opcode_WriteGlobal | Opcode_Print | Opcode_Gather | Opcode_StoreMemory | Opcode_LoadMemory | Opcode_BypassMemory
| Opcode_AcquireSemaphore | Opcode_ReleaseSemaphore | Opcode_CallAtomic | Opcode_AtomicReturn | Opcode_FanOut | Opcode_Stage | Opcode_StartCondition
| Opcode_CycleCounter | Opcode_MovLatencyPlaceholder | Opcode_LineNumber | Opcode_Lut | Opcode_InlineExternalModule | Opcode_ReadSelectedFifo
| Opcode_ExternalPlaceholder | Opcode_DebugView | Opcode_EnqueueRegisters | Opcode_DequeueRegisters | Opcode_PushPredicate | Opcode_PopPredicate
| Opcode_StallCheck | Opcode_LocationRecord | Opcode_ConditionalIgnore | Opcode_FormatString | Opcode_FormatEnum | Opcode_ReferenceString
| Opcode_AssertStringEqual | Opcode_StringCount | Opcode_NoOp.

#[export] Instance OpcodeTag_eq_dec : EqDecision OpcodeTag.
Proof. solve_decision. Defined.

Definition opcodeTags : list OpcodeTag :=
  [Opcode_Mov; Opcode_MovCrossFunction; Opcode_Clear; Opcode_UnaryOp; Opcode_BinaryOp; Opcode_BeginAtomic; Opcode_EndAtomic; Opcode_Assert; Opcode_Enqueue; Opcode_Select; Opcode_WriteGlobal; Opcode_Print; Opcode_Gather; Opcode_StoreMemory; Opcode_LoadMemory; Opcode_BypassMemory; Opcode_AcquireSemaphore; Opcode_ReleaseSemaphore; Opcode_CallAtomic; Opcode_AtomicReturn; Opcode_FanOut; Opcode_Stage; Opcode_StartCondition; Opcode_CycleCounter; Opcode_MovLatencyPlaceholder; Opcode_LineNumber; Opcode_Lut; Opcode_InlineExternalModule; Opcode_ReadSelectedFifo; Opcode_ExternalPlaceholder; Opcode_DebugView; Opcode_EnqueueRegisters; Opcode_DequeueRegisters; Opcode_PushPredicate; Opcode_PopPredicate; Opcode_StallCheck; Opcode_LocationRecord; Opcode_ConditionalIgnore; Opcode_FormatString; Opcode_FormatEnum; Opcode_ReferenceString; Opcode_AssertStringEqual; Opcode_StringCount; Opcode_NoOp].

Definition opcodeTag (opcode : Opcode) : OpcodeTag :=
  match opcode with
  | Mov => Opcode_Mov | MovCrossFunction => Opcode_MovCrossFunction | Clear => Opcode_Clear | UnaryOp _ => Opcode_UnaryOp
  | BinaryOp _ => Opcode_BinaryOp | BeginAtomic => Opcode_BeginAtomic | EndAtomic => Opcode_EndAtomic | Assert => Opcode_Assert
  | Enqueue _ => Opcode_Enqueue | Select => Opcode_Select | WriteGlobal => Opcode_WriteGlobal | Print _ => Opcode_Print | Gather _ => Opcode_Gather
  | StoreMemory => Opcode_StoreMemory | LoadMemory _ => Opcode_LoadMemory | BypassMemory => Opcode_BypassMemory
  | AcquireSemaphore => Opcode_AcquireSemaphore | ReleaseSemaphore => Opcode_ReleaseSemaphore | CallAtomic => Opcode_CallAtomic
  | AtomicReturn => Opcode_AtomicReturn | FanOut => Opcode_FanOut | Stage => Opcode_Stage | StartCondition _ => Opcode_StartCondition
  | CycleCounter => Opcode_CycleCounter | MovLatencyPlaceholder => Opcode_MovLatencyPlaceholder | LineNumber => Opcode_LineNumber
  | LutOp _ => Opcode_Lut | InlineExternalModule _ _ => Opcode_InlineExternalModule | ReadSelectedFifo => Opcode_ReadSelectedFifo
  | ExternalPlaceholder => Opcode_ExternalPlaceholder | DebugView => Opcode_DebugView | EnqueueRegisters _ _ => Opcode_EnqueueRegisters
  | DequeueRegisters _ _ => Opcode_DequeueRegisters | PushPredicate => Opcode_PushPredicate | PopPredicate => Opcode_PopPredicate
  | StallCheck => Opcode_StallCheck | LocationRecord => Opcode_LocationRecord | ConditionalIgnore => Opcode_ConditionalIgnore
  | FormatString => Opcode_FormatString | FormatEnum => Opcode_FormatEnum | ReferenceString => Opcode_ReferenceString
  | AssertStringEqual => Opcode_AssertStringEqual | StringCount => Opcode_StringCount | NoOp => Opcode_NoOp
  end.

(** [static_cast<size_t>(opcode)] *)
Definition opcodeIndex (tag : OpcodeTag) : nat := default (length opcodeTags) (fst <$> list_find (fun t => t = tag) opcodeTags).

Record OpcodeTableEntry : Type := mkOpcodeTableEntry {
  _tag : OpcodeTag;
  _opcodeName : option string;
  _isLive : bool;
  _preserveInputReg : bool;
  _allowedInAtomic : bool;
  _registeredInput : bool;
  _registeredOutput : bool;
  _hasIoRoutingDelay : bool;
  _commonSubexpression : bool;
  _lowerToLut : bool;
  _optimizationBarrier : bool;
  _typeBarrier : bool;
  _assertBarrier : bool;
  _externalInputRegisters : bool;
  _canCauseBackpressure : bool;
  _allowBitbucket : bool;
  _mergeAtomicDo : bool;
  _readsStringTable : bool;
  _writesStringTable : bool;
  _pathLength : Z }.

Definition g_opcodeTable : list OpcodeTableEntry := [
  mkOpcodeTableEntry Opcode_Mov (Some "mov") false false true false false false true true false false false false false true true false false 0;
  mkOpcodeTableEntry Opcode_MovCrossFunction (Some "movcrossfunction") true false true false false false false false false false false false false true true false false 0;
  mkOpcodeTableEntry Opcode_Clear (Some "clear") false false true false false false false true false false false false false true true false false 0;
  mkOpcodeTableEntry Opcode_UnaryOp None false false true false false false true true false false false false false true true false false 1;
  mkOpcodeTableEntry Opcode_BinaryOp None false false true false false false true true false false false false false true true false false (-1);
  mkOpcodeTableEntry Opcode_BeginAtomic (Some "beginatomic") true false true false false false false false true false false false false true true false false 0;
  mkOpcodeTableEntry Opcode_EndAtomic (Some "endatomic") true false true false false false false false true false false false false true true false false 0;
  mkOpcodeTableEntry Opcode_Assert (Some "assert") true false true false false false false false false false false false false true false false false 0;
  mkOpcodeTableEntry Opcode_Enqueue (Some "enqueue") true true false false false false false false false false false false true true false false false 1;
  mkOpcodeTableEntry Opcode_Select (Some "select") false false true false false false true true false false false false false true true false false (-1);
  mkOpcodeTableEntry Opcode_WriteGlobal (Some "writeglobal") true false true false false false false false false false false false false true false false false 1;
  mkOpcodeTableEntry Opcode_Print (Some "print") true false true false false false false false false true true false false true false false false 0;
  mkOpcodeTableEntry Opcode_Gather (Some "gather") false false true false false false true true false false false false false true true false false 0;
  mkOpcodeTableEntry Opcode_StoreMemory (Some "storememory") true false true true false true false false false false false true false true false false false 1;
  mkOpcodeTableEntry Opcode_LoadMemory (Some "loadmemory") false false true true true true false false false false false true false true false false false 1;
  mkOpcodeTableEntry Opcode_BypassMemory (Some "bypassmemory") false false true false false false false false false false false false false true false false false 1;
  mkOpcodeTableEntry Opcode_AcquireSemaphore (Some "acquiresemaphore") true false false false false false false false false false false false true true true false false 1;
  mkOpcodeTableEntry Opcode_ReleaseSemaphore (Some "releasesemaphore") true false false false false false false false false false false false false true true false false 1;
  mkOpcodeTableEntry Opcode_CallAtomic (Some "callatomic") false false true false false false false false false false false false false true true false false 1;
  mkOpcodeTableEntry Opcode_AtomicReturn (Some "returnatomic") true false true false false false false false false false false false false true true false false 1;
  mkOpcodeTableEntry Opcode_FanOut (Some "fanout") false false false false true false false false false false false false false true false false false 1;
  mkOpcodeTableEntry Opcode_Stage (Some "stage") true false false false false false false false false false false false false true false false false 1;
  mkOpcodeTableEntry Opcode_StartCondition (Some "startcondition") true false false false false false false false false false false false false true false false false 1;
  mkOpcodeTableEntry Opcode_CycleCounter (Some "cyclecounter") false false true false false false false false false false false false false true false false false 0;
  mkOpcodeTableEntry Opcode_MovLatencyPlaceholder (Some "movlatency") false false true true true false false false false false false false false true true false false 0;
  mkOpcodeTableEntry Opcode_LineNumber (Some "linenumber") true false true false false false false false false false false false false true true false false 0;
  mkOpcodeTableEntry Opcode_Lut (Some "lut") false false true false false false true true false false false false false true true false false (-1);
  mkOpcodeTableEntry Opcode_InlineExternalModule (Some "inlineexternalmodule") false false true false false true false false false false false true false false false false false 1;
  mkOpcodeTableEntry Opcode_ReadSelectedFifo (Some "readselectedfifo") false false false false false false false false false false false false false true true false false 1;
  mkOpcodeTableEntry Opcode_ExternalPlaceholder (Some "externalplaceholder") true false false false false false false false false false false false false true false false false 1;
  mkOpcodeTableEntry Opcode_DebugView (Some "debugview") true false true false false false false false false true true false false true true false false 0;
  mkOpcodeTableEntry Opcode_EnqueueRegisters (Some "enqueueregisters") true false false false false false false false false false false false true true false false false 0;
  mkOpcodeTableEntry Opcode_DequeueRegisters (Some "dequeueregisters") false false false false false false false false false false false false false true false false false 0;
  mkOpcodeTableEntry Opcode_PushPredicate (Some "pushpredicate") true false true false false false false false false false false false false true true false false 0;
  mkOpcodeTableEntry Opcode_PopPredicate (Some "poppredicate") true false true false false false false false false false false false false true true false false 0;
  mkOpcodeTableEntry Opcode_StallCheck (Some "stallcheck") false false true false false false false false false false false false false true true false false 0;
  mkOpcodeTableEntry Opcode_LocationRecord (Some "locationrecord") false false true false false false false false false false false false false true true false false 0;
  mkOpcodeTableEntry Opcode_ConditionalIgnore (Some "conditionalignore") false false true false false false false false false false false false false true true false false 0;
  mkOpcodeTableEntry Opcode_FormatString (Some "formatstring") true false true false false false false false false false false false false true true false true 0;
  mkOpcodeTableEntry Opcode_FormatEnum (Some "formatenum") true false true false false false false false false false false false false true true false true 0;
  mkOpcodeTableEntry Opcode_ReferenceString (Some "referencestring") true false true false false false false false false false false false false true true false true 0;
  mkOpcodeTableEntry Opcode_AssertStringEqual (Some "assertstringeq") true false true false false false false false false false false false false true true true false 0;
  mkOpcodeTableEntry Opcode_StringCount (Some "stringcount") false false true false false false false false false false false false false true true true false 0;
  mkOpcodeTableEntry Opcode_NoOp (Some "noop") true false true false false false false false false false false false false true true false false 0 ].

Definition GetOpcodeTableEntry (opcode : Opcode) : result OpcodeTableEntry :=
  let index := opcodeIndex (opcodeTag opcode) in
  assert_ (index <? length g_opcodeTable)%nat;;
  entry ← at_ g_opcodeTable index;
  assert_ (bool_decide (_tag entry = opcodeTag opcode));;
  Ok entry.

(** ** What the passes ask *)

Definition IsLiveOperation (op : Operation) : result bool :=
  match _opcode op with
  | InlineExternalModule _ isLive => Ok isLive
  | opcode => e ← GetOpcodeTableEntry opcode; Ok (_isLive e)
  end.

Definition AllowMergeSubsequentAtomicDo (opcode : Opcode) : result bool := e ← GetOpcodeTableEntry opcode; Ok (_mergeAtomicDo e).
Definition ShouldPreserveInputRegisters (opcode : Opcode) : result bool := e ← GetOpcodeTableEntry opcode; Ok (_preserveInputReg e).
Definition OpcodeAllowedInAtomicBlock (opcode : Opcode) : result bool := e ← GetOpcodeTableEntry opcode; Ok (_allowedInAtomic e).
Definition OpcodeHasExternalInputRegisters (opcode : Opcode) : result bool := e ← GetOpcodeTableEntry opcode; Ok (_externalInputRegisters e).

Definition OperationHasRegisteredInput (op : Operation) : result bool :=
  match _opcode op with
  | InlineExternalModule latency _ => Ok (1 <=? latency)
  | LoadMemory 0 => Ok false
  | opcode => e ← GetOpcodeTableEntry opcode; Ok (_registeredInput e)
  end.

Definition GetInputRoutingDelay (inputOutputRegisterDelay : Z) (op : Operation) : result Z :=
  e ← GetOpcodeTableEntry (_opcode op);
  if _hasIoRoutingDelay e then registered ← OperationHasRegisteredInput op; Ok (if registered : bool then inputOutputRegisterDelay else 0) else Ok 0.

Definition GetOutputRoutingDelay (inputOutputRegisterDelay : Z) (opcode : Opcode) : result Z :=
  e ← GetOpcodeTableEntry opcode; Ok (if _hasIoRoutingDelay e then inputOutputRegisterDelay else 0).

Definition OpcodeUsesHardenedRegisters (opcode : Opcode) : result bool := e ← GetOpcodeTableEntry opcode; Ok (_hasIoRoutingDelay e).

Definition OperationHasRegisteredOutput (op : Operation) : result bool :=
  match _opcode op with
  | LoadMemory readLatency => if 2 =? readLatency then Ok true else assert_ (readLatency <? 2);; Ok false
  | InlineExternalModule latency _ => Ok (2 <=? latency)
  | opcode => e ← GetOpcodeTableEntry opcode; Ok (_registeredOutput e)
  end.

Definition DoesOpcodeImplyOptimizationBarrier (opcode : Opcode) : result bool := e ← GetOpcodeTableEntry opcode; Ok (_optimizationBarrier e).

Definition DoesOpcodeRequireTypeBarrier (opcode : Opcode) : result bool :=
  e ← GetOpcodeTableEntry opcode;
  assert_ (negb (_typeBarrier e) || (0 =? _pathLength e));;
  Ok (_typeBarrier e).

Definition DoesOpcodeRequireAssertBarrier (opcode : Opcode) : result bool := e ← GetOpcodeTableEntry opcode; Ok (_assertBarrier e).
Definition DoesOpcodeSupportCommonSubexpressionElimination (opcode : Opcode) : result bool := e ← GetOpcodeTableEntry opcode; Ok (_commonSubexpression e).

(** [noBackpressure]: the successor is a block of a function with [IsNoBackpressure()]. *)
Definition CanOperationBackpressure (opcode : Opcode) (noBackpressure : option bool) : result bool :=
  e ← GetOpcodeTableEntry opcode;
  Ok (_canCauseBackpressure e && match noBackpressure with Some b => negb b | None => true end).

Definition OpcodeCanUseBitBucketOutput (opcode : Opcode) : result bool := e ← GetOpcodeTableEntry opcode; Ok (_allowBitbucket e).
Definition OpcodeWritesToStringTable (opcode : Opcode) : result bool := e ← GetOpcodeTableEntry opcode; Ok (_writesStringTable e).

Definition OperationReadsFromStringTable (op : Operation) : result bool :=
  match _opcode op with
  | Print entries => Ok (existsb (fun pe => match _printType pe with PrintStringHandle => true | _ => false end) entries)
  | opcode => e ← GetOpcodeTableEntry opcode; Ok (_readsStringTable e)
  end.

(** ** Levels of logic *)

Fixpoint muxLoop (fuel : nat) (result_ width numChoices : Z) : result Z :=
  match fuel with
  | O => Err OutOfFuel
  | S fuel => if numChoices <=? width then Ok result_ else muxLoop fuel (u64_add result_ 1) (u64_mul width 4) numChoices
  end.

Definition GetMuxPathLength (numChoices : Z) : result Z := muxLoop 31 1 4 numChoices.

Definition getAddSubPathLength (program : Program) (carryChainWidthPerLogicLevel : Z) (op : Operation) : result Z :=
  assert_ (length (_dst op) =? 1)%nat;;
  w ← dstWidth program op;
  Ok (u64_sub (u64_add w carryChainWidthPerLogicLevel) 1 / carryChainWidthPerLogicLevel).

Definition getShiftPathLength (program : Program) (op : Operation) : result Z :=
  assert_ (length (_src op) =? 2)%nat;;
  src1 ← at_ (_src op) 1;
  match src1 with
  | SrcLiteral _ => Ok 0
  | _ =>
      src0 ← at_ (_src op) 0;
      w1 ← SourceOperand_Width program src1;
      w0 ← SourceOperand_Width program src0;
      l ← Log2RoundUp w0;
      fourToOneMuxPathLength ← GetMuxPathLength 4;
      aligned ← Align (Z.min w1 l) 2;
      Ok (u64_mul fourToOneMuxPathLength (aligned / 2))
  end.

(** A look-up table of an output bit that is not constant and not a copy *)
Definition lutPathLength (lutEntry : LutEntry) : Z :=
  if (_numSources lutEntry =? 0)%nat then 0 else if IsPassthrough lutEntry then 0 else 1.

(** [memoryElementCounts]: [_elementCount] of the memories *)
Definition GetOpPathLength (program : Program) (memoryElementCounts : gmap nat Z) (carryChainWidthPerLogicLevel : Z) (op : Operation) : result Z :=
  match _opcode op with
  | LoadMemory 0 =>
      src0 ← at_ (_src op) 0;
      match src0 with
      | SrcRegister r =>
          regDesc ← at_ (_registerTable program) (_registerIndex r);
          assert_ (bool_decide (Memory = _type regDesc));;
          depth ← SafeLookup memoryElementCounts (_registerIndex r);
          GetMuxPathLength depth
      | _ => Err AssertionFailed
      end
  | opcode =>
      e ← GetOpcodeTableEntry opcode;
      if 0 <=? _pathLength e then Ok (_pathLength e)
      else match opcode with
           | Select => GetMuxPathLength (u64_sub (Z.of_nat (length (_src op))) 1)
           | LutOp lut => foldM (fun r i => lutEntry ← at_ (_lutEntries lut) i; Ok (Z.max r (lutPathLength lutEntry))) (seq 0 (_numDestinationBits lut)) 0
           | BinaryOp t =>
               match t with
               | ParseTreeBinaryOpTypeAdd | ParseTreeBinaryOpTypeSub => getAddSubPathLength program carryChainWidthPerLogicLevel op
               | ParseTreeBinaryOpTypeShl | ParseTreeBinaryOpTypeShr => getShiftPathLength program op
               | ParseTreeBinaryOpTypeLutMul =>
                   src0 ← at_ (_src op) 0; src1 ← at_ (_src op) 1;
                   w0 ← SourceOperand_Width program src0; w1 ← SourceOperand_Width program src1;
                   Ok (u64_add (u64_add w0 w1) 5 / 6)
               | ParseTreeBinaryOpTypeMul | ParseTreeBinaryOpTypeDiv | ParseTreeBinaryOpTypeMod => Err AssertionFailed
               | _ => Ok 1
               end
           | _ => Err AssertionFailed
           end
  end.

End Opcodes.
