(* ===== verification/PathLength.v ===== *)
(** * Path lengths

    [ir.cpp]: what [GetMuxPathLength] and [GetOpPathLength] compute, of which
    operations the length is 0, and which of these are wires: every bit of the
    value is a constant or a bit of a source, whatever the registers hold. *)

From S2P Require Import Prelude MachineInt Literals Ir Semantics LutOpt LutFacts LutLower LutLowerFacts Opcodes.
Import MachineInt Containers Literals Ir Semantics LutOpt LutFacts LutLower LutLowerSelect Opcodes.

Module PathLength.

(** ** [GetMuxPathLength] *)

Lemma muxLoop_Ok k fuel numChoices : 0 <= numChoices <= 2 ^ 62 -> 1 <= k <= 31 -> (Z.to_nat (32 - k) <= fuel)%nat ->
  (forall j, 1 <= j < k -> 4 ^ j < numChoices) ->
  exists r, muxLoop fuel k (4 ^ k) numChoices = Ok r /\ k <= r /\ numChoices <= 4 ^ r /\ forall j, 1 <= j < r -> 4 ^ j < numChoices.
Proof.
  intros Hn. remember (Z.to_nat (31 - k)) as m eqn:Hm. revert k Hm fuel. induction m as [|m IH]; intros k Hm fuel Hk Hf Hlow; (destruct fuel as [|fuel]; [lia|]); cbn [muxLoop].
  - assert (k = 31) as -> by lia. destruct (Z.leb_spec numChoices (4 ^ 31)) as [H|H]; [exists 31; by split_and!|]. change (4 ^ 31) with (2 ^ 62) in H. lia.
  - destruct (Z.leb_spec numChoices (4 ^ k)) as [H|H]; [exists k; split_and!; (done || lia)|].
    assert (Hp : 4 ^ (k + 1) <= 4 ^ 31) by (apply Z.pow_le_mono_r; lia). change (4 ^ 31) with (2 ^ 62) in Hp.
    assert (Hs : 4 ^ (k + 1) = 4 ^ k * 4) by (rewrite Z.pow_add_r by lia; lia). pose proof (Z.pow_pos_nonneg 4 k ltac:(lia) ltac:(lia)).
    replace (u64_add k 1) with (k + 1) by (unfold u64_add; rewrite u64_small; [done|unfold is_u64; lia]).
    replace (u64_mul (4 ^ k) 4) with (4 ^ (k + 1)) by (unfold u64_mul; rewrite u64_small; [done|unfold is_u64; lia]).
    destruct (IH (k + 1)) with (fuel := fuel) as (r & Hr & H1 & H2 & H3); [lia|lia|lia| |exists r; split_and!; (done || lia)].
    intros j Hj. destruct (decide (j = k)) as [->|]; [done|apply Hlow; lia].
Qed.

Lemma muxLoop_zero fuel k numChoices : 0 < numChoices -> muxLoop fuel k 0 numChoices = Err OutOfFuel.
Proof. revert k. induction fuel as [|fuel IH]; intros k Hn; [done|]. cbn [muxLoop]. destruct (Z.leb_spec numChoices 0); [lia|]. by apply IH. Qed.

Lemma muxLoop_wraps fuel k numChoices : 2 ^ 62 < numChoices -> 1 <= k <= 31 -> muxLoop fuel k (4 ^ k) numChoices = Err OutOfFuel.
Proof.
  intros Hn. revert k. induction fuel as [|fuel IH]; intros k Hk; [done|]. cbn [muxLoop].
  assert (Hp : 4 ^ k <= 4 ^ 31) by (apply Z.pow_le_mono_r; lia). change (4 ^ 31) with (2 ^ 62) in Hp. pose proof (Z.pow_pos_nonneg 4 k ltac:(lia) ltac:(lia)).
  destruct (Z.leb_spec numChoices (4 ^ k)); [lia|]. replace (u64_add k 1) with (k + 1) by (unfold u64_add; rewrite u64_small; [done|unfold is_u64; lia]).
  destruct (decide (k = 31)) as [->|Hne]; [change (u64_mul (4 ^ 31) 4) with 0; apply muxLoop_zero; lia|].
  assert (Hp' : 4 ^ (k + 1) <= 4 ^ 31) by (apply Z.pow_le_mono_r; lia). change (4 ^ 31) with (2 ^ 62) in Hp'. assert (Hs : 4 ^ (k + 1) = 4 ^ k * 4) by (rewrite Z.pow_add_r by lia; lia).
  replace (u64_mul (4 ^ k) 4) with (4 ^ (k + 1)) by (unfold u64_mul; rewrite u64_small; [done|unfold is_u64; lia]). apply IH. lia.
Qed.

Lemma GetMuxPathLength_Ok numChoices : 0 <= numChoices <= 2 ^ 62 ->
  exists r, GetMuxPathLength numChoices = Ok r /\ 1 <= r /\ numChoices <= 4 ^ r /\ forall j, 1 <= j < r -> 4 ^ j < numChoices.
Proof. intros Hn. apply (muxLoop_Ok 1); lia. Qed.

(** C40: the path length of a multiplexer is the least number of levels of 4:1
    multiplexers, at least one, that choose among its inputs; for more than
    [2^62] choices the width wraps around to 0 and the loop never ends. *)
Theorem GetMuxPathLength_exact numChoices (Hn : 0 <= numChoices) :
  (numChoices <= 2 ^ 62 -> exists r, GetMuxPathLength numChoices = Ok r /\ 1 <= r /\ numChoices <= 4 ^ r /\ forall j, 1 <= j < r -> 4 ^ j < numChoices) /\
  (2 ^ 62 < numChoices -> forall fuel, muxLoop fuel 1 4 numChoices = Err OutOfFuel).
Proof. split; [intros H; by apply GetMuxPathLength_Ok|intros H fuel; by apply (muxLoop_wraps fuel 1)]. Qed.

Lemma GetMuxPathLength_exact_witness :
  (17 <= 2 ^ 62 -> exists r, GetMuxPathLength 17 = Ok r /\ 1 <= r /\ 17 <= 4 ^ r /\ forall j, 1 <= j < r -> 4 ^ j < 17) /\
  (2 ^ 62 < 17 -> forall fuel, muxLoop fuel 1 4 17 = Err OutOfFuel).
Proof. apply (GetMuxPathLength_exact 17). lia. Defined.

(** ** The opcode table *)

Lemma GetOpcodeTableEntry_Ok opcode : exists e, GetOpcodeTableEntry opcode = Ok e /\ _tag e = opcodeTag opcode /\ _lowerToLut e = CanOpcodeBeLoweredToLut opcode /\
  DoesOpcodeRequireTypeBarrier opcode = Ok (_typeBarrier e).
Proof. destruct opcode; (eexists; split; [vm_compute; reflexivity|done]). Qed.

(** ** Wires *)

Inductive wire : Type := WireConstant (b : bool) | WireBit (operand : nat) (bit : Z).

Definition wireValue (program : Program) (σ : nat -> Z) (op : Operation) (w : wire) : bool :=
  match w with WireConstant b => b | WireBit operand bit => Z.testbit (srcInt program σ op operand) bit end.

(** Every bit of the value is a constant or a bit of a source. *)
Definition wires (program : Program) (op : Operation) : Prop :=
  forall i, 0 <= i -> exists w, forall σ v, opValue program σ op = Some v -> Z.testbit v i = wireValue program σ op w.

Lemma wires_opInt program op : (exists d, dstWidth program op = Ok d /\ 0 <= d) ->
  (forall i, 0 <= i -> exists w, forall σ v, opInt program σ op = Some v -> Z.testbit v i = wireValue program σ op w) -> wires program op.
Proof.
  intros (d & Hd & Hpos) H i Hi. destruct (decide (i < d)) as [Hlt|Hge].
  - destruct (H i Hi) as [w Hw]. exists w. intros σ v. unfold opValue. rewrite Hd. destruct (opInt program σ op) as [x|] eqn:E; [|done]. cbn. intros [= <-].
    rewrite Z.testbit_mod_pow2 by done. rewrite (proj2 (Z.ltb_lt _ _) Hlt). by apply Hw.
  - exists (WireConstant false). intros σ v. unfold opValue. rewrite Hd. destruct (opInt program σ op) as [x|]; [|done]. cbn. intros [= <-].
    rewrite Z.testbit_mod_pow2 by done. by rewrite (proj2 (Z.ltb_ge _ _)) by lia.
Qed.

Lemma gatherPrefix_wire program op entries w m i : gather_wf op entries w -> (m <= length entries)%nat -> 0 <= i ->
  exists x, forall σ, Z.testbit (gatherPrefix program σ op entries m) i = wireValue program σ op x.
Proof.
  intros Hg. induction m as [|m IH]; intros Hm Hi; [exists (WireConstant false); intros σ; apply Z.bits_0|].
  destruct (lookup_lt_is_Some_2 entries m) as [e He]; [lia|]. destruct (Forall_lookup_1 _ _ _ _ (gather_bounds _ _ _ Hg) He) as (? & ? & ? & ? & ?).
  destruct (decide (_destOffset e <= i < _destOffset e + _numBits e)) as [Hin|Hout].
  - exists (WireBit m (_sourceOffset e + (i - _destOffset e))). intros σ. rewrite (gatherPrefix_S program op entries w Hg σ m e He), Z.lor_spec, testbit_slice by lia.
    rewrite (gatherPrefix_uncovered program op entries w Hg); [|lia|lia|].
    + by destruct (Z.leb_spec (_destOffset e) i), (Z.ltb_spec i (_destOffset e + _numBits e)); cbn; (done || lia).
    + intros j ej Hj Hej. destruct (gather_disjoint _ _ _ Hg j m ej e Hj Hej He); lia.
  - destruct (IH ltac:(lia) Hi) as [x Hx]. exists x. intros σ. rewrite (gatherPrefix_S program op entries w Hg σ m e He), Z.lor_spec, testbit_slice, Hx by lia.
    by destruct (Z.leb_spec (_destOffset e) i), (Z.ltb_spec i (_destOffset e + _numBits e)); cbn; rewrite ?orb_false_r; (done || lia).
Qed.

Lemma entry_wire program op e : entry_wf e -> lutPathLength e = 0 -> exists x, forall σ, entry_val (bit_of (srcInt program σ op)) e = wireValue program σ op x.
Proof.
  intros Hwf H. pose proof (length_columns e Hwf) as Hl. unfold lutPathLength in H. destruct (Nat.eqb_spec (_numSources e) 0) as [H0|H0].
  - exists (WireConstant (Z.testbit (_table e) 0)). intros σ. unfold entry_val. rewrite H0 in Hl. by apply length_zero_iff_nil in Hl as ->.
  - unfold IsPassthrough in H. destruct (Nat.eqb_spec (_numSources e) 1) as [H1|H1]; [|done]. destruct (Z.eqb_spec (_table e) 2) as [H2|H2]; [|done].
    destruct (columns e) as [|c [|c' l]] eqn:Ec; cbn in Hl; try lia. exists (WireBit c.1 c.2). intros σ. unfold entry_val. rewrite Ec, H2. cbn [fmap list_fmap]. unfold bit_of. cbn [wireValue].
    by destruct (Z.testbit (srcInt program σ op c.1) c.2).
Qed.

Lemma lut_wires program op es : Forall entry_wf es -> Z.of_nat (length es) < 2 ^ 32 -> _opcode op = LutOp (mkLut es) -> Forall (fun e => lutPathLength e = 0) es ->
  forall i, 0 <= i -> exists w, forall σ v, opInt program σ op = Some v -> Z.testbit v i = wireValue program σ op w.
Proof.
  intros Hwf Hlen Hop H0 i Hi. assert (Heval : forall σ, Evaluate (srcInt program σ op) (mkLut es) = Ok (lut_val (srcInt program σ op) es)) by (intros σ; by apply Evaluate_eq).
  destruct (es !! Z.to_nat i) as [e|] eqn:He.
  - destruct (entry_wire program op e) as [x Hx]; [by eapply (Forall_lookup_1 _ _ _ _ Hwf)|by eapply (Forall_lookup_1 _ _ _ _ H0)|]. exists x. intros σ v. unfold opInt. rewrite Hop, Heval. intros [= <-].
    unfold lut_val. rewrite testbit_bits_to_Z_nonneg, list_lookup_fmap, He by done. apply Hx.
  - exists (WireConstant false). intros σ v. unfold opInt. rewrite Hop, Heval. intros [= <-]. unfold lut_val. by rewrite testbit_bits_to_Z_nonneg, list_lookup_fmap, He by done.
Qed.

Lemma fold_max_zero es r : fold_left (fun r e => Z.max r (lutPathLength e)) es r = 0 -> 0 <= r -> Forall (fun e => lutPathLength e = 0) es.
Proof.
  assert (Hge : forall es r, r <= fold_left (fun r e => Z.max r (lutPathLength e)) es r) by (clear; intros es; induction es as [|e es IH]; intros r; cbn; [lia|specialize (IH (Z.max r (lutPathLength e))); lia]).
  revert r. induction es as [|e es IH]; intros r H Hr; [constructor|]. cbn in H. pose proof (Hge es (Z.max r (lutPathLength e))).
  assert (0 <= lutPathLength e) by (unfold lutPathLength; repeat case_match; lia). constructor; [lia|]. apply (IH (Z.max r (lutPathLength e))); [done|lia].
Qed.

Lemma lut_pathLength es : foldM (fun r i => lutEntry ← at_ es i; Ok (Z.max r (lutPathLength lutEntry))) (seq 0 (length es)) 0 = Ok (fold_left (fun r e => Z.max r (lutPathLength e)) es 0).
Proof.
  rewrite (foldM_seq_at (fun r _ e => Ok (Z.max r (lutPathLength e)))), (foldM_Ok _ (fun r p => Z.max r (lutPathLength p.2))) by done. f_equal.
  generalize 0%nat as n. generalize 0 as r. induction es as [|e es IH]; intros r n; [done|]. cbn [length seq zip zip_with fold_left snd]. apply IH.
Qed.

Lemma Align_2 x : 0 <= x < 2 ^ 63 -> Align x 2 = Ok (2 * ((x + 1) / 2)).
Proof.
  intros Hx. unfold Align. change (Z.land 2 (u64_sub 2 1) =? 0) with true. cbn [assert_ mbind result_bind]. change (u64_sub 2 1) with 1.
  replace (u64_add x 1) with (x + 1) by (unfold u64_add; rewrite u64_small; [done|unfold is_u64; lia]). f_equal.
  change (MachineInt.size_max - 1) with (Z.shiftl (Z.ones 63) 1). rewrite <- (Z.shiftr_div_pow2 _ 1), (Z.mul_comm 2), <- (Z.shiftl_mul_pow2 _ 1) by lia.
  apply Z.bits_inj'. intros i Hi. rewrite Z.land_spec, !Z.shiftl_spec by lia. destruct (decide (i = 0)) as [->|Hne]; [by rewrite andb_false_r|].
  rewrite Z.shiftr_spec, Z.sub_add by lia. rewrite Z.testbit_ones by lia. destruct (Z.leb_spec 0 (i - 1)); [|lia]. destruct (Z.ltb_spec (i - 1) 63); cbn; [by rewrite andb_true_r|].
  symmetry. rewrite andb_false_r. apply (testbit_high 64); lia.
Qed.

(** ** [GetOpPathLength] *)

(** The operands that [GetOpPathLength] reads, or whose bits [wires] speaks of,
    are there; nothing of an operation whose length the table tells. *)
Definition operands_ok (program : Program) (memoryElementCounts : gmap nat Z) (op : Operation) : Prop :=
  match _opcode op with
  | LoadMemory 0 => exists r d n, _src op !! 0%nat = Some (SrcRegister r) /\ _registerTable program !! _registerIndex r = Some d /\ _type d = Memory /\
      memoryElementCounts !! _registerIndex r = Some n /\ 0 <= n <= 2 ^ 62
  | BinaryOp _ => op_wf program op /\ length (_src op) = 2%nat
  | Select => 1 <= Z.of_nat (length (_src op)) <= 2 ^ 62
  | Gather entries => op_wf program op /\ exists w, gather_wf op entries w
  | LutOp lut => op_wf program op /\ Forall entry_wf (_lutEntries lut) /\ Z.of_nat (length (_lutEntries lut)) < 2 ^ 32
  | Mov | Clear => op_wf program op
  | _ => True
  end.

(** Operations that compute no value of registers: markers, checks and output of
    the simulation, moves between functions and latency placeholders, the cycle
    counter and the access to FIFOs *)
Definition no_logic : list OpcodeTag :=
  [Opcode_MovCrossFunction; Opcode_BeginAtomic; Opcode_EndAtomic; Opcode_Assert; Opcode_Print; Opcode_CycleCounter; Opcode_MovLatencyPlaceholder;
   Opcode_LineNumber; Opcode_DebugView; Opcode_EnqueueRegisters; Opcode_DequeueRegisters; Opcode_PushPredicate; Opcode_PopPredicate;
   Opcode_StallCheck; Opcode_LocationRecord; Opcode_ConditionalIgnore; Opcode_FormatString; Opcode_FormatEnum; Opcode_ReferenceString;
   Opcode_AssertStringEqual; Opcode_StringCount; Opcode_NoOp].

(** One bit shifted by a register *)
Definition one_bit_shift (program : Program) (op : Operation) : Prop :=
  (_opcode op = BinaryOp ParseTreeBinaryOpTypeShl \/ _opcode op = BinaryOp ParseTreeBinaryOpTypeShr) /\
  exists src0 r, _src op = [src0; SrcRegister r] /\ SourceOperand_Width program src0 = Ok 1.

(** The operators that are lowered before the scheduling *)
Definition lowered_operator (opcode : Opcode) : bool :=
  match opcode with
  | BinaryOp (ParseTreeBinaryOpTypeMul | ParseTreeBinaryOpTypeDiv | ParseTreeBinaryOpTypeMod) => true
  | _ => false
  end.

(** What the length [n] of an operation says *)
Definition length_says (program : Program) (op : Operation) (n : Z) : Prop :=
  0 <= n /\ (opcodeTag (_opcode op) ∈ no_logic \/ one_bit_shift program op -> n = 0) /\
  (n = 0 -> opcodeTag (_opcode op) ∈ no_logic \/ one_bit_shift program op \/ CanOpcodeBeLoweredToLut (_opcode op) = true /\ wires program op).

Section Operation.
Context (program : Program) (op : Operation) (carryChainWidthPerLogicLevel : Z).
Context (Hwf : op_wf program op) (Hcarry : 0 < carryChainWidthPerLogicLevel < 2 ^ 32).

Lemma source_width i o : _src op !! i = Some o -> exists w, SourceOperand_Width program o = Ok w /\ 0 < w < 2 ^ 30.
Proof.
  intros Hi. pose proof (Forall_lookup_1 _ _ _ _ (wf_src _ _ Hwf) Hi) as Ho. destruct o as [l|r| |]; cbn in Ho |- *; [|destruct Ho as (d & Hd & Hw)|done|done].
  - destruct Ho as [[Hw Hv] Hl]. exists (_width l). split; [done|]. unfold lit_wf in *. lia.
  - exists (_regWidth d). unfold registerWidth. by rewrite (at_Some _ _ _ Hd).
Qed.

Lemma dst_nonneg : exists d, dstWidth program op = Ok d /\ 0 <= d.
Proof. destruct (wf_dst _ _ Hwf) as (d & w & _ & Hw & ?). exists w. split; [done|lia]. Qed.

Lemma addSub_positive : exists n, getAddSubPathLength program carryChainWidthPerLogicLevel op = Ok n /\ 0 < n.
Proof.
  destruct (wf_dst _ _ Hwf) as (d & w & Hd & Hw & Hpos). unfold getAddSubPathLength. rewrite Hd, assert_true by done. cbn [mbind result_bind]. rewrite Hw. cbn [mbind result_bind].
  eexists. split; [reflexivity|]. unfold u64_sub, u64_add. rewrite (u64_small (w + _)) by (unfold is_u64; lia). rewrite u64_small by (unfold is_u64; lia). apply Z.div_str_pos. lia.
Qed.

Lemma shift_positive src0 src1 w0 : _src op = [src0; src1] -> isRegister src1 = true -> SourceOperand_Width program src0 = Ok w0 -> 2 <= w0 ->
  exists n, getShiftPathLength program op = Ok n /\ 0 < n.
Proof.
  intros Hs Hr H0 H2. destruct (source_width 0 src0) as (w0' & Hw0 & Hb0); [by rewrite Hs|]. rewrite H0 in Hw0. injection Hw0 as <-.
  destruct (source_width 1 src1) as (w1 & Hw1 & Hb1); [by rewrite Hs|]. unfold getShiftPathLength. rewrite Hs, assert_true by done. cbn [mbind result_bind at_ of_option lookup list_lookup].
  destruct src1 as [|r| |]; try done. rewrite Hw1, H0. cbn [mbind result_bind]. rewrite Log2RoundUp_eq by lia. cbn [mbind result_bind]. change (GetMuxPathLength 4) with (Ok (A := Z) 1). cbn [mbind result_bind].
  pose proof (Z.log2_up_pos w0 ltac:(lia)). pose proof (Z.log2_up_le_lin w0 ltac:(lia)). rewrite Align_2 by lia. cbn [mbind result_bind]. eexists. split; [reflexivity|].
  rewrite Z.mul_comm, Z.div_mul by lia. set (x := Z.min w1 (Z.log2_up w0)). assert (1 <= x < 2 ^ 30) by lia. assert (1 <= (x + 1) / 2 < 2 ^ 30) by (split; [apply Z.div_le_lower_bound; lia|apply Z.div_lt_upper_bound; lia]).
  unfold u64_mul. rewrite u64_small by (unfold is_u64; lia). lia.
Qed.

Lemma one_bit_zero src0 r : _src op = [src0; SrcRegister r] -> SourceOperand_Width program src0 = Ok 1 -> getShiftPathLength program op = Ok 0.
Proof.
  intros Hs H0. destruct (source_width 1 (SrcRegister r)) as (w1 & Hw1 & Hb1); [by rewrite Hs|]. unfold getShiftPathLength. rewrite Hs, assert_true by done.
  cbn [mbind result_bind at_ of_option lookup list_lookup]. rewrite Hw1, H0. cbn [mbind result_bind]. change (Log2RoundUp 1) with (Ok (A := Z) 0).
  change (GetMuxPathLength 4) with (Ok (A := Z) 1). cbn [mbind result_bind]. by rewrite Z.min_r by lia.
Qed.

Lemma shift_literal_wires t src0 l : _opcode op = BinaryOp t -> t = ParseTreeBinaryOpTypeShl \/ t = ParseTreeBinaryOpTypeShr -> _src op = [src0; SrcLiteral l] ->
  getShiftPathLength program op = Ok 0 /\ wires program op.
Proof.
  intros Hop Ht Hs. split; [unfold getShiftPathLength; by rewrite Hs|]. apply wires_opInt; [apply dst_nonneg|]. intros i Hi.
  set (c := lit_int l (signExtends op 1)). assert (H1 : forall σ, srcInt program σ op 1 = c) by (intros σ; unfold srcInt; by rewrite Hs).
  destruct Ht as [-> | ->].
  - exists (WireBit 0 (i - c)). intros σ v. unfold opInt. rewrite Hop, H1. cbn [binop_spec]. intros [= <-]. by rewrite Z.shiftl_spec.
  - exists (WireBit 0 (i + c)). intros σ v. unfold opInt. rewrite Hop, H1. cbn [binop_spec]. intros [= <-]. by rewrite Z.shiftr_spec.
Qed.

Definition measured (r : result Z) : Prop := exists n, r = Ok n /\ length_says program op n.

Lemma measured_wires : CanOpcodeBeLoweredToLut (_opcode op) = true -> ~ one_bit_shift program op -> wires program op -> measured (Ok 0).
Proof. intros Hc Hn Hw. exists 0. split; [done|]. split; [done|]. split; [done|]. intros _. by right; right. Qed.

Lemma lowerable_logic opcode : CanOpcodeBeLoweredToLut opcode = true -> opcodeTag opcode ∉ no_logic.
Proof. intros Hc. destruct opcode; try done; by apply (bool_decide_unpack _). Qed.

Lemma measured_positive r : opcodeTag (_opcode op) ∉ no_logic -> ~ one_bit_shift program op -> (exists n, r = Ok n /\ 0 < n) -> measured r.
Proof. intros Hl Hs (n & -> & Hn). exists n. split; [done|]. split; [lia|]. split; [by intros [?|?]|lia]. Qed.

Lemma measured_shift t : _opcode op = BinaryOp t -> t = ParseTreeBinaryOpTypeShl \/ t = ParseTreeBinaryOpTypeShr -> length (_src op) = 2%nat ->
  measured (getShiftPathLength program op).
Proof.
  intros Hop Ht H2. assert (Hc : CanOpcodeBeLoweredToLut (_opcode op) = true) by (by rewrite Hop). pose proof (lowerable_logic _ Hc) as Hl.
  assert (Hsrc : forall i o, _src op !! i = Some o -> operand_wf program o) by (intros i o; apply Forall_lookup_1, (wf_src _ _ Hwf)).
  destruct (_src op) as [|src0 [|src1 [|]]] eqn:Es; try done. pose proof (Hsrc 1%nat src1 eq_refl) as H1. destruct src1 as [l|r| |]; try done.
  - destruct (shift_literal_wires t src0 l Hop Ht Es) as [-> Hw]. apply measured_wires; [done| |done]. intros (_ & s0 & r & Hs & _). by rewrite Es in Hs.
  - destruct (source_width 0 src0) as (w & Hw & Hb); [by rewrite Es|]. destruct (decide (w = 1)) as [->|Hne].
    + rewrite (one_bit_zero src0 r Es Hw). exists 0. split; [done|]. split; [done|]. split; [done|]. intros _. right. left. split; [|by exists src0, r].
      rewrite Hop. by destruct Ht as [-> | ->]; [left|right].
    + apply measured_positive; [done| |eapply shift_positive; [done..|lia]]. intros (_ & s0 & r' & Hs & H0). rewrite Es in Hs. injection Hs as <- <-. rewrite Hw in H0. by injection H0.
Qed.

Lemma measured_binary memoryElementCounts t : _opcode op = BinaryOp t -> length (_src op) = 2%nat -> lowered_operator (BinaryOp t) = false ->
  measured (GetOpPathLength program memoryElementCounts carryChainWidthPerLogicLevel op).
Proof.
  intros Hop Hlen Ht. unfold GetOpPathLength. rewrite Hop. destruct (GetOpcodeTableEntry_Ok (BinaryOp t)) as (e & He & _). rewrite He. cbn [mbind result_bind].
  assert (Hneg : 0 <=? _pathLength e = false) by (vm_compute in He; by injection He as <-). rewrite Hneg.
  assert (Hpos : forall r, t <> ParseTreeBinaryOpTypeShl -> t <> ParseTreeBinaryOpTypeShr -> (exists n, r = Ok n /\ 0 < n) -> measured r).
  { intros r H1 H2. apply measured_positive; [rewrite Hop; by apply lowerable_logic|]. unfold one_bit_shift. rewrite Hop. by intros [[[= ?]|[= ?]] _]. }
  destruct t; try done; try (by apply Hpos, addSub_positive); try (by eapply measured_shift; eauto); try (by apply Hpos; [..|exists 1]).
  destruct (lookup_lt_is_Some_2 (_src op) 0) as [s0 H0]; [lia|]. destruct (lookup_lt_is_Some_2 (_src op) 1) as [s1 H1]; [lia|].
  rewrite (at_Some _ _ _ H0), (at_Some _ _ _ H1). cbn [mbind result_bind]. destruct (source_width 0 s0 H0) as (w0 & -> & Hw0). destruct (source_width 1 s1 H1) as (w1 & -> & Hw1). cbn [mbind result_bind].
  apply Hpos; [done..|]. eexists. split; [reflexivity|]. unfold u64_add. rewrite (u64_small (w0 + w1)) by (unfold is_u64; lia). rewrite u64_small by (unfold is_u64; lia). apply Z.div_str_pos. lia.
Qed.

End Operation.

Lemma gather_wires program op entries w : op_wf program op -> _opcode op = Gather entries -> gather_wf op entries w -> wires program op.
Proof.
  intros Hwf Hop Hg. apply wires_opInt; [by eapply dst_nonneg|]. intros i Hi. destruct (gatherPrefix_wire program op entries w (length entries) i Hg (le_n _) Hi) as [x Hx]. exists x.
  intros σ v. unfold opInt. rewrite Hop. intros [= <-]. rewrite <- Hx. unfold gatherPrefix, gatherInt. rewrite take_ge; [done|]. rewrite length_zip_with, length_seq. lia.
Qed.

Lemma entry_of opcode e : GetOpcodeTableEntry opcode = Ok e -> In e g_opcodeTable /\ _tag e = opcodeTag opcode.
Proof. destruct opcode; intros H; vm_compute in H; injection H as <-; (split; [vm_compute; tauto|done]). Qed.

Lemma lut_measured program op es memoryElementCounts carry : op_wf program op -> _opcode op = LutOp (mkLut es) -> Forall entry_wf es -> Z.of_nat (length es) < 2 ^ 32 ->
  measured program op (GetOpPathLength program memoryElementCounts carry op).
Proof.
  intros Hwf Hop Hes Hlen. unfold GetOpPathLength. rewrite Hop. destruct (GetOpcodeTableEntry_Ok (LutOp (mkLut es))) as (e & He & _). rewrite He. cbn [mbind result_bind].
  assert (Hneg : 0 <=? _pathLength e = false) by (vm_compute in He; by injection He as <-). rewrite Hneg. unfold _numDestinationBits. cbn [_lutEntries]. rewrite lut_pathLength.
  assert (Hlow : CanOpcodeBeLoweredToLut (_opcode op) = true) by (by rewrite Hop). assert (Hs : ~ one_bit_shift program op) by (intros [[?|?] _]; congruence).
  eexists. split; [reflexivity|]. split; [|split].
  - assert (Hge : forall es r, 0 <= r -> 0 <= fold_left (fun r e => Z.max r (lutPathLength e)) es r) by (clear; intros es; induction es as [|e es IH]; intros r Hr; cbn; [lia|apply IH; lia]). by apply Hge.
  - intros [Hn|?]; [|done]. by destruct (lowerable_logic _ Hlow).
  - intros H0. right. right. split; [done|]. apply wires_opInt; [by eapply dst_nonneg|]. by apply (lut_wires program op es Hes Hlen Hop), (fold_max_zero es 0).
Qed.

(** The operations whose length the table tells: 0 for those of [no_logic], 1 for the others *)
Lemma table_measured program op memoryElementCounts carry :
  match _opcode op with BinaryOp _ | Select | Gather _ | LutOp _ | Mov | Clear => False | LoadMemory l => l <> 0 | _ => True end ->
  measured program op (GetOpPathLength program memoryElementCounts carry op).
Proof.
  intros Hop. assert (Hs : ~ one_bit_shift program op) by (intros [[H|H] _]; by rewrite H in Hop).
  destruct (GetOpcodeTableEntry_Ok (_opcode op)) as (e & He & _).
  assert (Heq : GetOpPathLength program memoryElementCounts carry op = Ok (_pathLength e) /\
    (_pathLength e = 0 /\ opcodeTag (_opcode op) ∈ no_logic \/ _pathLength e = 1 /\ opcodeTag (_opcode op) ∉ no_logic)).
  { unfold GetOpPathLength. destruct (_opcode op) as [] eqn:E; try done; try destruct _readLatency; try done; vm_compute in He; injection He as <-; (split; [reflexivity|]);
      first [left; split; [reflexivity|by apply (bool_decide_unpack _)]|right; split; [reflexivity|by apply (bool_decide_unpack _)]]. }
  destruct Heq as [-> [[H Hin]|[H Hnot]]]; rewrite H; [exists 0|exists 1]; (split; [done|]); (split; [done|]); split; try done; [by left|by intros [?|?]].
Qed.

(** C39: [GetOpPathLength] of any operation whose operands are there returns
    without a failed assertion or an endless loop, but for products, quotients
    and remainders, which are lowered before, where it fails its assertion.  The
    length is 0 for the operations that compute no value of registers, for one bit
    shifted by a register, and otherwise only where no logic is needed: every bit
    of the value is a constant or a bit of one source, whatever the registers
    hold. *)
Theorem GetOpPathLength_wires program op memoryElementCounts carryChainWidthPerLogicLevel
  (Hok : operands_ok program memoryElementCounts op) (Hcarry : 0 < carryChainWidthPerLogicLevel < 2 ^ 32) :
  if lowered_operator (_opcode op) then GetOpPathLength program memoryElementCounts carryChainWidthPerLogicLevel op = Err AssertionFailed
  else exists n, GetOpPathLength program memoryElementCounts carryChainWidthPerLogicLevel op = Ok n /\ length_says program op n.
Proof.
  assert (Hs : match _opcode op with BinaryOp _ => False | _ => True end -> ~ one_bit_shift program op) by (intros H [[E|E] _]; by rewrite E in H).
  unfold operands_ok in Hok. destruct (_opcode op) as [] eqn:Hop; cbn [lowered_operator];
    try (apply table_measured; by rewrite Hop).
  - unfold GetOpPathLength. rewrite Hop. apply measured_wires; [by rewrite Hop|by apply Hs|]. apply wires_opInt; [by eapply dst_nonneg|]. intros i Hi. exists (WireBit 0 i).
    intros σ v. unfold opInt. rewrite Hop. by intros [= <-].
  - unfold GetOpPathLength. rewrite Hop. apply measured_wires; [by rewrite Hop|by apply Hs|]. apply wires_opInt; [by eapply dst_nonneg|]. intros i Hi. exists (WireConstant false).
    intros σ v. unfold opInt. rewrite Hop. intros [= <-]. apply Z.bits_0.
  - destruct Hok as [Hwf Hlen]. destruct (lowered_operator (BinaryOp _binaryOpType)) eqn:Hl.
    + assert (Ht : GetOpPathLength program memoryElementCounts carryChainWidthPerLogicLevel op = Err AssertionFailed) by (unfold GetOpPathLength; rewrite Hop; by destruct _binaryOpType).
      by destruct _binaryOpType.
    + pose proof (measured_binary program op carryChainWidthPerLogicLevel Hwf Hcarry memoryElementCounts _ Hop Hlen Hl) as Hm. by destruct _binaryOpType.
  - apply measured_positive; [by rewrite Hop; apply lowerable_logic|by apply Hs|]. unfold GetOpPathLength. rewrite Hop.
    destruct (GetOpcodeTableEntry_Ok Select) as (e & He & _). rewrite He. assert (Hneg : 0 <=? _pathLength e = false) by (vm_compute in He; by injection He as <-). cbn [mbind result_bind]. rewrite Hneg.
    destruct (GetMuxPathLength_Ok (u64_sub (Z.of_nat (length (_src op))) 1)) as (r & Hr & H1 & _); [unfold u64_sub; rewrite u64_small by (unfold is_u64; lia); lia|]. exists r. split; [done|lia].
  - destruct Hok as [Hwf [w Hg]]. unfold GetOpPathLength. rewrite Hop. apply measured_wires; [by rewrite Hop|by apply Hs|]. by eapply gather_wires.
  - destruct _readLatency as [|p|p]; [|apply table_measured; by rewrite Hop..]. destruct Hok as (r & d & n & Hsrc & Hd & Hmem & Hn & Hb).
    apply measured_positive; [rewrite Hop; by apply (bool_decide_unpack _)|by apply Hs|]. unfold GetOpPathLength. rewrite Hop, (at_Some _ _ _ Hsrc). cbn [mbind result_bind].
    rewrite (at_Some _ _ _ Hd). cbn [mbind result_bind]. rewrite Hmem, bool_decide_eq_true_2 by done. cbn [assert_ mbind result_bind]. unfold SafeLookup. rewrite Hn. cbn [of_option mbind result_bind].
    destruct (GetMuxPathLength_Ok n Hb) as (x & Hx & H1 & _). exists x. split; [done|lia].
  - destruct Hok as (Hwf & H1 & H2), _lut as [es]. by eapply lut_measured.
Qed.

(** ** Examples *)

Definition demoProgram : Program := mkProgram [mkRegisterDescription 1 Local "bit"; mkRegisterDescription 8 Local "amount"; mkRegisterDescription 8 Local "value"].
Definition demoSource (r : nat) : SourceOperand := SrcRegister (mkAccessedRegister r).
Definition demoShift (source : nat) (amount : SourceOperand) : Operation :=
  mkOperation (BinaryOp ParseTreeBinaryOpTypeShl) 0 ∅ [demoSource source; amount] [DstRegister (mkAccessedRegister 2)].

Lemma demoShift_ok source amount : (source < 3)%nat -> operand_wf demoProgram amount -> operands_ok demoProgram ∅ (demoShift source amount).
Proof.
  intros Hs Ha. split; [|done]. split; [|cbn; lia|done|eexists _, 8; by split_and!].
  constructor; [|by constructor]. destruct source as [|[|[|]]]; [..|lia]; (eexists; split; [reflexivity|cbn; lia]).
Qed.

(** By a literal: no logic.  One bit by a register: length 0 all the same *)
Lemma GetOpPathLength_wires_witness :
  (exists n, GetOpPathLength demoProgram ∅ 8 (demoShift 2 (SrcLiteral (mkLiteral 3 2))) = Ok n /\ length_says demoProgram (demoShift 2 (SrcLiteral (mkLiteral 3 2))) n) /\
  (exists n, GetOpPathLength demoProgram ∅ 8 (demoShift 0 (demoSource 1)) = Ok n /\ length_says demoProgram (demoShift 0 (demoSource 1)) n).
Proof.
  split.
  - apply (GetOpPathLength_wires demoProgram (demoShift 2 (SrcLiteral (mkLiteral 3 2))) ∅ 8); [|lia]. apply demoShift_ok; [lia|]. cbn. unfold lit_wf. cbn. lia.
  - apply (GetOpPathLength_wires demoProgram (demoShift 0 (demoSource 1)) ∅ 8); [|lia]. apply demoShift_ok; [lia|]. eexists; split; [reflexivity|cbn; lia].
Defined.

(** A one-bit value that is shifted by a register has path length 0, but bit [i]
    of the result is a comparison of the amount with [i]: it needs logic. *)
Lemma GetOpPathLength_one_bit_shift : GetOpPathLength demoProgram ∅ 8 (demoShift 0 (demoSource 1)) = Ok 0 /\ ~ wires demoProgram (demoShift 0 (demoSource 1)).
Proof.
  split; [by vm_compute|]. intros H. destruct (H 3 ltac:(lia)) as [w Hw].
  set (σ := fun (bit amount : Z) (r : nat) => match r with O => bit | S O => amount | _ => 0 end).
  pose proof (Hw (σ 1 3) 8 ltac:(by vm_compute)) as H1. pose proof (Hw (σ 1 2) 4 ltac:(by vm_compute)) as H2. pose proof (Hw (σ 0 3) 0 ltac:(by vm_compute)) as H3. pose proof (Hw (σ 1 7) 128 ltac:(by vm_compute)) as H4.
  destruct w as [b|operand bit]; cbn [wireValue] in *; [vm_compute in H1, H2; congruence|]. destruct operand as [|[|operand]].
  - change (srcInt demoProgram (σ 1 3) (demoShift 0 (demoSource 1)) 0) with 1 in H1. change (srcInt demoProgram (σ 1 2) (demoShift 0 (demoSource 1)) 0) with 1 in H2. rewrite <- H1 in H2. done.
  - change (srcInt demoProgram (σ 1 3) (demoShift 0 (demoSource 1)) 1) with 3 in H1. change (srcInt demoProgram (σ 0 3) (demoShift 0 (demoSource 1)) 1) with 3 in H3. rewrite <- H1 in H3. done.
  - change (srcInt demoProgram (σ 1 3) (demoShift 0 (demoSource 1)) (S (S operand))) with 0 in H1. by rewrite Z.bits_0 in H1.
Qed.

End PathLength.
