(* ===== verification/DeadOperations.v ===== *)
(** * Removal of dead operations

    [optimize.cpp]: [RemoveDeadOperationsImpl], which finds the operations whose
    results nothing needs and removes them, and its caller
    [RemoveDeadOperations].

    A pointer to an operation is its block and its index in the enumeration of
    the block's operations.  The set that the callbacks share is part of the state.
    The registers of [_clockGates] of the stages of a block are an argument, a list
    of sets. *)

From S2P Require Import Prelude MachineInt Literals Ir Flow Liveness Opcodes.
Import MachineInt Containers Literals Ir Flow Liveness Opcodes.

Module DeadOperations.

(** [const Operation*] *)
Notation pointer := (nat * nat)%type.

(** The operations of a block with their pointers *)
Definition pointers (b : nat) (ops : list FlowOperation) : list (pointer * FlowOperation) := imap (fun k op => ((b, k), op)) ops.

(** What the analysis keeps for all blocks, with the set that the callbacks share *)
Record liveness : Type := mkLiveness {
  _liveInMap : gmap nat (gset nat);
  _liveOperations : gset pointer;
  _liveLocalDataPropagationSources : gmap nat (gset nat);
  _liveLoadMemoryDestinations : gmap pointer (gset nat);
  _liveGlobalVariables : gset nat }.

Definition insertAt {K} `{Countable K} (m : gmap K (gset nat)) (key : K) (value : nat) : gmap K (gset nat) := <[key := {[value]} ∪ default ∅ (m !! key)]> m.

Section Impl.
Context (isLiveOperationCb : gset nat -> Operation -> result bool) (notifyLiveOpCb : gset nat -> Operation -> result (gset nat)).
Context (blocks : gmap nat FlowBlock) (functionIndex : nat) (cfg : ControlFlowGraph) (firstBlock : gset nat -> nat).
Context (mode : OperationEnumerationMode) (clockGates : nat -> list (gset nat)).

(** The registers that the successor of an enqueue operation needs *)
Definition successorRegisters (liveInMap : gmap nat (gset nat)) (op : FlowOperation) (liveRegisters : gset nat) : result (gset nat) :=
  match _getSuccessorBlock op with
  | None => Ok liveRegisters
  | Some successor =>
      live ← foldM (insertMapped op) (set_elements (liveIn liveInMap successor)) liveRegisters;
      block ← blockAt blocks successor;
      foldM (insertMapped op) (_liveInReg block) live
  end.

(** Whether a destination is needed, and what is recorded of it *)
Definition visitDestination (p : pointer) (op : FlowOperation) (liveRegisters : gset nat)
    (st : bool * gmap nat (gset nat) * gmap pointer (gset nat)) (d : nat * DestinationOperand) : bool * gmap nat (gset nat) * gmap pointer (gset nat) :=
  let '(liveOperation, sources, destinations) := st in
  match d.2 with
  | DstRegister reg =>
      if bool_decide (_registerIndex reg ∈ liveRegisters) then
        match _opcode (_operation op) with
        | DequeueRegisters fifo _ => (true, insertAt sources fifo d.1, destinations)
        | LoadMemory _ => (true, sources, insertAt destinations p d.1)
        | _ => (true, sources, destinations)
        end
      else st
  | DstFifo _ => (true, sources, destinations)
  end.

Definition insertSources (op : Operation) (liveRegisters : gset nat) : gset nat :=
  fold_left (fun live sourceOp => match sourceOp with SrcRegister r => {[_registerIndex r]} ∪ live | _ => live end) (_src op) liveRegisters.

(** The first [callback] *)
Definition visitOperation (st : gset nat * liveness) (o : pointer * FlowOperation) : result (gset nat * liveness) :=
  let '(liveRegisters, s) := st in
  let '(p, op) := o in
  liveRegisters ← successorRegisters (_liveInMap s) op liveRegisters;
  byCallback ← isLiveOperationCb (_liveGlobalVariables s) (_operation op);
  let '(liveOperation, sources, destinations) :=
    if byCallback : bool then (true, _liveLocalDataPropagationSources s, _liveLoadMemoryDestinations s)
    else fold_left (visitDestination p op liveRegisters) (zip (seq 0 (length (_dst (_operation op)))) (_dst (_operation op)))
           (false, _liveLocalDataPropagationSources s, _liveLoadMemoryDestinations s) in
  if liveOperation : bool then
    liveGlobalVariables ← notifyLiveOpCb (_liveGlobalVariables s) (_operation op);
    Ok (insertSources (_operation op) liveRegisters, mkLiveness (_liveInMap s) ({[p]} ∪ _liveOperations s) sources destinations liveGlobalVariables)
  else
    assert_ (negb (bool_decide (p ∈ _liveOperations s)));;
    Ok (liveRegisters, mkLiveness (_liveInMap s) (_liveOperations s) sources destinations (_liveGlobalVariables s)).

(** One block of the work list *)
Definition visitBlock (workList : gset nat) (s : liveness) : result (gset nat * liveness) :=
  '(b, workList) ← Pop blocks functionIndex firstBlock workList;
  basicBlock ← blockAt blocks b;
  let liveRegisters := match mode with Scheduled => ⋃ (clockGates b) | Unscheduled => ∅ end in
  '(liveRegisters, s) ← foldM visitOperation (reverse (pointers b (operationsOf mode basicBlock))) (liveRegisters, s);
  if bool_decide (liveRegisters = liveIn (_liveInMap s) b) then Ok (workList, s)
  else
    workList ← AddPredecessors blocks functionIndex cfg workList b;
    Ok (workList, mkLiveness (<[b := liveRegisters]> (_liveInMap s)) (_liveOperations s) (_liveLocalDataPropagationSources s)
                    (_liveLoadMemoryDestinations s) (_liveGlobalVariables s)).

Fixpoint visitLoop (fuel : nat) (workList : gset nat) (s : liveness) : result (liveness) :=
  if bool_decide (workList = ∅) then Ok s
  else match fuel with
       | O => Err OutOfFuel
       | S fuel => '(workList, s) ← visitBlock workList s; visitLoop fuel workList s
       end.

(** ** Changes *)

(** [VectorEraseByIndex] for each operand that is not live *)
Definition eraseDead {A} (liveOperands : gset nat) (offsets : list Z) (operands : list A) : list Z * list A :=
  let '(_, offsets, operands) :=
    fold_left (fun (st : nat * list Z * list A) i =>
        let '(runningOffset, offsets, operands) := st in
        if bool_decide (i ∈ liveOperands) then (S runningOffset, offsets, operands)
        else (runningOffset, delete runningOffset offsets, delete runningOffset operands))
      (seq 0 (length offsets)) (0%nat, offsets, operands) in
  (offsets, operands).

Definition setBitBucket (liveOperands : gset nat) (program : Program) (d : nat * DestinationOperand) : result Program :=
  match d.2 with
  | DstRegister reg =>
      if bool_decide (d.1 ∈ liveOperands) then Ok program
      else
        regDesc ← at_ (_registerTable program) (_registerIndex reg);
        Ok (mkProgram (<[_registerIndex reg := mkRegisterDescription (_regWidth regDesc) BitBucket (_name regDesc)]> (_registerTable program)))
  | DstFifo _ => Ok program
  end.

(** [op] with another opcode, other sources and destinations *)
Definition withOperands (op : FlowOperation) (opcode : Opcode) (src : list SourceOperand) (dst : list DestinationOperand) : FlowOperation :=
  mkFlowOperation (mkOperation opcode (_signExtendSourceMask (_operation op)) (_locations (_operation op)) src dst) (_getSuccessorBlock op)
    (_renamingTable op) (_reverseRenamingTable op) (_isContextSaverCaller op).

(** The second [callback]; the state is the program, the live operations and the
    index of the operation in its block. *)
Definition changeOperation (s : liveness) (b : nat) (st : Program * gset pointer * nat) (op : FlowOperation) : result (Program * gset pointer * nat * FlowOperation) :=
  let '(program, liveOperations, k) := st in
  let o := _operation op in
  match _opcode o with
  | EnqueueRegisters fifo offsets =>
      assert_ (length offsets =? length (_src o))%nat;;
      let '(offsets, src) := eraseDead (default ∅ (_liveLocalDataPropagationSources s !! fifo)) offsets (_src o) in
      assert_ (length offsets =? length src)%nat;;
      Ok (program, match offsets with [] => liveOperations ∖ {[(b, k)]} | _ => liveOperations end, S k, withOperands op (EnqueueRegisters fifo offsets) src (_dst o))
  | DequeueRegisters fifo offsets =>
      assert_ (length offsets =? length (_dst o))%nat;;
      let '(offsets, dst) := eraseDead (default ∅ (_liveLocalDataPropagationSources s !! fifo)) offsets (_dst o) in
      assert_ (length offsets =? length dst)%nat;;
      Ok (program, match offsets with [] => liveOperations ∖ {[(b, k)]} | _ => liveOperations end, S k, withOperands op (DequeueRegisters fifo offsets) (_src o) dst)
  | LoadMemory _ =>
      program ← foldM (setBitBucket (default ∅ (_liveLoadMemoryDestinations s !! (b, k)))) (zip (seq 0 (length (_dst o))) (_dst o)) program;
      Ok (program, liveOperations, S k, op)
  | _ => Ok (program, liveOperations, S k, op)
  end.

Definition changeBlock (s : liveness) (st : Program * gset pointer * gmap nat FlowBlock) (b : nat) : result (Program * gset pointer * gmap nat FlowBlock) :=
  let '(program, liveOperations, blocks) := st in
  basicBlock ← blockAt blocks b;
  '((program, liveOperations, _), basicBlock) ← ForEachOperationForward (changeOperation s b) mode basicBlock (program, liveOperations, 0%nat);
  Ok (program, liveOperations, <[b := basicBlock]> blocks).

(** [remove_if] of a list whose first operation has the index [k] *)
Definition removeDead (liveOperations : gset pointer) (b k : nat) (ops : list FlowOperation) : list FlowOperation :=
  omap (fun o => if bool_decide (o.1 ∈ liveOperations) then Some o.2 else None) (imap (fun i op => ((b, k + i)%nat, op)) ops).

(** [remove_if] of every stage *)
Fixpoint removeDeadStages (liveOperations : gset pointer) (b k : nat) (stages : list (list FlowOperation)) : list (list FlowOperation) :=
  match stages with
  | [] => []
  | stage :: stages => removeDead liveOperations b k stage :: removeDeadStages liveOperations b (k + length stage) stages
  end.

Definition removeBlock (liveOperations : gset pointer) (st : gmap nat FlowBlock * bool) (b : nat) : result (gmap nat FlowBlock * bool) :=
  let '(blocks, didChangeIR) := st in
  bb ← blockAt blocks b;
  let bb' :=
    match mode with
    | Unscheduled =>
        mkFlowBlock (removeDead liveOperations b 0 (_startConditionOperations bb))
          (removeDead liveOperations b (length (_startConditionOperations bb)) (_operations bb)) (_stages bb)
          (_function bb) (_liveInReg bb) (_returnValueReg bb) (_forcedDeadInReg bb) (_invocationInstanceRegisterIndex bb)
    | Scheduled =>
        mkFlowBlock (_startConditionOperations bb) (_operations bb) (removeDeadStages liveOperations b 0 (_stages bb))
          (_function bb) (_liveInReg bb) (_returnValueReg bb) (_forcedDeadInReg bb) (_invocationInstanceRegisterIndex bb)
    end in
  let removed := negb (length (operationsOf mode bb') =? length (operationsOf mode bb))%nat in
  Ok (<[b := bb']> blocks, didChangeIR || removed).

(** [function._basicBlocks] are [members]. *)
Definition RemoveDeadOperationsImpl (fuel : nat) (program : Program) (members : list nat) (liveGlobalVariables : gset nat) (allowIRChanges : bool)
    : result (Program * gmap nat FlowBlock * gset nat * bool) :=
  s ← visitLoop fuel (DataFlowWorkList members) (mkLiveness ∅ ∅ ∅ ∅ liveGlobalVariables);
  if negb allowIRChanges then Ok (program, blocks, _liveGlobalVariables s, false)
  else
    '(program, liveOperations, blocks) ← foldM (changeBlock s) members (program, _liveOperations s, blocks);
    '(blocks, didChangeIR) ← foldM (removeBlock liveOperations) members (blocks, false);
    Ok (program, blocks, _liveGlobalVariables s, didChangeIR).
End Impl.

Definition RemoveDeadOperations (blocks : gmap nat FlowBlock) (functionIndex : nat) (cfg : ControlFlowGraph) (firstBlock : gset nat -> nat)
    (mode : OperationEnumerationMode) (clockGates : nat -> list (gset nat)) (fuel : nat) (program : Program) (members : list nat)
    : result (Program * gmap nat FlowBlock * bool) :=
  '(program, blocks, _, didChangeIR) ← RemoveDeadOperationsImpl (fun _ => IsLiveOperation) (fun live _ => Ok live)
                                         blocks functionIndex cfg firstBlock mode clockGates fuel program members ∅ true;
  Ok (program, blocks, didChangeIR).

(** ** Global variables that are not used *)

Section Globals.
Context (program : Program).

(** The register goes into the set if it is a global one. *)
Definition insertGlobal (liveGlobalVariables : gset nat) (registerIndex : nat) : result (gset nat) :=
  t ← registerType program registerIndex; Ok (if bool_decide (Global = t) then {[registerIndex]} ∪ liveGlobalVariables else liveGlobalVariables).

Definition insertGlobalSource (liveGlobalVariables : gset nat) (src : SourceOperand) : result (gset nat) :=
  match src with SrcRegister r => insertGlobal liveGlobalVariables (_registerIndex r) | _ => Ok liveGlobalVariables end.

(** The variables that can be inspected, count for code coverage or are in a global view *)
Definition initialGlobals (inspectableVariables codeCoverageVariables : list (list nat)) (globalViewFunctions : list (list Operation)) : result (gset nat) :=
  live ← foldM (fun live registers => foldM insertGlobal registers live) inspectableVariables ∅;
  live ← foldM (fun live registers => foldM insertGlobal registers live) codeCoverageVariables live;
  foldM (fun live ops => foldM (fun live op => foldM insertGlobalSource (_src op) live) ops live) globalViewFunctions live.

Definition isLiveOperation (liveGlobalVariables : gset nat) (op : Operation) : result bool :=
  match _opcode op with
  | WriteGlobal =>
      assert_ (1 =? length (_dst op))%nat;;
      d ← at_ (_dst op) 0;
      match d with DstRegister r => Ok (bool_decide (_registerIndex r ∈ liveGlobalVariables)) | DstFifo _ => Err AssertionFailed end
  | _ => IsLiveOperation op
  end.

Definition notifyLiveOp (liveGlobalVariables : gset nat) (op : Operation) : result (gset nat) := foldM insertGlobalSource (_src op) liveGlobalVariables.
End Globals.

Section Unused.
Context (functions : list FlowFunction) (firstBlock : gset nat -> nat) (clockGates : nat -> list (gset nat)) (fuel : nat).

(** One round over the functions, which only finds live variables *)
Definition findGlobals (program : Program) (blocks : gmap nat FlowBlock) (liveGlobalVariables : gset nat) : result (gset nat) :=
  foldM (fun live f =>
      controlFlowGraph ← buildGraph blocks f.1 Unscheduled (_basicBlocks f.2);
      '(_, live, result) ← RemoveDeadOperationsImpl isLiveOperation (notifyLiveOp program) blocks f.1 controlFlowGraph firstBlock Unscheduled clockGates fuel program (_basicBlocks f.2) live false;
      assert_ (negb result);;
      Ok live)
    (zip (seq 0 (length functions)) functions) liveGlobalVariables.

(** [rounds] bounds the iterations of the outer loop. *)
Fixpoint convergeGlobals (rounds : nat) (program : Program) (blocks : gmap nat FlowBlock) (liveGlobalVariables : gset nat) : result (gset nat) :=
  match rounds with
  | O => Err OutOfFuel
  | S rounds =>
      live ← findGlobals program blocks liveGlobalVariables;
      if bool_decide (liveGlobalVariables = live) then Ok live else convergeGlobals rounds program blocks live
  end.

Definition removeInFunction (liveGlobalVariables : gset nat) (st : Program * gmap nat FlowBlock * bool) (f : nat * FlowFunction) : result (Program * gmap nat FlowBlock * bool) :=
  let '(program, blocks, didChangeIR) := st in
  controlFlowGraph ← buildGraph blocks f.1 Unscheduled (_basicBlocks f.2);
  '(program, blocks, _, result) ← RemoveDeadOperationsImpl isLiveOperation (fun live _ => Ok live) blocks f.1 controlFlowGraph firstBlock Unscheduled clockGates fuel
                                    program (_basicBlocks f.2) liveGlobalVariables true;
  Ok (program, blocks, didChangeIR || result).

Definition RemoveUnusedGlobals (rounds : nat) (inspectableVariables codeCoverageVariables : list (list nat)) (globalViewFunctions : list (list Operation))
    (program : Program) (blocks : gmap nat FlowBlock) : result (Program * gmap nat FlowBlock * bool) :=
  live ← initialGlobals program inspectableVariables codeCoverageVariables globalViewFunctions;
  live ← convergeGlobals rounds program blocks live;
  foldM (removeInFunction live) (zip (seq 0 (length functions)) functions) (program, blocks, false).
End Unused.

End DeadOperations.
