(* ===== verification/DeadSemantics.v ===== *)
(** * Executions without dead operations

    The reference for the removal of dead operations.  A thread executes the
    operations of a block in order and continues at the successor of any of its
    enqueue operations; other threads write global registers meanwhile.  Only the
    operations that have an effect or write a visible register are observed: their
    sources, their results,
    and the registers that the successor takes in any case.  [trimmed] is a list
    without some of its dead operations; functions whose blocks are trimmed have
    the same observations. *)

From stdpp Require Import functions.
From S2P Require Import Prelude MachineInt Literals Ir Semantics Flow Liveness LivenessFacts StageSemantics.
Import MachineInt Containers Literals Ir Semantics Flow FlowSemantics Liveness LivenessFacts.

Module DeadSemantics.

Record observation : Type := mkObservation {
  _obOpcode : Opcode; _obMask : Z; _obSources : list SourceOperand; _obResults : list Z; _obSuccessor : option nat; _obPassed : list Z }.

Section Machine.
Context (program : Program) (effect : Operation -> bool) (visible : nat -> bool) (forced : nat -> list nat) (members : list nat) (entry : nat -> Prop).

Definition shown (op : Operation) : bool := effect op || existsb (fun d => match d with DstRegister r => visible (_registerIndex r) | DstFifo _ => false end) (_dst op).

(** What an operation shows: [forced] are the registers that a block takes in any case. *)
Definition observe (σ : nat -> Z) (op : FlowOperation) (vs : list Z) : list observation :=
  if shown (_operation op) then
    [mkObservation (_opcode (_operation op)) (_signExtendSourceMask (_operation op)) (resolve program σ <$> _src (_operation op)) vs (_getSuccessorBlock op)
       (match _getSuccessorBlock op with Some s => (fun r => σ (OptionallyMapIndex r (_renamingTable op))) <$> forced s | None => [] end)]
  else [].

(** The registers at the start of a successor; the global ones can be any. *)
Definition passesTo (op : FlowOperation) (σ σ' : nat -> Z) : Prop := forall r, isGlobal program r = false -> σ' r = σ (OptionallyMapIndex r (_renamingTable op)).

(** A thread with the observations [tr] is before the operations [l], with the registers [σ]. *)
Inductive executes (ops : nat -> list FlowOperation) : list observation -> list FlowOperation -> (nat -> Z) -> Prop :=
| executes_entry b σ : b ∈ members -> entry b -> executes ops [] (ops b) σ
| executes_interfere tr l σ σ' : executes ops tr l σ -> interfere program σ σ' -> executes ops tr l σ'
| executes_step tr op l σ vs : executes ops tr (op :: l) σ -> results_of program σ (_operation op) vs ->
    executes ops (tr ++ observe σ op vs) l (write (_dst (_operation op)) vs σ)
| executes_jump tr op l σ s σ' : executes ops tr (op :: l) σ -> _getSuccessorBlock op = Some s -> s ∈ members -> passesTo op σ σ' -> executes ops tr (ops s) σ'.

Definition observations (ops : nat -> list FlowOperation) (tr : list observation) : Prop := exists l σ, executes ops tr l σ.
End Machine.

(** ** Programs with the same registers, but for their types *)

Record same_registers (program program' : Program) : Prop := mk_same_registers {
  sr_width : forall r, _regWidth <$> _registerTable program' !! r = _regWidth <$> _registerTable program !! r;
  sr_global : forall r, isGlobal program' r = isGlobal program r }.

Lemma same_registers_sym program program' : same_registers program program' -> same_registers program' program.
Proof. intros [H1 H2]. split; congruence. Qed.

Lemma same_registers_trans program1 program2 program3 : same_registers program1 program2 -> same_registers program2 program3 -> same_registers program1 program3.
Proof. intros [H1 H2] [H3 H4]. split; congruence. Qed.

Section Same.
Context (program program' : Program) (Hsame : same_registers program program').

Lemma registerWidth_same r : registerWidth program' r = registerWidth program r.
Proof.
  unfold registerWidth, at_. pose proof (sr_width _ _ Hsame r) as H. destruct (_registerTable program' !! r), (_registerTable program !! r); cbn in *; congruence.
Qed.

Lemma operandLiteral_same σ o : operandLiteral program' σ o = operandLiteral program σ o.
Proof.
  destruct o as [l|r| |]; try done. cbn. pose proof (sr_width _ _ Hsame (_registerIndex r)) as H.
  destruct (_registerTable program' !! _), (_registerTable program !! _); cbn in *; congruence.
Qed.

Lemma opValue_same σ op : opValue program' σ op = opValue program σ op.
Proof.
  apply opValue_resolve; [done|done| |].
  - apply list_fmap_ext. intros i o _. apply operandLiteral_same.
  - unfold dstWidth, at_. destruct (_dst op !! 0%nat) as [d|]; [|done]. cbn. destruct d; [apply registerWidth_same|done].
Qed.

Lemma results_same σ op vs : results_of program σ op vs -> results_of program' σ op vs.
Proof. intros [Hl Hv]. split; [done|]. intros v Hval. apply Hv. by rewrite <- opValue_same. Qed.

Lemma same_registers_length : length (_registerTable program') = length (_registerTable program).
Proof.
  assert (H : forall r, (r < length (_registerTable program'))%nat <-> (r < length (_registerTable program))%nat).
  { intros r. rewrite <- !lookup_lt_is_Some. pose proof (sr_width _ _ Hsame r) as Hw. split; intros [d Hd]; rewrite Hd in Hw; [destruct (_registerTable program !! r)|destruct (_registerTable program' !! r)]; eauto; done. }
  pose proof (H (length (_registerTable program'))). pose proof (H (length (_registerTable program))). lia.
Qed.

Lemma observe_same effect visible forced forced' σ op vs : (forall b, forced' b = forced b) -> observe program' effect visible forced' σ op vs = observe program effect visible forced σ op vs.
Proof.
  intros Hf. unfold observe. destruct (shown _ _ _); [|done]. do 2 f_equal.
  - apply list_fmap_ext. intros i o _. unfold resolve. by rewrite operandLiteral_same.
  - destruct (_getSuccessorBlock op); [by rewrite Hf|done].
Qed.

Lemma executes_same effect visible forced forced' members entry ops tr l σ : (forall b, forced' b = forced b) ->
  executes program effect visible forced members entry ops tr l σ -> executes program' effect visible forced' members entry ops tr l σ.
Proof.
  intros Hf. induction 1 as [|tr l σ σ' _ IH Hi|tr op l σ vs _ IH Hv|tr op l σ s σ' _ IH Hs Hm Hp].
  - by apply executes_entry.
  - eapply executes_interfere; [exact IH|]. intros r. rewrite (sr_global _ _ Hsame). apply Hi.
  - rewrite <- (observe_same effect visible forced forced') by done. apply executes_step; [done|by apply results_same].
  - eapply executes_jump; [exact IH|done..|]. intros r. rewrite (sr_global _ _ Hsame). apply Hp.
Qed.
End Same.

Lemma observations_same program program' effect visible forced forced' members entry ops tr : same_registers program program' -> (forall b, forced' b = forced b) ->
  observations program effect visible forced members entry ops tr <-> observations program' effect visible forced' members entry ops tr.
Proof.
  intros Hsame Hf. split; intros (l & σ & H); exists l, σ.
  - by apply (executes_same program program' Hsame effect visible forced forced').
  - by apply (executes_same program' program (same_registers_sym _ _ Hsame) effect visible forced' forced).
Qed.

(** ** Live registers *)

Section Live.
Context (program : Program) (effect : Operation -> bool) (visible : nat -> bool) (forced : nat -> list nat) (m : gmap nat (gset nat)).

Definition needs (op : FlowOperation) : gset nat :=
  match _getSuccessorBlock op with Some s => passed op (forced s) ∪ passed op (set_elements (liveIn m s)) | None => ∅ end.

Definition registerLive (X : gset nat) (d : DestinationOperand) : bool := match d with DstRegister r => bool_decide (_registerIndex r ∈ X) | DstFifo _ => false end.

(** An operation before which, and whose successors, the registers [X] are live *)
Definition opLive (X : gset nat) (op : FlowOperation) : bool := effect (_operation op) || existsb (registerLive X) (_dst (_operation op)).

Definition sourceSet (op : FlowOperation) : gset nat := list_to_set (PipelineStages.PipelineStages.readRegisters (_operation op)).

Definition before (X : gset nat) (op : FlowOperation) : gset nat :=
  let X := needs op ∪ X in if opLive X op then sourceSet op ∪ X else X.

Definition liveBefore (base : gset nat) (ops : list FlowOperation) : gset nat := foldr (fun op X => before X op) base ops.

(** Some of the dead operations are left out. *)
Inductive trimmed (base : gset nat) : list FlowOperation -> list FlowOperation -> Prop :=
| trimmed_nil : trimmed base [] []
| trimmed_keep op l l' : trimmed base l l' -> trimmed base (op :: l) (op :: l')
| trimmed_drop op l l' : trimmed base l l' -> opLive (needs op ∪ liveBefore base l) op = false -> trimmed base (op :: l) l'.

(** The operations of [l] that are live when [rest] comes after them *)
Fixpoint liveOnly (base : gset nat) (rest l : list FlowOperation) : list FlowOperation :=
  match l with
  | [] => []
  | op :: l => if opLive (needs op ∪ liveBefore base (l ++ rest)) op then op :: liveOnly base rest l else liveOnly base rest l
  end.

Lemma trimmed_refl base l : trimmed base l l.
Proof. induction l; by constructor. Qed.

Lemma trimmed_liveOnly base rest l : trimmed base (l ++ rest) (liveOnly base rest l ++ rest).
Proof.
  induction l as [|op l IH]; [apply trimmed_refl|]. cbn [liveOnly app]. destruct (opLive _ op) eqn:E; [by apply trimmed_keep|by apply trimmed_drop].
Qed.

Lemma liveOnly_sublist base rest l : liveOnly base rest l `sublist_of` l.
Proof. induction l as [|op l IH]; [done|]. cbn. destruct (opLive _ op); by constructor. Qed.

Record dead_ok (op : FlowOperation) : Prop := mk_dead_ok {
  do_successor : _getSuccessorBlock op <> None -> effect (_operation op) = true;
  do_visible : forall r, DstRegister r ∈ _dst (_operation op) -> visible (_registerIndex r) = true -> effect (_operation op) = true;
  do_value : forall σ v, opValue program σ (_operation op) = Some v -> length (_dst (_operation op)) = 1%nat }.

Notation agree X σ τ := (forall r, r ∈ X -> σ r = τ r).

Lemma dead_unwritten X op r : opLive X op = false -> r ∈ X -> r ∉ PipelineStages.PipelineStages.writtenRegisters (_operation op).
Proof.
  intros Hl Hr Hw. apply StageSemantics.elem_of_writtenRegisters in Hw. apply orb_false_iff in Hl as [_ Hl]. apply not_true_iff_false in Hl. apply Hl, existsb_exists. eexists. split; [by apply list_elem_of_In|].
  by apply bool_decide_eq_true.
Qed.

Lemma liveBefore_after base op l r : r ∈ liveBefore base l -> r ∈ liveBefore base (op :: l).
Proof. intros Hr. cbn. unfold before. destruct (opLive _ _); set_solver. Qed.

Lemma resolve_agree σ τ op : agree (sourceSet op) σ τ -> resolve program σ <$> _src (_operation op) = resolve program τ <$> _src (_operation op).
Proof. intros H. apply StageSemantics.sources_agree. intros r Hr. apply H. unfold sourceSet. by apply elem_of_list_to_set. Qed.

Lemma literals_agree σ τ op : agree (sourceSet op) σ τ -> operandLiteral program σ <$> _src (_operation op) = operandLiteral program τ <$> _src (_operation op).
Proof.
  intros H. apply list_fmap_ext. intros i o Ho. destruct o as [l|r| |]; try done. cbn. rewrite (H (_registerIndex r)); [done|]. unfold sourceSet. apply elem_of_list_to_set.
  unfold PipelineStages.PipelineStages.readRegisters. apply list_elem_of_omap. exists (SrcRegister r). split; [by eapply list_elem_of_lookup_2|done].
Qed.

Lemma results_agree σ τ op vs : agree (sourceSet op) σ τ -> results_of program σ (_operation op) vs -> results_of program τ (_operation op) vs.
Proof.
  intros H [Hl Hv]. split; [done|]. intros v Hval. apply Hv. rewrite <- Hval. apply opValue_resolve; [done|done|by apply literals_agree|done].
Qed.

Lemma results_exist σ op : dead_ok op -> exists vs, results_of program σ (_operation op) vs.
Proof.
  intros Hok. destruct (opValue program σ (_operation op)) as [v|] eqn:E.
  - exists [v]. split; [by rewrite (do_value _ Hok σ v)|]. intros v' Hv'. congruence.
  - exists (replicate (length (_dst (_operation op))) 0). split; [by rewrite length_replicate|]. congruence.
Qed.

Lemma shown_effect op : dead_ok op -> shown effect visible (_operation op) = effect (_operation op).
Proof.
  intros Hok. unfold shown. destruct (effect (_operation op)) eqn:E; [done|]. cbn [orb]. apply not_true_iff_false. rewrite existsb_exists. intros ([r|f] & Hin & Hv); [|done].
  apply list_elem_of_In in Hin. pose proof (do_visible _ Hok r Hin Hv). congruence.
Qed.

Lemma observe_dead X σ op vs : dead_ok op -> opLive X op = false -> observe program effect visible forced σ op vs = [].
Proof. intros Hok H. apply orb_false_iff in H as [H _]. unfold observe. by rewrite shown_effect, H. Qed.

(** [op] is live, and the registers agree on what is live before it. *)
Lemma live_agree base op l (σ τ : nat -> Z) : opLive (needs op ∪ liveBefore base l) op = true -> agree (liveBefore base (op :: l)) σ τ ->
  agree (sourceSet op) σ τ /\ agree (needs op) σ τ /\ agree (liveBefore base l) σ τ.
Proof.
  intros Hl H. change (liveBefore base (op :: l)) with (before (liveBefore base l) op) in H. unfold before in H. rewrite Hl in H. split_and!; intros r Hr; apply H; set_solver.
Qed.

Lemma observe_agree σ τ op vs : agree (sourceSet op) σ τ -> agree (needs op) σ τ -> observe program effect visible forced σ op vs = observe program effect visible forced τ op vs.
Proof.
  intros Hs Hn. unfold observe. destruct (shown _ _ _); [|done]. rewrite (resolve_agree σ τ op Hs). destruct (_getSuccessorBlock op) as [s|] eqn:E; [|done]. do 2 f_equal.
  apply list_fmap_ext. intros i r Hr. apply Hn. unfold needs. rewrite E. apply elem_of_union. left. apply elem_of_passed. exists r. split; [by eapply list_elem_of_lookup_2|done].
Qed.

Lemma write_agree op vs (X : gset nat) (σ τ : nat -> Z) : agree X σ τ -> agree X (write (_dst (_operation op)) vs σ) (write (_dst (_operation op)) vs τ).
Proof. intros H r Hr. by apply StageSemantics.write_at, H. Qed.

Lemma write_dead (X : gset nat) op vs (σ : nat -> Z) : opLive X op = false -> agree X (write (_dst (_operation op)) vs σ) σ.
Proof. intros H r Hr. apply StageSemantics.write_unwritten. by eapply dead_unwritten. Qed.
(** ** Simulation *)

Section Simulation.
Context (members : list nat) (entry : nat -> Prop) (base : nat -> gset nat) (ops ops' : nat -> list FlowOperation).
Context (Hfix : forall b, b ∈ members -> liveIn m b = liveBefore (base b) (ops b)).
Context (Htrim : forall b, b ∈ members -> trimmed (base b) (ops b) (ops' b)).
Context (Hok : forall b, b ∈ members -> Forall dead_ok (ops b)).

Notation executes := (executes program effect visible forced members entry).

(** The two threads are in the same block, and agree on what is live. *)
Definition related (l l' : list FlowOperation) (σ σ' : nat -> Z) : Prop := exists b, b ∈ members /\ trimmed (base b) l l' /\ Forall dead_ok l /\ agree (liveBefore (base b) l) σ σ'.

Lemma related_start b σ σ' : b ∈ members -> agree (liveIn m b) σ σ' -> related (ops b) (ops' b) σ σ'.
Proof. intros Hb H. exists b. split_and!; [done|by apply Htrim|by apply Hok|]. by rewrite <- Hfix. Qed.

(** Other threads write the same in both. *)
Definition interfered (σ1 σ' : nat -> Z) (r : nat) : Z := if isGlobal program r then σ1 r else σ' r.

Lemma interfered_interfere σ1 σ' : interfere program σ' (interfered σ1 σ').
Proof. intros r Hr. unfold interfered. by rewrite Hr. Qed.

Lemma interfered_agree (X : gset nat) (σ σ1 σ' : nat -> Z) : interfere program σ σ1 -> agree X σ σ' -> agree X σ1 (interfered σ1 σ').
Proof. intros Hi H r Hr. unfold interfered. destruct (isGlobal program r) eqn:E; [done|]. rewrite Hi by done. by apply H. Qed.

(** One operation of both lists *)
Lemma both_step b op l l' σ σ' vs : b ∈ members -> trimmed (base b) l l' -> Forall dead_ok (op :: l) -> agree (liveBefore (base b) (op :: l)) σ σ' -> results_of program σ (_operation op) vs ->
  exists vs', results_of program σ' (_operation op) vs' /\ observe program effect visible forced σ' op vs' = observe program effect visible forced σ op vs /\
    related l l' (write (_dst (_operation op)) vs σ) (write (_dst (_operation op)) vs' σ').
Proof.
  intros Hb Ht Hdo Ha Hvs. apply Forall_cons in Hdo as [Hop Hl]. destruct (opLive (needs op ∪ liveBefore (base b) l) op) eqn:E.
  - destruct (live_agree (base b) op l σ σ' E Ha) as (A1 & A2 & A3). exists vs. split_and!.
    + by eapply results_agree.
    + symmetry. by apply observe_agree.
    + exists b. split_and!; try done. by apply write_agree.
  - destruct (results_exist σ' op Hop) as [vs' Hvs']. exists vs'. split_and!; [done|by rewrite !(observe_dead (needs op ∪ liveBefore (base b) l)) by done|].
    exists b. split_and!; try done. intros r Hr. assert (Hr' : r ∈ needs op ∪ liveBefore (base b) l) by set_solver.
    rewrite (write_dead _ op vs σ E r Hr'), (write_dead _ op vs' σ' E r Hr'). by apply Ha, liveBefore_after.
Qed.

(** A dead operation of the first list only *)
Lemma dead_step b op l l' σ σ' vs : b ∈ members -> trimmed (base b) l l' -> Forall dead_ok (op :: l) -> agree (liveBefore (base b) (op :: l)) σ σ' ->
  opLive (needs op ∪ liveBefore (base b) l) op = false ->
  observe program effect visible forced σ op vs = [] /\ related l l' (write (_dst (_operation op)) vs σ) σ'.
Proof.
  intros Hb Ht Hdo Ha E. apply Forall_cons in Hdo as [Hop Hl]. split; [by eapply observe_dead|]. exists b. split_and!; try done. intros r Hr.
  rewrite (write_dead _ op vs σ E r ltac:(set_solver)). by apply Ha, liveBefore_after.
Qed.

(** The jump of an operation, which is in both lists *)
Lemma both_jump b op l l' σ σ' s σ1 :
  b ∈ members -> trimmed (base b) (op :: l) l' -> Forall dead_ok (op :: l) -> agree (liveBefore (base b) (op :: l)) σ σ' -> _getSuccessorBlock op = Some s -> s ∈ members ->
  passesTo program op σ σ1 -> exists l2, l' = op :: l2 /\ trimmed (base b) l l2 /\ exists σ1', passesTo program op σ' σ1' /\ related (ops s) (ops' s) σ1 σ1'.
Proof.
  intros Hb Ht Hdo Ha Hs Hmem Hp. apply Forall_cons in Hdo as [Hop Hl].
  assert (E : opLive (needs op ∪ liveBefore (base b) l) op = true) by (unfold opLive; by rewrite (do_successor _ Hop) by congruence).
  destruct (live_agree (base b) op l σ σ' E Ha) as (_ & A2 & _). inversion Ht as [|? ? l2 Ht2|? ? ? ? E']; subst; [|congruence].
  exists l2. split_and!; [done|done|]. exists (fun r => if isGlobal program r then σ1 r else σ' (OptionallyMapIndex r (_renamingTable op))). split.
  - intros r Hr. by rewrite Hr.
  - apply related_start; [done|]. intros r Hr. destruct (isGlobal program r) eqn:G; [done|]. rewrite Hp by done. apply A2. unfold needs. rewrite Hs. apply elem_of_union. right.
    apply elem_of_passed. exists r. split; [by apply elem_of_set_elements|done].
Qed.

Lemma simulates tr l σ : executes ops tr l σ -> exists l' σ', executes ops' tr l' σ' /\ related l l' σ σ'.
Proof.
  induction 1 as [b σ Hb He|tr l σ σ1 _ (l' & σ' & He & b & Hb & Ht & Hdo & Ha) Hi|tr op l σ vs _ (l' & σ' & He & b & Hb & Ht & Hdo & Ha) Hvs|tr op l σ s σ1 _ (l' & σ' & He & b & Hb & Ht & Hdo & Ha) Hs Hm Hp].
  - exists (ops' b), σ. split; [by apply executes_entry|by apply related_start].
  - exists l', (interfered σ1 σ'). split; [by eapply executes_interfere, interfered_interfere|]. exists b. split_and!; try done. by eapply interfered_agree.
  - inversion Ht as [|? ? l2 Ht2|? ? ? Ht2 E]; subst.
    + destruct (both_step b op l l2 σ σ' vs Hb Ht2 Hdo Ha Hvs) as (vs' & H1 & H2 & H3). eexists _, _. split; [|exact H3]. rewrite <- H2. by apply executes_step.
    + destruct (dead_step b op l l' σ σ' vs Hb Ht2 Hdo Ha E) as [H1 H2]. exists l', σ'. by rewrite H1, app_nil_r.
  - destruct (both_jump b op l l' σ σ' s σ1 Hb Ht Hdo Ha Hs Hm Hp) as (l2 & -> & Ht2 & σ1' & Hp' & Hrel). exists (ops' s), σ1'. split; [by eapply executes_jump|done].
Qed.

(** The operations that were left out before the next one that was not *)
Lemma dead_prefix b tr l op l' σ σ' : executes ops tr l σ -> b ∈ members -> trimmed (base b) l (op :: l') -> Forall dead_ok l -> agree (liveBefore (base b) l) σ σ' ->
  exists l2 σ2, executes ops tr (op :: l2) σ2 /\ trimmed (base b) l2 l' /\ Forall dead_ok (op :: l2) /\ agree (liveBefore (base b) (op :: l2)) σ2 σ'.
Proof.
  revert σ. induction l as [|o l IH]; intros σ He Hb Ht Hdo Ha; inversion Ht as [|? ? ? Ht2|? ? ? Ht2 E]; subst; [by exists l, σ|].
  destruct (results_exist σ o) as [vs Hvs]; [by apply Forall_cons in Hdo as [? ?]|]. destruct (dead_step b o l (op :: l') σ σ' vs Hb Ht2 Hdo Ha E) as [H1 (b' & _ & _ & Hdo' & _)].
  apply (IH (write (_dst (_operation o)) vs σ)); [|done|done|done|].
  - rewrite <- (app_nil_r tr), <- H1. by apply executes_step.
  - intros r Hr. rewrite (write_dead _ o vs σ E r ltac:(set_solver)). by apply Ha, liveBefore_after.
Qed.

Lemma agree_swap (X : gset nat) (σ τ : nat -> Z) : agree X σ τ -> agree X τ σ.
Proof. intros H r Hr. symmetry. by apply H. Qed.

Lemma simulated tr l' σ' : executes ops' tr l' σ' -> exists l σ, executes ops tr l σ /\ related l l' σ σ'.
Proof.
  induction 1 as [b σ Hb He|tr l' σ' σ1' _ (l & σ & He & b & Hb & Ht & Hdo & Ha) Hi|tr op l' σ' vs' _ (l & σ & He & b & Hb & Ht & Hdo & Ha) Hvs|tr op l' σ' s σ1' _ (l & σ & He & b & Hb & Ht & Hdo & Ha) Hs Hm Hp].
  - exists (ops b), σ. split; [by apply executes_entry|by apply related_start].
  - exists l, (interfered σ1' σ). split; [by eapply executes_interfere, interfered_interfere|]. exists b. split_and!; try done. apply agree_swap. by eapply interfered_agree, agree_swap.
  - destruct (dead_prefix b tr l op l' σ σ' He Hb Ht Hdo Ha) as (l2 & σ2 & He2 & Ht2 & Hdo2 & Ha2). pose proof (proj1 (Forall_cons _ _ _) Hdo2) as [Hop Hl2].
    destruct (opLive (needs op ∪ liveBefore (base b) l2) op) eqn:E.
    + destruct (live_agree (base b) op l2 σ2 σ' E Ha2) as (A1 & A2 & A3). exists l2, (write (_dst (_operation op)) vs' σ2). split.
      * rewrite <- (observe_agree σ2 σ' op vs') by done. apply executes_step; [done|]. eapply results_agree; [|done]. by apply agree_swap.
      * exists b. split_and!; try done. by apply write_agree.
    + destruct (results_exist σ2 op Hop) as [vs Hv]. exists l2, (write (_dst (_operation op)) vs σ2). split.
      * rewrite (observe_dead _ σ' op vs' Hop E), <- (observe_dead _ σ2 op vs Hop E). by apply executes_step.
      * exists b. split_and!; try done. intros r Hr. rewrite (write_dead _ op vs σ2 E r ltac:(set_solver)), (write_dead _ op vs' σ' E r ltac:(set_solver)). by apply Ha2, liveBefore_after.
  - destruct (dead_prefix b tr l op l' σ σ' He Hb Ht Hdo Ha) as (l2 & σ2 & He2 & Ht2 & Hdo2 & Ha2). pose proof (proj1 (Forall_cons _ _ _) Hdo2) as [Hop Hl2].
    assert (E : opLive (needs op ∪ liveBefore (base b) l2) op = true) by (unfold opLive; by rewrite (do_successor _ Hop) by congruence).
    destruct (live_agree (base b) op l2 σ2 σ' E Ha2) as (_ & A2 & _).
    exists (ops s), (fun r => if isGlobal program r then σ1' r else σ2 (OptionallyMapIndex r (_renamingTable op))). split; [eapply executes_jump; [done..|]|].
    + intros r Hr. by rewrite Hr.
    + apply related_start; [done|]. intros r Hr. destruct (isGlobal program r) eqn:G; [done|]. rewrite Hp by done. apply A2. unfold needs. rewrite Hs. apply elem_of_union. right.
      apply elem_of_passed. exists r. split; [by apply elem_of_set_elements|done].
Qed.

Lemma trimmed_observations tr : observations program effect visible forced members entry ops tr <-> observations program effect visible forced members entry ops' tr.
Proof.
  split; intros (l & σ & He).
  - destruct (simulates tr l σ He) as (l' & σ' & He' & _). by exists l', σ'.
  - destruct (simulated tr l σ He) as (l' & σ' & He' & _). by exists l', σ'.
Qed.

End Simulation.
End Live.

(** ** Blocks that take the same registers in any case *)

Section Forced.
Context (effect : Operation -> bool) (forced forced' : nat -> list nat) (Hsame : forall b, forced' b = forced b) (m : gmap nat (gset nat)).

Lemma needs_forced op : needs forced' m op = needs forced m op.
Proof. unfold needs. destruct (_getSuccessorBlock op); [by rewrite Hsame|done]. Qed.

Lemma liveBefore_forced base ops : liveBefore effect forced' m base ops = liveBefore effect forced m base ops.
Proof. induction ops as [|op ops IH]; [done|]. unfold liveBefore in *. cbn [foldr]. rewrite IH. unfold before. by rewrite needs_forced. Qed.

Lemma liveOnly_forced base rest l : liveOnly effect forced' m base rest l = liveOnly effect forced m base rest l.
Proof. induction l as [|op l IH]; [done|]. cbn [liveOnly]. by rewrite IH, needs_forced, liveBefore_forced. Qed.
End Forced.

End DeadSemantics.
