(* ===== verification/DeadCorrect.v ===== *)
(** * The live registers and operations of a function

    What one operation and one block do to the analysis ([visitOperation_eq],
    [visitOperations_live]), and what the work list keeps ([deadAnalysis]).  The
    callbacks share a set that can only grow, and with it the operations that are
    live grow; the analysis has found a fixed point when the set has not changed. *)

From S2P Require Import Prelude MachineInt Literals Ir Semantics Run Flow Liveness LivenessFacts LivenessCorrect Opcodes.
From S2P Require Import PathLength DeadOperations DeadSemantics.
Import MachineInt Containers Literals Ir Semantics Run Flow FlowSemantics Liveness LivenessFacts LivenessCorrect Opcodes DeadOperations DeadSemantics.

Module DeadCorrect.

(** Operations with an effect: by their opcode, or because they write a FIFO *)
Definition isFifo (d : DestinationOperand) : bool := match d with DstFifo _ => true | DstRegister _ => false end.
Definition liveByOpcode (op : Operation) : bool := match IsLiveOperation op with Ok b => b | Err _ => false end.
Definition effectOf (isLive : Operation -> bool) (op : Operation) : bool := isLive op || existsb isFifo (_dst op).

Lemma IsLiveOperation_Ok op : IsLiveOperation op = Ok (liveByOpcode op).
Proof.
  unfold liveByOpcode. assert (H : exists b, IsLiveOperation op = Ok b) by (unfold IsLiveOperation; destruct (PathLength.PathLength.GetOpcodeTableEntry_Ok (_opcode op)) as (e & He & _); destruct (_opcode op); rewrite ?He; eauto).
  by destruct H as [b ->].
Qed.

(** ** Live operations *)

Section Live.
Context (blocks : gmap nat FlowBlock) (isLive : gset nat -> Operation -> bool).

(** The registers that a block takes in any case *)
Definition forced (b : nat) : list nat := match blocks !! b with Some bb => _liveInReg bb | None => [] end.

Notation effect G := (effectOf (isLive G)).
Notation opLive G := (opLive (effect G)).
Notation needs := (needs forced).
Notation before G := (before (effect G) forced).
Notation liveBefore G := (liveBefore (effect G) forced).

(** Operation [k] of [l] is live, with the registers [X] live after the last one. *)
Definition liveAt (G : gset nat) (m : gmap nat (gset nat)) (X : gset nat) (l : list FlowOperation) (k : nat) : Prop :=
  exists op, l !! k = Some op /\ opLive G (needs m op ∪ liveBefore G m X (drop (S k) l)) op = true.

Lemma liveAt_head G m X op l : liveAt G m X (op :: l) 0 <-> opLive G (needs m op ∪ liveBefore G m X l) op = true.
Proof. unfold liveAt. change (drop 1 (op :: l)) with l. split; [by intros (? & [= <-] & ?)|intros; by exists op]. Qed.

Lemma liveAt_tail G m X op l k : liveAt G m X (op :: l) (S k) <-> liveAt G m X l k.
Proof. done. Qed.

(** A larger set of variables, and larger sets of live registers, make more live. *)
Context (Hmono : forall G G' op, G ⊆ G' -> isLive G op = true -> isLive G' op = true).

Lemma needs_monotone m m' op : (forall s, _getSuccessorBlock op = Some s -> liveIn m s ⊆ liveIn m' s) -> needs m op ⊆ needs m' op.
Proof.
  intros H. unfold DeadSemantics.needs. destruct (_getSuccessorBlock op) as [s|]; [|done]. specialize (H s eq_refl). intros r. rewrite !elem_of_union, !elem_of_passed. setoid_rewrite elem_of_set_elements. set_solver.
Qed.

Lemma opLive_monotone G G' X X' op : G ⊆ G' -> X ⊆ X' -> opLive G X op = true -> opLive G' X' op = true.
Proof.
  intros HG HX. unfold DeadSemantics.opLive, effectOf. rewrite !orb_true_iff, !existsb_exists. intros [[?|?]|(d & Hd & Hr)]; [left; left; by apply (Hmono G)|left; by right|right]. exists d. split; [done|].
  destruct d as [r|f]; [|done]. cbn in *. apply bool_decide_eq_true in Hr. apply bool_decide_eq_true. by apply HX.
Qed.

Lemma before_monotone G G' m m' X X' op : G ⊆ G' -> (forall s, _getSuccessorBlock op = Some s -> liveIn m s ⊆ liveIn m' s) -> X ⊆ X' -> before G m X op ⊆ before G' m' X' op.
Proof.
  intros HG Hm HX. unfold DeadSemantics.before. assert (H : needs m op ∪ X ⊆ needs m' op ∪ X') by (pose proof (needs_monotone m m' op Hm); set_solver).
  destruct (opLive G (needs m op ∪ X) op) eqn:E; [rewrite (opLive_monotone G G' _ _ _ HG H E); set_solver|destruct (opLive G' (needs m' op ∪ X') op); set_solver].
Qed.

Lemma liveBefore_monotone G G' m m' X l : G ⊆ G' -> (forall op s, op ∈ l -> _getSuccessorBlock op = Some s -> liveIn m s ⊆ liveIn m' s) -> liveBefore G m X l ⊆ liveBefore G' m' X l.
Proof.
  intros HG. induction l as [|op l IH]; intros H; [done|]. cbn. apply before_monotone; [done|intros s Hs; eapply H; [|done]; set_solver|]. apply IH. intros o s Ho. apply H. set_solver.
Qed.


Lemma liveAt_monotone G G' m m' X l k : G ⊆ G' -> (forall op s, op ∈ l -> _getSuccessorBlock op = Some s -> liveIn m s ⊆ liveIn m' s) -> liveAt G m X l k -> liveAt G' m' X l k.
Proof.
  intros HG H (op & Hk & Hl). exists op. split; [done|]. eapply opLive_monotone, Hl; [done|]. assert (Hin : op ∈ l) by (by eapply list_elem_of_lookup_2).
  pose proof (needs_monotone m m' op (fun s => H op s Hin)). assert (liveBefore G m X (drop (S k) l) ⊆ liveBefore G' m' X (drop (S k) l)); [|set_solver].
  apply liveBefore_monotone; [done|]. intros o s Ho. apply H. eapply elem_of_sublist; [done|]. apply sublist_drop.
Qed.

End Live.

Section Analysis.
Context (program : Program) (functions : list FlowFunction) (blocks : gmap nat FlowBlock) (fi : nat) (mode : OperationEnumerationMode) (members : list nat).
Context (Hok : function_ok program functions blocks fi mode members).
Context (cfg : ControlFlowGraph) (Hpred : forall b s, b ∈ GetPredecessors cfg s <-> edge blocks mode members b s).
Context (firstBlock : gset nat -> nat) (Hfirst : forall X, X <> ∅ -> firstBlock X ∈ X).
Context (clockGates : nat -> list (gset nat)).
Notation N := (numRegisters program).
Notation U := (list_to_set (seq 0 N) : gset nat).
Notation opsOf := (opsOf blocks mode).
Notation state := liveness.

Definition base (b : nat) : gset nat := match mode with Scheduled => ⋃ (clockGates b) | Unscheduled => ∅ end.

Context (Hbase : forall b, base b ⊆ U).

(** The callbacks: [isLive] is monotone in the set they share, and a live
    operation adds [reads] to it. *)
Context (isLive : gset nat -> Operation -> bool) (reads : Operation -> gset nat).
Context (Hmono : forall G G' op, G ⊆ G' -> isLive G op = true -> isLive G' op = true).
Context (isLiveOperationCb : gset nat -> Operation -> result bool) (notifyLiveOpCb : gset nat -> Operation -> result (gset nat)).

Definition callbacks_ok (op : FlowOperation) : Prop :=
  forall G, isLiveOperationCb G (_operation op) = Ok (isLive G (_operation op)) /\ notifyLiveOpCb G (_operation op) = Ok (reads (_operation op) ∪ G).
Context (Hcall : forall b op, b ∈ members -> op ∈ opsOf b -> callbacks_ok op).

Notation forced := (forced blocks).
Notation liveAt := (liveAt blocks isLive).
Notation before_mono := (before_monotone blocks isLive Hmono).
Notation liveBefore_mono := (liveBefore_monotone blocks isLive Hmono).
Notation liveAt_mono := (liveAt_monotone blocks isLive Hmono).
Notation opLive_mono := (opLive_monotone isLive Hmono).
Notation effect G := (effectOf (isLive G)).
Notation opLive G := (opLive (effect G)).
Notation needs := (needs forced).
Notation before G := (before (effect G) forced).
Notation liveBefore G := (liveBefore (effect G) forced).
Notation visitOperation := (visitOperation isLiveOperationCb notifyLiveOpCb blocks).

(** ** One operation *)

Lemma successorRegisters_eq m op X : op_ok program functions blocks op -> successorRegisters blocks m op X = Ok (needs m op ∪ X).
Proof.
  intros Hop. unfold successorRegisters, DeadSemantics.needs. destruct (_getSuccessorBlock op) as [s|] eqn:E; [|f_equal; set_solver].
  destruct (ok_successor _ _ _ _ Hop s E) as (He & block & f & Hb & _). rewrite inserts_eq by done. cbn [mbind result_bind]. unfold blockAt, DeadCorrect.forced. rewrite Hb. cbn [of_option mbind result_bind]. rewrite inserts_eq by done. f_equal. set_solver.
Qed.

Lemma insertSources_eq op X : insertSources (_operation op) X = sourceSet op ∪ X.
Proof.
  unfold insertSources, sourceSet, PipelineStages.PipelineStages.readRegisters. generalize (_src (_operation op)) as l. intros l. revert X. induction l as [|o l IH]; intros X; [cbn; set_solver|].
  cbn [fold_left omap list_omap]. rewrite IH. destruct o; cbn [list_to_set]; set_solver.
Qed.

Lemma visitDestinations_eq p op X l st : (fold_left (visitDestination p op X) l st).1.1 = st.1.1 || existsb (fun d => isFifo d.2 || registerLive X d.2) l.
Proof.
  revert st. induction l as [|[i d] l IH]; intros [[b s1] s2]; [cbn; by rewrite orb_false_r|]. cbn [fold_left existsb snd]. rewrite IH. cbn [visitDestination snd fst].
  destruct d as [reg|f]; cbn [isFifo registerLive orb]; [|by rewrite orb_true_r]. case_bool_decide as Hin; [|done]. rewrite orb_true_r. by destruct (_opcode (_operation op)).
Qed.

Lemma existsb_zip {A} (f : A -> bool) (l : list A) n : existsb (fun d => f d.2) (zip (seq n (length l)) l) = existsb f l.
Proof. revert n. induction l as [|a l IH]; intros n; [done|]. cbn [length seq zip zip_with existsb snd]. by rewrite IH. Qed.

Lemma opLive_destinations G X op : isLive G (_operation op) || existsb (fun d => isFifo d || registerLive X d) (_dst (_operation op)) = opLive G X op.
Proof.
  unfold DeadSemantics.opLive, effectOf. rewrite <- orb_assoc. f_equal. induction (_dst (_operation op)) as [|d l IH]; [done|]. cbn. rewrite IH.
  destruct (isFifo d), (registerLive X d), (existsb isFifo l); done.
Qed.

(** What one operation does to the registers and to the set of live operations *)
Lemma visitOperation_eq X (s : state) p op : op_ok program functions blocks op -> callbacks_ok op -> (p ∈ _liveOperations s -> opLive (_liveGlobalVariables s) (needs (_liveInMap s) op ∪ X) op = true) ->
  exists s', visitOperation (X, s) (p, op) = Ok (before (_liveGlobalVariables s) (_liveInMap s) X op, s') /\ _liveInMap s' = _liveInMap s /\
    _liveOperations s' = (if opLive (_liveGlobalVariables s) (needs (_liveInMap s) op ∪ X) op then {[p]} else ∅) ∪ _liveOperations s /\
    _liveGlobalVariables s' = (if opLive (_liveGlobalVariables s) (needs (_liveInMap s) op ∪ X) op then reads (_operation op) else ∅) ∪ _liveGlobalVariables s.
Proof.
  intros Hop Hcb Hp. unfold DeadOperations.visitOperation. destruct (Hcb (_liveGlobalVariables s)) as [Hcb1 Hcb2]. set (G := _liveGlobalVariables s) in *.
  rewrite successorRegisters_eq by done. cbn [mbind result_bind]. fold G. rewrite Hcb1. cbn [mbind result_bind]. unfold DeadSemantics.before.
  set (Y := needs (_liveInMap s) op ∪ X) in *. rewrite <- (opLive_destinations G Y op) in *. destruct (isLive G (_operation op)) eqn:E; cbn [orb].
  - rewrite Hcb2, insertSources_eq. eexists. split; [reflexivity|]. done.
  - pose proof (visitDestinations_eq p op Y (zip (seq 0 (length (_dst (_operation op)))) (_dst (_operation op))) (false, _liveLocalDataPropagationSources s, _liveLoadMemoryDestinations s)) as Hv.
    rewrite (existsb_zip (fun d => isFifo d || registerLive Y d)) in Hv. cbn [fst orb] in Hv. destruct (fold_left _ _ _) as [[b m1] m2]. cbn [fst] in Hv. subst b. cbn [orb] in Hp.
    destruct (existsb _ (_dst (_operation op))).
    + rewrite Hcb2, insertSources_eq. eexists. split; [reflexivity|]. done.
    + rewrite bool_decide_false by (intros Hin; by specialize (Hp Hin)). cbn [negb assert_ mbind result_bind]. eexists. split; [reflexivity|]. cbn. split_and!; [done|set_solver|fold G; set_solver].
Qed.

Lemma needs_bound m op : op_ok program functions blocks op -> (forall s, liveIn m s ⊆ U) -> needs m op ⊆ U.
Proof.
  intros Hop Hm r Hr. unfold DeadSemantics.needs in Hr. destruct (_getSuccessorBlock op) as [s|] eqn:E; [|set_solver]. destruct (ok_successor _ _ _ _ Hop s E) as (_ & block & f & Hb & _ & Hl). unfold DeadCorrect.forced in Hr. rewrite Hb in Hr.
  assert (Ho : exists o, (o < N)%nat /\ r = OptionallyMapIndex o (_renamingTable op)).
  { apply elem_of_union in Hr as [Hr|Hr]; apply elem_of_passed in Hr as (o & Ho & ->); exists o; split; try done; [by apply Hl|]. apply elem_of_set_elements, Hm, elem_of_list_to_set, elem_of_seq in Ho. lia. }
  destruct Ho as (o & Ho & ->). apply elem_of_list_to_set, elem_of_seq. split; [lia|]. unfold OptionallyMapIndex, LookupWithDefault. destruct (_renamingTable op !! o) eqn:Et; [apply (ok_table _ _ _ _ Hop _ _ Et)|done].
Qed.

Lemma sourceSet_bound op : op_ok program functions blocks op -> sourceSet op ⊆ U.
Proof.
  intros Hop r Hr. unfold sourceSet in Hr. apply elem_of_list_to_set, list_elem_of_omap in Hr as ([l|reg| |] & Hin & Heq); try done. injection Heq as <-. apply elem_of_list_to_set, elem_of_seq. pose proof (ok_src _ _ _ _ Hop _ Hin). lia.
Qed.

Lemma liveBefore_bound G m X l : Forall (op_ok program functions blocks) l -> X ⊆ U -> (forall s, liveIn m s ⊆ U) -> liveBefore G m X l ⊆ U.
Proof.
  intros Hops HX Hm. induction Hops as [|op l Hop _ IH]; [done|]. cbn. unfold DeadSemantics.before. pose proof (needs_bound m op Hop Hm). pose proof (sourceSet_bound op Hop). destruct (opLive _ _ op); set_solver.
Qed.

(** ** One block *)

(** What the operations [l] of block [b], whose first one has the index [n], do *)
Record block_run (b : nat) (X : gset nat) (l : list FlowOperation) (n : nat) (s : state) (X' : gset nat) (s' : state) : Prop := mk_block_run {
  br_map : _liveInMap s' = _liveInMap s;
  br_globals : _liveGlobalVariables s ⊆ _liveGlobalVariables s';
  br_lower : liveBefore (_liveGlobalVariables s) (_liveInMap s) X l ⊆ X';
  br_upper : X' ⊆ liveBefore (_liveGlobalVariables s') (_liveInMap s) X l;
  br_old : _liveOperations s ⊆ _liveOperations s';
  br_new : forall p, p ∈ _liveOperations s' -> p ∈ _liveOperations s \/
    exists k op, p = (b, (n + k)%nat) /\ l !! k = Some op /\ liveAt (_liveGlobalVariables s') (_liveInMap s) X l k /\ reads (_operation op) ⊆ _liveGlobalVariables s';
  br_all : forall k, liveAt (_liveGlobalVariables s) (_liveInMap s) X l k -> (b, (n + k)%nat) ∈ _liveOperations s';
  br_least : forall G, _liveGlobalVariables s ⊆ G -> (forall k op, liveAt G (_liveInMap s) X l k -> l !! k = Some op -> reads (_operation op) ⊆ G) -> _liveGlobalVariables s' ⊆ G;
  br_reads : forall r, r ∈ _liveGlobalVariables s' -> r ∈ _liveGlobalVariables s \/ exists op, op ∈ l /\ r ∈ reads (_operation op) }.

Lemma block_run_nil b X n s : block_run b X [] n s X s.
Proof. split; try done; [by left|by intros k (op & Hk & _)|by left]. Qed.

Lemma block_run_cons b X op l n (s s1 s2 : state) X1 : block_run b X l (S n) s X1 s1 -> _liveInMap s2 = _liveInMap s1 ->
  _liveOperations s2 = (if opLive (_liveGlobalVariables s1) (needs (_liveInMap s) op ∪ X1) op then {[(b, n)]} else ∅) ∪ _liveOperations s1 ->
  _liveGlobalVariables s2 = (if opLive (_liveGlobalVariables s1) (needs (_liveInMap s) op ∪ X1) op then reads (_operation op) else ∅) ∪ _liveGlobalVariables s1 ->
  block_run b X (op :: l) n s (before (_liveGlobalVariables s1) (_liveInMap s) X1 op) s2.
Proof.
  intros [H1 H2 H3 H4 H5 H6 H7 H8 H9] E1 E2 E3. set (m := _liveInMap s) in *. set (G := _liveGlobalVariables s) in *. set (G1 := _liveGlobalVariables s1) in *. set (G2 := _liveGlobalVariables s2) in *.
  set (live := opLive G1 (needs m op ∪ X1) op) in *. assert (HG12 : G1 ⊆ G2) by (rewrite E3; set_solver).
  assert (Hup : forall G', G1 ⊆ G' -> X1 ⊆ liveBefore G' m X l) by (intros G' HG'; transitivity (liveBefore G1 m X l); [done|by apply liveBefore_mono]).
  assert (Hlive : forall G', G1 ⊆ G' -> live = true -> liveAt G' m X (op :: l) 0).
  { intros G' HG' Hl. apply liveAt_head. eapply opLive_mono, Hl; [done|]. specialize (Hup G' HG'). set_solver. }
  split; fold m G G2.
  - congruence.
  - by transitivity G1.
  - apply before_mono; done.
  - apply before_mono; [done|done|]. by apply Hup.
  - rewrite E2. set_solver.
  - intros p. rewrite E2. intros [Hp|Hp]%elem_of_union.
    + destruct live eqn:El; [|by apply elem_of_empty in Hp]. apply elem_of_singleton in Hp as ->. right. exists 0%nat, op. rewrite Nat.add_0_r. split_and!; [done|done|by apply Hlive|rewrite E3; set_solver].
    + destruct (H6 p Hp) as [?|(k & o & -> & Hk & Hat & Hr)]; [by left|right]. exists (S k), o. rewrite Nat.add_succ_r. split_and!; [done|done| |by transitivity G1]. apply liveAt_tail. by eapply liveAt_mono, Hat.
  - intros [|k] Hk; rewrite E2.
    + rewrite Nat.add_0_r. apply liveAt_head in Hk. assert (live = true) as ->; [|set_solver]. eapply opLive_mono, Hk; [done|set_solver].
    + apply (proj1 (liveAt_tail _ _ _ _ _ _ _ _)) in Hk. apply H7 in Hk. rewrite Nat.add_succ_r. set_solver.
  - intros G' HG' Hcl. assert (HG1 : G1 ⊆ G') by (apply H8; [done|]; intros k o Hk Hl; by apply (Hcl (S k) o)). rewrite E3. destruct live eqn:El; [|set_solver].
    apply union_least; [|done]. apply (Hcl 0%nat op); [by apply Hlive|done].
  - intros r. rewrite E3. intros [Hr|Hr]%elem_of_union; [destruct live; [|by apply elem_of_empty in Hr]; right; exists op; split; [by left|done]|].
    destruct (H9 r Hr) as [?|(o & Ho & Hro)]; [by left|right]. exists o. split; [by right|done].
Qed.

Lemma visitOperations_live b X l : forall n (s : state), Forall (op_ok program functions blocks) l -> Forall callbacks_ok l ->
  (forall k, (k < length l)%nat -> (b, (n + k)%nat) ∈ _liveOperations s -> liveAt (_liveGlobalVariables s) (_liveInMap s) X l k) ->
  exists X' s', foldM visitOperation (reverse (imap (fun k op => ((b, (n + k)%nat), op)) l)) (X, s) = Ok (X', s') /\ block_run b X l n s X' s'.
Proof.
  induction l as [|op l IH]; intros n s Hops Hcbs Hlive; [exists X, s; split; [done|apply block_run_nil]|].
  apply Forall_cons in Hops as [Hop Hops]. apply Forall_cons in Hcbs as [Hcb Hcbs]. cbn [imap]. rewrite reverse_cons, foldM_app, Nat.add_0_r.
  replace (imap ((fun k op0 => ((b, (n + k)%nat), op0)) ∘ S) l) with (imap (fun k op0 => ((b, (S n + k)%nat), op0)) l) by (apply imap_ext; intros k x _; cbn; by rewrite Nat.add_succ_r).
  destruct (IH (S n) s Hops Hcbs) as (X1 & s1 & Hf & Hrun).
  { intros k Hk Hin. apply (proj1 (liveAt_tail _ _ _ _ _ op _ _)), Hlive; [cbn; lia|]. by rewrite Nat.add_succ_r. }
  rewrite Hf. cbn [mbind result_bind foldM]. destruct (visitOperation_eq X1 s1 (b, n) op Hop Hcb) as (s2 & Hv & E1 & E2 & E3).
  - rewrite (br_map _ _ _ _ _ _ _ Hrun). intros Hin. apply (br_new _ _ _ _ _ _ _ Hrun) in Hin as [Hin|(k & o & [=] & _)]; [|lia]. specialize (Hlive 0%nat ltac:(cbn; lia)). rewrite Nat.add_0_r in Hlive.
    apply Hlive, liveAt_head in Hin. eapply opLive_mono, Hin; [apply Hrun|]. pose proof (br_lower _ _ _ _ _ _ _ Hrun). set_solver.
  - rewrite Hv. cbn [mbind result_bind]. rewrite (br_map _ _ _ _ _ _ _ Hrun) in E2, E3 |- *. eexists _, s2. split; [reflexivity|]. by apply (block_run_cons b X op l n s s1 s2 X1).
Qed.

(** ** The work list *)

Notation visitBlock := (visitBlock isLiveOperationCb notifyLiveOpCb blocks fi cfg firstBlock mode clockGates).
Notation visitLoop := (visitLoop isLiveOperationCb notifyLiveOpCb blocks fi cfg firstBlock mode clockGates).
Notation blockBefore G m b := (liveBefore G m (base b) (opsOf b)).

(** Sets of live registers that every block leads to at most *)
Definition closed (G : gset nat) (m : gmap nat (gset nat)) : Prop := forall b, b ∈ members -> blockBefore G m b ⊆ liveIn m b.

(** [G] holds what the live operations add. *)
Definition closedGlobals (G : gset nat) (m : gmap nat (gset nat)) : Prop :=
  forall b k op, b ∈ members -> liveAt G m (base b) (opsOf b) k -> opsOf b !! k = Some op -> reads (_operation op) ⊆ G.

(** [G0] is the shared set at the start. *)
Record deadAnalysis (G0 workList : gset nat) (s : state) : Prop := mk_deadAnalysis {
  da_members : forall b, b ∈ workList -> b ∈ members;
  da_outside : forall b, b ∉ members -> liveIn (_liveInMap s) b = ∅;
  da_start : G0 ⊆ _liveGlobalVariables s;
  da_fixed : _liveGlobalVariables s = G0 -> forall b, b ∈ members -> b ∈ workList \/
    (liveIn (_liveInMap s) b = blockBefore G0 (_liveInMap s) b /\ forall k, liveAt G0 (_liveInMap s) (base b) (opsOf b) k -> (b, k) ∈ _liveOperations s);
  da_grows : forall b, b ∈ members -> liveIn (_liveInMap s) b ⊆ blockBefore (_liveGlobalVariables s) (_liveInMap s) b;
  da_live : forall b k, (b, k) ∈ _liveOperations s -> b ∈ members /\ liveAt (_liveGlobalVariables s) (_liveInMap s) (base b) (opsOf b) k /\
    forall op, opsOf b !! k = Some op -> reads (_operation op) ⊆ _liveGlobalVariables s;
  da_bound : forall b, liveIn (_liveInMap s) b ⊆ U;
  da_least : forall G m, G0 ⊆ G -> closed G m -> closedGlobals G m -> _liveGlobalVariables s ⊆ G /\ forall b, liveIn (_liveInMap s) b ⊆ liveIn m b;
  da_reads : forall r, r ∈ _liveGlobalVariables s -> r ∈ G0 \/ exists b op, b ∈ members /\ op ∈ opsOf b /\ r ∈ reads (_operation op) }.

Lemma member_block b : b ∈ members -> exists bb, blocks !! b = Some bb /\ _function bb = fi /\ opsOf b = operationsOf mode bb /\ Forall (op_ok program functions blocks) (opsOf b).
Proof. intros Hb. destruct (fo_block _ _ _ _ _ _ Hok b Hb) as (bb & Hbb & Hf & Hops). exists bb. unfold LivenessCorrect.opsOf. by rewrite Hbb. Qed.

Lemma liveIn_insert m b X b' : liveIn (<[b := X]> m) b' = if decide (b' = b) then X else liveIn m b'.
Proof. unfold liveIn. destruct (decide (b' = b)) as [->|]; [by rewrite lookup_insert_eq|by rewrite lookup_insert_ne]. Qed.

(** The block [b] has been visited, and its entry did not change. *)
Lemma visited_same G0 workList s b X' s1 : deadAnalysis G0 workList s -> b ∈ members -> block_run b (base b) (opsOf b) 0 s X' s1 -> X' = liveIn (_liveInMap s) b ->
  deadAnalysis G0 (workList ∖ {[b]}) s1.
Proof.
  intros [A1 A2 A3 A4 A5 A6 A7 A8 A9] Hbm [B1 B2 B3 B4 B5 B6 B7 B8 B9] HX. cbn [Nat.add] in *. set (m := _liveInMap s) in *. set (G := _liveGlobalVariables s) in *. set (G1 := _liveGlobalVariables s1) in *.
  split; rewrite ?B1; fold m G1; try done.
  - set_solver.
  - by transitivity G.
  - intros E. assert (EG : G = G0) by (apply (anti_symm (⊆)); [by rewrite <- E|done]). intros b' Hb'. destruct (decide (b' = b)) as [->|Hneq].
    + right. rewrite E in B4. rewrite EG in B3, B7. split; [rewrite <- HX; by apply (anti_symm (⊆))|done].
    + destruct (A4 EG b' Hb') as [?|[H1 H2]]; [left; set_solver|right]. split; [done|]. intros k Hk. by apply B5, H2.
  - intros b' Hb'. transitivity (blockBefore G m b'); [by apply A5|by apply liveBefore_mono].
  - intros b' k Hin. destruct (B6 _ Hin) as [Hold|(k' & op & [= -> ->] & Hk & Hat & Hr)].
    + destruct (A6 b' k Hold) as (H1 & H2 & H3). split_and!; [done|by eapply liveAt_mono, H2|]. intros op Hop. transitivity G; [by apply H3|done].
    + split_and!; [done|done|]. intros op' Hop'. rewrite Hk in Hop'. by injection Hop' as <-.
  - intros G2 m2 HG2 Hcl Hcg. destruct (A8 G2 m2 HG2 Hcl Hcg) as [L1 L2]. split; [|done]. apply B8; [done|]. intros k op Hat Hk. apply (Hcg b k op Hbm); [|done]. eapply liveAt_mono, Hat; [done|]. intros; apply L2.
  - intros r Hr. destruct (B9 r Hr) as [Hr'|(op & Hop & Hro)]; [by apply A9|right; by exists b, op].
Qed.

(** The entry of [b] has changed. *)
Lemma visited_changed G0 workList s b X' s1 : deadAnalysis G0 workList s -> b ∈ members -> block_run b (base b) (opsOf b) 0 s X' s1 ->
  deadAnalysis G0 (GetPredecessors cfg b ∪ workList ∖ {[b]})
    (mkLiveness (<[b := X']> (_liveInMap s)) (_liveOperations s1) (_liveLocalDataPropagationSources s1) (_liveLoadMemoryDestinations s1) (_liveGlobalVariables s1)).
Proof.
  intros [A1 A2 A3 A4 A5 A6 A7 A8 A9] Hbm [B1 B2 B3 B4 B5 B6 B7 B8 B9]. cbn [Nat.add] in *. set (m := _liveInMap s) in *. set (G := _liveGlobalVariables s) in *. set (G1 := _liveGlobalVariables s1) in *.
  destruct (member_block b Hbm) as (bb & Hbb & Hf & HopsOf & Hops). set (m' := <[b := X']> m).
  assert (Hin : liveIn m' b = X') by (unfold m'; rewrite liveIn_insert; by rewrite decide_True).
  assert (Hother : forall b', b' <> b -> liveIn m' b' = liveIn m b') by (intros b' ?; unfold m'; rewrite liveIn_insert; by rewrite decide_False).
  assert (Hle : forall b', liveIn m b' ⊆ liveIn m' b') by (intros b'; destruct (decide (b' = b)) as [->|]; [rewrite Hin; transitivity (blockBefore G m b); [by apply A5|done]|by rewrite Hother]).
  assert (HXU : X' ⊆ U) by (transitivity (blockBefore G1 m b); [done|by apply liveBefore_bound]).
  assert (Hunchanged : forall b', b' ∈ members -> b' ∉ GetPredecessors cfg b -> forall op s', op ∈ opsOf b' -> _getSuccessorBlock op = Some s' -> liveIn m' s' = liveIn m s').
  { intros b' Hb' Hp op s' Hop Hs. destruct (decide (s' = b)) as [->|Hneq]; [exfalso; apply Hp, Hpred; split; [done|split; [done|by exists op]]|by apply Hother]. }
  split; cbn [_liveInMap _liveOperations _liveGlobalVariables]; fold m' G1.
  - intros b' [Hp|Hw]%elem_of_union; [by apply Hpred in Hp as (? & _)|set_solver].
  - intros b' Hb'. rewrite Hother by (intros ->; done). by apply A2.
  - by transitivity G.
  - intros E. assert (EG : G = G0) by (apply (anti_symm (⊆)); [by rewrite <- E|done]). intros b' Hb'. destruct (decide (b' ∈ GetPredecessors cfg b)) as [Hp|Hp]; [left; set_solver|].
    assert (Hsame : blockBefore G0 m' b' = blockBefore G0 m b').
    { apply (anti_symm (⊆)); apply liveBefore_mono; try done; intros op s' Hop Hs; by rewrite (Hunchanged b' Hb' Hp op s'). }
    assert (Hat : forall k, liveAt G0 m' (base b') (opsOf b') k -> liveAt G0 m (base b') (opsOf b') k) by (intros k; apply liveAt_mono; [done|]; intros op s' Hop Hs; by rewrite (Hunchanged b' Hb' Hp op s')).
    rewrite Hsame. destruct (decide (b' = b)) as [->|Hneq].
    + right. rewrite Hin. rewrite E in B4. rewrite EG in B3, B7. split; [by apply (anti_symm (⊆))|]. intros k Hk. by apply B7, Hat.
    + destruct (A4 EG b' Hb') as [?|[H1 H2]]; [left; set_solver|right]. rewrite Hother by done. split; [done|]. intros k Hk. by apply B5, H2, Hat.
  - intros b' Hb'. transitivity (blockBefore G1 m b'); [|apply liveBefore_mono; [done|intros; apply Hle]]. destruct (decide (b' = b)) as [->|Hneq]; [by rewrite Hin|rewrite Hother by done].
    transitivity (blockBefore G m b'); [by apply A5|by apply liveBefore_mono].
  - intros b' k Hk. destruct (B6 _ Hk) as [Hold|(k' & op & [= -> ->] & Hl & Hat & Hr)].
    + destruct (A6 b' k Hold) as (H1 & H2 & H3). split_and!; [done|eapply liveAt_mono, H2; [done|intros; apply Hle]|]. intros op Hop. transitivity G; [by apply H3|done].
    + split_and!; [done|eapply liveAt_mono, Hat; [done|intros; apply Hle]|]. intros op' Hop'. rewrite Hl in Hop'. by injection Hop' as <-.
  - intros b'. destruct (decide (b' = b)) as [->|]; [by rewrite Hin|by rewrite Hother].
  - intros G2 m2 HG2 Hcl Hcg. destruct (A8 G2 m2 HG2 Hcl Hcg) as [L1 L2].
    assert (L3 : G1 ⊆ G2) by (apply B8; [done|]; intros k op Hat Hk; apply (Hcg b k op Hbm); [|done]; eapply liveAt_mono, Hat; [done|]; intros; apply L2).
    split; [done|]. intros b'. destruct (decide (b' = b)) as [->|]; [|rewrite Hother by done; by apply L2]. rewrite Hin. transitivity (blockBefore G1 m b); [done|]. transitivity (blockBefore G2 m2 b); [|by apply Hcl].
    apply liveBefore_mono; [done|]. intros op s' _ _. by apply L2.
  - intros r Hr. destruct (B9 r Hr) as [Hr'|(op & Hop & Hro)]; [by apply A9|right; by exists b, op].
Qed.

Lemma visitBlock_eq G0 workList s : deadAnalysis G0 workList s -> workList <> ∅ ->
  exists workList' s', visitBlock workList s = Ok (workList', s') /\ deadAnalysis G0 workList' s' /\
    (measure program members workList' (_liveInMap s') < measure program members workList (_liveInMap s))%nat.
Proof.
  intros Ha Hne. pose proof Ha as [A1 A2 A3 A4 A5 A6 A7 A8 A9]. set (b := firstBlock workList). pose proof (Hfirst workList Hne) as Hb. fold b in Hb. pose proof (A1 b Hb) as Hbm.
  destruct (member_block b Hbm) as (bb & Hbb & Hf & HopsOf & Hops). unfold DeadOperations.visitBlock, Pop. fold b. unfold blockAt. rewrite Hbb. cbn [of_option mbind result_bind].
  rewrite Hf, Nat.eqb_refl. cbn [assert_ mbind result_bind]. rewrite Hbb. cbn [of_option mbind result_bind]. fold (base b). rewrite <- HopsOf.
  destruct (visitOperations_live b (base b) (opsOf b) 0 s Hops) as (X' & s1 & Hv & Hrun); [apply Forall_forall; intros op Hop; by apply (Hcall b)|by intros k _ Hin; apply (A6 b k)|].
  unfold pointers. change (imap (fun k op => ((b, k), op)) (opsOf b)) with (imap (fun k op => ((b, (0 + k)%nat), op)) (opsOf b)). rewrite Hv. cbn [mbind result_bind]. rewrite (br_map _ _ _ _ _ _ _ Hrun).
  assert (Hsize : size (workList ∖ {[b]}) = (size workList - 1)%nat) by (rewrite size_difference, size_singleton by set_solver; done).
  assert (Hpos : (0 < size workList)%nat) by (destruct (size workList) eqn:Hsz; [apply size_empty_inv in Hsz; set_solver|lia]).
  case_bool_decide as HX.
  - exists (workList ∖ {[b]}), s1. split; [done|]. split; [by eapply visited_same|]. unfold measure. rewrite (br_map _ _ _ _ _ _ _ Hrun). lia.
  - rewrite (AddPredecessors_eq program functions blocks fi mode members Hok cfg Hpred). cbn [mbind result_bind]. eexists _, _. split; [reflexivity|]. split; [by apply visited_changed|]. cbn [_liveInMap].
    assert (Hsub : liveIn (_liveInMap s) b ⊆ X') by (transitivity (blockBefore (_liveGlobalVariables s) (_liveInMap s) b); [by apply A5|apply Hrun]).
    assert (HXU : X' ⊆ U) by (transitivity (blockBefore (_liveGlobalVariables s1) (_liveInMap s) b); [apply Hrun|by apply liveBefore_bound]).
    assert (Hroom : (room program members (<[b := X']> (_liveInMap s)) < room program members (_liveInMap s))%nat).
    { apply (room_insert program functions blocks fi mode members Hok cfg Hpred firstBlock Hfirst); [done| |done]. split; [done|]. intros Hsub'. apply HX. by apply (anti_symm (⊆)). }
    assert (Hwl : (size (GetPredecessors cfg b ∪ workList ∖ {[b]}) <= length members)%nat).
    { apply (size_workList program functions blocks fi mode members Hok). intros b' [Hp|Hw]%elem_of_union; [by apply Hpred in Hp as (? & _)|set_solver]. }
    unfold measure. nia.
Qed.

Lemma visitLoop_eq G0 fuel workList s : deadAnalysis G0 workList s -> (measure program members workList (_liveInMap s) <= fuel)%nat ->
  exists s', visitLoop fuel workList s = Ok s' /\ deadAnalysis G0 ∅ s'.
Proof.
  revert workList s. induction fuel as [|fuel IH]; intros workList s Ha Hfuel; cbn [DeadOperations.visitLoop].
  - case_bool_decide as He; [subst; by exists s|]. destruct (visitBlock_eq G0 workList s Ha He) as (? & ? & _ & _ & ?). lia.
  - case_bool_decide as He; [subst; by exists s|]. destruct (visitBlock_eq G0 workList s Ha He) as (w' & s' & -> & Ha' & Hlt). cbn [mbind result_bind]. apply IH; [done|lia].
Qed.

Lemma deadAnalysis_start G0 : deadAnalysis G0 (DataFlowWorkList members) (mkLiveness ∅ ∅ ∅ ∅ G0).
Proof.
  assert (He : forall b, liveIn ∅ b = ∅) by (intros b; unfold liveIn; by rewrite lookup_empty). split; cbn [_liveInMap _liveOperations _liveGlobalVariables].
  - intros b Hb. by apply elem_of_list_to_set in Hb.
  - intros b _. apply He.
  - done.
  - intros _ b Hb. left. by apply elem_of_list_to_set.
  - intros b _. rewrite He. apply empty_subseteq.
  - intros b k Hin. by apply elem_of_empty in Hin.
  - intros b. rewrite He. apply empty_subseteq.
  - intros G m HG _ _. split; [done|]. intros b. rewrite He. apply empty_subseteq.
  - by left.
Qed.

Lemma visit_all G0 fuel : (length members + S (length members) * (length members * N) <= fuel)%nat ->
  exists s, visitLoop fuel (DataFlowWorkList members) (mkLiveness ∅ ∅ ∅ ∅ G0) = Ok s /\ deadAnalysis G0 ∅ s.
Proof. intros Hfuel. apply visitLoop_eq; [apply deadAnalysis_start|]. pose proof (measure_start program functions blocks fi mode members Hok ∅). cbn [_liveInMap]. lia. Qed.

End Analysis.

End DeadCorrect.
