(* ===== verification/DeadRemoval.v ===== *)
(** * What is left of a function without its dead operations

    The second and third loop of [RemoveDeadOperationsImpl]: the types of the
    registers that a load does not need ([changeBlocks_eq]), the operations
    that stay ([removeBlocks_eq]), what both leave ([removed]), and the theorem
    about [RemoveDeadOperations]. *)

From S2P Require Import Prelude MachineInt Literals Ir Semantics Run Flow Liveness LivenessFacts LivenessCorrect Opcodes.
From S2P Require Import DeadOperations DeadSemantics DeadCorrect.
Import MachineInt Containers Literals Ir Semantics Run Flow FlowSemantics Liveness LivenessFacts LivenessCorrect Opcodes DeadOperations DeadSemantics DeadCorrect.

Module DeadRemoval.

Section Removable.
Context (program : Program) (effect : Operation -> bool) (visible : nat -> bool).

(** What the pass relies on: enqueue operations and writes of visible registers
    have an effect, and local values are not in FIFOs yet. *)
Record removable (op : FlowOperation) : Prop := mk_removable {
  rm_ok : dead_ok program effect visible op;
  rm_fifo : match _opcode (_operation op) with EnqueueRegisters _ _ | DequeueRegisters _ _ => False | _ => True end;
  rm_load : match _opcode (_operation op) with
            | LoadMemory _ => forall r, DstRegister r ∈ _dst (_operation op) -> (_registerIndex r < numRegisters program)%nat /\ isGlobal program (_registerIndex r) = false
            | _ => True end }.
End Removable.

(** ** The types of registers *)

Lemma setBitBucket_eq program program1 X d :
  same_registers program program1 -> (forall r, d.2 = DstRegister r -> (_registerIndex r < numRegisters program)%nat /\ isGlobal program (_registerIndex r) = false) ->
  exists program2, setBitBucket X program1 d = Ok program2 /\ same_registers program program2.
Proof.
  intros Hs Hd. destruct d as [i [r|f]]; unfold setBitBucket; cbn [fst snd]; [|by exists program1]. case_bool_decide; [by exists program1|]. destruct (Hd r eq_refl) as [Hr Hg].
  destruct (lookup_lt_is_Some_2 _ _ Hr) as [d0 Hd0]. pose proof (sr_width _ _ Hs (_registerIndex r)) as Hw. rewrite Hd0 in Hw. destruct (_registerTable program1 !! _registerIndex r) as [d1|] eqn:Hd1; [|done].
  rewrite (at_Some _ _ _ Hd1). cbn [mbind result_bind]. eexists. split; [reflexivity|]. apply (same_registers_trans _ program1); [done|].
  assert (Hlen : (_registerIndex r < length (_registerTable program1))%nat) by (by eapply lookup_lt_Some). split; intros q.
  - cbn [_registerTable]. destruct (decide (_registerIndex r = q)) as [<-|Hne]; [|by rewrite list_lookup_insert_ne]. by rewrite list_lookup_insert_eq, Hd1.
  - pose proof (sr_global _ _ Hs (_registerIndex r)) as Hg1. rewrite Hg in Hg1. destruct (decide (_registerIndex r = q)) as [<-|Hne].
    + rewrite Hg1. unfold isGlobal. cbn [_registerTable]. by rewrite list_lookup_insert_eq.
    + unfold isGlobal. cbn [_registerTable]. by rewrite list_lookup_insert_ne.
Qed.

Lemma setBitBuckets_eq program program1 X l :
  same_registers program program1 -> (forall r, DstRegister r ∈ l -> (_registerIndex r < numRegisters program)%nat /\ isGlobal program (_registerIndex r) = false) ->
  exists program2, foldM (setBitBucket X) (zip (seq 0 (length l)) l) program1 = Ok program2 /\ same_registers program program2.
Proof.
  intros Hs Hl. apply (foldM_zip_inv (setBitBucket X) (fun _ => same_registers program)); [done|]. intros k d program2 Hk Hs2. apply setBitBucket_eq; [done|].
  cbn [snd]. intros r Hr. apply Hl. rewrite <- Hr. by eapply list_elem_of_lookup_2.
Qed.

Section Same.
Context {S : Type} (callback : S -> FlowOperation -> result (S * FlowOperation)) (I : S -> Prop).

Lemma visitList_same ops s : (forall s op, op ∈ ops -> I s -> exists s', callback s op = Ok (s', op) /\ I s') -> I s ->
  exists s', visitList callback ops s = Ok (s', ops) /\ I s'.
Proof.
  revert s. induction ops as [|op ops IH]; intros s H Hs; [by exists s|]. rewrite visitList_cons. destruct (H s op ltac:(by left) Hs) as (s1 & -> & Hs1). cbn [mbind result_bind].
  destruct (IH s1) as (s2 & -> & Hs2); [|done|by exists s2]. intros s3 o Ho. apply H. by right.
Qed.

Lemma stages_same stages s acc : (forall s op, op ∈ concat stages -> I s -> exists s', callback s op = Ok (s', op) /\ I s') -> I s ->
  exists s', foldM (fun (st : S * list (list FlowOperation)) stage => '(s, stage) ← visitList callback stage st.1; Ok (s, st.2 ++ [stage])) stages (s, acc) = Ok (s', acc ++ stages) /\ I s'.
Proof.
  revert s acc. induction stages as [|stage stages IH]; intros s acc H Hs; [exists s; by rewrite app_nil_r|]. cbn [foldM fst snd concat] in *.
  destruct (visitList_same stage s) as (s1 & -> & Hs1); [intros; apply H; [set_solver|done]|done|]. cbn [mbind result_bind].
  destruct (IH s1 (acc ++ [stage])) as (s2 & -> & Hs2); [intros; apply H; [set_solver|done]|done|]. exists s2. by rewrite <- app_assoc.
Qed.

(** An enumeration whose callback changes no operation *)
Lemma ForEachOperationForward_same mode bb s : (forall s op, op ∈ operationsOf mode bb -> I s -> exists s', callback s op = Ok (s', op) /\ I s') -> I s ->
  exists s', ForEachOperationForward callback mode bb s = Ok (s', bb) /\ I s'.
Proof.
  intros H Hs. unfold ForEachOperationForward, operationsOf in *. destruct mode.
  - destruct (visitList_same (_startConditionOperations bb) s) as (s1 & -> & Hs1); [intros; apply H; [set_solver|done]|done|]. cbn [mbind result_bind].
    destruct (visitList_same (_operations bb) s1) as (s2 & -> & Hs2); [intros; apply H; [set_solver|done]|done|]. cbn [mbind result_bind].
    destruct (stages_same (_stages bb) s2 []) as (s3 & -> & Hs3); [intros; apply H; [set_solver|done]|done|]. cbn [mbind result_bind app]. exists s3. by destruct bb.
  - cbn [mbind result_bind]. destruct (stages_same (_stages bb) s []) as (s3 & -> & Hs3); [intros; apply H; [set_solver|done]|done|]. cbn [mbind result_bind app]. exists s3. by destruct bb.
Qed.
End Same.

Lemma changeOperation_eq program effect visible (s : liveness) b program1 L k op : removable program effect visible op -> same_registers program program1 ->
  exists program2, changeOperation s b (program1, L, k) op = Ok (program2, L, S k, op) /\ same_registers program program2.
Proof.
  intros [_ Hf Hl] Hs. unfold changeOperation. destruct (_opcode (_operation op)); try done; try (by exists program1).
  destruct (setBitBuckets_eq program program1 (default ∅ (_liveLoadMemoryDestinations s !! (b, k))) (_dst (_operation op)) Hs Hl) as (program2 & -> & Hs2). by exists program2.
Qed.

Lemma changeBlock_eq program effect visible (s : liveness) mode b bb blocks program1 L : blocks !! b = Some bb -> Forall (removable program effect visible) (operationsOf mode bb) -> same_registers program program1 ->
  exists program2, changeBlock mode s (program1, L, blocks) b = Ok (program2, L, blocks) /\ same_registers program program2.
Proof.
  intros Hb Hops Hs. unfold changeBlock, blockAt. rewrite Hb. cbn [of_option mbind result_bind].
  destruct (ForEachOperationForward_same (changeOperation s b) (fun st => same_registers program st.1.1 /\ st.1.2 = L) mode bb (program1, L, 0%nat)) as ([[p2 L2] k2] & -> & H1 & H2).
  - intros [[p1 L1] k1] op Hop [H1 H2]. cbn in H1, H2. subst L1. rewrite Forall_forall in Hops. destruct (changeOperation_eq program effect visible s b p1 L k1 op (Hops op Hop) H1) as (p2 & -> & Hs2). by exists (p2, L, S k1).
  - done.
  - cbn in H1, H2. subst L2. cbn [mbind result_bind]. exists p2. by rewrite insert_id.
Qed.

Lemma changeBlocks_eq program effect visible (s : liveness) mode members blocks L :
  (forall b, b ∈ members -> exists bb, blocks !! b = Some bb /\ Forall (removable program effect visible) (operationsOf mode bb)) ->
  exists program', foldM (changeBlock mode s) members (program, L, blocks) = Ok (program', L, blocks) /\ same_registers program program'.
Proof.
  intros Hm. destruct (foldM_inv (changeBlock mode s) (fun st => same_registers program st.1.1 /\ st.1.2 = L /\ st.2 = blocks) members (program, L, blocks)) as ([[p' L'] bs'] & -> & H1 & H2 & H3); [done| |].
  - intros [[p1 L1] bs1] b Hb (H1 & H2 & H3). cbn in H1, H2, H3. subst L1 bs1. destruct (Hm b Hb) as (bb & Hbb & Hops). destruct (changeBlock_eq program effect visible s mode b bb blocks p1 L Hbb Hops H1) as (p2 & -> & Hs2).
    by exists (p2, L, blocks).
  - cbn in H1, H2, H3. subst L' bs'. by exists p'.
Qed.

(** ** The operations that stay *)

(** The lists that [remove_if] goes through, and what is after them *)
Definition filtered (mode : OperationEnumerationMode) (bb : FlowBlock) : list FlowOperation :=
  match mode with Unscheduled => _startConditionOperations bb ++ _operations bb | Scheduled => concat (_stages bb) end.
Definition kept (mode : OperationEnumerationMode) (bb : FlowBlock) : list FlowOperation := match mode with Unscheduled => concat (_stages bb) | Scheduled => [] end.

Lemma operationsOf_filtered mode bb : operationsOf mode bb = filtered mode bb ++ kept mode bb.
Proof. unfold operationsOf, filtered, kept. destruct mode; [done|]. by rewrite app_nil_r. Qed.

Section Remove.
Context (L : gset (nat * nat)) (b : nat).

Lemma removeDead_cons n op l : removeDead L b n (op :: l) = (if bool_decide ((b, n) ∈ L) then [op] else []) ++ removeDead L b (S n) l.
Proof.
  unfold removeDead. cbn [imap omap list_omap fst snd]. rewrite Nat.add_0_r.
  replace (imap ((fun i op0 => ((b, (n + i)%nat), op0)) ∘ S) l) with (imap (fun i op0 => ((b, (S n + i)%nat), op0)) l) by (apply imap_ext; intros k x _; cbn; by rewrite Nat.add_succ_r).
  by case_bool_decide.
Qed.

Lemma removeDead_app n l1 l2 : removeDead L b n (l1 ++ l2) = removeDead L b n l1 ++ removeDead L b (n + length l1) l2.
Proof.
  revert n. induction l1 as [|op l1 IH]; intros n; [cbn [app length]; by rewrite Nat.add_0_r|]. cbn [app length]. rewrite !removeDead_cons, IH, app_assoc. by replace (S n + length l1)%nat with (n + S (length l1))%nat by lia.
Qed.

Lemma removeDeadStages_eq n stages : concat (removeDeadStages L b n stages) = removeDead L b n (concat stages).
Proof. revert n. induction stages as [|stage stages IH]; intros n; [done|]. cbn [removeDeadStages concat]. by rewrite removeDead_app, IH. Qed.

(** The block that [removeBlock] stores *)
Definition trimBlock (mode : OperationEnumerationMode) (bb : FlowBlock) : FlowBlock :=
  match mode with
  | Unscheduled => mkFlowBlock (removeDead L b 0 (_startConditionOperations bb)) (removeDead L b (length (_startConditionOperations bb)) (_operations bb)) (_stages bb)
      (_function bb) (_liveInReg bb) (_returnValueReg bb) (_forcedDeadInReg bb) (_invocationInstanceRegisterIndex bb)
  | Scheduled => mkFlowBlock (_startConditionOperations bb) (_operations bb) (removeDeadStages L b 0 (_stages bb))
      (_function bb) (_liveInReg bb) (_returnValueReg bb) (_forcedDeadInReg bb) (_invocationInstanceRegisterIndex bb)
  end.

Lemma trimBlock_eq mode bb : operationsOf mode (trimBlock mode bb) = removeDead L b 0 (filtered mode bb) ++ kept mode bb.
Proof.
  rewrite operationsOf_filtered. unfold trimBlock, filtered, kept. destruct mode; cbn [_startConditionOperations _operations _stages]; [by rewrite removeDead_app|by rewrite removeDeadStages_eq].
Qed.

(** [L] holds the live operations of the block. *)
Lemma removeDead_live blocks isLive G m base rest n l :
  (forall k, (k < length l)%nat -> (b, (n + k)%nat) ∈ L <-> liveAt blocks isLive G m base (l ++ rest) k) -> removeDead L b n l = liveOnly (effectOf (isLive G)) (forced blocks) m base rest l.
Proof.
  revert n. induction l as [|op l IH]; intros n H; [done|]. rewrite removeDead_cons. cbn [liveOnly]. rewrite (IH (S n)).
  - pose proof (H 0%nat ltac:(cbn; lia)) as H0. rewrite Nat.add_0_r in H0. cbn [app] in H0. rewrite liveAt_head in H0. destruct (opLive _ _ op); [rewrite bool_decide_true by (by apply H0); done|].
    rewrite bool_decide_false; [done|]. intros Hin. by apply H0 in Hin.
  - intros k Hk. rewrite <- (liveAt_tail blocks isLive G m base op (l ++ rest) k). specialize (H (S k) ltac:(cbn; lia)). by rewrite Nat.add_succ_r in H.
Qed.
End Remove.

Lemma sublist_same_length {A} (l k : list A) : l `sublist_of` k -> length l = length k -> l = k.
Proof.
  induction 1 as [|x l k H IH|x l k H IH]; [done|intros [= Hl]; f_equal; by apply IH|]. cbn. intros Hl. apply sublist_length in H. lia.
Qed.

Definition shorter (mode : OperationEnumerationMode) (L : gset (nat * nat)) (b : nat) (bb : FlowBlock) : Prop :=
  length (operationsOf mode (trimBlock L b mode bb)) <> length (operationsOf mode bb).

Lemma removeBlock_eq mode L (bs : gmap nat FlowBlock) d b bb : bs !! b = Some bb ->
  exists d', removeBlock mode L (bs, d) b = Ok (<[b := trimBlock L b mode bb]> bs, d') /\ (d' = true <-> d = true \/ shorter mode L b bb).
Proof.
  intros Hb. unfold removeBlock, blockAt. rewrite Hb. cbn [of_option mbind result_bind]. fold (trimBlock L b mode bb). eexists. split; [reflexivity|].
  rewrite orb_true_iff, negb_true_iff, Nat.eqb_neq. done.
Qed.

(** The whole loop *)
Lemma removeBlocks_eq mode (blocks : gmap nat FlowBlock) L l (bs : gmap nat FlowBlock) d : NoDup l -> (forall b, b ∈ l -> bs !! b = blocks !! b) -> (forall b, b ∈ l -> exists bb, blocks !! b = Some bb) ->
  exists bs' d', foldM (removeBlock mode L) l (bs, d) = Ok (bs', d') /\ (forall b bb, b ∈ l -> blocks !! b = Some bb -> bs' !! b = Some (trimBlock L b mode bb)) /\
    (forall b, b ∉ l -> bs' !! b = bs !! b) /\ (d' = true <-> d = true \/ exists b bb, b ∈ l /\ blocks !! b = Some bb /\ shorter mode L b bb).
Proof.
  revert bs d. induction l as [|b l IH]; intros bs d Hnd Hsame Hb.
  - exists bs, d. split_and!; [done|by intros b bb ?%not_elem_of_nil|done|]. split; [by left|]. intros [?|(b & bb & ?%not_elem_of_nil & _)]; done.
  - apply NoDup_cons in Hnd as [Hni Hnd]. destruct (Hb b ltac:(by left)) as [bb Hbb]. cbn [foldM].
    destruct (removeBlock_eq mode L bs d b bb) as (d1 & -> & Hd1); [rewrite Hsame by (by left); done|]. cbn [mbind result_bind].
    destruct (IH (<[b := trimBlock L b mode bb]> bs) d1 Hnd) as (bs' & d' & Hrun & H1 & H2 & H3).
    + intros c Hc. rewrite lookup_insert_ne by (intros ->; done). apply Hsame. by right.
    + intros c Hc. apply Hb. by right.
    + exists bs', d'. split_and!; [done|..].
      * intros c cc Hc Hcc. apply elem_of_cons in Hc as [->|Hc]; [|by apply H1]. rewrite H2, lookup_insert_eq by done. congruence.
      * intros c Hc. apply not_elem_of_cons in Hc as [Hne Hc]. rewrite H2 by done. by rewrite lookup_insert_ne.
      * rewrite H3, Hd1. split.
        -- intros [[?|?]|(c & cc & Hc & Hcc & Hs)]; [by left|right; exists b, bb; split_and!; [by left|done|done]|right; exists c, cc; split_and!; [by right|done|done]].
        -- intros [?|(c & cc & Hc & Hcc & Hs)]; [by left; left|]. apply elem_of_cons in Hc as [->|Hc]; [left; right; congruence|right; by exists c, cc].
Qed.

(** ** What is left *)

(** The function without the operations that are dead for [m], the least sets
    of live registers; [members] are its blocks. *)
Record removed (effect : Operation -> bool) (mode : OperationEnumerationMode) (members : list nat) (base : nat -> gset nat)
    (program : Program) (blocks : gmap nat FlowBlock) (program' : Program) (blocks' : gmap nat FlowBlock) (changed : bool) (m : gmap nat (gset nat)) : Prop := mk_removed {
  re_registers : same_registers program program';
  re_fixed : forall b, b ∈ members -> liveIn m b = liveBefore effect (forced blocks) m (base b) (opsOf blocks mode b);
  re_least : forall m', (forall b, b ∈ members -> liveBefore effect (forced blocks) m' (base b) (opsOf blocks mode b) ⊆ liveIn m' b) -> forall b, liveIn m b ⊆ liveIn m' b;
  re_blocks : forall b bb, b ∈ members -> blocks !! b = Some bb -> exists bb', blocks' !! b = Some bb' /\
    filtered mode bb' = liveOnly effect (forced blocks) m (base b) (kept mode bb) (filtered mode bb) /\ kept mode bb' = kept mode bb /\
    _function bb' = _function bb /\ _liveInReg bb' = _liveInReg bb;
  re_others : forall b, b ∉ members -> blocks' !! b = blocks !! b;
  re_changed : changed = true <-> exists b, b ∈ members /\ opsOf blocks' mode b <> opsOf blocks mode b }.

Section Removed.
Context (effect : Operation -> bool) (mode : OperationEnumerationMode) (members : list nat) (base : nat -> gset nat) (program : Program) (blocks : gmap nat FlowBlock).
Context (program' : Program) (blocks' : gmap nat FlowBlock) (changed : bool) (m : gmap nat (gset nat)).
Context (Hre : removed effect mode members base program blocks program' blocks' changed m).

Lemma removed_ops b bb : b ∈ members -> blocks !! b = Some bb -> opsOf blocks' mode b = liveOnly effect (forced blocks) m (base b) (kept mode bb) (filtered mode bb) ++ kept mode bb.
Proof. intros Hb Hbb. destruct (re_blocks _ _ _ _ _ _ _ _ _ _ Hre b bb Hb Hbb) as (bb' & Hbb' & Hf & Hk & _). unfold opsOf. by rewrite Hbb', operationsOf_filtered, Hf, Hk. Qed.

Lemma removed_forced : (forall b, b ∈ members -> exists bb, blocks !! b = Some bb) -> forall b, forced blocks' b = forced blocks b.
Proof.
  intros Hblock b. unfold forced. destruct (decide (b ∈ members)) as [Hb|Hb]; [|by rewrite (re_others _ _ _ _ _ _ _ _ _ _ Hre)]. destruct (Hblock b Hb) as [bb Hbb].
  destruct (re_blocks _ _ _ _ _ _ _ _ _ _ Hre b bb Hb Hbb) as (bb' & -> & _ & _ & _ & Hl). by rewrite Hbb, Hl.
Qed.

Lemma removed_observations visible entry tr : (forall b, b ∈ members -> exists bb, blocks !! b = Some bb) -> (forall b op, b ∈ members -> op ∈ opsOf blocks mode b -> dead_ok program effect visible op) ->
  observations program effect visible (forced blocks) members entry (opsOf blocks mode) tr <-> observations program' effect visible (forced blocks') members entry (opsOf blocks' mode) tr.
Proof.
  intros Hblock Hok. rewrite (trimmed_observations program effect visible (forced blocks) m members entry base (opsOf blocks mode) (opsOf blocks' mode)).
  - apply observations_same; [apply Hre|by apply removed_forced].
  - apply (re_fixed _ _ _ _ _ _ _ _ _ _ Hre).
  - intros b Hb. destruct (Hblock b Hb) as [bb Hbb]. rewrite (removed_ops b bb) by done. unfold opsOf. rewrite Hbb, operationsOf_filtered. apply trimmed_liveOnly.
  - intros b Hb. apply Forall_forall. intros op Hop. by apply (Hok b op Hb Hop).
Qed.
End Removed.

(** ** [RemoveDeadOperationsImpl] with changes *)

Section Impl.
Context (program : Program) (functions : list FlowFunction) (blocks : gmap nat FlowBlock) (fi : nat) (mode : OperationEnumerationMode) (members : list nat).
Context (Hok : function_ok program functions blocks fi mode members).
Context (cfg : ControlFlowGraph) (Hpred : forall b s, b ∈ GetPredecessors cfg s <-> edge blocks mode members b s).
Context (firstBlock : gset nat -> nat) (Hfirst : forall X, X <> ∅ -> firstBlock X ∈ X).
Context (clockGates : nat -> list (gset nat)) (Hbase : forall b, base mode clockGates b ⊆ list_to_set (seq 0 (numRegisters program))).
Context (isLive : gset nat -> Operation -> bool) (Hmono : forall G G' op, G ⊆ G' -> isLive G op = true -> isLive G' op = true).
Context (isLiveOperationCb : gset nat -> Operation -> result bool) (G0 : gset nat) (visible : nat -> bool).
Context (Hcall : forall b op, b ∈ members -> op ∈ opsOf blocks mode b -> callbacks_ok isLive (fun _ => ∅) isLiveOperationCb (fun G _ => Ok G) op).
Context (Hrm : forall b op, b ∈ members -> op ∈ opsOf blocks mode b -> removable program (effectOf (isLive G0)) visible op).
Notation effect := (effectOf (isLive G0)).
Notation deadAnalysis := (deadAnalysis program blocks mode members clockGates isLive (fun _ => ∅)).

Lemma analysis_globals s : deadAnalysis G0 ∅ s -> _liveGlobalVariables s = G0.
Proof.
  intros Ha. apply (anti_symm (⊆)); [|apply (da_start _ _ _ _ _ _ _ _ _ _ Ha)]. intros r Hr. destruct (da_reads _ _ _ _ _ _ _ _ _ _ Ha r Hr) as [?|(b & op & _ & _ & Hin)]; [done|]. by apply elem_of_empty in Hin.
Qed.

Lemma analysis_end s b bb : deadAnalysis G0 ∅ s -> b ∈ members -> blocks !! b = Some bb ->
  liveIn (_liveInMap s) b = liveBefore effect (forced blocks) (_liveInMap s) (base mode clockGates b) (opsOf blocks mode b) /\
  removeDead (_liveOperations s) b 0 (filtered mode bb) = liveOnly effect (forced blocks) (_liveInMap s) (base mode clockGates b) (kept mode bb) (filtered mode bb).
Proof.
  intros Ha Hb Hbb. pose proof (analysis_globals s Ha) as HG. assert (HopsOf : opsOf blocks mode b = operationsOf mode bb) by (unfold opsOf; by rewrite Hbb).
  destruct (da_fixed _ _ _ _ _ _ _ _ _ _ Ha HG b Hb) as [?%elem_of_empty|[Hfix Hall]]; [done|]. split; [done|].
  apply removeDead_live. intros k _. rewrite <- operationsOf_filtered, <- HopsOf. split; [|by apply Hall]. intros Hin. apply (da_live _ _ _ _ _ _ _ _ _ _ Ha) in Hin as (_ & Hat & _). by rewrite HG in Hat.
Qed.

Lemma trimBlock_parts L b bb : filtered mode (trimBlock L b mode bb) = removeDead L b 0 (filtered mode bb) /\ kept mode (trimBlock L b mode bb) = kept mode bb.
Proof. unfold trimBlock, filtered, kept. destruct mode; cbn [_startConditionOperations _operations _stages]; [by rewrite removeDead_app|by rewrite removeDeadStages_eq]. Qed.

Lemma trim_length s b bb : deadAnalysis G0 ∅ s -> b ∈ members -> blocks !! b = Some bb ->
  shorter mode (_liveOperations s) b bb <-> operationsOf mode (trimBlock (_liveOperations s) b mode bb) <> operationsOf mode bb.
Proof.
  intros Ha Hb Hbb. destruct (analysis_end s b bb Ha Hb Hbb) as [_ He]. unfold shorter. destruct (trimBlock_parts (_liveOperations s) b bb) as [H1 H2].
  rewrite !operationsOf_filtered, H1, H2, He, !length_app. split; [intros Hne Heq; by rewrite (app_inv_tail _ _ _ Heq) in Hne|].
  intros Hne Hlen. apply Hne. f_equal. apply sublist_same_length; [apply liveOnly_sublist|lia].
Qed.

Lemma Impl_removes fuel : (length members + S (length members) * (length members * numRegisters program) <= fuel)%nat ->
  exists program' blocks' changed m,
    RemoveDeadOperationsImpl isLiveOperationCb (fun G _ => Ok G) blocks fi cfg firstBlock mode clockGates fuel program members G0 true = Ok (program', blocks', G0, changed) /\
    removed effect mode members (base mode clockGates) program blocks program' blocks' changed m.
Proof.
  intros Hfuel. assert (Hblock : forall b, b ∈ members -> exists bb, blocks !! b = Some bb) by (intros b Hb; destruct (fo_block _ _ _ _ _ _ Hok b Hb) as (bb & ? & _); by exists bb).
  destruct (visit_all program functions blocks fi mode members Hok cfg Hpred firstBlock Hfirst clockGates Hbase isLive _ Hmono _ _ Hcall G0 fuel Hfuel) as (s & Hrun & Ha).
  destruct (changeBlocks_eq program effect visible s mode members blocks (_liveOperations s)) as (program' & Hchange & Hsame).
  { intros b Hb. destruct (Hblock b Hb) as [bb Hbb]. exists bb. split; [done|]. apply Forall_forall. intros op Hop. apply (Hrm b op Hb). unfold opsOf. by rewrite Hbb. }
  destruct (removeBlocks_eq mode blocks (_liveOperations s) members blocks false (fo_nodup _ _ _ _ _ _ Hok) ltac:(done) Hblock) as (blocks' & changed & Hremove & H1 & H2 & H3).
  exists program', blocks', changed, (_liveInMap s). split.
  - unfold RemoveDeadOperationsImpl. rewrite Hrun. cbn [mbind result_bind negb]. rewrite Hchange. cbn [mbind result_bind]. rewrite Hremove. cbn [mbind result_bind]. by rewrite (analysis_globals s Ha).
  - split; [done| | | |done|].
    + intros b Hb. destruct (Hblock b Hb) as [bb Hbb]. by apply (analysis_end s b bb).
    + intros m' Hm'. apply (da_least _ _ _ _ _ _ _ _ _ _ Ha G0 m'); [done|exact Hm'|]. intros b k op _ _ _. apply empty_subseteq.
    + intros b bb Hb Hbb. exists (trimBlock (_liveOperations s) b mode bb). destruct (trimBlock_parts (_liveOperations s) b bb) as [-> ->].
      destruct (analysis_end s b bb Ha Hb Hbb) as [_ ->]. split_and!; [by apply H1|done|done|by destruct mode|by destruct mode].
    + rewrite H3. split.
      * intros [?|(b & bb & Hb & Hbb & Hs)]; [done|]. exists b. split; [done|]. unfold opsOf. rewrite (H1 b bb Hb Hbb), Hbb. by apply (trim_length s b bb).
      * intros (b & Hb & Hne). right. destruct (Hblock b Hb) as [bb Hbb]. exists b, bb. split_and!; [done|done|]. apply (trim_length s b bb Ha Hb Hbb). unfold opsOf in Hne. by rewrite (H1 b bb Hb Hbb), Hbb in Hne.
Qed.
End Impl.

(** ** [RemoveDeadOperations] *)

Lemma IsLiveOperation_callbacks op : callbacks_ok (fun _ => liveByOpcode) (fun _ => ∅) (fun _ => IsLiveOperation) (fun G _ => Ok G) op.
Proof. intros G. split; [apply IsLiveOperation_Ok|by rewrite (left_id_L ∅ (∪))]. Qed.

Notation effect := (effectOf liveByOpcode).

(** C5: For every function whose operations are well formed and for every order
    in which the work list gives its blocks, [RemoveDeadOperations] ends with no
    failed assertion, within [n + (n + 1) n N] blocks for [n] blocks and [N]
    registers.  With [m] the least sets of registers that are closed under the
    transfer of every block, what is left of the operations that the mode
    filters are those that have an effect or write a register that is live after
    them, and the result tells whether some operation was removed.  Executions
    from any entries have the same observations before and after: the opcodes,
    the values of the sources, the results and the registers passed on, for every
    operation that has an effect or writes a global register. *)
Theorem RemoveDeadOperations_correct program functions blocks fi mode members firstBlock clockGates fuel entry :
  function_ok program functions blocks fi mode members ->
  (forall b op, b ∈ members -> op ∈ opsOf blocks mode b -> removable program effect (isGlobal program) op) ->
  (forall X, X <> ∅ -> firstBlock X ∈ X) ->
  (forall b, base mode clockGates b ⊆ list_to_set (seq 0 (numRegisters program))) ->
  (length members + S (length members) * (length members * numRegisters program) <= fuel)%nat ->
  exists cfg program' blocks' changed m, buildGraph blocks fi mode members = Ok cfg /\
    RemoveDeadOperations blocks fi cfg firstBlock mode clockGates fuel program members = Ok (program', blocks', changed) /\
    (forall b, b ∈ members -> liveIn m b = liveBefore effect (forced blocks) m (base mode clockGates b) (opsOf blocks mode b)) /\
    (forall m', (forall b, b ∈ members -> liveBefore effect (forced blocks) m' (base mode clockGates b) (opsOf blocks mode b) ⊆ liveIn m' b) -> forall b, liveIn m b ⊆ liveIn m' b) /\
    (forall b bb, b ∈ members -> blocks !! b = Some bb ->
       opsOf blocks' mode b = liveOnly effect (forced blocks) m (base mode clockGates b) (kept mode bb) (filtered mode bb) ++ kept mode bb) /\
    (forall b, b ∉ members -> blocks' !! b = blocks !! b) /\
    (changed = true <-> exists b, b ∈ members /\ opsOf blocks' mode b <> opsOf blocks mode b) /\
    (forall tr, observations program effect (isGlobal program) (forced blocks) members entry (opsOf blocks mode) tr <->
                observations program' effect (isGlobal program) (forced blocks') members entry (opsOf blocks' mode) tr).
Proof.
  intros Hok Hrm Hfirst Hbase Hfuel. destruct (buildGraph_eq program functions blocks fi mode members Hok) as (cfg & Hcfg & _ & Hpred).
  destruct (Impl_removes program functions blocks fi mode members Hok cfg Hpred firstBlock Hfirst clockGates Hbase (fun _ => liveByOpcode) ltac:(done) (fun _ => IsLiveOperation) ∅ (isGlobal program)
    (fun b op _ _ => IsLiveOperation_callbacks op) Hrm fuel Hfuel) as (program' & blocks' & changed & m & Hrun & Hre).
  exists cfg, program', blocks', changed, m. split_and!; [done| |apply Hre|apply Hre|by apply (removed_ops _ _ _ _ _ _ _ _ _ _ Hre)|apply Hre|apply Hre|].
  - unfold RemoveDeadOperations. by rewrite Hrun.
  - intros tr. apply (removed_observations _ _ _ _ _ _ _ _ _ _ Hre).
    + intros b Hb. destruct (fo_block _ _ _ _ _ _ Hok b Hb) as (bb & ? & _). by exists bb.
    + intros b op Hb Hop. by apply rm_ok, (Hrm b op).
Qed.

(** ** A loop with a value that only goes round

    Registers 6 to 9 carry a value around the loop that nothing observes, and
    register 5 is a destination of a load that nothing reads. *)

Definition carryProgram : Program := mkProgram (replicate 10 (mkRegisterDescription 8 Local "r"%string)).
Definition carryOps0 : list FlowOperation :=
  [demoUse Mov [0%nat] [1%nat]; demoUse (LoadMemory 8) [1%nat] [4%nat; 5%nat]; demoUse Mov [6%nat] [7%nat]; demoEnqueue 1 {[2%nat := 4%nat; 8%nat := 7%nat]}].
Definition carryOps1 : list FlowOperation := [demoUse Mov [2%nat] [3%nat]; demoUse Mov [8%nat] [9%nat]; demoUse (Print []) [2%nat] []; demoEnqueue 0 {[0%nat := 3%nat; 6%nat := 9%nat]}].
Definition carryBlocks : gmap nat FlowBlock := {[0%nat := mkFlowBlock [] carryOps0 [] 0 [] [] [] None; 1%nat := mkFlowBlock [] carryOps1 [] 0 [] [] [] None]}.

Lemma carry_global r : isGlobal carryProgram r = false.
Proof. unfold isGlobal, carryProgram. destruct (_registerTable _ !! r) as [d|] eqn:E; [|done]. cbn [_registerTable] in E. apply lookup_replicate in E as [-> _]. done. Qed.

Lemma carry_ops_ok : Forall (op_ok carryProgram demoFunctions carryBlocks) (carryOps0 ++ carryOps1).
Proof.
  repeat apply Forall_cons_2; try apply Forall_nil_2; constructor; cbn.
  all: try (intros [r] H; repeat (apply elem_of_cons in H as [H|H]; [first [discriminate|injection H as ->; cbn; lia]|]); by apply not_elem_of_nil in H).
  all: try (intros o r H; first [by rewrite lookup_empty in H|apply lookup_insert_Some in H as [[<- <-]|[_ H]]; [lia|]; apply lookup_singleton_Some in H as [<- <-]; lia]).
  all: intros s Hs; first [discriminate|injection Hs as <-; split; [done|]; eexists _, _; split; [reflexivity|]; split; [reflexivity|]; cbn; intros r H; by apply not_elem_of_nil in H].
Qed.

Lemma carry_ok : function_ok carryProgram demoFunctions carryBlocks 0 Unscheduled [0%nat; 1%nat].
Proof.
  pose proof carry_ops_ok as [H0 H1]%Forall_app. constructor.
  - apply (bool_decide_unpack (NoDup [0%nat; 1%nat])). by vm_compute.
  - intros b Hb. repeat (apply elem_of_cons in Hb as [->|Hb]); [..|by apply not_elem_of_nil in Hb]; (eexists; split; [reflexivity|]; split; [reflexivity|]); cbn [operationsOf _startConditionOperations _operations _stages concat app]; by rewrite app_nil_r.
  - intros b bb op s block Hb Hbb Hop Hs Hblock. assert (Hf : forall k b', carryBlocks !! k = Some b' -> k ∈ [0%nat; 1%nat] /\ _function b' = 0%nat).
    { intros k b' H. unfold carryBlocks in H. apply lookup_insert_Some in H as [[<- <-]|[_ H]]; [split; [by left|done]|]. apply lookup_singleton_Some in H as [<- <-]. split; [right; by left|done]. }
    destruct (Hf _ _ Hblock). done.
Qed.

Lemma carry_removable : Forall (removable carryProgram effect (isGlobal carryProgram)) (carryOps0 ++ carryOps1).
Proof.
  repeat apply Forall_cons_2; try apply Forall_nil_2; constructor; cbn; try done; try constructor; cbn; try done.
  all: try (intros r _ H; by rewrite carry_global in H).
  all: try apply carry_global. repeat (apply elem_of_cons in H as [H|H]; [injection H as ->; cbn; lia|]). by apply not_elem_of_nil in H.
Qed.

Lemma RemoveDeadOperations_correct_witness :
  (cfg ← buildGraph carryBlocks 0 Unscheduled [0%nat; 1%nat];
   '(program', blocks', changed) ← RemoveDeadOperations carryBlocks 0 cfg demoFirst Unscheduled (fun _ => []) 62 carryProgram [0%nat; 1%nat];
   Ok (_type <$> _registerTable program', opsOf blocks' Unscheduled 0, opsOf blocks' Unscheduled 1, changed))
  = Ok ([Local; Local; Local; Local; Local; BitBucket; Local; Local; Local; Local],
        [demoUse Mov [0%nat] [1%nat]; demoUse (LoadMemory 8) [1%nat] [4%nat; 5%nat]; demoEnqueue 1 {[2%nat := 4%nat; 8%nat := 7%nat]}],
        [demoUse Mov [2%nat] [3%nat]; demoUse (Print []) [2%nat] []; demoEnqueue 0 {[0%nat := 3%nat; 6%nat := 9%nat]}], true) /\
  exists cfg program' blocks' changed m, buildGraph carryBlocks 0 Unscheduled [0%nat; 1%nat] = Ok cfg /\
    RemoveDeadOperations carryBlocks 0 cfg demoFirst Unscheduled (fun _ => []) 62 carryProgram [0%nat; 1%nat] = Ok (program', blocks', changed) /\
    (forall b, b ∈ [0%nat; 1%nat] -> liveIn m b = liveBefore effect (forced carryBlocks) m (base Unscheduled (fun _ => []) b) (opsOf carryBlocks Unscheduled b)) /\
    (forall m', (forall b, b ∈ [0%nat; 1%nat] -> liveBefore effect (forced carryBlocks) m' (base Unscheduled (fun _ => []) b) (opsOf carryBlocks Unscheduled b) ⊆ liveIn m' b) -> forall b, liveIn m b ⊆ liveIn m' b) /\
    (forall b bb, b ∈ [0%nat; 1%nat] -> carryBlocks !! b = Some bb ->
       opsOf blocks' Unscheduled b = liveOnly effect (forced carryBlocks) m (base Unscheduled (fun _ => []) b) (kept Unscheduled bb) (filtered Unscheduled bb) ++ kept Unscheduled bb) /\
    (forall b, b ∉ [0%nat; 1%nat] -> blocks' !! b = carryBlocks !! b) /\
    (changed = true <-> exists b, b ∈ [0%nat; 1%nat] /\ opsOf blocks' Unscheduled b <> opsOf carryBlocks Unscheduled b) /\
    (forall tr, observations carryProgram effect (isGlobal carryProgram) (forced carryBlocks) [0%nat; 1%nat] (fun b => b = 0%nat) (opsOf carryBlocks Unscheduled) tr <->
                observations program' effect (isGlobal carryProgram) (forced blocks') [0%nat; 1%nat] (fun b => b = 0%nat) (opsOf blocks' Unscheduled) tr).
Proof.
  split; [vm_compute; reflexivity|]. apply (RemoveDeadOperations_correct carryProgram demoFunctions carryBlocks 0 Unscheduled [0%nat; 1%nat] demoFirst (fun _ => []) 62 (fun b => b = 0%nat)).
  - exact carry_ok.
  - intros b op Hb Hop. pose proof carry_removable as H. rewrite Forall_forall in H. apply H, elem_of_app.
    repeat (apply elem_of_cons in Hb as [->|Hb]); [..|by apply not_elem_of_nil in Hb]; cbn [opsOf operationsOf] in Hop; [left|right]; vm_compute in Hop |- *; exact Hop.
  - exact demo_first.
  - intros b. unfold base. cbn. apply empty_subseteq.
  - cbn. lia.
Defined.

End DeadRemoval.
