(* ===== verification/UnusedGlobals.v ===== *)
(** * Global variables that are not used

    [optimize.cpp]: [RemoveUnusedGlobals].  The rounds over the functions find
    the least set of global variables that holds the roots and what the live
    operations read, where a write is live if its variable is in the set
    ([convergeGlobals_eq]).  Then every function loses its dead operations, and
    shows what it showed, but for the writes of variables outside the set. *)

From S2P Require Import Prelude MachineInt Literals Ir Semantics Run Flow Liveness LivenessFacts LivenessCorrect Opcodes.
From S2P Require Import PathLength DeadOperations DeadSemantics DeadCorrect DeadRemoval.
Import MachineInt Containers Literals Ir Semantics Run Flow FlowSemantics Liveness LivenessFacts LivenessCorrect Opcodes DeadOperations DeadSemantics DeadCorrect DeadRemoval.

Module UnusedGlobals.

(** ** The callbacks *)

(** A write of a global variable is live if the variable is in [G]. *)
Definition liveWith (G : gset nat) (op : Operation) : bool :=
  match _opcode op with
  | WriteGlobal => match _dst op with DstRegister r :: _ => bool_decide (_registerIndex r ∈ G) | _ => false end
  | _ => liveByOpcode op
  end.

Section Globals.
Context (program : Program).

Definition globalReads (op : Operation) : gset nat := filter (fun r => isGlobal program r = true) (list_to_set (PipelineStages.PipelineStages.readRegisters op)).

Lemma elem_of_globalReads op r : r ∈ globalReads op <-> SrcRegister (mkAccessedRegister r) ∈ _src op /\ isGlobal program r = true.
Proof.
  unfold globalReads. rewrite elem_of_filter, elem_of_list_to_set. unfold PipelineStages.PipelineStages.readRegisters. rewrite list_elem_of_omap. split.
  - intros [Hg ([l|[q]| |] & Hin & Heq)]; try done. by injection Heq as <-.
  - intros [Hin Hg]. split; [done|]. by exists (SrcRegister (mkAccessedRegister r)).
Qed.

Lemma insertGlobal_eq G r : (r < numRegisters program)%nat -> insertGlobal program G r = Ok (if isGlobal program r then {[r]} ∪ G else G).
Proof.
  intros Hr. destruct (lookup_lt_is_Some_2 _ _ Hr) as [d Hd]. unfold insertGlobal, registerType, isGlobal. rewrite (at_Some _ _ _ Hd), Hd. cbn [mbind result_bind]. do 2 case_bool_decide; congruence.
Qed.

Definition inRange (o : SourceOperand) : Prop := match o with SrcRegister r => (_registerIndex r < numRegisters program)%nat | _ => True end.

Definition globalOf (o : SourceOperand) : gset nat := match o with SrcRegister r => if isGlobal program (_registerIndex r) then {[_registerIndex r]} else ∅ | _ => ∅ end.

Lemma insertGlobalSource_eq G o : inRange o -> insertGlobalSource program G o = Ok (globalOf o ∪ G).
Proof.
  intros Ho. destruct o as [l|r| |]; cbn [insertGlobalSource globalOf]; try (by rewrite (left_id_L ∅ (∪))). rewrite insertGlobal_eq by done. destruct (isGlobal _ _); [done|by rewrite (left_id_L ∅ (∪))].
Qed.

Lemma insertUnion {A} (f : gset nat -> A -> result (gset nat)) (g : A -> gset nat) l G : (forall G a, a ∈ l -> f G a = Ok (g a ∪ G)) -> foldM f l G = Ok (⋃ (g <$> l) ∪ G).
Proof.
  revert G. induction l as [|a l IH]; intros G H; [cbn; by rewrite (left_id_L ∅ (∪))|]. cbn [foldM]. rewrite H by (by left). cbn [mbind result_bind].
  rewrite IH by (intros; apply H; by right). f_equal. cbn. set_solver.
Qed.

Lemma globalReads_eq op : globalReads op = ⋃ (globalOf <$> _src op).
Proof.
  apply set_eq. intros r. rewrite elem_of_globalReads, elem_of_union_list. split.
  - intros [Hin Hg]. exists {[r]}. split; [|by apply elem_of_singleton]. apply list_elem_of_fmap. exists (SrcRegister (mkAccessedRegister r)). cbn. by rewrite Hg.
  - intros (X & (o & -> & Ho)%list_elem_of_fmap & Hr). destruct o as [l|[q]| |]; cbn in Hr; try by apply elem_of_empty in Hr. destruct (isGlobal program q) eqn:E; [|by apply elem_of_empty in Hr]. by apply elem_of_singleton in Hr as ->.
Qed.

Lemma notifyLiveOp_eq G op : Forall inRange (_src op) -> notifyLiveOp program G op = Ok (globalReads op ∪ G).
Proof. intros H. unfold notifyLiveOp. rewrite globalReads_eq. apply insertUnion. intros G' o Ho. apply insertGlobalSource_eq. rewrite Forall_forall in H. by apply H. Qed.

(** The variables that are live in any case *)
Definition roots (inspectableVariables codeCoverageVariables : list (list nat)) (globalViewFunctions : list (list Operation)) (r : nat) : Prop :=
  isGlobal program r = true /\ ((exists registers, registers ∈ inspectableVariables ++ codeCoverageVariables /\ r ∈ registers) \/
    exists ops op, ops ∈ globalViewFunctions /\ op ∈ ops /\ SrcRegister (mkAccessedRegister r) ∈ _src op).

Definition roots_ok (inspectableVariables codeCoverageVariables : list (list nat)) (globalViewFunctions : list (list Operation)) : Prop :=
  Forall (Forall (fun r => (r < numRegisters program)%nat)) (inspectableVariables ++ codeCoverageVariables) /\ Forall (Forall (fun op => Forall inRange (_src op))) globalViewFunctions.

Definition variableGlobals (registers : list nat) : gset nat := ⋃ ((fun r => if isGlobal program r then {[r]} else ∅) <$> registers).

Lemma insertVariables_eq variables G : Forall (Forall (fun r => (r < numRegisters program)%nat)) variables ->
  foldM (fun live registers => foldM (insertGlobal program) registers live) variables G = Ok (⋃ (variableGlobals <$> variables) ∪ G).
Proof.
  intros H. apply insertUnion. intros G' registers Hin. rewrite Forall_forall in H. specialize (H _ Hin). apply insertUnion. intros G2 r Hr. rewrite Forall_forall in H. rewrite insertGlobal_eq by (by apply H).
  destruct (isGlobal program r); [done|by rewrite (left_id_L ∅ (∪))].
Qed.

Lemma elem_of_variableGlobals variables r : r ∈ ⋃ (variableGlobals <$> variables) <-> isGlobal program r = true /\ exists registers, registers ∈ variables /\ r ∈ registers.
Proof.
  rewrite elem_of_union_list. split.
  - intros (X & (registers & -> & Hreg)%list_elem_of_fmap & Hr). apply elem_of_union_list in Hr as (Y & (q & -> & Hq)%list_elem_of_fmap & Hr).
    destruct (isGlobal program q) eqn:E; [|by apply elem_of_empty in Hr]. apply elem_of_singleton in Hr as ->. split; [done|by exists registers].
  - intros [Hg (registers & Hreg & Hr)]. exists (variableGlobals registers). split; [apply list_elem_of_fmap; by exists registers|]. apply elem_of_union_list. exists {[r]}. split; [|by apply elem_of_singleton].
    apply list_elem_of_fmap. exists r. by rewrite Hg.
Qed.

Lemma initialGlobals_eq inspectable coverage views : roots_ok inspectable coverage views ->
  exists G, initialGlobals program inspectable coverage views = Ok G /\ forall r, r ∈ G <-> roots inspectable coverage views r.
Proof.
  intros [[H1 H2]%Forall_app H3]. unfold initialGlobals. rewrite insertVariables_eq by done. cbn [mbind result_bind]. rewrite insertVariables_eq by done. cbn [mbind result_bind].
  rewrite (insertUnion _ (fun ops => ⋃ (globalReads <$> ops))).
  - eexists. split; [reflexivity|]. intros r. rewrite !elem_of_union, !elem_of_variableGlobals, elem_of_empty, elem_of_union_list. unfold roots. setoid_rewrite elem_of_app. split.
    + intros [(X & (ops & -> & Hops)%list_elem_of_fmap & Hr)|[[Hg (l & Hl & Hr)]|[[Hg (l & Hl & Hr)]|[]]]].
      * apply elem_of_union_list in Hr as (Y & (op & -> & Hop)%list_elem_of_fmap & Hr). apply elem_of_globalReads in Hr as [Hin Hg]. split; [done|right; by exists ops, op].
      * split; [done|left]. exists l. split; [by right|done].
      * split; [done|left]. exists l. split; [by left|done].
    + intros [Hg [(l & [Hl|Hl] & Hr)|(ops & op & Hops & Hop & Hin)]].
      * right; right; left. split; [done|by exists l].
      * right; left. split; [done|by exists l].
      * left. exists (⋃ (globalReads <$> ops)). split; [apply list_elem_of_fmap; by exists ops|]. apply elem_of_union_list. exists (globalReads op). split; [apply list_elem_of_fmap; by exists op|]. by apply elem_of_globalReads.
  - intros G ops Hops. rewrite Forall_forall in H3. specialize (H3 _ Hops). apply insertUnion. intros G' op Hop. rewrite Forall_forall in H3. by apply notifyLiveOp_eq, H3.
Qed.

(** What the pass relies on *)
Record unused_ok (op : FlowOperation) : Prop := mk_unused_ok {
  uo_write : _opcode (_operation op) = WriteGlobal -> exists r, _dst (_operation op) = [DstRegister r];
  uo_globals : forall r, DstRegister r ∈ _dst (_operation op) -> isGlobal program (_registerIndex r) = true -> _opcode (_operation op) = WriteGlobal;
  uo_value : forall σ v, opValue program σ (_operation op) = Some v -> length (_dst (_operation op)) = 1%nat;
  uo_fifo : match _opcode (_operation op) with EnqueueRegisters _ _ | DequeueRegisters _ _ => False | _ => True end }.

(** The writes of the variables in [G] are visible. *)
Definition visibleWith (G : gset nat) (r : nat) : bool := isGlobal program r && bool_decide (r ∈ G).

Lemma liveWith_mono G G' op : G ⊆ G' -> liveWith G op = true -> liveWith G' op = true.
Proof. intros HG. unfold liveWith. destruct (_opcode op); try done. destruct (_dst op) as [|[r|f] l]; try done. rewrite !bool_decide_eq_true. apply HG. Qed.

Lemma isLiveOperation_eq G op : unused_ok op -> isLiveOperation G (_operation op) = Ok (liveWith G (_operation op)).
Proof.
  intros Hop. unfold isLiveOperation, liveWith. pose proof (uo_write _ Hop) as Hw. pose proof (IsLiveOperation_Ok (_operation op)) as H. destruct (_opcode (_operation op)); try exact H.
  destruct (Hw eq_refl) as [r Hr]. by rewrite Hr.
Qed.

Lemma callbacks_remove op : unused_ok op -> callbacks_ok liveWith (fun _ => ∅) isLiveOperation (fun G _ => Ok G) op.
Proof. intros Hop G. split; [by apply isLiveOperation_eq|by rewrite (left_id_L ∅ (∪))]. Qed.

Section Functions.
Context (functions : list FlowFunction) (blocks : gmap nat FlowBlock).

Lemma op_inRange op : op_ok program functions blocks op -> Forall inRange (_src (_operation op)).
Proof. intros Hop. apply Forall_forall. intros [l|r| |] Hin; try done. by apply (ok_src _ _ _ _ Hop). Qed.

Lemma callbacks_find op : op_ok program functions blocks op -> unused_ok op -> callbacks_ok liveWith globalReads isLiveOperation (notifyLiveOp program) op.
Proof. intros Hok Hop G. split; [by apply isLiveOperation_eq|by apply notifyLiveOp_eq, op_inRange]. Qed.

Lemma unused_removable G op : op_ok program functions blocks op -> unused_ok op -> removable program (effectOf (liveWith G)) (visibleWith G) op.
Proof.
  intros Hok [U1 U2 U3 U4]. split; [split|done|].
  - intros Hs. destruct (_getSuccessorBlock op) as [s|] eqn:E; [|done]. destruct (ok_successor _ _ _ _ Hok s E) as [He _]. unfold effectOf, liveWith.
    destruct (_opcode (_operation op)) eqn:Eo; try done. unfold liveByOpcode, IsLiveOperation. by rewrite Eo.
  - intros r Hr [Hg Hv]%andb_true_iff. specialize (U2 r Hr Hg). destruct (U1 U2) as [q Hq]. unfold effectOf, liveWith. rewrite U2, Hq. rewrite Hq in Hr. apply list_elem_of_singleton in Hr as [= ->]. by rewrite Hv.
  - done.
  - destruct (_opcode (_operation op)) eqn:E; try done. intros r Hr. split; [by apply (ok_dst _ _ _ _ Hok)|]. apply not_true_iff_false. intros Hg. by specialize (U2 r Hr Hg).
Qed.
End Functions.
End Globals.

(** ** The rounds *)

Section Rounds.
Context (program : Program) (functions : list FlowFunction) (blocks : gmap nat FlowBlock).
Context (firstBlock : gset nat -> nat) (Hfirst : forall X, X <> ∅ -> firstBlock X ∈ X) (clockGates : nat -> list (gset nat)).
Notation N := (numRegisters program).
Notation ops b := (opsOf blocks Unscheduled b).
Notation reads := (globalReads program).
Notation effect G := (effectOf (liveWith G)).

(** Every function is well formed, and so is every operation. *)
Record program_ok : Prop := mk_program_ok {
  po_function : forall i f, functions !! i = Some f -> function_ok program functions blocks i Unscheduled (_basicBlocks f);
  po_ops : forall i f b op, functions !! i = Some f -> b ∈ _basicBlocks f -> op ∈ ops b -> unused_ok program op }.

Context (Hok : program_ok).

Definition enough_fuel (fuel : nat) : Prop := forall i f, functions !! i = Some f -> (length (_basicBlocks f) + S (length (_basicBlocks f)) * (length (_basicBlocks f) * N) <= fuel)%nat.

(** [G] and [m] are closed for the blocks [members]: [m] under the transfer of
    every block, and [G] under the reads of the live operations. *)
Definition closedFor (members : list nat) (G : gset nat) (m : gmap nat (gset nat)) : Prop :=
  closed blocks Unscheduled members clockGates liveWith G m /\ closedGlobals blocks Unscheduled members clockGates liveWith reads G m.

Definition fixedFor (members : list nat) (G : gset nat) (m : gmap nat (gset nat)) : Prop :=
  (forall b, b ∈ members -> liveIn m b = liveBefore (effect G) (forced blocks) m ∅ (ops b)) /\ closedGlobals blocks Unscheduled members clockGates liveWith reads G m.

Lemma member_ops i f b op : functions !! i = Some f -> b ∈ _basicBlocks f -> op ∈ ops b -> op_ok program functions blocks op.
Proof.
  intros Hf Hb Hop. destruct (fo_block _ _ _ _ _ _ (po_function Hok i f Hf) b Hb) as (bb & Hbb & _ & Hops). unfold opsOf in Hop. rewrite Hbb in Hop. rewrite Forall_forall in Hops. by apply Hops.
Qed.

Lemma base_unscheduled b : base Unscheduled clockGates b ⊆ list_to_set (seq 0 N).
Proof. apply empty_subseteq. Qed.

(** What a round has done after [k] functions *)
Record round (G : gset nat) (k : nat) (G' : gset nat) : Prop := mk_round {
  ro_grows : G ⊆ G';
  ro_bound : G ⊆ list_to_set (seq 0 N) -> G' ⊆ list_to_set (seq 0 N);
  ro_least : forall G2 m2, G ⊆ G2 -> (forall i f, functions !! i = Some f -> closedFor (_basicBlocks f) G2 (m2 i)) -> G' ⊆ G2;
  ro_fixed : G' = G -> forall i f, (i < k)%nat -> functions !! i = Some f -> exists m, fixedFor (_basicBlocks f) G m }.

Lemma reads_bound op r : op_ok program functions blocks op -> r ∈ reads (_operation op) -> (r < N)%nat.
Proof. intros Hop [Hin _]%elem_of_globalReads. by apply (ok_src _ _ _ _ Hop) in Hin. Qed.

Lemma analysis_fixed members G s : deadAnalysis program blocks Unscheduled members clockGates liveWith reads G ∅ s -> _liveGlobalVariables s = G -> fixedFor members G (_liveInMap s).
Proof.
  intros Ha HG. split.
  - intros b Hb. by destruct (da_fixed _ _ _ _ _ _ _ _ _ _ Ha HG b Hb) as [?%elem_of_empty|[? _]].
  - intros b k op Hb Hat Hk. destruct (da_fixed _ _ _ _ _ _ _ _ _ _ Ha HG b Hb) as [?%elem_of_empty|[_ Hall]]; [done|]. apply Hall in Hat.
    destruct (da_live _ _ _ _ _ _ _ _ _ _ Ha b k Hat) as (_ & _ & Hr). rewrite <- HG. by apply Hr.
Qed.

Lemma findGlobals_eq fuel G : enough_fuel fuel -> exists G', findGlobals functions firstBlock clockGates fuel program blocks G = Ok G' /\ round G (length functions) G'.
Proof.
  intros Hfuel. unfold findGlobals. apply (foldM_zip_inv _ (round G)); [split; [done|done|done|intros _ i f Hi; lia]|].
  intros k f G1 Hf [R1 R2 R3 R4]. cbn [fst snd]. pose proof (po_function Hok k f Hf) as Hfn. destruct (buildGraph_eq program functions blocks k Unscheduled (_basicBlocks f) Hfn) as (cfg & -> & _ & Hpred). cbn [mbind result_bind].
  destruct (visit_all program functions blocks k Unscheduled (_basicBlocks f) Hfn cfg Hpred firstBlock Hfirst clockGates base_unscheduled liveWith reads (liveWith_mono) isLiveOperation (notifyLiveOp program)
    (fun b op Hb Hop => callbacks_find program functions blocks op (member_ops k f b op Hf Hb Hop) (po_ops Hok k f b op Hf Hb Hop)) G1 fuel (Hfuel k f Hf)) as (s & Hrun & Ha).
  unfold RemoveDeadOperationsImpl. rewrite Hrun. cbn [mbind result_bind negb assert_]. exists (_liveGlobalVariables s). split; [done|]. pose proof (da_start _ _ _ _ _ _ _ _ _ _ Ha) as Hstart. split.
  - by transitivity G1.
  - intros HG r Hr. destruct (da_reads _ _ _ _ _ _ _ _ _ _ Ha r Hr) as [H|(b & op & Hb & Hop & Hro)]; [by apply R2|]. apply elem_of_list_to_set, elem_of_seq. pose proof (reads_bound op r (member_ops k f b op Hf Hb Hop) Hro) as Hlt. lia.
  - intros G2 m2 HG Hcl. destruct (Hcl k f Hf) as [C1 C2]. by apply (da_least _ _ _ _ _ _ _ _ _ _ Ha G2 (m2 k)); [apply (R3 G2 m2)|..].
  - intros E i f' Hi Hf'. assert (EG : G1 = G) by (apply (anti_symm (⊆)); [by rewrite <- E|done]). destruct (decide (i = k)) as [->|]; [|apply (R4 EG i f'); [lia|done]].
    rewrite Hf in Hf'. injection Hf' as <-. exists (_liveInMap s). rewrite <- EG. apply analysis_fixed; [done|by rewrite EG].
Qed.

(** The least set: the roots, and what live operations read *)
Record least_globals (G0 G : gset nat) : Prop := mk_least_globals {
  lg_roots : G0 ⊆ G;
  lg_fixed : forall i f, functions !! i = Some f -> exists m, fixedFor (_basicBlocks f) G m;
  lg_least : forall G2 m2, G0 ⊆ G2 -> (forall i f, functions !! i = Some f -> closedFor (_basicBlocks f) G2 (m2 i)) -> G ⊆ G2 }.

Lemma convergeGlobals_eq fuel rounds G : enough_fuel fuel -> G ⊆ list_to_set (seq 0 N) -> (N < rounds + size G)%nat ->
  exists G', convergeGlobals functions firstBlock clockGates fuel rounds program blocks G = Ok G' /\ least_globals G G'.
Proof.
  intros Hfuel. revert G. induction rounds as [|rounds IH]; intros G HG Hsize.
  - pose proof (subseteq_size _ _ HG) as H. rewrite size_list_to_set, length_seq in H by apply NoDup_seq. lia.
  - cbn [convergeGlobals]. destruct (findGlobals_eq fuel G Hfuel) as (G1 & -> & [R1 R2 R3 R4]). cbn [mbind result_bind]. case_bool_decide as E.
    + exists G1. split; [done|]. subst G1. split; [done| |intros G2 m2 H2 Hcl; by apply (R3 G2 m2)]. intros i f Hf. apply (R4 eq_refl i f); [|done]. by apply lookup_lt_Some in Hf.
    + assert (Hlt : (size G < size G1)%nat) by (apply subset_size; split; [done|]; intros H; apply E; by apply (anti_symm (⊆))).
      destruct (IH G1 (R2 HG) ltac:(lia)) as (G' & -> & [L1 L2 L3]). exists G'. split; [done|]. split; [by transitivity G1|done|]. intros G2 m2 H2 Hcl. apply (L3 G2 m2); [by apply (R3 G2 m2)|done].
Qed.

End Rounds.

(** ** The removal *)

(** Blocks that are the same for the functions that lead to them *)
Definition same_entry (bb bb' : FlowBlock) : Prop := _function bb' = _function bb /\ _liveInReg bb' = _liveInReg bb.
Definition same_entries (blocks blocks' : gmap nat FlowBlock) : Prop := forall b, option_Forall2 same_entry (blocks !! b) (blocks' !! b).

Lemma same_entries_Some blocks blocks' b bb : same_entries blocks blocks' -> blocks !! b = Some bb -> exists bb', blocks' !! b = Some bb' /\ same_entry bb bb'.
Proof. intros H Hb. specialize (H b). rewrite Hb in H. inversion H; subst. eauto. Qed.

Lemma same_entries_back blocks blocks' b bb' : same_entries blocks blocks' -> blocks' !! b = Some bb' -> exists bb, blocks !! b = Some bb /\ same_entry bb bb'.
Proof. intros H Hb. specialize (H b). rewrite Hb in H. inversion H; subst. eauto. Qed.

Lemma same_entries_trans blocks1 blocks2 blocks3 : same_entries blocks1 blocks2 -> same_entries blocks2 blocks3 -> same_entries blocks1 blocks3.
Proof.
  intros H12 H23 b. specialize (H12 b). specialize (H23 b). inversion H12 as [bb1 bb2 [E1 E2] Hb1 Hb2|Hb1 Hb2]; rewrite <- Hb2 in H23; inversion H23 as [? bb3 [E3 E4]|]; subst; constructor. split; congruence.
Qed.

Lemma same_entries_forced blocks blocks' b : same_entries blocks blocks' -> forced blocks' b = forced blocks b.
Proof. intros H. unfold forced. specialize (H b). inversion H as [bb bb' [_ E]|]; [done|done]. Qed.

Lemma removed_entries effect mode members base program blocks program' blocks' changed m : removed effect mode members base program blocks program' blocks' changed m ->
  (forall b, b ∈ members -> exists bb, blocks !! b = Some bb) -> same_entries blocks blocks'.
Proof.
  intros Hre Hblock b. destruct (decide (b ∈ members)) as [Hb|Hb].
  - destruct (Hblock b Hb) as [bb Hbb]. destruct (re_blocks _ _ _ _ _ _ _ _ _ _ Hre b bb Hb Hbb) as (bb' & Hbb' & _ & _ & H1 & H2). rewrite Hbb, Hbb'. by constructor.
  - rewrite (re_others _ _ _ _ _ _ _ _ _ _ Hre) by done. destruct (blocks !! b); by constructor.
Qed.

Section Transfer.
Context (program program' : Program) (Hsame : same_registers program program') (functions : list FlowFunction) (blocks blocks' : gmap nat FlowBlock) (Hentries : same_entries blocks blocks').

Lemma numRegisters_same : numRegisters program' = numRegisters program.
Proof. by apply same_registers_length. Qed.

Lemma op_ok_same op : op_ok program functions blocks op -> op_ok program' functions blocks' op.
Proof.
  intros [H1 H2 H3 H4]. split; rewrite ?numRegisters_same; [done..|]. intros s Hs. destruct (H4 s Hs) as (He & bb & f & Hbb & Hf & Hl). split; [done|].
  destruct (same_entries_Some blocks blocks' s bb Hentries Hbb) as (bb' & Hbb' & E1 & E2). exists bb', f. rewrite E1, E2. by split_and!.
Qed.

Lemma function_ok_same i members : (forall b, b ∈ members -> blocks' !! b = blocks !! b) -> function_ok program functions blocks i Unscheduled members -> function_ok program' functions blocks' i Unscheduled members.
Proof.
  intros Heq [H1 H2 H3]. split; [done| |].
  - intros b Hb. destruct (H2 b Hb) as (bb & Hbb & Hf & Hops). exists bb. rewrite Heq by done. split_and!; [done|done|]. eapply Forall_impl; [done|]. apply op_ok_same.
  - intros b bb op s block Hb Hbb Hop Hs Hblock. rewrite Heq in Hbb by done. destruct (same_entries_back blocks blocks' s block Hentries Hblock) as (block0 & Hblock0 & E & _). rewrite E. by apply (H3 b bb op s block0).
Qed.

Lemma unused_ok_same op : unused_ok program op -> unused_ok program' op.
Proof.
  intros [H1 H2 H3 H4]. split; [done| | |done].
  - intros r Hr. rewrite (sr_global _ _ Hsame). by apply H2.
  - intros σ v. rewrite (opValue_same program program' Hsame). apply H3.
Qed.
End Transfer.

Section Removal.
Context (program : Program) (functions : list FlowFunction) (blocks : gmap nat FlowBlock).
Context (firstBlock : gset nat -> nat) (Hfirst : forall X, X <> ∅ -> firstBlock X ∈ X) (clockGates : nat -> list (gset nat)).
Context (Hok : program_ok program functions blocks) (fuel : nat) (Hfuel : enough_fuel program functions fuel) (G : gset nat).
Notation ops b := (opsOf blocks Unscheduled b).
Notation effect := (effectOf (liveWith G)).

(** What is left of a function *)
Record left_of (members : list nat) (blocks' : gmap nat FlowBlock) (m : gmap nat (gset nat)) : Prop := mk_left_of {
  lo_fixed : forall b, b ∈ members -> liveIn m b = liveBefore effect (forced blocks) m ∅ (ops b);
  lo_least : forall m', (forall b, b ∈ members -> liveBefore effect (forced blocks) m' ∅ (ops b) ⊆ liveIn m' b) -> forall b, liveIn m b ⊆ liveIn m' b;
  lo_blocks : forall b bb, b ∈ members -> blocks !! b = Some bb -> exists bb', blocks' !! b = Some bb' /\
    filtered Unscheduled bb' = liveOnly effect (forced blocks) m ∅ (kept Unscheduled bb) (filtered Unscheduled bb) /\ kept Unscheduled bb' = kept Unscheduled bb }.

(** What the loop has done after [k] functions *)
Record removal (k : nat) (st : Program * gmap nat FlowBlock * bool) : Prop := mk_removal {
  rl_registers : same_registers program st.1.1;
  rl_entries : same_entries blocks st.1.2;
  rl_done : forall i f, (i < k)%nat -> functions !! i = Some f -> exists m, left_of (_basicBlocks f) st.1.2 m;
  rl_rest : forall i f b, (k <= i)%nat -> functions !! i = Some f -> b ∈ _basicBlocks f -> st.1.2 !! b = blocks !! b;
  rl_changed : st.2 = true <-> exists i f b, (i < k)%nat /\ functions !! i = Some f /\ b ∈ _basicBlocks f /\ opsOf st.1.2 Unscheduled b <> ops b }.

Lemma member_function i f b bb : functions !! i = Some f -> b ∈ _basicBlocks f -> blocks !! b = Some bb -> _function bb = i.
Proof. intros Hf Hb Hbb. destruct (fo_block _ _ _ _ _ _ (po_function _ _ _ Hok i f Hf) b Hb) as (bb' & Hbb' & H & _). rewrite Hbb in Hbb'. by injection Hbb' as <-. Qed.

Lemma member_some i f b : functions !! i = Some f -> b ∈ _basicBlocks f -> exists bb, blocks !! b = Some bb.
Proof. intros Hf Hb. destruct (fo_block _ _ _ _ _ _ (po_function _ _ _ Hok i f Hf) b Hb) as (bb & Hbb & _). by exists bb. Qed.

Lemma members_disjoint i j f g b : functions !! i = Some f -> functions !! j = Some g -> b ∈ _basicBlocks f -> b ∈ _basicBlocks g -> i = j.
Proof. intros Hf Hg Hb Hb'. destruct (member_some i f b Hf Hb) as [bb Hbb]. rewrite <- (member_function i f b bb Hf Hb Hbb). by apply (member_function j g b bb). Qed.

Lemma opsOf_lookup (blocks1 blocks2 : gmap nat FlowBlock) b : blocks1 !! b = blocks2 !! b -> opsOf blocks1 Unscheduled b = opsOf blocks2 Unscheduled b.
Proof. unfold opsOf. by intros ->. Qed.

Lemma removed_left members program1 blocks1 program2 blocks2 changed m : same_entries blocks blocks1 -> (forall b, b ∈ members -> blocks1 !! b = blocks !! b) ->
  removed effect Unscheduled members (base Unscheduled clockGates) program1 blocks1 program2 blocks2 changed m -> left_of members blocks2 m.
Proof.
  intros Hent Hrest Hre. assert (Hforced : forall b, forced blocks1 b = forced blocks b) by (intros b; by apply same_entries_forced). split.
  - intros b Hb. rewrite (re_fixed _ _ _ _ _ _ _ _ _ _ Hre b Hb), (opsOf_lookup blocks1 blocks) by (by apply Hrest). by apply liveBefore_forced.
  - intros m' Hm'. apply (re_least _ _ _ _ _ _ _ _ _ _ Hre). intros b Hb. rewrite (opsOf_lookup blocks1 blocks) by (by apply Hrest). rewrite (liveBefore_forced effect (forced blocks) (forced blocks1) Hforced m'). by apply Hm'.
  - intros b bb Hb Hbb. rewrite <- Hrest in Hbb by done. destruct (re_blocks _ _ _ _ _ _ _ _ _ _ Hre b bb Hb Hbb) as (bb' & Hbb' & Hf & Hk & _). exists bb'. split_and!; [done| |done].
    rewrite Hf. by apply liveOnly_forced.
Qed.

Lemma left_of_lookup members blocks1 blocks2 m : (forall b, b ∈ members -> blocks2 !! b = blocks1 !! b) -> left_of members blocks1 m -> left_of members blocks2 m.
Proof. intros H [L1 L2 L3]. split; [done|done|]. intros b bb Hb Hbb. rewrite H by done. by apply L3. Qed.

Lemma removeInFunction_eq k f st : functions !! k = Some f -> removal k st ->
  exists st', removeInFunction firstBlock clockGates fuel G st (k, f) = Ok st' /\ removal (S k) st'.
Proof.
  destruct st as [[program1 blocks1] d]. intros Hf [R1 R2 R3 R4 R5]. cbn [fst snd] in *. unfold removeInFunction. cbn [fst snd].
  assert (Hrest : forall b, b ∈ _basicBlocks f -> blocks1 !! b = blocks !! b) by (intros b Hb; by apply (R4 k f)).
  pose proof (function_ok_same program program1 R1 functions blocks blocks1 R2 k (_basicBlocks f) Hrest (po_function _ _ _ Hok k f Hf)) as Hfn.
  destruct (buildGraph_eq program1 functions blocks1 k Unscheduled (_basicBlocks f) Hfn) as (cfg & -> & _ & Hpred). cbn [mbind result_bind].
  assert (Hops : forall b op, b ∈ _basicBlocks f -> op ∈ opsOf blocks1 Unscheduled b -> op_ok program1 functions blocks1 op /\ unused_ok program1 op).
  { intros b op Hb Hop. rewrite (opsOf_lookup blocks1 blocks) in Hop by (by apply Hrest). split; [apply (op_ok_same program program1 R1 functions blocks); [done|by apply (member_ops program functions blocks Hok k f b)]|].
    by apply (unused_ok_same program program1 R1), (po_ops _ _ _ Hok k f b). }
  destruct (Impl_removes program1 functions blocks1 k Unscheduled (_basicBlocks f) Hfn cfg Hpred firstBlock Hfirst clockGates (fun _ => empty_subseteq _) liveWith liveWith_mono isLiveOperation G (visibleWith program1 G)
    (fun b op Hb Hop => callbacks_remove program1 op (proj2 (Hops b op Hb Hop)))
    (fun b op Hb Hop => unused_removable program1 functions blocks1 G op (proj1 (Hops b op Hb Hop)) (proj2 (Hops b op Hb Hop))) fuel) as (program2 & blocks2 & changed & m & Hrun & Hre).
  { rewrite (numRegisters_same program program1 R1). by apply (Hfuel k f). }
  rewrite Hrun. cbn [mbind result_bind]. eexists. split; [reflexivity|].
  assert (Hother : forall i g b, i <> k -> functions !! i = Some g -> b ∈ _basicBlocks g -> blocks2 !! b = blocks1 !! b).
  { intros i g b Hne Hg Hb. apply (re_others _ _ _ _ _ _ _ _ _ _ Hre). intros Hb'. apply Hne. by apply (members_disjoint i k g f b). }
  split; cbn [fst snd].
  - apply (same_registers_trans _ program1); [done|apply Hre].
  - apply (same_entries_trans _ blocks1); [done|]. eapply removed_entries; [exact Hre|]. intros b Hb. rewrite Hrest by done. by apply (member_some k f).
  - intros i g Hi Hg. destruct (decide (i = k)) as [->|Hne].
    + rewrite Hf in Hg. injection Hg as <-. exists m. by eapply removed_left.
    + destruct (R3 i g ltac:(lia) Hg) as [m' Hm']. exists m'. eapply left_of_lookup; [|exact Hm']. intros b Hb. by apply (Hother i g).
  - intros i g b Hi Hg Hb. rewrite (Hother i g b) by (lia || done). apply (R4 i g b); [lia|done|done].
  - rewrite orb_true_iff, R5, (re_changed _ _ _ _ _ _ _ _ _ _ Hre). split.
    + intros [(i & g & b & Hi & Hg & Hb & Hne)|(b & Hb & Hne)].
      * exists i, g, b. split_and!; [lia|done|done|]. by rewrite (opsOf_lookup blocks2 blocks1) by (apply (Hother i g); [lia|done|done]).
      * exists k, f, b. split_and!; [lia|done|done|]. by rewrite <- (opsOf_lookup blocks1 blocks) by (by apply Hrest).
    + intros (i & g & b & Hi & Hg & Hb & Hne). destruct (decide (i = k)) as [->|Hik].
      * right. rewrite Hf in Hg. injection Hg as <-. exists b. split; [done|]. by rewrite (opsOf_lookup blocks1 blocks) by (by apply Hrest).
      * left. exists i, g, b. split_and!; [lia|done|done|]. by rewrite <- (opsOf_lookup blocks2 blocks1) by (by apply (Hother i g)).
Qed.

Lemma removeInFunctions_eq : exists st, foldM (removeInFunction firstBlock clockGates fuel G) (zip (seq 0 (length functions)) functions) (program, blocks, false) = Ok st /\ removal (length functions) st.
Proof.
  apply (foldM_zip_inv _ removal).
  - split; cbn [fst snd].
    + by split.
    + intros b. destruct (blocks !! b); by constructor.
    + intros i f Hi. lia.
    + done.
    + split; [done|]. intros (i & _ & _ & Hi & _). lia.
  - intros k f st Hf Hst. by apply removeInFunction_eq.
Qed.

(** An operation that is left is live, and so reads only variables in [G]. *)
Lemma liveOnly_liveAt m base rest l op : op ∈ liveOnly effect (forced blocks) m base rest l -> exists k, (l ++ rest) !! k = Some op /\ liveAt blocks liveWith G m base (l ++ rest) k.
Proof.
  induction l as [|o l IH]; [by intros ?%not_elem_of_nil|]. cbn [liveOnly app]. destruct (opLive _ _ o) eqn:E.
  - intros [->|Hin]%elem_of_cons; [exists 0%nat; split; [done|]; by apply liveAt_head|]. destruct (IH Hin) as (k & Hk & Hat). by exists (S k).
  - intros Hin. destruct (IH Hin) as (k & Hk & Hat). by exists (S k).
Qed.

Lemma left_reads members blocks' m m' b bb' op r : left_of members blocks' m -> fixedFor program blocks clockGates members G m' -> b ∈ members -> (exists bb, blocks !! b = Some bb) ->
  blocks' !! b = Some bb' -> op ∈ filtered Unscheduled bb' -> SrcRegister (mkAccessedRegister r) ∈ _src (_operation op) -> isGlobal program r = true -> r ∈ G.
Proof.
  intros [L1 L2 L3] [F1 F2] Hb [bb Hbb] Hbb' Hop Hsrc Hg. destruct (L3 b bb Hb Hbb) as (bb2 & Hbb2 & Hf & _). rewrite Hbb' in Hbb2. injection Hbb2 as <-. rewrite Hf in Hop.
  destruct (liveOnly_liveAt _ _ _ _ _ Hop) as (k & Hk & Hat). assert (HopsOf : ops b = filtered Unscheduled bb ++ kept Unscheduled bb) by (unfold opsOf; by rewrite Hbb, operationsOf_filtered).
  rewrite <- HopsOf in Hk, Hat. apply (F2 b k op Hb); [|done|by apply elem_of_globalReads]. eapply (liveAt_monotone blocks liveWith liveWith_mono G G m m'); [done| |exact Hat]. intros o s _ _. apply L2. intros c Hc. by rewrite F1.
Qed.

Lemma left_observations members program' blocks' m entry tr : left_of members blocks' m -> same_registers program program' -> same_entries blocks blocks' -> (forall b, b ∈ members -> exists bb, blocks !! b = Some bb) ->
  (forall b op, b ∈ members -> op ∈ ops b -> dead_ok program effect (visibleWith program G) op) ->
  observations program effect (visibleWith program G) (forced blocks) members entry (opsOf blocks Unscheduled) tr <->
  observations program' effect (visibleWith program G) (forced blocks') members entry (opsOf blocks' Unscheduled) tr.
Proof.
  intros [L1 L2 L3] Hregs Hent Hblock Hdead. rewrite (trimmed_observations program effect (visibleWith program G) (forced blocks) m members entry (fun _ => ∅) (opsOf blocks Unscheduled) (opsOf blocks' Unscheduled)).
  - apply observations_same; [done|]. intros b. by apply same_entries_forced.
  - done.
  - intros b Hb. destruct (Hblock b Hb) as [bb Hbb]. destruct (L3 b bb Hb Hbb) as (bb' & Hbb' & Hf & Hk). unfold opsOf. rewrite Hbb, Hbb', !operationsOf_filtered, Hf, Hk. apply trimmed_liveOnly.
  - intros b Hb. apply Forall_forall. intros op Hop. by apply Hdead with b.
Qed.
End Removal.

(** C27: For every program whose functions and operations are well formed, and for
    every order in which the work lists give the blocks, [RemoveUnusedGlobals]
    ends with no failed assertion, after at most one round more than there are
    registers.  [G] is the least set of global variables that holds the variables
    that can be inspected, count for code coverage or are in a global view, and
    those that a live operation reads, where the write of a variable is live if
    the variable is in [G].  The operations that are left read no other global
    variable, the result tells whether some operation was removed, and the
    executions of every function show what they showed, writes of variables in
    [G] included. *)
Theorem RemoveUnusedGlobals_correct program functions blocks firstBlock clockGates fuel rounds inspectable coverage views :
  program_ok program functions blocks -> roots_ok program inspectable coverage views ->
  (forall X, X <> ∅ -> firstBlock X ∈ X) -> enough_fuel program functions fuel -> (numRegisters program < rounds)%nat ->
  exists program' blocks' changed (G0 G : gset nat),
    RemoveUnusedGlobals functions firstBlock clockGates fuel rounds inspectable coverage views program blocks = Ok (program', blocks', changed) /\
    (forall r, r ∈ G0 <-> roots program inspectable coverage views r) /\ least_globals program functions blocks clockGates G0 G /\
    (forall i f b bb op r, functions !! i = Some f -> b ∈ _basicBlocks f -> blocks' !! b = Some bb -> op ∈ filtered Unscheduled bb ->
       SrcRegister (mkAccessedRegister r) ∈ _src (_operation op) -> isGlobal program r = true -> r ∈ G) /\
    (forall i f, functions !! i = Some f -> exists m, left_of blocks G (_basicBlocks f) blocks' m) /\
    (changed = true <-> exists i f b, functions !! i = Some f /\ b ∈ _basicBlocks f /\ opsOf blocks' Unscheduled b <> opsOf blocks Unscheduled b) /\
    (forall i f entry tr, functions !! i = Some f ->
       observations program (effectOf (liveWith G)) (visibleWith program G) (forced blocks) (_basicBlocks f) entry (opsOf blocks Unscheduled) tr <->
       observations program' (effectOf (liveWith G)) (visibleWith program G) (forced blocks') (_basicBlocks f) entry (opsOf blocks' Unscheduled) tr).
Proof.
  intros Hok Hroots Hfirst Hfuel Hrounds. destruct (initialGlobals_eq program inspectable coverage views Hroots) as (G0 & HG0 & Hin).
  assert (HU : G0 ⊆ list_to_set (seq 0 (numRegisters program))).
  { intros r Hr. apply Hin in Hr as [Hg _]. apply elem_of_list_to_set, elem_of_seq. unfold isGlobal in Hg. destruct (_registerTable program !! r) eqn:E; [|done]. apply lookup_lt_Some in E. unfold numRegisters. lia. }
  destruct (convergeGlobals_eq program functions blocks firstBlock Hfirst clockGates Hok fuel rounds G0 Hfuel HU ltac:(lia)) as (G & HG & Hleast).
  destruct (removeInFunctions_eq program functions blocks firstBlock Hfirst clockGates Hok fuel Hfuel G) as ([[program' blocks'] changed] & Hrun & [R1 R2 R3 R4 R5]). cbn [fst snd] in *.
  assert (Hlen : forall i f, functions !! i = Some f -> (i < length functions)%nat) by (intros i f Hf; by apply lookup_lt_Some in Hf).
  exists program', blocks', changed, G0, G. split_and!; [|done|done| | | |].
  - unfold RemoveUnusedGlobals. rewrite HG0. cbn [mbind result_bind]. rewrite HG. cbn [mbind result_bind]. exact Hrun.
  - intros i f b bb op r Hf Hb Hbb Hop Hsrc Hg. destruct (R3 i f (Hlen i f Hf) Hf) as [m Hm]. destruct (lg_fixed _ _ _ _ _ _ Hleast i f Hf) as [m' Hm'].
    by eapply (left_reads program blocks clockGates G (_basicBlocks f) blocks' m m' b bb op r Hm Hm' Hb (member_some program functions blocks Hok i f b Hf Hb)).
  - intros i f Hf. by apply (R3 i f (Hlen i f Hf)).
  - rewrite R5. split; [intros (i & f & b & _ & H); by exists i, f, b|]. intros (i & f & b & Hf & H). exists i, f, b. split; [by eapply Hlen|done].
  - intros i f entry tr Hf. destruct (R3 i f (Hlen i f Hf) Hf) as [m Hm]. eapply left_observations; [exact Hm|done|done|by intros b; apply (member_some program functions blocks Hok i f)|].
    intros b op Hb Hop. apply rm_ok. eapply unused_removable; [by apply (member_ops program functions blocks Hok i f b)|by apply (po_ops _ _ _ Hok i f b)].
Qed.

(** ** Two counters

    Register 0 is a global variable that is read only to compute its next value,
    register 1 one that can be inspected. *)

Definition counterProgram : Program :=
  mkProgram [mkRegisterDescription 8 Global "unused"%string; mkRegisterDescription 8 Global "count"%string; mkRegisterDescription 8 Local "t"%string; mkRegisterDescription 8 Local "u"%string].
Definition counterOps : list FlowOperation := [demoUse Mov [0%nat] [2%nat]; demoUse WriteGlobal [2%nat] [0%nat]; demoUse Mov [1%nat] [3%nat]; demoUse WriteGlobal [3%nat] [1%nat]].
Definition counterBlocks : gmap nat FlowBlock := {[0%nat := mkFlowBlock [] counterOps [] 0 [] [] [] None]}.
Definition counterFunctions : list FlowFunction := [mkFlowFunction [0%nat] (Some 0%nat) false].

Lemma counter_op_ok : Forall (op_ok counterProgram counterFunctions counterBlocks) counterOps.
Proof.
  repeat apply Forall_cons_2; try apply Forall_nil_2; constructor; cbn; try done.
  all: intros [r] H; repeat (apply elem_of_cons in H as [H|H]; [first [discriminate|injection H as ->; cbn; lia]|]); by apply not_elem_of_nil in H.
Qed.

Lemma counter_unused_ok : Forall (unused_ok counterProgram) counterOps.
Proof.
  repeat apply Forall_cons_2; try apply Forall_nil_2; constructor; cbn; try done; try (intros _; by eexists).
  all: intros [r] H; apply list_elem_of_singleton in H as [= ->]; done.
Qed.

Lemma counter_ok : program_ok counterProgram counterFunctions counterBlocks.
Proof.
  assert (Hf : forall i f, counterFunctions !! i = Some f -> i = 0%nat /\ f = mkFlowFunction [0%nat] (Some 0%nat) false) by (intros [|i] f H; [by injection H as <-|done]).
  split.
  - intros i f [-> ->]%Hf. split; cbn [_basicBlocks].
    + by apply NoDup_singleton.
    + intros b ->%list_elem_of_singleton. eexists. split; [reflexivity|]. split; [done|]. cbn. exact counter_op_ok.
    + intros b bb op s block ->%list_elem_of_singleton Hbb Hop Hs Hblock. unfold counterBlocks in Hblock. apply lookup_singleton_Some in Hblock as [<- <-]. by split; [|left].
  - intros i f b op [-> ->]%Hf ->%list_elem_of_singleton Hop. pose proof counter_unused_ok as H. rewrite Forall_forall in H. by apply H.
Qed.

Lemma RemoveUnusedGlobals_correct_witness :
  ('(program', blocks', changed) ← RemoveUnusedGlobals counterFunctions demoFirst (fun _ => []) 9 5 [[1%nat]] [] [] counterProgram counterBlocks;
   Ok (opsOf blocks' Unscheduled 0, changed)) = Ok ([demoUse Mov [1%nat] [3%nat]; demoUse WriteGlobal [3%nat] [1%nat]], true) /\
  exists program' blocks' changed (G0 G : gset nat),
    RemoveUnusedGlobals counterFunctions demoFirst (fun _ => []) 9 5 [[1%nat]] [] [] counterProgram counterBlocks = Ok (program', blocks', changed) /\
    (forall r, r ∈ G0 <-> roots counterProgram [[1%nat]] [] [] r) /\ least_globals counterProgram counterFunctions counterBlocks (fun _ => []) G0 G /\
    (forall i f b bb op r, counterFunctions !! i = Some f -> b ∈ _basicBlocks f -> blocks' !! b = Some bb -> op ∈ filtered Unscheduled bb ->
       SrcRegister (mkAccessedRegister r) ∈ _src (_operation op) -> isGlobal counterProgram r = true -> r ∈ G) /\
    (forall i f, counterFunctions !! i = Some f -> exists m, left_of counterBlocks G (_basicBlocks f) blocks' m) /\
    (changed = true <-> exists i f b, counterFunctions !! i = Some f /\ b ∈ _basicBlocks f /\ opsOf blocks' Unscheduled b <> opsOf counterBlocks Unscheduled b) /\
    (forall i f entry tr, counterFunctions !! i = Some f ->
       observations counterProgram (effectOf (liveWith G)) (visibleWith counterProgram G) (forced counterBlocks) (_basicBlocks f) entry (opsOf counterBlocks Unscheduled) tr <->
       observations program' (effectOf (liveWith G)) (visibleWith counterProgram G) (forced blocks') (_basicBlocks f) entry (opsOf blocks' Unscheduled) tr).
Proof.
  split; [vm_compute; reflexivity|]. apply (RemoveUnusedGlobals_correct counterProgram counterFunctions counterBlocks demoFirst (fun _ => []) 9 5 [[1%nat]] [] []).
  - exact counter_ok.
  - split; repeat constructor.
  - exact demo_first.
  - intros [|i] f H; [injection H as <-; cbn; lia|done].
  - cbn. lia.
Defined.

End UnusedGlobals.
