(* ===== verification/BlockValues.v ===== *)
(** * What the registers of a block hold

    In a block that writes every register once and reads none before it is
    written, the destination of an operation on local registers holds its value until
    the end of the block ([value_kept]), whatever other threads do.  So a pass
    that changes operations in place may use the values of earlier operations
    ([edited_reaches]); [blocks_loop] is the loop of such a pass over the blocks of a
    function. *)

From stdpp Require Import functions.
From S2P Require Import Prelude MachineInt Literals Ir Run Semantics Flow LivenessFacts LivenessCorrect ConstProp.
From S2P Require Import FlowPaths ConstPropOps StageSemantics.
Import MachineInt Containers Literals Ir Run Semantics Flow FlowSemantics LivenessFacts LivenessCorrect ConstProp FlowPaths ConstPropEdges ConstPropBlock.

Module BlockValues.

Section Block.
Context (program : Program).
Notation writes := (blockWrites program).

(** Registers other than global ones are written once, and not read before. *)
Record single_assignment (l : list FlowOperation) : Prop := mk_single_assignment {
  sg_once : NoDup (writes l);
  sg_sources : forall k op r, l !! k = Some op -> SrcRegister (mkAccessedRegister r) ∈ _src (_operation op) -> r ∈ writes l -> r ∈ writes (take k l) }.

(** The operation writes only the local register [y] and reads only local registers. *)
Record local_op (op : FlowOperation) (y : nat) : Prop := mk_local_op {
  lo_dst : _dst (_operation op) = [DstRegister (mkAccessedRegister y)];
  lo_local : isGlobal program y = false;
  lo_sources : forall r, SrcRegister (mkAccessedRegister r) ∈ _src (_operation op) -> isGlobal program r = false }.

Lemma local_op_writes op y : local_op op y -> writtenBy program op = [y].
Proof. intros [Hd Hl _]. unfold writtenBy. rewrite Hd. cbn. by rewrite Hl. Qed.

Lemma write_elsewhere op vs σ r : isGlobal program r = false -> r ∉ writtenBy program op -> write (_dst (_operation op)) vs σ r = σ r.
Proof. intros Hg Hr. apply StageSemantics.write_unwritten. intros Hin%StageSemantics.elem_of_writtenRegisters. apply Hr, elem_of_writtenBy. by split. Qed.

Lemma opValue_registers σ σ' op : (forall r, SrcRegister (mkAccessedRegister r) ∈ _src op -> σ' r = σ r) -> opValue program σ' op = opValue program σ op.
Proof.
  intros H. apply opValue_resolve; [done..| |done]. apply list_fmap_ext. intros i o Ho%list_elem_of_lookup_2. destruct o as [l|[r]|f|s]; try done. cbn. by rewrite (H r Ho).
Qed.

Section Single.
Context (l : list FlowOperation) (Hl : single_assignment l).

Lemma later_writes j k opj opk r : l !! j = Some opj -> l !! k = Some opk -> r ∈ writtenBy program opj -> r ∈ writtenBy program opk -> j = k.
Proof.
  revert j k opj opk. assert (Hlt : forall j k opj opk, l !! j = Some opj -> l !! k = Some opk -> r ∈ writtenBy program opj -> r ∈ writtenBy program opk -> (j < k)%nat -> False).
  { intros j k opj opk Hj Hk Hrj Hrk Hlt. destruct Hl as [Hnd _]. rewrite <- (take_drop_middle _ _ _ Hk) in Hnd. unfold blockWrites in Hnd. rewrite fmap_app, concat_app, fmap_cons in Hnd. cbn [concat] in Hnd.
    apply NoDup_app in Hnd as (_ & Hdis & _). apply (Hdis r); [|apply elem_of_app; by left]. apply elem_of_concat. exists (writtenBy program opj). split; [|done].
    apply list_elem_of_fmap. exists opj. split; [done|]. apply list_elem_of_lookup. exists j. by rewrite lookup_take_lt. }
  intros j k opj opk Hj Hk Hrj Hrk. destruct (lt_eq_lt_dec j k) as [[H|]|H]; [exfalso; exact (Hlt j k opj opk Hj Hk Hrj Hrk H)|done|exfalso; exact (Hlt k j opk opj Hk Hj Hrk Hrj H)].
Qed.

Lemma written_take k r : r ∈ writes (take k l) <-> exists j op, (j < k)%nat /\ l !! j = Some op /\ r ∈ writtenBy program op.
Proof.
  rewrite elem_of_blockWrites. split.
  - intros (op & Hop & Hr). apply list_elem_of_lookup in Hop as [j Hj]. apply lookup_take_Some in Hj as [Hj Hlt]. by exists j, op.
  - intros (j & op & Hlt & Hj & Hr). exists op. split; [|done]. apply list_elem_of_lookup. exists j. by rewrite lookup_take_lt.
Qed.

(** A part of the block that no later operation of the block reads or writes too early *)
Lemma single_assignment_middle l1 l2 l3 : l = l1 ++ l2 ++ l3 -> single_assignment l2.
Proof.
  intros Heq. pose proof (sg_once l Hl) as Hnd. rewrite Heq in Hnd. unfold blockWrites in Hnd. rewrite !fmap_app, !concat_app in Hnd. apply NoDup_app in Hnd as (_ & Hdis & Hnd). apply NoDup_app in Hnd as (Hnd2 & _ & _). split; [exact Hnd2|].
  intros k op r Hk Hr Hw. pose proof (lookup_lt_Some _ _ _ Hk) as Hlt. assert (Hk' : l !! (length l1 + k)%nat = Some op) by (rewrite Heq, lookup_app_r, lookup_app_l by lia; rewrite <- Hk; f_equal; lia).
  pose proof (sg_sources l Hl _ op r Hk' Hr) as Hs. rewrite Heq in Hs. rewrite take_app_ge, take_app_le in Hs by lia. replace (length l1 + k - length l1)%nat with k in Hs by lia. unfold blockWrites in Hs. rewrite !fmap_app, !concat_app in Hs.
  destruct (proj1 (elem_of_app _ _ _) (Hs ltac:(apply elem_of_app; right; apply elem_of_app; by left))) as [H1|H1]; [|done]. exfalso. apply (Hdis r H1). apply elem_of_app. by left.
Qed.

(** From an operation on, nothing writes what it has read. *)
Lemma source_kept j k opj opk r : l !! j = Some opj -> l !! k = Some opk -> (j <= k)%nat -> SrcRegister (mkAccessedRegister r) ∈ _src (_operation opj) -> r ∉ writtenBy program opk.
Proof.
  intros Hj Hk Hle Hr Hw. destruct (proj1 (written_take j r) (sg_sources l Hl j opj r Hj Hr ltac:(apply elem_of_blockWrites; exists opk; split; [by eapply list_elem_of_lookup_2|done]))) as (i & opi & Hi & Hopi & Hwi).
  pose proof (later_writes i k opi opk r Hopi Hk Hwi Hw). lia.
Qed.
End Single.

(** ** Executions *)

Context (globals : gmap nat GlobalDesc) (members : list nat) (entry : nat -> Prop) (ops : nat -> list FlowOperation).
Context (Hops : forall b, b ∈ members -> single_assignment (ops b)).

Lemma value_kept tr b k σ : reaches program globals members entry ops tr b k σ ->
  forall j op y, (j < k)%nat -> ops b !! j = Some op -> local_op op y -> (forall τ, is_Some (opValue program τ (_operation op))) -> opValue program σ (_operation op) = Some (σ y).
Proof.
  induction 1 as [b σ Hb He Hc|tr b k σ σ' Hr IH Hi Hc|tr b k σ op vs Hr IH Hk Hvs|tr b k σ op s σ' Hr IH Hk Hs Hm Hp Hc]; intros j opj y Hlt Hj Hlo Hv; [lia| | |lia].
  - rewrite (Hi y) by apply Hlo. rewrite <- (IH j opj y Hlt Hj Hlo Hv). apply opValue_registers. intros r Hin. apply Hi. by apply Hlo.
  - pose proof (Hops b (reaches_member _ _ _ _ _ _ _ _ _ Hr)) as Hsb. assert (Hsrc : forall r, SrcRegister (mkAccessedRegister r) ∈ _src (_operation opj) -> write (_dst (_operation op)) vs σ r = σ r).
    { intros r Hin. apply write_elsewhere; [by apply Hlo|]. eapply (source_kept (ops b) Hsb j k opj op r); (done || lia). }
    rewrite (opValue_registers _ _ _ Hsrc). destruct (decide (j = k)) as [->|Hne].
    + rewrite Hj in Hk. injection Hk as <-. destruct (Hv σ) as [v Ev]. destruct Hvs as [_ Hvs]. rewrite (Hvs v Ev), (lo_dst _ _ Hlo), Ev. cbn. unfold writeOne. cbn. by rewrite fn_lookup_insert.
    + rewrite (IH j opj y ltac:(lia) Hj Hlo Hv). f_equal. symmetry. apply write_elsewhere; [apply Hlo|]. intros Hw. assert (Hyj : y ∈ writtenBy program opj) by (rewrite (local_op_writes _ _ Hlo); by left).
      pose proof (later_writes (ops b) Hsb j k opj op y Hj Hk Hyj Hw). done.
Qed.

(** ** Operations that are changed in place *)

(** The local operations before position [k] have left their values. *)
Definition kept (l : list FlowOperation) (k : nat) (σ : nat -> Z) : Prop :=
  forall j op y, (j < k)%nat -> l !! j = Some op -> local_op op y -> (forall τ, is_Some (opValue program τ (_operation op))) -> opValue program σ (_operation op) = Some (σ y).

Lemma kept_mono l j k σ : (j <= k)%nat -> kept l k σ -> kept l j σ.
Proof. intros Hle H i op y Hi. apply H. lia. Qed.

(** Where the earlier operations have left their values, each operation does what it did. *)
Definition edited (l l' : list FlowOperation) : Prop :=
  length l' = length l /\ forall k op op', l !! k = Some op -> l' !! k = Some op' -> does_same program (kept l k) op op'.

Lemma does_same_refl P op : does_same program P op op.
Proof. by split. Qed.

Lemma does_same_weaken (P Q : (nat -> Z) -> Prop) op op' : (forall σ, Q σ -> P σ) -> does_same program P op op' -> does_same program Q op op'.
Proof. intros H [S1 S2 S3 S4 S5]. split; auto. Qed.

Lemma does_same_value (P : (nat -> Z) -> Prop) op op' : _dst (_operation op') = _dst (_operation op) -> _getSuccessorBlock op' = _getSuccessorBlock op -> (_getSuccessorBlock op <> None -> _renamingTable op' = _renamingTable op) ->
  CanOpcodeBeLoweredToLut (_opcode (_operation op)) = true -> CanOpcodeBeLoweredToLut (_opcode (_operation op')) = true ->
  (forall σ, P σ -> opValue program σ (_operation op') = opValue program σ (_operation op)) -> does_same program P op op'.
Proof.
  intros Hd Hs Hr Hl Hl' Hv. split; [done..| |].
  - intros σ vs HP. unfold results_of. by rewrite (Hv σ HP), Hd.
  - intros σ vs HP. unfold observe. by rewrite Hl, Hl', Hd.
Qed.
End Block.

Section Function_.
Context (program : Program) (functions : list FlowFunction) (blocks : gmap nat FlowBlock) (fi : nat) (members : list nat).
Context (Hok : function_ok program functions blocks fi Unscheduled members).
Notation ops b := (opsOf blocks Unscheduled b).

(** The pass changes operations between the start condition and the stages. *)
Record edited_block (bb bb' : FlowBlock) : Prop := mk_edited_block {
  eb_operations : edited program (_operations bb) (_operations bb');
  eb_start : _startConditionOperations bb' = _startConditionOperations bb;
  eb_stages : _stages bb' = _stages bb }.

Lemma operationsOf_split bb : operationsOf Unscheduled bb = _startConditionOperations bb ++ _operations bb ++ concat (_stages bb).
Proof. unfold operationsOf. by rewrite <- app_assoc. Qed.

(** [f] changes one block and sets the flag if it did; if [E] it sets the flag for no
    other reason. *)
Lemma blocks_loop_flag (E : Prop) (R : FlowBlock -> FlowBlock -> Prop) (f : FlowBlock -> bool -> result (FlowBlock * bool)) :
  (forall b bb ch, b ∈ members -> blocks !! b = Some bb -> exists bb' ch', f bb ch = Ok (bb', ch') /\ R bb bb' /\ (ch = true \/ operationsOf Unscheduled bb' <> operationsOf Unscheduled bb -> ch' = true) /\
    (E -> ch' = true -> ch = true \/ operationsOf Unscheduled bb' <> operationsOf Unscheduled bb)) ->
  exists blocks' changed, foldM (fun st b => bb ← blockAt st.1 b; '(bb, ch) ← f bb st.2; Ok (<[b := bb]> st.1, ch)) members (blocks, false) = Ok (blocks', changed) /\
    (forall b, b ∈ members -> exists bb bb', blocks !! b = Some bb /\ blocks' !! b = Some bb' /\ R bb bb') /\ (forall b, b ∉ members -> blocks' !! b = blocks !! b) /\
    ((exists b, b ∈ members /\ opsOf blocks' Unscheduled b <> ops b) -> changed = true) /\ (E -> changed = true -> exists b, b ∈ members /\ opsOf blocks' Unscheduled b <> ops b).
Proof.
  intros Hf. assert (Hgen : forall l (bs : gmap nat FlowBlock) ch, NoDup l -> (forall b, b ∈ l -> b ∈ members /\ bs !! b = blocks !! b) ->
    exists bs' ch', foldM (fun st b => bb ← blockAt st.1 b; '(bb, ch) ← f bb st.2; Ok (<[b := bb]> st.1, ch)) l (bs, ch) = Ok (bs', ch') /\
      (forall b, b ∈ l -> exists bb bb', blocks !! b = Some bb /\ bs' !! b = Some bb' /\ R bb bb') /\ (forall b, b ∉ l -> bs' !! b = bs !! b) /\
      (ch = true \/ (exists b, b ∈ l /\ opsOf bs' Unscheduled b <> ops b) -> ch' = true) /\ (E -> ch' = true -> ch = true \/ exists b, b ∈ l /\ opsOf bs' Unscheduled b <> ops b)).
  - induction l as [|b l IH]; intros bs ch Hnd Hl.
    + exists bs, ch. split_and!; [done|by intros b ?%not_elem_of_nil|done| |by left]. intros [?|(b & ?%not_elem_of_nil & _)]; done.
    + apply NoDup_cons in Hnd as [Hni Hnd]. destruct (Hl b ltac:(by left)) as [Hb Hbs]. destruct (fo_block _ _ _ _ _ _ Hok b Hb) as (bb & Hbb & _). cbn [foldM fst snd].
      assert (Hbat : blockAt bs b = Ok bb) by (unfold blockAt; by rewrite Hbs, Hbb). rewrite Hbat. cbn [mbind result_bind]. destruct (Hf b bb ch Hb Hbb) as (bb' & ch1 & -> & Hblock & H1 & H2). cbn [mbind result_bind].
      destruct (IH (<[b := bb']> bs) ch1 Hnd) as (bs' & ch' & Hrun & R1 & R2 & R3 & R4).
      * intros c Hc. destruct (Hl c ltac:(by right)) as [? ?]. split; [done|]. by rewrite lookup_insert_ne by (intros ->; done).
      * exists bs', ch'. assert (Hat : bs' !! b = Some bb') by (rewrite R2 by done; by rewrite lookup_insert_eq).
        assert (Hb' : opsOf bs' Unscheduled b = operationsOf Unscheduled bb') by (unfold opsOf; by rewrite Hat). assert (Hb0 : ops b = operationsOf Unscheduled bb) by (unfold opsOf; by rewrite Hbb). rewrite <- Hb', <- Hb0 in H1, H2. split_and!; [exact Hrun| | | |].
        -- intros c [->|Hc]%elem_of_cons; [by exists bb, bb'|by apply R1].
        -- intros c Hc. apply not_elem_of_cons in Hc as [Hne Hc]. rewrite R2 by done. by rewrite lookup_insert_ne.
        -- intros [?|(c & [->|Hc]%elem_of_cons & Hne)]; apply R3; [left; apply H1; by left|left; apply H1; by right|right; by exists c].
        -- intros HE Ht. destruct (R4 HE Ht) as [Ht1|(c & Hc & Hne)]; [|right; exists c; by split; [right|]]. destruct (H2 HE Ht1) as [?|Hne]; [by left|right; exists b; by split; [left|]].
  - destruct (Hgen members blocks false (fo_nodup _ _ _ _ _ _ Hok)) as (bs' & ch' & Hrun & R1 & R2 & R3 & R4); [done|]. exists bs', ch'. split_and!; [exact Hrun|exact R1|exact R2|intros H; apply R3; by right|]. intros HE Ht. by destruct (R4 HE Ht).
Qed.

(** [f] changes one block and tells whether it did. *)
Lemma blocks_loop (R : FlowBlock -> FlowBlock -> Prop) (f : FlowBlock -> bool -> result (FlowBlock * bool)) :
  (forall b bb ch, b ∈ members -> blocks !! b = Some bb -> exists bb' ch', f bb ch = Ok (bb', ch') /\ R bb bb' /\ (ch' = true <-> ch = true \/ operationsOf Unscheduled bb' <> operationsOf Unscheduled bb)) ->
  exists blocks' changed, foldM (fun st b => bb ← blockAt st.1 b; '(bb, ch) ← f bb st.2; Ok (<[b := bb]> st.1, ch)) members (blocks, false) = Ok (blocks', changed) /\
    (forall b, b ∈ members -> exists bb bb', blocks !! b = Some bb /\ blocks' !! b = Some bb' /\ R bb bb') /\ (forall b, b ∉ members -> blocks' !! b = blocks !! b) /\
    (changed = true <-> exists b, b ∈ members /\ opsOf blocks' Unscheduled b <> ops b).
Proof.
  intros Hf. destruct (blocks_loop_flag True R f) as (blocks' & changed & Hrun & R1 & R2 & R3 & R4).
  - intros b bb ch Hb Hbb. destruct (Hf b bb ch Hb Hbb) as (bb' & ch' & H1 & H2 & H3 & H4). by exists bb', ch'.
  - exists blocks', changed. split_and!; [exact Hrun|exact R1|exact R2|]. split; [by apply R4|exact R3].
Qed.

(** Whether a block has changed is whether its operations have. *)
Lemma operationsOf_changed bb bb' : _startConditionOperations bb' = _startConditionOperations bb -> _stages bb' = _stages bb ->
  operationsOf Unscheduled bb' <> operationsOf Unscheduled bb <-> _operations bb' <> _operations bb.
Proof. intros Hs Ht. rewrite !operationsOf_split, Hs, Ht. split; intros Hne Heq; apply Hne; [by rewrite Heq|]. by apply app_inv_head, app_inv_tail in Heq. Qed.

Context (Hsa : forall b, b ∈ members -> single_assignment program (ops b)).

Lemma reachable_kept globals entry tr b bb k σ : reaches program globals members entry (opsOf blocks Unscheduled) tr b (length (_startConditionOperations bb) + k) σ -> blocks !! b = Some bb -> (k <= length (_operations bb))%nat -> kept program (_operations bb) k σ.
Proof.
  intros Hr Hbb Hk j op y Hlt Hj Hlo Hv. eapply (value_kept program globals members entry (opsOf blocks Unscheduled) Hsa _ _ _ _ Hr (length (_startConditionOperations bb) + j)%nat); [lia| |done|done].
  unfold opsOf. rewrite Hbb, operationsOf_split, lookup_app_r, lookup_app_l by lia. rewrite <- Hj. f_equal. lia.
Qed.

Lemma edited_reaches blocks' : (forall b, b ∈ members -> exists bb bb', blocks !! b = Some bb /\ blocks' !! b = Some bb' /\ edited_block bb bb') ->
  forall globals entry tr b k σ, reaches program globals members entry (opsOf blocks Unscheduled) tr b k σ <-> reaches program globals members entry (opsOf blocks' Unscheduled) tr b k σ.
Proof.
  intros Hed globals entry tr b k σ. apply reaches_congruence; [done| |].
  - intros c Hc. destruct (Hed c Hc) as (bb & bb' & Hbb & Hbb' & [[Hlen _] Hs Ht]). unfold opsOf. by rewrite Hbb, Hbb', !operationsOf_split, !length_app, Hs, Ht, Hlen.
  - intros c j op op' Hc Hj Hj'. destruct (Hed c Hc) as (bb & bb' & Hbb & Hbb' & [[Hlen Hsame] Hs Ht]). unfold opsOf in Hj, Hj'. rewrite Hbb, operationsOf_split in Hj. rewrite Hbb', operationsOf_split, Hs, Ht in Hj'.
    apply lookup_app_Some in Hj as [Hj|[Hge Hj]]; [rewrite lookup_app_l in Hj' by (by eapply lookup_lt_Some); rewrite Hj in Hj'; injection Hj' as <-; apply does_same_refl|].
    rewrite lookup_app_r in Hj' by lia. apply lookup_app_Some in Hj as [Hj|[Hge2 Hj]]; [|rewrite lookup_app_r, Hlen, Hj in Hj' by lia; injection Hj' as <-; apply does_same_refl].
    pose proof (lookup_lt_Some _ _ _ Hj) as Hlt. rewrite lookup_app_l in Hj' by lia. eapply does_same_weaken; [|by apply (Hsame _ op op' Hj Hj')]. intros τ [tr' Hτ].
    apply (reachable_kept globals entry tr' c bb (j - length (_startConditionOperations bb))%nat τ); [|done|lia]. by rewrite <- Nat.le_add_sub by lia.
Qed.
End Function_.

(** ** Functions of one block, checked by evaluation *)

Section OneBlock.
Context (program : Program).

Definition in_table (r : AccessedRegister) : bool := (_registerIndex r <? numRegisters program)%nat.

(** An operation without a successor *)
Definition plain_op (op : FlowOperation) : bool :=
  bool_decide (_getSuccessorBlock op = None) && bool_decide (_renamingTable op = ∅) &&
  forallb (fun o => match o with SrcRegister r => in_table r | _ => true end) (_src (_operation op)) &&
  forallb (fun d => match d with DstRegister r => in_table r | DstFifo _ => true end) (_dst (_operation op)).

Definition read_in_order (l : list FlowOperation) (k : nat) (o : SourceOperand) : bool :=
  match o with SrcRegister r => bool_decide (_registerIndex r ∉ blockWrites program l) || bool_decide (_registerIndex r ∈ blockWrites program (take k l)) | _ => true end.

Definition single_assignmentb (l : list FlowOperation) : bool :=
  bool_decide (NoDup (blockWrites program l)) &&
  forallb (fun k => match l !! k with Some op => forallb (read_in_order l k) (_src (_operation op)) | None => true end) (seq 0 (length l)).

Lemma single_assignmentb_sound l : single_assignmentb l = true -> single_assignment program l.
Proof.
  intros [Hnd%bool_decide_eq_true Hall]%andb_true_iff. split; [done|]. intros k op r Hk Hr Hw. rewrite forallb_forall in Hall. specialize (Hall k ltac:(apply in_seq; apply lookup_lt_Some in Hk; lia)). rewrite Hk, forallb_forall in Hall.
  specialize (Hall _ (proj1 (list_elem_of_In _ _) Hr)). cbn in Hall. apply orb_true_iff in Hall as [Hn%bool_decide_eq_true|Ht%bool_decide_eq_true]; done.
Qed.

Definition oneBlock (l : list FlowOperation) : gmap nat FlowBlock := {[0%nat := mkFlowBlock [] l [] 0 [] [] [] None]}.

Lemma oneBlock_ops l b : b ∈ [0%nat] -> opsOf (oneBlock l) Unscheduled b = l.
Proof. intros ->%list_elem_of_singleton. unfold opsOf, oneBlock. rewrite lookup_singleton_eq. cbn. by rewrite app_nil_r. Qed.

Lemma oneBlock_function l : forallb plain_op l = true -> function_ok program demoFunctions (oneBlock l) 0 Unscheduled [0%nat].
Proof.
  intros Hall. rewrite forallb_forall in Hall. assert (Hplain : forall op, op ∈ l -> _getSuccessorBlock op = None /\ op_ok program demoFunctions (oneBlock l) op).
  { intros op Hop%list_elem_of_In. specialize (Hall op Hop). unfold plain_op in Hall. apply andb_true_iff in Hall as [[[Hs%bool_decide_eq_true Ht%bool_decide_eq_true]%andb_true_iff Hsrc]%andb_true_iff Hdst]. split; [done|]. rewrite forallb_forall in Hsrc, Hdst. split.
    - intros r Hr. specialize (Hsrc _ (proj1 (list_elem_of_In _ _) Hr)). by apply Nat.ltb_lt.
    - intros r Hr. specialize (Hdst _ (proj1 (list_elem_of_In _ _) Hr)). by apply Nat.ltb_lt.
    - intros o r. by rewrite Ht, lookup_empty.
    - by rewrite Hs. }
  constructor.
  - apply NoDup_singleton.
  - intros b ->%list_elem_of_singleton. eexists. split; [apply lookup_singleton_eq|]. split; [done|]. cbn. rewrite app_nil_r. apply Forall_forall. intros op Hop. by apply Hplain.
  - intros b bb op s block ->%list_elem_of_singleton Hbb Hop Hs _. unfold oneBlock in Hbb. rewrite lookup_singleton_eq in Hbb. injection Hbb as <-. cbn in Hop. rewrite app_nil_r in Hop. destruct (Hplain op Hop) as [Hn _]. congruence.
Qed.
End OneBlock.

End BlockValues.
