(* ===== verification/CommonSubexpressions.v ===== *)
(** * Common subexpressions

    [optimize.cpp]: [OperationHash], [LutOperationsProduceSameResult],
    [OperationsProduceSameResult] and [CommonSubexpressionElimination], which turns
    an operation that computes what an earlier operation of its block has computed
    into a move.

    A pointer to an operation of a block is its position in the block.  The two
    instances of [boost::hash_combine], on [mp_int] and on [size_t], are parameters. *)

From S2P Require Import Prelude MachineInt Literals Ir Flow Opcodes Decompose.
Import MachineInt Containers Literals Ir Flow Opcodes Decompose.

Module CommonSubexpressions.

(** ** [SourceOperand::operator<] *)

Definition Literal_less (a b : Literal) : bool := (_value a <? _value b) || ((_value a =? _value b) && (_width a <? _width b)).

Definition FifoSubset_less (a b : FifoSubset) : bool :=
  (_fifoRegisterIndex a <? _fifoRegisterIndex b)%nat ||
  ((_fifoRegisterIndex a =? _fifoRegisterIndex b)%nat && ((_offset a <? _offset b) || ((_offset a =? _offset b) && (_fifoWidth a <? _fifoWidth b)))).

(** [SourceOperandType], in the order of the enumeration *)
Definition operandType (o : SourceOperand) : nat :=
  match o with SrcLiteral _ => 0 | SrcRegister _ => 1 | SrcFifo _ => 2 | SrcStringLiteral _ => 3 end.

Definition SourceOperand_less (a b : SourceOperand) : bool :=
  if (operandType a <? operandType b)%nat then true
  else if (operandType b <? operandType a)%nat then false
  else match a, b with
       | SrcRegister r, SrcRegister r' => (_registerIndex r <? _registerIndex r')%nat
       | SrcLiteral l, SrcLiteral l' => Literal_less l l'
       | SrcFifo f, SrcFifo f' => FifoSubset_less f f'
       | SrcStringLiteral s, SrcStringLiteral s' => String.ltb s s'
       | _, _ => false
       end.

(** ** [OperationHash] *)

Section Hash.
Context (combine_mp_int combine_size_t : Z -> Z -> Z).

Definition hashOperand (currHashValue : Z) (src : SourceOperand) : result Z :=
  match src with
  | SrcLiteral l => Ok (combine_mp_int currHashValue (_value l))
  | SrcRegister r => Ok (combine_size_t currHashValue (Z.of_nat (_registerIndex r)))
  | SrcFifo f => Ok (combine_size_t currHashValue (Z.of_nat (_fifoRegisterIndex f)))
  | SrcStringLiteral _ => Err AssertionFailed
  end.

Definition hashOperands (srcOperands : list SourceOperand) (currHashValue : Z) : result Z := foldM hashOperand srcOperands currHashValue.

Definition OperationHash (op : Operation) : result Z :=
  let result := Z.of_nat (opcodeIndex (opcodeTag (_opcode op))) in
  match _opcode op with
  | LutOp lut =>
      let sorted := merge_sort (fun a b => Is_true (negb (SourceOperand_less b a))) (_src op) in
      result ← hashOperands sorted result;
      Ok (fold_left (fun result le => combine_size_t result (Z.of_nat (_numSources le))) (_lutEntries lut) result)
  | _ => hashOperands (_src op) result
  end.

(** ** [LutOperationsProduceSameResult] *)

Definition getRegAndBit (op : Operation) (le : LutEntry) (sourceIndex : nat) : result (nat * Z) :=
  assert_ (sourceIndex <? c_maxLutSources)%nat;;
  index ← at_ (_sourceIndices le) sourceIndex;
  o ← at_ (_src op) index;
  r ← GetAccessedRegister o;
  bit ← at_ (_sourceBit le) sourceIndex;
  Ok (_registerIndex r, bit).

(** The loop over [sourceIndex2]: the last position found, if any *)
Definition findRegAndBit (op2 : Operation) (le2 : LutEntry) (numSources : nat) (regAndBit1 : nat * Z) : result (option nat) :=
  foldM (fun found sourceIndex2 =>
      regAndBit2 ← getRegAndBit op2 le2 sourceIndex2;
      if bool_decide (regAndBit1 = regAndBit2) then assert_ (bool_decide (found = None));; Ok (Some sourceIndex2) else Ok found)
    (seq 0 numSources) None.

(** [operandMap], or [None] if a source bit has no equivalent *)
Definition buildOperandMap (op1 op2 : Operation) (le1 le2 : LutEntry) : result (option (list nat)) :=
  foldM (fun operandMap sourceIndex1 =>
      match operandMap with
      | None => Ok None
      | Some operandMap =>
          regAndBit1 ← getRegAndBit op1 le1 sourceIndex1;
          found ← findRegAndBit op2 le2 (_numSources le1) regAndBit1;
          Ok (option_map (fun sourceIndex2 => <[sourceIndex1 := sourceIndex2]> operandMap) found)
      end)
    (seq 0 (_numSources le1)) (Some (replicate c_maxLutSources 0%nat)).

Definition mappedRow (numSources : nat) (operandMap : list nat) (truthTableRow1 : Z) : result Z :=
  foldM (fun truthTableRow2 sourceIndex1 =>
      if negb (Z.land (Z.shiftr truthTableRow1 (Z.of_nat sourceIndex1)) 1 =? 0)
      then sourceIndex2 ← at_ operandMap sourceIndex1; Ok (Z.lor truthTableRow2 (u64_shl 1 (Z.of_nat sourceIndex2)))
      else Ok truthTableRow2)
    (seq 0 numSources) 0.

Definition sameRow (le1 le2 : LutEntry) (operandMap : list nat) (truthTableRow1 : Z) : result bool :=
  truthTableRow2 ← mappedRow (_numSources le1) operandMap truthTableRow1;
  entry1 ← GetTableEntry le1 truthTableRow1;
  entry2 ← GetTableEntry le2 truthTableRow2;
  Ok (Bool.eqb entry1 entry2).

Definition sameEntry (op1 op2 : Operation) (lut1 lut2 : Lut) (destIndex : nat) : result bool :=
  le1 ← at_ (_lutEntries lut1) destIndex;
  le2 ← at_ (_lutEntries lut2) destIndex;
  if negb (_numSources le1 =? _numSources le2)%nat then Ok false
  else
    tableSize ← TableSize le1;
    operandMap ← buildOperandMap op1 op2 le1 le2;
    match operandMap with
    | None => Ok false
    | Some operandMap => allM (sameRow le1 le2 operandMap) (seqZ 0 tableSize)
    end.

Definition LutOperationsProduceSameResult (op1 op2 : Operation) (lut1 lut2 : Lut) : result bool :=
  assert_ (_signExtendSourceMask op1 =? 0);;
  assert_ (_signExtendSourceMask op2 =? 0);;
  if negb (_numDestinationBits lut1 =? _numDestinationBits lut2)%nat then Ok false
  else allM (sameEntry op1 op2 lut1 lut2) (seq 0 (_numDestinationBits lut1)).

(** ** [OperationsProduceSameResult] *)

#[export] Instance GatherEntry_eq_dec : EqDecision GatherEntry.
Proof. solve_decision. Defined.

(** The [switch] on the opcode *)
Definition sameFlags (opcode1 opcode2 : Opcode) : result bool :=
  match opcode1, opcode2 with
  | Mov, Mov | Select, Select => Ok true
  | UnaryOp t1, UnaryOp t2 => Ok (bool_decide (t1 = t2))
  | BinaryOp t1, BinaryOp t2 => Ok (bool_decide (t1 = t2))
  | Gather entries1, Gather entries2 => Ok (bool_decide (entries1 = entries2))
  | _, _ => Err AssertionFailed
  end.

Definition sameSource (op1 op2 : Operation) (i : nat) : result bool :=
  src1 ← at_ (_src op1) i;
  src2 ← at_ (_src op2) i;
  if negb (operandType src1 =? operandType src2)%nat then Ok false
  else match src1 with SrcStringLiteral _ => Err AssertionFailed | _ => Ok (bool_decide (src1 = src2)) end.

Definition sameWidth (program : Program) (op1 op2 : Operation) (i : nat) : result bool :=
  dst1 ← at_ (_dst op1) i;
  dst2 ← at_ (_dst op2) i;
  w1 ← DestinationOperand_Width program dst1;
  w2 ← DestinationOperand_Width program dst2;
  Ok (w1 =? w2).

Definition OperationsProduceSameResult (program : Program) (op1 op2 : Operation) : result bool :=
  if negb (bool_decide (opcodeTag (_opcode op1) = opcodeTag (_opcode op2))) then Ok false
  else if negb (length (_src op1) =? length (_src op2))%nat then Ok false
  else if negb (length (_dst op1) =? length (_dst op2))%nat then Ok false
  else
    widths ← allM (sameWidth program op1 op2) (seq 0 (length (_dst op1)));
    if negb widths then Ok false
    else match _opcode op1, _opcode op2 with
         | LutOp lut1, LutOp lut2 => LutOperationsProduceSameResult op1 op2 lut1 lut2
         | opcode1, opcode2 =>
             if negb (_signExtendSourceMask op1 =? _signExtendSourceMask op2) then Ok false
             else
               flags ← sameFlags opcode1 opcode2;
               if negb flags then Ok false else allM (sameSource op1 op2) (seq 0 (length (_src op1)))
         end.

(** ** [CommonSubexpressionElimination] *)

Context (transformLuts : bool).

Definition isLut (opcode : Opcode) : bool := match opcode with LutOp _ => true | _ => false end.

Definition doesOpSupportCSE (program : Program) (op : Operation) : result bool :=
  supported ← DoesOpcodeSupportCommonSubexpressionElimination (_opcode op);
  if negb supported then Ok false
  else if isLut (_opcode op) && negb transformLuts then Ok false
  else
    useless ← (match _opcode op with
               | Mov =>
                   d ← at_ (_dst op) 0;
                   s ← at_ (_src op) 0;
                   dstWidth ← DestinationOperand_Width program d;
                   srcWidth ← SourceOperand_Width program s;
                   Ok ((dstWidth =? srcWidth) || negb (isRegister s))
               | _ => Ok false
               end);
    if useless : bool then Ok false else OperationUsesOnlyLocalReg program op.

(** [Union(op._locations, locations)] *)
Definition addLocations (op : FlowOperation) (locations : gset FileAndLineNumber) : FlowOperation :=
  let o := _operation op in
  mkFlowOperation (mkOperation (_opcode o) (_signExtendSourceMask o) (_locations o ∪ locations) (_src o) (_dst o))
    (_getSuccessorBlock op) (_renamingTable op) (_reverseRenamingTable op) (_isContextSaverCaller op).

Record CseState : Type := mkCseState { _operationMap : gmap Z (list nat); _cseOperations : list FlowOperation; _didChangeIR : bool }.

(** One operation of a block *)
Definition cseOperation (program : Program) (st : CseState) (i : nat) : result CseState :=
  op ← at_ (_cseOperations st) i;
  let o := _operation op in
  match _dst o with
  | [DstRegister dst] =>
      supported ← doesOpSupportCSE program o;
      if negb supported then Ok st
      else
        hash ← OperationHash o;
        let candidateList := default [] (_operationMap st !! hash) in
        candidate ← findM (fun candidate => c ← at_ (_cseOperations st) candidate; OperationsProduceSameResult program o (_operation c)) candidateList;
        match candidate with
        | Some candidate =>
            c ← at_ (_cseOperations st) candidate;
            d ← at_ (_dst (_operation c)) 0;
            result ← destinationRegister d;
            let newOp := mkFlowOperation (mkOperation Mov 0 (_locations o) [SrcRegister result] [DstRegister dst]) None ∅ ∅ false in
            Ok (mkCseState (<[hash := candidateList]> (_operationMap st)) (<[i := newOp]> (<[candidate := addLocations c (_locations o)]> (_cseOperations st))) true)
        | None => Ok (mkCseState (<[hash := candidateList ++ [i]]> (_operationMap st)) (_cseOperations st) (_didChangeIR st))
        end
  | _ => Ok st
  end.

Definition cseBlock (program : Program) (basicBlock : FlowBlock) (didChangeIR : bool) : result (FlowBlock * bool) :=
  st ← foldM (cseOperation program) (seq 0 (length (_operations basicBlock))) (mkCseState ∅ (_operations basicBlock) didChangeIR);
  Ok (mkFlowBlock (_startConditionOperations basicBlock) (_cseOperations st) (_stages basicBlock) (_function basicBlock) (_liveInReg basicBlock)
        (_returnValueReg basicBlock) (_forcedDeadInReg basicBlock) (_invocationInstanceRegisterIndex basicBlock), _didChangeIR st).

(** [function._basicBlocks] are [members]. *)
Definition CommonSubexpressionElimination (program : Program) (blocks : gmap nat FlowBlock) (members : list nat) : result (gmap nat FlowBlock * bool) :=
  foldM (fun st b => basicBlock ← blockAt st.1 b; '(basicBlock, didChangeIR) ← cseBlock program basicBlock st.2; Ok (<[b := basicBlock]> st.1, didChangeIR))
    members (blocks, false).
End Hash.

End CommonSubexpressions.
