(* ===== verification/CseFacts.v ===== *)
(** * Common subexpressions: operations that produce the same result

    When [OperationsProduceSameResult] returns true, the operations have the same
    value whatever the registers hold ([OperationsProduceSameResult_eq]); for
    look-up tables because the map between their columns is a bijection that leads
    each row of one table to the same value in the other ([sameEntry_eq]).
    Operations that are not look-up tables have the same hash then
    ([OperationHash_same]). *)

From S2P Require Import Prelude MachineInt Literals Ir Semantics LutOpt LutFacts LutLowerFacts Flow LivenessFacts Opcodes.
From S2P Require Import Decompose Decompositions CommonSubexpressions.
Import MachineInt Containers Literals Ir Semantics LutOpt LutFacts LutCofactor Flow FlowSemantics LivenessFacts Opcodes Decompose DecomposeSelect CommonSubexpressions.

Module CseFacts.

(** ** Look-up tables *)

(** The register and the bit that a column selects *)
Definition registerBit (op : Operation) (c : nat * Z) : nat * Z := (match _src op !! c.1 with Some (SrcRegister r) => _registerIndex r | _ => 0%nat end, c.2).
Definition registerBits (op : Operation) (e : LutEntry) : list (nat * Z) := registerBit op <$> columns e.

(** The columns of an entry select different bits of registers. *)
Record cse_entry (op : Operation) (e : LutEntry) : Prop := mk_cse_entry {
  ce_wf : entry_wf e;
  ce_registers : Forall (fun c => exists r, _src op !! c.1 = Some (SrcRegister r)) (columns e);
  ce_distinct : NoDup (registerBits op e) }.

Lemma length_registerBits op e : entry_wf e -> length (registerBits op e) = _numSources e.
Proof. intros H. unfold registerBits. by rewrite length_fmap, length_columns. Qed.

Lemma getRegAndBit_eq op e i p : cse_entry op e -> registerBits op e !! i = Some p -> getRegAndBit op e i = Ok p.
Proof.
  intros [Hwf Hr _] Hi. unfold registerBits in Hi. rewrite list_lookup_fmap in Hi. destruct (columns e !! i) as [c|] eqn:Hc; [|done]. injection Hi as <-.
  pose proof (lookup_lt_Some _ _ _ Hc) as Hlt. rewrite length_columns in Hlt by done. destruct Hwf as (Hn & _). unfold getRegAndBit. rewrite assert_true by (apply Nat.ltb_lt; lia). cbn [mbind result_bind].
  pose proof (column_Ok e i c Hc) as Hcol. unfold column in Hcol. ok_inv. rewrite (at_Some _ _ _ H), (at_Some _ _ _ H0). cbn [mbind result_bind fst snd].
  destruct (Forall_lookup_1 _ _ _ _ Hr Hc) as [r Hs]. cbn [fst] in Hs. unfold registerBit. cbn [fst snd]. rewrite (at_Some _ _ _ Hs), Hs. cbn. done.
Qed.

Lemma findRegAndBit_eq op e p : cse_entry op e ->
  exists found, findRegAndBit op e (_numSources e) p = Ok found /\ match found with Some j => registerBits op e !! j = Some p | None => p ∉ registerBits op e end.
Proof.
  intros He. set (l := registerBits op e). unfold findRegAndBit.
  destruct (foldM_seq_inv (fun found sourceIndex2 => regAndBit2 ← getRegAndBit op e sourceIndex2; if bool_decide (p = regAndBit2) then assert_ (bool_decide (found = None));; Ok (Some sourceIndex2) else Ok found)
    (fun k found => match found with Some j => (j < k)%nat /\ l !! j = Some p | None => p ∉ take k l end) (_numSources e) None) as (found & -> & H).
  - by intros ?%not_elem_of_nil.
  - intros k found Hk Hf. assert (Hlen : length l = _numSources e) by (apply length_registerBits, He). destruct (lookup_lt_is_Some_2 l k) as [q Hq]; [lia|].
    rewrite (getRegAndBit_eq op e k q He Hq). cbn [mbind result_bind]. case_bool_decide as Heq.
    + subst q. destruct found as [j|].
      * destruct Hf as [Hj Hl]. pose proof (NoDup_lookup _ _ _ _ (ce_distinct _ _ He) Hl Hq). lia.
      * exists (Some k). split; [done|]. split; [lia|done].
    + exists found. split; [done|]. destruct found as [j|]; [destruct Hf; split; [lia|done]|]. rewrite (take_S_r _ _ _ Hq). intros [H|H%list_elem_of_singleton]%elem_of_app; done.
  - exists found. split; [done|]. destruct found as [j|]; [apply H|]. by rewrite take_ge in H by (rewrite <- (length_registerBits op e) by apply He; done).
Qed.

(** What [operandMap] is *)
Definition maps_bits (l1 l2 : list (nat * Z)) (m : list nat) (k : nat) : Prop :=
  length m = c_maxLutSources /\ forall i p, (i < k)%nat -> l1 !! i = Some p -> exists j, m !! i = Some j /\ l2 !! j = Some p.

Lemma buildOperandMap_eq op1 op2 e1 e2 : cse_entry op1 e1 -> cse_entry op2 e2 -> _numSources e1 = _numSources e2 ->
  exists om, buildOperandMap op1 op2 e1 e2 = Ok om /\ match om with Some m => maps_bits (registerBits op1 e1) (registerBits op2 e2) m (_numSources e1) | None => True end.
Proof.
  intros H1 H2 Hn. unfold buildOperandMap. destruct (foldM_seq_inv (fun operandMap sourceIndex1 =>
      match operandMap with
      | None => Ok None
      | Some operandMap =>
          regAndBit1 ← getRegAndBit op1 e1 sourceIndex1;
          found ← findRegAndBit op2 e2 (_numSources e1) regAndBit1;
          Ok (option_map (fun sourceIndex2 => <[sourceIndex1 := sourceIndex2]> operandMap) found)
      end) (fun k om => match om with Some m => maps_bits (registerBits op1 e1) (registerBits op2 e2) m k | None => True end) (_numSources e1) (Some (replicate c_maxLutSources 0%nat))) as (om & -> & H); [| |by exists om].
  - split; [by rewrite length_replicate|]. intros i p ?; lia.
  - intros k [m|] Hk Hm; [|by exists None]. pose proof (length_registerBits op1 e1 (ce_wf _ _ H1)) as Hl1. destruct (lookup_lt_is_Some_2 (registerBits op1 e1) k) as [p Hp]; [lia|].
    rewrite (getRegAndBit_eq op1 e1 k p H1 Hp). cbn [mbind result_bind]. rewrite Hn. destruct (findRegAndBit_eq op2 e2 p H2) as (found & -> & Hf). cbn [mbind result_bind]. eexists. split; [reflexivity|].
    destruct found as [j|]; [|done]. cbn [option_map]. destruct Hm as [Hlm Hm]. split; [by rewrite length_insert|]. intros i q Hi Hq. pose proof (ce_wf _ _ H1) as (Hsix & _).
    destruct (decide (i = k)) as [->|Hne]; [exists j; rewrite list_lookup_insert_eq by lia; split; [done|]; by rewrite Hp in Hq; injection Hq as <-|].
    rewrite list_lookup_insert_ne by done. apply Hm; [lia|done].
Qed.

Section Rows.
Context (l1 l2 : list (nat * Z)) (m : list nat) (n : nat).
Context (Hn : (n <= c_maxLutSources)%nat) (Hl1 : length l1 = n) (Hl2 : length l2 = n) (H1 : NoDup l1) (Hm : maps_bits l1 l2 m n).

Lemma mappedRow_eq row : 0 <= row -> exists row2, mappedRow n m row = Ok row2 /\ 0 <= row2 /\
  forall j, 0 <= j -> Z.testbit row2 j = existsb (fun i => Z.testbit row (Z.of_nat i) && (Z.of_nat (default 0%nat (m !! i)) =? j)) (seq 0 n).
Proof.
  intros Hrow. unfold mappedRow. destruct (foldM_seq_inv (fun truthTableRow2 sourceIndex1 =>
      if negb (Z.land (Z.shiftr row (Z.of_nat sourceIndex1)) 1 =? 0) then sourceIndex2 ← at_ m sourceIndex1; Ok (Z.lor truthTableRow2 (u64_shl 1 (Z.of_nat sourceIndex2))) else Ok truthTableRow2)
    (fun k row2 => 0 <= row2 /\ forall j, 0 <= j -> Z.testbit row2 j = existsb (fun i => Z.testbit row (Z.of_nat i) && (Z.of_nat (default 0%nat (m !! i)) =? j)) (seq 0 k)) n 0) as (row2 & -> & H); [| |by exists row2].
  - split; [lia|]. intros j _. by rewrite Z.bits_0.
  - intros k row2 Hk [Hpos Hbits]. destruct (lookup_lt_is_Some_2 l1 k) as [p Hp]; [lia|]. destruct Hm as [Hlen Hmap]. destruct (Hmap k p Hk Hp) as (j & Hj & Hl2j). pose proof (lookup_lt_Some _ _ _ Hl2j) as Hlt.
    rewrite land_shiftr_1 by lia. rewrite seq_S. destruct (Z.testbit row (Z.of_nat k)) eqn:Hbit; cbn [Z.b2z negb Z.eqb].
    + rewrite (at_Some _ _ _ Hj). cbn [mbind result_bind]. eexists. split; [reflexivity|]. change 1 with (Z.b2z true). rewrite u64_shl_bit by (unfold c_maxLutSources in Hn; lia). cbn [Z.b2z]. split; [apply Z.lor_nonneg; split; [done|]; apply Z.shiftl_nonneg; lia|].
      intros i Hi. rewrite Z.lor_spec, Hbits, existsb_app by done. f_equal. rewrite testbit_1_shiftl by lia. cbn [existsb Nat.add]. by rewrite Hbit, Hj, orb_false_r.
    + exists row2. split; [done|]. split; [done|]. intros i Hi. rewrite existsb_app, Hbits by done. cbn [existsb Nat.add]. by rewrite Hbit, !orb_false_r.
Qed.

(** The map is a bijection. *)
Lemma maps_onto j : (j < n)%nat -> exists i p, (i < n)%nat /\ m !! i = Some j /\ l1 !! i = Some p /\ l2 !! j = Some p.
Proof.
  intros Hj. set (im := (fun i => default 0%nat (m !! i)) <$> seq 0 n).
  assert (Hat : forall i, (i < n)%nat -> exists p j', l1 !! i = Some p /\ m !! i = Some j' /\ l2 !! j' = Some p).
  { intros i Hi. destruct (lookup_lt_is_Some_2 l1 i) as [p Hp]; [lia|]. destruct Hm as [_ Hmap]. destruct (Hmap i p Hi Hp) as (j' & ? & ?). by exists p, j'. }
  assert (Hnd : NoDup im).
  { apply NoDup_fmap_2_strong; [|apply NoDup_seq]. intros a b Ha%elem_of_seq Hb%elem_of_seq Hab. destruct (Hat a) as (p & ja & Hpa & Hma & Hla); [lia|]. destruct (Hat b) as (q & jb & Hpb & Hmb & Hlb); [lia|].
    rewrite Hma, Hmb in Hab. cbn in Hab. subst jb. eapply NoDup_lookup; [exact H1|exact Hpa|]. congruence. }
  assert (Hin : j ∈ im).
  { assert (Hsub : seq 0 n ⊆ im); [|apply Hsub, elem_of_seq; lia]. assert (Himn : im ⊆ seq 0 n).
    { intros x Hx. unfold im in Hx. apply list_elem_of_fmap in Hx as (i & -> & Hi%elem_of_seq). destruct (Hat i) as (p & j' & _ & -> & Hl); [lia|]. cbn. apply elem_of_seq. apply lookup_lt_Some in Hl. lia. }
    pose proof (submseteq_length_Permutation im (seq 0 n)) as Hperm. assert (Hp : im ≡ₚ seq 0 n) by (apply Hperm; [by apply NoDup_submseteq|unfold im; by rewrite length_fmap]). intros x Hx. by rewrite Hp. }
  unfold im in Hin. apply list_elem_of_fmap in Hin as (i & Hij & Hi%elem_of_seq). destruct (Hat i) as (p & j' & Hp & Hmi & Hl); [lia|]. rewrite Hmi in Hij. cbn in Hij. subst j'. exists i, p. split_and!; (done || lia).
Qed.

(** The row that the bits of the registers select in the second table *)
Lemma mappedRow_bits (ρ : nat * Z -> bool) : mappedRow n m (bits_to_Z (ρ <$> l1)) = Ok (bits_to_Z (ρ <$> l2)).
Proof.
  destruct (mappedRow_eq (bits_to_Z (ρ <$> l1))) as (row2 & -> & Hpos & Hbits); [apply bits_to_Z_bound|]. f_equal. apply Z.bits_inj'. intros k Hk. rewrite Hbits by done.
  rewrite testbit_bits_to_Z_nonneg, list_lookup_fmap by done. destruct (decide (k < Z.of_nat n)) as [Hlt|Hge].
  - destruct (maps_onto (Z.to_nat k)) as (i & p & Hi & Hmi & Hp1 & Hp2); [lia|]. rewrite Hp2. cbn. destruct (ρ p) eqn:Hρ.
    + apply existsb_exists. exists i. split; [apply in_seq; lia|]. rewrite testbit_bits_to_Z_nonneg, list_lookup_fmap, Nat2Z.id, Hp1, Hmi by lia. cbn. rewrite Hρ. cbn. apply Z.eqb_eq. lia.
    + apply not_true_is_false. intros (i' & Hin & Ht)%existsb_exists. apply in_seq in Hin. apply andb_true_iff in Ht as [Ht Heq%Z.eqb_eq]. rewrite testbit_bits_to_Z_nonneg, list_lookup_fmap, Nat2Z.id in Ht by lia.
      destruct (lookup_lt_is_Some_2 l1 i') as [q Hq]; [lia|]. destruct Hm as [_ Hmap]. destruct (Hmap i' q ltac:(lia) Hq) as (j' & Hmi' & Hl2'). rewrite Hmi' in Heq. cbn in Heq. replace j' with (Z.to_nat k) in Hl2' by lia.
      rewrite Hp2 in Hl2'. injection Hl2' as <-. rewrite Hq in Ht. cbn in Ht. congruence.
  - rewrite (lookup_ge_None_2 l2) by lia. cbn. apply not_true_is_false. intros (i' & Hin & Ht)%existsb_exists. apply in_seq in Hin. apply andb_true_iff in Ht as [_ Heq%Z.eqb_eq].
    destruct (lookup_lt_is_Some_2 l1 i') as [q Hq]; [lia|]. destruct Hm as [_ Hmap]. destruct (Hmap i' q ltac:(lia) Hq) as (j' & Hmi' & Hl2'). apply lookup_lt_Some in Hl2'. rewrite Hmi' in Heq. cbn in Heq. lia.
Qed.
End Rows.

Lemma sameEntry_eq op1 op2 lut1 lut2 k e1 e2 : _lutEntries lut1 !! k = Some e1 -> _lutEntries lut2 !! k = Some e2 -> cse_entry op1 e1 -> cse_entry op2 e2 ->
  exists same, sameEntry op1 op2 lut1 lut2 k = Ok same /\
    (same = true -> forall ρ : nat * Z -> bool, Z.testbit (_table e1) (bits_to_Z (ρ <$> registerBits op1 e1)) = Z.testbit (_table e2) (bits_to_Z (ρ <$> registerBits op2 e2))).
Proof.
  intros Hk1 Hk2 H1 H2. unfold sameEntry. rewrite (at_Some _ _ _ Hk1), (at_Some _ _ _ Hk2). cbn [mbind result_bind].
  destruct (Nat.eqb_spec (_numSources e1) (_numSources e2)) as [Hn|Hn]; cbn [negb]; [|exists false; split; [done|discriminate]].
  pose proof (ce_wf _ _ H1) as (Hsix & _). rewrite TableSize_eq by done. cbn [mbind result_bind]. destruct (buildOperandMap_eq op1 op2 e1 e2 H1 H2 Hn) as (om & -> & Hom). cbn [mbind result_bind].
  destruct om as [m|]; [|exists false; split; [done|discriminate]]. pose proof (length_registerBits op1 e1 (ce_wf _ _ H1)) as Hl1. pose proof (length_registerBits op2 e2 (ce_wf _ _ H2)) as Hl2. rewrite <- Hn in Hl2.
  set (l1 := registerBits op1 e1) in *. set (l2 := registerBits op2 e2) in *. set (n := _numSources e1) in *.
  assert (Hrow : forall row, 0 <= row < 2 ^ Z.of_nat n -> exists row2, mappedRow n m row = Ok row2 /\ 0 <= row2 < 2 ^ Z.of_nat n).
  { intros row Hrow. set (ρ := fun p => match list_find (fun q => q = p) l1 with Some (i, _) => Z.testbit row (Z.of_nat i) | None => false end).
    assert (Hbits : bits_to_Z (ρ <$> l1) = row).
    { rewrite <- (bits_to_Z_to_bits n row) by done. f_equal. apply list_eq. intros i. rewrite list_lookup_fmap. destruct (decide (i < n)%nat) as [Hi|Hi].
      - destruct (lookup_lt_is_Some_2 l1 i) as [p Hp]; [lia|]. rewrite Hp, lookup_Z_to_bits by done. cbn. f_equal. unfold ρ. destruct (list_find (fun q => q = p) l1) as [[i' q]|] eqn:Hf.
        + apply list_find_Some in Hf as (Hi' & -> & _). by rewrite (NoDup_lookup _ _ _ _ (ce_distinct _ _ H1) Hi' Hp).
        + apply list_find_None in Hf. rewrite Forall_forall in Hf. by destruct (Hf p (list_elem_of_lookup_2 _ _ _ Hp)).
      - rewrite (lookup_ge_None_2 l1) by lia. rewrite lookup_ge_None_2; [done|]. rewrite length_Z_to_bits. lia. }
    rewrite <- Hbits. rewrite (mappedRow_bits l1 l2 m n Hsix Hl1 Hl2 (ce_distinct _ _ H1) Hom). eexists. split; [reflexivity|]. pose proof (bits_to_Z_bound (ρ <$> l2)) as Hb. by rewrite length_fmap, Hl2 in Hb. }
  set (g := fun row => match mappedRow n m row with Ok row2 => Bool.eqb (Z.testbit (_table e1) row) (Z.testbit (_table e2) row2) | Err _ => false end).
  assert (Hall : allM (sameRow e1 e2 m) (seqZ 0 (2 ^ Z.of_nat n)) = Ok (forallb g (seqZ 0 (2 ^ Z.of_nat n)))).
  { apply allM_forallb. intros row Hin%elem_of_seqZ. unfold sameRow, g. fold n. destruct (Hrow row) as (row2 & -> & Hb2); [lia|]. cbn [mbind result_bind].
    rewrite (GetTableEntry_eq e1) by (done || lia). rewrite (GetTableEntry_eq e2) by (rewrite <- Hn; done). done. }
  rewrite Hall. eexists. split; [reflexivity|]. intros Hg ρ. rewrite forallb_forall in Hg.
  assert (Hb : 0 <= bits_to_Z (ρ <$> l1) < 2 ^ Z.of_nat n) by (pose proof (bits_to_Z_bound (ρ <$> l1)) as Hb; by rewrite length_fmap, Hl1 in Hb).
  specialize (Hg (bits_to_Z (ρ <$> l1)) ltac:(apply list_elem_of_In, elem_of_seqZ; lia)). unfold g in Hg. rewrite (mappedRow_bits l1 l2 m n Hsix Hl1 Hl2 (ce_distinct _ _ H1) Hom) in Hg. by apply eqb_prop in Hg.
Qed.

(** ** Operations *)

Section Operations.
Context (program : Program).

Definition isCse (opcode : Opcode) : bool := match opcode with Mov | UnaryOp _ | BinaryOp _ | Select | Gather _ | LutOp _ => true | _ => false end.

Record cse_ok (op : Operation) : Prop := mk_cse_ok {
  co_src : Forall (operand_wf program) (_src op);
  co_dst : exists y d, _dst op = [DstRegister (mkAccessedRegister y)] /\ _registerTable program !! y = Some d /\ 0 <= _regWidth d;
  co_mov : _opcode op = Mov -> _src op <> [];
  co_lut : forall lut, _opcode op = LutOp lut -> _signExtendSourceMask op = 0 /\ Forall (cse_entry op) (_lutEntries lut) /\ Z.of_nat (length (_lutEntries lut)) < 2 ^ 32 }.

Lemma DoesOpcodeSupport_eq opcode : DoesOpcodeSupportCommonSubexpressionElimination opcode = Ok (isCse opcode).
Proof. destruct opcode; vm_compute; reflexivity. Qed.

Lemma co_width op : cse_ok op -> exists w, dstWidth program op = Ok w.
Proof. intros H. destruct (co_dst _ H) as (y & d & Hy & Hd & _). exists (_regWidth d). unfold dstWidth. rewrite Hy. cbn. unfold registerWidth. by rewrite (at_Some _ _ _ Hd). Qed.

Lemma cse_value op σ : cse_ok op -> isCse (_opcode op) = true -> is_Some (opValue program σ op).
Proof.
  intros H Hc. destruct (co_width op H) as [w Hw]. unfold opValue. rewrite Hw. assert (Hs : is_Some (opInt program σ op)); [|destruct Hs as [v ->]; by eexists].
  unfold opInt. destruct (_opcode op) eqn:Eo; try done.
  destruct (co_lut _ H _lut Eo) as (_ & He & Hl). destruct _lut as [es]. cbn [_lutEntries] in *. rewrite Evaluate_eq; [done| |done]. eapply Forall_impl; [exact He|]. by intros e [].
Qed.

Lemma registerBit_value op σ e c : _signExtendSourceMask op = 0 -> cse_entry op e -> c ∈ columns e ->
  bit_of (srcInt program σ op) c = Z.testbit (operandInt program σ false (SrcRegister (mkAccessedRegister (registerBit op c).1))) (registerBit op c).2.
Proof.
  intros Hm He Hc. pose proof (ce_registers _ _ He) as Hr. rewrite Forall_forall in Hr. destruct (Hr c Hc) as [r Hs]. unfold bit_of, registerBit. rewrite Hs. cbn [fst snd].
  rewrite (srcInt_lookup _ _ _ _ _ Hs), signExtends_mask0 by done. by destruct r.
Qed.

Lemma entry_val_registers op σ e : _signExtendSourceMask op = 0 -> cse_entry op e ->
  entry_val (bit_of (srcInt program σ op)) e = Z.testbit (_table e) (bits_to_Z ((fun p => Z.testbit (operandInt program σ false (SrcRegister (mkAccessedRegister p.1))) p.2) <$> registerBits op e)).
Proof.
  intros Hm He. unfold entry_val, registerBits. rewrite <- list_fmap_compose. do 2 f_equal. apply list_fmap_ext. intros i c Hc%list_elem_of_lookup_2. by apply (registerBit_value op σ e c).
Qed.

Lemma LutOperationsProduceSameResult_eq op1 op2 lut1 lut2 : cse_ok op1 -> cse_ok op2 -> _opcode op1 = LutOp lut1 -> _opcode op2 = LutOp lut2 ->
  exists same, LutOperationsProduceSameResult op1 op2 lut1 lut2 = Ok same /\ (same = true -> forall σ, opInt program σ op1 = opInt program σ op2).
Proof.
  intros H1 H2 E1 E2. destruct (co_lut _ H1 lut1 E1) as (Hm1 & He1 & Hl1). destruct (co_lut _ H2 lut2 E2) as (Hm2 & He2 & Hl2). unfold LutOperationsProduceSameResult. rewrite Hm1, Hm2. cbn [Z.eqb assert_ mbind result_bind].
  destruct lut1 as [es1], lut2 as [es2]. unfold _numDestinationBits. cbn [_lutEntries] in *. destruct (Nat.eqb_spec (length es1) (length es2)) as [Hn|Hn]; cbn [negb]; [|by exists false].
  set (g := fun k => match sameEntry op1 op2 (mkLut es1) (mkLut es2) k with Ok b => b | Err _ => false end). rewrite (allM_forallb _ g).
  - eexists. split; [reflexivity|]. intros Hall σ. rewrite forallb_forall in Hall. unfold opInt. rewrite E1, E2. rewrite !Evaluate_eq; [|by eapply Forall_impl; [exact He2|]; intros e []|done|by eapply Forall_impl; [exact He1|]; intros e []|done].
    f_equal. unfold lut_val. f_equal. apply list_eq. intros k. rewrite !list_lookup_fmap. destruct (es1 !! k) as [e1|] eqn:Ek1; [|by rewrite lookup_ge_None_2 by (apply lookup_ge_None_1 in Ek1; lia)].
    pose proof (lookup_lt_Some _ _ _ Ek1) as Hlt. destruct (lookup_lt_is_Some_2 es2 k) as [e2 Ek2]; [lia|]. rewrite Ek2. cbn. f_equal. pose proof (Forall_lookup_1 _ _ _ _ He1 Ek1) as Hc1. pose proof (Forall_lookup_1 _ _ _ _ He2 Ek2) as Hc2.
    rewrite (entry_val_registers op1), (entry_val_registers op2) by done. destruct (sameEntry_eq op1 op2 (mkLut es1) (mkLut es2) k e1 e2 Ek1 Ek2 Hc1 Hc2) as (same & Hs & Hv). apply Hv. specialize (Hall k ltac:(apply in_seq; lia)). unfold g in Hall. by rewrite Hs in Hall.
  - intros k Hk%elem_of_seq. unfold g. destruct (lookup_lt_is_Some_2 es1 k) as [e1 Ek1]; [lia|]. destruct (lookup_lt_is_Some_2 es2 k) as [e2 Ek2]; [lia|].
    by destruct (sameEntry_eq op1 op2 (mkLut es1) (mkLut es2) k e1 e2 Ek1 Ek2 (Forall_lookup_1 _ _ _ _ He1 Ek1) (Forall_lookup_1 _ _ _ _ He2 Ek2)) as (same & -> & _).
Qed.

Lemma sameSources_eq op1 op2 : cse_ok op1 -> length (_src op1) = length (_src op2) ->
  allM (sameSource op1 op2) (seq 0 (length (_src op1))) = Ok (bool_decide (_src op1 = _src op2)).
Proof.
  intros H1 Hn. rewrite (allM_forallb _ (fun i => bool_decide (_src op1 !! i = _src op2 !! i))).
  - f_equal. apply eq_true_iff_eq. rewrite bool_decide_eq_true, forallb_forall. split.
    + intros H. apply list_eq. intros i. destruct (decide (i < length (_src op1))%nat); [|by rewrite !lookup_ge_None_2 by lia]. specialize (H i ltac:(apply in_seq; lia)). by apply bool_decide_eq_true in H.
    + intros -> i _. by apply bool_decide_eq_true.
  - intros i Hi%elem_of_seq. destruct (lookup_lt_is_Some_2 (_src op1) i) as [s1 Hs1]; [lia|]. destruct (lookup_lt_is_Some_2 (_src op2) i) as [s2 Hs2]; [lia|]. unfold sameSource. rewrite (at_Some _ _ _ Hs1), (at_Some _ _ _ Hs2), Hs1, Hs2. cbn [mbind result_bind].
    pose proof (Forall_lookup_1 _ _ _ _ (co_src _ H1) Hs1) as Hwf. destruct (Nat.eqb_spec (operandType s1) (operandType s2)) as [Ht|Ht]; cbn [negb].
    + destruct s1; [..|done]; do 2 case_bool_decide; congruence.
    + rewrite bool_decide_false; [done|]. congruence.
Qed.

Lemma sameFlags_eq o1 o2 : opcodeTag o1 = opcodeTag o2 -> isCse o1 = true -> isLut o1 = false -> exists same, sameFlags o1 o2 = Ok same /\ (same = true <-> o1 = o2).
Proof.
  intros Ht Hc Hl. destruct o1, o2; try discriminate; (eexists; split; [reflexivity|]); rewrite ?bool_decide_eq_true; naive_solver.
Qed.

(** The test with its [switch] on two operations that are not look-up tables *)
Lemma OperationsProduceSameResult_split op1 op2 : cse_ok op1 -> cse_ok op2 -> isCse (_opcode op1) = true ->
  exists same, OperationsProduceSameResult program op1 op2 = Ok same /\
    (same = true -> (forall σ, opValue program σ op1 = opValue program σ op2) /\ dstWidth program op1 = dstWidth program op2) /\
    (same = true -> isLut (_opcode op1) = false -> _opcode op1 = _opcode op2 /\ _src op1 = _src op2).
Proof.
  intros H1 H2 Hc. unfold OperationsProduceSameResult. case_bool_decide as Htag; cbn [negb]; [|by exists false]. destruct (Nat.eqb_spec (length (_src op1)) (length (_src op2))) as [Hn|Hn]; cbn [negb]; [|by exists false].
  destruct (co_dst _ H1) as (y1 & d1 & Hy1 & Hd1 & _). destruct (co_dst _ H2) as (y2 & d2 & Hy2 & Hd2 & _). rewrite Hy1, Hy2. cbn [length Nat.eqb negb seq allM]. unfold sameWidth. rewrite Hy1, Hy2. cbn [at_ lookup list_lookup of_option mbind result_bind DestinationOperand_Width _registerIndex].
  unfold registerWidth. rewrite (at_Some _ _ _ Hd1), (at_Some _ _ _ Hd2). cbn [mbind result_bind].
  assert (Hw1 : dstWidth program op1 = Ok (_regWidth d1)) by (unfold dstWidth; rewrite Hy1; cbn; unfold registerWidth; by rewrite (at_Some _ _ _ Hd1)).
  assert (Hw2 : dstWidth program op2 = Ok (_regWidth d2)) by (unfold dstWidth; rewrite Hy2; cbn; unfold registerWidth; by rewrite (at_Some _ _ _ Hd2)).
  destruct (Z.eqb_spec (_regWidth d1) (_regWidth d2)) as [Hw|Hw]; cbn [negb]; [|by exists false].
  destruct (isLut (_opcode op1)) eqn:Hlut.
  - destruct (_opcode op1) eqn:E1; try discriminate. destruct (_opcode op2) eqn:E2; try discriminate.
    destruct (LutOperationsProduceSameResult_eq op1 op2 _ _ H1 H2 E1 E2) as (same & -> & Hs). exists same. split_and!; [done| |done]. intros Hsame. split; [|by rewrite Hw1, Hw2, Hw]. intros σ. unfold opValue. by rewrite Hw1, Hw2, Hw, (Hs Hsame σ).
  - destruct (sameFlags_eq _ _ Htag Hc Hlut) as (sf & Hsf & Hflags).
    assert (Hgen : exists same, (if negb (_signExtendSourceMask op1 =? _signExtendSourceMask op2) then Ok false else flags ← sameFlags (_opcode op1) (_opcode op2); if negb flags then Ok false else allM (sameSource op1 op2) (seq 0 (length (_src op1)))) = Ok same /\
      (same = true -> _signExtendSourceMask op1 = _signExtendSourceMask op2 /\ _opcode op1 = _opcode op2 /\ _src op1 = _src op2)).
    { destruct (Z.eqb_spec (_signExtendSourceMask op1) (_signExtendSourceMask op2)) as [Hm|Hm]; cbn [negb]; [|by exists false]. rewrite Hsf. cbn [mbind result_bind]. destruct sf; cbn [negb]; [|by exists false].
      rewrite (sameSources_eq op1 op2 H1 Hn). eexists. split; [reflexivity|]. rewrite bool_decide_eq_true. intros ->. split_and!; [done| |done]. by apply Hflags. }
    destruct Hgen as (same & Hrun & Hsame). exists same. split; [destruct (_opcode op1), (_opcode op2); try discriminate; exact Hrun|]. split; [|intros Hs _; by destruct (Hsame Hs)].
    intros Hs. destruct (Hsame Hs) as (Hm & Ho & Hsrc). split; [|by rewrite Hw1, Hw2, Hw]. intros σ. symmetry. apply opValue_resolve; [done|done|by rewrite Hsrc|by rewrite Hw1, Hw2, Hw].
Qed.

(** ** Which operations the pass looks at *)

Section Hash.
Context (combine_mp_int combine_size_t : Z -> Z -> Z) (transformLuts : bool).
Notation OperationHash := (OperationHash combine_mp_int combine_size_t).

Lemma hashOperands_Ok l h : Forall (operand_wf program) l -> exists h', hashOperands combine_mp_int combine_size_t l h = Ok h'.
Proof.
  intros Hl. rewrite Forall_forall in Hl. destruct (foldM_inv (hashOperand combine_mp_int combine_size_t) (fun _ => True) l h) as (h' & Hh & _); [done| |by exists h'].
  intros x o Ho _. specialize (Hl o Ho). destruct o; try done; by eexists.
Qed.

Lemma OperationHash_Ok op : cse_ok op -> exists h, OperationHash op = Ok h.
Proof.
  intros H. unfold OperationHash. destruct (_opcode op); try apply hashOperands_Ok, H.
  match goal with |- context [hashOperands _ _ ?l ?h] => destruct (hashOperands_Ok l h) as (h' & ->) end; [|by eexists]. rewrite merge_sort_Permutation. apply H.
Qed.

Lemma OperationHash_same op1 op2 : isLut (_opcode op1) = false -> _opcode op1 = _opcode op2 -> _src op1 = _src op2 -> OperationHash op1 = OperationHash op2.
Proof. intros Hl Ho Hs. unfold OperationHash. rewrite <- Ho, <- Hs. done. Qed.

Lemma onlyLocal_sources op : OperationUsesOnlyLocalSrcReg program op = Ok true -> forall r, SrcRegister (mkAccessedRegister r) ∈ _src op -> isGlobal program r = false.
Proof.
  unfold OperationUsesOnlyLocalSrcReg. intros H r Hr. set (f := fun acc srcOp => match srcOp with SrcRegister r => d ← at_ (_registerTable program) (_registerIndex r); Ok (acc && IsLocalRegisterType (_type d)) | _ => Ok acc end) in H.
  assert (Hgen : forall l acc, foldM f l acc = Ok true -> acc = true /\ (SrcRegister (mkAccessedRegister r) ∈ l -> isGlobal program r = false)); [|by apply (Hgen (_src op) true)].
  induction l as [|o l IH]; intros acc Hf; [injection Hf as ->; split; [done|]; by intros ?%not_elem_of_nil|]. cbn [foldM] in Hf. destruct (f acc o) as [acc'|] eqn:Ef; [|done]. cbn [mbind result_bind] in Hf. destruct (IH _ Hf) as [-> Hin].
  unfold f in Ef. destruct o as [x|q|x|x]; try (injection Ef as ->; split; [done|]; by intros [?|?]%elem_of_cons; [|apply Hin]).
  unfold at_ in Ef. destruct (_registerTable program !! _registerIndex q) as [d|] eqn:Ed; [|done]. cbn in Ef. injection Ef as Ef. apply andb_true_iff in Ef as [-> Hd]. split; [done|]. intros [[= <-]|?]%elem_of_cons; [|by apply Hin].
  cbn in Ed. unfold isGlobal. rewrite Ed. apply bool_decide_eq_false. by destruct (_type d).
Qed.

Lemma onlyLocal_destination op y : OperationUsesOnlyLocalDstReg program op = Ok true -> _dst op = [DstRegister (mkAccessedRegister y)] -> isGlobal program y = false.
Proof.
  unfold OperationUsesOnlyLocalDstReg. intros H Hd. rewrite Hd in H. cbn [foldM] in H. unfold at_ in H. cbn [_registerIndex] in H. destruct (_registerTable program !! y) as [d|] eqn:Ed; [|done]. cbn in H. injection H as H.
  unfold isGlobal. rewrite Ed. apply bool_decide_eq_false. by destruct (_type d).
Qed.

Lemma doesOpSupportCSE_eq op : (isCse (_opcode op) = true -> cse_ok op) ->
  exists b, doesOpSupportCSE transformLuts program op = Ok b /\
    (b = true -> isCse (_opcode op) = true /\ (forall r, SrcRegister (mkAccessedRegister r) ∈ _src op -> isGlobal program r = false) /\ forall y, _dst op = [DstRegister (mkAccessedRegister y)] -> isGlobal program y = false).
Proof.
  intros Hok. unfold doesOpSupportCSE. rewrite DoesOpcodeSupport_eq. cbn [mbind result_bind]. destruct (isCse (_opcode op)) eqn:Hc; cbn [negb]; [|by exists false]. specialize (Hok eq_refl).
  destruct (isLut (_opcode op) && negb transformLuts); [by exists false|]. destruct (co_dst _ Hok) as (y & d & Hy & Hd & _).
  match goal with |- context [mbind _ ?m] => assert (Hu : exists useless, m = Ok useless) end.
  { destruct (_opcode op) eqn:Eo; try by eexists. destruct (_src op) as [|s l] eqn:Es; [by destruct (co_mov _ Hok Eo)|]. rewrite Hy. cbn. unfold registerWidth. rewrite (at_Some _ _ _ Hd). cbn.
    pose proof (co_src _ Hok) as Hsrc. rewrite Es in Hsrc. apply Forall_cons in Hsrc as [Hs _]. destruct s as [x|r|?|?]; try done; [by eexists|]. destruct Hs as (d' & Hd' & _). cbn. unfold registerWidth. rewrite (at_Some _ _ _ Hd'). by eexists. }
  destruct Hu as [useless ->]. cbn [mbind result_bind]. destruct useless; [by exists false|].
  destruct (OperationUsesOnlyLocalReg_Ok program op) as (b & Hb); [apply Hok|intros q Hq; rewrite Hy in Hq; apply list_elem_of_singleton in Hq as [= ->]; by eapply lookup_lt_Some|]. exists b. split; [done|].
  intros ->. split; [done|]. unfold OperationUsesOnlyLocalReg in Hb. destruct (OperationUsesOnlyLocalSrcReg program op) as [[]|] eqn:Hs; try done. cbn [mbind result_bind] in Hb. split; [by apply onlyLocal_sources|]. intros z Hz. by apply (onlyLocal_destination op).
Qed.
End Hash.
End Operations.

End CseFacts.
