(* ===== verification/CseCorrect.v ===== *)
(** * Common subexpressions: the pass is correct

    One block ([cse_result]): an operation either keeps everything but its
    locations or becomes a move from the destination of an earlier operation
    that produces the same result; no two operations that are left and that are
    not look-up tables produce the same result.  The value of the earlier
    operation is still in its destination ([value_kept]), so the function has the
    executions that it had. *)

From S2P Require Import Prelude MachineInt Literals Ir Semantics LutOpt LutFacts LutLowerFacts Flow LivenessFacts.
From S2P Require Import LivenessCorrect ConstProp FlowPaths ConstPropOps StageSemantics Opcodes Decompose.
From S2P Require Import CommonSubexpressions CseFacts BlockValues.
Import MachineInt Containers Literals Ir Semantics Flow FlowSemantics LivenessFacts LivenessCorrect ConstProp FlowPaths ConstPropEdges ConstPropBlock Opcodes Decompose CommonSubexpressions CseFacts BlockValues.

Module CseCorrect.

Definition withLocations (op : FlowOperation) (locs : gset FileAndLineNumber) : FlowOperation :=
  let o := _operation op in
  mkFlowOperation (mkOperation (_opcode o) (_signExtendSourceMask o) locs (_src o) (_dst o)) (_getSuccessorBlock op) (_renamingTable op) (_reverseRenamingTable op) (_isContextSaverCaller op).

Lemma withLocations_id op : op = withLocations op (_locations (_operation op)).
Proof. destruct op as [o]. by destruct o. Qed.

Section Pass.
Context (combine_mp_int combine_size_t : Z -> Z -> Z) (transformLuts : bool) (program : Program).
Notation OperationHash := (OperationHash combine_mp_int combine_size_t).
Notation supports op := (doesOpSupportCSE transformLuts program (_operation op) = Ok true).
Notation cseOperation := (cseOperation combine_mp_int combine_size_t transformLuts program).

(** Operation [op] is a move to its destination from that of [c]. *)
Definition moved (op c op' : FlowOperation) : Prop :=
  exists r y locs, _dst (_operation op) = [DstRegister r] /\ _dst (_operation c) = [DstRegister y] /\ op' = mkFlowOperation (mkOperation Mov 0 locs [SrcRegister y] [DstRegister r]) None ∅ ∅ false.

Section Block.
Context (L : list FlowOperation) (Hok : forall op, op ∈ L -> isCse (_opcode (_operation op)) = true -> cse_ok program (_operation op)).

Lemma at_ok k op : L !! k = Some op -> isCse (_opcode (_operation op)) = true -> cse_ok program (_operation op).
Proof. intros Hk. apply Hok. by eapply list_elem_of_lookup_2. Qed.

Lemma supports_eq k op : L !! k = Some op -> exists b, doesOpSupportCSE transformLuts program (_operation op) = Ok b /\ (b = true -> isCse (_opcode (_operation op)) = true /\ cse_ok program (_operation op)).
Proof. intros Hk. destruct (doesOpSupportCSE_eq program transformLuts (_operation op) (at_ok k op Hk)) as (b & Hb & H). exists b. split; [done|]. intros Hbt. destruct (H Hbt) as [Hc _]. split; [done|]. by apply (at_ok k). Qed.

Lemma supported_ok k op : L !! k = Some op -> supports op -> isCse (_opcode (_operation op)) = true /\ cse_ok program (_operation op).
Proof. intros Hk Hs. destruct (supports_eq k op Hk) as (b & Hb & H). rewrite Hs in Hb. injection Hb as <-. by apply H. Qed.

(** Which operations have been replaced, and by the result of which one *)
Record replacement (rep : gmap nat nat) (L' : list FlowOperation) : Prop := mk_replacement {
  rp_length : length L' = length L;
  rp_same : rep = ∅ -> L' = L;
  rp_candidate : forall k c, rep !! k = Some c -> (c < k)%nat /\ rep !! c = None /\ exists opk opc, L !! k = Some opk /\ L !! c = Some opc /\ supports opk /\ supports opc /\ OperationsProduceSameResult program (_operation opk) (_operation opc) = Ok true;
  rp_result : forall k op, L !! k = Some op -> exists op', L' !! k = Some op' /\
    match rep !! k with None => exists locs, op' = withLocations op locs | Some c => exists opc, L !! c = Some opc /\ moved op opc op' end }.

(** What the loop keeps *)
Record cse_inv (i : nat) (ch0 : bool) (st : CseState) (rep : gmap nat nat) : Prop := mk_cse_inv {
  ci_rep : replacement rep (_cseOperations st);
  ci_done : forall k c, rep !! k = Some c -> (k < i)%nat;
  ci_map : forall h c, c ∈ default [] (_operationMap st !! h) <-> (c < i)%nat /\ rep !! c = None /\ exists op, L !! c = Some op /\ supports op /\ OperationHash (_operation op) = Ok h;
  ci_distinct : forall c k opc opk, (c < k)%nat -> (k < i)%nat -> rep !! c = None -> rep !! k = None -> L !! c = Some opc -> L !! k = Some opk -> supports opc -> supports opk ->
    OperationHash (_operation opc) = OperationHash (_operation opk) -> OperationsProduceSameResult program (_operation opk) (_operation opc) = Ok false;
  ci_changed : _didChangeIR st = true <-> ch0 = true \/ rep <> ∅ }.

Lemma inv_current i ch0 st rep op : cse_inv i ch0 st rep -> L !! i = Some op -> rep !! i = None /\ exists locs, _cseOperations st !! i = Some (withLocations op locs).
Proof.
  intros H Hi. assert (Hn : rep !! i = None) by (destruct (rep !! i) eqn:E; [apply (ci_done _ _ _ _ H) in E; lia|done]). split; [done|].
  destruct (rp_result _ _ (ci_rep _ _ _ _ H) i op Hi) as (op' & Hop' & Hr). rewrite Hn in Hr. destruct Hr as [locs ->]. by exists locs.
Qed.

(** The search in the candidate list *)
Lemma candidate_eq i ch0 st rep op h : cse_inv i ch0 st rep -> L !! i = Some op -> isCse (_opcode (_operation op)) = true -> cse_ok program (_operation op) ->
  exists o, findM (fun candidate => c ← at_ (_cseOperations st) candidate; OperationsProduceSameResult program (_operation op) (_operation c)) (default [] (_operationMap st !! h)) = Ok o /\
    match o with
    | Some c => c ∈ default [] (_operationMap st !! h) /\ exists opc, L !! c = Some opc /\ OperationsProduceSameResult program (_operation op) (_operation opc) = Ok true
    | None => forall c opc, c ∈ default [] (_operationMap st !! h) -> L !! c = Some opc -> OperationsProduceSameResult program (_operation op) (_operation opc) = Ok false
    end.
Proof.
  intros H Hi Hc Hwf. set (g := fun c => match L !! c with Some opc => bool_decide (OperationsProduceSameResult program (_operation op) (_operation opc) = Ok true) | None => false end).
  assert (Hdec : forall c opc, L !! c = Some opc -> supports opc -> exists b, OperationsProduceSameResult program (_operation op) (_operation opc) = Ok b).
  { intros c opc Hcl Hs. destruct (supported_ok c opc Hcl Hs) as [Hcc Hwfc]. destruct (OperationsProduceSameResult_split program _ _ Hwf Hwfc Hc) as (b & Hb & _). by exists b. }
  destruct (findM_find (fun candidate => c ← at_ (_cseOperations st) candidate; OperationsProduceSameResult program (_operation op) (_operation c)) g (default [] (_operationMap st !! h))) as (o & -> & Ho).
  - intros c Hin. apply (ci_map _ _ _ _ H) in Hin as (Hlt & Hn & opc & Hcl & Hs & _). destruct (rp_result _ _ (ci_rep _ _ _ _ H) c opc Hcl) as (op' & Hop' & Hr). rewrite Hn in Hr. destruct Hr as [locs ->].
    rewrite (at_Some _ _ _ Hop'). cbn [mbind result_bind]. destruct (Hdec c opc Hcl Hs) as [b Hb]. unfold g. rewrite Hcl. change (OperationsProduceSameResult program (_operation op) (_operation (withLocations opc locs))) with (OperationsProduceSameResult program (_operation op) (_operation opc)).
    rewrite Hb. f_equal. destruct b; [by rewrite bool_decide_true|by rewrite bool_decide_false].
  - exists o. split; [done|]. destruct o as [c|].
    + destruct Ho as [Hin Hg]. split; [done|]. unfold g in Hg. destruct (L !! c) as [opc|] eqn:Hcl; [|done]. apply bool_decide_eq_true in Hg. by exists opc.
    + intros c opc Hin Hcl. pose proof (Ho c Hin) as Hg. unfold g in Hg. rewrite Hcl in Hg. apply bool_decide_eq_false in Hg. apply (ci_map _ _ _ _ H) in Hin as (_ & _ & opc' & Hcl' & Hs & _). rewrite Hcl in Hcl'. injection Hcl' as <-.
      destruct (Hdec c opc Hcl Hs) as [[] Hb]; [done|exact Hb].
Qed.

(** An operation that the pass does not look at *)
Lemma inv_skip i ch0 st rep op : cse_inv i ch0 st rep -> L !! i = Some op -> ~ supports op -> cse_inv (S i) ch0 st rep.
Proof.
  intros H Hi Hs. split; try apply H.
  - intros k c Hk. apply (ci_done _ _ _ _ H) in Hk. lia.
  - intros h c. rewrite (ci_map _ _ _ _ H). split; intros (Hlt & Hn & opc & Hcl & Hsc & Hh); (split; [|split; [done|by exists opc]]); [lia|]. destruct (decide (c = i)) as [->|]; [|lia]. rewrite Hi in Hcl. injection Hcl as <-. done.
  - intros c k opc opk Hck Hk Hnc Hnk Hcl Hkl Hsc Hsk Hh. apply (ci_distinct _ _ _ _ H c k opc opk); try done. destruct (decide (k = i)) as [->|]; [|lia]. rewrite Hi in Hkl. injection Hkl as <-. done.
Qed.

(** An operation that no candidate matches *)
Lemma inv_new i ch0 st rep op h : cse_inv i ch0 st rep -> L !! i = Some op -> supports op -> OperationHash (_operation op) = Ok h ->
  (forall c opc, c ∈ default [] (_operationMap st !! h) -> L !! c = Some opc -> OperationsProduceSameResult program (_operation op) (_operation opc) = Ok false) ->
  cse_inv (S i) ch0 (mkCseState (<[h := default [] (_operationMap st !! h) ++ [i]]> (_operationMap st)) (_cseOperations st) (_didChangeIR st)) rep.
Proof.
  intros H Hi Hs Hh Hno. destruct (inv_current i ch0 st rep op H Hi) as [Hn _]. split; cbn [_cseOperations _operationMap _didChangeIR]; try apply H.
  - intros k c Hk. apply (ci_done _ _ _ _ H) in Hk. lia.
  - intros h' c. destruct (decide (h' = h)) as [->|Hne].
    + rewrite lookup_insert_eq. cbn [default from_option id]. rewrite elem_of_app, list_elem_of_singleton, (ci_map _ _ _ _ H). split.
      * intros [(Hlt & Hnc & Hex)| ->]; [by split; [lia|]|]. split; [lia|]. split; [done|]. by exists op.
      * intros (Hlt & Hnc & opc & Hcl & Hrest). destruct (decide (c = i)) as [->|]; [by right|left]. split; [lia|]. split; [done|]. by exists opc.
    + rewrite lookup_insert_ne by done. rewrite (ci_map _ _ _ _ H). split; intros (Hlt & Hnc & opc & Hcl & Hsc & Hhc); (split; [|split; [done|by exists opc]]); [lia|].
      destruct (decide (c = i)) as [->|]; [|lia]. rewrite Hi in Hcl. injection Hcl as <-. congruence.
  - intros c k opc opk Hck Hk Hnc Hnk Hcl Hkl Hsc Hsk Hhh. destruct (decide (k = i)) as [->|Hne]; [|apply (ci_distinct _ _ _ _ H c k opc opk); (done || lia)].
    rewrite Hi in Hkl. injection Hkl as <-. apply (Hno c opc); [|done]. apply (ci_map _ _ _ _ H). split; [lia|]. split; [done|]. exists opc. by rewrite Hhh.
Qed.

(** An operation that becomes a move *)
Lemma replacement_insert i c rep L' op opc op' locs : replacement rep L' -> L !! i = Some op -> L !! c = Some opc -> (c < i)%nat -> rep !! c = None -> rep !! i = None -> (forall k d, rep !! k = Some d -> (k < i)%nat) ->
  supports op -> supports opc -> OperationsProduceSameResult program (_operation op) (_operation opc) = Ok true -> moved op opc op' ->
  replacement (<[i := c]> rep) (<[i := op']> (<[c := withLocations opc locs]> L')).
Proof.
  intros [Hlen _ Hcand Hres] Hi Hc Hlt Hnc Hni Hdone Hs Hsc Hsame Hmv. split; [by rewrite !length_insert|by intros ?%insert_non_empty| |].
  - intros k d [[<- <-]|[Hne Hk]]%lookup_insert_Some; [split; [done|]; split; [by rewrite lookup_insert_ne by lia|]; by exists op, opc|].
    destruct (Hcand k d Hk) as (Hdk & Hnd & Hex). split; [done|]. split; [|done]. rewrite lookup_insert_ne; [done|]. apply Hdone in Hk. lia.
  - intros k o Hk. pose proof (lookup_lt_Some _ _ _ Hk) as Hkl. pose proof (lookup_lt_Some _ _ _ Hi) as Hil. pose proof (lookup_lt_Some _ _ _ Hc) as Hcl. destruct (decide (k = i)) as [->|Hne].
    + rewrite Hi in Hk. injection Hk as <-. exists op'. rewrite list_lookup_insert_eq by (rewrite length_insert; lia). split; [done|]. rewrite lookup_insert_eq. by exists opc.
    + rewrite list_lookup_insert_ne by done. rewrite (lookup_insert_ne rep) by done. destruct (decide (k = c)) as [->|Hnkc].
      * rewrite Hc in Hk. injection Hk as <-. rewrite list_lookup_insert_eq by lia. eexists. split; [reflexivity|]. rewrite Hnc. by exists locs.
      * rewrite list_lookup_insert_ne by done. by apply Hres.
Qed.

Lemma inv_replace i ch0 st rep op h c opc op' locs : cse_inv i ch0 st rep -> L !! i = Some op -> supports op ->
  c ∈ default [] (_operationMap st !! h) -> L !! c = Some opc -> OperationsProduceSameResult program (_operation op) (_operation opc) = Ok true -> moved op opc op' ->
  cse_inv (S i) ch0 (mkCseState (<[h := default [] (_operationMap st !! h)]> (_operationMap st)) (<[i := op']> (<[c := withLocations opc locs]> (_cseOperations st))) true) (<[i := c]> rep).
Proof.
  intros H Hi Hs Hin Hc Hsame Hmv. destruct (inv_current i ch0 st rep op H Hi) as [Hn _]. apply (ci_map _ _ _ _ H) in Hin as (Hlt & Hnc & opc' & Hc' & Hsc & _). rewrite Hc in Hc'. injection Hc' as <-.
  split; cbn [_cseOperations _operationMap _didChangeIR].
  - apply (replacement_insert i c rep (_cseOperations st) op opc op' locs); try done; [apply H|by apply (ci_done _ _ _ _ H)].
  - intros k d [[<- <-]|[_ Hk]]%lookup_insert_Some; [lia|]. apply (ci_done _ _ _ _ H) in Hk. lia.
  - intros h' d. assert (Hm : default [] (<[h := default [] (_operationMap st !! h)]> (_operationMap st) !! h') = default [] (_operationMap st !! h')) by (destruct (decide (h' = h)) as [->|]; [by rewrite lookup_insert_eq|by rewrite lookup_insert_ne]).
    rewrite Hm, (ci_map _ _ _ _ H). split.
    + intros (Hd & Hnd & Hex). split; [lia|]. split; [|done]. rewrite lookup_insert_ne; [done|lia].
    + intros (Hd & [Hnd Hne]%lookup_insert_None & Hex). split; [lia|]. by split.
  - intros d k opd opk Hdk Hk [Hnd Hned]%lookup_insert_None [Hnk Hnek]%lookup_insert_None. apply (ci_distinct _ _ _ _ H); (done || lia).
  - split; [|done]. intros _. right. apply insert_non_empty.
Qed.

Lemma cseOperation_eq i ch0 st rep op : cse_inv i ch0 st rep -> L !! i = Some op -> exists st' rep', cseOperation st i = Ok st' /\ cse_inv (S i) ch0 st' rep'.
Proof.
  intros H Hi. destruct (inv_current i ch0 st rep op H Hi) as [Hn [locs Hat]]. unfold CommonSubexpressions.cseOperation. rewrite (at_Some _ _ _ Hat). cbn [mbind result_bind withLocations _operation _dst].
  destruct (supports_eq i op Hi) as (b & Hb & Hbt).
  assert (Hskip : ~ supports op -> exists st' rep', Ok st = Ok st' /\ cse_inv (S i) ch0 st' rep') by (intros Hs; exists st, rep; split; [done|by eapply inv_skip]).
  assert (Hno : forall d l, _dst (_operation op) = d :: l -> (l <> [] \/ exists f, d = DstFifo f) -> ~ supports op).
  { intros d l Hd Hor Hs. destruct (supported_ok i op Hi Hs) as [_ Hwf]. destruct (co_dst _ _ Hwf) as (y & dd & Hy & _). rewrite Hy in Hd. injection Hd as <- <-. destruct Hor as [?|[f ?]]; done. }
  destruct (_dst (_operation op)) as [|[dst|f] l] eqn:Hd.
  { apply Hskip. intros Hs. destruct (supported_ok i op Hi Hs) as [_ Hwf]. destruct (co_dst _ _ Hwf) as (y & dd & Hy & _). congruence. }
  2: { apply Hskip, (Hno _ _ eq_refl). right. by exists f. }
  destruct l as [|d2 l]; [|by apply Hskip, (Hno _ _ eq_refl); left].
  change (doesOpSupportCSE transformLuts program (mkOperation (_opcode (_operation op)) (_signExtendSourceMask (_operation op)) locs (_src (_operation op)) [DstRegister dst])) with (doesOpSupportCSE transformLuts program (mkOperation (_opcode (_operation op)) (_signExtendSourceMask (_operation op)) (_locations (_operation op)) (_src (_operation op)) [DstRegister dst])).
  rewrite <- Hd. replace (mkOperation (_opcode (_operation op)) (_signExtendSourceMask (_operation op)) (_locations (_operation op)) (_src (_operation op)) (_dst (_operation op))) with (_operation op) by (by destruct (_operation op)).
  rewrite Hb. cbn [mbind result_bind]. destruct b; cbn [negb]; [|apply Hskip; congruence]. destruct (Hbt eq_refl) as [Hc Hwf]. destruct (OperationHash_Ok program combine_mp_int combine_size_t (_operation op) Hwf) as [h Hh].
  change (OperationHash (mkOperation (_opcode (_operation op)) (_signExtendSourceMask (_operation op)) locs (_src (_operation op)) (_dst (_operation op)))) with (OperationHash (_operation op)). rewrite Hh. cbn [mbind result_bind].
  destruct (candidate_eq i ch0 st rep op h H Hi Hc Hwf) as (o & Hf & Ho).
  match goal with |- context [findM ?f _] => change f with (fun candidate => c ← at_ (_cseOperations st) candidate; OperationsProduceSameResult program (_operation op) (_operation c)) end. rewrite Hf. cbn [mbind result_bind].
  destruct o as [c|]; [|eexists _, rep; split; [reflexivity|by eapply inv_new]].
  destruct Ho as [Hin (opc & Hcl & Hsame)]. pose proof Hin as Hin'. apply (ci_map _ _ _ _ H) in Hin' as (Hlt & Hnc & opc' & Hcl' & Hsc & _). rewrite Hcl in Hcl'. injection Hcl' as <-.
  destruct (rp_result _ _ (ci_rep _ _ _ _ H) c opc Hcl) as (op1 & Hop1 & Hr). rewrite Hnc in Hr. destruct Hr as [locsc ->]. rewrite (at_Some _ _ _ Hop1). cbn [mbind result_bind withLocations _operation _dst].
  destruct (supported_ok c opc Hcl Hsc) as [_ Hwfc]. destruct (co_dst _ _ Hwfc) as (y & dd & Hy & _). rewrite Hy. cbn [at_ lookup list_lookup of_option mbind result_bind destinationRegister]. eexists _, _. split; [reflexivity|].
  assert (Hadd : addLocations (withLocations opc locsc) locs = withLocations opc (locsc ∪ locs)) by done. cbn [withLocations _opcode _signExtendSourceMask _locations _src _dst _getSuccessorBlock _renamingTable _reverseRenamingTable _isContextSaverCaller] in *.
  eapply (inv_replace i ch0 st rep op h c opc _ (locsc ∪ locs)); try done. exists dst, (mkAccessedRegister y), locs. by rewrite ?Hd.
Qed.

Lemma inv_start ch : cse_inv 0 ch (mkCseState ∅ L ch) ∅.
Proof.
  split; cbn [_cseOperations _operationMap _didChangeIR].
  - split; [done|done|done|]. intros k op Hk. exists op. split; [done|]. rewrite lookup_empty. exists (_locations (_operation op)). apply withLocations_id.
  - done.
  - intros h c. rewrite lookup_empty. cbn. split; [by intros ?%not_elem_of_nil|]. intros [? _]; lia.
  - intros; lia.
  - split; [by left|]. intros [?|[]]; done.
Qed.

(** A move of this kind is not looked at again. *)
Lemma moved_unsupported k c op opc op' : L !! k = Some op -> L !! c = Some opc -> supports op -> supports opc -> OperationsProduceSameResult program (_operation op) (_operation opc) = Ok true -> moved op opc op' -> ~ supports op'.
Proof.
  intros Hk Hc Hs Hsc Hsame (r & y & locs & Hd & Hdc & ->). destruct (supported_ok k op Hk Hs) as [Hcse Hwf]. destruct (supported_ok c opc Hc Hsc) as [_ Hwfc].
  destruct (OperationsProduceSameResult_split program _ _ Hwf Hwfc Hcse) as (b & Hb & H & _). rewrite Hsame in Hb. injection Hb as <-. destruct (H eq_refl) as [_ Hw].
  unfold dstWidth in Hw. rewrite Hd, Hdc in Hw. cbn in Hw. destruct (co_width program _ Hwf) as [w Hww]. unfold dstWidth in Hww. rewrite Hd in Hww. cbn in Hww.
  unfold doesOpSupportCSE. rewrite DoesOpcodeSupport_eq. cbn. rewrite <- Hw, Hww. cbn. rewrite Z.eqb_refl. cbn. done.
Qed.

(** What one block becomes *)
Definition cse_result (L' : list FlowOperation) : Prop := exists rep, replacement rep L' /\
  forall c k opc opk, (c < k)%nat -> L' !! c = Some opc -> L' !! k = Some opk -> supports opc -> supports opk -> isLut (_opcode (_operation opk)) = false ->
    OperationsProduceSameResult program (_operation opk) (_operation opc) = Ok false.

(** An operation of the result that the pass looks at is one that it has left. *)
Lemma left_alone rep L' k op' : replacement rep L' -> L' !! k = Some op' -> supports op' -> rep !! k = None /\ exists op locs, L !! k = Some op /\ op' = withLocations op locs.
Proof.
  intros H Hk Hs. destruct (lookup_lt_is_Some_2 L k) as [op Hop]; [rewrite <- (rp_length _ _ H); by eapply lookup_lt_Some|]. destruct (rp_result _ _ H k op Hop) as (op'' & Hop'' & Hr). rewrite Hk in Hop''. injection Hop'' as <-.
  destruct (rep !! k) as [c|] eqn:Ek.
  - destruct Hr as (opc & Hc & Hmv). destruct (rp_candidate _ _ H k c Ek) as (_ & _ & opk & opc' & Hk' & Hc' & Hsk & Hsc & Hsame). rewrite Hop in Hk'. injection Hk' as <-. rewrite Hc in Hc'. injection Hc' as <-. by destruct (moved_unsupported k c op opc op').
  - split; [done|]. destruct Hr as [locs ->]. by exists op, locs.
Qed.

Lemma cseLoop_eq ch : exists st, foldM cseOperation (seq 0 (length L)) (mkCseState ∅ L ch) = Ok st /\ cse_result (_cseOperations st) /\ (_didChangeIR st = true <-> ch = true \/ _cseOperations st <> L).
Proof.
  destruct (foldM_seq_inv cseOperation (fun k st => exists rep, cse_inv k ch st rep) (length L) (mkCseState ∅ L ch)) as (st & -> & rep & H).
  - exists ∅. apply inv_start.
  - intros k st Hk [rep H]. destruct (lookup_lt_is_Some_2 L k Hk) as [op Hop]. destruct (cseOperation_eq k ch st rep op H Hop) as (st' & rep' & -> & H'). exists st'. split; [done|]. by exists rep'.
  - exists st. pose proof (ci_rep _ _ _ _ H) as Hrep. split; [done|]. split.
    + exists rep. split; [done|]. intros c k opc opk Hlt Hc Hk Hsc Hsk Hlut. destruct (left_alone rep _ c opc Hrep Hc Hsc) as (Hnc & oc & lc & Hoc & ->). destruct (left_alone rep _ k opk Hrep Hk Hsk) as (Hnk & ok & lk & Hok' & ->).
      destruct (supported_ok k ok Hok' Hsk) as [Hcse Hwf]. destruct (supported_ok c oc Hoc Hsc) as [_ Hwfc]. change (OperationsProduceSameResult program (_operation ok) (_operation oc) = Ok false).
      destruct (OperationsProduceSameResult_split program _ _ Hwf Hwfc Hcse) as (b & Hb & _ & Hn). rewrite Hb. destruct b; [|done]. destruct (Hn eq_refl Hlut) as [Ho Hs']. rewrite <- Hb.
      apply (ci_distinct _ _ _ _ H c k oc ok); try done; [by eapply lookup_lt_Some|]. symmetry. by apply OperationHash_same.
    + rewrite (ci_changed _ _ _ _ H). split; (intros [?|Hne]; [by left|right]).
      * intros Heq. apply Hne. apply map_empty. intros k. destruct (rep !! k) as [c|] eqn:Ek; [exfalso|done]. destruct (rp_candidate _ _ Hrep k c Ek) as (_ & _ & opk & opc & Hk & Hc & Hsk & Hsc & Hsame).
        destruct (rp_result _ _ Hrep k opk Hk) as (op' & Hop' & Hr). rewrite Ek in Hr. destruct Hr as (opc' & Hc' & Hmv). rewrite Hc in Hc'. injection Hc' as <-. apply (moved_unsupported k c opk opc op' Hk Hc Hsk Hsc Hsame Hmv). rewrite Heq, Hk in Hop'. by injection Hop' as <-.
      * intros ->. by apply Hne, (rp_same _ _ Hrep).
Qed.
End Block.

End Pass.

(** ** Operations of the result do the same *)

Section Same.
Context (combine_mp_int combine_size_t : Z -> Z -> Z) (transformLuts : bool) (program : Program).
Notation supports op := (doesOpSupportCSE transformLuts program (_operation op) = Ok true).

Lemma moved_same (P : (nat -> Z) -> Prop) op opc op' y w : moved op opc op' -> _getSuccessorBlock op = None -> CanOpcodeBeLoweredToLut (_opcode (_operation op)) = true ->
  _dst (_operation opc) = [DstRegister (mkAccessedRegister y)] -> dstWidth program (_operation op) = Ok w -> dstWidth program (_operation opc) = Ok w -> 0 <= w ->
  (forall σ, P σ -> opValue program σ (_operation op) = Some (σ y)) -> does_same program P op op'.
Proof.
  intros (r & y' & locs & Hd & Hdc & ->) Hsucc Hlow Hy Hw Hwc H0 Hval. rewrite Hy in Hdc. injection Hdc as <-. apply does_same_value; cbn [_operation _getSuccessorBlock _renamingTable _dst _opcode]; [by rewrite Hd|by rewrite Hsucc|by rewrite Hsucc|done|done|].
  intros σ HP. pose proof (Hval σ HP) as Hv. rewrite Hv. unfold opValue in Hv |- *. rewrite Hw in Hv. destruct (opInt program σ (_operation op)) as [x|]; [|done]. cbn in Hv. injection Hv as Hx.
  unfold dstWidth in Hw |- *. rewrite Hd in Hw. cbn in Hw |- *. rewrite Hw. unfold dstWidth in Hwc. rewrite Hy in Hwc. cbn in Hwc. unfold registerWidth, at_ in Hwc. destruct (_registerTable program !! y) as [d|] eqn:Ed; [|done]. cbn in Hwc. injection Hwc as <-.
  cbn. unfold srcInt. cbn. unfold operandInt, operandLiteral. cbn. rewrite Ed. cbn. rewrite signExtends_mask0, lit_int_false by done. cbn. rewrite Z.mod_mod by lia. rewrite <- Hx. by rewrite Z.mod_mod by lia.
Qed.

(** A block after the pass, if only enqueue operations have successors *)
Lemma cse_edited L L' : (forall op, op ∈ L -> isCse (_opcode (_operation op)) = true -> cse_ok program (_operation op)) ->
  (forall op, op ∈ L -> _getSuccessorBlock op <> None -> isEnqueue (_opcode (_operation op)) = true) -> cse_result transformLuts program L L' -> edited program L L'.
Proof.
  intros Hok Hsu (rep & Hrep & _). split; [apply (rp_length _ _ _ _ _ Hrep)|]. intros k op op' Hk Hk'. destruct (rp_result _ _ _ _ _ Hrep k op Hk) as (op'' & Hop'' & Hr). rewrite Hk' in Hop''. injection Hop'' as <-.
  destruct (rep !! k) as [c|] eqn:Erep; [|destruct Hr as [locs ->]; by split].
  destruct Hr as (opc & Hc & Hmv). destruct (rp_candidate _ _ _ _ _ Hrep _ c Erep) as (Hlt & _ & opk & opc' & Hkk & Hcc & Hsk & Hsc & Hsame). rewrite Hk in Hkk. injection Hkk as <-. rewrite Hc in Hcc. injection Hcc as <-.
  destruct (supported_ok transformLuts program L Hok k op Hk Hsk) as [Hcse1 Hwf1]. destruct (supported_ok transformLuts program L Hok c opc Hc Hsc) as [Hcse2 Hwf2].
  destruct (doesOpSupportCSE_eq program transformLuts (_operation opc) (fun _ => Hwf2)) as (b2 & Hb2 & H2). rewrite Hsc in Hb2. injection Hb2 as <-. destruct (H2 eq_refl) as (_ & Hsrc2 & Hdst2).
  destruct (OperationsProduceSameResult_split program _ _ Hwf1 Hwf2 Hcse1) as (b3 & Hb3 & H3 & _). rewrite Hsame in Hb3. injection Hb3 as <-. destruct (H3 eq_refl) as [Hval Hw]. destruct (co_dst _ _ Hwf2) as (y & d & Hy & Hd & Hpos).
  assert (Hwc : dstWidth program (_operation opc) = Ok (_regWidth d)) by (unfold dstWidth; rewrite Hy; cbn; unfold registerWidth; by rewrite (at_Some _ _ _ Hd)).
  assert (Hsucc : _getSuccessorBlock op = None) by (destruct (_getSuccessorBlock op) as [s|] eqn:Es; [exfalso|done]; pose proof (Hsu op (list_elem_of_lookup_2 _ _ _ Hk) ltac:(congruence)); by destruct (_opcode (_operation op))).
  apply (moved_same _ op opc op' y (_regWidth d)); try done; [by destruct (_opcode (_operation op))|by rewrite Hw|]. intros σ Hσ. rewrite Hval. apply (Hσ c opc y Hlt Hc); [split; [done|by apply Hdst2|done]|]. intros τ. by apply (cse_value program).
Qed.
End Same.

(** C2: for every function whose blocks write each register once and do not
    read it before, and for every pair of hash functions,
    [CommonSubexpressionElimination] ends with no failed assertion and tells
    whether an operation changed.  The function has exactly the executions that
    it had, with the same observations.  In no block are two operations left that the
    pass looks at, that are not look-up tables, and that produce the same result. *)
Theorem CommonSubexpressionElimination_equivalent combine_mp_int combine_size_t transformLuts program functions blocks fi members :
  function_ok program functions blocks fi Unscheduled members -> (forall b, b ∈ members -> single_assignment program (opsOf blocks Unscheduled b)) ->
  (forall b op, b ∈ members -> op ∈ opsOf blocks Unscheduled b -> isCse (_opcode (_operation op)) = true -> cse_ok program (_operation op)) ->
  exists blocks' changed, CommonSubexpressionElimination combine_mp_int combine_size_t transformLuts program blocks members = Ok (blocks', changed) /\
    (forall b, b ∉ members -> blocks' !! b = blocks !! b) /\
    (changed = true <-> exists b, b ∈ members /\ opsOf blocks' Unscheduled b <> opsOf blocks Unscheduled b) /\
    (forall b bb' c k opc opk, b ∈ members -> blocks' !! b = Some bb' -> (c < k)%nat -> _operations bb' !! c = Some opc -> _operations bb' !! k = Some opk ->
       doesOpSupportCSE transformLuts program (_operation opc) = Ok true -> doesOpSupportCSE transformLuts program (_operation opk) = Ok true -> isLut (_opcode (_operation opk)) = false ->
       OperationsProduceSameResult program (_operation opk) (_operation opc) = Ok false) /\
    (forall globals entry tr b k σ, reaches program globals members entry (opsOf blocks Unscheduled) tr b k σ <->
                                    reaches program globals members entry (opsOf blocks' Unscheduled) tr b k σ).
Proof.
  intros Hok Hsa Hcse. set (R := fun bb bb' => cse_result transformLuts program (_operations bb) (_operations bb') /\ edited_block program bb bb').
  destruct (blocks_loop program functions blocks fi members Hok R (cseBlock combine_mp_int combine_size_t transformLuts program)) as (blocks' & changed & Hrun & R1 & R2 & R3).
  - intros b bb ch Hb Hbb. destruct (fo_block _ _ _ _ _ _ Hok b Hb) as (bb0 & Hbb0 & _ & Hall). rewrite Hbb in Hbb0. injection Hbb0 as <-. rewrite Forall_forall in Hall.
    assert (HL : forall op, op ∈ _operations bb -> op ∈ operationsOf Unscheduled bb) by (intros op Hop; rewrite operationsOf_split; set_solver).
    assert (Hc : forall op, op ∈ _operations bb -> isCse (_opcode (_operation op)) = true -> cse_ok program (_operation op)) by (intros op Hop; apply (Hcse b); [done|]; unfold opsOf; rewrite Hbb; by apply HL).
    unfold cseBlock. destruct (cseLoop_eq combine_mp_int combine_size_t transformLuts program (_operations bb) Hc ch) as (st & -> & Hres & Hch). cbn [mbind result_bind]. eexists _, _. split; [reflexivity|]. split.
    + split; [exact Hres|]. split; [|done..]. apply (cse_edited transformLuts program); [done| |done]. intros op Hop Hs. destruct (_getSuccessorBlock op) as [s|] eqn:Es; [|done]. by apply (ok_successor _ _ _ _ (Hall op (HL op Hop)) s Es).
    + rewrite Hch. rewrite (operationsOf_changed bb) by done. done.
  - exists blocks', changed. split_and!; [exact Hrun|exact R2|exact R3| |].
    + intros b bb' c k opc opk Hb Hbb' Hlt Hc Hk Hsc Hsk Hlut. destruct (R1 b Hb) as (bb & bb'' & _ & Hbb'' & (rep & _ & Hno) & _). rewrite Hbb' in Hbb''. injection Hbb'' as <-. by apply (Hno c k).
    + apply (edited_reaches program blocks members Hsa). intros b Hb. destruct (R1 b Hb) as (bb & bb' & ? & ? & _ & ?). by exists bb, bb'.
Qed.

(** ** A sum that is computed twice *)

Definition sumOp (dst : nat) : FlowOperation := demoUse (BinaryOp ParseTreeBinaryOpTypeAdd) [0%nat; 0%nat] [dst].
Definition sumOps : list FlowOperation := [sumOp 1; sumOp 2; demoUse (Print []) [2%nat] []].
Definition sumBlocks : gmap nat FlowBlock := oneBlock sumOps.
Definition sumCombine (h v : Z) : Z := (31 * h + v) mod 2 ^ 64.

Lemma sum_operations op : op ∈ sumOps -> op = sumOp 1 \/ op = sumOp 2 \/ op = demoUse (Print []) [2%nat] [].
Proof. intros [->|[->|[->|[]%not_elem_of_nil]%elem_of_cons]%elem_of_cons]%elem_of_cons; tauto. Qed.

Lemma sum_ok b op : b ∈ [0%nat] -> op ∈ opsOf sumBlocks Unscheduled b -> isCse (_opcode (_operation op)) = true -> cse_ok demoProgram (_operation op).
Proof.
  intros Hb Hop Hc. unfold sumBlocks in Hop. rewrite oneBlock_ops in Hop by done.
  assert (Hsum : forall dst, (dst < 4)%nat -> cse_ok demoProgram (_operation (sumOp dst))).
  { intros dst Hd. constructor; cbn; [|exists dst, (mkRegisterDescription 8 Local "r"%string); split_and!; [done|by apply (lookup_replicate_2 4)|cbn; lia]|done..].
    repeat (apply Forall_cons_2; [eexists; split; [reflexivity|cbn; lia]|]). by apply Forall_nil_2. }
  destruct (sum_operations op Hop) as [->|[->| ->]]; [apply Hsum; lia..|discriminate].
Qed.

Lemma CommonSubexpressionElimination_equivalent_witness :
  ('(blocks', changed) ← CommonSubexpressionElimination sumCombine sumCombine true demoProgram sumBlocks [0%nat]; Ok (opsOf blocks' Unscheduled 0, changed))
  = Ok ([sumOp 1; demoUse Mov [1%nat] [2%nat]; demoUse (Print []) [2%nat] []], true) /\
  exists blocks' changed, CommonSubexpressionElimination sumCombine sumCombine true demoProgram sumBlocks [0%nat] = Ok (blocks', changed) /\
    (forall b, b ∉ [0%nat] -> blocks' !! b = sumBlocks !! b) /\
    (changed = true <-> exists b, b ∈ [0%nat] /\ opsOf blocks' Unscheduled b <> opsOf sumBlocks Unscheduled b) /\
    (forall b bb' c k opc opk, b ∈ [0%nat] -> blocks' !! b = Some bb' -> (c < k)%nat -> _operations bb' !! c = Some opc -> _operations bb' !! k = Some opk ->
       doesOpSupportCSE true demoProgram (_operation opc) = Ok true -> doesOpSupportCSE true demoProgram (_operation opk) = Ok true -> isLut (_opcode (_operation opk)) = false ->
       OperationsProduceSameResult demoProgram (_operation opk) (_operation opc) = Ok false) /\
    (forall globals entry tr b k σ, reaches demoProgram globals [0%nat] entry (opsOf sumBlocks Unscheduled) tr b k σ <->
                                    reaches demoProgram globals [0%nat] entry (opsOf blocks' Unscheduled) tr b k σ).
Proof.
  split; [vm_compute; reflexivity|]. apply (CommonSubexpressionElimination_equivalent sumCombine sumCombine true demoProgram demoFunctions sumBlocks 0 [0%nat]).
  - apply oneBlock_function. vm_compute. reflexivity.
  - intros b Hb. unfold sumBlocks. rewrite oneBlock_ops by done. apply single_assignmentb_sound. vm_compute. reflexivity.
  - exact sum_ok.
Defined.

(** Two tables for [a & ~b] with their columns in another order *)
Example permuted_columns :
  let op cols t := mkOperation (LutOp (mkLut [fill_entry cols t])) 0 ∅ [SrcRegister (mkAccessedRegister 0); SrcRegister (mkAccessedRegister 1)] [DstRegister (mkAccessedRegister 2)] in
  OperationsProduceSameResult demoProgram (op [(0%nat, 3); (1%nat, 5)] 2) (op [(1%nat, 5); (0%nat, 3)] 4) = Ok true.
Proof. vm_compute. reflexivity. Qed.

End CseCorrect.
