(* ===== verification/KillMoves.v ===== *)
(** * Sources that are copies of other registers

    [optimize.cpp]: [RenameEqualValues] and [KillMoves], which replaces the
    sources of operations that a move has written by the source of the move, so
    that the move becomes dead.

    As in [ConstProp], the address of an operation is its block and its position,
    and the order of the addresses does not matter.  The field [_isDirectSource] of
    the register descriptions and the test of [_optimize] of the configuration
    are arguments. *)

From S2P Require Import Prelude MachineInt Literals Ir Flow Opcodes ConstProp.
Import MachineInt Containers Literals Ir Flow Opcodes ConstProp.

Module KillMoves.

Notation EqualValueMap := (gmap nat SourceOperand).
Notation PredecessorMap := (gmap (nat * nat) (gmap nat SourceOperand)).

(** One entry of the predecessor *)
Definition renameEntry (op : FlowOperation) (valuesForSuccessor : EqualValueMap) (p : nat * SourceOperand) : result EqualValueMap :=
  let overwritten := match p.2 with SrcRegister r => bool_decide (is_Some (_renamingTable op !! _registerIndex r)) | _ => false end in
  if overwritten then Ok valuesForSuccessor
  else if bool_decide (_renamingTable op !! p.1 = None) then
    registerIndex ← MapRenamedToOriginalRegisterIndex op p.1;
    second ← match p.2 with
             | SrcRegister r => secondRegisterIndex ← MapRenamedToOriginalRegisterIndex op (_registerIndex r); Ok (SrcRegister (mkAccessedRegister secondRegisterIndex))
             | second => Ok second
             end;
    Ok (<[registerIndex := second]> valuesForSuccessor)
  else Ok valuesForSuccessor.

Definition RenameEqualValues (equalValues valuesForSuccessor : EqualValueMap) (op : FlowOperation) : result EqualValueMap :=
  foldM (renameEntry op) (map_entries equalValues) valuesForSuccessor.

Section Kill.
Context (program : Program) (isDirectSource : nat -> bool) (optimizing : bool).

(** What a move tells of its destination *)
Definition recordMove (equalValues : EqualValueMap) (op : FlowOperation) : result EqualValueMap :=
  let o := _operation op in
  match _opcode o with
  | Mov =>
      assert_ (1 =? length (_src o))%nat;;
      assert_ (1 =? length (_dst o))%nat;;
      srcReg ← at_ (_src o) 0;
      d ← at_ (_dst o) 0;
      dstReg ← (match d with DstRegister r => Ok r | DstFifo _ => Err AssertionFailed end);
      let srcIsLiteral := isLiteral srcReg in
      assert_ (srcIsLiteral || isRegister srcReg);;
      allowed ← (if srcIsLiteral then Ok true
                 else r ← GetAccessedRegister srcReg; t ← registerType program (_registerIndex r); Ok (_allowedInKillMoves (GetRegisterTableEntry t)));
      if allowed : bool then
        destWidth ← DestinationOperand_Width program d;
        let dstHasSource := isDirectSource (_registerIndex dstReg) in
        if negb optimizing && dstHasSource then Ok equalValues
        else match srcReg with
             | SrcLiteral l =>
                 Ok (if 0 =? _signExtendSourceMask o then <[_registerIndex dstReg := SrcLiteral (mkLiteral (Truncate (_value l) destWidth) destWidth)]> equalValues else equalValues)
             | _ =>
                 srcWidth ← SourceOperand_Width program srcReg;
                 Ok (if destWidth =? srcWidth then <[_registerIndex dstReg := srcReg]> equalValues else equalValues)
             end
      else Ok equalValues
  | _ => Ok equalValues
  end.

Section Function_.
Context (blocks : gmap nat FlowBlock) (functionIndex : nat).

(** The first [callback] *)
Definition initialEntry (b : nat) (equalValues : EqualValueMap) (inputValueMap : gmap nat PredecessorMap) (p : nat * FlowOperation) : result (gmap nat PredecessorMap) :=
  match _getSuccessorBlock p.2 with
  | Some successor =>
      s ← blockAt blocks successor;
      if (_function s =? functionIndex)%nat then
        valuesForSuccessor ← RenameEqualValues equalValues ∅ p.2;
        Ok (<[successor := <[(b, p.1) := valuesForSuccessor]> (default ∅ (inputValueMap !! successor))]> inputValueMap)
      else Ok inputValueMap
  | None => Ok inputValueMap
  end.

Definition initializeBlock (st : gmap nat EqualValueMap * gmap nat PredecessorMap) (b : nat) : result (gmap nat EqualValueMap * gmap nat PredecessorMap) :=
  let '(equalValueMaps, inputValueMap) := st in
  basicBlock ← blockAt blocks b;
  equalValues ← foldM recordMove (_operations basicBlock) (default ∅ (equalValueMaps !! b));
  inputValueMap ← foldM (initialEntry b equalValues) (enumerate (operationsOf Unscheduled basicBlock)) inputValueMap;
  Ok (<[b := equalValues]> equalValueMaps, inputValueMap).

(** The values on which all predecessors agree are added to both maps. *)
Definition addAgreed (predecessorMap : PredecessorMap) (st : EqualValueMap * EqualValueMap) (p : nat * SourceOperand) : result (EqualValueMap * EqualValueMap) :=
  let '(equalValues, newEqualValues) := st in
  let shouldInsert := forallb (fun q => bool_decide (q.2 !! p.1 = Some p.2)) (map_to_list predecessorMap) in
  if shouldInsert then
    match equalValues !! p.1 with
    | None => Ok (<[p.1 := p.2]> equalValues, <[p.1 := p.2]> newEqualValues)
    | Some second => assert_ (bool_decide (second = p.2));; Ok (equalValues, newEqualValues)
    end
  else Ok (equalValues, newEqualValues).

Definition addEntry (previousValues : EqualValueMap) (p : nat * SourceOperand) : result EqualValueMap :=
  match previousValues !! p.1 with
  | Some second => assert_ (bool_decide (p.2 = second));; Ok previousValues
  | None => Ok (<[p.1 := p.2]> previousValues)
  end.

(** The second [callback] *)
Definition propagateEntry (b : nat) (equalValues : EqualValueMap) (st : gmap nat PredecessorMap * gset nat) (p : nat * FlowOperation) : result (gmap nat PredecessorMap * gset nat) :=
  let '(inputValueMap, workList) := st in
  match _getSuccessorBlock p.2 with
  | Some successor =>
      s ← blockAt blocks successor;
      if (_function s =? functionIndex)%nat then
        valuesForSuccessor ← RenameEqualValues equalValues ∅ p.2;
        nextPredecessorMap ← of_option AssertionFailed (inputValueMap !! successor);
        previousValues ← of_option AssertionFailed (nextPredecessorMap !! (b, p.1));
        previousValues ← foldM addEntry (map_entries valuesForSuccessor) previousValues;
        workList ← AddBasicBlock blocks functionIndex workList successor;
        Ok (<[successor := <[(b, p.1) := previousValues]> nextPredecessorMap]> inputValueMap, workList)
      else Ok st
  | None => Ok st
  end.

Context (firstBlock : gset nat -> nat).

(** One block of the work list *)
Definition killBlock (equalValueMaps : gmap nat EqualValueMap) (inputValueMap : gmap nat PredecessorMap) (workList : gset nat)
    : result (gmap nat EqualValueMap * gmap nat PredecessorMap * gset nat) :=
  '(b, workList) ← Pop blocks functionIndex firstBlock workList;
  let equalValues := default ∅ (equalValueMaps !! b) in
  let predecessorMap := default ∅ (inputValueMap !! b) in
  '(equalValues, newEqualValues) ← (match map_to_list predecessorMap with
                                    | [] => Ok (equalValues, ∅)
                                    | (_, valuesAtPredecessor0) :: _ => foldM (addAgreed predecessorMap) (map_entries valuesAtPredecessor0) (equalValues, ∅)
                                    end);
  let equalValueMaps := <[b := equalValues]> equalValueMaps in
  if bool_decide (newEqualValues = ∅) then Ok (equalValueMaps, inputValueMap, workList)
  else
    basicBlock ← blockAt blocks b;
    '(inputValueMap, workList) ← foldM (propagateEntry b equalValues) (enumerate (operationsOf Unscheduled basicBlock)) (inputValueMap, workList);
    Ok (equalValueMaps, inputValueMap, workList).

Fixpoint killLoop (fuel : nat) (equalValueMaps : gmap nat EqualValueMap) (inputValueMap : gmap nat PredecessorMap) (workList : gset nat) : result (gmap nat EqualValueMap) :=
  if bool_decide (workList = ∅) then Ok equalValueMaps
  else match fuel with
       | O => Err OutOfFuel
       | S fuel => '(equalValueMaps, inputValueMap, workList) ← killBlock equalValueMaps inputValueMap workList; killLoop fuel equalValueMaps inputValueMap workList
       end.

(** One source operand: the state is the operation and [didChangeIR]. *)
Definition replaceSource (equalValues : EqualValueMap) (st : bool * Operation) (i : nat) : result (bool * Operation) :=
  let '(didChangeIR, op) := st in
  srcOp ← at_ (_src op) i;
  match srcOp with
  | SrcRegister reg =>
      match equalValues !! _registerIndex reg with
      | Some (SrcLiteral l) => width ← registerWidth program (_registerIndex reg); Ok (true, setSource op i (SrcLiteral (mkLiteral (_value l) width)))
      | Some equalValue => Ok (didChangeIR || negb (bool_decide (srcOp = equalValue)), setSource op i equalValue)
      | None => Ok st
      end
  | _ => Ok st
  end.

(** The third [callback] *)
Definition replaceSources (equalValues : EqualValueMap) (didChangeIR : bool) (op : FlowOperation) : result (bool * FlowOperation) :=
  preserve ← ShouldPreserveInputRegisters (_opcode (_operation op));
  if negb preserve then
    '(didChangeIR, o) ← foldM (replaceSource equalValues) (seq 0 (length (_src (_operation op)))) (didChangeIR, _operation op);
    Ok (didChangeIR, withOperation op o)
  else Ok (didChangeIR, op).

End Function_.

Definition replaceBlock (equalValueMaps : gmap nat EqualValueMap) (st : gmap nat FlowBlock * bool) (b : nat) : result (gmap nat FlowBlock * bool) :=
  let '(blocks, didChangeIR) := st in
  basicBlock ← blockAt blocks b;
  '(didChangeIR, basicBlock) ← ForEachOperationForward (replaceSources (default ∅ (equalValueMaps !! b))) Unscheduled basicBlock didChangeIR;
  Ok (<[b := basicBlock]> blocks, didChangeIR).

(** [function._basicBlocks] are [members]. *)
Definition KillMoves (functionIndex : nat) (firstBlock : gset nat -> nat) (fuel : nat) (blocks : gmap nat FlowBlock) (members : list nat) : result (gmap nat FlowBlock * bool) :=
  '(equalValueMaps, inputValueMap) ← foldM (initializeBlock blocks functionIndex) members (∅, ∅);
  equalValueMaps ← killLoop blocks functionIndex firstBlock fuel equalValueMaps inputValueMap (DataFlowWorkList members);
  foldM (replaceBlock equalValueMaps) members (blocks, false).
End Kill.

End KillMoves.
