(* ===== verification/KillFacts.v ===== *)
(** * Sources that are copies: moves, edges and blocks

    What one move tells ([recordMove_eq]), what an enqueue operation passes on
    ([RenameEqualValues_eq]), and the facts about the destinations of the moves of
    a block ([moves_eq]). *)

From S2P Require Import Prelude MachineInt Literals Ir Run Semantics Flow LivenessFacts Opcodes ConstProp FlowPaths.
From S2P Require Import ConstPropOps KillMoves LivenessCorrect.
Import MachineInt Containers Literals Ir Run Semantics Flow FlowSemantics Opcodes ConstProp FlowPaths ConstPropEdges ConstPropBlock KillMoves.

Module KillFacts.

Notation EqualValueMap := (gmap nat SourceOperand).

(** ** Edges *)

Definition back (op : FlowOperation) (r : nat) : nat := OptionallyMapIndex r (_reverseRenamingTable op).
Definition backOperand (op : FlowOperation) (s : SourceOperand) : SourceOperand :=
  match s with SrcRegister r => SrcRegister (mkAccessedRegister (back op (_registerIndex r))) | _ => s end.

(** Neither register has been overwritten by the block. *)
Definition passesOn (op : FlowOperation) (p : nat) (s : SourceOperand) : Prop :=
  _renamingTable op !! p = None /\ forall r, s = SrcRegister r -> _renamingTable op !! _registerIndex r = None.

Section Edge.
Context (program : Program) (op : FlowOperation) (He : isEnqueue (_opcode (_operation op)) = true) (Ht : tables_ok program op).

Definition passesOnb (p : nat) (s : SourceOperand) : bool :=
  bool_decide (_renamingTable op !! p = None) && match s with SrcRegister r => bool_decide (_renamingTable op !! _registerIndex r = None) | _ => true end.

Lemma passesOn_spec p s : passesOnb p s = true <-> passesOn op p s.
Proof.
  unfold passesOnb, passesOn. rewrite andb_true_iff, bool_decide_eq_true. destruct s as [l|r|f|t]; split; intros [H1 H2]; (split; [done|]); try done.
  - intros r' [= <-]. by apply bool_decide_eq_true in H2.
  - apply bool_decide_eq_true. by apply H2.
Qed.

Lemma renameEntry_eq M p s : renameEntry op M (p, s) = Ok (if passesOnb p s then <[back op p := backOperand op s]> M else M).
Proof.
  unfold renameEntry, MapRenamedToOriginalRegisterIndex, passesOnb. cbn [fst snd]. rewrite He. cbn [assert_ mbind result_bind].
  destruct s as [l|r|f|t]; cbn [backOperand mbind result_bind]; try (by case_bool_decide).
  destruct (_renamingTable op !! _registerIndex r) as [n|] eqn:Er.
  - rewrite bool_decide_true by (by eexists). by rewrite andb_false_r.
  - rewrite bool_decide_false by (intros [? ?]; done). rewrite andb_true_r. by case_bool_decide.
Qed.

Lemma RenameEqualValues_eq M : exists M', RenameEqualValues M ∅ op = Ok M' /\
  forall y t, M' !! y = Some t <-> exists p s, M !! p = Some s /\ passesOn op p s /\ y = back op p /\ t = backOperand op s.
Proof.
  unfold RenameEqualValues.
  destruct (foldM_prefix_inv (renameEntry op) (fun pre (M' : EqualValueMap) => pre ⊆ map_entries M ->
    forall y t, M' !! y = Some t <-> exists p s, (p, s) ∈ pre /\ passesOn op p s /\ y = back op p /\ t = backOperand op s) (map_entries M) ∅) as (M' & HM & Hinv).
  - intros _ y t. rewrite lookup_empty. split; [done|]. intros (p & s & Hp & _). set_solver.
  - intros pre [p s] M' Hps HI. rewrite renameEntry_eq. eexists. split; [reflexivity|]. intros Hsub y t. specialize (HI ltac:(set_solver)).
    apply elem_of_map_entries in Hps. setoid_rewrite elem_of_app. setoid_rewrite list_elem_of_singleton. destruct (passesOnb p s) eqn:Hc.
    + apply passesOn_spec in Hc. destruct (decide (y = back op p)) as [->|Hne].
      * rewrite lookup_insert_eq. split; [intros [= <-]; exists p, s; naive_solver|]. intros (p' & s' & Hp' & Hpo & Heq & ->). apply (reverse_injective program) in Heq as <-; [|done|apply Hc|apply Hpo].
        destruct Hp' as [Hp'|[= <-]]; [|done]. assert (Hin : (p, s') ∈ map_entries M) by set_solver. apply elem_of_map_entries in Hin. congruence.
      * rewrite lookup_insert_ne by done. rewrite HI. split; [intros (p' & s' & Hp' & H3); exists p', s'; by split; [left|]|]. intros (p' & s' & [Hp'|[= -> ->]] & H3); [by exists p', s'|]. by destruct H3 as (_ & -> & _).
    + rewrite HI. split; [intros (p' & s' & Hp' & H3); exists p', s'; by split; [left|]|]. intros (p' & s' & [Hp'|[= -> ->]] & H3); [by exists p', s'|]. destruct H3 as [Hpo _]. apply passesOn_spec in Hpo. congruence.
  - exists M'. split; [done|]. intros y t. rewrite Hinv by done. by setoid_rewrite elem_of_map_entries.
Qed.

Definition renamed (M : EqualValueMap) : EqualValueMap := match RenameEqualValues M ∅ op with Ok M' => M' | Err _ => ∅ end.

Lemma renamed_eq M : RenameEqualValues M ∅ op = Ok (renamed M).
Proof. unfold renamed. by destruct (RenameEqualValues_eq M) as (M' & -> & _). Qed.

Lemma renamed_lookup M y t : renamed M !! y = Some t <-> exists p s, M !! p = Some s /\ passesOn op p s /\ y = back op p /\ t = backOperand op s.
Proof. unfold renamed. destruct (RenameEqualValues_eq M) as (M' & -> & HM). apply HM. Qed.

Lemma renamed_mono M1 M2 : M1 ⊆ M2 -> renamed M1 ⊆ renamed M2.
Proof. rewrite !map_subseteq_spec. intros Hsub y t. rewrite !renamed_lookup. intros (p & s & Hp & H). exists p, s. split; [by apply Hsub|done]. Qed.

(** A register that is passed on has the value in the successor that it had. *)
Lemma back_value σ σ' r : passes program op σ σ' -> isGlobal program r = false -> _renamingTable op !! r = None ->
  isGlobal program (back op r) = false /\ operandLiteral program σ' (SrcRegister (mkAccessedRegister (back op r))) = operandLiteral program σ (SrcRegister (mkAccessedRegister r)).
Proof.
  intros Hp Hg Hn. unfold back, OptionallyMapIndex, LookupWithDefault. destruct (_reverseRenamingTable op !! r) as [o|] eqn:E.
  - apply (tb_reverse _ _ Ht) in E. destruct (tb_renamed _ _ Ht o r E) as (d & d' & Hd & Hd' & Hw & Ht'). assert (Hgo : isGlobal program o = false) by (unfold isGlobal; rewrite Hd; by apply bool_decide_eq_false_2).
    split; [done|]. cbn. rewrite Hd, Hd'. cbn. rewrite (Hp o Hgo). unfold OptionallyMapIndex, LookupWithDefault. by rewrite E, Hw.
  - split; [done|]. cbn. rewrite (Hp r Hg). unfold OptionallyMapIndex, LookupWithDefault. by rewrite Hn.
Qed.
End Edge.

(** ** Moves *)

Section Moves.
Context (program : Program) (isDirectSource : nat -> bool) (optimizing : bool).

(** The operation is a move that tells that register [y] is equal to [s]. *)
Definition moveFact (op : FlowOperation) (y : nat) (s : SourceOperand) : Prop :=
  _opcode (_operation op) = Mov /\ _dst (_operation op) = [DstRegister (mkAccessedRegister y)] /\
  ((exists l d, _src (_operation op) = [SrcLiteral l] /\ _signExtendSourceMask (_operation op) = 0 /\ _registerTable program !! y = Some d /\ s = SrcLiteral (mkLiteral (Truncate (_value l) (_regWidth d)) (_regWidth d))) \/
   (exists x d d', _src (_operation op) = [SrcRegister x] /\ _registerTable program !! y = Some d /\ _registerTable program !! _registerIndex x = Some d' /\ _type d' = Local /\ _regWidth d = _regWidth d' /\ s = SrcRegister x)).

(** A move has one source, a literal or a register, and one destination. *)
Definition move_ok (op : FlowOperation) : Prop :=
  _opcode (_operation op) = Mov -> exists y d, _dst (_operation op) = [DstRegister (mkAccessedRegister y)] /\ _registerTable program !! y = Some d /\ isGlobal program y = false /\ 0 < _regWidth d /\
    ((exists l, _src (_operation op) = [SrcLiteral l] /\ lit_wf l) \/ exists x d', _src (_operation op) = [SrcRegister x] /\ _registerTable program !! _registerIndex x = Some d' /\ 0 < _regWidth d').

Notation recordMove := (recordMove program isDirectSource optimizing).

Lemma recordMove_eq M op : move_ok op -> exists M', recordMove M op = Ok M' /\ (M' = M \/ exists y s, M' = <[y := s]> M /\ moveFact op y s).
Proof.
  intros Hok. unfold recordMove. destruct (_opcode (_operation op)) eqn:Eo; try (by exists M; split; [|left]). destruct (Hok Eo) as (y & d & Hdst & Hd & _ & _ & Hsrc). rewrite Hdst.
  destruct Hsrc as [(l & Hs & _)|(x & d' & Hs & Hx & _)]; rewrite Hs; cbn [length Nat.eqb assert_ mbind result_bind at_ lookup list_lookup isLiteral isRegister orb].
  - unfold DestinationOperand_Width, registerWidth. cbn [_registerIndex]. rewrite (at_Some _ _ _ Hd). cbn [mbind result_bind].
    destruct (negb optimizing && isDirectSource y); [by exists M; split; [|left]|]. destruct (Z.eqb_spec 0 (_signExtendSourceMask (_operation op))) as [E|E]; [|by exists M; split; [|left]].
    eexists. split; [reflexivity|]. right. eexists _, _. split; [reflexivity|]. split; [done|]. split; [done|]. left. by exists l, d.
  - cbn [GetAccessedRegister mbind result_bind]. unfold registerType. rewrite (at_Some _ _ _ Hx). cbn [GetAccessedRegister mbind result_bind].
    destruct (_allowedInKillMoves _) eqn:Ea; [|by exists M; split; [|left]]. assert (Hloc : _type d' = Local) by (by destruct (_type d')).
    unfold DestinationOperand_Width, SourceOperand_Width, registerWidth. cbn [_registerIndex]. rewrite (at_Some _ _ _ Hd). cbn [mbind result_bind].
    destruct (negb optimizing && isDirectSource y); [by exists M; split; [|left]|]. rewrite (at_Some _ _ _ Hx). cbn [mbind result_bind]. destruct (Z.eqb_spec (_regWidth d) (_regWidth d')) as [E|E]; [|by exists M; split; [|left]].
    eexists. split; [reflexivity|]. right. eexists _, _. split; [reflexivity|]. split; [done|]. split; [done|]. right. by exists x, d, d'.
Qed.

(** The facts of some moves *)
Lemma moves_eq ops : Forall move_ok ops -> exists M, foldM recordMove ops ∅ = Ok M /\ forall y s, M !! y = Some s -> exists op, op ∈ ops /\ moveFact op y s.
Proof.
  intros Hok. destruct (foldM_prefix_inv recordMove (fun pre (M : EqualValueMap) => forall y s, M !! y = Some s -> exists op, op ∈ pre /\ moveFact op y s) ops ∅) as (M & HM & Hinv).
  - intros y s. by rewrite lookup_empty.
  - intros pre op M Hop IH. rewrite Forall_forall in Hok. destruct (recordMove_eq M op (Hok op Hop)) as (M' & -> & HM'). exists M'. split; [done|]. intros y s Hy.
    destruct HM' as [->|(y' & s' & -> & Hf)]; [destruct (IH y s Hy) as (o & Ho & ?); exists o; split; [apply elem_of_app; by left|done]|].
    apply lookup_insert_Some in Hy as [[-> ->]|[_ Hy]]; [exists op; split; [apply elem_of_app; right; by left|done]|]. destruct (IH y s Hy) as (o & Ho & ?). exists o. split; [apply elem_of_app; by left|done].
  - by exists M.
Qed.

(** After the move the destination has the value of the source before it. *)
Lemma moveFact_value op y s σ vs : move_ok op -> moveFact op y s -> results_of program σ (_operation op) vs ->
  exists v, vs = [v] /\ operandLiteral program (write (_dst (_operation op)) vs σ) (SrcRegister (mkAccessedRegister y)) = operandLiteral program σ s.
Proof.
  intros Hok (Eo & Hdst & Hcase) [_ Hv]. destruct (Hok Eo) as (y' & d0 & Hdst' & Hd0 & _ & Hpos & Hsrc). rewrite Hdst in Hdst'. injection Hdst' as <-.
  assert (Hw : forall v, write (_dst (_operation op)) [v] σ y = v).
  { intros v. rewrite Hdst. cbn. unfold writeOne. cbn. by rewrite functions.fn_lookup_insert. }
  assert (Hval : forall v, opInt program σ (_operation op) = Some v -> vs = [v mod 2 ^ _regWidth d0]).
  { intros v Hi. apply Hv. unfold opValue, dstWidth, at_. rewrite Hdst. cbn. unfold registerWidth. rewrite (at_Some _ _ _ Hd0). cbn. by rewrite Hi. }
  unfold opInt in Hval. rewrite Eo in Hval. specialize (Hval _ eq_refl). eexists. split; [exact Hval|]. rewrite Hval. cbn [operandLiteral _registerIndex]. rewrite Hd0. cbn [mbind option_bind]. rewrite Hw, Z.mod_mod by lia.
  destruct Hcase as [(l & d & Hs & Hmask & Hd & ->)|(x & d & d' & Hs & Hd & Hx & _ & Hww & ->)]; rewrite Hd0 in Hd; injection Hd as <-; unfold srcInt, signExtends; rewrite Hs; cbn [lookup list_lookup].
  - cbn [operandInt]. unfold operandInt. cbn [operandLiteral]. destruct Hsrc as [(l' & Hs' & Hl)|(x & d' & Hs' & _)]; [|congruence]. rewrite Hs in Hs'. injection Hs' as <-. rewrite Hmask, Z.testbit_0_l. rewrite Truncate_mod by lia. unfold lit_int, lit_neg. cbn. done.
  - unfold operandInt. cbn [operandLiteral]. rewrite Hx. cbn [mbind option_bind]. f_equal. rewrite Hww. f_equal. cbn [lit_int]. unfold lit_int. cbn [_value _width].
    destruct (lit_neg _ _); [|by rewrite Z.mod_mod by lia]. rewrite Zminus_mod, Z.mod_mod, Z_mod_same_full, Z.sub_0_r by lia. by rewrite !Z.mod_mod by lia.
Qed.
End Moves.

End KillFacts.

(** * Sources that are copies: the work list

    What the loop of [KillMoves] keeps ([kinv]): a register is equal to an operand
    at the start of a block only if all the enqueue operations that lead to the
    block pass the fact on.  Because every block can be reached from an entry, to
    which no block leads, no such fact mentions a register that the block itself
    writes ([entry_fresh]); so the assertions hold. *)

Import MachineInt Containers Literals Ir Run Semantics Flow FlowSemantics LivenessFacts LivenessCorrect ConstProp FlowPaths ConstPropEdges ConstPropBlock KillMoves KillFacts.

Module KillAnalysis.

Notation EqualValueMap := (gmap nat SourceOperand).
Notation PredecessorMap := (gmap (nat * nat) (gmap nat SourceOperand)).

(** ** Maps *)

Definition ev (maps : gmap nat EqualValueMap) (b : nat) : EqualValueMap := default ∅ (maps !! b).

Lemma ev_insert maps b M c : ev (<[b := M]> maps) c = if decide (c = b) then M else ev maps c.
Proof. unfold ev. destruct (decide (c = b)) as [->|]; [by rewrite lookup_insert_eq|by rewrite lookup_insert_ne]. Qed.

(** What is recorded for an enqueue operation *)
Definition recordedAt (maps : gmap nat PredecessorMap) (s : nat) (key : nat * nat) : option EqualValueMap := default ∅ (maps !! s) !! key.

Lemma recordedAt_insert maps s key M s' key' :
  recordedAt (<[s := <[key := M]> (default ∅ (maps !! s))]> maps) s' key' = if decide (s' = s /\ key' = key) then Some M else recordedAt maps s' key'.
Proof.
  unfold recordedAt. destruct (decide (s' = s)) as [->|Hne].
  - rewrite lookup_insert_eq. cbn [default from_option id]. destruct (decide (key' = key)) as [->|]; [rewrite lookup_insert_eq, decide_True by done; done|]. rewrite lookup_insert_ne, decide_False by naive_solver. done.
  - rewrite lookup_insert_ne by done. rewrite decide_False by naive_solver. done.
Qed.

(** All predecessors have the fact. *)
Definition agreed (pm : PredecessorMap) (y : nat) (t : SourceOperand) : Prop := forall key M, pm !! key = Some M -> M !! y = Some t.

Lemma kill_agreed_spec pm y t : forallb (fun q => bool_decide (q.2 !! y = Some t)) (map_to_list pm) = true <-> agreed pm y t.
Proof.
  rewrite forallb_forall. split.
  - intros H k M Hk. apply elem_of_map_to_list in Hk. specialize (H (k, M) (proj1 (list_elem_of_In _ _) Hk)). by apply bool_decide_eq_true_1 in H.
  - intros H [k M] Hk. apply list_elem_of_In, elem_of_map_to_list in Hk. apply bool_decide_eq_true_2. by eapply H.
Qed.

(** What the agreement of the predecessors adds to a map *)
Record added (pm : PredecessorMap) (M M' New : EqualValueMap) : Prop := mk_added {
  ad_old : M ⊆ M';
  ad_new : forall y t, M' !! y = Some t -> M !! y = Some t \/ agreed pm y t;
  ad_same : New = ∅ -> M' = M;
  ad_grows : New <> ∅ -> (size M < size M')%nat }.

Lemma addAgreed_eq pm k0 V0 M es : pm !! k0 = Some V0 -> (forall y t t', agreed pm y t -> M !! y = Some t' -> t' = t) ->
  exists M' New, foldM (addAgreed pm) es (M, ∅) = Ok (M', New) /\ added pm M M' New.
Proof.
  intros H0 Hag. destruct (foldM_inv (addAgreed pm) (fun st => added pm M st.1 st.2) es (M, ∅)) as ([M' New] & Hrun & H).
  - split; try done. by left.
  - intros [M1 N1] [y t] _ [A1 A2 A3 A4]. cbn [fst snd] in *. unfold addAgreed. cbn [fst snd]. destruct (forallb _ _) eqn:Ef; [|exists (M1, N1); by split].
    apply kill_agreed_spec in Ef. destruct (M1 !! y) as [t'|] eqn:Ey.
    + assert (t' = t) as -> by (destruct (A2 y t' Ey) as [Hy|Hy]; [by apply (Hag y t t')|pose proof (Hy _ _ H0); pose proof (Ef _ _ H0); congruence]).
      rewrite bool_decide_true by done. exists (M1, N1). by split.
    + exists (<[y := t]> M1, <[y := t]> N1). split; [done|]. split; cbn [fst snd].
      * etransitivity; [exact A1|]. by apply insert_subseteq.
      * intros y' t' [[<- <-]|[_ H]]%lookup_insert_Some; [by right|by apply A2].
      * intros E. exfalso. apply (f_equal (lookup y)) in E. by rewrite lookup_insert_eq, lookup_empty in E.
      * intros _. rewrite map_size_insert_None by done. pose proof (map_subseteq_size _ _ A1). lia.
  - by exists M', New.
Qed.

Lemma addEntry_eq P R : P ⊆ R -> foldM addEntry (map_entries R) P = Ok R.
Proof.
  intros HP. destruct (foldM_prefix_inv addEntry (fun pre (Q : EqualValueMap) => P ⊆ Q /\ Q ⊆ R /\ forall y t, (y, t) ∈ pre -> Q !! y = Some t) (map_entries R) P) as (Q & HQ & H1 & H2 & H3).
  - split_and!; [done|done|]. intros y t. by intros ?%not_elem_of_nil.
  - intros pre [y t] Q Hin (H1 & H2 & H3). apply elem_of_map_entries in Hin. unfold addEntry. cbn [fst snd]. destruct (Q !! y) as [t'|] eqn:Ey.
    + assert (t' = t) as -> by (pose proof (lookup_weaken _ _ _ _ Ey H2); congruence). rewrite bool_decide_true by done. exists Q. split_and!; [done|done|done|].
      intros y' t' [Hp|[= -> ->]%list_elem_of_singleton]%elem_of_app; [by apply H3|done].
    + eexists. split; [reflexivity|]. split_and!.
      * etransitivity; [exact H1|]. by apply insert_subseteq.
      * apply map_subseteq_spec. intros y' t' [[<- <-]|[_ H]]%lookup_insert_Some; [done|]. by eapply lookup_weaken.
      * intros y' t' [Hp|[= -> ->]%list_elem_of_singleton]%elem_of_app; [|by rewrite lookup_insert_eq]. rewrite lookup_insert_ne; [by apply H3|]. intros <-. apply H3 in Hp. congruence.
  - rewrite HQ. f_equal. apply (anti_symm (⊆)); [done|]. apply map_subseteq_spec. intros y t Hy. apply H3. by apply elem_of_map_entries.
Qed.

(** ** The function *)

Section Function_.
Context (program : Program) (functions : list FlowFunction) (blocks : gmap nat FlowBlock) (fi : nat) (members : list nat).
Context (Hok : function_ok program functions blocks fi Unscheduled members).
Notation ops b := (opsOf blocks Unscheduled b).
Notation edge := (edge blocks Unscheduled members).
Notation N := (numRegisters program).
Notation writes := (blockWrites program).
Notation renamed := (renamed).

(** Operation [k] of block [c] leads to block [s] of the function. *)
Definition edge_op (c k s : nat) (op : FlowOperation) : Prop := c ∈ members /\ s ∈ members /\ ops c !! k = Some op /\ _getSuccessorBlock op = Some s.

Definition entry (b : nat) : Prop := b ∈ members /\ forall c, ~ edge c b.

Inductive connected : nat -> Prop :=
| connected_entry b : entry b -> connected b
| connected_edge c s : connected c -> edge c s -> connected s.

(** The function after renaming: every register that is not global is written by
    one operation of one block, and read only after it in this block; the
    renaming tables lead to registers that no block writes.  Every block can be
    reached from an entry. *)
Record kill_ok : Prop := mk_kill_ok {
  ko_tables : forall c k s op, edge_op c k s op -> tables_ok program op;
  ko_moves : forall b op, b ∈ members -> op ∈ ops b -> move_ok program op;
  ko_once : forall b, b ∈ members -> NoDup (writes (ops b));
  ko_one_block : forall b c r, b ∈ members -> c ∈ members -> r ∈ writes (ops b) -> r ∈ writes (ops c) -> b = c;
  ko_private : forall b c k op r, b ∈ members -> c ∈ members -> r ∈ writes (ops b) -> ops c !! k = Some op -> SrcRegister (mkAccessedRegister r) ∈ _src (_operation op) -> c = b /\ r ∈ writes (take k (ops b));
  ko_originals : forall c k s op o n b, edge_op c k s op -> b ∈ members -> _renamingTable op !! o = Some n -> o ∉ writes (ops b);
  ko_renamed : forall c k s op o n, edge_op c k s op -> _renamingTable op !! o = Some n -> n ∈ writes (take k (ops c));
  ko_connected : forall b, b ∈ members -> connected b }.

Context (Hko : kill_ok).

Lemma kill_edge_op_edge c k s op : edge_op c k s op -> edge c s.
Proof. intros (Hc & Hs & Hk & He). split; [done|]. split; [done|]. exists op. split; [by eapply list_elem_of_lookup_2|done]. Qed.

Lemma edge_edge_op c s : edge c s -> exists k op, edge_op c k s op.
Proof. intros (Hc & Hs & op & Hop & He). apply list_elem_of_lookup in Hop as [k Hk]. by exists k, op. Qed.

Lemma kill_member_ops b op : b ∈ members -> op ∈ ops b -> op_ok program functions blocks op.
Proof.
  intros Hb Hop. destruct (fo_block _ _ _ _ _ _ Hok b Hb) as (bb & Hbb & _ & Hops). unfold opsOf in Hop. rewrite Hbb in Hop. rewrite Forall_forall in Hops. by apply Hops.
Qed.

Lemma edge_op_enqueue c k s op : edge_op c k s op -> isEnqueue (_opcode (_operation op)) = true.
Proof. intros (Hc & _ & Hk & Hs). by apply (ok_successor _ _ _ _ (kill_member_ops c op Hc (list_elem_of_lookup_2 _ _ _ Hk)) s Hs). Qed.

Lemma edge_op_renamed c k s op M : edge_op c k s op -> RenameEqualValues M ∅ op = Ok (renamed op M).
Proof. intros He. apply (renamed_eq program); [by eapply edge_op_enqueue|by eapply ko_tables]. Qed.

Lemma edge_op_lookup c k s op M y t : edge_op c k s op -> renamed op M !! y = Some t <-> exists p q, M !! p = Some q /\ passesOn op p q /\ y = back op p /\ t = backOperand op q.
Proof. intros He. apply (renamed_lookup program); [by eapply edge_op_enqueue|by eapply ko_tables]. Qed.

Lemma edge_op_mono c k s op M1 M2 : edge_op c k s op -> M1 ⊆ M2 -> renamed op M1 ⊆ renamed op M2.
Proof. intros He. apply (renamed_mono program); [by eapply edge_op_enqueue|by eapply ko_tables]. Qed.

(** A register of another block is never what a table leads back to. *)
Lemma back_fresh c k s op r w : edge_op c k s op -> w ∈ members -> r ∉ writes (ops w) -> back op r ∉ writes (ops w).
Proof.
  intros He Hw Hr. unfold back, OptionallyMapIndex, LookupWithDefault. destruct (_reverseRenamingTable op !! r) as [o|] eqn:E; [|done].
  apply (tb_reverse _ _ (ko_tables Hko _ _ _ _ He)) in E. by eapply ko_originals.
Qed.

(** ** The facts of the moves *)

Section Moves.
Context (isDirectSource : nat -> bool) (optimizing : bool).

Definition moves (b : nat) : EqualValueMap :=
  match blocks !! b with Some bb => match foldM (recordMove program isDirectSource optimizing) (_operations bb) ∅ with Ok M => M | Err _ => ∅ end | None => ∅ end.

Lemma moves_run b bb : b ∈ members -> blocks !! b = Some bb -> foldM (recordMove program isDirectSource optimizing) (_operations bb) ∅ = Ok (moves b) /\
  forall y t, moves b !! y = Some t -> exists k op, ops b !! k = Some op /\ moveFact program op y t.
Proof.
  intros Hb Hbb. assert (HopsOf : ops b = operationsOf Unscheduled bb) by (unfold opsOf; by rewrite Hbb). assert (Hsub : forall op, op ∈ _operations bb -> op ∈ ops b).
  { intros op Hop. rewrite HopsOf. unfold operationsOf. apply elem_of_app. left. apply elem_of_app. by right. }
  destruct (moves_eq program isDirectSource optimizing (_operations bb)) as (M & HM & Hspec); [apply Forall_forall; intros op Hop; by apply (ko_moves Hko b), Hsub|].
  unfold moves. rewrite Hbb, HM. split; [done|]. intros y t Hy. destruct (Hspec y t Hy) as (op & Hop & Hf). apply Hsub, list_elem_of_lookup in Hop as [k Hk]. by exists k, op.
Qed.

Lemma moves_fact b y t : b ∈ members -> moves b !! y = Some t -> exists k op, ops b !! k = Some op /\ moveFact program op y t.
Proof. intros Hb Hy. destruct (fo_block _ _ _ _ _ _ Hok b Hb) as (bb & Hbb & _). by apply (moves_run b bb Hb Hbb). Qed.

Lemma move_written b k op y t : b ∈ members -> ops b !! k = Some op -> moveFact program op y t -> y ∈ writtenBy program op /\ y ∈ writes (ops b).
Proof.
  intros Hb Hk (Eo & Hdst & _). assert (Hin : op ∈ ops b) by (by eapply list_elem_of_lookup_2). destruct (ko_moves Hko b op Hb Hin Eo) as (y' & d & Hdst' & _ & Hg & _). rewrite Hdst in Hdst'. injection Hdst' as <-.
  assert (Hw : y ∈ writtenBy program op) by (apply elem_of_writtenBy; split; [rewrite Hdst; by left|done]). split; [done|]. apply elem_of_blockWrites. by exists op.
Qed.

(** The facts of a block do not mention the registers that another one writes. *)
Lemma moves_fresh b w y t : b ∈ members -> w ∈ members -> b <> w -> moves b !! y = Some t -> y ∉ writes (ops w) /\ forall r, t = SrcRegister r -> _registerIndex r ∉ writes (ops w).
Proof.
  intros Hb Hw Hne Hy. destruct (moves_fact b y t Hb Hy) as (k & op & Hk & Hf). destruct (move_written b k op y t Hb Hk Hf) as [_ Hyw]. split.
  - intros Hyw'. apply Hne. by apply (ko_one_block Hko b w y).
  - intros r -> Hr. destruct Hf as (_ & _ & [(l & d & _ & _ & _ & [=])|(x & d & d' & Hs & _ & _ & _ & _ & [= <-])]). destruct r as [r]. cbn in Hr.
    destruct (ko_private Hko w b k op r Hw Hb Hr Hk) as [-> _]; [rewrite Hs; by left|done].
Qed.

(** ** What the loop keeps *)

(** Facts that hold at the entry of a block because all edges pass them on *)
Definition passed_on (maps : gmap nat EqualValueMap) (b y : nat) (t : SourceOperand) : Prop :=
  (exists c k op, edge_op c k b op) /\ forall c k op, edge_op c k b op -> renamed op (ev maps c) !! y = Some t.

Definition supported (maps : gmap nat EqualValueMap) : Prop := forall b y t, b ∈ members -> ev maps b !! y = Some t -> moves b !! y = Some t \/ passed_on maps b y t.

Inductive avoiding (w : nat) : nat -> Prop :=
| avoiding_entry b : entry b -> b <> w -> avoiding w b
| avoiding_edge c s : avoiding w c -> edge c s -> s <> w -> avoiding w s.

Lemma kill_avoiding_ne w c : avoiding w c -> c <> w.
Proof. by destruct 1. Qed.

Lemma avoiding_member w c : avoiding w c -> c ∈ members.
Proof. destruct 1 as [b [Hb _] _|c s _ (_ & Hs & _) _]; done. Qed.

(** A block that is not an entry has a predecessor that is reached before it. *)
Lemma kill_first_visit b c0 : b ∈ members -> edge c0 b -> exists c, avoiding b c /\ edge c b.
Proof.
  intros Hb He0. assert (H : forall x, connected x -> avoiding b x \/ exists c, avoiding b c /\ edge c b).
  { induction 1 as [x Hx|c s Hc IH He]; [left; constructor; [done|]; intros ->; by destruct Hx as [_ Hx]; apply (Hx c0)|].
    destruct IH as [IH|]; [|by right]. destruct (decide (s = b)) as [->|]; [right; by exists c|left; by eapply avoiding_edge]. }
  destruct (H b (ko_connected Hko b Hb)) as [Ha|]; [|done]. by apply kill_avoiding_ne in Ha.
Qed.

Lemma renamed_fresh c k s op w M y t : edge_op c k s op -> w ∈ members -> (forall p q, M !! p = Some q -> p ∉ writes (ops w) /\ forall r, q = SrcRegister r -> _registerIndex r ∉ writes (ops w)) ->
  renamed op M !! y = Some t -> y ∉ writes (ops w) /\ forall r, t = SrcRegister r -> _registerIndex r ∉ writes (ops w).
Proof.
  intros He Hw HM (p & q & Hp & _ & -> & ->)%(edge_op_lookup _ _ _ _ _ _ _ He). destruct (HM p q Hp) as [H1 H2]. split; [by eapply back_fresh|].
  intros r Hr. destruct q as [l|x|f|str]; try done. injection Hr as <-. cbn. eapply back_fresh; [done|done|]. by apply H2.
Qed.

Lemma avoiding_fresh maps w c : supported maps -> w ∈ members -> avoiding w c -> forall y t, ev maps c !! y = Some t -> y ∉ writes (ops w) /\ forall r, t = SrcRegister r -> _registerIndex r ∉ writes (ops w).
Proof.
  intros Hsup Hw. induction 1 as [b [Hb Hno] Hne|c s Hc IH He Hne]; intros y t Hy.
  - destruct (Hsup b y t Hb Hy) as [Hm|[(c & k & op & He) _]]; [by apply (moves_fresh b w)|]. exfalso. by apply (Hno c), (kill_edge_op_edge c k b op).
  - pose proof He as (_ & Hs & _). destruct (Hsup s y t Hs Hy) as [Hm|[_ Hall]]; [by apply (moves_fresh s w)|].
    destruct (edge_edge_op c s He) as (k & op & Heop). eapply renamed_fresh; [exact Heop|done|exact IH|by apply (Hall c k op)].
Qed.

(** A fact that is passed on to a block does not mention what the block writes. *)
Lemma entry_fresh maps b y t : supported maps -> b ∈ members -> passed_on maps b y t -> y ∉ writes (ops b) /\ forall r, t = SrcRegister r -> _registerIndex r ∉ writes (ops b).
Proof.
  intros Hsup Hb [(c0 & k0 & op0 & He0) Hall]. destruct (kill_first_visit b c0 Hb (kill_edge_op_edge _ _ _ _ He0)) as (c & Hc & He). destruct (edge_edge_op c b He) as (k & op & Heop).
  eapply renamed_fresh; [exact Heop|done|by apply avoiding_fresh|by apply (Hall c k op)].
Qed.

(** ** The start of the loop *)

Notation initializeBlock := (initializeBlock program isDirectSource optimizing blocks fi).

(** Both maps after the blocks [pre] *)
Record initialized (pre : list nat) (maps : gmap nat EqualValueMap) (input : gmap nat PredecessorMap) : Prop := mk_initialized {
  iz_done : forall b, b ∈ pre -> ev maps b = moves b;
  iz_rest : forall b, b ∉ pre -> maps !! b = None;
  iz_input : forall s key M, recordedAt input s key = Some M <-> exists c k op, key = (c, k) /\ c ∈ pre /\ edge_op c k s op /\ M = renamed op (moves c) }.

Lemma successor_test c k s op sb : c ∈ members -> ops c !! k = Some op -> _getSuccessorBlock op = Some s -> blocks !! s = Some sb -> (_function sb =? fi)%nat = true <-> edge_op c k s op.
Proof.
  intros Hc Hk Hs Hsb. destruct (fo_block _ _ _ _ _ _ Hok c Hc) as (bb & Hbb & _). assert (Hin : op ∈ operationsOf Unscheduled bb) by (apply list_elem_of_lookup_2 in Hk; unfold opsOf in Hk; by rewrite Hbb in Hk).
  rewrite Nat.eqb_eq, <- (fo_closed _ _ _ _ _ _ Hok c bb op s sb Hc Hbb Hin Hs Hsb). unfold edge_op. tauto.
Qed.

Lemma successor_block c k s op : c ∈ members -> ops c !! k = Some op -> _getSuccessorBlock op = Some s -> exists sb, blocks !! s = Some sb.
Proof. intros Hc Hk Hs. destruct (ok_successor _ _ _ _ (kill_member_ops c op Hc (list_elem_of_lookup_2 _ _ _ Hk)) s Hs) as (_ & sb & _ & Hsb & _). by exists sb. Qed.

Lemma initialEntries_eq b E input : b ∈ members -> (forall s k, recordedAt input s (b, k) = None) ->
  exists input', foldM (initialEntry blocks fi b E) (enumerate (ops b)) input = Ok input' /\
    forall s key M, recordedAt input' s key = Some M <-> recordedAt input s key = Some M \/ exists k op, key = (b, k) /\ edge_op b k s op /\ M = renamed op E.
Proof.
  intros Hb Hno. unfold enumerate. destruct (foldM_zip_inv (initialEntry blocks fi b E) (fun k input' => forall s key M, recordedAt input' s key = Some M <->
    recordedAt input s key = Some M \/ exists j op, (j < k)%nat /\ key = (b, j) /\ edge_op b j s op /\ M = renamed op E) (ops b) input) as (input' & Hrun & Hinv).
  - intros s key M. split; [by left|]. intros [?|(j & op & Hj & _)]; [done|lia].
  - intros k op input1 Hk IH. unfold initialEntry. cbn [fst snd]. destruct (_getSuccessorBlock op) as [s|] eqn:Es.
    + destruct (successor_block b k s op Hb Hk Es) as [sb Hsb]. unfold blockAt. rewrite Hsb. cbn [of_option mbind result_bind]. pose proof (successor_test b k s op sb Hb Hk Es Hsb) as Htest.
      destruct (_function sb =? fi)%nat.
      * pose proof (proj1 Htest eq_refl) as He. rewrite (edge_op_renamed b k s op E He). cbn [mbind result_bind]. eexists. split; [reflexivity|]. intros s' key M. rewrite recordedAt_insert. destruct (decide (s' = s /\ key = (b, k))) as [[-> ->]|Hne].
        -- split; [intros [= <-]; right; exists k, op; split_and!; [lia|done..]|]. intros [Hin|(j & op' & _ & [= <-] & (_ & _ & Hk' & _) & ->)]; [by rewrite Hno in Hin|]. rewrite Hk in Hk'. by injection Hk' as <-.
        -- rewrite IH. split; (intros [?|(j & op' & Hj & H)]; [by left|right; exists j, op'; split; [|done]]); [lia|].
           destruct H as (-> & (_ & _ & Hk' & Hs') & _). destruct (decide (j = k)) as [->|]; [|lia]. exfalso. rewrite Hk in Hk'. injection Hk' as <-. apply Hne. split; [congruence|done].
      * exists input1. split; [done|]. intros s' key M. rewrite IH. split; (intros [?|(j & op' & Hj & H)]; [by left|right; exists j, op'; split; [|done]]); [lia|].
        destruct H as (_ & (H1 & H2 & Hk' & Hs') & _). destruct (decide (j = k)) as [->|]; [|lia]. exfalso. rewrite Hk in Hk'. injection Hk' as <-. rewrite Es in Hs'. injection Hs' as <-. by assert (false = true) by by apply Htest.
    + exists input1. split; [done|]. intros s' key M. rewrite IH. split; (intros [?|(j & op' & Hj & H)]; [by left|right; exists j, op'; split; [|done]]); [lia|].
      destruct H as (_ & (_ & _ & Hk' & Hs') & _). destruct (decide (j = k)) as [->|]; [|lia]. rewrite Hk in Hk'. injection Hk' as <-. congruence.
  - exists input'. split; [done|]. intros s key M. rewrite Hinv. split; (intros [?|(j & op & H)]; [by left|right]); [exists j, op; tauto|]. exists j, op. destruct H as (H1 & H2 & H3). split_and!; try done. destruct H2 as (_ & _ & Hk & _). by apply lookup_lt_Some in Hk.
Qed.

Lemma initializeBlock_eq pre b maps input : b ∈ members -> b ∉ pre -> initialized pre maps input ->
  exists maps' input', initializeBlock (maps, input) b = Ok (maps', input') /\ initialized (pre ++ [b]) maps' input'.
Proof.
  intros Hb Hnew [I1 I2 I3]. destruct (fo_block _ _ _ _ _ _ Hok b Hb) as (bb & Hbb & _). unfold KillMoves.initializeBlock, blockAt. rewrite Hbb. cbn [of_option mbind result_bind]. rewrite (I2 b Hnew). cbn [default from_option id].
  destruct (moves_run b bb Hb Hbb) as [-> _]. cbn [mbind result_bind]. assert (HopsOf : ops b = operationsOf Unscheduled bb) by (unfold opsOf; by rewrite Hbb). rewrite <- HopsOf.
  destruct (initialEntries_eq b (moves b) input Hb) as (input' & -> & Hin).
  - intros s k. destruct (recordedAt input s (b, k)) as [M|] eqn:E; [|done]. apply I3 in E as (c & j & op & [= <- <-] & Hc & _). done.
  - cbn [mbind result_bind]. eexists _, input'. split; [reflexivity|]. split.
    + intros c [Hc|Hc%list_elem_of_singleton]%elem_of_app; rewrite ev_insert; [|subst c; by rewrite decide_True by done]. rewrite decide_False by (intros ->; done). by apply I1.
    + intros c Hc. apply not_elem_of_app in Hc as [Hc Hcb]. rewrite lookup_insert_ne by (intros ->; apply Hcb; by left). by apply I2.
    + intros s key M. rewrite Hin, I3. setoid_rewrite elem_of_app. setoid_rewrite list_elem_of_singleton. split.
      * intros [(c & k & op & -> & Hc & H)|(k & op & -> & H)]; [exists c, k, op; tauto|exists b, k, op; tauto].
      * intros (c & k & op & -> & [Hc| ->] & H); [left; exists c, k, op; tauto|right; exists k, op; tauto].
Qed.

Lemma initializeBlocks_eq : exists maps input, foldM initializeBlock members (∅, ∅) = Ok (maps, input) /\ initialized members maps input.
Proof.
  assert (H : forall l pre maps input, NoDup (pre ++ l) -> (forall b, b ∈ l -> b ∈ members) -> initialized pre maps input ->
    exists maps' input', foldM initializeBlock l (maps, input) = Ok (maps', input') /\ initialized (pre ++ l) maps' input').
  { induction l as [|b l IH]; intros pre maps input Hnd Hsub Hi; [exists maps, input; by rewrite app_nil_r|]. cbn [foldM].
    assert (Hb : b ∉ pre) by (apply NoDup_app in Hnd as (_ & Hd & _); intros Hin; apply (Hd b Hin); by left).
    destruct (initializeBlock_eq pre b maps input (Hsub b ltac:(by left)) Hb Hi) as (maps1 & input1 & -> & Hi1). cbn [mbind result_bind].
    destruct (IH (pre ++ [b]) maps1 input1) as (maps2 & input2 & Hrun & Hi2); [by rewrite <- app_assoc|intros c Hc; apply Hsub; by right|done|]. exists maps2, input2. by rewrite <- app_assoc in Hi2. }
  destruct (H members [] ∅ ∅) as (maps & input & Hrun & Hi); [apply (fo_nodup _ _ _ _ _ _ Hok)|done| |by exists maps, input].
  split; [by intros b ?%not_elem_of_nil|done|]. intros s key M. unfold recordedAt. rewrite lookup_empty. cbn. rewrite lookup_empty. split; [done|]. intros (c & k & op & _ & Hc & _). by apply not_elem_of_nil in Hc.
Qed.

(** ** The loop *)

Notation U := (list_to_set (seq 0 N) : gset nat).

Record kinv (maps : gmap nat EqualValueMap) (input : gmap nat PredecessorMap) (workList : gset nat) : Prop := mk_kinv {
  k_local : forall b, b ∈ members -> moves b ⊆ ev maps b;
  k_supported : supported maps;
  k_edges : forall c k s op, edge_op c k s op -> exists M, recordedAt input s (c, k) = Some M /\ M ⊆ renamed op (ev maps c);
  k_keys : forall s key M, recordedAt input s key = Some M -> exists c k op, key = (c, k) /\ edge_op c k s op;
  k_bound : forall b, b ∈ members -> dom (ev maps b) ⊆ U;
  k_members : forall b, b ∈ workList -> b ∈ members }.

Lemma elem_of_U r : r ∈ U <-> (r < N)%nat.
Proof. rewrite elem_of_list_to_set, elem_of_seq. lia. Qed.

Lemma renamed_bound c k s op M : edge_op c k s op -> dom M ⊆ U -> dom (renamed op M) ⊆ U.
Proof.
  intros He HM y Hy. apply elem_of_dom in Hy as [t (p & q & Hp & _ & -> & _)%(edge_op_lookup _ _ _ _ _ _ _ He)]. unfold back, OptionallyMapIndex, LookupWithDefault.
  destruct (_reverseRenamingTable op !! p) as [o|] eqn:E; [|apply HM, elem_of_dom; by eexists]. apply (tb_reverse _ _ (ko_tables Hko _ _ _ _ He)), (tb_renamed _ _ (ko_tables Hko _ _ _ _ He)) in E as (d & _ & Hd & _).
  apply elem_of_U. by apply lookup_lt_Some in Hd.
Qed.

Lemma moves_bound b : b ∈ members -> dom (moves b) ⊆ U.
Proof.
  intros Hb y Hy. apply elem_of_dom in Hy as [t Ht]. destruct (moves_fact b y t Hb Ht) as (k & op & _ & (_ & _ & [(l & d & _ & _ & Hd & _)|(x & d & d' & _ & Hd & _)])); apply lookup_lt_Some in Hd; by apply elem_of_U.
Qed.

Lemma kinv_start maps input : initialized members maps input -> kinv maps input (DataFlowWorkList members).
Proof.
  intros [I1 I2 I3]. split.
  - intros b Hb. by rewrite I1.
  - intros b y t Hb Hy. left. by rewrite I1 in Hy.
  - intros c k s op He. exists (renamed op (moves c)). destruct He as (Hc & H). split; [apply I3; by exists c, k, op|]. by rewrite I1.
  - intros s key M (c & k & op & -> & _ & He & _)%I3. by exists c, k, op.
  - intros b Hb. rewrite I1 by done. by apply moves_bound.
  - intros b Hb. by apply elem_of_list_to_set in Hb.
Qed.

Lemma passed_on_grow maps maps' b y t : (forall c, c ∈ members -> ev maps c ⊆ ev maps' c) -> passed_on maps b y t -> passed_on maps' b y t.
Proof.
  intros Hle [Hex Hall]. split; [done|]. intros c k op He. eapply lookup_weaken; [by apply (Hall c k op)|]. eapply edge_op_mono; [exact He|]. apply Hle. by destruct He.
Qed.

(** The agreement of the predecessors of a block *)
Lemma agreed_passed_on maps input W b y t : kinv maps input W -> default ∅ (input !! b) <> ∅ -> agreed (default ∅ (input !! b)) y t -> passed_on maps b y t.
Proof.
  intros H Hne Hag. split.
  - destruct (map_choose _ Hne) as (key & M & Hkey). destruct (k_keys _ _ _ H b key M Hkey) as (c & k & op & -> & He). by exists c, k, op.
  - intros c k op He. destruct (k_edges _ _ _ H c k b op He) as (M & HM & Hsub). eapply lookup_weaken; [|exact Hsub]. by apply (Hag (c, k)).
Qed.

(** The maps of a block that is taken from the work list *)
Lemma visit_agreed maps input W b : kinv maps input W -> b ∈ members ->
  exists M New, (match map_to_list (default ∅ (input !! b)) with
                 | [] => Ok (ev maps b, ∅)
                 | (_, valuesAtPredecessor0) :: _ => foldM (addAgreed (default ∅ (input !! b))) (map_entries valuesAtPredecessor0) (ev maps b, ∅)
                 end) = Ok (M, New) /\ ev maps b ⊆ M /\ (forall y t, M !! y = Some t -> ev maps b !! y = Some t \/ passed_on maps b y t) /\ (New = ∅ -> M = ev maps b) /\ (New <> ∅ -> (size (ev maps b) < size M)%nat).
Proof.
  intros H Hb. destruct (map_to_list (default ∅ (input !! b))) as [|[k0 V0] rest] eqn:Epm; [exists (ev maps b), ∅; split_and!; try done; by left|].
  assert (Hne : default ∅ (input !! b) <> ∅) by (intros E; by rewrite E, map_to_list_empty in Epm).
  assert (H0 : default ∅ (input !! b) !! k0 = Some V0) by (apply elem_of_map_to_list; rewrite Epm; by left).
  destruct (addAgreed_eq (default ∅ (input !! b)) k0 V0 (ev maps b) (map_entries V0) H0) as (M & New & Hrun & [A1 A2 A3 A4]).
  - intros y t t' Hag Hy. pose proof (agreed_passed_on maps input W b y t H Hne Hag) as Hp. destruct (k_supported _ _ _ H b y t' Hb Hy) as [Hm|[_ Hall]].
    + destruct (moves_fact b y t' Hb Hm) as (k & op & Hk & Hf). destruct (move_written b k op y t' Hb Hk Hf) as [_ Hw]. by destruct (entry_fresh maps b y t (k_supported _ _ _ H) Hb Hp) as [? _].
    + destruct Hp as [(c & k & op & He) Hall']. specialize (Hall c k op He). specialize (Hall' c k op He). congruence.
  - exists M, New. split_and!; try done. intros y t Hy. destruct (A2 y t Hy) as [?|Hag]; [by left|right]. by eapply agreed_passed_on.
Qed.

Notation propagateEntry := (propagateEntry blocks fi).

(** What the second callback does with all operations of the block [b] *)
Lemma propagateEntries_eq b E input W : b ∈ members -> (forall k s op, edge_op b k s op -> exists P, recordedAt input s (b, k) = Some P /\ P ⊆ renamed op E) -> (forall c, c ∈ W -> c ∈ members) ->
  exists input' W', foldM (propagateEntry b E) (enumerate (ops b)) (input, W) = Ok (input', W') /\ (forall c, c ∈ W' -> c ∈ members) /\
    (forall k s op, edge_op b k s op -> recordedAt input' s (b, k) = Some (renamed op E)) /\
    (forall s key, (forall k op, key = (b, k) -> ~ edge_op b k s op) -> recordedAt input' s key = recordedAt input s key).
Proof.
  intros Hb Hprev HW. unfold enumerate. destruct (foldM_zip_inv (propagateEntry b E) (fun k st => (forall c, c ∈ st.2 -> c ∈ members) /\
    (forall j s op, (j < k)%nat -> edge_op b j s op -> recordedAt st.1 s (b, j) = Some (renamed op E)) /\
    (forall s key, (forall j op, key = (b, j) -> edge_op b j s op -> (k <= j)%nat) -> recordedAt st.1 s key = recordedAt input s key)) (ops b) (input, W)) as ([input' W'] & Hrun & H1 & H2 & H3).
  - split_and!; [done|intros; lia|done].
  - intros k op [input1 W1] Hk (H1 & H2 & H3). cbn [fst snd] in *. unfold KillMoves.propagateEntry. cbn [fst snd]. destruct (_getSuccessorBlock op) as [s|] eqn:Es.
    + destruct (successor_block b k s op Hb Hk Es) as [sb Hsb]. unfold blockAt. rewrite Hsb. cbn [of_option mbind result_bind]. pose proof (successor_test b k s op sb Hb Hk Es Hsb) as Htest. destruct (_function sb =? fi)%nat eqn:Ef.
      * pose proof (proj1 Htest eq_refl) as He. rewrite (edge_op_renamed b k s op E He). cbn [mbind result_bind]. destruct (Hprev k s op He) as (P & HP & Hsub).
        assert (HP1 : recordedAt input1 s (b, k) = Some P) by (rewrite H3; [done|]; intros j op' [= <-] _; done).
        assert (Hsome : input1 !! s = Some (default ∅ (input1 !! s))) by (unfold recordedAt in HP1; destruct (input1 !! s); [done|]; cbn in HP1; by rewrite lookup_empty in HP1).
        rewrite Hsome. cbn [of_option mbind result_bind]. unfold recordedAt in HP1. rewrite HP1. cbn [of_option mbind result_bind]. rewrite (addEntry_eq P (renamed op E) Hsub). cbn [mbind result_bind].
        unfold AddBasicBlock, blockAt. rewrite Hsb. cbn [of_option mbind result_bind]. rewrite Ef. cbn [assert_ mbind result_bind]. eexists. split; [reflexivity|]. cbn [fst snd]. split_and!.
        -- intros c [->%elem_of_singleton|Hc]%elem_of_union; [by destruct He as (_ & ? & _)|by apply H1].
        -- intros j s' op' Hj He'. rewrite recordedAt_insert. destruct (decide (s' = s /\ (b, j) = (b, k))) as [[-> [= ->]]|Hne].
           ++ destruct He' as (_ & _ & Hk' & _). rewrite Hk in Hk'. by injection Hk' as <-.
           ++ apply H2; [|done]. destruct (decide (j = k)) as [->|]; [|lia]. exfalso. destruct He' as (_ & _ & Hk' & Hs'). rewrite Hk in Hk'. injection Hk' as <-. apply Hne. split; [congruence|done].
        -- intros s' key Hkey. rewrite recordedAt_insert. destruct (decide (s' = s /\ key = (b, k))) as [[-> ->]|Hne]; [specialize (Hkey k op eq_refl He); lia|]. apply H3. intros j op' Hj He'. specialize (Hkey j op' Hj He'). lia.
      * exists (input1, W1). split; [done|]. cbn [fst snd]. split_and!; [done| |].
        -- intros j s' op' Hj He'. apply H2; [|done]. destruct (decide (j = k)) as [->|]; [|lia]. exfalso. destruct He' as (X1 & X2 & Hk' & Hs'). rewrite Hk in Hk'. injection Hk' as <-. rewrite Es in Hs'. injection Hs' as <-. by assert (false = true) by by apply Htest.
        -- intros s' key Hkey. apply H3. intros j op' Hj He'. specialize (Hkey j op' Hj He'). lia.
    + exists (input1, W1). split; [done|]. cbn [fst snd]. split_and!; [done| |].
      * intros j s' op' Hj He'. apply H2; [|done]. destruct (decide (j = k)) as [->|]; [|lia]. destruct He' as (_ & _ & Hk' & Hs'). rewrite Hk in Hk'. injection Hk' as <-. congruence.
      * intros s' key Hkey. apply H3. intros j op' Hj He'. specialize (Hkey j op' Hj He'). lia.
  - exists input', W'. split; [done|]. cbn [fst snd] in *. split_and!; [done| |].
    + intros k s op He. apply H2; [|done]. destruct He as (_ & _ & Hk & _). by apply lookup_lt_Some in Hk.
    + intros s key Hkey. apply H3. intros j op Hj He. by destruct (Hkey j op Hj).
Qed.

Lemma edge_op_decide c k s : (exists op, edge_op c k s op) \/ forall op, ~ edge_op c k s op.
Proof.
  destruct (decide (c ∈ members)) as [Hc|Hc]; [|right; intros op (? & _); done]. destruct (decide (s ∈ members)) as [Hs|Hs]; [|right; intros op (_ & ? & _); done].
  destruct (ops c !! k) as [op|] eqn:Hk; [|right; intros op (_ & _ & Hk' & _); congruence]. destruct (decide (_getSuccessorBlock op = Some s)) as [He|He]; [left; by exists op|right; intros op' (_ & _ & Hk' & He'); congruence].
Qed.

(** The invariant after a block whose facts have become [M] *)
Lemma kinv_visited maps input W b M input' W' : kinv maps input W -> b ∈ members -> ev maps b ⊆ M -> (forall y t, M !! y = Some t -> ev maps b !! y = Some t \/ passed_on maps b y t) ->
  (forall c, c ∈ W' -> c ∈ members) -> (forall k s op, edge_op b k s op -> exists P, recordedAt input' s (b, k) = Some P /\ P ⊆ renamed op M) ->
  (forall s key, (forall k op, key = (b, k) -> ~ edge_op b k s op) -> recordedAt input' s key = recordedAt input s key) -> kinv (<[b := M]> maps) input' W'.
Proof.
  intros [K1 K2 K3 K4 K5 K6] Hb Hold Hnew HW Hown Hother.
  assert (Hle : forall c, c ∈ members -> ev maps c ⊆ ev (<[b := M]> maps) c) by (intros c Hc; rewrite ev_insert; by destruct (decide (c = b)) as [->|]).
  split.
  - intros c Hc. etransitivity; [by apply K1|by apply Hle].
  - intros c y t Hc Hy. rewrite ev_insert in Hy. destruct (decide (c = b)) as [->|Hne].
    + destruct (Hnew y t Hy) as [Hy'|Hp]; [destruct (K2 b y t Hb Hy') as [?|Hp]; [by left|]|]; right; by eapply passed_on_grow.
    + destruct (K2 c y t Hc Hy) as [?|Hp]; [by left|right]. by eapply passed_on_grow.
  - intros c k s op He. rewrite ev_insert. destruct (decide (c = b)) as [->|Hne]; [by apply Hown|]. rewrite Hother by (intros j op' [= -> ->]; done). by apply K3.
  - intros s key P HP. destruct key as [c k]. destruct (edge_op_decide c k s) as [[op He]|Hno]; [by exists c, k, op|].
    rewrite Hother in HP; [by apply (K4 s (c, k) P)|]. intros k' op [= -> <-] He. by apply (Hno op).
  - intros c Hc. rewrite ev_insert. destruct (decide (c = b)) as [->|]; [|by apply K5]. intros y Hy. apply elem_of_dom in Hy as [t Ht]. destruct (Hnew y t Ht) as [Hy'|[(c & k & op & He) Hall]]; [apply (K5 b Hb), elem_of_dom; by eexists|].
    eapply (renamed_bound c k b op (ev maps c) He); [apply K5; by destruct He|]. apply elem_of_dom. eexists. by apply (Hall c k op).
  - done.
Qed.

(** How many facts the blocks have *)
Definition factCount (maps : gmap nat EqualValueMap) : nat := sum_list_with (fun b => size (ev maps b)) members.

Lemma size_bound M : dom (M : EqualValueMap) ⊆ U -> (size M <= N)%nat.
Proof. intros H. rewrite <- size_dom. pose proof (subseteq_size _ _ H) as Hle. by rewrite size_list_to_set, length_seq in Hle by apply NoDup_seq. Qed.

Lemma factCount_bound maps : (forall b, b ∈ members -> dom (ev maps b) ⊆ U) -> (factCount maps <= length members * N)%nat.
Proof.
  unfold factCount. assert (Hl : forall l, (forall b, b ∈ l -> dom (ev maps b) ⊆ U) -> (sum_list_with (fun b => size (ev maps b)) l <= length l * N)%nat); [|by apply Hl].
  induction l as [|b l IH]; intros H; [done|]. cbn [sum_list_with length]. pose proof (size_bound _ (H b ltac:(by left))). specialize (IH ltac:(intros; apply H; by right)). lia.
Qed.

Lemma factCount_insert maps b M : b ∈ members -> (size (ev maps b) <= size M)%nat -> (factCount maps <= factCount (<[b := M]> maps))%nat /\
  ((size (ev maps b) < size M)%nat -> (factCount maps < factCount (<[b := M]> maps))%nat).
Proof.
  intros Hb Hle. unfold factCount. assert (H : forall l, (sum_list_with (fun b => size (ev maps b)) l <= sum_list_with (fun c => size (ev (<[b := M]> maps) c)) l)%nat /\
    (b ∈ l -> (size (ev maps b) < size M)%nat -> (sum_list_with (fun b => size (ev maps b)) l < sum_list_with (fun c => size (ev (<[b := M]> maps) c)) l)%nat)).
  { induction l as [|c l [IH1 IH2]]; [split; [done|by intros ?%not_elem_of_nil]|]. cbn [sum_list_with]. rewrite ev_insert. destruct (decide (c = b)) as [->|Hne]; [split; [lia|intros _ Hlt; lia]|].
    split; [lia|]. intros [->|Hin]%elem_of_cons Hlt; [done|]. specialize (IH2 Hin Hlt). lia. }
  destruct (H members) as [H1 H2]. split; [done|by apply H2].
Qed.

Definition loopMeasure (maps : gmap nat EqualValueMap) (W : gset nat) : nat := size W + S (length members) * (length members * N - factCount maps).

Context (firstBlock : gset nat -> nat) (Hfirst : forall X, X <> ∅ -> firstBlock X ∈ X).
Notation killBlock := (killBlock blocks fi firstBlock).
Notation killLoop := (killLoop blocks fi firstBlock).

Lemma killBlock_eq maps input W : kinv maps input W -> W <> ∅ ->
  exists maps' input' W', killBlock maps input W = Ok (maps', input', W') /\ kinv maps' input' W' /\ (loopMeasure maps' W' < loopMeasure maps W)%nat.
Proof.
  intros H Hne. set (b := firstBlock W). pose proof (Hfirst W Hne) as HbW. fold b in HbW. pose proof (k_members _ _ _ H b HbW) as Hb. destruct (fo_block _ _ _ _ _ _ Hok b Hb) as (bb & Hbb & Hf & _).
  assert (HopsOf : ops b = operationsOf Unscheduled bb) by (unfold opsOf; by rewrite Hbb). unfold KillMoves.killBlock, Pop. fold b. unfold blockAt. rewrite Hbb. cbn [of_option mbind result_bind]. rewrite Hf, Nat.eqb_refl. cbn [assert_ mbind result_bind]. fold (ev maps b).
  destruct (visit_agreed maps input W b H Hb) as (M & New & Hrun & Hold & Hnew & Hsame & Hgrows). rewrite Hrun. cbn [mbind result_bind].
  assert (Hsize : size (W ∖ {[b]}) = (size W - 1)%nat) by (rewrite size_difference, size_singleton by set_solver; done). assert (Hpos : (0 < size W)%nat) by (destruct (size W) eqn:Hsz; [apply size_empty_inv in Hsz; set_solver|lia]).
  assert (HW : forall c, c ∈ W ∖ {[b]} -> c ∈ members) by (intros c Hc; apply (k_members _ _ _ H); set_solver).
  assert (Hprev : forall k s op, edge_op b k s op -> exists P, recordedAt input s (b, k) = Some P /\ P ⊆ renamed op M).
  { intros k s op He. destruct (k_edges _ _ _ H b k s op He) as (P & HP & Hsub). exists P. split; [done|]. etransitivity; [exact Hsub|]. by eapply edge_op_mono. }
  pose proof (factCount_insert maps b M Hb (map_subseteq_size _ _ Hold)) as [Hcount Hcount'].
  case_bool_decide as E.
  - eexists _, _, _. split; [reflexivity|]. split; [by apply (kinv_visited maps input W)|]. unfold loopMeasure. nia.
  - rewrite Hbb. cbn [of_option mbind result_bind]. rewrite <- HopsOf. destruct (propagateEntries_eq b M input (W ∖ {[b]}) Hb Hprev HW) as (input' & W' & -> & HW' & Hown & Hother). cbn [mbind result_bind].
    assert (Hk : kinv (<[b := M]> maps) input' W') by (apply (kinv_visited maps input W); try done; intros k s op He; exists (renamed op M); by split; [apply Hown|]).
    eexists _, _, _. split; [reflexivity|]. split; [done|]. unfold loopMeasure. specialize (Hcount' (Hgrows E)). pose proof (factCount_bound _ (k_bound _ _ _ Hk)) as Hbound.
    assert (HsW : (size W' <= length members)%nat) by (apply (size_workList program functions blocks fi Unscheduled members Hok); exact HW'). nia.
Qed.

Lemma killLoop_eq fuel maps input W : kinv maps input W -> (loopMeasure maps W <= fuel)%nat -> exists maps' input', killLoop fuel maps input W = Ok maps' /\ kinv maps' input' ∅.
Proof.
  revert maps input W. induction fuel as [|fuel IH]; intros maps input W H Hfuel; cbn [KillMoves.killLoop].
  - case_bool_decide as E; [subst W; by exists maps, input|]. destruct (killBlock_eq maps input W H E) as (? & ? & ? & _ & _ & ?). lia.
  - case_bool_decide as E; [subst W; by exists maps, input|]. destruct (killBlock_eq maps input W H E) as (maps' & input' & W' & -> & H' & Hlt). cbn [mbind result_bind]. apply (IH maps' input' W'); [done|lia].
Qed.

(** The facts that the loop leaves *)
Lemma facts_found fuel : (length members + S (length members) * (length members * N) <= fuel)%nat ->
  exists maps input, ('(maps, input) ← foldM initializeBlock members (∅, ∅); killLoop fuel maps input (DataFlowWorkList members)) = Ok maps /\ kinv maps input ∅.
Proof.
  intros Hfuel. destruct initializeBlocks_eq as (maps & input & -> & Hi). cbn [mbind result_bind]. pose proof (kinv_start maps input Hi) as H. apply (killLoop_eq fuel maps input); [done|].
  unfold loopMeasure. assert (HsW : (size (DataFlowWorkList members) <= length members)%nat) by (apply (size_workList program functions blocks fi Unscheduled members Hok); apply H). nia.
Qed.

End Moves.
End Function_.
End KillAnalysis.
