(* ===== verification/KillCorrect.v ===== *)
(** * Sources that are copies: the pass is correct

    The facts that the loop leaves hold in all executions ([facts_hold]), so an
    operation whose sources are replaced does what it did ([replaced_same]), and the
    function has the executions that it had.  The theorem is about
    functions whose entries no edge leads to, because the pass, other than constant
    propagation, does not exempt the start block. *)

From S2P Require Import Prelude MachineInt Literals Ir Run Semantics Flow LivenessFacts LivenessCorrect Opcodes.
From S2P Require Import PathLength ConstProp FlowPaths ConstPropOps StageSemantics KillMoves KillFacts.
Import MachineInt Containers Literals Ir Run Semantics Flow FlowSemantics LivenessFacts LivenessCorrect Opcodes ConstProp FlowPaths ConstPropEdges ConstPropBlock KillMoves KillFacts KillAnalysis.

Module KillCorrect.

Notation EqualValueMap := (gmap nat SourceOperand).

Section Values.
Context (program : Program).

(** Register [y] and operand [t] have the same value. *)
Definition equalValue (σ : nat -> Z) (y : nat) (t : SourceOperand) : Prop := operandLiteral program σ (SrcRegister (mkAccessedRegister y)) = operandLiteral program σ t.

(** The registers of a fact are not global. *)
Definition localFact (y : nat) (t : SourceOperand) : Prop := isGlobal program y = false /\ forall r, t = SrcRegister r -> isGlobal program (_registerIndex r) = false.

Lemma register_ext σ σ' r : σ' r = σ r -> operandLiteral program σ' (SrcRegister (mkAccessedRegister r)) = operandLiteral program σ (SrcRegister (mkAccessedRegister r)).
Proof. intros H. cbn. by rewrite H. Qed.

Lemma operand_ext σ σ' t : (forall r, t = SrcRegister r -> σ' (_registerIndex r) = σ (_registerIndex r)) -> operandLiteral program σ' t = operandLiteral program σ t.
Proof. intros H. destruct t as [l|[r]|f|s]; try done. apply register_ext. by apply (H (mkAccessedRegister r)). Qed.

Lemma equalValue_ext σ σ' y t : σ' y = σ y -> (forall r, t = SrcRegister r -> σ' (_registerIndex r) = σ (_registerIndex r)) -> equalValue σ y t -> equalValue σ' y t.
Proof. intros Hy Ht H. unfold equalValue. by rewrite (register_ext σ σ' y Hy), (operand_ext σ σ' t Ht). Qed.

Lemma write_not_written op vs σ r : isGlobal program r = false -> r ∉ writtenBy program op -> write (_dst (_operation op)) vs σ r = σ r.
Proof.
  intros Hg Hr. apply StageSemantics.write_unwritten. intros Hin%StageSemantics.elem_of_writtenRegisters. apply Hr, elem_of_writtenBy. by split.
Qed.
End Values.

(** ** Replacing sources *)

Section Replace.
Context (program : Program).

Definition registerBits (r : nat) : Z := match _registerTable program !! r with Some d => _regWidth d | None => 0 end.

Definition newSource (E : EqualValueMap) (o : SourceOperand) : SourceOperand :=
  match o with
  | SrcRegister r => match E !! _registerIndex r with
                     | Some (SrcLiteral l) => SrcLiteral (mkLiteral (_value l) (registerBits (_registerIndex r)))
                     | Some t => t
                     | None => o
                     end
  | _ => o
  end.

Definition preserves (op : FlowOperation) : bool := match ShouldPreserveInputRegisters (_opcode (_operation op)) with Ok p => p | Err _ => true end.

(** The operation with new sources *)
Definition replaced (E : EqualValueMap) (op : FlowOperation) : FlowOperation :=
  if preserves op then op
  else withOperation op (mkOperation (_opcode (_operation op)) (_signExtendSourceMask (_operation op)) (_locations (_operation op)) (newSource E <$> _src (_operation op)) (_dst (_operation op))).

Definition in_range (o : SourceOperand) : Prop := match o with SrcRegister r => (_registerIndex r < numRegisters program)%nat | _ => True end.

Lemma replaceSource_eq E ch op i o : _src op !! i = Some o -> in_range o ->
  exists ch', replaceSource program E (ch, op) i = Ok (ch', setSource op i (newSource E o)) /\ (ch' = true <-> ch = true \/ newSource E o <> o).
Proof.
  intros Hi Hr. unfold replaceSource. rewrite (at_Some _ _ _ Hi). cbn [mbind result_bind].
  assert (Hid : setSource op i o = op) by (unfold setSource; rewrite list_insert_id by done; by destruct op).
  destruct o as [l|r|f|s]; cbn [newSource]; try (exists ch; rewrite Hid; split; [done|]; split; [by left|intros [?|[]]; done]).
  destruct (E !! _registerIndex r) as [t|] eqn:Er; [|exists ch; rewrite Hid; split; [done|]; split; [by left|intros [?|[]]; done]].
  destruct t as [l|x|f|s].
  - destruct (lookup_lt_is_Some_2 _ _ Hr) as [d Hd]. unfold registerWidth, registerBits. rewrite (at_Some _ _ _ Hd), Hd. cbn [mbind result_bind]. exists true. split; [done|]. split; [by right|done].
  - eexists. split; [reflexivity|]. rewrite orb_true_iff, negb_true_iff, bool_decide_eq_false. split; (intros [?|?]; [by left|right; congruence]).
  - eexists. split; [reflexivity|]. rewrite orb_true_iff, negb_true_iff, bool_decide_eq_false. split; (intros [?|?]; [by left|right; congruence]).
  - eexists. split; [reflexivity|]. rewrite orb_true_iff, negb_true_iff, bool_decide_eq_false. split; (intros [?|?]; [by left|right; congruence]).
Qed.

Lemma replaceSources_eq E ch op : Forall in_range (_src (_operation op)) ->
  exists ch', replaceSources program E ch op = Ok (ch', replaced E op) /\ (ch' = true <-> ch = true \/ replaced E op <> op).
Proof.
  intros Hr. unfold replaceSources, replaced, preserves. destruct (PathLength.PathLength.GetOpcodeTableEntry_Ok (_opcode (_operation op))) as (e & He & _). unfold ShouldPreserveInputRegisters. rewrite He. cbn [mbind result_bind].
  destruct (_preserveInputReg e); cbn [negb]; [exists ch; split; [done|]; split; [by left|intros [?|[]]; done]|].
  set (src := _src (_operation op)) in *. set (o := _operation op) in *.
  destruct (foldM_seq_inv (replaceSource program E) (fun k st => st.2 = mkOperation (_opcode o) (_signExtendSourceMask o) (_locations o) ((newSource E <$> take k src) ++ drop k src) (_dst o) /\
    (st.1 = true <-> ch = true \/ newSource E <$> take k src <> take k src)) (length src) (ch, o)) as ([ch' o'] & Hrun & H1 & H2).
  - cbn [fst snd]. split; [by destruct o|]. cbn. split; [by left|intros [?|[]]; done].
  - intros k [ch1 o1] Hk [H1 H2]. cbn [fst snd] in *. destruct (lookup_lt_is_Some_2 src k Hk) as [x Hx].
    assert (Hlen : length (newSource E <$> take k src) = k) by (rewrite length_fmap, length_take; lia).
    assert (Hi : _src o1 !! k = Some x) by (rewrite H1; cbn [_src]; rewrite lookup_app_r by lia; rewrite Hlen, Nat.sub_diag, lookup_drop, Nat.add_0_r; done).
    destruct (replaceSource_eq E ch1 o1 k x Hi) as (ch2 & -> & Hch); [by apply (Forall_lookup_1 _ _ _ _ Hr Hx)|]. eexists. split; [reflexivity|]. cbn [fst snd]. split.
    + rewrite H1. unfold setSource. cbn [_opcode _signExtendSourceMask _locations _src _dst]. f_equal. rewrite (drop_S src x k Hx), (take_S_r src k x Hx), fmap_app. cbn [fmap list_fmap].
      rewrite insert_app_r_alt by lia. rewrite Hlen, Nat.sub_diag. cbn [insert list_insert]. by rewrite <- app_assoc.
    + rewrite Hch, H2, (take_S_r src k x Hx), fmap_app. cbn [fmap list_fmap]. split.
      * intros [[?|Hne]|Hne]; [by left|right..]; intros Heq; apply app_inj_1 in Heq as [E1 E2]; try (by rewrite length_fmap); [by apply Hne|]. by injection E2.
      * intros [?|Hne]; [by left; left|]. destruct (decide (newSource E x = x)) as [Ex|]; [|by right]. left. right. intros Heq. apply Hne. by rewrite Heq, Ex.
  - cbn [fst snd] in *. rewrite Hrun. cbn [mbind result_bind]. subst o'. rewrite take_ge, drop_ge, app_nil_r in * by lia. exists ch'. split; [done|]. rewrite H2. split; (intros [?|Hne]; [by left|right]).
    + intros Heq. apply Hne. apply (f_equal (fun op => _src (_operation op))) in Heq. exact Heq.
    + intros Heq. apply Hne. rewrite Heq. unfold o. destruct op as [op1 x1 x2 x3 x4]. by destruct op1.
Qed.

(** An operation whose sources have the same values does the same. *)
Lemma replaced_same (P : (nat -> Z) -> Prop) E op : (forall σ o, P σ -> o ∈ _src (_operation op) -> operandLiteral program σ (newSource E o) = operandLiteral program σ o /\ resolve program σ (newSource E o) = resolve program σ o) ->
  does_same program P op (replaced E op).
Proof.
  intros H. unfold replaced. destruct (preserves op); [by split|].
  assert (Hval : forall σ, P σ -> opValue program σ (mkOperation (_opcode (_operation op)) (_signExtendSourceMask (_operation op)) (_locations (_operation op)) (newSource E <$> _src (_operation op)) (_dst (_operation op))) = opValue program σ (_operation op)).
  { intros σ HP. apply opValue_resolve; [done|done| |done]. cbn [_src]. rewrite <- list_fmap_compose. apply list_fmap_ext. intros i o Ho. apply (H σ o HP). by eapply list_elem_of_lookup_2. }
  split; try done.
  - intros σ vs HP. unfold results_of. cbn [withOperation _operation _dst]. by rewrite (Hval σ HP).
  - intros σ vs HP. unfold FlowPaths.observe. cbn [withOperation _operation _opcode _dst]. destruct (CanOpcodeBeLoweredToLut _); [done|]. unfold eventOf. cbn [withOperation _operation _opcode _dst _signExtendSourceMask _src _getSuccessorBlock _renamingTable].
    do 3 f_equal. rewrite <- list_fmap_compose. apply list_fmap_ext. intros i o Ho. apply (H σ o HP). by eapply list_elem_of_lookup_2.
Qed.
End Replace.

Section Function_.
Context (program : Program) (globals : gmap nat GlobalDesc) (functions : list FlowFunction) (blocks : gmap nat FlowBlock) (fi : nat) (members : list nat).
Context (Hok : function_ok program functions blocks fi Unscheduled members) (Hko : kill_ok program blocks members).
Context (isDirectSource : nat -> bool) (optimizing : bool).
Notation ops b := (opsOf blocks Unscheduled b).
Notation writes := (blockWrites program).
Notation entry := (entry blocks members).
Notation moves := (moves program blocks isDirectSource optimizing).
Notation supported := (supported program blocks members isDirectSource optimizing).
Notation edge_op := (edge_op blocks members).
Notation passed_on := (passed_on blocks members).

(** ** Registers that two operations do not write *)

Lemma writes_take b k op r : b ∈ members -> ops b !! k = Some op -> r ∈ writes (take k (ops b)) -> r ∉ writtenBy program op.
Proof.
  intros Hb Hk Hr Hw. pose proof (ko_once _ _ _ Hko b Hb) as Hnd. rewrite <- (take_drop_middle _ _ _ Hk) in Hnd. unfold blockWrites in *. rewrite fmap_app, concat_app, fmap_cons in Hnd. cbn [concat] in Hnd.
  apply NoDup_app in Hnd as (_ & Hdis & _). apply (Hdis _ Hr). apply elem_of_app. by left.
Qed.

Lemma writes_S b k op r : ops b !! k = Some op -> r ∈ writes (take (S k) (ops b)) <-> r ∈ writes (take k (ops b)) \/ r ∈ writtenBy program op.
Proof. intros Hk. rewrite (take_S_r _ _ _ Hk). unfold blockWrites. rewrite fmap_app, concat_app, elem_of_app. cbn. by rewrite app_nil_r. Qed.

Lemma writes_sub b k r : r ∈ writes (take k (ops b)) -> r ∈ writes (ops b).
Proof. rewrite !elem_of_blockWrites. intros (op & Hop & Hr). exists op. split; [|done]. eapply elem_of_sublist; [done|apply sublist_take]. Qed.

Lemma written_in b k op r : ops b !! k = Some op -> r ∈ writtenBy program op -> r ∈ writes (ops b).
Proof. intros Hk Hr. apply elem_of_blockWrites. exists op. split; [by eapply list_elem_of_lookup_2|done]. Qed.

(** An operation that writes a register is the only one. *)
Lemma written_once b j k op op' r : b ∈ members -> ops b !! j = Some op -> ops b !! k = Some op' -> r ∈ writtenBy program op -> r ∈ writtenBy program op' -> j = k.
Proof.
  intros Hb Hj Hk Hr Hr'. destruct (lt_eq_lt_dec j k) as [[Hlt|]|Hlt]; [exfalso|done|exfalso].
  - apply (writes_take b k op' r Hb Hk); [|done]. apply elem_of_blockWrites. exists op. split; [|done]. apply list_elem_of_lookup. exists j. by rewrite lookup_take_lt.
  - apply (writes_take b j op r Hb Hj); [|done]. apply elem_of_blockWrites. exists op'. split; [|done]. apply list_elem_of_lookup. exists k. by rewrite lookup_take_lt.
Qed.

Section Facts.
Context (maps : gmap nat EqualValueMap) (Hsup : supported maps).

Lemma move_local b k op y t : b ∈ members -> ops b !! k = Some op -> moveFact program op y t -> localFact program y t.
Proof.
  intros Hb Hk Hf. destruct (move_written program blocks members Hko b k op y t Hb Hk Hf) as [Hw _]. apply elem_of_writtenBy in Hw as [_ Hg]. split; [done|]. intros r ->.
  destruct Hf as (_ & _ & [(l & d & _ & _ & _ & [=])|(x & d & d' & _ & _ & Hd' & Ht & _ & [= ->])]). unfold isGlobal. rewrite Hd'. apply bool_decide_eq_false_2. by rewrite Ht.
Qed.

Lemma back_local c k s op r : edge_op c k s op -> isGlobal program r = false -> isGlobal program (back op r) = false.
Proof.
  intros He Hg. unfold back, OptionallyMapIndex, LookupWithDefault. destruct (_reverseRenamingTable op !! r) as [o|] eqn:E; [|done].
  apply (tb_reverse _ _ (ko_tables _ _ _ Hko _ _ _ _ He)), (tb_renamed _ _ (ko_tables _ _ _ Hko _ _ _ _ He)) in E as (d & d' & Hd & _ & _ & Ht). unfold isGlobal. rewrite Hd. by apply bool_decide_eq_false_2.
Qed.

Lemma facts_local b y t : b ∈ members -> ev maps b !! y = Some t -> localFact program y t.
Proof.
  intros Hb. pose proof (ko_connected _ _ _ Hko b Hb) as Hc. revert y t. induction Hc as [b [_ Hno]|c s Hc IH He]; intros y t Hy.
  - destruct (Hsup b y t Hb Hy) as [Hm|[(c & k & op & He) _]]; [|exfalso; by apply (Hno c), (kill_edge_op_edge blocks members c k b op)].
    destruct (moves_fact program functions blocks fi members Hok Hko _ _ b y t Hb Hm) as (k & op & Hk & Hf). by eapply move_local.
  - destruct (Hsup s y t Hb Hy) as [Hm|[_ Hall]].
    + destruct (moves_fact program functions blocks fi members Hok Hko _ _ s y t Hb Hm) as (k & op & Hk & Hf). by eapply move_local.
    + destruct (edge_edge_op blocks members c s He) as (k & op & Heop). pose proof (Hall c k op Heop) as Hp.
      apply (edge_op_lookup program functions blocks fi members Hok Hko c k s op _ _ _ Heop) in Hp as (p & q & Hpq & _ & -> & ->). destruct He as (Hcm & _ & _). destruct (IH Hcm p q Hpq) as [H1 H2]. split; [by eapply back_local|].
      intros r Hr. destruct q as [l|x|f|str]; try done. injection Hr as <-. cbn. eapply back_local; [done|]. by apply H2.
Qed.

(** ** The facts hold *)

(** The register has been written, or no block writes it. *)
Definition active (b k y : nat) : Prop := y ∈ writes (take k (ops b)) \/ forall c, c ∈ members -> y ∉ writes (ops c).

Definition facts_hold (b k : nat) (σ : nat -> Z) : Prop := forall y t, ev maps b !! y = Some t -> active b k y -> equalValue program σ y t.

(** The source of a fact is not written after the fact holds. *)
Lemma source_unwritten b k op y r : b ∈ members -> ops b !! k = Some op -> ev maps b !! y = Some (SrcRegister r) -> (active b k y \/ y ∈ writtenBy program op) -> _registerIndex r ∉ writtenBy program op.
Proof.
  intros Hb Hk Hy Hact Hw. pose proof (written_in b k op _ Hk Hw) as HrW. destruct (Hsup b y _ Hb Hy) as [Hm|Hp].
  - destruct (moves_fact program functions blocks fi members Hok Hko _ _ b y _ Hb Hm) as (j & mv & Hj & Hf). destruct (move_written program blocks members Hko b j mv y _ Hb Hj Hf) as [Hyw HyW].
    assert (Hsrc : SrcRegister (mkAccessedRegister (_registerIndex r)) ∈ _src (_operation mv)) by (destruct Hf as (_ & _ & [(l & d & _ & _ & _ & [=])|(x & d & d' & Hs & _ & _ & _ & _ & [= ->])]); rewrite Hs; destruct x; by left).
    destruct (ko_private _ _ _ Hko b b j mv (_registerIndex r) Hb Hb HrW Hj Hsrc) as [_ Hrj]. assert (Hle : (j <= k)%nat).
    { destruct Hact as [[Ha|Ha]|Ha]; [|by apply Ha in HyW|].
      - destruct (decide (j <= k)%nat); [done|]. exfalso. apply elem_of_blockWrites in Ha as (o & Ho & Hyo). apply list_elem_of_lookup in Ho as [i Hi]. pose proof (lookup_lt_Some _ _ _ Hi) as Hlt. rewrite length_take in Hlt. rewrite lookup_take_lt in Hi by lia.
        pose proof (written_once b i j o mv y Hb Hi Hj Hyo Hyw). lia.
      - pose proof (written_once b k j op mv y Hb Hk Hj Ha Hyw). lia. }
    apply (writes_take b k op (_registerIndex r) Hb Hk); [|done]. apply elem_of_blockWrites in Hrj as (o & Ho & Hro). apply elem_of_blockWrites. exists o. split; [|done].
    replace (take j (ops b)) with (take j (take k (ops b))) in Ho by (rewrite take_take; f_equal; lia). eapply elem_of_sublist; [exact Ho|apply sublist_take].
  - by destruct (entry_fresh program functions blocks fi members Hok Hko _ _ maps b y _ Hsup Hb Hp) as [_ H]; apply (H r eq_refl).
Qed.

Lemma facts_step b k op σ vs : b ∈ members -> ops b !! k = Some op -> results_of program σ (_operation op) vs -> facts_hold b k σ -> facts_hold b (S k) (write (_dst (_operation op)) vs σ).
Proof.
  intros Hb Hk Hvs H y t Hy Hact. pose proof (facts_local b y t Hb Hy) as [Hgy Hgt].
  assert (Hcase : active b k y \/ y ∈ writtenBy program op) by (destruct Hact as [Ha|Ha]; [apply (writes_S b k op y Hk) in Ha as [Ha|Ha]; [by left; left|by right]|by left; right]).
  assert (Ht : forall r, t = SrcRegister r -> write (_dst (_operation op)) vs σ (_registerIndex r) = σ (_registerIndex r)).
  { intros r ->. apply write_not_written with program; [by apply Hgt|]. by eapply source_unwritten. }
  destruct (decide (y ∈ writtenBy program op)) as [Hyw|Hyw].
  - pose proof (written_in b k op y Hk Hyw) as HyW. destruct (Hsup b y t Hb Hy) as [Hm|Hp]; [|by destruct (entry_fresh program functions blocks fi members Hok Hko _ _ maps b y t Hsup Hb Hp) as [? _]].
    destruct (moves_fact program functions blocks fi members Hok Hko _ _ b y t Hb Hm) as (j & mv & Hj & Hf). destruct (move_written program blocks members Hko b j mv y t Hb Hj Hf) as [Hyw' _].
    pose proof (written_once b k j op mv y Hb Hk Hj Hyw Hyw') as <-. rewrite Hk in Hj. injection Hj as <-. pose proof (ko_moves _ _ _ Hko b op Hb (list_elem_of_lookup_2 _ _ _ Hk)) as Hmv.
    destruct (moveFact_value program op y t σ vs Hmv Hf Hvs) as (v & -> & Heq). unfold equalValue. rewrite Heq. symmetry. by apply operand_ext.
  - destruct Hcase as [Ha|]; [|done]. eapply equalValue_ext; [by apply write_not_written with program|exact Ht|by apply H].
Qed.

Lemma facts_jump b k op s σ σ' : edge_op b k s op -> passes program op σ σ' -> facts_hold b k σ -> facts_hold s 0 σ'.
Proof.
  intros He Hp H y t Hy Hact. pose proof He as (Hb & Hs & Hk & Hsu). assert (Hfar : forall c, c ∈ members -> y ∉ writes (ops c)) by (destruct Hact as [Ha|Ha]; [by apply not_elem_of_nil in Ha|done]).
  destruct (Hsup s y t Hs Hy) as [Hm|[_ Hall]].
  - destruct (moves_fact program functions blocks fi members Hok Hko _ _ s y t Hs Hm) as (j & mv & Hj & Hf). destruct (move_written program blocks members Hko s j mv y t Hs Hj Hf) as [_ HyW]. by apply Hfar in HyW.
  - pose proof (Hall b k op He) as Hpo. apply (edge_op_lookup program functions blocks fi members Hok Hko b k s op _ _ _ He) in Hpo as (p & q & Hpq & [Hn1 Hn2] & -> & ->).
    pose proof (ko_tables _ _ _ Hko _ _ _ _ He) as Htab. destruct (facts_local b p q Hb Hpq) as [Hgp Hgq].
    assert (Hapq : active b k p).
    { unfold back, OptionallyMapIndex, LookupWithDefault in Hfar. destruct (_reverseRenamingTable op !! p) as [o|] eqn:E; [left|by right]. apply (tb_reverse _ _ Htab) in E. by eapply ko_renamed. }
    specialize (H p q Hpq Hapq). unfold equalValue in *. destruct (back_value program op Htab σ σ' p Hp Hgp Hn1) as [_ ->]. rewrite H.
    destruct q as [l|[x]|f|str]; try done. cbn [backOperand _registerIndex]. symmetry. apply (back_value program op Htab σ σ' x Hp); [by apply (Hgq _ eq_refl)|by apply (Hn2 _ eq_refl)].
Qed.

Lemma facts_reach tr b k σ : reaches program globals members entry (opsOf blocks Unscheduled) tr b k σ -> facts_hold b k σ.
Proof.
  induction 1 as [b σ Hb He Hc|tr b k σ σ' Hr IH Hi Hc|tr b k σ op vs Hr IH Hk Hvs|tr b k σ op s σ' Hr IH Hk Hs Hm Hp Hc].
  - intros y t Hy [Ha|Hfar]; [by apply not_elem_of_nil in Ha|]. destruct (Hsup b y t Hb Hy) as [Hmv|[(c & k & op & Heo) _]]; [|exfalso; by apply (proj2 He c), (kill_edge_op_edge blocks members c k b op)].
    destruct (moves_fact program functions blocks fi members Hok Hko _ _ b y t Hb Hmv) as (j & mv & Hj & Hf). destruct (move_written program blocks members Hko b j mv y t Hb Hj Hf) as [_ HyW]. by apply Hfar in HyW.
  - intros y t Hy Ha. destruct (facts_local b y t (reaches_member _ _ _ _ _ _ _ _ _ Hr) Hy) as [Hg Hgt]. eapply equalValue_ext; [by apply Hi| |by apply IH]. intros r Ht. by apply Hi, Hgt.
  - apply facts_step; [by eapply reaches_member|done|done|done].
  - eapply (facts_jump b k op s); [|exact Hp|done]. split; [by eapply reaches_member|done].
Qed.
(** A register that an operation reads is known there. *)
Lemma read_active b k op r : b ∈ members -> ops b !! k = Some op -> SrcRegister (mkAccessedRegister r) ∈ _src (_operation op) -> active b k r.
Proof.
  intros Hb Hk Hr. unfold active. destruct (decide (r ∈ writes (take k (ops b)))) as [|Hno]; [by left|right]. intros c Hc Hw. apply Hno. by destruct (ko_private _ _ _ Hko c b k op r Hc Hb Hw Hk Hr) as [<- ?].
Qed.

Lemma source_same b k op σ o : b ∈ members -> ops b !! k = Some op -> facts_hold b k σ -> o ∈ _src (_operation op) ->
  operandLiteral program σ (newSource program (ev maps b) o) = operandLiteral program σ o /\ resolve program σ (newSource program (ev maps b) o) = resolve program σ o.
Proof.
  intros Hb Hk Hf Ho. destruct o as [l|[r]|f|s]; cbn [newSource _registerIndex]; try done. destruct (ev maps b !! r) as [t|] eqn:Er; [|done].
  pose proof (Hf r t Er (read_active b k op r Hb Hk Ho)) as Heq. unfold equalValue in Heq. pose proof (ok_src _ _ _ _ (kill_member_ops program functions blocks fi members Hok b op Hb (list_elem_of_lookup_2 _ _ _ Hk)) _ Ho) as Hr.
  destruct (lookup_lt_is_Some_2 _ _ Hr) as [d Hd]. cbn [_registerIndex] in Hd.
  assert (Hlit : operandLiteral program σ (match t with SrcLiteral l => SrcLiteral (mkLiteral (_value l) (registerBits program r)) | _ => t end) = operandLiteral program σ (SrcRegister (mkAccessedRegister r))).
  { rewrite Heq. destruct t as [l|x|f|s]; try done. cbn in Heq |- *. rewrite Hd in Heq. cbn in Heq. injection Heq as <-. unfold registerBits. by rewrite Hd. }
  split; [destruct t; exact Hlit|]. unfold resolve. assert (Hsome : operandLiteral program σ (SrcRegister (mkAccessedRegister r)) = Some (mkLiteral (σ r mod 2 ^ _regWidth d) (_regWidth d))) by (cbn; by rewrite Hd).
  destruct t; rewrite Hlit, Hsome; done.
Qed.
End Facts.

(** ** The loop over the blocks *)

Definition replaceOps (maps : gmap nat EqualValueMap) (b : nat) : list FlowOperation := replaced program (ev maps b) <$> ops b.

Lemma visitList_replaced E ch l : Forall (fun op => Forall (in_range program) (_src (_operation op))) l ->
  exists ch', visitList (replaceSources program E) l ch = Ok (ch', replaced program E <$> l) /\ (ch' = true <-> ch = true \/ replaced program E <$> l <> l).
Proof.
  revert ch. induction l as [|op l IH]; intros ch Hl; [exists ch; split; [done|]; split; [by left|intros [?|[]]; done]|]. apply Forall_cons in Hl as [Hop Hl]. rewrite visitList_cons.
  destruct (replaceSources_eq program E ch op Hop) as (ch1 & -> & H1). cbn [mbind result_bind]. destruct (IH ch1 Hl) as (ch2 & -> & H2). cbn [mbind result_bind]. exists ch2. split; [done|]. cbn [fmap list_fmap]. split.
  - rewrite H2, H1. intros [[?|Hne]|Hne]; [by left|right; congruence|right]. intros Heq. apply Hne. by injection Heq.
  - intros [?|Hne]; [apply H2; left; apply H1; by left|]. destruct ch2; [done|exfalso]. assert (Hno : ~ (ch1 = true \/ replaced program E <$> l <> l)) by (intros H; by apply H2 in H).
    apply Hno. right. intros El. apply Hno. left. apply H1. right. intros Eo. apply Hne. by rewrite Eo, El.
Qed.

Lemma op_in_range b op : b ∈ members -> op ∈ ops b -> Forall (in_range program) (_src (_operation op)).
Proof. intros Hb Hop. apply Forall_forall. intros [l|r| |] Hin; try done. by apply (ok_src _ _ _ _ (kill_member_ops program functions blocks fi members Hok b op Hb Hop)). Qed.

Notation opsIn blocks b := (opsOf blocks Unscheduled b).

Lemma replaceBlocks_eq maps l bs ch : NoDup l -> (forall b, b ∈ l -> b ∈ members /\ (bs : gmap nat FlowBlock) !! b = blocks !! b) ->
  exists bs' ch', foldM (replaceBlock program maps) l (bs, ch) = Ok (bs', ch') /\ (forall b, b ∈ l -> opsIn bs' b = replaceOps maps b) /\ (forall b, b ∉ l -> bs' !! b = bs !! b) /\
    (ch' = true <-> ch = true \/ exists b, b ∈ l /\ replaceOps maps b <> ops b).
Proof.
  revert bs ch. induction l as [|b l IH]; intros bs ch Hnd Hl.
  - exists bs, ch. split_and!; [done|by intros b ?%not_elem_of_nil|done|]. split; [by left|]. intros [?|(b & ?%not_elem_of_nil & _)]; done.
  - apply NoDup_cons in Hnd as [Hni Hnd]. destruct (Hl b ltac:(by left)) as [Hb Hbs]. destruct (fo_block _ _ _ _ _ _ Hok b Hb) as (bb & Hbb & _). cbn [foldM].
    assert (HopsOf : ops b = operationsOf Unscheduled bb) by (unfold opsOf; by rewrite Hbb).
    destruct (visitList_replaced (ev maps b) ch (operationsOf Unscheduled bb)) as (ch1 & Hvis & H1); [apply Forall_forall; intros op Hop; apply (op_in_range b op Hb); by rewrite HopsOf|].
    destruct (ForEachOperationForward_eq (replaceSources program (ev maps b)) Unscheduled bb ch ch1 _ Hvis) as (bb' & Hfor & Hops' & _).
    assert (Hstep : replaceBlock program maps (bs, ch) b = Ok (<[b := bb']> bs, ch1)) by (unfold replaceBlock, blockAt; rewrite Hbs, Hbb; cbn [of_option mbind result_bind]; fold (ev maps b); by rewrite Hfor). rewrite Hstep. cbn [mbind result_bind].
    destruct (IH (<[b := bb']> bs) ch1 Hnd) as (bs' & ch' & -> & R1 & R2 & R3).
    + intros c Hc. destruct (Hl c ltac:(by right)) as [? ?]. split; [done|]. by rewrite lookup_insert_ne by (intros ->; done).
    + exists bs', ch'. assert (Hb' : opsIn bs' b = replaceOps maps b) by (unfold opsOf, replaceOps; rewrite (R2 b Hni), lookup_insert_eq, Hops', HopsOf; done). split_and!; [done| | |].
      * intros c [->|Hc]%elem_of_cons; [done|by apply R1].
      * intros c Hc. apply not_elem_of_cons in Hc as [Hne Hc]. rewrite R2 by done. by rewrite lookup_insert_ne.
      * assert (H1' : ch1 = true <-> ch = true \/ replaceOps maps b <> ops b) by (unfold replaceOps; by rewrite HopsOf). rewrite R3, H1'. split.
        -- intros [[?|Hne]|(c & Hc & Hne)]; [by left|right; exists b; by split; [left|]|right; exists c; by split; [right|]].
        -- intros [?|(c & [->|Hc]%elem_of_cons & Hne)]; [by left; left|by left; right|right; by exists c].
Qed.
End Function_.

(** C4: For every function whose blocks can be reached from entries to which none
    of its own operations leads, with every register written once, and for every
    order in which the work list gives the blocks, [KillMoves] ends with no failed
    assertion, within [n + (n + 1) n N] blocks for [n] blocks and [N] registers.
    In the operations that may change, every source register about which a fact
    is known at its block is replaced; the facts include those of the moves of
    the block.  The result tells whether something changed, and the function has
    exactly the executions that it had, with the same observations. *)
Theorem KillMoves_equivalent program functions blocks fi members isDirectSource optimizing firstBlock fuel :
  function_ok program functions blocks fi Unscheduled members -> kill_ok program blocks members -> (forall X, X <> ∅ -> firstBlock X ∈ X) ->
  (length members + S (length members) * (length members * numRegisters program) <= fuel)%nat ->
  exists blocks' changed facts, KillMoves program isDirectSource optimizing fi firstBlock fuel blocks members = Ok (blocks', changed) /\
    (forall b, b ∈ members -> moves program blocks isDirectSource optimizing b ⊆ facts b) /\
    (forall b, b ∈ members -> opsOf blocks' Unscheduled b = replaced program (facts b) <$> opsOf blocks Unscheduled b) /\
    (forall b, b ∉ members -> blocks' !! b = blocks !! b) /\
    (changed = true <-> exists b, b ∈ members /\ opsOf blocks' Unscheduled b <> opsOf blocks Unscheduled b) /\
    (forall globals tr b k σ, reaches program globals members (entry blocks members) (opsOf blocks Unscheduled) tr b k σ <->
                              reaches program globals members (entry blocks members) (opsOf blocks' Unscheduled) tr b k σ).
Proof.
  intros Hok Hko Hfirst Hfuel. destruct (facts_found program functions blocks fi members Hok Hko isDirectSource optimizing firstBlock Hfirst fuel Hfuel) as (maps & input & Hrun & Hinv).
  pose proof (k_supported _ _ _ _ _ _ _ _ Hinv) as Hsup.
  destruct (replaceBlocks_eq program functions blocks fi members Hok maps members blocks false (fo_nodup _ _ _ _ _ _ Hok)) as (blocks' & changed & Hrep & R1 & R2 & R3); [done|].
  exists blocks', changed, (ev maps). split_and!; [|apply Hinv|exact R1|exact R2| |].
  - unfold KillMoves. destruct (foldM (initializeBlock _ _ _ _ _) members (∅, ∅)) as [[maps0 input0]|] eqn:E0; [|done]. cbn [mbind result_bind] in Hrun |- *. rewrite Hrun. cbn [mbind result_bind]. exact Hrep.
  - rewrite R3. split; [intros [?|(b & Hb & Hne)]; [done|exists b; by rewrite R1]|intros (b & Hb & Hne); right; exists b; by rewrite <- R1].
  - intros globals tr b k σ. apply reaches_congruence; [done|intros c Hc; rewrite R1 by done; apply length_fmap|].
    intros c j op op' Hc Hj Hj'. rewrite R1 in Hj' by done. unfold replaceOps in Hj'. rewrite list_lookup_fmap, Hj in Hj'. injection Hj' as <-. apply replaced_same. intros τ o (tr' & Hτ) Ho.
    eapply (source_same program functions blocks fi members Hok Hko maps c j op τ o Hc Hj); [|done]. by eapply (facts_reach program globals functions blocks fi members Hok Hko isDirectSource optimizing maps Hsup).
Qed.

(** ** A copy that is passed on

    Block 0 passes a copy of its register 0 on as register 2; block 1 prints it
    and a copy of it. *)

Definition copyEnqueue (successor : nat) (table reverse : gmap nat nat) : FlowOperation := mkFlowOperation (mkOperation (Enqueue false) 0 ∅ [] []) (Some successor) table reverse false.
Definition copyOps0 : list FlowOperation := [demoUse Mov [0%nat] [1%nat]; copyEnqueue 1 {[2%nat := 1%nat]} {[1%nat := 2%nat]}].
Definition copyOps1 : list FlowOperation := [demoUse (Print []) [2%nat] []; demoUse Mov [2%nat] [3%nat]; demoUse (Print []) [3%nat] []].
Definition copyBlocks : gmap nat FlowBlock := {[0%nat := mkFlowBlock [] copyOps0 [] 0 [] [] [] None; 1%nat := mkFlowBlock [] copyOps1 [] 0 [] [] [] None]}.

Lemma copy_members b : b ∈ [0%nat; 1%nat] -> b = 0%nat \/ b = 1%nat.
Proof. intros [->|[->|[]%not_elem_of_nil]%elem_of_cons]%elem_of_cons; tauto. Qed.

Lemma copy_ops_ok : Forall (op_ok demoProgram demoFunctions copyBlocks) (copyOps0 ++ copyOps1).
Proof.
  repeat apply Forall_cons_2; try apply Forall_nil_2; constructor; cbn.
  all: try (intros [r] H; repeat (apply elem_of_cons in H as [H|H]; [first [discriminate|injection H as ->; cbn; lia]|]); by apply not_elem_of_nil in H).
  all: try (intros o r H; first [by rewrite lookup_empty in H|apply lookup_singleton_Some in H as [<- <-]; lia]).
  all: intros s Hs; first [discriminate|injection Hs as <-; split; [done|]; eexists _, _; split; [reflexivity|]; split; [reflexivity|]; cbn; intros r H; by apply not_elem_of_nil in H].
Qed.

Lemma copy_ok : function_ok demoProgram demoFunctions copyBlocks 0 Unscheduled [0%nat; 1%nat].
Proof.
  pose proof copy_ops_ok as [H0 H1]%Forall_app. constructor.
  - apply (bool_decide_unpack (NoDup [0%nat; 1%nat])). by vm_compute.
  - intros b [->| ->]%copy_members; (eexists; split; [reflexivity|]; split; [reflexivity|]); cbn [operationsOf _startConditionOperations _operations _stages concat app]; by rewrite app_nil_r.
  - intros b bb op s block Hb Hbb Hop Hs Hblock. assert (Hf : forall k b', copyBlocks !! k = Some b' -> k ∈ [0%nat; 1%nat] /\ _function b' = 0%nat).
    { intros k b' H. unfold copyBlocks in H. apply lookup_insert_Some in H as [[<- <-]|[_ H]]; [split; [by left|done]|]. apply lookup_singleton_Some in H as [<- <-]. split; [right; by left|done]. }
    destruct (Hf _ _ Hblock). done.
Qed.

(** The operations that lead to a block *)
Lemma copy_edge c k s op : edge_op copyBlocks [0%nat; 1%nat] c k s op ->
  s = 1%nat /\ c = 0%nat /\ k = 1%nat /\ op = copyEnqueue 1 {[2%nat := 1%nat]} {[1%nat := 2%nat]}.
Proof.
  intros ([->| ->]%copy_members & _ & Hk & Hs).
  - change (copyOps0 !! k = Some op) in Hk. do 2 (destruct k as [|k]; [injection Hk as <-; first [discriminate|injection Hs as <-; tauto]|]). discriminate.
  - change (copyOps1 !! k = Some op) in Hk. do 3 (destruct k as [|k]; [injection Hk as <-; discriminate|]). discriminate.
Qed.

Lemma copy_writes b r : b ∈ [0%nat; 1%nat] -> r ∈ blockWrites demoProgram (opsOf copyBlocks Unscheduled b) -> (b = 0%nat /\ r = 1%nat) \/ (b = 1%nat /\ r = 3%nat).
Proof. intros [->| ->]%copy_members H; vm_compute in H; apply list_elem_of_singleton in H as ->; tauto. Qed.

Lemma copy_kill_ok : kill_ok demoProgram copyBlocks [0%nat; 1%nat].
Proof.
  assert (He : edge copyBlocks Unscheduled [0%nat; 1%nat] 0 1) by (split; [by left|split; [right; by left|]]; exists (copyEnqueue 1 {[2%nat := 1%nat]} {[1%nat := 2%nat]}); split; [right; by left|done]).
  constructor.
  - intros c k s op (_ & _ & _ & ->)%copy_edge; split; cbn; intros o n H; apply lookup_singleton_Some in H as [<- <-]; [by eexists _, _|by rewrite lookup_singleton_eq].
  - intros b op [->| ->]%copy_members Hop Eo.
    + change (op ∈ copyOps0) in Hop. apply elem_of_cons in Hop as [->|[->|[]%not_elem_of_nil]%elem_of_cons]; [|discriminate]. eexists _, _. split_and!; [reflexivity..|by vm_compute|right]. eexists _, _. split_and!; [reflexivity..|done].
    + change (op ∈ copyOps1) in Hop. apply elem_of_cons in Hop as [->|[->|[->|[]%not_elem_of_nil]%elem_of_cons]%elem_of_cons]; try discriminate. eexists _, _. split_and!; [reflexivity..|by vm_compute|right]. eexists _, _. split_and!; [reflexivity..|done].
  - intros b [->| ->]%copy_members; apply NoDup_singleton.
  - intros b c r Hb Hc H1 H2. apply copy_writes in H1, H2; [lia|done|done].
  - intros b c k op r Hb Hc Hw Hk Hr. apply copy_writes in Hw; [|done]. destruct (copy_members c Hc) as [-> | ->].
    + change (copyOps0 !! k = Some op) in Hk. destruct k as [|[|k]]; [injection Hk as <-; cbn in Hr; repeat (apply elem_of_cons in Hr as [Hr|Hr]; [injection Hr as ->; lia|]); by apply not_elem_of_nil in Hr..|discriminate].
    + change (copyOps1 !! k = Some op) in Hk. destruct k as [|[|[|k]]]; [injection Hk as <-; cbn in Hr..|discriminate].
      all: repeat (apply elem_of_cons in Hr as [Hr|Hr]; [injection Hr as ->; first [lia|destruct Hw as [[_ ?]|[-> _]]; [done|split; [done|vm_compute; by left]]]|]); by apply not_elem_of_nil in Hr.
  - intros c k s op o n b (_ & _ & _ & ->)%copy_edge Hb Ho Hw; cbn in Ho. apply lookup_singleton_Some in Ho as [<- <-]. apply copy_writes in Hw; [lia|done].
  - intros c k s op o n (_ & -> & -> & ->)%copy_edge Ho; cbn in Ho. apply lookup_singleton_Some in Ho as [<- <-]. vm_compute. by left.
  - assert (Hc : connected copyBlocks [0%nat; 1%nat] 0) by (apply connected_entry; split; [by left|]; intros c (k & op & (H & _)%copy_edge)%edge_edge_op; discriminate).
    intros b [->| ->]%copy_members; [done|]. by eapply connected_edge.
Qed.

Lemma KillMoves_equivalent_witness :
  ('(blocks', changed) ← KillMoves demoProgram (fun _ => false) true 0 demoFirst 26 copyBlocks [0%nat; 1%nat]; Ok (opsOf blocks' Unscheduled 1, changed))
  = Ok ([demoUse (Print []) [0%nat] []; demoUse Mov [0%nat] [3%nat]; demoUse (Print []) [2%nat] []], true) /\
  exists blocks' changed facts, KillMoves demoProgram (fun _ => false) true 0 demoFirst 26 copyBlocks [0%nat; 1%nat] = Ok (blocks', changed) /\
    (forall b, b ∈ [0%nat; 1%nat] -> moves demoProgram copyBlocks (fun _ => false) true b ⊆ facts b) /\
    (forall b, b ∈ [0%nat; 1%nat] -> opsOf blocks' Unscheduled b = replaced demoProgram (facts b) <$> opsOf copyBlocks Unscheduled b) /\
    (forall b, b ∉ [0%nat; 1%nat] -> blocks' !! b = copyBlocks !! b) /\
    (changed = true <-> exists b, b ∈ [0%nat; 1%nat] /\ opsOf blocks' Unscheduled b <> opsOf copyBlocks Unscheduled b) /\
    (forall globals tr b k σ, reaches demoProgram globals [0%nat; 1%nat] (entry copyBlocks [0%nat; 1%nat]) (opsOf copyBlocks Unscheduled) tr b k σ <->
                              reaches demoProgram globals [0%nat; 1%nat] (entry copyBlocks [0%nat; 1%nat]) (opsOf blocks' Unscheduled) tr b k σ).
Proof.
  split; [vm_compute; reflexivity|]. apply (KillMoves_equivalent demoProgram demoFunctions copyBlocks 0 [0%nat; 1%nat] (fun _ => false) true demoFirst 26).
  - exact copy_ok.
  - exact copy_kill_ok.
  - exact demo_first.
  - cbn. lia.
Defined.

End KillCorrect.
