(* ===== verification/DefUse.v ===== *)
(** * Definitions and uses in a block

    [optimize.h]: the class [LocalDefUseTracker], which leads from a register to
    the operation of the block that has written it, and
    [ComputeRegisterReadCountMap] of [optimize.cpp], which it is initialised with.
    A pointer to an operation is its position in the block.  In a block that writes each
    register once the tracker never meets a register twice, and what it finds
    is an operation on local registers ([HandleOperation_eq]). *)

From S2P Require Import Prelude MachineInt Literals Ir Run Semantics Flow LivenessFacts ConstProp ConstPropOps Opcodes.
From S2P Require Import Decompose Decompositions CommonSubexpressions CseFacts BlockValues.
Import MachineInt Containers Literals Ir Run Semantics Flow FlowSemantics LivenessFacts ConstPropBlock Opcodes Decompose DecomposeSelect CseFacts BlockValues.

Module DefUse.

Notation RegisterReadCountMap := (gmap nat Z).

Definition ComputeRegisterReadCountMap (operations : list FlowOperation) : RegisterReadCountMap :=
  fold_left (fun result op =>
      fold_left (fun result srcOp =>
          match srcOp with
          | SrcRegister r => <[_registerIndex r := u64_add (default 0 (result !! _registerIndex r)) 1]> result
          | _ => result
          end) (_src (_operation op)) result)
    operations ∅.

Record LocalDefUseTracker : Type := mkLocalDefUseTracker { _definitionMap : gmap nat nat; _useCountMap : RegisterReadCountMap }.

(** The constructor *)
Definition newTracker (operations : list FlowOperation) : LocalDefUseTracker := mkLocalDefUseTracker ∅ (ComputeRegisterReadCountMap operations).

Definition HandleOperation (program : Program) (tracker : LocalDefUseTracker) (operation : Operation) (position : nat) (trackDef : bool) : result LocalDefUseTracker :=
  barrier ← DoesOpcodeImplyOptimizationBarrier (_opcode operation);
  let definitionMap := if barrier : bool then ∅ else _definitionMap tracker in
  local ← (if trackDef then OperationUsesOnlyLocalReg program operation else Ok false);
  definitionMap ← (if local : bool
                   then foldM (fun definitionMap dstOp => r ← destinationRegister dstOp; SafeInsert definitionMap (_registerIndex r) position) (_dst operation) definitionMap
                   else Ok definitionMap);
  Ok (mkLocalDefUseTracker definitionMap (_useCountMap tracker)).

Definition GetDef (program : Program) (tracker : LocalDefUseTracker) (registerIndex : nat) : result (option nat) :=
  match _definitionMap tracker !! registerIndex with
  | Some position => t ← registerType program registerIndex; assert_ (bool_decide (Local = t));; Ok (Some position)
  | None => Ok None
  end.

(** The overload for an operand *)
Definition GetDef_operand (program : Program) (tracker : LocalDefUseTracker) (srcOperand : SourceOperand) : result (option nat) :=
  match srcOperand with SrcRegister r => GetDef program tracker (_registerIndex r) | _ => Ok None end.

Definition GetUseCount (tracker : LocalDefUseTracker) (registerIndex : nat) : result Z := SafeLookup (_useCountMap tracker) registerIndex.

(** ** What the tracker knows *)

Section Tracker.
Context (program : Program) (l : list FlowOperation) (Hnd : NoDup (blockWrites program l)).

(** An operation that can be tracked: it writes one register, which is [Local] if it is
    in the data path, and reads literals and registers. *)
Record trackable (op : Operation) : Prop := mk_trackable {
  tk_src : forall r, SrcRegister r ∈ _src op -> (_registerIndex r < numRegisters program)%nat;
  tk_dst : exists y d, _dst op = [DstRegister (mkAccessedRegister y)] /\ _registerTable program !! y = Some d /\ (IsLocalRegisterType (_type d) = true -> _type d = Local) }.

Definition tracks (T : nat -> Operation -> Prop) (i : nat) (definitionMap : gmap nat nat) : Prop :=
  forall r p, definitionMap !! r = Some p -> (p < i)%nat /\ registerType program r = Ok Local /\ exists op, l !! p = Some op /\ local_op program op r /\ OperationUsesOnlyLocalSrcReg program (_operation op) = Ok true /\ T p (_operation op).

Lemma GetDef_eq T i tracker r : tracks T i (_definitionMap tracker) -> GetDef program tracker r = Ok (_definitionMap tracker !! r).
Proof. intros H. unfold GetDef. destruct (_definitionMap tracker !! r) as [p|] eqn:E; [|done]. destruct (H r p E) as (_ & -> & _). cbn. done. Qed.

Lemma GetDef_operand_eq T i tracker o : tracks T i (_definitionMap tracker) ->
  GetDef_operand program tracker o = Ok (match o with SrcRegister r => _definitionMap tracker !! _registerIndex r | _ => None end).
Proof. intros H. destruct o; try done. by apply (GetDef_eq T i). Qed.

Lemma DoesOpcodeImplyOptimizationBarrier_Ok opcode : exists b, DoesOpcodeImplyOptimizationBarrier opcode = Ok b.
Proof. destruct opcode; by eexists. Qed.

Lemma tracks_empty T i : tracks T i ∅.
Proof. intros r p. by rewrite lookup_empty. Qed.

Lemma HandleOperation_eq (T : nat -> Operation -> Prop) i tracker op trackDef : l !! i = Some op -> tracks T i (_definitionMap tracker) -> (trackDef = true -> trackable (_operation op) /\ T i (_operation op)) ->
  exists tracker', HandleOperation program tracker (_operation op) i trackDef = Ok tracker' /\ tracks T (S i) (_definitionMap tracker') /\ _useCountMap tracker' = _useCountMap tracker.
Proof.
  intros Hi Htr Htd. unfold HandleOperation. destruct (DoesOpcodeImplyOptimizationBarrier_Ok (_opcode (_operation op))) as [b ->]. cbn [mbind result_bind].
  set (defs := if b then ∅ else _definitionMap tracker). assert (Hdefs : tracks T i defs) by (unfold defs; destruct b; [apply tracks_empty|done]).
  assert (Hmono : tracks T (S i) defs) by (intros r p Hr; destruct (Hdefs r p Hr) as (Hlt & Hrest); split; [lia|done]). destruct trackDef; [|cbn; eexists; split; [reflexivity|]; by split]. destruct (Htd eq_refl) as [[Hsrc (y & d & Hy & Hd & Hloc)] HT].
  destruct (OperationUsesOnlyLocalReg_table program (_operation op) Hsrc) as [local Hlocal]; [intros q Hq; rewrite Hy in Hq; apply list_elem_of_singleton in Hq as [= ->]; by eapply lookup_lt_Some|].
  rewrite Hlocal. cbn [mbind result_bind]. destruct local; [|eexists; split; [reflexivity|]; by split]. rewrite Hy. cbn [foldM destinationRegister mbind result_bind _registerIndex]. unfold SafeInsert.
  unfold OperationUsesOnlyLocalReg in Hlocal. destruct (OperationUsesOnlyLocalSrcReg program (_operation op)) as [[]|] eqn:Hs; try done. cbn [mbind result_bind] in Hlocal.
  assert (Hlo : local_op program op y) by (split; [done|by apply (onlyLocal_destination program (_operation op))|by apply onlyLocal_sources]).
  assert (Hfresh : defs !! y = None).
  { destruct (defs !! y) as [p|] eqn:Ep; [exfalso|done]. destruct (Hdefs y p Ep) as (Hlt & _ & op' & Hp & Hlo' & _). pose proof Hnd as Hnd'. rewrite <- (take_drop_middle _ _ _ Hi) in Hnd'. unfold blockWrites in Hnd'. rewrite fmap_app, concat_app, fmap_cons in Hnd'. cbn [concat] in Hnd'.
    apply NoDup_app in Hnd' as (_ & Hdis & _). apply (Hdis y); [|apply elem_of_app; left; rewrite (local_op_writes program op y Hlo); by left]. apply elem_of_concat. exists (writtenBy program op'). split; [|rewrite (local_op_writes program op' y Hlo'); by left].
    apply list_elem_of_fmap. exists op'. split; [done|]. apply list_elem_of_lookup. exists p. by rewrite lookup_take_lt. }
  rewrite Hfresh. cbn [mbind result_bind]. eexists. split; [reflexivity|]. split; [|done]. cbn [_definitionMap]. intros r p [[<- <-]|[Hne Hr]]%lookup_insert_Some; [|by apply Hmono]. split; [lia|]. split; [|by exists op].
  unfold registerType. rewrite (at_Some _ _ _ Hd). cbn. f_equal. apply Hloc. unfold OperationUsesOnlyLocalDstReg in Hlocal. rewrite Hy in Hlocal. cbn in Hlocal. rewrite (at_Some _ _ _ Hd) in Hlocal. cbn in Hlocal. by injection Hlocal.
Qed.

(** ** Passes that change the operations in place

    Operation [i] is changed when the tracker knows the operations before it. *)

Definition edit (T : nat -> Operation -> Prop) (k : nat) (op op' : FlowOperation) : Prop :=
  op' = op \/
  (_dst (_operation op') = _dst (_operation op) /\ _getSuccessorBlock op' = _getSuccessorBlock op /\ _renamingTable op' = _renamingTable op /\
   CanOpcodeBeLoweredToLut (_opcode (_operation op)) = true /\ CanOpcodeBeLoweredToLut (_opcode (_operation op')) = true /\ T k (_operation op') /\
   forall σ, kept program l k σ -> opValue program σ (_operation op') = opValue program σ (_operation op)).

Record edited_upto (T : nat -> Operation -> Prop) (i : nat) (L : list FlowOperation) : Prop := mk_edited_upto {
  eu_length : length L = length l;
  eu_todo : forall k, (i <= k)%nat -> L !! k = l !! k;
  eu_done : forall k op op', (k < i)%nat -> l !! k = Some op -> L !! k = Some op' -> edit T k op op' }.

Lemma edited_upto_start T : edited_upto T 0 l.
Proof. split; [done|done|]. intros; lia. Qed.

Lemma edited_upto_step T i L op op' : edited_upto T i L -> l !! i = Some op -> edit T i op op' -> edited_upto T (S i) (<[i := op']> L).
Proof.
  intros [Hlen Htodo Hdone] Hi He. pose proof (lookup_lt_Some _ _ _ Hi) as Hlt. split; [by rewrite length_insert|intros k Hk; rewrite list_lookup_insert_ne by lia; apply Htodo; lia|].
  intros k o o' Hk Ho Ho'. destruct (decide (k = i)) as [->|Hne]; [|rewrite list_lookup_insert_ne in Ho' by done; apply (Hdone k); (done || lia)].
  rewrite list_lookup_insert_eq in Ho' by lia. rewrite Hi in Ho. congruence.
Qed.

Lemma edited_upto_skip T i L : edited_upto T i L -> (i < length l)%nat -> edited_upto T (S i) L.
Proof.
  intros [Hlen Htodo Hdone] Hlt. split; [done|intros k Hk; apply Htodo; lia|]. intros k o o' Hk Ho Ho'. destruct (decide (k = i)) as [->|]; [left|apply Hdone; (done || lia)]. rewrite Htodo in Ho' by lia. congruence.
Qed.

Lemma edited_upto_edited T L : edited_upto T (length l) L -> edited program l L.
Proof.
  intros [Hlen _ Hdone]. split; [done|]. intros k op op' Hk Hk'. destruct (Hdone k op op' (lookup_lt_Some _ _ _ Hk) Hk Hk') as [->|(Hd & Hs & Hr & Hlo & Hlo' & _ & Hv)]; [apply does_same_refl|]. by apply does_same_value.
Qed.

(** The tracker has just recorded operation [i], but it does not read what it writes. *)
Lemma tracked_before (Hsa : single_assignment program l) T i definitionMap op r p : tracks T (S i) definitionMap -> l !! i = Some op -> SrcRegister (mkAccessedRegister r) ∈ _src (_operation op) -> definitionMap !! r = Some p -> (p < i)%nat.
Proof.
  intros Htr Hi Hr Hp. destruct (Htr r p Hp) as (Hlt & _ & op' & Hop' & Hlo & _). destruct (decide (p = i)) as [->|]; [exfalso|lia]. rewrite Hi in Hop'. injection Hop' as <-.
  apply (source_kept program l Hsa i i op op r Hi Hi (le_n i) Hr). rewrite (local_op_writes program op r Hlo). by left.
Qed.

(** The operation that the tracker finds, as it was and as it is now *)
Lemma tracked_find T i L definitionMap r p : edited_upto T i L -> tracks T (S i) definitionMap -> definitionMap !! r = Some p -> (p < i)%nat ->
  exists orig op, l !! p = Some orig /\ L !! p = Some op /\ T p (_operation orig) /\ T p (_operation op) /\ _dst (_operation op) = [DstRegister (mkAccessedRegister r)] /\
    OperationUsesOnlyLocalSrcReg program (_operation orig) = Ok true /\
    ((forall τ, is_Some (opValue program τ (_operation orig))) -> forall σ, kept program l i σ -> opValue program σ (_operation op) = Some (σ r)).
Proof.
  intros [Hlen Htodo Hdone] Htr Hr Hlt. destruct (Htr r p Hr) as (_ & _ & op & Hp & Hlo & Hol & HTop). pose proof (lookup_lt_Some _ _ _ Hp) as Hpl. destruct (lookup_lt_is_Some_2 L p) as [op' Hp']; [lia|].
  assert (Hval : (forall τ, is_Some (opValue program τ (_operation op))) -> forall σ, kept program l i σ -> opValue program σ (_operation op) = Some (σ r)) by (intros HT σ Hσ; by apply (Hσ p op r Hlt Hp Hlo)).
  exists op, op'. destruct (Hdone p op op' Hlt Hp Hp') as [->|(Hd & _ & _ & _ & _ & HT' & Hv)]; [split_and!; try done; apply Hlo|]. split_and!; [done..|rewrite Hd; apply Hlo|done|].
  intros HT σ Hσ. rewrite Hv; [by apply Hval|]. by eapply kept_mono; [|exact Hσ]; lia.
Qed.

Lemma tracked_op T i L definitionMap r p : (forall k op, T k op -> forall τ, is_Some (opValue program τ op)) -> edited_upto T i L -> tracks T (S i) definitionMap -> definitionMap !! r = Some p -> (p < i)%nat ->
  exists op, L !! p = Some op /\ T p (_operation op) /\ _dst (_operation op) = [DstRegister (mkAccessedRegister r)] /\ forall σ, kept program l i σ -> opValue program σ (_operation op) = Some (σ r).
Proof.
  intros HT HL Htr Hr Hlt. destruct (tracked_find T i L definitionMap r p HL Htr Hr Hlt) as (orig & op & _ & Hop & HTo & HTop & Hd & _ & Hv). exists op. split_and!; [done..|]. apply Hv. by apply (HT p).
Qed.

Lemma insert_changed L i op op' : l !! i = Some op -> length L = length l -> op' <> op -> <[i := op']> L <> l.
Proof. intros Hi Hlen Hne Heq. pose proof (lookup_lt_Some _ _ _ Hi) as Hlt. apply Hne. apply (f_equal (fun x => x !! i)) in Heq. rewrite list_lookup_insert_eq, Hi in Heq by lia. congruence. Qed.
End Tracker.

End DefUse.
