(* ===== verification/AddToOr.v ===== *)
(** * Additions whose operands do not overlap

    [optimize.cpp]: [AddToOr], which turns an addition into a bitwise or when the low
    bits of the wider operand are known to be 0 where the narrower one has its
    bits.  The bits are known from the look-up table of the operation that
    defines the operand; [AllocatorLutFn] only allocates memory. *)

From S2P Require Import Prelude MachineInt Literals Ir Semantics LutOpt LutFacts LutLower LutLowerFacts LutLowerCorrect LutColumns.
From S2P Require Import Flow LivenessFacts LivenessCorrect ConstProp FlowPaths ConstPropOps Opcodes Decompose BlockValues.
From S2P Require Import Decompositions DefUse.
Import MachineInt Containers Literals Ir Semantics LutOpt LutFacts LutCofactor LutPasses LutLower LutLowerCorrect LutColumns Flow FlowSemantics LivenessFacts LivenessCorrect ConstProp FlowPaths ConstPropBlock Opcodes Decompose BlockValues DefUse.

Module AddToOr.

(** ** Definitions *)

Record AddState : Type := mkAddState { _addTracker : LocalDefUseTracker; _addOperations : list FlowOperation; _addChanged : bool }.

(** The low bits of [wideDef] are constant zeros. *)
Definition allLowBitsZero (program : Program) (wideDef : Operation) (narrowWidth : Z) : result bool :=
  assert_ (CanOpcodeBeLoweredToLut (_opcode wideDef));;
  assert_ (length (_dst wideDef) =? 1)%nat;;
  '(lowered, wideDefAsLut) ← LowerToLut program wideDef;
  if negb lowered then Ok false
  else
    lut ← getLut wideDefAsLut;
    assert_ (narrowWidth <=? Z.of_nat (_numDestinationBits lut));;
    allM (fun i => lutEntry ← at_ (_lutEntries lut) (Z.to_nat i); Ok (IsConstantZero lutEntry)) (seqZ 0 narrowWidth).

(** One round of the loop over [narrowOpIdx] *)
Definition lowBitsFree (program : Program) (tracker : LocalDefUseTracker) (operations : list FlowOperation) (op : Operation) (narrowOpIdx : nat) : result bool :=
  let wideOpIdx := (1 - narrowOpIdx)%nat in
  narrowOp ← at_ (_src op) narrowOpIdx;
  wideOp ← at_ (_src op) wideOpIdx;
  narrowWidth ← SourceOperand_Width program narrowOp;
  wideWidth ← SourceOperand_Width program wideOp;
  if narrowWidth <? wideWidth then
    match wideOp with
    | SrcRegister r =>
        wideDef ← GetDef program tracker (_registerIndex r);
        match wideDef with
        | Some position => d ← at_ operations position; allLowBitsZero program (_operation d) narrowWidth
        | None => Ok false
        end
    | _ => Ok false
    end
  else Ok false.

Definition addToOrOperation (program : Program) (st : AddState) (i : nat) : result AddState :=
  op ← at_ (_addOperations st) i;
  let o := _operation op in
  tracker ← HandleOperation program (_addTracker st) o i (CanOpcodeBeLoweredToLut (_opcode o));
  match _opcode o with
  | BinaryOp ParseTreeBinaryOpTypeAdd =>
      if _signExtendSourceMask o =? 0 then
        found ← findM (lowBitsFree program tracker (_addOperations st) o) [0; 1]%nat;
        match found with
        | Some _ =>
            let op' := withOperation op (mkOperation (BinaryOp ParseTreeBinaryOpTypeOr) (_signExtendSourceMask o) (_locations o) (_src o) (_dst o)) in
            Ok (mkAddState tracker (<[i := op']> (_addOperations st)) true)
        | None => Ok (mkAddState tracker (_addOperations st) (_addChanged st))
        end
      else Ok (mkAddState tracker (_addOperations st) (_addChanged st))
  | _ => Ok (mkAddState tracker (_addOperations st) (_addChanged st))
  end.

Definition addToOrBlock (program : Program) (basicBlock : FlowBlock) (didChangeIR : bool) : result (FlowBlock * bool) :=
  st ← foldM (addToOrOperation program) (seq 0 (length (_operations basicBlock))) (mkAddState (newTracker (_operations basicBlock)) (_operations basicBlock) didChangeIR);
  Ok (mkFlowBlock (_startConditionOperations basicBlock) (_addOperations st) (_stages basicBlock) (_function basicBlock) (_liveInReg basicBlock)
        (_returnValueReg basicBlock) (_forcedDeadInReg basicBlock) (_invocationInstanceRegisterIndex basicBlock), _addChanged st).

(** [function._basicBlocks] are [members]. *)
Definition AddToOr (program : Program) (blocks : gmap nat FlowBlock) (members : list nat) : result (gmap nat FlowBlock * bool) :=
  foldM (fun st b => basicBlock ← blockAt st.1 b; '(basicBlock, didChangeIR) ← addToOrBlock program basicBlock st.2; Ok (<[b := basicBlock]> st.1, didChangeIR))
    members (blocks, false).

(** ** Numbers without common bits *)

Lemma add_lor_disjoint a b n : 0 <= n -> 0 <= a < 2 ^ n -> (forall i, 0 <= i < n -> Z.testbit b i = false) -> a + b = Z.lor a b.
Proof.
  intros Hn Ha Hb. rewrite Z.add_nocarry_lxor; [apply Z.lxor_lor|]; apply Z.bits_inj'; intros i Hi; rewrite Z.land_spec, Z.bits_0.
  all: destruct (decide (i < n)); [rewrite Hb by lia; apply andb_false_r|]; by rewrite (testbit_high n a i) by lia.
Qed.

Section Values.
Context (program : Program).

(** The operations that the tracker records: those that can become tables *)
Definition table_op (op : Operation) : Prop := op_wf program op /\ (exists w, dstWidth program op = Ok w /\ lowerable program op w) /\ CanOpcodeBeLoweredToLut (_opcode op) = true.

Lemma table_op_value op σ : table_op op -> is_Some (opValue program σ op).
Proof. intros (_ & (w & Hw & Hlow) & _). by apply (lowerable_value program σ op w). Qed.

(** The low bits are zero when the test says so. *)
Lemma allLowBitsZero_eq op n w : table_op op -> dstWidth program op = Ok w -> 0 <= n <= w ->
  exists b, allLowBitsZero program op n = Ok b /\ (b = true -> forall σ v, opValue program σ op = Some v -> forall i, 0 <= i < n -> Z.testbit v i = false).
Proof.
  intros (Hwf & (w' & Hw' & Hlow) & Hc) Hw Hn. rewrite Hw in Hw'. injection Hw' as <-. destruct (id Hwf) as [_ _ _ (d & w' & Hd & _ & _)]. unfold allLowBitsZero. rewrite Hc, Hd. cbn [length Nat.eqb assert_ mbind result_bind].
  destruct (LowerToLut_sound program op w Hwf Hw Hlow) as (lowered & op' & -> & Heq & _ & Hd' & _ & Hres & _). cbn [mbind result_bind]. destruct lowered; cbn [negb]; [|by exists false]. destruct Hres as [es Hes].
  rewrite (getLut_eq _ _ _ Hes). cbn [mbind result_bind]. unfold _numDestinationBits. cbn [_lutEntries]. assert (Hlen : Z.of_nat (length es) = w) by (pose proof (lut_width _ _ _ Hes) as Hlw; unfold dstWidth in Hlw, Hw; rewrite Hd', Hw in Hlw; by injection Hlw).
  rewrite assert_true by (apply Z.leb_le; lia). cbn [mbind result_bind]. set (g := fun i => match es !! Z.to_nat i with Some e => IsConstantZero e | None => false end). rewrite (allM_forallb _ g).
  - eexists. split; [reflexivity|]. intros Hall σ v Hv i Hi. rewrite <- (Heq σ), (opValue_lut _ _ _ _ Hes) in Hv. injection Hv as <-. rewrite forallb_forall in Hall. specialize (Hall i ltac:(apply list_elem_of_In, elem_of_seqZ; lia)). unfold g in Hall.
    unfold lut_val. rewrite testbit_bits_to_Z_nonneg, list_lookup_fmap by lia. destruct (es !! Z.to_nat i) as [e|] eqn:He; [|done]. cbn. unfold IsConstantZero in Hall. apply Z.eqb_eq in Hall. unfold entry_val. by rewrite Hall, Z.bits_0.
  - intros i Hi%elem_of_seqZ. unfold g. destruct (lookup_lt_is_Some_2 es (Z.to_nat i)) as [e He]; [lia|]. by rewrite (at_Some _ _ _ He), He.
Qed.

(** An addition of unsigned operands *)
Definition add_op (op : Operation) : Prop := op_wf program op /\ length (_src op) = 2%nat /\ _opcode op = BinaryOp ParseTreeBinaryOpTypeAdd /\ _signExtendSourceMask op = 0.

Definition orOperation (o : Operation) : Operation := mkOperation (BinaryOp ParseTreeBinaryOpTypeOr) (_signExtendSourceMask o) (_locations o) (_src o) (_dst o).

Lemma add_or_value op σ k n : add_op op -> (k < 2)%nat -> 0 <= n -> 0 <= srcInt program σ op k < 2 ^ n -> (forall i, 0 <= i < n -> Z.testbit (srcInt program σ op (1 - k)) i = false) ->
  opValue program σ (orOperation op) = opValue program σ op.
Proof.
  intros (_ & _ & Ho & _) Hk Hn Hr Hz. unfold opValue. change (dstWidth program (orOperation op)) with (dstWidth program op). destruct (dstWidth program op) as [w|]; [|done]. unfold opInt. rewrite Ho. cbn [orOperation _opcode].
  assert (Hs : forall i, srcInt program σ (orOperation op) i = srcInt program σ op i) by done. rewrite !Hs. cbn [binop_spec]. cbn. do 2 f_equal. destruct k as [|[|k]]; [|rewrite Z.add_comm, Z.lor_comm|lia]; symmetry; by apply (add_lor_disjoint _ _ n).
Qed.

(** ** One block *)

Section Block.
Context (l : list FlowOperation) (Hsa : single_assignment program l).
Context (Hlut : forall op, op ∈ l -> CanOpcodeBeLoweredToLut (_opcode (_operation op)) = true -> table_op (_operation op) /\ trackable program (_operation op)).

Lemma operand_bits op i o σ : op_wf program op -> _signExtendSourceMask op = 0 -> _src op !! i = Some o ->
  exists w, SourceOperand_Width program o = Ok w /\ 0 <= w /\ 0 <= srcInt program σ op i < 2 ^ w /\ forall r, o = SrcRegister r -> srcInt program σ op i = σ (_registerIndex r) mod 2 ^ w /\ registerWidth program (_registerIndex r) = Ok w.
Proof.
  intros Hwf Hm Hi. pose proof (Forall_lookup_1 _ _ _ _ (wf_src _ _ Hwf) Hi) as Ho. rewrite (srcInt_lookup _ _ _ _ _ Hi), signExtends_mask0 by done. destruct o as [lit|r|?|?]; try done.
  - destruct Ho as [(Hw & Hv) _]. exists (_width lit). split_and!; [done|lia|cbn; unfold operandInt; cbn; lia..|discriminate].
  - destruct Ho as (d & Hd & Hw). exists (_regWidth d). cbn. unfold registerWidth, operandInt, operandLiteral. cbn. rewrite (at_Some _ _ _ Hd), Hd. cbn. pose proof (Z.pow_pos_nonneg 2 (_regWidth d) ltac:(lia) ltac:(lia)). pose proof (Z.mod_pos_bound (σ (_registerIndex r)) (2 ^ _regWidth d) ltac:(lia)). split_and!; [done|lia|lia|lia|]. intros ? [= <-]. split; [done|]. by rewrite (at_Some _ _ _ Hd).
Qed.

Lemma lowBitsFree_eq i tracker L op k : edited_upto program l (fun _ => table_op) i L -> tracks program l (fun _ => table_op) (S i) (_definitionMap tracker) -> l !! i = Some op -> add_op (_operation op) -> (k < 2)%nat ->
  exists b, lowBitsFree program tracker L (_operation op) k = Ok b /\
    (b = true -> forall σ, kept program l i σ -> exists n, 0 <= n /\ 0 <= srcInt program σ (_operation op) k < 2 ^ n /\ forall j, 0 <= j < n -> Z.testbit (srcInt program σ (_operation op) (1 - k)) j = false).
Proof.
  intros HL Htr Hi (Hwf & Hlen & _ & Hm) Hk. destruct (lookup_lt_is_Some_2 (_src (_operation op)) k) as [o Ho]; [lia|]. destruct (lookup_lt_is_Some_2 (_src (_operation op)) (1 - k)) as [o' Ho']; [lia|].
  unfold lowBitsFree. rewrite (at_Some _ _ _ Ho), (at_Some _ _ _ Ho'). cbn [mbind result_bind]. destruct (operand_bits _ k o (fun _ => 0) Hwf Hm Ho) as (n & Hn & Hn0 & _). destruct (operand_bits _ (1 - k) o' (fun _ => 0) Hwf Hm Ho') as (w & Hw & _ & _ & Hr). rewrite Hn, Hw. cbn [mbind result_bind].
  destruct (Z.ltb_spec n w) as [Hlt|]; [|by exists false]. destruct o' as [|r| |]; try (by exists false). destruct (Hr r eq_refl) as [_ Hrw]. rewrite (GetDef_eq program l (fun _ => table_op) (S i) tracker) by done. cbn [mbind result_bind].
  destruct (_definitionMap tracker !! _registerIndex r) as [p|] eqn:Ep; [|by exists false]. assert (Hrin : SrcRegister (mkAccessedRegister (_registerIndex r)) ∈ _src (_operation op)) by (destruct r; by eapply list_elem_of_lookup_2).
  pose proof (tracked_before program l Hsa (fun _ => table_op) i _ op _ p Htr Hi Hrin Ep) as Hp.
  destruct (tracked_op program l (fun _ => table_op) i L _ _ p (fun _ o H τ => table_op_value o τ H) HL Htr Ep Hp) as (def & Hdef & HT & Hd & Hval). rewrite (at_Some _ _ _ Hdef). cbn [mbind result_bind].
  assert (Hdw : dstWidth program (_operation def) = Ok w) by (unfold dstWidth; rewrite Hd; exact Hrw). destruct (allLowBitsZero_eq (_operation def) n w HT Hdw) as (b & -> & Hb); [lia|]. exists b. split; [done|]. intros Hbt σ Hσ. exists n. split; [done|].
  destruct (operand_bits _ k o σ Hwf Hm Ho) as (n' & Hn' & _ & Hrange & _). rewrite Hn in Hn'. injection Hn' as <-. split; [done|]. intros j Hj. destruct (operand_bits _ (1 - k) (SrcRegister r) σ Hwf Hm Ho') as (w' & Hw' & _ & _ & Hr'). rewrite Hw in Hw'. injection Hw' as <-. rewrite (proj1 (Hr' r eq_refl)).
  rewrite Z.testbit_mod_pow2 by lia. rewrite (Hb Hbt σ _ (Hval σ Hσ) j Hj). apply andb_false_r.
Qed.

Definition add_inv (i : nat) (ch : bool) (st : AddState) : Prop :=
  edited_upto program l (fun _ => table_op) i (_addOperations st) /\ tracks program l (fun _ => table_op) i (_definitionMap (_addTracker st)) /\ (_addChanged st = true <-> ch = true \/ _addOperations st <> l).

Lemma or_table op : add_op op -> table_op op -> table_op (orOperation op).
Proof.
  intros (Hwf & Hlen & Ho & Hm) (_ & (w & Hw & _) & _). split; [|split; [|done]].
  - destruct Hwf as [H1 H2 H3 H4]. by split.
  - exists w. split; [exact Hw|]. split; [exact Hlen|]. split; [discriminate|]. by intros _ o0 o1 a b _ _ _.
Qed.

Lemma addToOrOperation_eq i ch st : add_inv i ch st -> (i < length l)%nat -> exists st', addToOrOperation program st i = Ok st' /\ add_inv (S i) ch st'.
Proof.
  intros (HL & Htr & Hch) Hlt. destruct (lookup_lt_is_Some_2 l i Hlt) as [op Hi]. unfold addToOrOperation. rewrite (at_Some _ i op) by (rewrite (eu_todo _ _ _ _ _ HL) by done; done). cbn [mbind result_bind].
  assert (Hin : op ∈ l) by (by eapply list_elem_of_lookup_2). destruct (HandleOperation_eq program l (sg_once _ _ Hsa) (fun _ => table_op) i (_addTracker st) op (CanOpcodeBeLoweredToLut (_opcode (_operation op))) Hi Htr) as (tracker & -> & Htr' & _); [intros Hc; by destruct (Hlut op Hin Hc)|]. cbn [mbind result_bind].
  assert (Hkeep : exists st', Ok (mkAddState tracker (_addOperations st) (_addChanged st)) = Ok st' /\ add_inv (S i) ch st') by (eexists; split; [reflexivity|]; split; [by apply edited_upto_skip|by split]).
  destruct (_opcode (_operation op)) eqn:Eo; try exact Hkeep. destruct _binaryOpType; try exact Hkeep. destruct (Z.eqb_spec (_signExtendSourceMask (_operation op)) 0) as [Hm|]; [|exact Hkeep].
  destruct (Hlut op Hin) as [HT _]; [by rewrite Eo|]. assert (Hadd : add_op (_operation op)) by (destruct HT as (Hwf & (w & _ & Hlow) & _); unfold lowerable in Hlow; rewrite Eo in Hlow; split_and!; [done|by destruct Hlow|done|done]).
  set (g := fun k => match lowBitsFree program tracker (_addOperations st) (_operation op) k with Ok b => b | Err _ => false end).
  assert (Hg : forall k, k ∈ [0; 1]%nat -> (k < 2)%nat) by (intros k [-> | ->%list_elem_of_singleton]%elem_of_cons; lia).
  destruct (findM_find (lowBitsFree program tracker (_addOperations st) (_operation op)) g [0; 1]%nat) as (found & -> & Hfound).
  { intros k Hk. unfold g. by destruct (lowBitsFree_eq i tracker (_addOperations st) op k HL Htr' Hi Hadd (Hg k Hk)) as (b & -> & _). }
  cbn [mbind result_bind]. destruct found as [k|]; [|exact Hkeep]. destruct Hfound as [Hk Hgk]. destruct (lowBitsFree_eq i tracker (_addOperations st) op k HL Htr' Hi Hadd (Hg k Hk)) as (b & Hb & Hfree). unfold g in Hgk. rewrite Hb in Hgk. subst b.
  eexists. split; [reflexivity|]. split_and!; cbn [_addOperations _addTracker _addChanged]; [|done|].
  - apply (edited_upto_step program l (fun _ => table_op) i _ op _ HL Hi). right. split_and!; [done|done|done|by rewrite Eo|done|by apply (or_table (_operation op))|].
    intros σ Hσ. destruct (Hfree eq_refl σ Hσ) as (n & Hn & Hr & Hz). by apply (add_or_value (_operation op) σ k n Hadd (Hg k Hk)).
  - split; [intros _; right|done]. apply (insert_changed l _ i op); [done|apply HL|]. intros Heq. apply (f_equal (fun o => _opcode (_operation o))) in Heq. cbn in Heq. congruence.
Qed.

Lemma addToOrLoop_eq ch : exists st, foldM (addToOrOperation program) (seq 0 (length l)) (mkAddState (newTracker l) l ch) = Ok st /\ edited program l (_addOperations st) /\ (_addChanged st = true <-> ch = true \/ _addOperations st <> l).
Proof.
  destruct (foldM_seq_inv (addToOrOperation program) (fun i st => add_inv i ch st) (length l) (mkAddState (newTracker l) l ch)) as (st & -> & HL & _ & Hch).
  - split; [apply edited_upto_start|]. split; [apply tracks_empty|]. cbn. split; [by left|]. intros [?|[]]; done.
  - intros i st Hi H. by apply addToOrOperation_eq.
  - exists st. split; [done|]. split; [by eapply edited_upto_edited|done].
Qed.
End Block.
End Values.

(** C9: for every function whose blocks write each register once and do not
    read it before, [AddToOr] ends with no failed assertion and no register
    that the tracker meets twice, and tells whether an operation changed.  The
    function has exactly the executions that it had, with the same observations. *)
Theorem AddToOr_equivalent program functions blocks fi members :
  function_ok program functions blocks fi Unscheduled members -> (forall b, b ∈ members -> single_assignment program (opsOf blocks Unscheduled b)) ->
  (forall b op, b ∈ members -> op ∈ opsOf blocks Unscheduled b -> CanOpcodeBeLoweredToLut (_opcode (_operation op)) = true -> table_op program (_operation op) /\ trackable program (_operation op)) ->
  exists blocks' changed, AddToOr program blocks members = Ok (blocks', changed) /\
    (forall b, b ∉ members -> blocks' !! b = blocks !! b) /\
    (changed = true <-> exists b, b ∈ members /\ opsOf blocks' Unscheduled b <> opsOf blocks Unscheduled b) /\
    (forall globals entry tr b k σ, reaches program globals members entry (opsOf blocks Unscheduled) tr b k σ <->
                                    reaches program globals members entry (opsOf blocks' Unscheduled) tr b k σ).
Proof.
  intros Hok Hsa Hlut. destruct (blocks_loop program functions blocks fi members Hok (edited_block program) (addToOrBlock program)) as (blocks' & changed & Hrun & R1 & R2 & R3).
  - intros b bb ch Hb Hbb. assert (Hops : opsOf blocks Unscheduled b = _startConditionOperations bb ++ _operations bb ++ concat (_stages bb)) by (unfold opsOf; by rewrite Hbb, operationsOf_split).
    pose proof (single_assignment_middle program _ (Hsa b Hb) _ _ _ Hops) as Hmid. unfold addToOrBlock.
    destruct (addToOrLoop_eq program (_operations bb) Hmid) with (ch := ch) as (st & -> & Hed & Hch); [intros op Hop; apply (Hlut b op Hb); rewrite Hops; set_solver|]. cbn [mbind result_bind].
    eexists _, _. split; [reflexivity|]. split; [by split|]. rewrite Hch. by rewrite (operationsOf_changed bb) by done.
  - exists blocks', changed. split_and!; [exact Hrun|exact R2|exact R3|]. by apply (edited_reaches program blocks members Hsa).
Qed.

(** ** A value in the upper half of a word

    Register 1 is register 0 shifted by its width. *)

Definition halfProgram : Program := mkProgram [mkRegisterDescription 4 Local "low"%string; mkRegisterDescription 8 Local "high"%string; mkRegisterDescription 8 Local "word"%string].
Definition halfGather : FlowOperation := demoUse (Gather [mkGatherEntry 0 4 4]) [0%nat] [1%nat].
Definition halfAdd (t : ParseTreeBinaryOpType) : FlowOperation := demoUse (BinaryOp t) [0%nat; 1%nat] [2%nat].
Definition halfOps (t : ParseTreeBinaryOpType) : list FlowOperation := [halfGather; halfAdd t; demoUse (Print []) [2%nat] []].
Definition halfBlocks : gmap nat FlowBlock := oneBlock (halfOps ParseTreeBinaryOpTypeAdd).

Lemma half_operations op : op ∈ halfOps ParseTreeBinaryOpTypeAdd -> op = halfGather \/ op = halfAdd ParseTreeBinaryOpTypeAdd \/ op = demoUse (Print []) [2%nat] [].
Proof. intros [->|[->|[->|[]%not_elem_of_nil]%elem_of_cons]%elem_of_cons]%elem_of_cons; tauto. Qed.

Lemma half_ok b op : b ∈ [0%nat] -> op ∈ opsOf halfBlocks Unscheduled b -> CanOpcodeBeLoweredToLut (_opcode (_operation op)) = true -> table_op halfProgram (_operation op) /\ trackable halfProgram (_operation op).
Proof.
  intros Hb Hop Hc. unfold halfBlocks in Hop. rewrite oneBlock_ops in Hop by done.
  assert (Hreg : forall r d, _registerTable halfProgram !! r = Some d -> 0 < _regWidth d < 2 ^ 30 -> operand_wf halfProgram (SrcRegister (mkAccessedRegister r))) by (intros r d Hd Hw; by exists d).
  assert (H0 : operand_wf halfProgram (SrcRegister (mkAccessedRegister 0))) by (eapply Hreg; [reflexivity|cbn; lia]). assert (H1 : operand_wf halfProgram (SrcRegister (mkAccessedRegister 1))) by (eapply Hreg; [reflexivity|cbn; lia]).
  destruct (half_operations op Hop) as [->|[->| ->]]; [..|discriminate]; split.
  - split; [split; [by apply Forall_singleton|cbn; lia|cbn; lia|eexists _, 8; split; [reflexivity|]; split; [reflexivity|lia]]|]. split; [|done]. exists 8. split; [reflexivity|]. cbn.
    constructor; [reflexivity|reflexivity|apply Forall_singleton; cbn; lia|]. intros i [|j] ei ej Hij Hi Hj; [lia|discriminate].
  - split; [by apply DecomposeSelect.operands_in_table, Forall_singleton|]. eexists _, _. split; [reflexivity|]. by split.
  - split; [split; [by apply Forall_cons_2; [|apply Forall_singleton]|cbn; lia|cbn; lia|eexists _, 8; split; [reflexivity|]; split; [reflexivity|lia]]|]. split; [|done]. exists 8. split; [reflexivity|]. split; [reflexivity|]. split; [discriminate|]. by intros _ o0 o1 x y _ _ _.
  - split; [by apply DecomposeSelect.operands_in_table, Forall_cons_2; [|apply Forall_singleton]|]. eexists _, _. split; [reflexivity|]. by split.
Qed.

Lemma AddToOr_equivalent_witness :
  ('(blocks', changed) ← AddToOr halfProgram halfBlocks [0%nat]; Ok (opsOf blocks' Unscheduled 0, changed)) = Ok (halfOps ParseTreeBinaryOpTypeOr, true) /\
  exists blocks' changed, AddToOr halfProgram halfBlocks [0%nat] = Ok (blocks', changed) /\
    (forall b, b ∉ [0%nat] -> blocks' !! b = halfBlocks !! b) /\
    (changed = true <-> exists b, b ∈ [0%nat] /\ opsOf blocks' Unscheduled b <> opsOf halfBlocks Unscheduled b) /\
    (forall globals entry tr b k σ, reaches halfProgram globals [0%nat] entry (opsOf halfBlocks Unscheduled) tr b k σ <->
                                    reaches halfProgram globals [0%nat] entry (opsOf blocks' Unscheduled) tr b k σ).
Proof.
  split; [vm_compute; reflexivity|]. apply (AddToOr_equivalent halfProgram demoFunctions halfBlocks 0 [0%nat]).
  - apply oneBlock_function. vm_compute. reflexivity.
  - intros b Hb. unfold halfBlocks. rewrite oneBlock_ops by done. apply single_assignmentb_sound. vm_compute. reflexivity.
  - exact half_ok.
Defined.

End AddToOr.
