(* ===== verification/PackLuts.v ===== *)
(** * Look-up tables that follow each other

    [optimize_lut.cpp]: [PackLuts], which combines an operation with the operations
    that define its sources ([CombineLuts]) when nothing else reads them.  An
    operation is changed where it is, so the operations that the tracker has
    recorded are those of the list as it is now.

    [_supportsLuts] and [_smallLutSize] are fields of the device configuration. *)

From S2P Require Import Prelude MachineInt Literals Ir Semantics LutOpt LutFacts LutLowerCorrect LutColumns LutCombine LutCombineCorrect.
From S2P Require Import Flow LivenessFacts LivenessCorrect ConstProp FlowPaths ConstPropOps Opcodes Decompositions BlockValues CommonSubexpressions DefUse.
Import MachineInt Containers Literals Ir Semantics LutOpt LutFacts LutPasses LutLowerCorrect LutColumns LutCombine LutCombineCorrect.
Import Flow FlowSemantics LivenessFacts LivenessCorrect ConstProp FlowPaths ConstPropBlock Opcodes BlockValues DefUse.

Module PackLuts.

(** ** Definitions *)

Inductive OptimizationPhase : Type := Start | PackLuts1 | PackLuts2 | LutCommonSub | Synthesis.

Definition phaseIndex (phase : OptimizationPhase) : nat :=
  match phase with Start => 0 | PackLuts1 => 1 | PackLuts2 => 2 | LutCommonSub => 3 | Synthesis => 4 end.

Record PackState : Type := mkPackState { _packTracker : LocalDefUseTracker; _packOperations : list FlowOperation; _packChanged : bool }.

Section Pack.
Context (program : Program) (tracker : LocalDefUseTracker) (maxLutSources : nat).

(** One source of [op]: the operation it was combined with and the combined
    operation, if they were combined *)
Definition packSource (operations : list FlowOperation) (op : Operation) (prevOperationSet : gset nat) (srcOpIdx : nat) : result (option (nat * Operation)) :=
  srcOp ← at_ (_src op) srcOpIdx;
  match srcOp with
  | SrcRegister r =>
      let srcReg := _registerIndex r in
      prevOperation ← GetDef program tracker srcReg;
      numReads ← GetUseCount tracker srcReg;
      assert_ (0 <? numReads);;
      match prevOperation with
      | Some position =>
          if numReads =? 1 then
            t ← registerType program srcReg;
            assert_ (IsLocalRegisterType t);;
            prev ← at_ operations position;
            assert_ (CanOpcodeBeLoweredToLut (_opcode (_operation prev)));;
            onlyLocal ← OperationUsesOnlyLocalSrcReg program (_operation prev);
            assert_ onlyLocal;;
            if bool_decide (position ∈ prevOperationSet) then Ok None
            else
              '(combined, op') ← CombineLuts program op (_operation prev) srcOpIdx maxLutSources;
              Ok (if combined : bool then Some (position, op') else None)
          else Ok None
      | None => Ok None
      end
  | _ => Ok None
  end.

(** The loop over the sources, which stops at the first success *)
Fixpoint packSources (operations : list FlowOperation) (op : Operation) (prevOperationSet : gset nat) (srcOpIdxs : list nat) : result (option (nat * Operation)) :=
  match srcOpIdxs with
  | [] => Ok None
  | srcOpIdx :: srcOpIdxs =>
      packed ← packSource operations op prevOperationSet srcOpIdx;
      match packed with
      | Some _ => Ok packed
      | None => packSources operations op prevOperationSet srcOpIdxs
      end
  end.

(** [do { } while (makingProgress)] for operation [i] *)
Fixpoint packLoop (fuel : nat) (i : nat) (operations : list FlowOperation) (prevOperationSet : gset nat) (didChangeIR : bool) : result (list FlowOperation * bool) :=
  match fuel with
  | O => Err OutOfFuel
  | S fuel =>
      op ← at_ operations i;
      packed ← packSources operations (_operation op) prevOperationSet (seq 0 (length (_src (_operation op))));
      match packed with
      | Some (position, op') => packLoop fuel i (<[i := withOperation op op']> operations) ({[position]} ∪ prevOperationSet) true
      | None => Ok (operations, didChangeIR)
      end
  end.
End Pack.

Definition packOperation (program : Program) (maxLutSources : nat) (st : PackState) (i : nat) : result PackState :=
  op ← at_ (_packOperations st) i;
  let o := _operation op in
  tracker ← HandleOperation program (_packTracker st) o i (CanOpcodeBeLoweredToLut (_opcode o));
  if CanOpcodeBeLoweredToLut (_opcode o) then
    '(operations, didChangeIR) ← packLoop program tracker maxLutSources (S (length (_packOperations st))) i (_packOperations st) ∅ (_packChanged st);
    Ok (mkPackState tracker operations didChangeIR)
  else Ok (mkPackState tracker (_packOperations st) (_packChanged st)).

Definition packBlock (program : Program) (maxLutSources : nat) (basicBlock : FlowBlock) (didChangeIR : bool) : result (FlowBlock * bool) :=
  st ← foldM (packOperation program maxLutSources) (seq 0 (length (_operations basicBlock))) (mkPackState (newTracker (_operations basicBlock)) (_operations basicBlock) didChangeIR);
  Ok (mkFlowBlock (_startConditionOperations basicBlock) (_packOperations st) (_stages basicBlock) (_function basicBlock) (_liveInReg basicBlock)
        (_returnValueReg basicBlock) (_forcedDeadInReg basicBlock) (_invocationInstanceRegisterIndex basicBlock), _packChanged st).

(** [function._basicBlocks] are [members]. *)
Definition PackLuts (_supportsLuts : bool) (_smallLutSize : nat) (program : Program) (blocks : gmap nat FlowBlock) (members : list nat) (phase : nat) : result (gmap nat FlowBlock * bool) :=
  if (phase <? phaseIndex PackLuts1)%nat then Ok (blocks, false)
  else if negb _supportsLuts then Ok (blocks, false)
  else
    let maxLutSources := if (phase =? phaseIndex PackLuts1)%nat then _smallLutSize else c_maxLutSources in
    assert_ (CanOpcodeBeLoweredToLut (LutOp (mkLut [])));;
    foldM (fun st b => basicBlock ← blockAt st.1 b; '(basicBlock, didChangeIR) ← packBlock program maxLutSources basicBlock st.2; Ok (<[b := basicBlock]> st.1, didChangeIR))
      members (blocks, false).

(** ** Equality of operations is decidable *)

#[export] Instance LutEntry_eq_dec : EqDecision LutEntry.
Proof. solve_decision. Defined.
#[export] Instance Lut_eq_dec : EqDecision Lut.
Proof. solve_decision. Defined.
#[export] Instance PrintType_eq_dec : EqDecision PrintType.
Proof. solve_decision. Defined.
#[export] Instance PrintEntry_eq_dec : EqDecision PrintEntry.
Proof. solve_decision. Defined.
#[export] Instance Opcode_eq_dec : EqDecision Opcode.
Proof. pose proof CommonSubexpressions.GatherEntry_eq_dec. solve_decision. Defined.
#[export] Instance Operation_eq_dec : EqDecision Operation.
Proof. solve_decision. Defined.
#[export] Instance FlowOperation_eq_dec : EqDecision FlowOperation.
Proof. solve_decision. Defined.

(** ** The counts of reads *)

Lemma fold_left_concat {A B C} (f : B -> A -> B) (g : C -> list A) ls b : fold_left (fun b c => fold_left f (g c) b) ls b = fold_left f (concat (g <$> ls)) b.
Proof. revert b; induction ls as [|c ls IH]; intros b; [done|]. cbn. by rewrite IH, fold_left_app. Qed.

(** The operands that a block reads *)
Definition operandsRead (l : list FlowOperation) : list SourceOperand := concat ((fun op => _src (_operation op)) <$> l).

Lemma elem_of_operandsRead l o : o ∈ operandsRead l <-> exists j op, l !! j = Some op /\ o ∈ _src (_operation op).
Proof.
  unfold operandsRead. rewrite elem_of_concat. split.
  - intros (os & (op & -> & Hop)%list_elem_of_fmap & Ho). apply list_elem_of_lookup in Hop as [j Hj]. by exists j, op.
  - intros (j & op & Hj & Ho). exists (_src (_operation op)). split; [|done]. apply list_elem_of_fmap. exists op. split; [done|]. by eapply list_elem_of_lookup_2.
Qed.

Lemma useCount_eq l r : Z.of_nat (length (operandsRead l)) < 2 ^ 64 -> SrcRegister r ∈ operandsRead l -> exists n, ComputeRegisterReadCountMap l !! _registerIndex r = Some n /\ 0 < n.
Proof.
  unfold ComputeRegisterReadCountMap, operandsRead. set (f := fun (result : gmap nat Z) srcOp => match srcOp with SrcRegister r => <[_registerIndex r := u64_add (default 0 (result !! _registerIndex r)) 1]> result | _ => result end).
  change (fold_left _ l ∅) with (fold_left (fun (result : gmap nat Z) op => fold_left f (_src (_operation op)) result) l ∅). rewrite fold_left_concat. set (os := concat _).
  assert (Hgen : forall os (m : gmap nat Z) t, (forall q n, m !! q = Some n -> 0 < n <= t) -> t + Z.of_nat (length os) < 2 ^ 64 -> 0 <= t -> SrcRegister r ∈ os \/ is_Some (m !! _registerIndex r) -> exists n, fold_left f os m !! _registerIndex r = Some n /\ 0 < n).
  - clear os. induction os as [|o os IH]; intros m t Hm Ht H0 Hr; cbn [fold_left length] in *.
    + destruct Hr as [?%not_elem_of_nil|[n Hn]]; [done|]. exists n. split; [done|]. by apply (Hm (_registerIndex r)).
    + apply (IH _ (t + 1)); [|lia|lia|].
      * intros q n Hq. destruct o as [x|y|x|x]; cbn [f] in Hq; try (destruct (Hm q n Hq); lia). apply lookup_insert_Some in Hq as [[_ <-]|[_ Hq]]; [|destruct (Hm q n Hq); lia].
        destruct (m !! _registerIndex y) as [c|] eqn:Ec; cbn [from_option id]; [pose proof (Hm _ _ Ec)|]; unfold u64_add; rewrite u64_small by (unfold is_u64; lia); lia.
      * destruct Hr as [[<-|Hr]%elem_of_cons|Hr]; [right; cbn; rewrite lookup_insert_eq; by eexists|by left|right]. destruct o as [x|y|x|x]; cbn; try done.
        destruct (decide (_registerIndex y = _registerIndex r)) as [->|]; [rewrite lookup_insert_eq; by eexists|by rewrite lookup_insert_ne].
  - intros Ht Hr. apply (Hgen os ∅ 0); [intros q n; by rewrite lookup_empty|done|done|by left].
Qed.

Section Values.
Context (program : Program).

(** Operations that [CombineLuts] can be called on *)
Record packable (op : Operation) : Prop := mk_packable {
  pk_operand : table_operand program op;
  pk_lowerable : exists w, dstWidth program op = Ok (Z.of_nat w) /\ lowerable program op (Z.of_nat w);
  pk_bits : source_bits program op;
  pk_table : CanOpcodeBeLoweredToLut (_opcode op) = true }.

Lemma onlyLocal_iff op : OperationUsesOnlyLocalSrcReg program op = Ok true <-> forall r, SrcRegister r ∈ _src op -> exists d, _registerTable program !! _registerIndex r = Some d /\ IsLocalRegisterType (_type d) = true.
Proof.
  unfold OperationUsesOnlyLocalSrcReg. set (f := fun acc srcOp => match srcOp with SrcRegister r => d ← at_ (_registerTable program) (_registerIndex r); Ok (acc && IsLocalRegisterType (_type d)) | _ => Ok acc end). set (src := _src op).
  assert (Hgen : forall acc, foldM f src acc = Ok true <-> acc = true /\ forall r, SrcRegister r ∈ src -> exists d, _registerTable program !! _registerIndex r = Some d /\ IsLocalRegisterType (_type d) = true); [|rewrite Hgen; tauto].
  induction src as [|o src IH]; intros acc; cbn [foldM].
  - split; [intros [= ->]; split; [done|]; by intros r ?%not_elem_of_nil|by intros [-> _]].
  - split.
    + intros H. apply bind_Ok in H as (acc' & Ha & H). apply IH in H as [-> Hall]. destruct o as [x|y|x|x]; cbn [f] in Ha; try (injection Ha as ->; split; [done|]; intros r [?|?]%elem_of_cons; [done|by apply Hall]).
      apply bind_Ok in Ha as (d & Hd%at_Ok & [= [-> Hl]%andb_true_iff]). split; [done|]. intros r [[= ->]|?]%elem_of_cons; [by exists d|by apply Hall].
    + intros [-> Hall]. assert (Hf : f true o = Ok true).
      { destruct o as [x|y|x|x]; try done. destruct (Hall y) as (d & Hd & Hl); [by left|]. cbn. by rewrite (at_Some _ _ _ Hd), <- Hl. }
      rewrite Hf. cbn [mbind result_bind]. apply IH. split; [done|]. intros r Hr. apply Hall. by right.
Qed.

(** ** One block *)

Section Block.
Context (l : list FlowOperation) (Hsa : single_assignment program l) (Hreads : Z.of_nat (length (operandsRead l)) < 2 ^ 64).
Context (Hpack : forall op, op ∈ l -> CanOpcodeBeLoweredToLut (_opcode (_operation op)) = true -> packable (_operation op) /\ trackable program (_operation op)).

(** What operation [k] becomes: it reads registers that it or an operation before it has
    read, and only local ones if it has read only such. *)
Record packs (k : nat) (op : Operation) : Prop := mk_packs {
  ps_packable : packable op;
  ps_reads : forall r, SrcRegister r ∈ _src op -> exists j opj, (j <= k)%nat /\ l !! j = Some opj /\ SrcRegister r ∈ _src (_operation opj);
  ps_local : forall opk, l !! k = Some opk -> OperationUsesOnlyLocalSrcReg program (_operation opk) = Ok true -> OperationUsesOnlyLocalSrcReg program op = Ok true }.

Lemma packs_value k op : packs k op -> forall τ, is_Some (opValue program τ op).
Proof. intros [[_ (w & Hw & Hlow) _ _] _ _] τ. by apply (lowerable_value program τ op (Z.of_nat w)). Qed.

Context (maxLutSources : nat).

(** No bit of the table has more sources than the phase allows. *)
Definition small_table (op : Operation) : Prop := exists es, lut_wf program op es /\ Forall (fun e => _numSources e <= maxLutSources)%nat es.

(** What operation [op0] at [i] has become *)
Record packed (i : nat) (op0 op : Operation) : Prop := mk_packed {
  pd_packs : packs i op;
  pd_dst : _dst op = _dst op0;
  pd_value : forall σ, kept program l i σ -> opValue program σ op = opValue program σ op0;
  pd_small : op = op0 \/ small_table op }.

(** A register that operation [i] reads by now is not defined by operation [i]. *)
Lemma packed_before i op0 op definitionMap r p : l !! i = Some op0 -> packed i (_operation op0) op -> tracks program l packs (S i) definitionMap -> SrcRegister (mkAccessedRegister r) ∈ _src op -> definitionMap !! r = Some p -> (p < i)%nat.
Proof.
  intros Hi Hop Htr Hr Hp. destruct (Htr r p Hp) as (Hlt & _ & op' & Hop' & Hlo & _). destruct (decide (p = i)) as [->|]; [exfalso|lia]. rewrite Hi in Hop'. injection Hop' as <-.
  destruct (ps_reads _ _ (pd_packs _ _ _ Hop) _ Hr) as (j & opj & Hj & Hopj & Hrj). apply (source_kept program l Hsa j i opj op0 r Hopj Hi Hj Hrj). rewrite (local_op_writes program op0 r Hlo). by left.
Qed.

(** One combination *)
Lemma packed_step i op0 op sel r prev p : l !! i = Some op0 -> packed i (_operation op0) op -> _src op !! sel = Some (SrcRegister (mkAccessedRegister r)) -> (p < i)%nat ->
  packs p prev -> OperationUsesOnlyLocalSrcReg program prev = Ok true -> _dst prev = [DstRegister (mkAccessedRegister r)] -> (forall σ, kept program l i σ -> opValue program σ prev = Some (σ r)) ->
  exists b op', CombineLuts program op prev sel maxLutSources = Ok (b, op') /\ (b = true -> packed i (_operation op0) op').
Proof.
  intros Hi [[[Hopd (w & Hw & Hlow) Hbits Hc] Hrd Hloc] Hdst Hval _] Hsel Hlt [[Hpopd (wp & Hpw & Hplow) Hpbits Hpc] Hprd _] Hlocal Hpdst Hpval.
  assert (Hcomb : combinable program op prev sel w wp r) by (constructor; by split_and? || done).
  destruct (CombineLuts_sound program op prev sel maxLutSources w wp r Hcomb) as (b & op' & -> & Hres). exists b, op'. split; [done|]. intros ->. destruct Hres as (Hv & Hd' & Hs' & es' & Hwf' & Hin' & Hsmall).
  pose proof (lut_opcode _ _ _ Hwf') as Ho'. split; [split|congruence| |right; by exists es'].
  - split; [right; unfold isLut; by rewrite Ho'| |unfold source_bits; by rewrite Ho'|by rewrite Ho']. exists (length es'). split; [apply Hwf'|]. unfold lowerable. by rewrite Ho'.
  - intros x Hx. destruct (Hs' x Hx) as [Hx'|Hx']; [by apply Hrd|]. destruct (Hprd x Hx') as (j & opj & Hj & Hopj & Hxj). exists j, opj. split; [lia|done].
  - intros opk Hk Hl. apply onlyLocal_iff. intros x Hx. pose proof (proj1 (onlyLocal_iff _) (Hloc opk Hk Hl)) as Hop. pose proof (proj1 (onlyLocal_iff _) Hlocal) as Hprev. destruct (Hs' x Hx) as [Hx'|Hx']; [by apply Hop|by apply Hprev].
  - intros σ Hσ. rewrite Hv; [by apply Hval|]. unfold linked. rewrite (Hpval σ Hσ). f_equal. pose proof (Hpval σ Hσ) as Hpv. unfold opValue in Hpv. rewrite Hpw in Hpv. destruct (opInt program σ prev) as [z|]; [|done]. injection Hpv as <-. symmetry. apply Z.mod_mod. lia.
Qed.

Lemma packSource_eq i op0 op L tracker set srcOpIdx : l !! i = Some op0 -> edited_upto program l packs i L -> tracks program l packs (S i) (_definitionMap tracker) -> _useCountMap tracker = ComputeRegisterReadCountMap l ->
  packed i (_operation op0) op -> (srcOpIdx < length (_src op))%nat ->
  exists res, packSource program tracker maxLutSources (<[i := withOperation op0 op]> L) op set srcOpIdx = Ok res /\ match res with None => True | Some (p, op') => (p < i)%nat /\ p ∉ set /\ packed i (_operation op0) op' end.
Proof.
  intros Hi HL Htr Hcount Hop Hidx. destruct (lookup_lt_is_Some_2 _ _ Hidx) as [srcOp Hsrc]. unfold packSource. rewrite (at_Some _ _ _ Hsrc). cbn [mbind result_bind]. destruct srcOp as [x|[r]|x|x]; try by exists None.
  cbn [_registerIndex]. rewrite (GetDef_eq program l packs (S i) tracker) by done. cbn [mbind result_bind]. assert (Hr : SrcRegister (mkAccessedRegister r) ∈ _src op) by (by eapply list_elem_of_lookup_2).
  destruct (ps_reads _ _ (pd_packs _ _ _ Hop) _ Hr) as (j & opj & _ & Hopj & Hrj). destruct (useCount_eq l (mkAccessedRegister r) Hreads) as (n & Hn & Hpos); [apply elem_of_operandsRead; by exists j, opj|].
  unfold GetUseCount. rewrite Hcount. unfold SafeLookup. cbn [_registerIndex] in Hn. rewrite Hn. cbn [of_option mbind result_bind]. rewrite assert_true by (by apply Z.ltb_lt). cbn [mbind result_bind].
  destruct (_definitionMap tracker !! r) as [p|] eqn:Ep; [|by exists None]. destruct (n =? 1); [|by exists None]. pose proof (packed_before i op0 op _ r p Hi Hop Htr Hr Ep) as Hlt.
  destruct (Htr r p Ep) as (_ & Ht & orig & Horig & _ & Hol & _). rewrite Ht. cbn [mbind result_bind]. rewrite assert_true by done. cbn [mbind result_bind].
  destruct (tracked_op program l packs i L _ r p packs_value HL Htr Ep Hlt) as (prev & Hprev & HT & Hd & Hval). rewrite (at_Some _ p prev) by (rewrite list_lookup_insert_ne by lia; done). cbn [mbind result_bind].
  rewrite assert_true by apply HT. cbn [mbind result_bind]. pose proof (ps_local _ _ HT orig Horig Hol) as Hlocal. rewrite Hlocal. cbn [assert_ mbind result_bind].
  destruct (bool_decide_reflect (p ∈ set)); [by exists None|]. destruct (packed_step i op0 op srcOpIdx r (_operation prev) p Hi Hop Hsrc Hlt HT Hlocal Hd Hval) as (b & op' & -> & Hb). cbn [mbind result_bind].
  eexists. split; [reflexivity|]. destruct b; [|done]. split_and!; [done|done|by apply Hb].
Qed.

Lemma packSources_eq i op0 op L tracker set idxs : l !! i = Some op0 -> edited_upto program l packs i L -> tracks program l packs (S i) (_definitionMap tracker) -> _useCountMap tracker = ComputeRegisterReadCountMap l ->
  packed i (_operation op0) op -> Forall (fun k => k < length (_src op))%nat idxs ->
  exists res, packSources program tracker maxLutSources (<[i := withOperation op0 op]> L) op set idxs = Ok res /\ match res with None => True | Some (p, op') => (p < i)%nat /\ p ∉ set /\ packed i (_operation op0) op' end.
Proof.
  intros Hi HL Htr Hcount Hop Hidxs. induction Hidxs as [|k idxs Hk _ IH]; cbn [packSources]; [by exists None|].
  destruct (packSource_eq i op0 op L tracker set k Hi HL Htr Hcount Hop Hk) as (res & -> & Hres). cbn [mbind result_bind]. destruct res; [|done]. by eexists.
Qed.

(** Each round takes another operation, so [i] rounds and one more are enough. *)
Lemma packLoop_eq i op0 L tracker fuel : l !! i = Some op0 -> edited_upto program l packs i L -> tracks program l packs (S i) (_definitionMap tracker) -> _useCountMap tracker = ComputeRegisterReadCountMap l ->
  forall op (set : gset nat) ch, packed i (_operation op0) op -> set ⊆ set_seq 0 i -> (i - size set < fuel)%nat ->
  exists op' ch', packLoop program tracker maxLutSources fuel i (<[i := withOperation op0 op]> L) set ch = Ok (<[i := withOperation op0 op']> L, ch') /\ packed i (_operation op0) op' /\ (ch = true -> ch' = true) /\ (ch' = false -> op' = op).
Proof.
  intros Hi HL Htr Hcount. pose proof (lookup_lt_Some _ _ _ Hi) as Hlt. pose proof (eu_length _ _ _ _ _ HL) as Hlen. induction fuel as [|fuel IH]; intros op set ch Hop Hset Hf; [lia|]. cbn [packLoop].
  rewrite (at_Some _ i (withOperation op0 op)) by (apply list_lookup_insert_eq; lia). cbn [mbind result_bind withOperation _operation].
  destruct (packSources_eq i op0 op L tracker set (seq 0 (length (_src op))) Hi HL Htr Hcount Hop) as (res & -> & Hres); [apply Forall_forall; intros k Hk%elem_of_seq; lia|]. cbn [mbind result_bind].
  destruct res as [[p op']|]; [|by exists op, ch]. destruct Hres as (Hp & Hnew & Hop'). change (withOperation (withOperation op0 op) op') with (withOperation op0 op'). rewrite list_insert_insert_eq.
  destruct (IH op' ({[p]} ∪ set) true Hop') as (op'' & ch' & -> & Hop'' & H1 & H2); [intros x [->%elem_of_singleton|Hx]%elem_of_union; [apply elem_of_set_seq; lia|by apply Hset]| |].
  - rewrite size_union by (by intros x ->%elem_of_singleton). rewrite size_singleton. pose proof (subseteq_size _ _ Hset) as Hs. rewrite size_set_seq in Hs.
    pose proof (subseteq_size ({[p]} ∪ set) (set_seq 0 i)) as Hs'. rewrite size_union, size_singleton, size_set_seq in Hs' by (by intros x ->%elem_of_singleton). specialize (Hs' ltac:(intros x [->%elem_of_singleton|Hx]%elem_of_union; [apply elem_of_set_seq; lia|by apply Hset])). lia.
  - exists op'', ch'. split_and!; [done|done|intros _; by apply H1|]. intros ->. by specialize (H1 eq_refl).
Qed.

Lemma withOperation_id op : withOperation op (_operation op) = op.
Proof. by destruct op. Qed.

Definition pack_inv (i : nat) (ch : bool) (st : PackState) : Prop :=
  edited_upto program l packs i (_packOperations st) /\ tracks program l packs i (_definitionMap (_packTracker st)) /\ _useCountMap (_packTracker st) = ComputeRegisterReadCountMap l /\
  (forall k op op', l !! k = Some op -> _packOperations st !! k = Some op' -> op' = op \/ small_table (_operation op')) /\
  (_packChanged st = false -> ch = false /\ _packOperations st = l).

Lemma packOperation_eq i ch st : pack_inv i ch st -> (i < length l)%nat -> exists st', packOperation program maxLutSources st i = Ok st' /\ pack_inv (S i) ch st'.
Proof.
  intros (HL & Htr & Hcount & Hsmall & Hch) Hlt. destruct (lookup_lt_is_Some_2 l i Hlt) as [op Hi]. assert (HLi : _packOperations st !! i = Some op) by (by rewrite (eu_todo _ _ _ _ _ HL)). assert (Hin : op ∈ l) by (by eapply list_elem_of_lookup_2).
  unfold packOperation. rewrite (at_Some _ i op) by done. cbn [mbind result_bind].
  assert (Hpacks : CanOpcodeBeLoweredToLut (_opcode (_operation op)) = true -> packs i (_operation op)).
  { intros Hc. split; [by apply Hpack| |intros opk Hk; rewrite Hi in Hk; by injection Hk as <-]. intros r Hr. by exists i, op. }
  destruct (HandleOperation_eq program l (sg_once _ _ Hsa) packs i (_packTracker st) op (CanOpcodeBeLoweredToLut (_opcode (_operation op))) Hi Htr) as (tracker & -> & Htr' & Hcount'); [intros Hc; split; [by apply (Hpack op Hin Hc)|by apply Hpacks]|]. cbn [mbind result_bind].
  destruct (CanOpcodeBeLoweredToLut (_opcode (_operation op))) eqn:Hc; [|eexists; split; [reflexivity|]; split_and!; [by apply edited_upto_skip|done|cbn; by rewrite Hcount'|done|done]].
  assert (Hop : packed i (_operation op) (_operation op)) by (split; [by apply Hpacks|done|done|by left]).
  destruct (packLoop_eq i op (_packOperations st) tracker (S (length (_packOperations st))) Hi HL Htr' ltac:(by rewrite Hcount') (_operation op) ∅ (_packChanged st) Hop) as (op' & ch' & Hrun & Hop' & H1 & H2); [set_solver|rewrite size_empty, (eu_length _ _ _ _ _ HL); lia|].
  rewrite withOperation_id, (list_insert_id _ _ _ HLi) in Hrun. rewrite Hrun. cbn [mbind result_bind]. eexists. split; [reflexivity|]. unfold pack_inv. cbn [_packOperations _packTracker _packChanged]. split_and!; [|done|by rewrite Hcount'| |].
  - apply (edited_upto_step program l packs i _ op _ HL Hi). right. destruct Hop' as [Hp Hd Hv _]. split_and!; [done|done|done|done|apply Hp|done|done].
  - intros k o o' Hk Hk'. destruct (decide (k = i)) as [->|Hne]; [|rewrite list_lookup_insert_ne in Hk' by done; by apply (Hsmall k)]. rewrite list_lookup_insert_eq in Hk' by (by eapply lookup_lt_Some). injection Hk' as <-. rewrite Hi in Hk. injection Hk as <-.
    destruct (pd_small _ _ _ Hop') as [->|Hs]; [left; apply withOperation_id|by right].
  - intros ->. destruct (_packChanged st); [by specialize (H1 eq_refl)|]. destruct (Hch eq_refl) as [-> HLl]. split; [done|]. rewrite (H2 eq_refl), withOperation_id, (list_insert_id _ _ _ HLi). done.
Qed.

Lemma packBlock_loop ch : exists st, foldM (packOperation program maxLutSources) (seq 0 (length l)) (mkPackState (newTracker l) l ch) = Ok st /\ edited program l (_packOperations st) /\
  (forall k op op', l !! k = Some op -> _packOperations st !! k = Some op' -> op' = op \/ small_table (_operation op')) /\ (_packChanged st = false -> ch = false /\ _packOperations st = l).
Proof.
  destruct (foldM_seq_inv (packOperation program maxLutSources) (fun i st => pack_inv i ch st) (length l) (mkPackState (newTracker l) l ch)) as (st & -> & HL & _ & _ & Hs & Hch).
  - split; [apply edited_upto_start|]. split; [apply tracks_empty|]. split_and!; [done| |done]. cbn. intros k op op' Hk Hk'. left. congruence.
  - intros i st Hi H. by apply packOperation_eq.
  - exists st. split_and!; [done|by eapply edited_upto_edited|done|done].
Qed.
End Block.
End Values.


(** ** A conjunction that only a disjunction reads

    [e = (a & b) | c] becomes one table of three bits. *)

Definition packProgram : Program := mkProgram ((mkRegisterDescription 1 Local) <$> ["a"; "b"; "c"; "d"; "e"]%string).
Definition packAnd : FlowOperation := demoUse (BinaryOp ParseTreeBinaryOpTypeAnd) [0%nat; 1%nat] [3%nat].
Definition packOr : FlowOperation := demoUse (BinaryOp ParseTreeBinaryOpTypeOr) [3%nat; 2%nat] [4%nat].
Definition packTable : FlowOperation := demoUse (LutOp (mkLut [fill_entry [(1%nat, 0); (2%nat, 0); (0%nat, 0)] 248])) [2%nat; 0%nat; 1%nat] [4%nat].
Definition packPrint : FlowOperation := demoUse (Print []) [4%nat] [].
Definition packBlocks : gmap nat FlowBlock := oneBlock [packAnd; packOr; packPrint].

Lemma pack_binary_ok t r0 r1 y : (r0 < 5)%nat -> (r1 < 5)%nat -> (y < 5)%nat -> t = ParseTreeBinaryOpTypeAnd \/ t = ParseTreeBinaryOpTypeOr ->
  let op := _operation (demoUse (BinaryOp t) [r0; r1] [y]) in packable packProgram op /\ trackable packProgram op.
Proof.
  intros H0 H1 Hy Ht op. assert (Hreg : forall r, (r < 5)%nat -> exists d, _registerTable packProgram !! r = Some d /\ _regWidth d = 1 /\ _type d = Local) by (intros r Hr; do 5 (destruct r as [|r]; [eexists; split; [reflexivity|]; by split|]); lia).
  assert (Hsrc : Forall (operand_wf packProgram) (_src op)) by (apply Forall_cons_2; [|apply Forall_singleton]; cbn; [destruct (Hreg r0 H0) as (d & Hd & Hw & _)|destruct (Hreg r1 H1) as (d & Hd & Hw & _)]; exists d; (split; [done|lia])).
  destruct (Hreg y Hy) as (d & Hd & Hw & Hl). assert (Hdw : dstWidth packProgram op = Ok 1) by (unfold dstWidth; cbn; unfold registerWidth; by rewrite (at_Some _ _ _ Hd), <- Hw).
  split; [split|].
  - left. split; [exact Hsrc|cbn; lia|cbn; lia|]. eexists _, 1. split; [reflexivity|]. split; [exact Hdw|lia].
  - exists 1%nat. split; [exact Hdw|]. split; [done|]. split; [by destruct Ht as [-> | ->]|]. intros _ o0 o1 a b _ _ _. by destruct Ht as [-> | ->].
  - done.
  - done.
  - split; [by apply DecomposeSelect.operands_in_table|]. exists y, d. by split_and!.
Qed.

Lemma pack_ok b op : b ∈ [0%nat] -> op ∈ opsOf packBlocks Unscheduled b -> CanOpcodeBeLoweredToLut (_opcode (_operation op)) = true -> packable packProgram (_operation op) /\ trackable packProgram (_operation op).
Proof.
  intros Hb Hop Hc. unfold packBlocks in Hop. rewrite oneBlock_ops in Hop by done.
  apply elem_of_cons in Hop as [->|[->|[->|[]%not_elem_of_nil]%elem_of_cons]%elem_of_cons]; [apply pack_binary_ok; (lia || by left)|apply pack_binary_ok; (lia || by right)|discriminate].
Qed.


End PackLuts.
